(* ===== verification/_CoqProject ===== *)
-Q . S2P
Prelude.v
Prog.v
GoStd.v
Encoding.v
Sha256.v
Json.v
Model.v
Rfc3339.v
LockedTransport.v
Manifests.v
Symlink.v
Effects.v
Os.v
Capability.v
Trust.v
MemStore.v
ClientEncryption.v
Repository.v
Compatibility.v
CompatibilityProofs.v
FileState.v
Watermark.v
Journal.v
MetadataCache.v
Semaphore.v
Flight.v
Backoff.v
Watch.v
DiskCache.v
DiskCacheProofs.v
DiskCacheStartup.v
Ancestry.v
Closure.v
Consumer.v
ConsumerProofs.v
Poll.v
Bundle.v
ShareReader.v
SealedState.v
PublisherState.v
RootPublisher.v
RootRecovery.v
Reader.v
ClosureProofs.v
BundleProofs.v
ShareReaderProofs.v
RootRecoveryProofs.v
Recovery.v
RecoveryProofs.v
Scan.v
Publisher.v
Selection.v
ScanTermination.v
ScanProofs.v
PublisherProofs.v
