(* ===== verification/Prelude.v ===== *)
(** * s3disk: a verification development

    s3disk publishes directory trees as immutable, content-addressed snapshots
    in an object store and lets readers follow a channel of snapshots.  This
    library models its core in Rocq and proves what makes it correct.

    ** The program and its parts

    A publisher scans a source tree, uploads chunks, file, symlink and
    directory manifests bottom-up, then a commit that names the root and the
    parent commit, and finally moves the reference of the channel with a
    conditional write.  With a signer it journals each reference write first and
    recovers after crashes.  A consumer reads the reference, verifies its
    signature, walks the ancestry of the new commit down to what it trusts,
    records a durable watermark and only then shows the snapshot; it reads files
    through caches that are shared by concurrent readers.  A snapshot can be
    shared with readers that have no credentials: a root object holds a signed
    bundle of presigned GET capabilities for exactly the objects of the
    snapshot, the publisher of the root journals every write of it in a sealed
    state store, and a share reader polls the root over a locked HTTP client and
    serves the objects to a consumer.

    ** How code becomes definitions

    A Go function that only computes is a Rocq function; (value, err) is
    [result] (Prelude); an error is the list of sentinels errors.Is finds in it.
    A function that calls an interface, the operating system, a clock or a
    random source is a program ([prog], [M] in Prog) whose calls are nodes; the
    answers come from the environment, so a theorem holds for every behaviour of
    the other side unless it states what it relies on ([mwp R G]: a rely on the
    answers and a guarantee on the calls).  Programs run ([run]) against a
    handler, which is how the witnesses evaluate them.  Goroutines that share
    state are transition systems whose steps are the critical sections.  Crash
    behaviour is a relation on disks (FileState).  Integers of the code keep
    their width where it matters ([u64], [int64_wrap]); float64 is the
    executable IEEE 754 model of the Standard Library.  Clones of values are the
    identity.  Text of error messages is dropped.

    ** Files

    - Prelude: byte strings, integers, errors, results, sums over maps.
    - Prog: effectful programs, their specifications and runs.
    - GoStd, Encoding, Sha256, Json: what the code uses of strings, path, sort,
      hex, base64, strconv, utf8, crypto/sha256, hmac and encoding/json.
    - Model (model.go, digest.go): manifests, limits, canonical JSON, content
      addressing.  Manifests (consumer.go, symlink.go): validation, lookup
      paths.  Symlink: what the symlink check means.
    - Effects (store.go and the other interfaces): the calls.  Os: file modes.
    - Trust (trust.go, reference_identity.go): signed references.
    - MemStore (memstore/memstore.go): the reference store.
    - ClientEncryption (client_encryption.go): keys, profiles, sealing.
    - Repository (repository.go, repository_descriptor.go): keys, immutable
      objects, references, commissioning.
    - Compatibility, CompatibilityProofs (compatibility.go,
      compatibility_report.go, compatibility_evidence.go): the commissioning
      probe of a store, its report and its cleanup.
    - FileState, Watermark, Journal (watermark.go, local_state.go,
      publication_journal.go): durable local state under crashes.
    - MetadataCache (metadata_cache.go), Semaphore and Flight
      (internal/syncutil): what concurrent readers share.
    - Backoff, Watch, Poll (live.go): options and retry delays; the watch loop
      and its publication worker; the polling loop over Refresh.
    - DiskCache, DiskCacheProofs, DiskCacheStartup (cache.go): the chunk cache
      on disk, its interleavings and its startup scan.
    - Ancestry, Consumer, ConsumerProofs, Reader (consumer.go,
      consumer_security.go): ancestry walks, refresh, lookups and reads.
    - Closure, ClosureProofs (snapshot_closure.go): the objects of a snapshot
      and the seal over them.
    - SealedState (sealed_state_store.go), PublisherState (publisherstate):
      encrypted local state under crashes, key rotation.
    - Rfc3339: time.Time in JSON.  Capability, Bundle, BundleProofs
      (presignedshare/capability.go, bundle.go, snapshot_bundle.go): exact-GET
      capabilities and the bundles that carry them.
    - LockedTransport (internal/tlsroots/pem.go and the HTTP client of
      presignedshare/reader.go), ShareReader, ShareReaderProofs
      (presignedshare/reader.go): the reader of a share, its transport and its
      trust roots.
    - RootPublisher, RootRecovery, RootRecoveryProofs
      (presignedshare/root_publisher.go, root_recovery.go,
      published_snapshot.go): the root of a share and its write-ahead journal.
    - Recovery, RecoveryProofs (publication_recovery.go): the journaled
      publication protocol.
    - Scan, Publisher, Selection, ScanTermination, ScanProofs, PublisherProofs
      (publisher.go, chunking.go): scan, staging, commit, reconciliation.

    ** What the theorems show

    - Consumers never go back or fork, refresh only to authenticated
      descendants, and persist before they show (Refresh_advances,
      consumer_never_rolls_back, validateDescendant_sound, poll_follows).
    - What a reader sees is the snapshot: lookups, listings and reads are exact
      (resolve_exact, ListDir_exact, ReadAt_exact, safe_symlink_confined).
    - A publication is complete before it is visible, selections are exact,
      lost responses are decided truthfully, scans end (Publish_complete,
      PublishSelected_exact, reconcileCommit_decides, scan_terminates), and
      live publication keeps its barrier and takes up every change
      (watch_keeps_barrier, watch_takes_up_changes).
    - Signed publication is write-ahead and installs what it reports
      (RecoverPublication_write_ahead, commitSignedPublication_installed), over
      journals and watermarks that survive crashes (journal_cas_crash_safe,
      watermark_cas_crash_safe, journal_history_monotone, intent_id_binds).
      watermark_long_channel_unreadable shows a watermark that is stored and
      cannot be loaded again.
    - A store that a probe finds compatible behaved as the contract says, with
      one winner among concurrent writers, and one that does is found compatible
      (probe_sound, probe_accepts, contention_order).
    - A share shows exactly one snapshot: closures, bundles and roots are exact
      and authenticated (ResolveSnapshotClosure_exact, closure_seal_binds,
      BuildSnapshotBundle_exact, Decode_authenticated, publish_exact); roots are
      written only as journaled, the journal refines an abstract log that names
      one content per revision, and recovery ends (root_writes_journaled,
      journal_refines_log, log_targets_unique, RecoverPending_terminates).
      PrepareRecovery_unwritten shows a success that stored nothing.
    - A share is read only through what it grants: requests go to the root URL
      and to the capability of the requested key, revisions do not go back, a
      key that could be read stays readable within an exact budget
      (Get_confined, installBundle_retains); readers are built with a client
      that cannot be routed or weakened and with exactly the given trust roots
      (NewReader_locked, ParsePEMCertificates_exact).
    - Sealed state survives crashes and key rotation (sealed_cas_crash_safe,
      sealed_state_survives_rotation).
    - References are authentic and bound to their context, encodings and
      sealing round-trip, keys do not collide (Trust, ClientEncryption,
      Repository).
    - Shared structures: the metadata cache refines an LRU list, reservations
      are bounded and granted in order, downloads are released once, the chunk
      cache is bounded and returns only verified bytes.

    SHA-256 is executable.  A theorem that needs it to be injective names the two
    inputs that would collide ([collide]), or is stated for every set of objects
    that has those the program reads ([Hashed] in Model, [hashing] in Repository)
    and excepts a collision of two of its members ([sha256_collision]): for a set
    without collisions, as the objects of the example library are
    (toy_objects_collide in Reader), there is no exception.

    ** Parameters and what is relied on

    Ed25519, AES-256-GCM and the content-defined splitter are not part of the
    repository: they are classes with the laws the code relies on (a signature
    verifies, opening inverts sealing, pieces concatenate to the file and keep
    the size bounds), with toy instances for the witnesses; url.Parse,
    net.ParseIP and strings.ToLower are the class [NetLibrary], pem.Decode,
    x509.ParseCertificate and Transport.Clone the classes [TLSLibrary] and
    [TransportLibrary], all without laws.  The environment of a consumer is
    relied on to share only values that were checked ([consumer_rely], discharged
    by the guarantee of the same programs), that of a share reader to install
    only what keeps its invariant ([reader_rely], which the Get of every
    goroutine keeps); the
    store contract ([StoreContract] in MemStore) is used by the round trips only.
    A directory listing of the chunk cache does not repeat a name
    ([fresh_listings]).

    ** Bounds and fuel

    Loops without a bound of their own take fuel that covers the limits of the
    code: pieces, batches and levels of a scan (scan_terminates: more fuel
    changes no run), bytes of a cache entry (readLoop_enough), entries of an
    eviction (the length of the list), batches of the startup scan (its entry
    budget), rounds of Poll, of a journaled root
    publication and numbers of refreshes (any number); RecoverPending has one
    round per write and one more (RecoverPending_terminates).  Ancestry
    walks recurse on the generation.  JSON parsing recurses on the input length,
    the PEM parser has a round per byte and one more (it ends:
    ParsePEMCertificates_exact).  Where the code draws random revisions until one
    differs from the current one, the model (newPublicationJournalRevision,
    newFileSealedStateRevision) fails after 64 equal draws; the theorems about
    these stores hold for failed draws as well.

    ** Not modelled

    The S3 adapter (s3store), mounting and WebDAV and the command line: network,
    kernel and process I/O.  What HTTP does with a request and the dialer behind
    the locked client are effects.
    The texts and the redacted JSON of a compatibility report are dropped.
    fsnotify and the watch tree over it answer freely in Watch.  Checks of
    ownership and permissions of local files are calls.  Of configuration
    mistakes that Go's types allow, a nil repository, reader or semaphore, an
    undefined SymlinkPolicy and a nil context have no counterpart in the model's
    types. *)

From Stdlib Require Export Strings.Byte Sorting.Sorted.
From stdpp Require Export base tactics option list numbers gmap strings.

#[global] Open Scope Z_scope.

(** ** Byte strings

    Go strings and byte slices are both sequences of bytes; the model uses one
    type for their contents. *)

Abbreviation byte := Byte.byte.
Abbreviation bytes := (list Byte.byte).

#[export] Instance byte_eq_decision : EqDecision byte := Byte.byte_eq_dec.

#[export] Program Instance byte_countable : Countable byte :=
  inj_countable Byte.to_N Byte.of_N _.
Next Obligation. intros b. apply Byte.of_to_N. Qed.

(** A string literal of the source as bytes. *)
Definition str (s : string) : bytes := String.list_byte_of_string s.

(** Numeric value of a byte and back; [byte_of_N] wraps at 256 as a Go
    conversion to [byte] does. *)
Definition byte_val (b : byte) : N := Byte.to_N b.

Definition byte_of (n : N) : byte :=
  match Byte.of_N (n mod 256) with Some b => b | None => x00 end.

Lemma byte_val_lt b : (byte_val b < 256)%N.
Proof. unfold byte_val. pose proof (Byte.to_N_bounded b). lia. Qed.

Lemma byte_of_val b : byte_of (byte_val b) = b.
Proof.
  unfold byte_of, byte_val. rewrite N.mod_small by apply byte_val_lt.
  by rewrite Byte.of_to_N.
Qed.

Lemma byte_val_of n : byte_val (byte_of n) = (n mod 256)%N.
Proof.
  unfold byte_of, byte_val.
  destruct (Byte.of_N (n mod 256)) eqn:E.
  - by apply Byte.to_of_N.
  - apply Byte.of_N_None_iff in E.
    pose proof (N.mod_lt n 256). lia.
Qed.

Lemma byte_val_inj a b : byte_val a = byte_val b → a = b.
Proof. intros H. by rewrite <- (byte_of_val a), <- (byte_of_val b), H. Qed.

(** ** Boolean tests as the source writes them *)

Declare Scope go_scope.
Delimit Scope go_scope with go.
Notation "x ==? y" := (bool_decide (x = y)) (at level 70, no associativity) : go_scope.
Notation "x !=? y" := (negb (bool_decide (x = y))) (at level 70, no associativity) : go_scope.
#[global] Open Scope go_scope.

(** Go's [len] of a string or slice. *)
Definition len {A} (l : list A) : Z := Z.of_nat (length l).

Lemma len_nonneg {A} (l : list A) : 0 ≤ len l.
Proof. unfold len. lia. Qed.

Lemma len_app {A} (l k : list A) : len (l ++ k) = len l + len k.
Proof. unfold len. rewrite length_app. lia. Qed.

Lemma len_nil {A} : len (@nil A) = 0.
Proof. done. Qed.

Lemma len_nil_iff {A} (l : list A) : len l = 0 ↔ l = [].
Proof. unfold len. destruct l; simpl; split; try done; lia. Qed.

(** ** Machine integers

    Unsigned 64-bit values are naturals below 2^64 ([N]); signed ones are in
    [Z].  Arithmetic that the source performs at a width is written with the
    wrap. *)
Definition u64_max : N := 18446744073709551615.
Definition int64_max : Z := 9223372036854775807.
Definition int64_min : Z := -9223372036854775808.

Definition u64_wf (n : N) : bool := (n <=? u64_max)%N.
Definition int64_wf (z : Z) : bool := (int64_min <=? z) && (z <=? int64_max).

(** uint64 subtraction. *)
Definition u64_sub (a b : N) : N :=
  if (b <=? a)%N then (a - b)%N else (a + (u64_max + 1) - b)%N.

(** uint64 addition. *)
Definition u64_add (a b : N) : N := ((a + b) mod (u64_max + 1))%N.

(** int64 addition: two's complement wrap. *)
Definition int64_wrap (z : Z) : Z :=
  (z - int64_min) mod (2 ^ 64) + int64_min.

Lemma u64_sub_exact a b : (b ≤ a)%N → u64_sub a b = (a - b)%N.
Proof. intros H. unfold u64_sub. by destruct (N.leb_spec b a); [|lia]. Qed.

Lemma u64_add_exact a b : (a + b ≤ u64_max)%N → u64_add a b = (a + b)%N.
Proof. intros H. unfold u64_add. rewrite N.mod_small; [done|lia]. Qed.

Lemma int64_wrap_id z : int64_min ≤ z ≤ int64_max → int64_wrap z = z.
Proof.
  unfold int64_wrap, int64_min, int64_max. intros H.
  rewrite Z.mod_small; lia.
Qed.

(** A sum of non-negative int64 that wraps is negative. *)
Lemma int64_add_exact a b :
  0 ≤ a ≤ int64_max → 0 ≤ b ≤ int64_max → 0 ≤ int64_wrap (a + b) → int64_wrap (a + b) = a + b.
Proof.
  intros Ha Hb. destruct (Z.le_gt_cases (a + b) int64_max) as [H|H].
  { intros _. apply int64_wrap_id. unfold int64_min, int64_max in *. lia. }
  revert Ha Hb H. unfold int64_wrap, int64_min, int64_max. intros Ha Hb H.
  replace ((a + b - -9223372036854775808) mod 2 ^ 64) with (a + b - -9223372036854775808 - 2 ^ 64);
    [lia|].
  apply (Z.mod_unique _ _ 1); lia.
Qed.

Lemma int64_wrap_range z : int64_min ≤ int64_wrap z ≤ int64_max.
Proof.
  unfold int64_wrap, int64_min, int64_max.
  pose proof (Z.mod_pos_bound (z - -9223372036854775808) (2 ^ 64)). lia.
Qed.

(** A sum past the maximum is negative. *)
Lemma int64_wrap_over a b :
  0 ≤ a ≤ int64_max → 0 ≤ b ≤ int64_max → int64_max < a + b → int64_wrap (a + b) < 0.
Proof.
  intros Ha Hb H. destruct (Z.lt_ge_cases (int64_wrap (a + b)) 0) as [|Hge]; [done|].
  pose proof (int64_add_exact a b Ha Hb Hge). pose proof (int64_wrap_range (a + b)). lia.
Qed.

(** ** Errors

    A Go error is represented by the sentinel values [errors.Is] finds in it:
    [fmt.Errorf] with [%w] keeps the sentinels of the wrapped errors, [%v]
    drops them, and an error made from plain text has none.  Message text is
    not modelled.  A sentinel of package [publisherstate] has the prefix [Ps]. *)
Inductive sentinel :=
| ErrObjectNotFound | ErrNotModified | ErrPrecondition | ErrPublishConflict
| ErrPublishIndeterminate | ErrNoSnapshot | ErrPathNotFound | ErrInvalidPath
| ErrNotDirectory | ErrIsDirectory | ErrUnsupportedType | ErrCorruptObject
| ErrSplitBrain | ErrUnstableFile | ErrInvalidChunking | ErrInvalidReference
| ErrInvalidSnapshotClosure | ErrResourceLimit | ErrGenerationExhausted
| ErrRollbackDetected | ErrStoreIncompatible | ErrBucketNotFound
| ErrStoreMisconfigured | ErrStoreOperationUnsupported | ErrAccessDenied
| ErrRateLimited | ErrStoreUnavailable | ErrRepositoryNotInitialized
| ErrRepositoryConfigurationMismatch | ErrRepositoryInitializationIndeterminate
| ErrRepositoryReadOnly | ErrUnsafeSymlink | ErrUntrustedReference
| ErrTrustStateRequired | ErrTrustStateUnsupported | ErrProtectedSourceFile
| CtxCanceled | CtxDeadlineExceeded | OsErrNotExist | OsErrExist | OsErrClosed
| IoEOF | IoErrShortWrite
| PsErrInvalidRecoveryKey | PsErrInvalidKeyID | PsErrInvalidBinding | PsErrInvalidEnvelope
| PsErrAuthenticationFailed | PsErrResourceLimit | PsErrProtectorUnavailable | PsErrProtectorConflict
| ErrInvalidCapability | ErrInvalidBundle | ErrUntrustedBundle | ErrRootPublishConflict
| ErrRootBuildAuthorityRequired | ErrRootPublishIndeterminate | ErrRootRecoveryState
| ErrRootRecoveryIndeterminate.

#[export] Instance sentinel_eq_decision : EqDecision sentinel.
Proof. solve_decision. Defined.

Abbreviation error := (list sentinel).

(** [errors.Is]. *)
Definition errors_Is (e : error) (s : sentinel) : bool := bool_decide (s ∈ e).

(** An error with text only. *)
Definition errorText : error := [].

Lemma errors_Is_true e s : errors_Is e s = true ↔ s ∈ e.
Proof. apply bool_decide_eq_true. Qed.

(** The (value, err) pair of a Go function whose value is meaningful only when
    [err] is nil. *)
Inductive result (A : Type) :=
| Ok (a : A)
| Err (e : error).
Arguments Ok {A} _.
Arguments Err {A} _.

Definition result_bind {A B} (m : result A) (f : A → result B) : result B :=
  match m with Ok a => f a | Err e => Err e end.

(** Replaces the error, as [return fmt.Errorf("...: %w", err)] does. *)
Definition result_wrap {A} (f : error → error) (m : result A) : result A :=
  match m with Ok a => Ok a | Err e => Err (f e) end.

Definition is_ok {A} (m : result A) : bool := if m is Ok _ then true else false.

(** A guard with an early return. *)
Definition guard_err (c : bool) (e : error) : result unit :=
  if c then Err e else Ok tt.

Notation "x <-? m ;; k" := (result_bind m (λ x, k))
  (at level 20, m at level 99, k at level 200, right associativity) : go_scope.
Notation "' p <-? m ;; k" := (result_bind m (λ x, match x with p => k end))
  (at level 20, p pattern, m at level 99, k at level 200, right associativity) : go_scope.
Notation "m ?;; k" := (result_bind m (λ _, k))
  (at level 100, k at level 200, right associativity) : go_scope.

Lemma result_bind_ok {A B} (m : result A) (f : A → result B) b :
  result_bind m f = Ok b ↔ ∃ a, m = Ok a ∧ f a = Ok b.
Proof. destruct m; simpl; naive_solver. Qed.

Lemma result_wrap_ok {A} f (m : result A) a : result_wrap f m = Ok a ↔ m = Ok a.
Proof. destruct m; simpl; naive_solver. Qed.

Lemma guard_err_ok c e u : guard_err c e = Ok u ↔ c = false.
Proof. destruct c, u; simpl; naive_solver. Qed.

Lemma check_bind_ok {B} (m : result unit) (k : result B) b :
  (m ?;; k) = Ok b ↔ m = Ok tt ∧ k = Ok b.
Proof. destruct m as [[]|]; simpl; naive_solver. Qed.

Lemma guard_bind_ok {B} c e (k : result B) b :
  (guard_err c e ?;; k) = Ok b ↔ c = false ∧ k = Ok b.
Proof. rewrite check_bind_ok. by rewrite guard_err_ok. Qed.

(** ** Sorted lists *)

Lemma sorted_lookup {A} (R : A → A → Prop) l i j x y :
  StronglySorted R l → (i < j)%nat → l !! i = Some x → l !! j = Some y → R x y.
Proof.
  intros Hs. revert i j. induction Hs as [|a l Hs IH Ha]; intros i j Hij Hi Hj; [done|].
  destruct j as [|j]; [lia|]. simpl in Hj. destruct i as [|i]; simpl in Hi.
  - injection Hi as ->. rewrite Forall_forall in Ha. apply Ha. by eapply list_elem_of_lookup_2.
  - apply (IH i j); [lia|done|done].
Qed.

(** ** Automation *)

(** Turns boolean facts into propositions. *)
Ltac bool_prop :=
  repeat match goal with
  | H : bool_decide _ = true |- _ => apply bool_decide_eq_true in H
  | H : bool_decide _ = false |- _ => apply bool_decide_eq_false in H
  | H : negb _ = true |- _ => apply negb_true_iff in H
  | H : negb _ = false |- _ => apply negb_false_iff in H
  | H : _ && _ = true |- _ => apply andb_true_iff in H as [? ?]
  | H : _ || _ = false |- _ => apply orb_false_iff in H as [? ?]
  | H : (_ <? _)%Z = true |- _ => apply Z.ltb_lt in H
  | H : (_ <? _)%Z = false |- _ => apply Z.ltb_ge in H
  | H : (_ <=? _)%Z = true |- _ => apply Z.leb_le in H
  | H : (_ <=? _)%Z = false |- _ => apply Z.leb_gt in H
  | H : (_ =? _)%Z = true |- _ => apply Z.eqb_eq in H
  | H : (_ =? _)%Z = false |- _ => apply Z.eqb_neq in H
  | H : (_ <? _)%N = true |- _ => apply N.ltb_lt in H
  | H : (_ <? _)%N = false |- _ => apply N.ltb_ge in H
  | H : (_ <=? _)%N = true |- _ => apply N.leb_le in H
  | H : (_ <=? _)%N = false |- _ => apply N.leb_gt in H
  | H : (_ =? _)%N = true |- _ => apply N.eqb_eq in H
  | H : (_ =? _)%N = false |- _ => apply N.eqb_neq in H
  end.

(** Takes apart a successful chain of fallible steps. *)
Ltac ok_inv :=
  repeat match goal with
  | H : result_bind _ _ = Ok _ |- _ =>
      let x := fresh "v" in let H1 := fresh "Hok" in
      apply result_bind_ok in H as (x & H1 & H)
  | H : result_wrap _ _ = Ok _ |- _ => apply result_wrap_ok in H
  | H : guard_err _ _ = Ok _ |- _ => apply guard_err_ok in H
  | H : Ok _ = Ok _ |- _ => injection H as H
  | H : Err _ = Ok _ |- _ => discriminate H
  | H : Ok _ = Err _ |- _ => discriminate H
  end.

(** Evaluates the comparisons of byte constants in the goal. *)
Ltac byte_tests :=
  repeat match goal with
  | |- context [@bool_decide (@eq byte ?a ?b) ?d] =>
      let v := eval vm_compute in (@bool_decide (@eq byte a b) d) in
      lazymatch v with
      | true => idtac
      | false => idtac
      end;
      change (@bool_decide (@eq byte a b) d) with v
  end; cbv iota.

Create HintDb s3disk.
#[export] Hint Resolve len_nonneg byte_val_lt : s3disk.
Create Rewrite HintDb s3disk.
#[export] Hint Rewrite @len_app byte_of_val : s3disk.

(** ** Generic lemmas *)

Lemma list_eq_nil_len {A} (l : list A) : (len l =? 0) = true ↔ l = [].
Proof. rewrite Z.eqb_eq. apply len_nil_iff. Qed.

Lemma option_eqb_Some {A} `{EqDecision A} (o : option A) (a : A) :
  (o ==? Some a) = true ↔ o = Some a.
Proof. apply bool_decide_eq_true. Qed.

(** Choice over the elements of a list. *)
Lemma finite_choice {A B} `{EqDecision A} `{Inhabited B} (l : list A) (R : A → B → Prop) :
  (∀ x, x ∈ l → ∃ y, R x y) → ∃ f, ∀ x, x ∈ l → R x (f x).
Proof.
  induction l as [|a l IH]; intros Hl; [exists (λ _, inhabitant); set_solver|].
  destruct IH as [f Hf]; [intros x Hx; apply Hl; by right|]. destruct (Hl a) as [y Hy]; [by left|].
  exists (λ x, if decide (x = a) then y else f x). intros x [->|Hx]%elem_of_cons; case_decide; subst; auto. done.
Qed.

(** ** Sums over finite maps *)

Section Total.
Context `{Countable K}.
Implicit Types m : gmap K Z.

Definition total (m : gmap K Z) : Z := map_fold (λ _ w n, w + n) 0 m.

Lemma total_insert m i w : m !! i = None → total (<[i := w]> m) = w + total m.
Proof. intros Hi. unfold total. rewrite map_fold_insert_L; [done|lia|done]. Qed.

Lemma total_delete m i w : m !! i = Some w → total m = w + total (delete i m).
Proof. intros Hi. unfold total. rewrite (map_fold_delete_L _ _ i w); [done|lia|done]. Qed.

Lemma total_nonneg m : (∀ i w, m !! i = Some w → 0 ≤ w) → 0 ≤ total m.
Proof.
  induction m as [|i w m Hi IH] using map_ind; intros Hm; [by unfold total; rewrite map_fold_empty|].
  rewrite total_insert by done. assert (0 ≤ w) by (apply (Hm i), lookup_insert_eq).
  assert (0 ≤ total m); [|lia]. apply IH. intros j x Hj. apply (Hm j). rewrite lookup_insert_ne; [done|]. intros ->. congruence.
Qed.

Lemma total_lookup m i w : (∀ i w, m !! i = Some w → 0 ≤ w) → m !! i = Some w → w ≤ total m.
Proof.
  intros Hm Hi. rewrite (total_delete m i w Hi).
  assert (0 ≤ total (delete i m)); [|lia]. apply total_nonneg. intros j x Hj%lookup_delete_Some. by apply (Hm j), Hj.
Qed.

Lemma total_replace m i w w' : m !! i = Some w → total (<[i := w']> m) = total m - w + w'.
Proof.
  intros Hi. rewrite <- insert_delete_eq, total_insert by apply lookup_delete_eq.
  rewrite (total_delete m i w Hi). lia.
Qed.
End Total.

(** How many values of a map satisfy a test. *)
Definition count `{Countable K} {A} (f : A → bool) (m : gmap K A) : Z := total (Z.b2z ∘ f <$> m).

Section Count.
Context `{Countable K} {A : Type} (f : A → bool).
Implicit Types m : gmap K A.

Lemma count_empty : count f (∅ : gmap K A) = 0.
Proof. unfold count, total. by rewrite fmap_empty, map_fold_empty. Qed.

Lemma count_insert m i x : m !! i = None → count f (<[i := x]> m) = Z.b2z (f x) + count f m.
Proof. intros Hi. unfold count. rewrite fmap_insert, total_insert; [done|]. by rewrite lookup_fmap, Hi. Qed.

Lemma count_delete m i x : m !! i = Some x → count f (delete i m) = count f m - Z.b2z (f x).
Proof.
  intros Hi. unfold count. rewrite fmap_delete, (total_delete (_ <$> m) i (Z.b2z (f x))); [lia|].
  by rewrite lookup_fmap, Hi.
Qed.

Lemma count_replace m i x y : m !! i = Some x → count f (<[i := y]> m) = count f m - Z.b2z (f x) + Z.b2z (f y).
Proof. intros Hi. unfold count. rewrite fmap_insert. apply total_replace. by rewrite lookup_fmap, Hi. Qed.

Lemma count_nonneg m : 0 ≤ count f m.
Proof.
  apply total_nonneg. intros i w. rewrite lookup_fmap. intros (x & _ & ->)%fmap_Some_1. simpl. destruct (f x); simpl; lia.
Qed.

Lemma count_lookup m i x : m !! i = Some x → f x = true → 0 < count f m.
Proof.
  intros Hi Hx. pose proof (count_delete m i x Hi) as Hd. pose proof (count_nonneg (delete i m)). rewrite Hx in Hd.
  simpl in Hd. lia.
Qed.

Lemma count_zero m : (∀ i x, m !! i = Some x → f x = false) → count f m = 0.
Proof.
  induction m as [|i x m Hi IH] using map_ind; intros Hf; [apply count_empty|].
  rewrite count_insert by done. rewrite (Hf i x) by apply lookup_insert_eq. simpl. apply IH.
  intros j y Hj. apply (Hf j). rewrite lookup_insert_ne; [done|]. intros ->. congruence.
Qed.
End Count.
