(* ===== verification/Prog.v ===== *)
(** * Effectful programs

    The functions of s3disk that call an interface (object store, watermark
    store, journal, signer, context, ...) are modelled as finite interaction
    programs: a call is a node whose continuation receives the answer.  The
    answers come from the environment, so a theorem about a program holds for
    every behaviour of the other side, concurrent processes and lost responses
    included, unless it states what the environment guarantees.

    [wp R G p h Q] says: running [p] after the interaction history [h], every
    call [p] makes is allowed by [G], and if every answer is allowed by [R],
    then [p] ends with a result and a history that satisfy [Q].  [run] executes
    a program against a concrete handler; [wp_run] links the two. *)

From S2P Require Import Prelude.

Section Prog.
Context {E : Type → Type}.

Inductive prog (A : Type) : Type :=
| Ret (a : A)
| Vis {X : Type} (e : E X) (k : X → prog A).

Arguments Ret {A} _.
Arguments Vis {A X} _ _.

Fixpoint prog_bind {A B} (p : prog A) (f : A → prog B) : prog B :=
  match p with
  | Ret a => f a
  | Vis e k => Vis e (λ x, prog_bind (k x) f)
  end.

Definition trigger {X} (e : E X) : prog X := Vis e Ret.

(** One call with its answer. *)
Inductive event : Type :=
| Ev {X : Type} (e : E X) (x : X).

Definition history := list event.

(** What the environment may answer, and what the program may ask. *)
Definition rely := history → ∀ X, E X → X → Prop.
Definition guarantee := history → ∀ X, E X → Prop.

Fixpoint wp {A} (R : rely) (G : guarantee) (p : prog A) (h : history)
    (Q : history → A → Prop) : Prop :=
  match p with
  | Ret a => Q h a
  | @Vis _ X e k =>
      G h X e ∧ ∀ x, R h X e x → wp R G (k x) (h ++ [Ev e x]) Q
  end.

Lemma wp_mono {A} (R : rely) (G : guarantee) (p : prog A) h (Q Q' : history → A → Prop) :
  wp R G p h Q → (∀ h' a, Q h' a → Q' h' a) → wp R G p h Q'.
Proof.
  revert h. induction p as [a|X e k IH]; simpl; intros h H HQ; [by apply HQ|].
  destruct H as [HG H]. split; [done|]. intros x Hx. by apply IH; [apply H|].
Qed.

Lemma wp_bind {A B} (R : rely) (G : guarantee) (p : prog A) (f : A → prog B) h Q :
  wp R G (prog_bind p f) h Q ↔ wp R G p h (λ h' a, wp R G (f a) h' Q).
Proof.
  revert h. induction p as [a|X e k IH]; simpl; intros h; [done|].
  split; intros [HG H]; (split; [done|]); intros x Hx; apply IH, H, Hx.
Qed.

Lemma wp_bind_intro {A B} (R : rely) (G : guarantee) (p : prog A) (f : A → prog B) h
    (P : history → A → Prop) Q :
  wp R G p h P → (∀ h' a, P h' a → wp R G (f a) h' Q) →
  wp R G (prog_bind p f) h Q.
Proof. intros HP Hf. apply wp_bind. by eapply wp_mono. Qed.

Lemma wp_conj {A} (R : rely) (G : guarantee) (p : prog A) h (Q Q' : history → A → Prop) :
  wp R G p h Q → wp R G p h Q' → wp R G p h (λ h' a, Q h' a ∧ Q' h' a).
Proof.
  revert h. induction p as [a|X e k IH]; simpl; intros h H H'; [done|].
  destruct H as [HG H], H' as [_ H']. split; [done|].
  intros x Hx. by apply IH; [apply H|apply H'].
Qed.

(** A more reliable environment, a looser guarantee. *)
Lemma wp_weaken {A} (R R' : rely) (G G' : guarantee) (p : prog A) h (Q : history → A → Prop) :
  (∀ h X (e : E X) x, R' h X e x → R h X e x) → (∀ h X (e : E X), G h X e → G' h X e) →
  wp R G p h Q → wp R' G' p h Q.
Proof.
  intros HR HG. revert h. induction p as [a|X e k IH]; simpl; intros h H; [done|].
  destruct H as [H1 H2]. split; [by apply HG|]. intros x Hx. by apply IH, H2, HR.
Qed.

(** A program only extends the history. *)
Lemma wp_history {A} (R : rely) (p : prog A) h :
  wp R (λ _ _ _, True) p h (λ h' _, ∃ k, h' = h ++ k).
Proof.
  revert h. induction p as [a|X e k IH]; simpl; intros h.
  - exists []. by rewrite app_nil_r.
  - split; [done|]. intros x _. eapply wp_mono; [apply IH|].
    intros h' _ [k' ->]. exists (Ev e x :: k'). by rewrite <- app_assoc.
Qed.

(** ** Execution against a handler *)

Definition handler (W : Type) := ∀ X, E X → W → W * X.

Fixpoint run {W A} (H : handler W) (p : prog A) (w : W) : W * A :=
  match p with
  | Ret a => (w, a)
  | @Vis _ X e k => let '(w', x) := H X e w in run H (k x) w'
  end.

(** A handler whose answers the rely admits, as witnessed by an invariant
    [I] between its state and the history, gives runs that satisfy what [wp]
    proves. *)
Lemma wp_run {W A} (H : handler W) (R : rely) (G : guarantee)
    (I : W → history → Prop) (p : prog A) :
  (∀ w h X (e : E X), I w h → G h X e →
     R h X e (H X e w).2 ∧ I (H X e w).1 (h ++ [Ev e (H X e w).2])) →
  ∀ w h Q, I w h → wp R G p h Q →
  ∃ h', Q h' (run H p w).2 ∧ I (run H p w).1 h'.
Proof.
  intros HH. induction p as [a|X e k IH]; simpl; intros w h Q HI Hwp; [by eauto|].
  destruct Hwp as [HG Hwp].
  destruct (HH w h X e HI HG) as [HR HI'].
  destruct (H X e w) as [w' x] eqn:Hw; simpl in *.
  exact (IH x w' _ Q HI' (Hwp x HR)).
Qed.

Lemma run_bind {W A B} (H : handler W) (p : prog A) (f : A → prog B) w :
  run H (prog_bind p f) w = run H (f (run H p w).2) (run H p w).1.
Proof.
  revert w. induction p as [a|X e k IH]; simpl; intros w; [done|].
  by destruct (H X e w) as [w' x]; rewrite IH.
Qed.
End Prog.

Arguments prog E A : clear implicits.
Arguments Ret {E A} _.
Arguments Vis {E A X} _ _.
Arguments event E : clear implicits.
Arguments history E : clear implicits.
Arguments rely E : clear implicits.
Arguments guarantee E : clear implicits.
Arguments handler E W : clear implicits.

(** Relies and guarantees that exclude nothing. *)
Definition any_rely {E} : rely E := λ _ _ _ _, True.
Definition any_call {E} : guarantee E := λ _ _ _, True.

(** ** The monad of the model's methods

    A method of a Go object that returns (value, err) takes the object's
    fields as its state [S]; the state survives an error return, as the fields
    of a mutated object do. *)
Definition M (E : Type → Type) (S A : Type) : Type := S → prog E (S * result A).

Section Monad.
Context {E : Type → Type} {S : Type}.

Definition mret {A} (a : A) : M E S A := λ s, Ret (s, Ok a).
Definition mfail {A} (e : error) : M E S A := λ s, Ret (s, Err e).

Definition mbind {A B} (m : M E S A) (f : A → M E S B) : M E S B :=
  λ s, prog_bind (m s) (λ '(s', r),
    match r with Ok a => f a s' | Err e => Ret (s', Err e) end).

(** The call's (value, err) pair handed to the caller. *)
Definition mtry {A} (m : M E S A) : M E S (result A) :=
  λ s, prog_bind (m s) (λ '(s', r), Ret (s', Ok r)).

(** [return fmt.Errorf("...%w", err)]. *)
Definition mwrap {A} (f : error → error) (m : M E S A) : M E S A :=
  λ s, prog_bind (m s) (λ '(s', r), Ret (s', result_wrap f r)).

(** A pure fallible step. *)
Definition mlift {A} (r : result A) : M E S A := λ s, Ret (s, r).

(** A guard with an early error return. *)
Definition mguard (c : bool) (e : error) : M E S unit := mlift (guard_err c e).

Definition mget : M E S S := λ s, Ret (s, Ok s).
Definition mput (s : S) : M E S unit := λ _, Ret (s, Ok tt).
Definition mmodify (f : S → S) : M E S unit := λ s, Ret (f s, Ok tt).

(** A call of an interface method. *)
Definition mcall {X} (e : E X) : M E S X := λ s, Vis e (λ x, Ret (s, Ok x)).

(** A call whose answer is itself a (value, err) pair. *)
Definition mcallr {X} (e : E (result X)) : M E S X := λ s, Vis e (λ r, Ret (s, r)).
End Monad.

Notation "x <- m ;; k" := (mbind m (λ x, k))
  (at level 20, m at level 99, k at level 200, right associativity) : go_scope.
Notation "' p <- m ;; k" := (mbind m (λ x, match x with p => k end))
  (at level 20, p pattern, m at level 99, k at level 200, right associativity) : go_scope.
Notation "m ';;;' k" := (mbind m (λ _, k))
  (at level 100, k at level 200, right associativity) : go_scope.

Arguments mbind : simpl never.
Arguments mtry : simpl never.
Arguments mwrap : simpl never.

(** ** Specifications of methods *)

Section Triple.
Context {E : Type → Type} {S : Type}.
Implicit Types (R : rely E) (G : guarantee E).

(** [mwp R G m s h Q]: the method [m] called in state [s] after [h]. *)
Definition mwp {A} R G (m : M E S A) (s : S) (h : history E)
    (Q : history E → S → result A → Prop) : Prop :=
  wp R G (m s) h (λ h' '(s', r), Q h' s' r).

Lemma mwp_mono {A} R G (m : M E S A) s h (Q Q' : history E → S → result A → Prop) :
  mwp R G m s h Q → (∀ h' s' r, Q h' s' r → Q' h' s' r) → mwp R G m s h Q'.
Proof. intros H HQ. eapply wp_mono; [exact H|]. intros h' [s' r]. apply HQ. Qed.

Lemma mwp_ret {A} R G (a : A) s h (Q : _ → _ → result A → Prop) :
  Q h s (Ok a) → mwp R G (mret a) s h Q.
Proof. done. Qed.

Lemma mwp_fail {A} R G e s h (Q : _ → _ → result A → Prop) :
  Q h s (Err e) → mwp R G (mfail e) s h Q.
Proof. done. Qed.

Lemma mwp_bind {A B} R G (m : M E S A) (f : A → M E S B) s h Q :
  mwp R G m s h (λ h' s' r,
    match r with Ok a => mwp R G (f a) s' h' Q | Err e => Q h' s' (Err e) end) →
  mwp R G (mbind m f) s h Q.
Proof.
  intros H. unfold mwp, mbind. apply wp_bind. eapply wp_mono; [exact H|].
  by intros h' [s' [a|e]].
Qed.

Lemma mwp_try {A} R G (m : M E S A) s h Q :
  mwp R G m s h (λ h' s' r, Q h' s' (Ok r)) → mwp R G (mtry m) s h Q.
Proof.
  intros H. unfold mwp, mtry. apply wp_bind. eapply wp_mono; [exact H|].
  by intros h' [s' r].
Qed.

Lemma mwp_wrap {A} R G f (m : M E S A) s h Q :
  mwp R G m s h (λ h' s' r, Q h' s' (result_wrap f r)) → mwp R G (mwrap f m) s h Q.
Proof.
  intros H. unfold mwp, mwrap. apply wp_bind. eapply wp_mono; [exact H|].
  by intros h' [s' r].
Qed.

Lemma mwp_lift {A} R G (r : result A) s h (Q : _ → _ → result A → Prop) :
  Q h s r → mwp R G (mlift r) s h Q.
Proof. done. Qed.

Lemma mwp_guard R G c e s h (Q : _ → _ → result unit → Prop) :
  (c = true → Q h s (Err e)) → (c = false → Q h s (Ok tt)) →
  mwp R G (mguard c e) s h Q.
Proof. intros Ht Hf. destruct c; [by apply Ht|by apply Hf]. Qed.

Lemma mwp_get R G s h (Q : _ → _ → result S → Prop) :
  Q h s (Ok s) → mwp R G mget s h Q.
Proof. done. Qed.

Lemma mwp_put R G s0 s h (Q : _ → _ → result unit → Prop) :
  Q h s0 (Ok tt) → mwp R G (mput s0) s h Q.
Proof. done. Qed.

Lemma mwp_modify R G f s h (Q : _ → _ → result unit → Prop) :
  Q h (f s) (Ok tt) → mwp R G (mmodify f) s h Q.
Proof. done. Qed.

Lemma mwp_call {X} R G (e : E X) s h (Q : _ → _ → result X → Prop) :
  G h X e → (∀ x, R h X e x → Q (h ++ [Ev e x]) s (Ok x)) →
  mwp R G (mcall e) s h Q.
Proof. intros HG H. split; [done|]. intros x Hx. by apply H. Qed.

Lemma mwp_callr {X} R G (e : E (result X)) s h (Q : _ → _ → result X → Prop) :
  G h _ e → (∀ r, R h _ e r → Q (h ++ [Ev e r]) s r) →
  mwp R G (mcallr e) s h Q.
Proof. intros HG H. split; [done|]. intros x Hx. by apply H. Qed.

Lemma mwp_conj {A} R G (m : M E S A) s h (Q Q' : history E → S → result A → Prop) :
  mwp R G m s h Q → mwp R G m s h Q' →
  mwp R G m s h (λ h' s' r, Q h' s' r ∧ Q' h' s' r).
Proof.
  intros H H'. eapply wp_mono; [exact (wp_conj _ _ _ _ _ _ H H')|].
  by intros h' [s' r] [HQ HQ'].
Qed.
End Triple.

(** One structural step of a [mwp] goal; calls of named methods are left for
    their lemmas. *)
Ltac mwp_step :=
  lazymatch goal with
  | |- mwp _ _ (mbind _ _) _ _ _ => apply mwp_bind
  | |- mwp _ _ (mret _) _ _ _ => apply mwp_ret
  | |- mwp _ _ (mfail _) _ _ _ => apply mwp_fail
  | |- mwp _ _ (mtry _) _ _ _ => apply mwp_try
  | |- mwp _ _ (mwrap _ _) _ _ _ => apply mwp_wrap
  | |- mwp _ _ (mlift _) _ _ _ => apply mwp_lift
  | |- mwp _ _ (mguard _ _) _ _ _ => apply mwp_guard; intros ?
  | |- mwp _ _ mget _ _ _ => apply mwp_get
  | |- mwp _ _ (mput _) _ _ _ => apply mwp_put
  | |- mwp _ _ (mmodify _) _ _ _ => apply mwp_modify
  end.

Ltac mwp_steps := repeat (mwp_step; simpl).

(** ** Running methods *)

Lemma run_mbind {E S W A B} (H : handler E W) (m : M E S A) (f : A → M E S B) s w :
  run H (mbind m f s) w =
  let '(w', (s', r)) := run H (m s) w in
  match r with Ok a => run H (f a s') w' | Err e => (w', (s', Err e)) end.
Proof.
  unfold mbind. rewrite run_bind. destruct (run H (m s) w) as [w' [s' [a|e]]]; done.
Qed.

Lemma run_mwrap {E S W A} (H : handler E W) g (m : M E S A) s w :
  run H (mwrap g m s) w =
  let '(w', (s', r)) := run H (m s) w in (w', (s', result_wrap g r)).
Proof. unfold mwrap. rewrite run_bind. by destruct (run H (m s) w) as [w' [s' r]]. Qed.

Lemma run_mtry {E S W A} (H : handler E W) (m : M E S A) s w :
  run H (mtry m s) w = let '(w', (s', r)) := run H (m s) w in (w', (s', Ok r)).
Proof. unfold mtry. rewrite run_bind. by destruct (run H (m s) w) as [w' [s' r]]. Qed.

Lemma run_mguard {E S W} (H : handler E W) c e (s : S) w :
  run H (mguard c e s) w = (w, (s, guard_err c e)).
Proof. done. Qed.

Lemma run_mret {E S W A} (H : handler E W) (a : A) (s : S) w :
  run H (mret a s) w = (w, (s, Ok a)).
Proof. done. Qed.
Lemma run_mfail {E S W A} (H : handler E W) e (s : S) w :
  run H (mfail (A:=A) e s) w = (w, (s, Err e)).
Proof. done. Qed.
Lemma run_mlift {E S W A} (H : handler E W) (r : result A) (s : S) w :
  run H (mlift r s) w = (w, (s, r)).
Proof. done. Qed.
Lemma run_mget {E S W} (H : handler E W) (s : S) w : run H (mget s) w = (w, (s, Ok s)).
Proof. done. Qed.
Lemma run_mput {E S W} (H : handler E W) (s0 s : S) w : run H (mput s0 s) w = (w, (s0, Ok tt)).
Proof. done. Qed.
Lemma run_mmodify {E S W} (H : handler E W) f (s : S) w :
  run H (mmodify f s) w = (w, (f s, Ok tt)).
Proof. done. Qed.
Lemma run_mcall {E S W X} (H : handler E W) (e : E X) (s : S) w :
  run H (mcall e s) w = let '(w', x) := H X e w in (w', (s, Ok x)).
Proof. done. Qed.
Lemma run_mcallr {E S W X} (H : handler E W) (e : E (result X)) (s : S) w :
  run H (mcallr e s) w = let '(w', x) := H _ e w in (w', (s, x)).
Proof. done. Qed.

Arguments run : simpl never.

(** Runs a method as far as its text goes. *)
Ltac mrun_step :=
  match goal with
  | |- context [run ?H (mbind ?m ?f ?s) ?w] => rewrite (run_mbind H m f s w)
  | |- context [run ?H (mwrap ?g ?m ?s) ?w] => rewrite (run_mwrap H g m s w)
  | |- context [run ?H (mtry ?m ?s) ?w] => rewrite (run_mtry H m s w)
  | |- context [run ?H (mguard ?c ?e ?s) ?w] => rewrite (run_mguard H c e s w)
  | |- context [run ?H (mret ?a ?s) ?w] => rewrite (run_mret H a s w)
  | |- context [run ?H (mfail ?e ?s) ?w] => rewrite (run_mfail H e s w)
  | |- context [run ?H (mlift ?r ?s) ?w] => rewrite (run_mlift H r s w)
  | |- context [run ?H (mget ?s) ?w] => rewrite (run_mget H s w)
  | |- context [run ?H (mput ?s0 ?s) ?w] => rewrite (run_mput H s0 s w)
  | |- context [run ?H (mmodify ?f ?s) ?w] => rewrite (run_mmodify H f s w)
  | |- context [run ?H (mcall ?e ?s) ?w] => rewrite (run_mcall H e s w)
  | |- context [run ?H (mcallr ?e ?s) ?w] => rewrite (run_mcallr H e s w)
  end.
Ltac mrun := repeat mrun_step; simpl.

(** ** Programs over a world

    [rwp step inv p w Q]: the calls of [p] are answered by the transition
    relation [step] of a world; [inv] holds of every world on the way, which is
    what a crash between two calls can see, and [Q] of the final one. *)
Section World.
Context {E : Type → Type} {W : Type}.
Variable step : W → ∀ X, E X → X → W → Prop.
Variable inv : W → Prop.

Fixpoint rwp {A} (p : prog E A) (w : W) (Q : W → A → Prop) : Prop :=
  inv w ∧
  match p with
  | Ret a => Q w a
  | @Vis _ _ X e k => ∀ x w', step w X e x w' → rwp (k x) w' Q
  end.

Lemma rwp_inv {A} (p : prog E A) w Q : rwp p w Q → inv w.
Proof. destruct p; by intros []. Qed.

Lemma rwp_mono {A} (p : prog E A) w (Q Q' : W → A → Prop) :
  rwp p w Q → (∀ w' a, inv w' → Q w' a → Q' w' a) → rwp p w Q'.
Proof.
  revert w. induction p as [a|X e k IH]; simpl; intros w [Hi H] HQ; (split; [done|]).
  - by apply HQ.
  - intros x w' Hs. by apply IH; [apply H|].
Qed.

Lemma rwp_bind {A B} (p : prog E A) (f : A → prog E B) w Q :
  rwp p w (λ w' a, rwp (f a) w' Q) → rwp (prog_bind p f) w Q.
Proof.
  revert w. induction p as [a|X e k IH]; simpl; intros w [Hi H]; [done|].
  split; [done|]. intros x w' Hs. apply IH, H, Hs.
Qed.

Context {S : Type}.

Definition mrwp {A} (m : M E S A) (s : S) (w : W) (Q : W → S → result A → Prop) : Prop :=
  rwp (m s) w (λ w' '(s', r), Q w' s' r).

Lemma mrwp_inv {A} (m : M E S A) s w Q : mrwp m s w Q → inv w.
Proof. apply rwp_inv. Qed.

Lemma mrwp_mono {A} (m : M E S A) s w (Q Q' : W → S → result A → Prop) :
  mrwp m s w Q → (∀ w' s' r, inv w' → Q w' s' r → Q' w' s' r) → mrwp m s w Q'.
Proof. intros H HQ. eapply rwp_mono; [exact H|]. intros w' [s' r]. apply HQ. Qed.

Lemma mrwp_bind {A B} (m : M E S A) (f : A → M E S B) s w Q :
  mrwp m s w (λ w' s' r,
    match r with Ok a => mrwp (f a) s' w' Q | Err e => Q w' s' (Err e) end) →
  mrwp (mbind m f) s w Q.
Proof.
  intros H. unfold mrwp, mbind. apply rwp_bind. eapply rwp_mono; [exact H|].
  intros w' [s' [a|e]] Hi Hq; [done|]. by split.
Qed.

Lemma mrwp_try {A} (m : M E S A) s w Q :
  mrwp m s w (λ w' s' r, Q w' s' (Ok r)) → mrwp (mtry m) s w Q.
Proof.
  intros H. unfold mrwp, mtry. apply rwp_bind. eapply rwp_mono; [exact H|].
  intros w' [s' r] Hi Hq. by split.
Qed.

Lemma mrwp_wrap {A} g (m : M E S A) s w Q :
  mrwp m s w (λ w' s' r, Q w' s' (result_wrap g r)) → mrwp (mwrap g m) s w Q.
Proof.
  intros H. unfold mrwp, mwrap. apply rwp_bind. eapply rwp_mono; [exact H|].
  intros w' [s' r] Hi Hq. by split.
Qed.

Lemma mrwp_lift {A} (r : result A) s w (Q : _ → _ → result A → Prop) :
  inv w → Q w s r → mrwp (mlift r) s w Q.
Proof. by split. Qed.
Lemma mrwp_ret {A} (a : A) s w (Q : _ → _ → result A → Prop) :
  inv w → Q w s (Ok a) → mrwp (mret a) s w Q.
Proof. by split. Qed.
Lemma mrwp_fail {A} e s w (Q : _ → _ → result A → Prop) :
  inv w → Q w s (Err e) → mrwp (mfail e) s w Q.
Proof. by split. Qed.
Lemma mrwp_guard c e s w (Q : _ → _ → result unit → Prop) :
  inv w → (c = true → Q w s (Err e)) → (c = false → Q w s (Ok tt)) → mrwp (mguard c e) s w Q.
Proof. intros Hi Ht Hf. split; [done|]. destruct c; [by apply Ht|by apply Hf]. Qed.
Lemma mrwp_call {X} (e : E X) s w (Q : _ → _ → result X → Prop) :
  inv w → (∀ x w', step w X e x w' → inv w' ∧ Q w' s (Ok x)) → mrwp (mcall e) s w Q.
Proof. intros Hi H. split; [done|]. intros x w' Hs. simpl. by apply H. Qed.
Lemma mrwp_callr {X} (e : E (result X)) s w (Q : _ → _ → result X → Prop) :
  inv w → (∀ r w', step w _ e r w' → inv w' ∧ Q w' s r) → mrwp (mcallr e) s w Q.
Proof. intros Hi H. split; [done|]. intros x w' Hs. simpl. by apply H. Qed.
End World.

Lemma mrwp_weaken {E W S A} (step : W → ∀ X, E X → X → W → Prop) (inv inv' : W → Prop)
    (m : M E S A) s w Q :
  (∀ w, inv w → inv' w) → mrwp step inv m s w Q → mrwp step inv' m s w Q.
Proof.
  unfold mrwp. intros Hi. generalize (m s). intros p. revert w.
  induction p as [a|X e k IH]; simpl; intros w [H1 H2]; (split; [by apply Hi|]); [done|].
  intros x w' Hs. by apply IH, H2.
Qed.
