(* ===== verification/GoStd.v ===== *)
(** * The parts of Go's standard library the program uses

    [encoding/hex], [encoding/base64], [encoding/binary], [unicode/utf8],
    [strings], [bytes], [path] and [sort], on the byte strings of the model. *)

From S2P Require Import Prelude.

(** ** Lexicographic order of byte strings ([bytes.Compare]) *)

Fixpoint bytes_Compare (a b : bytes) : comparison :=
  match a, b with
  | [], [] => Eq
  | [], _ :: _ => Lt
  | _ :: _, [] => Gt
  | x :: a', y :: b' =>
      match N.compare (byte_val x) (byte_val y) with
      | Eq => bytes_Compare a' b'
      | c => c
      end
  end.

Definition bytes_lt (a b : bytes) : Prop := bytes_Compare a b = Lt.

#[export] Instance bytes_lt_dec a b : Decision (bytes_lt a b).
Proof. unfold bytes_lt. destruct (bytes_Compare a b); [right|left|right]; done. Defined.

Lemma bytes_Compare_eq a b : bytes_Compare a b = Eq ↔ a = b.
Proof.
  revert b. induction a as [|x a IH]; intros [|y b]; simpl; try done.
  destruct (N.compare_spec (byte_val x) (byte_val y)) as [H|H|H].
  - apply byte_val_inj in H as ->. rewrite IH. naive_solver.
  - split; [done|]. intros [= -> ->]. lia.
  - split; [done|]. intros [= -> ->]. lia.
Qed.

Lemma bytes_Compare_antisym a b : bytes_Compare a b = CompOpp (bytes_Compare b a).
Proof.
  revert b. induction a as [|x a IH]; intros [|y b]; simpl; try done.
  rewrite (N.compare_antisym (byte_val y) (byte_val x)).
  destruct (byte_val y ?= byte_val x)%N; simpl; [apply IH|done|done].
Qed.

Lemma bytes_lt_irrefl a : ¬ bytes_lt a a.
Proof. unfold bytes_lt. by rewrite (proj2 (bytes_Compare_eq a a) eq_refl). Qed.

Lemma bytes_lt_trans a b c : bytes_lt a b → bytes_lt b c → bytes_lt a c.
Proof.
  unfold bytes_lt. revert b c.
  induction a as [|x a IH]; intros [|y b] [|z c]; simpl; try done.
  destruct (N.compare_spec (byte_val x) (byte_val y)) as [H|H|H];
    destruct (N.compare_spec (byte_val y) (byte_val z)) as [H'|H'|H'];
    destruct (N.compare_spec (byte_val x) (byte_val z)) as [H''|H''|H''];
    intros; try done; try lia. by eapply IH.
Qed.

Lemma bytes_lt_trich a b : bytes_lt a b ∨ a = b ∨ bytes_lt b a.
Proof.
  unfold bytes_lt. destruct (bytes_Compare a b) eqn:H; [|by left|].
  - right; left. by apply bytes_Compare_eq.
  - right; right. by rewrite bytes_Compare_antisym, H.
Qed.

(** ** [strings] *)

(** [strings.IndexByte(s, c) >= 0], also [strings.ContainsRune] for an ASCII
    rune. *)
Definition contains_byte (c : byte) (s : bytes) : bool := bool_decide (c ∈ s).

Fixpoint HasPrefix (s p : bytes) {struct p} : bool :=
  match p, s with
  | [], _ => true
  | y :: p', x :: s' => (x ==? y) && HasPrefix s' p'
  | _, [] => false
  end.

Fixpoint trim_left (c : byte) (s : bytes) : bytes :=
  match s with
  | x :: s' => if x ==? c then trim_left c s' else s
  | [] => []
  end.

(** [strings.Trim(s, "c")]. *)
Definition Trim (s : bytes) (c : byte) : bytes :=
  rev (trim_left c (rev (trim_left c s))).

Definition TrimPrefix (s p : bytes) : bytes :=
  if HasPrefix s p then drop (length p) s else s.

(** [strings.Split(s, "c")]; never empty. *)
Fixpoint Split (c : byte) (s : bytes) : list bytes :=
  match s with
  | [] => [[]]
  | x :: s' =>
      if x ==? c then [] :: Split c s'
      else match Split c s' with
           | w :: ws => (x :: w) :: ws
           | [] => [[x]]
           end
  end.

Fixpoint Join (sep : bytes) (l : list bytes) : bytes :=
  match l with
  | [] => []
  | [w] => w
  | w :: l' => w ++ sep ++ Join sep l'
  end.

(** [strings.Contains]. *)
Fixpoint Contains (s sub : bytes) : bool :=
  HasPrefix s sub || match s with [] => false | _ :: s' => Contains s' sub end.

Lemma HasPrefix_app p s : HasPrefix (p ++ s) p = true.
Proof. induction p as [|x p IH]; simpl; [by destruct s|]. by rewrite bool_decide_true. Qed.

Lemma HasPrefix_true s p : HasPrefix s p = true ↔ ∃ k, s = p ++ k.
Proof.
  split; [|intros [k ->]; apply HasPrefix_app].
  revert s. induction p as [|y p IH]; intros s H; simpl; [by eauto|].
  destruct s as [|x s]; [done|]. simpl in H. bool_prop. subst.
  destruct (IH s) as [k ->]; [done|]. by exists k.
Qed.

Lemma Split_not_nil c s : Split c s ≠ [].
Proof. destruct s as [|x s]; simpl; [done|]. repeat case_match; done. Qed.

Lemma Join_cons sep w ws : ws ≠ [] → Join sep (w :: ws) = w ++ sep ++ Join sep ws.
Proof. by destruct ws. Qed.

Lemma Join_Split c s : Join [c] (Split c s) = s.
Proof.
  induction s as [|x s IH]; simpl; [done|].
  case_bool_decide as Hx.
  - subst x. rewrite Join_cons by apply Split_not_nil. by rewrite IH.
  - destruct (Split c s) as [|w ws] eqn:E; [by destruct (Split_not_nil c s)|].
    rewrite <- IH. destruct ws; simpl; done.
Qed.

Lemma Split_no_sep c s w : w ∈ Split c s → c ∉ w.
Proof.
  revert w. induction s as [|x s IH]; simpl; intros w.
  - intros ->%list_elem_of_singleton. apply not_elem_of_nil.
  - case_bool_decide as Hx.
    + intros [->|Hw]%elem_of_cons; [apply not_elem_of_nil|by apply IH].
    + destruct (Split c s) as [|v vs] eqn:E.
      * intros ->%list_elem_of_singleton. rewrite list_elem_of_singleton. congruence.
      * intros [->|Hw]%elem_of_cons; [|apply IH; by right].
        rewrite not_elem_of_cons. split; [congruence|]. apply IH. by left.
Qed.

Lemma Split_single c w : c ∉ w → Split c w = [w].
Proof.
  induction w as [|x w IH]; simpl; [done|].
  rewrite not_elem_of_cons. intros [Hx Hw].
  rewrite bool_decide_false by congruence. by rewrite IH.
Qed.

Lemma Split_app c w s : c ∉ w → Split c (w ++ c :: s) = w :: Split c s.
Proof.
  induction w as [|x w IH]; simpl.
  - by rewrite bool_decide_true.
  - rewrite not_elem_of_cons. intros [Hx Hw].
    rewrite bool_decide_false by congruence. by rewrite IH.
Qed.

Lemma Split_Join c l :
  l ≠ [] → Forall (λ w, c ∉ w) l → Split c (Join [c] l) = l.
Proof.
  induction l as [|w l IH]; [done|]. intros _ Hl.
  apply Forall_cons in Hl as [Hw Hl].
  destruct l as [|v l]; [by apply Split_single|].
  rewrite Join_cons by done. simpl app. rewrite Split_app by done.
  f_equal. by apply IH.
Qed.

(** ** [path] *)

Definition slash : byte := x2f.
Definition dot : bytes := str ".".
Definition dotdot : bytes := str "..".

Definition path_IsAbs (p : bytes) : bool := HasPrefix p [slash].

(** The elimination rules of [path.Clean] on the stack of components kept so
    far (innermost first): empty and "." elements vanish, ".." removes the
    element before it, or is kept at the start of a relative path, or is
    dropped at the start of a rooted one. *)
Definition clean_step (rooted : bool) (stack : list bytes) (c : bytes) : list bytes :=
  if (c ==? []) || (c ==? dot) then stack
  else if c ==? dotdot then
    match stack with
    | t :: stack' =>
        if t ==? dotdot then c :: stack else stack'
    | [] => if rooted then [] else [c]
    end
  else c :: stack.

Definition clean_stack (rooted : bool) (cs : list bytes) : list bytes :=
  foldl (clean_step rooted) [] cs.

Definition path_Clean (p : bytes) : bytes :=
  if p ==? [] then dot
  else
    let rooted := path_IsAbs p in
    let body := Join [slash] (rev (clean_stack rooted (Split slash p))) in
    if rooted then slash :: body
    else if body ==? [] then dot else body.

Definition path_Join2 (a b : bytes) : bytes :=
  if (a ==? []) && (b ==? []) then []
  else if a ==? [] then path_Clean b
  else if b ==? [] then path_Clean a
  else path_Clean (a ++ slash :: b).

(** The part of [p] up to and including its last slash. *)
Definition path_SplitDir (p : bytes) : bytes :=
  match rev (Split slash p) with
  | _ :: r => match r with [] => [] | _ => Join [slash] (rev ([] :: r)) end
  | [] => []
  end.

Definition path_Dir (p : bytes) : bytes := path_Clean (path_SplitDir p).

Example path_Clean_ex1 : path_Clean (str "a//b/./c/../d") = str "a/b/d".
Proof. reflexivity. Qed.
Example path_Clean_ex2 : path_Clean (str "../a/../../b/") = str "../../b".
Proof. reflexivity. Qed.
Example path_Clean_ex3 : path_Clean (str "/../a") = str "/a".
Proof. reflexivity. Qed.
Example path_Dir_ex1 : path_Dir (str "a/b/c") = str "a/b".
Proof. reflexivity. Qed.
Example path_Dir_ex2 : path_Dir (str "c") = str ".".
Proof. reflexivity. Qed.

(** A relative path that [path.Clean] leaves unchanged and that does not start
    with ".." consists of proper names only. *)
Definition proper_name (c : bytes) : Prop :=
  c ≠ [] ∧ c ≠ dot ∧ c ≠ dotdot ∧ slash ∉ c.

(** A stack of a relative path: proper names above a run of "..". *)
Fixpoint stack_ok (stack : list bytes) : Prop :=
  match stack with
  | [] => True
  | t :: s => (slash ∉ t) ∧ t ≠ [] ∧ t ≠ dot ∧
      (if t ==? dotdot then Forall (λ c, c = dotdot) s else stack_ok s)
  end.

Lemma stack_ok_dotdot s : Forall (λ c, c = dotdot) s → stack_ok s.
Proof.
  induction s as [|t s IH]; [done|]. intros [-> Hs]%Forall_cons. simpl.
  repeat split; [|done..]. apply (bool_decide_unpack _). by vm_compute.
Qed.

Lemma clean_step_ok s c : stack_ok s → slash ∉ c → stack_ok (clean_step false s c).
Proof.
  intros Hs Hc. unfold clean_step.
  destruct (decide (c = [])) as [->|H1]; [done|].
  destruct (decide (c = dot)) as [->|H2]; [by rewrite (bool_decide_true (dot = dot)), orb_true_r|].
  rewrite !bool_decide_false by done. simpl.
  destruct (decide (c = dotdot)) as [->|H3].
  - rewrite bool_decide_true by done. destruct s as [|t s].
    + apply stack_ok_dotdot. by repeat constructor.
    + destruct (decide (t = dotdot)) as [->|Ht].
      * rewrite bool_decide_true by done. apply stack_ok_dotdot.
        destruct Hs as (_ & _ & _ & Hs). rewrite bool_decide_true in Hs by done.
        by repeat constructor.
      * destruct Hs as (_ & _ & _ & Hs). rewrite bool_decide_false in Hs by done.
        by rewrite bool_decide_false.
  - rewrite bool_decide_false by done. simpl. by rewrite bool_decide_false.
Qed.

Lemma clean_stack_ok cs :
  Forall (λ c, slash ∉ c) cs → stack_ok (clean_stack false cs).
Proof.
  unfold clean_stack. assert (stack_ok []) as H by done. revert H.
  generalize (@nil bytes) as s. induction cs as [|c cs IH]; intros s Hs; simpl; [done|].
  intros [Hc Hcs]%Forall_cons. apply IH; [by apply clean_step_ok|done].
Qed.

(** The bottom of the stack decides: if it is not "..", nothing is. *)
Lemma stack_ok_proper s :
  stack_ok s → head (rev s) ≠ Some dotdot → Forall proper_name s.
Proof.
  induction s as [|t s IH]; [by constructor|]. intros (H1 & H2 & H3 & Hs) Hhd.
  destruct (decide (t = dotdot)) as [->|Ht].
  - exfalso. rewrite bool_decide_true in Hs by done.
    destruct s as [|u s] using rev_ind; [by apply Hhd|].
    apply Hhd. rewrite Forall_app, Forall_singleton in Hs. destruct Hs as [_ ->].
    simpl. by rewrite rev_app_distr.
  - rewrite bool_decide_false in Hs by done. constructor; [done|].
    apply IH; [done|]. intros Hr. apply Hhd. simpl. destruct (rev s); simpl in *; done.
Qed.

Lemma Forall_rev_iff {A} (P : A → Prop) l : Forall P (rev l) ↔ Forall P l.
Proof.
  split; intros H; [|by apply List.Forall_rev].
  rewrite <- (rev_involutive l). by apply List.Forall_rev.
Qed.

Lemma clean_relative_proper p :
  p ≠ [] → p ≠ dot → path_IsAbs p = false → path_Clean p = p →
  p ≠ dotdot → HasPrefix p (dotdot ++ [slash]) = false →
  Forall proper_name (Split slash p).
Proof.
  intros Hne Hnd Habs Hcl Hdd Hpre. unfold path_Clean in Hcl.
  rewrite bool_decide_false in Hcl by done. rewrite Habs in Hcl.
  set (st := clean_stack false (Split slash p)) in *.
  assert (Hok : stack_ok st).
  { apply clean_stack_ok, Forall_forall. intros w Hw. by apply Split_no_sep in Hw. }
  case_bool_decide as Hb; [by rewrite Hcl in Hnd|].
  assert (Hst : rev st ≠ []) by (intros E; by rewrite E in Hb).
  assert (Hns : Forall (λ w, slash ∉ w) (rev st)).
  { apply Forall_rev_iff. clear -Hok. induction st as [|t s IH]; [constructor|].
    destruct Hok as (? & ? & ? & Hs). constructor; [done|]. apply IH.
    case_bool_decide; [by apply stack_ok_dotdot|done]. }
  assert (Hsp : Split slash p = rev st).
  { rewrite <- Hcl at 1. by apply Split_Join. }
  rewrite Hsp, Forall_rev_iff. apply stack_ok_proper; [done|].
  intros Hhd. destruct (rev st) as [|w ws] eqn:E; [done|]. simpl in Hhd.
  injection Hhd as ->. destruct ws as [|w' ws].
  - by apply Hdd.
  - rewrite Join_cons in Hcl by done. rewrite <- Hcl, app_assoc, HasPrefix_app in Hpre. done.
Qed.

(** ** [sort.Search] *)

(** The loop of [sort.Search]; each round halves [j - i]. *)
Fixpoint search_loop (fuel : nat) (f : Z → bool) (i j : Z) : Z :=
  match fuel with
  | O => i
  | S fuel =>
      if i <? j then
        let h := (i + j) / 2 in
        if f h then search_loop fuel f i h else search_loop fuel f (h + 1) j
      else i
  end.

(** [n + 1] rounds suffice: see [sort_Search_spec]. *)
Definition sort_Search (n : Z) (f : Z → bool) : Z :=
  search_loop (S (Z.to_nat n)) f 0 n.

Lemma search_loop_spec fuel f n i j :
  0 ≤ i ≤ j → j ≤ n → j - i < Z.of_nat fuel →
  (∀ a b, 0 ≤ a ≤ b → b < n → f a = true → f b = true) →
  (∀ k, 0 ≤ k < i → f k = false) → (∀ k, j ≤ k < n → f k = true) →
  let r := search_loop fuel f i j in
  0 ≤ r ≤ n ∧ (∀ k, 0 ≤ k < r → f k = false) ∧ (∀ k, r ≤ k < n → f k = true).
Proof.
  revert i j. induction fuel as [|fuel IH]; intros i j Hij Hjn Hf Hmono Hlo Hhi; [lia|].
  simpl. destruct (Z.ltb_spec i j) as [Hlt|Hge].
  - assert (i ≤ (i + j) / 2 < j) as Hh.
    { split; [apply Z.div_le_lower_bound; lia|apply Z.div_lt_upper_bound; lia]. }
    destruct (f ((i + j) / 2)) eqn:Hfh.
    + apply IH; [lia..|done|done|]. intros k Hk.
      destruct (Z.lt_ge_cases k j); [|apply Hhi; lia].
      apply (Hmono ((i + j) / 2)); [lia..|done].
    + apply IH; [lia..|done| |done]. intros k Hk.
      destruct (Z.lt_ge_cases k i); [apply Hlo; lia|].
      destruct (f k) eqn:Hfk; [|done].
      rewrite <- Hfh. symmetry. apply (Hmono k); [lia..|done].
  - assert (i = j) as -> by lia. split; [lia|]. split; [done|]. intros k Hk. apply Hhi. lia.
Qed.

(** Binary search finds the boundary of a monotone predicate. *)
Lemma sort_Search_spec n f :
  0 ≤ n →
  (∀ a b, 0 ≤ a ≤ b → b < n → f a = true → f b = true) →
  let r := sort_Search n f in
  0 ≤ r ≤ n ∧ (∀ k, 0 ≤ k < r → f k = false) ∧ (∀ k, r ≤ k < n → f k = true).
Proof.
  intros Hn Hmono. apply search_loop_spec; [lia..|done| |]; intros k Hk; lia.
Qed.
