(* ===== verification/Encoding.v ===== *)
(** * Text encodings: hexadecimal, base64, decimal, UTF-8, big endian

    The encoders and decoders of [encoding/hex], [encoding/base64],
    [strconv], [encoding/binary] and the validity check of [unicode/utf8],
    with their round trips. *)

From Stdlib Require Import DecimalN.
From S2P Require Import Prelude.

Ltac Zify.zify_post_hook ::= Z.to_euclidean_division_equations.

(** Checks a statement on every natural below a small bound. *)
Lemma forall_below (n : nat) (P : N → Prop) `{!∀ k, Decision (P k)} :
  forallb (λ k, bool_decide (P (N.of_nat k))) (seq 0 n) = true →
  ∀ k, (k < N.of_nat n)%N → P k.
Proof.
  rewrite forallb_forall. intros Hall k Hk.
  specialize (Hall (N.to_nat k)). rewrite N2Nat.id in Hall.
  apply bool_decide_eq_true in Hall; [done|]. apply in_seq. lia.
Qed.

Lemma byte_of_eq n b : n = byte_val b → byte_of n = b.
Proof. intros ->. apply byte_of_val. Qed.

(** ** Hexadecimal *)

Definition hex_alphabet : bytes := str "0123456789abcdef".

Definition hex_digit (n : N) : byte := nth (N.to_nat n) hex_alphabet x00.

(** Both cases are read, as [hex.DecodeString] does. *)
Definition hex_value (b : byte) : option N :=
  let v := byte_val b in
  if (48 <=? v)%N && (v <=? 57)%N then Some (v - 48)%N
  else if (97 <=? v)%N && (v <=? 102)%N then Some (v - 87)%N
  else if (65 <=? v)%N && (v <=? 70)%N then Some (v - 55)%N
  else None.

Fixpoint hex_EncodeToString (l : bytes) : bytes :=
  match l with
  | [] => []
  | b :: l' => hex_digit (byte_val b / 16) :: hex_digit (byte_val b mod 16)
                 :: hex_EncodeToString l'
  end.

Fixpoint hex_DecodeString (s : bytes) : option bytes :=
  match s with
  | [] => Some []
  | a :: b :: s' =>
      match hex_value a, hex_value b, hex_DecodeString s' with
      | Some x, Some y, Some r => Some (byte_of (x * 16 + y) :: r)
      | _, _, _ => None
      end
  | [_] => None
  end.

Lemma hex_value_digit n : (n < 16)%N → hex_value (hex_digit n) = Some n.
Proof. apply (forall_below 16 (λ n, hex_value (hex_digit n) = Some n)). by vm_compute. Qed.

Lemma hex_roundtrip l : hex_DecodeString (hex_EncodeToString l) = Some l.
Proof.
  induction l as [|b l IH]; simpl; [done|].
  pose proof (byte_val_lt b).
  rewrite !hex_value_digit by lia. rewrite IH.
  replace (byte_val b / 16 * 16 + byte_val b mod 16)%N with (byte_val b) by lia.
  by rewrite byte_of_val.
Qed.

Lemma hex_encode_length l : length (hex_EncodeToString l) = (2 * length l)%nat.
Proof. induction l; simpl; lia. Qed.

Lemma hex_encode_inj l k : hex_EncodeToString l = hex_EncodeToString k → l = k.
Proof.
  intros H. apply (f_equal hex_DecodeString) in H.
  rewrite !hex_roundtrip in H. congruence.
Qed.

(** ** Base64 *)

Definition b64_std : bytes :=
  str "ABCDEFGHIJKLMNOPQRSTUVWXYZabcdefghijklmnopqrstuvwxyz0123456789+/".
Definition b64_url : bytes :=
  str "ABCDEFGHIJKLMNOPQRSTUVWXYZabcdefghijklmnopqrstuvwxyz0123456789-_".

Definition b64_char (alphabet : bytes) (n : N) : byte := nth (N.to_nat n) alphabet x00.

Fixpoint index_of (b : byte) (l : bytes) (i : N) : option N :=
  match l with
  | [] => None
  | x :: l' => if x ==? b then Some i else index_of b l' (i + 1)
  end.

Definition b64_value (alphabet : bytes) (b : byte) : option N := index_of b alphabet 0.

Definition b64_pad : byte := x3d.

(** [base64.Encoding.EncodeToString]; [pad] for the padded encodings. *)
Fixpoint b64_encode (alphabet : bytes) (pad : bool) (l : bytes) : bytes :=
  let c n := b64_char alphabet n in
  match l with
  | [] => []
  | [a] =>
      let a := byte_val a in
      c (a / 4)%N :: c (a mod 4 * 16)%N :: (if pad then [b64_pad; b64_pad] else [])
  | [a; b] =>
      let a := byte_val a in let b := byte_val b in
      c (a / 4)%N :: c (a mod 4 * 16 + b / 16)%N :: c (b mod 16 * 4)%N ::
      (if pad then [b64_pad] else [])
  | a :: b :: d :: l' =>
      let a := byte_val a in let b := byte_val b in let d := byte_val d in
      c (a / 4)%N :: c (a mod 4 * 16 + b / 16)%N :: c (b mod 16 * 4 + d / 64)%N ::
      c (d mod 64)%N :: b64_encode alphabet pad l'
  end.

(** Decoding of padded text by quanta of four characters. *)
Fixpoint b64_decode (alphabet : bytes) (s : bytes) : option bytes :=
  let v b := b64_value alphabet b in
  match s with
  | [] => Some []
  | w :: x :: y :: z :: s' =>
      match v w, v x with
      | Some w, Some x =>
          if (y ==? b64_pad) && (z ==? b64_pad) then
            if s' ==? [] then Some [byte_of (w * 4 + x / 16)] else None
          else match v y with
          | Some y =>
              if z ==? b64_pad then
                if s' ==? [] then
                  Some [byte_of (w * 4 + x / 16); byte_of (x mod 16 * 16 + y / 4)]
                else None
              else match v z, b64_decode alphabet s' with
              | Some z, Some r =>
                  Some (byte_of (w * 4 + x / 16) :: byte_of (x mod 16 * 16 + y / 4)
                          :: byte_of (y mod 4 * 64 + z) :: r)
              | _, _ => None
              end
          | None => None
          end
      | _, _ => None
      end
  | _ => None
  end.

Definition base64_StdEncoding_EncodeToString (l : bytes) : bytes := b64_encode b64_std true l.
Definition base64_StdEncoding_DecodeString (s : bytes) : option bytes := b64_decode b64_std s.
Definition base64_RawURLEncoding_EncodeToString (l : bytes) : bytes := b64_encode b64_url false l.

(** The padding that completes the last quantum of unpadded text. *)
Definition b64_padding (s : bytes) : bytes :=
  replicate (Nat.modulo (4 - Nat.modulo (length s) 4) 4) b64_pad.
Definition base64_RawURLEncoding_DecodeString (s : bytes) : option bytes :=
  if existsb (λ b, b ==? b64_pad) s then None else b64_decode b64_url (s ++ b64_padding s).

(** The alphabets of the two encodings. *)
Definition b64_alphabet (al : bytes) : Prop := al = b64_std ∨ al = b64_url.

Lemma b64_value_char al n :
  b64_alphabet al → (n < 64)%N → b64_value al (b64_char al n) = Some n.
Proof.
  intros [->| ->].
  - apply (forall_below 64 (λ n, b64_value b64_std (b64_char b64_std n) = Some n)).
    by vm_compute.
  - apply (forall_below 64 (λ n, b64_value b64_url (b64_char b64_url n) = Some n)).
    by vm_compute.
Qed.

Lemma b64_char_not_pad al n : b64_alphabet al → (n < 64)%N → b64_char al n ≠ b64_pad.
Proof.
  intros [->| ->].
  - apply (forall_below 64 (λ n, b64_char b64_std n ≠ b64_pad)). by vm_compute.
  - apply (forall_below 64 (λ n, b64_char b64_url n ≠ b64_pad)). by vm_compute.
Qed.

(** Rewrites the characters of one quantum. *)
Ltac b64_chars al :=
  rewrite ?(bool_decide_false (b64_char al _ = b64_pad)) by (apply b64_char_not_pad; [done|lia]);
  rewrite ?b64_value_char by (done || lia); simpl.

Lemma b64_roundtrip al l : b64_alphabet al → b64_decode al (b64_encode al true l) = Some l.
Proof.
  intros Hal. induction l as [l IH] using (induction_ltof1 _ length). unfold ltof in IH.
  destruct l as [|a [|b [|d l]]]; cbn -[N.mul N.div N.modulo b64_value b64_char];
    [done| | |]; pose proof (byte_val_lt a);
    try pose proof (byte_val_lt b); try pose proof (byte_val_lt d).
  - b64_chars al. do 2 f_equal. apply byte_of_eq. lia.
  - b64_chars al. f_equal. f_equal; [|f_equal]; apply byte_of_eq; lia.
  - b64_chars al. rewrite IH by (simpl; lia).
    f_equal. f_equal; [|f_equal; [|f_equal]]; apply byte_of_eq; lia.
Qed.

Lemma base64_roundtrip l :
  base64_StdEncoding_DecodeString (base64_StdEncoding_EncodeToString l) = Some l.
Proof. apply b64_roundtrip. by left. Qed.

Lemma b64_encode_padding al l :
  b64_encode al false l ++ b64_padding (b64_encode al false l) = b64_encode al true l.
Proof.
  induction l as [l IH] using (induction_ltof1 _ length). unfold ltof in IH.
  destruct l as [|a [|b [|d l]]]; try done.
  cbn -[N.mul N.div N.modulo b64_char b64_padding].
  do 4 f_equal. rewrite <- (IH l) by (simpl; lia). f_equal.
  unfold b64_padding. do 2 f_equal. simpl length.
  replace (S (S (S (S (length (b64_encode al false l))))))
    with (length (b64_encode al false l) + 1 * 4)%nat by lia.
  by rewrite Nat.Div0.mod_add.
Qed.

Lemma b64_raw_no_pad al l :
  b64_alphabet al → existsb (λ b, b ==? b64_pad) (b64_encode al false l) = false.
Proof.
  intros Hal. induction l as [l IH] using (induction_ltof1 _ length). unfold ltof in IH.
  destruct l as [|a [|b [|d l]]]; cbn -[N.mul N.div N.modulo b64_char]; [done| | |];
    pose proof (byte_val_lt a); try pose proof (byte_val_lt b); try pose proof (byte_val_lt d);
    b64_chars al; try done. apply IH. simpl. lia.
Qed.

Lemma base64_raw_roundtrip l :
  base64_RawURLEncoding_DecodeString (base64_RawURLEncoding_EncodeToString l) = Some l.
Proof.
  unfold base64_RawURLEncoding_DecodeString, base64_RawURLEncoding_EncodeToString.
  rewrite b64_raw_no_pad by (by right). rewrite b64_encode_padding. apply b64_roundtrip. by right.
Qed.

Lemma base64_raw_inj l k :
  base64_RawURLEncoding_EncodeToString l = base64_RawURLEncoding_EncodeToString k → l = k.
Proof.
  intros H. apply (f_equal base64_RawURLEncoding_DecodeString) in H.
  rewrite !base64_raw_roundtrip in H. congruence.
Qed.

(** ** Decimal integers *)

Fixpoint uint_bytes (u : Decimal.uint) : bytes :=
  match u with
  | Decimal.Nil => []
  | Decimal.D0 u => x30 :: uint_bytes u
  | Decimal.D1 u => x31 :: uint_bytes u
  | Decimal.D2 u => x32 :: uint_bytes u
  | Decimal.D3 u => x33 :: uint_bytes u
  | Decimal.D4 u => x34 :: uint_bytes u
  | Decimal.D5 u => x35 :: uint_bytes u
  | Decimal.D6 u => x36 :: uint_bytes u
  | Decimal.D7 u => x37 :: uint_bytes u
  | Decimal.D8 u => x38 :: uint_bytes u
  | Decimal.D9 u => x39 :: uint_bytes u
  end.

Definition digit_cons (b : byte) (u : Decimal.uint) : option Decimal.uint :=
  match b with
  | x30 => Some (Decimal.D0 u) | x31 => Some (Decimal.D1 u)
  | x32 => Some (Decimal.D2 u) | x33 => Some (Decimal.D3 u)
  | x34 => Some (Decimal.D4 u) | x35 => Some (Decimal.D5 u)
  | x36 => Some (Decimal.D6 u) | x37 => Some (Decimal.D7 u)
  | x38 => Some (Decimal.D8 u) | x39 => Some (Decimal.D9 u)
  | _ => None
  end.

Definition is_digit (b : byte) : bool :=
  if digit_cons b Decimal.Nil is Some _ then true else false.

Fixpoint bytes_uint (s : bytes) : option Decimal.uint :=
  match s with
  | [] => Some Decimal.Nil
  | b :: s' => match bytes_uint s' with Some u => digit_cons b u | None => None end
  end.

(** [strconv.AppendUint(n, 10)]. *)
Definition format_uint (n : N) : bytes := uint_bytes (N.to_uint n).

Definition parse_uint (s : bytes) : option N :=
  match s with
  | [] => None
  | _ => match bytes_uint s with Some u => Some (N.of_uint u) | None => None end
  end.

(** [strconv.AppendInt(z, 10)]. *)
Definition format_int (z : Z) : bytes :=
  if z <? 0 then x2d :: format_uint (Z.to_N (- z)) else format_uint (Z.to_N z).

Definition parse_int (s : bytes) : option Z :=
  match s with
  | x2d :: s' => match parse_uint s' with Some n => Some (- Z.of_N n) | None => None end
  | _ => match parse_uint s with Some n => Some (Z.of_N n) | None => None end
  end.

Lemma bytes_uint_bytes u : bytes_uint (uint_bytes u) = Some u.
Proof. induction u; simpl; rewrite ?IHu; done. Qed.

Lemma uint_bytes_digits u : Forall (λ b, is_digit b = true) (uint_bytes u).
Proof. induction u; simpl; constructor; done. Qed.

Lemma uint_bytes_nil u : uint_bytes u = [] → u = Decimal.Nil.
Proof. by destruct u. Qed.

Lemma format_uint_digits n : Forall (λ b, is_digit b = true) (format_uint n).
Proof. apply uint_bytes_digits. Qed.

Lemma N_to_uint_not_nil n : N.to_uint n ≠ Decimal.Nil.
Proof.
  intros H. pose proof (DecimalN.Unsigned.of_to n) as E. rewrite H in E.
  simpl in E. subst n. done.
Qed.

Lemma format_uint_not_nil n : format_uint n ≠ [].
Proof. intros H. by apply uint_bytes_nil, N_to_uint_not_nil in H. Qed.

Lemma parse_format_uint n : parse_uint (format_uint n) = Some n.
Proof.
  unfold parse_uint. destruct (format_uint n) eqn:E; [by apply format_uint_not_nil in E|].
  rewrite <- E. unfold format_uint. rewrite bytes_uint_bytes.
  by rewrite DecimalN.Unsigned.of_to.
Qed.

Lemma format_int_digits z :
  ∃ neg n, format_int z = (if (neg : bool) then [x2d] else []) ++ format_uint n.
Proof.
  unfold format_int. destruct (z <? 0).
  - by exists true, (Z.to_N (- z)).
  - by exists false, (Z.to_N z).
Qed.

Lemma parse_format_int z : parse_int (format_int z) = Some z.
Proof.
  unfold format_int. destruct (Z.ltb_spec z 0).
  - unfold parse_int. rewrite parse_format_uint. f_equal. lia.
  - pose proof (format_uint_digits (Z.to_N z)) as Hd.
    assert (parse_int (format_uint (Z.to_N z))
      = match parse_uint (format_uint (Z.to_N z)) with
        | Some n => Some (Z.of_N n) | None => None end) as ->.
    { destruct (format_uint (Z.to_N z)) as [|b s]; [done|].
      apply Forall_cons in Hd as [Hb _]. by destruct b. }
    rewrite parse_format_uint. f_equal. lia.
Qed.

(** ** UTF-8 validity *)

Definition in_range (b : byte) (lo hi : N) : bool :=
  (lo <=? byte_val b)%N && (byte_val b <=? hi)%N.

(** Length of the valid UTF-8 sequence at the start of [s], if there is one;
    the table of accepted ranges is that of [unicode/utf8]. *)
Definition rune_size (s : bytes) : option nat :=
  match s with
  | [] => None
  | a :: s1 =>
      if (byte_val a <? 128)%N then Some 1%nat
      else if in_range a 194 223 then
        match s1 with
        | b :: _ => if in_range b 128 191 then Some 2%nat else None
        | _ => None
        end
      else if in_range a 224 239 then
        match s1 with
        | b :: c :: _ =>
            let lo := if (byte_val a =? 224)%N then 160%N else 128%N in
            let hi := if (byte_val a =? 237)%N then 159%N else 191%N in
            if in_range b lo hi && in_range c 128 191 then Some 3%nat else None
        | _ => None
        end
      else if in_range a 240 244 then
        match s1 with
        | b :: c :: d :: _ =>
            let lo := if (byte_val a =? 240)%N then 144%N else 128%N in
            let hi := if (byte_val a =? 244)%N then 143%N else 191%N in
            if in_range b lo hi && in_range c 128 191 && in_range d 128 191
            then Some 4%nat else None
        | _ => None
        end
      else None
  end.

Fixpoint valid_utf8 (fuel : nat) (s : bytes) : bool :=
  match s, fuel with
  | [], _ => true
  | _, O => false
  | _, S fuel =>
      match rune_size s with
      | Some n => valid_utf8 fuel (drop n s)
      | None => false
      end
  end.

(** [utf8.ValidString]: every round consumes a byte, so the length is enough
    fuel. *)
Definition utf8_ValidString (s : bytes) : bool := valid_utf8 (length s) s.

Lemma rune_size_bounds s n : rune_size s = Some n → (1 ≤ n ≤ length s)%nat.
Proof.
  unfold rune_size. intros H. repeat case_match; simplify_eq; simpl; lia.
Qed.

Lemma valid_utf8_fuel f g s :
  (length s ≤ f)%nat → (length s ≤ g)%nat → valid_utf8 f s = valid_utf8 g s.
Proof.
  revert g s. induction f as [|f IH]; intros g s Hf Hg.
  - destruct s; simpl in *; [by destruct g|lia].
  - destruct s as [|b s]; [by destruct g|].
    destruct g as [|g]; [simpl in Hg; lia|]. cbn -[rune_size].
    destruct (rune_size (b :: s)) as [n|] eqn:E; [|done].
    apply rune_size_bounds in E. apply IH; rewrite length_drop; simpl in *; lia.
Qed.

(** ** Big-endian integers *)

(** [binary.BigEndian.AppendUint64]. *)
Definition BigEndian_AppendUint64 (b : bytes) (n : N) : bytes :=
  b ++ map (λ i, byte_of (N.shiftr n i)) [56; 48; 40; 32; 24; 16; 8; 0]%N.

Lemma BigEndian_length b n : length (BigEndian_AppendUint64 b n) = (length b + 8)%nat.
Proof. unfold BigEndian_AppendUint64. by rewrite length_app. Qed.

(** [binary.BigEndian.Uint16], [Uint64] of the bytes they read. *)
Definition BigEndian_Uint (b : bytes) : N := foldl (λ n x, n * 256 + byte_val x)%N 0%N b.

(** [binary.BigEndian.PutUint16]. *)
Definition BigEndian_PutUint16 (n : N) : bytes := [byte_of (N.shiftr n 8); byte_of n].

Lemma shiftr_digit n i j :
  j = (i + 8)%N → (N.shiftr n j * 256 + N.shiftr n i mod 256)%N = N.shiftr n i.
Proof.
  intros ->. rewrite <- N.shiftr_shiftr, (N.shiftr_div_pow2 (N.shiftr n i) 8). change (2 ^ 8)%N with 256%N.
  rewrite N.mul_comm. symmetry. apply N.div_mod. done.
Qed.

Lemma BigEndian_Uint64_Append n :
  (n < 2 ^ 64)%N → BigEndian_Uint (BigEndian_AppendUint64 [] n) = n.
Proof.
  intros Hn. unfold BigEndian_Uint, BigEndian_AppendUint64. cbn [app map foldl]. rewrite !byte_val_of.
  assert (N.shiftr n 64 = 0%N) as H0 by (rewrite N.shiftr_div_pow2; apply N.div_small; exact Hn).
  pose proof (shiftr_digit n 56 64 eq_refl) as E. rewrite H0, N.mul_0_l, N.add_0_l in E. rewrite N.mul_0_l, N.add_0_l, E.
  rewrite (shiftr_digit n 48 56 eq_refl), (shiftr_digit n 40 48 eq_refl), (shiftr_digit n 32 40 eq_refl), (shiftr_digit n 24 32 eq_refl),
    (shiftr_digit n 16 24 eq_refl), (shiftr_digit n 8 16 eq_refl).
  rewrite (shiftr_digit n 0 8 eq_refl). apply N.shiftr_0_r.
Qed.

Lemma BigEndian_Uint16_Put n : (n < 2 ^ 16)%N → BigEndian_Uint (BigEndian_PutUint16 n) = n.
Proof.
  intros Hn. unfold BigEndian_Uint, BigEndian_PutUint16. cbn [foldl]. rewrite !byte_val_of.
  assert (N.shiftr n 16 = 0%N) as H0 by (rewrite N.shiftr_div_pow2; apply N.div_small; exact Hn).
  pose proof (shiftr_digit n 8 16 eq_refl) as E. rewrite H0, N.mul_0_l, N.add_0_l in E. rewrite N.mul_0_l, N.add_0_l, E.
  pose proof (shiftr_digit n 0 8 eq_refl) as E0. by rewrite !N.shiftr_0_r in E0.
Qed.

Lemma BigEndian_Append_inj n m (x y : bytes) :
  (n < 2 ^ 64)%N → (m < 2 ^ 64)%N →
  BigEndian_AppendUint64 [] n ++ x = BigEndian_AppendUint64 [] m ++ y → n = m ∧ x = y.
Proof.
  intros Hn Hm E. apply app_inj_1 in E as [E ->]; [|done]. split; [|done].
  by rewrite <- (BigEndian_Uint64_Append n), E, BigEndian_Uint64_Append.
Qed.
