(* ===== verification/Sha256.v ===== *)
(** * SHA-256

    The hash of [crypto/sha256], executable, so that object identifiers of the
    model can be computed.  Words are 32-bit naturals. *)

From S2P Require Import Prelude.
From S2P Require Import Encoding.

Definition w32 : N := 4294967296.
Definition mask32 : N := 4294967295.

Definition add32 (a b : N) : N := ((a + b) mod w32)%N.

Definition rotr (x n : N) : N :=
  N.lor (N.shiftr x n) (N.land (N.shiftl x (32 - n)) mask32).

Definition not32 (x : N) : N := N.lxor x mask32.

(** The constants are fractional bits of square and cube roots of the first
    primes: the greatest [x] below [2 ^ bits] with [x ^ e <= n]. *)
Fixpoint iroot (e n : N) (bits : nat) (x : N) : N :=
  match bits with
  | O => x
  | S bits =>
      let y := N.setbit x (N.of_nat bits) in
      iroot e n bits (if (y ^ e <=? n)%N then y else x)
  end.

Definition is_prime (n : nat) : bool :=
  forallb (λ d, negb (n mod d =? 0)%nat) (seq 2 (n - 2)).
Definition primes_below (n : nat) : list N := map N.of_nat (List.filter is_prime (seq 2 (n - 2))).

(** The first 32 fractional bits of the [e]-th root. *)
Definition root_bits (e p : N) : N := (iroot e (p * 2 ^ (32 * e)) 40 0 mod w32)%N.

Definition sha_k : list N := Eval vm_compute in map (root_bits 3) (primes_below 312).
Definition sha_init : list N := Eval vm_compute in map (root_bits 2) (primes_below 20).

Definition ch (x y z : N) : N := N.lxor (N.land x y) (N.land (not32 x) z).
Definition maj (x y z : N) : N := N.lxor (N.lxor (N.land x y) (N.land x z)) (N.land y z).
Definition bsig0 (x : N) : N := N.lxor (N.lxor (rotr x 2) (rotr x 13)) (rotr x 22).
Definition bsig1 (x : N) : N := N.lxor (N.lxor (rotr x 6) (rotr x 11)) (rotr x 25).
Definition ssig0 (x : N) : N := N.lxor (N.lxor (rotr x 7) (rotr x 18)) (N.shiftr x 3).
Definition ssig1 (x : N) : N := N.lxor (N.lxor (rotr x 17) (rotr x 19)) (N.shiftr x 10).

(** The message schedule, latest word first. *)
Fixpoint schedule (n : nat) (ws : list N) : list N :=
  match n with
  | O => ws
  | S n =>
      let at_ i := nth i ws 0%N in
      schedule n (add32 (add32 (ssig1 (at_ 1%nat)) (at_ 6%nat))
                        (add32 (ssig0 (at_ 14%nat)) (at_ 15%nat)) :: ws)
  end.

Definition sha_round (st : list N) (kw : N * N) : list N :=
  match st with
  | [a; b; c; d; e; f; g; h] =>
      let t1 := add32 (add32 (add32 h (bsig1 e)) (add32 (ch e f g) kw.1)) kw.2 in
      let t2 := add32 (bsig0 a) (maj a b c) in
      [add32 t1 t2; a; b; c; add32 d t1; e; f; g]
  | _ => st
  end.

Definition be32 (l : bytes) : N := foldl (λ acc b, acc * 256 + byte_val b)%N 0%N l.

Fixpoint words (n : nat) (l : bytes) : list N :=
  match n with
  | O => []
  | S n => be32 (take 4 l) :: words n (drop 4 l)
  end.

Definition sha_block (st : list N) (block : bytes) : list N :=
  let ws := rev (schedule 48 (rev (words 16 block))) in
  zip_with add32 st (foldl sha_round st (zip sha_k ws)).

Definition sha_pad (l : bytes) : bytes :=
  let z := ((119 - length l mod 64) mod 64)%nat in
  BigEndian_AppendUint64 (l ++ x80 :: replicate z x00) (N.of_nat (8 * length l)).

Fixpoint sha_blocks (n : nat) (st : list N) (l : bytes) : list N :=
  match n with
  | O => st
  | S n => sha_blocks n (sha_block st (take 64 l)) (drop 64 l)
  end.

Definition bytes_of_w32 (w : N) : bytes :=
  map (λ i, byte_of (N.shiftr w i)) [24; 16; 8; 0]%N.

Definition sha256 (l : bytes) : bytes :=
  let p := sha_pad l in
  mjoin (map bytes_of_w32 (sha_blocks (length p / 64) sha_init p)).

(** FIPS 180-4 examples. *)
Example sha256_empty :
  hex_EncodeToString (sha256 [])
  = str "e3b0c44298fc1c149afbf4c8996fb92427ae41e4649b934ca495991b7852b855".
Proof. by vm_compute. Qed.

Example sha256_abc :
  hex_EncodeToString (sha256 (str "abc"))
  = str "ba7816bf8f01cfea414140de5dae2223b00361a396177a9cb410ff61f20015ad".
Proof. by vm_compute. Qed.

Example sha256_two_blocks :
  hex_EncodeToString (sha256 (str "abcdbcdecdefdefgefghfghighijhijkijkljklmklmnlmnomnopnopq"))
  = str "248d6a61d20638b8e5c026930c3e6039a33ce45964ff2167f6ecedd419db06c1".
Proof. by vm_compute. Qed.

Lemma sha_round_length st kw : length (sha_round st kw) = length st.
Proof. unfold sha_round. repeat case_match; done. Qed.

Lemma sha_block_length st b : length st = 8%nat → length (sha_block st b) = 8%nat.
Proof.
  intros H. unfold sha_block. rewrite length_zip_with.
  assert (∀ l s, length s = 8%nat → length (foldl sha_round s l) = 8%nat) as Hf.
  { intros l. induction l as [|k l IH]; intros s Hs; simpl; [done|].
    apply IH. by rewrite sha_round_length. }
  rewrite Hf by done. lia.
Qed.

Lemma sha_blocks_length n st l : length st = 8%nat → length (sha_blocks n st l) = 8%nat.
Proof.
  revert st l. induction n as [|n IH]; intros st l H; simpl; [done|].
  by apply IH, sha_block_length.
Qed.

(** A digest has 32 bytes ([sha256.Size]). *)
Lemma sha256_length l : length (sha256 l) = 32%nat.
Proof.
  unfold sha256.
  assert (∀ ws, length (mjoin (map bytes_of_w32 ws)) = (4 * length ws)%nat) as Hj.
  { induction ws as [|w ws IH]; simpl; [done|]. rewrite IH. lia. }
  rewrite Hj, sha_blocks_length; done.
Qed.

(** ** HMAC ([crypto/hmac] with SHA-256) *)

Definition xor_byte (a b : byte) : byte := byte_of (N.lxor (byte_val a) (byte_val b)).

(** Keys of at most one block (64 bytes), zero padded; a longer key is hashed
    first. *)
Definition hmac_key (key : bytes) : bytes :=
  let k := if 64 <? len key then sha256 key else key in
  k ++ replicate (64 - length k) x00.

Definition hmac_sha256 (key msg : bytes) : bytes :=
  let k := hmac_key key in
  sha256 (map (xor_byte x5c) k ++ sha256 (map (xor_byte x36) k ++ msg)).

(** RFC 4231, test case 2. *)
Example hmac_rfc4231_2 :
  hex_EncodeToString (hmac_sha256 (str "Jefe") (str "what do ya want for nothing?"))
  = str "5bdcc146bf60754e6a042426089575c75a003f089d2739839dec58b964ec3843".
Proof. by vm_compute. Qed.

Lemma hmac_sha256_length k m : length (hmac_sha256 k m) = 32%nat.
Proof. apply sha256_length. Qed.

#[global] Opaque sha256 hmac_sha256.
