(* ===== verification/Json.v ===== *)
(** * JSON as [encoding/json] writes it

    [print] is the compact output of [json.Marshal], HTML escaping included;
    [parse] reads compact JSON.  Every protocol object is re-encoded after it
    is read and compared with its input ([decodeJSON]), so only text in the
    image of [print] is ever accepted; [parse_print] shows the reader covers
    that image. *)

From S2P Require Import Prelude.
From S2P Require Import GoStd.
From S2P Require Import Encoding.

Inductive json :=
| JNull
| JBool (b : bool)
| JNum (z : Z)
| JStr (s : bytes)
| JArr (l : list json)
| JObj (l : list (bytes * json)).

Section Induction.
Variable P : json → Prop.
Hypothesis HNull : P JNull.
Hypothesis HBool : ∀ b, P (JBool b).
Hypothesis HNum : ∀ z, P (JNum z).
Hypothesis HStr : ∀ s, P (JStr s).
Hypothesis HArr : ∀ l, Forall P l → P (JArr l).
Hypothesis HObj : ∀ l, Forall (λ kv, P kv.2) l → P (JObj l).

(** Induction through the nested lists. *)
Fixpoint json_rect' (j : json) : P j :=
  match j with
  | JNull => HNull
  | JBool b => HBool b
  | JNum z => HNum z
  | JStr s => HStr s
  | JArr l => HArr l ((fix go l : Forall P l :=
      match l with
      | [] => @List.Forall_nil _ P
      | x :: l => @List.Forall_cons _ P _ _ (json_rect' x) (go l)
      end) l)
  | JObj l => HObj l ((fix go l : Forall (λ kv, P kv.2) l :=
      match l with
      | [] => @List.Forall_nil _ (λ kv, P kv.2)
      | x :: l => @List.Forall_cons _ (λ kv, P kv.2) _ _ (json_rect' x.2) (go l)
      end) l)
  end.
End Induction.

(** ** Printing *)

Definition quote_mark : byte := x22.
Definition backslash : byte := x5c.

(** Bytes below 0x80 that [appendString] copies with HTML escaping on. *)
Definition html_safe (b : byte) : bool :=
  (32 <=? byte_val b)%N && (b !=? x22) && (b !=? x5c) && (b !=? x3c) && (b !=? x3e)
  && (b !=? x26).

Definition escape_ascii (b : byte) : bytes :=
  if html_safe b then [b]
  else if (b ==? x22) || (b ==? x5c) then [backslash; b]
  else if b ==? x08 then str "\b"
  else if b ==? x0c then str "\f"
  else if b ==? x0a then str "\n"
  else if b ==? x0d then str "\r"
  else if b ==? x09 then str "\t"
  else str "\u00" ++ [hex_digit (byte_val b / 16); hex_digit (byte_val b mod 16)].

(** A multi-byte rune: U+2028 and U+2029 are escaped. *)
Definition escape_rune (r : bytes) : bytes :=
  if r ==? [xe2; x80; xa8] then str "\u2028"
  else if r ==? [xe2; x80; xa9] then str "\u2029"
  else r.

Fixpoint escape (fuel : nat) (s : bytes) : bytes :=
  match s, fuel with
  | [], _ => []
  | _, O => []
  | b :: s', S fuel =>
      if (byte_val b <? 128)%N then escape_ascii b ++ escape fuel s'
      else match rune_size s with
           | Some n => escape_rune (take n s) ++ escape fuel (drop n s)
           | None => str "\ufffd" ++ escape fuel s'
           end
  end.

Definition quote (s : bytes) : bytes :=
  quote_mark :: escape (length s) s ++ [quote_mark].

Fixpoint print (j : json) : bytes :=
  match j with
  | JNull => str "null"
  | JBool true => str "true"
  | JBool false => str "false"
  | JNum z => format_int z
  | JStr s => quote s
  | JArr l => x5b :: Join [x2c] (map print l) ++ [x5d]
  | JObj l =>
      x7b :: Join [x2c] (map (λ kv, match kv with (k, v) => quote k ++ x3a :: print v end) l)
        ++ [x7d]
  end.

(** ** Parsing *)

Definition hex4 (a b c d : byte) : option N :=
  match hex_value a, hex_value b, hex_value c, hex_value d with
  | Some w, Some x, Some y, Some z => Some (((w * 16 + x) * 16 + y) * 16 + z)%N
  | _, _, _, _ => None
  end.

(** UTF-8 of a code point of the basic plane; surrogates are refused. *)
Definition utf8_of_u16 (v : N) : option bytes :=
  if (v <? 128)%N then Some [byte_of v]
  else if (v <? 2048)%N then Some [byte_of (192 + v / 64); byte_of (128 + v mod 64)]
  else if (55296 <=? v)%N && (v <=? 57343)%N then None
  else Some [byte_of (224 + v / 4096); byte_of (128 + v / 64 mod 64); byte_of (128 + v mod 64)].

Definition simple_escape (c : byte) : option byte :=
  if (c ==? x22) || (c ==? x5c) || (c ==? x2f) then Some c
  else if c ==? x62 then Some x08
  else if c ==? x66 then Some x0c
  else if c ==? x6e then Some x0a
  else if c ==? x72 then Some x0d
  else if c ==? x74 then Some x09
  else None.

Definition prepend (p : bytes) (r : option (bytes * bytes)) : option (bytes * bytes) :=
  match r with Some (s, rest) => Some (p ++ s, rest) | None => None end.

(** The rest of a string literal after its opening quote. *)
Fixpoint parse_str (s : bytes) : option (bytes * bytes) :=
  match s with
  | [] => None
  | b :: r =>
      if b ==? quote_mark then Some ([], r)
      else if b ==? backslash then
        match r with
        | [] => None
        | c :: r1 =>
            if c ==? x75 then
              match r1 with
              | h1 :: h2 :: h3 :: h4 :: r2 =>
                  match hex4 h1 h2 h3 h4 with
                  | Some v => match utf8_of_u16 v with
                              | Some u => prepend u (parse_str r2)
                              | None => None
                              end
                  | None => None
                  end
              | _ => None
              end
            else match simple_escape c with
                 | Some x => prepend [x] (parse_str r1)
                 | None => None
                 end
        end
      else if (byte_val b <? 32)%N then None
      else prepend [b] (parse_str r)
  end.

Definition num_char (b : byte) : bool := is_digit b || (b ==? x2d).

Fixpoint span_num (s : bytes) : bytes * bytes :=
  match s with
  | b :: s' =>
      if num_char b then let '(d, r) := span_num s' in (b :: d, r) else ([], s)
  | [] => ([], [])
  end.

Definition parse_num (s : bytes) : option (json * bytes) :=
  let '(d, r) := span_num s in
  match parse_int d with Some z => Some (JNum z, r) | None => None end.

Definition eat (p s : bytes) (j : json) : option (json * bytes) :=
  if HasPrefix s p then Some (j, drop (length p) s) else None.

Fixpoint parse_value (fuel : nat) (s : bytes) : option (json * bytes) :=
  match fuel, s with
  | S fuel, b :: r =>
      if b ==? x6e then eat (str "null") s JNull
      else if b ==? x74 then eat (str "true") s (JBool true)
      else if b ==? x66 then eat (str "false") s (JBool false)
      else if b ==? quote_mark then
        match parse_str r with Some (v, r') => Some (JStr v, r') | None => None end
      else if b ==? x5b then
        if HasPrefix r [x5d] then Some (JArr [], drop 1 r)
        else match parse_elems fuel r with
             | Some (l, r') => Some (JArr l, r')
             | None => None
             end
      else if b ==? x7b then
        if HasPrefix r [x7d] then Some (JObj [], drop 1 r)
        else match parse_members fuel r with
             | Some (l, r') => Some (JObj l, r')
             | None => None
             end
      else parse_num s
  | _, _ => None
  end
with parse_elems (fuel : nat) (s : bytes) : option (list json * bytes) :=
  match fuel with
  | O => None
  | S fuel =>
      match parse_value fuel s with
      | Some (v, c :: r) =>
          if c ==? x2c then
            match parse_elems fuel r with Some (l, r') => Some (v :: l, r') | None => None end
          else if c ==? x5d then Some ([v], r) else None
      | _ => None
      end
  end
with parse_members (fuel : nat) (s : bytes) : option (list (bytes * json) * bytes) :=
  match fuel with
  | O => None
  | S fuel =>
      match s with
      | q :: s1 =>
          if q ==? quote_mark then
            match parse_str s1 with
            | Some (k, c :: s2) =>
                if c ==? x3a then
                  match parse_value fuel s2 with
                  | Some (v, c :: r) =>
                      if c ==? x2c then
                        match parse_members fuel r with
                        | Some (l, r') => Some ((k, v) :: l, r')
                        | None => None
                        end
                      else if c ==? x7d then Some ([(k, v)], r) else None
                  | _ => None
                  end
                else None
            | _ => None
            end
          else None
      | [] => None
      end
  end.

(** A whole JSON text. *)
Definition parse (s : bytes) : option json :=
  match parse_value (S (length s)) s with
  | Some (j, []) => Some j
  | _ => None
  end.

(** ** Round trip *)

(** Strings are valid UTF-8. *)
Fixpoint json_wf (j : json) : Prop :=
  match j with
  | JStr s => utf8_ValidString s = true
  | JArr l => foldr (λ x acc, json_wf x ∧ acc) True l
  | JObj l => foldr (λ kv acc, match kv with (k, v) =>
      (utf8_ValidString k = true ∧ json_wf v) ∧ acc end) True l
  | _ => True
  end.

Fixpoint json_size (j : json) : nat :=
  match j with
  | JArr l => S (sum_list_with (λ x, S (json_size x)) l)
  | JObj l => S (sum_list_with (λ kv, match kv with (_, v) => S (json_size v) end) l)
  | _ => 1
  end.

Lemma parse_str_safe b t :
  html_safe b = true → parse_str (b :: t) = prepend [b] (parse_str t).
Proof.
  unfold html_safe. intros H. bool_prop. cbn [parse_str].
  unfold quote_mark, backslash. rewrite !bool_decide_false by done.
  destruct (N.ltb_spec (byte_val b) 32); [lia|done].
Qed.

Lemma parse_escape_ascii b t :
  (byte_val b < 128)%N → parse_str (escape_ascii b ++ t) = prepend [b] (parse_str t).
Proof.
  intros Hb. unfold escape_ascii. destruct (html_safe b) eqn:Hs; [by apply parse_str_safe|].
  destruct b; try discriminate Hs; try reflexivity; vm_compute in Hb; done.
Qed.

Lemma prepend_app p q r : prepend p (prepend q r) = prepend (p ++ q) r.
Proof. destruct r as [[s rest]|]; simpl; [by rewrite app_assoc|done]. Qed.

(** Bytes from 0x80 up are copied. *)
Lemma parse_str_high l t :
  Forall (λ b, (128 ≤ byte_val b)%N) l → parse_str (l ++ t) = prepend l (parse_str t).
Proof.
  induction l as [|b l IH]; intros Hl; [cbn [app]; by destruct (parse_str t) as [[? ?]|]|].
  apply Forall_cons in Hl as [Hb Hl]. cbn [app parse_str].
  unfold quote_mark, backslash.
  rewrite !bool_decide_false by (intros ->; vm_compute in Hb; by apply Hb).
  destruct (N.ltb_spec (byte_val b) 32); [lia|]. rewrite IH by done.
  by rewrite prepend_app.
Qed.

Lemma rune_bytes_high b s n :
  (128 ≤ byte_val b)%N → rune_size (b :: s) = Some n →
  Forall (λ b, (128 ≤ byte_val b)%N) (take n (b :: s)).
Proof.
  intros Hb H. unfold rune_size, in_range in H.
  repeat case_match; simplify_eq; bool_prop; simpl; repeat constructor; lia.
Qed.

Lemma parse_escape_rune r t :
  Forall (λ b, (128 ≤ byte_val b)%N) r →
  parse_str (escape_rune r ++ t) = prepend r (parse_str t).
Proof.
  intros Hr. unfold escape_rune.
  case_bool_decide as H1; [by subst|]. case_bool_decide as H2; [by subst|].
  by apply parse_str_high.
Qed.

Lemma parse_escape fuel s t :
  (length s ≤ fuel)%nat → valid_utf8 fuel s = true →
  parse_str (escape fuel s ++ quote_mark :: t) = Some (s, t).
Proof.
  revert s. induction fuel as [|fuel IH]; intros [|b s] Hlen Hv;
    [done|simpl in Hlen; lia|done|].
  cbn [escape]. cbn -[rune_size drop] in Hv.
  destruct (rune_size (b :: s)) as [n|] eqn:Hn; [|done].
  pose proof (rune_size_bounds _ _ Hn) as Hb.
  assert (Hdrop : (length (drop n (b :: s)) ≤ fuel)%nat)
    by (rewrite length_drop; simpl in *; lia).
  destruct (N.ltb_spec (byte_val b) 128) as [Hlt|Hge].
  - unfold rune_size in Hn. rewrite (proj2 (N.ltb_lt _ _) Hlt) in Hn. simplify_eq.
    rewrite <- app_assoc, parse_escape_ascii by done.
    change (drop 1 (b :: s)) with s in *. by rewrite IH.
  - rewrite <- app_assoc, parse_escape_rune by (by eapply rune_bytes_high).
    rewrite IH by done. cbn [prepend]. by rewrite take_drop.
Qed.

Lemma parse_quote s t :
  utf8_ValidString s = true → parse_str (escape (length s) s ++ quote_mark :: t) = Some (s, t).
Proof. intros H. by apply parse_escape. Qed.

Lemma parse_num_print z t :
  (∀ b t', t = b :: t' → num_char b = false) →
  parse_num (format_int z ++ t) = Some (JNum z, t).
Proof.
  intros Ht. unfold parse_num.
  assert (span_num (format_int z ++ t) = (format_int z, t)) as ->;
    [|by rewrite parse_format_int].
  assert (Forall (λ b, num_char b = true) (format_int z)) as Hd.
  { destruct (format_int_digits z) as (neg & n & ->). apply Forall_app. split.
    - destruct neg; repeat constructor.
    - eapply Forall_impl; [apply format_uint_digits|]. intros b Hb.
      unfold num_char. by rewrite Hb. }
  induction (format_int z) as [|b l IH]; simpl.
  - destruct t as [|b t']; simpl; [done|]. by rewrite (Ht b t').
  - apply Forall_cons in Hd as [Hb Hd]. by rewrite Hb, IH.
Qed.

(** The first byte of a number is none of the other markers. *)
Lemma parse_value_num fuel z t :
  (∀ b t', t = b :: t' → num_char b = false) →
  parse_value (S fuel) (format_int z ++ t) = Some (JNum z, t).
Proof.
  intros Ht. rewrite <- (parse_num_print z t Ht).
  destruct (format_int z) as [|b l] eqn:E.
  - exfalso. destruct (format_int_digits z) as (neg & n & E').
    rewrite E in E'. symmetry in E'. apply app_nil in E' as [_ E'].
    by apply format_uint_not_nil in E'.
  - assert (num_char b = true) as Hb.
    { destruct (format_int_digits z) as (neg & n & E'). rewrite E in E'.
      destruct neg; simpl in E'; [by simplify_eq|].
      pose proof (format_uint_digits n) as Hd. rewrite <- E' in Hd.
      apply Forall_cons in Hd as [Hb _]. unfold num_char. by rewrite Hb. }
    cbn [parse_value app].
    assert (b ≠ x6e ∧ b ≠ x74 ∧ b ≠ x66 ∧ b ≠ x22 ∧ b ≠ x5b ∧ b ≠ x7b) as (?&?&?&?&?&?)
      by (repeat split; intros ->; vm_compute in Hb; done).
    unfold quote_mark. by rewrite !bool_decide_false by done.
Qed.

(** What may follow a value: a separator or nothing. *)
Definition follows (t : bytes) : Prop := ∀ b t', t = b :: t' → num_char b = false.

Lemma follows_cons b t : num_char b = false → follows (b :: t).
Proof. intros H b' t' [= <- <-]. done. Qed.

Definition value_ok (j : json) : Prop :=
  ∀ fuel t, (json_size j ≤ fuel)%nat → follows t →
    parse_value fuel (print j ++ t) = Some (j, t).

Lemma parse_elems_print l t :
  l ≠ [] → Forall value_ok l →
  ∀ fuel, (sum_list_with (λ x, S (json_size x)) l ≤ fuel)%nat →
  parse_elems fuel (Join [x2c] (map print l) ++ x5d :: t) = Some (l, t).
Proof.
  intros Hne Hl. induction Hl as [|j l Hj Hl IH]; intros fuel Hf; [done|].
  simpl in Hf. destruct fuel as [|fuel]; [lia|]. cbn [parse_elems].
  destruct l as [|k l].
  - simpl. rewrite Hj by (lia || by apply follows_cons). done.
  - cbn [map]. rewrite Join_cons by done. rewrite <- !app_assoc.
    rewrite Hj by (lia || by apply follows_cons). cbn [app].
    cbn [map] in IH. by rewrite IH by (done || simpl in *; lia).
Qed.

Lemma parse_members_print l t :
  l ≠ [] → Forall (λ kv, value_ok kv.2 ∧ utf8_ValidString kv.1 = true) l →
  ∀ fuel, (sum_list_with (λ kv : bytes * json, match kv with (_, v) => S (json_size v) end) l ≤ fuel)%nat →
  parse_members fuel (Join [x2c]
    (map (λ kv, match kv with (k, v) => quote k ++ x3a :: print v end) l) ++ x7d :: t)
  = Some (l, t).
Proof.
  intros Hne Hl. induction Hl as [|[k j] l [Hj Hk] Hl IH]; intros fuel Hf; [done|].
  simpl in Hf, Hj, Hk. destruct fuel as [|fuel]; [lia|].
  destruct l as [|kv l].
  - cbn [map Join]. unfold quote. cbn [parse_members app].
    rewrite <- !app_assoc. cbn [app]. rewrite parse_quote by done. cbn -[parse_value].
    rewrite Hj by (lia || by apply follows_cons). done.
  - cbn [map]. rewrite Join_cons by done. unfold quote at 1. cbn [parse_members app].
    rewrite <- !app_assoc. cbn [app]. rewrite parse_quote by done.
    rewrite !bool_decide_true by done. cbn [app].
    rewrite Hj by (lia || by apply follows_cons).
    cbn -[parse_members Join map]. by rewrite IH by (done || simpl in *; lia).
Qed.

Lemma Join_head_not c d l :
  Forall (λ w, ∃ b t, w = b :: t ∧ b ≠ d) l → l ≠ [] → ∀ t,
  HasPrefix (Join [c] l ++ t) [d] = false.
Proof.
  intros Hl Hne t. destruct l as [|w l]; [done|].
  apply Forall_cons in Hl as [(b & t' & -> & Hb) _].
  destruct l; simpl; by rewrite bool_decide_false.
Qed.

Lemma print_head j : ∃ b t, print j = b :: t ∧ b ≠ x5d ∧ b ≠ x7d.
Proof.
  destruct j as [|[]|z|s|l|l]; simpl; try (do 2 eexists; split; [reflexivity|done]).
  destruct (format_int z) as [|b t] eqn:E.
  - exfalso. destruct (format_int_digits z) as (neg & n & E').
    rewrite E in E'. symmetry in E'. apply app_nil in E' as [_ E'].
    by apply format_uint_not_nil in E'.
  - exists b, t. split; [done|].
    destruct (format_int_digits z) as (neg & n & E'). rewrite E in E'.
    destruct neg; simpl in E'; [by simplify_eq|].
    pose proof (format_uint_digits n) as Hd. rewrite <- E' in Hd.
    apply Forall_cons in Hd as [Hb _]. split; intros ->; vm_compute in Hb; done.
Qed.

Lemma parse_value_print j : json_wf j → value_ok j.
Proof.
  induction j as [|b|z|s|l IH|l IH] using json_rect'; intros Hwf fuel t Hf Ht;
    (destruct fuel as [|fuel]; [simpl in Hf; lia|]).
  - reflexivity.
  - destruct b; reflexivity.
  - by apply parse_value_num.
  - simpl in Hwf. cbn [print]. unfold quote. cbn [parse_value app].
    rewrite <- app_assoc. cbn [app]. by rewrite parse_quote.
  - assert (Forall value_ok l) as Hl.
    { clear -IH Hwf. induction IH as [|j l Hj Hl IHl]; [constructor|].
      destruct Hwf as [Hwj Hwl]. constructor; [by apply Hj|by apply IHl]. }
    destruct (decide (l = [])) as [->|Hne]; [done|].
    cbn [print parse_value app]. rewrite <- app_assoc. cbn [app]. byte_tests.
    rewrite Join_head_not.
    + rewrite parse_elems_print by (done || simpl in Hf; lia). done.
    + apply Forall_map, Forall_forall. intros j _. simpl.
      destruct (print_head j) as (b & t' & -> & ? & ?). by exists b, t'.
    + by destruct l.
  - assert (Forall (λ kv, value_ok kv.2 ∧ utf8_ValidString kv.1 = true) l) as Hl.
    { clear -IH Hwf. induction IH as [|[k j] l Hj Hl IHl]; [constructor|].
      destruct Hwf as [[Hk Hwj] Hwl]. constructor; [by split; [apply Hj|]|by apply IHl]. }
    destruct (decide (l = [])) as [->|Hne]; [done|].
    cbn [print parse_value app]. rewrite <- app_assoc. cbn [app]. byte_tests.
    rewrite Join_head_not.
    + rewrite parse_members_print by (done || simpl in Hf; lia). done.
    + apply Forall_map, Forall_forall. intros [k j] _. simpl. by do 2 eexists.
    + by destruct l.
Qed.

Lemma Join_length c l : l ≠ [] →
  (length (Join [c] l) + 1)%nat = sum_list_with (λ w, S (length w)) l.
Proof.
  induction l as [|w l IH]; [done|]. intros _. destruct l as [|v l]; [simpl; lia|].
  rewrite Join_cons by done. rewrite !length_app.
  change (sum_list_with (λ w0 : list byte, S (length w0)) (w :: v :: l)) with
    (S (length w) + sum_list_with (λ w0 : list byte, S (length w0)) (v :: l))%nat.
  rewrite <- IH by done. simpl length. lia.
Qed.

Lemma sum_list_with_map {A B} (f : B → nat) (g : A → B) l :
  sum_list_with f (map g l) = sum_list_with (λ x, f (g x)) l.
Proof. induction l; simpl; [done|]. by rewrite IHl. Qed.

Lemma sum_list_with_le {A} (f g : A → nat) l :
  Forall (λ x, (f x ≤ g x)%nat) l → (sum_list_with f l ≤ sum_list_with g l)%nat.
Proof. induction 1; simpl; lia. Qed.

Lemma json_size_length j : (json_size j ≤ length (print j))%nat.
Proof.
  induction j as [|b|z|s|l IH|l IH] using json_rect'; simpl.
  - lia.
  - destruct b; simpl; lia.
  - destruct (print_head (JNum z)) as (b & t & E & _). simpl in E. rewrite E. simpl. lia.
  - lia.
  - destruct (decide (l = [])) as [->|Hne]; [simpl; lia|].
    rewrite length_app. simpl. apply le_n_S. rewrite Join_length, sum_list_with_map by (by destruct l).
    apply sum_list_with_le. eapply Forall_impl; [exact IH|]. simpl. lia.
  - destruct (decide (l = [])) as [->|Hne]; [simpl; lia|].
    rewrite length_app. simpl. apply le_n_S. rewrite Join_length, sum_list_with_map by (by destruct l).
    apply sum_list_with_le. eapply Forall_impl; [exact IH|]. intros [k v]; simpl.
    rewrite length_app. simpl. lia.
Qed.

(** The reader inverts the writer on every value whose strings are UTF-8. *)
Lemma parse_print j : json_wf j → parse (print j) = Some j.
Proof.
  intros Hwf. unfold parse.
  pose proof (parse_value_print j Hwf (S (length (print j))) []) as H.
  rewrite app_nil_r in H. rewrite H; [done| |].
  - pose proof (json_size_length j). lia.
  - intros b t'. discriminate.
Qed.

Lemma print_inj j k : json_wf j → json_wf k → print j = print k → j = k.
Proof.
  intros Hj Hk H. apply (f_equal parse) in H.
  rewrite !parse_print in H by done. congruence.
Qed.
