(* ===== verification/Model.v ===== *)
(** * The protocol data model ([model.go], [digest.go])

    Limits, digests, chunking parameters and the manifests, with their JSON
    form.  A codec [JSON T] is what [encoding/json] does for the struct [T]:
    [to_json] follows its field tags, [of_json] reads fields by name and leaves
    missing ones at their zero value.  [canonicalJSON] and [decodeJSON] are
    the two functions every protocol object passes through. *)

From S2P Require Import Prelude.
From S2P Require Import GoStd.
From S2P Require Import Encoding.
From S2P Require Import Sha256.
From S2P Require Import Json.

(** ** Limits *)

Definition objectFormatVersion : Z := 1.
Definition maxReferenceBytes : Z := Z.shiftl 4 10.
Definition maxMetadataObjectBytes : Z := Z.shiftl 16 20.
Definition maxChunkObjectBytes : Z := Z.shiftl 64 20.
Definition maxDirectoryEntries : Z := 250000.
Definition maxFileChunks : Z := 250000.
Definition maxEntryNameBytes : Z := 255.
Definition maxSymlinkTargetBytes : Z := Z.shiftl 64 10.
Definition maxLookupPathBytes : Z := Z.shiftl 1 20.
Definition maxLookupDepth : Z := 4096.
Definition maxCommitWalk : N := 1000000.
Definition defaultPolynomial : N := 0x3DA3358B4DC173.

(** ** Slices

    A nil slice and an empty one differ in JSON (null and []). *)
Definition slice (A : Type) : Type := option (list A).
Definition els {A} (s : slice A) : list A := default [] s.

(** ** Digests *)

(** A Go array [32]byte: lists of that length. *)
Abbreviation Digest := (list Byte.byte) (only parsing).
Definition Digest_zero : Digest := replicate 32 x00.
Definition Digest_IsZero (d : Digest) : bool := d ==? Digest_zero.
Definition Digest_String (d : Digest) : bytes := hex_EncodeToString d.
Definition digest_wf (d : Digest) : Prop := length d = 32%nat.

Definition digestObject (kind data : bytes) : Digest :=
  sha256 (str "s3disk" ++ [x00] ++ str "v1" ++ [x00] ++ kind ++ [x00] ++ data).

Definition ParseDigest (value : bytes) : result Digest :=
  match hex_DecodeString value with
  | Some decoded =>
      if len decoded !=? 32 then Err [ErrCorruptObject] else Ok decoded
  | None => Err [ErrCorruptObject]
  end.

Lemma digestObject_wf kind data : digest_wf (digestObject kind data).
Proof. apply sha256_length. Qed.

Lemma ParseDigest_String d : digest_wf d → ParseDigest (Digest_String d) = Ok d.
Proof.
  intros H. unfold ParseDigest, Digest_String. rewrite hex_roundtrip.
  unfold len. rewrite H. done.
Qed.

Lemma ParseDigest_wf s d : ParseDigest s = Ok d → digest_wf d.
Proof.
  unfold ParseDigest, digest_wf, len. intros H. repeat case_match; simplify_eq.
  bool_prop. lia.
Qed.

(** The kinds of immutable objects have no NUL byte, so the kind and the
    content of an object can be told apart in what is hashed. *)
Definition kind_wf (kind : bytes) : Prop := x00 ∉ kind.

Lemma sep_split_inj (c : byte) k k' d d' :
  c ∉ k → c ∉ k' → k ++ [c] ++ d = k' ++ [c] ++ d' → k = k' ∧ d = d'.
Proof.
  revert k'. induction k as [|b k IH]; intros k' Hk Hk' H.
  - destruct k' as [|b' k']; simpl in H; simplify_eq; [done|].
    exfalso. apply Hk'. by left.
  - destruct k' as [|b' k']; simpl in H; simplify_eq.
    + exfalso. apply Hk. by left.
    + rewrite not_elem_of_cons in Hk, Hk'.
      destruct (IH k') as [-> ->]; [by destruct Hk|by destruct Hk'|done|done].
Qed.

(** Two different byte strings with one SHA-256 digest. *)
Definition collide (x y : bytes) : Prop := x ≠ y ∧ sha256 x = sha256 y.

(** The byte strings that occur as inputs of SHA-256: a statement "unless
    SHA-256 collides" is about two of them.  It holds of every set that has the
    objects a program reads, so of one without collisions it is exact; the
    claims that need no uniqueness take [everything]. *)
Class Hashed := hashed : bytes → Prop.
Definition everything : Hashed := λ _, True.
Definition sha256_collision {U : Hashed} : Prop := ∃ x y, hashed x ∧ hashed y ∧ collide x y.

(** What digestObject hashes. *)
Definition objectMessage (kind data : bytes) : bytes :=
  str "s3disk" ++ [x00] ++ str "v1" ++ [x00] ++ kind ++ [x00] ++ data.
Definition hashed_object {U : Hashed} (kind data : bytes) : Prop := hashed (objectMessage kind data).

(** Objects of different kinds, or different objects of one kind, share a
    digest only through a collision of SHA-256. *)
Lemma digestObject_inj k k' d d' :
  kind_wf k → kind_wf k' → digestObject k d = digestObject k' d' →
  (k = k' ∧ d = d') ∨ collide (objectMessage k d) (objectMessage k' d').
Proof.
  intros Hk Hk' H. destruct (decide (objectMessage k d = objectMessage k' d')) as [E|E]; [left|by right].
  unfold objectMessage in E. do 4 apply app_inv_head in E. by apply (sep_split_inj x00).
Qed.

Lemma digestObject_inj_data k d d' :
  digestObject k d = digestObject k d' → d = d' ∨ collide (objectMessage k d) (objectMessage k d').
Proof.
  intros H. destruct (decide (d = d')) as [E|E]; [by left|]. right. split; [|exact H].
  intros E'. by do 6 apply app_inv_head in E'.
Qed.

Lemma digestObject_inj_hashed {U : Hashed} k d d' :
  digestObject k d = digestObject k d' → hashed_object k d → hashed_object k d' → d = d' ∨ sha256_collision.
Proof.
  intros H Hd Hd'. destruct (digestObject_inj_data k d d' H) as [?|?]; [by left|right].
  by exists (objectMessage k d), (objectMessage k d').
Qed.

(** ** JSON codecs *)

Class JSON (T : Type) := {
  to_json : T → json;
  of_json : json → option T;
  (** Go's static type: lengths of arrays and ranges of integers; strings that
      [json.Marshal] writes without replacement. *)
  json_valid : T → Prop;
}.

Class JSONLaws (T : Type) `{JSON T} := {
  json_valid_wf (v : T) : json_valid v → json_wf (to_json v);
  of_to_json (v : T) : json_valid v → of_json (to_json v) = Some v;
}.

Fixpoint key_eqb (a b : bytes) : bool :=
  match a, b with
  | [], [] => true
  | x :: a', y :: b' => Byte.eqb x y && key_eqb a' b'
  | _, _ => false
  end.

(** [json.Unmarshal] of one struct field: the last occurrence of the key. *)
Fixpoint json_field (k : bytes) (fs : list (bytes * json)) : option json :=
  match fs with
  | [] => None
  | (k', v) :: fs' =>
      match json_field k fs' with
      | Some r => Some r
      | None => if key_eqb k' k then Some v else None
      end
  end.

Definition fld {A} (k : string) (fs : list (bytes * json)) (dec : json → option A)
    (zero : A) : option A :=
  match json_field (str k) fs with Some j => dec j | None => Some zero end.

Definition obj_fields (j : json) : option (list (bytes * json)) :=
  match j with JObj fs => Some fs | JNull => Some [] | _ => None end.

(** Fields of basic types; null leaves the zero value. *)
Definition dec_int (j : json) : option Z :=
  match j with
  | JNum z => if int64_wf z then Some z else None
  | JNull => Some 0
  | _ => None
  end.
Definition dec_uint (max : N) (j : json) : option N :=
  match j with
  | JNum z => if (0 <=? z) && (z <=? Z.of_N max) then Some (Z.to_N z) else None
  | JNull => Some 0%N
  | _ => None
  end.
Definition dec_string (j : json) : option bytes :=
  match j with JStr s => Some s | JNull => Some [] | _ => None end.
Definition dec_bool (j : json) : option bool :=
  match j with JBool b => Some b | JNull => Some false | _ => None end.
Definition enc_uint (n : N) : json := JNum (Z.of_N n).

(** []byte is base64 text. *)
Definition enc_bytes (s : slice byte) : json :=
  match s with Some b => JStr (base64_StdEncoding_EncodeToString b) | None => JNull end.
Definition dec_bytes (j : json) : option (slice byte) :=
  match j with
  | JStr s => match base64_StdEncoding_DecodeString s with Some b => Some (Some b) | None => None end
  | JNull => Some None
  | _ => None
  end.

(** Digest.MarshalJSON and Digest.UnmarshalJSON. *)
Definition enc_digest (d : Digest) : json := JStr (Digest_String d).
Definition dec_digest (j : json) : option Digest :=
  match dec_string j with
  | Some s => match ParseDigest s with Ok d => Some d | Err _ => None end
  | None => None
  end.

(** Pointers: null is nil. *)
Definition dec_ptr {A} (dec : json → option A) (j : json) : option (option A) :=
  match j with
  | JNull => Some None
  | _ => match dec j with Some a => Some (Some a) | None => None end
  end.
(** omitempty on a pointer. *)
Definition opt_field {A} (k : string) (enc : A → json) (o : option A) : list (bytes * json) :=
  match o with Some a => [(str k, enc a)] | None => [] end.

Definition enc_slice {A} (enc : A → json) (s : slice A) : json :=
  match s with Some l => JArr (map enc l) | None => JNull end.
Fixpoint dec_list {A} (dec : json → option A) (l : list json) : option (list A) :=
  match l with
  | [] => Some []
  | j :: l' =>
      match dec j, dec_list dec l' with
      | Some a, Some r => Some (a :: r)
      | _, _ => None
      end
  end.
Definition dec_slice {A} (dec : json → option A) (j : json) : option (slice A) :=
  match j with
  | JArr l => match dec_list dec l with Some r => Some (Some r) | None => None end
  | JNull => Some None
  | _ => None
  end.

(** *** Laws of the field codecs *)

Definition int_ok (z : Z) : Prop := int64_wf z = true.
Definition u64_ok (n : N) : Prop := (n ≤ u64_max)%N.
Definition u32_max : N := 4294967295.
Definition utf8_ok (s : bytes) : Prop := utf8_ValidString s = true.

Lemma valid_utf8_ascii s :
  Forall (λ b, (byte_val b < 128)%N) s → utf8_ok s.
Proof.
  unfold utf8_ok, utf8_ValidString.
  induction 1 as [|b s Hb Hs IH]; [done|]. cbn -[rune_size].
  unfold rune_size. rewrite (proj2 (N.ltb_lt _ _) Hb). done.
Qed.

Lemma hex_digit_ascii n : (n < 16)%N → (byte_val (hex_digit n) < 128)%N.
Proof. apply (forall_below 16 (λ n, (byte_val (hex_digit n) < 128)%N)). by vm_compute. Qed.

Lemma hex_utf8 l : utf8_ok (hex_EncodeToString l).
Proof.
  apply valid_utf8_ascii. induction l as [|b l IH]; simpl; [constructor|].
  pose proof (byte_val_lt b).
  constructor; [|constructor; [|done]]; apply hex_digit_ascii;
    [apply N.Div0.div_lt_upper_bound; lia|apply N.mod_lt; lia].
Qed.

Lemma b64_char_ascii n : (n < 64)%N → (byte_val (b64_char b64_std n) < 128)%N.
Proof. apply (forall_below 64 (λ n, (byte_val (b64_char b64_std n) < 128)%N)). by vm_compute. Qed.

Lemma b64_utf8 l : utf8_ok (base64_StdEncoding_EncodeToString l).
Proof.
  apply valid_utf8_ascii. unfold base64_StdEncoding_EncodeToString.
  induction l as [l IH] using (induction_ltof1 _ length). unfold ltof in IH.
  assert (∀ b, byte_val b < 256)%N as Hb by apply byte_val_lt.
  destruct l as [|a [|b [|d l]]]; cbn -[N.mul N.div N.modulo b64_char];
    [constructor| | |]; pose proof (Hb a); try pose proof (Hb b); try pose proof (Hb d);
    repeat (apply List.Forall_cons; [first [apply b64_char_ascii; lia | by vm_compute]|]);
    [constructor..|]. apply IH. simpl. lia.
Qed.

Lemma dec_int_ok z : int_ok z → dec_int (JNum z) = Some z.
Proof. unfold int_ok. simpl. by intros ->. Qed.
Lemma dec_uint_ok max n : (n ≤ max)%N → dec_uint max (enc_uint n) = Some n.
Proof.
  intros H. simpl. destruct (Z.leb_spec 0 (Z.of_N n)); [|lia].
  destruct (Z.leb_spec (Z.of_N n) (Z.of_N max)); [|lia]. simpl. f_equal. lia.
Qed.
Lemma dec_digest_ok d : digest_wf d → dec_digest (enc_digest d) = Some d.
Proof. intros H. unfold dec_digest, enc_digest. simpl. by rewrite ParseDigest_String. Qed.
Lemma dec_bytes_ok s : dec_bytes (enc_bytes s) = Some s.
Proof. destruct s as [b|]; simpl; [by rewrite base64_roundtrip|done]. Qed.
Lemma dec_ptr_ok {A} (dec : json → option A) enc (o : option A) :
  (∀ a, o = Some a → enc a ≠ JNull ∧ dec (enc a) = Some a) →
  ∀ a, o = Some a → dec_ptr dec (enc a) = Some o.
Proof.
  intros H a ->. destruct (H a eq_refl) as [Hn Hd]. unfold dec_ptr.
  destruct (enc a); try done; by rewrite Hd.
Qed.
Lemma dec_list_ok {A} (dec : json → option A) enc l :
  Forall (λ a, dec (enc a) = Some a) l → dec_list dec (map enc l) = Some l.
Proof. induction 1 as [|a l Ha Hl IH]; simpl; [done|]. by rewrite Ha, IH. Qed.
Lemma dec_slice_ok {A} (dec : json → option A) enc s :
  Forall (λ a, dec (enc a) = Some a) (els s) → dec_slice dec (enc_slice enc s) = Some s.
Proof.
  destruct s as [l|]; simpl; [|done]. intros H. by rewrite dec_list_ok.
Qed.

Lemma enc_bytes_wf s : json_wf (enc_bytes s).
Proof. destruct s; simpl; [apply b64_utf8|done]. Qed.
Lemma enc_digest_wf d : json_wf (enc_digest d).
Proof. apply hex_utf8. Qed.
Lemma enc_slice_wf {A} (enc : A → json) s :
  Forall (λ a, json_wf (enc a)) (els s) → json_wf (enc_slice enc s).
Proof.
  destruct s as [l|]; simpl; [|done]. induction 1 as [|a l Ha Hl IH]; simpl; [done|]. by split.
Qed.
#[export] Hint Resolve enc_bytes_wf enc_digest_wf : s3disk.

(** Objects are well formed when their keys and values are. *)
Definition field_wf (kv : bytes * json) : Prop := utf8_ok kv.1 ∧ json_wf kv.2.
Lemma json_wf_obj fs : Forall field_wf fs → json_wf (JObj fs).
Proof. induction 1 as [|[k v] fs [Hk Hv] Hfs IH]; simpl; [done|]. by repeat split. Qed.
Lemma opt_field_wf {A} k (enc : A → json) o :
  utf8_ok (str k) → (∀ a, o = Some a → json_wf (enc a)) → Forall field_wf (opt_field k enc o).
Proof. intros Hk Ho. destruct o; simpl; [|done]. repeat constructor; simpl; auto. Qed.

Arguments enc_bytes : simpl never.
Arguments enc_digest : simpl never.
Arguments enc_slice : simpl never.
Arguments enc_uint : simpl never.
Arguments dec_int : simpl never.
Arguments dec_uint : simpl never.
Arguments dec_bytes : simpl never.
Arguments dec_digest : simpl never.
Arguments dec_slice : simpl never.
Arguments dec_ptr : simpl never.

(** Looks up the fields of an object whose keys are constants. *)
Ltac json_fields :=
  cbv [fld obj_fields json_field key_eqb str String.list_byte_of_string
       String.list_ascii_of_string List.map Ascii.byte_of_ascii Byte.of_bits
       Byte.eqb Byte.to_bits Bool.eqb andb opt_field app].

(** The strings of encoded fields are UTF-8. *)
Ltac json_strings :=
  first [assumption | apply hex_utf8 | apply b64_utf8 | apply enc_bytes_wf | done].

(** Evaluates a decoder on the encoded fields. *)
Ltac json_decode :=
  cbn; json_fields; cbn;
  repeat (first [rewrite dec_int_ok by done | rewrite dec_uint_ok by done
    | rewrite dec_digest_ok by done | rewrite dec_bytes_ok]; cbn).

(** ** canonicalJSON and decodeJSON *)

Definition canonicalJSON {T} `{JSON T} (value : T) : bytes := print (to_json value).

Definition decodeJSON {T} `{JSON T} (data : bytes) : result T :=
  if maxMetadataObjectBytes <? len data then Err [ErrCorruptObject; ErrResourceLimit]
  else match parse data with
  | None => Err [ErrCorruptObject]
  | Some j =>
      match of_json j with
      | None => Err [ErrCorruptObject]
      | Some value =>
          if data !=? canonicalJSON value then Err [ErrCorruptObject] else Ok value
      end
  end.

Lemma decodeJSON_canonical {T} `{JSON T} data (v : T) :
  decodeJSON data = Ok v → data = canonicalJSON v.
Proof. unfold decodeJSON. intros E. repeat case_match; simplify_eq. by bool_prop. Qed.

(** The encoding of an object starts with a brace. *)
Lemma canonicalJSON_nonempty {T} `{JSON T} (v : T) fs :
  to_json v = JObj fs → (len (canonicalJSON v) =? 0) = false.
Proof. unfold canonicalJSON. intros ->. done. Qed.

Lemma decodeJSON_of_json {T} `{JSON T} data (v : T) :
  decodeJSON data = Ok v → ∃ j, of_json j = Some v.
Proof. unfold decodeJSON. intros E. repeat case_match; simplify_eq. eauto. Qed.

Lemma dec_uint_max max j n : dec_uint max j = Some n → (n ≤ max)%N.
Proof.
  unfold dec_uint. destruct j; intros E; simplify_eq; [lia|]. case_match; simplify_eq. bool_prop. lia.
Qed.

Lemma fld_uint_max k fs max n : fld k fs (dec_uint max) 0%N = Some n → (n ≤ max)%N.
Proof.
  unfold fld. destruct (json_field (str k) fs); intros E; [by eapply dec_uint_max|simplify_eq; lia].
Qed.

Lemma fld_int_range k fs z : fld k fs dec_int 0 = Some z → int64_min ≤ z ≤ int64_max.
Proof.
  unfold fld, dec_int, int64_wf. intros E. repeat case_match; simplify_eq; bool_prop;
    unfold int64_min, int64_max in *; lia.
Qed.

Lemma decodeJSON_size {T} `{JSON T} data (v : T) :
  decodeJSON data = Ok v → len data ≤ maxMetadataObjectBytes.
Proof. unfold decodeJSON. intros E. repeat case_match; simplify_eq. bool_prop. lia. Qed.

Lemma decodeJSON_err {T} `{JSON T} data e :
  decodeJSON (T:=T) data = Err e → errors_Is e ErrCorruptObject = true.
Proof. unfold decodeJSON. intros E. repeat case_match; by simplify_eq. Qed.

Lemma canonicalJSON_inj {T} `{JSONLaws T} (v w : T) :
  json_valid v → json_valid w → canonicalJSON v = canonicalJSON w → v = w.
Proof.
  intros Hv Hw E. apply print_inj in E; [|by apply json_valid_wf..].
  apply (f_equal of_json) in E. rewrite !of_to_json in E by done. congruence.
Qed.

Lemma decode_encode {T} `{JSONLaws T} (v : T) :
  json_valid v → len (canonicalJSON v) ≤ maxMetadataObjectBytes →
  decodeJSON (canonicalJSON v) = Ok v.
Proof.
  intros Hv Hlen. unfold decodeJSON.
  destruct (Z.ltb_spec maxMetadataObjectBytes (len (canonicalJSON v))); [lia|].
  unfold canonicalJSON at 1. rewrite parse_print by (by apply json_valid_wf).
  rewrite of_to_json by done. by rewrite bool_decide_true.
Qed.

(** ** Manifests *)

Definition EntryType := bytes.
Definition EntryFile : EntryType := str "file".
Definition EntryDir : EntryType := str "directory".
Definition EntrySymlink : EntryType := str "symlink".

Inductive SymlinkPolicy := SymlinkRejectExternal | SymlinkPreserve.
#[export] Instance SymlinkPolicy_eq_dec : EqDecision SymlinkPolicy.
Proof. solve_decision. Defined.

Record snapshotReference := {
  sr_Format : Z;
  sr_Generation : N;
  sr_Commit : Digest;
}.
#[export] Instance snapshotReference_eq_dec : EqDecision snapshotReference.
Proof. solve_decision. Defined.

#[export] Instance snapshotReference_json : JSON snapshotReference := {
  to_json r := JObj [(str "format", JNum (sr_Format r));
                     (str "generation", enc_uint (sr_Generation r));
                     (str "commit", enc_digest (sr_Commit r))];
  of_json j :=
    fs ← obj_fields j;
    f ← fld "format" fs dec_int 0;
    g ← fld "generation" fs (dec_uint u64_max) 0%N;
    c ← fld "commit" fs dec_digest Digest_zero;
    Some {| sr_Format := f; sr_Generation := g; sr_Commit := c |};
  json_valid r := int_ok (sr_Format r) ∧ u64_ok (sr_Generation r) ∧ digest_wf (sr_Commit r);
}.

#[export] Instance snapshotReference_laws : JSONLaws snapshotReference.
Proof.
  split.
  - intros [f g c] (Hf & Hg & Hc). simpl. repeat split. apply enc_digest_wf.
  - intros [f g c] (Hf & Hg & Hc). by json_decode.
Qed.

Record commitManifest := {
  cm_Format : Z;
  cm_Generation : N;
  cm_Parent : option Digest;
  cm_Root : Digest;
  cm_PublishedAtUnix : Z;
  cm_ResetChanges : bool;
}.
#[export] Instance commitManifest_eq_dec : EqDecision commitManifest.
Proof. solve_decision. Defined.

#[export] Instance commitManifest_json : JSON commitManifest := {
  to_json m := JObj ([(str "format", JNum (cm_Format m));
                      (str "generation", enc_uint (cm_Generation m))]
    ++ opt_field "parent" enc_digest (cm_Parent m)
    ++ [(str "root", enc_digest (cm_Root m));
        (str "published_at_unix_nano", JNum (cm_PublishedAtUnix m));
        (str "reset_changes", JBool (cm_ResetChanges m))]);
  of_json j :=
    fs ← obj_fields j;
    f ← fld "format" fs dec_int 0;
    g ← fld "generation" fs (dec_uint u64_max) 0%N;
    p ← fld "parent" fs (dec_ptr dec_digest) None;
    r ← fld "root" fs dec_digest Digest_zero;
    t ← fld "published_at_unix_nano" fs dec_int 0;
    c ← fld "reset_changes" fs dec_bool false;
    Some {| cm_Format := f; cm_Generation := g; cm_Parent := p; cm_Root := r;
            cm_PublishedAtUnix := t; cm_ResetChanges := c |};
  json_valid m := int_ok (cm_Format m) ∧ u64_ok (cm_Generation m) ∧
    (∀ d, cm_Parent m = Some d → digest_wf d) ∧ digest_wf (cm_Root m) ∧
    int_ok (cm_PublishedAtUnix m);
}.

#[export] Instance commitManifest_laws : JSONLaws commitManifest.
Proof.
  split.
  - intros [f g [p|] r t c] (Hf & Hg & Hp & Hr & Ht); simpl; repeat split; apply enc_digest_wf.
  - intros [f g [p|] r t c] (Hf & Hg & Hp & Hr & Ht); simpl in *; json_decode; [|done].
    rewrite (dec_ptr_ok dec_digest enc_digest (Some p)); [by json_decode| |done].
    intros a [= <-]. split; [done|]. by apply dec_digest_ok, Hp.
Qed.

Record dirEntry := {
  de_Name : slice byte;
  de_Type : EntryType;
  de_Node : Digest;
  de_Mode : N;
  de_Size : Z;
  de_ModTimeUnixNano : Z;
}.
#[export] Instance dirEntry_eq_dec : EqDecision dirEntry.
Proof. solve_decision. Defined.

#[export] Instance dirEntry_json : JSON dirEntry := {
  to_json e := JObj [(str "name", enc_bytes (de_Name e));
                     (str "type", JStr (de_Type e));
                     (str "node", enc_digest (de_Node e));
                     (str "mode", enc_uint (de_Mode e));
                     (str "size", JNum (de_Size e));
                     (str "mtime_unix_nano", JNum (de_ModTimeUnixNano e))];
  of_json j :=
    fs ← obj_fields j;
    n ← fld "name" fs dec_bytes None;
    t ← fld "type" fs dec_string [];
    d ← fld "node" fs dec_digest Digest_zero;
    m ← fld "mode" fs (dec_uint u32_max) 0%N;
    s ← fld "size" fs dec_int 0;
    u ← fld "mtime_unix_nano" fs dec_int 0;
    Some {| de_Name := n; de_Type := t; de_Node := d; de_Mode := m; de_Size := s;
            de_ModTimeUnixNano := u |};
  json_valid e := utf8_ok (de_Type e) ∧ digest_wf (de_Node e) ∧ (de_Mode e ≤ u32_max)%N ∧
    int_ok (de_Size e) ∧ int_ok (de_ModTimeUnixNano e);
}.

#[export] Instance dirEntry_laws : JSONLaws dirEntry.
Proof.
  split.
  - intros [n t d m s u] (Ht & Hd & Hm & Hs & Hu). simpl in *. repeat split; json_strings.
  - intros [n t d m s u] (Ht & Hd & Hm & Hs & Hu). simpl in *. by json_decode.
Qed.

Record dirManifest := {
  dm_Format : Z;
  dm_Entries : slice dirEntry;
}.
#[export] Instance dirManifest_eq_dec : EqDecision dirManifest.
Proof. solve_decision. Defined.

#[export] Instance dirManifest_json : JSON dirManifest := {
  to_json m := JObj [(str "format", JNum (dm_Format m));
                     (str "entries", enc_slice to_json (dm_Entries m))];
  of_json j :=
    fs ← obj_fields j;
    f ← fld "format" fs dec_int 0;
    e ← fld "entries" fs (dec_slice of_json) None;
    Some {| dm_Format := f; dm_Entries := e |};
  json_valid m := int_ok (dm_Format m) ∧ Forall json_valid (els (dm_Entries m));
}.

#[export] Instance dirManifest_laws : JSONLaws dirManifest.
Proof.
  split.
  - intros [f e] (Hf & He). simpl in *. repeat split. apply enc_slice_wf.
    eapply Forall_impl; [exact He|]. intros v Hv. exact (json_valid_wf (T:=dirEntry) v Hv).
  - intros [f e] (Hf & He). simpl in *. json_decode.
    rewrite dec_slice_ok; [done|]. eapply Forall_impl; [exact He|]. intros v Hv. exact (of_to_json (T:=dirEntry) v Hv).
Qed.

Record chunkRef := {
  cr_Offset : Z;
  cr_Size : Z;
  cr_Digest : Digest;
}.
#[export] Instance chunkRef_eq_dec : EqDecision chunkRef.
Proof. solve_decision. Defined.

#[export] Instance chunkRef_json : JSON chunkRef := {
  to_json c := JObj [(str "offset", JNum (cr_Offset c));
                     (str "size", JNum (cr_Size c));
                     (str "digest", enc_digest (cr_Digest c))];
  of_json j :=
    fs ← obj_fields j;
    o ← fld "offset" fs dec_int 0;
    s ← fld "size" fs dec_int 0;
    d ← fld "digest" fs dec_digest Digest_zero;
    Some {| cr_Offset := o; cr_Size := s; cr_Digest := d |};
  json_valid c := int_ok (cr_Offset c) ∧ int_ok (cr_Size c) ∧ digest_wf (cr_Digest c);
}.

#[export] Instance chunkRef_laws : JSONLaws chunkRef.
Proof.
  split.
  - intros [o s d] (Ho & Hs & Hd). simpl. repeat split. apply enc_digest_wf.
  - intros [o s d] (Ho & Hs & Hd). simpl in *. by json_decode.
Qed.

Record fileManifest := {
  fm_Format : Z;
  fm_Algorithm : bytes;
  fm_MinSize : Z;
  fm_AvgSize : Z;
  fm_MaxSize : Z;
  fm_Polynomial : N;
  fm_Size : Z;
  fm_Chunks : slice chunkRef;
}.
#[export] Instance fileManifest_eq_dec : EqDecision fileManifest.
Proof. solve_decision. Defined.

#[export] Instance fileManifest_json : JSON fileManifest := {
  to_json m := JObj [(str "format", JNum (fm_Format m));
                     (str "algorithm", JStr (fm_Algorithm m));
                     (str "min_size", JNum (fm_MinSize m));
                     (str "average_size", JNum (fm_AvgSize m));
                     (str "max_size", JNum (fm_MaxSize m));
                     (str "polynomial", enc_uint (fm_Polynomial m));
                     (str "size", JNum (fm_Size m));
                     (str "chunks", enc_slice to_json (fm_Chunks m))];
  of_json j :=
    fs ← obj_fields j;
    f ← fld "format" fs dec_int 0;
    a ← fld "algorithm" fs dec_string [];
    mn ← fld "min_size" fs dec_int 0;
    av ← fld "average_size" fs dec_int 0;
    mx ← fld "max_size" fs dec_int 0;
    p ← fld "polynomial" fs (dec_uint u64_max) 0%N;
    s ← fld "size" fs dec_int 0;
    c ← fld "chunks" fs (dec_slice of_json) None;
    Some {| fm_Format := f; fm_Algorithm := a; fm_MinSize := mn; fm_AvgSize := av;
            fm_MaxSize := mx; fm_Polynomial := p; fm_Size := s; fm_Chunks := c |};
  json_valid m := int_ok (fm_Format m) ∧ utf8_ok (fm_Algorithm m) ∧ int_ok (fm_MinSize m) ∧
    int_ok (fm_AvgSize m) ∧ int_ok (fm_MaxSize m) ∧ u64_ok (fm_Polynomial m) ∧
    int_ok (fm_Size m) ∧ Forall json_valid (els (fm_Chunks m));
}.

#[export] Instance fileManifest_laws : JSONLaws fileManifest.
Proof.
  split.
  - intros [f a mn av mx p s c] (Hf & Ha & Hmn & Hav & Hmx & Hp & Hs & Hc). simpl in *.
    repeat split; [done|]. apply enc_slice_wf. eapply Forall_impl; [exact Hc|].
    intros v Hv. exact (json_valid_wf (T:=chunkRef) v Hv).
  - intros [f a mn av mx p s c] (Hf & Ha & Hmn & Hav & Hmx & Hp & Hs & Hc). simpl in *.
    json_decode. rewrite dec_slice_ok; [done|].
    eapply Forall_impl; [exact Hc|]. intros v Hv. exact (of_to_json (T:=chunkRef) v Hv).
Qed.

Record symlinkManifest := {
  sm_Format : Z;
  sm_Target : slice byte;
}.
#[export] Instance symlinkManifest_eq_dec : EqDecision symlinkManifest.
Proof. solve_decision. Defined.

#[export] Instance symlinkManifest_json : JSON symlinkManifest := {
  to_json m := JObj [(str "format", JNum (sm_Format m)); (str "target", enc_bytes (sm_Target m))];
  of_json j :=
    fs ← obj_fields j;
    f ← fld "format" fs dec_int 0;
    t ← fld "target" fs dec_bytes None;
    Some {| sm_Format := f; sm_Target := t |};
  json_valid m := int_ok (sm_Format m);
}.

#[export] Instance symlinkManifest_laws : JSONLaws symlinkManifest.
Proof.
  split.
  - intros [f t] Hf. simpl in *. repeat split; json_strings.
  - intros [f t] Hf. simpl in *. by json_decode.
Qed.

(** ** Published snapshots and entries *)

(** Times are Unix nanoseconds. *)
Record Snapshot := {
  sn_Generation : N;
  sn_Commit : Digest;
  sn_Root : Digest;
  sn_PublishedAt : Z;
}.
#[export] Instance Snapshot_eq_dec : EqDecision Snapshot.
Proof. solve_decision. Defined.

Definition Snapshot_zero : Snapshot :=
  {| sn_Generation := 0; sn_Commit := Digest_zero; sn_Root := Digest_zero; sn_PublishedAt := 0 |}.

Record Entry := {
  en_Name : bytes;
  en_Type : EntryType;
  en_Size : Z;
  en_Mode : N;
  en_ModTime : Z;
}.

(** Clears the write bits, 0o222. *)
Definition readonlyMode (mode : N) : N := N.ldiff mode 0x92.

(** ** Chunking options *)

Record ChunkingOptions := {
  co_MinSize : Z;
  co_AverageSize : Z;
  co_MaxSize : Z;
  co_Polynomial : N;
}.
#[export] Instance ChunkingOptions_eq_dec : EqDecision ChunkingOptions.
Proof. solve_decision. Defined.

Definition ChunkingOptions_zero : ChunkingOptions :=
  {| co_MinSize := 0; co_AverageSize := 0; co_MaxSize := 0; co_Polynomial := 0 |}.

(** The package github.com/restic/chunker: degree and irreducibility of a
    polynomial over GF(2), and the content-defined boundaries of a byte
    sequence under (polynomial, min, max, average bits). *)
Class Chunker := {
  pol_Deg : N → Z;
  pol_Irreducible : N → bool;
  chunker_cuts : N → Z → Z → Z → bytes → list bytes;
}.

(** What the code relies on of its splitter: the pieces are non-empty, at most
    the maximum size, and their concatenation is the input. *)
Class ChunkerLaws `{Chunker} := {
  chunker_concat pol mn mx bits data : mjoin (chunker_cuts pol mn mx bits data) = data;
  chunker_bounds pol mn mx bits data :
    0 < mn → mn ≤ mx → Forall (λ c, 0 < len c ≤ mx) (chunker_cuts pol mn mx bits data);
}.

Definition normalized `{Chunker} (options : ChunkingOptions) : result ChunkingOptions :=
  let mn := if co_MinSize options =? 0 then Z.shiftl 256 10 else co_MinSize options in
  let av := if co_AverageSize options =? 0 then Z.shiftl 1 20 else co_AverageSize options in
  let mx := if co_MaxSize options =? 0 then Z.shiftl 4 20 else co_MaxSize options in
  let pol := if (co_Polynomial options =? 0)%N then defaultPolynomial else co_Polynomial options in
  guard_err ((mn <? 64) || (av <=? mn) || (mx <=? av)) [ErrInvalidChunking] ?;;
  guard_err (negb (Z.land av (av - 1) =? 0)) [ErrInvalidChunking] ?;;
  guard_err (Z.shiftl 64 20 <? mx) [ErrInvalidChunking] ?;;
  guard_err (negb (pol_Deg pol =? 53) || negb (pol_Irreducible pol)) [ErrInvalidChunking] ?;;
  Ok {| co_MinSize := mn; co_AverageSize := av; co_MaxSize := mx; co_Polynomial := pol |}.

(** [bits.TrailingZeros64]. *)
Fixpoint trailing_zeros_pos (p : positive) : Z :=
  match p with xO p => 1 + trailing_zeros_pos p | _ => 0 end.
Definition TrailingZeros64 (n : Z) : Z :=
  match n with Zpos p => trailing_zeros_pos p | _ => 64 end.
Definition averageBits (options : ChunkingOptions) : Z := TrailingZeros64 (co_AverageSize options).

(** A splitter that cuts at the maximum size, for the examples. *)
Fixpoint cut_every (n fuel : nat) (data : bytes) : list bytes :=
  match data, fuel with
  | [], _ => []
  | _, O => [data]
  | _, S fuel => take n data :: cut_every n fuel (drop n data)
  end.

Definition toy_chunker : Chunker :=
  {| pol_Deg _ := 53; pol_Irreducible _ := true;
     chunker_cuts _ _ mx _ data := cut_every (Z.to_nat mx) (length data) data |}.

Lemma cut_every_join n fuel data : mjoin (cut_every n fuel data) = data.
Proof.
  revert data. induction fuel as [|fuel IH]; intros [|b data]; try done.
  - simpl. by rewrite app_nil_r.
  - change (take n (b :: data) ++ mjoin (cut_every n fuel (drop n (b :: data))) = b :: data).
    by rewrite IH, take_drop.
Qed.

Lemma cut_every_bounds n fuel data :
  (0 < n)%nat → (length data ≤ fuel)%nat →
  Forall (λ c, 0 < len c ≤ Z.of_nat n) (cut_every n fuel data).
Proof.
  intros Hn. revert data. induction fuel as [|fuel IH]; intros [|b data] Hl; simpl in Hl; try constructor; try lia.
  - unfold len. rewrite length_take. simpl. lia.
  - apply IH. rewrite length_drop. simpl. lia.
Qed.

Definition toy_chunker_laws : ChunkerLaws (H:=toy_chunker).
Proof.
  split.
  - intros. apply cut_every_join.
  - intros pol mn mx bits data Hmn Hmx. simpl.
    pose proof (cut_every_bounds (Z.to_nat mx) (length data) data) as Hc.
    rewrite Z2Nat.id in Hc by lia. apply Hc; lia.
Defined.

(** A literal of the fixtures, with ' for the quotation mark. *)
Definition quote_json (s : string) : bytes :=
  map (λ b, if b ==? x27 then x22 else b) (str s).

(** The golden fixtures of testdata/protocol/v1. *)
Definition fixture_digest (first : N) : Digest :=
  map (λ i, byte_of (first + N.of_nat i)) (seq 0 32).

Example golden_reference :
  canonicalJSON {| sr_Format := 1; sr_Generation := 7; sr_Commit := fixture_digest 0 |}
  = quote_json "{'format':1,'generation':7,'commit':'000102030405060708090a0b0c0d0e0f101112131415161718191a1b1c1d1e1f'}".
Proof. by vm_compute. Qed.

Example golden_commit :
  canonicalJSON {| cm_Format := 1; cm_Generation := 7; cm_Parent := Some (fixture_digest 0);
    cm_Root := fixture_digest 32; cm_PublishedAtUnix := 1700000000123456789;
    cm_ResetChanges := true |}
  = quote_json "{'format':1,'generation':7,'parent':'000102030405060708090a0b0c0d0e0f101112131415161718191a1b1c1d1e1f','root':'202122232425262728292a2b2c2d2e2f303132333435363738393a3b3c3d3e3f','published_at_unix_nano':1700000000123456789,'reset_changes':true}".
Proof. by vm_compute. Qed.

Definition fixture_dir : dirManifest :=
  {| dm_Format := 1; dm_Entries := Some
    [{| de_Name := Some (str "docs"); de_Type := EntryDir; de_Node := fixture_digest 32;
        de_Mode := 365; de_Size := 0; de_ModTimeUnixNano := 1700000000000000000 |};
     {| de_Name := Some (str "report.txt"); de_Type := EntryFile; de_Node := fixture_digest 64;
        de_Mode := 292; de_Size := 5; de_ModTimeUnixNano := 1700000000123456789 |}] |}.

Example golden_directory :
  canonicalJSON fixture_dir
  = quote_json "{'format':1,'entries':[{'name':'ZG9jcw==','type':'directory','node':'202122232425262728292a2b2c2d2e2f303132333435363738393a3b3c3d3e3f','mode':365,'size':0,'mtime_unix_nano':1700000000000000000},{'name':'cmVwb3J0LnR4dA==','type':'file','node':'404142434445464748494a4b4c4d4e4f505152535455565758595a5b5c5d5e5f','mode':292,'size':5,'mtime_unix_nano':1700000000123456789}]}"
  ∧ decodeJSON (canonicalJSON fixture_dir) = Ok fixture_dir.
Proof. by vm_compute. Qed.

Definition fixture_file : fileManifest :=
  {| fm_Format := 1; fm_Algorithm := str "rabin-v1"; fm_MinSize := 64; fm_AvgSize := 128;
     fm_MaxSize := 256; fm_Polynomial := defaultPolynomial; fm_Size := 5;
     fm_Chunks := Some [{| cr_Offset := 0; cr_Size := 5; cr_Digest := fixture_digest 64 |}] |}.

Example golden_file :
  canonicalJSON fixture_file
  = quote_json "{'format':1,'algorithm':'rabin-v1','min_size':64,'average_size':128,'max_size':256,'polynomial':17349423945073011,'size':5,'chunks':[{'offset':0,'size':5,'digest':'404142434445464748494a4b4c4d4e4f505152535455565758595a5b5c5d5e5f'}]}"
  ∧ decodeJSON (canonicalJSON fixture_file) = Ok fixture_file.
Proof. by vm_compute. Qed.

Example golden_symlink :
  canonicalJSON {| sm_Format := 1; sm_Target := Some (str "../docs/report.txt") |}
  = quote_json "{'format':1,'target':'Li4vZG9jcy9yZXBvcnQudHh0'}".
Proof. by vm_compute. Qed.

(** Protocol bytes are only computed by [vm_compute]; proofs use the lemmas. *)
#[global] Opaque canonicalJSON decodeJSON digestObject.

(** Takes apart a successful decoder. *)
Ltac option_inv :=
  repeat match goal with
  | H : mbind _ _ = Some _ |- _ =>
      let x := fresh "x" in let H1 := fresh "Hx" in apply bind_Some in H as (x & H1 & H)
  | H : Some _ = Some _ |- _ => injection H as H
  end.

(** A decoded generation is a uint64. *)
Lemma decode_reference_generation data (r : snapshotReference) :
  decodeJSON data = Ok r → (sr_Generation r ≤ u64_max)%N.
Proof.
  intros (j & Hj)%decodeJSON_of_json. unfold of_json, snapshotReference_json in Hj. option_inv.
  subst r. simpl. by eapply fld_uint_max.
Qed.

Lemma decode_commit_generation data (c : commitManifest) :
  decodeJSON data = Ok c → (cm_Generation c ≤ u64_max)%N.
Proof.
  intros (j & Hj)%decodeJSON_of_json. unfold of_json, commitManifest_json in Hj. option_inv.
  subst c. simpl. by eapply fld_uint_max.
Qed.
