(* ===== verification/Rfc3339.v ===== *)
(** * Times in JSON (package time of the standard library)

    [time.Time] as the program uses it: an instant in nanoseconds and the zone
    offset it is shown with.  [Time_Format] is the text of MarshalJSON (RFC 3339
    with nanoseconds), [Time_Parse] reads it back strictly; a time of a year
    from 0 to 9999 survives the round trip. *)

From S2P Require Import Prelude.
From S2P Require Import GoStd.
From S2P Require Import Encoding.
From S2P Require Import Json.
From S2P Require Import Model.

(** [tm_zone]: minutes east of UTC. *)
Record Time := {
  tm_ns : Z;
  tm_zone : Z;
}.
#[export] Instance Time_eq_dec : EqDecision Time.
Proof. solve_decision. Defined.

Definition second : Z := 1000000000.
Definition day_ns : Z := 86400 * second.

(** The zero Time, 1 January of year 1, and [IsZero] of an instant. *)
Definition zero_ns : Z := -62135596800 * second.
Definition Time_zero : Time := {| tm_ns := zero_ns; tm_zone := 0 |}.
Definition ns_IsZero (ns : Z) : bool := ns =? zero_ns.

(** [t.UTC()] of an instant. *)
Definition Time_UTC (ns : Z) : Time := {| tm_ns := ns; tm_zone := 0 |}.

(** ** The calendar *)

(** Year, month and day of a number of days since 1 January 1970 in the
    proleptic Gregorian calendar: eras of 400 years from 1 March, their
    centuries, the cycles of four years and their years, of which the last has
    the extra day. *)
Definition civil_of_days (days : Z) : Z * Z * Z :=
  let z := days + 719468 in
  let era := z / 146097 in
  let doe := z mod 146097 in
  let century := Z.min 3 (doe / 36524) in
  let doc := doe - century * 36524 in
  let cycle := doc / 1461 in
  let doy4 := doc mod 1461 in
  let year := Z.min 3 (doy4 / 365) in
  let doy := doy4 - year * 365 in
  let mp := (5 * doy + 2) / 153 in
  let d := doy - (153 * mp + 2) / 5 + 1 in
  let m := if mp <? 10 then mp + 3 else mp - 9 in
  (era * 400 + century * 100 + cycle * 4 + year + (if m <=? 2 then 1 else 0), m, d).

Definition days_of_civil (y m d : Z) : Z :=
  let y := if m <=? 2 then y - 1 else y in
  let era := y / 400 in
  let yoe := y mod 400 in
  let doy := (153 * (if 2 <? m then m - 3 else m + 9) + 2) / 5 + d - 1 in
  era * 146097 + (yoe * 365 + yoe / 4 - yoe / 100 + doy) - 719468.

Definition leap (y : Z) : bool := (y mod 4 =? 0) && (negb (y mod 100 =? 0) || (y mod 400 =? 0)).
Definition daysIn (y m : Z) : Z :=
  if m =? 2 then (if leap y then 29 else 28)
  else if (m =? 4) || (m =? 6) || (m =? 9) || (m =? 11) then 30 else 31.

(** ** The text *)

Definition digit (n : Z) : byte := byte_of (Z.to_N (48 + n)).
Definition digit_value (b : byte) : option Z :=
  let v := Z.of_N (byte_val b) - 48 in if (0 <=? v) && (v <=? 9) then Some v else None.

(** The last [k] decimal digits. *)
Fixpoint digits (k : nat) (n : Z) : bytes :=
  match k with
  | O => []
  | S k => digit (n / 10 ^ Z.of_nat k) :: digits k (n mod 10 ^ Z.of_nat k)
  end.

(** Without the zeros at the end. *)
Fixpoint trim_zeros (s : bytes) : bytes :=
  match s with
  | [] => []
  | b :: s =>
      match trim_zeros s with
      | [] => if b ==? digit 0 then [] else [b]
      | r => b :: r
      end
  end.

Definition local_ns (t : Time) : Z := tm_ns t + tm_zone t * 60 * second.

Definition Time_Format (t : Time) : bytes :=
  let days := local_ns t / day_ns in
  let time := local_ns t mod day_ns in
  let ' (y, m, d) := civil_of_days days in
  let sec := time / second in
  let frac := trim_zeros (digits 9 (time mod second)) in
  let zone := Z.abs (tm_zone t) in
  digits 4 y ++ [x2d] ++ digits 2 m ++ [x2d] ++ digits 2 d ++ [x54]
  ++ digits 2 (sec / 3600) ++ [x3a] ++ digits 2 (sec mod 3600 / 60) ++ [x3a] ++ digits 2 (sec mod 60)
  ++ (if frac ==? [] then [] else x2e :: frac)
  ++ (if tm_zone t =? 0 then [x5a]
      else (if tm_zone t <? 0 then x2d else x2b) :: digits 2 (zone / 60) ++ [x3a] ++ digits 2 (zone mod 60)).

Definition Time_year (t : Time) : Z := (civil_of_days (local_ns t / day_ns)).1.1.

(** MarshalJSON refuses other years and zones. *)
Definition Time_marshals (t : Time) : bool :=
  (0 <=? Time_year t) && (Time_year t <=? 9999) && (Z.abs (tm_zone t) <? 24 * 60).

(** ** Reading *)

Fixpoint parse_digits (k : nat) (s : bytes) : option (Z * bytes) :=
  match k with
  | O => Some (0, s)
  | S k =>
      match s with
      | [] => None
      | b :: s =>
          v ← digit_value b;
          ' (n, rest) ← parse_digits k s;
          Some (v * 10 ^ Z.of_nat k + n, rest)
      end
  end.

Definition expect (b : byte) (s : bytes) : option bytes :=
  match s with c :: s => if c ==? b then Some s else None | [] => None end.

(** The digits after the point, each worth a tenth of the one before. *)
Fixpoint parse_frac (k : nat) (s : bytes) : option (Z * bytes) :=
  match s with
  | b :: s' =>
      match digit_value b with
      | Some v =>
          match k with
          | O => None
          | S k => ' (n, rest) ← parse_frac k s'; Some (v * 10 ^ Z.of_nat k + n, rest)
          end
      | None => Some (0, s)
      end
  | [] => Some (0, s)
  end.

Definition parse_fraction (s : bytes) : option (Z * bytes) :=
  match s with
  | x2e :: b :: s => _ ← digit_value b; parse_frac 9 (b :: s)
  | x2e :: [] => None
  | _ => Some (0, s)
  end.

Definition parse_zone (s : bytes) : option Z :=
  match s with
  | [x5a] => Some 0
  | sign :: s =>
      factor ← (if sign ==? x2b then Some 1 else if sign ==? x2d then Some (-1) else None);
      ' (h, s) ← parse_digits 2 s;
      s ← expect x3a s;
      ' (m, s) ← parse_digits 2 s;
      if (s ==? []) && (h <=? 23) && (m <=? 59) then Some (factor * (h * 60 + m)) else None
  | [] => None
  end.

Definition Time_Parse (s : bytes) : option Time :=
  ' (y, s) ← parse_digits 4 s; s ← expect x2d s;
  ' (m, s) ← parse_digits 2 s; s ← expect x2d s;
  ' (d, s) ← parse_digits 2 s; s ← expect x54 s;
  ' (hh, s) ← parse_digits 2 s; s ← expect x3a s;
  ' (mm, s) ← parse_digits 2 s; s ← expect x3a s;
  ' (ss, s) ← parse_digits 2 s;
  ' (frac, s) ← parse_fraction s;
  zone ← parse_zone s;
  if (1 <=? m) && (m <=? 12) && (1 <=? d) && (d <=? daysIn y m) && (hh <=? 23) && (mm <=? 59) && (ss <=? 59)
  then Some {| tm_ns := (days_of_civil y m d * 86400 + hh * 3600 + mm * 60 + ss - zone * 60) * second + frac;
               tm_zone := zone |}
  else None.

Definition enc_time (t : Time) : json := JStr (Time_Format t).
Definition dec_time (j : json) : option Time :=
  match j with JStr s => Time_Parse s | JNull => Some Time_zero | _ => None end.

Example format_now : Time_Format {| tm_ns := 1700000000123456000; tm_zone := 0 |} = str "2023-11-14T22:13:20.123456Z".
Proof. by vm_compute. Qed.
Example format_zone : Time_Format {| tm_ns := 951827696000000000; tm_zone := -150 |} = str "2000-02-29T10:04:56-02:30".
Proof. by vm_compute. Qed.
Example parse_zone_example : Time_Parse (str "2000-02-29T10:04:56-02:30") = Some {| tm_ns := 951827696000000000; tm_zone := -150 |}.
Proof. by vm_compute. Qed.
Example format_zero : Time_Format Time_zero = str "0001-01-01T00:00:00Z".
Proof. by vm_compute. Qed.

(** ** The round trip *)

Lemma digit_value_digit n : 0 ≤ n ≤ 9 → digit_value (digit n) = Some n.
Proof.
  intros Hn. unfold digit_value, digit. rewrite byte_val_of, N.mod_small by lia.
  rewrite Z2N.id by lia. replace (48 + n - 48) with n by lia.
  destruct (Z.leb_spec 0 n); [|lia]. by destruct (Z.leb_spec n 9); [|lia].
Qed.

Lemma pow10_pos k : 0 < 10 ^ Z.of_nat k.
Proof. apply Z.pow_pos_nonneg; lia. Qed.

Lemma pow10_S k : 10 ^ Z.of_nat (S k) = 10 * 10 ^ Z.of_nat k.
Proof. rewrite Nat2Z.inj_succ, Z.pow_succ_r by lia. done. Qed.

Lemma leading_digit k n : 0 ≤ n < 10 ^ Z.of_nat (S k) → 0 ≤ n / 10 ^ Z.of_nat k ≤ 9.
Proof.
  intros Hn. pose proof (pow10_pos k). rewrite pow10_S in Hn.
  split; [apply Z.div_pos; lia|]. assert (n / 10 ^ Z.of_nat k < 10); [|lia]. apply Z.div_lt_upper_bound; lia.
Qed.

Lemma parse_digits_format k n t :
  0 ≤ n < 10 ^ Z.of_nat k → parse_digits k (digits k n ++ t) = Some (n, t).
Proof.
  revert n. induction k as [|k IH]; intros n Hn; simpl digits.
  - simpl in *. repeat f_equal. lia.
  - cbn [app parse_digits]. rewrite digit_value_digit by (by apply leading_digit). cbn [mbind option_bind].
    pose proof (pow10_pos k). rewrite IH by (apply Z.mod_pos_bound; lia). cbn [mbind option_bind].
    rewrite Z.mul_comm, <- Z.div_mod by lia. done.
Qed.

(** The fraction. *)
Lemma parse_frac_format k n t :
  0 ≤ n < 10 ^ Z.of_nat k → (∀ b t', t = b :: t' → digit_value b = None) →
  parse_frac k (trim_zeros (digits k n) ++ t) = Some (n, t).
Proof.
  revert n. induction k as [|k IH]; intros n Hn Ht; simpl digits.
  { simpl. assert (n = 0) as -> by (simpl in Hn; lia). destruct t as [|b t]; simpl; [done|]. by rewrite (Ht b t). }
  pose proof (leading_digit k n Hn) as Hd. pose proof (pow10_pos k) as Hp.
  specialize (IH (n mod 10 ^ Z.of_nat k) ltac:(apply Z.mod_pos_bound; lia) Ht).
  pose proof (Z.div_mod n (10 ^ Z.of_nat k) ltac:(lia)) as Hdm.
  cbn [trim_zeros]. destruct (trim_zeros (digits k (n mod 10 ^ Z.of_nat k))) as [|c r] eqn:E.
  - assert (n mod 10 ^ Z.of_nat k = 0) as Hz.
    { destruct t as [|b t]; cbn [app] in IH.
      - destruct k; simpl in IH; congruence.
      - destruct k; simpl in IH; rewrite (Ht b t eq_refl) in IH; congruence. }
    destruct (bool_decide (digit (n / 10 ^ Z.of_nat k) = digit 0)) eqn:Ez; bool_prop.
    + apply (f_equal digit_value) in Ez. rewrite !digit_value_digit in Ez by lia. injection Ez as Ez.
      assert (n = 0) as -> by lia. destruct t as [|b t]; simpl; [done|]. by rewrite (Ht b t).
    + cbn [app parse_frac]. rewrite digit_value_digit by lia.
      destruct t as [|b t].
      * destruct k; simpl; repeat f_equal; simpl in *; lia.
      * cbn [app] in *. rewrite IH. cbn [mbind option_bind]. repeat f_equal. lia.
  - cbn [app] in IH. cbn [app parse_frac]. rewrite digit_value_digit by lia. rewrite IH. cbn [mbind option_bind]. repeat f_equal. lia.
Qed.

Lemma parse_fraction_format n t :
  0 ≤ n < second → (∃ b t', t = b :: t' ∧ digit_value b = None ∧ b ≠ x2e) →
  parse_fraction ((if trim_zeros (digits 9 n) ==? [] then [] else x2e :: trim_zeros (digits 9 n)) ++ t) = Some (n, t).
Proof.
  intros Hn (b & t' & -> & Hb & Hx).
  pose proof (parse_frac_format 9 n (b :: t') Hn) as Hp. specialize (Hp ltac:(by intros ? ? [= -> _])).
  destruct (trim_zeros (digits 9 n)) as [|c r] eqn:E.
  - rewrite bool_decide_true by done. cbn [app] in *. simpl in Hp. rewrite Hb in Hp. injection Hp as <-.
    unfold parse_fraction. by destruct b.
  - rewrite bool_decide_false by done. cbn [app parse_fraction] in *.
    assert (is_Some (digit_value c)) as [v Hv].
    { cbn [parse_frac] in Hp. destruct (digit_value c); [eauto|].
      injection Hp as _ _ Hl. apply (f_equal length) in Hl. rewrite length_app in Hl. simpl in Hl. lia. }
    rewrite Hv. exact Hp.
Qed.

Lemma parse_zone_format z :
  Z.abs z < 24 * 60 →
  parse_zone (if z =? 0 then [x5a]
              else (if z <? 0 then x2d else x2b) :: digits 2 (Z.abs z / 60) ++ [x3a] ++ digits 2 (Z.abs z mod 60)) = Some z.
Proof.
  intros Hz. destruct (Z.eqb_spec z 0) as [->|Hne]; [done|].
  assert (0 ≤ Z.abs z / 60 ≤ 23 ∧ 0 ≤ Z.abs z mod 60 ≤ 59) as [H1 H2].
  { pose proof (Z.mod_pos_bound (Z.abs z) 60). pose proof (Z.div_pos (Z.abs z) 60).
    pose proof (Z.div_lt_upper_bound (Z.abs z) 60 24). lia. }
  pose proof (Z.div_mod (Z.abs z) 60) as Hdm.
  assert (∀ sign rest, sign = x2d ∨ sign = x2b → parse_zone (sign :: rest) =
    (factor ← (if sign ==? x2b then Some 1 else if sign ==? x2d then Some (-1) else None);
      ' (h, s) ← parse_digits 2 rest; s ← expect x3a s; ' (m, s) ← parse_digits 2 s;
      if (s ==? []) && (h <=? 23) && (m <=? 59) then Some (factor * (h * 60 + m)) else None)) as Hz'.
  { intros sign rest [-> | ->]; by destruct rest. }
  rewrite Hz' by (destruct (z <? 0); auto).
  assert ((if (if z <? 0 then x2d else x2b) ==? x2b then Some 1 else if (if z <? 0 then x2d else x2b) ==? x2d then Some (-1) else None)
    = Some (if z <? 0 then -1 else 1)) as -> by (by destruct (z <? 0)).
  cbn [mbind option_bind]. rewrite parse_digits_format by (simpl; lia). cbn [mbind option_bind app expect].
  rewrite bool_decide_true by done. cbn [mbind option_bind].
  rewrite <- (app_nil_r (digits 2 (Z.abs z mod 60))), parse_digits_format by (simpl; lia). cbn [mbind option_bind].
  rewrite bool_decide_true by done.
  destruct (Z.leb_spec (Z.abs z / 60) 23); [|lia]. destruct (Z.leb_spec (Z.abs z mod 60) 59); [|lia].
  cbn [andb]. f_equal. destruct (Z.ltb_spec z 0); lia.
Qed.

(** ** The calendar *)

Lemma month_of_day doy :
  0 ≤ doy ≤ 365 →
  let mp := (5 * doy + 2) / 153 in
  let d := doy - (153 * mp + 2) / 5 + 1 in
  0 ≤ mp ≤ 11 ∧ 1 ≤ d ≤ 31 ∧ (mp = 11 → d ≤ 29 ∧ (d = 29 → doy = 365)) ∧
  (mp = 1 ∨ mp = 3 ∨ mp = 6 ∨ mp = 8 → d ≤ 30).
Proof. intros Hd mp d. unfold d, mp. lia. Qed.

Lemma day_of_era doe :
  0 ≤ doe < 146097 →
  let century := Z.min 3 (doe / 36524) in
  let doc := doe - century * 36524 in
  let cycle := doc / 1461 in
  let doy4 := doc mod 1461 in
  let year := Z.min 3 (doy4 / 365) in
  let doy := doy4 - year * 365 in
  let yoe := century * 100 + cycle * 4 + year in
  0 ≤ yoe < 400 ∧ 0 ≤ doy ≤ 365 ∧ doe = yoe * 365 + yoe / 4 - yoe / 100 + doy ∧
  (doy = 365 → (yoe + 1) mod 4 = 0 ∧ ((yoe + 1) mod 100 ≠ 0 ∨ yoe = 399)).
Proof.
  intros Hd century doc cycle doy4 year doy yoe.
  assert (0 ≤ century ≤ 3) as Hc by (unfold century; lia).
  assert (0 ≤ doc ≤ 36524 ∧ (doc = 36524 → century = 3)) as Hdoc by (unfold doc, century; lia).
  assert (0 ≤ cycle ≤ 24 ∧ 0 ≤ doy4 ≤ 1460 ∧ doc = cycle * 1461 + doy4) as Hcy by (unfold cycle, doy4; lia).
  assert (0 ≤ year ≤ 3) as Hy by (unfold year; lia).
  assert (0 ≤ doy ≤ 365 ∧ (doy = 365 → year = 3 ∧ doy4 = 1460)) as Hdoy by (unfold doy, year; lia).
  assert (doe = century * 36524 + cycle * 1461 + year * 365 + doy) as He by (unfold doy, doc in *; lia).
  assert (yoe / 4 = century * 25 + cycle) as E4 by (unfold yoe; lia).
  assert (yoe / 100 = century) as E100 by (unfold yoe; lia).
  split_and!; [unfold yoe; lia|unfold yoe; lia|lia|lia|rewrite E4, E100; unfold yoe; lia|].
  intros Hx. destruct Hdoy as [_ Hdoy]. destruct (Hdoy Hx) as [Hy3 H1460].
  split; [unfold yoe; rewrite Hy3; lia|].
  destruct (decide (cycle = 24)) as [E|E]; [right; unfold yoe; lia|left; unfold yoe; lia].
Qed.

Lemma leap_400 k y : leap (k * 400 + y) = leap y.
Proof.
  unfold leap. replace ((k * 400 + y) mod 4) with (y mod 4) by lia.
  replace ((k * 400 + y) mod 100) with (y mod 100) by lia. by replace ((k * 400 + y) mod 400) with (y mod 400) by lia.
Qed.

Lemma civil_of_days_ok days :
  let ' (y, m, d) := civil_of_days days in
  1 ≤ m ≤ 12 ∧ 1 ≤ d ≤ daysIn y m ∧ d ≤ 31 ∧ days_of_civil y m d = days.
Proof.
  unfold civil_of_days. set (z := days + 719468).
  pose proof (Z.mod_pos_bound z 146097 ltac:(lia)) as Hr. pose proof (Z.div_mod z 146097 ltac:(lia)) as Hz.
  set (era := z / 146097) in *. set (doe := z mod 146097) in *.
  destruct (day_of_era doe Hr) as (Hy & Hdoy & He & Hleap).
  set (century := Z.min 3 (doe / 36524)) in *. set (doc := doe - century * 36524) in *.
  set (cycle := doc / 1461) in *. set (doy4 := doc mod 1461) in *. set (year := Z.min 3 (doy4 / 365)) in *.
  set (doy := doy4 - year * 365) in *. set (yoe := century * 100 + cycle * 4 + year) in *.
  replace (era * 400 + century * 100 + cycle * 4 + year) with (era * 400 + yoe) by (unfold yoe; lia).
  destruct (month_of_day doy Hdoy) as (Hmp & Hd & H11 & H30).
  set (mp := (5 * doy + 2) / 153) in *. set (d := doy - (153 * mp + 2) / 5 + 1) in *.
  clearbody yoe doy. clear century doc cycle doy4 year.
  assert (days_of_civil (era * 400 + yoe + (if (if mp <? 10 then mp + 3 else mp - 9) <=? 2 then 1 else 0))
    (if mp <? 10 then mp + 3 else mp - 9) d = days) as Hback.
  { unfold days_of_civil. destruct (Z.ltb_spec mp 10).
    - destruct (Z.leb_spec (mp + 3) 2); [lia|]. destruct (Z.ltb_spec 2 (mp + 3)); [|lia].
      replace ((era * 400 + yoe + 0) / 400) with era by lia. replace ((era * 400 + yoe + 0) mod 400) with yoe by lia.
      unfold d. replace (mp + 3 - 3) with mp by lia. lia.
    - destruct (Z.leb_spec (mp - 9) 2); [|lia]. destruct (Z.ltb_spec 2 (mp - 9)); [lia|].
      replace ((era * 400 + yoe + 1 - 1) / 400) with era by lia. replace ((era * 400 + yoe + 1 - 1) mod 400) with yoe by lia.
      unfold d. replace (mp - 9 + 9) with mp by lia. lia. }
  split_and!; [destruct (Z.ltb_spec mp 10); lia|destruct (Z.ltb_spec mp 10); lia|lia| |lia|done].
  unfold daysIn. destruct (Z.ltb_spec mp 10).
  - destruct (Z.eqb_spec (mp + 3) 2); [lia|].
    destruct (Z.eqb_spec (mp + 3) 4), (Z.eqb_spec (mp + 3) 6), (Z.eqb_spec (mp + 3) 9), (Z.eqb_spec (mp + 3) 11); simpl; lia.
  - destruct (Z.eqb_spec (mp - 9) 2).
    + destruct (Z.leb_spec (mp - 9) 2); [|lia]. rewrite <- (Z.add_assoc), leap_400.
      destruct (leap (yoe + 1)) eqn:E; [lia|]. destruct (decide (d = 29)) as [E29|]; [|lia].
      destruct (Hleap ltac:(lia)) as [H4 H100]. exfalso. unfold leap in E.
      apply andb_false_iff in E as [E|E]; bool_prop; lia.
    + destruct (Z.eqb_spec (mp - 9) 4), (Z.eqb_spec (mp - 9) 6), (Z.eqb_spec (mp - 9) 9), (Z.eqb_spec (mp - 9) 11); simpl; lia.
Qed.

Lemma time_of_day time :
  0 ≤ time < day_ns →
  let sec := time / second in
  0 ≤ sec / 3600 ≤ 23 ∧ 0 ≤ sec mod 3600 / 60 ≤ 59 ∧ 0 ≤ sec mod 60 ≤ 59 ∧ 0 ≤ time mod second < second ∧
  (sec / 3600 * 3600 + sec mod 3600 / 60 * 60 + sec mod 60) * second + time mod second = time.
Proof.
  intros Ht sec. unfold day_ns, second in *. assert (0 ≤ sec < 86400) as Hs by (unfold sec; lia).
  pose proof (Z.div_mod time 1000000000 ltac:(lia)) as Hdm. fold sec in Hdm.
  pose proof (Z.mod_pos_bound time 1000000000 ltac:(lia)).
  assert (sec / 3600 * 3600 + sec mod 3600 / 60 * 60 + sec mod 60 = sec) as -> by lia. lia.
Qed.

Lemma bind_digits {A} k n t (f : Z * bytes → option A) :
  0 ≤ n < 10 ^ Z.of_nat k → parse_digits k (digits k n ++ t) ≫= f = f (n, t).
Proof. intros Hn. by rewrite parse_digits_format. Qed.

Lemma bind_expect {A} b t (f : bytes → option A) : expect b ([b] ++ t) ≫= f = f t.
Proof. simpl. by rewrite bool_decide_true. Qed.

Lemma parse_tail {A} frac zone (f : Z * bytes → option A) :
  0 ≤ frac < second →
  parse_fraction
    ((if trim_zeros (digits 9 frac) ==? [] then [] else x2e :: trim_zeros (digits 9 frac))
     ++ (if zone =? 0 then [x5a]
         else (if zone <? 0 then x2d else x2b) :: digits 2 (Z.abs zone / 60) ++ [x3a] ++ digits 2 (Z.abs zone mod 60)))
    ≫= f
  = f (frac, if zone =? 0 then [x5a]
         else (if zone <? 0 then x2d else x2b) :: digits 2 (Z.abs zone / 60) ++ [x3a] ++ digits 2 (Z.abs zone mod 60)).
Proof.
  intros Hf. rewrite parse_fraction_format; [done|done|].
  destruct (zone =? 0); [by eexists _, _|]. by destruct (zone <? 0); eexists _, _.
Qed.

Lemma pow10_2 : 10 ^ Z.of_nat 2 = 100. Proof. done. Qed.
Lemma pow10_4 : 10 ^ Z.of_nat 4 = 10000. Proof. done. Qed.

Lemma Time_Parse_Format t : Time_marshals t = true → Time_Parse (Time_Format t) = Some t.
Proof.
  unfold Time_marshals, Time_year. intros Hm. bool_prop.
  pose proof (civil_of_days_ok (local_ns t / day_ns)) as Hc. unfold Time_Format.
  destruct (civil_of_days (local_ns t / day_ns)) as [[y m] d]. cbn [fst snd] in *.
  destruct Hc as (C1 & C2 & C3 & C4).
  destruct (time_of_day (local_ns t mod day_ns)) as (T1 & T2 & T3 & T4 & T5); [by apply Z.mod_pos_bound|].
  set (sec := local_ns t mod day_ns / second) in *. set (frac := local_ns t mod day_ns mod second) in *.
  unfold Time_Parse.
  repeat (rewrite bind_digits by (rewrite ?pow10_2, ?pow10_4; lia); cbv beta iota; try (rewrite bind_expect; cbv beta)).
  rewrite parse_tail by done. cbv beta iota. rewrite parse_zone_format by lia. cbn [mbind option_bind].
  repeat match goal with |- context [(?a <=? ?b)] => destruct (Z.leb_spec a b); [|lia] end. cbn [andb].
  f_equal. destruct t as [ns zone]. f_equal. rewrite C4. unfold local_ns in *. cbn [tm_ns tm_zone] in *.
  pose proof (Z.div_mod (ns + zone * 60 * second) day_ns ltac:(done)). unfold day_ns in *. lia.
Qed.

Definition ascii_text (s : bytes) : Prop := Forall (λ b, (byte_val b < 128)%N) s.

Lemma digits_ascii k n : 0 ≤ n < 10 ^ Z.of_nat k → ascii_text (digits k n).
Proof.
  revert n. induction k as [|k IH]; intros n Hn; simpl; constructor.
  - pose proof (leading_digit k n Hn). unfold digit. rewrite byte_val_of, N.mod_small by lia. lia.
  - pose proof (pow10_pos k). apply IH, Z.mod_pos_bound. lia.
Qed.

Lemma trim_zeros_ascii s : ascii_text s → ascii_text (trim_zeros s).
Proof.
  unfold ascii_text. induction 1 as [|b s Hb Hs IH]; simpl; [done|].
  destruct (trim_zeros s) as [|c r]; [|by constructor]. destruct (bool_decide _); [done|by repeat constructor].
Qed.

Lemma Time_Format_utf8 t : Time_marshals t = true → utf8_ok (Time_Format t).
Proof.
  intros Hm. apply valid_utf8_ascii. change (ascii_text (Time_Format t)). revert Hm.
  unfold Time_marshals, Time_year. intros Hm. bool_prop.
  pose proof (civil_of_days_ok (local_ns t / day_ns)) as Hc. unfold Time_Format.
  destruct (civil_of_days (local_ns t / day_ns)) as [[y m] d]. cbn [fst snd] in *.
  destruct Hc as (C1 & C2 & C3 & C4).
  destruct (time_of_day (local_ns t mod day_ns)) as (T1 & T2 & T3 & T4 & T5); [by apply Z.mod_pos_bound|].
  assert (0 ≤ Z.abs (tm_zone t) / 60 ≤ 23 ∧ 0 ≤ Z.abs (tm_zone t) mod 60 ≤ 59) as [Z1 Z2] by lia.
  assert (ascii_text (trim_zeros (digits 9 (local_ns t mod day_ns mod second)))) as Hfrac
    by (apply trim_zeros_ascii, digits_ascii; exact T4).
  set (frac := trim_zeros _) in *. set (sec := local_ns t mod day_ns / second) in *.
  unfold ascii_text in *.
  assert (∀ b, (byte_val b < 128)%N → ascii_text [b]) as H1b by (intros b Hb; by constructor).
  repeat (apply Forall_app; split);
    try (apply digits_ascii; rewrite ?pow10_2, ?pow10_4; lia); try (by apply H1b).
  - destruct (bool_decide (frac = [])); [constructor|]. apply Forall_cons. split; [done|exact Hfrac].
  - destruct (tm_zone t =? 0); [by apply H1b|]. apply Forall_cons. split; [by destruct (tm_zone t <? 0)|].
    repeat (apply Forall_app; split); try (by apply H1b); apply digits_ascii; rewrite ?pow10_2; lia.
Qed.

Lemma enc_time_wf t : Time_marshals t = true → json_wf (enc_time t).
Proof. apply Time_Format_utf8. Qed.

Lemma dec_time_ok t : Time_marshals t = true → dec_time (enc_time t) = Some t.
Proof. apply Time_Parse_Format. Qed.

Arguments enc_time : simpl never.
Arguments dec_time : simpl never.
Arguments Time_Format : simpl never.
