(* ===== verification/LockedTransport.v ===== *)
(** * The transport of the share reader ([internal/tlsroots/pem.go], the HTTP
    client of [presignedshare/reader.go])

    [ParsePEMCertificates] reads the trust roots; [lockedHTTPClient] derives
    from the client an application supplies one that cannot be routed, extended
    or weakened.  Function and interface fields of the configuration are
    present or absent ([hook]).  [pem.Decode], [x509.ParseCertificate] and
    [Transport.Clone] are parameters. *)

From S2P Require Import Prelude.
From S2P Require Import GoStd.
From S2P Require Import Rfc3339.

(** ** Trust roots *)

(** [pem_Decode]: the type, the number of headers, the bytes of the first block
    and the rest. *)
Class TLSLibrary := {
  Certificate : Type;
  pem_Decode : bytes → option (bytes * Z * bytes * bytes);
  x509_ParseCertificate : bytes → option Certificate;
}.

Inductive pemError :=
| ErrInvalidLimits | ErrPEMTooLarge | ErrMalformedPEM | ErrTooManyCertificates | ErrInvalidCertificate
| ErrNoCertificates.

Definition certificateBeginMarker : bytes := str "-----BEGIN CERTIFICATE-----".
Definition certificateEndMarker : bytes := str "-----END CERTIFICATE-----".

(** [bytes.Index]; [None] is -1. *)
Fixpoint bytes_Index (s sub : bytes) : option nat :=
  if HasPrefix s sub then Some O
  else match s with [] => None | _ :: s => Datatypes.S <$> bytes_Index s sub end.

Definition asciiWhitespace (c : byte) : bool := bool_decide (c ∈ [x20; x09; x0d; x0a]).
Fixpoint trimLeftASCIIWhitespace (value : bytes) : bytes :=
  match value with
  | c :: rest => if asciiWhitespace c then trimLeftASCIIWhitespace rest else value
  | [] => []
  end.

(** The number of bytes through the line ending. *)
Fixpoint consumeCertificateEndLine (value : bytes) : option nat :=
  match value with
  | [] => Some O
  | c :: rest =>
      if bool_decide (c ∈ [x20; x09]) then Datatypes.S <$> consumeCertificateEndLine rest
      else if c ==? x0a then Some 1%nat
      else if c ==? x0d then match rest with d :: _ => if d ==? x0a then Some 2%nat else None | [] => None end
      else None
  end.

Section Roots.
Context `{TLSLibrary}.

(** The block at the front of the input: its length and its bytes. *)
Definition certificateBlock (remaining : bytes) : option (nat * bytes) :=
  if negb (HasPrefix remaining certificateBeginMarker) then None
  else
    match bytes_Index remaining certificateEndMarker with
    | None => None
    | Some endOffset =>
        let beginLength := length certificateBeginMarker in
        if (endOffset <? beginLength)%nat
           || Contains (drop beginLength (take endOffset remaining)) (str "-----BEGIN ") then None
        else
          let candidateEnd := (endOffset + length certificateEndMarker)%nat in
          match pem_Decode (take candidateEnd remaining) with
          | None => None
          | Some (type, headers, contents, rest) =>
              if negb (len rest =? 0) || (type !=? str "CERTIFICATE") || negb (headers =? 0) then None
              else Some (candidateEnd, contents)
          end
    end.

(** The loop; every round consumes at least the begin marker. *)
Fixpoint parseCertificates (fuel : nat) (maximumCertificates : Z) (remaining : bytes)
    (certificates : list Certificate) : option (sum pemError (list Certificate)) :=
  match fuel with
  | O => None
  | Datatypes.S fuel =>
      let remaining := trimLeftASCIIWhitespace remaining in
      if len remaining =? 0 then
        Some (if len certificates =? 0 then inl ErrNoCertificates else inr certificates)
      else
        match certificateBlock remaining with
        | None => Some (inl ErrMalformedPEM)
        | Some (candidateEnd, contents) =>
            if len certificates =? maximumCertificates then Some (inl ErrTooManyCertificates)
            else
              match x509_ParseCertificate contents with
              | None => Some (inl ErrInvalidCertificate)
              | Some certificate =>
                  match consumeCertificateEndLine (drop candidateEnd remaining) with
                  | None => Some (inl ErrMalformedPEM)
                  | Some consumed =>
                      parseCertificates fuel maximumCertificates (drop (candidateEnd + consumed) remaining)
                        (certificates ++ [certificate])
                  end
              end
        end
  end.

Definition ParsePEMCertificates (encoded : bytes) (maximumBytes maximumCertificates : Z)
    : option (sum pemError (list Certificate)) :=
  if (maximumBytes <? 0) || (maximumCertificates <? 1) then Some (inl ErrInvalidLimits)
  else if len encoded =? 0 then Some (inr [])
  else if maximumBytes <? len encoded then Some (inl ErrPEMTooLarge)
  else parseCertificates (Datatypes.S (length encoded)) maximumCertificates encoded [].

(** ** Configurations *)

(** A function or interface value: nil, the package's own, another one. *)
Inductive hook := NoHook | LockedHook | CustomHook.
#[export] Instance hook_eq_dec : EqDecision hook.
Proof. solve_decision. Defined.

(** tls.Config; slices of which only the length is used are counts. *)
Record TLSConfig := {
  tc_InsecureSkipVerify : bool; tc_ServerName : bytes; tc_Rand : hook; tc_Time : hook;
  tc_Certificates : Z; tc_GetCertificate : hook; tc_GetClientCertificate : hook;
  tc_GetConfigForClient : hook; tc_VerifyPeerCertificate : hook; tc_VerifyConnection : hook;
  tc_NextProtos : list bytes; tc_ClientAuth : Z; tc_ClientCAs : option (list Certificate);
  tc_RootCAs : option (list Certificate); tc_ClientSessionCache : hook; tc_UnwrapSession : hook;
  tc_WrapSession : hook; tc_Renegotiation : Z; tc_KeyLogWriter : hook; tc_CipherSuites : Z;
  tc_CurvePreferences : Z; tc_EncryptedClientHelloConfigList : Z;
  tc_EncryptedClientHelloRejectionVerify : hook; tc_GetEncryptedClientHelloKeys : hook;
  tc_EncryptedClientHelloKeys : Z; tc_NameToCertificate : hook; tc_PreferServerCipherSuites : bool;
  tc_SessionTicketKey : bytes; tc_MinVersion : N; tc_MaxVersion : N;
  tc_SessionTicketsDisabled : bool; tc_DynamicRecordSizingDisabled : bool;
}.

Record Transport := {
  tr_Proxy : hook; tr_OnProxyConnectResponse : hook; tr_DialContext : hook; tr_Dial : hook;
  tr_DialTLSContext : hook; tr_DialTLS : hook; tr_TLSClientConfig : option TLSConfig;
  tr_TLSHandshakeTimeout : Z; tr_DisableKeepAlives : bool; tr_DisableCompression : bool;
  tr_MaxIdleConns : Z; tr_MaxIdleConnsPerHost : Z; tr_MaxConnsPerHost : Z; tr_IdleConnTimeout : Z;
  tr_ResponseHeaderTimeout : Z; tr_ExpectContinueTimeout : Z; tr_TLSNextProto : hook;
  tr_ProxyConnectHeader : hook; tr_GetProxyConnectHeader : hook; tr_MaxResponseHeaderBytes : Z;
  tr_ForceAttemptHTTP2 : bool; tr_Protocols : hook;
}.

(** The RoundTripper of a client: nil, a *http.Transport (which can be nil), or
    another implementation. *)
Inductive RoundTripper := RT_Nil | RT_Transport (transport : option Transport) | RT_Other.
Record HttpClient := {
  hc_Transport : RoundTripper;
  hc_CheckRedirect : hook;
  hc_Jar : hook;
  hc_Timeout : Z;
}.
End Roots.

(** [Transport.Clone]. *)
Class TransportLibrary `{TLSLibrary} := { Transport_Clone : Transport → Transport }.

(** ** Locking *)

Definition MaximumOperationTimeout : Z := 30 * 60 * second.
Definition MaximumResponseHeaderBytes : Z := Z.shiftl 64 10.
Definition MaximumTLSRootCAPEMBytes : Z := Z.shiftl 4 20.
Definition MaximumTLSRootCertificates : Z := 1024.
Definition DefaultMaxConnectionsPerHost : Z := 64.
Definition VersionTLS12 : N := 771.
Definition VersionTLS13 : N := 772.

Definition isSet (h : hook) : bool := h !=? NoHook.

Section Locking.
Context `{TransportLibrary}.

Definition standardLibraryALPN (nextProtos : list bytes) : bool :=
  (nextProtos ==? []) || (nextProtos ==? [str "h2"; str "http/1.1"]).

Definition legacyTransportDialersConfigured (source : Transport) : bool :=
  isSet (tr_Dial source) || isSet (tr_DialTLS source).
Definition legacyTLSClientSettingsConfigured (source : TLSConfig) : bool :=
  isSet (tc_NameToCertificate source) || tc_PreferServerCipherSuites source
  || (tc_SessionTicketKey source !=? replicate 32 x00).

(** [None] does not occur ([parseCertificates_ends]). *)
Definition parseLockedTLSRootCAPEM (encoded : bytes) : result (option (list Certificate)) :=
  match ParsePEMCertificates encoded MaximumTLSRootCAPEMBytes MaximumTLSRootCertificates with
  | Some (inr []) => Ok None
  | Some (inr certificates) => Ok (Some certificates)
  | Some (inl _) | None => Err errorText
  end.

(** The settings of a tls.Config that are refused. *)
Definition customTLS (source : TLSConfig) : bool :=
  tc_InsecureSkipVerify source || (tc_ServerName source !=? [])
  || isSet (tc_Rand source) || isSet (tc_Time source)
  || negb (tc_Certificates source =? 0)
  || isSet (tc_GetCertificate source) || isSet (tc_GetClientCertificate source)
  || isSet (tc_GetConfigForClient source)
  || isSet (tc_VerifyPeerCertificate source) || isSet (tc_VerifyConnection source)
  || negb (standardLibraryALPN (tc_NextProtos source)) || negb (tc_ClientAuth source =? 0)
  || (if tc_ClientCAs source is Some _ then true else false)
  || (if tc_RootCAs source is Some _ then true else false)
  || isSet (tc_ClientSessionCache source) || isSet (tc_UnwrapSession source)
  || isSet (tc_WrapSession source)
  || negb (tc_Renegotiation source =? 0) || isSet (tc_KeyLogWriter source)
  || negb (tc_CipherSuites source =? 0) || negb (tc_CurvePreferences source =? 0)
  || negb (tc_EncryptedClientHelloConfigList source =? 0)
  || isSet (tc_EncryptedClientHelloRejectionVerify source)
  || isSet (tc_GetEncryptedClientHelloKeys source) || negb (tc_EncryptedClientHelloKeys source =? 0)
  || legacyTLSClientSettingsConfigured source.

(** tls.Config with the fields that the locked one sets. *)
Definition lockedTLS (minVersion maxVersion : N) (roots : option (list Certificate))
    (ticketsDisabled recordSizingDisabled : bool) : TLSConfig :=
  {| tc_InsecureSkipVerify := false; tc_ServerName := []; tc_Rand := NoHook; tc_Time := NoHook;
     tc_Certificates := 0; tc_GetCertificate := NoHook; tc_GetClientCertificate := NoHook;
     tc_GetConfigForClient := NoHook; tc_VerifyPeerCertificate := NoHook; tc_VerifyConnection := NoHook;
     tc_NextProtos := []; tc_ClientAuth := 0; tc_ClientCAs := None; tc_RootCAs := roots;
     tc_ClientSessionCache := NoHook; tc_UnwrapSession := NoHook; tc_WrapSession := NoHook;
     tc_Renegotiation := 0; tc_KeyLogWriter := NoHook; tc_CipherSuites := 0; tc_CurvePreferences := 0;
     tc_EncryptedClientHelloConfigList := 0; tc_EncryptedClientHelloRejectionVerify := NoHook;
     tc_GetEncryptedClientHelloKeys := NoHook; tc_EncryptedClientHelloKeys := 0;
     tc_NameToCertificate := NoHook; tc_PreferServerCipherSuites := false;
     tc_SessionTicketKey := replicate 32 x00; tc_MinVersion := minVersion; tc_MaxVersion := maxVersion;
     tc_SessionTicketsDisabled := ticketsDisabled; tc_DynamicRecordSizingDisabled := recordSizingDisabled |}.

Definition lockedTLSClientConfig (source : option TLSConfig) (tlsRootCAPEM : bytes) : result TLSConfig :=
  match source with
  | None => roots <-? parseLockedTLSRootCAPEM tlsRootCAPEM ;; Ok (lockedTLS VersionTLS12 0 roots false false)
  | Some source =>
      guard_err (customTLS source) errorText ?;;
      minVersion <-?
        (if tc_MinVersion source ==? 0%N then Ok VersionTLS12
         else guard_err ((tc_MinVersion source <? VersionTLS12)%N || (VersionTLS13 <? tc_MinVersion source)%N)
                        errorText ?;; Ok (tc_MinVersion source)) ;;
      maxVersion <-?
        (if tc_MaxVersion source ==? 0%N then Ok 0%N
         else guard_err ((tc_MaxVersion source <? minVersion)%N || (VersionTLS13 <? tc_MaxVersion source)%N)
                        errorText ?;; Ok (tc_MaxVersion source)) ;;
      roots <-? parseLockedTLSRootCAPEM tlsRootCAPEM ;;
      Ok (lockedTLS minVersion maxVersion roots (tc_SessionTicketsDisabled source)
            (tc_DynamicRecordSizingDisabled source))
  end.

(** The routing and protocol extensions that are refused. *)
Definition routedTransport (source : Transport) : bool :=
  isSet (tr_Proxy source) || isSet (tr_OnProxyConnectResponse source)
  || isSet (tr_DialContext source) || isSet (tr_DialTLSContext source)
  || legacyTransportDialersConfigured source
  || isSet (tr_TLSNextProto source) || isSet (tr_ProxyConnectHeader source)
  || isSet (tr_GetProxyConnectHeader source) || isSet (tr_Protocols source).

Definition boundedTransport (source : Transport) : bool :=
  forallb (λ duration, negb ((duration <? 0) || (MaximumOperationTimeout <? duration)))
    [tr_TLSHandshakeTimeout source; tr_IdleConnTimeout source; tr_ResponseHeaderTimeout source;
     tr_ExpectContinueTimeout source]
  && forallb (λ count, negb ((count <? 0) || (1024 <? count)))
       [tr_MaxIdleConns source; tr_MaxIdleConnsPerHost source; tr_MaxConnsPerHost source]
  && negb (tr_MaxResponseHeaderBytes source <? 0).

(** A value of the source, or the default for zero. *)
Definition orDefault (value default : Z) : Z := if 0 <? value then value else default.

Definition directTransport (keepAlivesDisabled : bool) (handshake idleConns idlePerHost perHost idle header
    expect headerBytes : Z) (tlsConfig : TLSConfig) : Transport :=
  {| tr_Proxy := NoHook; tr_OnProxyConnectResponse := NoHook; tr_DialContext := LockedHook;
     tr_Dial := NoHook; tr_DialTLSContext := NoHook; tr_DialTLS := NoHook;
     tr_TLSClientConfig := Some tlsConfig; tr_TLSHandshakeTimeout := handshake;
     tr_DisableKeepAlives := keepAlivesDisabled; tr_DisableCompression := true;
     tr_MaxIdleConns := idleConns; tr_MaxIdleConnsPerHost := idlePerHost; tr_MaxConnsPerHost := perHost;
     tr_IdleConnTimeout := idle; tr_ResponseHeaderTimeout := header; tr_ExpectContinueTimeout := expect;
     tr_TLSNextProto := NoHook; tr_ProxyConnectHeader := NoHook; tr_GetProxyConnectHeader := NoHook;
     tr_MaxResponseHeaderBytes := headerBytes; tr_ForceAttemptHTTP2 := true; tr_Protocols := NoHook |}.

Definition lockedDirectTransport (source : option Transport) (tlsRootCAPEM : bytes) : result Transport :=
  match source with
  | None =>
      tlsConfig <-? lockedTLSClientConfig None tlsRootCAPEM ;;
      Ok (directTransport false (10 * second) 100 2 DefaultMaxConnectionsPerHost (90 * second) 0 second
            MaximumResponseHeaderBytes tlsConfig)
  | Some source =>
      guard_err (routedTransport source) errorText ?;;
      guard_err (negb (boundedTransport source)) errorText ?;;
      tlsConfig <-? lockedTLSClientConfig (tr_TLSClientConfig source) tlsRootCAPEM ;;
      Ok (directTransport (tr_DisableKeepAlives source)
            (orDefault (tr_TLSHandshakeTimeout source) (10 * second))
            (orDefault (tr_MaxIdleConns source) 100) (orDefault (tr_MaxIdleConnsPerHost source) 2)
            (orDefault (tr_MaxConnsPerHost source) DefaultMaxConnectionsPerHost)
            (orDefault (tr_IdleConnTimeout source) (90 * second)) (tr_ResponseHeaderTimeout source)
            (orDefault (tr_ExpectContinueTimeout source) second)
            (if (0 <? tr_MaxResponseHeaderBytes source)
                && (tr_MaxResponseHeaderBytes source <? MaximumResponseHeaderBytes)
             then tr_MaxResponseHeaderBytes source else MaximumResponseHeaderBytes) tlsConfig)
  end.

Definition lockedHTTPClient (configured : option HttpClient) (tlsRootCAPEM : bytes) : result HttpClient :=
  ' (timeout, source) <-?
    match configured with
    | None => Ok (0, None)
    | Some configured =>
        guard_err ((hc_Timeout configured <? 0) || (MaximumOperationTimeout <? hc_Timeout configured))
                  errorText ?;;
        match hc_Transport configured with
        | RT_Nil => Ok (hc_Timeout configured, None)
        | RT_Transport (Some source) => Ok (hc_Timeout configured, Some (Transport_Clone source))
        | RT_Transport None | RT_Other => Err errorText
        end
    end ;;
  direct <-? lockedDirectTransport source tlsRootCAPEM ;;
  Ok {| hc_Transport := RT_Transport (Some direct); hc_CheckRedirect := LockedHook; hc_Jar := NoHook;
        hc_Timeout := timeout |}.
End Locking.

(** ** What the parser accepts

    A file of trust roots is a sequence of certificate blocks, each on lines of
    its own, between ASCII whitespace. *)

(** Blanks after a block, and its line ending unless the input ends there. *)
Definition end_line (eol rest : bytes) : Prop :=
  ∃ pad, Forall (λ c, c ∈ [x20; x09]) pad ∧
    (eol = pad ++ [x0a] ∨ eol = pad ++ [x0d; x0a] ∨ (eol = pad ∧ rest = [])).

Lemma HasPrefix_spec s p : HasPrefix s p = true ↔ ∃ rest, s = p ++ rest.
Proof.
  revert s. induction p as [|c p IH]; intros s; simpl; [by split; [exists s|]; destruct s|].
  destruct s as [|d s]; [by split; [|intros [? ?]]|]. split.
  - intros E. bool_prop. apply IH in H0 as [rest ->]. exists rest. by subst.
  - intros [rest [= -> ->]]. rewrite bool_decide_true by done. simpl. apply IH. by exists rest.
Qed.

Lemma trimLeft_spec value :
  ∃ ws, value = ws ++ trimLeftASCIIWhitespace value ∧ Forall (λ c, asciiWhitespace c = true) ws.
Proof.
  induction value as [|c value (ws & E & Hw)]; [by exists []|]. simpl.
  destruct (asciiWhitespace c) eqn:Ec; [|by exists []]. exists (c :: ws). split; [by rewrite E at 1|by constructor].
Qed.
Lemma trimLeft_app ws rest :
  Forall (λ c, asciiWhitespace c = true) ws →
  trimLeftASCIIWhitespace (ws ++ rest) = trimLeftASCIIWhitespace rest.
Proof. induction 1 as [|c ws Hc _ IH]; [done|]. simpl. by rewrite Hc. Qed.

Lemma endLine_sound value n :
  consumeCertificateEndLine value = Some n → (n ≤ length value)%nat ∧ end_line (take n value) (drop n value).
Proof.
  revert n. induction value as [|c value IH]; intros n; simpl.
  { intros [= <-]. split; [done|]. exists []. split; [constructor|]. by right; right. }
  case_bool_decide as Hc.
  { destruct (consumeCertificateEndLine value) as [m|]; [|done]. intros [= <-].
    destruct (IH m eq_refl) as (Hl & pad & Hp & Hcase). simpl. split; [lia|].
    exists (c :: pad). split; [by constructor|].
    destruct Hcase as [E|[E|[E E']]]; [left|right; left|right; right]; simpl; rewrite E; done. }
  case_bool_decide as H1.
  { intros [= <-]. simpl. split; [lia|]. exists []. split; [constructor|]. left. subst. by rewrite take_0. }
  case_bool_decide as H2; [|done]. destruct value as [|d value]; [done|]. case_bool_decide as H3; [|done].
  intros [= <-]. simpl. split; [lia|]. exists []. split; [constructor|]. right. left. subst. by rewrite take_0.
Qed.
Lemma endLine_complete eol rest :
  end_line eol rest → consumeCertificateEndLine (eol ++ rest) = Some (length eol).
Proof.
  intros (pad & Hp & Hcase). assert (∀ tail n, consumeCertificateEndLine tail = Some n →
    consumeCertificateEndLine (pad ++ tail) = Some (length pad + n)%nat) as Hpad.
  { clear Hcase. intros tail n Ht. induction Hp as [|c pad Hc _ IH]; simpl; [done|].
    by rewrite bool_decide_true, IH. }
  destruct Hcase as [->|[->|[-> ->]]].
  - rewrite <- (assoc_L (++)), (Hpad _ 1%nat) by done. by rewrite length_app.
  - rewrite <- (assoc_L (++)), (Hpad _ 2%nat) by done. by rewrite length_app.
  - rewrite (Hpad _ 0%nat) by done. f_equal. lia.
Qed.

Lemma Index_app_le a sub : ∃ n, bytes_Index (a ++ sub) sub = Some n ∧ (n ≤ length a)%nat.
Proof.
  induction a as [|c a (n & E & Hn)]; simpl.
  - exists 0%nat. split; [|lia]. destruct sub as [|d sub]; [done|].
    cbn [bytes_Index]. rewrite (proj2 (HasPrefix_spec (d :: sub) (d :: sub))); [done|]. exists []. by rewrite app_nil_r.
  - destruct (HasPrefix (c :: a ++ sub) sub); [by exists 0%nat; split; [|lia]|].
    rewrite E. exists (S n). split; [done|lia].
Qed.

Lemma Index_sound s sub n :
  bytes_Index s sub = Some n → ∃ rest, s = take n s ++ sub ++ rest ∧ (n + length sub ≤ length s)%nat.
Proof.
  revert n. induction s as [|c s IH]; intros n; simpl.
  - destruct (HasPrefix [] sub) eqn:E; [|done]. apply HasPrefix_spec in E as [rest E]. intros [= <-].
    exists rest. split; [done|]. apply (f_equal length) in E. rewrite length_app in E. simpl in *. lia.
  - destruct (HasPrefix (c :: s) sub) eqn:E.
    + apply HasPrefix_spec in E as [rest E]. intros [= <-]. exists rest. split; [done|].
      apply (f_equal length) in E. rewrite length_app in E. simpl in *. lia.
    + destruct (bytes_Index s sub) as [m|]; [|done]. intros [= <-]. destruct (IH m eq_refl) as (rest & Hs & Hl).
      exists rest. simpl. split; [by rewrite <- Hs|lia].
Qed.

Lemma HasPrefix_app_long s rest p :
  (length p ≤ length s)%nat → HasPrefix (s ++ rest) p = HasPrefix s p.
Proof.
  revert s. induction p as [|c p IH]; intros [|d s] Hl; simpl in *; try done; try lia.
  rewrite IH by lia. done.
Qed.

(** The first occurrence of [sub] does not depend on what follows it. *)
Lemma Index_local a sub rest :
  bytes_Index (a ++ sub ++ rest) sub = Some (length a) ↔ bytes_Index (a ++ sub) sub = Some (length a).
Proof.
  induction a as [|c a IH]; simpl.
  - split; intros _.
    + destruct (Index_app_le [] sub) as (n & E & Hn). simpl in *. rewrite E. f_equal. lia.
    + destruct sub as [|d sub]; [by destruct rest|]. cbn [bytes_Index app].
      by rewrite (proj2 (HasPrefix_spec (d :: sub ++ rest) (d :: sub)) (ex_intro _ rest eq_refl)).
  - rewrite (assoc_L (++)) in *. rewrite app_comm_cons, HasPrefix_app_long by (simpl; rewrite length_app; lia).
    destruct (HasPrefix (c :: a ++ sub) sub); [done|].
    destruct (bytes_Index ((a ++ sub) ++ rest) sub), (bytes_Index (a ++ sub) sub); simpl; naive_solver.
Qed.

Section Grammar.
Context `{TLSLibrary}.

(** A certificate block with its contents: the first end marker closes it, no
    other block begins in it, and it decodes without headers. *)
Definition pem_block (block contents : bytes) : Prop :=
  ∃ body, block = certificateBeginMarker ++ body ++ certificateEndMarker ∧
    bytes_Index block certificateEndMarker = Some (length (certificateBeginMarker ++ body)) ∧
    Contains body (str "-----BEGIN ") = false ∧
    pem_Decode block = Some (str "CERTIFICATE", 0, contents, []).

Inductive pem_file : bytes → list bytes → Prop :=
| pem_end ws : Forall (λ c, asciiWhitespace c = true) ws → pem_file ws []
| pem_next ws block contents eol rest more :
    Forall (λ c, asciiWhitespace c = true) ws → pem_block block contents → end_line eol rest →
    pem_file rest more → pem_file (ws ++ block ++ eol ++ rest) (contents :: more).

Lemma certificateBlock_sound remaining n contents :
  certificateBlock remaining = Some (n, contents) →
  (n ≤ length remaining)%nat ∧ (0 < n)%nat ∧ pem_block (take n remaining) contents.
Proof.
  unfold certificateBlock. intros E. destruct (HasPrefix remaining _) eqn:Hp; [|done]. cbn [negb] in E.
  destruct (bytes_Index remaining certificateEndMarker) as [off|] eqn:Hi; [|done].
  destruct (_ || _) eqn:Hc; [done|]. destruct (pem_Decode _) as [[[[type headers] data] rest']|] eqn:Hd; [|done].
  destruct (negb _ || _ || _) eqn:Hg; [done|]. injection E as <- <-. bool_prop. subst.
  change 25%nat with (length certificateEndMarker) in *. change 27%nat with (length certificateBeginMarker) in *.
  apply HasPrefix_spec in Hp as [tail ->]. pose proof (Index_sound _ _ _ Hi) as (rest & Hs & Hl).
  split; [exact Hl|]. split; [change (length certificateEndMarker) with 25%nat; lia|].
  assert (length certificateBeginMarker ≤ off)%nat as Hoff by (apply Nat.ltb_ge; done).
  set (s := certificateBeginMarker ++ tail) in *.
  assert (take (off + length certificateEndMarker) s = take off s ++ certificateEndMarker) as Et.
  { rewrite Hs at 1. rewrite (assoc_L (++)). apply take_app_length'. rewrite length_app, length_take. lia. }
  assert (take off s = certificateBeginMarker ++ take (off - length certificateBeginMarker) tail) as Eb.
  { unfold s. rewrite take_app, (take_ge certificateBeginMarker) by lia. done. }
  exists (take (off - length certificateBeginMarker) tail). split_and!.
  - by rewrite Et, Eb, (assoc_L (++)).
  - rewrite Et, <- Eb. apply (Index_local _ _ rest). rewrite <- Hs, Hi. f_equal. rewrite length_take. lia.
  - replace (drop (length certificateBeginMarker) (take off s)) with (take (off - length certificateBeginMarker) tail) in *; [done|].
    rewrite Eb. by rewrite drop_app_length.
  - assert (rest' = []) as -> by (apply len_nil_iff; lia). exact Hd.
Qed.

Lemma certificateBlock_complete block contents rest :
  pem_block block contents → certificateBlock (block ++ rest) = Some (length block, contents).
Proof.
  intros (body & -> & Hi & Hc & Hd). rewrite (assoc_L (++)) in *. set (a := certificateBeginMarker ++ body) in *.
  unfold certificateBlock.
  assert (HasPrefix ((a ++ certificateEndMarker) ++ rest) certificateBeginMarker = true) as ->.
  { apply HasPrefix_spec. exists (body ++ certificateEndMarker ++ rest). unfold a. by rewrite <- !(assoc_L (++)). }
  assert (bytes_Index ((a ++ certificateEndMarker) ++ rest) certificateEndMarker = Some (length a)) as ->
    by (rewrite <- (assoc_L (++)); by apply Index_local).
  assert (take (length a) ((a ++ certificateEndMarker) ++ rest) = a) as ->
    by (by rewrite <- (assoc_L (++)), take_app_length).
  assert (drop (length certificateBeginMarker) a = body) as -> by apply drop_app_length.
  assert ((length a <? length certificateBeginMarker)%nat = false) as ->
    by (apply Nat.ltb_ge; unfold a; rewrite length_app; lia).
  rewrite Hc, take_app_length', Hd, bool_decide_true by (rewrite ?length_app; done).
  cbn [negb orb]. change (len (@nil byte) =? 0) with true. change (0 =? 0) with true. cbn [negb orb].
  by rewrite length_app.
Qed.

(** The loop reads a file; it always ends. *)
Lemma parseCertificates_sound fuel maximum remaining before r :
  parseCertificates fuel maximum remaining before = Some (inr r) → (len before ≤ maximum) →
  ∃ contents certificates, pem_file remaining contents ∧ r = before ++ certificates ∧ r ≠ [] ∧
    Forall2 (λ x c, x509_ParseCertificate x = Some c) contents certificates ∧ len r ≤ maximum.
Proof.
  revert remaining before. induction fuel as [|fuel IH]; intros remaining before E Hmax; [done|]. simpl in E.
  destruct (trimLeft_spec remaining) as (ws & Hr & Hws). set (t := trimLeftASCIIWhitespace remaining) in *.
  destruct (Z.eqb_spec (len t) 0) as [Hz|Hz].
  { apply len_nil_iff in Hz. rewrite Hz, app_nil_r in Hr. destruct (Z.eqb_spec (len before) 0); [done|].
    injection E as <-. exists [], []. rewrite app_nil_r. split_and!; try done; [by rewrite Hr; constructor|].
    intros ->. done. }
  destruct (certificateBlock t) as [[n contents]|] eqn:Hb; [|done]. destruct (Z.eqb_spec (len before) maximum); [done|].
  destruct (x509_ParseCertificate contents) as [c|] eqn:Hc; [|done].
  destruct (consumeCertificateEndLine (drop n t)) as [m|] eqn:He; [|done].
  apply certificateBlock_sound in Hb as (Hn & _ & Hb). apply endLine_sound in He as [Hm He].
  destruct (IH _ _ E) as (more & cs & Hf & -> & Hne & Hall & Hl).
  { rewrite len_app. change (len [c]) with 1. lia. }
  exists (contents :: more), (c :: cs). split_and!; [|by rewrite <- (assoc_L (++))|done|by constructor|done].
  rewrite drop_drop in He. rewrite Hr, <- (take_drop n t), <- (take_drop m (drop n t)), drop_drop.
  by apply pem_next with (rest := drop (n + m) t).
Qed.

Lemma parseCertificates_ends fuel maximum remaining before :
  (length remaining < fuel)%nat → parseCertificates fuel maximum remaining before ≠ None.
Proof.
  revert remaining before. induction fuel as [|fuel IH]; intros remaining before Hf; [lia|]. simpl.
  destruct (trimLeft_spec remaining) as (ws & Hr & _). set (t := trimLeftASCIIWhitespace remaining) in *.
  destruct (len t =? 0); [done|]. destruct (certificateBlock t) as [[n contents]|] eqn:Hb; [|done].
  destruct (len before =? maximum); [done|]. destruct (x509_ParseCertificate contents); [|done].
  destruct (consumeCertificateEndLine (drop n t)) as [m|]; [|done]. apply IH.
  apply certificateBlock_sound in Hb as (Hn & Hpos & _).
  rewrite length_drop. apply (f_equal length) in Hr. rewrite length_app in Hr. lia.
Qed.

Lemma pem_block_trim block contents rest :
  pem_block block contents → trimLeftASCIIWhitespace (block ++ rest) = block ++ rest ∧ (len (block ++ rest) =? 0) = false.
Proof. by intros (body & -> & _). Qed.

Lemma parseCertificates_complete maximum remaining contents :
  pem_file remaining contents → ∀ fuel before certificates,
  Forall2 (λ x c, x509_ParseCertificate x = Some c) contents certificates →
  len (before ++ certificates) ≤ maximum → before ++ certificates ≠ [] → (length remaining < fuel)%nat →
  parseCertificates fuel maximum remaining before = Some (inr (before ++ certificates)).
Proof.
  induction 1 as [ws Hws|ws block x eol rest more Hws Hb He Hf IH]; intros fuel before cs Hall Hmax Hne Hfuel;
    (destruct fuel as [|fuel]; [lia|]); simpl.
  - rewrite <- (app_nil_r ws), trimLeft_app by done. simpl. apply Forall2_nil_inv_l in Hall as ->.
    rewrite app_nil_r in *. destruct (Z.eqb_spec (len before) 0) as [Hz|]; [|done]. by apply len_nil_iff in Hz.
  - apply Forall2_cons_inv_l in Hall as (c & cs' & Hx & Hall & ->). rewrite trimLeft_app by done.
    destruct (pem_block_trim block x (eol ++ rest) Hb) as [-> ->].
    rewrite (certificateBlock_complete block x) by done. rewrite !len_app in Hmax. change (len (c :: cs')) with (len ([c] ++ cs')) in Hmax.
    rewrite len_app in Hmax. change (len [c]) with 1 in Hmax. pose proof (len_nonneg cs').
    destruct (Z.eqb_spec (len before) maximum); [lia|]. rewrite Hx, drop_app_length, endLine_complete by done.
    rewrite (assoc_L (++) block), drop_app_length' by (by rewrite length_app).
    replace (before ++ c :: cs') with ((before ++ [c]) ++ cs') by by rewrite <- (assoc_L (++)).
    apply IH; [done| |by destruct before|].
    + rewrite !len_app. change (len [c]) with 1. lia.
    + destruct Hb as (body & -> & _). rewrite !length_app in Hfuel. change (length certificateBeginMarker) with 27%nat in Hfuel. lia.
Qed.

(** C32: the trust roots are exactly the certificates of the file.  The parser
    always ends; it accepts the empty input, which means no roots, and otherwise
    exactly the inputs within both limits that are a sequence of certificate
    blocks, each closed by its own first end marker on the end of a line and
    separated by ASCII whitespace, and returns their certificates in order. *)
Theorem ParsePEMCertificates_exact (encoded : bytes) (maximumBytes maximumCertificates : Z)
    (certificates : list Certificate) :
  0 ≤ maximumBytes → 1 ≤ maximumCertificates →
  ParsePEMCertificates encoded maximumBytes maximumCertificates ≠ None ∧
  (ParsePEMCertificates encoded maximumBytes maximumCertificates = Some (inr certificates) ↔
   (encoded = [] ∧ certificates = []) ∨
   (encoded ≠ [] ∧ len encoded ≤ maximumBytes ∧ certificates ≠ [] ∧ len certificates ≤ maximumCertificates ∧
    ∃ contents, pem_file encoded contents ∧
      Forall2 (λ x c, x509_ParseCertificate x = Some c) contents certificates)).
Proof.
  intros Hb Hc. unfold ParsePEMCertificates.
  assert ((maximumBytes <? 0) || (maximumCertificates <? 1) = false) as ->
    by (apply orb_false_iff; split; apply Z.ltb_ge; lia).
  destruct (Z.eqb_spec (len encoded) 0) as [Hz|Hz].
  { apply len_nil_iff in Hz as ->. split; [done|]. split; [intros [= <-]; by left|]. by intros [[_ ->]|[? _]]. }
  assert (encoded ≠ []) as Hne by (intros ->; done).
  destruct (Z.ltb_spec maximumBytes (len encoded)).
  { split; [done|]. split; [done|]. intros [[? _]|(_ & ? & _)]; [done|lia]. }
  split; [apply parseCertificates_ends; lia|]. split.
  - intros E. right. apply parseCertificates_sound in E as (contents & cs & Hf & -> & Hr & Hall & Hl); [|rewrite len_nil; lia].
    split_and!; eauto.
  - intros [[? _]|(_ & _ & Hr & Hl & contents & Hf & Hall)]; [done|].
    by apply (parseCertificates_complete _ _ _ Hf _ []); [..|lia].
Qed.
End Grammar.

(** A library whose certificates are the text of their blocks. *)
Definition toy_tls : TLSLibrary := {|
  Certificate := bytes;
  pem_Decode block :=
    let body := TrimPrefix block certificateBeginMarker in
    Some (str "CERTIFICATE", 0, take (length body - length certificateEndMarker) body, []);
  x509_ParseCertificate contents := if contents ==? [] then None else Some contents;
|}.
Definition toy_pem : bytes := certificateBeginMarker ++ str "A" ++ certificateEndMarker ++ [x0a].

Example toy_pem_parses :
  ParsePEMCertificates (H:=toy_tls) (toy_pem ++ toy_pem) 1000 2 = Some (inr [str "A"; str "A"]) ∧
  ParsePEMCertificates (H:=toy_tls) (toy_pem ++ toy_pem) 1000 1 = Some (inl ErrTooManyCertificates) ∧
  ParsePEMCertificates (H:=toy_tls) (str "x" ++ toy_pem) 1000 2 = Some (inl ErrMalformedPEM).
Proof. vm_compute. split_and!; reflexivity. Qed.

Lemma ParsePEMCertificates_exact_witness :
  ParsePEMCertificates (H:=toy_tls) toy_pem 1000 1 ≠ None ∧
  (ParsePEMCertificates (H:=toy_tls) toy_pem 1000 1 = Some (inr [str "A"]) ↔
   (toy_pem = [] ∧ [str "A"] = []) ∨
   (toy_pem ≠ [] ∧ len toy_pem ≤ 1000 ∧ [str "A"] ≠ [] ∧ len [str "A"] ≤ 1 ∧
    ∃ contents, pem_file (H:=toy_tls) toy_pem contents ∧
      Forall2 (λ x c, x509_ParseCertificate (TLSLibrary:=toy_tls) x = Some c) contents [str "A"])).
Proof. by apply (@ParsePEMCertificates_exact toy_tls toy_pem 1000 1 [str "A"]). Defined.

Arguments customTLS : simpl never.
Arguments lockedTLS : simpl never.
Arguments parseLockedTLSRootCAPEM : simpl never.
Arguments MaximumOperationTimeout : simpl never.
Arguments MaximumResponseHeaderBytes : simpl never.
Arguments VersionTLS12 : simpl never.
Arguments VersionTLS13 : simpl never.

(** ** What a locked client is *)

(** A client that talks to the origin of the URL alone, directly, with verified
    TLS: no proxy, dialer, protocol or TLS callback of the application, no
    cookies, no redirects, bounded timeouts, connections and headers. *)
Record locked_tls `{TLSLibrary} (tlsRootCAPEM : bytes) (config : TLSConfig) : Prop := {
  lt_verifies : tc_InsecureSkipVerify config = false ∧ tc_ServerName config = [];
  lt_callbacks : Forall (λ f, f config = NoHook)
    [tc_Rand; tc_Time; tc_GetCertificate; tc_GetClientCertificate; tc_GetConfigForClient;
     tc_VerifyPeerCertificate; tc_VerifyConnection; tc_ClientSessionCache; tc_UnwrapSession; tc_WrapSession;
     tc_KeyLogWriter; tc_EncryptedClientHelloRejectionVerify; tc_GetEncryptedClientHelloKeys;
     tc_NameToCertificate];
  lt_versions : (VersionTLS12 ≤ tc_MinVersion config ≤ VersionTLS13)%N ∧
    (tc_MaxVersion config = 0%N ∨ (tc_MinVersion config ≤ tc_MaxVersion config ≤ VersionTLS13)%N);
  lt_roots : parseLockedTLSRootCAPEM tlsRootCAPEM = Ok (tc_RootCAs config);
}.

Record locked_transport `{TLSLibrary} (tlsRootCAPEM : bytes) (transport : Transport) : Prop := {
  lk_direct : tr_DialContext transport = LockedHook;
  lk_extensions : Forall (λ f, f transport = NoHook)
    [tr_Proxy; tr_OnProxyConnectResponse; tr_Dial; tr_DialTLSContext; tr_DialTLS; tr_TLSNextProto;
     tr_ProxyConnectHeader; tr_GetProxyConnectHeader; tr_Protocols];
  lk_timeouts : Forall (λ f, 0 ≤ f transport ≤ MaximumOperationTimeout)
    [tr_TLSHandshakeTimeout; tr_IdleConnTimeout; tr_ResponseHeaderTimeout; tr_ExpectContinueTimeout];
  lk_connections : Forall (λ f, 1 ≤ f transport ≤ 1024)
    [tr_MaxIdleConns; tr_MaxIdleConnsPerHost; tr_MaxConnsPerHost];
  lk_headers : 1 ≤ tr_MaxResponseHeaderBytes transport ≤ MaximumResponseHeaderBytes;
  lk_tls : ∃ config, tr_TLSClientConfig transport = Some config ∧ locked_tls tlsRootCAPEM config;
}.

Record locked `{TLSLibrary} (tlsRootCAPEM : bytes) (client : HttpClient) : Prop := {
  lk_redirects : hc_CheckRedirect client = LockedHook;
  lk_cookies : hc_Jar client = NoHook;
  lk_timeout : 0 ≤ hc_Timeout client ≤ MaximumOperationTimeout;
  lk_transport : ∃ transport, hc_Transport client = RT_Transport (Some transport) ∧
    locked_transport tlsRootCAPEM transport;
}.

Section Locked.
Context `{TransportLibrary}.

Lemma lockedTLS_locked pem minVersion maxVersion roots tickets sizing :
  (VersionTLS12 ≤ minVersion ≤ VersionTLS13)%N →
  (maxVersion = 0 ∨ minVersion ≤ maxVersion ≤ VersionTLS13)%N →
  parseLockedTLSRootCAPEM pem = Ok roots →
  locked_tls pem (lockedTLS minVersion maxVersion roots tickets sizing).
Proof. intros Hmin Hmax Hroots. constructor; try done. by repeat constructor. Qed.

Lemma lockedTLSClientConfig_locked source pem config :
  lockedTLSClientConfig source pem = Ok config → locked_tls pem config.
Proof.
  unfold lockedTLSClientConfig. intros E. destruct source as [source|]; ok_inv; subst config.
  - apply lockedTLS_locked; [| |done].
    + clear Hok1. case_bool_decide; ok_inv; bool_prop; subst; unfold VersionTLS12, VersionTLS13 in *; lia.
    + clear Hok0. case_bool_decide; ok_inv; bool_prop; subst; unfold VersionTLS12, VersionTLS13 in *; lia.
  - apply lockedTLS_locked; [|by left|done]. unfold VersionTLS12, VersionTLS13. lia.
Qed.

Lemma lockedDirectTransport_locked source pem transport :
  lockedDirectTransport source pem = Ok transport → locked_transport pem transport.
Proof.
  unfold lockedDirectTransport. intros E. destruct source as [source|]; ok_inv; subst transport.
  - unfold boundedTransport in *. bool_prop. simpl in *. bool_prop.
    assert (0 < MaximumOperationTimeout) by done.
    assert (∀ value default maximum, 0 ≤ value ≤ maximum → 1 ≤ default ≤ maximum →
      1 ≤ orDefault value default ≤ maximum) as Hdef
      by (intros value default maximum Hv Hd; unfold orDefault; destruct (Z.ltb_spec 0 value); lia).
    constructor; [done|by repeat constructor| | |simpl|eexists; split; [done|by eapply lockedTLSClientConfig_locked]].
    + repeat constructor; cbn [tr_TLSHandshakeTimeout tr_IdleConnTimeout tr_ResponseHeaderTimeout
        tr_ExpectContinueTimeout directTransport]; try lia;
        match goal with
        | |- _ ≤ orDefault ?v ?d => destruct (Hdef v d MaximumOperationTimeout); [lia|by vm_compute|lia]
        | |- orDefault ?v ?d ≤ _ => destruct (Hdef v d MaximumOperationTimeout); [lia|by vm_compute|lia]
        end.
    + repeat constructor; cbn [tr_MaxIdleConns tr_MaxIdleConnsPerHost tr_MaxConnsPerHost directTransport];
        match goal with
        | |- _ ≤ orDefault ?v ?d => destruct (Hdef v d 1024); [lia|by vm_compute|lia]
        | |- orDefault ?v ?d ≤ _ => destruct (Hdef v d 1024); [lia|by vm_compute|lia]
        end.
    + destruct ((0 <? _) && _) eqn:Eh; bool_prop; [lia|by vm_compute].
  - constructor; [done|by repeat constructor|by repeat constructor|by repeat constructor|by vm_compute|].
    eexists. split; [done|]. by eapply lockedTLSClientConfig_locked.
Qed.

Lemma lockedHTTPClient_locked configured pem client :
  lockedHTTPClient configured pem = Ok client → locked pem client.
Proof.
  unfold lockedHTTPClient. intros E. ok_inv. destruct v as [timeout source]. ok_inv. subst client.
  constructor; [done|done| |eexists; split; [done|by eapply lockedDirectTransport_locked]]. simpl.
  destruct configured as [c|]; [|ok_inv; simplify_eq; by vm_compute]. ok_inv. bool_prop.
  destruct (hc_Transport c) as [|[t|]|]; by simplify_eq/=.
Qed.
End Locked.
