(* ===== verification/Manifests.v ===== *)
(** * Manifests and paths as a reader checks them

    The checks of [consumer.go] on directory, file and symlink manifests, its
    lookup paths, and the symlink policy of [symlink.go], with what an accepted
    value guarantees. *)

From S2P Require Import Prelude.
From S2P Require Import GoStd.
From S2P Require Import Encoding.
From S2P Require Import Sha256.
From S2P Require Import Json.
From S2P Require Import Model.

Definition maxRepresentableFileBytes : Z := maxFileChunks * maxChunkObjectBytes.

(** ** Directories *)

Definition contains_nul (s : bytes) : bool := contains_byte x00 s.

(** The body of the loop of validateDirectoryManifest; [previous] is the name of
    the entry before, if there is one. *)
Definition validateDirEntry (previous : option bytes) (entry : dirEntry) : result unit :=
  let name := els (de_Name entry) in
  guard_err ((len name =? 0) || (maxEntryNameBytes <? len name) || (name ==? dot)
             || (name ==? dotdot) || contains_byte slash name || contains_nul name
             || Digest_IsZero (de_Node entry)) [ErrCorruptObject] ?;;
  guard_err (negb (N.ldiff (de_Mode entry) 511 =? 0)%N || (de_Size entry <? 0))
            [ErrCorruptObject] ?;;
  guard_err ((de_Type entry !=? EntryFile) && (de_Type entry !=? EntryDir)
             && (de_Type entry !=? EntrySymlink)) [ErrCorruptObject] ?;;
  (if de_Type entry ==? EntryDir then guard_err (negb (de_Size entry =? 0)) [ErrCorruptObject]
   else if de_Type entry ==? EntryFile then
     guard_err (maxRepresentableFileBytes <? de_Size entry) [ErrCorruptObject; ErrResourceLimit]
   else
     guard_err ((de_Size entry =? 0) || (maxSymlinkTargetBytes <? de_Size entry))
               [ErrCorruptObject; ErrResourceLimit]) ?;;
  match previous with
  | None => Ok tt
  | Some p => guard_err (match bytes_Compare p name with Lt => false | _ => true end)
                        [ErrCorruptObject]
  end.

Fixpoint validateDirEntries (previous : option bytes) (entries : list dirEntry) : result unit :=
  match entries with
  | [] => Ok tt
  | entry :: entries =>
      validateDirEntry previous entry ?;; validateDirEntries (Some (els (de_Name entry))) entries
  end.

Definition validateDirectoryManifest (manifest : dirManifest) : result unit :=
  guard_err (dm_Format manifest !=? objectFormatVersion) [ErrCorruptObject] ?;;
  guard_err (maxDirectoryEntries <? len (els (dm_Entries manifest)))
            [ErrCorruptObject; ErrResourceLimit] ?;;
  validateDirEntries None (els (dm_Entries manifest)).

(** ** Files *)

(** The loop of validateFileManifest; [offset] is an int64. *)
Fixpoint validateChunks (manifest : fileManifest) (offset : Z) (chunks : list chunkRef) : result Z :=
  match chunks with
  | [] => Ok offset
  | chunk :: chunks =>
      guard_err ((cr_Offset chunk !=? offset) || (cr_Size chunk <=? 0)
                 || (fm_MaxSize manifest <? cr_Size chunk) || Digest_IsZero (cr_Digest chunk))
                [ErrCorruptObject] ?;;
      let offset := int64_wrap (offset + cr_Size chunk) in
      guard_err ((offset <? 0) || (fm_Size manifest <? offset)) [ErrCorruptObject] ?;;
      validateChunks manifest offset chunks
  end.

Definition profileOf (manifest : fileManifest) : ChunkingOptions :=
  {| co_MinSize := fm_MinSize manifest; co_AverageSize := fm_AvgSize manifest;
     co_MaxSize := fm_MaxSize manifest; co_Polynomial := fm_Polynomial manifest |}.

Definition validateFileManifest `{Chunker} (manifest : fileManifest) : result unit :=
  guard_err ((fm_Format manifest !=? objectFormatVersion)
             || (fm_Algorithm manifest !=? str "rabin-v1") || (fm_Size manifest <? 0))
            [ErrCorruptObject] ?;;
  guard_err (maxFileChunks <? len (els (fm_Chunks manifest)))
            [ErrCorruptObject; ErrResourceLimit] ?;;
  match normalized (profileOf manifest) with
  | Err _ => Err [ErrCorruptObject]
  | Ok profile => guard_err (profile !=? profileOf manifest) [ErrCorruptObject]
  end ?;;
  offset <-? validateChunks manifest 0 (els (fm_Chunks manifest)) ;;
  guard_err (offset !=? fm_Size manifest) [ErrCorruptObject].

(** ** Symlinks *)

Definition validateSymlinkManifest (manifest : symlinkManifest) : result unit :=
  let target := els (sm_Target manifest) in
  guard_err ((sm_Format manifest !=? objectFormatVersion) || (len target =? 0)
             || (maxSymlinkTargetBytes <? len target) || contains_nul target) [ErrCorruptObject].

Definition backslash_byte : byte := x5c.
Definition colon_byte : byte := x3a.

(** [first] up to the first slash. *)
Fixpoint before_slash (s : bytes) : bytes :=
  match s with
  | [] => []
  | x :: s => if x ==? slash then [] else x :: before_slash s
  end.

Definition validateSafeSymlink (linkPath target : bytes) : result unit :=
  guard_err ((target ==? []) || negb (utf8_ValidString target) || contains_nul target)
            [ErrUnsafeSymlink] ?;;
  guard_err (contains_byte backslash_byte target || path_IsAbs target
             || HasPrefix target (str "//")) [ErrUnsafeSymlink] ?;;
  guard_err (contains_byte colon_byte (before_slash target)) [ErrUnsafeSymlink] ?;;
  let resolved := path_Clean (path_Join2 (path_Dir linkPath) target) in
  guard_err ((resolved ==? dotdot) || HasPrefix resolved (dotdot ++ [slash])) [ErrUnsafeSymlink].

(** ** Lookup paths *)

Definition cleanLookupPath (value : bytes) : result (list bytes) :=
  guard_err (maxLookupPathBytes <? len value) [ErrInvalidPath; ErrResourceLimit] ?;;
  guard_err (contains_nul value) [ErrInvalidPath] ?;;
  let value := TrimPrefix value [slash] in
  if (value ==? []) || (value ==? dot) then Ok []
  else
    let cleaned := path_Clean value in
    guard_err ((cleaned ==? dotdot) || HasPrefix cleaned (dotdot ++ [slash]) || (cleaned !=? value))
              [ErrInvalidPath] ?;;
    let components := Split slash cleaned in
    guard_err (maxLookupDepth <? len components) [ErrInvalidPath; ErrResourceLimit] ?;;
    guard_err (existsb (λ component, maxEntryNameBytes <? len component) components)
              [ErrInvalidPath; ErrResourceLimit] ?;;
    Ok components.

(** ** What the checks guarantee *)

Definition entry_name (e : dirEntry) : bytes := els (de_Name e).

Definition name_lt (a b : dirEntry) : Prop := bytes_lt (entry_name a) (entry_name b).

#[export] Instance name_lt_trans : Transitive name_lt.
Proof. intros a b c. apply bytes_lt_trans. Qed.

(** An entry a reader accepts. *)
Definition entry_ok (e : dirEntry) : Prop :=
  proper_name (entry_name e) ∧ (x00 ∉ entry_name e) ∧ len (entry_name e) ≤ maxEntryNameBytes ∧
  Digest_IsZero (de_Node e) = false ∧ N.ldiff (de_Mode e) 511 = 0%N ∧ 0 ≤ de_Size e ∧
  ((de_Type e = EntryDir ∧ de_Size e = 0) ∨
   (de_Type e = EntryFile ∧ de_Size e ≤ maxRepresentableFileBytes) ∨
   (de_Type e = EntrySymlink ∧ 0 < de_Size e ≤ maxSymlinkTargetBytes)).

Definition directory_ok (m : dirManifest) : Prop :=
  dm_Format m = objectFormatVersion ∧ len (els (dm_Entries m)) ≤ maxDirectoryEntries ∧
  Forall entry_ok (els (dm_Entries m)) ∧ StronglySorted name_lt (els (dm_Entries m)).

Lemma contains_byte_false c s : contains_byte c s = false ↔ c ∉ s.
Proof. unfold contains_byte. by rewrite bool_decide_eq_false. Qed.

Lemma len_zero (s : bytes) : (len s =? 0) = false ↔ s ≠ [].
Proof. rewrite Z.eqb_neq. unfold len. destruct s; simpl; split; [done..|lia]. Qed.

Lemma entry_type_ok (e : dirEntry) :
  ((de_Type e !=? EntryFile) && (de_Type e !=? EntryDir) && (de_Type e !=? EntrySymlink)) = false ∧
  (if de_Type e ==? EntryDir then guard_err (negb (de_Size e =? 0)) [ErrCorruptObject]
   else if de_Type e ==? EntryFile then
     guard_err (maxRepresentableFileBytes <? de_Size e) [ErrCorruptObject; ErrResourceLimit]
   else
     guard_err ((de_Size e =? 0) || (maxSymlinkTargetBytes <? de_Size e))
               [ErrCorruptObject; ErrResourceLimit]) = Ok tt ↔
  ((de_Type e = EntryDir ∧ de_Size e = 0) ∨
   (de_Type e = EntryFile ∧ de_Size e ≤ maxRepresentableFileBytes) ∨
   (de_Type e = EntrySymlink ∧ de_Size e ≠ 0 ∧ de_Size e ≤ maxSymlinkTargetBytes)).
Proof.
  assert (EntryFile ≠ EntryDir ∧ EntrySymlink ≠ EntryDir ∧ EntrySymlink ≠ EntryFile) as (? & ? & ?)
    by done.
  destruct (bool_decide_reflect (de_Type e = EntryDir)) as [->|Hd];
    [|destruct (bool_decide_reflect (de_Type e = EntryFile)) as [->|Hf]];
    rewrite ?guard_err_ok, ?negb_false_iff, ?orb_false_iff, ?Z.eqb_eq, ?Z.eqb_neq, ?Z.ltb_ge;
    simpl.
  - naive_solver.
  - naive_solver.
  - rewrite negb_false_iff, bool_decide_eq_true. naive_solver.
Qed.

Lemma validateDirEntry_ok previous e :
  validateDirEntry previous e = Ok tt ↔
  entry_ok e ∧ match previous with Some p => bytes_lt p (entry_name e) | None => True end.
Proof.
  unfold validateDirEntry, entry_ok, entry_name, proper_name, contains_nul.
  rewrite !guard_bind_ok, check_bind_ok.
  assert (match previous with
    | None => Ok tt
    | Some p => guard_err (match bytes_Compare p (els (de_Name e)) with Lt => false | _ => true end)
                  [ErrCorruptObject]
    end = Ok tt ↔ match previous with Some p => bytes_lt p (els (de_Name e)) | None => True end) as ->.
  { destruct previous as [p|]; [|done]. rewrite guard_err_ok. unfold bytes_lt.
    by destruct (bytes_Compare p (els (de_Name e))). }
  pose proof (entry_type_ok e) as Ht.
  rewrite !orb_false_iff, !contains_byte_false, len_zero, !bool_decide_eq_false, !Z.ltb_ge,
    negb_false_iff, N.eqb_eq.
  assert (0 ≤ de_Size e → (de_Size e ≠ 0 ↔ 0 < de_Size e)) by lia.
  naive_solver lia.
Qed.

Lemma validateDirEntries_ok previous entries :
  validateDirEntries previous entries = Ok tt ↔
  Forall entry_ok entries ∧ Sorted name_lt entries ∧
  match previous, entries with Some p, e :: _ => bytes_lt p (entry_name e) | _, _ => True end.
Proof.
  revert previous. induction entries as [|e entries IH]; intros previous; simpl.
  { split; [|done]. intros _. split_and!; [constructor|constructor|by destruct previous]. }
  rewrite check_bind_ok, validateDirEntry_ok, IH, Forall_cons. split.
  - intros ([He Hp] & Hes & Hs & Hn). split_and!; [done..| |by destruct previous].
    constructor; [done|]. destruct entries; constructor. exact Hn.
  - intros ([He Hes] & Hs & Hp). apply Sorted_inv in Hs as [Hs Hn].
    split_and!; [done|by destruct previous|done|done|]. by inversion Hn.
Qed.

Lemma validateDirectoryManifest_ok m :
  validateDirectoryManifest m = Ok tt ↔ directory_ok m.
Proof.
  unfold validateDirectoryManifest, directory_ok.
  rewrite !guard_bind_ok, validateDirEntries_ok, negb_false_iff, bool_decide_eq_true, Z.ltb_ge.
  split; intros (H1 & H2 & H3 & H4).
  - destruct H4 as [H4 _]. split_and!; [done..|]. apply Sorted_StronglySorted; [|done].
    intros a b c. apply bytes_lt_trans.
  - split_and!; [done..| |by destruct (els _)]. by apply StronglySorted_Sorted.
Qed.

(** The chunks of a file, laid end to end from [offset]. *)
Fixpoint chunks_from (offset : Z) (chunks : list chunkRef) : Prop :=
  match chunks with
  | [] => True
  | c :: chunks => cr_Offset c = offset ∧ chunks_from (offset + cr_Size c) chunks
  end.

Definition chunks_size (chunks : list chunkRef) : Z := foldr (λ c n, cr_Size c + n) 0 chunks.

Definition chunk_ok (limit : Z) (c : chunkRef) : Prop :=
  0 < cr_Size c ≤ limit ∧ Digest_IsZero (cr_Digest c) = false.

Definition file_ok `{Chunker} (m : fileManifest) : Prop :=
  fm_Format m = objectFormatVersion ∧ fm_Algorithm m = str "rabin-v1" ∧
  len (els (fm_Chunks m)) ≤ maxFileChunks ∧ normalized (profileOf m) = Ok (profileOf m) ∧
  Forall (chunk_ok (fm_MaxSize m)) (els (fm_Chunks m)) ∧ chunks_from 0 (els (fm_Chunks m)) ∧
  chunks_size (els (fm_Chunks m)) = fm_Size m.

Lemma chunks_size_nonneg limit chunks : Forall (chunk_ok limit) chunks → 0 ≤ chunks_size chunks.
Proof. induction 1 as [|c cs [Hc _] _ IH]; simpl; lia. Qed.

Lemma validateChunks_ok m offset chunks end_ :
  0 ≤ offset ≤ fm_Size m → fm_Size m ≤ int64_max → fm_MaxSize m ≤ int64_max →
  validateChunks m offset chunks = Ok end_ ↔
  Forall (chunk_ok (fm_MaxSize m)) chunks ∧ chunks_from offset chunks ∧
  end_ = offset + chunks_size chunks ∧ offset + chunks_size chunks ≤ fm_Size m.
Proof.
  intros Ho Hs Hm. revert offset Ho. induction chunks as [|c chunks IH]; intros offset Ho; simpl.
  { split; [intros [= <-]; split_and!; [constructor|done|lia|lia]|].
    intros (_ & _ & -> & _). f_equal. lia. }
  rewrite !guard_bind_ok, !orb_false_iff, Forall_cons. unfold chunk_ok at 2.
  rewrite negb_false_iff, bool_decide_eq_true, !Z.ltb_ge, Z.leb_gt.
  split.
  - intros ((((E & Hc) & Hl) & Hz) & [Hlo Hhi] & Hv).
    assert (int64_wrap (offset + cr_Size c) = offset + cr_Size c) as Ew
      by (apply int64_add_exact; lia).
    rewrite Ew in *. rewrite IH in Hv by lia. destruct Hv as (Hf & Hr & -> & Hle).
    split_and!; try done; lia.
  - intros (((Hc & Hz) & Hf) & (E & Hr) & -> & Hle).
    pose proof (chunks_size_nonneg _ _ Hf).
    assert (int64_wrap (offset + cr_Size c) = offset + cr_Size c) as Ew
      by (apply int64_wrap_id; unfold int64_min in *; lia).
    rewrite Ew. rewrite IH by lia. split_and!; try done; lia.
Qed.

Lemma validateFileManifest_ok `{Chunker} m :
  fm_Size m ≤ int64_max → fm_MaxSize m ≤ int64_max →
  validateFileManifest m = Ok tt ↔ file_ok m.
Proof.
  intros Hs Hm. unfold validateFileManifest, file_ok.
  rewrite !guard_bind_ok, check_bind_ok, result_bind_ok, !orb_false_iff, !negb_false_iff,
    !bool_decide_eq_true, !Z.ltb_ge.
  split.
  - intros (((E1 & E2) & H1) & H2 & Hp & end_ & Hv & He). apply guard_err_ok in He. bool_prop.
    rewrite validateChunks_ok in Hv by lia. destruct Hv as (Hf & Hr & -> & Hle).
    split_and!; try done.
    destruct (normalized (profileOf m)) as [p|]; [|done]. apply guard_err_ok in Hp. bool_prop. congruence.
  - intros (E1 & E2 & H2 & Hp & Hf & Hr & He).
    pose proof (chunks_size_nonneg _ _ Hf). split_and!; try done; [lia| |].
    + rewrite Hp, guard_err_ok, bool_decide_eq_true_2; done.
    + exists (fm_Size m). rewrite validateChunks_ok by lia. split_and!; try done; [lia..|].
      rewrite guard_err_ok, bool_decide_eq_true_2; done.
Qed.
