(* ===== verification/Symlink.v ===== *)
(** Confinement of symbolic links ([src/symlink.go]).

    [validateSafeSymlink] decides on strings: it cleans the joined path and
    looks at its first bytes.  The theorem of this file says what that
    decision means: it accepts exactly the portable targets whose components,
    followed one by one from the directory of the link, never step above the
    root of the snapshot, and the rest of the walk is where the cleaned path
    points. *)
From Stdlib Require Import ZArith List Bool Lia.
From stdpp Require Import base list.
From S2P Require Import Prelude.
From S2P Require Import GoStd.
From S2P Require Import Encoding.
From S2P Require Import Model.
From S2P Require Import Manifests.

Local Open Scope Z_scope.

(** The directories below the root (innermost first) after following the
    components [cs]; [None] as soon as a step leaves the root. *)
Fixpoint follow (at_dir : list bytes) (cs : list bytes) : option (list bytes) :=
  match cs with
  | [] => Some at_dir
  | c :: cs =>
      if (c ==? []) || (c ==? dot) then follow at_dir cs
      else if c ==? dotdot then
        match at_dir with
        | [] => None
        | _ :: up => follow up cs
        end
      else follow (c :: at_dir) cs
  end.

(** What the first three checks ask of a target. *)
Definition portable_target (target : bytes) : bool :=
  (target !=? []) && utf8_ValidString target && negb (contains_nul target)
  && negb (contains_byte backslash_byte target) && negb (path_IsAbs target)
  && negb (contains_byte colon_byte (before_slash target)).

(** ** [path.Clean] *)

Lemma clean_step_push s c :
  c ≠ [] → c ≠ dot → c ≠ dotdot → clean_step false s c = c :: s.
Proof. intros Hn Hd Hdd. unfold clean_step. by rewrite !bool_decide_false. Qed.

(** A ".." at the bottom of the stack stays there. *)
Lemma clean_step_bottom s c :
  last s = Some dotdot → last (clean_step false s c) = Some dotdot.
Proof.
  intros Hs. unfold clean_step.
  assert (Hpush : ∀ x : bytes, last (x :: s) = Some dotdot) by (intros x; by destruct s).
  destruct (_ || _); [done|]. case_bool_decide; [|done].
  destruct s as [|t s]; [done|]. case_bool_decide as Ht; [done|].
  destruct s; [|done]. by injection Hs as ->.
Qed.

Lemma clean_bottom cs s :
  last s = Some dotdot → last (foldl (clean_step false) s cs) = Some dotdot.
Proof.
  revert s. induction cs as [|c cs IH]; intros s Hs; [done|].
  by apply IH, clean_step_bottom.
Qed.

(** Cleaning follows the components as long as they stay below the root. *)
Lemma clean_follow cs s :
  Forall proper_name s → Forall (λ c, slash ∉ c) cs →
  match follow s cs with
  | Some s' => foldl (clean_step false) s cs = s' ∧ Forall proper_name s'
  | None => last (foldl (clean_step false) s cs) = Some dotdot
  end.
Proof.
  revert s. induction cs as [|c cs IH]; intros s Hs Hcs; simpl; [done|].
  apply Forall_cons in Hcs as [Hc Hcs]. unfold clean_step at 2 4.
  destruct (_ || _) eqn:E; [by apply IH|].
  apply orb_false_iff in E as [En%bool_decide_eq_false Ed%bool_decide_eq_false].
  case_bool_decide as Hdd; [|apply IH; [by constructor|done]].
  destruct s as [|t s]; [by apply clean_bottom; subst c|].
  apply Forall_cons in Hs as [(? & ? & ? & ?) Hs].
  rewrite bool_decide_false by done. by apply IH.
Qed.

Lemma clean_stack_rev s : stack_ok s → clean_stack false (rev s) = s.
Proof.
  unfold clean_stack. induction s as [|t s IH]; [done|].
  intros (Ht & Hn & Hd & Hs). simpl rev. rewrite foldl_app.
  rewrite IH by (case_bool_decide; [by apply stack_ok_dotdot|done]). simpl.
  unfold clean_step. rewrite !(bool_decide_false (t = _)) by done. simpl.
  case_bool_decide as Hdd; [|done]. subst t.
  destruct s as [|u s]; [done|]. apply Forall_cons in Hs as [-> _].
  by rewrite bool_decide_true.
Qed.

Lemma stack_ok_no_slash s : stack_ok s → Forall (λ w, slash ∉ w) (rev s).
Proof.
  intros Hs. apply Forall_rev_iff. induction s as [|t s IH]; [constructor|].
  destruct Hs as (? & ? & ? & Hs). constructor; [done|]. apply IH.
  case_bool_decide; [by apply stack_ok_dotdot|done].
Qed.

Lemma stack_ok_names s : Forall proper_name s → stack_ok s.
Proof.
  induction 1 as [|t s (? & ? & ? & ?) Hs IH]; simpl; [done|]. by rewrite bool_decide_false.
Qed.

(** The text of a stack of a relative path. *)
Definition stack_text (s : list bytes) : bytes :=
  match s with [] => dot | _ => Join [slash] (rev s) end.

Lemma join_names_head l :
  Forall (λ w, w ≠ [] ∧ slash ∉ w) l → l ≠ [] →
  Join [slash] l ≠ [] ∧ path_IsAbs (Join [slash] l) = false.
Proof.
  intros Hl Hne. destruct l as [|w l]; [done|]. apply Forall_cons in Hl as [[Hn Hw] _].
  destruct w as [|x w]; [done|]. rewrite not_elem_of_cons in Hw.
  assert (E : ∃ k, Join [slash] ((x :: w) :: l) = x :: k)
    by (destruct l; simpl; eauto).
  destruct E as [k ->]. split; [done|]. unfold path_IsAbs. simpl.
  by rewrite bool_decide_false by naive_solver.
Qed.

Lemma stack_ok_words s : stack_ok s → Forall (λ w, w ≠ [] ∧ slash ∉ w) (rev s).
Proof.
  intros Hs. apply Forall_rev_iff. induction s as [|t s IH]; [constructor|].
  destruct Hs as (? & ? & ? & Hs). constructor; [done|]. apply IH.
  case_bool_decide; [by apply stack_ok_dotdot|done].
Qed.

Lemma rev_cons_not_nil {A} (x : A) l : rev (x :: l) ≠ [].
Proof. simpl. by destruct (rev l). Qed.

Lemma Clean_text s : stack_ok s → path_Clean (stack_text s) = stack_text s.
Proof.
  intros Hs. destruct s as [|t s]; [done|]. set (st := t :: s) in *.
  destruct (join_names_head (rev st)) as [Hne Habs];
    [by apply stack_ok_words|by apply rev_cons_not_nil|].
  change (stack_text st) with (Join [slash] (rev st)).
  unfold path_Clean. rewrite bool_decide_false by done. rewrite Habs.
  rewrite Split_Join by (by first [apply rev_cons_not_nil | apply stack_ok_no_slash]).
  rewrite clean_stack_rev by done. by rewrite bool_decide_false.
Qed.

Lemma Clean_relative p :
  p ≠ [] → path_IsAbs p = false →
  path_Clean p = stack_text (clean_stack false (Split slash p)) ∧
  stack_ok (clean_stack false (Split slash p)).
Proof.
  intros Hne Habs.
  assert (Hok : stack_ok (clean_stack false (Split slash p))).
  { apply clean_stack_ok, Forall_forall. intros w Hw. by apply Split_no_sep in Hw. }
  split; [|done]. unfold path_Clean. rewrite bool_decide_false, Habs by done.
  destruct (clean_stack _ _) as [|t s] eqn:E; [done|].
  destruct (join_names_head (rev (t :: s))) as [Hn _];
    [by apply stack_ok_words|by apply rev_cons_not_nil|].
  by rewrite bool_decide_false.
Qed.

(** The test on the text finds the ".." at the bottom of the stack. *)
Lemma text_escapes s :
  stack_ok s →
  (stack_text s ==? dotdot) || HasPrefix (stack_text s) (dotdot ++ [slash])
  = bool_decide (last s = Some dotdot).
Proof.
  intros Hs. destruct s as [|b s _] using rev_ind; [done|].
  rewrite last_snoc.
  assert (stack_text (s ++ [b]) = Join [slash] (rev (s ++ [b]))) as -> by (by destruct s).
  apply stack_ok_words in Hs. rewrite rev_app_distr in Hs |- *.
  change (rev [b] ++ rev s) with (b :: rev s) in *.
  apply Forall_cons in Hs as [[Hn Hb] Hr].
  apply eq_bool_prop_intro. rewrite orb_True, !bool_decide_spec. split.
  - intros [E|E%Is_true_eq_true].
    + apply (f_equal (Split slash)) in E. destruct (rev s) as [|u l] eqn:Er.
      * simpl in E. rewrite Split_single in E by done. by injection E as ->.
      * rewrite Join_cons in E by done. simpl app in E. rewrite Split_app in E by done.
        exfalso. injection E as _ E. by apply Split_not_nil in E.
    + apply HasPrefix_true in E as [k E]. apply (f_equal (Split slash)) in E.
      rewrite <- app_assoc in E. simpl app in E.
      change (x2e :: x2e :: slash :: k) with (dotdot ++ slash :: k) in E.
      rewrite (Split_app slash dotdot) in E by (apply (bool_decide_unpack _); by vm_compute).
      destruct (rev s) as [|u l] eqn:Er.
      * simpl in E. rewrite Split_single in E by done. injection E as -> _. done.
      * rewrite Join_cons in E by done. simpl app in E. rewrite Split_app in E by done.
        by injection E as ->.
  - intros [= ->]. destruct (rev s) as [|u l]; [by left|]. right. apply Is_true_eq_left.
    rewrite Join_cons by done. rewrite app_assoc. apply HasPrefix_app.
Qed.

(** ** The directory of a link *)

Lemma Split_snoc_nil l :
  Forall (λ w, slash ∉ w) l → Split slash (Join [slash] (l ++ [[]])) = l ++ [[]].
Proof.
  intros Hl. apply Split_Join; [by destruct l|]. apply Forall_app. split; [done|].
  constructor; [apply not_elem_of_nil|constructor].
Qed.

Lemma Split_Join_slash l s :
  l ≠ [] → Forall (λ w, slash ∉ w) l →
  Split slash (Join [slash] l ++ slash :: s) = l ++ Split slash s.
Proof.
  induction l as [|w l IH]; [done|]. intros _ [Hw Hl]%Forall_cons.
  destruct l as [|v l]; [by apply Split_app|].
  rewrite Join_cons, <- !app_assoc by done. simpl app. rewrite Split_app by done.
  f_equal. by apply IH.
Qed.

Lemma names_no_slash l : Forall proper_name l → Forall (λ w, slash ∉ w) l.
Proof. intros Hl. eapply Forall_impl; [done|]. by intros w (? & ? & ? & ?). Qed.

Lemma SplitDir_link dirs name :
  Forall proper_name (dirs ++ [name]) →
  path_SplitDir (Join [slash] (dirs ++ [name]))
  = match dirs with [] => [] | _ => Join [slash] (dirs ++ [[]]) end.
Proof.
  intros Hp. unfold path_SplitDir.
  rewrite Split_Join by (by first [apply names_no_slash | destruct dirs]).
  rewrite rev_app_distr. change (rev [name] ++ rev dirs) with (name :: rev dirs).
  destruct dirs as [|d dirs]; [done|]. set (l := d :: dirs).
  destruct (rev l) as [|x r] eqn:E; [by apply rev_cons_not_nil in E|].
  rewrite <- E. change (rev ([] :: rev l)) with (rev (rev l) ++ [[]]).
  by rewrite rev_involutive.
Qed.

Lemma clean_names dirs :
  Forall proper_name dirs → foldl (clean_step false) [] dirs = rev dirs.
Proof.
  intros Hd. rewrite <- (rev_involutive dirs) at 1. apply clean_stack_rev, stack_ok_names.
  by apply Forall_rev_iff.
Qed.

Lemma Dir_link dirs name :
  Forall proper_name (dirs ++ [name]) →
  path_Dir (Join [slash] (dirs ++ [name])) = stack_text (rev dirs).
Proof.
  intros Hp. unfold path_Dir. rewrite SplitDir_link by done.
  destruct dirs as [|d ds]; [done|]. set (l := d :: ds) in *.
  apply Forall_app in Hp as [Hp _]. pose proof (names_no_slash _ Hp) as Hs.
  assert (Hhead : Join [slash] (l ++ [[]]) ≠ [] ∧ path_IsAbs (Join [slash] (l ++ [[]])) = false).
  { apply Forall_cons in Hp as [(Hn & _ & _ & Hsl) _]. destruct d as [|x d]; [done|].
    rewrite not_elem_of_cons in Hsl. unfold l. simpl app. rewrite Join_cons by (by destruct ds).
    split; [done|]. unfold path_IsAbs. simpl. rewrite bool_decide_false by naive_solver. done. }
  destruct (Clean_relative (Join [slash] (l ++ [[]]))) as [-> _]; [apply Hhead..|].
  rewrite Split_snoc_nil by done. unfold clean_stack. rewrite foldl_app, clean_names by done.
  done.
Qed.

Lemma stack_text_rev dirs : dirs ≠ [] → stack_text (rev dirs) = Join [slash] dirs.
Proof.
  intros Hd. unfold stack_text. destruct (rev dirs) as [|x r] eqn:E.
  - by rewrite <- (rev_involutive dirs), E in Hd.
  - by rewrite <- E, rev_involutive.
Qed.

(** Where the joined path of the link's directory and the target points. *)
Lemma resolved_text dirs name target :
  Forall proper_name (dirs ++ [name]) → target ≠ [] → path_IsAbs target = false →
  path_Clean (path_Join2 (path_Dir (Join [slash] (dirs ++ [name]))) target)
  = stack_text (foldl (clean_step false) (rev dirs) (Split slash target)) ∧
  stack_ok (foldl (clean_step false) (rev dirs) (Split slash target)).
Proof.
  intros Hp Ht Ha. rewrite Dir_link by done. apply Forall_app in Hp as [Hp _].
  assert (Hr : Forall proper_name (rev dirs)) by (by apply Forall_rev_iff).
  assert (Hw : stack_text (rev dirs) ≠ [] ∧
    path_IsAbs (stack_text (rev dirs) ++ slash :: target) = false).
  { destruct dirs as [|d ds]; [done|]. rewrite stack_text_rev by done. set (l := d :: ds) in *.
    destruct (join_names_head l) as [Hn Hab]; [|done|].
    - eapply Forall_impl; [done|]. by intros w (? & ? & ? & ?).
    - split; [done|]. destruct (Join [slash] l); [done|]. exact Hab. }
  destruct Hw as [Hn Hab].
  assert (Hst : clean_stack false (Split slash (stack_text (rev dirs) ++ slash :: target))
    = foldl (clean_step false) (rev dirs) (Split slash target)).
  { unfold clean_stack. destruct dirs as [|d ds]; [done|].
    rewrite stack_text_rev, Split_Join_slash by (by first [apply names_no_slash | done]).
    rewrite foldl_app, clean_names by done. done. }
  destruct (Clean_relative (stack_text (rev dirs) ++ slash :: target)) as [E Hok];
    [by destruct (stack_text _)|done|].
  unfold path_Join2. rewrite !bool_decide_false by done. simpl andb. cbv match.
  rewrite E, Clean_text by done. by rewrite <- Hst.
Qed.

Lemma double_slash_abs target : path_IsAbs target = false → HasPrefix target (str "//") = false.
Proof.
  intros Ha. apply not_true_is_false. intros [k ->]%HasPrefix_true. discriminate Ha.
Qed.

Lemma validate_portable linkPath target :
  validateSafeSymlink linkPath target
  = (guard_err (negb (portable_target target)) [ErrUnsafeSymlink] ?;;
    guard_err ((path_Clean (path_Join2 (path_Dir linkPath) target) ==? dotdot)
      || HasPrefix (path_Clean (path_Join2 (path_Dir linkPath) target)) (dotdot ++ [slash]))
      [ErrUnsafeSymlink]).
Proof.
  unfold validateSafeSymlink, portable_target.
  pose proof (double_slash_abs target) as Hd.
  destruct (target ==? []), (utf8_ValidString target), (contains_nul target),
    (contains_byte backslash_byte target), (path_IsAbs target),
    (contains_byte colon_byte (before_slash target)); try rewrite Hd by done; reflexivity.
Qed.

(** C23: A symbolic link of a snapshot is accepted exactly if its target is
    portable (non-empty UTF-8 without NUL and backslash, relative, no colon in
    its first component) and following its components one by one from the
    directory of the link never steps above the root; every rejection is
    [ErrUnsafeSymlink], and the cleaned path the code looked at is the place
    the walk ends in, made of proper names below the root. *)
Theorem safe_symlink_confined dirs name target :
  Forall proper_name (dirs ++ [name]) →
  let linkPath := Join [slash] (dirs ++ [name]) in
  (validateSafeSymlink linkPath target = Ok tt ↔
     portable_target target = true ∧ is_Some (follow (rev dirs) (Split slash target))) ∧
  (∀ e, validateSafeSymlink linkPath target = Err e → e = [ErrUnsafeSymlink]) ∧
  (∀ place, validateSafeSymlink linkPath target = Ok tt →
     follow (rev dirs) (Split slash target) = Some place →
     path_Clean (path_Join2 (path_Dir linkPath) target) = stack_text place ∧
     Forall proper_name place).
Proof.
  intros Hp linkPath. rewrite !validate_portable.
  destruct (portable_target target) eqn:Hport; simpl; [|naive_solver].
  assert (Hrel : target ≠ [] ∧ path_IsAbs target = false).
  { unfold portable_target in Hport. rewrite !andb_true_iff, !negb_true_iff in Hport.
    destruct Hport as ((((( Hn & _) & _) & _) & Ha) & _).
    split; [|done]. by apply bool_decide_eq_false in Hn. }
  destruct (resolved_text dirs name target) as [E Hok]; [done|apply Hrel..|].
  pose proof (proj1 (Forall_app _ _ _) Hp) as [Hd _].
  pose proof (clean_follow (Split slash target) (rev dirs)) as Hf.
  rewrite Forall_rev_iff in Hf. specialize (Hf Hd).
  unfold linkPath. rewrite E, text_escapes by done.
  destruct (follow (rev dirs) (Split slash target)) as [place|].
  - destruct Hf as [-> Hpl]; [apply Forall_forall; intros w Hw; by apply Split_no_sep in Hw|].
    assert (Hnb : last place ≠ Some dotdot).
    { intros Hb. apply last_Some in Hb as [l ->]. apply Forall_app in Hpl as [_ Hpl].
      rewrite Forall_singleton in Hpl. by destruct Hpl as (? & ? & ? & ?). }
    rewrite bool_decide_false by done. naive_solver.
  - rewrite bool_decide_true
      by (apply Hf, Forall_forall; intros w Hw; by apply Split_no_sep in Hw).
    simpl. split_and!; [|naive_solver..]. split; [done|]. by intros [_ [? ?]].
Qed.

(** A link in "a/b" may climb to the root and below it again, not above it. *)
Lemma safe_symlink_confined_witness :
  Forall proper_name ([str "a"; str "b"] ++ [str "link"]) ∧
  validateSafeSymlink (str "a/b/link") (str ".././../c") = Ok tt ∧
  validateSafeSymlink (str "a/b/link") (str "../../../c") = Err [ErrUnsafeSymlink] ∧
  path_Clean (path_Join2 (path_Dir (str "a/b/link")) (str ".././../c")) = str "c".
Proof.
  assert (Hp : Forall proper_name ([str "a"; str "b"] ++ [str "link"])).
  { repeat constructor; try done; apply (bool_decide_unpack _); by vm_compute. }
  destruct (safe_symlink_confined [str "a"; str "b"] (str "link") (str ".././../c") Hp)
    as ((_ & Hok) & _ & Hpl).
  assert (Hv : validateSafeSymlink (str "a/b/link") (str ".././../c") = Ok tt)
    by (apply Hok; split; [by vm_compute|by eexists]).
  split; [done|]. split; [done|]. split; [by vm_compute|].
  apply (Hpl [str "c"]); [done|by vm_compute].
Defined.
