(* ===== verification/Effects.v ===== *)
(** * Interfaces of the program

    The data types that cross the interfaces of s3disk ([store.go],
    [watermark.go], [publication_journal.go], [trust.go], [cache.go]) and the
    signature [eff] of the calls the program makes on them.  A theorem that
    quantifies over all answers of [eff] therefore covers every
    implementation. *)

From S2P Require Import Prelude.
From S2P Require Import Prog.
From S2P Require Import Model.

(** ** [store.go] *)

Definition MaxStoreVersionTokenBytes : Z := Z.shiftl 4 10.

Record Version := {
  v_ETag : bytes;
  v_VersionID : bytes;
}.
#[export] Instance Version_eq_dec : EqDecision Version.
Proof. solve_decision. Defined.

Record GetOptions := {
  go_IfNoneMatch : bytes;
  go_MaxBytes : Z;
}.

Record Object := {
  ob_Data : bytes;
  ob_Version : Version;
}.

Definition validateStoreVersion (version : Version) : result unit :=
  guard_err (v_ETag version ==? []) [ErrStoreIncompatible] ?;;
  guard_err ((MaxStoreVersionTokenBytes <? len (v_ETag version))
             || (MaxStoreVersionTokenBytes <? len (v_VersionID version)))
            [ErrStoreIncompatible].

(** ** [trust.go]: repository identities *)

(** A Go array [32]byte. *)
Abbreviation RepositoryID := (list Byte.byte) (only parsing).
Definition RepositoryID_zero : RepositoryID := replicate 32 x00.
Definition RepositoryID_IsZero (id : RepositoryID) : bool := id ==? RepositoryID_zero.

(** ** [watermark.go] *)

Record Watermark := {
  wm_RepositoryID : RepositoryID;
  wm_Generation : N;
  wm_Commit : Digest;
}.
#[export] Instance Watermark_eq_dec : EqDecision Watermark.
Proof. solve_decision. Defined.

Definition Watermark_zero : Watermark :=
  {| wm_RepositoryID := RepositoryID_zero; wm_Generation := 0; wm_Commit := Digest_zero |}.

(** ** [publication_journal.go] *)

Abbreviation PublicationJournalRevision := (list Byte.byte) (only parsing).

Definition PublicationIntentKind := bytes.
Definition PublicationIntentPublish : PublicationIntentKind := str "publish".
Definition PublicationIntentResign : PublicationIntentKind := str "resign".

Record PublicationIntent := {
  pi_IntentID : Digest;
  pi_Kind : PublicationIntentKind;
  pi_Base : option Watermark;
  pi_Next : Watermark;
  pi_ExpectedVersion : option Version;
  pi_ExpectedReference : Digest;
  pi_Reference : bytes;
}.
#[export] Instance PublicationIntent_eq_dec : EqDecision PublicationIntent.
Proof. solve_decision. Defined.

Record PublicationJournalState := {
  js_RepositoryID : RepositoryID;
  js_Channel : bytes;
  js_Committed : option Watermark;
  js_Pending : option PublicationIntent;
}.
#[export] Instance PublicationJournalState_eq_dec : EqDecision PublicationJournalState.
Proof. solve_decision. Defined.

(** ** [metadata_cache.go]: decoded manifests shared between readers *)

Record metadataCacheKey := {
  mk_kind : bytes;
  mk_digest : Digest;
}.
#[export] Instance metadataCacheKey_eq_dec : EqDecision metadataCacheKey.
Proof. solve_decision. Defined.

(** The dynamic types of the cached [any]. *)
Inductive metadataValue :=
| MV_dir (m : dirManifest) | MV_file (m : fileManifest) | MV_symlink (m : symlinkManifest)
| MV_commit (m : commitManifest).

(** ** The source tree ([publisher.go])

    What the program sees of a file: its identity (os.SameFile), size, time of
    modification and mode. *)
Record FileInfo := {
  fi_ID : N;
  fi_Size : Z;
  fi_ModTime : Z;
  fi_Mode : N;
}.
#[export] Instance FileInfo_eq_dec : EqDecision FileInfo.
Proof. solve_decision. Defined.

(** An open file: the pointer to its os.File. *)
Abbreviation handle := N (only parsing).

(** Calls on the operating system while a source tree is scanned.  [Root_]
    calls go through the os.Root of the source; [Splitter_Next] is the next
    piece that the content-defined splitter cuts from an open file, None at the
    end. *)
Inductive src_eff : Type → Type :=
| Filepath_Abs (path : bytes) : src_eff (result bytes)
| Os_Lstat (path : bytes) : src_eff (result FileInfo)
| Os_Open (path : bytes) : src_eff (result handle)
| Os_OpenRoot (path : bytes) : src_eff (result unit)
| Root_Close : src_eff (option error)
| Root_Open (path : bytes) : src_eff (result handle)
| Root_Lstat (path : bytes) : src_eff (result FileInfo)
| Root_Stat (path : bytes) : src_eff (result FileInfo)
| Root_Readlink (path : bytes) : src_eff (result bytes)
| File_Stat (file : handle) : src_eff (result FileInfo)
| File_ReadDir (file : handle) (n : Z) : src_eff (list bytes * option error)
| File_Close (file : handle) : src_eff (option error)
| Splitter_Next (file : handle) (polynomial : N) (minSize maxSize averageBits : Z)
    : src_eff (result (option bytes))
| Time_Now : src_eff Z.

(** ** Presigned sharing ([presignedshare], [sealed_state_store.go]) *)

Inductive capabilityProvenance :=
| capabilityProvenanceUnchecked | capabilityProvenanceExactGET
| capabilityProvenanceImportedBearer | capabilityProvenanceAuthenticatedBundle.
#[export] Instance capabilityProvenance_eq_dec : EqDecision capabilityProvenance.
Proof. solve_decision. Defined.

(** A bearer capability; the zero value has an empty URL.  [http.Header] is a map
    from names to values; the expiry is an instant in nanoseconds. *)
Record Capability := {
  cap_rawURL : bytes;
  cap_headers : gmap bytes (list bytes);
  cap_expiresAt : Z;
  cap_origin : bytes;
  cap_exactKey : bytes;
  cap_provenance : capabilityProvenance;
}.
#[export] Instance Capability_eq_dec : EqDecision Capability.
Proof. solve_decision. Defined.

(** The state of the reader of a share ([presignedshare/reader.go]). *)
Record readerRevision := {
  rd_revision : N;
  rd_generation : N;
  rd_commit : Digest;
  rd_bundleDigest : bytes;
  rd_bundleETag : bytes;
  rd_bundleVersionID : bytes;
  rd_referenceData : bytes;
  rd_capabilities : gmap bytes Capability;
  rd_capabilityBytes : Z;
}.
Record readerState := {
  rds_current : option readerRevision;
  rds_retainedCapabilities : gmap bytes Capability;
  rds_retainedCapabilityBytes : Z;
}.

(** An HTTP response without its body, and what client.Do returns: a response,
    or an error, which is the reader's redirect error or another one, beside
    which a response can be open. *)
Record HttpResponse := {
  hr_StatusCode : Z;
  hr_Header : gmap bytes (list bytes);
  hr_ContentLength : Z;
}.
Inductive HttpOutcome :=
| Http_Response (response : HttpResponse)
| Http_Failed (redirect open : bool).

(** The presigner of the publisher of a share root, its recovery journal (a
    SealedStateStore: Load answers state, revision and found, CompareAndSwap a
    revision beside the error) and the gate that serializes its calls; the HTTP
    client of a reader ([Http_ReadAll] reads the body of the open response up to
    a limit), its refresh gate, and the moments at which the other goroutines
    of a reader may have replaced its state ([Reader_Sync]). *)
Inductive share_eff : Type → Type :=
| Presign_Get (key : bytes) : share_eff (result Capability)
| Presign_Expiry : share_eff (Z * bool)
| Recovery_Load : share_eff (result (bytes * bytes * bool))
| Recovery_CompareAndSwap (expected : option bytes) (next : bytes) : share_eff (bytes * option error)
| Root_Gate : share_eff (option error)
| Root_Gate_Release : share_eff unit
| Http_Do (url : bytes) (headers : gmap bytes (list bytes)) : share_eff HttpOutcome
| Http_ReadAll (limit : Z) : share_eff (result bytes)
| Http_Close : share_eff unit
| Reader_Gate : share_eff (option error)
| Reader_Gate_Release : share_eff unit
| Reader_Sync (state : readerState) : share_eff readerState.

(** ** The calls

    A (value, found, err) result is a [result] of an [option].  The metadata
    cache and the flight groups are shared by the concurrent readers of a
    Consumer, so they are interfaces here as well: [Meta_Flight] and
    [Chunk_Flight] enter a flight group and answer [None] when the caller
    becomes the loader and [Some r] when it joined a load that ended in [r] (or
    its own context ended); [Meta_Done] and [Chunk_Done] hand the loader's
    outcome to the group and answer the caller's context error, if it gave up
    meanwhile; [Chunk_Release] returns a lease. *)
Inductive eff : Type → Type :=
| CtxErr : eff (option error)
| Store_Get (key : bytes) (options : GetOptions) : eff (result Object)
| Store_Head (key : bytes) : eff (result Version)
| Store_PutIfAbsent (key data : bytes) : eff (result Version)
| Store_CompareAndSwap (key : bytes) (expected : option Version) (data : bytes)
    : eff (result Version)
| WM_Load (channel : bytes) : eff (result (option Watermark))
| WM_CompareAndSwap (channel : bytes) (expected : option Watermark) (next : Watermark)
    : eff (option error)
| PJ_Load (channel : bytes)
    : eff (result (option (PublicationJournalState * PublicationJournalRevision)))
| PJ_CompareAndSwap (channel : bytes) (expected : option PublicationJournalRevision)
    (next : PublicationJournalState) : eff (result PublicationJournalRevision)
| Verifier_Verify (keyID message signature : bytes) : eff (option error)
| Signer_Sign (message : bytes) : eff (result bytes)
| Cache_Get (digest : Digest) (expectedSize : Z) : eff (result (option bytes))
| Cache_Put (digest : Digest) (data : bytes) : eff (option error)
| OnCacheError (e : error) : eff unit
| Download_Slot : eff (option error)
| Download_Bytes (weight : Z) : eff (option error)
| Download_Release_Bytes (weight : Z) : eff unit
| Download_Release_Slot : eff unit
| Refresh_Gate : eff (option error)
| Refresh_Gate_Release : eff unit
| Meta_Get (key : metadataCacheKey) : eff (option metadataValue)
| Meta_Put (key : metadataCacheKey) (value : metadataValue) : eff metadataValue
| Meta_Flight (key : metadataCacheKey) : eff (option (result metadataValue))
| Meta_Done (key : metadataCacheKey) (r : result metadataValue) : eff (option error)
| Chunk_Flight (digest : Digest) (expectedSize : Z) : eff (option (result bytes))
| Chunk_Done (digest : Digest) (expectedSize : Z) (r : result bytes) (cacheErrors : list error)
    : eff (option error)
| Chunk_Release (digest : Digest) (expectedSize : Z) : eff unit
| Rand_Read (n : Z) : eff (result bytes)
| Source {X} (op : src_eff X) : eff X
| Share {X} (op : share_eff X) : eff X.

(** [if err := ctx.Err(); err != nil { return err }]. *)
Definition checkCtx {S} : M eff S unit :=
  e <- mcall CtxErr ;;
  match e with Some e => mfail e | None => mret tt end.

(** A call that returns only an error. *)
Definition mcalle {S} (c : eff (option error)) : M eff S unit :=
  e <- mcall c ;;
  match e with Some e => mfail e | None => mret tt end.

Lemma mwp_calle {S} (R : rely eff) (G : guarantee eff) (c : eff (option error)) (s : S)
    (h : history eff) (Q : history eff → S → result unit → Prop) :
  G h _ c →
  (R h _ c None → Q (h ++ [Ev c None]) s (Ok tt)) →
  (∀ e, R h _ c (Some e) → Q (h ++ [Ev c (Some e)]) s (Err e)) →
  mwp R G (mcalle c) s h Q.
Proof.
  intros HG HO HE. unfold mcalle. apply mwp_bind, mwp_call; [done|].
  intros [e|] Hx; [by apply mwp_fail, HE|by apply mwp_ret, HO].
Qed.

Lemma mwp_checkCtx {S} (R : rely eff) (G : guarantee eff) (s : S) (h : history eff)
    (Q : history eff → S → result unit → Prop) :
  G h _ CtxErr →
  (∀ x, R h _ CtxErr x →
     Q (h ++ [Ev CtxErr x]) s (match x with Some e => Err e | None => Ok tt end)) →
  mwp R G checkCtx s h Q.
Proof.
  intros HG H. apply mwp_calle; [done|apply (H None)|intros e; apply (H (Some e))].
Qed.

(** The empty program state of methods that keep none. *)
Abbreviation M0 := (M eff unit) (only parsing).

Lemma validateStoreVersion_ok v u :
  validateStoreVersion v = Ok u → v_ETag v ≠ [].
Proof. unfold validateStoreVersion. intros H. ok_inv. by bool_prop. Qed.

(** Calls that write nothing to the store and leave the durable local state
    alone. *)
Definition is_local {X} (e : eff X) : bool :=
  match e with
  | Store_PutIfAbsent _ _ | Store_CompareAndSwap _ _ _
  | WM_Load _ | WM_CompareAndSwap _ _ _ | PJ_Load _ | PJ_CompareAndSwap _ _ _ => false
  | Share op => match op with Recovery_Load | Recovery_CompareAndSwap _ _ => false | _ => true end
  | _ => true
  end.

(** Those that in addition give nothing to other readers, mint no capability and
    use none. *)
Definition is_read {X} (e : eff X) : bool :=
  match e with
  | Share op => match op with
                | Recovery_Load | Recovery_CompareAndSwap _ _ | Presign_Get _ | Http_Do _ _ => false
                | _ => true end
  | Meta_Put _ _ | Meta_Done _ _ | Chunk_Done _ _ _ _ | Cache_Put _ _ => false
  | e' => is_local e'
  end.

Lemma is_read_local {X} (e : eff X) : is_read e = true → is_local e = true.
Proof. destruct e; try done. by destruct op. Qed.

(** A guarantee that does not restrict reading. *)
Definition reads_free (G : guarantee eff) : Prop :=
  ∀ h X (e : eff X), is_read e = true → G h X e.

Lemma reads_free_any : reads_free any_call.
Proof. done. Qed.
#[export] Hint Resolve reads_free_any : s3disk.

(** ** Histories without writes *)

Definition event_is_local (v : event eff) : Prop :=
  match v with Ev e _ => is_local e = true end.

(** [h'] extends [h] by calls that write nothing. *)
Definition ext_reads (h h' : history eff) : Prop :=
  ∃ k, h' = h ++ k ∧ Forall event_is_local k.

Lemma ext_reads_refl h : ext_reads h h.
Proof. exists []. by rewrite app_nil_r. Qed.

Lemma ext_reads_trans h1 h2 h3 : ext_reads h1 h2 → ext_reads h2 h3 → ext_reads h1 h3.
Proof.
  intros (k & -> & Hk) (k' & -> & Hk'). exists (k ++ k').
  rewrite <- app_assoc. split; [done|]. by apply Forall_app.
Qed.

#[export] Instance ext_reads_preorder : PreOrder ext_reads.
Proof. split; [exact ext_reads_refl|exact ext_reads_trans]. Qed.

Lemma ext_reads_snoc {X} h h' (e : eff X) x :
  ext_reads h h' → is_local e = true → ext_reads h (h' ++ [Ev e x]).
Proof.
  intros H He. eapply ext_reads_trans; [done|]. exists [Ev e x]. split; [done|].
  by repeat constructor.
Qed.
#[export] Hint Resolve ext_reads_refl : s3disk.

Ltac ext_reads :=
  repeat (apply ext_reads_snoc; [|reflexivity]);
  first [assumption | apply ext_reads_refl
        | eapply ext_reads_trans; [eassumption|]; ext_reads].

(** A program that only reads, its state unchanged: the shape of the
    specification of every loading function. *)
Definition reading {S A} (G : guarantee eff) (R : rely eff) (m : M eff S A) (P : result A → Prop)
    : Prop :=
  ∀ s h, mwp R G m s h (λ h' s' r, s' = s ∧ ext_reads h h' ∧ P r).

Lemma reading_mono {S A} G R (m : M eff S A) (P P' : result A → Prop) :
  reading G R m P → (∀ r, P r → P' r) → reading G R m P'.
Proof.
  intros H HP s h. eapply mwp_mono; [apply H|]. intros h' s' r (-> & He & Hr). auto.
Qed.

Lemma reading_bind {S A B} G R (m : M eff S A) (f : A → M eff S B) Q :
  reading G R m (λ r, match r with Ok a => reading G R (f a) Q | Err e => Q (Err e) end) →
  reading G R (mbind m f) Q.
Proof.
  intros Hm s h. apply mwp_bind. eapply mwp_mono; [apply Hm|].
  intros h1 s1 [a|e] (-> & E1 & H1); [|done].
  eapply mwp_mono; [apply H1|]. intros h2 s2 r (-> & E2 & H2).
  split_and!; [done| |done]. by eapply ext_reads_trans.
Qed.

Lemma reading_ret {S A} G R (a : A) (P : result A → Prop) :
  P (Ok a) → reading (S:=S) G R (mret a) P.
Proof. intros H s h. by split_and!; [|apply ext_reads_refl|]. Qed.
Lemma reading_fail {S A} G R e (P : result A → Prop) :
  P (Err e) → reading (S:=S) G R (mfail e) P.
Proof. intros H s h. by split_and!; [|apply ext_reads_refl|]. Qed.
Lemma reading_lift {S A} G R (r : result A) (P : result A → Prop) :
  P r → reading (S:=S) G R (mlift r) P.
Proof. intros H s h. by split_and!; [|apply ext_reads_refl|]. Qed.
Lemma reading_guard {S} G R c e (P : result unit → Prop) :
  (c = true → P (Err e)) → (c = false → P (Ok tt)) → reading (S:=S) G R (mguard c e) P.
Proof. intros Ht Hf. apply reading_lift. destruct c; simpl; auto. Qed.
Lemma reading_try {S A} G R (m : M eff S A) (P : result (result A) → Prop) :
  reading G R m (λ r, P (Ok r)) → reading G R (mtry m) P.
Proof. intros H s h. apply mwp_try, H. Qed.
Lemma reading_wrap {S A} G R f (m : M eff S A) (P : result A → Prop) :
  reading G R m (λ r, P (result_wrap f r)) → reading G R (mwrap f m) P.
Proof. intros H s h. apply mwp_wrap, H. Qed.
Lemma reading_get {S} G R (P : result S → Prop) :
  (∀ s, P (Ok s)) → reading G R mget P.
Proof. intros H s h. by split_and!; [|apply ext_reads_refl|]. Qed.
Lemma reading_callr {S X} (G : guarantee eff) (R : rely eff) (e : eff (result X)) (P : result X → Prop) :
  reads_free G → is_read e = true → (∀ h r, R h _ e r → P r) → reading (S:=S) G R (mcallr e) P.
Proof.
  intros HG He H s h. apply mwp_callr; [by apply HG|]. intros r Hr.
  split_and!; [done| |by eapply H]. by apply ext_reads_snoc; [apply ext_reads_refl|apply is_read_local].
Qed.
Lemma reading_calle {S} (G : guarantee eff) (R : rely eff) (e : eff (option error)) (P : result unit → Prop) :
  reads_free G → is_read e = true → P (Ok tt) → (∀ x, P (Err x)) →
  reading (S:=S) G R (mcalle e) P.
Proof.
  intros HG He H1 H2 s h.
  apply mwp_calle; [by apply HG|intros _|intros x _]; split_and!; auto;
    by apply ext_reads_snoc; [apply ext_reads_refl|apply is_read_local].
Qed.
Lemma reading_checkCtx {S} (G : guarantee eff) (R : rely eff) (P : result unit → Prop) :
  reads_free G → P (Ok tt) → (∀ x, P (Err x)) → reading (S:=S) G R checkCtx P.
Proof. intros HG H1 H2. by apply reading_calle. Qed.

(** Steps through a program that only reads. *)
Ltac rd_step :=
  lazymatch goal with
  | |- reading _ _ (mbind _ _) _ => apply reading_bind
  | |- reading _ _ (mret _) _ => apply reading_ret
  | |- reading _ _ (mfail _) _ => apply reading_fail
  | |- reading _ _ (mlift _) _ => apply reading_lift
  | |- reading _ _ (mguard _ _) _ => apply reading_guard; intros ?
  | |- reading _ _ (mtry _) _ => apply reading_try
  | |- reading _ _ (mwrap _ _) _ => apply reading_wrap
  | |- reading _ _ (mcallr _) _ => apply reading_callr; [done|done|intros ? ? ?]
  | |- reading _ _ (mcalle _) _ => apply reading_calle; [done|done| |intros ?]
  | |- reading _ _ checkCtx _ => apply reading_checkCtx; [done| |intros ?]
  end; simpl.

(** ** Programs that act

    [acting G R m h Q]: whatever the state, [m] called after [h] keeps to [G]
    and ends in [Q] of the longer history. *)
Definition extends (h h' : history eff) : Prop := ∃ k, h' = h ++ k.
#[export] Instance extends_preorder : PreOrder extends.
Proof.
  split.
  - intros h. exists []. by rewrite app_nil_r.
  - intros h1 h2 h3 [k ->] [k' ->]. exists (k ++ k'). by rewrite (assoc_L (++)).
Qed.

Lemma extends_reads h h' : ext_reads h h' → extends h h'.
Proof. intros (k & -> & _). by eexists. Qed.

Lemma extends_snoc h ev : extends h (h ++ [ev]).
Proof. by eexists. Qed.

Lemma extends_elem h h' (ev : event eff) : extends h h' → ev ∈ h → ev ∈ h'.
Proof. intros [k ->] Hev. apply elem_of_app. by left. Qed.

(** An event of the calls between [h] and [h']. *)
Definition since (h h' : history eff) (ev : event eff) : Prop := ∃ k, h' = h ++ k ∧ ev ∈ k.

Lemma since_mono h0 h h' h'' ev : extends h0 h → extends h' h'' → since h h' ev → since h0 h'' ev.
Proof.
  intros [k0 ->] [k'' ->] (k & -> & Hev). exists (k0 ++ k ++ k''). split; [by rewrite <- !(assoc_L (++))|].
  rewrite !elem_of_app. auto.
Qed.

Lemma since_snoc h h' ev : extends h h' → since h (h' ++ [ev]) ev.
Proof.
  intros [k ->]. exists (k ++ [ev]). split; [by rewrite (assoc_L (++))|]. apply elem_of_app. right. by left.
Qed.

Lemma since_elem h h' ev : since h h' ev → ev ∈ h'.
Proof. intros (k & -> & Hev). apply elem_of_app. by right. Qed.

Definition acting {S A} (G : guarantee eff) (R : rely eff) (m : M eff S A) (h : history eff)
    (Q : history eff → result A → Prop) : Prop :=
  ∀ s, mwp R G m s h (λ h' _ r, extends h h' ∧ Q h' r).

Section Acting.
Context {S : Type} {G : guarantee eff} {R : rely eff}.
Implicit Types h : history eff.

Lemma doing_mono {A} (m : M eff S A) h (Q Q' : history eff → result A → Prop) :
  acting G R m h Q → (∀ h' r, extends h h' → Q h' r → Q' h' r) → acting G R m h Q'.
Proof. intros Hm HQ s. eapply mwp_mono; [apply Hm|]. intros h' s' r [He Hr]. auto. Qed.

Lemma doing_bind {A B} (m : M eff S A) (f : A → M eff S B) h Q :
  acting G R m h (λ h' r, match r with Ok a => acting G R (f a) h' Q | Err e => Q h' (Err e) end) →
  acting G R (mbind m f) h Q.
Proof.
  intros Hm s. apply mwp_bind. eapply mwp_mono; [apply Hm|].
  intros h1 s1 [a|e] [E1 H1]; [|done]. eapply mwp_mono; [apply H1|].
  intros h2 s2 r [E2 H2]. split; [by etrans|done].
Qed.

Lemma doing_lift {A} (r : result A) h (Q : history eff → result A → Prop) :
  Q h r → acting (S:=S) G R (mlift r) h Q.
Proof. intros Hq s. by split; [reflexivity|]. Qed.
Lemma doing_ret {A} (a : A) h (Q : history eff → result A → Prop) :
  Q h (Ok a) → acting (S:=S) G R (mret a) h Q.
Proof. intros Hq s. by split; [reflexivity|]. Qed.
Lemma doing_fail {A} e h (Q : history eff → result A → Prop) :
  Q h (Err e) → acting (S:=S) G R (mfail e) h Q.
Proof. intros Hq s. by split; [reflexivity|]. Qed.
Lemma doing_guard c e h (Q : history eff → result unit → Prop) :
  (c = true → Q h (Err e)) → (c = false → Q h (Ok tt)) → acting (S:=S) G R (mguard c e) h Q.
Proof. intros Ht Hf. apply doing_lift. destruct c; simpl; auto. Qed.
Lemma doing_modify f h (Q : history eff → result unit → Prop) :
  Q h (Ok tt) → acting (S:=S) G R (mmodify f) h Q.
Proof. intros Hq s. by split; [reflexivity|]. Qed.
Lemma doing_get h (Q : history eff → result S → Prop) :
  (∀ s, Q h (Ok s)) → acting G R mget h Q.
Proof. intros Hq s. by split; [reflexivity|]. Qed.
Lemma doing_try {A} (m : M eff S A) h (Q : history eff → result (result A) → Prop) :
  acting G R m h (λ h' r, Q h' (Ok r)) → acting G R (mtry m) h Q.
Proof. intros Hm s. apply mwp_try, Hm. Qed.
Lemma doing_wrap {A} f (m : M eff S A) h (Q : history eff → result A → Prop) :
  acting G R m h (λ h' r, Q h' (result_wrap f r)) → acting G R (mwrap f m) h Q.
Proof. intros Hm s. apply mwp_wrap, Hm. Qed.
Lemma doing_call {X} (e : eff X) h (Q : history eff → result X → Prop) :
  G h _ e → (∀ x, R h _ e x → Q (h ++ [Ev e x]) (Ok x)) → acting (S:=S) G R (mcall e) h Q.
Proof.
  intros HGe Hq s. apply mwp_call; [done|]. intros x Hx. split; [apply extends_snoc|by apply Hq].
Qed.
Lemma doing_callr {X} (e : eff (result X)) h (Q : history eff → result X → Prop) :
  G h _ e → (∀ r, R h _ e r → Q (h ++ [Ev e r]) r) → acting (S:=S) G R (mcallr e) h Q.
Proof.
  intros HGe Hq s. apply mwp_callr; [done|]. intros r Hr. split; [apply extends_snoc|by apply Hq].
Qed.
Lemma doing_ctx h (Q : history eff → result unit → Prop) :
  reads_free G →
  (∀ x, Q (h ++ [Ev CtxErr x]) (match x with Some e => Err e | None => Ok tt end)) →
  acting (S:=S) G R checkCtx h Q.
Proof.
  intros HG Hq s. apply mwp_checkCtx; [by apply HG|]. intros x _. split; [apply extends_snoc|by apply Hq].
Qed.
Lemma doing_reading {A} (m : M eff S A) P h (Q : history eff → result A → Prop) :
  reading G R m P → (∀ h' r, ext_reads h h' → P r → Q h' r) → acting G R m h Q.
Proof.
  intros Hm Hq s. eapply mwp_mono; [apply Hm|]. intros h' s' r (-> & He & Hr).
  split; [by apply extends_reads|by apply Hq].
Qed.
End Acting.

Lemma doing_calle {S} (G : guarantee eff) (R : rely eff) (e : eff (option error)) h
    (Q : history eff → result unit → Prop) :
  G h _ e → Q (h ++ [Ev e None]) (Ok tt) → (∀ x, Q (h ++ [Ev e (Some x)]) (Err x)) →
  acting (S:=S) G R (mcalle e) h Q.
Proof.
  intros HG H1 H2 s. apply mwp_calle; [done|intros _|intros x _]; (split; [apply extends_snoc|auto]).
Qed.

Lemma doing_weaken {S A} (G G' : guarantee eff) (R R' : rely eff) (m : M eff S A) h Q :
  (∀ h X (e : eff X) x, R' h X e x → R h X e x) → (∀ h X (e : eff X), G h X e → G' h X e) →
  acting G R m h Q → acting G' R' m h Q.
Proof. intros HR HG Hm s. by eapply wp_weaken, Hm. Qed.

Ltac do_step :=
  lazymatch goal with
  | |- acting _ _ (mbind _ _) _ _ => apply doing_bind
  | |- acting _ _ (mret _) _ _ => apply doing_ret
  | |- acting _ _ (mfail _) _ _ => apply doing_fail
  | |- acting _ _ (mlift _) _ _ => apply doing_lift
  | |- acting _ _ (mguard _ _) _ _ => apply doing_guard; intros ?
  | |- acting _ _ (mmodify _) _ _ => apply doing_modify
  | |- acting _ _ mget _ _ => apply doing_get; intros ?
  | |- acting _ _ (mtry _) _ _ => apply doing_try
  | |- acting _ _ (mwrap _ _) _ _ => apply doing_wrap
  end; simpl.
Ltac do_if :=
  lazymatch goal with |- acting _ _ (if ?c then _ else _) _ _ => destruct c eqn:? end.

(** One step through a program text, calls included; what the environment
    answered is introduced. *)
Ltac mwp_go :=
  lazymatch goal with
  | |- mwp _ _ (mcalle _) _ _ _ => apply mwp_calle; [try done|intros ?|intros ? ?]
  | |- mwp _ _ checkCtx _ _ _ => apply mwp_checkCtx; [try done|intros [?|] ?]
  | |- mwp _ _ (mcall _) _ _ _ => apply mwp_call; [try done|intros ? ?]
  | |- mwp _ _ (mcallr _) _ _ _ => apply mwp_callr; [try done|intros [?|?] ?]
  | |- _ => mwp_step
  end; simpl.

Definition refuse_source {X} (op : src_eff X) : X :=
  match op in src_eff T return T with
  | Filepath_Abs _ => Err [] | Os_Lstat _ => Err [] | Os_Open _ => Err [] | Os_OpenRoot _ => Err []
  | Root_Close => None | Root_Open _ => Err [] | Root_Lstat _ => Err [] | Root_Stat _ => Err []
  | Root_Readlink _ => Err [] | File_Stat _ => Err [] | File_ReadDir _ _ => ([], Some [])
  | File_Close _ => None | Splitter_Next _ _ _ _ _ => Err [] | Time_Now => 0
  end.

Definition refuse_share {X} (op : share_eff X) : X :=
  match op in share_eff T return T with
  | Presign_Get _ => Err [] | Presign_Expiry => (0, false) | Recovery_Load => Err []
  | Recovery_CompareAndSwap _ _ => ([], Some []) | Root_Gate => Some [] | Root_Gate_Release => tt
  | Http_Do _ _ => Http_Failed false false | Http_ReadAll _ => Err [] | Http_Close => tt
  | Reader_Gate => Some [] | Reader_Gate_Release => tt | Reader_Sync state => state
  end.

(** An environment in which every call fails; concrete handlers override the
    calls they serve. *)
Definition refuse {X} (e : eff X) : X :=
  match e in eff T return T with
  | CtxErr => None
  | Store_Get _ _ => Err [] | Store_Head _ => Err [] | Store_PutIfAbsent _ _ => Err []
  | Store_CompareAndSwap _ _ _ => Err []
  | WM_Load _ => Err [] | WM_CompareAndSwap _ _ _ => Some []
  | PJ_Load _ => Err [] | PJ_CompareAndSwap _ _ _ => Err []
  | Verifier_Verify _ _ _ => Some [] | Signer_Sign _ => Err []
  | Cache_Get _ _ => Err [] | Cache_Put _ _ => Some []
  | OnCacheError _ => tt
  | Download_Slot => Some [] | Download_Bytes _ => Some []
  | Download_Release_Bytes _ => tt | Download_Release_Slot => tt
  | Refresh_Gate => Some [] | Refresh_Gate_Release => tt
  | Meta_Get _ => None | Meta_Put _ v => v | Meta_Flight _ => Some (Err [])
  | Meta_Done _ _ => Some []
  | Chunk_Flight _ _ => Some (Err []) | Chunk_Done _ _ _ _ => Some [] | Chunk_Release _ _ => tt
  | Rand_Read _ => Err []
  | Source op => refuse_source op
  | Share op => refuse_share op
  end.

Lemma run_mcalle {S W} (H : handler eff W) (c : eff (option error)) (s : S) w :
  run H (mcalle c s) w =
  let '(w', x) := H _ c w in (w', (s, match x with Some e => Err e | None => Ok tt end)).
Proof. unfold mcalle. mrun. by destruct (H (option error) c w) as [w' [e|]]. Qed.

Lemma run_checkCtx {S W} (H : handler eff W) (s : S) w :
  run H (checkCtx s) w =
  let '(w', x) := H _ CtxErr w in (w', (s, match x with Some e => Err e | None => Ok tt end)).
Proof. apply run_mcalle. Qed.

Ltac erun_step :=
  match goal with
  | |- context [run ?H (mcalle ?c ?s) ?w] => rewrite (run_mcalle H c s w)
  | |- context [run ?H (checkCtx ?s) ?w] => rewrite (run_checkCtx H s w)
  | |- _ => mrun_step
  end.
Ltac erun := repeat erun_step; simpl.
