(* ===== verification/Os.v ===== *)
(** * What the program reads from os.FileInfo

    Mode bits, identity and stability of files, shared by the scan of a source
    tree ([publisher.go]), the watch tree ([live.go]) and the chunk cache
    ([cache.go]). *)

From S2P Require Import Prelude.
From S2P Require Import Effects.

(** ** os.FileMode *)

Definition ModeDir : N := N.shiftl 1 31.
Definition ModeSymlink : N := N.shiftl 1 27.
Definition ModeDevice : N := N.shiftl 1 26.
Definition ModeNamedPipe : N := N.shiftl 1 25.
Definition ModeSocket : N := N.shiftl 1 24.
Definition ModeCharDevice : N := N.shiftl 1 21.
Definition ModeIrregular : N := N.shiftl 1 19.
Definition ModeType : N :=
  foldr N.lor 0%N [ModeDir; ModeSymlink; ModeNamedPipe; ModeSocket; ModeDevice; ModeCharDevice;
                   ModeIrregular].

Definition IsDir (info : FileInfo) : bool := negb (N.land (fi_Mode info) ModeDir =? 0)%N.
Definition IsSymlink (info : FileInfo) : bool := negb (N.land (fi_Mode info) ModeSymlink =? 0)%N.
Definition IsRegular (info : FileInfo) : bool := (N.land (fi_Mode info) ModeType =? 0)%N.
Definition Perm (info : FileInfo) : N := N.land (fi_Mode info) 511.
Definition SameFile (a b : FileInfo) : bool := fi_ID a ==? fi_ID b.

Definition stableFileInfo (before after : FileInfo) : bool :=
  SameFile before after && (fi_Size before =? fi_Size after)
  && (fi_ModTime before =? fi_ModTime after) && (fi_Mode before ==? fi_Mode after).
