(* ===== verification/Capability.v ===== *)
(** * Bearer capabilities ([presignedshare/capability.go])

    A capability is an exact-key GET authority: a presigned URL with the request
    headers it needs and its expiry.  The packages net/url and net and the
    Unicode case mapping of package strings are parameters ([NetLibrary]): what
    is proved holds for every URL parser. *)

From stdpp Require Import sorting.
From S2P Require Import Prelude.
From S2P Require Import Prog.
From S2P Require Import GoStd.
From S2P Require Import Encoding.
From S2P Require Import Json.
From S2P Require Import Model.
From S2P Require Import Rfc3339.
From S2P Require Import Effects.

Definition MaximumCapabilityURLBytes : Z := Z.shiftl 16 10.
Definition MaximumCapabilityHeaders : Z := 32.
Definition MaximumCapabilityHeaderValues : Z := 64.
Definition MaximumCapabilityHeaderBytes : Z := Z.shiftl 16 10.
Definition MaximumCapabilityLifetime : Z := 7 * 24 * 3600 * second.
Definition MaximumBearerExportBytes : Z := Z.shiftl 128 10.
Definition maximumObjectKeyBytes : Z := 1024.

Definition invalidCapability : error := [ErrInvalidCapability].

(** [validObjectKey] of bundle.go. *)
Definition validObjectKey (key : bytes) : bool :=
  (key !=? []) && (len key <=? maximumObjectKeyBytes) && utf8_ValidString key
  && negb (contains_byte x00 key).

Definition Capability_zero : Capability :=
  {| cap_rawURL := []; cap_headers := ∅; cap_expiresAt := zero_ns; cap_origin := [];
     cap_exactKey := []; cap_provenance := capabilityProvenanceUnchecked |}.

Definition Capability_Configured (capability : Capability) : bool := cap_rawURL capability !=? [].

(** ** URLs *)

(** What the package uses of a parsed url.URL. *)
Record URL := {
  url_Scheme : bytes;
  url_Opaque : bytes;
  url_hasUser : bool;
  url_Host : bytes;
  url_Fragment : bytes;
  url_Hostname : bytes;
  url_Port : bytes;
  url_String : bytes;
}.

(** [ip_Parse]: the canonical text of an IP address and whether it is a loopback
    address. *)
Class NetLibrary := {
  url_Parse : bytes → option URL;
  ip_Parse : bytes → option (bytes * bool);
  strings_ToLower : bytes → bytes;
}.

Definition ContainsAny (s chars : bytes) : bool := existsb (λ c, contains_byte c chars) s.
Definition nul_cr_lf : bytes := [x00; x0d; x0a].

(** [net.JoinHostPort]. *)
Definition JoinHostPort (host port : bytes) : bytes :=
  if contains_byte x3a host then [x5b] ++ host ++ [x5d; x3a] ++ port else host ++ [x3a] ++ port.

(** [strconv.Atoi] and the check that [strconv.Itoa] gives the text back. *)
Definition validPort (port : bytes) : bool :=
  match parse_int port with
  | Some n => negb ((n <? 1) || (65535 <? n)) && (format_int n ==? port)
  | None => false
  end.

Section Capabilities.
Context `{NetLibrary}.

Definition isLiteralLoopback (host : bytes) : bool :=
  match ip_Parse host with Some (_, loopback) => loopback | None => false end.

(** The text of the parsed URL and the origin. *)
Definition validateCapabilityURL (rawURL : bytes) (allowInsecureLoopback : bool)
    : result (bytes * bytes) :=
  guard_err ((rawURL ==? []) || (MaximumCapabilityURLBytes <? len rawURL)
             || negb (utf8_ValidString rawURL)) invalidCapability ?;;
  match url_Parse rawURL with
  | None => Err invalidCapability
  | Some parsed =>
      guard_err ((url_Scheme parsed ==? []) || (url_Host parsed ==? []) || (url_Opaque parsed !=? []))
                invalidCapability ?;;
      guard_err (url_hasUser parsed || (url_Fragment parsed !=? [])) invalidCapability ?;;
      guard_err ((url_Scheme parsed !=? str "https")
                 && ((url_Scheme parsed !=? str "http") || negb allowInsecureLoopback
                     || negb (isLiteralLoopback (url_Hostname parsed)))) invalidCapability ?;;
      let hostname := strings_ToLower (url_Hostname parsed) in
      guard_err ((hostname ==? []) || ContainsAny hostname nul_cr_lf) invalidCapability ?;;
      guard_err (existsb (λ c, (127 <? byte_val c)%N || (c ==? x25)) hostname) invalidCapability ?;;
      guard_err (match last (url_Host parsed) with Some c => c ==? x3a | None => false end)
                invalidCapability ?;;
      let port := if url_Port parsed ==? []
                  then (if url_Scheme parsed ==? str "https" then str "443" else str "80")
                  else url_Port parsed in
      guard_err (negb (validPort port)) invalidCapability ?;;
      let hostname := match ip_Parse hostname with Some (address, _) => address | None => hostname end in
      Ok (url_String parsed, url_Scheme parsed ++ str "://" ++ JoinHostPort hostname port)
  end.

(** ** Headers *)

Definition tokenCharacter (c : byte) : bool :=
  let v := byte_val c in
  (((97 <=? v) && (v <=? 122)) || ((65 <=? v) && (v <=? 90)) || ((48 <=? v) && (v <=? 57)))%N
  || contains_byte c (str "!#$%&'*+-.^_`|~").

Definition validHeaderName (name : bytes) : bool :=
  negb ((name ==? []) || (256 <? len name)) && forallb tokenCharacter name.

Definition upper (c : byte) : byte :=
  if (97 <=? byte_val c)%N && (byte_val c <=? 122)%N then byte_of (byte_val c - 32) else c.
Definition lower (c : byte) : byte :=
  if (65 <=? byte_val c)%N && (byte_val c <=? 90)%N then byte_of (byte_val c + 32) else c.

(** [http.CanonicalHeaderKey] of a token: the first letter and the letters after
    a hyphen in upper case, the others in lower case. *)
Fixpoint canonicalHeader (start : bool) (name : bytes) : bytes :=
  match name with
  | [] => []
  | c :: rest => (if start then upper c else lower c) :: canonicalHeader (c ==? x2d) rest
  end.
Definition CanonicalHeaderKey (name : bytes) : bytes := canonicalHeader true name.

(** [strings.ToLower] of a token. *)
Definition forbiddenHeaders : list bytes := map str
  ["authorization"; "connection"; "content-length"; "cookie"; "host"; "if-none-match"; "keep-alive";
   "if-match"; "if-modified-since"; "if-range"; "if-unmodified-since"; "proxy-authorization";
   "proxy-connection"; "range"; "set-cookie"; "te"; "trailer"; "transfer-encoding"; "upgrade";
   "forwarded"; "x-forwarded-for"; "x-forwarded-host"; "x-forwarded-port"; "x-forwarded-prefix";
   "x-forwarded-proto"; "x-forwarded-server"; "x-forwarded-uri"; "x-forwarded-url";
   "x-http-method"; "x-http-method-override"; "x-method-override"; "x-original-method";
   "x-rewrite-method"; "x-original-host"; "x-original-uri"; "x-original-url"; "x-rewrite-uri";
   "x-rewrite-url"; "x-amz-server-side-encryption-customer-key";
   "x-amz-server-side-encryption-customer-key-md5"].
Definition forbiddenCapabilityHeader (name : bytes) : bool :=
  bool_decide (map lower name ∈ forbiddenHeaders).

(** The loop over the values of one header: the bytes counted so far. *)
Fixpoint validateHeaderValues (name : bytes) (values : list bytes) (totalBytes : Z) : result Z :=
  match values with
  | [] => Ok totalBytes
  | value :: values =>
      guard_err (negb (utf8_ValidString value) || ContainsAny value nul_cr_lf) invalidCapability ?;;
      let totalBytes := totalBytes + len name + len value in
      guard_err (MaximumCapabilityHeaderBytes <? totalBytes) invalidCapability ?;;
      validateHeaderValues name values totalBytes
  end.

(** The loop over the map, in some order. *)
Fixpoint validateHeaderList (headers : list (bytes * list bytes)) (canonical : gmap bytes (list bytes))
    (totalBytes totalValues : Z) : result (gmap bytes (list bytes)) :=
  match headers with
  | [] => Ok canonical
  | (name, values) :: headers =>
      guard_err (negb (validHeaderName name)) invalidCapability ?;;
      let name := CanonicalHeaderKey name in
      guard_err (forbiddenCapabilityHeader name) invalidCapability ?;;
      guard_err (bool_decide (is_Some (canonical !! name))) invalidCapability ?;;
      guard_err (len values =? 0) invalidCapability ?;;
      let totalValues := totalValues + len values in
      guard_err (MaximumCapabilityHeaderValues <? totalValues) invalidCapability ?;;
      totalBytes <-? validateHeaderValues name values totalBytes ;;
      validateHeaderList headers (<[name := values]> canonical) totalBytes totalValues
  end.

Definition validateCapabilityHeaders (headers : gmap bytes (list bytes))
    : result (gmap bytes (list bytes)) :=
  guard_err (MaximumCapabilityHeaders <? Z.of_nat (size headers)) invalidCapability ?;;
  validateHeaderList (map_to_list headers) ∅ 0 0.

(** ** Construction *)

(** [expiresAt.Sub(now)] saturates, which the comparison does not see. *)
Definition newCapability (exactKey rawURL : bytes) (headers : gmap bytes (list bytes)) (expiresAt : Z)
    (allowInsecureLoopback : bool) (now : Z) (provenance : capabilityProvenance) : result Capability :=
  guard_err (negb (validObjectKey exactKey)) invalidCapability ?;;
  guard_err (ns_IsZero expiresAt || (expiresAt <=? now)
             || (MaximumCapabilityLifetime <? expiresAt - now)) invalidCapability ?;;
  ' (text, origin) <-? validateCapabilityURL rawURL allowInsecureLoopback ;;
  canonicalHeaders <-? validateCapabilityHeaders headers ;;
  Ok {| cap_rawURL := text; cap_headers := canonicalHeaders; cap_expiresAt := expiresAt;
        cap_origin := origin; cap_exactKey := exactKey; cap_provenance := provenance |}.
End Capabilities.

(** ** Wire formats *)

(** [json.Decoder] with DisallowUnknownFields followed by the comparison with
    the canonical encoding; what it refuses is one error. *)
Definition strictDecode {T} `{JSON T} (data : bytes) : option T :=
  j ← parse data;
  v ← of_json j;
  if data ==? canonicalJSON v then Some v else None.

Record wireHeader := {
  wh_Name : bytes;
  wh_Values : slice bytes;
}.
#[export] Instance wireHeader_eq_dec : EqDecision wireHeader.
Proof. solve_decision. Defined.

#[export] Instance wireHeader_json : JSON wireHeader := {
  to_json h := JObj [(str "name", JStr (wh_Name h)); (str "values", enc_slice JStr (wh_Values h))];
  of_json j :=
    fs ← obj_fields j;
    n ← fld "name" fs dec_string [];
    v ← fld "values" fs (dec_slice dec_string) None;
    Some {| wh_Name := n; wh_Values := v |};
  json_valid h := utf8_ok (wh_Name h) ∧ Forall utf8_ok (els (wh_Values h));
}.

#[export] Instance wireHeader_laws : JSONLaws wireHeader.
Proof.
  split.
  - intros [n v] (Hn & Hv). simpl in *. repeat split; [done|]. by apply enc_slice_wf.
  - intros [n v] (Hn & Hv). simpl in *. json_decode. rewrite dec_slice_ok; [done|]. by apply Forall_true.
Qed.

(** Splits the well-formedness of an object into that of its fields. *)
Ltac json_object :=
  apply json_wf_obj; repeat (apply Forall_cons; split; [split; [done|]|]);
  cbn [fst snd]; try done; try apply enc_digest_wf; try apply enc_bytes_wf.

(** A slice of encoded values. *)
Lemma slice_wf {T} `{JSONLaws T} (s : slice T) : Forall json_valid (els s) → json_wf (enc_slice to_json s).
Proof. intros Hs. apply enc_slice_wf. eapply Forall_impl; [exact Hs|]. intros v. apply json_valid_wf. Qed.
Ltac json_slice T H :=
  rewrite dec_slice_ok;
    [cbn|eapply Forall_impl; [exact H|]; intros v Hv; exact (of_to_json (T:=T) v Hv)].

Record bearerExport := {
  be_Format : Z;
  be_ExactKey : bytes;
  be_URL : bytes;
  be_Headers : slice wireHeader;
  be_ExpiresAt : Time;
}.
#[export] Instance bearerExport_eq_dec : EqDecision bearerExport.
Proof. solve_decision. Defined.

#[export] Instance bearerExport_json : JSON bearerExport := {
  to_json b := JObj [(str "format", JNum (be_Format b)); (str "exact_key", JStr (be_ExactKey b));
                     (str "url", JStr (be_URL b)); (str "headers", enc_slice to_json (be_Headers b));
                     (str "expires_at", enc_time (be_ExpiresAt b))];
  of_json j :=
    fs ← obj_fields j;
    f ← fld "format" fs dec_int 0;
    k ← fld "exact_key" fs dec_string [];
    u ← fld "url" fs dec_string [];
    h ← fld "headers" fs (dec_slice of_json) None;
    e ← fld "expires_at" fs dec_time Time_zero;
    Some {| be_Format := f; be_ExactKey := k; be_URL := u; be_Headers := h; be_ExpiresAt := e |};
  json_valid b := int_ok (be_Format b) ∧ utf8_ok (be_ExactKey b) ∧ utf8_ok (be_URL b) ∧
    Forall json_valid (els (be_Headers b)) ∧ Time_marshals (be_ExpiresAt b) = true;
}.

#[export] Instance bearerExport_laws : JSONLaws bearerExport.
Proof.
  split.
  - intros [f k u h e] (Hf & Hk & Hu & Hh & He). cbn [be_Format be_ExactKey be_URL be_Headers be_ExpiresAt] in *.
    json_object. by apply slice_wf. by apply enc_time_wf.
  - intros [f k u h e] (Hf & Hk & Hu & Hh & He). cbn [be_Format be_ExactKey be_URL be_Headers be_ExpiresAt] in *.
    json_decode. json_slice wireHeader Hh. by rewrite dec_time_ok.
Qed.

(** The header names in order; the values of a header that has none are nil. *)
Definition sorted_names (headers : gmap bytes (list bytes)) : list bytes :=
  merge_sort (λ a b, bytes_Compare a b ≠ Gt) (map_to_list headers).*1.
Definition headersToWire (headers : gmap bytes (list bytes)) : slice wireHeader :=
  Some (map (λ name, {| wh_Name := name;
                        wh_Values := match headers !! name with
                                     | Some (v :: vs) => Some (v :: vs) | _ => None end |})
            (sorted_names headers)).

Fixpoint wireHeaderList (values : list wireHeader) (previous : bytes) (headers : gmap bytes (list bytes))
    : result (gmap bytes (list bytes)) :=
  match values with
  | [] => Ok headers
  | value :: values =>
      guard_err ((previous !=? []) && (bool_decide (bytes_Compare (wh_Name value) previous ≠ Gt)))
                invalidCapability ?;;
      wireHeaderList values (wh_Name value) (<[wh_Name value := els (wh_Values value)]> headers)
  end.

Definition headersFromWire (values : slice wireHeader) : result (gmap bytes (list bytes)) :=
  guard_err (MaximumCapabilityHeaders <? len (els values)) invalidCapability ?;;
  headers <-? wireHeaderList (els values) [] ∅ ;;
  validateCapabilityHeaders headers.

(** ** Export and import *)

Definition exportBearer (capability : Capability) : result bytes :=
  let wire := {| be_Format := 1; be_ExactKey := cap_exactKey capability; be_URL := cap_rawURL capability;
                 be_Headers := headersToWire (cap_headers capability);
                 be_ExpiresAt := Time_UTC (cap_expiresAt capability) |} in
  guard_err (negb (Time_marshals (be_ExpiresAt wire))
             || (MaximumBearerExportBytes <? len (canonicalJSON wire))) invalidCapability ?;;
  Ok (canonicalJSON wire).

Definition ExportBearer (capability : Capability) : result bytes :=
  guard_err (negb (Capability_Configured capability)) invalidCapability ?;;
  guard_err ((cap_provenance capability !=? capabilityProvenanceExactGET)
             && (cap_provenance capability !=? capabilityProvenanceImportedBearer)) invalidCapability ?;;
  exportBearer capability.

Definition DangerouslyExportUncheckedBearer (capability : Capability) : result bytes :=
  guard_err (negb (Capability_Configured capability)
             || (cap_provenance capability !=? capabilityProvenanceUnchecked)) invalidCapability ?;;
  exportBearer capability.

Definition time_Now {S} : M eff S Z := mcall (Source Time_Now).

Section Importing.
Context `{NetLibrary} {S : Type}.

Definition NewCapabilityFromExactGET (key url : bytes) (headers : gmap bytes (list bytes)) (expiresAt : Z)
    (allowInsecureLoopback : bool) : M eff S Capability :=
  now <- time_Now ;;
  mlift (newCapability key url headers expiresAt allowInsecureLoopback now capabilityProvenanceExactGET).

Definition DangerouslyNewUncheckedCapability (claimedExactKey rawURL : bytes)
    (headers : gmap bytes (list bytes)) (expiresAt : Z) (allowInsecureLoopback : bool)
    : M eff S Capability :=
  now <- time_Now ;;
  mlift (newCapability claimedExactKey rawURL headers expiresAt allowInsecureLoopback now
           capabilityProvenanceUnchecked).

Definition ParseBearer (data : bytes) (allowInsecureLoopback : bool) : M eff S Capability :=
  mguard ((len data =? 0) || (MaximumBearerExportBytes <? len data)) invalidCapability ;;;
  match strictDecode (T:=bearerExport) data with
  | None => mfail invalidCapability
  | Some wire =>
      mguard (be_Format wire !=? 1) invalidCapability ;;;
      headers <- mlift (headersFromWire (be_Headers wire)) ;;
      now <- time_Now ;;
      mlift (newCapability (be_ExactKey wire) (be_URL wire) headers (tm_ns (be_ExpiresAt wire))
               allowInsecureLoopback now capabilityProvenanceImportedBearer)
  end.
End Importing.
