(* ===== verification/Trust.v ===== *)
(** * Signed references ([trust.go], [reference_identity.go])

    Repository identities, the signing envelope of a channel reference, its
    construction and its verification.  A verifier or signer is an interface
    value: its identity methods are fields, its Verify and Sign are calls. *)

From S2P Require Import Prelude.
From S2P Require Import Prog.
From S2P Require Import GoStd.
From S2P Require Import Encoding.
From S2P Require Import Sha256.
From S2P Require Import Json.
From S2P Require Import Model.
From S2P Require Import Effects.

Definition repositoryIDSize : Z := 32.
Definition maxReferenceKeyIDBytes : Z := 128.
Definition maxReferenceSignatureSize : Z := 512.

Definition signedReferenceDomain : bytes :=
  str "s3disk" ++ [x00] ++ str "signed-reference" ++ [x00] ++ str "v1" ++ [x00].

Definition ParseRepositoryID (value : bytes) : result RepositoryID :=
  match hex_DecodeString value with
  | Some decoded => if len decoded !=? repositoryIDSize then Err errorText else Ok decoded
  | None => Err errorText
  end.

Definition RepositoryID_String (id : RepositoryID) : bytes := hex_EncodeToString id.

Lemma ParseRepositoryID_String id :
  digest_wf id → ParseRepositoryID (RepositoryID_String id) = Ok id.
Proof.
  intros H. unfold ParseRepositoryID, RepositoryID_String. rewrite hex_roundtrip.
  unfold len. by rewrite H.
Qed.

(** [validateChannel] of repository.go. *)
Definition validateChannel (channel : bytes) : result unit :=
  guard_err ((channel ==? []) || negb (utf8_ValidString channel)
             || contains_byte x00 channel || (1024 <? len channel))
            [ErrInvalidPath].

(** ** Interfaces *)

Record ReferenceSigner := {
  sg_configured : bool;
  sg_RepositoryID : RepositoryID;
  sg_KeyID : bytes;
}.

Record ReferenceVerifier := {
  rv_configured : bool;
  rv_offline : bool;
  rv_RepositoryID : RepositoryID;
}.

(** ** Payload and envelope *)

Record signedReferencePayload := {
  sp_Format : Z;
  sp_RepositoryID : RepositoryID;
  sp_Channel : bytes;
  sp_Generation : N;
  sp_Commit : Digest;
  sp_KeyID : bytes;
}.
#[export] Instance signedReferencePayload_eq_dec : EqDecision signedReferencePayload.
Proof. solve_decision. Defined.

#[export] Instance signedReferencePayload_json : JSON signedReferencePayload := {
  to_json p := JObj [(str "format", JNum (sp_Format p));
                     (str "repository_id", enc_digest (sp_RepositoryID p));
                     (str "channel", JStr (sp_Channel p));
                     (str "generation", enc_uint (sp_Generation p));
                     (str "commit", enc_digest (sp_Commit p));
                     (str "key_id", JStr (sp_KeyID p))];
  of_json j :=
    fs ← obj_fields j;
    f ← fld "format" fs dec_int 0;
    r ← fld "repository_id" fs dec_digest RepositoryID_zero;
    c ← fld "channel" fs dec_string [];
    g ← fld "generation" fs (dec_uint u64_max) 0%N;
    d ← fld "commit" fs dec_digest Digest_zero;
    k ← fld "key_id" fs dec_string [];
    Some {| sp_Format := f; sp_RepositoryID := r; sp_Channel := c; sp_Generation := g;
            sp_Commit := d; sp_KeyID := k |};
  json_valid p := int_ok (sp_Format p) ∧ digest_wf (sp_RepositoryID p) ∧ utf8_ok (sp_Channel p) ∧
    u64_ok (sp_Generation p) ∧ digest_wf (sp_Commit p) ∧ utf8_ok (sp_KeyID p);
}.

#[export] Instance signedReferencePayload_laws : JSONLaws signedReferencePayload.
Proof.
  split.
  - intros [f r c g d k] (Hf & Hr & Hc & Hg & Hd & Hk). simpl in *. repeat split; json_strings.
  - intros [f r c g d k] (Hf & Hr & Hc & Hg & Hd & Hk). simpl in *. by json_decode.
Qed.

Record signedReferenceEnvelope := {
  se_Format : Z;
  se_Reference : signedReferencePayload;
  se_Signature : slice byte;
}.
#[export] Instance signedReferenceEnvelope_eq_dec : EqDecision signedReferenceEnvelope.
Proof. solve_decision. Defined.

Definition signedReferencePayload_zero : signedReferencePayload :=
  {| sp_Format := 0; sp_RepositoryID := RepositoryID_zero; sp_Channel := []; sp_Generation := 0;
     sp_Commit := Digest_zero; sp_KeyID := [] |}.

#[export] Instance signedReferenceEnvelope_json : JSON signedReferenceEnvelope := {
  to_json e := JObj [(str "format", JNum (se_Format e));
                     (str "reference", to_json (se_Reference e));
                     (str "signature", enc_bytes (se_Signature e))];
  of_json j :=
    fs ← obj_fields j;
    f ← fld "format" fs dec_int 0;
    r ← fld "reference" fs of_json signedReferencePayload_zero;
    s ← fld "signature" fs dec_bytes None;
    Some {| se_Format := f; se_Reference := r; se_Signature := s |};
  json_valid e := int_ok (se_Format e) ∧ json_valid (se_Reference e);
}.

#[export] Instance signedReferenceEnvelope_laws : JSONLaws signedReferenceEnvelope.
Proof.
  split.
  - intros [f r s] (Hf & Hr). apply (json_valid_wf (T:=signedReferencePayload)) in Hr.
    split; [done|]. split; [by split|]. split; [|done]. split; [done|]. apply enc_bytes_wf.
  - intros [f [f' r c g d k] s] (Hf & Hf' & Hr & Hc & Hg & Hd & Hk). simpl in *.
    json_decode. by json_decode.
Qed.

(** ** Key identifiers and the signed message *)

Definition keyIDAlphabet : bytes :=
  str "abcdefghijklmnopqrstuvwxyzABCDEFGHIJKLMNOPQRSTUVWXYZ0123456789._:-".

(** All the allowed runes are ASCII, so the test is one on bytes. *)
Definition validateReferenceKeyID (keyID : bytes) : result unit :=
  guard_err ((keyID ==? []) || (maxReferenceKeyIDBytes <? len keyID)) [ErrUntrustedReference] ?;;
  guard_err (negb (forallb (λ c, contains_byte c keyIDAlphabet) keyID)) [ErrUntrustedReference].

Definition referenceSigningMessage (payload : bytes) : bytes :=
  BigEndian_AppendUint64 signedReferenceDomain (Z.to_N (len payload)) ++ payload.

(** The framing is unambiguous. *)
Lemma referenceSigningMessage_inj p q :
  referenceSigningMessage p = referenceSigningMessage q → p = q.
Proof.
  unfold referenceSigningMessage. intros H.
  apply (f_equal (drop (length signedReferenceDomain + 8))) in H.
  rewrite !drop_app_length' in H by (by rewrite BigEndian_length). done.
Qed.

(** ** Signing *)

Section Trust.
Context {S : Type}.

Definition signSnapshotReference (channel : bytes) (reference : snapshotReference)
    (signer : option ReferenceSigner) (verifier : option ReferenceVerifier) : M eff S bytes :=
  match signer, verifier with
  | Some signer, Some verifier =>
      mguard (RepositoryID_IsZero (sg_RepositoryID signer)
              || (sg_RepositoryID signer !=? rv_RepositoryID verifier))
             [ErrUntrustedReference] ;;;
      mlift (validateReferenceKeyID (sg_KeyID signer)) ;;;
      let payload := {| sp_Format := objectFormatVersion; sp_RepositoryID := sg_RepositoryID signer;
                        sp_Channel := channel; sp_Generation := sr_Generation reference;
                        sp_Commit := sr_Commit reference; sp_KeyID := sg_KeyID signer |} in
      let payloadData := canonicalJSON payload in
      let message := referenceSigningMessage payloadData in
      signature <- mcallr (Signer_Sign message) ;;
      mguard ((len signature =? 0) || (maxReferenceSignatureSize <? len signature))
             [ErrUntrustedReference] ;;;
      mcalle (Verifier_Verify (sp_KeyID payload) message signature) ;;;
      mret (canonicalJSON {| se_Format := objectFormatVersion; se_Reference := payload;
                             se_Signature := Some signature |})
  | _, _ => mfail [ErrUntrustedReference]
  end.

(** ** Verification *)

(** The checks of a decoded envelope against the caller's context. *)
Definition envelopeContextMismatch (envelope : signedReferenceEnvelope) (channel : bytes)
    (verifier : ReferenceVerifier) : bool :=
  let payload := se_Reference envelope in
  (se_Format envelope !=? objectFormatVersion) || (sp_Format payload !=? objectFormatVersion)
  || (sp_RepositoryID payload !=? rv_RepositoryID verifier) || (sp_Channel payload !=? channel)
  || (sp_Generation payload ==? 0%N) || Digest_IsZero (sp_Commit payload)
  || (len (els (se_Signature envelope)) =? 0)
  || (maxReferenceSignatureSize <? len (els (se_Signature envelope))).

Definition verifySignedSnapshotReference (data channel : bytes)
    (verifier : option ReferenceVerifier) : M eff S snapshotReference :=
  match verifier with
  | Some verifier =>
      mguard (RepositoryID_IsZero (rv_RepositoryID verifier)) [ErrUntrustedReference] ;;;
      envelope <- mwrap (λ e, ErrInvalidReference :: e)
                    (mlift (decodeJSON (T:=signedReferenceEnvelope) data)) ;;
      let payload := se_Reference envelope in
      mguard (envelopeContextMismatch envelope channel verifier)
             [ErrInvalidReference; ErrUntrustedReference] ;;;
      mwrap (λ e, ErrInvalidReference :: e)
        (mlift (validateReferenceKeyID (sp_KeyID payload))) ;;;
      let payloadData := canonicalJSON payload in
      mwrap (λ e, ErrInvalidReference :: e)
        (mcalle (Verifier_Verify (sp_KeyID payload) (referenceSigningMessage payloadData)
                   (els (se_Signature envelope)))) ;;;
      mret {| sr_Format := sp_Format payload; sr_Generation := sp_Generation payload;
              sr_Commit := sp_Commit payload |}
  | None => mfail [ErrUntrustedReference]
  end.

(** ** [VerifySnapshotReference] *)

Record SnapshotReferenceIdentity := {
  id_RepositoryID : RepositoryID;
  id_Generation : N;
  id_Commit : Digest;
  id_Authenticated : bool;
}.

Definition VerifySnapshotReference (data channel : bytes)
    (verifier : option ReferenceVerifier) : M eff S SnapshotReferenceIdentity :=
  checkCtx ;;;
  mlift (validateChannel channel) ;;;
  mguard ((len data =? 0) || (maxReferenceBytes <? len data)) [ErrInvalidReference] ;;;
  mguard (match verifier with Some v => negb (rv_configured v) | None => false end) errorText ;;;
  reference <- match verifier with
    | None => mwrap (λ _, [ErrInvalidReference])
                (mlift (decodeJSON (T:=snapshotReference) data))
    | Some _ => verifySignedSnapshotReference data channel verifier
    end ;;
  mguard ((sr_Format reference !=? objectFormatVersion) || (sr_Generation reference ==? 0%N)
          || Digest_IsZero (sr_Commit reference)) [ErrInvalidReference] ;;;
  mret {| id_RepositoryID := match verifier with
            Some v => rv_RepositoryID v | None => RepositoryID_zero end;
          id_Generation := sr_Generation reference; id_Commit := sr_Commit reference;
          id_Authenticated := if verifier is Some _ then true else false |}.
End Trust.

Arguments signSnapshotReference : simpl never.
Arguments verifySignedSnapshotReference : simpl never.
Arguments VerifySnapshotReference : simpl never.

(** ** What a verified reference is

    [verified_by data channel v ref env]: [data] is the canonical form of the
    envelope [env], which names the repository of [v] and the channel. *)
Definition verified_by (data channel : bytes) (v : ReferenceVerifier)
    (ref : snapshotReference) (env : signedReferenceEnvelope) : Prop :=
  decodeJSON data = Ok env ∧
  data = canonicalJSON env ∧
  sp_RepositoryID (se_Reference env) = rv_RepositoryID v ∧
  sp_Channel (se_Reference env) = channel ∧
  sr_Generation ref = sp_Generation (se_Reference env) ∧
  sr_Commit ref = sp_Commit (se_Reference env) ∧
  sr_Format ref = objectFormatVersion ∧
  sr_Generation ref ≠ 0%N ∧ Digest_IsZero (sr_Commit ref) = false.

(** The call that authenticates an envelope. *)
Definition authentication (env : signedReferenceEnvelope) : event eff :=
  Ev (Verifier_Verify (sp_KeyID (se_Reference env))
        (referenceSigningMessage (canonicalJSON (se_Reference env)))
        (els (se_Signature env))) None.

Lemma envelope_context env channel v :
  envelopeContextMismatch env channel v = false →
  se_Format env = objectFormatVersion ∧ sp_Format (se_Reference env) = objectFormatVersion ∧
  sp_RepositoryID (se_Reference env) = rv_RepositoryID v ∧
  sp_Channel (se_Reference env) = channel ∧
  sp_Generation (se_Reference env) ≠ 0%N ∧ Digest_IsZero (sp_Commit (se_Reference env)) = false.
Proof.
  unfold envelopeContextMismatch. intros H. bool_prop. done.
Qed.

Lemma verifySigned_spec {S} (R : rely eff) (G : guarantee eff) data channel verifier (s : S) h :
  reads_free G →
  mwp R G (verifySignedSnapshotReference data channel verifier) s h (λ h' s' r,
    s' = s ∧
    match r with
    | Ok ref => ∃ v env, verifier = Some v ∧ verified_by data channel v ref env ∧
        h' = h ++ [authentication env]
    | Err e => True
    end).
Proof.
  intros HG. unfold verifySignedSnapshotReference. destruct verifier as [v|]; [|by mwp_go].
  repeat mwp_go; try done; try (by apply HG).
  destruct (decodeJSON data) as [env|e] eqn:Hdec; simpl; [|done].
  repeat mwp_go; try done.
  destruct (validateReferenceKeyID _); simpl; [|done].
  repeat mwp_go; try done; [by apply HG|].
  split; [done|]. exists v, env. split; [done|]. split; [|done].
  apply envelope_context in H0 as (? & ? & ? & ? & ? & ?).
  repeat split; try done. by apply decodeJSON_canonical.
Qed.

Lemma decode_envelope_generation data (env : signedReferenceEnvelope) :
  decodeJSON data = Ok env → (sp_Generation (se_Reference env) ≤ u64_max)%N.
Proof.
  intros (j & Hj)%decodeJSON_of_json. unfold of_json, signedReferenceEnvelope_json in Hj.
  option_inv. subst env. simpl. unfold fld in Hx1.
  destruct (json_field _ _) as [j'|]; [|by simplify_eq].
  unfold of_json, signedReferencePayload_json in Hx1. option_inv. subst x1. simpl.
  by eapply fld_uint_max.
Qed.

(** An envelope is accepted in one context only. *)
Lemma verified_by_context data channel channel' v v' ref ref' env env' :
  verified_by data channel v ref env → verified_by data channel' v' ref' env' →
  channel = channel' ∧ rv_RepositoryID v = rv_RepositoryID v' ∧ ref = ref'.
Proof.
  intros (D & _ & Hr & Hc & Hg & Hm & Hf & _) (D' & _ & Hr' & Hc' & Hg' & Hm' & Hf' & _).
  rewrite D in D'. simplify_eq. destruct ref, ref'; simpl in *. by split_and!; congruence.
Qed.

Lemma VerifySnapshotReference_spec {S} (R : rely eff) (G : guarantee eff)
    data channel verifier (s : S) h :
  reads_free G →
  mwp R G (VerifySnapshotReference data channel verifier) s h (λ h' s' r,
    s' = s ∧
    match r with
    | Err _ => True
    | Ok id =>
        len data ≤ maxReferenceBytes ∧ id_Generation id ≠ 0%N ∧
        Digest_IsZero (id_Commit id) = false ∧
        let ref := {| sr_Format := objectFormatVersion; sr_Generation := id_Generation id;
                      sr_Commit := id_Commit id |} in
        match verifier with
        | None => decodeJSON data = Ok ref ∧ id_Authenticated id = false
        | Some v => ∃ env, verified_by data channel v ref env ∧ id_Authenticated id = true ∧
            id_RepositoryID id = rv_RepositoryID v ∧
            h' = h ++ [Ev CtxErr None; authentication env]
        end
    end).
Proof.
  intros HG. unfold VerifySnapshotReference.
  mwp_go. mwp_go; [by apply HG|done|].
  mwp_go. mwp_go. destruct (validateChannel channel); simpl; [|done].
  do 2 (mwp_go; mwp_go; [done|]). bool_prop. mwp_go.
  destruct verifier as [v|].
  - eapply mwp_mono; [by apply verifySigned_spec|].
    intros h' s' [ref|e] [-> Hr]; [|done]. destruct Hr as (v' & env & [= <-] & Hv & ->).
    repeat mwp_go; [done|]. bool_prop. split_and!; try done.
    exists env. rewrite <- app_assoc. split_and!; try done.
    destruct ref; simpl in *. by subst.
  - repeat mwp_go. destruct (decodeJSON data) as [ref|e] eqn:D; simpl; [|done].
    repeat mwp_go; [done|]. bool_prop. split_and!; try done.
    destruct ref; simpl in *. by subst.
Qed.

(** Verification writes nothing. *)
Lemma verifySigned_reading {S} (R : rely eff) (G : guarantee eff) data channel verifier :
  reads_free G →
  reading (S:=S) G R (verifySignedSnapshotReference data channel verifier) (λ _, True).
Proof.
  intros HG. unfold verifySignedSnapshotReference. destruct verifier as [v|]; [|by rd_step].
  do 2 rd_step; [done|]. do 3 rd_step. destruct (decodeJSON data); simpl; [|done].
  do 2 rd_step; [done|]. do 3 rd_step.
  destruct (validateReferenceKeyID _); simpl; [|done]. do 2 rd_step. rd_step; [|done]. by rd_step.
Qed.

Lemma VerifySnapshotReference_reads {S} (R : rely eff) (G : guarantee eff)
    data channel verifier (s : S) h :
  reads_free G →
  mwp R G (VerifySnapshotReference data channel verifier) s h (λ h' _ _, ext_reads h h').
Proof.
  intros HG.
  assert (reading (S:=S) G R (VerifySnapshotReference data channel verifier) (λ _, True)) as Hr.
  { unfold VerifySnapshotReference. do 2 rd_step; [|done]. do 2 rd_step.
    destruct (validateChannel channel); simpl; [|done]. do 2 (do 2 rd_step; [done|]). rd_step.
    destruct verifier as [v|].
    - eapply reading_mono; [by apply verifySigned_reading|]. intros [ref|e] _; [|done].
      do 2 rd_step; [done|]. by rd_step.
    - do 2 rd_step. destruct (decodeJSON data); simpl; [|done]. do 2 rd_step; [done|]. by rd_step. }
  eapply mwp_mono; [apply Hr|]. by intros h' s' r (_ & ? & _).
Qed.

(** ** Properties *)

(** C6: authenticity of references.  With a verifier configured,
    [VerifySnapshotReference] accepts only bytes that are the canonical form of
    an envelope for the verifier's repository and the requested channel, names
    a positive generation and a non-zero commit, and it accepts them only after
    the verifier answered nil to the domain-separated canonical payload and the
    envelope's own signature; this holds for every behaviour of the verifier
    and the context. *)
Theorem VerifySnapshotReference_authentic {S} (data channel : bytes) (v : ReferenceVerifier)
    (s : S) (h : history eff) :
  mwp any_rely any_call (VerifySnapshotReference data channel (Some v)) s h (λ h' _ r,
    ∀ id, r = Ok id →
      id_Authenticated id = true ∧ id_RepositoryID id = rv_RepositoryID v ∧
      ∃ env, authentication env ∈ h' ∧
        verified_by data channel v {| sr_Format := objectFormatVersion;
          sr_Generation := id_Generation id; sr_Commit := id_Commit id |} env).
Proof.
  eapply mwp_mono; [by apply VerifySnapshotReference_spec|].
  intros h' s' r [_ Hr] id ->. destruct Hr as (_ & _ & _ & env & Hv & Ha & Hid & ->).
  split_and!; try done. exists env. split; [|done].
  apply elem_of_app. right. right. by left.
Qed.

(** Context binding.  The same reference bytes cannot be accepted for two
    different channels, or by verifiers of two different repositories, or as
    two different references. *)
Theorem VerifySnapshotReference_context_bound {S} (data channel channel' : bytes)
    (v v' : ReferenceVerifier) (s : S) (h : history eff) :
  (channel, rv_RepositoryID v) ≠ (channel', rv_RepositoryID v') →
  mwp any_rely any_call (VerifySnapshotReference data channel (Some v)) s h (λ h1 s1 r1,
    ∀ id, r1 = Ok id →
    mwp any_rely any_call (VerifySnapshotReference data channel' (Some v')) s1 h1 (λ _ _ r2,
      is_ok r2 = false)).
Proof.
  intros Hne. eapply mwp_mono; [by apply VerifySnapshotReference_spec|].
  intros h1 s1 r1 [_ H1] id ->. eapply mwp_mono; [by apply VerifySnapshotReference_spec|].
  intros h2 s2 [id'|e] [_ H2]; [|done].
  destruct H1 as (_ & _ & _ & env & V & _), H2 as (_ & _ & _ & env' & V' & _).
  destruct (verified_by_context _ _ _ _ _ _ _ _ _ V V') as (-> & E & _).
  destruct Hne. by rewrite E.
Qed.

Lemma VerifySnapshotReference_context_bound_witness :
  let v := {| rv_configured := true; rv_offline := true; rv_RepositoryID := fixture_digest 1 |} in
  mwp any_rely any_call (VerifySnapshotReference (str "{}") (str "main") (Some v)) tt [] (λ h1 s1 r1,
    ∀ id, r1 = Ok id →
    mwp any_rely any_call (VerifySnapshotReference (str "{}") (str "dev") (Some v)) s1 h1 (λ _ _ r2,
      is_ok r2 = false)).
Proof. apply VerifySnapshotReference_context_bound. by vm_compute. Defined.

(** The environment of a process that keeps one verifier and is not cancelled:
    [vf] is the verifier's decision. *)
Definition trust_rely (vf : bytes → bytes → bytes → option error) : rely eff :=
  λ _ X e x,
    match e in eff T return T → Prop with
    | CtxErr => λ x, x = None
    | Verifier_Verify k m s => λ x, x = vf k m s
    | _ => λ _, True
    end x.

(** What [signSnapshotReference] returns. *)
Lemma signSnapshotReference_spec {S} vf (G : guarantee eff) channel reference signer verifier (s : S) h :
  reads_free G →
  mwp (trust_rely vf) G (signSnapshotReference channel reference signer verifier) s h (λ h' s' r,
    s' = s ∧
    match r with
    | Err _ => True
    | Ok data => ∃ sg v sig,
        signer = Some sg ∧ verifier = Some v ∧
        RepositoryID_IsZero (sg_RepositoryID sg) = false ∧
        sg_RepositoryID sg = rv_RepositoryID v ∧
        validateReferenceKeyID (sg_KeyID sg) = Ok tt ∧
        0 < len sig ≤ maxReferenceSignatureSize ∧
        let payload := {| sp_Format := objectFormatVersion; sp_RepositoryID := sg_RepositoryID sg;
                          sp_Channel := channel; sp_Generation := sr_Generation reference;
                          sp_Commit := sr_Commit reference; sp_KeyID := sg_KeyID sg |} in
        vf (sg_KeyID sg) (referenceSigningMessage (canonicalJSON payload)) sig = None ∧
        data = canonicalJSON {| se_Format := objectFormatVersion; se_Reference := payload;
                                se_Signature := Some sig |}
    end).
Proof.
  intros HG. unfold signSnapshotReference.
  destruct signer as [sg|], verifier as [v|]; try by mwp_go.
  do 2 mwp_go; [done|]. do 2 mwp_go.
  destruct (validateReferenceKeyID (sg_KeyID sg)) as [[]|] eqn:Hk; simpl; [|done].
  do 2 mwp_go; [by apply HG| |done]. do 2 mwp_go; [done|]. mwp_go. mwp_go; [by apply HG| |done].
  mwp_go. bool_prop. split; [done|]. pose proof (len_nonneg a). exists sg, v, a.
  split_and!; try done; lia.
Qed.

Lemma keyID_utf8 k : validateReferenceKeyID k = Ok tt → utf8_ok k.
Proof.
  unfold validateReferenceKeyID. intros H. ok_inv. bool_prop.
  apply valid_utf8_ascii. apply Forall_forall. intros c Hc.
  apply forallb_forall with (x:=c) in H; [|by apply list_elem_of_In].
  revert H. clear. destruct c; (try by vm_compute); by vm_compute.
Qed.

(** ** The built-in Ed25519 signer and verifier *)

(** The package crypto/ed25519: the law is that of its documentation. *)
Class Ed25519 := {
  ed25519_Public : bytes → bytes;
  ed25519_Sign : bytes → bytes → bytes;
  ed25519_Verify : bytes → bytes → bytes → bool;
}.
Class Ed25519Laws `{Ed25519} := {
  ed25519_complete key message :
    len key = 64 → ed25519_Verify (ed25519_Public key) message (ed25519_Sign key message) = true;
  ed25519_Sign_size key message : len key = 64 → len (ed25519_Sign key message) = 64;
}.

Definition ed25519_PrivateKeySize : Z := 64.
Definition ed25519_PublicKeySize : Z := 32.
Definition ed25519_SignatureSize : Z := 64.

Record Ed25519ReferenceSigner := {
  es_repositoryID : RepositoryID;
  es_keyID : bytes;
  es_privateKey : bytes;
}.
Record Ed25519ReferenceVerifier := {
  ev_repositoryID : RepositoryID;
  ev_publicKeys : gmap bytes bytes;
}.

Definition NewEd25519ReferenceSigner (repositoryID : RepositoryID) (keyID privateKey : bytes)
    : result Ed25519ReferenceSigner :=
  guard_err (RepositoryID_IsZero repositoryID) errorText ?;;
  validateReferenceKeyID keyID ?;;
  guard_err (len privateKey !=? ed25519_PrivateKeySize) errorText ?;;
  Ok {| es_repositoryID := repositoryID; es_keyID := keyID; es_privateKey := privateKey |}.

(** The loop over the keyring, in some order. *)
Fixpoint checkKeyring (keys : list (bytes * bytes)) : result unit :=
  match keys with
  | [] => Ok tt
  | (keyID, publicKey) :: keys' =>
      validateReferenceKeyID keyID ?;;
      guard_err (len publicKey !=? ed25519_PublicKeySize) errorText ?;;
      checkKeyring keys'
  end.

Definition NewEd25519ReferenceVerifier (repositoryID : RepositoryID)
    (publicKeys : gmap bytes bytes) : result Ed25519ReferenceVerifier :=
  guard_err (RepositoryID_IsZero repositoryID) errorText ?;;
  guard_err ((Z.of_nat (size publicKeys) =? 0) || (1024 <? Z.of_nat (size publicKeys))) errorText ?;;
  checkKeyring (map_to_list publicKeys) ?;;
  Ok {| ev_repositoryID := repositoryID; ev_publicKeys := publicKeys |}.

Section Ed25519.
Context `{Ed25519Laws}.

(** After the context check. *)
Definition Ed25519ReferenceSigner_Sign (signer : Ed25519ReferenceSigner) (ctxErr : option error)
    (message : bytes) : result bytes :=
  match ctxErr with
  | Some e => Err e
  | None => Ok (ed25519_Sign (es_privateKey signer) message)
  end.

Definition Ed25519ReferenceVerifier_Verify (verifier : Ed25519ReferenceVerifier)
    (ctxErr : option error) (keyID message signature : bytes) : option error :=
  match ctxErr with
  | Some e => Some e
  | None =>
      match ev_publicKeys verifier !! keyID with
      | None => Some [ErrUntrustedReference]
      | Some publicKey =>
          if (len signature !=? ed25519_SignatureSize)
             || negb (ed25519_Verify publicKey message signature)
          then Some [ErrUntrustedReference] else None
      end
  end.

(** The interface values. *)
Definition as_signer (s : Ed25519ReferenceSigner) : ReferenceSigner :=
  {| sg_configured := true; sg_RepositoryID := es_repositoryID s; sg_KeyID := es_keyID s |}.
Definition as_verifier (v : Ed25519ReferenceVerifier) : ReferenceVerifier :=
  {| rv_configured := true; rv_offline := true; rv_RepositoryID := ev_repositoryID v |}.

(** The environment that serves both from the built-in implementation. *)
Definition ed25519_handler (signer : Ed25519ReferenceSigner) (verifier : Ed25519ReferenceVerifier)
    : handler eff unit :=
  λ X e w, (w,
    match e in eff T return T with
    | CtxErr => None
    | Signer_Sign m => Ed25519ReferenceSigner_Sign signer None m
    | Verifier_Verify k m s => Ed25519ReferenceVerifier_Verify verifier None k m s
    | e' => refuse e'
    end).

(** The keyring check accepts a prefix-closed set of keys. *)
Lemma checkKeyring_spec keys :
  checkKeyring keys = Ok tt →
  Forall (λ k, validateReferenceKeyID k.1 = Ok tt ∧ len k.2 = ed25519_PublicKeySize) keys.
Proof.
  induction keys as [|[k p] keys IH]; simpl; intros Hc; [constructor|].
  ok_inv. bool_prop. destruct v. constructor; [done|by apply IH].
Qed.

(** The signed envelope of a reference. *)
Definition ed25519_envelope (signer : Ed25519ReferenceSigner) (channel : bytes)
    (reference : snapshotReference) : signedReferenceEnvelope :=
  let payload := {| sp_Format := objectFormatVersion; sp_RepositoryID := es_repositoryID signer;
                    sp_Channel := channel; sp_Generation := sr_Generation reference;
                    sp_Commit := sr_Commit reference; sp_KeyID := es_keyID signer |} in
  {| se_Format := objectFormatVersion; se_Reference := payload;
     se_Signature := Some (ed25519_Sign (es_privateKey signer)
                             (referenceSigningMessage (canonicalJSON payload))) |}.

Lemma NewSigner_ok repositoryID keyID privateKey signer :
  NewEd25519ReferenceSigner repositoryID keyID privateKey = Ok signer →
  signer = {| es_repositoryID := repositoryID; es_keyID := keyID; es_privateKey := privateKey |} ∧
  RepositoryID_IsZero repositoryID = false ∧ validateReferenceKeyID keyID = Ok tt ∧
  len privateKey = 64.
Proof.
  unfold NewEd25519ReferenceSigner. intros Hs. ok_inv. bool_prop. by destruct v0.
Qed.

Lemma NewVerifier_ok repositoryID publicKeys verifier :
  NewEd25519ReferenceVerifier repositoryID publicKeys = Ok verifier →
  verifier = {| ev_repositoryID := repositoryID; ev_publicKeys := publicKeys |}.
Proof. unfold NewEd25519ReferenceVerifier. intros Hs. by ok_inv. Qed.

Lemma run_sign repositoryID keyID privateKey publicKeys channel reference signer verifier :
  NewEd25519ReferenceSigner repositoryID keyID privateKey = Ok signer →
  NewEd25519ReferenceVerifier repositoryID publicKeys = Ok verifier →
  publicKeys !! keyID = Some (ed25519_Public privateKey) →
  run (ed25519_handler signer verifier)
    (signSnapshotReference channel reference (Some (as_signer signer))
       (Some (as_verifier verifier)) tt) tt
  = (tt, (tt, Ok (canonicalJSON (ed25519_envelope signer channel reference)))).
Proof.
  intros (-> & Hz & Hid & Hlen)%NewSigner_ok ->%NewVerifier_ok Hk.
  unfold signSnapshotReference. simpl.
  erun. rewrite Hz, bool_decide_true by done. erun. rewrite Hid. erun.
  rewrite ed25519_Sign_size by done. erun. unfold Ed25519ReferenceVerifier_Verify; simpl.
  rewrite Hk, ?ed25519_Sign_size, ed25519_complete by done. done.
Qed.

Lemma run_verify repositoryID keyID privateKey publicKeys channel reference signer verifier :
  NewEd25519ReferenceSigner repositoryID keyID privateKey = Ok signer →
  NewEd25519ReferenceVerifier repositoryID publicKeys = Ok verifier →
  publicKeys !! keyID = Some (ed25519_Public privateKey) →
  decodeJSON (canonicalJSON (ed25519_envelope signer channel reference))
    = Ok (ed25519_envelope signer channel reference) →
  sr_Generation reference ≠ 0%N → Digest_IsZero (sr_Commit reference) = false →
  run (ed25519_handler signer verifier)
    (verifySignedSnapshotReference (canonicalJSON (ed25519_envelope signer channel reference))
       channel (Some (as_verifier verifier)) tt) tt
  = (tt, (tt, Ok {| sr_Format := objectFormatVersion; sr_Generation := sr_Generation reference;
                    sr_Commit := sr_Commit reference |})).
Proof.
  intros (-> & Hz & Hid & Hlen)%NewSigner_ok ->%NewVerifier_ok Hk Hd Hg Hc.
  unfold verifySignedSnapshotReference.
  erun. rewrite Hz. erun. rewrite Hd. erun. unfold envelopeContextMismatch; simpl.
  rewrite Hc, (bool_decide_true (repositoryID = _)), (bool_decide_true (channel = _)),
    (bool_decide_false (_ = 0%N)) by done.
  rewrite ed25519_Sign_size by done. erun. rewrite Hid. erun.
  unfold Ed25519ReferenceVerifier_Verify; simpl.
  rewrite Hk, ?ed25519_Sign_size, ed25519_complete by done. done.
Qed.

Lemma validateChannel_utf8 channel : validateChannel channel = Ok tt → utf8_ok channel.
Proof. unfold validateChannel. intros Hc. ok_inv. by bool_prop. Qed.

Lemma ed25519_envelope_valid repositoryID keyID privateKey channel reference signer :
  NewEd25519ReferenceSigner repositoryID keyID privateKey = Ok signer →
  digest_wf repositoryID → validateChannel channel = Ok tt → json_valid reference →
  json_valid (ed25519_envelope signer channel reference).
Proof.
  intros (-> & _ & Hk & _)%NewSigner_ok Hid Hch (_ & Hg & Hc). split; [done|]. split_and!; try done.
  - by apply validateChannel_utf8.
  - by apply keyID_utf8.
Qed.

(** Signing round trip.  With a signer and a keyring that the constructors
    accept, the keyring holding the signer's public key under its key ID, a
    reference with a positive generation and a non-zero commit that is signed
    for a valid channel is accepted by [VerifySnapshotReference] on that
    channel with the same generation and commit, when the envelope is within
    the reference size limit. *)
Theorem sign_verify_roundtrip repositoryID keyID privateKey publicKeys channel reference signer verifier :
  NewEd25519ReferenceSigner repositoryID keyID privateKey = Ok signer →
  NewEd25519ReferenceVerifier repositoryID publicKeys = Ok verifier →
  publicKeys !! keyID = Some (ed25519_Public privateKey) →
  digest_wf repositoryID → validateChannel channel = Ok tt →
  json_valid reference → sr_Generation reference ≠ 0%N →
  Digest_IsZero (sr_Commit reference) = false →
  len (canonicalJSON (ed25519_envelope signer channel reference)) ≤ maxReferenceBytes →
  run (ed25519_handler signer verifier)
    ((data <- signSnapshotReference channel reference (Some (as_signer signer))
                (Some (as_verifier verifier)) ;;
      VerifySnapshotReference data channel (Some (as_verifier verifier))) tt) tt
  = (tt, (tt, Ok {| id_RepositoryID := repositoryID; id_Generation := sr_Generation reference;
                    id_Commit := sr_Commit reference; id_Authenticated := true |})).
Proof.
  intros Hs Hv Hk Hid Hch Hj Hg Hc Hlen.
  rewrite run_mbind, (run_sign _ _ _ _ _ _ _ _ Hs Hv Hk).
  assert (decodeJSON (canonicalJSON (ed25519_envelope signer channel reference))
    = Ok (ed25519_envelope signer channel reference)) as Hd.
  { apply decode_encode.
    - by apply (ed25519_envelope_valid repositoryID keyID privateKey).
    - etransitivity; [exact Hlen|by vm_compute]. }
  pose proof (run_verify _ _ _ _ _ _ _ _ Hs Hv Hk Hd Hg Hc) as Hrun.
  unfold VerifySnapshotReference. erun. rewrite Hch. erun.
  erewrite canonicalJSON_nonempty by reflexivity.
  destruct (Z.ltb_spec maxReferenceBytes
    (len (canonicalJSON (ed25519_envelope signer channel reference)))); [lia|]. simpl.
  erun. rewrite Hrun. erun. rewrite Hc, (bool_decide_false (_ = 0%N)) by done. simpl.
  by apply NewVerifier_ok in Hv as ->.
Qed.
End Ed25519.

(** A keyed scheme that meets the law, for executions. *)
Definition toy_ed25519 : Ed25519 := {|
  ed25519_Public key := sha256 key;
  ed25519_Sign key message := sha256 key ++ sha256 message;
  ed25519_Verify public message signature := signature ==? public ++ sha256 message;
|}.
Definition toy_ed25519_laws : Ed25519Laws (H:=toy_ed25519).
Proof.
  split; simpl; intros key message _; [by rewrite bool_decide_true|].
  unfold len. by rewrite length_app, !sha256_length.
Qed.

Definition toy_key : bytes := replicate 64 x42.
Definition toy_reference : snapshotReference :=
  {| sr_Format := 1; sr_Generation := 42; sr_Commit := fixture_digest 160 |}.
Definition toy_signer : Ed25519ReferenceSigner :=
  {| es_repositoryID := fixture_digest 1; es_keyID := str "key-2026"; es_privateKey := toy_key |}.
Definition toy_keyring : gmap bytes bytes := {[ str "key-2026" := sha256 toy_key ]}.
Definition toy_verifier : Ed25519ReferenceVerifier :=
  {| ev_repositoryID := fixture_digest 1; ev_publicKeys := toy_keyring |}.

Lemma sign_verify_roundtrip_witness :
  run (ed25519_handler (H:=toy_ed25519) toy_signer toy_verifier)
    ((data <- signSnapshotReference (str "release/main") toy_reference
                (Some (as_signer toy_signer)) (Some (as_verifier toy_verifier)) ;;
      VerifySnapshotReference data (str "release/main") (Some (as_verifier toy_verifier))) tt) tt
  = (tt, (tt, Ok {| id_RepositoryID := fixture_digest 1; id_Generation := 42;
                    id_Commit := fixture_digest 160; id_Authenticated := true |})).
Proof.
  apply (@sign_verify_roundtrip toy_ed25519 toy_ed25519_laws (fixture_digest 1) (str "key-2026")
           toy_key toy_keyring (str "release/main") toy_reference toy_signer toy_verifier);
    try (by vm_compute).
Defined.

(** The golden vector of [TestSignedReferenceGoldenVector]. *)
Example golden_signed_reference :
  canonicalJSON {| se_Format := 1; se_Reference :=
    {| sp_Format := 1; sp_RepositoryID := fixture_digest 0; sp_Channel := str "release/main";
       sp_Generation := 42; sp_Commit := fixture_digest 160; sp_KeyID := str "key-2026" |};
    se_Signature := base64_StdEncoding_DecodeString (str "1FHEqLFCAyEhItXmxOBeOMVP2CGwaFe4YDCDNwImH6cemsDHqUH2LrLuacTJsSveeI9HXCA+XKO67E8i5RtyBA==") |}
  = quote_json "{'format':1,'reference':{'format':1,'repository_id':'000102030405060708090a0b0c0d0e0f101112131415161718191a1b1c1d1e1f','channel':'release/main','generation':42,'commit':'a0a1a2a3a4a5a6a7a8a9aaabacadaeafb0b1b2b3b4b5b6b7b8b9babbbcbdbebf','key_id':'key-2026'},'signature':'1FHEqLFCAyEhItXmxOBeOMVP2CGwaFe4YDCDNwImH6cemsDHqUH2LrLuacTJsSveeI9HXCA+XKO67E8i5RtyBA=='}".
Proof. by vm_compute. Qed.
