(* ===== verification/MemStore.v ===== *)
(** * The object-store contract and the in-memory store ([store.go], [memstore])

    [StoreContract] is the documented contract of a Store for the calls made
    on one implementation, in the order they take effect: what the current
    content of a key is, when a conditional write applies and what a failed one
    leaves.  The in-memory store implements it; the repository's theorems about
    stored data are proved against the class. *)

From S2P Require Import Prelude.
From S2P Require Import Prog.
From S2P Require Import GoStd.
From S2P Require Import Encoding.
From S2P Require Import Sha256.
From S2P Require Import Model.
From S2P Require Import Effects.

(** ** The contract *)

Class StoreOps (W : Type) := {
  st_Get : W → bytes → GetOptions → W * result Object;
  st_Head : W → bytes → W * result Version;
  st_PutIfAbsent : W → bytes → bytes → W * result Version;
  st_CompareAndSwap : W → bytes → option Version → bytes → W * result Version;
  (** the current object of each key *)
  st_objects : W → gmap bytes Object;
}.

(** An implementation may also refuse a write, for instance one that is too
    large, with any other error and no change. *)
Definition refused {W} `{StoreOps W} (w w' : W) (r : result Version) : Prop :=
  st_objects w' = st_objects w ∧ ∃ e, r = Err e.

Class StoreContract (W : Type) `{StoreOps W} := {
  st_Get_objects (w : W) k o : st_objects (st_Get w k o).1 = st_objects w;
  st_Get_absent (w : W) k o :
    st_objects w !! k = None → (st_Get w k o).2 = Err [ErrObjectNotFound];
  st_Get_present (w : W) k o ob :
    st_objects w !! k = Some ob → 0 ≤ go_MaxBytes o →
    (st_Get w k o).2 =
      if (go_IfNoneMatch o !=? []) && (go_IfNoneMatch o ==? v_ETag (ob_Version ob))
      then Err [ErrNotModified]
      else if (0 <? go_MaxBytes o) && (go_MaxBytes o <? len (ob_Data ob))
      then Err [ErrResourceLimit] else Ok ob;
  st_Head_objects (w : W) k : st_objects (st_Head w k).1 = st_objects w;
  st_Head_spec (w : W) k :
    (st_Head w k).2 = match st_objects w !! k with
                      | Some ob => Ok (ob_Version ob) | None => Err [ErrObjectNotFound] end;
  st_Put_absent (w : W) k d :
    st_objects w !! k = None →
    let '(w', r) := st_PutIfAbsent w k d in
    refused w w' r ∨
    ∃ v, r = Ok v ∧ validateStoreVersion v = Ok tt ∧
      st_objects w' = <[k := {| ob_Data := d; ob_Version := v |}]> (st_objects w);
  st_Put_present (w : W) k d ob :
    st_objects w !! k = Some ob →
    let '(w', r) := st_PutIfAbsent w k d in refused w w' r;
  st_CAS_spec (w : W) k expected d :
    let '(w', r) := st_CompareAndSwap w k expected d in
    refused w w' r ∨
    (match expected with
     | None => st_objects w !! k = None
     | Some e => ∃ ob, st_objects w !! k = Some ob ∧ v_ETag (ob_Version ob) = v_ETag e ∧
                   v_ETag e ≠ []
     end ∧ ∃ v, r = Ok v ∧ validateStoreVersion v = Ok tt ∧
      st_objects w' = <[k := {| ob_Data := d; ob_Version := v |}]> (st_objects w));
}.

(** Serves the store calls of a program from an implementation, on a live
    context; other calls go to [other]. *)
Definition store_handler {W} `{StoreOps W} (other : ∀ X, eff X → X) : handler eff W :=
  λ X e w,
    match e in eff T return W * T with
    | Store_Get k o => st_Get w k o
    | Store_Head k => st_Head w k
    | Store_PutIfAbsent k d => st_PutIfAbsent w k d
    | Store_CompareAndSwap k v d => st_CompareAndSwap w k v d
    | e' => (w, other _ e')
    end.

(** ** The in-memory store *)

Record Stats := {
  s_Gets : Z; s_Heads : Z; s_Puts : Z; s_BytesRead : Z; s_BytesWritten : Z;
  s_ChunkGets : Z; s_ChunkBytesRead : Z; s_ChunkPuts : Z;
}.
Definition Stats_zero : Stats :=
  {| s_Gets := 0; s_Heads := 0; s_Puts := 0; s_BytesRead := 0; s_BytesWritten := 0;
     s_ChunkGets := 0; s_ChunkBytesRead := 0; s_ChunkPuts := 0 |}.

Record Store := {
  ms_objects : gmap bytes Object;
  ms_serial : N;
  ms_stats : Stats;
}.

Definition New : Store := {| ms_objects := ∅; ms_serial := 0; ms_stats := Stats_zero |}.

Definition ClientEncryptionMaxPlaintextBytes : Z := Z.shiftl 64 20.
Definition ClientEncryptionCiphertextOverhead : Z := 8 + 16 + 12 + 16.
Definition maxObjectBytes : Z :=
  ClientEncryptionMaxPlaintextBytes + ClientEncryptionCiphertextOverhead.

Definition checkObjectSize (data : bytes) : result unit :=
  guard_err (maxObjectBytes <? len data) [ErrResourceLimit].

Definition isChunk (key : bytes) : bool := Contains key (str "/objects/chunk/").

(** The counters are int64. *)
Definition count_get (key : bytes) (n : Z) (s : Stats) : Stats :=
  let c := isChunk key in
  {| s_Gets := int64_wrap (s_Gets s + 1); s_Heads := s_Heads s; s_Puts := s_Puts s;
     s_BytesRead := int64_wrap (s_BytesRead s + n); s_BytesWritten := s_BytesWritten s;
     s_ChunkGets := if c then int64_wrap (s_ChunkGets s + 1) else s_ChunkGets s;
     s_ChunkBytesRead := if c then int64_wrap (s_ChunkBytesRead s + n) else s_ChunkBytesRead s;
     s_ChunkPuts := s_ChunkPuts s |}.
Definition count_head (s : Stats) : Stats :=
  {| s_Gets := s_Gets s; s_Heads := int64_wrap (s_Heads s + 1); s_Puts := s_Puts s;
     s_BytesRead := s_BytesRead s; s_BytesWritten := s_BytesWritten s;
     s_ChunkGets := s_ChunkGets s; s_ChunkBytesRead := s_ChunkBytesRead s;
     s_ChunkPuts := s_ChunkPuts s |}.
Definition count_put (key : bytes) (n : Z) (s : Stats) : Stats :=
  {| s_Gets := s_Gets s; s_Heads := s_Heads s; s_Puts := int64_wrap (s_Puts s + 1);
     s_BytesRead := s_BytesRead s; s_BytesWritten := int64_wrap (s_BytesWritten s + n);
     s_ChunkGets := s_ChunkGets s; s_ChunkBytesRead := s_ChunkBytesRead s;
     s_ChunkPuts := if isChunk key then int64_wrap (s_ChunkPuts s + 1) else s_ChunkPuts s |}.

Definition set_stats (store : Store) (s : Stats) : Store :=
  {| ms_objects := ms_objects store; ms_serial := ms_serial store; ms_stats := s |}.

(** Each method takes the answer of its [ctx.Err()] call. *)
Definition Get (ctxErr : option error) (store : Store) (key : bytes) (options : GetOptions)
    : Store * result Object :=
  match ctxErr with
  | Some e => (store, Err e)
  | None =>
      match ms_objects store !! key with
      | None => (store, Err [ErrObjectNotFound])
      | Some record =>
          if (go_IfNoneMatch options !=? [])
             && (go_IfNoneMatch options ==? v_ETag (ob_Version record))
          then (store, Err [ErrNotModified])
          else if go_MaxBytes options <? 0 then (store, Err [ErrResourceLimit])
          else if (0 <? go_MaxBytes options) && (go_MaxBytes options <? len (ob_Data record))
          then (store, Err [ErrResourceLimit])
          else (set_stats store (count_get key (len (ob_Data record)) (ms_stats store)),
                Ok {| ob_Data := ob_Data record; ob_Version := ob_Version record |})
      end
  end.

Definition Head (ctxErr : option error) (store : Store) (key : bytes) : Store * result Version :=
  match ctxErr with
  | Some e => (store, Err e)
  | None =>
      let store' := set_stats store (count_head (ms_stats store)) in
      match ms_objects store !! key with
      | None => (store', Err [ErrObjectNotFound])
      | Some record => (store', Ok (ob_Version record))
      end
  end.

Definition putLocked (store : Store) (key data : bytes) : Store * Version :=
  let serial := u64_add (ms_serial store) 1 in
  let version := {| v_ETag := [x22] ++ hex_EncodeToString (sha256 data) ++ [x22];
                    v_VersionID := str "memory-" ++ format_uint serial |} in
  ({| ms_objects := <[key := {| ob_Data := data; ob_Version := version |}]> (ms_objects store);
      ms_serial := serial;
      ms_stats := count_put key (len data) (ms_stats store) |}, version).

Definition PutIfAbsent (ctxErr : option error) (store : Store) (key data : bytes)
    : Store * result Version :=
  match ctxErr with
  | Some e => (store, Err e)
  | None =>
      match checkObjectSize data with
      | Err e => (store, Err e)
      | Ok _ =>
          match ms_objects store !! key with
          | Some _ => (store, Err [ErrPrecondition])
          | None => let '(store', version) := putLocked store key data in (store', Ok version)
          end
      end
  end.

Definition CompareAndSwap (ctxErr : option error) (store : Store) (key : bytes)
    (expected : option Version) (data : bytes) : Store * result Version :=
  match ctxErr with
  | Some e => (store, Err e)
  | None =>
      match checkObjectSize data with
      | Err e => (store, Err e)
      | Ok _ =>
          let current := ms_objects store !! key in
          match expected with
          | None =>
              if bool_decide (is_Some current) then (store, Err [ErrPrecondition])
              else let '(store', version) := putLocked store key data in (store', Ok version)
          | Some expected =>
              if v_ETag expected ==? [] then (store, Err errorText)
              else
                match current with
                | None => (store, Err [ErrPrecondition])
                | Some record =>
                    if v_ETag (ob_Version record) !=? v_ETag expected
                    then (store, Err [ErrPrecondition])
                    else let '(store', version) := putLocked store key data in (store', Ok version)
                end
          end
      end
  end.

Definition Delete (ctxErr : option error) (store : Store) (key : bytes) : Store * option error :=
  match ctxErr with
  | Some e => (store, Some e)
  | None => ({| ms_objects := delete key (ms_objects store); ms_serial := ms_serial store;
                ms_stats := ms_stats store |}, None)
  end.

Definition ForcePut (store : Store) (key data : bytes) : Store := (putLocked store key data).1.

Definition ResetStats (store : Store) : Store := set_stats store Stats_zero.

#[export] Instance memstore_ops : StoreOps Store := {
  st_Get := Get None;
  st_Head := Head None;
  st_PutIfAbsent := PutIfAbsent None;
  st_CompareAndSwap := CompareAndSwap None;
  st_objects := ms_objects;
}.

(** ** Lemmas *)

(** Decimal digits are fewer than bits. *)
Lemma little_double_digits u :
  (Decimal.nb_digits (Decimal.Little.double u) ≤ Decimal.nb_digits u + 1)%nat ∧
  (Decimal.nb_digits (Decimal.Little.succ_double u) ≤ Decimal.nb_digits u + 1)%nat.
Proof. induction u; simpl in *; lia. Qed.

Lemma little_uint_digits p :
  (Decimal.nb_digits (Pos.to_little_uint p) ≤ Pos.size_nat p)%nat.
Proof.
  induction p as [p IH|p IH|]; simpl; [| |lia];
    pose proof (little_double_digits (Pos.to_little_uint p)); lia.
Qed.

Lemma revapp_digits u v :
  Decimal.nb_digits (Decimal.revapp u v) = (Decimal.nb_digits u + Decimal.nb_digits v)%nat.
Proof. revert v. induction u; intros v; simpl; try rewrite IHu; simpl; lia. Qed.

Lemma uint_bytes_length u : length (uint_bytes u) = Decimal.nb_digits u.
Proof. induction u; simpl; lia. Qed.

Lemma size_nat_bound p k : (Zpos p < 2 ^ Z.of_nat k)%Z → (Pos.size_nat p ≤ k)%nat.
Proof.
  revert k. induction p as [p IH|p IH|]; intros k Hp; destruct k as [|k];
    try (simpl in Hp; lia); simpl; try lia;
    rewrite Nat2Z.inj_succ, Z.pow_succ_r in Hp by lia;
    apply le_n_S, IH; lia.
Qed.

Lemma format_uint_length n : (n ≤ u64_max)%N → len (format_uint n) ≤ 64.
Proof.
  intros Hn. unfold len, format_uint. rewrite uint_bytes_length.
  destruct n as [|p]; simpl; [lia|]. unfold Pos.to_uint, Decimal.rev.
  rewrite revapp_digits. pose proof (little_uint_digits p).
  assert (Pos.size_nat p ≤ 64)%nat; [|simpl; lia].
  apply size_nat_bound. change (2 ^ Z.of_nat 64) with 18446744073709551616.
  unfold u64_max in Hn. lia.
Qed.

(** Every version the store hands out is acceptable. *)
Lemma putLocked_version store key data :
  validateStoreVersion (putLocked store key data).2 = Ok tt.
Proof.
  unfold validateStoreVersion, putLocked; simpl. unfold len.
  set (n := u64_add _ _). assert (n ≤ u64_max)%N as Hn.
  { unfold n, u64_add. pose proof (N.mod_lt (ms_serial store + 1) (u64_max + 1)). lia. }
  pose proof (format_uint_length n Hn) as Hf. unfold len in Hf.
  simpl. rewrite !length_app, hex_encode_length, sha256_length.
  replace (MaxStoreVersionTokenBytes <? _) with false by (symmetry; apply Z.ltb_ge; by vm_compute).
  replace (MaxStoreVersionTokenBytes <? _) with false; [done|].
  symmetry. apply Z.ltb_ge. change MaxStoreVersionTokenBytes with 4096. simpl. lia.
Qed.

Lemma putLocked_objects store key data :
  ms_objects (putLocked store key data).1
  = <[key := {| ob_Data := data; ob_Version := (putLocked store key data).2 |}]> (ms_objects store).
Proof. done. Qed.

(** The in-memory store keeps the contract of [store.go]. *)
#[export] Instance memstore_contract : StoreContract Store.
Proof.
  split; simpl; unfold refused; simpl.
  - intros w k o. unfold Get. repeat case_match; done.
  - intros w k o Hk. unfold Get. by rewrite Hk.
  - intros w k o ob Hk Ho. unfold Get. rewrite Hk.
    replace (go_MaxBytes o <? 0) with false by (symmetry; by apply Z.ltb_ge).
    repeat case_match; try done. by destruct ob.
  - intros w k. unfold Head. by case_match.
  - intros w k. unfold Head. by case_match.
  - intros w k d Hk. unfold PutIfAbsent, checkObjectSize, guard_err. rewrite Hk.
    destruct (_ <? _); [by left; eauto|]. right. eexists.
    split; [done|]. split; [apply (putLocked_version w k d)|done].
  - intros w k d ob Hk. unfold PutIfAbsent, checkObjectSize, guard_err. rewrite Hk.
    by destruct (_ <? _); eauto.
  - intros w k [e|] d; unfold CompareAndSwap, checkObjectSize, guard_err;
      (destruct (_ <? _); [by left; eauto|]).
    + case_bool_decide; [by left; eauto|].
      destruct (ms_objects w !! k) as [ob|] eqn:Hk; [|by left; eauto].
      case_bool_decide; simpl; [|by left; eauto]. right. split; [eauto|].
      eexists. split; [done|]. split; [apply (putLocked_version w k d)|done].
    + case_bool_decide as Hk; [by left; eauto|]. right.
      split; [by apply eq_None_not_Some|].
      eexists. split; [done|]. split; [apply (putLocked_version w k d)|done].
Qed.

(** ** Properties *)

(** Exactly one of two competing conditional writes wins.  After both
    writers read the object of a key with one version, the first
    CompareAndSwap that succeeds makes the second one fail, and the second
    leaves the first one's data in place, unless both write data with the same
    SHA-256 digest as what they read. *)
Theorem CompareAndSwap_excludes (store store1 store2 : Store) (key data1 data2 : bytes)
    (record : Object) (v1 : Version) (r2 : result Version) :
  ms_objects store !! key = Some record →
  v_ETag (ob_Version record) ≠ [x22] ++ hex_EncodeToString (sha256 data1) ++ [x22] →
  CompareAndSwap None store key (Some (ob_Version record)) data1 = (store1, Ok v1) →
  CompareAndSwap None store1 key (Some (ob_Version record)) data2 = (store2, r2) →
  is_ok r2 = false ∧ store2 = store1 ∧
  ms_objects store2 !! key = Some {| ob_Data := data1; ob_Version := v1 |}.
Proof.
  intros Hk Htag H1 H2.
  assert (putLocked store key data1 = (store1, v1)) as Hp.
  { revert H1. unfold CompareAndSwap. rewrite Hk. destruct (putLocked store key data1).
    repeat case_match; intros; simplify_eq; bool_prop; congruence. }
  assert (ms_objects store1 !! key = Some {| ob_Data := data1; ob_Version := v1 |}) as Hl.
  { unfold putLocked in Hp. simplify_eq/=. apply lookup_insert_eq. }
  assert (v_ETag v1 ≠ v_ETag (ob_Version record)) as Hne.
  { unfold putLocked in Hp. simplify_eq/=. by intros E. }
  revert H2. unfold CompareAndSwap. rewrite Hl; simpl.
  rewrite (bool_decide_false (v_ETag v1 = _)) by done; simpl.
  repeat case_match; intros; simplify_eq; done.
Qed.

Lemma CompareAndSwap_excludes_witness :
  let store := ForcePut New (str "k") (str "old") in
  let old := {| v_ETag := [x22] ++ hex_EncodeToString (sha256 (str "old")) ++ [x22];
                v_VersionID := str "memory-1" |} in
  let r1 := CompareAndSwap None store (str "k") (Some old) (str "a") in
  let r2 := CompareAndSwap None r1.1 (str "k") (Some old) (str "b") in
  is_ok r2.2 = false ∧ r2.1 = r1.1 ∧
  ms_objects r2.1 !! str "k" = Some {| ob_Data := str "a"; ob_Version :=
    {| v_ETag := [x22] ++ hex_EncodeToString (sha256 (str "a")) ++ [x22];
       v_VersionID := str "memory-2" |} |}.
Proof.
  intros store old r1 r2.
  apply (CompareAndSwap_excludes store r1.1 r2.1 (str "k") (str "a") (str "b")
           {| ob_Data := str "old"; ob_Version := old |} _ r2.2); by vm_compute.
Defined.
