(* ===== verification/ClientEncryption.v ===== *)
(** * Client-side encryption ([client_encryption.go])

    Keys, profiles, the object envelope, and the encrypting wrappers around a
    Store.  AES-GCM is a parameter with the documented laws of [cipher.AEAD];
    HKDF and HMAC are computed. *)

From S2P Require Import Prelude.
From S2P Require Import Prog.
From S2P Require Import GoStd.
From S2P Require Import Encoding.
From S2P Require Import Sha256.
From S2P Require Import Model.
From S2P Require Import Effects.
From S2P Require Import MemStore.

Definition clientEncryptionKeyBytes : Z := 32.
Definition clientEncryptionSaltBytes : Z := 16.
Definition clientEncryptionSecretPrefix : bytes := str "s3disk-client-encryption-v1.".
Definition clientEncryptionEnvelopeHeader : bytes := str "s3dce" ++ [x00; x01; x00].

Definition nul_terminated (parts : list string) : bytes :=
  mjoin (map (λ p, str p ++ [x00]) parts).
Definition clientEncryptionMasterDomain : bytes :=
  nul_terminated ["s3disk"; "client-encryption"; "master"; "v1"].
Definition clientEncryptionIndexDomain : bytes :=
  nul_terminated ["s3disk"; "client-encryption"; "index"; "v1"].
Definition clientEncryptionObjectDomain : bytes :=
  nul_terminated ["s3disk"; "client-encryption"; "object"; "v1"].
Definition clientEncryptionClosureDomain : bytes :=
  nul_terminated ["s3disk"; "client-encryption"; "snapshot-closure"; "v1"].

(** ** Keys *)

(** The key material, a Go array [32]byte. *)
Record ClientEncryptionKey := { ck_material : bytes }.
Definition zero32 : bytes := replicate 32 x00.
Definition ClientEncryptionKey_isZero (key : ClientEncryptionKey) : bool := ck_material key ==? zero32.

Definition ParseClientEncryptionKey (secret : bytes) : result ClientEncryptionKey :=
  guard_err (negb (HasPrefix secret clientEncryptionSecretPrefix)) errorText ?;;
  let encoded := TrimPrefix secret clientEncryptionSecretPrefix in
  match base64_RawURLEncoding_DecodeString encoded with
  | None => Err errorText
  | Some decoded =>
      guard_err ((len decoded !=? clientEncryptionKeyBytes)
                 || (base64_RawURLEncoding_EncodeToString decoded !=? encoded)) errorText ?;;
      let key := {| ck_material := decoded |} in
      guard_err (ClientEncryptionKey_isZero key) errorText ?;;
      Ok key
  end.

Definition ExportSecret (key : ClientEncryptionKey) : bytes :=
  if ClientEncryptionKey_isZero key then []
  else clientEncryptionSecretPrefix ++ base64_RawURLEncoding_EncodeToString (ck_material key).

(** ** HKDF ([crypto/hkdf], SHA-256) for one output block *)

Definition hkdf_Key32 (secret salt info : bytes) : bytes :=
  let prk := hmac_sha256 salt secret in hmac_sha256 prk (info ++ [x01]).

(** RFC 5869, test case 1 (first block). *)
Example hkdf_rfc5869_1 :
  hex_EncodeToString (hkdf_Key32 (replicate 22 x0b) (map byte_of (map N.of_nat (seq 0 13)))
                        (map byte_of (map N.of_nat (seq 240 10))))
  = str "3cb25f25faacd57a90434f64d0362f2a2d2d0a90cf1a5a4c5db02d56ecc4c5bf".
Proof. by vm_compute. Qed.

(** ** Profiles *)

Record ClientEncryptionProfile := {
  cp_repositoryID : RepositoryID;
  cp_encryptionMaster : bytes;
  cp_indexKey : bytes;
}.
#[export] Instance ClientEncryptionProfile_eq_dec : EqDecision ClientEncryptionProfile.
Proof. solve_decision. Defined.

Definition NewClientEncryptionProfile (repositoryID : RepositoryID) (key : ClientEncryptionKey)
    : result ClientEncryptionProfile :=
  guard_err (RepositoryID_IsZero repositoryID) errorText ?;;
  guard_err (ClientEncryptionKey_isZero key) errorText ?;;
  Ok {| cp_repositoryID := repositoryID;
        cp_encryptionMaster := hkdf_Key32 (ck_material key) repositoryID clientEncryptionMasterDomain;
        cp_indexKey := hkdf_Key32 (ck_material key) repositoryID clientEncryptionIndexDomain |}.

Definition configured (profile : option ClientEncryptionProfile) : bool :=
  match profile with
  | None => false
  | Some p => negb (RepositoryID_IsZero (cp_repositoryID p))
              && (cp_encryptionMaster p !=? zero32) && (cp_indexKey p !=? zero32)
  end.

Definition Equivalent (profile other : option ClientEncryptionProfile) : bool :=
  match profile, other with
  | Some p, Some o =>
      if negb (configured profile) || negb (configured other)
         || (cp_repositoryID p !=? cp_repositoryID o) then false
      else (cp_encryptionMaster p ==? cp_encryptionMaster o) && (cp_indexKey p ==? cp_indexKey o)
  | _, _ => false
  end.

Definition maxObjectKeyBytes : Z := 1024.

Definition validateClientEncryptionObjectKey (objectKey : bytes) : result unit :=
  guard_err ((objectKey ==? []) || (maxObjectKeyBytes <? len objectKey)
             || negb (utf8_ValidString objectKey) || contains_byte x00 objectKey) [ErrInvalidPath].

(** [binary.BigEndian.PutUint32] of a length. *)
Definition be32 (n : N) : bytes :=
  map (λ i, byte_of (N.shiftr n (8 * i))) [3; 2; 1; 0]%N.

Definition objectAssociatedData (profile : ClientEncryptionProfile) (objectKey messageSalt : bytes)
    : bytes :=
  clientEncryptionObjectDomain ++ cp_repositoryID profile ++ messageSalt
    ++ be32 (Z.to_N (len objectKey)) ++ objectKey.

Definition opaqueObjectID (profile : ClientEncryptionProfile) (kind : bytes) (digest : Digest) : bytes :=
  hex_EncodeToString (hmac_sha256 (cp_indexKey profile)
    (clientEncryptionIndexDomain ++ kind ++ [x00] ++ digest)).

Definition snapshotClosureBinding (profile : option ClientEncryptionProfile) : bytes :=
  match profile with
  | Some p =>
      if negb (configured profile) then zero32
      else hmac_sha256 (cp_encryptionMaster p)
             (clientEncryptionClosureDomain ++ cp_repositoryID p ++ cp_indexKey p)
  | None => zero32
  end.

(** ** The envelope *)

(** AES-256-GCM by key, nonce, text and associated data. *)
Class AEAD := {
  gcm_Seal : bytes → bytes → bytes → bytes → bytes;
  gcm_Open : bytes → bytes → bytes → bytes → option bytes;
}.
Class AEADLaws `{AEAD} := {
  gcm_Open_Seal key nonce text ad :
    gcm_Open key nonce (gcm_Seal key nonce text ad) ad = Some text;
  gcm_Seal_size key nonce text ad : len (gcm_Seal key nonce text ad) = len text + 16;
  gcm_Open_size key nonce sealed ad text :
    gcm_Open key nonce sealed ad = Some text → len sealed = len text + 16;
}.

(** A buffer of [n] bytes filled by [rand.Read]. *)
Definition fill (n : nat) (r : bytes) : bytes := take n (r ++ replicate n x00).

Section Envelope.
Context `{AEAD} {S : Type}.

(** The key of the AEAD. *)
Definition objectAEAD (profile : ClientEncryptionProfile) (objectKey messageSalt : bytes)
    : result bytes :=
  guard_err (negb (configured (Some profile))) errorText ?;;
  validateClientEncryptionObjectKey objectKey ?;;
  guard_err (len messageSalt !=? clientEncryptionSaltBytes) errorText ?;;
  Ok (hkdf_Key32 (cp_encryptionMaster profile) messageSalt
        (objectAssociatedData profile objectKey messageSalt)).

(** [cipher.NewGCMWithRandomNonce]: the nonce precedes the sealed text. *)
Definition SealObject (profile : ClientEncryptionProfile) (objectKey plaintext : bytes)
    : M eff S bytes :=
  mguard (ClientEncryptionMaxPlaintextBytes <? len plaintext) [ErrResourceLimit] ;;;
  random <- mcallr (Rand_Read clientEncryptionSaltBytes) ;;
  let messageSalt := fill 16 random in
  key <- mlift (objectAEAD profile objectKey messageSalt) ;;
  nonce <- mcallr (Rand_Read 12) ;;
  let nonce := fill 12 nonce in
  mret (clientEncryptionEnvelopeHeader ++ messageSalt ++ nonce
          ++ gcm_Seal key nonce plaintext (objectAssociatedData profile objectKey messageSalt)).

Definition OpenObject (profile : ClientEncryptionProfile) (objectKey envelope : bytes)
    : result bytes :=
  guard_err (ClientEncryptionMaxPlaintextBytes + ClientEncryptionCiphertextOverhead <? len envelope)
            [ErrResourceLimit] ?;;
  guard_err ((len envelope <? ClientEncryptionCiphertextOverhead)
             || (take 8 envelope !=? clientEncryptionEnvelopeHeader)) [ErrCorruptObject] ?;;
  let messageSalt := take 16 (drop 8 envelope) in
  key <-? objectAEAD profile objectKey messageSalt ;;
  let sealed := drop 24 envelope in
  match gcm_Open key (take 12 sealed) (drop 12 sealed)
          (objectAssociatedData profile objectKey messageSalt) with
  | None => Err [ErrCorruptObject]
  | Some plaintext =>
      guard_err (ClientEncryptionMaxPlaintextBytes <? len plaintext) [ErrResourceLimit] ?;;
      Ok plaintext
  end.

(** ** Store values

    The dynamic types an ObjectReader or Store can have here: a type outside
    the package (the calls on it are effects), which may be a typed nil and may
    implement [ClientEncryptionApplied], and the package's two wrappers. *)
Inductive StoreValue :=
| SV_External (typedNil : bool) (applied : option (option ClientEncryptionProfile → bool))
| SV_EncryptedReader (profile : ClientEncryptionProfile) (inner : StoreValue)
| SV_EncryptedStore (profile : ClientEncryptionProfile) (inner : StoreValue).

Definition sv_configured (v : StoreValue) : bool :=
  match v with SV_External typedNil _ => negb typedNil | _ => true end.

Definition clientEncryptionAlreadyApplied (reader : StoreValue)
    (profile : option ClientEncryptionProfile) : bool :=
  match reader with
  | SV_External _ (Some applied) => applied profile
  | SV_EncryptedStore p _ => Equivalent (Some p) profile
  | _ => false
  end.

Definition builtInClientEncryptionWrapper (reader : StoreValue) : bool :=
  match reader with
  | SV_EncryptedReader _ _ | SV_EncryptedStore _ _ => true
  | SV_External _ _ => false
  end.

Definition newClientEncryptedObjectReader (reader : option StoreValue)
    (profile : option ClientEncryptionProfile) : result StoreValue :=
  match reader with
  | None => Err errorText
  | Some reader =>
      guard_err (negb (sv_configured reader)) errorText ?;;
      match profile with
      | Some p => guard_err (negb (configured profile)) errorText ?;; Ok (SV_EncryptedReader p reader)
      | None => Err errorText
      end
  end.

Definition NewClientEncryptedStore (store : option StoreValue)
    (profile : option ClientEncryptionProfile) : result StoreValue :=
  match store with
  | None => Err errorText
  | Some store =>
      guard_err (negb (sv_configured store)) errorText ?;;
      match store with
      | SV_EncryptedStore p _ =>
          if Equivalent (Some p) profile then Ok store else Err [ErrStoreMisconfigured]
      | _ =>
          newClientEncryptedObjectReader (Some store) profile ?;;
          match profile with
          | Some p => Ok (SV_EncryptedStore p store)
          | None => Err errorText
          end
      end
  end.

(** [clientEncryptedObjectReader.Get] over the inner Get. *)
Definition encrypted_Get (profile : ClientEncryptionProfile)
    (inner : bytes → GetOptions → M eff S Object) (objectKey : bytes) (options : GetOptions)
    : M eff S Object :=
  checkCtx ;;;
  mguard (go_MaxBytes options <? 0) [ErrResourceLimit] ;;;
  let plaintextLimit :=
    if (go_MaxBytes options =? 0) || (ClientEncryptionMaxPlaintextBytes <? go_MaxBytes options)
    then ClientEncryptionMaxPlaintextBytes else go_MaxBytes options in
  object <- inner objectKey {| go_IfNoneMatch := go_IfNoneMatch options;
                               go_MaxBytes := plaintextLimit + ClientEncryptionCiphertextOverhead |} ;;
  plaintext <- mlift (OpenObject profile objectKey (ob_Data object)) ;;
  mguard ((0 <? go_MaxBytes options) && (go_MaxBytes options <? len plaintext)) [ErrResourceLimit] ;;;
  checkCtx ;;;
  mret {| ob_Data := plaintext; ob_Version := ob_Version object |}.

(** The context check, the sealing and the context check of both writes. *)
Definition sealForWrite (profile : ClientEncryptionProfile) (objectKey plaintext : bytes)
    : M eff S bytes :=
  checkCtx ;;;
  envelope <- SealObject profile objectKey plaintext ;;
  checkCtx ;;;
  mret envelope.

Fixpoint sv_Get (v : StoreValue) (key : bytes) (options : GetOptions) : M eff S Object :=
  match v with
  | SV_External _ _ => mcallr (Store_Get key options)
  | SV_EncryptedReader p inner | SV_EncryptedStore p inner =>
      encrypted_Get p (sv_Get inner) key options
  end.

(** An encrypted reader has no Head and no writes; it is never used as a Store. *)
Fixpoint sv_Head (v : StoreValue) (key : bytes) : M eff S Version :=
  match v with
  | SV_External _ _ => mcallr (Store_Head key)
  | SV_EncryptedReader _ inner | SV_EncryptedStore _ inner => sv_Head inner key
  end.

Fixpoint sv_PutIfAbsent (v : StoreValue) (key data : bytes) : M eff S Version :=
  match v with
  | SV_External _ _ => mcallr (Store_PutIfAbsent key data)
  | SV_EncryptedReader p inner | SV_EncryptedStore p inner =>
      envelope <- sealForWrite p key data ;; sv_PutIfAbsent inner key envelope
  end.

Fixpoint sv_CompareAndSwap (v : StoreValue) (key : bytes) (expected : option Version) (data : bytes)
    : M eff S Version :=
  match v with
  | SV_External _ _ => mcallr (Store_CompareAndSwap key expected data)
  | SV_EncryptedReader p inner | SV_EncryptedStore p inner =>
      envelope <- sealForWrite p key data ;; sv_CompareAndSwap inner key expected envelope
  end.
End Envelope.

Arguments encrypted_Get : simpl never.
Arguments sealForWrite : simpl never.
Arguments SealObject : simpl never.
Arguments OpenObject : simpl never.

(** ** Lemmas *)

Lemma fill_length n r : length (fill n r) = n.
Proof. unfold fill. rewrite length_take, length_app, length_replicate. lia. Qed.

Lemma TrimPrefix_app p s : TrimPrefix (p ++ s) p = s.
Proof. unfold TrimPrefix. rewrite HasPrefix_app. by rewrite drop_app_length. Qed.

Lemma be32_length n : length (be32 n) = 4%nat.
Proof. done. Qed.

(** ** Properties of keys *)

(** The exported form of a key is canonical.  Parsing an exported non-zero
    key gives the key back, and a text that parses is exactly the export of the
    key it denotes: no two texts denote one key. *)
Theorem client_key_roundtrip (key : ClientEncryptionKey) (secret : bytes) :
  (len (ck_material key) = clientEncryptionKeyBytes →
   ClientEncryptionKey_isZero key = false →
   ParseClientEncryptionKey (ExportSecret key) = Ok key) ∧
  (ParseClientEncryptionKey secret = Ok key → ExportSecret key = secret).
Proof.
  split.
  - intros Hlen Hz. unfold ParseClientEncryptionKey, ExportSecret. rewrite Hz.
    rewrite HasPrefix_app, TrimPrefix_app, base64_raw_roundtrip. simpl.
    rewrite !bool_decide_true by done. simpl. destruct key; simpl in *. by rewrite Hz.
  - unfold ParseClientEncryptionKey, ExportSecret. intros Hp.
    apply result_bind_ok in Hp as (? & Hpre & Hp). apply guard_err_ok in Hpre. bool_prop.
    apply HasPrefix_true in Hpre as [rest ->]. rewrite TrimPrefix_app in Hp.
    destruct (base64_RawURLEncoding_DecodeString rest) as [d|]; [|done].
    ok_inv. bool_prop. subst.
    match goal with Hz : ClientEncryptionKey_isZero _ = false |- _ => rewrite Hz end. done.
Qed.

Lemma client_key_roundtrip_witness :
  let key := {| ck_material := replicate 32 x07 |} in
  ParseClientEncryptionKey (ExportSecret key) = Ok key.
Proof. apply (client_key_roundtrip _ []); by vm_compute. Defined.

(** ** Properties of the envelope *)

Section EnvelopeProofs.
Context `{AEADLaws}.

Lemma objectAssociatedData_split (p : ClientEncryptionProfile) k salt :
  digest_wf (cp_repositoryID p) → length salt = 16%nat →
  let ad := drop (length clientEncryptionObjectDomain) (objectAssociatedData p k salt) in
  take 32 ad = cp_repositoryID p ∧ take 16 (drop 32 ad) = salt ∧ drop 52 ad = k.
Proof.
  intros Hid Hs ad. unfold digest_wf in Hid. unfold ad, objectAssociatedData.
  rewrite drop_app_length. split_and!.
  - by rewrite take_app_length'.
  - rewrite drop_app_length' by done. by rewrite take_app_length'.
  - rewrite !(assoc_L (++)). apply drop_app_length'.
    rewrite !length_app, be32_length, Hid, Hs. done.
Qed.

(** The associated data binds the ciphertext.  Two envelopes are sealed
    under the same associated data only if they belong to the same repository,
    the same object key and the same message salt. *)
Theorem objectAssociatedData_binds (p p' : ClientEncryptionProfile) (k k' salt salt' : bytes) :
  digest_wf (cp_repositoryID p) → digest_wf (cp_repositoryID p') →
  length salt = 16%nat → length salt' = 16%nat →
  objectAssociatedData p k salt = objectAssociatedData p' k' salt' →
  cp_repositoryID p = cp_repositoryID p' ∧ k = k' ∧ salt = salt'.
Proof.
  intros Hp Hp' Hs Hs' E.
  destruct (objectAssociatedData_split p k salt Hp Hs) as (E1 & E2 & E3).
  destruct (objectAssociatedData_split p' k' salt' Hp' Hs') as (E1' & E2' & E3').
  rewrite E in E1, E2, E3. split_and!; congruence.
Qed.

Lemma OpenObject_envelope p k salt nonce text key :
  length salt = 16%nat → length nonce = 12%nat →
  objectAEAD p k salt = Ok key → len text ≤ ClientEncryptionMaxPlaintextBytes →
  let envelope := clientEncryptionEnvelopeHeader ++ salt ++ nonce
    ++ gcm_Seal key nonce text (objectAssociatedData p k salt) in
  OpenObject p k envelope = Ok text ∧ len envelope = len text + ClientEncryptionCiphertextOverhead.
Proof.
  intros Hs Hn Hkey Hlen envelope.
  assert (len envelope = len text + ClientEncryptionCiphertextOverhead) as Hel.
  { unfold envelope. rewrite !len_app, gcm_Seal_size. unfold len at 1 2 3.
    rewrite Hs, Hn. change (length clientEncryptionEnvelopeHeader) with 8%nat.
    unfold ClientEncryptionCiphertextOverhead. lia. }
  split; [|done]. pose proof (len_nonneg text). unfold OpenObject. rewrite Hel.
  destruct (Z.ltb_spec (ClientEncryptionMaxPlaintextBytes + ClientEncryptionCiphertextOverhead)
    (len text + ClientEncryptionCiphertextOverhead)); [lia|].
  destruct (Z.ltb_spec (len text + ClientEncryptionCiphertextOverhead)
    ClientEncryptionCiphertextOverhead); [lia|]. unfold envelope.
  rewrite take_app_length' by done. rewrite bool_decide_true by done. simpl orb. simpl guard_err.
  cbn [result_bind negb]. rewrite drop_app_length' by done. rewrite take_app_length' by done.
  rewrite Hkey. cbn [result_bind].
  replace (drop 24 _) with (nonce ++ gcm_Seal key nonce text (objectAssociatedData p k salt)).
  - rewrite take_app_length', drop_app_length', gcm_Open_Seal by done.
    destruct (Z.ltb_spec ClientEncryptionMaxPlaintextBytes (len text)); [lia|done].
  - rewrite (assoc_L (++)). rewrite drop_app_length'; [done|]. by rewrite length_app, Hs.
Qed.

Lemma OpenObject_size p k envelope text :
  OpenObject p k envelope = Ok text →
  len envelope = len text + ClientEncryptionCiphertextOverhead.
Proof.
  unfold OpenObject. intros Ho. ok_inv.
  destruct (gcm_Open _ _ _ _) as [plain|] eqn:Hg; [|done]. ok_inv. subst.
  apply gcm_Open_size in Hg. bool_prop. unfold ClientEncryptionCiphertextOverhead, len in *.
  rewrite !length_drop in Hg. lia.
Qed.

(** A random source that does not fail. *)
Definition rand_rely : rely eff := λ _ X e x,
  match e in eff T return T → Prop with
  | Rand_Read _ => λ x, is_ok x = true
  | _ => λ _, True
  end x.

Lemma SealObject_spec {S} (R : rely eff) (G : guarantee eff) p k text (s : S) h :
  reads_free G →
  mwp R G (SealObject p k text) s h (λ h' s' r, s' = s ∧
    match r with
    | Err _ => True
    | Ok envelope => OpenObject p k envelope = Ok text ∧
        len envelope = len text + ClientEncryptionCiphertextOverhead
    end).
Proof.
  intros HG. unfold SealObject. do 2 mwp_go; [done|]. do 2 mwp_go; [by apply HG| |done].
  mwp_go. mwp_go. destruct (objectAEAD p k (fill 16 a)) as [key|] eqn:Hk; simpl; [|done].
  do 2 mwp_go; [by apply HG| |done]. mwp_go. split; [done|]. bool_prop.
  apply OpenObject_envelope; [apply fill_length..|done|done].
Qed.

Lemma SealObject_total {S} p k text (s : S) h :
  configured (Some p) = true → validateClientEncryptionObjectKey k = Ok tt →
  len text ≤ ClientEncryptionMaxPlaintextBytes →
  mwp rand_rely any_call (SealObject p k text) s h (λ _ _ r, is_ok r = true).
Proof.
  intros Hc Hk Hl. unfold SealObject. do 2 mwp_go; [bool_prop; lia|].
  do 2 mwp_go; [|done]. mwp_go. mwp_go. unfold objectAEAD. rewrite Hc, Hk.
  rewrite (bool_decide_true (len (fill 16 a) = _)) by (unfold len; by rewrite fill_length).
  simpl. do 2 mwp_go; [|done]. by mwp_go.
Qed.

(** Sealing round trip.  With a configured profile, a valid key and a
    plaintext within the limit, [SealObject] succeeds for every salt and nonce
    a working random source returns; [OpenObject] with the same profile and key
    gives the plaintext back, and the envelope is exactly
    [ClientEncryptionCiphertextOverhead] bytes longer. *)
Theorem SealObject_roundtrip (p : ClientEncryptionProfile) (k text : bytes) (h : history eff) :
  configured (Some p) = true → validateClientEncryptionObjectKey k = Ok tt →
  len text ≤ ClientEncryptionMaxPlaintextBytes →
  mwp rand_rely any_call (SealObject p k text) tt h (λ _ _ r,
    ∃ envelope, r = Ok envelope ∧ OpenObject p k envelope = Ok text ∧
      len envelope = len text + ClientEncryptionCiphertextOverhead).
Proof.
  intros Hc Hk Hl. eapply mwp_mono;
    [apply mwp_conj; [by apply SealObject_spec|by apply SealObject_total]|].
  intros h' s' [envelope|e] [[_ Hr] Hok]; [by exists envelope|done].
Qed.
End EnvelopeProofs.

(** A cipher that meets the laws, for executions: the text and a tag. *)
Definition toy_tag (key nonce text ad : bytes) : bytes :=
  take 16 (sha256 (key ++ nonce ++ ad ++ text)).
Definition toy_aead : AEAD := {|
  gcm_Seal key nonce text ad := text ++ toy_tag key nonce text ad;
  gcm_Open key nonce sealed ad :=
    let text := take (length sealed - 16) sealed in
    if (16 <=? len sealed) && (drop (length sealed - 16) sealed ==? toy_tag key nonce text ad)
    then Some text else None;
|}.

Lemma toy_tag_length key nonce text ad : length (toy_tag key nonce text ad) = 16%nat.
Proof. unfold toy_tag. rewrite length_take, sha256_length. done. Qed.

Definition toy_aead_laws : AEADLaws (H:=toy_aead).
Proof.
  split; simpl; intros key nonce text ad; [| |intros text'; case_match; intros; simplify_eq].
  - rewrite length_app, toy_tag_length, Nat.add_sub, drop_app_length, take_app_length.
    rewrite bool_decide_true by done. unfold len. rewrite length_app, toy_tag_length.
    by destruct (Z.leb_spec 16 (Z.of_nat (length text + 16))); [|lia].
  - rewrite len_app. unfold len at 2. by rewrite toy_tag_length.
  - bool_prop. unfold len in *. rewrite length_take. lia.
Qed.

Definition toy_profile : ClientEncryptionProfile :=
  {| cp_repositoryID := fixture_digest 1; cp_encryptionMaster := fixture_digest 2;
     cp_indexKey := fixture_digest 3 |}.

Lemma objectAssociatedData_binds_witness :
  let ad k := objectAssociatedData toy_profile k (replicate 16 x05) in
  ad (str "a") = ad (str "a") ∧
  cp_repositoryID toy_profile = fixture_digest 1 ∧ str "a" = str "a" ∧
  replicate 16 x05 = replicate 16 x05.
Proof.
  split; [done|].
  apply (objectAssociatedData_binds toy_profile toy_profile (str "a") (str "a")
           (replicate 16 x05) (replicate 16 x05)); by vm_compute.
Defined.

Lemma SealObject_roundtrip_witness :
  mwp rand_rely any_call (SealObject (H:=toy_aead) toy_profile (str "refs/x") (str "hello")) tt []
    (λ _ _ r, ∃ envelope, r = Ok envelope ∧
      OpenObject (H:=toy_aead) toy_profile (str "refs/x") envelope = Ok (str "hello") ∧
      len envelope = len (str "hello") + ClientEncryptionCiphertextOverhead).
Proof.
  apply (@SealObject_roundtrip toy_aead toy_aead_laws); by vm_compute.
Defined.
