(* ===== verification/Repository.v ===== *)
(** * Repositories ([repository.go], [repository_descriptor.go])

    Object keys, construction with its authority and storage profile, the
    immutable objects, the mutable references, and the commissioning record of
    a prefix. *)

From S2P Require Import Prelude.
From S2P Require Import Prog.
From S2P Require Import GoStd.
From S2P Require Import Encoding.
From S2P Require Import Sha256.
From S2P Require Import Json.
From S2P Require Import Model.
From S2P Require Import Effects.
From S2P Require Import Trust.
From S2P Require Import MemStore.
From S2P Require Import ClientEncryption.

Definition repositoryNamespace : bytes := str ".s3disk/v1".

(** ** The commissioning record *)

Definition RepositoryDescriptorFormat : Z := 1.
Definition MaximumRepositoryDescriptorBytes : Z := Z.shiftl 16 10.
Definition repositoryChunkingAlgorithm : bytes := str "rabin-v1".

Definition RepositoryStorageProfilePlaintextV1 : bytes := str "plaintext-v1".
Definition RepositoryStorageProfileStrictShareIsolationV1 : bytes := str "strict-share-isolation-v1".

Record RepositoryChunkingDescriptor := {
  rc_Algorithm : bytes;
  rc_MinSize : Z;
  rc_AverageSize : Z;
  rc_MaxSize : Z;
  rc_Polynomial : N;
}.
#[export] Instance RepositoryChunkingDescriptor_eq_dec : EqDecision RepositoryChunkingDescriptor.
Proof. solve_decision. Defined.

Definition RepositoryChunkingDescriptor_zero : RepositoryChunkingDescriptor :=
  {| rc_Algorithm := []; rc_MinSize := 0; rc_AverageSize := 0; rc_MaxSize := 0; rc_Polynomial := 0 |}.

#[export] Instance RepositoryChunkingDescriptor_json : JSON RepositoryChunkingDescriptor := {
  to_json c := JObj [(str "algorithm", JStr (rc_Algorithm c));
                     (str "minimum_size", JNum (rc_MinSize c));
                     (str "average_size", JNum (rc_AverageSize c));
                     (str "maximum_size", JNum (rc_MaxSize c));
                     (str "polynomial", enc_uint (rc_Polynomial c))];
  of_json j :=
    fs ← obj_fields j;
    a ← fld "algorithm" fs dec_string [];
    mn ← fld "minimum_size" fs dec_int 0;
    av ← fld "average_size" fs dec_int 0;
    mx ← fld "maximum_size" fs dec_int 0;
    p ← fld "polynomial" fs (dec_uint u64_max) 0%N;
    Some {| rc_Algorithm := a; rc_MinSize := mn; rc_AverageSize := av; rc_MaxSize := mx;
            rc_Polynomial := p |};
  json_valid c := utf8_ok (rc_Algorithm c) ∧ int_ok (rc_MinSize c) ∧ int_ok (rc_AverageSize c) ∧
    int_ok (rc_MaxSize c) ∧ u64_ok (rc_Polynomial c);
}.

#[export] Instance RepositoryChunkingDescriptor_laws : JSONLaws RepositoryChunkingDescriptor.
Proof.
  split.
  - intros [a mn av mx p] (Ha & Hn & Hv & Hx & Hp). simpl in *. repeat split; json_strings.
  - intros [a mn av mx p] (Ha & Hn & Hv & Hx & Hp). simpl in *. by json_decode.
Qed.

Record RepositoryDescriptor := {
  rd_Format : Z;
  rd_RepositoryID : RepositoryID;
  rd_RepositoryPrefix : bytes;
  rd_StorageProfile : bytes;
  rd_Chunking : RepositoryChunkingDescriptor;
}.
#[export] Instance RepositoryDescriptor_eq_dec : EqDecision RepositoryDescriptor.
Proof. solve_decision. Defined.

#[export] Instance RepositoryDescriptor_json : JSON RepositoryDescriptor := {
  to_json d := JObj [(str "format", JNum (rd_Format d));
                     (str "repository_id", enc_digest (rd_RepositoryID d));
                     (str "repository_prefix", JStr (rd_RepositoryPrefix d));
                     (str "storage_profile", JStr (rd_StorageProfile d));
                     (str "chunking", to_json (rd_Chunking d))];
  of_json j :=
    fs ← obj_fields j;
    f ← fld "format" fs dec_int 0;
    r ← fld "repository_id" fs dec_digest RepositoryID_zero;
    p ← fld "repository_prefix" fs dec_string [];
    s ← fld "storage_profile" fs dec_string [];
    c ← fld "chunking" fs of_json RepositoryChunkingDescriptor_zero;
    Some {| rd_Format := f; rd_RepositoryID := r; rd_RepositoryPrefix := p;
            rd_StorageProfile := s; rd_Chunking := c |};
  json_valid d := int_ok (rd_Format d) ∧ digest_wf (rd_RepositoryID d) ∧
    utf8_ok (rd_RepositoryPrefix d) ∧ utf8_ok (rd_StorageProfile d) ∧ json_valid (rd_Chunking d);
}.

#[export] Instance RepositoryDescriptor_laws : JSONLaws RepositoryDescriptor.
Proof.
  split.
  - intros [f r p s c] (Hf & Hr & Hp & Hs & Hc).
    apply (json_valid_wf (T:=RepositoryChunkingDescriptor)) in Hc.
    simpl in *. split_and!; try apply Hc; json_strings.
  - intros [f r p s [a mn av mx q]] (Hf & Hr & Hp & Hs & Ha & Hn & Hv & Hx & Hq). simpl in *.
    json_decode. by json_decode.
Qed.

(** ** Repositories *)

Record Repository := {
  rp_reader : StoreValue;
  rp_store : option StoreValue;
  rp_prefix : bytes;
  rp_clientEncryption : option ClientEncryptionProfile;
  rp_descriptor : option RepositoryDescriptor;
}.

Record RepositoryOptions := { ro_ClientEncryption : option ClientEncryptionProfile }.

Definition key (repository : Repository) (relative : bytes) : bytes :=
  let base := repositoryNamespace in
  let base := if rp_prefix repository !=? [] then rp_prefix repository ++ [slash] ++ base else base in
  base ++ [slash] ++ relative.

Definition DescriptorKey (repository : Repository) : bytes := key repository (str "repository").

Definition ReferenceKey (repository : Repository) (channel : bytes) : bytes :=
  key repository (str "refs/" ++ base64_RawURLEncoding_EncodeToString channel).

Definition SignedReferenceKey (repository : Repository) (channel : bytes) : bytes :=
  key repository (str "signed-refs/v1/" ++ base64_RawURLEncoding_EncodeToString channel).

Definition objectKey (repository : Repository) (kind : bytes) (digest : Digest) : bytes :=
  match rp_clientEncryption repository with
  | Some profile =>
      let value := opaqueObjectID profile kind digest in
      key repository (str "objects/" ++ kind ++ str "/hmac-sha256/" ++ take 2 value
                        ++ [slash] ++ value)
  | None =>
      let value := Digest_String digest in
      key repository (str "objects/" ++ kind ++ str "/sha256/" ++ take 2 value ++ [slash] ++ value)
  end.

Definition Repository_validateChannel (repository : Repository) (channel : bytes) : result unit :=
  validateChannel channel ?;;
  guard_err (maxObjectKeyBytes <? len (SignedReferenceKey repository channel)) [ErrInvalidPath].

Definition newRepository (reader : StoreValue) (store : option StoreValue) (prefix : bytes)
    (options : RepositoryOptions) : result Repository :=
  let prefix := Trim prefix slash in
  guard_err (negb (utf8_ValidString prefix) || contains_byte x00 prefix) [ErrInvalidPath] ?;;
  let encrypted := if ro_ClientEncryption options is Some _ then true else false in
  guard_err (encrypted && (prefix ==? [])) [ErrInvalidPath] ?;;
  guard_err (encrypted && negb (configured (ro_ClientEncryption options))) errorText ?;;
  let repository := {| rp_reader := reader; rp_store := store; rp_prefix := prefix;
                       rp_clientEncryption := ro_ClientEncryption options;
                       rp_descriptor := None |} in
  guard_err (maxObjectKeyBytes <? len (objectKey repository (str "symlink") Digest_zero))
            [ErrInvalidPath] ?;;
  Ok repository.

Definition NewRepositoryWithOptions (store : option StoreValue) (prefix : bytes)
    (options : RepositoryOptions) : result Repository :=
  match store with
  | None => Err errorText
  | Some store =>
      guard_err (negb (sv_configured store)) errorText ?;;
      match ro_ClientEncryption options with
      | None =>
          guard_err (builtInClientEncryptionWrapper store)
                    [ErrStoreMisconfigured; ErrRepositoryConfigurationMismatch] ?;;
          newRepository store (Some store) prefix options
      | Some _ =>
          encrypted <-? NewClientEncryptedStore (Some store) (ro_ClientEncryption options) ;;
          newRepository encrypted (Some encrypted) prefix options
      end
  end.

Definition NewRepository (store : option StoreValue) (prefix : bytes) : result Repository :=
  NewRepositoryWithOptions store prefix {| ro_ClientEncryption := None |}.

Definition NewReadOnlyRepositoryWithOptions (reader : option StoreValue) (prefix : bytes)
    (options : RepositoryOptions) : result Repository :=
  match reader with
  | None => Err errorText
  | Some reader =>
      guard_err (negb (sv_configured reader)) errorText ?;;
      match ro_ClientEncryption options with
      | None =>
          guard_err (builtInClientEncryptionWrapper reader)
                    [ErrStoreMisconfigured; ErrRepositoryConfigurationMismatch] ?;;
          newRepository reader None prefix options
      | Some _ =>
          reader <-? (if clientEncryptionAlreadyApplied reader (ro_ClientEncryption options)
                      then Ok reader
                      else newClientEncryptedObjectReader (Some reader) (ro_ClientEncryption options)) ;;
          newRepository reader None prefix options
      end
  end.

Definition NewReadOnlyRepository (reader : option StoreValue) (prefix : bytes) : result Repository :=
  NewReadOnlyRepositoryWithOptions reader prefix {| ro_ClientEncryption := None |}.

(** ** Objects and references *)

Section Repository.
Context `{AEAD} {S : Type}.

(** [repository.store]; a method call on its nil value would be a run-time
    panic, which the constructors of the writing components exclude. *)
Definition with_store {A} (repository : Repository) (k : StoreValue → M eff S A) : M eff S A :=
  match rp_store repository with Some store => k store | None => mfail errorText end.

Definition putImmutable (repository : Repository) (kind data : bytes) : M eff S Digest :=
  with_store repository (λ store,
    let digest := digestObject kind data in
    let key := objectKey repository kind digest in
    head <- mtry (sv_Head store key) ;;
    match head with
    | Ok version => mlift (validateStoreVersion version) ;;; mret digest
    | Err err =>
        mguard (negb (errors_Is err ErrObjectNotFound)) err ;;;
        put <- mtry (sv_PutIfAbsent store key data) ;;
        match put with
        | Ok version => mlift (validateStoreVersion version) ;;; mret digest
        | Err err =>
            mguard (negb (errors_Is err ErrPrecondition)) err ;;;
            version <- sv_Head store key ;;
            mlift (validateStoreVersion version) ;;;
            mret digest
        end
    end).

Definition putManifest {T} `{JSON T} (repository : Repository) (kind : bytes) (value : T)
    : M eff S Digest :=
  let data := canonicalJSON value in
  mguard (maxMetadataObjectBytes <? len data) [ErrResourceLimit] ;;;
  putImmutable repository kind data.

Definition getImmutableLimited (repository : Repository) (kind : bytes) (digest : Digest) (limit : Z)
    : M eff S bytes :=
  object <- sv_Get (rp_reader repository) (objectKey repository kind digest)
              {| go_IfNoneMatch := []; go_MaxBytes := limit |} ;;
  mlift (validateStoreVersion (ob_Version object)) ;;;
  mguard (limit <? len (ob_Data object)) [ErrResourceLimit] ;;;
  mguard (digestObject kind (ob_Data object) !=? digest) [ErrCorruptObject] ;;;
  mret (ob_Data object).

Definition kind_limit (kind : bytes) : Z :=
  if kind ==? str "chunk" then maxChunkObjectBytes else maxMetadataObjectBytes.

Definition getImmutable (repository : Repository) (kind : bytes) (digest : Digest) : M eff S bytes :=
  getImmutableLimited repository kind digest (kind_limit kind).

Definition getImmutableExact (repository : Repository) (kind : bytes) (digest : Digest)
    (expectedSize : Z) : M eff S bytes :=
  mguard ((expectedSize <? 1) || (kind_limit kind <? expectedSize)) [ErrResourceLimit] ;;;
  data <- getImmutableLimited repository kind digest expectedSize ;;
  mguard (len data !=? expectedSize) [ErrCorruptObject] ;;;
  mret data.

Definition getManifest {T} `{JSON T} (repository : Repository) (kind : bytes) (digest : Digest)
    : M eff S T :=
  data <- getImmutable repository kind digest ;;
  mlift (decodeJSON data).

Definition getReferenceWithVerifier (repository : Repository) (channel ifNoneMatch : bytes)
    (verifier : option ReferenceVerifier) : M eff S (snapshotReference * Object) :=
  mguard (match verifier with Some v => negb (rv_configured v) | None => false end) errorText ;;;
  let key := match verifier with
             | Some _ => SignedReferenceKey repository channel
             | None => ReferenceKey repository channel
             end in
  object <- sv_Get (rp_reader repository) key
              {| go_IfNoneMatch := ifNoneMatch; go_MaxBytes := maxReferenceBytes |} ;;
  mlift (validateStoreVersion (ob_Version object)) ;;;
  identity <- VerifySnapshotReference (ob_Data object) channel verifier ;;
  mret ({| sr_Format := objectFormatVersion; sr_Generation := id_Generation identity;
           sr_Commit := id_Commit identity |}, object).

Definition Repository_compareAndSwap (repository : Repository) (key : bytes)
    (expected : option Version) (data : bytes) : M eff S Version :=
  with_store repository (λ store,
    version <- sv_CompareAndSwap store key expected data ;;
    mlift (validateStoreVersion version) ;;;
    mret version).

(** ** Commissioning *)

Record RepositoryConfig := {
  rcf_RepositoryID : RepositoryID;
  rcf_ClientEncryption : option ClientEncryptionProfile;
  rcf_Chunking : ChunkingOptions;
}.

Context `{Chunker}.

Definition RepositoryDescriptor_ChunkingOptions (descriptor : RepositoryDescriptor) : ChunkingOptions :=
  {| co_MinSize := rc_MinSize (rd_Chunking descriptor);
     co_AverageSize := rc_AverageSize (rd_Chunking descriptor);
     co_MaxSize := rc_MaxSize (rd_Chunking descriptor);
     co_Polynomial := rc_Polynomial (rd_Chunking descriptor) |}.

Definition descriptorConfiguration (prefix : bytes) (config : RepositoryConfig)
    : result (RepositoryDescriptor * RepositoryOptions) :=
  guard_err (RepositoryID_IsZero (rcf_RepositoryID config)) [ErrRepositoryConfigurationMismatch] ?;;
  chunking <-? normalized (rcf_Chunking config) ;;
  profile <-? match rcf_ClientEncryption config with
    | Some p =>
        guard_err (negb (configured (Some p)) || (cp_repositoryID p !=? rcf_RepositoryID config))
                  [ErrRepositoryConfigurationMismatch] ?;;
        Ok RepositoryStorageProfileStrictShareIsolationV1
    | None => Ok RepositoryStorageProfilePlaintextV1
    end ;;
  Ok ({| rd_Format := RepositoryDescriptorFormat; rd_RepositoryID := rcf_RepositoryID config;
         rd_RepositoryPrefix := Trim prefix slash; rd_StorageProfile := profile;
         rd_Chunking := {| rc_Algorithm := repositoryChunkingAlgorithm;
           rc_MinSize := co_MinSize chunking; rc_AverageSize := co_AverageSize chunking;
           rc_MaxSize := co_MaxSize chunking; rc_Polynomial := co_Polynomial chunking |} |},
      {| ro_ClientEncryption := rcf_ClientEncryption config |}).

Definition with_prefix (d : RepositoryDescriptor) (prefix : bytes) : RepositoryDescriptor :=
  {| rd_Format := rd_Format d; rd_RepositoryID := rd_RepositoryID d; rd_RepositoryPrefix := prefix;
     rd_StorageProfile := rd_StorageProfile d; rd_Chunking := rd_Chunking d |}.

Definition configuredWritableRepository (store : option StoreValue) (prefix : bytes)
    (config : RepositoryConfig) : result (Repository * RepositoryDescriptor) :=
  ' (expected, options) <-? descriptorConfiguration prefix config ;;
  repository <-? NewRepositoryWithOptions store prefix options ;;
  Ok (repository, with_prefix expected (rp_prefix repository)).

Definition configuredReadOnlyRepository (reader : option StoreValue) (prefix : bytes)
    (config : RepositoryConfig) : result (Repository * RepositoryDescriptor) :=
  ' (expected, options) <-? descriptorConfiguration prefix config ;;
  repository <-? NewReadOnlyRepositoryWithOptions reader prefix options ;;
  Ok (repository, with_prefix expected (rp_prefix repository)).

Definition validateRepositoryDescriptor (descriptor : RepositoryDescriptor) : result unit :=
  guard_err ((rd_Format descriptor !=? RepositoryDescriptorFormat)
             || RepositoryID_IsZero (rd_RepositoryID descriptor)) [ErrCorruptObject] ?;;
  let prefix := rd_RepositoryPrefix descriptor in
  guard_err ((prefix !=? Trim prefix slash) || negb (utf8_ValidString prefix)
             || contains_byte x00 prefix) [ErrCorruptObject] ?;;
  (if rd_StorageProfile descriptor ==? RepositoryStorageProfilePlaintextV1 then Ok tt
   else if rd_StorageProfile descriptor ==? RepositoryStorageProfileStrictShareIsolationV1
   then guard_err (prefix ==? []) [ErrCorruptObject]
   else Err [ErrCorruptObject]) ?;;
  guard_err (rc_Algorithm (rd_Chunking descriptor) !=? repositoryChunkingAlgorithm)
            [ErrCorruptObject] ?;;
  let chunking := RepositoryDescriptor_ChunkingOptions descriptor in
  match normalized chunking with
  | Ok n => guard_err (n !=? chunking) [ErrCorruptObject]
  | Err _ => Err [ErrCorruptObject]
  end.

(** The descriptor, or [None] when it is absent. *)
Definition loadDescriptor (repository : Repository) : M eff S (option RepositoryDescriptor) :=
  r <- mtry (sv_Get (rp_reader repository) (DescriptorKey repository)
               {| go_IfNoneMatch := []; go_MaxBytes := MaximumRepositoryDescriptorBytes |}) ;;
  match r with
  | Err err => if errors_Is err ErrObjectNotFound then mret None else mfail err
  | Ok object =>
      mlift (validateStoreVersion (ob_Version object)) ;;;
      mguard ((len (ob_Data object) =? 0)
              || (MaximumRepositoryDescriptorBytes <? len (ob_Data object))) [ErrCorruptObject] ;;;
      descriptor <- mlift (decodeJSON (T:=RepositoryDescriptor) (ob_Data object)) ;;
      mlift (validateRepositoryDescriptor descriptor) ;;;
      mret (Some descriptor)
  end.

Definition setDescriptor (repository : Repository) (descriptor : RepositoryDescriptor) : Repository :=
  {| rp_reader := rp_reader repository; rp_store := rp_store repository;
     rp_prefix := rp_prefix repository; rp_clientEncryption := rp_clientEncryption repository;
     rp_descriptor := Some descriptor |}.

Definition acceptRepositoryDescriptor (repository : Repository)
    (expected actual : RepositoryDescriptor) : M eff S (Repository * RepositoryDescriptor) :=
  mguard (actual !=? expected) [ErrRepositoryConfigurationMismatch] ;;;
  mret (setDescriptor repository actual, actual).

Definition openConfiguredRepository (repository : Repository) (expected : RepositoryDescriptor)
    : M eff S (Repository * RepositoryDescriptor) :=
  found <- loadDescriptor repository ;;
  match found with
  | None => mfail [ErrRepositoryNotInitialized]
  | Some actual => acceptRepositoryDescriptor repository expected actual
  end.

Definition InitializeRepository (store : option StoreValue) (prefix : bytes)
    (config : RepositoryConfig) (confirmEmptyPrefix : bool)
    : M eff S (Repository * RepositoryDescriptor) :=
  ' (repository, expected) <- mlift (configuredWritableRepository store prefix config) ;;
  found <- loadDescriptor repository ;;
  match found with
  | Some actual => acceptRepositoryDescriptor repository expected actual
  | None =>
      mguard (negb confirmEmptyPrefix) [ErrRepositoryNotInitialized] ;;;
      let data := canonicalJSON expected in
      put <- mtry (with_store repository (λ store,
               sv_PutIfAbsent store (DescriptorKey repository) data)) ;;
      match put with
      | Ok version =>
          mlift (validateStoreVersion version) ;;;
          mret (setDescriptor repository expected, expected)
      | Err putErr =>
          again <- mtry (loadDescriptor repository) ;;
          match again with
          | Ok (Some actual) => acceptRepositoryDescriptor repository expected actual
          | Ok None => mfail (ErrRepositoryInitializationIndeterminate
                                :: putErr ++ [ErrRepositoryNotInitialized])
          | Err readErr => mfail (ErrRepositoryInitializationIndeterminate :: putErr ++ readErr)
          end
      end
  end.

Definition OpenRepository (store : option StoreValue) (prefix : bytes) (config : RepositoryConfig)
    : M eff S (Repository * RepositoryDescriptor) :=
  ' (repository, expected) <- mlift (configuredWritableRepository store prefix config) ;;
  openConfiguredRepository repository expected.

Definition OpenReadOnlyRepository (reader : option StoreValue) (prefix : bytes)
    (config : RepositoryConfig) : M eff S (Repository * RepositoryDescriptor) :=
  ' (repository, expected) <- mlift (configuredReadOnlyRepository reader prefix config) ;;
  openConfiguredRepository repository expected.
End Repository.

(** ** What the wrappers do to stored bytes *)

(** The content of stored bytes under the layers of a store value. *)
Fixpoint sv_open `{AEAD} (v : StoreValue) (key raw : bytes) : result bytes :=
  match v with
  | SV_External _ _ => Ok raw
  | SV_EncryptedReader p inner | SV_EncryptedStore p inner =>
      envelope <-? sv_open inner key raw ;; OpenObject p key envelope
  end.

(** A write of an immutable object: its key is the digest of its content. *)
Definition content_put `{AEAD} (repository : Repository) (key raw : bytes) : Prop :=
  ∃ v kind data, rp_store repository = Some v ∧
    key = objectKey repository kind (digestObject kind data) ∧ sv_open v key raw = Ok data.

(** The store acknowledged an object. *)
Definition present `{AEAD} (repository : Repository) (h : history eff) (kind data : bytes) : Prop :=
  let key := objectKey repository kind (digestObject kind data) in
  (∃ version, Ev (Store_Head key) (Ok version) ∈ h) ∨
  ∃ v raw version, rp_store repository = Some v ∧ sv_open v key raw = Ok data ∧
    Ev (Store_PutIfAbsent key raw) (Ok version) ∈ h.

Lemma present_mono `{AEAD} repository h h' kind data :
  extends h h' → present repository h kind data → present repository h' kind data.
Proof.
  intros He [[ver Hv]|(v & raw & ver & ? & ? & Hv)]; [left|right].
  - exists ver. by eapply extends_elem.
  - exists v, raw, ver. split_and!; [done|done|]. by eapply extends_elem.
Qed.

(** The objects that a repository reads are among those considered. *)
Definition hashing {U : Hashed} `{AEAD} (repository : Repository) (R : rely eff) : Prop :=
  ∀ h kind d o ob data, R h _ (Store_Get (objectKey repository kind d) o) (Ok ob) →
    sv_open (rp_reader repository) (objectKey repository kind d) (ob_Data ob) = Ok data →
    hashed_object kind data.

Lemma hashing_everything `{AEAD} repository R : hashing (U:=everything) repository R.
Proof. done. Qed.
#[export] Hint Resolve hashing_everything : core.

(** The bytes of an object that a digest names, and a value. *)
Definition object_of {U : Hashed} (kind : bytes) (digest : Digest) (data : bytes) : Prop :=
  digestObject kind data = digest ∧ hashed_object kind data.
Definition named_by {U : Hashed} {T} `{JSON T} (kind : bytes) (digest : Digest) (v : T) : Prop :=
  ∃ data, decodeJSON data = Ok v ∧ object_of kind digest data.

Lemma object_of_unique {U : Hashed} kind digest data data' :
  object_of kind digest data → object_of kind digest data' → data = data' ∨ sha256_collision.
Proof. intros [E H] [E' H']. rewrite <- E' in E. by eapply digestObject_inj_hashed. Qed.

Lemma named_by_unique {U : Hashed} {T} `{JSON T} kind digest (v v' : T) :
  named_by kind digest v → named_by kind digest v' → v = v' ∨ sha256_collision.
Proof.
  intros (d & Hd & Ho) (d' & Hd' & Ho').
  destruct (object_of_unique _ _ _ _ Ho Ho') as [->|Hc]; [left; congruence|by right].
Qed.

Section RepositoryProofs.
Context `{AEADLaws} {S : Type} (R : rely eff) (G : guarantee eff) (HG : reads_free G).

(** A read through the layers opens what the backing store answered. *)
Lemma sv_Get_reading (v : StoreValue) k o :
  reading (S:=S) G R (sv_Get v k o) (λ r, ∀ ob, r = Ok ob → ∃ h o raw,
    R h _ (Store_Get k o) (Ok raw) ∧ sv_open v k (ob_Data raw) = Ok (ob_Data ob)).
Proof.
  revert o. induction v as [t a|p v IH|p v IH]; intros o; simpl;
    [rd_step; intros ob ->; by exists h, o, ob|..];
    unfold encrypted_Get;
    (do 2 rd_step; [|done]; do 2 rd_step; [done|]; rd_step;
     eapply reading_mono; [apply IH|]; intros [ob|e] Hob; [|done];
     destruct (Hob ob eq_refl) as (h & o' & raw & Hr & Hopen);
     do 2 rd_step; destruct (OpenObject p k (ob_Data ob)) as [data|] eqn:Hd; simpl; [|done];
     do 2 rd_step; [done|]; do 2 rd_step; [|done]; rd_step; intros ob' [= <-]; exists h, o', raw;
     split; [done|]; by rewrite Hopen).
Qed.

Lemma sv_Head_reading (v : StoreValue) k : reading (S:=S) G R (sv_Head v k) (λ _, True).
Proof. induction v; simpl; [by rd_step|done..]. Qed.

Lemma sealForWrite_reading p k data :
  reading (S:=S) G R (sealForWrite p k data) (λ r,
    ∀ envelope, r = Ok envelope → OpenObject p k envelope = Ok data).
Proof.
  unfold sealForWrite. do 2 rd_step; [|done]. rd_step.
  unfold SealObject. do 2 rd_step; [done|]. do 2 rd_step. destruct r as [random|]; [|done].
  do 2 rd_step. destruct (objectAEAD p k (fill 16 random)) as [key|] eqn:Hk; simpl; [|done].
  do 2 rd_step. destruct r as [nonce|]; [|done]. rd_step. do 2 rd_step; [|done].
  rd_step. intros e [= <-]. bool_prop.
  apply OpenObject_envelope; [apply fill_length..|done|done].
Qed.

(** A write through the layers: reads, then at most one write of the backing
    store, of bytes that open to the data. *)
Lemma sv_CompareAndSwap_spec (v : StoreValue) k expected data (s : S) h
    (Q : history eff → S → result Version → Prop) :
  (∀ h' raw, ext_reads h h' → sv_open v k raw = Ok data →
     G h' _ (Store_CompareAndSwap k expected raw)) →
  (∀ h' e, ext_reads h h' → Q h' s (Err e)) →
  (∀ h' raw r, ext_reads h h' → sv_open v k raw = Ok data →
     R h' _ (Store_CompareAndSwap k expected raw) r →
     Q (h' ++ [Ev (Store_CompareAndSwap k expected raw) r]) s r) →
  mwp R G (sv_CompareAndSwap v k expected data) s h Q.
Proof.
  revert data h Q. induction v as [t a|p v IH|p v IH]; intros data h Q HGw HE HQ; simpl;
    [apply mwp_callr; [by apply HGw; [apply ext_reads_refl|]|];
     intros r Hr; apply HQ; [apply ext_reads_refl|done|done]|..];
    (apply mwp_bind; eapply mwp_mono; [apply sealForWrite_reading|];
     intros h1 s1 [envelope|e] (-> & E1 & H1); [|by apply HE];
     apply IH;
     [intros h' raw E2 Ho; apply HGw; [by etrans|]; simpl; rewrite Ho; by apply H1
     |intros h' e E2; apply HE; by etrans
     |intros h' raw r E2 Ho Hr; apply HQ; [by etrans| |done]; simpl; rewrite Ho; by apply H1]).
Qed.

Lemma sv_PutIfAbsent_spec (v : StoreValue) k data (s : S) h
    (Q : history eff → S → result Version → Prop) :
  (∀ h' raw, ext_reads h h' → sv_open v k raw = Ok data → G h' _ (Store_PutIfAbsent k raw)) →
  (∀ h' e, ext_reads h h' → Q h' s (Err e)) →
  (∀ h' raw r, ext_reads h h' → sv_open v k raw = Ok data →
     R h' _ (Store_PutIfAbsent k raw) r → Q (h' ++ [Ev (Store_PutIfAbsent k raw) r]) s r) →
  mwp R G (sv_PutIfAbsent v k data) s h Q.
Proof.
  revert data h Q. induction v as [t a|p v IH|p v IH]; intros data h Q HGw HE HQ; simpl;
    [apply mwp_callr; [by apply HGw; [apply ext_reads_refl|]|];
     intros r Hr; apply HQ; [apply ext_reads_refl|done|done]|..];
    (apply mwp_bind; eapply mwp_mono; [apply sealForWrite_reading|];
     intros h1 s1 [envelope|e] (-> & E1 & H1); [|by apply HE];
     apply IH;
     [intros h' raw E2 Ho; apply HGw; [by etrans|]; simpl; rewrite Ho; by apply H1
     |intros h' e E2; apply HE; by etrans
     |intros h' raw r E2 Ho Hr; apply HQ; [by etrans| |done]; simpl; rewrite Ho; by apply H1]).
Qed.

Lemma sv_Head_spec (v : StoreValue) k (s : S) h (Q : history eff → S → result Version → Prop) :
  (∀ r, Q (h ++ [Ev (Store_Head k) r]) s r) → mwp R G (sv_Head v k) s h Q.
Proof.
  intros HQ. induction v; simpl; [|done..]. apply mwp_callr; [by apply HG|]. intros r _. apply HQ.
Qed.

(** An object that was put is present. *)
Lemma putImmutable_acting repository kind data h :
  (∀ h k raw, content_put repository k raw → G h _ (Store_PutIfAbsent k raw)) →
  acting (S:=S) G R (putImmutable repository kind data) h (λ h' r,
    ∀ d, r = Ok d → d = digestObject kind data ∧ present repository h' kind data).
Proof.
  intros HP. unfold putImmutable, with_store. destruct (rp_store repository) as [v|] eqn:Hv; [|by do_step].
  set (key := objectKey repository kind (digestObject kind data)).
  assert (∀ h, acting (S:=S) G R (sv_Head v key) h (λ h' r,
    ∀ ver, r = Ok ver → present repository h' kind data)) as Hhead.
  { intros h0 s. apply sv_Head_spec. intros r. split; [apply extends_snoc|]. intros ver ->. left.
    exists ver. apply elem_of_app. right. by left. }
  do 2 do_step. eapply doing_mono; [apply Hhead|]. intros h1 [ver|e] E1 P1.
  { do 2 do_step. destruct (validateStoreVersion ver); simpl; [|done]. do_step.
    intros d [= <-]. split; [done|]. by eapply P1. }
  do 2 do_step; [done|]. do 2 do_step. intros s. apply sv_PutIfAbsent_spec.
  - intros h2 raw E2 Ho. apply HP. by exists v, kind, data.
  - intros h2 e' E2. split; [by apply extends_reads|]. do 2 do_step; [done|]. do_step.
    eapply doing_mono; [apply Hhead|]. intros h3 [ver|e3] E3 P3; [|done]. do 2 do_step.
    destruct (validateStoreVersion ver); simpl; [|done]. do_step. intros d [= <-].
    split; [done|]. by eapply P3.
  - intros h2 raw r E2 Ho _. split; [etrans; [by apply extends_reads|apply extends_snoc]|].
    destruct r as [ver|e'].
    + do 2 do_step. destruct (validateStoreVersion ver); simpl; [|done]. do_step. intros d [= <-].
      split; [done|]. right. exists v, raw, ver. split_and!; [done|done|]. apply elem_of_app. right. by left.
    + do 2 do_step; [done|]. do_step.
      eapply doing_mono; [apply Hhead|]. intros h3 [ver|e3] E3 P3; [|done]. do 2 do_step.
      destruct (validateStoreVersion ver); simpl; [|done]. do_step. intros d [= <-].
      split; [done|]. by eapply P3.
Qed.

Section Objects.
Context {U : Hashed} (repository : Repository) (HR : hashing repository R).

Lemma getImmutableLimited_reading kind digest limit :
  reading (S:=S) G R (getImmutableLimited repository kind digest limit) (λ r,
    ∀ data, r = Ok data → len data ≤ limit ∧ object_of kind digest data).
Proof.
  unfold getImmutableLimited. rd_step. eapply reading_mono; [apply sv_Get_reading|].
  intros [ob|e] Hob; [|done]. do 2 rd_step.
  destruct (validateStoreVersion (ob_Version ob)); simpl; [|done].
  do 2 rd_step; [done|]. do 2 rd_step; [done|]. rd_step. intros data [= <-]. bool_prop.
  destruct (Hob ob eq_refl) as (h & o & raw & Hr & Hopen). split; [done|split; [done|by eapply HR]].
Qed.

Lemma getImmutable_reading kind digest :
  reading (S:=S) G R (getImmutable repository kind digest) (λ r,
    ∀ data, r = Ok data → len data ≤ kind_limit kind ∧ object_of kind digest data).
Proof. apply getImmutableLimited_reading. Qed.

Lemma getImmutableExact_reading kind digest size :
  reading (S:=S) G R (getImmutableExact repository kind digest size) (λ r,
    ∀ data, r = Ok data → len data = size ∧ object_of kind digest data).
Proof.
  unfold getImmutableExact. do 2 rd_step; [done|]. rd_step.
  eapply reading_mono; [apply getImmutableLimited_reading|]. intros [data|e] Hd; [|done].
  do 2 rd_step; [done|]. rd_step. intros d [= <-]. bool_prop. split; [done|]. by apply Hd.
Qed.

Lemma getManifest_reading {T} `{JSON T} kind digest :
  reading (S:=S) G R (getManifest (T:=T) repository kind digest) (λ r, ∀ v, r = Ok v → named_by kind digest v).
Proof.
  unfold getManifest. rd_step. eapply reading_mono; [apply getImmutable_reading|].
  intros [data|e] Hd; [|done]. rd_step. intros v Hv. exists data. split; [done|]. by apply Hd.
Qed.
End Objects.

Lemma VerifySnapshotReference_reading data channel verifier :
  reading (S:=S) G R (VerifySnapshotReference data channel verifier) (λ r,
    ∀ id, r = Ok id → id_Generation id ≠ 0%N ∧ Digest_IsZero (id_Commit id) = false ∧
      let ref := {| sr_Format := objectFormatVersion; sr_Generation := id_Generation id;
                    sr_Commit := id_Commit id |} in
      match verifier with
      | None => decodeJSON data = Ok ref
      | Some v => ∃ env, verified_by data channel v ref env
      end).
Proof.
  intros s h. eapply mwp_mono.
  { apply mwp_conj; [by apply VerifySnapshotReference_spec|].
    apply VerifySnapshotReference_reads, HG. }
  intros h' s' r [[-> Hr] He]. split_and!; [done|done|]. intros id ->.
  destruct Hr as (_ & Hg & Hc & Hv). split_and!; [done|done|].
  destruct verifier; [destruct Hv as (env & ? & _); eauto|by destruct Hv].
Qed.

Definition reference_valid (channel : bytes) (verifier : option ReferenceVerifier)
    (ref : snapshotReference) (object : Object) : Prop :=
  sr_Format ref = objectFormatVersion ∧ sr_Generation ref ≠ 0%N ∧
  Digest_IsZero (sr_Commit ref) = false ∧ v_ETag (ob_Version object) ≠ [] ∧
  (sr_Generation ref ≤ u64_max)%N ∧
  match verifier with
  | None => decodeJSON (ob_Data object) = Ok ref
  | Some v => ∃ env, verified_by (ob_Data object) channel v ref env
  end.

Lemma getReference_reading repository channel ifNoneMatch verifier :
  reading (S:=S) G R (getReferenceWithVerifier repository channel ifNoneMatch verifier) (λ r,
    ∀ ref object, r = Ok (ref, object) → reference_valid channel verifier ref object).
Proof.
  unfold getReferenceWithVerifier. do 2 rd_step; [done|]. rd_step.
  eapply reading_mono; [apply sv_Get_reading|]. intros [ob|e] _; [|done]. do 2 rd_step.
  destruct (validateStoreVersion (ob_Version ob)) eqn:Hv; simpl; [|done]. rd_step.
  eapply reading_mono; [apply VerifySnapshotReference_reading|]. intros [id|e] Hid; [|done].
  rd_step. intros ref object [= <- <-]. destruct (Hid id eq_refl) as (Hg & Hc & Hr).
  split_and!; try done; [by eapply validateStoreVersion_ok|]. simpl in *.
  destruct verifier as [v|]; [|by apply (decode_reference_generation _ _ Hr)].
  destruct Hr as (env & Hd & _ & _ & _ & Hgen & _). simpl in Hgen. rewrite Hgen.
  by eapply decode_envelope_generation.
Qed.

Lemma loadDescriptor_reading `{Chunker} repository :
  reading (S:=S) G R (loadDescriptor repository) (λ r,
    ∀ d, r = Ok (Some d) → validateRepositoryDescriptor d = Ok tt).
Proof.
  unfold loadDescriptor. do 2 rd_step. eapply reading_mono; [apply sv_Get_reading|].
  intros [ob|e] _; [|by destruct (errors_Is e ErrObjectNotFound); rd_step].
  do 2 rd_step. destruct (validateStoreVersion _); simpl; [|done]. do 2 rd_step; [done|].
  do 2 rd_step. destruct (decodeJSON (ob_Data ob)) as [d|]; simpl; [|done].
  do 2 rd_step. destruct (validateRepositoryDescriptor d) as [[]|] eqn:E; simpl; [|done].
  rd_step. by intros d' [= <-].
Qed.
End RepositoryProofs.

(** A reference that was read from the store between [h] and [h'] and, with a
    verifier, authenticated between them. *)
Definition reference_key (repository : Repository) (channel : bytes) (verifier : option ReferenceVerifier) : bytes :=
  match verifier with
  | Some _ => SignedReferenceKey repository channel
  | None => ReferenceKey repository channel
  end.
Definition reference_read `{AEAD} (repository : Repository) (channel : bytes) (verifier : option ReferenceVerifier)
    (h h' : history eff) (ref : snapshotReference) (object : Object) : Prop :=
  reference_valid channel verifier ref object ∧
  (∃ options raw, since h h' (Ev (Store_Get (reference_key repository channel verifier) options) (Ok raw)) ∧
     sv_open (rp_reader repository) (reference_key repository channel verifier) (ob_Data raw) = Ok (ob_Data object) ∧
     ob_Version raw = ob_Version object) ∧
  (∀ v, verifier = Some v → ∃ env, since h h' (authentication env) ∧ verified_by (ob_Data object) channel v ref env).

Lemma reference_read_mono `{AEAD} repository channel verifier h0 h h' h'' ref object :
  extends h0 h → extends h' h'' → reference_read repository channel verifier h h' ref object →
  reference_read repository channel verifier h0 h'' ref object.
Proof.
  intros H0 H1 (Hv & (o & raw & Hg & Ho & Hr) & Ha). split; [done|]. split.
  - exists o, raw. split; [by eapply since_mono|done].
  - intros v E. destruct (Ha v E) as (env & He & Hb). exists env. split; [by eapply since_mono|done].
Qed.

Section Traces.
Context `{AEAD} {S : Type} (R : rely eff) (G : guarantee eff) (HG : reads_free G).

Lemma sv_Get_acting (v : StoreValue) k o h :
  acting (S:=S) G R (sv_Get v k o) h (λ h' r, ∀ ob, r = Ok ob → ∃ o raw,
    since h h' (Ev (Store_Get k o) (Ok raw)) ∧ sv_open v k (ob_Data raw) = Ok (ob_Data ob) ∧
    ob_Version raw = ob_Version ob).
Proof.
  revert o h. induction v as [t a|p v IH|p v IH]; intros o h; simpl.
  { apply doing_callr; [by apply HG|]. intros r _ ob ->. exists o, ob. split_and!; [|done|done]. by apply since_snoc. }
  all: unfold encrypted_Get; do_step; apply doing_ctx; [done|]; intros [e|]; [done|];
    do 2 do_step; [done|]; do_step; eapply doing_mono; [apply IH|]; intros h2 [ob|e] E2 Hob; [|done];
    destruct (Hob ob eq_refl) as (o' & raw & Hg & Ho & Hv);
    do 2 do_step; destruct (OpenObject p k (ob_Data ob)) as [data|] eqn:Hd; simpl; [|done];
    do 2 do_step; [done|]; do_step; apply doing_ctx; [done|]; intros [e|]; [done|];
    do_step; intros ob' [= <-]; exists o', raw;
    (split_and!; [eapply since_mono; [apply extends_snoc|apply extends_snoc|done]|by rewrite Ho|done]).
Qed.

Lemma getReference_acting repository channel ifNoneMatch verifier h :
  acting (S:=S) G R (getReferenceWithVerifier repository channel ifNoneMatch verifier) h (λ h' r,
    ∀ ref object, r = Ok (ref, object) → reference_read repository channel verifier h h' ref object).
Proof.
  intros s. eapply mwp_mono; [apply mwp_conj; [apply (getReference_reading R G HG)|]|].
  { enough (acting (S:=S) G R (getReferenceWithVerifier repository channel ifNoneMatch verifier) h (λ h' r,
      ∀ ref object, r = Ok (ref, object) →
        (∃ options raw, since h h' (Ev (Store_Get (reference_key repository channel verifier) options) (Ok raw)) ∧
          sv_open (rp_reader repository) (reference_key repository channel verifier) (ob_Data raw)
            = Ok (ob_Data object) ∧ ob_Version raw = ob_Version object) ∧
        (∀ v, verifier = Some v →
          ∃ env, since h h' (authentication env) ∧ verified_by (ob_Data object) channel v ref env))) as Ha
      by exact (Ha s).
    unfold getReferenceWithVerifier. do 2 do_step; [done|]. do_step.
    eapply doing_mono; [apply sv_Get_acting|]. intros h1 [ob|e] E1 Hob; [|done].
    destruct (Hob ob eq_refl) as (o & raw & Hg & Ho & Hv).
    do 2 do_step. destruct (validateStoreVersion (ob_Version ob)); simpl; [|done]. do_step.
    intros s1. eapply mwp_mono; [apply mwp_conj; [by apply VerifySnapshotReference_spec|
      by apply VerifySnapshotReference_reads]|].
    intros h2 s2 r [[-> Hr] E2]. split; [by apply extends_reads|]. destruct r as [id|e]; [|done].
    do_step. intros ref object [= <- <-]. split.
    - exists o, raw. split; [|done]. eapply (since_mono _ h); [reflexivity|by apply extends_reads|done].
    - intros v ->. destruct Hr as (_ & _ & _ & env & Hb & _ & _ & ->). exists env. split; [|done].
      eapply (since_mono _ h1); [done|reflexivity|]. exists [Ev CtxErr None; authentication env].
      split; [done|]. right. by left. }
  intros h' s' r [(_ & E & Hv) [_ Hr]]. split; [by apply extends_reads|]. intros ref object ->.
  split; [by apply Hv|by apply Hr].
Qed.
End Traces.

(** ** Properties *)

(** Content addressing.  Whatever the object store answers, two loads of
    the manifest a digest names, at any two times, return the same value,
    unless two of the objects read collide. *)
Theorem getManifest_content_addressed {U : Hashed} `{AEADLaws} {T} `{JSON T} (repository : Repository)
    (kind : bytes) (digest : Digest) (R : rely eff) (h h' : history eff) :
  hashing repository R →
  mwp R any_call (getManifest (T:=T) repository kind digest) tt h (λ _ _ r1,
    mwp R any_call (getManifest (T:=T) repository kind digest) tt h' (λ _ _ r2,
      ∀ v1 v2, r1 = Ok v1 → r2 = Ok v2 → v1 = v2 ∨ sha256_collision)).
Proof.
  intros HR. eapply mwp_mono; [by apply getManifest_reading|]. intros h1 s1 r1 (_ & _ & Hr1).
  eapply mwp_mono; [by apply getManifest_reading|]. intros h2 s2 r2 (_ & _ & Hr2) v1 v2 -> ->.
  eapply named_by_unique; [by apply Hr1|by apply Hr2].
Qed.

(** *** Keys *)

(** The object kinds of the protocol. *)
Definition object_kinds : list bytes :=
  [str "chunk"; str "file"; str "dir"; str "symlink"; str "commit"].

Definition key_base (repository : Repository) : bytes :=
  (if rp_prefix repository !=? [] then rp_prefix repository ++ [slash] ++ repositoryNamespace
   else repositoryNamespace) ++ [slash].

Lemma key_split repository relative : key repository relative = key_base repository ++ relative.
Proof. unfold key, key_base. by rewrite <- (assoc_L (++)). Qed.

Lemma key_inj repository a b : key repository a = key repository b → a = b.
Proof. rewrite !key_split. apply app_inv_head. Qed.

Lemma take2_hex_length l : digest_wf l → length (take 2 (hex_EncodeToString l)) = 2%nat.
Proof. unfold digest_wf. intros Hl. rewrite length_take, hex_encode_length, Hl. done. Qed.

(** Length of every object key. *)
Lemma objectKey_length repository kind digest :
  digest_wf digest →
  len (objectKey repository kind digest)
  = len (key_base repository) + len kind
    + match rp_clientEncryption repository with Some _ => 88 | None => 83 end.
Proof.
  intros Hd. unfold objectKey.
  destruct (rp_clientEncryption repository) as [p|]; rewrite key_split; unfold len;
    rewrite !length_app; unfold opaqueObjectID, Digest_String.
  - rewrite take2_hex_length by apply hmac_sha256_length.
    rewrite hex_encode_length, hmac_sha256_length. simpl. lia.
  - rewrite take2_hex_length by done. rewrite hex_encode_length, Hd. simpl. lia.
Qed.

Lemma Digest_zero_wf : digest_wf Digest_zero.
Proof. done. Qed.

(** Every key fits.  In a repository that [newRepository] accepts, the key
    of every object of every protocol kind, the descriptor key and, for every
    channel that the repository accepts, both reference keys are at most 1024
    bytes long: no write fails late on the key limit. *)
Theorem repository_keys_fit reader store prefix options repository :
  newRepository reader store prefix options = Ok repository →
  (∀ kind digest, kind ∈ object_kinds → digest_wf digest →
     len (objectKey repository kind digest) ≤ maxObjectKeyBytes) ∧
  len (DescriptorKey repository) ≤ maxObjectKeyBytes ∧
  (∀ channel, Repository_validateChannel repository channel = Ok tt →
     len (ReferenceKey repository channel) ≤ maxObjectKeyBytes ∧
     len (SignedReferenceKey repository channel) ≤ maxObjectKeyBytes).
Proof.
  unfold newRepository. intros Hn. ok_inv. bool_prop.
  match goal with Hl : len (objectKey _ _ _) ≤ _ |- _ =>
    rewrite objectKey_length in Hl by apply Digest_zero_wf end.
  change (len (str "symlink")) with 7 in *. subst repository. split_and!.
  - intros kind digest Hk Hd. rewrite objectKey_length by done.
    assert (len kind ≤ 7); [|lia].
    unfold object_kinds in Hk. rewrite !elem_of_cons in Hk. set_unfold in Hk.
    by destruct_or! Hk; subst.
  - unfold DescriptorKey. rewrite key_split, len_app. change (len (str "repository")) with 10.
    destruct (rp_clientEncryption _); lia.
  - intros channel Hc. unfold Repository_validateChannel in Hc. ok_inv. bool_prop.
    split; [|done]. unfold ReferenceKey, SignedReferenceKey in *.
    rewrite key_split, !len_app in *.
    change (len (str "refs/")) with 5. change (len (str "signed-refs/v1/")) with 15 in *. lia.
Qed.

Lemma repository_keys_fit_witness :
  ∃ repository, newRepository (SV_External false None) None (str "team/a/") {| ro_ClientEncryption := None |}
    = Ok repository ∧
  len (objectKey repository (str "dir") (fixture_digest 0)) ≤ maxObjectKeyBytes.
Proof.
  eexists. split; [by vm_compute|].
  eapply (repository_keys_fit (SV_External false None) None (str "team/a/")
           {| ro_ClientEncryption := None |}); [by vm_compute| |done].
  unfold object_kinds. do 2 right. left.
Defined.

(** One key, one purpose.  The keys of references, signed references,
    objects and the descriptor of a repository never coincide; different
    channels have different reference keys; and in a plaintext repository
    different objects have different keys. *)
Theorem repository_keys_disjoint (repository : Repository) (c c' kind kind' : bytes)
    (d d' : Digest) :
  (ReferenceKey repository c = ReferenceKey repository c' → c = c') ∧
  (SignedReferenceKey repository c = SignedReferenceKey repository c' → c = c') ∧
  ReferenceKey repository c ≠ SignedReferenceKey repository c' ∧
  ReferenceKey repository c ≠ objectKey repository kind d ∧
  SignedReferenceKey repository c ≠ objectKey repository kind d ∧
  (∀ k, k ∈ [ReferenceKey repository c; SignedReferenceKey repository c; objectKey repository kind d] →
     DescriptorKey repository ≠ k) ∧
  (rp_clientEncryption repository = None → kind ∈ object_kinds → kind' ∈ object_kinds →
   digest_wf d → digest_wf d' →
   objectKey repository kind d = objectKey repository kind' d' → kind = kind' ∧ d = d').
Proof.
  split_and!.
  - intros E%key_inj%app_inv_head. by apply base64_raw_inj.
  - intros E%key_inj%app_inv_head. by apply base64_raw_inj.
  - by intros E%key_inj.
  - unfold objectKey. destruct (rp_clientEncryption repository); by intros E%key_inj.
  - unfold objectKey. destruct (rp_clientEncryption repository); by intros E%key_inj.
  - intros k Hk. rewrite !elem_of_cons in Hk. destruct Hk as [->|[->|[->|Hk]]]; [..|by set_solver].
    + by intros E%key_inj.
    + by intros E%key_inj.
    + unfold objectKey. destruct (rp_clientEncryption repository); by intros E%key_inj.
  - intros He Hk Hk' Hd Hd' E. unfold objectKey in E. rewrite He in E.
    apply key_inj, app_inv_head in E.
    assert (∀ k, k ∈ object_kinds → slash ∉ k) as Hs.
    { intros k Hin. unfold object_kinds in Hin. rewrite !elem_of_cons in Hin.
      destruct Hin as [->|[->|[->|[->|[->|Hin]]]]]; [refine (bool_decide_unpack _ _); by vm_compute..|].
      by apply not_elem_of_nil in Hin. }
    apply (sep_split_inj slash) in E as [-> E]; [|by apply Hs..]. split; [done|].
    apply (app_inv_head (str "sha256/")) in E.
    apply (f_equal (drop 3)) in E. unfold Digest_String in E.
    rewrite !(assoc_L (++)) in E. rewrite !drop_app_length' in E
      by (rewrite length_app, take2_hex_length; done).
    by apply hex_encode_inj.
Qed.

(** *** Stored data *)

Section Stored.
Context `{AEADLaws} {W : Type} `{StoreContract W}.
Variable other : ∀ X, eff X → X.
Hypothesis other_ctx : other _ CtxErr = None.

Abbreviation H_ := (store_handler (W:=W) other).

(** The layers a writable repository has over an external store. *)
Definition plain_or_encrypted (v : StoreValue) : Prop :=
  match v with
  | SV_External _ _ | SV_EncryptedStore _ (SV_External _ _) => True
  | _ => False
  end.

Lemma run_sealForWrite p k data w (s : unit) :
  ∃ r, run H_ (sealForWrite p k data s) w = (w, (s, r)) ∧
    ∀ envelope, r = Ok envelope → OpenObject p k envelope = Ok data.
Proof.
  unfold sealForWrite, SealObject. erun. rewrite other_ctx. erun.
  destruct (Z.ltb_spec ClientEncryptionMaxPlaintextBytes (len data)) as [Hl|Hl]; simpl; [by eexists|].
  erun. destruct (other (result bytes) (Rand_Read clientEncryptionSaltBytes)) as [random|]; [|by eexists].
  erun. destruct (objectAEAD p k (fill 16 random)) as [key|] eqn:Hk; [|by eexists].
  erun. destruct (other (result bytes) (Rand_Read 12)) as [nonce|]; [|by eexists].
  erun. rewrite other_ctx. erun. eexists. split; [done|]. intros e [= <-].
  apply OpenObject_envelope; [apply fill_length..|done|done].
Qed.

Lemma run_sv_Head v k w (s : unit) :
  plain_or_encrypted v →
  run H_ (sv_Head v k s) w = ((st_Head w k).1, (s, (st_Head w k).2)).
Proof.
  intros Hv. destruct v as [t a|p v|p [t a| |]]; try done; simpl; erun;
    by destruct (st_Head w k).
Qed.

(** A write creates an object that opens to the data, or changes nothing. *)
Lemma run_sv_PutIfAbsent v k data w (s : unit) :
  plain_or_encrypted v → st_objects w !! k = None →
  ∃ w' r, run H_ (sv_PutIfAbsent v k data s) w = (w', (s, r)) ∧
    (refused w w' r ∨ ∃ raw ver, r = Ok ver ∧ sv_open v k raw = Ok data ∧
       validateStoreVersion ver = Ok tt ∧
       st_objects w' = <[k := {| ob_Data := raw; ob_Version := ver |}]> (st_objects w)).
Proof.
  intros Hv Hk. destruct v as [t a|p v|p [t a| |]]; try done; simpl.
  - erun. pose proof (st_Put_absent w k data Hk) as Hp.
    destruct (st_PutIfAbsent w k data) as [w' r]. exists w', r. split; [done|].
    destruct Hp as [Hp|(ver & -> & Hver & Ho)]; [by left|]. right. by exists data, ver.
  - rewrite run_mbind. destruct (run_sealForWrite p k data w s) as (r & -> & Hr).
    destruct r as [envelope|e].
    + erun. pose proof (st_Put_absent w k envelope Hk) as Hp.
      destruct (st_PutIfAbsent w k envelope) as [w' r]. exists w', r. split; [done|].
      destruct Hp as [Hp|(ver & -> & Hver & Ho)]; [by left|]. right. exists envelope, ver.
      split_and!; [done|by apply Hr|done|done].
    + exists w, (Err e). split; [done|]. left. by split; [|eauto].
Qed.

(** Reading an object that opens to data within the limit. *)
Lemma run_sv_Get v k w (s : unit) ob data limit :
  plain_or_encrypted v → st_objects w !! k = Some ob → sv_open v k (ob_Data ob) = Ok data →
  0 < limit ≤ ClientEncryptionMaxPlaintextBytes → len data ≤ limit →
  ∃ w', run H_ (sv_Get v k {| go_IfNoneMatch := []; go_MaxBytes := limit |} s) w
    = (w', (s, Ok {| ob_Data := data; ob_Version := ob_Version ob |})) ∧
    st_objects w' = st_objects w.
Proof.
  intros Hv Hk Ho Hl Hd. destruct v as [t a|p v|p [t a| |]]; try done; simpl in *.
  - injection Ho as Ho. erun.
    pose proof (st_Get_objects w k {| go_IfNoneMatch := []; go_MaxBytes := limit |}) as Hw.
    pose proof (st_Get_present w k {| go_IfNoneMatch := []; go_MaxBytes := limit |} ob Hk) as Hg.
    destruct (st_Get w k _) as [w' r]; simpl in *. exists w'. split; [|done].
    rewrite Hg by lia. rewrite Ho. destruct (Z.ltb_spec limit (len data)); [lia|].
    rewrite andb_false_r. destruct ob; simpl in *; by subst.
  - unfold encrypted_Get. erun. rewrite other_ctx. erun.
    destruct (Z.ltb_spec limit 0); [lia|]. erun.
    destruct (Z.eqb_spec limit 0); [lia|]. simpl.
    destruct (Z.ltb_spec ClientEncryptionMaxPlaintextBytes limit); [lia|]. erun.
    set (o := {| go_IfNoneMatch := []; go_MaxBytes := limit + ClientEncryptionCiphertextOverhead |}).
    pose proof (st_Get_objects w k o) as Hw. pose proof (st_Get_present w k o ob Hk) as Hg.
    destruct (st_Get w k o) as [w' r]; simpl in *. exists w'. split; [|done].
    pose proof (OpenObject_size _ _ _ _ Ho) as Hsz.
    unfold ClientEncryptionCiphertextOverhead in *. rewrite Hg by (simpl; lia).
    destruct (Z.ltb_spec (limit + (8 + 16 + 12 + 16)) (len (ob_Data ob))); [lia|].
    rewrite andb_false_r. erun. rewrite Ho. erun.
    destruct (Z.ltb_spec limit (len data)); [lia|]. rewrite andb_false_r. erun.
    rewrite other_ctx. done.
Qed.

(** What is stored under the key of an object, if anything, is that object. *)
Definition stored_ok (repository : Repository) (v : StoreValue) (kind : bytes) (digest : Digest)
    (w : W) : Prop :=
  ∀ ob, st_objects w !! objectKey repository kind digest = Some ob →
    validateStoreVersion (ob_Version ob) = Ok tt ∧
    ∃ data, sv_open v (objectKey repository kind digest) (ob_Data ob) = Ok data ∧
      digestObject kind data = digest ∧ len data ≤ kind_limit kind.

Lemma kind_limit_bounds kind : 0 < kind_limit kind ≤ ClientEncryptionMaxPlaintextBytes.
Proof. unfold kind_limit. by case_bool_decide. Qed.

(** A successful put leaves the object in the store. *)
Lemma run_putImmutable repository v kind data w w' (s s' : unit) digest :
  rp_store repository = Some v → plain_or_encrypted v → len data ≤ kind_limit kind →
  stored_ok repository v kind (digestObject kind data) w →
  run H_ (putImmutable repository kind data s) w = (w', (s', Ok digest)) →
  digest = digestObject kind data ∧ stored_ok repository v kind digest w' ∧
  is_Some (st_objects w' !! objectKey repository kind digest).
Proof.
  intros Hst Hv Hlen Hok. unfold putImmutable, with_store. rewrite Hst. erun.
  rewrite run_sv_Head by done. set (k := objectKey repository kind (digestObject kind data)).
  pose proof (st_Head_objects w k) as Hw1. rewrite (st_Head_spec w k).
  destruct (st_Head w k) as [w1 r1]; simpl in *.
  destruct (st_objects w !! k) as [ob|] eqn:Hk.
  - erun. destruct (validateStoreVersion (ob_Version ob)); erun; intros [= <- <- <-].
    split; [done|]. unfold stored_ok. rewrite Hw1. fold k. rewrite Hk. split; [|by eauto].
    rewrite <- Hk. exact Hok.
  - erun.
    assert (st_objects w1 !! k = None) as Hk1 by (by rewrite Hw1).
    destruct (run_sv_PutIfAbsent v k data w1 s Hv Hk1) as (w2 & r2 & -> & Hp).
    destruct Hp as [[Ho (e & ->)]|(raw & ver & -> & Hop & Hver & Ho)].
    + erun. destruct (errors_Is e ErrPrecondition); erun; [|done].
      rewrite run_sv_Head by done. rewrite (st_Head_spec w2 k), Ho, Hk1.
      by destruct (st_Head w2 k).
    + erun. rewrite Hver. erun. intros [= <- <- <-]. split; [done|]. unfold stored_ok. fold k.
      rewrite Ho, lookup_insert_eq. split; [|by eauto]. intros ob [= <-]. simpl. eauto.
Qed.

Lemma run_getImmutable repository v kind digest w (s : unit) :
  rp_reader repository = v → plain_or_encrypted v → stored_ok repository v kind digest w →
  is_Some (st_objects w !! objectKey repository kind digest) →
  ∃ w' data, run H_ (getImmutable repository kind digest s) w = (w', (s, Ok data)) ∧
    digestObject kind data = digest.
Proof.
  intros Hr Hv Hok [ob Hob]. destruct (Hok ob Hob) as (Hver & data & Hop & Hd & Hl).
  unfold getImmutable, getImmutableLimited. rewrite Hr, run_mbind.
  destruct (run_sv_Get v (objectKey repository kind digest) w s ob data (kind_limit kind))
    as (w' & -> & Hw'); try done; [apply kind_limit_bounds|].
  erun. rewrite Hver. erun. destruct (Z.ltb_spec (kind_limit kind) (len data)); [lia|]. erun.
  rewrite bool_decide_true by done. erun. by exists w', data.
Qed.

(** C33: stored objects come back.  Over any store that keeps the Store
    contract, encrypted or not, after a successful [putImmutable] the object
    can be read by the digest it returned, and what is read is the data that was
    put, or collides with it under SHA-256.  This holds also when the object
    was there before, provided what is stored under its key is an object of
    that digest. *)
Theorem put_get_roundtrip repository v kind data w w' (s s' : unit) digest :
  rp_store repository = Some v → rp_reader repository = v → plain_or_encrypted v →
  len data ≤ kind_limit kind → stored_ok repository v kind (digestObject kind data) w →
  run H_ (putImmutable repository kind data s) w = (w', (s', Ok digest)) →
  ∃ w'' data', run H_ (getImmutable repository kind digest s') w' = (w'', (s', Ok data')) ∧
    (data' = data ∨ collide (objectMessage kind data') (objectMessage kind data)).
Proof.
  intros Hst Hr Hv Hl Hok Hrun.
  destruct (run_putImmutable _ _ _ _ _ _ _ _ _ Hst Hv Hl Hok Hrun) as (-> & Hok' & Hin).
  destruct (run_getImmutable _ _ _ _ _ s' Hr Hv Hok' Hin) as (w'' & data' & Hg & Hd).
  exists w'', data'. split; [done|]. by eapply digestObject_inj_data.
Qed.
End Stored.

(** An encrypted repository over the in-memory store. *)
Definition live (X : Type) (e : eff X) : X :=
  match e in eff T return T with
  | CtxErr => None
  | Rand_Read n => Ok (replicate (Z.to_nat n) x07)
  | e' => refuse e'
  end.

Definition toy_store : StoreValue := SV_EncryptedStore toy_profile (SV_External false None).
Definition toy_repository : Repository :=
  {| rp_reader := toy_store; rp_store := Some toy_store; rp_prefix := str "team";
     rp_clientEncryption := Some toy_profile; rp_descriptor := None |}.

Lemma put_get_roundtrip_witness :
  let put := run (store_handler live)
               (putImmutable (H:=toy_aead) toy_repository (str "chunk") (str "hello") tt) New in
  ∃ digest, put.2.2 = Ok digest ∧
  ∃ w'' data', run (store_handler live)
      (getImmutable (H:=toy_aead) toy_repository (str "chunk") digest tt) put.1
    = (w'', (tt, Ok data')) ∧ (data' = str "hello" ∨
         collide (objectMessage (str "chunk") data') (objectMessage (str "chunk") (str "hello"))).
Proof.
  intros put. exists (digestObject (str "chunk") (str "hello")). split; [by vm_compute|].
  refine (@put_get_roundtrip toy_aead toy_aead_laws Store memstore_ops memstore_contract live eq_refl
           toy_repository toy_store (str "chunk") (str "hello") New put.1 tt tt
           (digestObject (str "chunk") (str "hello")) eq_refl eq_refl I _ _ _).
  - by vm_compute.
  - intros ob Hob. by vm_compute in Hob.
  - transitivity (put.1, put.2); [apply surjective_pairing|]. f_equal.
Defined.

(** *** Commissioning *)

Section Commissioning.
Context `{AEADLaws} `{Chunker}.
Variables (store : option StoreValue) (prefix : bytes) (config : RepositoryConfig).

(** What commissioning may write: the descriptor of the requested
    configuration, under the descriptor key, if the caller confirmed that the
    prefix is empty. *)
Definition commissioning_writes (confirm : bool) : guarantee eff := λ _ X e,
  match e with
  | Store_PutIfAbsent k raw =>
      confirm = true ∧ ∃ repository expected v,
        configuredWritableRepository store prefix config = Ok (repository, expected) ∧
        rp_store repository = Some v ∧ k = DescriptorKey repository ∧
        sv_open v k raw = Ok (canonicalJSON expected)
  | e' => is_read e' = true
  end.

Lemma commissioning_reads confirm : reads_free (commissioning_writes confirm).
Proof. intros h X e He. by destruct e. Qed.

(** The descriptor of a configuration. *)
Definition descriptor_of (repository : Repository) (d : RepositoryDescriptor) : Prop :=
  rd_Format d = RepositoryDescriptorFormat ∧ rd_RepositoryID d = rcf_RepositoryID config ∧
  rd_RepositoryPrefix d = Trim prefix slash ∧ rp_prefix repository = Trim prefix slash ∧
  normalized (rcf_Chunking config) = Ok (RepositoryDescriptor_ChunkingOptions d) ∧
  rd_StorageProfile d = (if rcf_ClientEncryption config is Some _
    then RepositoryStorageProfileStrictShareIsolationV1 else RepositoryStorageProfilePlaintextV1) ∧
  rp_clientEncryption repository = rcf_ClientEncryption config.

Lemma newRepository_fields reader st options repository :
  newRepository reader st prefix options = Ok repository →
  rp_prefix repository = Trim prefix slash ∧ rp_store repository = st ∧
  rp_clientEncryption repository = ro_ClientEncryption options.
Proof. unfold newRepository. intros Hn. ok_inv. by subst. Qed.

Lemma NewRepositoryWithOptions_fields options repository :
  NewRepositoryWithOptions store prefix options = Ok repository →
  rp_prefix repository = Trim prefix slash ∧ is_Some (rp_store repository) ∧
  rp_clientEncryption repository = ro_ClientEncryption options.
Proof.
  unfold NewRepositoryWithOptions. destruct store as [st|]; [|done]. intros Hn.
  destruct (ro_ClientEncryption options) eqn:He; ok_inv;
    apply newRepository_fields in Hn as (? & Hs & ?); rewrite Hs; split_and!; try done;
    congruence.
Qed.

Lemma configuredWritableRepository_spec repository expected :
  configuredWritableRepository store prefix config = Ok (repository, expected) →
  descriptor_of repository expected ∧ is_Some (rp_store repository).
Proof.
  unfold configuredWritableRepository, descriptorConfiguration. intros Hc. ok_inv.
  destruct v as [d o]. ok_inv. simplify_eq.
  match goal with Hn : NewRepositoryWithOptions _ _ _ = Ok _ |- _ =>
    apply NewRepositoryWithOptions_fields in Hn as (Hp & Hs & He) end. simpl in He.
  split; [|done]. unfold descriptor_of; simpl. rewrite Hp.
  destruct (rcf_ClientEncryption config); ok_inv; subst; split_and!; try done;
    match goal with Hn : normalized _ = Ok ?c |- _ => by rewrite Hn; destruct c end.
Qed.

Lemma acceptRepositoryDescriptor_spec {S} R G repository expected actual (s : S) h :
  mwp R G (acceptRepositoryDescriptor repository expected actual) s h (λ _ s' r, s' = s ∧
    ∀ x, r = Ok x → x = (setDescriptor repository expected, expected) ∧ actual = expected).
Proof.
  unfold acceptRepositoryDescriptor. do 2 mwp_go; [done|]. mwp_go. split; [done|].
  intros x [= <-]. by bool_prop; subst.
Qed.

(** Commissioning is write-once and exact.  Whatever the store answers,
    [InitializeRepository] writes nothing but a PutIfAbsent of the descriptor
    of the requested configuration under the descriptor key, and only with the
    caller's confirmation; if it returns a repository, the descriptor it
    carries is the requested one (identity, prefix, normalized chunking,
    storage profile), whether it was created or found. *)
Theorem InitializeRepository_exact (confirm : bool) (h : history eff) :
  mwp any_rely (commissioning_writes confirm) (InitializeRepository store prefix config confirm) tt h
    (λ _ _ r, ∀ repository d, r = Ok (repository, d) →
       rp_descriptor repository = Some d ∧ descriptor_of repository d ∧
       is_Some (rp_store repository)).
Proof.
  unfold InitializeRepository. mwp_go. mwp_go.
  destruct (configuredWritableRepository store prefix config) as [[repository expected]|] eqn:Hc;
    [|done].
  destruct (configuredWritableRepository_spec _ _ Hc) as (Hd & v & Hv).
  assert (∀ s h actual, mwp any_rely (commissioning_writes confirm)
    (acceptRepositoryDescriptor repository expected actual) s h (λ _ (_ : unit) r,
      ∀ repository0 d, r = Ok (repository0, d) →
       rp_descriptor repository0 = Some d ∧ descriptor_of repository0 d ∧
       is_Some (rp_store repository0))) as Hacc.
  { intros s1 h1 actual. eapply mwp_mono; [apply acceptRepositoryDescriptor_spec|].
    intros h2 s2 r [_ Hr] repo d ->. destruct (Hr _ eq_refl) as [[= -> ->] _]. by eauto. }
  mwp_go. eapply mwp_mono; [apply loadDescriptor_reading, commissioning_reads|].
  intros h1 [] [[actual|]|e] (_ & E1 & _); [by apply Hacc| |done].
  do 2 mwp_go; [done|]. do 2 mwp_go. unfold with_store. rewrite Hv.
  apply sv_PutIfAbsent_spec; [apply commissioning_reads| | |].
  - intros h' raw _ Ho. split; [by bool_prop|]. by exists repository, expected, v.
  - intros h' e E2. do 2 mwp_go. eapply mwp_mono; [apply loadDescriptor_reading, commissioning_reads|].
    intros h2 [] [[actual|]|e'] _; simpl; [by apply Hacc|done|done].
  - intros h' raw [ver|e] E2 Ho _.
    + do 2 mwp_go. destruct (validateStoreVersion ver); simpl; [|done]. mwp_go.
      intros repo d [= <- <-]. by eauto.
    + do 2 mwp_go. eapply mwp_mono; [apply loadDescriptor_reading, commissioning_reads|].
      intros h2 [] [[actual|]|e'] _; simpl; [by apply Hacc|done|done].
Qed.
End Commissioning.

Definition toy_config : RepositoryConfig :=
  {| rcf_RepositoryID := fixture_digest 7; rcf_Chunking := ChunkingOptions_zero;
     rcf_ClientEncryption := None |}.

Lemma InitializeRepository_exact_witness :
  let store := Some (SV_External false None) in
  mwp any_rely (commissioning_writes (H:=toy_aead) (H1:=toy_chunker) store (str "team") toy_config true)
    (InitializeRepository (H:=toy_aead) (H0:=toy_chunker) store (str "team") toy_config true) tt []
    (λ _ _ r, ∀ repository d, r = Ok (repository, d) →
       rp_descriptor repository = Some d ∧ descriptor_of (H1:=toy_chunker) (str "team") toy_config repository d ∧
       is_Some (rp_store repository)).
Proof.
  exact (@InitializeRepository_exact toy_aead toy_aead_laws toy_chunker (Some (SV_External false None))
           (str "team") toy_config true []).
Defined.

Lemma getManifest_content_addressed_witness :
  let U := everything in
  mwp any_rely any_call (getManifest (H:=toy_aead) (T:=dirManifest) toy_repository (str "dir") (fixture_digest 1))
    tt [] (λ _ _ r1,
    mwp any_rely any_call (getManifest (H:=toy_aead) (T:=dirManifest) toy_repository (str "dir") (fixture_digest 1))
      tt [] (λ _ _ r2, ∀ v1 v2, r1 = Ok v1 → r2 = Ok v2 → v1 = v2 ∨ sha256_collision)).
Proof.
  intros U. by apply (@getManifest_content_addressed U toy_aead toy_aead_laws dirManifest _ toy_repository (str "dir")
           (fixture_digest 1) any_rely [] []).
Defined.
