(* ===== verification/Compatibility.v ===== *)
(** * The commissioning probe of a store ([compatibility.go],
    [compatibility_report.go], [compatibility_evidence.go])

    A probe works on random keys below the repository's prefix and decides
    whether a deployed store keeps the contract the protocol needs.  Its calls of
    the store are answered freely.  The eight contenders of a concurrent check
    write at the same time: their answers are one event, an outcome for each
    contender and the order in which the results arrive.  A store that keeps the
    buffers it is given can answer with changed bytes, as any store can.

    An error of the store is a tree ([cause]): the probe distinguishes what
    errors.Is and errors.As find in it and how it was put together.  The texts of
    a report (summaries, details, hints) are dropped; that a write was
    reconciled, which the code keeps in the detail of its check, is a flag. *)

From S2P Require Import Prelude.
From S2P Require Import Prog.
From S2P Require Import GoStd.
From S2P Require Import Encoding.
From S2P Require Import Sha256.
From S2P Require Import Model.
From S2P Require Import Rfc3339.
From S2P Require Import Effects.
From S2P Require Import ClientEncryption.
From S2P Require Import Repository.

(** ** Errors *)

(** A sentinel; an error that ClassifyObjectNotFound made; an error type with an
    Is method for [matches], perhaps a net.Error, that wraps an error or none
    (fmt.Errorf, provider errors); several errors joined. *)
Inductive cause :=
| Sentinel (s : sentinel)
| ClassifiedNotFound (c : cause)
| Custom (network : bool) (matches : list sentinel) (inner : option cause)
| Join (causes : list cause).

Definition ClassifyObjectNotFound (c : option cause) : cause :=
  match c with None => Sentinel ErrObjectNotFound | Some c => ClassifiedNotFound c end.

(** What errors.Is finds. *)
Fixpoint sentinels (c : cause) : error :=
  match c with
  | Sentinel s => [s]
  | ClassifiedNotFound c => ErrObjectNotFound :: sentinels c
  | Custom _ matches inner => matches ++ match inner with Some c => sentinels c | None => [] end
  | Join causes => concat (map sentinels causes)
  end.
Definition cause_Is (c : cause) (s : sentinel) : bool := errors_Is (sentinels c) s.

(** errors.As with a net.Error, which context.DeadlineExceeded is as well. *)
Fixpoint networkError (c : cause) : bool :=
  match c with
  | Sentinel s => s ==? CtxDeadlineExceeded
  | ClassifiedNotFound c => networkError c
  | Custom network _ inner => network || match inner with Some c => networkError c | None => false end
  | Join causes => existsb networkError causes
  end.

(** fmt.Errorf with one %w. *)
Definition wrapped (s : sentinel) : cause := Custom false [] (Some (Sentinel s)).

(** ** Reports *)

Inductive StoreCompatibilityStatus :=
| StoreCompatibilityPassed | StoreCompatibilityIncompatible | StoreCompatibilityIndeterminate
| StoreCompatibilityConfigurationError | StoreCompatibilityPermissionDenied.
#[export] Instance StoreCompatibilityStatus_eq_dec : EqDecision StoreCompatibilityStatus.
Proof. solve_decision. Defined.

Inductive StoreCompatibilityReason :=
| StoreCompatibilityReasonSemanticViolation | StoreCompatibilityReasonOperationUnsupported
| StoreCompatibilityReasonInvalidConfiguration | StoreCompatibilityReasonBucketNotFound
| StoreCompatibilityReasonAccessDenied | StoreCompatibilityReasonRateLimited
| StoreCompatibilityReasonStoreUnavailable | StoreCompatibilityReasonCanceled
| StoreCompatibilityReasonDeadlineExceeded | StoreCompatibilityReasonNetworkError
| StoreCompatibilityReasonLocalProbeFailure | StoreCompatibilityReasonUnknownOperational.
#[export] Instance StoreCompatibilityReason_eq_dec : EqDecision StoreCompatibilityReason.
Proof. solve_decision. Defined.

Inductive StoreCompatibilityCheckID :=
| StoreCompatibilityCheckConfiguration | StoreCompatibilityCheckProbeKey
| StoreCompatibilityCheckMissingObjectMapping | StoreCompatibilityCheckConditionalCreate
| StoreCompatibilityCheckHeadAfterCreate | StoreCompatibilityCheckReadAfterCreate
| StoreCompatibilityCheckInputBufferOwnership | StoreCompatibilityCheckCASInputBufferOwnership
| StoreCompatibilityCheckDuplicateCreate | StoreCompatibilityCheckBoundedGet
| StoreCompatibilityCheckOutputBufferOwnership | StoreCompatibilityCheckStaleCAS
| StoreCompatibilityCheckFailedCASPreservesObject | StoreCompatibilityCheckReplacementCAS
| StoreCompatibilityCheckReadAfterReplacement | StoreCompatibilityCheckHeadAfterReplacement
| StoreCompatibilityCheckConditionalGetCurrent | StoreCompatibilityCheckConditionalGetStale
| StoreCompatibilityCheckNilCASCreate | StoreCompatibilityCheckNilCASDuplicate
| StoreCompatibilityCheckNilCASPreservesObject | StoreCompatibilityCheckMissingKeyCAS
| StoreCompatibilityCheckConcurrentPutIfAbsent | StoreCompatibilityCheckReadAfterConcurrentPut
| StoreCompatibilityCheckConcurrentNilCAS | StoreCompatibilityCheckReadAfterConcurrentNilCAS
| StoreCompatibilityCheckHeadAfterConcurrentNilCAS
| StoreCompatibilityCheckConcurrentReplacementSeed
| StoreCompatibilityCheckConcurrentReplacementCAS
| StoreCompatibilityCheckReadAfterConcurrentReplacement
| StoreCompatibilityCheckHeadAfterConcurrentReplacement.
#[export] Instance StoreCompatibilityCheckID_eq_dec : EqDecision StoreCompatibilityCheckID.
Proof. solve_decision. Defined.

Inductive StoreCompatibilityCleanupStatus :=
| StoreCompatibilityCleanupNotAttempted | StoreCompatibilityCleanupNotSupported
| StoreCompatibilityCleanupSucceeded | StoreCompatibilityCleanupFailed.
#[export] Instance StoreCompatibilityCleanupStatus_eq_dec : EqDecision StoreCompatibilityCleanupStatus.
Proof. solve_decision. Defined.

Inductive StoreCompatibilityCleanupReason :=
| StoreCompatibilityCleanupReasonDeleteNotSupported | StoreCompatibilityCleanupReasonDeleteFailed
| StoreCompatibilityCleanupReasonCurrentObjectStillVisible
| StoreCompatibilityCleanupReasonVerificationFailed | StoreCompatibilityCleanupReasonAccessDenied
| StoreCompatibilityCleanupReasonConfigurationError
| StoreCompatibilityCleanupReasonDeadlineExceeded | StoreCompatibilityCleanupReasonStoreUnavailable
| StoreCompatibilityCleanupReasonNetworkError | StoreCompatibilityCleanupReasonMultipleFailures.
#[export] Instance StoreCompatibilityCleanupReason_eq_dec : EqDecision StoreCompatibilityCleanupReason.
Proof. solve_decision. Defined.

Definition StoreCompatibilityContractVersion : Z := 1.
Definition StoreCompatibilityRequiredChecks : Z := 31.
Definition compatibilityContenders : nat := 8.
Definition StoreCompatibilityDefaultTimeout : Z := 5 * 60 * second.
Definition StoreCompatibilityMaximumTimeout : Z := 30 * 60 * second.
Definition StoreCompatibilityEvidenceIDMaxBytes : Z := 128.
Definition StoreCompatibilityImplementationVersionMaxBytes : Z := 128.
Definition compatibilityPrefixFingerprintDomain : bytes :=
  str "s3disk:store-compatibility:repository-prefix:v1" ++ [x00].
Definition compatibilityProbePayloadDomain : bytes := str "s3disk-store-probe-v1".

(** [ck_reconciled]: the detail says that the write was reconciled. *)
Record StoreCompatibilityCheck := {
  ck_ID : StoreCompatibilityCheckID;
  ck_Status : StoreCompatibilityStatus;
  ck_Reason : option StoreCompatibilityReason;
  ck_reconciled : bool;
  ck_Cause : option cause;
}.

Record StoreCompatibilityCleanupReport := {
  cu_Status : StoreCompatibilityCleanupStatus;
  cu_Reason : option StoreCompatibilityCleanupReason;
  cu_Attempted : Z;
  cu_Succeeded : Z;
  cu_Failed : Z;
  cu_DeleteFailures : Z;
  cu_CurrentObjectsStillVisible : Z;
  cu_VerificationFailures : Z;
  cu_CurrentObjectsMayRemain : bool;
  cu_HistoricalVersionsMayRemain : bool;
  cu_Cause : option cause;
}.

Record StoreCompatibilityProbeOptions := {
  po_DeploymentFingerprint : bytes;
  po_EvidenceID : bytes;
  po_ImplementationVersion : bytes;
  po_TotalTimeout : Z;
}.

Record StoreCompatibilityEvidence := {
  ev_StartedAt : Z;
  ev_DurationNanoseconds : Z;
  ev_RepositoryPrefixFingerprint : bytes;
  ev_DeploymentFingerprint : bytes;
  ev_EvidenceID : bytes;
  ev_ImplementationVersion : bytes;
  ev_FullyBound : bool;
}.

Record StoreCompatibilityReport := {
  cr_ContractVersion : Z;
  cr_Evidence : StoreCompatibilityEvidence;
  cr_ProbeID : bytes;
  cr_Status : StoreCompatibilityStatus;
  cr_Compatible : bool;
  cr_Complete : bool;
  cr_RequiredChecks : Z;
  cr_Contenders : Z;
  cr_Checks : list StoreCompatibilityCheck;
  cr_Cleanup : StoreCompatibilityCleanupReport;
}.

(** ** Classification *)

Definition compatibilityDefinitiveIncompatibility (c : cause) : bool :=
  cause_Is c ErrStoreIncompatible || cause_Is c ErrStoreOperationUnsupported
  || cause_Is c ErrObjectNotFound || cause_Is c ErrNotModified || cause_Is c ErrResourceLimit.

Definition compatibilityStatusForCause (c : cause) : StoreCompatibilityStatus :=
  if cause_Is c ErrStoreIncompatible then StoreCompatibilityIncompatible
  else if cause_Is c ErrStoreOperationUnsupported then StoreCompatibilityIncompatible
  else if cause_Is c ErrPrecondition || cause_Is c ErrObjectNotFound || cause_Is c ErrNotModified
          || cause_Is c ErrResourceLimit then StoreCompatibilityIncompatible
  else if cause_Is c ErrAccessDenied then StoreCompatibilityPermissionDenied
  else if cause_Is c ErrBucketNotFound || cause_Is c ErrStoreMisconfigured
  then StoreCompatibilityConfigurationError
  else StoreCompatibilityIndeterminate.

Definition compatibilityReconciliationStatus (c : cause) : StoreCompatibilityStatus :=
  if compatibilityDefinitiveIncompatibility c then StoreCompatibilityIncompatible
  else if cause_Is c ErrAccessDenied then StoreCompatibilityPermissionDenied
  else if cause_Is c ErrBucketNotFound || cause_Is c ErrStoreMisconfigured
  then StoreCompatibilityConfigurationError
  else if cause_Is c CtxCanceled || cause_Is c CtxDeadlineExceeded || cause_Is c ErrRateLimited
          || cause_Is c ErrStoreUnavailable then StoreCompatibilityIndeterminate
  else if networkError c then StoreCompatibilityIndeterminate
  else if cause_Is c ErrPrecondition then StoreCompatibilityIncompatible
  else StoreCompatibilityIndeterminate.

(** The loop over the causes with its early return. *)
Fixpoint failureStatus (causes : list cause) (result : StoreCompatibilityStatus) : StoreCompatibilityStatus :=
  match causes with
  | [] => result
  | c :: causes =>
      if compatibilityDefinitiveIncompatibility c then StoreCompatibilityIncompatible
      else failureStatus causes
        match compatibilityReconciliationStatus c with
        | StoreCompatibilityPermissionDenied => StoreCompatibilityPermissionDenied
        | StoreCompatibilityConfigurationError =>
            if result !=? StoreCompatibilityPermissionDenied then StoreCompatibilityConfigurationError else result
        | _ => result
        end
  end.
Definition compatibilityReconciliationFailureStatus (causes : list cause) : StoreCompatibilityStatus :=
  failureStatus causes StoreCompatibilityIndeterminate.

Definition compatibilityWriteCanReconcile (c : cause) : bool :=
  if compatibilityDefinitiveIncompatibility c then false
  else cause_Is c ErrPrecondition
       || (compatibilityReconciliationStatus c ==? StoreCompatibilityIndeterminate).

Definition compatibilityDefinitivePrecondition (c : cause) : bool :=
  if negb (cause_Is c ErrPrecondition) || compatibilityDefinitiveIncompatibility c then false
  else if cause_Is c ErrAccessDenied || cause_Is c ErrBucketNotFound || cause_Is c ErrStoreMisconfigured
          || cause_Is c CtxCanceled || cause_Is c CtxDeadlineExceeded || cause_Is c ErrRateLimited
          || cause_Is c ErrStoreUnavailable then false
  else negb (networkError c).

(** A nil cause matches nothing. *)
Definition opt_Is (c : option cause) (s : sentinel) : bool :=
  match c with Some c => cause_Is c s | None => false end.

Definition compatibilityReasonFor (id : StoreCompatibilityCheckID) (status : StoreCompatibilityStatus)
    (c : option cause) : option StoreCompatibilityReason :=
  match status with
  | StoreCompatibilityIncompatible =>
      Some (if opt_Is c ErrStoreOperationUnsupported then StoreCompatibilityReasonOperationUnsupported
            else StoreCompatibilityReasonSemanticViolation)
  | StoreCompatibilityConfigurationError =>
      Some (if opt_Is c ErrBucketNotFound then StoreCompatibilityReasonBucketNotFound
            else StoreCompatibilityReasonInvalidConfiguration)
  | StoreCompatibilityPermissionDenied => Some StoreCompatibilityReasonAccessDenied
  | StoreCompatibilityIndeterminate =>
      Some (if opt_Is c CtxDeadlineExceeded then StoreCompatibilityReasonDeadlineExceeded
            else if opt_Is c CtxCanceled then StoreCompatibilityReasonCanceled
            else if opt_Is c ErrRateLimited then StoreCompatibilityReasonRateLimited
            else if opt_Is c ErrStoreUnavailable then StoreCompatibilityReasonStoreUnavailable
            else if match c with Some c => networkError c | None => false end
            then StoreCompatibilityReasonNetworkError
            else if id ==? StoreCompatibilityCheckProbeKey then StoreCompatibilityReasonLocalProbeFailure
            else StoreCompatibilityReasonUnknownOperational)
  | StoreCompatibilityPassed => None
  end.

(** ** The verdict on a reconciled write *)

(** A refusal, which is the status and the cause of the recorded problem, or a
    value. *)
Definition verdict (A : Type) : Type := (StoreCompatibilityStatus * option cause) + A.

(** The version that was observed when the write was applied. *)
Definition compatibilityWriteReconciliation : Type := verdict Version.
Definition reconciliation (status : StoreCompatibilityStatus) (c : cause) : compatibilityWriteReconciliation :=
  inl (status, Some c).

(** The bound of the reconciling GET. *)
Definition reconcileLimit (length : Z) (previous : option Object) : Z :=
  match previous with
  | Some object => if length <? len (ob_Data object) then len (ob_Data object) else length
  | None => length
  end.

(** What the answer of that GET says about the write. *)
Definition reconcileObserved (payload : bytes) (previous : option Object) (operationErr : cause)
    (answer : cause + Object) : compatibilityWriteReconciliation :=
  match answer with
  | inl getErr =>
      let c := Join [operationErr; getErr] in
      if cause_Is getErr ErrResourceLimit then reconciliation StoreCompatibilityIncompatible c
      else if cause_Is getErr ErrObjectNotFound then
        match previous with
        | Some _ => reconciliation StoreCompatibilityIncompatible c
        | None => reconciliation (compatibilityReconciliationStatus operationErr) c
        end
      else reconciliation (compatibilityReconciliationFailureStatus [operationErr; getErr]) c
  | inr observed =>
      match validateStoreVersion (ob_Version observed) with
      | Err _ => reconciliation StoreCompatibilityIncompatible (Join [operationErr; wrapped ErrStoreIncompatible])
      | Ok _ =>
          if ob_Data observed ==? payload then
            if match previous with
               | Some object => v_ETag (ob_Version observed) ==? v_ETag (ob_Version object) | None => false end
            then reconciliation StoreCompatibilityIncompatible operationErr
            else if negb (compatibilityWriteCanReconcile operationErr)
            then reconciliation (compatibilityReconciliationStatus operationErr) operationErr
            else inr (ob_Version observed)
          else if match previous with
                  | Some object => (ob_Data observed ==? ob_Data object)
                                   && (v_ETag (ob_Version observed) ==? v_ETag (ob_Version object))
                  | None => false end
          then reconciliation (compatibilityReconciliationStatus operationErr) operationErr
          else reconciliation StoreCompatibilityIncompatible operationErr
      end
  end.

(** ** The verdict on concurrent writes *)

Record compatibilityWriteResult := {
  cw_contender : nat;
  cw_version : Version;
  cw_err : option cause;
}.

Definition compatibilityContenderPayload (base : bytes) (contender : nat) : bytes :=
  base ++ [byte_of (N.of_nat contender)].

Definition compatibilityObjectMatchesWinner (object : Object) (base : bytes) (winner : compatibilityWriteResult)
    : bool :=
  (ob_Data object ==? compatibilityContenderPayload base (cw_contender winner))
  && (v_ETag (ob_Version object) ==? v_ETag (cw_version winner)).

Definition succeeded (result : compatibilityWriteResult) : bool :=
  match cw_err result with None => true | Some _ => false end.
Definition compatibilitySuccessCount (results : list compatibilityWriteResult) : Z :=
  len (filter (λ result, succeeded result = true) results).

(** The errors that are not a definitive failed precondition. *)
Definition unexpectedErrors (results : list compatibilityWriteResult) : list cause :=
  omap (λ result, match cw_err result with
                  | Some c => if compatibilityDefinitivePrecondition c then None else Some c
                  | None => None end) results.

Definition requireSingle (results : list compatibilityWriteResult) : verdict compatibilityWriteResult :=
  let winners := filter (λ result, succeeded result = true) results in
  let unexpected := unexpectedErrors results in
  if existsb (λ result, match validateStoreVersion (cw_version result) with Ok _ => false | Err _ => true end) winners
  then inl (StoreCompatibilityIncompatible, Some (Join (wrapped ErrStoreIncompatible :: unexpected)))
  else if 1 <? len winners
  then inl (StoreCompatibilityIncompatible, match unexpected with [] => None | _ => Some (Join unexpected) end)
  else if 0 <? len unexpected
  then inl (compatibilityReconciliationFailureStatus unexpected, Some (Join unexpected))
  else match winners with
       | [winner] => inr winner
       | _ => inl (StoreCompatibilityIncompatible, None)
       end.

(** The contenders whose payload is the observed one. *)
Definition matching (base data : bytes) (results : list compatibilityWriteResult) : list compatibilityWriteResult :=
  filter (λ result, data = compatibilityContenderPayload base (cw_contender result)) results.

Definition with_outcome (version : Version) (matched : nat) (result : compatibilityWriteResult)
    : compatibilityWriteResult :=
  if bool_decide (cw_contender result = matched)
  then {| cw_contender := cw_contender result; cw_version := version; cw_err := None |} else result.

(** No contender reported success: what the answer of the reconciling GET says. *)
Definition zeroWinner (base : bytes) (previous : option Object) (results : list compatibilityWriteResult)
    (answer : cause + Object) : verdict (list compatibilityWriteResult * Object) :=
  let operational := unexpectedErrors results in
  let all := omap cw_err results in
  match answer with
  | inl getErr =>
      let c := Some (Join (all ++ [getErr])) in
      if cause_Is getErr ErrResourceLimit then inl (StoreCompatibilityIncompatible, c)
      else if cause_Is getErr ErrObjectNotFound then
        match previous with
        | None => if negb (len operational =? 0)
                  then inl (compatibilityReconciliationFailureStatus operational, c)
                  else inl (StoreCompatibilityIncompatible, c)
        | Some _ => inl (StoreCompatibilityIncompatible, c)
        end
      else inl (compatibilityReconciliationFailureStatus (operational ++ [getErr]), c)
  | inr observed =>
      let same_etag := match previous with
                       | Some object => v_ETag (ob_Version observed) ==? v_ETag (ob_Version object)
                       | None => false end in
      let same_data := match previous with
                       | Some object => ob_Data observed ==? ob_Data object | None => false end in
      match validateStoreVersion (ob_Version observed) with
      | Err _ => inl (StoreCompatibilityIncompatible, Some (Join (all ++ [wrapped ErrStoreIncompatible])))
      | Ok _ =>
          if same_etag && negb same_data then inl (StoreCompatibilityIncompatible, Some (Join all))
          else
            match matching base (ob_Data observed) results with
            | [] => if same_data && same_etag && negb (len operational =? 0)
                    then inl (compatibilityReconciliationFailureStatus operational, Some (Join all))
                    else inl (StoreCompatibilityIncompatible, Some (Join all))
            | [matched] =>
                let reconciled := map (with_outcome (ob_Version observed) (cw_contender matched)) results in
                match cw_err matched with
                | Some c =>
                    if negb (compatibilityWriteCanReconcile c)
                    then inl (compatibilityReconciliationStatus c, Some c)
                    else inr (reconciled, observed)
                | None => inr (reconciled, observed)
                end
            | _ => inl (StoreCompatibilityIncompatible, Some (Join all))
            end
      end
  end.

(** ** Options and evidence *)

Definition isASCIILetterOrDigit (c : byte) : bool :=
  let n := byte_val c in
  ((97 <=? n) && (n <=? 122) || (65 <=? n) && (n <=? 90) || (48 <=? n) && (n <=? 57))%N.

Definition isCanonicalSHA256 (value : bytes) : bool :=
  (len value =? 64)
  && forallb (λ c, let n := byte_val c in
       negb (((n <? 48) || (57 <? n)) && ((n <? 97) || (102 <? n)))%N) value.

(** A letter or digit, and then letters, digits and the given characters. *)
Definition identifier (others : bytes) (maximum : Z) (value : bytes) : bool :=
  match value with
  | [] => false
  | c :: rest => negb (maximum <? len value) && isASCIILetterOrDigit c
                 && forallb (λ c, isASCIILetterOrDigit c || bool_decide (c ∈ others)) rest
  end.
Definition isCompatibilityEvidenceID : bytes → bool :=
  identifier (str "._:-") StoreCompatibilityEvidenceIDMaxBytes.
Definition isCompatibilityImplementationVersion : bytes → bool :=
  identifier (str "._+-") StoreCompatibilityImplementationVersionMaxBytes.

Definition validateStoreCompatibilityProbeOptions (options : StoreCompatibilityProbeOptions) : option cause :=
  if (po_DeploymentFingerprint options !=? []) && negb (isCanonicalSHA256 (po_DeploymentFingerprint options))
     || (po_EvidenceID options !=? []) && negb (isCompatibilityEvidenceID (po_EvidenceID options))
     || (po_ImplementationVersion options !=? [])
        && negb (isCompatibilityImplementationVersion (po_ImplementationVersion options))
     || (po_TotalTimeout options <? 0) || (StoreCompatibilityMaximumTimeout <? po_TotalTimeout options)
  then Some (wrapped ErrStoreMisconfigured) else None.

Definition compatibilityRepositoryPrefixFingerprint (prefix : bytes) : bytes :=
  hex_EncodeToString (sha256 (compatibilityPrefixFingerprintDomain
    ++ BigEndian_AppendUint64 [] (Z.to_N (len prefix)) ++ prefix)).

Definition newStoreCompatibilityEvidence (prefix : bytes) (options : StoreCompatibilityProbeOptions) (started : Z)
    : StoreCompatibilityEvidence :=
  let fingerprint := compatibilityRepositoryPrefixFingerprint prefix in
  {| ev_StartedAt := started; ev_DurationNanoseconds := 0; ev_RepositoryPrefixFingerprint := fingerprint;
     ev_DeploymentFingerprint := po_DeploymentFingerprint options; ev_EvidenceID := po_EvidenceID options;
     ev_ImplementationVersion := po_ImplementationVersion options;
     ev_FullyBound := (fingerprint !=? []) && (po_DeploymentFingerprint options !=? [])
       && (po_EvidenceID options !=? []) && (po_ImplementationVersion options !=? []) |}.

Definition StoreCompatibilityProbeOptions_zero : StoreCompatibilityProbeOptions :=
  {| po_DeploymentFingerprint := []; po_EvidenceID := []; po_ImplementationVersion := []; po_TotalTimeout := 0 |}.

(** The timeout that the probe adds to the context. *)
Definition compatibilityProbeContext (options : StoreCompatibilityProbeOptions) (hasDeadline : bool) : option Z :=
  if 0 <? po_TotalTimeout options then Some (po_TotalTimeout options)
  else if hasDeadline then None else Some StoreCompatibilityDefaultTimeout.

(** ** Calls *)

(** The write that contenders attempt. *)
Inductive contention := ContendPut | ContendCAS (expected : option Version).

(** [Probe_Contend]: the outcome of each contender and, for each of them, its
    place among the results of the later ones. *)
Inductive probe_eff : Type → Type :=
| Probe_CtxErr : probe_eff (option cause)
| Probe_Deadline : probe_eff bool
| Probe_WithTimeout (timeout : option Z) : probe_eff unit
| Probe_CleanupErr : probe_eff (option cause)
| Probe_Now : probe_eff Z
| Probe_Rand (n : Z) : probe_eff (cause + bytes)
| Probe_Get (key : bytes) (options : GetOptions) : probe_eff (cause + Object)
| Probe_Head (key : bytes) : probe_eff (cause + Version)
| Probe_PutIfAbsent (key data : bytes) : probe_eff (cause + Version)
| Probe_CompareAndSwap (key : bytes) (expected : option Version) (data : bytes) : probe_eff (cause + Version)
| Probe_Contend (key : bytes) (write : contention) (payloads : list bytes)
    : probe_eff ((nat → cause + Version) * (nat → nat))
| Probe_Delete (key : bytes) : probe_eff (option cause).

(** The report under construction and the tracked keys. *)
Record ProbeState := {
  ps_report : StoreCompatibilityReport;
  ps_probeKeys : list bytes;
}.
Abbreviation P := (M probe_eff ProbeState).

Definition set_report (f : StoreCompatibilityReport → StoreCompatibilityReport) (s : ProbeState) : ProbeState :=
  {| ps_report := f (ps_report s); ps_probeKeys := ps_probeKeys s |}.
Definition set_cleanup (f : StoreCompatibilityCleanupReport → StoreCompatibilityCleanupReport)
    (r : StoreCompatibilityReport) : StoreCompatibilityReport :=
  {| cr_ContractVersion := cr_ContractVersion r; cr_Evidence := cr_Evidence r; cr_ProbeID := cr_ProbeID r;
     cr_Status := cr_Status r; cr_Compatible := cr_Compatible r; cr_Complete := cr_Complete r;
     cr_RequiredChecks := cr_RequiredChecks r; cr_Contenders := cr_Contenders r; cr_Checks := cr_Checks r;
     cr_Cleanup := f (cr_Cleanup r) |}.
Definition set_evidence (evidence : StoreCompatibilityEvidence) (r : StoreCompatibilityReport)
    : StoreCompatibilityReport :=
  {| cr_ContractVersion := cr_ContractVersion r; cr_Evidence := evidence; cr_ProbeID := cr_ProbeID r;
     cr_Status := cr_Status r; cr_Compatible := cr_Compatible r; cr_Complete := cr_Complete r;
     cr_RequiredChecks := cr_RequiredChecks r; cr_Contenders := cr_Contenders r; cr_Checks := cr_Checks r;
     cr_Cleanup := cr_Cleanup r |}.
Definition set_probeID (id : bytes) (r : StoreCompatibilityReport) : StoreCompatibilityReport :=
  {| cr_ContractVersion := cr_ContractVersion r; cr_Evidence := cr_Evidence r; cr_ProbeID := id;
     cr_Status := cr_Status r; cr_Compatible := cr_Compatible r; cr_Complete := cr_Complete r;
     cr_RequiredChecks := cr_RequiredChecks r; cr_Contenders := cr_Contenders r; cr_Checks := cr_Checks r;
     cr_Cleanup := cr_Cleanup r |}.

(** ** The recorder *)

(** A check joins the report; a problem decides its status. *)
Definition record_check (check : StoreCompatibilityCheck) (status : StoreCompatibilityStatus) (compatible : bool)
    (r : StoreCompatibilityReport) : StoreCompatibilityReport :=
  let checks := cr_Checks r ++ [check] in
  {| cr_ContractVersion := cr_ContractVersion r; cr_Evidence := cr_Evidence r; cr_ProbeID := cr_ProbeID r;
     cr_Status := status; cr_Compatible := compatible; cr_Complete := len checks =? cr_RequiredChecks r;
     cr_RequiredChecks := cr_RequiredChecks r; cr_Contenders := cr_Contenders r; cr_Checks := checks;
     cr_Cleanup := cr_Cleanup r |}.

Definition passDetail (id : StoreCompatibilityCheckID) (reconciled : bool) : P unit :=
  mmodify (set_report (λ r, record_check
    {| ck_ID := id; ck_Status := StoreCompatibilityPassed; ck_Reason := None; ck_reconciled := reconciled;
       ck_Cause := None |} (cr_Status r) (cr_Compatible r) r)).
Definition pass (id : StoreCompatibilityCheckID) : P unit := passDetail id false.

(** What errors.Is finds in a *StoreCompatibilityError; its other fields are those
    of the recorded check. *)
Definition StoreCompatibilityError (status : StoreCompatibilityStatus) (c : option cause) : error :=
  (if status ==? StoreCompatibilityIncompatible then [ErrStoreIncompatible] else [])
  ++ match c with Some c => sentinels c | None => [] end.

Definition problem {A} (id : StoreCompatibilityCheckID) (status : StoreCompatibilityStatus) (c : option cause)
    : P A :=
  mmodify (set_report (record_check
    {| ck_ID := id; ck_Status := status; ck_Reason := compatibilityReasonFor id status c;
       ck_reconciled := false; ck_Cause := c |} status false)) ;;;
  mfail (StoreCompatibilityError status c).
Definition incompatible {A} (id : StoreCompatibilityCheckID) (c : option cause) : P A :=
  problem id StoreCompatibilityIncompatible c.
Definition operationFailure {A} (id : StoreCompatibilityCheckID) (c : cause) : P A :=
  problem id (compatibilityStatusForCause c) (Some c).

(** [!errors.Is(err, s)]: success and other errors are problems. *)
Definition expectError {A} (id : StoreCompatibilityCheckID) (s : sentinel) (r : cause + A) : P unit :=
  match r with
  | inl c => if cause_Is c s then mret tt else operationFailure id c
  | inr _ => incompatible id None
  end.
(** [err != nil] is a problem. *)
Definition expectOk {A} (id : StoreCompatibilityCheckID) (r : cause + A) : P A :=
  match r with inl c => operationFailure id c | inr a => mret a end.
Definition expectVersion (id : StoreCompatibilityCheckID) (version : Version) : P unit :=
  match validateStoreVersion version with
  | Ok _ => mret tt
  | Err _ => incompatible id (Some (wrapped ErrStoreIncompatible))
  end.
Definition expect (id : StoreCompatibilityCheckID) (condition : bool) : P unit :=
  if condition then mret tt else incompatible id None.
Definition conclude {A} (id : StoreCompatibilityCheckID) (v : verdict A) : P A :=
  match v with inl (status, c) => problem id status c | inr a => mret a end.

Definition noOptions : GetOptions := {| go_IfNoneMatch := []; go_MaxBytes := 0 |}.
Definition readObject (id : StoreCompatibilityCheckID) (key : bytes) (options : GetOptions) : P Object :=
  r <- mcall (Probe_Get key options) ;;
  object <- expectOk id r ;;
  expectVersion id (ob_Version object) ;;;
  mret object.
Definition headObject (id : StoreCompatibilityCheckID) (key : bytes) : P Version :=
  r <- mcall (Probe_Head key) ;;
  version <- expectOk id r ;;
  expectVersion id version ;;;
  mret version.
(** The object has these bytes and this ETag. *)
Definition holds (object : Object) (data etag : bytes) : bool :=
  (ob_Data object ==? data) && (v_ETag (ob_Version object) ==? etag).

(** The answer of a write, or what a GET says about one that failed. *)
Definition reconcileCompatibilityWrite (key payload : bytes) (previous : option Object) (operationErr : cause)
    : P compatibilityWriteReconciliation :=
  r <- mcall (Probe_Get key {| go_IfNoneMatch := []; go_MaxBytes := reconcileLimit (len payload) previous |}) ;;
  mret (reconcileObserved payload previous operationErr r).
Definition settleWrite (id : StoreCompatibilityCheckID) (key payload : bytes) (previous : option Object)
    (r : cause + Version) : P (Version * bool) :=
  ' (version, reconciled) <-
    match r with
    | inr version => mret (version, false)
    | inl operationErr =>
        outcome <- reconcileCompatibilityWrite key payload previous operationErr ;;
        version <- conclude id outcome ;;
        mret (version, true)
    end ;;
  expectVersion id version ;;;
  mret (version, reconciled).

Definition trackProbeKey (key : bytes) : P unit :=
  mmodify (λ s, {| ps_report := set_cleanup (λ c,
      {| cu_Status := cu_Status c; cu_Reason := cu_Reason c; cu_Attempted := cu_Attempted c;
         cu_Succeeded := cu_Succeeded c; cu_Failed := cu_Failed c; cu_DeleteFailures := cu_DeleteFailures c;
         cu_CurrentObjectsStillVisible := cu_CurrentObjectsStillVisible c;
         cu_VerificationFailures := cu_VerificationFailures c; cu_CurrentObjectsMayRemain := true;
         cu_HistoricalVersionsMayRemain := true; cu_Cause := cu_Cause c |}) (ps_report s);
    ps_probeKeys := ps_probeKeys s ++ [key] |}).

(** ** Contenders *)

(** Results in the order of their arrival: each one takes its place among those
    of the later contenders. *)
Fixpoint arrivals {A} (place : nat → nat) (results : list A) : list A :=
  match results with
  | [] => []
  | result :: results =>
      let later := arrivals place results in
      let i := (place (length later) `mod` S (length later))%nat in
      take i later ++ result :: drop i later
  end.

Definition writeResult (outcome : nat → cause + Version) (contender : nat) : compatibilityWriteResult :=
  match outcome contender with
  | inl c => {| cw_contender := contender; cw_version := {| v_ETag := []; v_VersionID := [] |}; cw_err := Some c |}
  | inr version => {| cw_contender := contender; cw_version := version; cw_err := None |}
  end.
Definition resultsOf (outcome : nat → cause + Version) (place : nat → nat) : list compatibilityWriteResult :=
  arrivals place (map (writeResult outcome) (seq 0 compatibilityContenders)).
Definition payloadsOf (base : bytes) : list bytes :=
  map (compatibilityContenderPayload base) (seq 0 compatibilityContenders).
Definition runCompatibilityContenders (key : bytes) (write : contention) (base : bytes)
    : P (list compatibilityWriteResult) :=
  ' (outcome, place) <- mcall (Probe_Contend key write (payloadsOf base)) ;;
  mret (resultsOf outcome place).

Definition reconcileCompatibilityZeroWinner (id : StoreCompatibilityCheckID) (key base : bytes)
    (previous : option Object) (results : list compatibilityWriteResult)
    : P (list compatibilityWriteResult * Object) :=
  r <- mcall (Probe_Get key {| go_IfNoneMatch := []; go_MaxBytes := reconcileLimit (len base + 1) previous |}) ;;
  conclude id (zeroWinner base previous results r).

Definition requireSingleCompatibilityWinner (id : StoreCompatibilityCheckID) (results : list compatibilityWriteResult)
    : P compatibilityWriteResult := conclude id (requireSingle results).

(** A concurrent check up to the GET that follows it: the winner and the object
    that was observed. *)
Definition contend (id readID : StoreCompatibilityCheckID) (key : bytes) (write : contention) (base : bytes)
    (previous : option Object) : P (compatibilityWriteResult * Object) :=
  results <- runCompatibilityContenders key write base ;;
  ' (results, reconciled) <-
    (if compatibilitySuccessCount results =? 0 then
       ' (results, object) <- reconcileCompatibilityZeroWinner id key base previous results ;;
       mret (results, Some object)
     else mret (results, None)) ;;
  winner <- requireSingleCompatibilityWinner id results ;;
  expect id (match previous with
             | Some object => v_ETag (cw_version winner) !=? v_ETag (ob_Version object) | None => true end) ;;;
  object <- match reconciled with
            | Some object => passDetail id true ;;; mret object
            | None => pass id ;;; r <- mcall (Probe_Get key noOptions) ;; expectOk readID r
            end ;;
  expectVersion readID (ob_Version object) ;;;
  expect readID (compatibilityObjectMatchesWinner object base winner) ;;;
  mret (winner, object).

(** ** The checks *)

(** [data[0] ^= 0xff], to find stores that keep the caller's buffer. *)
Definition flip (data : bytes) : bytes :=
  match data with [] => [] | c :: data => byte_of (N.lxor (byte_val c) 255) :: data end.

Definition checkMissing (key : bytes) : P unit :=
  r <- mcall (Probe_Head key) ;;
  expectError StoreCompatibilityCheckMissingObjectMapping ErrObjectNotFound r ;;;
  r <- mcall (Probe_Get key noOptions) ;;
  expectError StoreCompatibilityCheckMissingObjectMapping ErrObjectNotFound r ;;;
  pass StoreCompatibilityCheckMissingObjectMapping.

Definition checkCreate (key first : bytes) : P Version :=
  trackProbeKey key ;;;
  r <- mcall (Probe_PutIfAbsent key first) ;;
  ' (created, reconciled) <- settleWrite StoreCompatibilityCheckConditionalCreate key first None r ;;
  passDetail StoreCompatibilityCheckConditionalCreate reconciled ;;;
  headed <- headObject StoreCompatibilityCheckHeadAfterCreate key ;;
  expect StoreCompatibilityCheckHeadAfterCreate (v_ETag headed ==? v_ETag created) ;;;
  pass StoreCompatibilityCheckHeadAfterCreate ;;;
  observed <- readObject StoreCompatibilityCheckReadAfterCreate key noOptions ;;
  expect (if ob_Data observed ==? flip first then StoreCompatibilityCheckInputBufferOwnership
          else StoreCompatibilityCheckReadAfterCreate) (ob_Data observed ==? first) ;;;
  expect StoreCompatibilityCheckReadAfterCreate (v_ETag (ob_Version observed) ==? v_ETag created) ;;;
  pass StoreCompatibilityCheckReadAfterCreate ;;;
  pass StoreCompatibilityCheckInputBufferOwnership ;;;
  mret created.

Definition checkDuplicate (key first second : bytes) (created : Version) : P unit :=
  r <- mcall (Probe_PutIfAbsent key second) ;;
  expectError StoreCompatibilityCheckDuplicateCreate ErrPrecondition r ;;;
  observed <- readObject StoreCompatibilityCheckDuplicateCreate key noOptions ;;
  expect StoreCompatibilityCheckDuplicateCreate (holds observed first (v_ETag created)) ;;;
  pass StoreCompatibilityCheckDuplicateCreate.

Definition checkReads (key first : bytes) (created : Version) : P Object :=
  exact <- readObject StoreCompatibilityCheckBoundedGet key {| go_IfNoneMatch := []; go_MaxBytes := len first |} ;;
  expect StoreCompatibilityCheckBoundedGet (holds exact first (v_ETag created)) ;;;
  r <- mcall (Probe_Get key {| go_IfNoneMatch := []; go_MaxBytes := len first - 1 |}) ;;
  expectError StoreCompatibilityCheckBoundedGet ErrResourceLimit r ;;;
  pass StoreCompatibilityCheckBoundedGet ;;;
  observed <- readObject StoreCompatibilityCheckOutputBufferOwnership key noOptions ;;
  expect StoreCompatibilityCheckOutputBufferOwnership (holds observed first (v_ETag created)) ;;;
  pass StoreCompatibilityCheckOutputBufferOwnership ;;;
  mret observed.

Definition ignoredVersionID : bytes := str "s3disk-probe-version-id-must-be-ignored".

Definition checkReplacement (key second : bytes) (created : Version) (observed : Object) : P Version :=
  let expected := {| v_ETag := v_ETag (ob_Version observed); v_VersionID := ignoredVersionID |} in
  r <- mcall (Probe_CompareAndSwap key (Some expected) second) ;;
  ' (replaced, reconciled) <- settleWrite StoreCompatibilityCheckReplacementCAS key second (Some observed) r ;;
  expect StoreCompatibilityCheckReplacementCAS (v_ETag replaced !=? v_ETag created) ;;;
  passDetail StoreCompatibilityCheckReplacementCAS reconciled ;;;
  current <- readObject StoreCompatibilityCheckReadAfterReplacement key noOptions ;;
  expect (if ob_Data current ==? flip second then StoreCompatibilityCheckCASInputBufferOwnership
          else StoreCompatibilityCheckReadAfterReplacement) (ob_Data current ==? second) ;;;
  expect StoreCompatibilityCheckReadAfterReplacement (v_ETag (ob_Version current) ==? v_ETag replaced) ;;;
  pass StoreCompatibilityCheckReadAfterReplacement ;;;
  pass StoreCompatibilityCheckCASInputBufferOwnership ;;;
  headed <- headObject StoreCompatibilityCheckHeadAfterReplacement key ;;
  expect StoreCompatibilityCheckHeadAfterReplacement (v_ETag headed ==? v_ETag (ob_Version current)) ;;;
  pass StoreCompatibilityCheckHeadAfterReplacement ;;;
  mret (ob_Version current).

(** [current] has the ETag of the replacement. *)
Definition checkStale (key first second : bytes) (created current : Version) : P unit :=
  r <- mcall (Probe_CompareAndSwap key (Some created) first) ;;
  expectError StoreCompatibilityCheckStaleCAS ErrPrecondition r ;;;
  pass StoreCompatibilityCheckStaleCAS ;;;
  unchanged <- readObject StoreCompatibilityCheckFailedCASPreservesObject key noOptions ;;
  expect StoreCompatibilityCheckFailedCASPreservesObject (holds unchanged second (v_ETag current)) ;;;
  pass StoreCompatibilityCheckFailedCASPreservesObject.

Definition checkConditionalGet (key second : bytes) (created current : Version) : P unit :=
  r <- mcall (Probe_Get key {| go_IfNoneMatch := v_ETag current; go_MaxBytes := 0 |}) ;;
  expectError StoreCompatibilityCheckConditionalGetCurrent ErrNotModified r ;;;
  pass StoreCompatibilityCheckConditionalGetCurrent ;;;
  r <- mcall (Probe_Get key {| go_IfNoneMatch := v_ETag created; go_MaxBytes := 0 |}) ;;
  object <- match r with
            | inl c => if cause_Is c ErrNotModified
                       then incompatible StoreCompatibilityCheckConditionalGetStale (Some c)
                       else operationFailure StoreCompatibilityCheckConditionalGetStale c
            | inr object => mret object
            end ;;
  expectVersion StoreCompatibilityCheckConditionalGetStale (ob_Version object) ;;;
  expect StoreCompatibilityCheckConditionalGetStale (holds object second (v_ETag current)) ;;;
  pass StoreCompatibilityCheckConditionalGetStale.

Definition checkNilCAS (key first second : bytes) : P unit :=
  trackProbeKey key ;;;
  r <- mcall (Probe_CompareAndSwap key None first) ;;
  ' (created, reconciled) <- settleWrite StoreCompatibilityCheckNilCASCreate key first None r ;;
  passDetail StoreCompatibilityCheckNilCASCreate reconciled ;;;
  r <- mcall (Probe_CompareAndSwap key None second) ;;
  expectError StoreCompatibilityCheckNilCASDuplicate ErrPrecondition r ;;;
  pass StoreCompatibilityCheckNilCASDuplicate ;;;
  observed <- readObject StoreCompatibilityCheckNilCASPreservesObject key noOptions ;;
  expect StoreCompatibilityCheckNilCASPreservesObject (holds observed first (v_ETag created)) ;;;
  pass StoreCompatibilityCheckNilCASPreservesObject.

Definition checkMissingCAS (key first : bytes) (current : Version) : P unit :=
  trackProbeKey key ;;;
  r <- mcall (Probe_CompareAndSwap key (Some current) first) ;;
  expectError StoreCompatibilityCheckMissingKeyCAS ErrPrecondition r ;;;
  r <- mcall (Probe_Head key) ;;
  expectError StoreCompatibilityCheckMissingKeyCAS ErrObjectNotFound r ;;;
  pass StoreCompatibilityCheckMissingKeyCAS.

Definition checkConcurrentPut (key first : bytes) : P unit :=
  trackProbeKey key ;;;
  ' (winner, _) <- contend StoreCompatibilityCheckConcurrentPutIfAbsent StoreCompatibilityCheckReadAfterConcurrentPut
                     key ContendPut first None ;;
  headed <- headObject StoreCompatibilityCheckReadAfterConcurrentPut key ;;
  expect StoreCompatibilityCheckReadAfterConcurrentPut (v_ETag headed ==? v_ETag (cw_version winner)) ;;;
  pass StoreCompatibilityCheckReadAfterConcurrentPut.

Definition checkConcurrentCAS (id readID headID : StoreCompatibilityCheckID) (key base : bytes)
    (previous : option Object) : P unit :=
  ' (winner, _) <- contend id readID key (ContendCAS (ob_Version <$> previous)) base previous ;;
  pass readID ;;;
  headed <- headObject headID key ;;
  expect headID (v_ETag headed ==? v_ETag (cw_version winner)) ;;;
  pass headID.

Definition checkConcurrentNilCAS (key first : bytes) : P unit :=
  trackProbeKey key ;;;
  checkConcurrentCAS StoreCompatibilityCheckConcurrentNilCAS StoreCompatibilityCheckReadAfterConcurrentNilCAS
    StoreCompatibilityCheckHeadAfterConcurrentNilCAS key first None.

Definition checkConcurrentReplacement (key first second : bytes) : P unit :=
  trackProbeKey key ;;;
  r <- mcall (Probe_CompareAndSwap key None first) ;;
  ' (base, reconciled) <- settleWrite StoreCompatibilityCheckConcurrentReplacementSeed key first None r ;;
  passDetail StoreCompatibilityCheckConcurrentReplacementSeed reconciled ;;;
  checkConcurrentCAS StoreCompatibilityCheckConcurrentReplacementCAS
    StoreCompatibilityCheckReadAfterConcurrentReplacement StoreCompatibilityCheckHeadAfterConcurrentReplacement
    key second (Some {| ob_Data := first; ob_Version := base |}).

(** ** Cleanup *)

Fixpoint definitiveNotFound (c : cause) : bool :=
  match c with
  | Sentinel s => s ==? ErrObjectNotFound
  | ClassifiedNotFound _ => true
  | Custom _ _ inner => match inner with Some c => definitiveNotFound c | None => false end
  | Join causes => negb (len causes =? 0) && forallb definitiveNotFound causes
  end.
Definition compatibilityCleanupDefinitiveNotFound (c : option cause) : bool :=
  match c with Some c => definitiveNotFound c | None => false end.

(** The reason that a failure adds. *)
Definition cleanupReason (c : cause) (fallback : StoreCompatibilityCleanupReason) : StoreCompatibilityCleanupReason :=
  if cause_Is c ErrAccessDenied then StoreCompatibilityCleanupReasonAccessDenied
  else if cause_Is c ErrBucketNotFound || cause_Is c ErrStoreMisconfigured
  then StoreCompatibilityCleanupReasonConfigurationError
  else if cause_Is c CtxCanceled || cause_Is c CtxDeadlineExceeded
  then StoreCompatibilityCleanupReasonDeadlineExceeded
  else if cause_Is c ErrRateLimited || cause_Is c ErrStoreUnavailable
  then StoreCompatibilityCleanupReasonStoreUnavailable
  else if networkError c then StoreCompatibilityCleanupReasonNetworkError
  else fallback.
Definition compatibilityCleanupAddReason (reasons : list StoreCompatibilityCleanupReason) (c : cause)
    (fallback : StoreCompatibilityCleanupReason) : list StoreCompatibilityCleanupReason :=
  cleanupReason c fallback :: reasons.

(** The set of reasons has one element, or several. *)
Definition compatibilityCleanupAggregateReason (reasons : list StoreCompatibilityCleanupReason)
    : StoreCompatibilityCleanupReason :=
  match remove_dups reasons with
  | [reason] => reason
  | _ => StoreCompatibilityCleanupReasonMultipleFailures
  end.

Record Cleanup := {
  ca_failures : list cause;
  ca_reasons : list StoreCompatibilityCleanupReason;
}.

(** errCompatibilityCleanupCurrentObjectStillVisible. *)
Definition stillVisible : cause := Custom false [] None.

(** The report after the DELETE and the HEAD of one key. *)
Definition countCleanup (deleteErr headErr : option cause) (c : StoreCompatibilityCleanupReport)
    : StoreCompatibilityCleanupReport :=
  let deleteAccepted := match deleteErr with None => true | Some _ => false end
                        || compatibilityCleanupDefinitiveNotFound deleteErr in
  let verifiedAbsent := compatibilityCleanupDefinitiveNotFound headErr in
  let visible := match headErr with None => true | Some _ => false end in
  let count (b : bool) (n : Z) := if b then n + 1 else n in
  {| cu_Status := cu_Status c; cu_Reason := cu_Reason c; cu_Attempted := cu_Attempted c + 1;
     cu_Succeeded := count (deleteAccepted && verifiedAbsent) (cu_Succeeded c);
     cu_Failed := count (negb (deleteAccepted && verifiedAbsent)) (cu_Failed c);
     cu_DeleteFailures := count (negb deleteAccepted) (cu_DeleteFailures c);
     cu_CurrentObjectsStillVisible := count visible (cu_CurrentObjectsStillVisible c);
     cu_VerificationFailures := count (negb visible && negb verifiedAbsent) (cu_VerificationFailures c);
     cu_CurrentObjectsMayRemain := cu_CurrentObjectsMayRemain c;
     cu_HistoricalVersionsMayRemain := cu_HistoricalVersionsMayRemain c; cu_Cause := cu_Cause c |}.

(** The failures and reasons of one key. *)
Definition noteCleanup (deleteErr headErr : option cause) (a : Cleanup) : Cleanup :=
  let a := match deleteErr with
           | Some c => if definitiveNotFound c then a
                       else {| ca_failures := ca_failures a ++ [c];
                               ca_reasons := compatibilityCleanupAddReason (ca_reasons a) c
                                               StoreCompatibilityCleanupReasonDeleteFailed |}
           | None => a
           end in
  match headErr with
  | None => {| ca_failures := ca_failures a ++ [stillVisible];
               ca_reasons := StoreCompatibilityCleanupReasonCurrentObjectStillVisible :: ca_reasons a |}
  | Some c => if definitiveNotFound c then a
              else {| ca_failures := ca_failures a ++ [c];
                      ca_reasons := compatibilityCleanupAddReason (ca_reasons a) c
                                      StoreCompatibilityCleanupReasonVerificationFailed |}
  end.

Definition deleteKey (key : bytes) : P (option cause) :=
  err <- mcall Probe_CleanupErr ;;
  match err with Some c => mret (Some c) | None => mcall (Probe_Delete key) end.
Definition verifyKey (key : bytes) : P (option cause) :=
  err <- mcall Probe_CleanupErr ;;
  match err with
  | Some c => mret (Some c)
  | None => r <- mcall (Probe_Head key) ;; mret (match r with inl c => Some c | inr _ => None end)
  end.

Fixpoint cleanupKeys (keys : list bytes) (a : Cleanup) : P Cleanup :=
  match keys with
  | [] => mret a
  | key :: keys =>
      deleteErr <- deleteKey key ;;
      headErr <- verifyKey key ;;
      mmodify (set_report (set_cleanup (countCleanup deleteErr headErr))) ;;;
      cleanupKeys keys (noteCleanup deleteErr headErr a)
  end.

(** The conclusion over all keys. *)
Definition concludeCleanup (a : Cleanup) (c : StoreCompatibilityCleanupReport) : StoreCompatibilityCleanupReport :=
  if cu_Failed c =? 0 then
    {| cu_Status := StoreCompatibilityCleanupSucceeded; cu_Reason := cu_Reason c; cu_Attempted := cu_Attempted c;
       cu_Succeeded := cu_Succeeded c; cu_Failed := cu_Failed c; cu_DeleteFailures := cu_DeleteFailures c;
       cu_CurrentObjectsStillVisible := cu_CurrentObjectsStillVisible c;
       cu_VerificationFailures := cu_VerificationFailures c; cu_CurrentObjectsMayRemain := false;
       cu_HistoricalVersionsMayRemain := cu_HistoricalVersionsMayRemain c; cu_Cause := cu_Cause c |}
  else
    {| cu_Status := StoreCompatibilityCleanupFailed;
       cu_Reason := Some (compatibilityCleanupAggregateReason (ca_reasons a)); cu_Attempted := cu_Attempted c;
       cu_Succeeded := cu_Succeeded c; cu_Failed := cu_Failed c; cu_DeleteFailures := cu_DeleteFailures c;
       cu_CurrentObjectsStillVisible := cu_CurrentObjectsStillVisible c;
       cu_VerificationFailures := cu_VerificationFailures c;
       cu_CurrentObjectsMayRemain :=
         negb (cu_CurrentObjectsStillVisible c =? 0) || negb (cu_VerificationFailures c =? 0);
       cu_HistoricalVersionsMayRemain := cu_HistoricalVersionsMayRemain c;
       cu_Cause := match ca_failures a with [] => None | failures => Some (Join failures) end |}.

Definition cleanupCompatibilityProbe : P unit :=
  state <- mget ;;
  a <- cleanupKeys (ps_probeKeys state) {| ca_failures := []; ca_reasons := [] |} ;;
  mmodify (set_report (set_cleanup (concludeCleanup a))).

(** ** The probe *)

Definition Cleanup_new : StoreCompatibilityCleanupReport :=
  {| cu_Status := StoreCompatibilityCleanupNotAttempted; cu_Reason := None; cu_Attempted := 0; cu_Succeeded := 0;
     cu_Failed := 0; cu_DeleteFailures := 0; cu_CurrentObjectsStillVisible := 0; cu_VerificationFailures := 0;
     cu_CurrentObjectsMayRemain := false; cu_HistoricalVersionsMayRemain := false; cu_Cause := None |}.

(** The Store does not implement ObjectDeleter. *)
Definition cleanupNotSupported (c : StoreCompatibilityCleanupReport) : StoreCompatibilityCleanupReport :=
  {| cu_Status := StoreCompatibilityCleanupNotSupported;
     cu_Reason := Some StoreCompatibilityCleanupReasonDeleteNotSupported; cu_Attempted := cu_Attempted c;
     cu_Succeeded := cu_Succeeded c; cu_Failed := cu_Failed c; cu_DeleteFailures := cu_DeleteFailures c;
     cu_CurrentObjectsStillVisible := cu_CurrentObjectsStillVisible c;
     cu_VerificationFailures := cu_VerificationFailures c;
     cu_CurrentObjectsMayRemain := cu_CurrentObjectsMayRemain c;
     cu_HistoricalVersionsMayRemain := cu_HistoricalVersionsMayRemain c; cu_Cause := cu_Cause c |}.

(** The two payloads. *)
Definition firstPayload (nonce : bytes) : bytes := compatibilityProbePayloadDomain ++ str ":first:" ++ nonce.
Definition secondPayload (nonce : bytes) : bytes := compatibilityProbePayloadDomain ++ str ":second:" ++ nonce.

(** The verdict when every check has passed. *)
Definition report_passed (r : StoreCompatibilityReport) : StoreCompatibilityReport :=
  {| cr_ContractVersion := cr_ContractVersion r; cr_Evidence := cr_Evidence r; cr_ProbeID := cr_ProbeID r;
     cr_Status := StoreCompatibilityPassed; cr_Compatible := true; cr_Complete := cr_Complete r;
     cr_RequiredChecks := cr_RequiredChecks r; cr_Contenders := cr_Contenders r; cr_Checks := cr_Checks r;
     cr_Cleanup := cr_Cleanup r |}.

(** The checks below the probe's prefix. *)
Definition probeStore (probePrefix nonce : bytes) : P unit :=
  let first := firstPayload nonce in
  let second := secondPayload nonce in
  let key := probePrefix ++ str "/conditional" in
  checkMissing key ;;;
  created <- checkCreate key first ;;
  checkDuplicate key first second created ;;;
  observed <- checkReads key first created ;;
  current <- checkReplacement key second created observed ;;
  checkStale key first second created current ;;;
  checkConditionalGet key second created current ;;;
  checkNilCAS (probePrefix ++ str "/nil-cas") first second ;;;
  checkMissingCAS (probePrefix ++ str "/missing-if-match") first current ;;;
  checkConcurrentPut (probePrefix ++ str "/concurrent-put-if-absent") first ;;;
  checkConcurrentNilCAS (probePrefix ++ str "/concurrent-nil-cas") first ;;;
  checkConcurrentReplacement (probePrefix ++ str "/concurrent-replace-cas") first second ;;;
  mmodify (set_report report_passed).

Section Probe.
(** [deleter]: the Store implements ObjectDeleter. *)
Context (repository : Repository) (deleter : bool).

Definition probePrefixOf (nonce : bytes) : bytes :=
  key repository (str "probes/" ++ hex_EncodeToString nonce).

Definition probeStoreCompatibility : P unit :=
  (match rp_store repository with
   | None => problem StoreCompatibilityCheckConfiguration StoreCompatibilityConfigurationError
               (Some (Sentinel ErrRepositoryReadOnly))
   | Some _ => mret tt
   end) ;;;
  err <- mcall Probe_CtxErr ;;
  (match err with
   | Some c => operationFailure StoreCompatibilityCheckConfiguration c
   | None => mret tt
   end) ;;;
  pass StoreCompatibilityCheckConfiguration ;;;
  r <- mcall (Probe_Rand 24) ;;
  nonce <- match r with
           | inl c => problem StoreCompatibilityCheckProbeKey StoreCompatibilityIndeterminate (Some c)
           | inr nonce => mret nonce
           end ;;
  mmodify (set_report (set_probeID (hex_EncodeToString nonce))) ;;;
  pass StoreCompatibilityCheckProbeKey ;;;
  if deleter then
    result <- mtry (probeStore (probePrefixOf nonce) nonce) ;;
    cleanupCompatibilityProbe ;;;
    mlift result
  else
    mmodify (set_report (set_cleanup cleanupNotSupported)) ;;;
    probeStore (probePrefixOf nonce) nonce.

Definition newReport (evidence : StoreCompatibilityEvidence) : StoreCompatibilityReport :=
  {| cr_ContractVersion := StoreCompatibilityContractVersion; cr_Evidence := evidence; cr_ProbeID := [];
     cr_Status := StoreCompatibilityIndeterminate; cr_Compatible := false; cr_Complete := false;
     cr_RequiredChecks := StoreCompatibilityRequiredChecks; cr_Contenders := Z.of_nat compatibilityContenders;
     cr_Checks := []; cr_Cleanup := Cleanup_new |}.

Definition set_duration (duration : Z) (r : StoreCompatibilityReport) : StoreCompatibilityReport :=
  let e := cr_Evidence r in
  set_evidence {| ev_StartedAt := ev_StartedAt e; ev_DurationNanoseconds := duration;
    ev_RepositoryPrefixFingerprint := ev_RepositoryPrefixFingerprint e;
    ev_DeploymentFingerprint := ev_DeploymentFingerprint e; ev_EvidenceID := ev_EvidenceID e;
    ev_ImplementationVersion := ev_ImplementationVersion e; ev_FullyBound := ev_FullyBound e |} r.

(** From any state: the report is new. *)
Definition ProbeStoreCompatibilityWithOptions (options : StoreCompatibilityProbeOptions) : P unit :=
  started <- mcall Probe_Now ;;
  mput {| ps_report := newReport (newStoreCompatibilityEvidence (rp_prefix repository)
            StoreCompatibilityProbeOptions_zero started); ps_probeKeys := [] |} ;;;
  result <- mtry (
    match validateStoreCompatibilityProbeOptions options with
    | Some c => problem StoreCompatibilityCheckConfiguration StoreCompatibilityConfigurationError (Some c)
    | None =>
        mmodify (set_report (set_evidence (newStoreCompatibilityEvidence (rp_prefix repository) options started))) ;;;
        deadline <- (if 0 <? po_TotalTimeout options then mret false else mcall Probe_Deadline) ;;
        mcall (Probe_WithTimeout (compatibilityProbeContext options deadline)) ;;;
        probeStoreCompatibility
    end) ;;
  now <- mcall Probe_Now ;;
  let duration := now - started in
  mmodify (set_report (set_duration (if duration <? 0 then 0 else duration))) ;;;
  mlift result.

Definition ProbeStoreCompatibility : P unit :=
  ProbeStoreCompatibilityWithOptions StoreCompatibilityProbeOptions_zero.
Definition CheckStoreCompatibility : P unit := ProbeStoreCompatibility.
End Probe.
