(* ===== verification/CompatibilityProofs.v ===== *)
(** * What a passed probe shows

    [agrees] is one step of the store contract on the keys of a probe: what a
    call answers in a state and the state it leaves.  A passed probe is a run of
    the contract and its report says what was found ([probe_sound]); a store that
    keeps the contract passes ([probe_accepts]); the verdict on concurrent writes
    does not depend on the order of their results ([contention_order]); the
    cleanup answers for every key ([cleanupKeys_run]). *)

From S2P Require Import Prelude.
From S2P Require Import Prog.
From S2P Require Import GoStd.
From S2P Require Import Encoding.
From S2P Require Import Model.
From S2P Require Import Effects.
From S2P Require Import ClientEncryption.
From S2P Require Import Repository.
From S2P Require Import Compatibility.

(** ** The contract *)

(** The content and the ETag of each key. *)
Abbreviation contents := (gmap bytes (bytes * bytes)).

Definition valid (version : Version) (etag : bytes) : Prop :=
  validateStoreVersion version = Ok tt ∧ v_ETag version = etag.
Definition fails {A} (r : cause + A) (s : sentinel) : Prop := ∃ c, r = inl c ∧ cause_Is c s = true.

(** What a GET answers. *)
Definition reads (m : contents) (k : bytes) (o : GetOptions) (r : cause + Object) : Prop :=
  match m !! k with
  | None => fails r ErrObjectNotFound
  | Some (data, etag) =>
      if (go_IfNoneMatch o !=? []) && (go_IfNoneMatch o ==? etag) then fails r ErrNotModified
      else if (0 <? go_MaxBytes o) && (go_MaxBytes o <? len data) then fails r ErrResourceLimit
      else ∃ object, r = inr object ∧ ob_Data object = data ∧ valid (ob_Version object) etag
  end.

(** When a conditional write applies. *)
Definition applies (m : contents) (k : bytes) (expected : option Version) : Prop :=
  match expected with
  | None => m !! k = None
  | Some version => ∃ data, m !! k = Some (data, v_ETag version)
  end.

(** The write takes effect with an ETag that the object did not have; its answer
    is the version or, with [lossy], an error that leaves this open. *)
Definition takes_effect (lossy : bool) (m : contents) (k data : bytes) (r : cause + Version) (m' : contents) : Prop :=
  ∃ etag, m' = <[k := (data, etag)]> m ∧ (∀ before, m !! k ≠ Some (before, etag)) ∧
    match r with
    | inr version => valid version etag
    | inl c => lossy = true ∧ compatibilityWriteCanReconcile c = true
    end.

Definition writes (lossy : bool) (m : contents) (k : bytes) (expected : option Version) (data : bytes)
    (r : cause + Version) (m' : contents) : Prop :=
  (applies m k expected ∧ takes_effect lossy m k data r m') ∨
  (¬ applies m k expected ∧ m' = m ∧ fails r ErrPrecondition).

Definition condition (write : contention) : option Version :=
  match write with ContendPut => None | ContendCAS expected => expected end.

(** One of the concurrent writes takes effect, the others are told that the
    precondition failed, and nothing else. *)
Definition contends (lossy : bool) (m : contents) (k : bytes) (write : contention) (payloads : list bytes)
    (outcome : nat → cause + Version) (m' : contents) : Prop :=
  ∃ winner payload, payloads !! winner = Some payload ∧ applies m k (condition write) ∧
    takes_effect lossy m k payload (outcome winner) m' ∧
    ∀ loser, (loser < length payloads)%nat → loser ≠ winner →
      ∃ c, outcome loser = inl c ∧ compatibilityDefinitivePrecondition c = true.

Definition answers (lossy : bool) (m m' : contents) {X} (e : probe_eff X) : X → Prop :=
  match e in probe_eff T return T → Prop with
  | Probe_Get k o => λ r, m' = m ∧ reads m k o r
  | Probe_Head k => λ r, m' = m ∧
      match m !! k with
      | None => fails r ErrObjectNotFound
      | Some (_, etag) => ∃ version, r = inr version ∧ valid version etag
      end
  | Probe_PutIfAbsent k data => λ r, writes lossy m k None data r m'
  | Probe_CompareAndSwap k expected data => λ r, writes lossy m k expected data r m'
  | Probe_Contend k write payloads => λ r, contends lossy m k write payloads r.1 m'
  | Probe_Delete _ | Probe_CleanupErr => λ _, False
  | _ => λ _, m' = m
  end.
Definition agrees (lossy : bool) (m : contents) (v : event probe_eff) (m' : contents) : Prop :=
  match v with Ev e x => answers lossy m m' e x end.

(** A run of the contract from an empty store. *)
Inductive path (lossy : bool) : history probe_eff → contents → Prop :=
| path_nil : path lossy [] ∅
| path_snoc h m v m' : path lossy h m → agrees lossy m v m' → path lossy (h ++ [v]) m'.
Create HintDb probe.
#[export] Hint Constructors path : probe.

(** ** Facts about the classification *)

Lemma reconciliation_not_passed c : compatibilityReconciliationStatus c ≠ StoreCompatibilityPassed.
Proof. unfold compatibilityReconciliationStatus. by repeat case_match. Qed.
Lemma statusForCause_not_passed c : compatibilityStatusForCause c ≠ StoreCompatibilityPassed.
Proof. unfold compatibilityStatusForCause. by repeat case_match. Qed.

(** The status of several causes as a maximum. *)
Lemma failureStatus_spec causes result :
  failureStatus causes result =
  if existsb compatibilityDefinitiveIncompatibility causes then StoreCompatibilityIncompatible
  else if existsb (λ c, compatibilityReconciliationStatus c ==? StoreCompatibilityPermissionDenied) causes
  then StoreCompatibilityPermissionDenied
  else if existsb (λ c, compatibilityReconciliationStatus c ==? StoreCompatibilityConfigurationError) causes
          && (result !=? StoreCompatibilityPermissionDenied)
  then StoreCompatibilityConfigurationError else result.
Proof.
  revert result. induction causes as [|c causes IH]; intros result; simpl; [done|].
  destruct (compatibilityDefinitiveIncompatibility c); [done|]. rewrite IH.
  destruct (existsb compatibilityDefinitiveIncompatibility causes); [done|].
  destruct (existsb _ causes) eqn:Hp; simpl; [by rewrite orb_true_r|]. rewrite orb_false_r.
  destruct (compatibilityReconciliationStatus c) eqn:Hc; simpl; try (by destruct (existsb _ causes)).
  - destruct (existsb (λ c, compatibilityReconciliationStatus c ==? StoreCompatibilityConfigurationError) causes), result;
      done.
  - by rewrite andb_false_r.
Qed.

Lemma failureStatus_not_passed causes :
  compatibilityReconciliationFailureStatus causes ≠ StoreCompatibilityPassed.
Proof. unfold compatibilityReconciliationFailureStatus. rewrite failureStatus_spec. by repeat case_match. Qed.

Lemma existsb_perm {A} (f : A → bool) l l' : l ≡ₚ l' → existsb f l = existsb f l'.
Proof.
  induction 1 as [|x l l' _ IH|x y l|l l' l'' _ IH1 _ IH2]; simpl; [done|by rewrite IH| |by rewrite IH1].
  by rewrite !orb_assoc, (orb_comm (f y)).
Qed.
Lemma failureStatus_perm causes causes' :
  causes ≡ₚ causes' →
  compatibilityReconciliationFailureStatus causes = compatibilityReconciliationFailureStatus causes'.
Proof.
  intros Hp. unfold compatibilityReconciliationFailureStatus. rewrite !failureStatus_spec.
  by rewrite !(existsb_perm _ _ _ Hp).
Qed.

(** ** The payloads and the contenders *)

Lemma payload_length nonce : 1 < len (firstPayload nonce).
Proof. unfold firstPayload. rewrite (assoc_L (++)), len_app. pose proof (len_nonneg nonce). change (len (compatibilityProbePayloadDomain ++ str ":first:")) with 28. lia. Qed.
Lemma payloads_differ nonce : firstPayload nonce ≠ secondPayload nonce.
Proof. intros E%app_inv_head. done. Qed.

Lemma arrivals_perm {A} place (results : list A) : arrivals place results ≡ₚ results.
Proof.
  induction results as [|result results IH]; simpl; [done|].
  rewrite <- Permutation_middle, take_drop. by constructor.
Qed.

Lemma unexpected_nil results :
  unexpectedErrors results = [] →
  ∀ r c, r ∈ results → cw_err r = Some c → compatibilityDefinitivePrecondition c = true.
Proof.
  intros Hu r c Hr Hc. destruct (compatibilityDefinitivePrecondition c) eqn:Hd; [done|].
  assert (c ∈ unexpectedErrors results) as Hin; [|by rewrite Hu in Hin; apply not_elem_of_nil in Hin].
  apply list_elem_of_omap. exists r. by rewrite Hc, Hd.
Qed.

(** The sole winner. *)
Lemma requireSingle_winner results winner :
  requireSingle results = inr winner →
  winner ∈ results ∧ cw_err winner = None ∧ validateStoreVersion (cw_version winner) = Ok tt ∧
  (∀ r, r ∈ results → cw_err r = None → r = winner) ∧
  (∀ r c, r ∈ results → cw_err r = Some c → compatibilityDefinitivePrecondition c = true).
Proof.
  unfold requireSingle. set (winners := filter _ results). intros E.
  destruct (existsb _ winners) eqn:Hv; [done|]. destruct (1 <? len winners); [done|].
  destruct (Z.ltb_spec 0 (len (unexpectedErrors results))) as [|Hu]; [done|].
  destruct winners as [|w [|]] eqn:Hw; try done. injection E as ->.
  assert (∀ r, r ∈ [winner] ↔ succeeded r = true ∧ r ∈ results) as Hin
    by (intros r; rewrite <- Hw; unfold winners; by rewrite list_elem_of_filter).
  destruct (proj1 (Hin winner)) as [Hs Hr]; [by apply list_elem_of_singleton|].
  unfold succeeded in *. split_and!; [done|by destruct (cw_err winner)| | |].
  - simpl in Hv. by destruct (validateStoreVersion _) as [[]|].
  - intros r Hr' He. apply list_elem_of_singleton, Hin. by rewrite He.
  - apply unexpected_nil, len_nil_iff. pose proof (len_nonneg (unexpectedErrors results)). lia.
Qed.

Lemma no_success results :
  compatibilitySuccessCount results = 0 → ∀ r, r ∈ results → ∃ c, cw_err r = Some c.
Proof.
  unfold compatibilitySuccessCount. intros Hz r Hr. apply len_nil_iff in Hz.
  destruct (cw_err r) as [c|] eqn:E; [by exists c|].
  assert (r ∈ filter (λ result, succeeded result = true) results) as Hin
    by (apply list_elem_of_filter; unfold succeeded; by rewrite E).
  rewrite Hz in Hin. by apply not_elem_of_nil in Hin.
Qed.

Lemma zeroWinner_reconciled base previous results answer results' observed :
  compatibilitySuccessCount results = 0 →
  zeroWinner base previous results answer = inr (results', observed) →
  ∃ matched c, answer = inr observed ∧ validateStoreVersion (ob_Version observed) = Ok tt ∧
    matched ∈ results ∧ ob_Data observed = compatibilityContenderPayload base (cw_contender matched) ∧
    cw_err matched = Some c ∧ compatibilityWriteCanReconcile c = true ∧
    results' = map (with_outcome (ob_Version observed) (cw_contender matched)) results.
Proof.
  intros Hz. unfold zeroWinner. destruct answer as [g|o]; [by repeat case_match|]. cbv zeta.
  destruct (validateStoreVersion (ob_Version o)) as [[]|] eqn:Hv; [|done].
  destruct (_ && negb _); [done|].
  destruct (matching base (ob_Data o) results) as [|matched [|]] eqn:Hm; [by repeat case_match| |done].
  assert (matched ∈ matching base (ob_Data o) results) as Hin by (rewrite Hm; by apply list_elem_of_singleton).
  apply list_elem_of_filter in Hin as [Hd Hr]. destruct (no_success _ Hz _ Hr) as [c Hc]. rewrite Hc.
  destruct (compatibilityWriteCanReconcile c) eqn:Hcan; [|done]. intros [= <- <-]. by exists matched, c.
Qed.

(** The payload of a contender is its own. *)
Lemma payloadsOf_lookup base i :
  (i < compatibilityContenders)%nat → payloadsOf base !! i = Some (compatibilityContenderPayload base i).
Proof.
  intros Hi. unfold payloadsOf. rewrite list_lookup_fmap, lookup_seq_lt by done. done.
Qed.
Lemma payloadsOf_length base : length (payloadsOf base) = compatibilityContenders.
Proof. unfold payloadsOf. by rewrite length_map, length_seq. Qed.
Lemma writeResult_err outcome i c : cw_err (writeResult outcome i) = Some c → outcome i = inl c.
Proof. unfold writeResult. destruct (outcome i); simpl; congruence. Qed.
Lemma writeResult_ok outcome i :
  cw_err (writeResult outcome i) = None → outcome i = inr (cw_version (writeResult outcome i)).
Proof. unfold writeResult. by destruct (outcome i). Qed.
Lemma writeResult_contender outcome i : cw_contender (writeResult outcome i) = i.
Proof. unfold writeResult. by destruct (outcome i). Qed.

(** The answers of a batch that a verdict accepted are those of the contract. *)
Lemma contention_agrees k write base outcome place m winner etag :
  (winner < compatibilityContenders)%nat → applies m k (condition write) →
  (∀ before, m !! k ≠ Some (before, etag)) →
  match outcome winner with
  | inr version => valid version etag | inl c => compatibilityWriteCanReconcile c = true end →
  (∀ loser, (loser < compatibilityContenders)%nat → loser ≠ winner →
     ∃ c, outcome loser = inl c ∧ compatibilityDefinitivePrecondition c = true) →
  agrees true m (Ev (Probe_Contend k write (payloadsOf base)) (outcome, place))
    (<[k := (compatibilityContenderPayload base winner, etag)]> m).
Proof.
  intros Hw Ha Hf Ho Hl. exists winner, (compatibilityContenderPayload base winner).
  split_and!; [by apply payloadsOf_lookup|done| |].
  - exists etag. split_and!; [done|done|]. simpl. by destruct (outcome winner).
  - intros loser Hlt. apply Hl. by rewrite payloadsOf_length in Hlt.
Qed.

Lemma results_in outcome place r :
  r ∈ resultsOf outcome place ↔
  ∃ i, r = writeResult outcome i ∧ (i < compatibilityContenders)%nat.
Proof.
  unfold resultsOf. rewrite arrivals_perm, list_elem_of_fmap. split; intros (i & -> & Hi); exists i; (split; [done|]).
  - apply elem_of_seq in Hi. lia.
  - apply elem_of_seq. lia.
Qed.
Lemma resultsOf_NoDup outcome place : NoDup (resultsOf outcome place).
Proof.
  unfold resultsOf. rewrite arrivals_perm. apply NoDup_fmap_2_strong, NoDup_seq.
  intros i j _ _ E%(f_equal cw_contender). by rewrite !writeResult_contender in E.
Qed.

#[local] Opaque resultsOf payloadsOf.

(** ** Runs that pass *)

(** The key of a call of the store. *)
Definition touched {X} (e : probe_eff X) : option bytes :=
  match e with
  | Probe_Get k _ | Probe_Head k | Probe_PutIfAbsent k _ | Probe_CompareAndSwap k _ _ | Probe_Contend k _ _
  | Probe_Delete k => Some k
  | _ => None
  end.
Definition confined (own : bytes → Prop) : guarantee probe_eff := λ _ X e, ∀ k, touched e = Some k → own k.

(** The objects that a passed probe leaves to its cleanup. *)
Definition probeNames : list bytes :=
  [str "/conditional"; str "/nil-cas"; str "/concurrent-put-if-absent"; str "/concurrent-nil-cas";
   str "/concurrent-replace-cas"].
Definition written (probePrefix : bytes) (m : contents) : Prop :=
  dom m = list_to_set (map (λ name, probePrefix ++ name) probeNames).

Section Sound.
Context (own : bytes → Prop).

(** [passing p h Q]: [p] calls the store and tracks keys on own keys only, and what
    it returns without an error satisfies [Q]. *)
Definition tracked (s : ProbeState) : Prop := Forall own (ps_probeKeys s).
Definition passing {A} (p : P A) (h : history probe_eff) (Q : history probe_eff → A → Prop) : Prop :=
  ∀ s, tracked s → mwp any_rely (confined own) p s h (λ h' s' r, tracked s' ∧ ∀ a, r = Ok a → Q h' a).

Lemma passing_mono {A} (p : P A) h (Q Q' : history probe_eff → A → Prop) :
  passing p h Q → (∀ h' a, Q h' a → Q' h' a) → passing p h Q'.
Proof.
  intros Hp HQ s Hs. eapply mwp_mono; [by apply Hp|]. intros h' s' r [Hs' Hr]. split; [done|]. intros a E. by apply HQ, Hr.
Qed.
Lemma passing_bind {A B} (p : P A) (f : A → P B) h Q :
  passing p h (λ h' a, passing (f a) h' Q) → passing (mbind p f) h Q.
Proof.
  intros Hp s Hs. apply mwp_bind. eapply mwp_mono; [by apply Hp|]. intros h' s' [a|e] [Hs' Hr]; [|done]. by apply Hr.
Qed.
Lemma passing_ret {A} (a : A) h Q : Q h a → passing (mret a) h Q.
Proof. intros HQ s Hs. apply mwp_ret. split; [done|]. by intros a' [= <-]. Qed.
Lemma passing_modify f h Q : (∀ s, tracked s → tracked (f s)) → Q h tt → passing (mmodify f) h Q.
Proof. intros Hf HQ s Hs. apply mwp_modify. split; [by apply Hf|]. by intros [] _. Qed.
Lemma passing_track k h Q : own k → Q h tt → passing (trackProbeKey k) h Q.
Proof.
  intros Hk. apply passing_modify. intros s Hs. apply Forall_app. split; [done|by constructor].
Qed.
Lemma passing_call {X} (e : probe_eff X) h Q :
  (∀ k, touched e = Some k → own k) → (∀ x, Q (h ++ [Ev e x]) x) → passing (mcall e) h Q.
Proof. intros He HQ s Hs. apply mwp_call; [done|]. intros x _. split; [done|]. intros a [= <-]. apply HQ. Qed.
Lemma passing_problem {A} id status c h (Q : history probe_eff → A → Prop) : passing (problem id status c) h Q.
Proof. intros s Hs. unfold problem. mwp_step. mwp_step. mwp_step. done. Qed.
Lemma passing_expectError {A} id s (r : cause + A) h Q : (fails r s → Q h tt) → passing (expectError id s r) h Q.
Proof.
  intros HQ. destruct r as [c|a]; simpl; [|apply passing_problem].
  destruct (cause_Is c s) eqn:Hc; [|apply passing_problem]. apply passing_ret, HQ. by exists c.
Qed.
Lemma passing_expectOk {A} id (r : cause + A) h Q : (∀ a, r = inr a → Q h a) → passing (expectOk id r) h Q.
Proof. intros HQ. destruct r as [c|a]; [apply passing_problem|]. by apply passing_ret, HQ. Qed.
Lemma passing_expectVersion id v h Q :
  (validateStoreVersion v = Ok tt → Q h tt) → passing (expectVersion id v) h Q.
Proof.
  intros HQ. unfold expectVersion. destruct (validateStoreVersion v) as [[]|] eqn:Hv; [|apply passing_problem].
  by apply passing_ret, HQ.
Qed.
Lemma passing_expect id c h Q : (c = true → Q h tt) → passing (expect id c) h Q.
Proof. intros HQ. destruct c; [by apply passing_ret, HQ|apply passing_problem]. Qed.
Lemma passing_conclude {A} id (v : verdict A) h Q : (∀ a, v = inr a → Q h a) → passing (conclude id v) h Q.
Proof. intros HQ. destruct v as [[status c]|a]; [apply passing_problem|]. by apply passing_ret, HQ. Qed.

Ltac pass_step :=
  lazymatch goal with
  | |- passing (mbind _ _) _ _ => apply passing_bind
  | |- passing (mret _) _ _ => apply passing_ret
  | |- passing (mmodify _) _ _ => apply passing_modify; [done|]
  | |- passing (mcall _) _ _ => apply passing_call; [by intros ? [= <-]|intros ?]
  | |- passing (problem _ _ _) _ _ => apply passing_problem
  | |- passing (incompatible _ _) _ _ => apply passing_problem
  | |- passing (operationFailure _ _) _ _ => apply passing_problem
  | |- passing (expectError _ _ _) _ _ => apply passing_expectError; intros ?
  | |- passing (expectOk _ _) _ _ => apply passing_expectOk; intros ? ->
  | |- passing (expectVersion _ _) _ _ => apply passing_expectVersion; intros ?
  | |- passing (expect _ _) _ _ => apply passing_expect; intros ?
  | |- passing (conclude _ _) _ _ => apply passing_conclude; intros ? ?
  | |- passing (pass _) _ _ => apply passing_modify; [done|]
  | |- passing (passDetail _ _) _ _ => apply passing_modify; [done|]
  | |- passing (trackProbeKey _) _ _ => apply passing_track; [done|]
  | |- passing (readObject _ _ _) _ _ => unfold readObject
  | |- passing (headObject _ _) _ _ => unfold headObject
  | |- passing (let _ := _ in _) _ _ => cbv zeta
  end.

(** A GET that was found to give [data] and [etag]. *)
Lemma agrees_get m k o object data etag :
  m !! k = Some (data, etag) → validateStoreVersion (ob_Version object) = Ok tt →
  ob_Data object = data → v_ETag (ob_Version object) = etag →
  (go_IfNoneMatch o = [] ∨ go_IfNoneMatch o ≠ etag) → (go_MaxBytes o ≤ 0 ∨ len data ≤ go_MaxBytes o) →
  agrees true m (Ev (Probe_Get k o) (inr object)) m.
Proof.
  intros Hm Hv Hd Ht Ho Hl. split; [done|]. unfold reads. rewrite Hm.
  assert ((go_IfNoneMatch o !=? []) && (go_IfNoneMatch o ==? etag) = false) as ->.
  { destruct Ho as [->|Ho]; [done|]. by rewrite (bool_decide_false _ Ho), andb_false_r. }
  assert ((0 <? go_MaxBytes o) && (go_MaxBytes o <? len data) = false) as ->.
  { destruct Hl; [by rewrite (proj2 (Z.ltb_ge _ _) H)|]. by rewrite (proj2 (Z.ltb_ge _ _) H), andb_false_r. }
  by exists object.
Qed.
Lemma agrees_get_fails m k o data etag r s :
  m !! k = Some (data, etag) → fails r s →
  (s = ErrNotModified ∧ go_IfNoneMatch o ≠ [] ∧ go_IfNoneMatch o = etag ∨
   s = ErrResourceLimit ∧ go_IfNoneMatch o = [] ∧ 0 < go_MaxBytes o < len data) →
  agrees true m (Ev (Probe_Get k o) r) m.
Proof.
  intros Hm Hr Ho. split; [done|]. unfold reads. rewrite Hm. destruct Ho as [(-> & Hn & Ht)|(-> & -> & H1 & H2)].
  - rewrite (bool_decide_false _ Hn), (bool_decide_true _ Ht). exact Hr.
  - simpl. by rewrite (proj2 (Z.ltb_lt _ _) H1), (proj2 (Z.ltb_lt _ _) H2).
Qed.
Lemma agrees_head m k v data etag :
  m !! k = Some (data, etag) → validateStoreVersion v = Ok tt → v_ETag v = etag →
  agrees true m (Ev (Probe_Head k) (inr v)) m.
Proof. intros Hm Hv Ht. split; [done|]. rewrite Hm. by exists v. Qed.

Lemma checkMissing_sound k h :
  own k → path true h ∅ → passing (checkMissing k) h (λ h' _, path true h' ∅).
Proof.
  intros Hk Hh. unfold checkMissing. repeat pass_step.
  eapply path_snoc; [eapply path_snoc; [done|]|]; (split; [done|]); unfold reads; by rewrite lookup_empty.
Qed.

(** A write whose precondition holds: its answer, or what the GET that reconciles
    it finds, is one of the contract. *)
Lemma settleWrite_sound id k data (previous : option Object) expected (e : probe_eff (cause + Version)) r h m :
  own k → (∀ m' , writes true m k expected data r m' → agrees true m (Ev e r) m') → path true h m →
  applies m k expected →
  match previous with
  | Some object => m !! k = Some (ob_Data object, v_ETag (ob_Version object)) ∧ ob_Data object ≠ data
  | None => m !! k = None
  end →
  passing (settleWrite id k data previous r) (h ++ [Ev e r]) (λ h' '(version, reconciled),
    (∀ before, m !! k ≠ Some (before, v_ETag version)) →
    path true h' (<[k := (data, v_ETag version)]> m)).
Proof.
  intros Hk He Hh Ha Hp. unfold settleWrite. pass_step. destruct r as [c|version]; repeat pass_step.
  - unfold reconcileCompatibilityWrite. repeat pass_step. intros Hf.
    rename x into r, a into version. unfold reconcileObserved in H. destruct r as [g|observed].
    { by repeat case_match. }
    destruct (validateStoreVersion (ob_Version observed)) as [[]|] eqn:Hv; [|done].
    case_bool_decide as Hd; [|by repeat case_match].
    destruct (match previous with Some object => _ | None => false end); [done|].
    destruct (compatibilityWriteCanReconcile c) eqn:Hc; [|done]. injection H as <-.
    eapply path_snoc; [eapply path_snoc; [done|]|].
    + apply He. left. split; [done|]. exists (v_ETag (ob_Version observed)). by rewrite Hc.
    + eapply agrees_get; [by rewrite lookup_insert_eq|done..|by left|]. right. simpl. rewrite <- Hd.
      unfold reconcileLimit. destruct previous as [object|]; [|done]. case_match eqn:E; [apply Z.ltb_lt in E|]; lia.
  - intros Hf. eapply path_snoc; [done|]. apply He. left. split; [done|]. exists (v_ETag version). done.
Qed.

(** The first write of an own key. *)
Lemma settleCreate_sound id k data (e : probe_eff (cause + Version)) r h m :
  own k → (∀ m', writes true m k None data r m' → agrees true m (Ev e r) m') → path true h m → m !! k = None →
  passing (settleWrite id k data None r) (h ++ [Ev e r]) (λ h' '(version, _),
    path true h' (<[k := (data, v_ETag version)]> m)).
Proof.
  intros Hk He Hh Hm. eapply passing_mono; [by eapply settleWrite_sound|].
  intros h' [version reconciled] Hp. apply Hp. intros before. by rewrite Hm.
Qed.

Lemma holds_true object data etag :
  holds object data etag = true → ob_Data object = data ∧ v_ETag (ob_Version object) = etag.
Proof. unfold holds. intros H. by bool_prop. Qed.

Ltac etag_set v := match goal with H : validateStoreVersion v = Ok _ |- _ => pose proof (validateStoreVersion_ok _ _ H) end.
Ltac settle := apply passing_bind; eapply passing_mono; [by eapply settleCreate_sound; eauto|];
  intros ? [? ?] ?; simpl.
Ltac get := eapply agrees_get; [by rewrite ?lookup_insert_eq|done..|by left|first [by left|right; simpl; lia]].

Lemma checkCreate_sound k first h :
  own k → path true h ∅ → passing (checkCreate k first) h (λ h' created,
    path true h' {[k := (first, v_ETag created)]} ∧ v_ETag created ≠ []).
Proof.
  intros Hk Hh. unfold checkCreate. do 4 pass_step. settle. repeat pass_step. bool_prop.
  rename a into headed, a0 into observed. rewrite insert_empty in H.
  split; [|etag_set headed; congruence].
  eapply path_snoc; [eapply path_snoc; [done|]|].
  - eapply agrees_head; [by rewrite lookup_singleton_eq|done..].
  - eapply agrees_get; [by rewrite lookup_singleton_eq|done..|by left|by left].
Qed.

Lemma checkDuplicate_sound k first second created h :
  own k → path true h {[k := (first, v_ETag created)]} →
  passing (checkDuplicate k first second created) h (λ h' _, path true h' {[k := (first, v_ETag created)]}).
Proof.
  intros Hk Hh. unfold checkDuplicate. repeat pass_step. apply holds_true in H1 as [Hd Ht].
  eapply path_snoc; [eapply path_snoc; [done|]|].
  - right. split; [|done]. simpl. by rewrite lookup_singleton_eq.
  - eapply agrees_get; [by rewrite lookup_singleton_eq|done..|by left|by left].
Qed.

Lemma checkReads_sound k first created h :
  own k → 1 < len first → path true h {[k := (first, v_ETag created)]} →
  passing (checkReads k first created) h (λ h' observed,
    path true h' {[k := (first, v_ETag created)]} ∧ ob_Data observed = first ∧
    v_ETag (ob_Version observed) = v_ETag created).
Proof.
  intros Hk Hl Hh. unfold checkReads. repeat pass_step.
  repeat match goal with H : holds _ _ _ = true |- _ => apply holds_true in H as [? ?] end.
  split; [|done]. eapply path_snoc; [eapply path_snoc; [eapply path_snoc; [done|]|]|].
  - eapply agrees_get; [by rewrite lookup_singleton_eq|done..|by left|right; simpl; lia].
  - eapply agrees_get_fails; [by rewrite lookup_singleton_eq|done|]. right. simpl. split_and!; [done|done|lia..].
  - eapply agrees_get; [by rewrite lookup_singleton_eq|done..|by left|by left].
Qed.

Lemma checkReplacement_sound k first second created observed h :
  own k → first ≠ second → ob_Data observed = first → v_ETag (ob_Version observed) = v_ETag created →
  path true h {[k := (first, v_ETag created)]} →
  passing (checkReplacement k second created observed) h (λ h' current,
    path true h' {[k := (second, v_ETag current)]} ∧ v_ETag current ≠ v_ETag created ∧ v_ETag current ≠ []).
Proof.
  intros Hk Hne Hd Ht Hh. unfold checkReplacement. do 2 pass_step. pass_step.
  eapply passing_mono; [eapply settleWrite_sound with (expected := Some _); [done| |done|..]|].
  - intros m' Hw. exact Hw.
  - exists first. rewrite lookup_singleton_eq. simpl. by rewrite Ht.
  - rewrite lookup_singleton_eq, Hd, Ht. done.
  - intros h1 [replaced reconciled] Hp. repeat pass_step. bool_prop.
    rename a into current, a0 into headed. rewrite insert_singleton_eq in Hp.
    split_and!; [|congruence|etag_set (ob_Version current); congruence].
    replace (v_ETag (ob_Version current)) with (v_ETag replaced) by congruence. eapply path_snoc; [eapply path_snoc; [apply Hp|]|].
    + intros before. rewrite lookup_singleton_eq. congruence.
    + eapply agrees_get; [by rewrite lookup_singleton_eq|done..|by left|by left].
    + eapply agrees_head; [by rewrite lookup_singleton_eq|done|congruence].
Qed.

Lemma checkStale_sound k first second created current h m :
  own k → v_ETag current ≠ v_ETag created → m !! k = Some (second, v_ETag current) → path true h m →
  passing (checkStale k first second created current) h (λ h' _, path true h' m).
Proof.
  intros Hk Hne Hm Hh. unfold checkStale. repeat pass_step. apply holds_true in H1 as [Hd Ht].
  eapply path_snoc; [eapply path_snoc; [done|]|].
  - right. split; [|done]. intros [data E]. congruence.
  - eapply agrees_get; [done..|by left|by left].
Qed.

Lemma checkConditionalGet_sound k second created current h m :
  own k → v_ETag current ≠ v_ETag created → v_ETag current ≠ [] → m !! k = Some (second, v_ETag current) →
  path true h m → passing (checkConditionalGet k second created current) h (λ h' _, path true h' m).
Proof.
  intros Hk Hne Hn Hm Hh. unfold checkConditionalGet. do 8 pass_step. pass_step.
  destruct x0 as [c|object]; [by destruct (cause_Is c ErrNotModified); pass_step|]. repeat pass_step.
  apply holds_true in H1 as [Hd Ht]. eapply path_snoc; [eapply path_snoc; [done|]|].
  - eapply agrees_get_fails; [done|done|]. by left.
  - eapply agrees_get; [done..|right; simpl; congruence|by left].
Qed.

Lemma checkNilCAS_sound k first second h m :
  own k → m !! k = None → path true h m →
  passing (checkNilCAS k first second) h (λ h' _, ∃ etag, path true h' (<[k := (first, etag)]> m)).
Proof.
  intros Hk Hm Hh. unfold checkNilCAS. do 4 pass_step. settle. repeat pass_step. apply holds_true in H2 as [Hd Ht].
  exists (v_ETag v). eapply path_snoc; [eapply path_snoc; [done|]|].
  - right. split; [|done]. simpl. by rewrite lookup_insert_eq.
  - eapply agrees_get; [by rewrite lookup_insert_eq|done..|by left|by left].
Qed.

Lemma checkMissingCAS_sound k first current h m :
  own k → m !! k = None → path true h m → passing (checkMissingCAS k first current) h (λ h' _, path true h' m).
Proof.
  intros Hk Hm Hh. unfold checkMissingCAS. repeat pass_step. eapply path_snoc; [eapply path_snoc; [done|]|].
  - right. split; [|done]. simpl. intros [data E]. congruence.
  - split; [done|]. by rewrite Hm.
Qed.


(** What holds of the winner of a batch, reconciled or not. *)
Definition won (k : bytes) (write : contention) (base : bytes) (m : contents) (outcome : nat → cause + Version)
    (place : nat → nat) (winner : compatibilityWriteResult) : Prop :=
  (∀ before, m !! k ≠ Some (before, v_ETag (cw_version winner))) →
  agrees true m (Ev (Probe_Contend k write (payloadsOf base)) (outcome, place))
    (<[k := (compatibilityContenderPayload base (cw_contender winner), v_ETag (cw_version winner))]> m).

Lemma winner_agrees k write base m outcome place winner :
  applies m k (condition write) →
  requireSingle (resultsOf outcome place) = inr winner →
  won k write base m outcome place winner.
Proof.
  intros Ha E Hf. apply requireSingle_winner in E as (Hw & He & Hv & Hsole & Hlose).
  apply results_in in Hw as (i & -> & Hi). rewrite writeResult_contender.
  apply contention_agrees; [done|done|done| |].
  - rewrite (writeResult_ok _ _ He). by split.
  - intros loser Hl Hne.
    assert (writeResult outcome loser ∈ resultsOf outcome place)
      as Hin by (apply results_in; eauto).
    destruct (cw_err (writeResult outcome loser)) as [c|] eqn:Hc.
    + exists c. split; [by apply writeResult_err|by eapply Hlose].
    + destruct Hne. pose proof (Hsole _ Hin Hc) as E. apply (f_equal cw_contender) in E.
      by rewrite !writeResult_contender in E.
Qed.

Lemma reconciled_agrees k write base m outcome place previous answer results' observed winner :
  applies m k (condition write) →
  let results := resultsOf outcome place in
  compatibilitySuccessCount results = 0 →
  zeroWinner base previous results answer = inr (results', observed) → requireSingle results' = inr winner →
  won k write base m outcome place winner ∧ answer = inr observed ∧
  validateStoreVersion (ob_Version observed) = Ok tt ∧ cw_version winner = ob_Version observed ∧
  ob_Data observed = compatibilityContenderPayload base (cw_contender winner).
Proof.
  intros Ha results Hz Ez E. apply zeroWinner_reconciled in Ez as (matched & c & Hans & Hv & Hm & Hd & Hc & Hcan & ->); [|done].
  apply requireSingle_winner in E as (Hw & He & _ & _ & Hlose).
  apply results_in in Hm as (i & -> & Hi). rewrite writeResult_contender in *.
  assert (∀ j, (j < compatibilityContenders)%nat → ∃ cj, cw_err (writeResult outcome j) = Some cj) as Hall
    by (intros j Hj; apply (no_success results Hz), results_in; eauto).
  assert (winner = {| cw_contender := i; cw_version := ob_Version observed; cw_err := None |}) as ->.
  { apply list_elem_of_fmap in Hw as (r & -> & Hr). apply results_in in Hr as (j & -> & Hj).
    unfold with_outcome in *. rewrite writeResult_contender in *. destruct (Hall j Hj) as [cj Hcj].
    case_bool_decide; [by subst|congruence]. }
  simpl. split_and!; [|done..]. intros Hf. cbn [cw_contender cw_version] in Hf |- *. apply contention_agrees; [done|done|done| |].
  - by rewrite (writeResult_err _ _ _ Hc).
  - intros loser Hl Hne. destruct (Hall loser Hl) as [cl Hcl]. exists cl. split; [by apply writeResult_err|].
    eapply Hlose; [apply list_elem_of_fmap; exists (writeResult outcome loser); split; [done|apply results_in; eauto]|].
    unfold with_outcome. rewrite writeResult_contender, bool_decide_false by done. done.
Qed.

Lemma contend_sound id readID k write base previous h m :
  own k → path true h m → applies m k (condition write) →
  match previous with
  | Some object => m !! k = Some (ob_Data object, v_ETag (ob_Version object))
  | None => m !! k = None
  end →
  passing (contend id readID k write base previous) h (λ h' '(winner, _),
    path true h' (<[k := (compatibilityContenderPayload base (cw_contender winner),
                          v_ETag (cw_version winner))]> m)).
Proof.
  intros Hk Hh Ha Hp. unfold contend, runCompatibilityContenders. do 3 pass_step.
  destruct x as [outcome place]. pass_step. set (results := resultsOf outcome place).
  pass_step. destruct (Z.eqb_spec (compatibilitySuccessCount results) 0) as [Hz|Hz].
  - do 1 pass_step. unfold reconcileCompatibilityZeroWinner, requireSingleCompatibilityWinner. repeat pass_step.
    destruct a as [results' observed]. repeat pass_step. rename a into winner, x into answer.
    destruct (reconciled_agrees k write base m outcome place previous answer results' observed winner) as
      (Hwon & -> & Hv & Hver & Hd); [done..|].
    eapply path_snoc; [eapply path_snoc; [done|apply Hwon]|].
    + intros before. destruct previous as [object|]; [|by rewrite Hp]. rewrite Hp. bool_prop. congruence.
    + eapply agrees_get; [by rewrite lookup_insert_eq|done|done|by rewrite Hver|by left|].
      right. simpl. unfold compatibilityContenderPayload. rewrite len_app. change (len [_]) with 1.
      unfold reconcileLimit. destruct previous; [|lia]. case_match eqn:E; [apply Z.ltb_lt in E|]; lia.
  - unfold requireSingleCompatibilityWinner. repeat pass_step. rename a into winner, a0 into object.
    unfold compatibilityObjectMatchesWinner in *. bool_prop.
    eapply path_snoc; [eapply path_snoc; [done|eapply winner_agrees; [done|done|]]|].
    + intros before. destruct previous as [o|]; [|by rewrite Hp]. rewrite Hp. bool_prop. congruence.
    + eapply agrees_get; [by rewrite lookup_insert_eq|done..|by left|by left].
Qed.

Lemma checkConcurrentPut_sound k first h m :
  own k → m !! k = None → path true h m →
  passing (checkConcurrentPut k first) h (λ h' _, ∃ object, path true h' (<[k := object]> m)).
Proof.
  intros Hk Hm Hh. unfold checkConcurrentPut. do 2 pass_step. apply passing_bind.
  eapply passing_mono; [by eapply contend_sound|]. intros h1 [winner object] Hp. repeat pass_step. bool_prop.
  eexists. eapply path_snoc; [done|]. eapply agrees_head; [by rewrite lookup_insert_eq|done..].
Qed.

Lemma checkConcurrentCAS_sound id readID headID k base previous h m :
  own k → path true h m →
  match previous with
  | Some object => m !! k = Some (ob_Data object, v_ETag (ob_Version object))
  | None => m !! k = None
  end →
  passing (checkConcurrentCAS id readID headID k base previous) h (λ h' _, ∃ object, path true h' (<[k := object]> m)).
Proof.
  intros Hk Hh Hm. unfold checkConcurrentCAS. apply passing_bind. eapply passing_mono; [eapply contend_sound; try done|].
  { destruct previous as [object|]; simpl; [by exists (ob_Data object)|done]. }
  intros h1 [winner object] Hp. repeat pass_step. bool_prop. eexists. eapply path_snoc; [done|].
  eapply agrees_head; [by rewrite lookup_insert_eq|done..].
Qed.

Lemma checkConcurrentReplacement_sound k first second h m :
  own k → m !! k = None → path true h m →
  passing (checkConcurrentReplacement k first second) h (λ h' _, ∃ object, path true h' (<[k := object]> m)).
Proof.
  intros Hk Hm Hh. unfold checkConcurrentReplacement. do 4 pass_step. settle. do 2 pass_step.
  eapply passing_mono; [eapply checkConcurrentCAS_sound; [done|done|]|].
  - simpl. by rewrite lookup_insert_eq.
  - intros h1 ? [object Hp]. exists object. by rewrite insert_insert_eq in Hp.
Qed.

(** A passed probe of its own prefix is a run of the contract that wrote the
    objects of the probe. *)
Lemma probeStore_sound probePrefix nonce h :
  (∀ name, own (probePrefix ++ str "/" ++ name)) → path true h ∅ →
  passing (probeStore probePrefix nonce) h (λ h' _, ∃ m, path true h' m ∧ written probePrefix m).
Proof.
  intros Hown Hh. unfold probeStore.
  assert (∀ s s', s ≠ s' → probePrefix ++ s ≠ probePrefix ++ s') as Hne by (intros s s' Hs ?%app_inv_head; done).
  set (first := firstPayload nonce). set (second := secondPayload nonce). cbv zeta.
  apply passing_bind. eapply passing_mono; [by apply checkMissing_sound; [apply (Hown (str "conditional"))|]|].
  intros h1 ? H1. apply passing_bind.
  eapply passing_mono; [by apply checkCreate_sound; [apply (Hown (str "conditional"))|]|].
  intros h2 created [H2 Hcre]. apply passing_bind.
  eapply passing_mono; [by eapply checkDuplicate_sound; [apply (Hown (str "conditional"))|]|].
  intros h3 ? H3. apply passing_bind.
  eapply passing_mono; [by eapply checkReads_sound; [apply (Hown (str "conditional"))|apply payload_length|]|].
  intros h4 observed (H4 & Hd & Ht). apply passing_bind.
  eapply passing_mono; [by eapply checkReplacement_sound; [apply (Hown (str "conditional"))|apply payloads_differ|..]|].
  intros h5 current (H5 & Hcur & Hset). apply passing_bind.
  eapply passing_mono; [eapply checkStale_sound; [apply (Hown (str "conditional"))|done|by apply lookup_singleton_eq|done]|].
  intros h6 ? H6. apply passing_bind.
  eapply passing_mono; [eapply checkConditionalGet_sound; [apply (Hown (str "conditional"))|done|done|by apply lookup_singleton_eq|done]|].
  intros h7 ? H7. apply passing_bind.
  eapply passing_mono; [eapply checkNilCAS_sound; [apply (Hown (str "nil-cas"))| |exact H7]|].
  { apply lookup_singleton_ne. by apply Hne. }
  intros h8 ? [etag H8]. apply passing_bind.
  eapply passing_mono; [eapply checkMissingCAS_sound; [apply (Hown (str "missing-if-match"))| |exact H8]|].
  { rewrite ?lookup_insert_ne by by apply Hne. apply lookup_singleton_ne. by apply Hne. }
  intros h9 ? H9. apply passing_bind.
  eapply passing_mono; [eapply checkConcurrentPut_sound; [apply (Hown (str "concurrent-put-if-absent"))| |exact H9]|].
  { rewrite ?lookup_insert_ne by by apply Hne. apply lookup_singleton_ne. by apply Hne. }
  intros h10 ? [o10 H10]. apply passing_bind. unfold checkConcurrentNilCAS. pass_step.
  apply passing_track; [apply (Hown (str "concurrent-nil-cas"))|].
  eapply passing_mono; [eapply checkConcurrentCAS_sound; [apply (Hown (str "concurrent-nil-cas"))|exact H10|]|].
  { rewrite ?lookup_insert_ne by by apply Hne. apply lookup_singleton_ne. by apply Hne. }
  intros h11 ? [o11 H11]. apply passing_bind.
  eapply passing_mono; [eapply checkConcurrentReplacement_sound; [apply (Hown (str "concurrent-replace-cas"))| |exact H11]|].
  { rewrite ?lookup_insert_ne by by apply Hne. apply lookup_singleton_ne. by apply Hne. }
  intros h12 ? [o12 H12]. pass_step. eexists. split; [exact H12|]. unfold written, probeNames.
  rewrite !dom_insert_L, dom_singleton_L. set_solver.
Qed.
End Sound.

(** ** A store that keeps the contract passes *)

(** Every call is answered as the contract says, no response is lost, the context
    does not end and there is randomness; what a cleanup meets is free. *)
Definition reliable : rely probe_eff := λ h X e x,
  match e in probe_eff T return T → Prop with
  | Probe_CtxErr => λ err, err = None
  | Probe_Rand _ => λ r, ∃ nonce, r = inr nonce
  | _ => λ _, True
  end x ∧
  match e with
  | Probe_Delete _ | Probe_CleanupErr => True
  | _ => ∀ m, path false h m → ∃ m', agrees false m (Ev e x) m'
  end.

Implicit Types (id readID headID : StoreCompatibilityCheckID) (k data etag base first second : bytes) (v : Version)
  (o : GetOptions) (m : contents) (reconciled : bool) (previous : option Object).

Definition accepting {A} (p : P A) (m : contents) (Q : A → contents → Prop) : Prop :=
  ∀ s h, path false h m → mwp reliable any_call p s h (λ h' _ r,
    ∃ a m', r = Ok a ∧ path false h' m' ∧ Q a m').

Lemma accepting_mono {A} (p : P A) (m : contents) (Q Q' : A → contents → Prop) :
  accepting p m Q → (∀ a m', Q a m' → Q' a m') → accepting p m Q'.
Proof.
  intros Hp HQ s h Hh. eapply mwp_mono; [by apply Hp|]. intros h' s' r (a & m' & -> & Hm & Ha). eauto 6.
Qed.
Lemma accepting_bind {A B} (p : P A) (f : A → P B) (m : contents) Q Q' :
  accepting p m Q → (∀ a m', Q a m' → accepting (f a) m' Q') → accepting (mbind p f) m Q'.
Proof.
  intros Hp Hf s h Hh. apply mwp_bind. eapply mwp_mono; [by apply Hp|]. simpl.
  intros h' s' r (a & m' & -> & Hm & Ha). by apply (Hf a m').
Qed.
Lemma accepting_ret {A} (a : A) (m : contents) (Q : A → contents → Prop) : Q a m → accepting (mret a) m Q.
Proof. intros HQ s h Hh. apply mwp_ret. eauto. Qed.
Lemma accepting_modify (f : ProbeState → ProbeState) (m : contents) (Q : unit → contents → Prop) : Q tt m → accepting (mmodify f) m Q.
Proof. intros HQ s h Hh. apply mwp_modify. eauto. Qed.
Lemma accepting_call {X} (e : probe_eff X) (m : contents) :
  match e with Probe_Delete _ | Probe_CleanupErr => False | _ => True end →
  accepting (mcall e) m (λ x m', answers false m m' e x).
Proof.
  intros He s h Hh. apply mwp_call; [done|]. intros x [_ Hx].
  assert (∃ m', agrees false m (Ev e x) m') as [m' Hm'] by (destruct e; try done; by apply Hx).
  exists x, m'. split_and!; [done|by eapply path_snoc|done].
Qed.

(** What the contract answers when the state of the key is known. *)
Lemma writes_applied (m m' : contents) (k : bytes) (expected : option Version) (data : bytes) (r : cause + Version) :
  applies m k expected → writes false m k expected data r m' →
  ∃ v, r = inr v ∧ validateStoreVersion v = Ok tt ∧ m' = <[k := (data, v_ETag v)]> m ∧
    ∀ before, m !! k ≠ Some (before, v_ETag v).
Proof.
  intros Ha [[_ (etag & -> & Hf & Hr)]|[Hn _]]; [|done]. destruct r as [c|v]; [by destruct Hr|].
  destruct Hr as [Hv <-]. by exists v.
Qed.
Lemma writes_refused (m m' : contents) (k : bytes) (expected : option Version) (data : bytes) (r : cause + Version) :
  ¬ applies m k expected → writes false m k expected data r m' → m' = m ∧ fails r ErrPrecondition.
Proof. by intros Hn [[Ha _]|(_ & -> & Hr)]. Qed.

Lemma accepting_expectError {A} id (s : sentinel) (r : cause + A) (m : contents) : fails r s → accepting (expectError id s r) m (λ _ m', m' = m).
Proof. intros (c & -> & Hc). simpl. rewrite Hc. by apply accepting_ret. Qed.
Lemma accepting_expectVersion id v (m : contents) : validateStoreVersion v = Ok tt → accepting (expectVersion id v) m (λ _ m', m' = m).
Proof. intros Hv. unfold expectVersion. rewrite Hv. by apply accepting_ret. Qed.
Lemma accepting_expect id (c : bool) (m : contents) : c = true → accepting (expect id c) m (λ _ m', m' = m).
Proof. intros ->. by apply accepting_ret. Qed.

Lemma accepting_read id k o (m : contents) data etag :
  m !! k = Some (data, etag) → (go_IfNoneMatch o = [] ∨ go_IfNoneMatch o ≠ etag) →
  (go_MaxBytes o ≤ 0 ∨ len data ≤ go_MaxBytes o) →
  accepting (readObject id k o) m (λ object m', m' = m ∧ ob_Data object = data ∧
    v_ETag (ob_Version object) = etag ∧ validateStoreVersion (ob_Version object) = Ok tt).
Proof.
  intros Hm Ho Hl. eapply accepting_bind; [by apply accepting_call|]. intros r m' [-> Hr].
  unfold reads in Hr. rewrite Hm in Hr.
  assert ((go_IfNoneMatch o !=? []) && (go_IfNoneMatch o ==? etag) = false) as E1.
  { destruct Ho as [->|Ho]; [done|]. by rewrite (bool_decide_false _ Ho), andb_false_r. }
  assert ((0 <? go_MaxBytes o) && (go_MaxBytes o <? len data) = false) as E2.
  { destruct Hl; [by rewrite (proj2 (Z.ltb_ge _ _) H)|]. by rewrite (proj2 (Z.ltb_ge _ _) H), andb_false_r. }
  rewrite E1, E2 in Hr. destruct Hr as (object & -> & Hd & Hv & Ht).
  eapply accepting_bind; [by apply (accepting_ret object _ (λ a m', a = object ∧ m' = m))|]. intros ? ? [-> ->].
  eapply accepting_bind; [by apply accepting_expectVersion|]. intros ? ? ->. by apply accepting_ret.
Qed.
Lemma accepting_head id k (m : contents) data etag :
  m !! k = Some (data, etag) →
  accepting (headObject id k) m (λ v m', m' = m ∧ v_ETag v = etag ∧ validateStoreVersion v = Ok tt).
Proof.
  intros Hm. eapply accepting_bind; [by apply accepting_call|]. intros r m' [-> Hr]. rewrite Hm in Hr.
  destruct Hr as (v & -> & Hv & Ht).
  eapply accepting_bind; [by apply (accepting_ret v _ (λ a m', a = v ∧ m' = m))|]. intros ? ? [-> ->].
  eapply accepting_bind; [by apply accepting_expectVersion|]. intros ? ? ->. by apply accepting_ret.
Qed.
Lemma accepting_settle id k data previous v (m : contents) :
  validateStoreVersion v = Ok tt →
  accepting (settleWrite id k data previous (inr v)) m (λ r m', r = (v, false) ∧ m' = m).
Proof.
  intros Hv. eapply accepting_bind; [by apply (accepting_ret (v, false) _ (λ a m', a = (v, false) ∧ m' = m))|].
  intros ? ? [-> ->]. eapply accepting_bind; [by apply accepting_expectVersion|]. intros ? ? ->. by apply accepting_ret.
Qed.
Lemma accepting_pass id reconciled (m : contents) : accepting (passDetail id reconciled) m (λ _ m', m' = m).
Proof. by apply accepting_modify. Qed.
Lemma accepting_track k (m : contents) : accepting (trackProbeKey k) m (λ _ m', m' = m).
Proof. by apply accepting_modify. Qed.

(** One step with what the contract gives; state equalities are substituted. *)
Ltac acc :=
  lazymatch goal with
  | |- accepting (mbind (pass _) _) _ _ => eapply accepting_bind; [apply accepting_pass|intros ? ? ->]
  | |- accepting (mbind (passDetail _ _) _) _ _ => eapply accepting_bind; [apply accepting_pass|intros ? ? ->]
  | |- accepting (mbind (trackProbeKey _) _) _ _ => eapply accepting_bind; [apply accepting_track|intros ? ? ->]
  | |- accepting (mbind (mcall _) _) _ _ => eapply accepting_bind; [by apply accepting_call|intros ? ? ?]
  | |- accepting (mbind (expect _ _) _) _ _ => eapply accepting_bind; [apply accepting_expect|intros ? ? ->]
  | |- accepting (mbind (expectVersion _ _) _) _ _ => eapply accepting_bind; [by apply accepting_expectVersion|intros ? ? ->]
  | |- accepting (mbind (expectError _ _ _) _) _ _ => eapply accepting_bind; [apply accepting_expectError|intros ? ? ->]
  | |- accepting (mbind (settleWrite _ _ _ _ (inr _)) _) _ _ =>
      eapply accepting_bind; [by apply accepting_settle|intros ? ? [-> ->]]
  | |- accepting (mbind (readObject _ _ _) _) _ _ =>
      eapply accepting_bind; [eapply accepting_read|intros ? ? (-> & ? & ? & ?)]
  | |- accepting (mbind (headObject _ _) _) _ _ =>
      eapply accepting_bind; [eapply accepting_head|intros ? ? (-> & ? & ?)]
  | |- accepting (mret _) _ _ => apply accepting_ret
  | |- accepting (pass _) _ _ => apply accepting_modify
  | |- accepting (passDetail _ _) _ _ => apply accepting_modify
  | |- accepting (mmodify _) _ _ => apply accepting_modify
  end.

Lemma holds_iff object data etag :
  ob_Data object = data → v_ETag (ob_Version object) = etag → holds object data etag = true.
Proof. intros <- <-. unfold holds. by rewrite !bool_decide_true. Qed.

Lemma checkMissing_accepts k : accepting (checkMissing k) ∅ (λ _ m', m' = ∅).
Proof.
  unfold checkMissing. acc. destruct H as [-> H]. rewrite lookup_empty in H. acc; [done|]. acc. destruct H0 as [-> H0].
  unfold reads in H0. rewrite lookup_empty in H0. acc; [done|]. by acc.
Qed.

Lemma checkCreate_accepts k first :
  accepting (checkCreate k first) ∅ (λ created m', m' = {[k := (first, v_ETag created)]} ∧ v_ETag created ≠ []).
Proof.
  unfold checkCreate. acc. acc. apply writes_applied in H as (v & -> & Hv & -> & _); [|done].
  rewrite insert_empty. acc. simpl. acc. acc; [by rewrite lookup_singleton_eq|]. acc; [by apply bool_decide_true|]. acc.
  acc; [by rewrite lookup_singleton_eq|by left|by left|]. acc; [by apply bool_decide_true|].
  acc; [by apply bool_decide_true|]. acc. acc. acc. split; [done|]. by eapply validateStoreVersion_ok.
Qed.

Lemma checkDuplicate_accepts k first second v m :
  m !! k = Some (first, v_ETag v) → accepting (checkDuplicate k first second v) m (λ _ m', m' = m).
Proof.
  intros Hm. unfold checkDuplicate. acc. apply writes_refused in H as [-> H]; [|simpl; congruence].
  acc; [done|]. acc; [done|by left|by left|]. acc; [by apply holds_iff|]. by acc.
Qed.

Lemma checkReads_accepts k first v m :
  1 < len first → m !! k = Some (first, v_ETag v) →
  accepting (checkReads k first v) m (λ observed m', m' = m ∧ ob_Data observed = first ∧
    v_ETag (ob_Version observed) = v_ETag v).
Proof.
  intros Hl Hm. unfold checkReads. acc; [done|by left|right; simpl; lia|]. acc; [by apply holds_iff|].
  acc. destruct H2 as [-> Hr]. unfold reads in Hr. rewrite Hm in Hr. cbn [go_IfNoneMatch go_MaxBytes] in Hr.
  rewrite (bool_decide_true ([] = [])), (proj2 (Z.ltb_lt 0 (len first - 1))), (proj2 (Z.ltb_lt (len first - 1) (len first))) in Hr by (done || lia).
  acc; [done|]. acc. acc; [done|by left|by left|]. acc; [by apply holds_iff|]. acc. by acc.
Qed.

Lemma checkReplacement_accepts k first second v (observed : Object) m :
  m !! k = Some (first, v_ETag v) → v_ETag (ob_Version observed) = v_ETag v →
  accepting (checkReplacement k second v observed) m (λ current m',
    m' = <[k := (second, v_ETag current)]> m ∧ v_ETag current ≠ v_ETag v ∧ v_ETag current ≠ []).
Proof.
  intros Hm Ht. unfold checkReplacement. acc.
  apply writes_applied in H as (w & -> & Hw & -> & Hf); [|exists first; simpl; by rewrite Ht].
  acc. simpl. assert (v_ETag w ≠ v_ETag v) as Hne by (intros E; apply (Hf first); by rewrite E).
  acc; [by rewrite bool_decide_false|]. acc. acc; [by rewrite lookup_insert_eq|by left|by left|].
  acc; [by apply bool_decide_true|]. acc; [by apply bool_decide_true|]. acc. acc.
  acc; [by rewrite lookup_insert_eq|]. acc; [apply bool_decide_true; congruence|]. acc. acc.
  match goal with H : v_ETag (ob_Version ?a) = v_ETag w |- _ => rewrite H end.
  split_and!; [done|done|by eapply validateStoreVersion_ok].
Qed.

Lemma checkStale_accepts k first second v w m :
  v_ETag w ≠ v_ETag v → m !! k = Some (second, v_ETag w) →
  accepting (checkStale k first second v w) m (λ _ m', m' = m).
Proof.
  intros Hne Hm. unfold checkStale. acc. apply writes_refused in H as [-> H]; [|intros [data E]; congruence].
  acc; [done|]. acc. acc; [done|by left|by left|]. acc; [by apply holds_iff|]. by acc.
Qed.

Lemma checkConditionalGet_accepts k second v w m :
  v_ETag w ≠ v_ETag v → v_ETag w ≠ [] → m !! k = Some (second, v_ETag w) →
  accepting (checkConditionalGet k second v w) m (λ _ m', m' = m).
Proof.
  intros Hne Hn Hm. unfold checkConditionalGet. acc. destruct H as [-> Hr]. unfold reads in Hr. rewrite Hm in Hr.
  cbn [go_IfNoneMatch] in Hr. rewrite (bool_decide_false _ Hn), (bool_decide_true (v_ETag w = v_ETag w)) in Hr by done.
  acc; [done|]. acc. acc. destruct H as [-> Ho]. unfold reads in Ho. rewrite Hm in Ho. cbn [go_IfNoneMatch go_MaxBytes] in Ho.
  rewrite (bool_decide_false (v_ETag v = v_ETag w)), andb_false_r in Ho by congruence. simpl in Ho.
  destruct Ho as (object & -> & Hd & Hv & Ht).
  eapply accepting_bind; [by apply (accepting_ret object _ (λ a m', a = object ∧ m' = m))|]. intros ? ? [-> ->].
  acc. acc; [by apply holds_iff|]. by acc.
Qed.

Lemma checkNilCAS_accepts k first second m :
  m !! k = None →
  accepting (checkNilCAS k first second) m (λ _ m', ∃ etag, m' = <[k := (first, etag)]> m).
Proof.
  intros Hm. unfold checkNilCAS. acc. acc. apply writes_applied in H as (v & -> & Hv & -> & _); [|done].
  acc. simpl. acc. acc. apply writes_refused in H as [-> H]; [|simpl; by rewrite lookup_insert_eq].
  acc; [done|]. acc. acc; [by rewrite lookup_insert_eq|by left|by left|]. acc; [by apply holds_iff|]. acc. by exists (v_ETag v).
Qed.

Lemma checkMissingCAS_accepts k first v m :
  m !! k = None → accepting (checkMissingCAS k first v) m (λ _ m', m' = m).
Proof.
  intros Hm. unfold checkMissingCAS. acc. acc. apply writes_refused in H as [-> H]; [|intros [data E]; congruence].
  acc; [done|]. acc. destruct H0 as [-> Hr]. rewrite Hm in Hr. acc; [done|]. by acc.
Qed.

(** *** Contenders *)

Lemma sole_element {A} (x : A) l : x ∈ l → NoDup l → (∀ y, y ∈ l → y = x) → l = [x].
Proof.
  intros Hx Hl Hall. destruct l as [|y [|z l]]; [by apply not_elem_of_nil in Hx| |].
  - by rewrite (Hall y) by (by apply list_elem_of_here).
  - apply NoDup_cons in Hl as [Hn _]. destruct Hn.
    rewrite (Hall y), <- (Hall z); [apply list_elem_of_here|apply list_elem_of_further, list_elem_of_here|apply list_elem_of_here].
Qed.

Lemma requireSingle_sole results winner :
  winner ∈ results → NoDup results → cw_err winner = None → validateStoreVersion (cw_version winner) = Ok tt →
  (∀ r, r ∈ results → r = winner ∨ ∃ c, cw_err r = Some c ∧ compatibilityDefinitivePrecondition c = true) →
  requireSingle results = inr winner ∧ compatibilitySuccessCount results = 1.
Proof.
  intros Hw Hnd He Hv Hl. unfold requireSingle, compatibilitySuccessCount.
  assert (filter (λ result, succeeded result = true) results = [winner]) as ->.
  { apply sole_element; [|by apply NoDup_filter|].
    - apply list_elem_of_filter. unfold succeeded. by rewrite He.
    - intros y [Hs Hy]%list_elem_of_filter. destruct (Hl y Hy) as [->|(c & Hc & _)]; [done|].
      unfold succeeded in Hs. by rewrite Hc in Hs. }
  assert (unexpectedErrors results = []) as ->.
  { apply elem_of_nil_inv. intros c (r & Hr & Hc)%list_elem_of_omap.
    destruct (cw_err r) as [c'|] eqn:Er; [|done].
    destruct (Hl r Hr) as [->|(c2 & Hc2 & Hd)]; [congruence|]. rewrite Er in Hc2. injection Hc2 as ->. by rewrite Hd in Hc. }
  simpl. by rewrite Hv.
Qed.

Lemma contend_accepts id readID k write base previous m :
  applies m k (condition write) →
  match previous with
  | Some object => m !! k = Some (ob_Data object, v_ETag (ob_Version object))
  | None => True
  end →
  accepting (contend id readID k write base previous) m (λ r m',
    m' = <[k := (compatibilityContenderPayload base (cw_contender r.1), v_ETag (cw_version r.1))]> m).
Proof.
  intros Ha Hp. unfold contend, runCompatibilityContenders.
  eapply accepting_bind; [eapply accepting_bind; [by apply accepting_call|]|].
  { intros [outcome place] m' Hc. instantiate (1 := λ results m', ∃ outcome place,
      results = resultsOf outcome place ∧ contends false m k write (payloadsOf base) outcome m').
    apply accepting_ret. eauto. }
  intros results m' (outcome & place & -> & winner & payload & Hpay & _ & (etag & -> & Hf & Ho) & Hl).
  destruct (outcome winner) as [c|v] eqn:Hout; [destruct Ho as [Ho _]; discriminate Ho|]. destruct Ho as [Hv Ht].
  assert (winner < compatibilityContenders)%nat as Hw
    by (apply lookup_lt_Some in Hpay; by rewrite payloadsOf_length in Hpay).
  rewrite payloadsOf_lookup in Hpay by done. injection Hpay as <-.
  set (w := writeResult outcome winner).
  assert (cw_err w = None ∧ cw_version w = v ∧ cw_contender w = winner) as (He & Hver & Hcon)
    by (unfold w, writeResult; by rewrite Hout).
  assert (requireSingle (resultsOf outcome place) = inr w ∧ compatibilitySuccessCount (resultsOf outcome place) = 1)
    as [Hreq Hcount].
  { apply requireSingle_sole; [apply results_in; eauto|apply resultsOf_NoDup|done|by rewrite Hver|].
    intros r (i & -> & Hi)%results_in. destruct (decide (i = winner)) as [->|Hne]; [by left|]. right.
    destruct (Hl i) as (c & Hc & Hd); [by rewrite payloadsOf_length|done|]. exists c.
    unfold writeResult. by rewrite Hc. }
  rewrite Hcount. change (1 =? 0) with false.
    eapply accepting_bind; [by apply (accepting_ret (resultsOf outcome place, None) _ (λ a m', a = (resultsOf outcome place, None) ∧ m' = <[k := (compatibilityContenderPayload base winner, etag)]> m))|].
    intros ? ? [-> ->]. unfold requireSingleCompatibilityWinner. rewrite Hreq.
    eapply accepting_bind; [by apply (accepting_ret w _ (λ a m', a = w ∧ m' = <[k := (compatibilityContenderPayload base winner, etag)]> m))|].
    intros ? ? [-> ->]. acc.
    { destruct previous as [object|]; [|done]. rewrite bool_decide_false; [done|].
      intros E. apply (Hf (ob_Data object)). rewrite Hp. by rewrite <- E, Hver, Ht. }
    set (m1 := <[k := _]> m).
    eapply accepting_bind with (Q := λ object m', m' = m1 ∧ ob_Data object = compatibilityContenderPayload base winner ∧
      v_ETag (ob_Version object) = etag ∧ validateStoreVersion (ob_Version object) = Ok tt).
    { acc. acc. destruct H as [-> Hr]. unfold reads, m1 in Hr. rewrite lookup_insert_eq in Hr. simpl in Hr.
      destruct Hr as (object & -> & Hd & Hov & Hot). by apply accepting_ret. }
    intros object ? (-> & Hd & Hot & Hov). acc. acc.
    { unfold compatibilityObjectMatchesWinner. by rewrite Hcon, Hver, Hd, Hot, Ht, !bool_decide_true. }
    acc. simpl. by rewrite Hcon, Hver, Ht.
Qed.

Lemma checkConcurrentPut_accepts k first m :
  m !! k = None →
  accepting (checkConcurrentPut k first) m (λ _ m', ∃ object, m' = <[k := object]> m).
Proof.
  intros Hm. unfold checkConcurrentPut. acc.
  eapply accepting_bind; [by apply contend_accepts|]. intros [winner object] ? ->. simpl.
  acc; [by rewrite lookup_insert_eq|]. acc; [by apply bool_decide_true|]. acc. eauto.
Qed.

Lemma checkConcurrentCAS_accepts id readID headID k base previous m :
  match previous with
  | Some object => m !! k = Some (ob_Data object, v_ETag (ob_Version object))
  | None => m !! k = None
  end →
  accepting (checkConcurrentCAS id readID headID k base previous) m (λ _ m', ∃ object, m' = <[k := object]> m).
Proof.
  intros Hm. unfold checkConcurrentCAS. eapply accepting_bind; [apply contend_accepts; destruct previous; try done|].
  { simpl. eauto. }
  intros [winner object] ? ->. simpl. acc. acc; [by rewrite lookup_insert_eq|]. acc; [by apply bool_decide_true|]. acc. eauto.
Qed.

Lemma checkConcurrentReplacement_accepts k first second m :
  m !! k = None →
  accepting (checkConcurrentReplacement k first second) m (λ _ m', ∃ object, m' = <[k := object]> m).
Proof.
  intros Hm. unfold checkConcurrentReplacement. acc. acc.
  apply writes_applied in H as (v & -> & Hv & -> & _); [|done]. acc. simpl. acc.
  eapply accepting_mono; [apply checkConcurrentCAS_accepts; simpl; by rewrite lookup_insert_eq|].
  intros ? ? [object ->]. exists object. by rewrite insert_insert_eq.
Qed.

Lemma probeStore_accepts probePrefix nonce : accepting (probeStore probePrefix nonce) ∅ (λ _ _, True).
Proof.
  unfold probeStore. cbv zeta.
  assert (∀ s s', s ≠ s' → probePrefix ++ s ≠ probePrefix ++ s') as Hne by (intros s s' Hs ?%app_inv_head; done).
  eapply accepting_bind; [apply checkMissing_accepts|]. intros ? ? ->.
  eapply accepting_bind; [apply checkCreate_accepts|]. intros created ? [-> _].
  eapply accepting_bind; [by apply checkDuplicate_accepts; rewrite lookup_singleton_eq|]. intros ? ? ->.
  eapply accepting_bind; [apply checkReads_accepts; [apply payload_length|by rewrite lookup_singleton_eq]|].
  intros observed ? (-> & Hd & Ht).
  eapply accepting_bind; [eapply checkReplacement_accepts; [by rewrite lookup_singleton_eq|done]|].
  intros current ? (-> & Hcur & Hset). rewrite insert_singleton_eq.
  eapply accepting_bind; [by apply checkStale_accepts; rewrite ?lookup_singleton_eq|]. intros ? ? ->.
  eapply accepting_bind; [by apply checkConditionalGet_accepts; rewrite ?lookup_singleton_eq|]. intros ? ? ->.
  eapply accepting_bind; [apply checkNilCAS_accepts|].
  { apply lookup_singleton_ne. by apply Hne. }
  intros ? ? [etag ->]. eapply accepting_bind; [apply checkMissingCAS_accepts|].
  { rewrite ?lookup_insert_ne by by apply Hne. apply lookup_singleton_ne. by apply Hne. }
  intros ? ? ->. eapply accepting_bind; [apply checkConcurrentPut_accepts|].
  { rewrite ?lookup_insert_ne by by apply Hne. apply lookup_singleton_ne. by apply Hne. }
  intros ? ? [o1 ->]. unfold checkConcurrentNilCAS. eapply accepting_bind; [acc; apply checkConcurrentCAS_accepts|].
  { rewrite ?lookup_insert_ne by by apply Hne. apply lookup_singleton_ne. by apply Hne. }
  intros ? ? [o2 ->]. eapply accepting_bind; [apply checkConcurrentReplacement_accepts|].
  { rewrite ?lookup_insert_ne by by apply Hne. apply lookup_singleton_ne. by apply Hne. }
  intros ? ? [o3 ->]. by acc.
Qed.

(** ** The order of the results *)

(** Causes in which errors.Is and errors.As find the same. *)
Definition cause_equiv (c c' : cause) : Prop :=
  (∀ s, cause_Is c s = cause_Is c' s) ∧ networkError c = networkError c'.
#[export] Instance cause_equivalence : Equivalence cause_equiv.
Proof.
  split.
  - by intros c.
  - intros c c' [H1 H2]. by split.
  - intros c c' c'' [H1 H2] [H3 H4]. split; [intros s; by rewrite H1|by rewrite H2].
Qed.
Lemma Join_perm causes causes' : causes ≡ₚ causes' → cause_equiv (Join causes) (Join causes').
Proof.
  intros Hp. split; [|by apply existsb_perm]. intros s. unfold cause_Is, errors_Is. simpl.
  apply bool_decide_ext. by rewrite Hp.
Qed.
#[export] Instance reasonFor_proper :
  Proper (eq ==> eq ==> option_relation cause_equiv (λ _, False) (λ _, False) ==> eq) compatibilityReasonFor.
Proof.
  intros id _ <- status _ <- c c' Hc. unfold compatibilityReasonFor, opt_Is.
  destruct c as [c|], c' as [c'|]; try done. destruct Hc as [H1 H2]. by rewrite !H1, H2.
Qed.

(** What a report shows of a verdict. *)
Definition shown {A} (id : StoreCompatibilityCheckID) (v : verdict A)
    : (StoreCompatibilityStatus * option StoreCompatibilityReason) + A :=
  match v with inl (status, c) => inl (status, compatibilityReasonFor id status c) | inr a => inr a end.
Lemma shown_inl {A} id status c c' :
  cause_equiv c c' → shown (A:=A) id (inl (status, Some c)) = shown id (inl (status, Some c')).
Proof. intros Hc. simpl. do 2 f_equal. by apply reasonFor_proper. Qed.

Lemma unexpected_perm results results' :
  results ≡ₚ results' → unexpectedErrors results ≡ₚ unexpectedErrors results'.
Proof. apply omap_Permutation. Qed.

Lemma requireSingle_perm id results results' :
  results ≡ₚ results' → shown id (requireSingle results) = shown id (requireSingle results').
Proof.
  intros Hp. unfold requireSingle. pose proof (unexpected_perm _ _ Hp) as Hu.
  assert (filter (λ result, succeeded result = true) results ≡ₚ filter (λ result, succeeded result = true) results') as Hw
    by (by rewrite Hp).
  assert (∀ A (l l' : list A), l ≡ₚ l' → len l = len l') as Hlen by (intros A l l' E; unfold len; by rewrite E).
  rewrite (existsb_perm _ _ _ Hw), (Hlen _ _ _ Hw), (Hlen _ _ _ Hu), (failureStatus_perm _ _ Hu).
  destruct (existsb _ _); [by apply shown_inl, Join_perm, Permutation_cons|].
  destruct (1 <? _); [|destruct (0 <? _); [by apply shown_inl, Join_perm|]].
  - destruct (unexpectedErrors results) as [|c l] eqn:E.
    + by apply Permutation_nil_l in Hu as <-.
    + destruct (unexpectedErrors results') as [|c' l'] eqn:E'; [by apply Permutation_nil_r in Hu|].
      by apply shown_inl, Join_perm.
  - destruct (filter _ results) as [|w [|]].
    + by apply Permutation_nil_l in Hw as <-.
    + by apply Permutation_singleton_l in Hw as <-.
    + destruct (filter _ results') as [|w' [|]]; [by apply Permutation_nil_r in Hw|by apply Permutation_singleton_r in Hw|done].
Qed.

(** The verdict on a batch, with the answer of the reconciling GET. *)
Definition batchVerdict (base : bytes) (previous : option Object) (results : list compatibilityWriteResult)
    (answer : cause + Object) : verdict compatibilityWriteResult :=
  if compatibilitySuccessCount results =? 0 then
    match zeroWinner base previous results answer with
    | inl refusal => inl refusal
    | inr (reconciled, _) => requireSingle reconciled
    end
  else requireSingle results.

Lemma zeroWinner_perm id base previous results results' answer :
  results ≡ₚ results' →
  match zeroWinner base previous results answer, zeroWinner base previous results' answer with
  | inl refusal, inl refusal' => shown (A:=unit) id (inl refusal) = shown id (inl refusal')
  | inr (reconciled, object), inr (reconciled', object') => reconciled ≡ₚ reconciled' ∧ object = object'
  | _, _ => False
  end.
Proof.
  intros Hp. pose proof (unexpected_perm _ _ Hp) as Hu.
  assert (omap cw_err results ≡ₚ omap cw_err results') as Ha by (by apply omap_Permutation).
  assert (len (unexpectedErrors results) = len (unexpectedErrors results')) as Hl by (unfold len; by rewrite Hu).
  unfold zeroWinner. rewrite <- Hl, <- (failureStatus_perm _ _ Hu). destruct answer as [g|object].
  - rewrite <- (failureStatus_perm (unexpectedErrors results ++ [g]) (unexpectedErrors results' ++ [g])) by (by rewrite Hu).
    assert (cause_equiv (Join (omap cw_err results ++ [g])) (Join (omap cw_err results' ++ [g]))) as Hc
      by (apply Join_perm; by rewrite Ha).
    destruct (cause_Is g ErrResourceLimit); [by apply shown_inl|].
    destruct (cause_Is g ErrObjectNotFound); [|by apply shown_inl].
    destruct previous; [by apply shown_inl|]. destruct (negb _); by apply shown_inl.
  - destruct (validateStoreVersion (ob_Version object)); [|by apply shown_inl, Join_perm; rewrite Ha].
    cbv zeta. destruct (_ && negb _); [by apply shown_inl, Join_perm|].
    assert (matching base (ob_Data object) results ≡ₚ matching base (ob_Data object) results') as Hm
      by (unfold matching; by rewrite Hp).
    destruct (matching base (ob_Data object) results) as [|w [|]].
    + apply Permutation_nil_l in Hm as <-. destruct (_ && _ && _); by apply shown_inl, Join_perm.
    + apply Permutation_singleton_l in Hm as <-. destruct (cw_err w) as [c|].
      * destruct (negb _); [done|]. split; [|done]. by rewrite Hp.
      * split; [|done]. by rewrite Hp.
    + destruct (matching base (ob_Data object) results') as [|w' [|]];
        [by apply Permutation_nil_r in Hm|by apply Permutation_singleton_r in Hm|]. by apply shown_inl, Join_perm.
Qed.

(** The verdict on concurrent writes does not depend on the order in which
    their goroutines complete.  For any two orders of the same results, and the
    same answer of the GET that reconciles a batch without a success, the probe
    finds the same winner, or reports the same status with the same reason. *)
Theorem contention_order (id : StoreCompatibilityCheckID) (base : bytes) (previous : option Object)
    (results results' : list compatibilityWriteResult) (answer : cause + Object) :
  results ≡ₚ results' →
  shown id (batchVerdict base previous results answer) = shown id (batchVerdict base previous results' answer).
Proof.
  intros Hp. unfold batchVerdict.
  assert (compatibilitySuccessCount results = compatibilitySuccessCount results') as <-
    by (unfold compatibilitySuccessCount, len; by rewrite Hp).
  destruct (_ =? 0); [|by apply requireSingle_perm]. pose proof (zeroWinner_perm id base previous _ _ answer Hp) as Hz.
  destruct (zeroWinner base previous results answer) as [[st c]|[reconciled object]],
    (zeroWinner base previous results' answer) as [[st' c']|[reconciled' object']]; try done.
  - simpl in *. congruence.
  - apply requireSingle_perm. by destruct Hz.
Qed.

(** ** Reports *)

(** The checks of a probe, in their order. *)
Definition createChecks : list StoreCompatibilityCheckID :=
  [StoreCompatibilityCheckMissingObjectMapping; StoreCompatibilityCheckConditionalCreate;
   StoreCompatibilityCheckHeadAfterCreate; StoreCompatibilityCheckReadAfterCreate;
   StoreCompatibilityCheckInputBufferOwnership; StoreCompatibilityCheckDuplicateCreate;
   StoreCompatibilityCheckBoundedGet; StoreCompatibilityCheckOutputBufferOwnership].
Definition replaceChecks : list StoreCompatibilityCheckID :=
  [StoreCompatibilityCheckReplacementCAS; StoreCompatibilityCheckReadAfterReplacement;
   StoreCompatibilityCheckCASInputBufferOwnership; StoreCompatibilityCheckHeadAfterReplacement;
   StoreCompatibilityCheckStaleCAS; StoreCompatibilityCheckFailedCASPreservesObject;
   StoreCompatibilityCheckConditionalGetCurrent; StoreCompatibilityCheckConditionalGetStale;
   StoreCompatibilityCheckNilCASCreate; StoreCompatibilityCheckNilCASDuplicate;
   StoreCompatibilityCheckNilCASPreservesObject; StoreCompatibilityCheckMissingKeyCAS].
Definition concurrentChecks : list StoreCompatibilityCheckID :=
  [StoreCompatibilityCheckConcurrentPutIfAbsent; StoreCompatibilityCheckReadAfterConcurrentPut;
   StoreCompatibilityCheckConcurrentNilCAS; StoreCompatibilityCheckReadAfterConcurrentNilCAS;
   StoreCompatibilityCheckHeadAfterConcurrentNilCAS; StoreCompatibilityCheckConcurrentReplacementSeed;
   StoreCompatibilityCheckConcurrentReplacementCAS; StoreCompatibilityCheckReadAfterConcurrentReplacement;
   StoreCompatibilityCheckHeadAfterConcurrentReplacement].
Definition requiredChecks : list StoreCompatibilityCheckID :=
  [StoreCompatibilityCheckConfiguration; StoreCompatibilityCheckProbeKey]
  ++ createChecks ++ replaceChecks ++ concurrentChecks.

(** Checks that passed. *)
Definition all_passed (checks : list StoreCompatibilityCheck) (ids : list StoreCompatibilityCheckID) : Prop :=
  map ck_ID checks = ids ∧ Forall (λ check, ck_Status check = StoreCompatibilityPassed) checks.
Lemma all_passed_app checks checks' ids ids' :
  all_passed checks ids → all_passed checks' ids' → all_passed (checks ++ checks') (ids ++ ids').
Proof. intros [<- H1] [<- H2]. split; [by rewrite map_app|by apply Forall_app]. Qed.

(** A report that has the checks [before] and then those of [ids], all passed. *)
Definition grown (before : list StoreCompatibilityCheck) (ids : list StoreCompatibilityCheckID)
    (r : StoreCompatibilityReport) : Prop :=
  (∃ checks, cr_Checks r = before ++ checks ∧ all_passed checks ids) ∧ cr_Compatible r = false ∧
  cr_RequiredChecks r = StoreCompatibilityRequiredChecks ∧ cr_Complete r = (len (cr_Checks r) =? cr_RequiredChecks r).

(** One that stopped at a problem, which it reports as its verdict. *)
Definition stopped (before : list StoreCompatibilityCheck) (ids : list StoreCompatibilityCheckID)
    (r : StoreCompatibilityReport) (e : error) : Prop :=
  ∃ checks reached check, cr_Checks r = before ++ checks ++ [check] ∧ all_passed checks reached ∧
    reached `prefix_of` ids ∧ ck_Status check ≠ StoreCompatibilityPassed ∧ cr_Status r = ck_Status check ∧
    cr_Compatible r = false ∧ ck_Reason check = compatibilityReasonFor (ck_ID check) (ck_Status check) (ck_Cause check) ∧
    e = StoreCompatibilityError (ck_Status check) (ck_Cause check) ∧
    cr_Complete r = (len (cr_Checks r) =? StoreCompatibilityRequiredChecks).

Definition recording {A} (p : P A) (ids : list StoreCompatibilityCheckID) : Prop :=
  ∀ before sofar s h, grown before sofar (ps_report s) →
    mwp any_rely any_call p s h (λ _ s' r,
      match r with
      | Ok _ => grown before (sofar ++ ids) (ps_report s')
      | Err e => stopped before (sofar ++ ids) (ps_report s') e
      end).

Lemma stopped_more before ids ids' r e : stopped before ids r e → stopped before (ids ++ ids') r e.
Proof.
  intros (checks & reached & check & ? & ? & Hp & ?). exists checks, reached, check.
  split; [done|]. split; [done|]. split; [by apply prefix_app_r|done].
Qed.
Lemma recording_bind {A B} (p : P A) (f : A → P B) ids ids' :
  recording p ids → (∀ a, recording (f a) ids') → recording (mbind p f) (ids ++ ids').
Proof.
  intros Hp Hf before sofar s h Hs. apply mwp_bind. eapply mwp_mono; [by apply Hp|].
  intros h' s' [a|e] Hr; rewrite (assoc_L (++)); [|by apply stopped_more].
  by apply (Hf a before (sofar ++ ids)).
Qed.
Lemma recording_silent {A B} (p : P A) (f : A → P B) ids :
  recording p [] → (∀ a, recording (f a) ids) → recording (mbind p f) ids.
Proof. apply recording_bind. Qed.
Lemma recording_ret {A} (a : A) : recording (mret a) [].
Proof. intros before sofar s h Hs. apply mwp_ret. by rewrite app_nil_r. Qed.
Lemma recording_call {X} (e : probe_eff X) : recording (mcall e) [].
Proof. intros before sofar s h Hs. apply mwp_call; [done|]. intros x _. by rewrite app_nil_r. Qed.
Lemma recording_pass id reconciled : recording (passDetail id reconciled) [id].
Proof.
  intros before sofar s h ((checks & Hc & Hall) & Hcom & Hreq & Hcomp). apply mwp_modify. simpl.
  split_and!; [|done|done|done]. eexists (checks ++ [_]). split; [simpl; by rewrite Hc, (assoc_L (++))|].
  apply all_passed_app; [done|]. split; [done|by constructor].
Qed.
Lemma recording_problem {A} id status c ids :
  status ≠ StoreCompatibilityPassed → recording (A:=A) (problem id status c) ids.
Proof.
  intros Hst before sofar s h ((checks & Hc & Hall) & Hcom & Hreq & Hcomp). unfold problem. mwp_step. mwp_step. mwp_step.
  eexists checks, sofar, _. simpl. rewrite Hc, Hreq. split; [by rewrite (assoc_L (++))|]. split; [done|].
  split; [by apply prefix_app_r|]. by split_and!.
Qed.
Lemma recording_keep f :
  (∀ s, cr_Checks (ps_report (f s)) = cr_Checks (ps_report s) ∧ cr_Compatible (ps_report (f s)) = cr_Compatible (ps_report s) ∧
     cr_RequiredChecks (ps_report (f s)) = cr_RequiredChecks (ps_report s) ∧
     cr_Complete (ps_report (f s)) = cr_Complete (ps_report s)) → recording (mmodify f) [].
Proof.
  intros Hf before sofar s h Hs. apply mwp_modify. rewrite app_nil_r. unfold grown.
  destruct (Hf s) as (-> & -> & -> & ->). done.
Qed.

Lemma recording_operationFailure {A} id c ids : recording (A:=A) (operationFailure id c) ids.
Proof. apply recording_problem, statusForCause_not_passed. Qed.
Lemma recording_incompatible {A} id c ids : recording (A:=A) (incompatible id c) ids.
Proof. by apply recording_problem. Qed.
Lemma recording_expectError {A} id s (r : cause + A) : recording (expectError id s r) [].
Proof.
  destruct r as [c|a]; simpl; [|apply recording_incompatible].
  destruct (cause_Is c s); [apply recording_ret|apply recording_operationFailure].
Qed.
Lemma recording_expectOk {A} id (r : cause + A) : recording (expectOk id r) [].
Proof. destruct r as [c|a]; [apply recording_operationFailure|apply recording_ret]. Qed.
Lemma recording_expectVersion id v : recording (expectVersion id v) [].
Proof. unfold expectVersion. destruct (validateStoreVersion v); [apply recording_ret|apply recording_incompatible]. Qed.
Lemma recording_expect id c : recording (expect id c) [].
Proof. destruct c; [apply recording_ret|apply recording_incompatible]. Qed.
Lemma recording_conclude {A} id (v : verdict A) :
  (∀ status c, v = inl (status, c) → status ≠ StoreCompatibilityPassed) → recording (conclude id v) [].
Proof. intros Hv. destruct v as [[status c]|a]; [by apply recording_problem, (Hv _ c)|apply recording_ret]. Qed.
Create HintDb recorded.
#[local] Hint Resolve recording_ret recording_call recording_operationFailure recording_incompatible
  recording_expectError recording_expectOk recording_expectVersion recording_expect : recorded.

Ltac rec :=
  lazymatch goal with
  | |- recording (mbind (pass ?id) _) (?id :: ?l) => apply (recording_bind _ _ [id] l); [apply recording_pass|intros _]
  | |- recording (mbind (passDetail ?id _) _) (?id :: ?l) =>
      apply (recording_bind _ _ [id] l); [apply recording_pass|intros _]
  | |- recording (mbind (trackProbeKey _) _) _ => apply recording_silent; [by apply recording_keep|intros _]
  | |- recording (mbind _ _) _ => apply recording_silent; [solve [auto with recorded]|first [intros [? ?]|intros ?]]
  | |- recording (pass _) _ => apply recording_pass
  | |- recording (passDetail _ _) _ => apply recording_pass
  | |- recording _ _ => solve [auto with recorded]
  end.

Lemma recording_read id k o : recording (readObject id k o) [].
Proof. unfold readObject. apply recording_silent; [apply recording_call|intros r]. by repeat rec. Qed.
Lemma recording_head id k : recording (headObject id k) [].
Proof. unfold headObject. apply recording_silent; [apply recording_call|intros r]. by repeat rec. Qed.
#[local] Hint Resolve recording_read recording_head : recorded.

Lemma reconcile_not_passed payload previous c answer status c' :
  reconcileObserved payload previous c answer = inl (status, c') → status ≠ StoreCompatibilityPassed.
Proof.
  unfold reconcileObserved, reconciliation. intros E.
  repeat case_match; simplify_eq; try done; first [apply reconciliation_not_passed|apply failureStatus_not_passed].
Qed.
Lemma requireSingle_not_passed results status c :
  requireSingle results = inl (status, c) → status ≠ StoreCompatibilityPassed.
Proof. unfold requireSingle. intros E. repeat case_match; simplify_eq; try done; apply failureStatus_not_passed. Qed.
Lemma zeroWinner_not_passed base previous results answer status c :
  zeroWinner base previous results answer = inl (status, c) → status ≠ StoreCompatibilityPassed.
Proof.
  unfold zeroWinner. intros E. repeat case_match; simplify_eq; try done;
    first [apply reconciliation_not_passed|apply failureStatus_not_passed].
Qed.

Lemma recording_reconcile {B} k payload previous c (f : compatibilityWriteReconciliation → P B) ids :
  (∀ answer, recording (f (reconcileObserved payload previous c answer)) ids) →
  recording (mbind (reconcileCompatibilityWrite k payload previous c) f) ids.
Proof.
  intros Hf before sofar s h Hs. unfold reconcileCompatibilityWrite. apply mwp_bind, mwp_bind, mwp_call; [done|].
  intros answer _. apply mwp_ret. by apply Hf.
Qed.
Lemma recording_settle id k payload previous r : recording (settleWrite id k payload previous r) [].
Proof.
  unfold settleWrite. apply recording_silent; [|intros [? ?]; by repeat rec].
  destruct r as [c|v]; [|rec]. apply recording_reconcile. intros answer.
  apply recording_silent; [|intros ?; rec]. apply recording_conclude. intros status c'. apply reconcile_not_passed.
Qed.
#[local] Hint Resolve recording_settle : recorded.

Lemma recording_contend id readID k write base previous :
  recording (contend id readID k write base previous) [id].
Proof.
  unfold contend, runCompatibilityContenders. apply recording_silent.
  { apply recording_silent; [apply recording_call|intros [outcome place]; rec]. }
  intros results. apply recording_silent.
  { destruct (_ =? 0); [|rec]. apply recording_silent; [|intros [? ?]; rec].
    unfold reconcileCompatibilityZeroWinner. apply recording_silent; [apply recording_call|intros answer].
    apply recording_conclude. intros status c. apply zeroWinner_not_passed. }
  intros [results' reconciled]. apply recording_silent.
  { apply recording_conclude. intros status c. apply requireSingle_not_passed. }
  intros winner. rec. apply (recording_bind _ _ [id] []); [|intros object; by repeat rec].
  destruct reconciled as [object|]; [by repeat rec|]. rec. rec. rec.
Qed.
Lemma recording_checkCreate k first :
  recording (checkCreate k first) [StoreCompatibilityCheckConditionalCreate; StoreCompatibilityCheckHeadAfterCreate;
    StoreCompatibilityCheckReadAfterCreate; StoreCompatibilityCheckInputBufferOwnership].
Proof. unfold checkCreate. by repeat rec. Qed.
Lemma recording_checkReplacement k second v observed :
  recording (checkReplacement k second v observed) [StoreCompatibilityCheckReplacementCAS;
    StoreCompatibilityCheckReadAfterReplacement; StoreCompatibilityCheckCASInputBufferOwnership;
    StoreCompatibilityCheckHeadAfterReplacement].
Proof. unfold checkReplacement. by repeat rec. Qed.
Lemma recording_checkConditionalGet k second v w :
  recording (checkConditionalGet k second v w)
    [StoreCompatibilityCheckConditionalGetCurrent; StoreCompatibilityCheckConditionalGetStale].
Proof.
  unfold checkConditionalGet. do 3 rec. apply recording_silent; [apply recording_call|intros [c|object]].
  - apply recording_silent; [|intros object; by repeat rec]. destruct (cause_Is c ErrNotModified); rec.
  - apply recording_silent; [rec|intros object']. by repeat rec.
Qed.
Lemma recording_concurrentCAS id readID headID k base previous :
  recording (checkConcurrentCAS id readID headID k base previous) [id; readID; headID].
Proof.
  unfold checkConcurrentCAS. apply (recording_bind _ _ [id]); [apply recording_contend|intros [winner object]].
  by repeat rec.
Qed.


Lemma recording_eq {A} (p : P A) ids ids' : ids = ids' → recording p ids → recording p ids'.
Proof. by intros ->. Qed.

Lemma recording_checkMissing k : recording (checkMissing k) [StoreCompatibilityCheckMissingObjectMapping].
Proof. unfold checkMissing. by repeat rec. Qed.
Lemma recording_checkDuplicate k first second v :
  recording (checkDuplicate k first second v) [StoreCompatibilityCheckDuplicateCreate].
Proof. unfold checkDuplicate. by repeat rec. Qed.
Lemma recording_checkReads k first v :
  recording (checkReads k first v) [StoreCompatibilityCheckBoundedGet; StoreCompatibilityCheckOutputBufferOwnership].
Proof. unfold checkReads. by repeat rec. Qed.
Lemma recording_checkStale k first second v w :
  recording (checkStale k first second v w)
    [StoreCompatibilityCheckStaleCAS; StoreCompatibilityCheckFailedCASPreservesObject].
Proof. unfold checkStale. by repeat rec. Qed.
Lemma recording_checkNilCAS k first second :
  recording (checkNilCAS k first second) [StoreCompatibilityCheckNilCASCreate; StoreCompatibilityCheckNilCASDuplicate;
    StoreCompatibilityCheckNilCASPreservesObject].
Proof. unfold checkNilCAS. by repeat rec. Qed.
Lemma recording_checkMissingCAS k first v :
  recording (checkMissingCAS k first v) [StoreCompatibilityCheckMissingKeyCAS].
Proof. unfold checkMissingCAS. by repeat rec. Qed.
Lemma recording_checkConcurrentPut k first :
  recording (checkConcurrentPut k first) [StoreCompatibilityCheckConcurrentPutIfAbsent;
    StoreCompatibilityCheckReadAfterConcurrentPut].
Proof.
  unfold checkConcurrentPut. rec.
  apply (recording_bind _ _ [_]); [apply recording_contend|intros [winner object]]. by repeat rec.
Qed.
Lemma recording_checkConcurrentReplacement k first second :
  recording (checkConcurrentReplacement k first second) [StoreCompatibilityCheckConcurrentReplacementSeed;
    StoreCompatibilityCheckConcurrentReplacementCAS; StoreCompatibilityCheckReadAfterConcurrentReplacement;
    StoreCompatibilityCheckHeadAfterConcurrentReplacement].
Proof. unfold checkConcurrentReplacement. do 4 rec. apply recording_concurrentCAS. Qed.

(** What a probe reports: it passed every check, or it stopped at a problem. *)
Definition concluded (r : StoreCompatibilityReport) (result : Prelude.result unit) : Prop :=
  match result with
  | Ok _ => cr_Compatible r = true ∧ cr_Status r = StoreCompatibilityPassed ∧ cr_Complete r = true ∧
      all_passed (cr_Checks r) requiredChecks
  | Err e => stopped [] requiredChecks r e
  end.

(** The part of a report that its verdict is. *)
Definition verdictOf (r : StoreCompatibilityReport)
    : list StoreCompatibilityCheck * bool * StoreCompatibilityStatus * bool :=
  (cr_Checks r, cr_Compatible r, cr_Status r, cr_Complete r).
Lemma concluded_verdict r r' result : verdictOf r = verdictOf r' → concluded r result → concluded r' result.
Proof.
  unfold verdictOf, concluded, stopped. intros [= Hc Hb Hs Hd]. by rewrite Hc, Hb, Hs, Hd.
Qed.

(** [p] passes the checks [ids], the last ones, or stops. *)
Definition finishing (p : P unit) (ids : list StoreCompatibilityCheckID) : Prop :=
  ∀ sofar s h, sofar ++ ids = requiredChecks → grown [] sofar (ps_report s) →
    mwp any_rely any_call p s h (λ _ s' r, concluded (ps_report s') r).

Lemma finishing_bind {A} (p : P A) (f : A → P unit) ids ids' :
  recording p ids → (∀ a, finishing (f a) ids') → finishing (mbind p f) (ids ++ ids').
Proof.
  intros Hp Hf sofar s h Hids Hs. apply mwp_bind. eapply mwp_mono; [by apply Hp|]. rewrite (assoc_L (++)) in Hids.
  intros h' s' [a|e] Hr; [by apply (Hf a (sofar ++ ids))|]. simpl. rewrite <- Hids. by apply stopped_more.
Qed.
Lemma finishing_silent {A} (p : P A) (f : A → P unit) ids :
  recording p [] → (∀ a, finishing (f a) ids) → finishing (mbind p f) ids.
Proof. apply finishing_bind. Qed.
Lemma finishing_problem id status c ids : status ≠ StoreCompatibilityPassed → finishing (problem id status c) ids.
Proof.
  intros Hst sofar s h Hids ((checks & Hc & Hall) & Hcom & Hreq & Hcomp). unfold problem. do 3 mwp_step.
  eexists checks, sofar, _. simpl in *. rewrite Hc, Hreq. split_and!; [done|done|by eexists|done..].
Qed.
Lemma finishing_passed : finishing (mmodify (set_report report_passed)) [].
Proof.
  intros sofar s h Hids ((checks & Hc & Hall) & Hcom & Hreq & Hcomp). rewrite app_nil_r in Hids. apply mwp_modify.
  simpl. rewrite Hids in Hall. simpl in Hc. subst checks. split_and!; [done|done| |done]. rewrite Hcomp, Hreq.
  destruct Hall as [Hlen _]. unfold len. by rewrite <- (length_map ck_ID), Hlen.
Qed.

Lemma probeStore_finishing probePrefix nonce :
  finishing (probeStore probePrefix nonce) (createChecks ++ replaceChecks ++ concurrentChecks).
Proof.
  unfold probeStore. cbv zeta.
  apply (finishing_bind _ _ [_]); [apply recording_checkMissing|intros _].
  apply (finishing_bind _ _ [_; _; _; _]); [apply recording_checkCreate|intros created].
  apply (finishing_bind _ _ [_]); [apply recording_checkDuplicate|intros _].
  apply (finishing_bind _ _ [_; _]); [apply recording_checkReads|intros observed].
  apply (finishing_bind _ _ [_; _; _; _]); [apply recording_checkReplacement|intros current].
  apply (finishing_bind _ _ [_; _]); [apply recording_checkStale|intros _].
  apply (finishing_bind _ _ [_; _]); [apply recording_checkConditionalGet|intros _].
  apply (finishing_bind _ _ [_; _; _]); [apply recording_checkNilCAS|intros _].
  apply (finishing_bind _ _ [_]); [apply recording_checkMissingCAS|intros _].
  apply (finishing_bind _ _ [_; _]); [apply recording_checkConcurrentPut|intros _].
  apply (finishing_bind _ _ [_; _; _]); [unfold checkConcurrentNilCAS; rec; apply recording_concurrentCAS|intros _].
  apply (finishing_bind _ _ [_; _; _; _]); [apply recording_checkConcurrentReplacement|intros _].
  apply finishing_passed.
Qed.

(** ** Cleanup *)

Definition cleanup_event (ev : event probe_eff) : Prop :=
  match ev with
  | Ev Probe_CleanupErr _ | Ev (Probe_Delete _) _ | Ev (Probe_Head _) _ | Ev Probe_Now _ => True
  | _ => False
  end.

(** What follows the checks: nothing but the cleanup, from its first check of the
    context on, and the clock. *)
Definition aftermath (k : history probe_eff) : Prop :=
  Forall cleanup_event k ∧
  match k with [] | Ev Probe_CleanupErr _ :: _ | Ev Probe_Now _ :: _ => True | _ => False end.

(** The counts of a cleanup. *)
Definition counted (attempted : Z) (c : StoreCompatibilityCleanupReport) : Prop :=
  cu_Attempted c = attempted ∧ cu_Attempted c = cu_Succeeded c + cu_Failed c ∧ 0 ≤ cu_Succeeded c ∧
  0 ≤ cu_CurrentObjectsStillVisible c ∧ 0 ≤ cu_VerificationFailures c ∧ 0 ≤ cu_DeleteFailures c ∧
  cu_CurrentObjectsStillVisible c + cu_VerificationFailures c ≤ cu_Failed c ∧ cu_DeleteFailures c ≤ cu_Failed c.

Lemma countCleanup_counted deleteErr headErr n c :
  counted n c → counted (n + 1) (countCleanup deleteErr headErr c).
Proof.
  unfold counted, countCleanup. intros (? & ? & ? & ? & ? & ? & ? & ?). simpl.
  destruct (_ || _), (compatibilityCleanupDefinitiveNotFound headErr) eqn:E, headErr as [c'|]; simpl in *;
    try done; split_and!; lia.
Qed.

Section CleanupSteps.
Context (own : bytes → Prop) (R : rely probe_eff).

Definition cleaning (h h' : history probe_eff) : Prop := ∃ k : history probe_eff, h' = h ++ k ∧ aftermath k.

Lemma cleaning_refl h : cleaning h h.
Proof. exists []. by rewrite app_nil_r. Qed.
Lemma cleaning_step h h' ev : cleaning h h' → cleanup_event ev →
  (h' = h → match ev with Ev Probe_CleanupErr _ | Ev Probe_Now _ => True | _ => False end) →
  cleaning h (h' ++ [ev]).
Proof.
  intros (k & -> & Hf & Hk) Hev Hfirst. exists (k ++ [ev]). split; [by rewrite (assoc_L (++))|].
  split; [apply Forall_app; by split; [|constructor]|]. destruct k as [|[X e x] k]; [|by destruct e].
  simpl. specialize (Hfirst (app_nil_r h)). by destruct ev as [X e x], e.
Qed.
Lemma grown_history {E} (h k : history E) (ev : event E) : h ++ k ++ [ev] ≠ h.
Proof. rewrite <- (app_nil_r h) at 2. intros Hh%app_inv_head. by destruct k. Qed.

Lemma deleteKey_run key s h h0 : own key → cleaning h0 h →
  mwp R (confined own) (deleteKey key) s h (λ h' s' r, (∃ e, r = Ok e) ∧ s' = s ∧ cleaning h0 h').
Proof.
  intros Hk Hh. unfold deleteKey. mwp_step. apply mwp_call; [by intros ?|]. intros [c|] _.
  - mwp_step. split_and!; [eauto|done|by apply cleaning_step].
  - apply mwp_call; [by intros ? [= <-]|]. intros x _. split_and!; [eauto|done|].
    apply cleaning_step; [by apply cleaning_step|done|]. destruct Hh as (k & -> & _).
    rewrite <- (assoc_L (++)). by intros ?%grown_history.
Qed.
Lemma verifyKey_run key s h h0 : own key → cleaning h0 h →
  mwp R (confined own) (verifyKey key) s h (λ h' s' r, (∃ e, r = Ok e) ∧ s' = s ∧ cleaning h0 h').
Proof.
  intros Hk Hh. unfold verifyKey. mwp_step. apply mwp_call; [by intros ?|]. intros [c|] _.
  - mwp_step. split_and!; [eauto|done|by apply cleaning_step].
  - mwp_step. apply mwp_call; [by intros ? [= <-]|]. intros x _. mwp_step. split_and!; [eauto|done|].
    apply cleaning_step; [by apply cleaning_step|done|]. destruct Hh as (k & -> & _).
    rewrite <- (assoc_L (++)). by intros ?%grown_history.
Qed.

(** Cleanup answers for every key and leaves the verdict. *)
Lemma cleanupKeys_run h0 keys : ∀ a s h,
  Forall own keys → cleaning h0 h →
  mwp R (confined own) (cleanupKeys keys a) s h (λ h' s' r,
    (∃ a', r = Ok a') ∧
    (∀ n, counted n (cr_Cleanup (ps_report s)) → counted (n + len keys) (cr_Cleanup (ps_report s'))) ∧
    ps_probeKeys s' = ps_probeKeys s ∧ verdictOf (ps_report s') = verdictOf (ps_report s) ∧ cleaning h0 h').
Proof.
  induction keys as [|key keys IH]; intros a s h Hown Hh; simpl.
  { apply mwp_ret. split_and!; [eauto|intros n; by rewrite Z.add_0_r|done..]. }
  apply Forall_cons in Hown as [Hk Hown]. mwp_step. eapply mwp_mono; [by apply (deleteKey_run key s h h0)|].
  intros h1 s1 r1 ([deleteErr ->] & -> & H1). mwp_step. eapply mwp_mono; [by apply (verifyKey_run key s h1 h0)|].
  intros h2 s2 r2 ([headErr ->] & -> & H2). mwp_step. mwp_step.
  eapply mwp_mono; [by apply (IH _ _ h2)|].
  intros h3 s3 r3 (Hr & Hcount & Hkeys & Hv & H3). split_and!; try done. intros n Hn. change (key :: keys) with ([key] ++ keys).
  rewrite len_app. change (len [key]) with 1.
  replace (n + (1 + len keys)) with (n + 1 + len keys) by lia. by apply Hcount, countCleanup_counted.
Qed.

Lemma cleanup_run s h : Forall own (ps_probeKeys s) →
  mwp R (confined own) cleanupCompatibilityProbe s h (λ h' s' r,
    r = Ok tt ∧ ps_probeKeys s' = ps_probeKeys s ∧ verdictOf (ps_report s') = verdictOf (ps_report s) ∧ cleaning h h').
Proof.
  intros Hown. unfold cleanupCompatibilityProbe. mwp_step. mwp_step. mwp_step.
  eapply mwp_mono; [by apply (cleanupKeys_run h), cleaning_refl|].
  intros h1 s1 r1 ([a ->] & _ & Hk & Hv & Hh). mwp_step. by split_and!.
Qed.
End CleanupSteps.

(** ** The probe *)

Lemma wp_any {E A} (R : rely E) (G : guarantee E) (p : prog E A) h (Q Q' : history E → A → Prop) :
  wp R G p h Q → wp R any_call p h Q' → wp R G p h (λ h' a, Q h' a ∧ Q' h' a).
Proof.
  revert h. induction p as [a|X e k IH]; simpl; intros h H H'; [done|].
  destruct H as [HG H], H' as [_ H']. split; [done|]. intros x Hx. by apply IH; [apply H|apply H'].
Qed.

Section Top.
Context (repository : Repository) (deleter : bool).

(** The keys of a probe. *)
Definition probe_key (k : bytes) : Prop := ∃ nonce name, k = probePrefixOf repository nonce ++ str "/" ++ name.

(** Up to the cleanup, the calls and answers are a run of the contract, from an
    empty store to one that has the objects of the probe. *)
Definition contract_run (h : history probe_eff) : Prop :=
  ∃ checks after nonce m, h = checks ++ after ∧ path true checks m ∧
    written (probePrefixOf repository nonce) m ∧ aftermath after.

Abbreviation passing := (passing probe_key).

Lemma passing_try {A} (p : P A) h (Q : history probe_eff → result A → Prop) :
  passing p h (λ h' a, Q h' (Ok a)) → (∀ h' e, Q h' (Err e)) → passing (mtry p) h Q.
Proof.
  intros Hp He s Hs. apply mwp_try. eapply mwp_mono; [by apply Hp|]. intros h' s' r [Hs' Hr]. split; [done|].
  intros a [= <-]. destruct r as [a|e]; [by apply Hr|apply He].
Qed.
Lemma passing_lift {A} (r : result A) h (Q : history probe_eff → A → Prop) :
  (∀ a, r = Ok a → Q h a) → passing (mlift r) h Q.
Proof. intros HQ s Hs. apply mwp_lift. by split. Qed.

Lemma passing_cleanup h (Q : history probe_eff → unit → Prop) :
  (∀ h', cleaning h h' → Q h' tt) → passing cleanupCompatibilityProbe h Q.
Proof.
  intros HQ s Hs. eapply mwp_mono; [by apply cleanup_run|]. intros h' s' r (-> & Hk & _ & Hh).
  split; [unfold tracked; by rewrite Hk|]. intros a [= <-]. by apply HQ.
Qed.

(** The run so far, and perhaps its cleanup. *)
Definition checked (h : history probe_eff) : Prop :=
  ∃ checks nonce m, path true checks m ∧ written (probePrefixOf repository nonce) m ∧ cleaning checks h.

Lemma probeStoreCompatibility_sound h :
  path true h ∅ → passing (probeStoreCompatibility repository deleter) h (λ h' _, checked h').
Proof.
  intros Hh. unfold probeStoreCompatibility. apply passing_bind.
  destruct (rp_store repository); [apply passing_ret|apply passing_problem]. apply passing_bind, passing_call; [by intros ?|].
  intros err. apply passing_bind. destruct err as [c|]; [apply passing_problem|apply passing_ret].
  apply passing_bind, passing_modify; [done|]. apply passing_bind, passing_call; [by intros ?|]. intros r.
  apply passing_bind. destruct r as [c|nonce]; [apply passing_problem|apply passing_ret].
  apply passing_bind, passing_modify; [done|]. apply passing_bind, passing_modify; [done|].
  match goal with |- passing _ ?h _ => assert (path true h ∅) as Hp
    by (eapply path_snoc; [by eapply path_snoc|done]) end.
  assert (∀ name, probe_key (probePrefixOf repository nonce ++ str "/" ++ name)) as Hown by (intros name; by exists nonce, name).
  destruct deleter.
  - apply passing_bind, (passing_try _ _ (λ h' r, passing (cleanupCompatibilityProbe ;;; mlift r) h' (λ h' _, checked h'))).
    2: { intros h1 e. apply passing_bind, passing_cleanup. intros h2 _. by apply passing_lift. }
    eapply passing_mono; [by apply probeStore_sound|].
    intros h1 a (m & Hm & Hw). apply passing_bind, passing_cleanup. intros h2 Hc. apply passing_lift. intros _ _.
    by exists h1, nonce, m.
  - apply passing_bind, passing_modify; [done|]. eapply passing_mono; [by apply probeStore_sound|].
    intros h1 a (m & Hm & Hw). exists h1, nonce, m. split_and!; [done|done|apply cleaning_refl].
Qed.

Lemma probeStoreCompatibility_finishing : finishing (probeStoreCompatibility repository deleter) requiredChecks.
Proof.
  unfold probeStoreCompatibility, requiredChecks. apply finishing_silent.
  { destruct (rp_store repository); [apply recording_ret|by apply recording_problem]. }
  intros _. apply finishing_silent; [apply recording_call|intros err]. apply finishing_silent.
  { destruct err; [apply recording_operationFailure|apply recording_ret]. }
  intros _. apply (finishing_bind _ _ [_]); [apply recording_pass|intros _].
  apply finishing_silent; [apply recording_call|intros r]. apply finishing_silent.
  { destruct r; [by apply recording_problem|apply recording_ret]. }
  intros nonce. apply finishing_silent; [by apply recording_keep|intros _].
  apply (finishing_bind _ _ [_]); [apply recording_pass|intros _]. destruct deleter.
  - intros sofar s h Hids Hs. mwp_step. mwp_step. eapply mwp_mono; [by eapply probeStore_finishing|].
    intros h1 s1 r1 Hr. mwp_step. eapply mwp_mono.
    { eapply wp_weaken; [| |apply (cleanup_run (λ _, True) any_rely)]; [done|done|]. by apply Forall_true. }
    intros h2 s2 r2 (-> & _ & Hv & _). mwp_step. by eapply concluded_verdict.
  - apply finishing_silent; [by apply recording_keep|intros _]. apply probeStore_finishing.
Qed.

Lemma new_grown evidence : grown [] [] (newReport evidence).
Proof. split_and!; [|done|done|done]. exists []. by split. Qed.

(** C39: a compatible verdict is earned.  Whatever the store, the context, the
    clock and the source of randomness answer, a probe calls the store only on
    keys below a prefix of its own, [probes/] and a nonce, in the repository.  If
    it returns without an error, then its report is compatible and complete, with
    every required check in order and passed, and the calls and answers up to the
    cleanup are a run of the store contract, in which the objects of the probe
    were written: each GET, HEAD and conditional write got what the contract says,
    and of the concurrent writers exactly one took effect.  Otherwise the report
    is not compatible: it has the checks that passed, a prefix of the required
    ones, and then the problem, whose status is the verdict and whose cause is the
    returned error. *)
Theorem probe_sound (options : StoreCompatibilityProbeOptions) (s : ProbeState) :
  mwp any_rely (confined probe_key) (ProbeStoreCompatibilityWithOptions repository deleter options) s []
    (λ h' s' r, concluded (ps_report s') r ∧ (r = Ok tt → contract_run h')).
Proof.
  unfold ProbeStoreCompatibilityWithOptions. mwp_step. apply mwp_call; [by intros ?|]. intros started _. mwp_step.
  mwp_step. mwp_step. mwp_step.
  eapply (mwp_mono _ _ _ _ _ (λ h' s' r, concluded (ps_report s') r ∧ (r = Ok tt → checked h'))).
  { destruct (validateStoreCompatibilityProbeOptions options) as [c|] eqn:Hv.
    { unfold problem. do 3 mwp_step. split; [|done]. eexists [], [], _.
      split_and!; first [done|apply prefix_nil]. }
    do 3 mwp_step.
    eapply (mwp_mono _ _ _ _ _ (λ h' s' r, grown [] [] (ps_report s') ∧ tracked probe_key s' ∧
      path true h' ∅ ∧ ∃ d, r = Ok d)).
    { destruct (0 <? po_TotalTimeout options); [mwp_step|apply mwp_call; [by intros ?|]; intros d _];
        (split_and!; [apply new_grown|constructor| |eauto]).
      - by eapply (path_snoc _ []); [constructor|].
      - eapply path_snoc; [eapply (path_snoc _ []); [constructor|done]|done]. }
    intros h1 s1 r1 (Hg & Ht & Hp & d & ->). mwp_step. apply mwp_call; [by intros ?|]. intros [] _.
    eapply wp_mono; [apply wp_any; [eapply probeStoreCompatibility_sound; [by eapply path_snoc|done]|
      by eapply (probeStoreCompatibility_finishing [])]|].
    intros h2 [s2 r2] [[_ Hok] Hc]. split; [done|]. intros ->. by eapply Hok. }
  intros h1 s1 r1 [Hc Hok]. mwp_step. apply mwp_call; [by intros ?|]. intros now _. mwp_step. mwp_step. mwp_step.
  split; [by eapply concluded_verdict|]. intros ->. destruct (Hok eq_refl) as (checks & nonce & m & Hm & Hw & Hcl).
  assert (cleaning checks (h1 ++ [Ev Probe_Now now])) as (after & -> & Ha) by by apply cleaning_step.
  by exists checks, after, nonce, m.
Qed.

(** A store that keeps the contract is found compatible: if it answers every call
    of the probe as the contract says and loses no response, the context does not
    end and there is randomness, then a probe of a writable repository with valid
    options returns without an error, whatever its cleanup meets. *)
Theorem probe_accepts (options : StoreCompatibilityProbeOptions) (s : ProbeState) :
  rp_store repository ≠ None → validateStoreCompatibilityProbeOptions options = None →
  mwp reliable any_call (ProbeStoreCompatibilityWithOptions repository deleter options) s [] (λ _ _ r, r = Ok tt).
Proof.
  intros Hstore Hv. unfold ProbeStoreCompatibilityWithOptions. mwp_step. apply mwp_call; [done|]. intros started _.
  mwp_step. mwp_step. mwp_step. mwp_step. rewrite Hv. do 3 mwp_step.
  eapply (mwp_mono _ _ _ _ _ (λ h' s' r, path false h' ∅ ∧ ∃ d, r = Ok d)).
  { destruct (0 <? po_TotalTimeout options); [mwp_step|apply mwp_call; [done|]; intros d _]; (split; [|eauto]).
    - by eapply (path_snoc _ []); [constructor|].
    - eapply path_snoc; [eapply (path_snoc _ []); [constructor|done]|done]. }
  intros h1 s1 r1 (Hp & d & ->). mwp_step. apply mwp_call; [done|]. intros [] _.
  assert (path false (h1 ++ [Ev (Probe_WithTimeout (compatibilityProbeContext options d)) ()]) ∅) as Hp1 by by eapply path_snoc.
  eapply (mwp_mono _ _ _ _ _ (λ _ _ r, r = Ok tt)).
  2: { intros h2 s2 r2 ->. mwp_step. apply mwp_call; [done|]. intros now _. by do 3 mwp_step. }
  unfold probeStoreCompatibility, pass, passDetail. destruct (rp_store repository); [|done]. mwp_step. mwp_step. mwp_step.
  apply mwp_call; [done|]. intros err [-> _]. repeat mwp_step. apply mwp_call; [done|].
  intros r [[nonce ->] _]. repeat mwp_step.
  match goal with |- context [mwp _ _ _ _ ?h _] => assert (path false h ∅) as Hp3
    by (eapply path_snoc; [by eapply path_snoc|done]) end.
  destruct deleter; mwp_step; mwp_step.
  - eapply mwp_mono; [by apply (probeStore_accepts _ nonce)|]. intros h2 s2 r2 (a & m & -> & _). mwp_step.
    eapply mwp_mono.
    { eapply wp_weaken; [| |apply (cleanup_run (λ _, True) any_rely)]; [done|done|]. by apply Forall_true. }
    intros h3 s3 r3 (-> & _). mwp_step. by destruct a.
  - eapply mwp_mono; [by apply (probeStore_accepts _ nonce)|]. intros h2 s2 r2 (a & m & -> & _). by destruct a.
Qed.
End Top.


(** ** A run *)

(** An honest store in memory: its objects, newest first, and how often it was
    written. *)
Record honest := { hn_objects : list (bytes * Object); hn_writes : N }.

Fixpoint honest_find (objects : list (bytes * Object)) (k : bytes) : option Object :=
  match objects with
  | [] => None
  | (k', object) :: objects => if k' ==? k then Some object else honest_find objects k
  end.

Definition honest_write (w : honest) (k : bytes) (expected : option Version) (data : bytes)
    : honest * (cause + Version) :=
  let version := {| v_ETag := str "v" ++ [byte_of (hn_writes w)]; v_VersionID := [] |} in
  if match honest_find (hn_objects w) k, expected with
     | None, None => true
     | Some object, Some e => v_ETag (ob_Version object) ==? v_ETag e
     | _, _ => false
     end
  then ({| hn_objects := (k, {| ob_Data := data; ob_Version := version |}) :: hn_objects w;
           hn_writes := hn_writes w + 1 |}, inr version)
  else (w, inl (Sentinel ErrPrecondition)).

Definition honest_serve : handler probe_eff honest := λ X e w,
  match e in probe_eff T return honest * T with
  | Probe_CtxErr => (w, None)
  | Probe_Deadline => (w, false)
  | Probe_WithTimeout _ => (w, tt)
  | Probe_CleanupErr => (w, None)
  | Probe_Now => (w, 1700000000)
  | Probe_Rand n => (w, inr (repeat x00 (Z.to_nat n)))
  | Probe_Get k o =>
      (w, match honest_find (hn_objects w) k with
          | None => inl (Sentinel ErrObjectNotFound)
          | Some object =>
              if go_IfNoneMatch o ==? v_ETag (ob_Version object) then inl (Sentinel ErrNotModified)
              else if (0 <? go_MaxBytes o) && (go_MaxBytes o <? len (ob_Data object))
              then inl (Sentinel ErrResourceLimit) else inr object
          end)
  | Probe_Head k =>
      (w, match honest_find (hn_objects w) k with
          | None => inl (Sentinel ErrObjectNotFound) | Some object => inr (ob_Version object) end)
  | Probe_PutIfAbsent k data => honest_write w k None data
  | Probe_CompareAndSwap k expected data => honest_write w k expected data
  | Probe_Contend k write payloads =>
      let '(w', answer) := honest_write w k (condition write) (default [] (payloads !! 5%nat)) in
      (w', (λ contender, if bool_decide (contender = 5%nat) then answer else inl (Sentinel ErrPrecondition),
            λ n, n))
  | Probe_Delete k =>
      ({| hn_objects := List.filter (λ entry, negb (entry.1 ==? k)) (hn_objects w); hn_writes := hn_writes w |}, None)
  end.

Definition probe_run (serve : handler probe_eff honest) : result unit * StoreCompatibilityReport :=
  let '(_, (s, r)) := run serve (ProbeStoreCompatibility toy_repository true
    {| ps_report := newReport (newStoreCompatibilityEvidence [] StoreCompatibilityProbeOptions_zero 0);
       ps_probeKeys := [] |}) {| hn_objects := []; hn_writes := 0 |} in
  (r, ps_report s).

(** It passes, and its objects are deleted. *)
Example probe_honest :
  let '(r, report) := probe_run honest_serve in
  r = Ok tt ∧ cr_Compatible report = true ∧ map ck_ID (cr_Checks report) = requiredChecks ∧
  cu_Status (cr_Cleanup report) = StoreCompatibilityCleanupSucceeded ∧ cu_Succeeded (cr_Cleanup report) = 6.
Proof. vm_compute. by split_and!. Qed.

(** A store that ignores the precondition of a replacement does not. *)
Definition careless_serve : handler probe_eff honest := λ X e w,
  match e in probe_eff T return honest * T with
  | Probe_CompareAndSwap k (Some _) data =>
      honest_write w k (ob_Version <$> honest_find (hn_objects w) k) data
  | e' => honest_serve _ e' w
  end.
Example probe_careless :
  let '(r, report) := probe_run careless_serve in
  r = Err [ErrStoreIncompatible] ∧ cr_Compatible report = false ∧
  ck_ID <$> last (cr_Checks report) = Some StoreCompatibilityCheckStaleCAS ∧
  cr_Status report = StoreCompatibilityIncompatible.
Proof. vm_compute. by split_and!. Qed.

Lemma probe_accepts_witness :
  mwp reliable any_call (ProbeStoreCompatibilityWithOptions toy_repository true
    StoreCompatibilityProbeOptions_zero)
    {| ps_report := newReport (newStoreCompatibilityEvidence [] StoreCompatibilityProbeOptions_zero 0);
       ps_probeKeys := [] |} [] (λ _ _ r, r = Ok tt).
Proof. by apply (probe_accepts toy_repository true). Defined.
