(* ===== verification/FileState.v ===== *)
(** * Local state files ([watermark.go], [publication_journal.go], [local_state.go],
      [sealed_state_store.go])

    The durable local stores keep one file that is read under a lock and
    replaced by writing, syncing and renaming a temporary file and syncing the
    directory.  The operating system is a transition relation on a [disk] with
    the entries a machine crash can leave behind. *)

From S2P Require Import Prelude.
From S2P Require Import Prog.
From S2P Require Import Model.

(** The calls on the operating system, for the one file of a store: its path,
    its lock and its temporary file are those of the store.  [FS_Acquire] and
    [FS_Release] are the in-process gate of the sealed store, [FS_ValidateSecret]
    its check of a file's owner and mode; the calls with a path are those of its
    constructor. *)
Inductive fs_eff : Type → Type :=
| FS_Ctx : fs_eff (option error)
| FS_Lock : fs_eff (option error)
| FS_Unlock : fs_eff (option error)
| FS_Lstat : fs_eff (result unit)
| FS_Open : fs_eff (result unit)
| FS_ValidateOpened : fs_eff (result Z)
| FS_ReadAll (limit : Z) : fs_eff (result bytes)
| FS_CreateTemp : fs_eff (result unit)
| FS_Protect : fs_eff (option error)
| FS_Write (data : bytes) : fs_eff (result Z)
| FS_Sync : fs_eff (option error)
| FS_Close : fs_eff (option error)
| FS_Rename : fs_eff (option error)
| FS_Remove : fs_eff unit
| FS_SyncDirectory : fs_eff (option error)
| FS_Rand : fs_eff (result bytes)
| FS_Acquire : fs_eff (option error)
| FS_Release : fs_eff unit
| FS_ValidateSecret : fs_eff (option error)
| FS_Abs (path : bytes) : fs_eff (result bytes)
| FS_PrepareDirectory (path : bytes) : fs_eff (result bytes)
| FS_ValidateSecretDirectory (path : bytes) : fs_eff (option error).

Record file := { f_data : bytes; f_synced : bool }.

(** [dk_names]: what the path may name after a machine crash, the current entry
    first; a directory sync leaves only the current one. *)
Record disk := {
  dk_names : list (option file);
  dk_temp : option file;
}.

Definition dk_visible (d : disk) : option file :=
  match dk_names d with f :: _ => f | [] => None end.

Definition with_names (d : disk) (ns : list (option file)) : disk :=
  {| dk_names := ns; dk_temp := dk_temp d |}.
Definition with_temp (d : disk) (t : option file) : disk :=
  {| dk_names := dk_names d; dk_temp := t |}.

(** What a crash can leave: an entry of the path, with the data of a synced file
    and arbitrary data in another. *)
Definition crash_content (d : disk) (c : option bytes) : Prop :=
  ∃ f, f ∈ dk_names d ∧
    match f, c with
    | None, None => True
    | Some f, Some b => f_synced f = true → b = f_data f
    | _, _ => False
    end.

(** The temporary file after a prefix of the data was appended. *)
Definition temp_data (d : disk) : bytes := match dk_temp d with Some f => f_data f | None => [] end.
Definition written (d : disk) (data : bytes) (n : Z) : disk :=
  with_temp d (Some {| f_data := temp_data d ++ take (Z.to_nat n) data; f_synced := false |}).

(** The transition of a call with its answer.  Every call may fail; a failing
    write may have written a prefix, a failing rename or directory sync may have
    taken effect. *)
Definition fs_step (d : disk) (X : Type) (e : fs_eff X) (x : X) (d' : disk) : Prop :=
  match e in fs_eff T return T → Prop with
  | FS_Ctx | FS_Lock | FS_Unlock | FS_Protect | FS_Close | FS_Acquire | FS_ValidateSecret
  | FS_ValidateSecretDirectory _ => λ _, d' = d
  | FS_Rand | FS_Abs _ | FS_PrepareDirectory _ => λ _, d' = d
  | FS_Release => λ _, d' = d
  | FS_Lstat => λ r, d' = d ∧
      match r with
      | Ok _ => dk_visible d ≠ None
      | Err e => if errors_Is e OsErrNotExist then dk_visible d = None else True
      end
  | FS_Open => λ r, d' = d ∧ (r = Ok tt → dk_visible d ≠ None)
  | FS_ValidateOpened => λ r, d' = d ∧
      ∀ n, r = Ok n → ∃ f, dk_visible d = Some f ∧ n = len (f_data f)
  | FS_ReadAll limit => λ r, d' = d ∧
      ∀ b, r = Ok b → ∃ f, dk_visible d = Some f ∧ b = take (Z.to_nat limit) (f_data f)
  | FS_CreateTemp => λ r,
      match r with
      | Ok _ => d' = with_temp d (Some {| f_data := []; f_synced := false |})
      | Err _ => d' = d
      end
  | FS_Write data => λ r, ∃ n, 0 ≤ n ≤ len data ∧ d' = written d data n ∧ (∀ m, r = Ok m → m = n)
  | FS_Sync => λ r,
      match r with
      | None => ∃ f, dk_temp d = Some f ∧
                  d' = with_temp d (Some {| f_data := f_data f; f_synced := true |})
      | Some _ => d' = d
      end
  | FS_Rename => λ r,
      (dk_temp d ≠ None ∧ d' = {| dk_names := dk_temp d :: dk_names d; dk_temp := None |})
      ∨ (r ≠ None ∧ d' = d)
  | FS_Remove => λ _, d' = with_temp d None
  | FS_SyncDirectory => λ r, d' = with_names d [dk_visible d] ∨ (r ≠ None ∧ d' = d)
  end x.

(** The states of the methods keep no fields that change. *)
Abbreviation F := (M fs_eff unit) (only parsing).

Definition fcheck (c : fs_eff (option error)) : M fs_eff unit unit :=
  e <- mcall c ;;
  match e with Some e => mfail e | None => mret tt end.

(** [unlock, err := lock(...)] around a body.  CompareAndSwap unlocks in a
    deferred function that joins the errors; Load reports the first one. *)
Definition locked {A} (join : bool) (body : F A) : F A :=
  fcheck FS_Lock ;;;
  r <- mtry body ;;
  u <- mcall FS_Unlock ;;
  match r, u with
  | Ok a, None => mret a
  | Ok _, Some e => mfail e
  | Err e, None => mfail e
  | Err e, Some e' => mfail (if join then e ++ e' else e)
  end.

(** The part of loadLocked that reads the file: its bytes, or [None] when it
    does not exist; [check] is the size check. *)
Definition readStateFile (check : Z → result unit) (limit : Z) : F (option bytes) :=
  l <- mtry (mcallr FS_Lstat) ;;
  match l with
  | Err err => if errors_Is err OsErrNotExist then mret None else mfail err
  | Ok _ =>
      mcallr FS_Open ;;;
      size <- mcallr FS_ValidateOpened ;;
      mlift (check size) ;;;
      data <- mcallr (FS_ReadAll (limit + 1)) ;;
      mret (Some data)
  end.

(** A step after CreateTemp whose failure closes and removes the temporary. *)
Definition tempStep {A} (m : F A) : F A :=
  r <- mtry m ;;
  match r with
  | Ok a => mret a
  | Err e => mcall FS_Close ;;; mcall FS_Remove ;;; mfail e
  end.

(** The part of CompareAndSwap that replaces the file. *)
Definition installStateFile (data : bytes) : F unit :=
  mcallr FS_CreateTemp ;;;
  tempStep (fcheck FS_Protect) ;;;
  written <- tempStep (mcallr (FS_Write data)) ;;
  tempStep (mguard (written !=? len data) errorText) ;;;
  tempStep (fcheck FS_Sync) ;;;
  c <- mcall FS_Close ;;
  match c with
  | Some e => mcall FS_Remove ;;; mfail e
  | None =>
      i <- mcall FS_Rename ;;
      match i with
      | Some e => mcall FS_Remove ;;; mfail e
      | None => fcheck FS_SyncDirectory
      end
  end.

Definition syncParentDirectory : F unit := fcheck FS_SyncDirectory.

(** ** What the two parts do to a disk *)

Section FileState.
Variable inv : disk → Prop.
Abbreviation mr := (mrwp fs_step inv (S:=unit)).

(** Calls that leave the disk as it is. *)
Definition keeps_disk {X} (e : fs_eff X) : bool :=
  match e with
  | FS_CreateTemp | FS_Write _ | FS_Sync | FS_Rename | FS_Remove | FS_SyncDirectory => false
  | _ => true
  end.

Lemma keeps_disk_step {X} (e : fs_eff X) d x d' :
  keeps_disk e = true → fs_step d X e x d' → d' = d.
Proof.
  intros Hk Hs. destruct e; try done; by destruct Hs.
Qed.

Lemma fcheck_keep (c : fs_eff (option error)) d (Q : disk → unit → result unit → Prop) s :
  keeps_disk c = true → inv d → Q d s (Ok tt) → (∀ e, Q d s (Err e)) → mr (fcheck c) s d Q.
Proof.
  intros Hk Hi Ho He. unfold fcheck. apply mrwp_bind, mrwp_call; [done|].
  intros x d' Hs. apply keeps_disk_step in Hs as ->; [|done]. split; [done|].
  destruct x; [by apply mrwp_fail|by apply mrwp_ret].
Qed.

Lemma callr_keep {X} (c : fs_eff (result X)) d (Q : disk → unit → result X → Prop) s :
  keeps_disk c = true → inv d → (∀ r, fs_step d _ c r d → Q d s r) → mr (mcallr c) s d Q.
Proof.
  intros Hk Hi HQ. apply mrwp_callr; [done|]. intros r d' Hs.
  pose proof (keeps_disk_step _ _ _ _ Hk Hs) as ->. split; [done|]. by apply HQ.
Qed.

(** Reading returns the visible content and changes nothing. *)
Lemma readStateFile_spec check limit d s (Q : disk → unit → result (option bytes) → Prop) :
  inv d → 0 ≤ limit →
  (∀ e, Q d s (Err e)) →
  (dk_visible d = None → Q d s (Ok None)) →
  (∀ f u, dk_visible d = Some f → check (len (f_data f)) = Ok u →
     Q d s (Ok (Some (take (Z.to_nat (limit + 1)) (f_data f))))) →
  mr (readStateFile check limit) s d Q.
Proof.
  intros Hi Hl He Hn Hf. unfold readStateFile.
  apply mrwp_bind, mrwp_try, callr_keep; [done|done|]. intros r [_ Hs].
  destruct r as [u|e].
  - apply mrwp_bind, callr_keep; [done|done|]. intros [u'|e] _; [|apply He].
    apply mrwp_bind, callr_keep; [done|done|]. intros [size|e] [_ Hv]; [|apply He].
    destruct (Hv size eq_refl) as (f & Hvis & ->). apply mrwp_bind, mrwp_lift; [done|].
    destruct (check (len (f_data f))) as [v|] eqn:Hc; [|apply He].
    apply mrwp_bind, callr_keep; [done|done|]. intros [data|e] [_ Hr]; [|apply He].
    destruct (Hr data eq_refl) as (f' & Hvis' & ->). simplify_eq.
    apply mrwp_ret; [done|]. by eapply Hf.
  - destruct (errors_Is e OsErrNotExist) eqn:Hx.
    + apply mrwp_ret; [done|]. by apply Hn.
    + by apply mrwp_fail.
Qed.

(** An invariant that says nothing of temporary files. *)
Definition names_only : Prop := ∀ d t, inv d → inv (with_temp d t).

Lemma temp_call {X} (c : fs_eff X) d s (Q : disk → unit → result X → Prop) :
  inv d → (∀ x d', fs_step d X c x d' → ∃ t, d' = with_temp d t) → names_only →
  (∀ x d', fs_step d X c x d' → Q d' s (Ok x)) → mr (mcall c) s d Q.
Proof.
  intros Hi Ht Hn HQ. apply mrwp_call; [done|]. intros x d' Hs.
  destruct (Ht x d' Hs) as [t ->]. split; [by apply Hn|]. by apply HQ.
Qed.

Lemma close_remove {A} d s e (Q : disk → unit → result A → Prop) :
  names_only → inv d → (∀ t, Q (with_temp d t) s (Err e)) →
  mr (mcall FS_Close ;;; mcall FS_Remove ;;; mfail e) s d Q.
Proof.
  intros Hn Hi HQ. apply mrwp_bind, mrwp_call; [done|]. intros x d' ->. split; [done|].
  apply mrwp_bind, mrwp_call; [done|]. intros [] d' ->.
  split; [by apply Hn|]. apply mrwp_fail; [by apply Hn|done].
Qed.

(** A step on the temporary file, or the failure that removes it. *)
Lemma tempStep_spec {A} (m : F A) d s (Q : disk → unit → result A → Prop) :
  names_only → inv d →
  (∀ t e, Q (with_temp d t) s (Err e)) →
  mr m s d (λ d' s' r, s' = s ∧ ∃ t, d' = with_temp d t ∧
    match r with Ok a => Q d' s (Ok a) | Err _ => True end) →
  mr (tempStep m) s d Q.
Proof.
  intros Hn Hi He Hm. unfold tempStep. apply mrwp_bind, mrwp_try.
  eapply mrwp_mono; [exact Hm|]. intros d' s' r Hi' (-> & t & -> & Hr).
  destruct r as [a|e]; [by apply mrwp_ret|]. apply close_remove; [done|done|].
  intros t'. apply He.
Qed.

Lemma stage {A} (m : F A) (k : A → F unit) d t s (Q : disk → unit → result unit → Prop) :
  names_only → inv d → (∀ t' e, Q (with_temp d t') s (Err e)) →
  mr m s (with_temp d t) (λ d' s' r, s' = s ∧ ∃ t', d' = with_temp d t' ∧
    match r with Ok a => mr (k a) s d' Q | Err _ => True end) →
  mr (mbind (tempStep m) k) s (with_temp d t) Q.
Proof.
  intros Hn Hi He Hm. apply mrwp_bind, tempStep_spec; [done|by apply Hn|intros t' e; apply He|done].
Qed.

(** Replacing the file: it fails before the rename with only the temporary file
    touched; or the new, synced file is installed, and with success the
    directory is synced too. *)
Lemma installStateFile_spec data d s (Q : disk → unit → result unit → Prop) :
  let new := Some {| f_data := data; f_synced := true |} in
  names_only → inv d →
  (∀ t, inv {| dk_names := new :: dk_names d; dk_temp := t |}) →
  (∀ t, inv {| dk_names := [new]; dk_temp := t |}) →
  (∀ d' e, inv d' → Q d' s (Err e)) →
  (∀ t, Q {| dk_names := [new]; dk_temp := t |} s (Ok tt)) →
  mr (installStateFile data) s d Q.
Proof.
  intros new Hn Hi Hi1 Hi2 HE HO.
  assert (∀ t, inv (with_temp d t)) as Ht by (intros t; by apply Hn).
  assert (∀ t e, Q (with_temp d t) s (Err e)) as He by (intros t e; by apply HE).
  unfold installStateFile. apply mrwp_bind, mrwp_callr; [done|].
  intros [u|e] d1 Hs1; simpl in Hs1; subst d1; [|by split; [|apply HE]].
  split; [done|]. apply stage; [done..|].
  apply fcheck_keep; [done|done| |by intros; eauto]. split; [done|]. eexists. split; [done|].
  apply stage; [done..|]. apply mrwp_callr; [done|]. intros r d2 (n & Hn2 & -> & Hr).
  split; [apply Ht|]. split; [done|]. eexists. split; [done|]. destruct r as [m|e]; [|done].
  rewrite (Hr m eq_refl). apply stage; [done..|]. apply mrwp_guard; [apply Ht|by eauto|].
  intros Hlen. bool_prop. subst n. split; [done|]. eexists. split; [done|].
  apply stage; [done..|]. unfold fcheck. apply mrwp_bind, mrwp_call; [apply Ht|].
  intros [e|] d3 Hs3; simpl in Hs3.
  { subst d3. split; [apply Ht|]. apply mrwp_fail; [apply Ht|]. split; [done|]. by eexists. }
  destruct Hs3 as (f & [= <-] & ->). split; [apply Ht|]. apply mrwp_ret; [apply Ht|].
  split; [done|]. eexists. split; [done|]. simpl f_data.
  rewrite (firstn_all2 data) by (unfold len; lia). fold new.
  apply mrwp_bind, mrwp_call; [apply Ht|]. intros [e|] d4 ->; (split; [apply Ht|]).
  { apply mrwp_bind, mrwp_call; [apply Ht|]. intros [] d4 ->. split; [apply Ht|].
    apply mrwp_fail; [apply Ht|apply He]. }
  apply mrwp_bind, mrwp_call; [apply Ht|].
  intros [e|] d4 [[_ ->]|[Hx ->]]; simpl; try done; (split; [by first [apply Hi1|apply Ht]|]).
  - apply mrwp_bind, mrwp_call; [apply Hi1|]. intros [] d5 ->. split; [apply Hi1|].
    apply mrwp_fail; [apply Hi1|]. apply HE, Hi1.
  - apply mrwp_bind, mrwp_call; [apply Ht|]. intros [] d5 ->. split; [apply Ht|].
    apply mrwp_fail; [apply Ht|apply He].
  - unfold fcheck. apply mrwp_bind, mrwp_call; [apply Hi1|].
    intros [e|] d5 [->|[Hx ->]]; simpl; try done; (split; [by first [apply Hi1|apply Hi2]|]).
    + apply mrwp_fail; [apply Hi2|]. apply HE, Hi2.
    + apply mrwp_fail; [apply Hi1|]. apply HE, Hi1.
    + apply mrwp_ret; [apply Hi2|apply HO].
Qed.

(** The directory sync makes the visible entry the only one. *)
Lemma syncParentDirectory_spec d s (Q : disk → unit → result unit → Prop) :
  inv d → inv (with_names d [dk_visible d]) →
  (∀ d' e, inv d' → Q d' s (Err e)) →
  Q (with_names d [dk_visible d]) s (Ok tt) → mr syncParentDirectory s d Q.
Proof.
  intros Hi Hi' HE HO. unfold syncParentDirectory, fcheck. apply mrwp_bind, mrwp_call; [done|].
  intros [e|] d' [->|[Hx ->]]; try done; (split; [done|]).
  - apply mrwp_fail; auto.
  - apply mrwp_fail; auto.
Qed.

(** The lock around a body. *)
Lemma locked_spec {A} join (body : F A) d s (Q : disk → unit → result A → Prop) :
  inv d → (∀ e, Q d s (Err e)) →
  mr body s d (λ d' s' r, Q d' s' r ∧ ∀ e, Q d' s' (Err e)) →
  mr (locked join body) s d Q.
Proof.
  intros Hi He Hb. unfold locked. apply mrwp_bind, fcheck_keep; [done|done| |done].
  apply mrwp_bind, mrwp_try. eapply mrwp_mono; [exact Hb|].
  intros d' s' r Hi' [Hq Hqe]. apply mrwp_bind, mrwp_call; [done|]. intros u d'' ->.
  split; [done|]. destruct r as [a|e], u as [e'|]; by first [apply mrwp_ret|apply mrwp_fail].
Qed.
End FileState.

(** ** Crash states of an update *)

(** The entries there were, or complete files with data of [new]. *)
Definition entries (new : bytes → Prop) (d d' : disk) : Prop :=
  dk_names d' ≠ [] ∧
  ∀ f, f ∈ dk_names d' → f ∈ dk_names d ∨ ∃ b, new b ∧ f = Some {| f_data := b; f_synced := true |}.

Lemma entries_refl new d : dk_names d ≠ [] → entries new d d.
Proof. intros Hd. split; [done|]. auto. Qed.

Lemma visible_in d : dk_names d ≠ [] → dk_visible d ∈ dk_names d.
Proof. unfold dk_visible. destruct (dk_names d); [done|]. left. Qed.

Lemma entries_names new d : names_only (entries new d).
Proof. intros d' t H. exact H. Qed.

Lemma entries_single (new : bytes → Prop) d f t :
  f ∈ dk_names d ∨ (∃ b, new b ∧ f = Some {| f_data := b; f_synced := true |}) →
  entries new d {| dk_names := [f]; dk_temp := t |}.
Proof. intros Hf. split; [done|]. simpl. intros g Hg%list_elem_of_singleton. by subst. Qed.

Lemma entries_visible new d : dk_names d ≠ [] → entries new d (with_names d [dk_visible d]).
Proof. intros Hd. apply entries_single. left. by apply visible_in. Qed.

(** Installing new data. *)
Lemma install_entries (new : bytes → Prop) data d s (Q : disk → unit → result unit → Prop) :
  new data → dk_names d ≠ [] →
  (∀ d' e, entries new d d' → Q d' s (Err e)) →
  (∀ t, Q {| dk_names := [Some {| f_data := data; f_synced := true |}]; dk_temp := t |} s (Ok tt)) →
  mrwp fs_step (entries new d) (installStateFile data) s d Q.
Proof.
  intros Hdata Hd HE HO. apply installStateFile_spec; try done.
  - apply entries_names.
  - by apply entries_refl.
  - intros t. split; [done|]. simpl. intros f Hf. apply elem_of_cons in Hf as [->|Hf]; eauto.
  - intros t. apply entries_single. eauto.
Qed.

(** All entries of the disk are files whose data has reached the disk: what
    every completed installation leaves. *)
Definition disk_synced (d : disk) : Prop :=
  dk_names d ≠ [] ∧ ∀ f, Some f ∈ dk_names d → f_synced f = true.

Lemma entries_synced new d d' : disk_synced d → entries new d d' → disk_synced d'.
Proof.
  intros [Hd Hs] [Hd' He]. split; [done|]. intros f Hf.
  destruct (He _ Hf) as [Hf'|(b & _ & [= ->])]; [by apply Hs|done].
Qed.

Lemma crash_of_synced d (f : file) c :
  dk_names d = [Some f] → f_synced f = true → crash_content d c → c = Some (f_data f).
Proof.
  intros Hd Hf (g & Hg & Hc). rewrite Hd in Hg. apply list_elem_of_singleton in Hg as ->.
  destruct c; [|done]. by rewrite Hc.
Qed.

(** After an update a crash leaves what there was or new data. *)
Lemma entries_crash new d d' c :
  entries new d d' → crash_content d' c → crash_content d c ∨ ∃ b, new b ∧ c = Some b.
Proof.
  intros [_ He] (f & Hf & Hc). destruct (He _ Hf) as [Hf'|(b & Hb & ->)].
  - left. by exists f.
  - right. destruct c; [|done]. rewrite Hc by done. by eauto.
Qed.

Definition empty_disk : disk := {| dk_names := [None]; dk_temp := None |}.

Lemma empty_disk_synced : disk_synced empty_disk.
Proof. split; [done|]. intros f Hf. by apply list_elem_of_singleton in Hf. Qed.

(** ** A file system on which every call succeeds *)

Definition fs_run : handler fs_eff disk := λ X e d,
  match e in fs_eff T return disk * T with
  | FS_Ctx => (d, None) | FS_Lock => (d, None) | FS_Unlock => (d, None)
  | FS_Lstat => (d, match dk_visible d with Some _ => Ok tt | None => Err [OsErrNotExist] end)
  | FS_Open => (d, match dk_visible d with Some _ => Ok tt | None => Err [OsErrNotExist] end)
  | FS_ValidateOpened =>
      (d, match dk_visible d with Some f => Ok (len (f_data f)) | None => Err [] end)
  | FS_ReadAll n =>
      (d, match dk_visible d with Some f => Ok (take (Z.to_nat n) (f_data f)) | None => Err [] end)
  | FS_CreateTemp => (with_temp d (Some {| f_data := []; f_synced := false |}), Ok tt)
  | FS_Protect => (d, None)
  | FS_Write data => (written d data (len data), Ok (len data))
  | FS_Sync => match dk_temp d with
               | Some f => (with_temp d (Some {| f_data := f_data f; f_synced := true |}), None)
               | None => (d, Some [])
               end
  | FS_Close => (d, None)
  | FS_Rename => match dk_temp d with
                 | Some f => ({| dk_names := Some f :: dk_names d; dk_temp := None |}, None)
                 | None => (d, Some [])
                 end
  | FS_Remove => (with_temp d None, tt)
  | FS_SyncDirectory => (with_names d [dk_visible d], None)
  | FS_Rand => (d, Ok (replicate 32 x09))
  | FS_Acquire => (d, None) | FS_Release => (d, tt) | FS_ValidateSecret => (d, None)
  | FS_Abs path => (d, Ok path) | FS_PrepareDirectory path => (d, Ok path)
  | FS_ValidateSecretDirectory _ => (d, None)
  end.

Lemma fs_run_step d X (e : fs_eff X) : fs_step d X e (fs_run X e d).2 (fs_run X e d).1.
Proof.
  destruct e; simpl; try done.
  - by destruct (dk_visible d).
  - by destruct (dk_visible d).
  - split; [by destruct (dk_visible d)|]. intros n.
    destruct (dk_visible d) as [f|]; intros [= <-]. by exists f.
  - split; [by destruct (dk_visible d)|]. intros b.
    destruct (dk_visible d) as [f|]; intros [= <-]. by exists f.
  - exists (len data). split_and!; [apply len_nonneg|done|done|congruence].
  - destruct (dk_temp d) as [f|]; simpl; [by exists f|done].
  - destruct (dk_temp d) as [f|]; simpl; [by left|by right].
  - by left.
Qed.

(** ** Environments in which every call succeeds *)

Definition fs_works (d : disk) (X : Type) (e : fs_eff X) (x : X) (d' : disk) : Prop :=
  fs_step d X e x d' ∧
  match e in fs_eff T return T → Prop with
  | FS_Ctx | FS_Lock | FS_Unlock | FS_Protect | FS_Close | FS_Acquire | FS_ValidateSecret
  | FS_ValidateSecretDirectory _ | FS_SyncDirectory => λ x, x = None
  | FS_Sync | FS_Rename => λ x, dk_temp d ≠ None → x = None
  | FS_Rand | FS_Abs _ | FS_PrepareDirectory _ => λ r, is_ok r = true
  | FS_CreateTemp => λ r, is_ok r = true
  | FS_Lstat | FS_Open => λ r, dk_visible d ≠ None → is_ok r = true
  | FS_ValidateOpened => λ r, dk_visible d ≠ None → is_ok r = true
  | FS_ReadAll _ => λ r, dk_visible d ≠ None → is_ok r = true
  | FS_Write data => λ r, r = Ok (len data)
  | FS_Remove | FS_Release => λ _, True
  end x.

Lemma fs_run_works d X (e : fs_eff X) : fs_works d X e (fs_run X e d).2 (fs_run X e d).1.
Proof.
  split; [apply fs_run_step|]. destruct e; simpl; try done; first [by destruct (dk_visible d)|by destruct (dk_temp d)].
Qed.

Section Works.
Variable inv : disk → Prop.

Lemma works_check (c : fs_eff (option error)) d s (Q : disk → unit → result unit → Prop) :
  (∀ x d', fs_works d _ c x d' → x = None ∧ d' = d) → inv d → Q d s (Ok tt) →
  mrwp fs_works inv (fcheck c) s d Q.
Proof.
  intros Hc Hi HQ. unfold fcheck. apply mrwp_bind, mrwp_call; [done|]. intros x d' Hs.
  destruct (Hc x d' Hs) as [-> ->]. split; [done|]. by apply mrwp_ret.
Qed.

Lemma works_ctx d s (Q : disk → unit → result unit → Prop) :
  inv d → Q d s (Ok tt) → mrwp fs_works inv (fcheck FS_Ctx) s d Q.
Proof. apply works_check. by intros x d' [? ?]. Qed.

Lemma works_rand d s (Q : disk → unit → result bytes → Prop) :
  inv d → (∀ random, Q d s (Ok random)) → mrwp fs_works inv (mcallr FS_Rand) s d Q.
Proof. intros Hi HQ. apply mrwp_callr; [done|]. intros [random|e] d' [-> Hr]; [|done]. by split. Qed.

(** A file of an accepted size is read. *)
Lemma readStateFile_works check limit d f s (Q : disk → unit → result (option bytes) → Prop) :
  inv d → 0 ≤ limit → dk_visible d = Some f → check (len (f_data f)) = Ok tt →
  Q d s (Ok (Some (take (Z.to_nat (limit + 1)) (f_data f)))) →
  mrwp fs_works inv (readStateFile check limit) s d Q.
Proof.
  intros Hi Hl Hv Hc HQ. assert (dk_visible d ≠ None) as Hn by congruence. unfold readStateFile.
  apply mrwp_bind, mrwp_try, mrwp_callr; [done|]. intros [u|e] d1 [[-> _] Hok]; (split; [done|]); [|by specialize (Hok Hn)].
  apply mrwp_bind, mrwp_callr; [done|]. intros [u1|e] d1 [[-> _] Ho1]; (split; [done|]); [|by specialize (Ho1 Hn)].
  apply mrwp_bind, mrwp_callr; [done|]. intros [n|e] d1 [[-> Hs] Ho2]; (split; [done|]); [|by specialize (Ho2 Hn)].
  destruct (Hs n eq_refl) as (f' & Hf' & ->). simplify_eq.
  apply mrwp_bind, mrwp_lift; [done|]. rewrite Hc.
  apply mrwp_bind, mrwp_callr; [done|]. intros [data|e] d1 [[-> Hd] Ho3]; (split; [done|]); [|by specialize (Ho3 Hn)].
  destruct (Hd data eq_refl) as (f'' & Hf'' & ->). simplify_eq. by apply mrwp_ret.
Qed.
End Works.
