(* ===== verification/Watermark.v ===== *)
(** * The durable watermark ([watermark.go])

    [FileWatermarkStore]: the anti-rollback anchor of a consumer in one local
    file.  Its operations run on the disks of [FileState]. *)

From S2P Require Import Prelude.
From S2P Require Import Prog.
From S2P Require Import GoStd.
From S2P Require Import Encoding.
From S2P Require Import Sha256.
From S2P Require Import Json.
From S2P Require Import Model.
From S2P Require Import Effects.
From S2P Require Import Trust.
From S2P Require Import FileState.

Definition watermarkFormatVersion : Z := 1.
Definition maxWatermarkBytes : Z := 4096.

Record watermarkFile := {
  wf_Format : Z;
  wf_Channel : bytes;
  wf_Repository : bytes;
  wf_Generation : N;
  wf_Commit : Digest;
}.
#[export] Instance watermarkFile_eq_dec : EqDecision watermarkFile.
Proof. solve_decision. Defined.

(** omitempty on a string. *)
Definition opt_string (k : string) (s : bytes) : list (bytes * json) :=
  if s ==? [] then [] else [(str k, JStr s)].

#[export] Instance watermarkFile_json : JSON watermarkFile := {
  to_json w := JObj ([(str "format", JNum (wf_Format w)); (str "channel", JStr (wf_Channel w))]
    ++ opt_string "repository_id" (wf_Repository w)
    ++ [(str "generation", enc_uint (wf_Generation w)); (str "commit", enc_digest (wf_Commit w))]);
  of_json j :=
    fs ← obj_fields j;
    f ← fld "format" fs dec_int 0;
    c ← fld "channel" fs dec_string [];
    r ← fld "repository_id" fs dec_string [];
    g ← fld "generation" fs (dec_uint u64_max) 0%N;
    d ← fld "commit" fs dec_digest Digest_zero;
    Some {| wf_Format := f; wf_Channel := c; wf_Repository := r; wf_Generation := g; wf_Commit := d |};
  json_valid w := int_ok (wf_Format w) ∧ utf8_ok (wf_Channel w) ∧ utf8_ok (wf_Repository w) ∧
    u64_ok (wf_Generation w) ∧ digest_wf (wf_Commit w);
}.

#[export] Instance watermarkFile_laws : JSONLaws watermarkFile.
Proof.
  split.
  - intros [f c r g d] (Hf & Hc & Hr & Hg & Hd). simpl in *. unfold opt_string.
    case_bool_decide; simpl; split_and!; json_strings.
  - intros [f c r g d] (Hf & Hc & Hr & Hg & Hd). simpl in *. unfold opt_string.
    case_bool_decide as E; [subst r|]; by json_decode.
Qed.

(** ** Operations *)

Definition watermarkSizeCheck (size : Z) : result unit :=
  guard_err ((size <? 1) || (maxWatermarkBytes <? size)) [ErrCorruptObject].

(** The decoding part of loadLocked. *)
Definition decodeWatermark (channel data : bytes) : result Watermark :=
  value <-? decodeJSON (T:=watermarkFile) data ;;
  guard_err ((wf_Format value !=? watermarkFormatVersion) || (wf_Channel value !=? channel)
             || (wf_Generation value ==? 0%N) || Digest_IsZero (wf_Commit value))
            [ErrCorruptObject] ?;;
  repositoryID <-?
    (if wf_Repository value !=? [] then
       match ParseRepositoryID (wf_Repository value) with
       | Ok id => guard_err (RepositoryID_IsZero id) [ErrCorruptObject] ?;; Ok id
       | Err _ => Err [ErrCorruptObject]
       end
     else Ok RepositoryID_zero) ;;
  Ok {| wm_RepositoryID := repositoryID; wm_Generation := wf_Generation value;
        wm_Commit := wf_Commit value |}.

Definition loadLocked (channel : bytes) : M fs_eff unit (option Watermark) :=
  data <- readStateFile watermarkSizeCheck maxWatermarkBytes ;;
  match data with
  | None => mret None
  | Some data => w <- mlift (decodeWatermark channel data) ;; mret (Some w)
  end.

Definition Load (channel : bytes) : M fs_eff unit (option Watermark) :=
  fcheck FS_Ctx ;;;
  locked false (
    current <- loadLocked channel ;;
    match current with
    | Some w => syncParentDirectory ;;; mret (Some w)
    | None => mret None
    end).

(** The file of a watermark. *)
Definition watermarkFileOf (channel : bytes) (next : Watermark) : watermarkFile :=
  {| wf_Format := watermarkFormatVersion; wf_Channel := channel;
     wf_Repository := if RepositoryID_IsZero (wm_RepositoryID next) then []
                      else RepositoryID_String (wm_RepositoryID next);
     wf_Generation := wm_Generation next; wf_Commit := wm_Commit next |}.

Definition CompareAndSwap (channel : bytes) (expected : option Watermark) (next : Watermark)
    : M fs_eff unit unit :=
  fcheck FS_Ctx ;;;
  mlift (validateChannel channel) ;;;
  mguard ((wm_Generation next ==? 0%N) || Digest_IsZero (wm_Commit next)) [ErrCorruptObject] ;;;
  locked true (
    current <- loadLocked channel ;;
    mguard (current !=? expected) [ErrPrecondition] ;;;
    match current with
    | Some current =>
        if wm_RepositoryID next !=? wm_RepositoryID current then mfail [ErrUntrustedReference]
        else if (wm_Generation next <? wm_Generation current)%N then mfail [ErrRollbackDetected]
        else if (wm_Generation next ==? wm_Generation current)
                && (wm_Commit next !=? wm_Commit current) then mfail [ErrSplitBrain]
        else if next ==? current then syncParentDirectory
        else installStateFile (canonicalJSON (watermarkFileOf channel next))
    | None => installStateFile (canonicalJSON (watermarkFileOf channel next))
    end).

Definition Save (channel : bytes) (next : Watermark) : M fs_eff unit unit :=
  expected <- Load channel ;;
  CompareAndSwap channel expected next.

(** ** Lemmas *)

(** The order in which a watermark may move. *)
Definition watermark_le (w w' : Watermark) : Prop :=
  wm_RepositoryID w = wm_RepositoryID w' ∧ (wm_Generation w ≤ wm_Generation w')%N ∧
  (wm_Generation w = wm_Generation w' → wm_Commit w = wm_Commit w').

#[export] Instance watermark_le_preorder : PreOrder watermark_le.
Proof.
  split.
  - intros w. by repeat split.
  - intros a b c (R1 & G1 & C1) (R2 & G2 & C2). split_and!; [congruence|lia|].
    intros E. rewrite C1 by lia. apply C2. lia.
Qed.

Lemma watermark_le_antisym w w' : watermark_le w w' → watermark_le w' w → w = w'.
Proof.
  intros (R1 & G1 & C1) (R2 & G2 & C2). destruct w as [r g c], w' as [r' g' c']; simpl in *.
  assert (g = g') as -> by lia. rewrite C1 by done. by subst.
Qed.

(** What a disk currently says. *)
Definition current_is (channel : bytes) (d : disk) (current : option Watermark) : Prop :=
  match dk_visible d, current with
  | None, None => True
  | Some f, Some w => decodeWatermark channel (f_data f) = Ok w ∧ len (f_data f) ≤ maxWatermarkBytes
  | _, _ => False
  end.

Lemma loadLocked_spec inv channel d s (Q : disk → unit → result (option Watermark) → Prop) :
  inv d → (∀ e, Q d s (Err e)) →
  (∀ current, current_is channel d current → Q d s (Ok current)) →
  mrwp fs_step inv (loadLocked channel) s d Q.
Proof.
  intros Hi He HQ. unfold loadLocked. apply mrwp_bind, readStateFile_spec; [done|done|done| |].
  - intros Hv. apply mrwp_ret; [done|]. apply HQ. unfold current_is. by rewrite Hv.
  - intros f u Hv Hc. unfold watermarkSizeCheck in Hc. ok_inv. bool_prop.
    rewrite firstn_all2 by (unfold len, maxWatermarkBytes in *; lia).
    apply mrwp_bind, mrwp_lift; [done|]. destruct (decodeWatermark channel (f_data f)) eqn:Hd; [|done].
    apply mrwp_ret; [done|]. apply HQ. unfold current_is. by rewrite Hv.
Qed.

Definition watermark_wf (w : Watermark) : Prop :=
  digest_wf (wm_RepositoryID w) ∧ u64_ok (wm_Generation w) ∧ digest_wf (wm_Commit w) ∧
  wm_Generation w ≠ 0%N ∧ Digest_IsZero (wm_Commit w) = false.

Lemma watermarkFileOf_valid channel w :
  utf8_ok channel → watermark_wf w → json_valid (watermarkFileOf channel w).
Proof.
  intros Hc (Hr & Hg & Hd & _ & _). split_and!; try done.
  simpl. destruct (RepositoryID_IsZero _); [done|apply hex_utf8].
Qed.

(** What is written can be read back, if it is not larger than what is read. *)
Lemma decodeWatermark_roundtrip channel w :
  utf8_ok channel → watermark_wf w →
  len (canonicalJSON (watermarkFileOf channel w)) ≤ maxWatermarkBytes →
  decodeWatermark channel (canonicalJSON (watermarkFileOf channel w)) = Ok w.
Proof.
  intros Hc Hw Hl. unfold decodeWatermark.
  rewrite decode_encode; [|by apply watermarkFileOf_valid|etrans; [exact Hl|by vm_compute]].
  destruct Hw as (Hr & Hg & Hd & Hg0 & Hz). cbn [result_bind].
  unfold watermarkFileOf; simpl. rewrite Hz, (bool_decide_true (channel = _)),
    (bool_decide_false (_ = 0%N)) by done. simpl.
  destruct (RepositoryID_IsZero (wm_RepositoryID w)) eqn:Hrz; simpl.
  - unfold RepositoryID_IsZero in Hrz. bool_prop. destruct w; simpl in *. by subst.
  - rewrite bool_decide_false.
    + simpl. rewrite ParseRepositoryID_String by done. rewrite Hrz. simpl. by destruct w.
    + intros E. apply (f_equal length) in E. unfold RepositoryID_String in E.
      rewrite hex_encode_length, Hr in E. done.
Qed.

(** ** Properties *)

Lemma CompareAndSwap_spec channel expected next d s (Q : disk → unit → result unit → Prop) :
  let new := Some {| f_data := canonicalJSON (watermarkFileOf channel next); f_synced := true |} in
  dk_names d ≠ [] →
  (∀ d' e, entries (eq (canonicalJSON (watermarkFileOf channel next))) d d' → Q d' s (Err e)) →
  (validateChannel channel = Ok tt → current_is channel d expected →
   (∀ w, expected = Some w → watermark_le w next) →
   (expected = Some next → Q (with_names d [dk_visible d]) s (Ok tt)) ∧
   (expected ≠ Some next → ∀ t, Q {| dk_names := [new]; dk_temp := t |} s (Ok tt))) →
  mrwp fs_step (entries (eq (canonicalJSON (watermarkFileOf channel next))) d) (CompareAndSwap channel expected next) s d Q.
Proof.
  intros new Hd HE HO. pose proof (entries_refl (eq (canonicalJSON (watermarkFileOf channel next))) d Hd) as Hi.
  assert (∀ e, Q d s (Err e)) as He by auto.
  unfold CompareAndSwap. apply mrwp_bind, fcheck_keep; [done|done| |done].
  apply mrwp_bind, mrwp_lift; [done|]. destruct (validateChannel channel) as [[]|]; [|done].
  apply mrwp_bind, mrwp_guard; [done|auto|intros _].
  apply locked_spec; [done|done|].
  assert (∀ d' e, entries (eq (canonicalJSON (watermarkFileOf channel next))) d d' →
    Q d' s (Err e) ∧ ∀ e', Q d' s (Err e')) as HE' by auto.
  apply mrwp_bind, loadLocked_spec; [done|auto|]. intros current Hc.
  apply mrwp_bind, mrwp_guard; [done|auto|intros Heq]. bool_prop. subst current.
  specialize (HO eq_refl Hc).
  destruct expected as [w|].
  - destruct (bool_decide (wm_RepositoryID next = wm_RepositoryID w)) eqn:H1; simpl;
      [|apply mrwp_fail; auto].
    destruct (wm_Generation next <? wm_Generation w)%N eqn:H2; [apply mrwp_fail; auto|].
    destruct ((wm_Generation next ==? wm_Generation w) && (wm_Commit next !=? wm_Commit w)) eqn:H3;
      [apply mrwp_fail; auto|].
    assert (watermark_le w next) as Hle.
    { bool_prop. split_and!; [done|lia|]. intros E. apply andb_false_iff in H3.
      destruct H3 as [H3|H3]; bool_prop; congruence. }
    destruct HO as [HO1 HO2]; [by intros ? [= <-]|].
    pose proof (entries_visible (eq (canonicalJSON (watermarkFileOf channel next))) d Hd) as Hv.
    destruct (bool_decide (next = w)) eqn:Hn; bool_prop.
    + subst w. apply syncParentDirectory_spec; auto.
    + apply install_entries; [done|done|auto|]. intros t. split; [apply HO2; congruence|].
      intros e. apply HE, entries_single. right. eauto.
  - destruct HO as [_ HO2]; [done|]. apply install_entries; [done|done|auto|]. intros t.
    split; [by apply HO2|]. intros e. apply HE, entries_single. right. eauto.
Qed.

(** What a machine crash can leave at the path, as the store reads it. *)
Definition after_crash (channel : bytes) (d : disk) (w : result (option Watermark)) : Prop :=
  ∃ c, crash_content d c ∧
    w = match c with
        | None => Ok None
        | Some b => result_bind (decodeWatermark channel b) (λ w, Ok (Some w))
        end.

Lemma after_crash_synced channel d b w0 w :
  dk_names d = [Some {| f_data := b; f_synced := true |}] → decodeWatermark channel b = Ok w →
  after_crash channel d w0 → w0 = Ok (Some w).
Proof.
  intros Hd Hw (c & Hc & ->). eapply crash_of_synced in Hc; [|done|done]. subst c. simpl. by rewrite Hw.
Qed.

(** A channel that is not valid UTF-8 is refused before anything is read. *)
Lemma CompareAndSwap_bad_channel (inv : disk → Prop) channel expected next d
    (Q : disk → unit → result unit → Prop) :
  utf8_ValidString channel = false → inv d → (∀ e, Q d tt (Err e)) →
  mrwp fs_step inv (CompareAndSwap channel expected next) tt d Q.
Proof.
  intros Hu Hd HQ. unfold CompareAndSwap. apply mrwp_bind, fcheck_keep; [done|done| |done].
  apply mrwp_bind, mrwp_lift; [done|]. unfold validateChannel. rewrite Hu.
  by destruct (bool_decide (channel = [])); apply HQ.
Qed.

(** The watermark update is atomic under crashes, durable and monotone.
    At every moment of a CompareAndSwap, a machine crash leaves the path with
    one of the watermarks it could have before or with the next one, never with
    torn data.  If it returns nil, the file held exactly [expected], the next
    watermark is of the same repository, of no lower generation and, at equal
    generation, of the same commit, and after a crash at any later time the
    store holds the next watermark. *)
Theorem watermark_cas_crash_safe (channel : bytes) (expected : option Watermark) (next : Watermark)
    (d : disk) :
  disk_synced d → watermark_wf next →
  len (canonicalJSON (watermarkFileOf channel next)) ≤ maxWatermarkBytes →
  mrwp fs_step
    (λ d', disk_synced d' ∧ ∀ w, after_crash channel d' w → after_crash channel d w ∨ w = Ok (Some next))
    (CompareAndSwap channel expected next) tt d
    (λ d' _ r, r = Ok tt →
       current_is channel d expected ∧ (∀ w, expected = Some w → watermark_le w next) ∧
       ∀ w, after_crash channel d' w → w = Ok (Some next)).
Proof.
  intros Hds Hw Hl. pose proof Hds as [Hd Hs].
  destruct (utf8_ValidString channel) eqn:Hu; [|by apply CompareAndSwap_bad_channel; [done|split; [done|auto]|]].
  assert (decodeWatermark channel (canonicalJSON (watermarkFileOf channel next)) = Ok next) as Hdec
    by (by apply decodeWatermark_roundtrip).
  eapply (mrwp_weaken _ (entries (eq (canonicalJSON (watermarkFileOf channel next))) d)).
  { intros d' He. split; [by eapply entries_synced|]. intros w (c & Hc & ->).
    destruct (entries_crash _ _ _ _ He Hc) as [Hc'|(b & <- & ->)].
    - left. by exists c.
    - right. simpl. by rewrite Hdec. }
  apply CompareAndSwap_spec; [done|done|]. intros _ Hc Hle. split.
  - intros -> _. split_and!; [done|done|]. intros w Hac.
    unfold current_is in Hc. destruct (dk_visible d) as [f|] eqn:Hv; [|done].
    destruct Hc as [Hc _]. assert (f_synced f = true) as Hfs.
    { apply Hs. rewrite <- Hv. by apply visible_in. }
    eapply after_crash_synced; [|exact Hc|exact Hac]. simpl. destruct f; simpl in *. by subst.
  - intros _ t _. split_and!; [done|done|]. intros w Hac.
    by eapply after_crash_synced; [|exact Hdec|exact Hac].
Qed.

Definition toy_watermark (generation : N) : Watermark :=
  {| wm_RepositoryID := fixture_digest 1; wm_Generation := generation; wm_Commit := fixture_digest 9 |}.

Lemma watermark_cas_crash_safe_witness :
  mrwp fs_step
    (λ d', disk_synced d' ∧ ∀ w, after_crash (str "main") d' w →
       after_crash (str "main") empty_disk w ∨ w = Ok (Some (toy_watermark 3)))
    (CompareAndSwap (str "main") None (toy_watermark 3)) tt empty_disk
    (λ d' _ r, r = Ok tt →
       current_is (str "main") empty_disk None ∧
       (∀ w, None = Some w → watermark_le w (toy_watermark 3)) ∧
       ∀ w, after_crash (str "main") d' w → w = Ok (Some (toy_watermark 3))).
Proof.
  apply (watermark_cas_crash_safe (str "main") None (toy_watermark 3) empty_disk);
    [exact empty_disk_synced|repeat split; by vm_compute|by vm_compute].
Defined.

(** Load answers only from durable state.  If Load returns a watermark, it
    is the one in the visible file, and after a machine crash at any later time
    the store holds that same watermark, also when the file had been made
    visible by a process that died before it synced the directory; nothing on
    the disk is changed but for that sync. *)
Theorem watermark_load_durable (channel : bytes) (d : disk) :
  disk_synced d →
  mrwp fs_step (λ d', dk_names d' = dk_names d ∨ dk_names d' = [dk_visible d])
    (Load channel) tt d
    (λ d' _ r, match r with
       | Ok (Some w) => current_is channel d (Some w) ∧
           ∀ c, after_crash channel d' c → c = Ok (Some w)
       | Ok None => dk_visible d = None
       | Err _ => True
       end).
Proof.
  intros [Hd Hs]. unfold Load. apply mrwp_bind, fcheck_keep; [done|by left| |done].
  apply locked_spec; [by left|done|]. apply mrwp_bind, loadLocked_spec; [by left|done|].
  intros [w|] Hc.
  - apply mrwp_bind, syncParentDirectory_spec; [by left|by right|done|].
    apply mrwp_ret; [by right|]. split; [|done]. split; [done|]. intros c Hac.
    unfold current_is in Hc. destruct (dk_visible d) as [f|] eqn:Hv; [|done].
    assert (f_synced f = true) as Hfs. { apply Hs. rewrite <- Hv. by apply visible_in. }
    eapply after_crash_synced; [|apply Hc|exact Hac]. simpl. destruct f; simpl in *. by subst.
  - apply mrwp_ret; [by left|]. split; [|done]. unfold current_is in Hc. by destruct (dk_visible d).
Qed.

Lemma watermark_load_durable_witness :
  mrwp fs_step (λ d', dk_names d' = dk_names empty_disk ∨ dk_names d' = [dk_visible empty_disk])
    (Load (str "main")) tt empty_disk
    (λ d' _ r, match r with
       | Ok (Some w) => current_is (str "main") empty_disk (Some w) ∧
           ∀ c, after_crash (str "main") d' c → c = Ok (Some w)
       | Ok None => dk_visible empty_disk = None
       | Err _ => True
       end).
Proof. apply (watermark_load_durable (str "main") empty_disk), empty_disk_synced. Defined.

(** A run that stores and reads back. *)
Example save_load :
  (run fs_run ((Save (str "main") (toy_watermark 3) ;;; Save (str "main") (toy_watermark 4) ;;;
                Load (str "main")) tt) empty_disk).2
  = (tt, Ok (Some (toy_watermark 4))).
Proof. by vm_compute. Qed.

Example save_rollback :
  (run fs_run ((Save (str "main") (toy_watermark 3) ;;; Save (str "main") (toy_watermark 2)) tt)
     empty_disk).2 = (tt, Err [ErrRollbackDetected]).
Proof. by vm_compute. Qed.

(** ** Watermarks that cannot be read *)

(** A file larger than what loadLocked accepts. *)
Definition oversized (d : disk) : Prop :=
  ∃ f, dk_visible d = Some f ∧ maxWatermarkBytes < len (f_data f).

Lemma oversized_not_current channel d current : oversized d → ¬ current_is channel d current.
Proof.
  intros (f & Hv & Hl). unfold current_is. rewrite Hv. destruct current; [intros [_ ?]; lia|by intros []].
Qed.

Lemma oversized_loadLocked channel d (Q : disk → unit → result (option Watermark) → Prop) :
  oversized d → (∀ e, Q d tt (Err e)) → mrwp fs_step (eq d) (loadLocked channel) tt d Q.
Proof.
  intros Ho He. apply loadLocked_spec; [done|done|]. intros current Hc.
  by destruct (oversized_not_current _ _ _ Ho Hc).
Qed.

Lemma oversized_Load channel d :
  oversized d → mrwp fs_step (eq d) (Load channel) tt d (λ _ _ r, ∃ e, r = Err e).
Proof.
  intros Ho. unfold Load. apply mrwp_bind, fcheck_keep; [done|done| |eauto].
  apply locked_spec; [done|eauto|]. apply mrwp_bind, oversized_loadLocked; [done|]. eauto.
Qed.

Lemma oversized_CompareAndSwap channel expected next d :
  oversized d → mrwp fs_step (eq d) (CompareAndSwap channel expected next) tt d (λ _ _ r, ∃ e, r = Err e).
Proof.
  intros Ho. unfold CompareAndSwap. apply mrwp_bind, fcheck_keep; [done|done| |eauto].
  apply mrwp_bind, mrwp_lift; [done|]. destruct (validateChannel channel) as [[]|]; [|eauto].
  apply mrwp_bind, mrwp_guard; [done|eauto|intros _].
  apply locked_spec; [done|eauto|]. apply mrwp_bind, oversized_loadLocked; [done|]. eauto.
Qed.

Lemma run_installStateFile data d :
  run fs_run (installStateFile data tt) d
  = ({| dk_names := [Some {| f_data := data; f_synced := true |}]; dk_temp := None |}, (tt, Ok tt)).
Proof.
  unfold installStateFile, tempStep, fcheck.
  repeat first [mrun_step|rewrite bool_decide_true by done|progress simpl].
  unfold len. rewrite Nat2Z.id, firstn_all. done.
Qed.

Lemma run_store data (m : option Watermark → M fs_eff unit unit) channel :
  m None = installStateFile data →
  (run fs_run (locked true (current <- loadLocked channel ;; m current) tt) empty_disk).2 = (tt, Ok tt).
Proof.
  intros Hm. unfold locked, loadLocked, readStateFile, fcheck.
  repeat first [mrun_step|rewrite Hm|rewrite run_installStateFile|progress simpl]. done.
Qed.

(** A valid channel name can make the stored watermark unreadable.  JSON
    writes the characters <, >, & and control characters as six bytes, so a
    channel name within its own limit can make the file larger than what
    loadLocked accepts; CompareAndSwap does not check the size.  For every
    valid channel and every watermark whose file is too large: on an empty disk
    where every call succeeds the watermark is stored and success is reported;
    and whenever a CompareAndSwap of it reports success, on any disk and
    whatever the calls answer, every later Load and every later CompareAndSwap
    of the channel fails and leaves the disk as it is. *)
Theorem watermark_long_channel_unreadable channel next :
  validateChannel channel = Ok tt → wm_Generation next ≠ 0%N → Digest_IsZero (wm_Commit next) = false →
  maxWatermarkBytes < len (canonicalJSON (watermarkFileOf channel next)) →
  (run fs_run (CompareAndSwap channel None next tt) empty_disk).2 = (tt, Ok tt) ∧
  ∀ expected d, dk_names d ≠ [] → expected ≠ Some next →
    mrwp fs_step (λ _, True) (CompareAndSwap channel expected next) tt d (λ d' _ r, r = Ok tt →
      mrwp fs_step (eq d') (Load channel) tt d' (λ _ _ r, ∃ e, r = Err e) ∧
      ∀ expected' next',
        mrwp fs_step (eq d') (CompareAndSwap channel expected' next') tt d' (λ _ _ r, ∃ e, r = Err e)).
Proof.
  intros Hv Hg Hz Hl. split.
  - unfold CompareAndSwap. rewrite Hv, Hz, (bool_decide_false (_ = 0%N)) by done.
    rewrite run_mbind. simpl. by apply (run_store (canonicalJSON (watermarkFileOf channel next))).
  - intros expected d Hd Hne. eapply mrwp_weaken; [done|].
    apply CompareAndSwap_spec; [done|done|]. intros _ _ _. split; [by intros ->|]. intros _ t _.
    assert (oversized {| dk_names := [Some {| f_data := canonicalJSON (watermarkFileOf channel next);
      f_synced := true |}]; dk_temp := t |}) as Ho by (eexists; by split).
    split; [by apply oversized_Load|intros; by apply oversized_CompareAndSwap].
Qed.

Lemma watermark_long_channel_unreadable_witness :
  (run fs_run (CompareAndSwap (replicate 1024 x3c) None (toy_watermark 1) tt) empty_disk).2 = (tt, Ok tt).
Proof.
  apply (watermark_long_channel_unreadable (replicate 1024 x3c) (toy_watermark 1)); by vm_compute.
Defined.
