(* ===== verification/Journal.v ===== *)
(** * The publication journal ([publication_journal.go])

    The write-ahead record of a publisher: the highest committed watermark and
    at most one pending compare-and-swap of the channel reference.  Validation,
    allowed transitions, the checksummed file, and [FilePublicationJournal]. *)

From S2P Require Import Prelude.
From S2P Require Import Prog.
From S2P Require Import GoStd.
From S2P Require Import Encoding.
From S2P Require Import Sha256.
From S2P Require Import Json.
From S2P Require Import Model.
From S2P Require Import Effects.
From S2P Require Import Trust.
From S2P Require Import ClientEncryption.
From S2P Require Import FileState.
From S2P Require Import Watermark.

Definition publicationJournalFormatVersion : Z := 1.
Definition maxPublicationJournalBytes : Z := Z.shiftl 32 10.

(** ** The file's types *)

(** publicationJournalWatermark has the fields of Watermark, and
    publicationJournalVersion those of Version; Go converts between them. *)
#[export] Instance Watermark_json : JSON Watermark := {
  to_json w := JObj [(str "repository_id", enc_digest (wm_RepositoryID w));
                     (str "generation", enc_uint (wm_Generation w));
                     (str "commit", enc_digest (wm_Commit w))];
  of_json j :=
    fs ← obj_fields j;
    r ← fld "repository_id" fs dec_digest RepositoryID_zero;
    g ← fld "generation" fs (dec_uint u64_max) 0%N;
    c ← fld "commit" fs dec_digest Digest_zero;
    Some {| wm_RepositoryID := r; wm_Generation := g; wm_Commit := c |};
  json_valid w := digest_wf (wm_RepositoryID w) ∧ u64_ok (wm_Generation w) ∧ digest_wf (wm_Commit w);
}.

#[export] Instance Watermark_laws : JSONLaws Watermark.
Proof.
  split.
  - intros [r g c] (Hr & Hg & Hc). simpl in *. split_and!; json_strings.
  - intros [r g c] (Hr & Hg & Hc). simpl in *. by json_decode.
Qed.

#[export] Instance Version_json : JSON Version := {
  to_json v := JObj ([(str "etag", JStr (v_ETag v))] ++ opt_string "version_id" (v_VersionID v));
  of_json j :=
    fs ← obj_fields j;
    e ← fld "etag" fs dec_string [];
    i ← fld "version_id" fs dec_string [];
    Some {| v_ETag := e; v_VersionID := i |};
  json_valid v := utf8_ok (v_ETag v) ∧ utf8_ok (v_VersionID v);
}.

#[export] Instance Version_laws : JSONLaws Version.
Proof.
  split.
  - intros [e i] (He & Hi). simpl in *. unfold opt_string.
    case_bool_decide; simpl; split_and!; json_strings.
  - intros [e i] (He & Hi). simpl in *. unfold opt_string.
    case_bool_decide as E; [subst i|]; by json_decode.
Qed.

Record publicationJournalIntentFile := {
  pf_IntentID : Digest;
  pf_Kind : PublicationIntentKind;
  pf_Base : option Watermark;
  pf_Next : Watermark;
  pf_ExpectedVersion : option Version;
  pf_ExpectedReference : Digest;
  pf_Reference : slice byte;
}.
#[export] Instance publicationJournalIntentFile_eq_dec : EqDecision publicationJournalIntentFile.
Proof. solve_decision. Defined.

#[export] Instance publicationJournalIntentFile_json : JSON publicationJournalIntentFile := {
  to_json p := JObj ([(str "intent_id", enc_digest (pf_IntentID p)); (str "kind", JStr (pf_Kind p))]
    ++ opt_field "base" to_json (pf_Base p)
    ++ [(str "next", to_json (pf_Next p))]
    ++ opt_field "expected_version" to_json (pf_ExpectedVersion p)
    ++ [(str "expected_reference", enc_digest (pf_ExpectedReference p));
        (str "reference", enc_bytes (pf_Reference p))]);
  of_json j :=
    fs ← obj_fields j;
    i ← fld "intent_id" fs dec_digest Digest_zero;
    k ← fld "kind" fs dec_string [];
    b ← fld "base" fs (dec_ptr of_json) None;
    n ← fld "next" fs of_json Watermark_zero;
    v ← fld "expected_version" fs (dec_ptr of_json) None;
    e ← fld "expected_reference" fs dec_digest Digest_zero;
    r ← fld "reference" fs dec_bytes None;
    Some {| pf_IntentID := i; pf_Kind := k; pf_Base := b; pf_Next := n; pf_ExpectedVersion := v;
            pf_ExpectedReference := e; pf_Reference := r |};
  json_valid p := digest_wf (pf_IntentID p) ∧ utf8_ok (pf_Kind p) ∧
    (∀ b, pf_Base p = Some b → json_valid b) ∧ json_valid (pf_Next p) ∧
    (∀ v, pf_ExpectedVersion p = Some v → json_valid v) ∧ digest_wf (pf_ExpectedReference p);
}.

(** Checks the fields of an object one by one. *)
Ltac fields_wf :=
  apply json_wf_obj;
  repeat first [apply Forall_app; split | apply List.Forall_cons; [split; [by vm_compute|]|]
               | apply List.Forall_nil | apply opt_field_wf; [by vm_compute|]].

#[export] Instance publicationJournalIntentFile_laws : JSONLaws publicationJournalIntentFile.
Proof.
  split.
  - intros [i k b n v e r] (Hi & Hk & Hb & Hn & Hv & He).
    fields_wf; [apply enc_digest_wf|done| | | |apply enc_digest_wf|apply enc_bytes_wf].
    + intros w E. by apply (json_valid_wf (T:=Watermark)), Hb.
    + by apply (json_valid_wf (T:=Watermark)).
    + intros w E. by apply (json_valid_wf (T:=Version)), Hv.
  - intros [i k b [r0 g0 c0] v e r] (Hi & Hk & Hb & (Hr & Hg & Hc) & Hv & He). simpl in *.
    destruct b as [[r1 g1 c1]|], v as [[t u]|]; simpl in *;
      try (destruct (Hb _ eq_refl) as (Hr1 & Hg1 & Hc1));
      try (destruct (Hv _ eq_refl) as (Ht & Hu)); simpl in *;
      unfold opt_string; try (case_bool_decide as E; [subst u|]);
      repeat (unfold dec_ptr; json_decode); done.
Qed.

(** Optional nested structs, kept folded while fields are looked up. *)
Definition enc_nested {T} `{JSON T} (v : T) : json := to_json v.
Definition dec_nested {T} `{JSON T} (j : json) : option (option T) := dec_ptr of_json j.
Arguments enc_nested : simpl never.
Arguments dec_nested : simpl never.

Lemma dec_enc_nested {T} `{JSONLaws T} (v : T) :
  json_valid v → to_json v ≠ JNull → dec_nested (enc_nested v) = Some (Some v).
Proof.
  intros Hv Hn. unfold dec_nested, enc_nested, dec_ptr. rewrite of_to_json by done.
  by destruct (to_json v).
Qed.

Record publicationJournalFile := {
  jf_Format : Z;
  jf_Revision : Digest;
  jf_RepositoryID : RepositoryID;
  jf_Channel : bytes;
  jf_Committed : option Watermark;
  jf_Pending : option publicationJournalIntentFile;
  jf_Checksum : Digest;
}.
#[export] Instance publicationJournalFile_eq_dec : EqDecision publicationJournalFile.
Proof. solve_decision. Defined.

(** The fields of publicationJournalPayload: all but the checksum. *)
Definition payload_fields (f : publicationJournalFile) : list (bytes * json) :=
  [(str "format", JNum (jf_Format f)); (str "revision", enc_digest (jf_Revision f));
   (str "repository_id", enc_digest (jf_RepositoryID f)); (str "channel", JStr (jf_Channel f))]
  ++ opt_field "committed" enc_nested (jf_Committed f)
  ++ opt_field "pending" enc_nested (jf_Pending f).

#[export] Instance publicationJournalFile_json : JSON publicationJournalFile := {
  to_json f := JObj (payload_fields f ++ [(str "checksum", enc_digest (jf_Checksum f))]);
  of_json j :=
    fs ← obj_fields j;
    f ← fld "format" fs dec_int 0;
    v ← fld "revision" fs dec_digest Digest_zero;
    r ← fld "repository_id" fs dec_digest RepositoryID_zero;
    c ← fld "channel" fs dec_string [];
    w ← fld "committed" fs dec_nested None;
    p ← fld "pending" fs dec_nested None;
    s ← fld "checksum" fs dec_digest Digest_zero;
    Some {| jf_Format := f; jf_Revision := v; jf_RepositoryID := r; jf_Channel := c;
            jf_Committed := w; jf_Pending := p; jf_Checksum := s |};
  json_valid f := int_ok (jf_Format f) ∧ digest_wf (jf_Revision f) ∧ digest_wf (jf_RepositoryID f) ∧
    utf8_ok (jf_Channel f) ∧ (∀ w, jf_Committed f = Some w → json_valid w) ∧
    (∀ p, jf_Pending f = Some p → json_valid p) ∧ digest_wf (jf_Checksum f);
}.

#[export] Instance publicationJournalFile_laws : JSONLaws publicationJournalFile.
Proof.
  split.
  - intros [f v r c w p s] (Hf & Hv & Hr & Hc & Hw & Hp & Hs).
    cbn [to_json publicationJournalFile_json]. unfold payload_fields.
    fields_wf; [done|apply enc_digest_wf|apply enc_digest_wf|done| | |apply enc_digest_wf].
    + intros x E. by apply (json_valid_wf (T:=Watermark)), Hw.
    + intros x E. by apply (json_valid_wf (T:=publicationJournalIntentFile)), Hp.
  - intros [f v r c w p s] (Hf & Hv & Hr & Hc & Hw & Hp & Hs). simpl in Hf, Hv, Hr, Hc, Hw, Hp, Hs.
    cbn [to_json publicationJournalFile_json]. unfold payload_fields.
    destruct w as [w|], p as [p|]; json_decode;
      rewrite ?(dec_enc_nested (T:=Watermark)) by (first [by apply Hw | done]); json_decode;
      rewrite ?(dec_enc_nested (T:=publicationJournalIntentFile)) by (first [by apply Hp | done]);
      done.
Qed.

(** publicationJournalPayload of a file: what the checksum covers. *)
Definition publicationJournalChecksum (disk : publicationJournalFile) : Digest :=
  digestObject (str "publication-journal") (print (JObj (payload_fields disk))).

(** ** Intents *)

(** publicationIntentIdentity. *)
Definition intent_identity (repositoryID : RepositoryID) (channel : bytes)
    (kind : PublicationIntentKind) (base : option Watermark) (next : Watermark) (reference : bytes)
    : json :=
  JObj ([(str "format", JNum publicationJournalFormatVersion);
         (str "repository_id", enc_digest repositoryID); (str "channel", JStr channel);
         (str "kind", JStr kind)]
    ++ opt_field "base" to_json base
    ++ [(str "next", to_json next);
        (str "reference", enc_bytes (if reference ==? [] then None else Some reference))]).

Definition publicationIntentID (repositoryID : RepositoryID) (channel : bytes)
    (kind : PublicationIntentKind) (base : option Watermark) (next : Watermark) (reference : bytes)
    : Digest :=
  digestObject (str "publication-intent")
    (print (intent_identity repositoryID channel kind base next reference)).

Definition validatePublicationIntentID (repositoryID : RepositoryID) (channel : bytes)
    (intent : PublicationIntent) : result unit :=
  let want := publicationIntentID repositoryID channel (pi_Kind intent) (pi_Base intent)
                (pi_Next intent) (pi_Reference intent) in
  guard_err (Digest_IsZero (pi_IntentID intent) || (pi_IntentID intent !=? want)) [ErrCorruptObject].

Definition publicationReferenceDigest (reference : bytes) : Digest :=
  if len reference =? 0 then Digest_zero else digestObject (str "publication-reference") reference.

Definition validatePublicationJournalWatermark (repositoryID : RepositoryID) (watermark : Watermark)
    : result unit :=
  guard_err ((wm_RepositoryID watermark !=? repositoryID) || (wm_Generation watermark ==? 0%N)
             || Digest_IsZero (wm_Commit watermark)) [ErrCorruptObject].

Definition validatePublicationIntentReference (repositoryID : RepositoryID) (channel : bytes)
    (next : Watermark) (reference : bytes) : result unit :=
  match decodeJSON (T:=signedReferenceEnvelope) reference with
  | Err _ => Err [ErrCorruptObject]
  | Ok envelope =>
      let payload := se_Reference envelope in
      guard_err ((se_Format envelope !=? objectFormatVersion)
                 || (sp_Format payload !=? objectFormatVersion)
                 || (sp_RepositoryID payload !=? repositoryID) || (sp_Channel payload !=? channel)
                 || (sp_Generation payload !=? wm_Generation next)
                 || (sp_Commit payload !=? wm_Commit next)
                 || (len (els (se_Signature envelope)) =? 0)
                 || (maxReferenceSignatureSize <? len (els (se_Signature envelope))))
                [ErrCorruptObject] ?;;
      result_wrap (λ _, [ErrCorruptObject]) (validateReferenceKeyID (sp_KeyID payload))
  end.

Definition validatePublicationJournalIntent (repositoryID : RepositoryID) (channel : bytes)
    (intent : PublicationIntent) : result unit :=
  guard_err ((pi_Kind intent !=? PublicationIntentPublish)
             && (pi_Kind intent !=? PublicationIntentResign)) [ErrCorruptObject] ?;;
  validatePublicationJournalWatermark repositoryID (pi_Next intent) ?;;
  match pi_Base intent with
  | Some base =>
      validatePublicationJournalWatermark repositoryID base ?;;
      guard_err ((pi_ExpectedVersion intent ==? None) || Digest_IsZero (pi_ExpectedReference intent))
                [ErrCorruptObject]
  | None =>
      guard_err ((pi_ExpectedVersion intent !=? None)
                 || negb (Digest_IsZero (pi_ExpectedReference intent))) [ErrCorruptObject]
  end ?;;
  match pi_ExpectedVersion intent with
  | Some v =>
      guard_err ((v_ETag v ==? []) || (MaxStoreVersionTokenBytes <? len (v_ETag v))
                 || (MaxStoreVersionTokenBytes <? len (v_VersionID v))) [ErrCorruptObject]
  | None => Ok tt
  end ?;;
  (if pi_Kind intent ==? PublicationIntentPublish then
     match pi_Base intent with
     | None => guard_err (wm_Generation (pi_Next intent) !=? 1%N) [ErrCorruptObject]
     | Some base =>
         guard_err ((wm_Generation base ==? u64_max)
                    || (wm_Generation (pi_Next intent) !=? u64_add (wm_Generation base) 1))
                   [ErrCorruptObject]
     end
   else guard_err (pi_Base intent !=? Some (pi_Next intent)) [ErrCorruptObject]) ?;;
  guard_err ((len (pi_Reference intent) =? 0) || (maxReferenceBytes <? len (pi_Reference intent)))
            [ErrResourceLimit] ?;;
  validatePublicationIntentReference repositoryID channel (pi_Next intent) (pi_Reference intent) ?;;
  validatePublicationIntentID repositoryID channel intent.

Definition validatePublicationJournalState (state : PublicationJournalState) : result unit :=
  guard_err (RepositoryID_IsZero (js_RepositoryID state)) [ErrCorruptObject] ?;;
  result_wrap (λ _, [ErrCorruptObject]) (validateChannel (js_Channel state)) ?;;
  match js_Committed state with
  | Some committed => validatePublicationJournalWatermark (js_RepositoryID state) committed
  | None => Ok tt
  end ?;;
  match js_Pending state with
  | None => Ok tt
  | Some pending =>
      validatePublicationJournalIntent (js_RepositoryID state) (js_Channel state) pending ?;;
      match js_Committed state with
      | None => guard_err (pi_Base pending !=? None) [ErrCorruptObject]
      | Some committed => guard_err (pi_Base pending !=? Some committed) [ErrCorruptObject]
      end
  end.

(** ** Transitions *)

Definition equalWatermarkPointers (left right : option Watermark) : bool :=
  match left, right with
  | Some l, Some r => l ==? r
  | None, None => true
  | _, _ => false
  end.

Definition equalVersionPointers (left right : option Version) : bool :=
  match left, right with
  | Some l, Some r => l ==? r
  | None, None => true
  | _, _ => false
  end.

Definition equalPublicationIntentSemantics (left right : option PublicationIntent) : bool :=
  match left, right with
  | Some l, Some r =>
      (pi_IntentID l ==? pi_IntentID r) && (pi_Kind l ==? pi_Kind r)
      && equalWatermarkPointers (pi_Base l) (pi_Base r) && (pi_Next l ==? pi_Next r)
      && (pi_Reference l ==? pi_Reference r)
  | None, None => true
  | _, _ => false
  end.

Definition equalPublicationIntents (left right : option PublicationIntent) : bool :=
  match left, right with
  | Some l, Some r =>
      (pi_IntentID l ==? pi_IntentID r) && (pi_Kind l ==? pi_Kind r)
      && equalWatermarkPointers (pi_Base l) (pi_Base r) && (pi_Next l ==? pi_Next r)
      && equalVersionPointers (pi_ExpectedVersion l) (pi_ExpectedVersion r)
      && (pi_ExpectedReference l ==? pi_ExpectedReference r) && (pi_Reference l ==? pi_Reference r)
  | None, None => true
  | _, _ => false
  end.

Definition validatePublicationJournalTransition (current next : PublicationJournalState)
    : result unit :=
  guard_err (js_RepositoryID current !=? js_RepositoryID next) [ErrUntrustedReference] ?;;
  guard_err (js_Channel current !=? js_Channel next) [ErrCorruptObject] ?;;
  match js_Committed current with
  | None => Ok tt
  | Some c =>
      match js_Committed next with
      | None => Err [ErrRollbackDetected]
      | Some n =>
          guard_err (wm_Generation n <? wm_Generation c)%N [ErrRollbackDetected] ?;;
          guard_err ((wm_Generation n ==? wm_Generation c) && (wm_Commit n !=? wm_Commit c))
                    [ErrSplitBrain]
      end
  end ?;;
  match js_Pending current with
  | None => Ok tt
  | Some _ =>
      match js_Pending next with
      | None => Ok tt
      | Some _ =>
          guard_err (negb (equalWatermarkPointers (js_Committed current) (js_Committed next))
                     || negb (equalPublicationIntentSemantics (js_Pending current) (js_Pending next)))
                    [ErrPrecondition]
      end
  end.

(** ** The file *)

Definition publicationJournalFileFromState (state : PublicationJournalState)
    (revision : PublicationJournalRevision) : publicationJournalFile :=
  {| jf_Format := publicationJournalFormatVersion; jf_Revision := revision;
     jf_RepositoryID := js_RepositoryID state; jf_Channel := js_Channel state;
     jf_Committed := js_Committed state;
     jf_Pending := match js_Pending state with
       | None => None
       | Some p => Some {| pf_IntentID := pi_IntentID p; pf_Kind := pi_Kind p; pf_Base := pi_Base p;
           pf_Next := pi_Next p; pf_ExpectedVersion := pi_ExpectedVersion p;
           pf_ExpectedReference := pi_ExpectedReference p;
           pf_Reference := if pi_Reference p ==? [] then None else Some (pi_Reference p) |}
       end;
     jf_Checksum := Digest_zero |}.

Definition with_checksum (disk : publicationJournalFile) (c : Digest) : publicationJournalFile :=
  {| jf_Format := jf_Format disk; jf_Revision := jf_Revision disk;
     jf_RepositoryID := jf_RepositoryID disk; jf_Channel := jf_Channel disk;
     jf_Committed := jf_Committed disk; jf_Pending := jf_Pending disk; jf_Checksum := c |}.

Definition publicationJournalStateFromFile (disk : publicationJournalFile) : PublicationJournalState :=
  {| js_RepositoryID := jf_RepositoryID disk; js_Channel := jf_Channel disk;
     js_Committed := jf_Committed disk;
     js_Pending := match jf_Pending disk with
       | None => None
       | Some p => Some {| pi_IntentID := pf_IntentID p; pi_Kind := pf_Kind p; pi_Base := pf_Base p;
           pi_Next := pf_Next p; pi_ExpectedVersion := pf_ExpectedVersion p;
           pi_ExpectedReference := pf_ExpectedReference p; pi_Reference := els (pf_Reference p) |}
       end |}.

Definition journalSizeCheck (size : Z) : result unit :=
  guard_err (size <? 1) [ErrCorruptObject] ?;;
  guard_err (maxPublicationJournalBytes <? size) [ErrCorruptObject; ErrResourceLimit].

(** The decoding part of loadLocked. *)
Definition decodeJournal (channel data : bytes)
    : result (PublicationJournalState * PublicationJournalRevision) :=
  guard_err (maxPublicationJournalBytes <? len data) [ErrCorruptObject; ErrResourceLimit] ?;;
  disk <-? decodeJSON (T:=publicationJournalFile) data ;;
  guard_err ((jf_Format disk !=? publicationJournalFormatVersion)
             || Digest_IsZero (jf_Revision disk) || Digest_IsZero (jf_Checksum disk))
            [ErrCorruptObject] ?;;
  guard_err (jf_Checksum disk !=? publicationJournalChecksum disk) [ErrCorruptObject] ?;;
  let state := publicationJournalStateFromFile disk in
  guard_err (js_Channel state !=? channel) [ErrCorruptObject] ?;;
  validatePublicationJournalState state ?;;
  Ok (state, jf_Revision disk).

Definition Journal_loadLocked (channel : bytes)
    : M fs_eff unit (option (PublicationJournalState * PublicationJournalRevision)) :=
  data <- readStateFile journalSizeCheck maxPublicationJournalBytes ;;
  match data with
  | None => mret None
  | Some data => x <- mlift (decodeJournal channel data) ;; mret (Some x)
  end.

Definition Journal_Load (channel : bytes)
    : M fs_eff unit (option (PublicationJournalState * PublicationJournalRevision)) :=
  fcheck FS_Ctx ;;;
  mlift (validateChannel channel) ;;;
  locked false (
    current <- Journal_loadLocked channel ;;
    match current with
    | Some x => syncParentDirectory ;;; mret (Some x)
    | None => mret None
    end).

(** The random draw repeats until it is neither zero nor forbidden; [attempts]
    bounds the model's number of draws. *)
Fixpoint newPublicationJournalRevision (attempts : nat) (forbidden : option PublicationJournalRevision)
    : M fs_eff unit PublicationJournalRevision :=
  match attempts with
  | O => mfail errorText
  | S attempts =>
      random <- mcallr FS_Rand ;;
      let revision := fill 32 random in
      if negb (Digest_IsZero revision) && (Some revision !=? forbidden) then mret revision
      else newPublicationJournalRevision attempts forbidden
  end.

Definition revisionAttempts : nat := 64.

(** The bytes that are installed. *)
Definition encodeJournal (next : PublicationJournalState) (revision : PublicationJournalRevision)
    : bytes :=
  let disk := publicationJournalFileFromState next revision in
  canonicalJSON (with_checksum disk (publicationJournalChecksum disk)).

Definition Journal_CompareAndSwap (channel : bytes) (expected : option PublicationJournalRevision)
    (next : PublicationJournalState) : M fs_eff unit PublicationJournalRevision :=
  fcheck FS_Ctx ;;;
  mlift (validateChannel channel) ;;;
  mguard (js_Channel next !=? channel) [ErrCorruptObject] ;;;
  mlift (validatePublicationJournalState next) ;;;
  locked true (
    current <- Journal_loadLocked channel ;;
    mguard (option_map snd current !=? expected) [ErrPrecondition] ;;;
    mlift (match current with
           | Some (state, _) => validatePublicationJournalTransition state next
           | None => Ok tt
           end) ;;;
    fcheck FS_Ctx ;;;
    revision <- newPublicationJournalRevision revisionAttempts (option_map snd current) ;;
    let data := encodeJournal next revision in
    mguard (maxPublicationJournalBytes <? len data) [ErrResourceLimit] ;;;
    installStateFile data ;;;
    mret revision).

(** ** What validation establishes *)

Lemma validateWatermark_ok id w u :
  validatePublicationJournalWatermark id w = Ok u →
  wm_RepositoryID w = id ∧ wm_Generation w ≠ 0%N ∧ Digest_IsZero (wm_Commit w) = false.
Proof. unfold validatePublicationJournalWatermark. intros Hv. ok_inv. by bool_prop. Qed.

(** The reference bytes of an intent are the envelope of its target. *)
Definition reference_targets (id : RepositoryID) (channel : bytes) (next : Watermark)
    (reference : bytes) : Prop :=
  ∃ env, decodeJSON reference = Ok env ∧ sp_RepositoryID (se_Reference env) = id ∧
    sp_Channel (se_Reference env) = channel ∧
    sp_Generation (se_Reference env) = wm_Generation next ∧
    sp_Commit (se_Reference env) = wm_Commit next.

Lemma validateReference_ok id channel next reference u :
  validatePublicationIntentReference id channel next reference = Ok u →
  reference_targets id channel next reference.
Proof.
  unfold validatePublicationIntentReference, reference_targets.
  destruct (decodeJSON reference) as [env|]; [|done]. intros Hv. ok_inv. bool_prop.
  exists env. by split_and!.
Qed.

(** How an intent moves the committed watermark. *)
Definition intent_advances (base : option Watermark) (kind : PublicationIntentKind)
    (next : Watermark) : Prop :=
  (kind = PublicationIntentPublish ∧
   match base with
   | None => wm_Generation next = 1%N
   | Some b => wm_Generation next = (wm_Generation b + 1)%N ∧ (wm_Generation next ≤ u64_max)%N
   end) ∨
  (kind = PublicationIntentResign ∧ base = Some next).

Lemma validateIntent_ok id channel intent u :
  validatePublicationJournalIntent id channel intent = Ok u →
  (∀ b, pi_Base intent = Some b → (wm_Generation b ≤ u64_max)%N) →
  intent_advances (pi_Base intent) (pi_Kind intent) (pi_Next intent) ∧
  wm_RepositoryID (pi_Next intent) = id ∧ wm_Generation (pi_Next intent) ≠ 0%N ∧
  reference_targets id channel (pi_Next intent) (pi_Reference intent) ∧
  len (pi_Reference intent) ≤ maxReferenceBytes ∧
  (is_Some (pi_Base intent) ↔ is_Some (pi_ExpectedVersion intent)) ∧
  pi_IntentID intent = publicationIntentID id channel (pi_Kind intent) (pi_Base intent)
    (pi_Next intent) (pi_Reference intent).
Proof.
  unfold validatePublicationJournalIntent. intros Hv Hmax.
  apply result_bind_ok in Hv as (? & Hk & Hv). apply guard_err_ok in Hk.
  apply result_bind_ok in Hv as (? & Hn & Hv). apply validateWatermark_ok in Hn as (Hid & Hg0 & _).
  apply result_bind_ok in Hv as (? & Hb & Hv). apply result_bind_ok in Hv as (? & _ & Hv).
  apply result_bind_ok in Hv as (? & Hstep & Hv). apply result_bind_ok in Hv as (? & Hlen & Hv).
  apply result_bind_ok in Hv as (? & Href & Hv). apply validateReference_ok in Href.
  unfold validatePublicationIntentID in Hv. ok_inv. bool_prop.
  split_and!; try done.
  - destruct (bool_decide (pi_Kind intent = PublicationIntentPublish)) eqn:E; bool_prop.
    + left. split; [done|]. destruct (pi_Base intent) as [b|]; ok_inv; bool_prop; [|done].
      pose proof (Hmax b eq_refl).
      match goal with Hs : wm_Generation (pi_Next intent) = u64_add _ _ |- _ =>
        rewrite u64_add_exact in Hs by lia; rewrite Hs; split; [done|lia] end.
    + right. simpl in Hk. ok_inv. bool_prop. done.
  - destruct (pi_Base intent), (pi_ExpectedVersion intent); ok_inv; bool_prop; try done;
      by split; intros [? ?]; eauto.
Qed.

(** ** Transitions of the journal *)

Definition journal_ok (st : PublicationJournalState) : Prop :=
  validatePublicationJournalState st = Ok tt.

(** One accepted compare-and-swap. *)
Definition journal_step (current next : PublicationJournalState) : Prop :=
  journal_ok next ∧ validatePublicationJournalTransition current next = Ok tt.

Definition option_watermark_le (a b : option Watermark) : Prop :=
  match a, b with
  | None, _ => True
  | Some x, Some y => watermark_le x y
  | Some _, None => False
  end.

#[export] Instance option_watermark_le_preorder : PreOrder option_watermark_le.
Proof.
  split.
  - intros [w|]; simpl; [reflexivity|done].
  - intros [a|] [b|] [c|]; simpl; try done. intros. by etrans.
Qed.

Lemma committed_repository st w :
  journal_ok st → js_Committed st = Some w → wm_RepositoryID w = js_RepositoryID st.
Proof.
  unfold journal_ok, validatePublicationJournalState. intros Hv Hc. rewrite Hc in Hv. ok_inv.
  match goal with Hw : validatePublicationJournalWatermark _ _ = Ok _ |- _ =>
    by apply validateWatermark_ok in Hw as (-> & _) end.
Qed.

Lemma journal_step_monotone current next :
  journal_ok current → journal_step current next →
  js_RepositoryID next = js_RepositoryID current ∧ js_Channel next = js_Channel current ∧
  option_watermark_le (js_Committed current) (js_Committed next).
Proof.
  intros Hc [Hn Ht]. unfold validatePublicationJournalTransition in Ht. ok_inv. bool_prop.
  split_and!; [done|done|]. destruct (js_Committed current) as [c|] eqn:Ec; simpl; [|done].
  destruct (js_Committed next) as [n|] eqn:En; [|by ok_inv].
  ok_inv. bool_prop. rename Ht into Ht'.
  split_and!.
  - rewrite (committed_repository _ _ Hc Ec), (committed_repository _ _ Hn En). done.
  - done.
  - intros E. match goal with Hs : _ && _ = false |- _ => apply andb_false_iff in Hs as [Hs|Hs] end;
      bool_prop; congruence.
Qed.

(** The same publication: all of the intent but the observations it expects. *)
Definition same_intent (p q : PublicationIntent) : Prop :=
  pi_IntentID p = pi_IntentID q ∧ pi_Kind p = pi_Kind q ∧ pi_Base p = pi_Base q ∧
  pi_Next p = pi_Next q ∧ pi_Reference p = pi_Reference q.

#[export] Instance same_intent_equivalence : Equivalence same_intent.
Proof.
  unfold same_intent. split; [intros p; tauto|intros p q; intuition congruence|intros p q r; intuition congruence].
Qed.

Lemma equalWatermarkPointers_eq a b : equalWatermarkPointers a b = true → a = b.
Proof. destruct a, b; simpl; intros; bool_prop; congruence. Qed.

(** An update of a pending intent keeps it, or resolves it. *)
Lemma journal_step_pending current next p q :
  journal_step current next → js_Pending current = Some p → js_Pending next = Some q →
  same_intent p q ∧ js_Committed next = js_Committed current.
Proof.
  intros [_ Ht] Ep Eq. unfold validatePublicationJournalTransition in Ht. rewrite Ep, Eq in Ht.
  apply result_bind_ok in Ht as (? & _ & Ht). apply result_bind_ok in Ht as (? & _ & Ht).
  apply result_bind_ok in Ht as (? & _ & Ht). apply guard_err_ok in Ht.
  apply orb_false_iff in Ht as [Hc Hs]. apply negb_false_iff in Hc, Hs.
  apply equalWatermarkPointers_eq in Hc. simpl in Hs. bool_prop.
  unfold same_intent. split; [|done]. split_and!; try done. by apply equalWatermarkPointers_eq.
Qed.

(** ** Properties *)

(** The states of a journal, each the accepted update of the one before. *)
Inductive journal_history : list PublicationJournalState → Prop :=
| history_start st : journal_history [st]
| history_update st next l :
    journal_step st next → journal_history (next :: l) → journal_history (st :: next :: l).

(** C31: the journal never goes back and never swaps a pending publication.
    Along any sequence of accepted updates, from a valid state to the last, the
    state stays valid, the repository and channel stay what they are, the
    committed watermark never disappears, never decreases in generation, and at
    one generation never changes its commit.  A pending intent is still pending
    at the end, for the same publication (identifier, kind, base, target and
    reference bytes; only the expected observations may be refreshed) and over
    the same committed watermark, unless some update on the way resolved it. *)
Theorem journal_history_monotone st l st' :
  journal_ok st → journal_history (st :: l) → last (st :: l) = Some st' →
  journal_ok st' ∧ js_RepositoryID st' = js_RepositoryID st ∧ js_Channel st' = js_Channel st ∧
  option_watermark_le (js_Committed st) (js_Committed st') ∧
  ∀ p, js_Pending st = Some p →
    (∃ mid, mid ∈ l ∧ js_Pending mid = None) ∨
    (∃ q, js_Pending st' = Some q ∧ same_intent p q ∧ js_Committed st' = js_Committed st).
Proof.
  revert st. induction l as [|next l IH]; intros st Hok Hh Hl.
  - injection Hl as <-. split_and!; [done..|]. intros p Hp. right. by exists p.
  - inversion_clear Hh as [|? ? ? Hs Hr]. destruct (journal_step_monotone _ _ Hok Hs) as (E1 & E2 & Hle).
    destruct (IH next (proj1 Hs) Hr Hl) as (H1 & H2 & H3 & H4 & H5).
    split_and!; [done|congruence|congruence|by etrans|]. intros p Hp.
    destruct (js_Pending next) as [q|] eqn:Eq; [|left; exists next; split; [by left|done]].
    destruct (journal_step_pending _ _ _ _ Hs Hp Eq) as [Hpq Hc].
    destruct (H5 q eq_refl) as [(mid & Hm & En)|(q' & Eq' & Hq & Hc')].
    + left. exists mid. split; [by right|done].
    + right. exists q'. split_and!; [done|by etrans|congruence].
Qed.

(** *** Intent identifiers *)

Lemma enc_digest_inj a b : enc_digest a = enc_digest b → a = b.
Proof. intros [= E]. by apply hex_encode_inj. Qed.

Lemma enc_bytes_inj a b : enc_bytes a = enc_bytes b → a = b.
Proof.
  intros E. apply (f_equal dec_bytes) in E. rewrite !dec_bytes_ok in E. congruence.
Qed.

Lemma watermark_json_inj (a b : Watermark) : to_json a = to_json b → a = b.
Proof.
  destruct a as [r g c], b as [r' g' c']. simpl. intros E. injection E as E1 E2 E3.
  apply hex_encode_inj in E1, E3. subst. f_equal. lia.
Qed.

Lemma watermark_json_wf (w : Watermark) : json_wf (to_json w).
Proof. simpl. by split_and!; json_strings. Qed.

Lemma intent_identity_wf id channel kind base next reference :
  utf8_ok channel → utf8_ok kind →
  json_wf (intent_identity id channel kind base next reference).
Proof.
  intros Hc Hk. unfold intent_identity.
  fields_wf; [done|apply enc_digest_wf|done|done| |apply watermark_json_wf|apply enc_bytes_wf].
  intros w _. apply watermark_json_wf.
Qed.

Lemma field_at i (l k : list (bytes * json)) : l = k → snd <$> l !! i = snd <$> k !! i.
Proof. by intros ->. Qed.

Lemma intent_identity_inj id channel k k' b b' n n' r r' :
  intent_identity id channel k b n r = intent_identity id channel k' b' n' r' →
  k = k' ∧ b = b' ∧ n = n' ∧ r = r'.
Proof.
  unfold intent_identity. intros E. injection E as Ek E.
  assert (b = b' ∧ n = n' ∧ enc_bytes (if r ==? [] then None else Some r)
    = enc_bytes (if r' ==? [] then None else Some r')) as (-> & -> & Er).
  { destruct b as [b|], b' as [b'|]; cbn [opt_field app] in E; try discriminate E.
    - pose proof (field_at 0 _ _ E) as Eb. pose proof (field_at 1 _ _ E) as En.
      pose proof (field_at 2 _ _ E) as Er. cbn in Eb, En, Er.
      apply (inj Some), watermark_json_inj in Eb, En. by apply (inj Some) in Er; subst.
    - pose proof (field_at 0 _ _ E) as En. pose proof (field_at 1 _ _ E) as Er.
      apply (inj Some), watermark_json_inj in En. by apply (inj Some) in Er; subst. }
  split_and!; try done. apply enc_bytes_inj in Er.
  destruct (bool_decide_reflect (r = [])) as [->|], (bool_decide_reflect (r' = [])) as [->|];
    congruence.
Qed.

Lemma journal_ok_pending st p :
  journal_ok st → js_Pending st = Some p →
  validatePublicationJournalIntent (js_RepositoryID st) (js_Channel st) p = Ok tt ∧
  pi_Base p = js_Committed st ∧ utf8_ok (js_Channel st).
Proof.
  unfold journal_ok, validatePublicationJournalState. intros Hv Hp. rewrite Hp in Hv. ok_inv.
  match goal with Hc : validateChannel _ = Ok ?u |- _ => destruct u end.
  match goal with Hi : validatePublicationJournalIntent _ _ _ = Ok ?u |- _ => destruct u end.
  split_and!; [done| |by apply validateChannel_utf8].
  destruct (js_Committed st); ok_inv; by bool_prop.
Qed.

Lemma valid_kind_utf8 id channel p u :
  validatePublicationJournalIntent id channel p = Ok u → utf8_ok (pi_Kind p).
Proof.
  unfold validatePublicationJournalIntent. intros Hv. ok_inv. apply andb_false_iff in Hok as [E|E];
    bool_prop; by rewrite E.
Qed.

(** What an intent ID hashes. *)
Definition intentMessageOf (id : RepositoryID) (channel : bytes) (p : PublicationIntent) : bytes :=
  objectMessage (str "publication-intent")
    (print (intent_identity id channel (pi_Kind p) (pi_Base p) (pi_Next p) (pi_Reference p))).
Definition intentMessage (st : PublicationJournalState) (p : PublicationIntent) : bytes :=
  intentMessageOf (js_RepositoryID st) (js_Channel st) p.

(** Valid intents with one identifier are the same publication, or collide. *)
Lemma valid_intents_same id channel p p' :
  utf8_ok channel → validatePublicationJournalIntent id channel p = Ok tt →
  validatePublicationJournalIntent id channel p' = Ok tt → pi_IntentID p = pi_IntentID p' →
  same_intent p p' ∨ collide (intentMessageOf id channel p) (intentMessageOf id channel p').
Proof.
  intros Hc V1 V2 Ei.
  pose proof (valid_kind_utf8 _ _ _ _ V1) as K1. pose proof (valid_kind_utf8 _ _ _ _ V2) as K2.
  unfold validatePublicationJournalIntent, validatePublicationIntentID in V1, V2. ok_inv. bool_prop.
  unfold intentMessageOf, same_intent. pose proof Ei as Ei'.
  match goal with E1 : pi_IntentID p = publicationIntentID _ _ _ _ _ _,
    E2 : pi_IntentID p' = publicationIntentID _ _ _ _ _ _ |- _ => rewrite E1, E2 in Ei end.
  unfold publicationIntentID in Ei. apply digestObject_inj_data in Ei as [Ei|Hcol]; [|by right].
  apply print_inj in Ei; [|by apply intent_identity_wf..].
  apply intent_identity_inj in Ei as (Ek & Eb & En & Er). left. by split_and!.
Qed.

(** An intent ID names one operation.  If two valid journal states of one
    repository and channel have pending intents with the same ID, the intents
    have the same kind, base, target and reference bytes, whatever version of
    the remote reference each expects; otherwise their identities collide under
    SHA-256. *)
Theorem intent_id_binds (st st' : PublicationJournalState) (p p' : PublicationIntent) :
  journal_ok st → journal_ok st' →
  js_RepositoryID st = js_RepositoryID st' → js_Channel st = js_Channel st' →
  js_Pending st = Some p → js_Pending st' = Some p' → pi_IntentID p = pi_IntentID p' →
  equalPublicationIntentSemantics (js_Pending st) (js_Pending st') = true ∨
  collide (intentMessage st p) (intentMessage st' p').
Proof.
  intros H1 H2 Eid Ec Hp Hp' Ei. rewrite Hp, Hp'.
  destruct (journal_ok_pending _ _ H1 Hp) as (V1 & _ & U1).
  destruct (journal_ok_pending _ _ H2 Hp') as (V2 & _ & _).
  unfold intentMessage. rewrite <- Eid, <- Ec in *.
  destruct (valid_intents_same _ _ _ _ U1 V1 V2 Ei) as [(Ei' & Ek & Eb & En & Er)|Hc]; [|by right].
  left. simpl. rewrite Ei', Ek, Eb, En, Er, !bool_decide_true by done.
  unfold equalWatermarkPointers. destruct (pi_Base p'); [by rewrite bool_decide_true|done].
Qed.

(** *** The file *)

(** The Go types of a state: array sizes, integer ranges, text. *)
Definition journal_typed (st : PublicationJournalState) : Prop :=
  json_valid (publicationJournalFileFromState st Digest_zero).

Lemma stateFromFile_fromState st revision c :
  publicationJournalStateFromFile (with_checksum (publicationJournalFileFromState st revision) c) = st.
Proof.
  destruct st as [id channel committed [[i k b n v e r]|]]; simpl; [|done].
  unfold publicationJournalStateFromFile; simpl. do 3 f_equal. by case_bool_decide as E; subst.
Qed.

Lemma file_valid st revision c :
  journal_typed st → digest_wf revision → digest_wf c →
  json_valid (with_checksum (publicationJournalFileFromState st revision) c).
Proof. intros (Hf & _ & Hr & Hc & Hw & Hp & _) Hv Hcs. by split_and!. Qed.

(** The bytes of a state and revision read back, unless their SHA-256 checksum
    is the all-zero digest, which a reader takes for an absent one. *)
Definition reads_back (channel : bytes) (st : PublicationJournalState)
    (revision : PublicationJournalRevision) : Prop :=
  decodeJournal channel (encodeJournal st revision) = Ok (st, revision) ∨
  publicationJournalChecksum (publicationJournalFileFromState st revision) = Digest_zero.

Lemma decodeJournal_roundtrip channel st revision :
  journal_ok st → js_Channel st = channel → journal_typed st →
  digest_wf revision → Digest_IsZero revision = false →
  len (encodeJournal st revision) ≤ maxPublicationJournalBytes →
  reads_back channel st revision.
Proof.
  intros Hok Hch Ht Hv Hz Hl. unfold reads_back, encodeJournal in *.
  set (disk := publicationJournalFileFromState st revision) in *.
  set (c := publicationJournalChecksum disk) in *.
  destruct (Digest_IsZero c) eqn:Hcz.
  { right. unfold Digest_IsZero in Hcz. by bool_prop. }
  left. unfold decodeJournal.
  destruct (Z.ltb_spec maxPublicationJournalBytes (len (canonicalJSON (with_checksum disk c)))); [lia|].
  cbn [guard_err result_bind]. rewrite decode_encode;
    [|apply file_valid; [done|done|apply digestObject_wf]|etrans; [exact Hl|by vm_compute]].
  cbn [result_bind]. change (jf_Format (with_checksum disk c)) with publicationJournalFormatVersion.
  change (jf_Revision (with_checksum disk c)) with revision.
  change (jf_Checksum (with_checksum disk c)) with c.
  change (publicationJournalChecksum (with_checksum disk c)) with c.
  rewrite Hz, Hcz, !bool_decide_true by done. cbn [negb orb guard_err result_bind].
  unfold disk. rewrite stateFromFile_fromState. by rewrite Hok.
Qed.

(** What a disk currently says. *)
Definition journal_is (channel : bytes) (d : disk)
    (current : option (PublicationJournalState * PublicationJournalRevision)) : Prop :=
  match dk_visible d, current with
  | None, None => True
  | Some f, Some x => decodeJournal channel (f_data f) = Ok x
  | _, _ => False
  end.

Lemma Journal_loadLocked_spec inv channel d s Q :
  inv d → (∀ e, Q d s (Err e)) →
  (∀ current, journal_is channel d current → Q d s (Ok current)) →
  mrwp fs_step inv (Journal_loadLocked channel) s d Q.
Proof.
  intros Hi He HQ. unfold Journal_loadLocked.
  apply mrwp_bind, readStateFile_spec; [done|done|done| |].
  - intros Hv. apply mrwp_ret; [done|]. apply HQ. unfold journal_is. by rewrite Hv.
  - intros f u Hv Hc. unfold journalSizeCheck in Hc. ok_inv. bool_prop.
    rewrite firstn_all2 by (unfold len, maxPublicationJournalBytes in *; lia).
    apply mrwp_bind, mrwp_lift; [done|]. destruct (decodeJournal channel (f_data f)) eqn:Hd; [|done].
    apply mrwp_ret; [done|]. apply HQ. unfold journal_is. by rewrite Hv.
Qed.

Lemma newRevision_spec inv n forbidden d s (Q : disk → unit → result bytes → Prop) :
  inv d → (∀ e, Q d s (Err e)) →
  (∀ revision, digest_wf revision → Digest_IsZero revision = false → forbidden ≠ Some revision →
     Q d s (Ok revision)) →
  mrwp fs_step inv (newPublicationJournalRevision n forbidden) s d Q.
Proof.
  intros Hi He HQ. induction n as [|n IH]; simpl; [by apply mrwp_fail|].
  apply mrwp_bind, callr_keep; [done|done|]. intros [random|e] _; [|done].
  destruct (negb _ && negb _) eqn:E; [|done]. bool_prop. apply mrwp_ret; [done|].
  apply HQ; [apply fill_length|done|congruence].
Qed.

(** The bytes of the next state. *)
Definition journal_data (channel : bytes) (next : PublicationJournalState) (b : bytes) : Prop :=
  ∃ revision, b = encodeJournal next revision ∧ reads_back channel next revision.

(** C28: the journal update is atomic under crashes and durable.  At every
    moment of a CompareAndSwap, a machine crash leaves a file it could leave
    before or the complete bytes of the next state with some revision; if it
    returns a revision, the file held the expected revision, the transition from
    its state was an allowed one, the new revision is new, and any later crash
    leaves the bytes of the next state with that revision.  Those bytes read as
    that state and revision (unless their checksum is the all-zero digest). *)
Theorem journal_cas_crash_safe (channel : bytes) (expected : option PublicationJournalRevision)
    (next : PublicationJournalState) (d : disk) :
  disk_synced d → journal_typed next →
  mrwp fs_step
    (λ d', disk_synced d' ∧ ∀ c, crash_content d' c →
       crash_content d c ∨
       ∃ revision, c = Some (encodeJournal next revision) ∧ reads_back channel next revision)
    (Journal_CompareAndSwap channel expected next) tt d
    (λ d' _ r, ∀ revision, r = Ok revision →
       (∃ current, journal_is channel d current ∧ option_map snd current = expected ∧
          ∀ st v, current = Some (st, v) → journal_step st next) ∧
       expected ≠ Some revision ∧ journal_ok next ∧
       ∀ c, crash_content d' c →
         c = Some (encodeJournal next revision) ∧ reads_back channel next revision).
Proof.
  intros Hds Ht. pose proof Hds as [Hd Hs]. eapply (mrwp_weaken _ (entries (journal_data channel next) d)).
  { intros d' He. split; [by eapply entries_synced|]. intros c Hc.
    destruct (entries_crash _ _ _ _ He Hc) as [Hc'|(b & (rev & -> & Hr) & ->)]; [by left|right]. by exists rev. }
  pose proof (entries_refl (journal_data channel next) d Hd) as Hi.
  unfold Journal_CompareAndSwap. apply mrwp_bind, fcheck_keep; [done|done| |done].
  apply mrwp_bind, mrwp_lift; [done|]. destruct (validateChannel channel) as [[]|]; [|done].
  apply mrwp_bind, mrwp_guard; [done|done|intros Hch]. bool_prop.
  apply mrwp_bind, mrwp_lift; [done|].
  destruct (validatePublicationJournalState next) as [[]|] eqn:Hok; [|done].
  apply locked_spec; [done|done|].
  apply mrwp_bind, Journal_loadLocked_spec; [done|done|]. intros current Hcur.
  apply mrwp_bind, mrwp_guard; [done|done|intros Hexp]. bool_prop.
  apply mrwp_bind, mrwp_lift; [done|].
  destruct (match current with Some (state, _) => _ | None => Ok tt end) as [[]|] eqn:Htr; [|done].
  apply mrwp_bind, fcheck_keep; [done|done| |done].
  apply mrwp_bind, newRevision_spec; [done|done|]. intros rev Hv Hz Hnew.
  apply mrwp_bind, mrwp_guard; [done|done|intros Hlen]. bool_prop.
  pose proof (decodeJournal_roundtrip channel next rev Hok Hch Ht Hv Hz Hlen) as Hdec.
  assert (journal_data channel next (encodeJournal next rev)) as Hdata by by exists rev.
  apply mrwp_bind, install_entries; [done|done|done|]. intros t.
  apply mrwp_ret; [apply entries_single; eauto|].
  split; [|done]. intros r [= <-]. split_and!; [|congruence|done|].
  - exists current. split_and!; [done|done|]. intros st v ->. by split.
  - intros c Hc. eapply crash_of_synced in Hc; [|done|done]. by subst c.
Qed.

(** ** Example states *)

Definition toy_signed (channel : bytes) (w : Watermark) : bytes :=
  canonicalJSON (ed25519_envelope (H:=toy_ed25519) toy_signer channel
    {| sr_Format := 1; sr_Generation := wm_Generation w; sr_Commit := wm_Commit w |}).

Definition toy_intent : PublicationIntent :=
  let next := toy_watermark 1 in
  let reference := toy_signed (str "main") next in
  {| pi_IntentID := publicationIntentID (fixture_digest 1) (str "main") PublicationIntentPublish
                      None next reference;
     pi_Kind := PublicationIntentPublish; pi_Base := None; pi_Next := next;
     pi_ExpectedVersion := None; pi_ExpectedReference := Digest_zero; pi_Reference := reference |}.

Definition toy_journal (committed : option Watermark) (pending : option PublicationIntent)
    : PublicationJournalState :=
  {| js_RepositoryID := fixture_digest 1; js_Channel := str "main"; js_Committed := committed;
     js_Pending := pending |}.

(** The pending intent with a later observation of the reference. *)
Definition toy_observed : PublicationIntent :=
  {| pi_IntentID := pi_IntentID toy_intent; pi_Kind := pi_Kind toy_intent; pi_Base := pi_Base toy_intent;
     pi_Next := pi_Next toy_intent; pi_ExpectedVersion := None; pi_ExpectedReference := Digest_zero;
     pi_Reference := pi_Reference toy_intent |}.

Lemma journal_history_monotone_witness :
  let st := toy_journal None (Some toy_intent) in
  let st' := toy_journal (Some (toy_watermark 1)) None in
  journal_ok st' ∧ js_RepositoryID st' = js_RepositoryID st ∧ js_Channel st' = js_Channel st ∧
  option_watermark_le (js_Committed st) (js_Committed st').
Proof.
  intros st st'.
  destruct (journal_history_monotone st [toy_journal None (Some toy_observed); st'] st')
    as (H1 & H2 & H3 & H4 & _); [by vm_compute| |done|by split_and!].
  repeat constructor; by vm_compute.
Defined.

Lemma intent_id_binds_witness :
  let st := toy_journal None (Some toy_intent) in
  equalPublicationIntentSemantics (js_Pending st) (js_Pending st) = true ∨
  collide (intentMessage st toy_intent) (intentMessage st toy_intent).
Proof.
  intros st. apply (intent_id_binds st st toy_intent toy_intent); by vm_compute.
Defined.

Lemma toy_journal_typed : journal_typed (toy_journal None (Some toy_intent)).
Proof.
  split; [done|]. split; [done|]. split; [done|]. split; [by vm_compute|].
  split; [intros w Hw; discriminate Hw|]. split; [|done].
  intros p Hp. apply (inj Some) in Hp. subst p.
  split; [apply digestObject_wf|]. split; [by vm_compute|].
  split; [intros w Hw; discriminate Hw|]. split; [|split; [intros w Hw; discriminate Hw|done]].
  repeat split; by vm_compute.
Qed.

Lemma journal_cas_crash_safe_witness :
  let next := toy_journal None (Some toy_intent) in
  mrwp fs_step
    (λ d', disk_synced d' ∧ ∀ c, crash_content d' c →
       crash_content empty_disk c ∨
       ∃ revision, c = Some (encodeJournal next revision) ∧ reads_back (str "main") next revision)
    (Journal_CompareAndSwap (str "main") None next) tt empty_disk
    (λ d' _ r, ∀ revision, r = Ok revision →
       (∃ current, journal_is (str "main") empty_disk current ∧ option_map snd current = None ∧
          ∀ st v, current = Some (st, v) → journal_step st next) ∧
       None ≠ Some revision ∧ journal_ok next ∧
       ∀ c, crash_content d' c →
         c = Some (encodeJournal next revision) ∧ reads_back (str "main") next revision).
Proof.
  intros next. apply (journal_cas_crash_safe (str "main") None next empty_disk);
    [exact empty_disk_synced|exact toy_journal_typed].
Defined.

Example journal_save_load :
  (run fs_run ((Journal_CompareAndSwap (str "main") None (toy_journal None (Some toy_intent)) ;;;
                Journal_Load (str "main")) tt) empty_disk).2
  = (tt, Ok (Some (toy_journal None (Some toy_intent), replicate 32 x09))).
Proof. by vm_compute. Qed.
