(* ===== verification/MetadataCache.v ===== *)
(** * The cache of decoded manifests ([metadata_cache.go])

    One least-recently-used cache with two independent limits.  The model keeps
    the map from keys to list elements and the list itself, as the code does;
    the specification is the list alone, cut to the longest prefix that fits. *)

From S2P Require Import Prelude.
From S2P Require Import GoStd.
From S2P Require Import Encoding.
From S2P Require Import Json.
From S2P Require Import Model.
From S2P Require Import Effects.

Definition defaultMetadataCacheEntries : Z := 4096.
Definition defaultMetadataCacheBytes : Z := Z.shiftl 64 20.
Definition maxMetadataCacheBytes : Z := Z.shiftl 1 30.
Definition metadataCacheEntryOverheadBytes : Z := 512.
Definition maxEstimatedRetainedBytes : Z := int64_max.

#[export] Instance metadataCacheKey_countable : Countable metadataCacheKey.
Proof.
  refine (inj_countable' (λ k, (mk_kind k, mk_digest k)) (λ p, {| mk_kind := p.1; mk_digest := p.2 |}) _).
  by intros [].
Defined.

Record metadataCacheEntry := {
  ce_key : metadataCacheKey;
  ce_value : metadataValue;
  ce_retainedBytes : Z;
}.

(** [items] maps a key to its list element; an element is its entry, since the
    keys in the list differ.  [order] has the front first. *)
Record metadataCache := {
  mc_maxEntries : Z;
  mc_maxBytes : Z;
  mc_retainedBytes : Z;
  mc_items : gmap metadataCacheKey metadataCacheEntry;
  mc_order : list metadataCacheEntry;
}.

Definition newMetadataCache (maxEntries maxBytes : Z) : metadataCache :=
  {| mc_maxEntries := maxEntries; mc_maxBytes := maxBytes; mc_retainedBytes := 0; mc_items := ∅;
     mc_order := [] |}.

(** [order.Remove]: the element with the entry's key. *)
Definition without (key : metadataCacheKey) (order : list metadataCacheEntry) : list metadataCacheEntry :=
  filter (λ e, ce_key e ≠ key) order.

Definition MoveToFront (e : metadataCacheEntry) (cache : metadataCache) : metadataCache :=
  {| mc_maxEntries := mc_maxEntries cache; mc_maxBytes := mc_maxBytes cache;
     mc_retainedBytes := mc_retainedBytes cache; mc_items := mc_items cache;
     mc_order := e :: without (ce_key e) (mc_order cache) |}.

Definition MetadataCache_Get (cache : metadataCache) (key : metadataCacheKey)
    : metadataCache * option metadataValue :=
  match mc_items cache !! key with
  | None => (cache, None)
  | Some element => (MoveToFront element cache, Some (ce_value element))
  end.

Definition removeOldest (cache : metadataCache) : metadataCache :=
  match last (mc_order cache) with
  | None => cache
  | Some entry =>
      {| mc_maxEntries := mc_maxEntries cache; mc_maxBytes := mc_maxBytes cache;
         mc_retainedBytes := int64_wrap (mc_retainedBytes cache - ce_retainedBytes entry);
         mc_items := delete (ce_key entry) (mc_items cache);
         mc_order := without (ce_key entry) (mc_order cache) |}
  end.

(** The loop of Put; [fuel] bounds the number of removals. *)
Fixpoint removeExcess (fuel : nat) (cache : metadataCache) : metadataCache :=
  match fuel with
  | O => cache
  | S fuel =>
      if (mc_maxEntries cache <? len (mc_order cache)) || (mc_maxBytes cache <? mc_retainedBytes cache)
      then removeExcess fuel (removeOldest cache) else cache
  end.

Definition MetadataCache_Put (cache : metadataCache) (key : metadataCacheKey) (value : metadataValue)
    (retainedBytes : Z) : metadataCache * metadataValue :=
  match mc_items cache !! key with
  | Some existing => (MoveToFront existing cache, ce_value existing)
  | None =>
      let retainedBytes := if retainedBytes <? metadataCacheEntryOverheadBytes
                           then metadataCacheEntryOverheadBytes else retainedBytes in
      if (mc_maxEntries cache <=? 0) || (mc_maxBytes cache <=? 0) || (mc_maxBytes cache <? retainedBytes)
      then (cache, value)
      else
        let entry := {| ce_key := key; ce_value := value; ce_retainedBytes := retainedBytes |} in
        let cache := {| mc_maxEntries := mc_maxEntries cache; mc_maxBytes := mc_maxBytes cache;
                        mc_retainedBytes := int64_wrap (mc_retainedBytes cache + retainedBytes);
                        mc_items := <[key := entry]> (mc_items cache);
                        mc_order := entry :: mc_order cache |} in
        (removeExcess (length (mc_order cache)) cache, value)
  end.

Definition MetadataCache_Clear (cache : metadataCache) : metadataCache :=
  {| mc_maxEntries := mc_maxEntries cache; mc_maxBytes := mc_maxBytes cache; mc_retainedBytes := 0;
     mc_items := ∅; mc_order := [] |}.

Definition MetadataCache_Len (cache : metadataCache) : Z := len (mc_order cache).
Definition MetadataCache_RetainedBytes (cache : metadataCache) : Z := mc_retainedBytes cache.

(** ** Estimates

    The sizes of Go's structs and the capacities of slices are the runtime's;
    they are parameters. *)

Definition addEstimatedBytes (left right : Z) : Z :=
  if (left <? 0) || (right <? 0) || (maxEstimatedRetainedBytes - right <? left)
  then maxEstimatedRetainedBytes else int64_wrap (left + right).

Definition multiplyEstimatedBytes (left right : Z) : Z :=
  if (left <? 0) || (right <? 0) || (negb (left =? 0) && (Z.quot maxEstimatedRetainedBytes left <? right))
  then maxEstimatedRetainedBytes else int64_wrap (left * right).

Definition conservativeMetadataEstimate (logical : Z) : Z :=
  addEstimatedBytes (multiplyEstimatedBytes logical 2) metadataCacheEntryOverheadBytes.

Section Estimates.
Variables sizeofDirManifest sizeofDirEntry sizeofFileManifest sizeofChunkRef sizeofSymlinkManifest : Z.
Variables (capEntries : dirManifest → Z) (capChunks : fileManifest → Z) (capBytes : option bytes → Z).

Definition estimateDirectoryRetainedBytes (manifest : dirManifest) : Z :=
  let logical := addEstimatedBytes sizeofDirManifest
                   (multiplyEstimatedBytes (capEntries manifest) sizeofDirEntry) in
  let logical := fold_left (λ logical entry,
      addEstimatedBytes (addEstimatedBytes logical (capBytes (de_Name entry))) (len (de_Type entry)))
    (els (dm_Entries manifest)) logical in
  conservativeMetadataEstimate logical.

Definition estimateFileRetainedBytes (manifest : fileManifest) : Z :=
  let logical := addEstimatedBytes sizeofFileManifest (len (fm_Algorithm manifest)) in
  let logical := addEstimatedBytes logical (multiplyEstimatedBytes (capChunks manifest) sizeofChunkRef) in
  conservativeMetadataEstimate logical.

Definition estimateSymlinkRetainedBytes (manifest : symlinkManifest) : Z :=
  conservativeMetadataEstimate (addEstimatedBytes sizeofSymlinkManifest (capBytes (sm_Target manifest))).
End Estimates.

Lemma addEstimatedBytes_saturates a b :
  0 ≤ a ≤ int64_max → 0 ≤ b ≤ int64_max → addEstimatedBytes a b = a + b `min` (int64_max - a).
Proof.
  intros Ha Hb. unfold addEstimatedBytes, maxEstimatedRetainedBytes.
  destruct ((a <? 0) || (b <? 0) || (int64_max - b <? a)) eqn:E; [bool_prop; lia|]. bool_prop.
  rewrite int64_wrap_id; unfold int64_min, int64_max in *; lia.
Qed.

(** ** The specification: a list, most recently used first *)

Section LRU.
Variables maxEntries maxBytes : Z.

Definition find_key (key : metadataCacheKey) (l : list metadataCacheEntry) : option metadataCacheEntry :=
  head (filter (λ e, ce_key e = key) l).

(** The longest prefix within both limits. *)
Fixpoint fitting (entries bytes : Z) (l : list metadataCacheEntry) : list metadataCacheEntry :=
  match l with
  | [] => []
  | e :: l => if (entries <=? 0) || (bytes <? ce_retainedBytes e) then []
              else e :: fitting (entries - 1) (bytes - ce_retainedBytes e) l
  end.

Definition lru_get (key : metadataCacheKey) (l : list metadataCacheEntry)
    : list metadataCacheEntry * option metadataValue :=
  match find_key key l with
  | Some e => (e :: without key l, Some (ce_value e))
  | None => (l, None)
  end.

Definition lru_put (key : metadataCacheKey) (value : metadataValue) (size : Z) (l : list metadataCacheEntry)
    : list metadataCacheEntry * metadataValue :=
  match find_key key l with
  | Some e => (e :: without key l, ce_value e)
  | None =>
      let e := {| ce_key := key; ce_value := value;
                  ce_retainedBytes := metadataCacheEntryOverheadBytes `max` size |} in
      if fitting maxEntries maxBytes [e] is [] then (l, value) else (fitting maxEntries maxBytes (e :: l), value)
  end.
End LRU.

Definition retained (l : list metadataCacheEntry) : Z := foldr (λ e n, ce_retainedBytes e + n) 0 l.

(** ** Histories of operations *)

Inductive cache_op :=
| CGet (key : metadataCacheKey)
| CPut (key : metadataCacheKey) (value : metadataValue) (retainedBytes : Z)
| CClear.

(** What an operation answers; [CClear] answers nothing. *)
Definition cache_step (cache : metadataCache) (op : cache_op) : metadataCache * option metadataValue :=
  match op with
  | CGet key => MetadataCache_Get cache key
  | CPut key value n => let '(cache, v) := MetadataCache_Put cache key value n in (cache, Some v)
  | CClear => (MetadataCache_Clear cache, None)
  end.

Definition lru_step (maxEntries maxBytes : Z) (l : list metadataCacheEntry) (op : cache_op)
    : list metadataCacheEntry * option metadataValue :=
  match op with
  | CGet key => lru_get key l
  | CPut key value n => let '(l, v) := lru_put maxEntries maxBytes key value n l in (l, Some v)
  | CClear => ([], None)
  end.

Fixpoint answers {S} (step : S → cache_op → S * option metadataValue) (s : S) (ops : list cache_op)
    : S * list (option metadataValue) :=
  match ops with
  | [] => (s, [])
  | op :: ops => let '(s, a) := step s op in let '(s, l) := answers step s ops in (s, a :: l)
  end.

(** ** The invariant *)

Record cache_ok (cache : metadataCache) : Prop := {
  co_keys : NoDup (ce_key <$> mc_order cache);
  co_items : ∀ key e, mc_items cache !! key = Some e ↔ e ∈ mc_order cache ∧ ce_key e = key;
  co_bytes : mc_retainedBytes cache = retained (mc_order cache);
  co_sizes : Forall (λ e, metadataCacheEntryOverheadBytes ≤ ce_retainedBytes e ≤ mc_maxBytes cache) (mc_order cache);
  co_entries_limit : len (mc_order cache) ≤ 0 `max` mc_maxEntries cache;
  co_bytes_limit : retained (mc_order cache) ≤ 0 `max` mc_maxBytes cache;
  co_config : mc_maxBytes cache ≤ maxMetadataCacheBytes;
}.

Lemma find_key_some key l e :
  NoDup (ce_key <$> l) → find_key key l = Some e ↔ e ∈ l ∧ ce_key e = key.
Proof.
  unfold find_key. induction l as [|x l IH]; simpl; intros Hnd.
  { split; [done|]. by intros [?%elem_of_nil _]. }
  apply NoDup_cons in Hnd as [Hx Hnd]. rewrite filter_cons. destruct (decide (ce_key x = key)) as [E|Hne]; simpl.
  - split; [intros [= <-]; by split; [left|]|]. intros [[->|He]%elem_of_cons Hk]; [done|].
    destruct Hx. rewrite E, <- Hk. by apply list_elem_of_fmap_2.
  - rewrite IH by done. rewrite elem_of_cons. naive_solver.
Qed.

Lemma without_elem key l e : e ∈ without key l ↔ ce_key e ≠ key ∧ e ∈ l.
Proof. unfold without. by rewrite list_elem_of_filter. Qed.

Lemma without_keys key l :
  NoDup (ce_key <$> l) → NoDup (ce_key <$> without key l) ∧ key ∉ ce_key <$> without key l.
Proof.
  intros Hnd. split.
  - eapply sublist_NoDup; [exact Hnd|]. apply fmap_sublist, sublist_filter.
  - intros (e & -> & He)%list_elem_of_fmap. by apply without_elem in He as [? _].
Qed.

Lemma without_id key l : key ∉ ce_key <$> l → without key l = l.
Proof.
  induction l as [|x l IH]; [done|]. rewrite fmap_cons, not_elem_of_cons. intros [Hx Hl].
  unfold without in *. rewrite filter_cons, decide_True by congruence. by rewrite IH.
Qed.

Lemma without_perm l e :
  NoDup (ce_key <$> l) → e ∈ l → l ≡ₚ e :: without (ce_key e) l.
Proof.
  induction l as [|x l IH]; intros Hnd He; [by apply elem_of_nil in He|].
  apply NoDup_cons in Hnd as [Hx Hnd]. unfold without. rewrite filter_cons.
  apply elem_of_cons in He as [->|He].
  - rewrite decide_False by naive_solver. fold (without (ce_key x) l). by rewrite without_id.
  - rewrite decide_True; [by rewrite (IH Hnd He) at 1; apply Permutation_swap|].
    intros E. apply Hx. rewrite E. by apply list_elem_of_fmap_2.
Qed.

Lemma retained_perm l l' : l ≡ₚ l' → retained l = retained l'.
Proof. induction 1; simpl; lia. Qed.

Lemma retained_app l l' : retained (l ++ l') = retained l + retained l'.
Proof. induction l; simpl; lia. Qed.

Lemma sizes_retained m l :
  Forall (λ e, metadataCacheEntryOverheadBytes ≤ ce_retainedBytes e ≤ m) l →
  0 ≤ retained l ∧ Forall (λ e, 0 < ce_retainedBytes e) l.
Proof.
  unfold metadataCacheEntryOverheadBytes. induction 1 as [|e l He _ [IH IH']]; simpl; [by split; [lia|constructor]|].
  split; [lia|constructor; [lia|done]].
Qed.

(** The map agrees with the list. *)
Lemma co_lookup cache key : cache_ok cache → mc_items cache !! key = find_key key (mc_order cache).
Proof.
  intros Hc. apply option_eq. intros e. rewrite (co_items _ Hc). symmetry.
  apply find_key_some, (co_keys _ Hc).
Qed.

Lemma MoveToFront_ok cache e :
  cache_ok cache → e ∈ mc_order cache → cache_ok (MoveToFront e cache).
Proof.
  intros [Hk Hi Hb Hs Hn Hr Hm] He. pose proof (without_perm _ _ Hk He) as Hp.
  rewrite (retained_perm _ _ Hp) in Hr. unfold len in Hn. rewrite Hp in Hk, Hs, Hn.
  constructor; simpl; try done.
  - intros key x. by rewrite Hi, Hp at 1.
  - by rewrite Hb, (retained_perm _ _ Hp).
Qed.

(** ** The limits *)

Lemma fitting_all e b l :
  Forall (λ x, 0 < ce_retainedBytes x) l → len l ≤ e → retained l ≤ b → fitting e b l = l.
Proof.
  intros Hp. revert e b. induction Hp as [|x l Hx Hp IH]; intros e b Hl Hr; simpl; [done|].
  assert (0 ≤ retained l) by (clear -Hp; induction Hp; simpl; lia).
  unfold len in Hl. simpl in *. rewrite (proj2 (Z.leb_gt e 0)), (proj2 (Z.ltb_ge b _)) by lia. simpl.
  f_equal. apply IH; unfold len; lia.
Qed.

Lemma fitting_snoc e b l x :
  e < len (l ++ [x]) ∨ b < retained (l ++ [x]) → fitting e b (l ++ [x]) = fitting e b l.
Proof.
  revert e b. induction l as [|y l IH]; intros e b Ho; simpl in *.
  - destruct ((e <=? 0) || (b <? ce_retainedBytes x)) eqn:E; [done|]. bool_prop. unfold len in Ho. simpl in Ho. lia.
  - destruct ((e <=? 0) || (b <? ce_retainedBytes y)); [done|]. f_equal. apply IH.
    unfold len in *. simpl in Ho. lia.
Qed.

Lemma fitting_bounds e b l :
  Forall (λ x, 0 < ce_retainedBytes x) l →
  len (fitting e b l) ≤ 0 `max` e ∧ retained (fitting e b l) ≤ 0 `max` b.
Proof.
  intros Hp. revert e b. induction Hp as [|x l Hx Hp IH]; intros e b; simpl; [unfold len; simpl; lia|].
  destruct ((e <=? 0) || (b <? ce_retainedBytes x)) eqn:E; bool_prop; [unfold len; simpl; lia|].
  destruct (IH (e - 1) (b - ce_retainedBytes x)) as [IH1 IH2]. unfold len in *. simpl. lia.
Qed.

(** A cache whose list and map agree, limits apart. *)
Record cache_shape (cache : metadataCache) : Prop := {
  cs_keys : NoDup (ce_key <$> mc_order cache);
  cs_items : ∀ key e, mc_items cache !! key = Some e ↔ e ∈ mc_order cache ∧ ce_key e = key;
  cs_bytes : mc_retainedBytes cache = retained (mc_order cache);
  cs_sizes : Forall (λ e, metadataCacheEntryOverheadBytes ≤ ce_retainedBytes e ≤ mc_maxBytes cache) (mc_order cache);
  cs_total : retained (mc_order cache) ≤ int64_max;
}.

Lemma removeOldest_shape cache l x :
  cache_shape cache → mc_order cache = l ++ [x] →
  cache_shape (removeOldest cache) ∧ mc_order (removeOldest cache) = l.
Proof.
  intros [Hk Hi Hb Hs Ht] E. rewrite E in *. rewrite fmap_app in Hk. apply NoDup_app in Hk as (Hk & Hx & _).
  assert (ce_key x ∉ ce_key <$> l) as Hnx by (intros Hin; eapply Hx; [exact Hin|by left]).
  assert (without (ce_key x) (l ++ [x]) = l) as Hw.
  { unfold without. rewrite filter_app, filter_cons, decide_False by naive_solver. simpl.
    rewrite app_nil_r. by apply without_id. }
  apply Forall_app in Hs as [Hs Hsx]. pose proof (sizes_retained _ _ Hs) as [Hr0 _].
  rewrite Forall_singleton in Hsx. rewrite retained_app in Ht, Hb. simpl in Ht, Hb.
  unfold removeOldest. rewrite E, last_snoc, Hw. split; [|done]. constructor; simpl; [done| | |done|].
  - intros key e. rewrite lookup_delete_Some, Hi, elem_of_app, list_elem_of_singleton. split.
    + naive_solver.
    + intros [He <-]. split_and!; [|by left|done]. intros Hkx. apply Hnx. rewrite Hkx.
      by apply list_elem_of_fmap_2.
  - rewrite int64_wrap_id; unfold metadataCacheEntryOverheadBytes, int64_min, int64_max in *; lia.
  - unfold metadataCacheEntryOverheadBytes in *. lia.
Qed.

Lemma removeExcess_fits fuel cache :
  cache_shape cache → length (mc_order cache) = fuel →
  cache_shape (removeExcess fuel cache) ∧ mc_maxEntries (removeExcess fuel cache) = mc_maxEntries cache ∧
  mc_maxBytes (removeExcess fuel cache) = mc_maxBytes cache ∧
  mc_order (removeExcess fuel cache) = fitting (mc_maxEntries cache) (mc_maxBytes cache) (mc_order cache).
Proof.
  revert cache. induction fuel as [|fuel IH]; intros cache Hc Hlen; simpl.
  { apply length_zero_iff_nil in Hlen. by rewrite Hlen. }
  destruct (mc_order cache) as [|y l' _] eqn:E using rev_ind; [done|].
  destruct (removeOldest_shape _ _ _ Hc E) as [Hc' E'].
  rewrite (cs_bytes _ Hc), E. case_match eqn:Hover.
  - destruct (IH (removeOldest cache)) as (IH1 & IH2 & IH3 & IH4); [done| |].
    { rewrite E'. rewrite length_app in Hlen. simpl in Hlen. lia. }
    assert (mc_maxEntries (removeOldest cache) = mc_maxEntries cache ∧
            mc_maxBytes (removeOldest cache) = mc_maxBytes cache) as [M1 M2].
    { unfold removeOldest. by rewrite E, last_snoc. }
    split_and!; [done|by rewrite IH2|by rewrite IH3|]. rewrite IH4, M1, M2, E'. symmetry.
    apply fitting_snoc. bool_prop. lia.
  - split_and!; [done|done|done|]. rewrite E. symmetry. bool_prop.
    apply fitting_all; [|lia|lia]. pose proof (cs_sizes _ Hc) as Hs. rewrite E in Hs.
    by apply sizes_retained in Hs as [_ ?].
Qed.

(** ** Refinement *)

Definition refines (maxEntries maxBytes : Z) (cache : metadataCache) (l : list metadataCacheEntry) : Prop :=
  cache_ok cache ∧ mc_order cache = l ∧ mc_maxEntries cache = maxEntries ∧ mc_maxBytes cache = maxBytes.

Lemma Get_refines me mb cache l key :
  refines me mb cache l →
  let '(cache', a) := MetadataCache_Get cache key in
  let '(l', b) := lru_get key l in refines me mb cache' l' ∧ a = b.
Proof.
  intros (Hc & <- & <- & <-). unfold MetadataCache_Get, lru_get. rewrite co_lookup by done.
  destruct (find_key key (mc_order cache)) as [e|] eqn:E; [|done].
  apply find_key_some in E as [He <-]; [|by apply co_keys]. split; [|done].
  split_and!; [by apply MoveToFront_ok|done|done|done].
Qed.

Lemma add_shape cache entry :
  cache_ok cache → ce_key entry ∉ ce_key <$> mc_order cache →
  metadataCacheEntryOverheadBytes ≤ ce_retainedBytes entry ≤ mc_maxBytes cache →
  cache_shape
    {| mc_maxEntries := mc_maxEntries cache; mc_maxBytes := mc_maxBytes cache;
       mc_retainedBytes := int64_wrap (mc_retainedBytes cache + ce_retainedBytes entry);
       mc_items := <[ce_key entry := entry]> (mc_items cache); mc_order := entry :: mc_order cache |}.
Proof.
  intros [Hk Hi Hb Hs Hn Hr Hm] Hnew Hsize. pose proof (sizes_retained _ _ Hs) as [Hr0 _].
  assert (ce_retainedBytes entry + retained (mc_order cache) ≤ int64_max).
  { change maxMetadataCacheBytes with 1073741824 in Hm. unfold metadataCacheEntryOverheadBytes, int64_max in *. lia. }
  constructor; simpl; [by constructor| | |by constructor|done].
  - intros key e. rewrite lookup_insert_Some, Hi, elem_of_cons. split; [naive_solver|].
    intros [[->|He] <-]; [by left|]. right. split_and!; [|done|done]. intros E. apply Hnew. rewrite E.
    by apply list_elem_of_fmap_2.
  - rewrite Hb, int64_wrap_id; unfold metadataCacheEntryOverheadBytes, int64_min, int64_max in *; lia.
Qed.

(** A new entry in front, then the oldest ones out. *)
Lemma add_fits cache entry :
  cache_ok cache → ce_key entry ∉ ce_key <$> mc_order cache →
  metadataCacheEntryOverheadBytes ≤ ce_retainedBytes entry →
  ce_retainedBytes entry ≤ mc_maxBytes cache →
  refines (mc_maxEntries cache) (mc_maxBytes cache)
    (removeExcess (length (entry :: mc_order cache))
      {| mc_maxEntries := mc_maxEntries cache; mc_maxBytes := mc_maxBytes cache;
         mc_retainedBytes := int64_wrap (mc_retainedBytes cache + ce_retainedBytes entry);
         mc_items := <[ce_key entry := entry]> (mc_items cache); mc_order := entry :: mc_order cache |})
    (fitting (mc_maxEntries cache) (mc_maxBytes cache) (entry :: mc_order cache)).
Proof.
  intros Hc Hnew Hlo Hhi. pose proof (add_shape cache entry Hc Hnew (conj Hlo Hhi)) as Hsh.
  pose proof (sizes_retained _ _ (cs_sizes _ Hsh)) as [_ Hpos]. simpl in Hpos.
  pose proof (fitting_bounds (mc_maxEntries cache) (mc_maxBytes cache) _ Hpos) as [Hb1 Hb2].
  destruct (removeExcess_fits _ _ Hsh eq_refl) as ([Hk Hi Hb Hs _] & M1 & M2 & Ho).
  cbn [mc_maxEntries mc_maxBytes mc_order] in *.
  split_and!; [|done|done|done]. rewrite <- Ho in Hb1, Hb2. constructor; try done.
  - by rewrite M1.
  - by rewrite M2.
  - rewrite M2. apply (co_config _ Hc).
Qed.

Lemma Put_refines me mb cache l key value n :
  refines me mb cache l →
  let '(cache', a) := MetadataCache_Put cache key value n in
  let '(l', b) := lru_put me mb key value n l in refines me mb cache' l' ∧ a = b.
Proof.
  intros (Hc & <- & <- & <-). unfold MetadataCache_Put, lru_put. rewrite co_lookup by done.
  destruct (find_key key (mc_order cache)) as [e|] eqn:E.
  { apply find_key_some in E as [He <-]; [|by apply co_keys]. split; [|done].
    split_and!; [by apply MoveToFront_ok|done|done|done]. }
  set (r := if n <? metadataCacheEntryOverheadBytes then _ else _).
  assert (r = metadataCacheEntryOverheadBytes `max` n) as <- by
    (subst r; destruct (Z.ltb_spec n metadataCacheEntryOverheadBytes); lia).
  assert (metadataCacheEntryOverheadBytes ≤ r) as Hr by
    (subst r; destruct (Z.ltb_spec n metadataCacheEntryOverheadBytes); lia).
  assert ((mc_maxEntries cache <=? 0) || (mc_maxBytes cache <=? 0) || (mc_maxBytes cache <? r) =
          (mc_maxEntries cache <=? 0) || (mc_maxBytes cache <? r)) as ->.
  { destruct (mc_maxEntries cache <=? 0), (Z.leb_spec (mc_maxBytes cache) 0), (Z.ltb_spec (mc_maxBytes cache) r);
      try done. unfold metadataCacheEntryOverheadBytes in *. lia. }
  set (entry := {| ce_key := key; ce_value := value; ce_retainedBytes := r |}).
  assert (fitting (mc_maxEntries cache) (mc_maxBytes cache) [entry] =
    if (mc_maxEntries cache <=? 0) || (mc_maxBytes cache <? r) then [] else [entry]) as -> by done.
  destruct ((mc_maxEntries cache <=? 0) || (mc_maxBytes cache <? r)) eqn:Hg; [done|].
  split; [|done]. apply (add_fits cache entry); [done| |done|by bool_prop].
  intros Hin. apply list_elem_of_fmap in Hin as (e & Hk & He). simpl in Hk.
  pose proof (proj2 (find_key_some key _ e (co_keys _ Hc)) (conj He (eq_sym Hk))). congruence.
Qed.

Lemma new_refines me mb :
  mb ≤ maxMetadataCacheBytes → refines me mb (newMetadataCache me mb) [].
Proof.
  intros Hmb. split_and!; [|done|done|done].
  constructor; simpl; [apply NoDup_nil_2| |done|apply Forall_nil_2|unfold len; simpl; lia|lia|done].
  intros key e. rewrite lookup_empty. split; [done|]. by intros [?%elem_of_nil _].
Qed.

Lemma step_refines me mb cache l op :
  refines me mb cache l →
  let '(cache', a) := cache_step cache op in
  let '(l', b) := lru_step me mb l op in refines me mb cache' l' ∧ a = b.
Proof.
  intros Hr. destruct op as [key|key value n|]; simpl.
  - by apply Get_refines.
  - pose proof (Put_refines me mb cache l key value n Hr) as Hp.
    destruct (MetadataCache_Put cache key value n) as [cache' a], (lru_put me mb key value n l) as [l' b].
    destruct Hp as [? ->]. done.
  - destruct Hr as (Hc & _ & <- & <-). split; [|done]. apply new_refines, (co_config _ Hc).
Qed.

Lemma answers_refine me mb cache l ops :
  refines me mb cache l →
  let '(cache', a) := answers cache_step cache ops in
  let '(l', b) := answers (lru_step me mb) l ops in refines me mb cache' l' ∧ a = b.
Proof.
  revert cache l. induction ops as [|op ops IH]; intros cache l Hr; simpl; [done|].
  pose proof (step_refines me mb cache l op Hr) as Hs.
  destruct (cache_step cache op) as [cache1 a], (lru_step me mb l op) as [l1 b]. destruct Hs as [Hr1 ->].
  specialize (IH _ _ Hr1). destruct (answers cache_step cache1 ops), (answers (lru_step me mb) l1 ops).
  by destruct IH as [? ->].
Qed.

(** ** Coherence *)

Definition puts_ok (P : metadataCacheKey → metadataValue → Prop) (op : cache_op) : Prop :=
  match op with CPut key value _ => P key value | _ => True end.
Definition answer_ok (P : metadataCacheKey → metadataValue → Prop) (op : cache_op)
    (a : option metadataValue) : Prop :=
  match op with
  | CGet key => ∀ v, a = Some v → P key v
  | CPut key _ _ => ∃ v, a = Some v ∧ P key v
  | CClear => True
  end.

Definition entry_holds (P : metadataCacheKey → metadataValue → Prop) (e : metadataCacheEntry) : Prop :=
  P (ce_key e) (ce_value e).

Lemma find_key_elem key l e : find_key key l = Some e → e ∈ l ∧ ce_key e = key.
Proof.
  unfold find_key. intros Hf%head_Some_elem_of. by apply list_elem_of_filter in Hf as [? ?].
Qed.

Lemma Forall_without P key l : Forall (entry_holds P) l → Forall (entry_holds P) (without key l).
Proof.
  rewrite !Forall_forall. intros Hl e [_ He]%without_elem. by apply Hl.
Qed.

Lemma Forall_fitting P e b l : Forall (entry_holds P) l → Forall (entry_holds P) (fitting e b l).
Proof.
  intros Hf. revert e b. induction Hf as [|x l Hx Hf IH]; intros e b; simpl; [constructor|].
  destruct ((e <=? 0) || (b <? ce_retainedBytes x)); by constructor.
Qed.

Lemma lru_step_coherent P me mb l op :
  puts_ok P op → Forall (entry_holds P) l →
  let '(l', a) := lru_step me mb l op in Forall (entry_holds P) l' ∧ answer_ok P op a.
Proof.
  intros Hop Hl.
  assert (∀ key e, find_key key l = Some e → P key (ce_value e)) as Hfind.
  { intros key e [He <-]%find_key_elem. by eapply Forall_forall in Hl; [|exact He]. }
  assert (∀ key e, find_key key l = Some e → Forall (entry_holds P) (e :: without key l)) as Hmove.
  { intros key e Hf. constructor; [|by apply Forall_without].
    unfold entry_holds. destruct (find_key_elem _ _ _ Hf) as [_ ->]. by apply Hfind. }
  destruct op as [key|key value n|]; simpl in *.
  - unfold lru_get. destruct (find_key key l) as [e|] eqn:E; [|done].
    split; [by apply Hmove|]. intros v [= <-]. by apply Hfind.
  - unfold lru_put. destruct (find_key key l) as [e|] eqn:E; [by split; [apply Hmove|eauto]|].
    destruct (fitting me mb [_]); (split; [|by exists value]); [done|]. apply Forall_fitting. by constructor.
  - done.
Qed.

Lemma answers_coherent P me mb l ops :
  Forall (puts_ok P) ops → Forall (entry_holds P) l →
  Forall2 (answer_ok P) ops (answers (lru_step me mb) l ops).2.
Proof.
  intros Hops. revert l. induction Hops as [|op ops Hop Hops IH]; intros l Hl; simpl; [constructor|].
  pose proof (lru_step_coherent P me mb l op Hop Hl) as Hs.
  destruct (lru_step me mb l op) as [l1 a]. destruct Hs as [Hl1 Ha]. specialize (IH _ Hl1).
  destruct (answers (lru_step me mb) l1 ops). by constructor.
Qed.

(** C36: the metadata cache refines an LRU list.  For every sequence of Get, Put
    and Clear on a new cache (of a byte limit that the consumer accepts) the
    answers are those of the specification, a list cut to its longest prefix
    within both limits; the retained bytes the cache reports are those of its
    entries, and neither limit is ever exceeded; and whatever property P of key
    and value holds of everything put holds of everything returned under that
    key. *)
Theorem metadataCache_refines_lru (maxEntries maxBytes : Z) (ops : list cache_op)
    (P : metadataCacheKey → metadataValue → Prop) :
  maxBytes ≤ maxMetadataCacheBytes → Forall (puts_ok P) ops →
  let '(cache, out) := answers cache_step (newMetadataCache maxEntries maxBytes) ops in
  let '(l, spec) := answers (lru_step maxEntries maxBytes) [] ops in
  out = spec ∧ Forall2 (answer_ok P) ops out ∧
  MetadataCache_Len cache = len l ∧ MetadataCache_RetainedBytes cache = retained l ∧
  MetadataCache_Len cache ≤ 0 `max` maxEntries ∧ MetadataCache_RetainedBytes cache ≤ 0 `max` maxBytes.
Proof.
  intros Hmb Hops. pose proof (answers_refine maxEntries maxBytes _ _ ops (new_refines maxEntries maxBytes Hmb)) as Hr.
  pose proof (answers_coherent P maxEntries maxBytes [] ops Hops (Forall_nil_2 _)) as Hcoh.
  destruct (answers cache_step _ ops) as [cache out], (answers (lru_step maxEntries maxBytes) [] ops) as [l spec].
  destruct Hr as [([Hk Hi Hb Hs Hn Hrt Hm] & <- & <- & <-) ->].
  unfold MetadataCache_Len, MetadataCache_RetainedBytes. split_and!; try done. by rewrite Hb.
Qed.

(** Two of three entries of 600 bytes fit into 1500; the one used last stays. *)
Definition toy_meta_key (n : N) : metadataCacheKey :=
  {| mk_kind := str "symlink"; mk_digest := fixture_digest n |}.
Definition toy_meta_value (n : Z) : metadataValue := MV_symlink {| sm_Format := n; sm_Target := None |}.
Definition toy_meta_ops : list cache_op :=
  [CPut (toy_meta_key 1) (toy_meta_value 1) 600; CPut (toy_meta_key 2) (toy_meta_value 2) 600;
   CGet (toy_meta_key 1); CPut (toy_meta_key 3) (toy_meta_value 3) 600; CGet (toy_meta_key 2); CGet (toy_meta_key 1)].

Example toy_meta_run :
  answers cache_step (newMetadataCache 10 1500) toy_meta_ops =
  ((answers cache_step (newMetadataCache 10 1500) toy_meta_ops).1,
   [Some (toy_meta_value 1); Some (toy_meta_value 2); Some (toy_meta_value 1); Some (toy_meta_value 3); None;
    Some (toy_meta_value 1)]).
Proof. vm_compute. reflexivity. Qed.

Lemma metadataCache_refines_lru_witness :
  let '(cache, out) := answers cache_step (newMetadataCache 10 1500) toy_meta_ops in
  let '(l, spec) := answers (lru_step 10 1500) [] toy_meta_ops in
  out = spec ∧ Forall2 (answer_ok (λ _ _, True)) toy_meta_ops out ∧
  MetadataCache_Len cache = len l ∧ MetadataCache_RetainedBytes cache = retained l ∧
  MetadataCache_Len cache ≤ 0 `max` 10 ∧ MetadataCache_RetainedBytes cache ≤ 0 `max` 1500.
Proof.
  apply (metadataCache_refines_lru 10 1500 toy_meta_ops (λ _ _, True)); [by vm_compute|].
  repeat constructor.
Defined.
