(* ===== verification/Semaphore.v ===== *)
(** * The byte reservations of downloads ([internal/syncutil/weighted_semaphore.go])

    A first-in first-out weighted semaphore.  A call of Acquire is a process
    that may wait; the critical sections of Acquire, its cancellation and
    Release are the steps of a transition system over the semaphore, the waiter
    objects and the reservations that calls hold. *)

From S2P Require Import Prelude.

Record WeightedSemaphore := {
  ws_capacity : Z;
  ws_used : Z;
  ws_waiters : list N;
  ws_limitErr : error;
}.

(** A waiter object; it is queued while its identity is in the list, and
    [granted] is set when its channel is closed. *)
Record weightedSemaphoreWaiter := {
  wt_weight : Z;
  wt_granted : bool;
}.
Abbreviation waiters_heap := (gmap N weightedSemaphoreWaiter).

Definition NewWeightedSemaphore (capacity : Z) (limitErr : error) : WeightedSemaphore :=
  {| ws_capacity := capacity; ws_used := 0; ws_waiters := []; ws_limitErr := limitErr |}.

Definition set_used (sem : WeightedSemaphore) (used : Z) (waiters : list N) : WeightedSemaphore :=
  {| ws_capacity := ws_capacity sem; ws_used := used; ws_waiters := waiters; ws_limitErr := ws_limitErr sem |}.

(** The loop of grantLocked. *)
Fixpoint grantLoop (capacity used : Z) (waiters : list N) (heap : waiters_heap) : Z * list N * waiters_heap :=
  match waiters with
  | [] => (used, [], heap)
  | element :: rest =>
      match heap !! element with
      | None => (used, waiters, heap)
      | Some waiter =>
          if int64_wrap (capacity - used) <? wt_weight waiter then (used, waiters, heap)
          else grantLoop capacity (int64_wrap (used + wt_weight waiter)) rest
                 (<[element := {| wt_weight := wt_weight waiter; wt_granted := true |}]> heap)
      end
  end.

Definition grantLocked (sem : WeightedSemaphore) (heap : waiters_heap) : WeightedSemaphore * waiters_heap :=
  let '(used, waiters, heap) := grantLoop (ws_capacity sem) (ws_used sem) (ws_waiters sem) heap in
  (set_used sem used waiters, heap).

(** What Acquire does up to its select. *)
Inductive acquisition := AcquireFailed (err : error) | Acquired | AcquireWaits.

Definition Acquire (sem : WeightedSemaphore) (heap : waiters_heap) (waiter : N)
    (ctxErr lockedCtxErr : option error) (weight : Z)
    : WeightedSemaphore * waiters_heap * acquisition :=
  if weight <=? 0 then (sem, heap, AcquireFailed (ws_limitErr sem))
  else match ctxErr, lockedCtxErr with
  | Some err, _ => (sem, heap, AcquireFailed err)
  | None, Some err => (sem, heap, AcquireFailed err)
  | None, None =>
      if ws_capacity sem <? weight then (sem, heap, AcquireFailed (ws_limitErr sem))
      else if (len (ws_waiters sem) =? 0) && (weight <=? int64_wrap (ws_capacity sem - ws_used sem))
      then (set_used sem (int64_wrap (ws_used sem + weight)) (ws_waiters sem), heap, Acquired)
      else (set_used sem (ws_used sem) (ws_waiters sem ++ [waiter]),
            <[waiter := {| wt_weight := weight; wt_granted := false |}]> heap, AcquireWaits)
  end.

(** The select of Acquire when the context ends first. *)
Definition cancelAcquire (sem : WeightedSemaphore) (heap : waiters_heap) (id : N)
    (waiter : weightedSemaphoreWaiter) : WeightedSemaphore * waiters_heap :=
  let sem := if wt_granted waiter
             then set_used sem (int64_wrap (ws_used sem - wt_weight waiter)) (ws_waiters sem)
             else set_used sem (ws_used sem) (filter (λ x, x ≠ id) (ws_waiters sem)) in
  grantLocked sem heap.

(** [None] is the panic of a wrong release. *)
Definition Release (sem : WeightedSemaphore) (heap : waiters_heap) (weight : Z)
    : option (WeightedSemaphore * waiters_heap) :=
  if (weight <=? 0) || (ws_used sem <? weight) then None
  else Some (grantLocked (set_used sem (int64_wrap (ws_used sem - weight)) (ws_waiters sem)) heap).

Definition Stats (sem : WeightedSemaphore) : Z * Z := (ws_used sem, len (ws_waiters sem)).
Definition Capacity (sem : WeightedSemaphore) : Z := ws_capacity sem.

(** ** Calls *)

(** The calls that wait have a waiter object in [sy_heap]; those that returned
    nil hold their weight until they release it.  The waiter of a call that
    returns is dropped: nothing refers to it any more. *)
Record system := {
  sy_sem : WeightedSemaphore;
  sy_heap : waiters_heap;
  sy_held : gmap N Z;
}.

Inductive sem_step : system → system → Prop :=
| step_acquire σ id weight ctxErr lockedCtxErr sem heap result :
    sy_heap σ !! id = None → sy_held σ !! id = None →
    Acquire (sy_sem σ) (sy_heap σ) id ctxErr lockedCtxErr weight = (sem, heap, result) →
    sem_step σ {| sy_sem := sem; sy_heap := heap;
                  sy_held := match result with Acquired => <[id := weight]> (sy_held σ) | _ => sy_held σ end |}
| step_ready σ id waiter :
    sy_heap σ !! id = Some waiter → wt_granted waiter = true →
    sem_step σ {| sy_sem := sy_sem σ; sy_heap := delete id (sy_heap σ);
                  sy_held := <[id := wt_weight waiter]> (sy_held σ) |}
| step_cancel σ id waiter sem heap :
    sy_heap σ !! id = Some waiter →
    cancelAcquire (sy_sem σ) (delete id (sy_heap σ)) id waiter = (sem, heap) →
    sem_step σ {| sy_sem := sem; sy_heap := heap; sy_held := sy_held σ |}
| step_release σ id weight sem heap :
    sy_held σ !! id = Some weight →
    Release (sy_sem σ) (sy_heap σ) weight = Some (sem, heap) →
    sem_step σ {| sy_sem := sem; sy_heap := heap; sy_held := delete id (sy_held σ) |}.

Definition initial_system (capacity : Z) (limitErr : error) : system :=
  {| sy_sem := NewWeightedSemaphore capacity limitErr; sy_heap := ∅; sy_held := ∅ |}.

Definition reachable (capacity : Z) (limitErr : error) (σ : system) : Prop :=
  rtc sem_step (initial_system capacity limitErr) σ.

(** ** Sums *)

Definition granted_weight (w : weightedSemaphoreWaiter) : Z := if wt_granted w then wt_weight w else 0.
Definition granted (heap : waiters_heap) : Z := total (granted_weight <$> heap).

Lemma granted_insert_new heap i w : heap !! i = None → granted (<[i := w]> heap) = granted_weight w + granted heap.
Proof. intros Hi. unfold granted. rewrite fmap_insert, total_insert; [done|]. by rewrite lookup_fmap, Hi. Qed.

Lemma granted_delete heap i w : heap !! i = Some w → granted heap = granted_weight w + granted (delete i heap).
Proof. intros Hi. unfold granted. rewrite fmap_delete. apply total_delete. by rewrite lookup_fmap, Hi. Qed.

Lemma granted_insert heap i w w' :
  heap !! i = Some w → granted (<[i := w']> heap) + granted_weight w = granted heap + granted_weight w'.
Proof.
  intros Hi. rewrite <- insert_delete_eq, granted_insert_new by apply lookup_delete_eq.
  rewrite (granted_delete heap i w Hi). lia.
Qed.

(** ** The invariant *)

(** The head of the queue does not fit. *)
Definition head_blocked (capacity used : Z) (waiters : list N) (heap : waiters_heap) : Prop :=
  ∀ id rest w, waiters = id :: rest → heap !! id = Some w → capacity - used < wt_weight w.

Definition queued_exactly (waiters : list N) (heap : waiters_heap) : Prop :=
  NoDup waiters ∧ ∀ id, id ∈ waiters ↔ ∃ w, heap !! id = Some w ∧ wt_granted w = false.

Definition weights_ok (capacity : Z) (heap : waiters_heap) : Prop :=
  ∀ id w, heap !! id = Some w → 0 < wt_weight w ≤ capacity.

Record sem_inv (σ : system) : Prop := {
  si_capacity : int64_min ≤ ws_capacity (sy_sem σ) ≤ int64_max;
  si_queue : queued_exactly (ws_waiters (sy_sem σ)) (sy_heap σ);
  si_weights : weights_ok (ws_capacity (sy_sem σ)) (sy_heap σ);
  si_held : ∀ id w, sy_held σ !! id = Some w → 0 < w;
  si_apart : ∀ id, sy_heap σ !! id = None ∨ sy_held σ !! id = None;
  si_used : ws_used (sy_sem σ) = total (sy_held σ) + granted (sy_heap σ);
  si_limit : 0 ≤ ws_used (sy_sem σ) ≤ 0 `max` ws_capacity (sy_sem σ);
  si_blocked : head_blocked (ws_capacity (sy_sem σ)) (ws_used (sy_sem σ)) (ws_waiters (sy_sem σ)) (sy_heap σ);
}.

Lemma granted_nonneg capacity heap : weights_ok capacity heap → 0 ≤ granted heap.
Proof.
  intros Hw. apply total_nonneg. intros i w. rewrite lookup_fmap. intros (x & Hx & ->)%fmap_Some_1.
  specialize (Hw _ _ Hx). unfold granted_weight. destruct (wt_granted x); lia.
Qed.

Lemma queued_tail id rest heap w :
  queued_exactly (id :: rest) heap → heap !! id = Some w →
  queued_exactly rest (<[id := {| wt_weight := wt_weight w; wt_granted := true |}]> heap).
Proof.
  intros [[Hnin Hnd]%NoDup_cons Hq] Hw. split; [done|]. intros x. destruct (decide (x = id)) as [->|Hne].
  - rewrite lookup_insert_eq. split; [done|]. naive_solver.
  - rewrite lookup_insert_ne by done. rewrite <- Hq, elem_of_cons. naive_solver.
Qed.

(** What a round of grants does to the queue. *)
Record grants (capacity used : Z) (waiters : list N) (heap : waiters_heap) (used' : Z)
    (waiters' : list N) (heap' : waiters_heap) : Prop := {
  gr_prefix : ∃ first, waiters = first ++ waiters' ∧
    (∀ id, id ∉ first → heap' !! id = heap !! id) ∧
    (∀ id, id ∈ first → ∃ w, heap !! id = Some w ∧
       heap' !! id = Some {| wt_weight := wt_weight w; wt_granted := true |});
  gr_queue : queued_exactly waiters' heap';
  gr_weights : weights_ok capacity heap';
  gr_used : used' - used = granted heap' - granted heap;
  gr_limit : used ≤ used' ≤ capacity `max` used;
  gr_blocked : head_blocked capacity used' waiters' heap';
}.

Lemma grantLoop_grants capacity used waiters heap :
  capacity ≤ int64_max → queued_exactly waiters heap → weights_ok capacity heap → 0 ≤ used ≤ 0 `max` capacity →
  let '(used', waiters', heap') := grantLoop capacity used waiters heap in
  grants capacity used waiters heap used' waiters' heap'.
Proof.
  intros Hcap. revert used heap. induction waiters as [|id rest IH]; intros used heap Hq Hw Hu; simpl.
  { constructor; [exists []; split_and!; [done|done|by intros ? ?%elem_of_nil]|done|done|lia|lia|done]. }
  destruct (heap !! id) as [w|] eqn:E.
  2:{ destruct Hq as [_ Hq]. destruct (proj1 (Hq id)) as (w & Hid & _); [by left|congruence]. }
  pose proof (Hw _ _ E) as Hwt.
  rewrite int64_wrap_id by (unfold int64_min, int64_max in *; lia).
  destruct (Z.ltb_spec (capacity - used) (wt_weight w)) as [Hlt|Hge].
  { constructor; [exists []; split_and!; [done|done|by intros ? ?%elem_of_nil]|done|done|lia|lia|].
    intros i r w' [= <- <-] Hw'. by simplify_eq. }
  rewrite int64_wrap_id by (unfold int64_min, int64_max in *; lia).
  set (w' := {| wt_weight := wt_weight w; wt_granted := true |}).
  assert (wt_granted w = false) as Hg.
  { destruct Hq as [_ Hq]. destruct (proj1 (Hq id)) as (x & Hx & ?); [by left|]. by simplify_eq. }
  specialize (IH (used + wt_weight w) (<[id := w']> heap) (queued_tail _ _ _ _ Hq E)).
  destruct (grantLoop capacity (used + wt_weight w) rest (<[id := w']> heap)) as [[used' waiters'] heap'].
  destruct IH as [(first & -> & Hout & Hin) Hq' Hw'' Hu' Hl' Hb']; [|lia|].
  { intros i x. destruct (decide (i = id)) as [->|]; [rewrite lookup_insert_eq; by intros [= <-]|].
    rewrite lookup_insert_ne by done. apply Hw. }
  assert (id ∉ first) as Hnid.
  { destruct Hq as [Hnd _]. apply NoDup_cons in Hnd as [Hnd _]. rewrite elem_of_app in Hnd. tauto. }
  pose proof (granted_insert heap id w w' E) as Hgr. unfold granted_weight in Hgr. rewrite Hg in Hgr. simpl in Hgr.
  constructor; [|done|done|lia|lia|done]. exists (id :: first). split_and!; [done| |].
  - intros x [Hx1 Hx2]%not_elem_of_cons. by rewrite Hout, lookup_insert_ne.
  - intros x [->|Hx]%elem_of_cons.
    + exists w. split; [done|]. by rewrite Hout, lookup_insert_eq.
    + destruct (Hin x Hx) as (y & Hy & Hy'). exists y. split; [|done].
      rewrite lookup_insert_ne in Hy; [done|]. by intros ->.
Qed.

Lemma grantLocked_grants sem heap :
  ws_capacity sem ≤ int64_max → queued_exactly (ws_waiters sem) heap → weights_ok (ws_capacity sem) heap →
  0 ≤ ws_used sem ≤ 0 `max` ws_capacity sem →
  let '(sem', heap') := grantLocked sem heap in
  ws_capacity sem' = ws_capacity sem ∧ ws_limitErr sem' = ws_limitErr sem ∧
  grants (ws_capacity sem) (ws_used sem) (ws_waiters sem) heap (ws_used sem') (ws_waiters sem') heap'.
Proof.
  intros Hc Hq Hw Hu. unfold grantLocked.
  pose proof (grantLoop_grants (ws_capacity sem) (ws_used sem) (ws_waiters sem) heap Hc Hq Hw Hu) as Hg.
  by destruct (grantLoop _ _ _ heap) as [[used' waiters'] heap'].
Qed.

Lemma grant_inv sem heap held sem' heap' :
  int64_min ≤ ws_capacity sem ≤ int64_max → queued_exactly (ws_waiters sem) heap → weights_ok (ws_capacity sem) heap →
  0 ≤ ws_used sem ≤ 0 `max` ws_capacity sem → ws_used sem = total held + granted heap →
  (∀ id w, held !! id = Some w → 0 < w) → (∀ id, heap !! id = None ∨ held !! id = None) →
  grantLocked sem heap = (sem', heap') →
  sem_inv {| sy_sem := sem'; sy_heap := heap'; sy_held := held |}.
Proof.
  intros Hc Hq Hw Hu Hsum Hpos Hap E. pose proof (grantLocked_grants sem heap (proj2 Hc) Hq Hw Hu) as Hg.
  rewrite E in Hg. destruct Hg as (Ec & _ & [(first & _ & Hout & Hin) Hq' Hw' Hu' Hl' Hb']).
  constructor; simpl; rewrite ?Ec; try done; [|lia|lia].
  intros id. destruct (decide (id ∈ first)) as [Hf|Hf].
  - destruct (Hin id Hf) as (w & Hw1 & _). destruct (Hap id) as [?|?]; [congruence|by right].
  - rewrite Hout by done. apply Hap.
Qed.

Lemma queued_filter waiters heap id w :
  queued_exactly waiters heap → heap !! id = Some w →
  queued_exactly (if wt_granted w then waiters else filter (λ x, x ≠ id) waiters) (delete id heap).
Proof.
  intros [Hnd Hq] Hw. split; [destruct (wt_granted w); [done|by apply NoDup_filter]|].
  intros x. destruct (decide (x = id)) as [->|Hne].
  - rewrite lookup_delete_eq. split; [|naive_solver]. destruct (wt_granted w) eqn:Eg.
    + intros Hx. apply Hq in Hx as (w' & ? & ?). congruence.
    + by intros [? _]%list_elem_of_filter.
  - rewrite lookup_delete_ne by done. rewrite <- Hq. destruct (wt_granted w); [done|].
    rewrite list_elem_of_filter. tauto.
Qed.

Lemma weights_delete capacity heap id : weights_ok capacity heap → weights_ok capacity (delete id heap).
Proof. intros Hw i w [_ Hi]%lookup_delete_Some. by eapply Hw. Qed.

Lemma apart_delete {A B} (heap : gmap N A) (held : gmap N B) id :
  (∀ i, heap !! i = None ∨ held !! i = None) →
  (∀ i, delete id heap !! i = None ∨ held !! i = None) ∧ (∀ i, heap !! i = None ∨ delete id held !! i = None).
Proof.
  intros Ha. split; intros i; destruct (decide (i = id)) as [->|]; rewrite ?lookup_delete_eq; auto;
    rewrite lookup_delete_ne by done; apply Ha.
Qed.

Lemma acquire_inv σ id weight c1 c2 sem heap result :
  sem_inv σ → sy_heap σ !! id = None → sy_held σ !! id = None →
  Acquire (sy_sem σ) (sy_heap σ) id c1 c2 weight = (sem, heap, result) →
  sem_inv {| sy_sem := sem; sy_heap := heap;
             sy_held := match result with Acquired => <[id := weight]> (sy_held σ) | _ => sy_held σ end |}.
Proof.
  intros [Hc Hq Hw Hp Ha Hu Hl Hb] Hn1 Hn2. pose proof (granted_nonneg _ _ Hw) as Hgn.
  assert (sem_inv {| sy_sem := sy_sem σ; sy_heap := sy_heap σ; sy_held := sy_held σ |}) as Hsame by done.
  unfold Acquire. rewrite int64_wrap_id by (unfold int64_min, int64_max in *; lia).
  destruct (Z.leb_spec weight 0); [by intros [= <- <- <-]|].
  destruct c1; [by intros [= <- <- <-]|]. destruct c2; [by intros [= <- <- <-]|].
  destruct (Z.ltb_spec (ws_capacity (sy_sem σ)) weight); [by intros [= <- <- <-]|].
  destruct ((len (ws_waiters (sy_sem σ)) =? 0) && (weight <=? ws_capacity (sy_sem σ) - ws_used (sy_sem σ))) eqn:E.
  - bool_prop. intros [= <- <- <-]. rewrite int64_wrap_id by (unfold int64_min, int64_max in *; lia).
    assert (ws_waiters (sy_sem σ) = []) as Eq by (by destruct (ws_waiters (sy_sem σ))).
    constructor; simpl; try done.
    + intros i w. destruct (decide (i = id)) as [->|]; [rewrite lookup_insert_eq; intros [= <-]; lia|].
      rewrite lookup_insert_ne by done. apply Hp.
    + intros i. destruct (decide (i = id)) as [->|]; [by left|]. rewrite lookup_insert_ne by done. apply Ha.
    + rewrite total_insert by done. lia.
    + lia.
    + intros ? ? ? Eq'. by rewrite Eq in Eq'.
  - intros [= <- <- <-]. constructor; simpl; try done.
    + destruct Hq as [Hnd Hq]. split.
      * apply NoDup_app. split_and!; [done| |apply NoDup_singleton]. intros x Hx ->%list_elem_of_singleton.
        apply Hq in Hx as (? & ? & _). congruence.
      * intros x. rewrite elem_of_app, list_elem_of_singleton. destruct (decide (x = id)) as [->|].
        -- rewrite lookup_insert_eq. split; [by eauto|by right].
        -- rewrite lookup_insert_ne by done. rewrite Hq. naive_solver.
    + intros i w. destruct (decide (i = id)) as [->|]; [rewrite lookup_insert_eq; intros [= <-]; simpl; lia|].
      rewrite lookup_insert_ne by done. apply Hw.
    + intros i. destruct (decide (i = id)) as [->|]; [by right|]. rewrite lookup_insert_ne by done. apply Ha.
    + rewrite granted_insert_new by done. unfold granted_weight at 1. simpl. lia.
    + intros i rest w Eq Hi. destruct (ws_waiters (sy_sem σ)) as [|x ws] eqn:Ew; simpl in *.
      * simplify_eq/=. rewrite lookup_insert_eq in Hi. simplify_eq/=. bool_prop. unfold len in E. simpl in E. lia.
      * simplify_eq/=. eapply Hb; [done|]. rewrite lookup_insert_ne in Hi; [done|]. intros <-.
        destruct Hq as [_ Hq]. destruct (proj1 (Hq id)) as (? & ? & _); [by left|congruence].
Qed.

Lemma sem_step_inv σ σ' : sem_inv σ → sem_step σ σ' → sem_inv σ'.
Proof.
  intros Hi. pose proof Hi as [Hc Hq Hw Hp Ha Hu Hl Hb]. pose proof (granted_nonneg _ _ Hw) as Hgn.
  destruct 1 as [σ id weight c1 c2 sem heap result Hn1 Hn2 E|σ id w Hid Hg|σ id w sem heap Hid E|σ id w sem heap Hid E].
  - by eapply acquire_inv.
  - pose proof (granted_delete _ _ _ Hid) as Hd. unfold granted_weight in Hd. rewrite Hg in Hd.
    assert (sy_held σ !! id = None) by (destruct (Ha id); congruence).
    pose proof (queued_filter _ _ _ _ Hq Hid) as Hq'. rewrite Hg in Hq'.
    constructor; simpl; try done.
    + by apply weights_delete.
    + intros i x. destruct (decide (i = id)) as [->|].
      * rewrite lookup_insert_eq. intros [= <-]. by apply (Hw id).
      * rewrite lookup_insert_ne by done. apply Hp.
    + intros i. destruct (decide (i = id)) as [->|]; [left; apply lookup_delete_eq|].
      rewrite lookup_delete_ne, lookup_insert_ne by done. apply Ha.
    + rewrite total_insert by done. lia.
    + intros i rest x Eq [_ Hx]%lookup_delete_Some. by eapply Hb.
  - pose proof (granted_delete _ _ _ Hid) as Hd. pose proof (granted_nonneg _ _ (weights_delete _ _ id Hw)) as Hdn.
    pose proof (total_nonneg _ (λ i x Hx, Z.lt_le_incl _ _ (Hp i x Hx))) as Htn. pose proof (Hw _ _ Hid) as Hwt.
    pose proof (queued_filter _ _ _ _ Hq Hid) as Hq'. unfold cancelAcquire in E. unfold granted_weight in Hd.
    destruct (wt_granted w); eapply grant_inv in E; simpl; try done;
      try (by apply weights_delete); try (by apply apart_delete);
      try (rewrite int64_wrap_id; unfold int64_min, int64_max in *); lia.
  - pose proof (total_delete _ _ _ Hid) as Ht. pose proof (Hp _ _ Hid).
    assert (0 ≤ total (delete id (sy_held σ))) as Htn.
    { apply total_nonneg. intros i x [_ Hx]%lookup_delete_Some. apply Hp in Hx. lia. }
    unfold Release in E. destruct ((w <=? 0) || (ws_used (sy_sem σ) <? w)) eqn:Eg; [done|].
    injection E as E. eapply grant_inv in E; simpl; try done; try (by apply apart_delete);
      try (rewrite int64_wrap_id; unfold int64_min, int64_max in *); try lia.
    intros i x [_ Hx]%lookup_delete_Some. by eapply Hp.
Qed.

Lemma rtc_capacity σ σ' : rtc sem_step σ σ' → ws_capacity (sy_sem σ') = ws_capacity (sy_sem σ).
Proof.
  assert (∀ sem heap, ws_capacity (grantLocked sem heap).1 = ws_capacity sem) as Hg.
  { intros sem heap. unfold grantLocked. by destruct (grantLoop _ _ _ heap) as [[? ?] ?]. }
  induction 1 as [|σ σ1 σ2 Hs _ IH]; [done|]. rewrite IH. clear IH.
  destruct Hs as [σ id weight c1 c2 sem heap result _ _ E|σ id w _ _|σ id w sem heap _ E|σ id w sem heap _ E]; simpl.
  - unfold Acquire in E. repeat case_match; by simplify_eq/=.
  - done.
  - unfold cancelAcquire in E. pose proof (f_equal (λ x, ws_capacity x.1) E) as E'. simpl in E'.
    rewrite Hg in E'. rewrite <- E'. by destruct (wt_granted w).
  - unfold Release in E. destruct (_ || _); [done|]. injection E as E.
    pose proof (f_equal (λ x, ws_capacity x.1) E) as E'. simpl in E'. rewrite Hg in E'. by rewrite <- E'.
Qed.

Lemma reachable_inv capacity limitErr σ :
  int64_min ≤ capacity ≤ int64_max → reachable capacity limitErr σ → sem_inv σ.
Proof.
  intros Hc Hr. assert (sem_inv (initial_system capacity limitErr)) as H0.
  { constructor; simpl; try done; [|intros ?; by left|lia].
    - split; [apply NoDup_nil_2|]. intros id. rewrite lookup_empty. split; [by intros ?%elem_of_nil|naive_solver]. }
  revert H0. induction Hr as [|σ σ1 σ2 Hs _ IH]; [done|]. intros H0. by eapply IH, sem_step_inv.
Qed.

(** ** Waiting *)

(** A call that holds a reservation, or was granted one it has not taken yet. *)
Definition owns (σ : system) (id : N) : Prop :=
  (∃ w, sy_held σ !! id = Some w) ∨ ∃ w, sy_heap σ !! id = Some w ∧ wt_granted w = true.

(** Steps during which the call [x] stays in the queue. *)
Definition waiting_step (x : N) (σ σ' : system) : Prop :=
  sem_step σ σ' ∧ x ∈ ws_waiters (sy_sem σ').

Lemma total_positive (m : gmap N Z) : 0 < total m → ∃ i w, m !! i = Some w.
Proof.
  destruct m as [|i w m _ _] using map_ind; [unfold total; rewrite map_fold_empty; lia|].
  intros _. exists i, w. apply lookup_insert_eq.
Qed.

Lemma granted_positive heap : 0 < granted heap → ∃ i w, heap !! i = Some w ∧ wt_granted w = true.
Proof.
  unfold granted. induction heap as [|i w heap Hi IH] using map_ind.
  { rewrite fmap_empty. unfold total. rewrite map_fold_empty. lia. }
  rewrite fmap_insert, total_insert by (by rewrite lookup_fmap, Hi). destruct (wt_granted w) eqn:Eg.
  - intros _. exists i, w. by rewrite lookup_insert_eq.
  - unfold granted_weight at 1. rewrite Eg. intros Hp. destruct IH as (j & x & Hj & Hx); [lia|].
    exists j, x. rewrite lookup_insert_ne; [done|]. intros ->. congruence.
Qed.

(** As long as a call waits, somebody owns a reservation. *)
Lemma waiting_owner σ x : sem_inv σ → x ∈ ws_waiters (sy_sem σ) → ∃ y, owns σ y.
Proof.
  intros [Hc Hq Hw Hp Ha Hu Hl Hb] Hx.
  destruct (ws_waiters (sy_sem σ)) as [|id rest] eqn:E; [by apply elem_of_nil in Hx|].
  destruct Hq as [_ Hq]. destruct (proj1 (Hq id)) as (w & Hid & _); [by left|].
  specialize (Hb id rest w eq_refl Hid). pose proof (Hw _ _ Hid).
  destruct (decide (0 < total (sy_held σ))) as [Ht|Ht].
  - destruct (total_positive _ Ht) as (i & y & Hi). exists i. left. by exists y.
  - destruct (granted_positive (sy_heap σ)) as (i & y & Hi & Hy); [lia|]. exists i. right. by exists y.
Qed.

(** How one step moves the queue and the owners past a call that waits. *)
Definition behind (σ σ' : system) (pre : list N) (x : N) : Prop :=
  ∃ pre' post', ws_waiters (sy_sem σ') = pre' ++ x :: post' ∧ pre' ⊆ pre ∧
    ∀ y, owns σ' y → owns σ y ∨ y ∈ pre.

Lemma app_behind (first rest pre post : list N) x :
  NoDup (pre ++ x :: post) → pre ++ x :: post = first ++ rest → x ∈ rest →
  ∃ pre', pre = first ++ pre' ∧ rest = pre' ++ x :: post.
Proof.
  revert pre. induction first as [|f first IH]; intros pre Hnd E Hx; simpl in *; [by exists pre|].
  destruct pre as [|p pre]; simpl in *; injection E as -> E.
  - apply NoDup_cons in Hnd as [Hnd _]. destruct Hnd. rewrite E. apply elem_of_app. by right.
  - apply NoDup_cons in Hnd as [_ Hnd]. destruct (IH pre Hnd E Hx) as (pre' & -> & Hr). by exists pre'.
Qed.

(** The grants of one critical section. *)
Lemma grants_behind σ sem heap held sem' heap' pre post x :
  ws_capacity sem ≤ int64_max → queued_exactly (ws_waiters sem) heap → weights_ok (ws_capacity sem) heap →
  0 ≤ ws_used sem ≤ 0 `max` ws_capacity sem →
  grantLocked sem heap = (sem', heap') →
  (∀ y, owns {| sy_sem := sem; sy_heap := heap; sy_held := held |} y → owns σ y) →
  ws_waiters sem = pre ++ x :: post → x ∈ ws_waiters sem' →
  behind σ {| sy_sem := sem'; sy_heap := heap'; sy_held := held |} pre x.
Proof.
  intros Hc Hq Hw Hu E Ho Eq Hx. pose proof (grantLocked_grants sem heap Hc Hq Hw Hu) as Hg.
  rewrite E in Hg. destruct Hg as (_ & _ & [(first & Ef & Hout & Hin) _ _ _ _ _]).
  rewrite Eq in Ef. destruct (app_behind first (ws_waiters sem') pre post x) as (pre' & -> & Er); [|done|done|].
  { rewrite <- Eq. apply Hq. }
  exists pre', post. simpl. split_and!; [done|set_solver|].
  intros y [Hy|(w & Hy & Hg)]; [left; apply Ho; by left|]. simpl in *.
  destruct (decide (y ∈ first)) as [Hf|Hf]; [right; set_solver|]. left. apply Ho. right.
  exists w. by rewrite Hout in Hy.
Qed.

Lemma filter_behind (id x : N) pre post :
  x ≠ id → filter (λ y, y ≠ id) (pre ++ x :: post) =
    filter (λ y, y ≠ id) pre ++ x :: filter (λ y, y ≠ id) post.
Proof. intros Hne. rewrite filter_app, filter_cons. by rewrite decide_True. Qed.

Lemma acquire_behind σ id weight c1 c2 sem heap result pre post x :
  ws_waiters (sy_sem σ) = pre ++ x :: post →
  Acquire (sy_sem σ) (sy_heap σ) id c1 c2 weight = (sem, heap, result) →
  behind σ {| sy_sem := sem; sy_heap := heap;
    sy_held := match result with Acquired => <[id := weight]> (sy_held σ) | _ => sy_held σ end |} pre x.
Proof.
  intros Eq E.
  assert (∃ post', ws_waiters sem = pre ++ x :: post' ∧ result ≠ Acquired ∧
    ∀ y w, heap !! y = Some w → wt_granted w = true → sy_heap σ !! y = Some w) as (post' & Er & Hr & Hy).
  { assert (len (ws_waiters (sy_sem σ)) ≠ 0) as Hne by (rewrite Eq; unfold len; rewrite length_app; simpl; lia).
    apply Z.eqb_neq in Hne. unfold Acquire in E. rewrite Hne in E. simpl in E.
    repeat case_match; simplify_eq/=; try by exists post.
    exists (post ++ [id]). rewrite Eq, <- app_assoc. split_and!; [done|done|].
    intros y w' Hy Hgr. destruct (decide (y = id)) as [->|]; [rewrite lookup_insert_eq in Hy; by simplify_eq/=|].
    by rewrite lookup_insert_ne in Hy. }
  exists pre, post'. simpl. split_and!; [done|done|]. intros y [Hh|(w & Hh & Hgr)].
  - left; left. simpl in Hh. by destruct result.
  - left; right. exists w. split; [by apply Hy|done].
Qed.

Lemma cancel_waits sem heap id w sem' heap' x :
  ws_capacity sem ≤ int64_max → queued_exactly (filter (λ y, y ≠ id) (ws_waiters sem)) heap →
  weights_ok (ws_capacity sem) heap → 0 ≤ ws_used sem ≤ 0 `max` ws_capacity sem →
  wt_granted w = false → cancelAcquire sem heap id w = (sem', heap') → x ∈ ws_waiters sem' → x ≠ id.
Proof.
  intros Hc Hq Hw Hu Eg E Hx ->. unfold cancelAcquire in E. rewrite Eg in E.
  pose proof (grantLocked_grants (set_used sem (ws_used sem) (filter (λ y, y ≠ id) (ws_waiters sem))) heap Hc Hq Hw Hu) as Hg.
  rewrite E in Hg. destruct Hg as (_ & _ & [(first & Ef & _) _ _ _ _ _]). simpl in Ef.
  assert (id ∈ filter (λ y, y ≠ id) (ws_waiters sem)) as Hin by (rewrite Ef; apply elem_of_app; by right).
  by apply list_elem_of_filter in Hin as [? _].
Qed.

Lemma cancel_behind σ id w sem heap pre post x :
  sem_inv σ → ws_waiters (sy_sem σ) = pre ++ x :: post → sy_heap σ !! id = Some w →
  cancelAcquire (sy_sem σ) (delete id (sy_heap σ)) id w = (sem, heap) → x ∈ ws_waiters sem →
  behind σ {| sy_sem := sem; sy_heap := heap; sy_held := sy_held σ |} pre x.
Proof.
  intros [Hc Hq Hw Hp Ha Hu Hl Hb] Eq Hid E Hx.
  pose proof (granted_delete _ _ _ Hid) as Hd. pose proof (granted_nonneg _ _ (weights_delete _ _ id Hw)) as Hdn.
  pose proof (total_nonneg _ (λ i x Hx, Z.lt_le_incl _ _ (Hp i x Hx))) as Htn. pose proof (Hw _ _ Hid) as Hwt.
  pose proof (queued_filter _ _ _ _ Hq Hid) as Hq'. unfold granted_weight in Hd.
  assert (∀ s y, owns {| sy_sem := s; sy_heap := delete id (sy_heap σ); sy_held := sy_held σ |} y → owns σ y) as Ho.
  { intros s y [Hy|(v & Hv & Hgr)]; [by left|right]. simpl in Hv. apply lookup_delete_Some in Hv as [_ Hv].
    by exists v. }
  destruct (wt_granted w) eqn:Eg.
  - unfold cancelAcquire in E. rewrite Eg in E.
    eapply grants_behind; [..|exact E|apply Ho|exact Eq|exact Hx]; simpl; [lia|done|by apply weights_delete|].
    rewrite int64_wrap_id; unfold int64_min, int64_max in *; lia.
  - assert (x ≠ id) as Hne.
    { eapply (cancel_waits _ _ _ _ _ _ _ (proj2 Hc) Hq'); [by apply weights_delete|exact Hl|done|exact E|done]. }
    unfold cancelAcquire in E. rewrite Eg in E.
    destruct (grants_behind σ (set_used (sy_sem σ) (ws_used (sy_sem σ)) (filter (λ y, y ≠ id) (ws_waiters (sy_sem σ))))
      (delete id (sy_heap σ)) (sy_held σ) sem heap (filter (λ y, y ≠ id) pre) (filter (λ y, y ≠ id) post) x
      (proj2 Hc) Hq' (weights_delete _ _ id Hw) Hl E (Ho _)) as (pre' & post' & Ew & Hsub & Hown);
      [simpl; by rewrite Eq, filter_behind|done|].
    exists pre', post'. split_and!; [done|..].
    + intros y Hy%Hsub. by apply list_elem_of_filter in Hy as [_ ?].
    + intros y [?|Hy]%Hown; [by left|]. right. by apply list_elem_of_filter in Hy as [_ ?].
Qed.

Lemma step_behind σ σ' pre post x :
  sem_inv σ → ws_waiters (sy_sem σ) = pre ++ x :: post → waiting_step x σ σ' → behind σ σ' pre x.
Proof.
  intros Hi Eq [Hs Hx]. pose proof Hi as [Hc Hq Hw Hp Ha Hu Hl Hb]. pose proof (granted_nonneg _ _ Hw) as Hgn.
  destruct Hs as [σ id weight c1 c2 sem heap result Hn1 Hn2 E|σ id w Hid Hg|σ id w sem heap Hid E|σ id w sem heap Hid E]; simpl in *.
  - by eapply acquire_behind.
  - exists pre, post. simpl. split_and!; [done|done|]. intros y Hy. left. destruct Hy as [[v Hv]|(v & Hv & Hgr)]; simpl in *.
    + destruct (decide (y = id)) as [->|]; [right; by exists w|]. rewrite lookup_insert_ne in Hv by done. left. by exists v.
    + apply lookup_delete_Some in Hv as [_ Hv]. right. by exists v.
  - by eapply cancel_behind.
  - pose proof (total_delete _ _ _ Hid) as Ht. pose proof (Hp _ _ Hid). unfold Release in E.
    assert (0 ≤ total (delete id (sy_held σ))) as Htn.
    { apply total_nonneg. intros i y [_ Hy]%lookup_delete_Some. apply Hp in Hy. lia. }
    destruct ((w <=? 0) || (ws_used (sy_sem σ) <? w)); [done|]. injection E as E.
    eapply grants_behind; [..|exact E| |exact Eq|exact Hx]; simpl; [lia|done|done| |].
    + rewrite int64_wrap_id; unfold int64_min, int64_max in *; lia.
    + intros y [(v & Hv)|Hy]; [left|by right]. simpl in Hv. apply lookup_delete_Some in Hv as [_ Hv]. by exists v.
Qed.

Lemma steps_behind σ σ' pre post x :
  sem_inv σ → ws_waiters (sy_sem σ) = pre ++ x :: post → rtc (waiting_step x) σ σ' →
  sem_inv σ' ∧ behind σ σ' pre x.
Proof.
  intros Hi Eq Hr. revert pre post Hi Eq. induction Hr as [σ|σ σ1 σ2 Hs Hr IH]; intros pre post Hi Eq.
  { split; [done|]. exists pre, post. split_and!; [done|done|by left]. }
  destruct (step_behind _ _ _ _ _ Hi Eq Hs) as (pre1 & post1 & E1 & Hsub1 & Ho1).
  pose proof (sem_step_inv _ _ Hi (proj1 Hs)) as Hi1.
  destruct (IH pre1 post1 Hi1 E1) as [Hi2 (pre2 & post2 & E2 & Hsub2 & Ho2)]. split; [done|].
  exists pre2, post2. split_and!; [done|by etrans|]. intros y [Hy|Hy]%Ho2; [by apply Ho1|right; by apply Hsub1].
Qed.

(** ** Properties *)

(** C37: reservations are never overcommitted.  In every state that calls of
    Acquire, their cancellations and Release reach from a new semaphore, the
    bytes that calls hold are within the capacity, the usage the semaphore
    reports is what is held plus what was granted and not yet taken, and no call
    that releases what it holds panics. *)
Theorem reservations_bounded (capacity : Z) (limitErr : error) (σ : system) :
  int64_min ≤ capacity ≤ int64_max → reachable capacity limitErr σ →
  total (sy_held σ) ≤ 0 `max` capacity ∧
  (Stats (sy_sem σ)).1 = total (sy_held σ) + granted (sy_heap σ) ∧ (Stats (sy_sem σ)).1 ≤ 0 `max` capacity ∧
  ∀ id weight, sy_held σ !! id = Some weight → Release (sy_sem σ) (sy_heap σ) weight ≠ None.
Proof.
  intros Hc Hr. pose proof (reachable_inv _ _ _ Hc Hr) as [Hc' Hq Hw Hp Ha Hu Hl Hb].
  pose proof (granted_nonneg _ _ Hw) as Hgn. pose proof (rtc_capacity _ _ Hr) as Ec. simpl in Ec.
  rewrite Ec in Hl. unfold Stats. simpl. split_and!; [lia|done|lia|].
  intros id weight Hid. pose proof (total_lookup _ _ _ (λ i x Hx, Z.lt_le_incl _ _ (Hp i x Hx)) Hid) as Ht.
  specialize (Hp _ _ Hid). unfold Release. rewrite (proj2 (Z.leb_gt _ _)), (proj2 (Z.ltb_ge _ _)) by lia. done.
Qed.

(** Waiting is bounded and first in, first out.  While a call stays in the
    queue, whatever the other calls do, only those that owned a reservation when
    it was last looked at and those that were queued before it own one, and at
    least one of them still does: when all of these have released, it has been
    granted.  No later call overtakes it. *)
Theorem waiting_bounded (capacity : Z) (limitErr : error) (σ σ' : system) (x : N) (pre post : list N) :
  int64_min ≤ capacity ≤ int64_max → reachable capacity limitErr σ →
  ws_waiters (sy_sem σ) = pre ++ x :: post → rtc (waiting_step x) σ σ' →
  (∀ y, owns σ' y → owns σ y ∨ y ∈ pre) ∧ (∃ y, owns σ' y) ∧
  (∃ pre' post', ws_waiters (sy_sem σ') = pre' ++ x :: post' ∧ pre' ⊆ pre).
Proof.
  intros Hc Hr Eq Hs. pose proof (reachable_inv _ _ _ Hc Hr) as Hi.
  destruct (steps_behind _ _ _ _ _ Hi Eq Hs) as [Hi' (pre' & post' & E' & Hsub & Ho)].
  split_and!; [done| |by exists pre', post']. eapply (waiting_owner _ x); [done|].
  rewrite E'. apply elem_of_app. right. by left.
Qed.

(** Ten bytes: the first call holds 7, the second waits for 5, the third, which
    would fit, waits behind it; when the first releases, both are granted. *)
Definition toy_limit : error := [ErrResourceLimit].
Definition toy_acquire (σ : system) (id : N) (weight : Z) : system :=
  let '(sem, heap, result) := Acquire (sy_sem σ) (sy_heap σ) id None None weight in
  {| sy_sem := sem; sy_heap := heap;
     sy_held := match result with Acquired => <[id := weight]> (sy_held σ) | _ => sy_held σ end |}.
Definition toy_contended : system :=
  toy_acquire (toy_acquire (toy_acquire (initial_system 10 toy_limit) 1 7) 2 5) 3 2.

Example toy_grants :
  ws_waiters (sy_sem toy_contended) = [2; 3]%N ∧
  match Release (sy_sem toy_contended) (sy_heap toy_contended) 7 with
  | Some (sem, heap) => Stats sem = (7, 0) ∧ granted heap = 7
  | None => False
  end.
Proof. vm_compute. by repeat split. Qed.

Lemma toy_acquire_step σ id weight :
  sy_heap σ !! id = None → sy_held σ !! id = None → sem_step σ (toy_acquire σ id weight).
Proof.
  intros H1 H2. unfold toy_acquire. destruct (Acquire _ _ id None None weight) as [[sem heap] result] eqn:E.
  by eapply step_acquire.
Qed.

Lemma toy_contended_reachable : reachable 10 toy_limit toy_contended.
Proof.
  unfold toy_contended. eapply rtc_r; [eapply rtc_r; [eapply rtc_r; [apply rtc_refl|]|]|];
    apply toy_acquire_step; by vm_compute.
Qed.

Lemma reservations_bounded_witness :
  total (sy_held toy_contended) ≤ 0 `max` 10 ∧
  (Stats (sy_sem toy_contended)).1 = total (sy_held toy_contended) + granted (sy_heap toy_contended) ∧
  (Stats (sy_sem toy_contended)).1 ≤ 0 `max` 10 ∧
  ∀ id weight, sy_held toy_contended !! id = Some weight →
    Release (sy_sem toy_contended) (sy_heap toy_contended) weight ≠ None.
Proof.
  apply (reservations_bounded 10 toy_limit toy_contended); [unfold int64_min, int64_max; lia|].
  exact toy_contended_reachable.
Defined.

Lemma waiting_bounded_witness :
  let σ' := toy_acquire toy_contended 4 1 in
  (∀ y, owns σ' y → owns toy_contended y ∨ y ∈ [2%N]) ∧ (∃ y, owns σ' y) ∧
  (∃ pre' post', ws_waiters (sy_sem σ') = pre' ++ 3%N :: post' ∧ pre' ⊆ [2%N]).
Proof.
  intros σ'. apply (waiting_bounded 10 toy_limit toy_contended σ' 3%N [2%N] []).
  - unfold int64_min, int64_max. lia.
  - exact toy_contended_reachable.
  - by vm_compute.
  - eapply rtc_l; [|apply rtc_refl]. split; [by apply toy_acquire_step; vm_compute|].
    vm_compute. right. by left.
Defined.
