(* ===== verification/Flight.v ===== *)
(** * Shared downloads ([internal/syncutil/flight.go])

    Callers that ask for one chunk at the same time share one load.  A call
    object counts its users, waiting ones and holders of a lease; the byte
    reservation of the load is released by a finalizer.  The critical sections
    are functions on call objects; the goroutines that run them are the steps of
    a transition system. *)

From S2P Require Import Prelude.

Record flightCall := {
  fc_done : bool;
  fc_data : option bytes;
  fc_err : option error;
  fc_users : Z;
  fc_completed : bool;
  fc_finalized : bool;
  fc_canceled : bool;
}.

Definition newCall : flightCall :=
  {| fc_done := false; fc_data := None; fc_err := None; fc_users := 1; fc_completed := false;
     fc_finalized := false; fc_canceled := false |}.

Definition set_users (call : flightCall) (users : Z) (data : option bytes) : flightCall :=
  {| fc_done := fc_done call; fc_data := data; fc_err := fc_err call; fc_users := users;
     fc_completed := fc_completed call; fc_finalized := fc_finalized call;
     fc_canceled := fc_canceled call |}.

Definition set_finalized (call : flightCall) : flightCall :=
  {| fc_done := fc_done call; fc_data := fc_data call; fc_err := fc_err call; fc_users := fc_users call;
     fc_completed := fc_completed call; fc_finalized := true; fc_canceled := fc_canceled call |}.

Definition set_canceled (call : flightCall) : flightCall :=
  {| fc_done := fc_done call; fc_data := fc_data call; fc_err := fc_err call; fc_users := fc_users call;
     fc_completed := fc_completed call; fc_finalized := fc_finalized call; fc_canceled := true |}.

Definition set_done (call : flightCall) : flightCall :=
  {| fc_done := true; fc_data := fc_data call; fc_err := fc_err call; fc_users := fc_users call;
     fc_completed := fc_completed call; fc_finalized := fc_finalized call; fc_canceled := fc_canceled call |}.

(** The call, and whether the caller now owns the finalizer. *)
Definition takeFinalizerLocked (call : flightCall) : flightCall * bool :=
  if fc_finalized call || negb (fc_completed call)
     || (bool_decide (fc_err call = None) && (0 <? fc_users call))
  then (call, false) else (set_finalized call, true).

(** The critical section at the end of run; the load returned [r]. *)
Definition completeCall (call : flightCall) (r : result bytes) : flightCall * bool :=
  takeFinalizerLocked
    {| fc_done := fc_done call;
       fc_data := match r with Ok data => Some data | Err _ => fc_data call end;
       fc_err := match r with Ok _ => None | Err e => Some e end;
       fc_users := fc_users call; fc_completed := true; fc_finalized := fc_finalized call;
       fc_canceled := fc_canceled call |}.

(** [None] is the panic of a release without a user. *)
Definition releaseUser (call : flightCall) : option (flightCall * bool) :=
  if fc_users call <=? 0 then None
  else
    let users := fc_users call - 1 in
    Some (takeFinalizerLocked (set_users call users (if users =? 0 then None else fc_data call))).

Definition abandon (call : flightCall) : flightCall * bool :=
  if fc_users call <=? 0 then (call, false)
  else
    let users := fc_users call - 1 in
    let call := set_users call users
                  (if fc_completed call && (users =? 0) then None else fc_data call) in
    let cancel := negb (fc_completed call) && (fc_users call =? 0) in
    let '(call, finalize) := takeFinalizerLocked call in
    (if cancel then set_canceled call else call, finalize).

Section Group.
Context `{Countable K}.

(** The registered calls; a call object is its address in the heap. *)
Record FlightGroup := {
  fg_calls : gmap K N;
  fg_heap : gmap N flightCall;
}.

Definition set_call (group : FlightGroup) (c : N) (call : flightCall) : FlightGroup :=
  {| fg_calls := fg_calls group; fg_heap := <[c := call]> (fg_heap group) |}.

(** The critical section of Do: joins a call with users or starts the new one
    at [fresh]; the boolean tells whether a loader is started. *)
Definition Do (group : FlightGroup) (key : K) (fresh : N) : FlightGroup * N * bool :=
  let start := ({| fg_calls := <[key := fresh]> (fg_calls group);
                   fg_heap := <[fresh := newCall]> (fg_heap group) |}, fresh, true) in
  match fg_calls group !! key with
  | None => start
  | Some c =>
      match fg_heap group !! c with
      | None => start
      | Some existing =>
          if 0 <? fc_users existing
          then (set_call group c (set_users existing (fc_users existing + 1) (fc_data existing)), c, false)
          else start
      end
  end.

(** The critical section of run. *)
Definition finishRun (group : FlightGroup) (key : K) (c : N) (call : flightCall) (r : result bytes)
    : FlightGroup * bool :=
  let '(call, finalize) := completeCall call r in
  ({| fg_calls := if bool_decide (fg_calls group !! key = Some c) then delete key (fg_calls group)
                  else fg_calls group;
      fg_heap := <[c := call]> (fg_heap group) |}, finalize).

(** [Users]. *)
Definition Users (group : FlightGroup) (key : K) : Z :=
  match fg_calls group !! key with
  | Some c => match fg_heap group !! c with Some call => fc_users call | None => 0 end
  | None => 0
  end.

(** ** Goroutines *)

(** A caller of Do: it waits for a call, holds a lease on its data, or runs a
    finalizer it took. *)
Inductive user := Waiting (c : N) | Leased (c : N) (data : option bytes) | Finalizing (c : N).
(** The goroutine of a call: it loads, then (with the finalizer or without)
    closes the channel. *)
Inductive loader := Loading (key : K) | Closing (finalize : bool) | Closed.

Record flights := {
  fl_group : FlightGroup;
  fl_users : gmap N user;
  fl_loaders : gmap N loader;
  (** The calls whose reservation was released, in order. *)
  fl_released : list N;
}.

(** A caller that leaves its critical section with or without a finalizer. *)
Definition leave (users : gmap N user) (u c : N) (finalize : bool) : gmap N user :=
  if finalize then <[u := Finalizing c]> users else delete u users.

Inductive flight_step : flights → flights → Prop :=
| step_do σ u key fresh group c started :
    fl_users σ !! u = None → fg_heap (fl_group σ) !! fresh = None →
    Do (fl_group σ) key fresh = (group, c, started) →
    flight_step σ {| fl_group := group; fl_users := <[u := Waiting c]> (fl_users σ);
      fl_loaders := if started then <[c := Loading key]> (fl_loaders σ) else fl_loaders σ;
      fl_released := fl_released σ |}
| step_complete σ key c call r group finalize :
    fl_loaders σ !! c = Some (Loading key) → fg_heap (fl_group σ) !! c = Some call →
    finishRun (fl_group σ) key c call r = (group, finalize) →
    flight_step σ {| fl_group := group; fl_users := fl_users σ;
      fl_loaders := <[c := Closing finalize]> (fl_loaders σ); fl_released := fl_released σ |}
| step_finalize_run σ c :
    fl_loaders σ !! c = Some (Closing true) →
    flight_step σ {| fl_group := fl_group σ; fl_users := fl_users σ;
      fl_loaders := <[c := Closing false]> (fl_loaders σ); fl_released := fl_released σ ++ [c] |}
| step_close σ c call :
    fl_loaders σ !! c = Some (Closing false) → fg_heap (fl_group σ) !! c = Some call →
    flight_step σ {| fl_group := set_call (fl_group σ) c (set_done (set_canceled call)); fl_users := fl_users σ;
      fl_loaders := <[c := Closed]> (fl_loaders σ); fl_released := fl_released σ |}
| step_wait σ u c call :
    fl_users σ !! u = Some (Waiting c) → fg_heap (fl_group σ) !! c = Some call → fc_done call = true →
    flight_step σ {| fl_group := fl_group σ;
      fl_users := match fc_err call with
                  | Some _ => delete u (fl_users σ)
                  | None => <[u := Leased c (fc_data call)]> (fl_users σ)
                  end;
      fl_loaders := fl_loaders σ; fl_released := fl_released σ |}
| step_abandon σ u c call call' finalize :
    fl_users σ !! u = Some (Waiting c) → fg_heap (fl_group σ) !! c = Some call →
    abandon call = (call', finalize) →
    flight_step σ {| fl_group := set_call (fl_group σ) c call'; fl_users := leave (fl_users σ) u c finalize;
      fl_loaders := fl_loaders σ; fl_released := fl_released σ |}
| step_release σ u c data call call' finalize :
    fl_users σ !! u = Some (Leased c data) → fg_heap (fl_group σ) !! c = Some call →
    releaseUser call = Some (call', finalize) →
    flight_step σ {| fl_group := set_call (fl_group σ) c call'; fl_users := leave (fl_users σ) u c finalize;
      fl_loaders := fl_loaders σ; fl_released := fl_released σ |}
| step_finalize σ u c :
    fl_users σ !! u = Some (Finalizing c) →
    flight_step σ {| fl_group := fl_group σ; fl_users := delete u (fl_users σ); fl_loaders := fl_loaders σ;
      fl_released := fl_released σ ++ [c] |}.

Definition no_flights : flights :=
  {| fl_group := {| fg_calls := ∅; fg_heap := ∅ |}; fl_users := ∅; fl_loaders := ∅; fl_released := [] |}.

(** ** One call *)

(** [W] callers wait for the call, [L] hold a lease, [F] times its finalizer was
    taken. *)
Record call_ok (W L F : Z) (call : flightCall) (ld : loader) : Prop := {
  ck_counts : 0 ≤ W ∧ 0 ≤ L;
  ck_users : if fc_completed call && bool_decide (fc_err call ≠ None) then W ≤ fc_users call ∧ L = 0
             else fc_users call = W + L;
  ck_loading : (∃ key, ld = Loading key) ↔ fc_completed call = false;
  ck_running : fc_completed call = false → L = 0 ∧ fc_err call = None ∧ fc_done call = false;
  ck_done : fc_done call = true → fc_completed call = true;
  ck_finalized : fc_finalized call = fc_completed call && (bool_decide (fc_err call ≠ None) || (fc_users call =? 0));
  ck_tokens : F = Z.b2z (fc_finalized call);
  ck_data : fc_completed call = true → fc_err call = None → 0 < fc_users call → fc_data call ≠ None;
}.

Lemma new_ok key : call_ok 1 0 0 newCall (Loading key).
Proof. constructor; simpl; try done. split; [done|]. by exists key. Qed.

Lemma join_ok W L F call ld :
  call_ok W L F call ld → fc_completed call = false →
  call_ok (W + 1) L F (set_users call (fc_users call + 1) (fc_data call)) ld.
Proof.
  intros [Hc Hu Hl Hr Hd Hf Ht Hdata] Hn. rewrite Hn in *. destruct Hr as (-> & He & Hdn); [done|].
  constructor; simpl; rewrite ?Hn; try done; [lia|simpl in *; lia].
Qed.

Lemma take_ok W L F call ld :
  0 ≤ W ∧ 0 ≤ L →
  (if fc_completed call && bool_decide (fc_err call ≠ None) then W ≤ fc_users call ∧ L = 0
   else fc_users call = W + L) →
  ((∃ key, ld = Loading key) ↔ fc_completed call = false) →
  (fc_completed call = false → L = 0 ∧ fc_err call = None ∧ fc_done call = false) →
  (fc_done call = true → fc_completed call = true) →
  (fc_finalized call = true → fc_completed call = true ∧ (fc_err call ≠ None ∨ fc_users call = 0)) →
  F = Z.b2z (fc_finalized call) →
  (fc_completed call = true → fc_err call = None → 0 < fc_users call → fc_data call ≠ None) →
  let '(call', finalize) := takeFinalizerLocked call in
  call_ok W L (F + Z.b2z finalize) call' ld ∧ fc_data call' = fc_data call ∧ fc_users call' = fc_users call ∧
  fc_err call' = fc_err call ∧ fc_completed call' = fc_completed call ∧ fc_done call' = fc_done call.
Proof.
  intros Hc Hu Hl Hr Hd Hf Ht Hdata. unfold takeFinalizerLocked.
  assert (fc_completed call = true → fc_err call = None → 0 ≤ fc_users call) as Hpos.
  { intros Hcp He. rewrite Hcp, He in Hu. simpl in Hu. lia. }
  destruct (fc_finalized call) eqn:Ef; simpl.
  { destruct Hf as [Hcp Hor]; [done|]. split; [|done]. constructor; rewrite ?Ef; try done; [|simpl in *; lia].
    rewrite Hcp. simpl. symmetry. apply orb_true_iff. destruct Hor as [?|Hz]; [left; by apply bool_decide_eq_true|right].
    by apply Z.eqb_eq. }
  destruct (fc_completed call) eqn:Ecp; simpl.
  2:{ split; [|done]. constructor; rewrite ?Ecp, ?Ef; simpl in *; try done; lia. }
  destruct (decide (fc_err call = None)) as [He|He].
  - rewrite bool_decide_true by done. rewrite He in Hu. specialize (Hpos eq_refl He).
    destruct (Z.ltb_spec 0 (fc_users call)) as [Hlt|Hge]; simpl in *; (split; [|done]);
      (constructor; simpl; rewrite ?Ecp, ?He, ?Ef; simpl; try done; try lia; try by (intros; apply Hdata));
      symmetry; first [apply Z.eqb_neq; lia|apply Z.eqb_eq; lia].
  - rewrite bool_decide_false by done. simpl. split; [|done].
    constructor; simpl; rewrite ?Ecp, ?Ef; simpl in *; try done; [by rewrite bool_decide_true|lia].
Qed.

Lemma complete_ok W L F call key r :
  call_ok W L F call (Loading key) →
  let '(call', finalize) := completeCall call r in
  call_ok W L (F + Z.b2z finalize) call' (Closing finalize) ∧ fc_completed call = false ∧ L = 0.
Proof.
  intros [Hc Hu Hl Hr Hd Hf Ht Hdata]. assert (fc_completed call = false) as Hn by (apply Hl; eauto).
  rewrite Hn in *. destruct Hr as (-> & He & Hdn); [done|]. simpl in *. unfold completeCall.
  match goal with |- context [takeFinalizerLocked ?c] => pose proof (λ ld, take_ok W 0 F c ld) as Htake end.
  destruct (takeFinalizerLocked _) as [call' finalize]. simpl in Htake.
  destruct (Htake (Closing finalize)) as [Hok _]; try done.
  - destruct r; simpl; lia.
  - split; [|done]. by intros [? ?].
  - by rewrite Hf.
  - by destruct r.
Qed.

Lemma release_ok W L F call ld :
  call_ok W L F call ld → 0 < L →
  ∃ call' finalize, releaseUser call = Some (call', finalize) ∧
    call_ok W (L - 1) (F + Z.b2z finalize) call' ld ∧ fc_err call' = fc_err call ∧
    fc_completed call' = fc_completed call ∧ (0 < fc_users call' → fc_data call' = fc_data call).
Proof.
  intros [Hc Hu Hl Hr Hd Hf Ht Hdata] HL. unfold releaseUser.
  destruct (fc_completed call) eqn:Ecp; [|naive_solver lia]. simpl in *.
  destruct (decide (fc_err call = None)) as [He|He]; [|rewrite bool_decide_true in Hu by done; lia].
  rewrite bool_decide_false in Hu, Hf by naive_solver. rewrite (proj2 (Z.leb_gt _ _)) by lia.
  set (data := if fc_users call - 1 =? 0 then None else fc_data call).
  pose proof (take_ok W (L - 1) F (set_users call (fc_users call - 1) data) ld) as Htake. simpl in Htake.
  destruct (takeFinalizerLocked _) as [call' finalize]. exists call', finalize. split; [done|].
  rewrite Ecp, He in *. simpl in *.
  assert (fc_users call - 1 ≠ 0 → data = fc_data call) as Hdt.
  { intros Hne. subst data. by apply Z.eqb_neq in Hne as ->. }
  destruct Htake as (Hok & E1 & E2 & E3 & E4 & _); try done; try lia.
  - intros Hfz. split; [done|]. right. rewrite Hfz in Hf. lia.
  - intros _ _ Hp. rewrite Hdt by lia. apply Hdata; [done|done|lia].
  - split_and!; [done|congruence|congruence|]. intros Hp. rewrite E1. apply Hdt. lia.
Qed.

Lemma canceled_ok W L F call ld : call_ok W L F call ld → call_ok W L F (set_canceled call) ld.
Proof. intros [Hc Hu Hl Hr Hd Hf Ht Hdata]. by constructor. Qed.

Lemma abandon_ok W L F call ld :
  call_ok W L F call ld → 0 < W →
  let '(call', finalize) := abandon call in
  call_ok (W - 1) L (F + Z.b2z finalize) call' ld ∧ fc_err call' = fc_err call ∧
  fc_completed call' = fc_completed call ∧ (0 < fc_users call' → fc_data call' = fc_data call).
Proof.
  intros [Hc Hu Hl Hr Hd Hf Ht Hdata] HW. unfold abandon.
  assert (0 < fc_users call) as Hp.
  { destruct (fc_completed call && bool_decide (fc_err call ≠ None)); lia. }
  rewrite (proj2 (Z.leb_gt _ _)) by lia.
  set (data := if fc_completed call && (fc_users call - 1 =? 0) then None else fc_data call).
  assert (fc_users call - 1 ≠ 0 → data = fc_data call) as Hdt.
  { intros Hne. subst data. apply Z.eqb_neq in Hne as ->. by rewrite andb_false_r. }
  pose proof (take_ok (W - 1) L F (set_users call (fc_users call - 1) data) ld) as Htake. simpl in Htake.
  destruct (takeFinalizerLocked _) as [call' finalize].
  destruct Htake as (Hok & E1 & E2 & E3 & E4 & _); try done; try lia.
  - destruct (fc_completed call && bool_decide (fc_err call ≠ None)); lia.
  - intros Hfz. rewrite Hfz in Hf. symmetry in Hf. apply andb_true_iff in Hf as [Hcp [He|Hz]%orb_true_iff].
    + split; [done|]. left. by apply bool_decide_eq_true in He.
    + lia.
  - intros Hcp He Hp'. rewrite Hdt by lia. apply Hdata; [done|done|lia].
  - simpl. destruct (negb (fc_completed call) && (fc_users call - 1 =? 0)); simpl;
      (split_and!; [first [done|by apply canceled_ok]|done|done|]; intros Hp'; rewrite E1; apply Hdt; lia).
Qed.

Lemma close_ok W L F call :
  call_ok W L F call (Closing false) → call_ok W L F (set_done (set_canceled call)) Closed.
Proof.
  intros [Hc Hu Hl Hr Hd Hf Ht Hdata].
  assert (fc_completed call = true) as Hcp.
  { destruct (fc_completed call); [done|]. destruct Hl as [_ Hl]. by destruct Hl. }
  constructor; simpl; rewrite ?Hcp in *; try done. split; [|done]. by intros [? ?].
Qed.

Lemma closing_ok W L F call b b' :
  call_ok W L F call (Closing b) → call_ok W L F call (Closing b').
Proof.
  intros [Hc Hu Hl Hr Hd Hf Ht Hdata]. constructor; try done. rewrite <- Hl. split; by intros [? ?].
Qed.

(** ** All calls *)

Definition waits (c : N) (x : user) : bool := match x with Waiting c' => bool_decide (c' = c) | _ => false end.
Definition leases (c : N) (x : user) : bool := match x with Leased c' _ => bool_decide (c' = c) | _ => false end.
Definition finalizes (c : N) (x : user) : bool := match x with Finalizing c' => bool_decide (c' = c) | _ => false end.
Definition closes (ld : option loader) : Z := match ld with Some (Closing true) => 1 | _ => 0 end.
Definition released (c : N) (l : list N) : Z := len (filter (λ x, x = c) l).

(** How often the finalizer of a call was taken: by a caller, by its loader, or
    run already. *)
Definition tokens (σ : flights) (c : N) : Z :=
  count (finalizes c) (fl_users σ) + closes (fl_loaders σ !! c) + released c (fl_released σ).

Definition user_call (x : user) : N := match x with Waiting c | Leased c _ | Finalizing c => c end.

Record flight_inv (σ : flights) : Prop := {
  fi_call : ∀ c call, fg_heap (fl_group σ) !! c = Some call → ∃ ld, fl_loaders σ !! c = Some ld ∧
    call_ok (count (waits c) (fl_users σ)) (count (leases c) (fl_users σ)) (tokens σ c) call ld;
  fi_user : ∀ u x, fl_users σ !! u = Some x → ∃ call, fg_heap (fl_group σ) !! user_call x = Some call ∧
    ∀ data, x = Leased (user_call x) data → data ≠ None ∧ fc_data call = data;
  fi_absent : ∀ c, fg_heap (fl_group σ) !! c = None → fl_loaders σ !! c = None ∧ released c (fl_released σ) = 0;
  fi_registered : ∀ key c, fg_calls (fl_group σ) !! key = Some c → fl_loaders σ !! c = Some (Loading key);
  fi_unique : ∀ key c call, fl_loaders σ !! c = Some (Loading key) → fg_heap (fl_group σ) !! c = Some call →
    0 < fc_users call → fg_calls (fl_group σ) !! key = Some c;
}.

Lemma released_snoc c l d : released c (l ++ [d]) = released c l + Z.b2z (bool_decide (d = c)).
Proof.
  unfold released. rewrite filter_app, len_app, filter_cons. f_equal. case_decide; [by rewrite bool_decide_true|].
  by rewrite bool_decide_false.
Qed.

(** Counts that a change of state leaves alone. *)
Definition same_counts (c' : N) (σ : flights) (users : gmap N user) (loaders : gmap N loader) (rel : list N) : Prop :=
  count (waits c') users = count (waits c') (fl_users σ) ∧
  count (leases c') users = count (leases c') (fl_users σ) ∧
  count (finalizes c') users = count (finalizes c') (fl_users σ) ∧
  loaders !! c' = fl_loaders σ !! c' ∧ released c' rel = released c' (fl_released σ).

Lemma calls_update σ users (loaders : gmap N loader) rel c call ld :
  flight_inv σ → (∀ c', c' ≠ c → same_counts c' σ users loaders rel) → loaders !! c = Some ld →
  call_ok (count (waits c) users) (count (leases c) users)
    (count (finalizes c) users + closes (loaders !! c) + released c rel) call ld →
  ∀ c0 call0, <[c := call]> (fg_heap (fl_group σ)) !! c0 = Some call0 → ∃ ld0, loaders !! c0 = Some ld0 ∧
    call_ok (count (waits c0) users) (count (leases c0) users)
      (count (finalizes c0) users + closes (loaders !! c0) + released c0 rel) call0 ld0.
Proof.
  intros Hi Hsame Hld Hok c0 call0. destruct (decide (c0 = c)) as [->|Hne].
  - rewrite lookup_insert_eq. intros [= <-]. by exists ld.
  - rewrite lookup_insert_ne by done. intros Hc0. destruct (Hsame c0 Hne) as (-> & -> & -> & -> & ->).
    by apply (fi_call _ Hi).
Qed.

Lemma absent_update σ (loaders : gmap N loader) rel c call :
  flight_inv σ → (∀ c', c' ≠ c → loaders !! c' = fl_loaders σ !! c' ∧ released c' rel = released c' (fl_released σ)) →
  ∀ c0, <[c := call]> (fg_heap (fl_group σ)) !! c0 = None → loaders !! c0 = None ∧ released c0 rel = 0.
Proof.
  intros Hi Hsame c0 Hc0. destruct (decide (c0 = c)) as [->|Hne]; [by rewrite lookup_insert_eq in Hc0|].
  rewrite lookup_insert_ne in Hc0 by done. destruct (Hsame c0 Hne) as [-> ->]. by apply (fi_absent _ Hi).
Qed.

(** The counts after a user of [c] changed or left. *)
Lemma counts_replace (users : gmap N user) u x y c' :
  users !! u = Some x → user_call x ≠ c' → user_call y ≠ c' →
  (count (waits c') (<[u := y]> users) = count (waits c') users ∧
   count (leases c') (<[u := y]> users) = count (leases c') users ∧
   count (finalizes c') (<[u := y]> users) = count (finalizes c') users).
Proof.
  intros Hu Hx Hy. rewrite !(count_replace _ _ _ x y Hu).
  destruct x, y; simpl in *; rewrite ?(bool_decide_false _ Hx), ?(bool_decide_false _ Hy); simpl; lia.
Qed.

Lemma counts_delete (users : gmap N user) u x c' :
  users !! u = Some x → user_call x ≠ c' →
  (count (waits c') (delete u users) = count (waits c') users ∧
   count (leases c') (delete u users) = count (leases c') users ∧
   count (finalizes c') (delete u users) = count (finalizes c') users).
Proof.
  intros Hu Hx. rewrite !(count_delete _ _ _ x Hu).
  destruct x; simpl in *; rewrite ?(bool_decide_false _ Hx); simpl; lia.
Qed.

Lemma counts_leave users u x c c' finalize :
  users !! u = Some x → user_call x = c → c' ≠ c →
  (count (waits c') (leave users u c finalize) = count (waits c') users ∧
   count (leases c') (leave users u c finalize) = count (leases c') users ∧
   count (finalizes c') (leave users u c finalize) = count (finalizes c') users).
Proof.
  intros Hu Hx Hne. unfold leave. destruct finalize; [eapply counts_replace|eapply counts_delete]; simpl; eauto;
    by rewrite ?Hx.
Qed.

(** No user of a call that does not exist. *)
Lemma absent_counts σ c :
  flight_inv σ → fg_heap (fl_group σ) !! c = None →
  count (waits c) (fl_users σ) = 0 ∧ count (leases c) (fl_users σ) = 0 ∧ count (finalizes c) (fl_users σ) = 0.
Proof.
  intros Hi Hc. split_and!; apply count_zero; intros u x Hu; destruct (fi_user _ Hi _ _ Hu) as (call & Hcall & _);
    destruct x; simpl in *; try done; apply bool_decide_eq_false; congruence.
Qed.

Lemma heap_present σ c ld : flight_inv σ → fl_loaders σ !! c = Some ld → ∃ call, fg_heap (fl_group σ) !! c = Some call.
Proof.
  intros Hi Hl. destruct (fg_heap (fl_group σ) !! c) as [call|] eqn:E; [by exists call|].
  apply (fi_absent _ Hi) in E as [? _]. congruence.
Qed.

(** The users of other calls keep their call and their data. *)
Lemma users_update σ (users : gmap N user) c call call' :
  flight_inv σ → fg_heap (fl_group σ) !! c = Some call →
  (∀ u x, users !! u = Some x → user_call x = c ∨ fl_users σ !! u = Some x) →
  (∀ u data, users !! u = Some (Leased c data) → data ≠ None ∧ fc_data call' = data) →
  ∀ u x, users !! u = Some x → ∃ call0, <[c := call']> (fg_heap (fl_group σ)) !! user_call x = Some call0 ∧
    ∀ data, x = Leased (user_call x) data → data ≠ None ∧ fc_data call0 = data.
Proof.
  intros Hi Hc Hold Hdata u x Hx. destruct (decide (user_call x = c)) as [Ec|Hne].
  - exists call'. rewrite Ec, lookup_insert_eq. split; [done|]. intros data ->. by eapply Hdata.
  - destruct (Hold u x Hx) as [?|Hu]; [done|]. rewrite lookup_insert_ne by done. by apply (fi_user _ Hi) in Hu.
Qed.

(** Counts of finalizers up to arithmetic. *)
Ltac retoken H :=
  match type of H with
  | call_ok _ _ ?F _ _ => match goal with |- call_ok _ _ ?F' _ _ => replace F' with F by lia end
  end.

(** Steps that change one call object and one user of it. *)
Lemma leave_inv σ u x c call call' finalize :
  flight_inv σ → fl_users σ !! u = Some x → user_call x = c → fg_heap (fl_group σ) !! c = Some call →
  fc_completed call' = fc_completed call →
  (∀ ld, fl_loaders σ !! c = Some ld →
     call_ok (count (waits c) (fl_users σ) - Z.b2z (waits c x)) (count (leases c) (fl_users σ) - Z.b2z (leases c x))
       (tokens σ c - Z.b2z (finalizes c x) + Z.b2z finalize) call' ld) →
  (0 < fc_users call' → fc_data call' = fc_data call) → (0 < fc_users call' → 0 < fc_users call) →
  flight_inv {| fl_group := set_call (fl_group σ) c call'; fl_users := leave (fl_users σ) u c finalize;
    fl_loaders := fl_loaders σ; fl_released := fl_released σ |}.
Proof.
  intros Hi Hu Hx Hc Hcp Hok Hdata Husers. destruct (fi_call _ Hi _ _ Hc) as (ld & Hld & Hck).
  specialize (Hok ld Hld).
  assert (count (waits c) (leave (fl_users σ) u c finalize) = count (waits c) (fl_users σ) - Z.b2z (waits c x) ∧
    count (leases c) (leave (fl_users σ) u c finalize) = count (leases c) (fl_users σ) - Z.b2z (leases c x) ∧
    count (finalizes c) (leave (fl_users σ) u c finalize) =
      count (finalizes c) (fl_users σ) - Z.b2z (finalizes c x) + Z.b2z finalize) as (Ew & El & Ef).
  { unfold leave. destruct finalize; rewrite ?(count_replace _ _ _ x (Finalizing c) Hu), ?(count_delete _ _ _ x Hu);
      simpl; rewrite ?bool_decide_true by done; simpl; lia. }
  unfold tokens in Hok. rewrite <- Ew, <- El in Hok.
  constructor; simpl.
  - eapply calls_update; [done| |exact Hld|].
    + intros c' Hne. destruct (counts_leave (fl_users σ) u x c c' finalize Hu Hx Hne) as (? & ? & ?). done.
    + simpl. rewrite Ef. by retoken Hok.
  - eapply users_update; [done|exact Hc| |].
    + intros u' x' Hx'. unfold leave in Hx'. destruct (decide (u' = u)) as [->|Hne].
      * destruct finalize; [rewrite lookup_insert_eq in Hx'; left; by simplify_eq|by rewrite lookup_delete_eq in Hx'].
      * destruct finalize; [rewrite lookup_insert_ne in Hx' by done|rewrite lookup_delete_ne in Hx' by done]; by right.
    + intros u' data Hl. pose proof (count_lookup (leases c) _ _ _ Hl ltac:(simpl; by rewrite bool_decide_true)) as HL.
      assert (fl_users σ !! u' = Some (Leased c data)) as Hold.
      { unfold leave in Hl. destruct (decide (u' = u)) as [->|Hne].
        - destruct finalize; [by rewrite lookup_insert_eq in Hl|by rewrite lookup_delete_eq in Hl].
        - destruct finalize; [by rewrite lookup_insert_ne in Hl|by rewrite lookup_delete_ne in Hl]. }
      destruct (fi_user _ Hi _ _ Hold) as (call0 & Hc0 & Hd). simpl in *. simplify_eq.
      destruct (Hd data eq_refl) as [? <-]. split; [done|]. apply Hdata.
      destruct Hok as [Hcnt Huse _ _ _ _ _ _]. destruct (_ && _) in Huse; lia.
  - eapply absent_update; [done|]. done.
  - apply (fi_registered _ Hi).
  - intros key c0 call0 Hl0 Hc0 Hpos. destruct (decide (c0 = c)) as [->|Hne].
    + rewrite lookup_insert_eq in Hc0. simplify_eq. eapply (fi_unique _ Hi); [done|done|by apply Husers].
    + rewrite lookup_insert_ne in Hc0 by done. by eapply (fi_unique _ Hi).
Qed.

Lemma abandon_inv σ u c call call' finalize :
  flight_inv σ → fl_users σ !! u = Some (Waiting c) → fg_heap (fl_group σ) !! c = Some call →
  abandon call = (call', finalize) →
  flight_inv {| fl_group := set_call (fl_group σ) c call'; fl_users := leave (fl_users σ) u c finalize;
    fl_loaders := fl_loaders σ; fl_released := fl_released σ |}.
Proof.
  intros Hi Hu Hc E. destruct (fi_call _ Hi _ _ Hc) as (ld & Hld & Hck).
  pose proof (count_lookup (waits c) _ _ _ Hu ltac:(simpl; by rewrite bool_decide_true)) as HW.
  pose proof (abandon_ok _ _ _ _ _ Hck HW) as Hok. rewrite E in Hok. destruct Hok as (Hok & _ & Hcp & Hd).
  eapply leave_inv; [done|exact Hu|done|done|done| |done|].
  - intros ld' Hld'. simplify_eq. simpl. rewrite bool_decide_true by done. simpl. rewrite !Z.sub_0_r. done.
  - intros _. destruct Hck as [Hcnt Huse _ _ _ _ _ _]. destruct (_ && _) in Huse; lia.
Qed.

Lemma release_inv σ u c data call call' finalize :
  flight_inv σ → fl_users σ !! u = Some (Leased c data) → fg_heap (fl_group σ) !! c = Some call →
  releaseUser call = Some (call', finalize) →
  flight_inv {| fl_group := set_call (fl_group σ) c call'; fl_users := leave (fl_users σ) u c finalize;
    fl_loaders := fl_loaders σ; fl_released := fl_released σ |}.
Proof.
  intros Hi Hu Hc E. destruct (fi_call _ Hi _ _ Hc) as (ld & Hld & Hck).
  pose proof (count_lookup (leases c) _ _ _ Hu ltac:(simpl; by rewrite bool_decide_true)) as HL.
  destruct (release_ok _ _ _ _ _ Hck HL) as (call2 & fin2 & E2 & Hok & _ & Hcp & Hd). simplify_eq.
  eapply leave_inv; [done|exact Hu|done|done|done| |done|].
  - intros ld' Hld'. simplify_eq. simpl. rewrite bool_decide_true by done. simpl. rewrite !Z.sub_0_r. done.
  - intros _. destruct Hck as [Hcnt Huse _ _ _ _ _ _]. destruct (_ && _) in Huse; lia.
Qed.

(** Steps of the loaders leave the users alone. *)
Lemma loader_inv σ c call call' ld ld' calls rel :
  flight_inv σ → fl_loaders σ !! c = Some ld → fg_heap (fl_group σ) !! c = Some call →
  (∀ c', c' ≠ c → released c' rel = released c' (fl_released σ)) →
  call_ok (count (waits c) (fl_users σ)) (count (leases c) (fl_users σ))
    (count (finalizes c) (fl_users σ) + closes (Some ld') + released c rel) call' ld' →
  (∀ u data, fl_users σ !! u = Some (Leased c data) → fc_data call' = fc_data call) →
  (∀ key, ld' ≠ Loading key) →
  (∀ key c', calls !! key = Some c' → fg_calls (fl_group σ) !! key = Some c' ∧ c' ≠ c) →
  (∀ key c', c' ≠ c → fg_calls (fl_group σ) !! key = Some c' → calls !! key = Some c') →
  flight_inv {| fl_group := {| fg_calls := calls; fg_heap := <[c := call']> (fg_heap (fl_group σ)) |};
    fl_users := fl_users σ; fl_loaders := <[c := ld']> (fl_loaders σ); fl_released := rel |}.
Proof.
  intros Hi Hld Hc Hrel Hok Hdata Hno Hcalls Hkeep. constructor; simpl.
  - eapply calls_update; [done| |apply lookup_insert_eq|simpl; by rewrite lookup_insert_eq].
    intros c' Hne. unfold same_counts. simpl. split_and!; [done|done|done|by rewrite lookup_insert_ne|by apply Hrel].
  - eapply users_update; [done|exact Hc|by right|]. intros u data Hu.
    destruct (fi_user _ Hi _ _ Hu) as (call0 & Hc0 & Hd). simpl in *. simplify_eq.
    destruct (Hd data eq_refl) as [? <-]. split; [done|by eapply Hdata].
  - eapply absent_update; [done|]. intros c' Hne. split; [by rewrite lookup_insert_ne|by apply Hrel].
  - intros key c' Hk. destruct (Hcalls _ _ Hk) as [Hk' Hne]. rewrite lookup_insert_ne by done.
    by apply (fi_registered _ Hi).
  - intros key c0 call0. destruct (decide (c0 = c)) as [->|Hne].
    + rewrite lookup_insert_eq. intros [= Heq]. by destruct (Hno key).
    + rewrite !lookup_insert_ne by done. intros Hl0 Hc0 Hpos. apply Hkeep; [done|]. by eapply (fi_unique _ Hi).
Qed.

Lemma complete_inv σ key c call r group finalize :
  flight_inv σ → fl_loaders σ !! c = Some (Loading key) → fg_heap (fl_group σ) !! c = Some call →
  finishRun (fl_group σ) key c call r = (group, finalize) →
  flight_inv {| fl_group := group; fl_users := fl_users σ;
    fl_loaders := <[c := Closing finalize]> (fl_loaders σ); fl_released := fl_released σ |}.
Proof.
  intros Hi Hld Hc. destruct (fi_call _ Hi _ _ Hc) as (ld & Hld' & Hck). simplify_eq.
  pose proof (complete_ok _ _ _ _ key r Hck) as Hok. unfold finishRun.
  destruct (completeCall call r) as [call' fin]. destruct Hok as (Hok & Hcp & HL). intros [= <- <-].
  eapply loader_inv; [done|exact Hld|exact Hc|done| | |done| |].
  - unfold tokens in Hok. rewrite Hld in Hok. by destruct fin; simpl in *; retoken Hok.
  - intros u data Hu. pose proof (count_lookup (leases c) _ _ _ Hu ltac:(simpl; by rewrite bool_decide_true)). lia.
  - intros k c' Hk. case_bool_decide as Hreg.
    + apply lookup_delete_Some in Hk as [Hne Hk]. split; [done|]. intros ->.
      apply (fi_registered _ Hi) in Hk. rewrite Hld in Hk. by simplify_eq.
    + split; [done|]. intros ->. pose proof (fi_registered _ Hi _ _ Hk) as Hk'. rewrite Hld in Hk'. by simplify_eq.
  - intros k c' Hne Hk. case_bool_decide as Hreg; [|done]. rewrite lookup_delete_ne; [done|]. intros <-. congruence.
Qed.

Lemma calls_other σ c ld :
  flight_inv σ → fl_loaders σ !! c = Some ld → (∀ key, ld ≠ Loading key) →
  ∀ key c', fg_calls (fl_group σ) !! key = Some c' → fg_calls (fl_group σ) !! key = Some c' ∧ c' ≠ c.
Proof.
  intros Hi Hld Hno key c' Hk. split; [done|]. intros ->. apply (fi_registered _ Hi) in Hk.
  rewrite Hld in Hk. simplify_eq. by destruct (Hno key).
Qed.

Lemma finalize_run_inv σ c :
  flight_inv σ → fl_loaders σ !! c = Some (Closing true) →
  flight_inv {| fl_group := fl_group σ; fl_users := fl_users σ;
    fl_loaders := <[c := Closing false]> (fl_loaders σ); fl_released := fl_released σ ++ [c] |}.
Proof.
  intros Hi Hld. destruct (heap_present _ _ _ Hi Hld) as [call Hc].
  destruct (fi_call _ Hi _ _ Hc) as (ld & Hld' & Hck). simplify_eq.
  assert (fl_group σ = {| fg_calls := fg_calls (fl_group σ); fg_heap := <[c := call]> (fg_heap (fl_group σ)) |}) as ->.
  { rewrite insert_id by done. by destruct (fl_group σ). }
  eapply loader_inv; [done|exact Hld|exact Hc| | |done|done|by eapply calls_other|done].
  - intros c' Hne. rewrite released_snoc, bool_decide_false by done. simpl. lia.
  - apply (closing_ok _ _ _ _ true). unfold tokens in Hck. rewrite Hld in Hck. rewrite released_snoc, bool_decide_true by done.
    simpl in *. by retoken Hck.
Qed.

Lemma close_inv σ c call :
  flight_inv σ → fl_loaders σ !! c = Some (Closing false) → fg_heap (fl_group σ) !! c = Some call →
  flight_inv {| fl_group := set_call (fl_group σ) c (set_done (set_canceled call)); fl_users := fl_users σ;
    fl_loaders := <[c := Closed]> (fl_loaders σ); fl_released := fl_released σ |}.
Proof.
  intros Hi Hld Hc. destruct (fi_call _ Hi _ _ Hc) as (ld & Hld' & Hck). simplify_eq.
  eapply loader_inv; [done|exact Hld|exact Hc|done| |done|done|by eapply calls_other|done].
  apply close_ok. unfold tokens in Hck. rewrite Hld in Hck. done.
Qed.

(** Starting or joining a load. *)
Lemma enter_inv σ u c call ld calls loaders :
  flight_inv σ → fl_users σ !! u = None →
  (∀ c', c' ≠ c → loaders !! c' = fl_loaders σ !! c') → loaders !! c = Some ld →
  call_ok (count (waits c) (fl_users σ) + 1) (count (leases c) (fl_users σ))
    (count (finalizes c) (fl_users σ) + closes (Some ld) + released c (fl_released σ)) call ld →
  (∀ old, fg_heap (fl_group σ) !! c = Some old → fc_data call = fc_data old) →
  (∀ key c', calls !! key = Some c' → loaders !! c' = Some (Loading key)) →
  (∀ key c0 call0, loaders !! c0 = Some (Loading key) →
     <[c := call]> (fg_heap (fl_group σ)) !! c0 = Some call0 → 0 < fc_users call0 → calls !! key = Some c0) →
  flight_inv {| fl_group := {| fg_calls := calls; fg_heap := <[c := call]> (fg_heap (fl_group σ)) |};
    fl_users := <[u := Waiting c]> (fl_users σ); fl_loaders := loaders; fl_released := fl_released σ |}.
Proof.
  intros Hi Hu Hother Hld Hok Hdata Hreg Huniq. constructor; simpl; [| | |done|done].
  - eapply calls_update; [done| |exact Hld|]; simpl.
    + intros c' Hne. unfold same_counts. simpl. rewrite !count_insert by done. simpl.
      rewrite bool_decide_false by done. simpl. split_and!; [lia|lia|lia|by apply Hother|done].
    + rewrite !count_insert, Hld by done. simpl. rewrite bool_decide_true by done. simpl.
      by rewrite (Z.add_comm 1), !Z.add_0_l.
  - intros u' x. destruct (decide (u' = u)) as [->|Hne].
    { rewrite lookup_insert_eq. intros [= <-]. simpl. exists call. by rewrite lookup_insert_eq. }
    rewrite lookup_insert_ne by done. intros Hx. destruct (fi_user _ Hi _ _ Hx) as (old & Hold & Hd).
    destruct (decide (user_call x = c)) as [Ec|Hnc]; [|exists old; by rewrite lookup_insert_ne].
    exists call. rewrite Ec, lookup_insert_eq in *. split; [done|]. intros data Hxd.
    destruct (Hd data Hxd) as [? <-]. split; [done|]. by apply Hdata.
  - eapply absent_update; [done|]. intros c' Hne. split; [by apply Hother|done].
Qed.

(** A registered call with users is not replaced. *)
Lemma start_unique σ key c0 call0 :
  flight_inv σ → fl_loaders σ !! c0 = Some (Loading key) → fg_heap (fl_group σ) !! c0 = Some call0 →
  0 < fc_users call0 → ∀ fresh, (Do (fl_group σ) key fresh).2 = false.
Proof.
  intros Hi Hld Hc Hp fresh. unfold Do. rewrite (fi_unique _ Hi _ _ _ Hld Hc Hp), Hc.
  by rewrite (proj2 (Z.ltb_lt _ _)).
Qed.

Lemma Do_cases group key fresh group' c started :
  Do group key fresh = (group', c, started) →
  (started = true ∧ c = fresh ∧
   group' = {| fg_calls := <[key := fresh]> (fg_calls group); fg_heap := <[fresh := newCall]> (fg_heap group) |}) ∨
  (∃ old, started = false ∧ fg_calls group !! key = Some c ∧ fg_heap group !! c = Some old ∧ 0 < fc_users old ∧
     group' = set_call group c (set_users old (fc_users old + 1) (fc_data old))).
Proof.
  unfold Do. destruct (fg_calls group !! key) as [c0|] eqn:Ek; [|intros [= <- <- <-]; by left].
  destruct (fg_heap group !! c0) as [old|] eqn:Ec; [|intros [= <- <- <-]; by left].
  destruct (Z.ltb_spec 0 (fc_users old)); intros [= <- <- <-]; [right|by left]. by exists old.
Qed.

Lemma do_inv σ u key fresh group c started :
  flight_inv σ → fl_users σ !! u = None → fg_heap (fl_group σ) !! fresh = None →
  Do (fl_group σ) key fresh = (group, c, started) →
  flight_inv {| fl_group := group; fl_users := <[u := Waiting c]> (fl_users σ);
    fl_loaders := if started then <[c := Loading key]> (fl_loaders σ) else fl_loaders σ;
    fl_released := fl_released σ |}.
Proof.
  intros Hi Hu Hfresh E. pose proof E as [(-> & -> & ->)|(old & -> & Hk & Hc & Hp & ->)]%Do_cases.
  - destruct (absent_counts _ _ Hi Hfresh) as (Ew & El & Ef). destruct (fi_absent _ Hi _ Hfresh) as [Hl Hr].
    eapply (enter_inv σ u fresh newCall (Loading key)); [done|done|by intros; rewrite lookup_insert_ne
      |apply lookup_insert_eq| |congruence| |].
    + rewrite Ew, El, Ef, Hr. simpl. apply new_ok.
    + intros k c'. destruct (decide (k = key)) as [->|Hne].
      * rewrite lookup_insert_eq. intros [= <-]. apply lookup_insert_eq.
      * rewrite lookup_insert_ne by done. intros Hk. apply (fi_registered _ Hi) in Hk.
        rewrite lookup_insert_ne; [done|]. intros <-. congruence.
    + intros k c0 call0. destruct (decide (c0 = fresh)) as [->|Hne].
      * rewrite !lookup_insert_eq. intros [= ->] _ _. apply lookup_insert_eq.
      * rewrite !lookup_insert_ne by done. intros Hl0 Hc0 Hp0. destruct (decide (k = key)) as [->|Hk].
        -- pose proof (start_unique _ _ _ _ Hi Hl0 Hc0 Hp0 fresh) as Hst. by rewrite E in Hst.
        -- rewrite lookup_insert_ne by done. by eapply (fi_unique _ Hi).
  - pose proof (fi_registered _ Hi _ _ Hk) as Hld. destruct (fi_call _ Hi _ _ Hc) as (ld & Hld' & Hck). simplify_eq.
    assert (fc_completed old = false) as Hcp by (apply (ck_loading _ _ _ _ _ Hck); by exists key).
    eapply (enter_inv σ u c _ (Loading key)); [done|done|done|done| | |by apply (fi_registered _ Hi)|].
    + pose proof (join_ok _ _ _ _ _ Hck Hcp) as Hj. unfold tokens in Hj. rewrite Hld in Hj. exact Hj.
    + intros old' Hold'. by simplify_eq.
    + intros k c0 call0 Hl0. destruct (decide (c0 = c)) as [->|Hne].
      * rewrite Hld in Hl0. simplify_eq. by intros _ _.
      * rewrite lookup_insert_ne by done. intros Hc0 Hp0. by eapply (fi_unique _ Hi).
Qed.

(** A waiting caller learns the result: it leaves with the error or takes a
    lease. *)
Lemma wait_inv σ u c call :
  flight_inv σ → fl_users σ !! u = Some (Waiting c) → fg_heap (fl_group σ) !! c = Some call → fc_done call = true →
  flight_inv {| fl_group := fl_group σ;
    fl_users := match fc_err call with
                | Some _ => delete u (fl_users σ)
                | None => <[u := Leased c (fc_data call)]> (fl_users σ)
                end;
    fl_loaders := fl_loaders σ; fl_released := fl_released σ |}.
Proof.
  intros Hi Hu Hc Hdone. destruct (fi_call _ Hi _ _ Hc) as (ld & Hld & Hck).
  pose proof (ck_done _ _ _ _ _ Hck Hdone) as Hcp.
  pose proof (count_lookup (waits c) _ _ _ Hu ltac:(simpl; by rewrite bool_decide_true)) as HW.
  destruct (fc_err call) as [e|] eqn:He.
  - assert (fl_group σ = set_call (fl_group σ) c call) as ->.
    { unfold set_call. rewrite insert_id by done. by destruct (fl_group σ). }
    eapply (leave_inv σ u _ c call call false); [done|exact Hu|done|done|done| |done|done].
    intros ld' Hld'. simplify_eq. simpl. rewrite bool_decide_true by done. simpl. rewrite !Z.sub_0_r, Z.add_0_r.
    destruct Hck as [Hcnt Huse Hl Hr Hd Hf Ht Hdata]. constructor; try done; [lia|].
    rewrite Hcp, He in *. simpl in *. lia.
  - destruct Hck as [Hcnt Huse Hl Hr Hd Hf Ht Hdata]. rewrite Hcp, He in Huse. simpl in Huse.
    constructor; simpl; [| |apply (fi_absent _ Hi)|apply (fi_registered _ Hi)|apply (fi_unique _ Hi)].
    + rewrite <- (insert_id (fg_heap (fl_group σ)) c call Hc).
      eapply calls_update; [done| |exact Hld|]; simpl.
      * intros c' Hne. destruct (counts_replace (fl_users σ) u (Waiting c) (Leased c (fc_data call)) c' Hu)
          as (? & ? & ?); [simpl; congruence|simpl; congruence|]. done.
      * rewrite !(count_replace _ _ _ _ (Leased c (fc_data call)) Hu). simpl. rewrite bool_decide_true by done. simpl.
        constructor; rewrite ?Hcp, ?He; simpl; try done; [lia|lia|by rewrite <- Hcp at 1|by rewrite Hf, Hcp, He| |].
        -- unfold tokens in Ht. lia.
        -- intros _ _. by apply Hdata.
    + intros u' x. destruct (decide (u' = u)) as [->|Hne]; [|rewrite lookup_insert_ne by done; apply (fi_user _ Hi)].
      rewrite lookup_insert_eq. intros [= <-]. simpl. exists call. split; [done|]. intros data [= <-].
      split; [|done]. apply Hdata; [done|done|lia].
Qed.

Lemma finalize_inv σ u c :
  flight_inv σ → fl_users σ !! u = Some (Finalizing c) →
  flight_inv {| fl_group := fl_group σ; fl_users := delete u (fl_users σ); fl_loaders := fl_loaders σ;
    fl_released := fl_released σ ++ [c] |}.
Proof.
  intros Hi Hu. destruct (fi_user _ Hi _ _ Hu) as (call & Hc & _). simpl in Hc.
  destruct (fi_call _ Hi _ _ Hc) as (ld & Hld & Hck).
  constructor; simpl; [| | |apply (fi_registered _ Hi)|apply (fi_unique _ Hi)].
  - rewrite <- (insert_id (fg_heap (fl_group σ)) c call Hc). eapply calls_update; [done| |exact Hld|]; simpl.
    + intros c' Hne. destruct (counts_delete (fl_users σ) u (Finalizing c) c' Hu) as (? & ? & ?); [simpl; congruence|].
      unfold same_counts. rewrite released_snoc, bool_decide_false by done. simpl. split_and!; try done. lia.
    + rewrite !(count_delete _ _ _ _ Hu), released_snoc. simpl. rewrite bool_decide_true by done. simpl.
      rewrite !Z.sub_0_r. unfold tokens in Hck. by retoken Hck.
  - intros u' x [_ Hx]%lookup_delete_Some. by apply (fi_user _ Hi) in Hx.
  - intros c' Hc'. destruct (fi_absent _ Hi _ Hc') as [? Hr]. split; [done|].
    rewrite released_snoc, bool_decide_false by congruence. simpl. lia.
Qed.

Lemma flight_step_inv σ σ' : flight_inv σ → flight_step σ σ' → flight_inv σ'.
Proof.
  intros Hi. destruct 1; [by eapply do_inv|by eapply complete_inv|by apply finalize_run_inv|by eapply close_inv
    |by eapply wait_inv|by eapply abandon_inv|by eapply release_inv|by apply finalize_inv].
Qed.

Lemma reachable_flights σ : rtc flight_step no_flights σ → flight_inv σ.
Proof.
  intros Hr. assert (flight_inv no_flights) as H0 by (constructor; simpl; try done; intros ? ?; by rewrite lookup_empty).
  revert H0. induction Hr as [|σ σ1 σ2 Hs _ IH]; [done|]. intros H0. by eapply IH, flight_step_inv.
Qed.

(** C38: a shared download is released exactly once, and not while it is read.
    In every state that callers of Do, loaders, cancellations and releases
    reach: the reservation of a call is released at most once; while a caller
    holds a lease, it has the loaded bytes, the same as every other holder, the
    reservation has not been released and nobody is about to release it, and
    giving the lease back does not panic; a call whose loader is done and that
    nobody waits for or reads has been released; and of the running loads of one
    key at most one has users. *)
Theorem flights_release_once (σ : flights) :
  rtc flight_step no_flights σ →
  (∀ c, released c (fl_released σ) ≤ 1) ∧
  (∀ u c data, fl_users σ !! u = Some (Leased c data) →
     data ≠ None ∧ tokens σ c = 0 ∧ released c (fl_released σ) = 0 ∧
     ∃ call, fg_heap (fl_group σ) !! c = Some call ∧ fc_err call = None ∧ fc_data call = data ∧
       releaseUser call ≠ None) ∧
  (∀ c, fl_loaders σ !! c = Some Closed → (∀ u x, fl_users σ !! u = Some x → user_call x ≠ c) →
     released c (fl_released σ) = 1) ∧
  (∀ key c c' call call', fl_loaders σ !! c = Some (Loading key) → fl_loaders σ !! c' = Some (Loading key) →
     fg_heap (fl_group σ) !! c = Some call → fg_heap (fl_group σ) !! c' = Some call' →
     0 < fc_users call → 0 < fc_users call' → c = c').
Proof.
  intros Hr. pose proof (reachable_flights _ Hr) as Hi.
  assert (∀ c, 0 ≤ released c (fl_released σ) ≤ tokens σ c) as Htok.
  { intros c. pose proof (count_nonneg (finalizes c) (fl_users σ)). unfold tokens, released.
    pose proof (len_nonneg (filter (λ x, x = c) (fl_released σ))).
    destruct (fl_loaders σ !! c) as [[|[]|]|]; simpl; lia. }
  split_and!.
  - intros c. destruct (fg_heap (fl_group σ) !! c) as [call|] eqn:Hc.
    + destruct (fi_call _ Hi _ _ Hc) as (ld & _ & Hck). pose proof (ck_tokens _ _ _ _ _ Hck) as Ht.
      specialize (Htok c). destruct (fc_finalized call); simpl in Ht; lia.
    + destruct (fi_absent _ Hi _ Hc) as [_ ->]. lia.
  - intros u c data Hu. destruct (fi_user _ Hi _ _ Hu) as (call & Hc & Hd). simpl in *.
    destruct (Hd data eq_refl) as [Hne Hdata]. destruct (fi_call _ Hi _ _ Hc) as (ld & _ & Hck).
    pose proof (count_lookup (leases c) _ _ _ Hu ltac:(simpl; by rewrite bool_decide_true)) as HL.
    destruct (release_ok _ _ _ _ _ Hck HL) as (call' & fin & Hrel & _).
    destruct Hck as [Hcnt Huse Hl Hrun Hdn Hf Ht Hdt].
    destruct (fc_completed call) eqn:Hcp; [|destruct Hrun; lia]. simpl in *.
    destruct (decide (fc_err call = None)) as [He|He]; [|rewrite bool_decide_true in Huse by done; lia].
    rewrite bool_decide_false in Huse, Hf by naive_solver. simpl in Hf.
    rewrite (proj2 (Z.eqb_neq _ _)) in Hf by lia. rewrite Hf in Ht. simpl in Ht. specialize (Htok c).
    split_and!; [done|done|lia|]. exists call. by rewrite Hrel.
  - intros c Hld Hno. destruct (heap_present _ _ _ Hi Hld) as [call Hc].
    destruct (fi_call _ Hi _ _ Hc) as (ld & Hld' & Hck). simplify_eq.
    assert (count (waits c) (fl_users σ) = 0 ∧ count (leases c) (fl_users σ) = 0 ∧ count (finalizes c) (fl_users σ) = 0)
      as (Ew & El & Ef).
    { split_and!; apply count_zero; intros u x Hx; specialize (Hno u x Hx); destruct x; simpl in *; try done;
        by apply bool_decide_eq_false. }
    destruct Hck as [Hcnt Huse Hl Hrun Hdn Hf Ht Hdt]. rewrite Ew, El in *. unfold tokens in Ht. rewrite Ef, Hld in Ht.
    destruct (fc_completed call) eqn:Hcp; [|by destruct Hl as [_ Hl]; destruct Hl]. simpl in *. rewrite Hf in Ht.
    destruct (decide (fc_err call = None)) as [He|He].
    + rewrite bool_decide_false in Huse, Ht by naive_solver. rewrite Huse in Ht. simpl in Ht. lia.
    + rewrite bool_decide_true in Ht by done. simpl in Ht. lia.
  - intros key c c' call call' H1 H2 H3 H4 H5 H6.
    pose proof (fi_unique _ Hi _ _ _ H1 H3 H5). pose proof (fi_unique _ Hi _ _ _ H2 H4 H6). congruence.
Qed.
End Group.

(** Two callers share a load; the first cancels, the second reads, and its
    release gives the reservation back. *)
Definition toy_join (σ : flights (K:=N)) (u fresh : N) : flights :=
  let '(group, c, started) := Do (fl_group σ) 5%N fresh in
  {| fl_group := group; fl_users := <[u := Waiting c]> (fl_users σ);
     fl_loaders := if started then <[c := Loading 5%N]> (fl_loaders σ) else fl_loaders σ;
     fl_released := fl_released σ |}.
Definition toy_load (σ : flights (K:=N)) (c : N) (call : flightCall) (r : result bytes) : flights :=
  let '(group, finalize) := finishRun (fl_group σ) 5%N c call r in
  {| fl_group := group; fl_users := fl_users σ; fl_loaders := <[c := Closing finalize]> (fl_loaders σ);
     fl_released := fl_released σ |}.
Definition toy_close (σ : flights (K:=N)) (c : N) (call : flightCall) : flights :=
  {| fl_group := set_call (fl_group σ) c (set_done (set_canceled call)); fl_users := fl_users σ;
     fl_loaders := <[c := Closed]> (fl_loaders σ); fl_released := fl_released σ |}.
Definition toy_take (σ : flights (K:=N)) (u c : N) (call : flightCall) : flights :=
  {| fl_group := fl_group σ;
     fl_users := match fc_err call with
                 | Some _ => delete u (fl_users σ) | None => <[u := Leased c (fc_data call)]> (fl_users σ) end;
     fl_loaders := fl_loaders σ; fl_released := fl_released σ |}.
Definition toy_leave (σ : flights (K:=N)) (u c : N) (x : flightCall * bool) : flights :=
  {| fl_group := set_call (fl_group σ) c x.1; fl_users := leave (fl_users σ) u c x.2;
     fl_loaders := fl_loaders σ; fl_released := fl_released σ |}.
Definition toy_call (σ : flights (K:=N)) (c : N) : flightCall :=
  match fg_heap (fl_group σ) !! c with Some call => call | None => newCall end.

Definition toy_joined : flights := toy_join (toy_join no_flights 7 1) 8 2.
Definition toy_left : flights := toy_leave toy_joined 7 1 (abandon (toy_call toy_joined 1)).
Definition toy_loaded : flights := toy_load toy_left 1 (toy_call toy_left 1) (Ok (str "data")).
Definition toy_closed : flights := toy_close toy_loaded 1 (toy_call toy_loaded 1).
Definition toy_leased : flights := toy_take toy_closed 8 1 (toy_call toy_closed 1).

Lemma toy_join_step σ u fresh :
  fl_users σ !! u = None → fg_heap (fl_group σ) !! fresh = None → flight_step σ (toy_join σ u fresh).
Proof.
  intros Hu Hf. unfold toy_join. destruct (Do (fl_group σ) 5%N fresh) as [[group c] started] eqn:E.
  by eapply step_do.
Qed.
Lemma toy_leave_step σ u c call :
  fl_users σ !! u = Some (Waiting c) → fg_heap (fl_group σ) !! c = Some call →
  flight_step σ (toy_leave σ u c (abandon call)).
Proof. intros Hu Hc. eapply step_abandon; [done|done|]. by destruct (abandon call). Qed.
Lemma toy_load_step σ c call r :
  fl_loaders σ !! c = Some (Loading 5%N) → fg_heap (fl_group σ) !! c = Some call →
  flight_step σ (toy_load σ c call r).
Proof.
  intros Hl Hc. unfold toy_load. destruct (finishRun (fl_group σ) 5%N c call r) as [group fin] eqn:E.
  by eapply step_complete.
Qed.

Lemma toy_leased_reachable : rtc flight_step no_flights toy_leased.
Proof.
  apply (rtc_l _ _ (toy_join no_flights 7 1)); [by apply toy_join_step; vm_compute|].
  apply (rtc_l _ _ toy_joined); [by apply toy_join_step; vm_compute|].
  apply (rtc_l _ _ toy_left); [by apply toy_leave_step; vm_compute|].
  apply (rtc_l _ _ toy_loaded); [by apply toy_load_step; vm_compute|].
  apply (rtc_l _ _ toy_closed); [by apply step_close; vm_compute|].
  apply (rtc_l _ _ toy_leased); [by apply step_wait; vm_compute|].
  apply rtc_refl.
Qed.

Example toy_release_last :
  fl_users toy_leased !! 8%N = Some (Leased 1 (Some (str "data"))) ∧
  match releaseUser (toy_call toy_leased 1) with Some (_, finalize) => finalize = true | None => False end.
Proof. by vm_compute. Qed.

Lemma flights_release_once_witness :
  released 1 (fl_released toy_leased) ≤ 1 ∧ tokens toy_leased 1 = 0.
Proof.
  destruct (flights_release_once toy_leased toy_leased_reachable) as (H1 & H2 & _).
  split; [apply H1|]. apply (H2 8%N 1%N (Some (str "data"))). by vm_compute.
Defined.
