(* ===== verification/Backoff.v ===== *)
(** * Retry delays ([live.go])

    Durations are int64 nanoseconds, factors are IEEE 754 double precision
    numbers in the formalisation of the Standard Library ([SpecFloat], 53 bits
    of precision), so that the scaling of the code is executable bit for bit.
    The options of Watch and Poll are validated and completed with their
    defaults here; the loops that use the delays are in [Watch] and [Poll]. *)

From Stdlib Require Import SpecFloat.
From S2P Require Import Prelude.

(** ** float64 *)

Definition float64 := spec_float.
Definition float64_of (z : Z) : float64 := binary_normalize 53 1024 z 0 false.
Definition fmul (x y : float64) : float64 := SFmul 53 1024 x y.
Definition fadd (x y : float64) : float64 := SFadd 53 1024 x y.
Definition fsub (x y : float64) : float64 := SFsub 53 1024 x y.
Definition flt (x y : float64) : bool := SFltb x y.
Definition fle (x y : float64) : bool := SFleb x y.
Definition feq (x y : float64) : bool := SFeqb x y.
Definition IsNaN (x : float64) : bool := match x with S754_nan => true | _ => false end.
Definition IsInf (x : float64) : bool := match x with S754_infinity _ => true | _ => false end.

Definition fzero : float64 := S754_zero false.
Definition fone : float64 := float64_of 1.
Definition ftwo : float64 := float64_of 2.
(** The constant 0.10: 0x1.999999999999ap-4. *)
Definition ftenth : float64 := S754_finite false 7205759403792794 (-56).

(** The conversion of a float64 to int64 truncates; Go leaves the value of a
    conversion that does not fit open, the model takes the one of amd64. *)
Definition int64_of_float (x : float64) : Z :=
  match x with
  | S754_finite s m e =>
      let z := Z.shiftl (Zpos m) e in
      let z := if s then - z else z in
      if int64_wf z then z else int64_min
  | S754_zero _ => 0
  | _ => int64_min
  end.

(** ** Scaling *)

Definition scaleDurationSaturated (duration : Z) (factor : float64) : Z :=
  let scaled := fmul (float64_of duration) factor in
  if fle (float64_of int64_max) scaled then int64_max
  else if fle scaled fzero then 0
  else int64_of_float scaled.

(** [random] is the answer of rand.Float64. *)
Definition jitterDuration (interval : Z) (fraction random : float64) : Z :=
  if feq fraction fzero then interval
  else
    let factor := fadd (fsub fone fraction) (fmul random (fmul ftwo fraction)) in
    scaleDurationSaturated interval factor.

Definition nextBackoffDuration (current maximum : Z) (factor : float64) : Z :=
  if maximum <=? current then maximum
  else if fle factor fone then current
  else
    let next := scaleDurationSaturated current factor in
    let next := if next <=? current then int64_wrap (current + 1) else next in
    if maximum <? next then maximum else next.

Example backoff_doubles : nextBackoffDuration 1000000000 30000000000 ftwo = 2000000000.
Proof. vm_compute. reflexivity. Qed.
Example backoff_saturates : scaleDurationSaturated int64_max ftwo = int64_max.
Proof. vm_compute. reflexivity. Qed.
(** The smallest factor above 1 does not get lost in rounding. *)
Example backoff_rounding :
  nextBackoffDuration 1 30000000000 (S754_finite false 4503599627370497 (-52)) = 2.
Proof. vm_compute. reflexivity. Qed.
Example jitter_bounds :
  jitterDuration 1000000000 ftenth fzero = 900000000 ∧
  jitterDuration 1000000000 ftenth (S754_finite false 9007199254740991 (-53)) = 1100000000.
Proof. vm_compute. split; reflexivity. Qed.

(** ** Options *)

Definition Second : Z := 1000000000.
Definition Millisecond : Z := 1000000.
Definition Minute : Z := 60 * Second.

(** The values a loop uses once zeros have been replaced by defaults. *)
Record backoff := {
  bo_Interval : Z;
  bo_MaxInterval : Z;
  bo_Factor : float64;
  bo_Jitter : float64;
}.

Record WatchOptions := {
  wo_Debounce : Z;
  wo_ReconcileInterval : Z;
  wo_AfterPublishedRetryInterval : Z;
  wo_AfterPublishedRetryMaxInterval : Z;
  wo_AfterPublishedRetryBackoffFactor : float64;
  wo_AfterPublishedRetryJitterFraction : float64;
  (** Whether the callbacks are set. *)
  wo_AfterPublished : bool;
  wo_OnPublished : bool;
  wo_OnError : bool;
}.

Definition defaultAfterPublishedRetryInterval : Z := Second.
Definition defaultAfterPublishedRetryMaximumInterval : Z := 30 * Second.

(** The checks Watch and Poll share. *)
Definition validFactor (factor : float64) : bool :=
  negb (IsNaN factor || IsInf factor || flt factor fone || flt (float64_of 10) factor).
Definition validJitter (jitter : float64) : bool :=
  negb (IsNaN jitter || IsInf jitter || flt fone jitter).

Definition WatchOptions_Validate (options : WatchOptions) : result unit :=
  guard_err (wo_Debounce options <? 0) errorText ?;;
  let interval := if wo_AfterPublishedRetryInterval options =? 0
                  then defaultAfterPublishedRetryInterval
                  else wo_AfterPublishedRetryInterval options in
  let maximum := if wo_AfterPublishedRetryMaxInterval options =? 0
                 then defaultAfterPublishedRetryMaximumInterval
                 else wo_AfterPublishedRetryMaxInterval options in
  let factor := if feq (wo_AfterPublishedRetryBackoffFactor options) fzero then ftwo
                else wo_AfterPublishedRetryBackoffFactor options in
  guard_err (interval <? 0) errorText ?;;
  guard_err (maximum <? interval) errorText ?;;
  guard_err (negb (validFactor factor)) errorText ?;;
  guard_err (negb (validJitter (wo_AfterPublishedRetryJitterFraction options))) errorText.

(** The jitter of zero options, and of negative ones. *)
Definition defaultJitter (jitter : float64) : float64 :=
  let jitter := if feq jitter fzero then ftenth else jitter in
  if flt jitter fzero then fzero else jitter.

Definition watchDefaults (options : WatchOptions) : WatchOptions :=
  {| wo_Debounce := if wo_Debounce options =? 0 then 250 * Millisecond else wo_Debounce options;
     wo_ReconcileInterval :=
       if wo_ReconcileInterval options =? 0 then 5 * Minute else wo_ReconcileInterval options;
     wo_AfterPublishedRetryInterval :=
       if wo_AfterPublishedRetryInterval options =? 0 then defaultAfterPublishedRetryInterval
       else wo_AfterPublishedRetryInterval options;
     wo_AfterPublishedRetryMaxInterval :=
       if wo_AfterPublishedRetryMaxInterval options =? 0 then defaultAfterPublishedRetryMaximumInterval
       else wo_AfterPublishedRetryMaxInterval options;
     wo_AfterPublishedRetryBackoffFactor :=
       if feq (wo_AfterPublishedRetryBackoffFactor options) fzero then ftwo
       else wo_AfterPublishedRetryBackoffFactor options;
     wo_AfterPublishedRetryJitterFraction := defaultJitter (wo_AfterPublishedRetryJitterFraction options);
     wo_AfterPublished := wo_AfterPublished options;
     wo_OnPublished := wo_OnPublished options;
     wo_OnError := wo_OnError options |}.

Definition watchBackoff (options : WatchOptions) : backoff :=
  {| bo_Interval := wo_AfterPublishedRetryInterval options;
     bo_MaxInterval := wo_AfterPublishedRetryMaxInterval options;
     bo_Factor := wo_AfterPublishedRetryBackoffFactor options;
     bo_Jitter := wo_AfterPublishedRetryJitterFraction options |}.

Definition DefaultPollAttemptTimeout : Z := 2 * Minute.
Definition MaximumPollAttemptTimeout : Z := 30 * Minute.

Record PollOptions := {
  po_Interval : Z;
  po_MaxInterval : Z;
  po_BackoffFactor : float64;
  po_JitterFraction : float64;
  po_AttemptTimeout : Z;
  po_OnAttempt : bool;
  po_OnResult : bool;
  po_OnUpdated : bool;
  po_OnError : bool;
}.

Definition PollOptions_Validate (options : PollOptions) : result unit :=
  let interval := if po_Interval options =? 0 then Second else po_Interval options in
  let maximum := if po_MaxInterval options =? 0 then 30 * Second else po_MaxInterval options in
  let factor := if feq (po_BackoffFactor options) fzero then ftwo else po_BackoffFactor options in
  guard_err (interval <? 0) errorText ?;;
  guard_err (maximum <? interval) errorText ?;;
  let attemptTimeout := if po_AttemptTimeout options =? 0 then DefaultPollAttemptTimeout
                        else po_AttemptTimeout options in
  guard_err ((attemptTimeout <? 0) || (MaximumPollAttemptTimeout <? attemptTimeout)) errorText ?;;
  guard_err (negb (validFactor factor)) errorText ?;;
  guard_err (negb (validJitter (po_JitterFraction options))) errorText.

Definition pollDefaults (options : PollOptions) : PollOptions :=
  {| po_Interval := if po_Interval options =? 0 then Second else po_Interval options;
     po_MaxInterval := if po_MaxInterval options =? 0 then 30 * Second else po_MaxInterval options;
     po_BackoffFactor := if feq (po_BackoffFactor options) fzero then ftwo else po_BackoffFactor options;
     po_JitterFraction := defaultJitter (po_JitterFraction options);
     po_AttemptTimeout :=
       if po_AttemptTimeout options =? 0 then DefaultPollAttemptTimeout else po_AttemptTimeout options;
     po_OnAttempt := po_OnAttempt options; po_OnResult := po_OnResult options;
     po_OnUpdated := po_OnUpdated options; po_OnError := po_OnError options |}.

Definition pollBackoff (options : PollOptions) : backoff :=
  {| bo_Interval := po_Interval options; bo_MaxInterval := po_MaxInterval options;
     bo_Factor := po_BackoffFactor options; bo_Jitter := po_JitterFraction options |}.

(** ** Successive delays *)

(** The base after a failure, as both loops advance it. *)
Definition advance (b : backoff) (base : Z) : Z :=
  if base <? bo_MaxInterval b then nextBackoffDuration base (bo_MaxInterval b) (bo_Factor b) else base.

Definition backoff_wf (b : backoff) : Prop :=
  0 < bo_Interval b ∧ bo_Interval b ≤ bo_MaxInterval b ≤ int64_max ∧
  validFactor (bo_Factor b) = true.

Definition base_ok (b : backoff) (base : Z) : Prop :=
  bo_Interval b ≤ base ≤ bo_MaxInterval b.

Lemma next_bounds current maximum factor :
  current < maximum ≤ int64_max → 0 < current →
  current ≤ nextBackoffDuration current maximum factor ≤ maximum ∧
  (fle factor fone = false → current < nextBackoffDuration current maximum factor).
Proof.
  intros Hm Hc. unfold nextBackoffDuration. rewrite (proj2 (Z.leb_gt _ _)) by lia.
  destruct (fle factor fone); [split; [lia|done]|].
  assert (int64_wrap (current + 1) = current + 1) as ->
    by (apply int64_wrap_id; unfold int64_min, int64_max in *; lia).
  destruct (Z.leb_spec (scaleDurationSaturated current factor) current);
    [destruct (Z.ltb_spec maximum (current + 1))
    |destruct (Z.ltb_spec maximum (scaleDurationSaturated current factor))]; lia.
Qed.

Lemma advance_ok b base : backoff_wf b → base_ok b base → base_ok b (advance b base).
Proof.
  intros (Hi & Hm & _) [Hl Hu]. unfold advance. destruct (Z.ltb_spec base (bo_MaxInterval b)); [|done].
  destruct (next_bounds base (bo_MaxInterval b) (bo_Factor b)) as [? _]; unfold base_ok; lia.
Qed.

Lemma advance_grows b base :
  backoff_wf b → base_ok b base → fle (bo_Factor b) fone = false →
  Z.min (bo_MaxInterval b) (base + 1) ≤ advance b base.
Proof.
  intros (Hi & Hm & _) [Hl Hu] Hf. unfold advance. destruct (Z.ltb_spec base (bo_MaxInterval b)); [|lia].
  destruct (next_bounds base (bo_MaxInterval b) (bo_Factor b)) as [_ Hn]; [lia..|]. specialize (Hn Hf). lia.
Qed.

Lemma watch_backoff_wf options :
  WatchOptions_Validate options = Ok tt → wo_AfterPublishedRetryMaxInterval options ≤ int64_max →
  backoff_wf (watchBackoff (watchDefaults options)).
Proof.
  unfold WatchOptions_Validate. rewrite !guard_bind_ok, guard_err_ok.
  intros (_ & Hi & Hm & Hf & _) Hmax. apply Z.ltb_ge in Hi, Hm. apply negb_false_iff in Hf.
  unfold backoff_wf, watchBackoff, watchDefaults. simpl.
  destruct (Z.eqb_spec (wo_AfterPublishedRetryInterval options) 0);
    destruct (Z.eqb_spec (wo_AfterPublishedRetryMaxInterval options) 0);
    unfold defaultAfterPublishedRetryInterval, defaultAfterPublishedRetryMaximumInterval, Second,
      int64_max in *; (split; [lia|]); split; [lia|done..].
Qed.

Lemma poll_backoff_wf options :
  PollOptions_Validate options = Ok tt → po_MaxInterval options ≤ int64_max →
  backoff_wf (pollBackoff (pollDefaults options)).
Proof.
  unfold PollOptions_Validate. rewrite !guard_bind_ok, guard_err_ok.
  intros (Hi & Hm & _ & Hf & _) Hmax. apply Z.ltb_ge in Hi, Hm. apply negb_false_iff in Hf.
  unfold backoff_wf, pollBackoff, pollDefaults. simpl.
  destruct (Z.eqb_spec (po_Interval options) 0); destruct (Z.eqb_spec (po_MaxInterval options) 0);
    unfold Second, int64_max in *; (split; [lia|]); split; [lia|done..].
Qed.
