(* ===== verification/Watch.v ===== *)
(** * Live publication ([live.go], Watch)

    Watch runs two goroutines: the watch loop turns filesystem events, timers
    and results into publication requests and callbacks; the publication worker
    publishes, calls the AfterPublished hook and retries it.  They share two
    channels of capacity one.  The code between two communications is a
    function; the goroutines that run it, the timers, the caller who cancels and
    the answers of the publisher, the hooks, the watcher and the operating
    system are the steps of a transition system, which keeps a log of what the
    outside sees. *)

From S2P Require Import Prelude.
From S2P Require Import GoStd.
From S2P Require Import Encoding.
From S2P Require Import Model.
From S2P Require Import Effects.
From S2P Require Import Repository.
From S2P Require Import Backoff.

(** The checks before a watcher is created; [before] and [after] are the answers
    of ctx.Err. *)
Definition watchPrepare (repository : Repository) (channel : bytes) (before after : option error)
    (options : WatchOptions) : result WatchOptions :=
  match before with
  | Some err => Err err
  | None =>
      Repository_validateChannel repository channel ?;;
      WatchOptions_Validate options ?;;
      match after with
      | Some err => Err err
      | None => Ok (watchDefaults options)
      end
  end.

Lemma watchPrepare_ok repository channel before after o options :
  watchPrepare repository channel before after o = Ok options →
  WatchOptions_Validate o = Ok tt ∧ options = watchDefaults o.
Proof.
  unfold watchPrepare. destruct before; [done|]. rewrite !check_bind_ok. intros (_ & Hv & E).
  destruct after; [done|]. by injection E as <-.
Qed.

(** What the outside sees of a watch. *)
Inductive watchEvent :=
| SawChange                                   (* the source may have changed *)
| StartPublish                                (* a publication starts *)
| Published (s : Snapshot) (err : option error)
| AfterPublished (s : Snapshot) (err : option error)
| OnPublished (s : Snapshot)
| OnError (err : error).
#[export] Instance watchEvent_eq_dec : EqDecision watchEvent.
Proof. solve_decision. Defined.

Record publishResult := {
  pr_snapshot : Snapshot;
  pr_err : option error;
  pr_reconcile : bool;
  pr_fatal : bool;
}.

Definition isFatalPublicationError (err : error) : bool :=
  errors_Is err ErrRollbackDetected || errors_Is err ErrSplitBrain || errors_Is err ErrGenerationExhausted.

(** ** Callbacks *)

(** [ctx] is the answer of ctx.Err. *)
Definition reportWatchError (options : WatchOptions) (ctx : option error) (err : option error)
    : list watchEvent :=
  match err, ctx with
  | Some err, None => if wo_OnError options then [OnError err] else []
  | _, _ => []
  end.

Inductive hookAnswer := HookReturned (err : option error) | HookPanicked.

(** The hook is called only between two looks at the context. *)
Definition invokeWatchAfterPublished (options : WatchOptions) (before : option error) (answer : hookAnswer)
    (after : option error) : option error :=
  if negb (wo_AfterPublished options) then None
  else match before with
       | Some err => Some err
       | None => match answer with
                 | HookPanicked => Some errorText
                 | HookReturned (Some err) => Some err
                 | HookReturned None => after
                 end
       end.

Definition invokeWatchPublished (options : WatchOptions) (s : Snapshot) (panicked : bool) (ctx : option error)
    : list watchEvent :=
  if wo_OnPublished options
  then OnPublished s :: (if panicked then reportWatchError options ctx (Some errorText) else [])
  else [].

(** ** The publication worker *)

Record watchWorker := {
  lastAcknowledged : N;
  pendingAfterPublished : option Snapshot;
  retryDelayBase : Z;
  (** The delay of the armed timer and whether it has fired; None is the nil
      channel. *)
  retryChannel : option (Z * bool);
}.

(** Where the worker is: at the top of its loop, in its select, in a call, or
    sending a result (and then leaving). *)
Inductive workerAt :=
| WTop | WSelect | WPublishing
| WHook (s : Snapshot) | WRetryHook (s : Snapshot)
| WSend (r : publishResult) (exit : bool)
| WDone.

Section Worker.
Context (options : WatchOptions).

Definition startWorker : watchWorker :=
  {| lastAcknowledged := 0; pendingAfterPublished := None;
     retryDelayBase := wo_AfterPublishedRetryInterval options; retryChannel := None |}.

Definition stopRetryTimer (w : watchWorker) : watchWorker :=
  {| lastAcknowledged := lastAcknowledged w; pendingAfterPublished := pendingAfterPublished w;
     retryDelayBase := retryDelayBase w; retryChannel := None |}.

Definition resetRetryBackoff (w : watchWorker) : watchWorker :=
  {| lastAcknowledged := lastAcknowledged w; pendingAfterPublished := pendingAfterPublished w;
     retryDelayBase := wo_AfterPublishedRetryInterval options; retryChannel := None |}.

Definition scheduleAfterPublishedRetry (random : float64) (w : watchWorker) : watchWorker :=
  let delay := jitterDuration (retryDelayBase w) (wo_AfterPublishedRetryJitterFraction options) random in
  let delay := if wo_AfterPublishedRetryMaxInterval options <? delay
               then wo_AfterPublishedRetryMaxInterval options else delay in
  {| lastAcknowledged := lastAcknowledged w; pendingAfterPublished := pendingAfterPublished w;
     retryDelayBase := advance (watchBackoff options) (retryDelayBase w);
     retryChannel := Some (delay, false) |}.

Definition acknowledge (s : Snapshot) (w : watchWorker) : watchWorker :=
  resetRetryBackoff
    {| lastAcknowledged := sn_Generation s; pendingAfterPublished := None;
       retryDelayBase := retryDelayBase w; retryChannel := retryChannel w |}.

Definition setPending (s : Snapshot) (w : watchWorker) : watchWorker :=
  {| lastAcknowledged := lastAcknowledged w; pendingAfterPublished := Some s;
     retryDelayBase := retryDelayBase w; retryChannel := retryChannel w |}.

(** The timer is ready: retryAfterPublished up to the hook. *)
Definition retryAfterPublished (w : watchWorker) : watchWorker * workerAt :=
  let w := stopRetryTimer w in
  match pendingAfterPublished w with
  | None => (resetRetryBackoff w, WTop)
  | Some s => (w, WRetryHook s)
  end.

(** ... and after it. *)
Definition retriedAfterPublished (random : float64) (w : watchWorker) (s : Snapshot) (err : option error)
    : watchWorker * workerAt :=
  match err with
  | None => (acknowledge s w,
      WSend {| pr_snapshot := s; pr_err := None; pr_reconcile := true; pr_fatal := false |} false)
  | Some e =>
      if isFatalPublicationError e
      then (w, WSend {| pr_snapshot := s; pr_err := err; pr_reconcile := false; pr_fatal := true |} false)
      else (scheduleAfterPublishedRetry random w,
            WSend {| pr_snapshot := s; pr_err := err; pr_reconcile := false; pr_fatal := false |} false)
  end.

(** The top of the loop while the worker context is live. *)
Definition workerTop (w : watchWorker) : watchWorker * workerAt :=
  match pendingAfterPublished w, retryChannel w with
  | Some _, Some (_, true) => retryAfterPublished w
  | _, _ => (w, WSelect)
  end.

(** A request: only without a pending hook does it start a publication. *)
Definition takeRequest (w : watchWorker) : workerAt * list watchEvent :=
  match pendingAfterPublished w with
  | Some _ => (WTop, [])
  | None => (WPublishing, [StartPublish])
  end.

Definition publishReturned (w : watchWorker) (s : Snapshot) (err : option error) : workerAt :=
  if bool_decide (err = None) && (lastAcknowledged w <? sn_Generation s)%N then WHook s
  else WSend {| pr_snapshot := s; pr_err := err; pr_reconcile := false; pr_fatal := false |} false.

Definition hookReturned (random : float64) (w : watchWorker) (s : Snapshot) (err : option error)
    : watchWorker * workerAt :=
  let result := {| pr_snapshot := s; pr_err := err; pr_reconcile := false; pr_fatal := false |} in
  match err with
  | None => (acknowledge s w, WSend result false)
  | Some e =>
      if isFatalPublicationError e
      then (w, WSend {| pr_snapshot := s; pr_err := err; pr_reconcile := false; pr_fatal := true |} true)
      else (scheduleAfterPublishedRetry random (setPending s w), WSend result false)
  end.
End Worker.

(** ** The watch loop *)

Record watchLoop := {
  (** debounceChannel is not nil. *)
  debounceChannel : bool;
  (** watchErrors is not nil. *)
  watchErrors : bool;
  lastPublished : N;
}.

(** The outcome of a case of the select: whether requestPublish was called,
    what the outside saw, and the error Watch returns, if it returns. *)
Record caseDone := {
  cd_loop : watchLoop;
  cd_request : bool;
  cd_log : list watchEvent;
  cd_return : option error;
}.

Definition continue (l : watchLoop) (request : bool) (log : list watchEvent) : caseDone :=
  {| cd_loop := l; cd_request := request; cd_log := log; cd_return := None |}.
Definition returning (l : watchLoop) (log : list watchEvent) (err : error) : caseDone :=
  {| cd_loop := l; cd_request := false; cd_log := log; cd_return := Some err |}.

Definition set_debounce (l : watchLoop) (armed : bool) : watchLoop :=
  {| debounceChannel := armed; watchErrors := watchErrors l; lastPublished := lastPublished l |}.

(** A filesystem event with the answers its handling gets: the bits of its
    operation, whether the watch tree contains its name, the error of
    rebuildWatchTree and whether it came after the watcher was replaced (only
    closing the previous watcher failed), ctx.Err, what Lstat says of the name, the errors of the
    calls on the watch tree, and ctx.Err at each report. *)
Record fsEvent := {
  ev_create : bool;
  ev_remove : bool;
  ev_rename : bool;
  ev_contained : bool;
  ev_rebuild : option error;
  ev_replaced : bool;
  ev_ctx : option error;
  ev_realDirectory : bool;
  ev_removeErr : option error;
  ev_addErr : option error;
  ev_rebuildCtx : option error;
  ev_removeCtx : option error;
  ev_addCtx : option error;
}.

Section Loop.
Context (options : WatchOptions).

(** A replaced watcher brings its own channel of errors. *)
Definition handleEvent (l : watchLoop) (ev : fsEvent) : caseDone :=
  let gone := ev_remove ev || ev_rename ev in
  let l := if gone && ev_contained ev && (bool_decide (ev_rebuild ev = None) || ev_replaced ev)
           then {| debounceChannel := debounceChannel l; watchErrors := true; lastPublished := lastPublished l |}
           else l in
  if gone && ev_contained ev && bool_decide (ev_rebuild ev = None)
  then continue (set_debounce l true) false [SawChange]
  else
    let log := if gone && ev_contained ev
               then reportWatchError options (ev_rebuildCtx ev) (ev_rebuild ev) else [] in
    if ev_create ev || gone then
      match ev_ctx ev with
      | Some err => returning l (SawChange :: log) err
      | None =>
          let log := log ++ (if gone && negb (ev_realDirectory ev)
                             then reportWatchError options (ev_removeCtx ev) (ev_removeErr ev) else []) in
          let log := log ++ (if ev_realDirectory ev
                             then reportWatchError options (ev_addCtx ev) (ev_addErr ev) else []) in
          continue (set_debounce l true) false (SawChange :: log)
      end
    else continue (set_debounce l true) false (SawChange :: log).

Definition handleWatchError (l : watchLoop) (err : error) (ctx : option error) : caseDone :=
  continue l true (SawChange :: reportWatchError options ctx (Some err)).

Definition handleErrorsClosed (l : watchLoop) : caseDone :=
  continue {| debounceChannel := debounceChannel l; watchErrors := false; lastPublished := lastPublished l |}
    false [].

Definition handleDebounce (l : watchLoop) : caseDone := continue (set_debounce l false) true [].

Definition handleReconcile (l : watchLoop) : caseDone := continue l true [SawChange].

(** [ctx] at the start, [later] at a report. *)
Definition handleResult (l : watchLoop) (r : publishResult) (ctx later : option error) (panicked : bool)
    : caseDone :=
  match ctx with
  | Some err => returning l [] err
  | None =>
      match pr_err r with
      | Some err =>
          let log := reportWatchError options later (Some err) in
          if pr_fatal r then returning l log err else continue l false log
      | None =>
          if (lastPublished l <? sn_Generation (pr_snapshot r))%N
          then continue {| debounceChannel := debounceChannel l; watchErrors := watchErrors l;
                           lastPublished := sn_Generation (pr_snapshot r) |}
                 (pr_reconcile r) (invokeWatchPublished options (pr_snapshot r) panicked later)
          else continue l (pr_reconcile r) []
      end
  end.
End Loop.

(** ** The watch *)

Record watch := {
  wt_worker : watchWorker;
  wt_at : workerAt;
  wt_requests : bool;
  wt_results : option publishResult;
  wt_loop : watchLoop;
  (** ctx.Err. *)
  wt_canceled : option error;
  (** The error of the loop, once it returned; the deferred function has then
      canceled the worker context and waits for the worker. *)
  wt_return : option error;
  wt_log : list watchEvent;
}.

(** workerCtx.Err is not nil. *)
Definition workerCanceled (σ : watch) : bool :=
  bool_decide (wt_canceled σ ≠ None) || bool_decide (wt_return σ ≠ None).

Definition set_worker (σ : watch) (w : watchWorker) (at_ : workerAt) (log : list watchEvent) : watch :=
  {| wt_worker := w; wt_at := at_; wt_requests := wt_requests σ; wt_results := wt_results σ;
     wt_loop := wt_loop σ; wt_canceled := wt_canceled σ; wt_return := wt_return σ;
     wt_log := wt_log σ ++ log |}.

Definition set_channels (σ : watch) (requests : bool) (results : option publishResult) : watch :=
  {| wt_worker := wt_worker σ; wt_at := wt_at σ; wt_requests := requests; wt_results := results;
     wt_loop := wt_loop σ; wt_canceled := wt_canceled σ; wt_return := wt_return σ; wt_log := wt_log σ |}.

(** A case of the loop's select ran; requestPublish never blocks. *)
Definition ran (σ : watch) (d : caseDone) : watch :=
  {| wt_worker := wt_worker σ; wt_at := wt_at σ; wt_requests := wt_requests σ || cd_request d;
     wt_results := wt_results σ; wt_loop := cd_loop d; wt_canceled := wt_canceled σ;
     wt_return := cd_return d; wt_log := wt_log σ ++ cd_log d |}.

(** The state when the loop is entered: the first request has been made. *)
Definition watchStart (options : WatchOptions) : watch :=
  {| wt_worker := startWorker options; wt_at := WTop; wt_requests := true; wt_results := None;
     wt_loop := {| debounceChannel := false; watchErrors := true; lastPublished := 0 |};
     wt_canceled := None; wt_return := None; wt_log := [SawChange] |}.

(** What ctx.Err may answer: nil, or the reason once the context is done; a
    context that is canceled while the case runs answers [later]. *)
Definition ctx_answer (σ : watch) (answer : option error) : Prop :=
  wt_canceled σ = None ∨ answer = wt_canceled σ.

(** The publication worker. *)
Inductive worker_step (options : WatchOptions) : watch → watch → Prop :=
| step_worker_top σ w at_ :
    wt_at σ = WTop → workerCanceled σ = false → workerTop options (wt_worker σ) = (w, at_) →
    worker_step options σ (set_worker σ w at_ [])
| step_worker_canceled σ :
    wt_at σ = WTop ∨ wt_at σ = WSelect ∨ (∃ r exit, wt_at σ = WSend r exit) → workerCanceled σ = true →
    worker_step options σ (set_worker σ (wt_worker σ) WDone [])
| step_worker_retry σ d w at_ :
    wt_at σ = WSelect → retryChannel (wt_worker σ) = Some (d, true) →
    retryAfterPublished options (wt_worker σ) = (w, at_) →
    worker_step options σ (set_worker σ w at_ [])
| step_worker_request σ at_ log :
    wt_at σ = WSelect → wt_requests σ = true → takeRequest (wt_worker σ) = (at_, log) →
    worker_step options σ (set_worker (set_channels σ false (wt_results σ)) (wt_worker σ) at_ log)
| step_worker_published σ s err :
    wt_at σ = WPublishing →
    worker_step options σ
      (set_worker σ (wt_worker σ) (publishReturned (wt_worker σ) s err) [Published s err])
| step_worker_hook σ s before answer after err random w at_ :
    wt_at σ = WHook s → invokeWatchAfterPublished options before answer after = err →
    hookReturned options random (wt_worker σ) s err = (w, at_) →
    worker_step options σ (set_worker σ w at_ [AfterPublished s err])
| step_worker_retried σ s before answer after err random w at_ :
    wt_at σ = WRetryHook s → invokeWatchAfterPublished options before answer after = err →
    retriedAfterPublished options random (wt_worker σ) s err = (w, at_) →
    worker_step options σ (set_worker σ w at_ [AfterPublished s err])
| step_worker_send σ r exit :
    wt_at σ = WSend r exit → wt_results σ = None →
    worker_step options σ (set_worker (set_channels σ (wt_requests σ) (Some r)) (wt_worker σ)
      (if exit then WDone else WTop) []).

(** The watch loop. *)
Inductive loop_step (options : WatchOptions) : watch → watch → Prop :=
| step_loop_canceled σ err :
    wt_return σ = None → wt_canceled σ = Some err →
    loop_step options σ (ran σ (returning (wt_loop σ) [] err))
| step_loop_event σ ev :
    wt_return σ = None → ctx_answer σ (ev_ctx ev) →
    loop_step options σ (ran σ (handleEvent options (wt_loop σ) ev))
| step_loop_events_closed σ :
    wt_return σ = None →
    loop_step options σ (ran σ (returning (wt_loop σ) [] errorText))
| step_loop_error σ err ctx :
    wt_return σ = None → watchErrors (wt_loop σ) = true → ctx_answer σ ctx →
    loop_step options σ (ran σ (handleWatchError options (wt_loop σ) err ctx))
| step_loop_errors_closed σ :
    wt_return σ = None → watchErrors (wt_loop σ) = true →
    loop_step options σ (ran σ (handleErrorsClosed (wt_loop σ)))
| step_loop_debounce σ :
    wt_return σ = None → debounceChannel (wt_loop σ) = true →
    loop_step options σ (ran σ (handleDebounce (wt_loop σ)))
| step_loop_reconcile σ :
    wt_return σ = None → 0 < wo_ReconcileInterval options →
    loop_step options σ (ran σ (handleReconcile (wt_loop σ)))
| step_loop_result σ r ctx later panicked :
    wt_return σ = None → wt_results σ = Some r → ctx_answer σ ctx → ctx_answer σ later →
    loop_step options σ
      (ran (set_channels σ (wt_requests σ) None) (handleResult options (wt_loop σ) r ctx later panicked)).

(** ... and the caller and the retry timer. *)
Inductive watch_step (options : WatchOptions) : watch → watch → Prop :=
| step_cancel σ err :
    wt_canceled σ = None →
    watch_step options σ
      {| wt_worker := wt_worker σ; wt_at := wt_at σ; wt_requests := wt_requests σ;
         wt_results := wt_results σ; wt_loop := wt_loop σ; wt_canceled := Some err;
         wt_return := wt_return σ; wt_log := wt_log σ |}
| step_timer σ d :
    retryChannel (wt_worker σ) = Some (d, false) →
    watch_step options σ (set_worker σ
      {| lastAcknowledged := lastAcknowledged (wt_worker σ);
         pendingAfterPublished := pendingAfterPublished (wt_worker σ);
         retryDelayBase := retryDelayBase (wt_worker σ); retryChannel := Some (d, true) |} (wt_at σ) [])
| step_worker σ σ' : worker_step options σ σ' → watch_step options σ σ'
| step_loop σ σ' : loop_step options σ σ' → watch_step options σ σ'.

(** ** What Watch promises

    A monitor of the log.  It follows the last acknowledged generation, the
    snapshot that is published but not acknowledged (the barrier), the
    acknowledged snapshots and the last generation shown to OnPublished, and
    stops ([None]) at the first event that breaks a promise. *)
Record monitor := {
  mo_acked : N;
  mo_open : option Snapshot;
  mo_acks : list Snapshot;
  mo_shown : N;
}.

Definition monitorStart : monitor :=
  {| mo_acked := 0; mo_open := None; mo_acks := []; mo_shown := 0 |}.

Definition monitor_step (m : monitor) (e : watchEvent) : option monitor :=
  match e with
  | SawChange | OnError _ | Published _ (Some _) => Some m
  | StartPublish => if bool_decide (mo_open m = None) then Some m else None
  | Published s None =>
      if negb (bool_decide (mo_open m = None)) then None
      else if (mo_acked m <? sn_Generation s)%N
      then Some {| mo_acked := mo_acked m; mo_open := Some s; mo_acks := mo_acks m; mo_shown := mo_shown m |}
      else Some m
  | AfterPublished s err =>
      if negb (bool_decide (mo_open m = Some s)) then None
      else match err with
           | Some _ => Some m
           | None => Some {| mo_acked := sn_Generation s; mo_open := None; mo_acks := mo_acks m ++ [s];
                             mo_shown := mo_shown m |}
           end
  | OnPublished s =>
      if bool_decide (s ∈ mo_acks m) && (mo_shown m <? sn_Generation s)%N
      then Some {| mo_acked := mo_acked m; mo_open := mo_open m; mo_acks := mo_acks m;
                   mo_shown := sn_Generation s |}
      else None
  end.

Fixpoint monitor_run (m : monitor) (log : list watchEvent) : option monitor :=
  match log with
  | [] => Some m
  | e :: log => match monitor_step m e with Some m => monitor_run m log | None => None end
  end.

(** A change was seen after the start of the last publication. *)
Definition dirty (log : list watchEvent) : bool :=
  foldl (λ d e, match e with SawChange => true | StartPublish => false | _ => d end) false log.

Definition sending (at_ : workerAt) : list publishResult :=
  match at_ with WSend r _ => [r] | _ => [] end.

(** Results on their way to the loop, in order. *)
Definition inflight (σ : watch) : list publishResult :=
  option_list (wt_results σ) ++ sending (wt_at σ).

(** ** Logs *)

Lemma monitor_run_app m l1 l2 :
  monitor_run m (l1 ++ l2)
  = match monitor_run m l1 with Some m' => monitor_run m' l2 | None => None end.
Proof. revert m. induction l1 as [|e l1 IH]; intros m; simpl; [done|]. by destruct (monitor_step m e). Qed.

Lemma dirty_app l1 l2 :
  dirty (l1 ++ l2)
  = foldl (λ d e, match e with SawChange => true | StartPublish => false | _ => d end) (dirty l1) l2.
Proof. unfold dirty. apply foldl_app. Qed.

(** Reports change nothing the monitor follows. *)
Definition quiet (log : list watchEvent) : Prop :=
  Forall (λ e, e = SawChange ∨ ∃ err, e = OnError err) log.

Lemma quiet_run m log : quiet log → monitor_run m log = Some m.
Proof. induction 1 as [|e log [->|[err ->]] _ IH]; simpl; done. Qed.

Lemma report_quiet options ctx err : quiet (reportWatchError options ctx err).
Proof.
  unfold reportWatchError, quiet. destruct err, ctx, (wo_OnError options); try done.
  constructor; [by right; eexists|done].
Qed.

Lemma quiet_app l1 l2 : quiet l1 → quiet l2 → quiet (l1 ++ l2).
Proof. intros. by apply Forall_app. Qed.

Lemma quiet_if (b : bool) l : quiet l → quiet (if b then l else []).
Proof. intros. destruct b; [done|constructor]. Qed.

Lemma quiet_change l : quiet l → quiet (SawChange :: l).
Proof. intros. constructor; [by left|done]. Qed.

Arguments reportWatchError : simpl never.

Create HintDb watch.
#[export] Hint Resolve report_quiet quiet_app quiet_if quiet_change : watch.
#[export] Hint Extern 1 (quiet []) => constructor : watch.

Lemma handleEvent_quiet options l ev :
  quiet (cd_log (handleEvent options l ev)) ∧
  lastPublished (cd_loop (handleEvent options l ev)) = lastPublished l.
Proof.
  unfold handleEvent. repeat case_match; simpl; (split; [|done]); auto 10 with watch.
Qed.

(** An event is followed by a debounced request, or Watch returns. *)
Lemma handleEvent_debounced options l ev :
  cd_return (handleEvent options l ev) = None →
  debounceChannel (cd_loop (handleEvent options l ev)) = true.
Proof. unfold handleEvent. by repeat case_match. Qed.

(** ** Results on their way *)

Definition shown_after (shown : N) (l : list publishResult) : N :=
  foldl (λ shown r, if bool_decide (pr_err r = None) then N.max shown (sn_Generation (pr_snapshot r))
                    else shown) shown l.

Arguments shown_after : simpl never.

Lemma shown_after_one shown r :
  shown_after shown [r]
  = if bool_decide (pr_err r = None) then N.max shown (sn_Generation (pr_snapshot r)) else shown.
Proof. done. Qed.

(** Each success is acknowledged, or too old to be shown when its turn comes. *)
Fixpoint showable (acks : list Snapshot) (shown : N) (l : list publishResult) : Prop :=
  match l with
  | [] => True
  | r :: l =>
      (pr_err r = None → pr_snapshot r ∈ acks ∨ (sn_Generation (pr_snapshot r) ≤ shown)%N) ∧
      showable acks (shown_after shown [r]) l
  end.

Lemma showable_app acks shown l r :
  showable acks shown (l ++ [r]) ↔
  showable acks shown l ∧
  (pr_err r = None → pr_snapshot r ∈ acks ∨ (sn_Generation (pr_snapshot r) ≤ shown_after shown l)%N).
Proof.
  revert shown. induction l as [|r' l IH]; intros shown; simpl; [tauto|].
  rewrite IH. unfold shown_after. simpl. tauto.
Qed.

Lemma showable_acks acks acks' shown l :
  acks ⊆ acks' → showable acks shown l → showable acks' shown l.
Proof.
  intros Hs. revert shown. induction l as [|r l IH]; intros shown; simpl; [done|].
  intros [Hr Hl]. split; [|by apply IH]. intros He. destruct (Hr He); [left; by apply Hs|by right].
Qed.

Lemma shown_after_app shown l r :
  shown_after shown (l ++ [r]) = shown_after (shown_after shown l) [r].
Proof. unfold shown_after. by rewrite foldl_app. Qed.

Definition result_ok (r : publishResult) : Prop :=
  (pr_fatal r = true → pr_err r ≠ None) ∧ (pr_reconcile r = true → pr_err r = None).

(** ** The invariant of the barrier *)

Definition worker_at (w : watchWorker) (at_ : workerAt) (m : monitor) : Prop :=
  match at_ with
  | WTop | WSelect => pendingAfterPublished w = mo_open m
  | WPublishing => pendingAfterPublished w = None ∧ mo_open m = None
  | WHook s => pendingAfterPublished w = None ∧ mo_open m = Some s
  | WRetryHook s => pendingAfterPublished w = Some s ∧ mo_open m = Some s
  | WSend r exit => exit = false → pendingAfterPublished w = mo_open m
  | WDone => True
  end.

Record watch_inv (σ : watch) (m : monitor) : Prop := {
  wi_log : monitor_run monitorStart (wt_log σ) = Some m;
  wi_ack : lastAcknowledged (wt_worker σ) = mo_acked m;
  wi_at : worker_at (wt_worker σ) (wt_at σ) m;
  wi_shown : (mo_shown m ≤ lastPublished (wt_loop σ))%N;
  wi_top : wt_return σ = None → wt_at σ ≠ WDone →
    (mo_acked m ≤ shown_after (lastPublished (wt_loop σ)) (inflight σ))%N;
  wi_showable : wt_return σ = None → showable (mo_acks m) (lastPublished (wt_loop σ)) (inflight σ);
  wi_results : Forall result_ok (inflight σ);
}.

Lemma watchStart_inv options : watch_inv (watchStart options) monitorStart.
Proof. by constructor. Qed.

(** The worker moves on, and may start to send a result. *)
Lemma move_inv σ m m' w at_ log :
  watch_inv σ m → sending (wt_at σ) = [] → wt_at σ ≠ WDone →
  monitor_run m log = Some m' → lastAcknowledged w = mo_acked m' → worker_at w at_ m' →
  mo_shown m' = mo_shown m → mo_acks m ⊆ mo_acks m' →
  match at_ with
  | WSend r _ =>
      result_ok r ∧
      (pr_err r = None → pr_snapshot r ∈ mo_acks m' ∨ (sn_Generation (pr_snapshot r) ≤ mo_acked m)%N) ∧
      (mo_acked m' = mo_acked m ∨ pr_err r = None ∧ sn_Generation (pr_snapshot r) = mo_acked m')
  | _ => mo_acked m' = mo_acked m
  end →
  watch_inv (set_worker σ w at_ log) m'.
Proof.
  intros [Hl Ha Hat Hs Ht Hsh Hr] Hns Hnd Hrun Hack Hat' Hs' Hsub Hsend.
  assert (Hold : inflight σ = option_list (wt_results σ)).
  { unfold inflight. by rewrite Hns, app_nil_r. }
  assert (Hnew : inflight (set_worker σ w at_ log) = inflight σ ++ sending at_) by (by rewrite Hold).
  constructor; rewrite ?Hnew; simpl; try done.
  - by rewrite monitor_run_app, Hl.
  - by rewrite Hs'.
  - intros Hret _. specialize (Ht Hret Hnd). destruct at_; simpl; rewrite ?app_nil_r, ?Hsend; try done.
    destruct Hsend as (_ & _ & Hack'). rewrite shown_after_app, shown_after_one.
    destruct Hack' as [->|[He Hg]]; [case_bool_decide; lia|]. rewrite bool_decide_true by done. lia.
  - intros Hret. specialize (Hsh Hret). apply (showable_acks _ _ _ _ Hsub) in Hsh.
    destruct at_; simpl; rewrite ?app_nil_r; try done. apply showable_app. split; [done|].
    destruct Hsend as (_ & Hok & _). intros He. destruct (Hok He) as [?|Hle]; [by left|right].
    specialize (Ht Hret Hnd). lia.
  - apply Forall_app. split; [done|]. destruct at_; try constructor; [apply Hsend|constructor].
Qed.

(** The loop runs a case without a result. *)
Lemma ran_inv σ m d :
  watch_inv σ m → wt_return σ = None → quiet (cd_log d) →
  lastPublished (cd_loop d) = lastPublished (wt_loop σ) →
  watch_inv (ran σ d) m.
Proof.
  intros [Hl Ha Hat Hs Ht Hsh Hr] Hret Hq Hlp. constructor; simpl; rewrite ?Hlp; try done.
  - rewrite monitor_run_app, Hl. by apply quiet_run.
  - intros _. by apply Ht.
  - intros _. by apply Hsh.
Qed.

Lemma result_inv options σ m r ctx later panicked :
  watch_inv σ m → wt_return σ = None → wt_results σ = Some r →
  ∃ m', watch_inv (ran (set_channels σ (wt_requests σ) None)
    (handleResult options (wt_loop σ) r ctx later panicked)) m'.
Proof.
  intros [Hl Ha Hat Hs Ht Hsh Hr] Hret Hres. unfold inflight in Ht, Hsh, Hr. rewrite Hres in Ht, Hsh, Hr.
  simpl in Ht, Hsh, Hr. destruct (Hsh Hret) as [Hshow Hsh']. apply Forall_cons in Hr as [Hr0 Hr].
  specialize (Ht Hret). change (shown_after _ (r :: sending (wt_at σ)))
    with (shown_after (shown_after (lastPublished (wt_loop σ)) [r]) (sending (wt_at σ))) in Ht.
  unfold handleResult. destruct ctx as [err|]; [by exists m; constructor; simpl; rewrite ?app_nil_r|].
  destruct (pr_err r) as [err|] eqn:He.
  { rewrite shown_after_one, He, bool_decide_false in Ht, Hsh' by done. exists m. destruct (pr_fatal r); (constructor; simpl; try done);
      rewrite monitor_run_app, Hl; apply quiet_run, report_quiet. }
  rewrite shown_after_one, He, bool_decide_true in Ht, Hsh' by done.
  destruct (N.ltb_spec (lastPublished (wt_loop σ)) (sn_Generation (pr_snapshot r))) as [Hlt|Hge].
  2:{ rewrite N.max_l in Ht, Hsh' by done. exists m.
      constructor; simpl; try done. by rewrite app_nil_r. }
  rewrite N.max_r in Ht, Hsh' by lia. destruct (Hshow eq_refl) as [Hin|Hle]; [|lia].
  unfold invokeWatchPublished. destruct (wo_OnPublished options).
  - eexists {| mo_acked := mo_acked m; mo_open := mo_open m; mo_acks := mo_acks m;
               mo_shown := sn_Generation (pr_snapshot r) |}.
    constructor; simpl; try done.
    rewrite monitor_run_app, Hl. simpl. rewrite bool_decide_true by done.
    rewrite (proj2 (N.ltb_lt _ _)) by lia. simpl. apply quiet_run, quiet_if, report_quiet.
  - exists m. constructor; simpl; try done; [by rewrite app_nil_r|lia].
Qed.

Lemma retry_inv options σ m w at_ :
  watch_inv σ m → wt_at σ = WTop ∨ wt_at σ = WSelect →
  retryAfterPublished options (wt_worker σ) = (w, at_) →
  watch_inv (set_worker σ w at_ []) m.
Proof.
  intros Hi Hat E. pose proof (wi_at _ _ Hi) as Hp.
  assert (Hp' : pendingAfterPublished (wt_worker σ) = mo_open m) by (by destruct Hat as [Hat|Hat]; rewrite Hat in Hp).
  unfold retryAfterPublished in E. simpl in E.
  destruct (pendingAfterPublished (wt_worker σ)) eqn:Epd; injection E as <- <-;
    (apply (move_inv _ m); destruct Hat as [Hat|Hat]; rewrite ?Hat; simpl; try done;
      first [apply Hi|congruence]).
Qed.

Lemma hook_monitor m s err :
  mo_open m = Some s →
  monitor_run m [AfterPublished s err]
  = Some (match err with
          | Some _ => m
          | None => {| mo_acked := sn_Generation s; mo_open := None; mo_acks := mo_acks m ++ [s];
                       mo_shown := mo_shown m |}
          end).
Proof. intros Ho. simpl. rewrite bool_decide_true by done. by destruct err. Qed.

(** A hook answered, the first time or at a retry. *)
Lemma acked_inv σ m s w r exit err :
  watch_inv σ m → sending (wt_at σ) = [] → wt_at σ ≠ WDone → mo_open m = Some s →
  result_ok r → pr_snapshot r = s → pr_err r = err →
  match err with
  | None => lastAcknowledged w = sn_Generation s ∧ pendingAfterPublished w = None
  | Some _ => lastAcknowledged w = mo_acked m ∧ (exit = false → pendingAfterPublished w = Some s)
  end →
  ∃ m', watch_inv (set_worker σ w (WSend r exit) [AfterPublished s err]) m'.
Proof.
  intros Hi Hns Hnd Ho Hr Hs He Hw. eexists.
  eapply (move_inv σ m); [done..|by apply hook_monitor| | | | |];
    destruct err; simpl; try (by destruct Hw); try done.
  - intros Hx. rewrite Ho. by apply Hw.
  - set_solver.
  - split_and!; [done|by rewrite He|by left].
  - split_and!; [done| |right; split; [done|congruence]].
    intros _. left. set_solver.
Qed.

Lemma worker_step_inv options σ σ' m :
  watch_inv σ m → worker_step options σ σ' → ∃ m', watch_inv σ' m'.
Proof.
  intros Hi Hstep. pose proof Hi as [Hl Ha Hat Hs Ht Hsh Hr].
  destruct Hstep as [σ w at_ Ea Hc E|σ Ea Hc|σ d w at_ Ea Hd E|σ at_ log Ea Hq E
    |σ s err Ea|σ s before answer after err random w at_ Ea Eh E
    |σ s before answer after err random w at_ Ea Eh E|σ r exit Ea Hn].
  - exists m. rewrite Ea in Hat. unfold workerTop in E.
    assert (Htop : watch_inv (set_worker σ (wt_worker σ) WSelect []) m)
      by (apply (move_inv _ m); rewrite ?Ea; simpl; done).
    destruct (pendingAfterPublished (wt_worker σ)) eqn:Ep, (retryChannel (wt_worker σ)) as [[d []]|];
      try (injection E as <- <-; done).
    eapply retry_inv; [done|by left|done].
  - exists m. constructor; simpl; rewrite ?app_nil_r; try done.
    + intros Hret. specialize (Hsh Hret). unfold inflight in *. simpl. rewrite app_nil_r.
      destruct (wt_at σ); simpl in *; rewrite ?app_nil_r in Hsh; try done.
      by apply showable_app in Hsh as [? _].
    + unfold inflight in *. simpl. rewrite app_nil_r. by apply Forall_app in Hr as [? _].
  - exists m. eapply retry_inv; [done|by right|done].
  - exists m. rewrite Ea in Hat. unfold takeRequest in E.
    assert (Hi' : watch_inv (set_channels σ false (wt_results σ)) m) by (constructor; apply Hi).
    destruct (pendingAfterPublished (wt_worker σ)) eqn:Ep; injection E as <- <-;
      (apply (move_inv _ m); simpl; rewrite ?Ea, ?Ep, <- ?Hat; try done).
    by rewrite Ep.
  - rewrite Ea in Hat. destruct Hat as [Hp Ho]. unfold publishReturned.
    case_bool_decide as He; [|exists m; apply (move_inv _ m); rewrite ?Ea; simpl; try done;
      [by destruct err|congruence|]; split_and!; [done|by intros ?|by left]].
    subst err. simpl. rewrite Ha. destruct (N.ltb_spec (mo_acked m) (sn_Generation s)) as [Hlt|Hge].
    + exists {| mo_acked := mo_acked m; mo_open := Some s; mo_acks := mo_acks m; mo_shown := mo_shown m |}.
      apply (move_inv _ m); rewrite ?Ea; simpl; try done.
      rewrite bool_decide_true by done. simpl. by rewrite (proj2 (N.ltb_lt _ _)).
    + exists m. apply (move_inv _ m); rewrite ?Ea; simpl; try done.
      * rewrite bool_decide_true by done. simpl. by rewrite (proj2 (N.ltb_ge _ _)).
      * congruence.
      * split_and!; [done|by right|by left].
  - rewrite Ea in Hat. destruct Hat as [Hp Ho]. unfold hookReturned in E. destruct err as [e|].
    + destruct (isFatalPublicationError e); injection E as <- <-;
        (eapply (acked_inv σ m); rewrite ?Ea; done).
    + injection E as <- <-. by eapply (acked_inv σ m); rewrite ?Ea.
  - rewrite Ea in Hat. destruct Hat as [Hp Ho]. unfold retriedAfterPublished in E. destruct err as [e|].
    + destruct (isFatalPublicationError e); injection E as <- <-;
        (eapply (acked_inv σ m); rewrite ?Ea; done).
    + injection E as <- <-. by eapply (acked_inv σ m); rewrite ?Ea.
  - exists m. rewrite Ea in Hat. unfold inflight in *. rewrite Hn, Ea in *. simpl in *.
    constructor; simpl; rewrite ?app_nil_r; try done.
    + destruct exit; [done|]. by apply Hat.
    + intros Hret Hnd. unfold inflight. simpl. destruct exit; [done|]. by apply Ht.
    + intros Hret. unfold inflight. simpl. destruct exit; by apply Hsh.
    + unfold inflight. simpl. by destruct exit.
Qed.

Lemma loop_step_inv options σ σ' m :
  watch_inv σ m → loop_step options σ σ' → ∃ m', watch_inv σ' m'.
Proof.
  intros Hi Hstep. destruct Hstep as [? err Hret Hc|? ev Hret Hc|? Hret|? err ctx Hret Hw Hc|? Hret Hw|? Hret Hd|? Hret Hw
    |? r ctx later panicked Hret Hres Hc1 Hc2].
  - exists m. apply ran_inv; simpl; auto with watch.
  - exists m. apply ran_inv; try done; apply handleEvent_quiet.
  - exists m. apply ran_inv; simpl; auto with watch.
  - exists m. apply ran_inv; try done. apply quiet_change, report_quiet.
  - exists m. apply ran_inv; simpl; auto with watch.
  - exists m. apply ran_inv; simpl; auto with watch.
  - exists m. apply ran_inv; simpl; auto with watch.
  - by eapply result_inv.
Qed.

Lemma watch_step_inv options σ σ' m :
  watch_inv σ m → watch_step options σ σ' → ∃ m', watch_inv σ' m'.
Proof.
  intros Hi Hstep. destruct Hstep as [? err Hc|? d Hd|? ? Hstep|? ? Hstep].
  - exists m. destruct Hi. by constructor.
  - exists m. destruct Hi. by constructor; simpl; rewrite ?app_nil_r.
  - by eapply worker_step_inv.
  - by eapply loop_step_inv.
Qed.

Lemma watch_reachable_inv options σ :
  rtc (watch_step options) (watchStart options) σ → ∃ m, watch_inv σ m.
Proof.
  intros Hr. apply (rtc_ind_r (R:=watch_step options) (λ σ, ∃ m, watch_inv σ m) (watchStart options)); [| |done].
  - exists monitorStart. apply watchStart_inv.
  - intros σ1 σ2 _ Hst [m Hm]. by eapply watch_step_inv.
Qed.

(** ** No change is forgotten *)

Definition has_fatal (l : list publishResult) : bool := existsb pr_fatal l.
Definition has_reconcile (l : list publishResult) : bool := existsb pr_reconcile l.

(** Something will still happen: a change is followed by a request, a pending
    hook by a retry, and a worker that stopped by the end of Watch. *)
Record watch_live (options : WatchOptions) (σ : watch) : Prop := {
  wl_change : dirty (wt_log σ) = true →
    debounceChannel (wt_loop σ) = true ∨ wt_requests σ = true ∨
    pendingAfterPublished (wt_worker σ) ≠ None ∨
    has_reconcile (inflight σ) = true ∨ has_fatal (inflight σ) = true;
  wl_pending : pendingAfterPublished (wt_worker σ) ≠ None →
    retryChannel (wt_worker σ) ≠ None ∨ (∃ s, wt_at σ = WRetryHook s) ∨ has_fatal (inflight σ) = true;
  wl_done : wt_at σ = WDone → has_fatal (inflight σ) = true;
  wl_exit : ∀ r, wt_at σ = WSend r true → pr_fatal r = true;
}.

Definition watch_open (σ : watch) : Prop := wt_canceled σ = None ∧ wt_return σ = None.

Definition delays_ok (options : WatchOptions) (w : watchWorker) : Prop :=
  base_ok (watchBackoff options) (retryDelayBase w) ∧
  ∀ d fired, retryChannel w = Some (d, fired) → d ≤ wo_AfterPublishedRetryMaxInterval options.

Lemma reset_delays options w :
  backoff_wf (watchBackoff options) → delays_ok options (resetRetryBackoff options w).
Proof. intros (Hi & Hm & _). split; [|done]. unfold base_ok. simpl in *. lia. Qed.

Lemma schedule_delays options random w :
  backoff_wf (watchBackoff options) → delays_ok options w →
  delays_ok options (scheduleAfterPublishedRetry options random w).
Proof.
  intros Hb [Hw _]. split; [by apply advance_ok|]. simpl. intros d fired [= <- <-].
  destruct (Z.ltb_spec (wo_AfterPublishedRetryMaxInterval options)
    (jitterDuration (retryDelayBase w) (wo_AfterPublishedRetryJitterFraction options) random)); lia.
Qed.

Lemma stop_delays options w : delays_ok options w → delays_ok options (stopRetryTimer w).
Proof. by intros [Hb _]. Qed.

Lemma pending_delays options s w : delays_ok options w → delays_ok options (setPending s w).
Proof. by intros [Hb Hd]. Qed.

#[export] Hint Resolve reset_delays schedule_delays stop_delays pending_delays : watch.

Lemma worker_delays options σ σ' :
  backoff_wf (watchBackoff options) → delays_ok options (wt_worker σ) →
  worker_step options σ σ' → delays_ok options (wt_worker σ').
Proof.
  intros Hb Hd Hstep. destruct Hstep as [? w at_ Ea Hc E|? Ea Hc|? d w at_ Ea Hd' E|? at_ log Ea Hq E
    |? s err Ea|? s before answer after err random w at_ Ea Eh E
    |? s before answer after err random w at_ Ea Eh E|? r exit Ea Hn]; simpl; try done.
  - unfold workerTop, retryAfterPublished in E.
    repeat case_match; injection E as <- <-; auto with watch.
  - unfold retryAfterPublished in E. repeat case_match; injection E as <- <-; auto with watch.
  - unfold hookReturned in E. repeat case_match; injection E as <- <-; unfold acknowledge; auto with watch.
  - unfold retriedAfterPublished in E.
    repeat case_match; injection E as <- <-; unfold acknowledge; auto with watch.
Qed.

Lemma watch_delays options σ :
  backoff_wf (watchBackoff options) → rtc (watch_step options) (watchStart options) σ →
  delays_ok options (wt_worker σ).
Proof.
  intros Hb. revert σ. apply (rtc_ind_r (R:=watch_step options)
    (λ σ, delays_ok options (wt_worker σ)) (watchStart options)).
  - by apply (reset_delays options (startWorker options)).
  - intros σ1 σ2 _ Hst Hd. destruct Hst as [? err Hc|? d Ht|? ? Hst|? ? Hst]; try done.
    + destruct Hd as [Hbase Hd]. split; [done|]. simpl. intros d' fired [= <- <-]. by eapply Hd.
    + by eapply worker_delays.
    + by destruct Hst.
Qed.

Lemma open_before options σ σ' : watch_step options σ σ' → watch_open σ' → watch_open σ.
Proof.
  intros Hst [Hc Hr]. destruct Hst as [? err Hn|? d Hd|? ? Hst|? ? Hst]; try done.
  - by destruct Hst.
  - by destruct Hst.
Qed.

Lemma start_live options : watch_live options (watchStart options).
Proof. constructor; simpl; naive_solver. Qed.

(** The worker moves on and may start to send a result. *)
Lemma move_live options σ w at_ log requests :
  sending (wt_at σ) = [] →
  (dirty (wt_log σ ++ log) = true →
    debounceChannel (wt_loop σ) = true ∨ requests = true ∨ pendingAfterPublished w ≠ None ∨
    has_reconcile (inflight σ) = true ∨ has_fatal (inflight σ) = true ∨
    has_reconcile (sending at_) = true ∨ has_fatal (sending at_) = true) →
  (pendingAfterPublished w ≠ None →
    retryChannel w ≠ None ∨ (∃ s, at_ = WRetryHook s) ∨ has_fatal (inflight σ) = true ∨
    has_fatal (sending at_) = true) →
  at_ ≠ WDone → (∀ r, at_ = WSend r true → pr_fatal r = true) →
  watch_live options (set_worker (set_channels σ requests (wt_results σ)) w at_ log).
Proof.
  intros Hns Hch Hp Hd Hx.
  assert (Hin : inflight (set_worker (set_channels σ requests (wt_results σ)) w at_ log)
    = inflight σ ++ sending at_) by (unfold inflight; simpl; by rewrite Hns, app_nil_r).
  unfold has_reconcile, has_fatal in *.
  constructor; rewrite ?Hin; rewrite ?(existsb_app pr_fatal), ?(existsb_app pr_reconcile), ?orb_true_iff; simpl;
    [tauto..|done|done].
Qed.

Lemma dirty_keep l log :
  Forall (λ e, e ≠ SawChange ∧ e ≠ StartPublish) log → dirty (l ++ log) = dirty l.
Proof.
  intros Hl. rewrite dirty_app. generalize (dirty l). induction Hl as [|e log [H1 H2] _ IH]; intros b; [done|].
  simpl. rewrite IH. by destruct e.
Qed.

Lemma schedule_live options random w :
  pendingAfterPublished (scheduleAfterPublishedRetry options random w) = pendingAfterPublished w ∧
  retryChannel (scheduleAfterPublishedRetry options random w) ≠ None.
Proof. done. Qed.

Lemma retry_live options σ w at_ :
  watch_live options σ → wt_at σ = WTop ∨ wt_at σ = WSelect →
  retryAfterPublished options (wt_worker σ) = (w, at_) →
  watch_live options (set_worker σ w at_ []).
Proof.
  intros [Hch Hp Hd Hx] Ea E. assert (Hns : sending (wt_at σ) = []) by (by destruct Ea as [-> | ->]).
  unfold retryAfterPublished in E. simpl in E.
  destruct (pendingAfterPublished (wt_worker σ)) eqn:Ep; injection E as <- <-;
    apply (move_live options σ _ _ [] (wt_requests σ)); simpl; rewrite ?app_nil_r, ?Ep; try done;
    [intros _; by right; right; left|intros _; right; left; by eexists|tauto].
Qed.

Lemma hooked_live options σ w r exit s err :
  watch_live options σ → sending (wt_at σ) = [] → pr_fatal r = true ∨ exit = false ∧
  (pendingAfterPublished (wt_worker σ) ≠ None → pendingAfterPublished w = None → pr_reconcile r = true) ∧
  (pendingAfterPublished w ≠ None → retryChannel w ≠ None) →
  watch_live options (set_worker σ w (WSend r exit) [AfterPublished s err]).
Proof.
  intros [Hch Hp Hd Hx] Hns Hr.
  apply (move_live options σ _ _ _ (wt_requests σ)); simpl; rewrite ?orb_false_r; try done.
  - rewrite dirty_keep by (repeat constructor; done). intros Hdirty. specialize (Hch Hdirty).
    destruct Hr as [Hr|(_ & Hrec & _)]; [by auto 10|].
    destruct (pendingAfterPublished w); [by auto 10|].
    destruct Hch as [?|[?|[Hpn|[?|?]]]]; [by auto 10..|rewrite Hrec by done; by auto 10|by auto 10|by auto 10].
  - intros Hn. destruct Hr as [Hr|(_ & _ & Hret)]; [by auto|]. left. by apply Hret.
  - intros ? [= <- ->]. naive_solver.
Qed.

(** Outside of a retry a pending hook waits for its timer. *)
Definition retrying (at_ : workerAt) : bool := match at_ with WRetryHook _ => true | _ => false end.

Lemma waiting_live options σ :
  watch_live options σ → retrying (wt_at σ) = false → pendingAfterPublished (wt_worker σ) ≠ None →
  retryChannel (wt_worker σ) ≠ None ∨ has_fatal (inflight σ) = true.
Proof. intros [_ Hp _ _] Ha Hn. destruct (Hp Hn) as [?|[[s Hs]|?]]; [auto|by rewrite Hs in Ha|auto]. Qed.

Lemma worker_live options σ σ' m :
  watch_inv σ m → watch_open σ → watch_live options σ → worker_step options σ σ' → watch_live options σ'.
Proof.
  intros Hi [Hc Hret] Hlive Hstep. pose proof (wi_at _ _ Hi) as Hat. pose proof Hlive as [Hch Hp Hd Hx].
  destruct Hstep as [σ w at_ Ea Hwc E|σ Ea Hwc|σ d w at_ Ea Hd' E|σ at_ log Ea Hq E
    |σ s err Ea|σ s before answer after err random w at_ Ea Eh E
    |σ s before answer after err random w at_ Ea Eh E|σ r exit Ea Hn].
  - unfold workerTop in E.
    assert (Hsel : watch_live options (set_worker σ (wt_worker σ) WSelect [])).
    { apply (move_live options σ _ _ [] (wt_requests σ)); rewrite ?Ea, ?app_nil_r; simpl; try tauto; try done.
      pose proof (waiting_live _ _ Hlive) as Hw. rewrite Ea in Hw. specialize (Hw eq_refl). tauto. }
    destruct (pendingAfterPublished (wt_worker σ)) eqn:Ep, (retryChannel (wt_worker σ)) as [[d []]|] eqn:Er;
      try (injection E as <- <-; done).
    eapply retry_live; [done|by left|done].
  - exfalso. unfold workerCanceled in Hwc. rewrite Hc, Hret in Hwc. done.
  - eapply retry_live; [done|by right|done].
  - pose proof (waiting_live _ _ Hlive) as Hw. rewrite Ea in Hw. specialize (Hw eq_refl).
    unfold takeRequest in E. destruct (pendingAfterPublished (wt_worker σ)) eqn:Ep; injection E as <- <-.
    + apply (move_live options σ _ _ [] false); rewrite ?Ea, ?Ep, ?app_nil_r; simpl; try done; [auto|tauto].
    + apply (move_live options σ _ _ _ false); rewrite ?Ea, ?Ep; simpl; try done.
      by rewrite dirty_app.
  - apply (move_live options σ _ _ _ (wt_requests σ)); rewrite ?Ea; try done.
    + rewrite dirty_keep by (repeat constructor; done). tauto.
    + pose proof (waiting_live _ _ Hlive) as Hw. rewrite Ea in Hw. specialize (Hw eq_refl). tauto.
    + unfold publishReturned. by case_match.
    + unfold publishReturned. by case_match.
  - rewrite Ea in Hat. destruct Hat as [Hpn Ho]. unfold hookReturned in E.
    destruct err as [e|]; [destruct (isFatalPublicationError e)|]; injection E as <- <-;
      (apply hooked_live; [done|by rewrite Ea|]); [by left|right..]; naive_solver.
  - rewrite Ea in Hat. destruct Hat as [Hpn Ho]. unfold retriedAfterPublished in E.
    destruct err as [e|]; [destruct (isFatalPublicationError e)|]; injection E as <- <-;
      (apply hooked_live; [done|by rewrite Ea|]); [by left|right..]; simpl; rewrite ?Hpn; naive_solver.
  - unfold inflight in *. rewrite Hn, Ea in *. simpl in *.
    constructor; unfold inflight; simpl; rewrite ?app_nil_r; rewrite ?Ea in *.
    + destruct exit; naive_solver.
    + destruct exit; naive_solver.
    + destruct exit; [|done]. rewrite (Hx r eq_refl). done.
    + by destruct exit.
Qed.

Lemma ran_live options σ d :
  watch_live options σ →
  (dirty (wt_log σ ++ cd_log d) = true →
    dirty (wt_log σ) = true ∨ debounceChannel (cd_loop d) = true ∨ cd_request d = true) →
  (debounceChannel (wt_loop σ) = true → debounceChannel (cd_loop d) = true ∨ cd_request d = true) →
  watch_live options (ran σ d).
Proof.
  intros [Hch Hp Hd Hx] Hdirty Hdeb. constructor; simpl; try done. rewrite orb_true_iff.
  change (inflight (ran σ d)) with (inflight σ). tauto.
Qed.

Lemma published_keep options s panicked ctx :
  Forall (λ e, e ≠ SawChange ∧ e ≠ StartPublish) (invokeWatchPublished options s panicked ctx).
Proof.
  unfold invokeWatchPublished, reportWatchError. repeat case_match; repeat constructor; done.
Qed.

Lemma report_keep options ctx err :
  Forall (λ e, e ≠ SawChange ∧ e ≠ StartPublish) (reportWatchError options ctx err).
Proof. unfold reportWatchError. repeat case_match; repeat constructor; done. Qed.

Lemma result_live options σ m r ctx later panicked :
  watch_inv σ m → watch_live options σ → wt_results σ = Some r →
  let d := handleResult options (wt_loop σ) r ctx later panicked in
  cd_return d = None → watch_live options (ran (set_channels σ (wt_requests σ) None) d).
Proof.
  intros Hi [Hch Hp Hd Hx] Hres. pose proof (wi_results _ _ Hi) as Hok.
  unfold inflight in Hch, Hp, Hd, Hok. rewrite Hres in Hch, Hp, Hd, Hok. simpl in Hch, Hp, Hd, Hok.
  apply Forall_cons in Hok as [[Hf Hrec] _]. rewrite !orb_true_iff in Hch, Hp, Hd.
  unfold handleResult. destruct ctx as [err|]; [done|].
  destruct (pr_err r) as [err|] eqn:He.
  - destruct (pr_fatal r); [done|]. intros _. destruct (pr_reconcile r); [by specialize (Hrec eq_refl)|].
    constructor; simpl; try done; rewrite ?dirty_keep, ?orb_false_r by apply report_keep;
      unfold inflight; simpl; [intros Hdirty; destruct (Hch Hdirty)|intros Hn; destruct (Hp Hn)
      |intros Hn; destruct (Hd Hn)]; intuition congruence.
  - destruct (pr_fatal r); [by specialize (Hf eq_refl)|].
    destruct (_ <? _)%N; intros _; (constructor; simpl; try done;
      rewrite ?app_nil_r, ?dirty_keep, ?orb_true_iff by apply published_keep;
      unfold inflight; simpl; [intros Hdirty; destruct (Hch Hdirty)|intros Hn; destruct (Hp Hn)
      |intros Hn; destruct (Hd Hn)]; intuition congruence).
Qed.

Lemma loop_live options σ σ' m :
  watch_inv σ m → watch_open σ' → watch_live options σ → loop_step options σ σ' → watch_live options σ'.
Proof.
  intros Hi [Hc' Hr'] Hlive Hstep.
  destruct Hstep as [σ err Hret Hc|σ ev Hret Hc|σ Hret|σ err ctx Hret Hw Hc|σ Hret Hw|σ Hret Hd|σ Hret Hw
    |σ r ctx later panicked Hret Hres Hc1 Hc2]; try done.
  - apply ran_live; [done|right; left|intros _; left]; by apply handleEvent_debounced.
  - apply ran_live; simpl; auto.
  - apply ran_live; simpl; rewrite ?app_nil_r; auto.
  - apply ran_live; simpl; rewrite ?app_nil_r; auto.
  - apply ran_live; simpl; auto.
  - by eapply result_live.
Qed.

Lemma watch_reachable_live options σ :
  rtc (watch_step options) (watchStart options) σ → watch_open σ → watch_live options σ.
Proof.
  revert σ. apply (rtc_ind_r (R:=watch_step options)
    (λ σ, watch_open σ → watch_live options σ) (watchStart options)).
  - intros _. apply start_live.
  - intros σ1 σ2 Hr Hst IH Ho. pose proof (open_before _ _ _ Hst Ho) as Ho1. specialize (IH Ho1).
    destruct (watch_reachable_inv _ _ Hr) as [m Hi].
    destruct Hst as [? err Hn|? d Hd|? ? Hst|? ? Hst].
    + by destruct Ho.
    + destruct IH as [Hch Hp Hdn Hx]. constructor; simpl; rewrite ?app_nil_r; try done. by left.
    + by eapply worker_live.
    + by eapply loop_live.
Qed.

(** ** Progress

    [inevitable R P σ]: every run of steps [R] from [σ] reaches [P], and none
    stops before it. *)
Inductive inevitable {A} (R : A → A → Prop) (P : A → Prop) : A → Prop :=
| inevitable_now a : P a → inevitable R P a
| inevitable_later a a' :
    R a a' → (∀ a', R a a' → inevitable R P a') → inevitable R P a.

Lemma inevitable_measure {A} (R : A → A → Prop) (P I : A → Prop) (μ : A → nat) :
  (∀ a, P a ∨ ¬ P a) →
  (∀ a, I a → ¬ P a → ∃ a', R a a') →
  (∀ a a', I a → ¬ P a → R a a' → P a' ∨ I a' ∧ (μ a' < μ a)%nat) →
  ∀ a, I a → inevitable R P a.
Proof.
  intros Hdec Hmove Hless a. remember (μ a) as n eqn:En. revert a En.
  induction n as [n IH] using lt_wf_ind. intros a -> Ha.
  destruct (Hdec a) as [?|Hn]; [by apply inevitable_now|].
  destruct (Hmove a Ha Hn) as [a' Ha']. apply (inevitable_later _ _ _ a'); [done|].
  intros b Hb. destruct (Hless a b Ha Hn Hb) as [?|[Hi Hlt]]; [by apply inevitable_now|].
  by eapply IH.
Qed.

(** What Watch does by itself: the worker, its timers, the debounce timer and
    the results.  There are no new events, watcher errors, ticks and no
    cancellation, and AfterPublished succeeds or fails for good. *)
Inductive own_step (options : WatchOptions) : watch → watch → Prop :=
| own_worker σ σ' :
    worker_step options σ σ' →
    (∀ s e, wt_log σ' = wt_log σ ++ [AfterPublished s (Some e)] → isFatalPublicationError e = true) →
    own_step options σ σ'
| own_timer σ d :
    retryChannel (wt_worker σ) = Some (d, false) →
    own_step options σ (set_worker σ
      {| lastAcknowledged := lastAcknowledged (wt_worker σ);
         pendingAfterPublished := pendingAfterPublished (wt_worker σ);
         retryDelayBase := retryDelayBase (wt_worker σ); retryChannel := Some (d, true) |} (wt_at σ) [])
| own_errors_closed σ :
    wt_return σ = None → watchErrors (wt_loop σ) = true →
    own_step options σ (ran σ (handleErrorsClosed (wt_loop σ)))
| own_debounce σ :
    wt_return σ = None → debounceChannel (wt_loop σ) = true →
    own_step options σ (ran σ (handleDebounce (wt_loop σ)))
| own_result σ r ctx later panicked :
    wt_return σ = None → wt_results σ = Some r → ctx_answer σ ctx → ctx_answer σ later →
    own_step options σ
      (ran (set_channels σ (wt_requests σ) None) (handleResult options (wt_loop σ) r ctx later panicked)).

Lemma own_watch options σ σ' : own_step options σ σ' → watch_step options σ σ'.
Proof.
  intros [σ1 σ2 Hst _|σ1 d Hd|σ1 Hr Hw|σ1 Hr Hd|σ1 r ctx later panicked Hr Hs Hc Hl].
  - by apply step_worker.
  - by apply step_timer.
  - by apply step_loop, step_loop_errors_closed.
  - by apply step_loop, step_loop_debounce.
  - by apply step_loop, step_loop_result.
Qed.

(** The change was taken up by a publication, or Watch ended. *)
Definition answered (σ : watch) : Prop := dirty (wt_log σ) = false ∨ wt_return σ ≠ None.

(** The steps that are left, at most. *)
Definition at_work (at_ : workerAt) : nat :=
  match at_ with
  | WDone => 0 | WSelect => 1 | WTop => 2 | WSend _ _ => 6 | WHook _ => 7 | WRetryHook _ => 7 | WPublishing => 8
  end.
Definition retry_work (retry : option (Z * bool)) : nat :=
  match retry with Some (_, false) => 8 | Some (_, true) => 7 | None => 0 end.
Definition watch_work (σ : watch) : nat :=
  at_work (wt_at σ) + retry_work (retryChannel (wt_worker σ))
  + (if wt_requests σ then 2 else 0) + (if wt_results σ is Some _ then 3 else 0)
  + (if debounceChannel (wt_loop σ) then 3 else 0) + (if watchErrors (wt_loop σ) then 1 else 0).

Definition settled (e : watchEvent) : Prop :=
  match e with AfterPublished _ (Some err) => isFatalPublicationError err = true | _ => True end.

Lemma own_settled options σ σ1 w at_ log :
  worker_step options σ (set_worker σ1 w at_ log) → wt_log σ1 = wt_log σ → Forall settled log →
  own_step options σ (set_worker σ1 w at_ log).
Proof.
  intros Hst El Hs. apply own_worker; [done|]. simpl. rewrite El. intros s e ->%app_inv_head.
  by inversion_clear Hs.
Qed.

Lemma retry_moves options σ :
  wt_at σ = WSelect → retryChannel (wt_worker σ) ≠ None → ∃ σ', own_step options σ σ'.
Proof.
  intros Ea Hn. destruct (retryChannel (wt_worker σ)) as [[d []]|] eqn:Et; [| |done].
  - destruct (retryAfterPublished options (wt_worker σ)) as [w at_] eqn:E. eexists.
    apply own_settled; [by eapply step_worker_retry|done|constructor].
  - eexists. by eapply own_timer.
Qed.

Lemma hook_moves options :
  invokeWatchAfterPublished options None (HookReturned None) None = None.
Proof. unfold invokeWatchAfterPublished. by case_match. Qed.

(** Watch does not get stuck while a change is not taken up. *)
Lemma own_moves options σ :
  watch_open σ → watch_live options σ → dirty (wt_log σ) = true → ∃ σ', own_step options σ σ'.
Proof.
  intros [Hc Hr] [Hch Hp Hd _] Hdirty. specialize (Hch Hdirty).
  destruct (wt_results σ) as [r|] eqn:Er.
  { eexists. by apply (own_result _ _ r None None false); [| |left|left]. }
  unfold inflight in *. rewrite Er in *. simpl in *.
  destruct (wt_at σ) as [| | |s|s|r exit|] eqn:Ea; simpl in *.
  - destruct (workerTop options (wt_worker σ)) as [w at_] eqn:E. eexists.
    apply own_settled; [eapply step_worker_top; [done| |done]|done|constructor].
    unfold workerCanceled. by rewrite Hc, Hr.
  - destruct Hch as [?|[Hq|[Hpn|[?|?]]]]; [|..|done|done].
    + eexists. by apply own_debounce.
    + destruct (takeRequest (wt_worker σ)) as [at_ log] eqn:E. eexists.
      apply own_settled; [by eapply step_worker_request|done|].
      unfold takeRequest in E. case_match; injection E as <- <-; repeat constructor.
    + apply retry_moves; [done|]. destruct (Hp Hpn) as [?|[[s ?]|?]]; done.
  - eexists. apply own_settled; [by apply (step_worker_published _ _ {| sn_Generation := 0; sn_Commit := [];
      sn_Root := []; sn_PublishedAt := 0 |} None)|done|repeat constructor].
  - destruct (hookReturned options fzero (wt_worker σ) s None) as [w at_] eqn:E. eexists.
    apply own_settled; [by eapply step_worker_hook; [|apply hook_moves|]|done|repeat constructor].
  - destruct (retriedAfterPublished options fzero (wt_worker σ) s None) as [w at_] eqn:E. eexists.
    apply own_settled; [by eapply step_worker_retried; [|apply hook_moves|]|done|repeat constructor].
  - eexists. apply own_settled; [by eapply step_worker_send|done|constructor].
  - by specialize (Hd eq_refl).
Qed.

Lemma worker_works options σ σ' :
  watch_open σ → worker_step options σ σ' →
  (∀ s e, wt_log σ' = wt_log σ ++ [AfterPublished s (Some e)] → isFatalPublicationError e = true) →
  dirty (wt_log σ') = false ∨ (watch_work σ' < watch_work σ)%nat.
Proof.
  intros [Hc Hr] Hstep Hset. unfold watch_work.
  destruct Hstep as [σ w at_ Ea Hwc E|σ Ea Hwc|σ d w at_ Ea Hd' E|σ at_ log Ea Hq E
    |σ s err Ea|σ s before answer after err random w at_ Ea Eh E
    |σ s before answer after err random w at_ Ea Eh E|σ r exit Ea Hn]; simpl in *; rewrite ?Ea; simpl.
  - right. unfold workerTop, retryAfterPublished in E. simpl in E.
    destruct (pendingAfterPublished (wt_worker σ)), (retryChannel (wt_worker σ)) as [[d []]|] eqn:Et;
      injection E as <- <-; simpl; rewrite ?Et; simpl; lia.
  - exfalso. unfold workerCanceled in Hwc. by rewrite Hc, Hr in Hwc.
  - right. unfold retryAfterPublished in E. simpl in E. rewrite Hd'.
    destruct (pendingAfterPublished (wt_worker σ)); injection E as <- <-; simpl; lia.
  - unfold takeRequest in E. rewrite Hq.
    destruct (pendingAfterPublished (wt_worker σ)); injection E as <- <-; simpl; [right; lia|].
    left. by rewrite dirty_app.
  - right. unfold publishReturned. case_match; simpl; lia.
  - right. unfold hookReturned in E. destruct err as [e|]; [rewrite (Hset _ _ eq_refl) in E|];
      injection E as <- <-; simpl; lia.
  - right. unfold retriedAfterPublished in E. destruct err as [e|]; [rewrite (Hset _ _ eq_refl) in E|];
      injection E as <- <-; simpl; lia.
  - right. rewrite Hn. destruct exit; simpl; lia.
Qed.

(** Every step of its own brings it nearer. *)
Lemma own_works options σ σ' :
  watch_open σ → own_step options σ σ' → answered σ' ∨ (watch_work σ' < watch_work σ)%nat.
Proof.
  intros Ho Hst. pose proof Ho as [Hc Hr].
  destruct Hst as [σ σ' Hst Hset|σ d Hd|σ _ Hw|σ _ Hd|σ r ctx later panicked _ Hs _ _].
  - destruct (worker_works _ _ _ Ho Hst Hset) as [?|?]; [left; by left|by right].
  - right. unfold watch_work. simpl. rewrite Hd. simpl. lia.
  - right. unfold watch_work. simpl. rewrite Hw, orb_false_r. lia.
  - right. unfold watch_work. simpl. rewrite Hd, orb_true_r. destruct (wt_requests σ); lia.
  - unfold answered, watch_work, handleResult. simpl. rewrite Hs. destruct ctx; [left; by right|].
    destruct (pr_err r); [destruct (pr_fatal r); [left; by right|]|destruct (_ <? _)%N];
      right; simpl; destruct (wt_requests σ), (pr_reconcile r); simpl; lia.
Qed.

Lemma own_open options σ σ' : watch_open σ → own_step options σ σ' → watch_open σ' ∨ answered σ'.
Proof.
  intros [Hc Hr] Hst. assert (Hc' : wt_canceled σ' = None).
  { destruct Hst as [σ σ' Hst _| | | |]; [by destruct Hst|done..]. }
  destruct (wt_return σ') eqn:Er; [right; right; by rewrite Er|by left].
Qed.

(** Left to itself, Watch takes up every change or ends. *)
Lemma watch_progress options σ :
  rtc (watch_step options) (watchStart options) σ → watch_open σ →
  inevitable (own_step options) answered σ.
Proof.
  intros Hr Ho.
  apply (inevitable_measure _ _
    (λ σ, rtc (watch_step options) (watchStart options) σ ∧ watch_open σ) watch_work); [..|done].
  - intros a. unfold answered. destruct (dirty (wt_log a)), (wt_return a); naive_solver.
  - intros a [Ha Hoa] Hn. apply own_moves; [done|by apply watch_reachable_live|].
    destruct (dirty (wt_log a)) eqn:E; [done|]. exfalso. by apply Hn; left.
  - intros a a' [Ha Hoa] _ Hst. destruct (own_open _ _ _ Hoa Hst) as [Ho'|?]; [|by left].
    destruct (own_works _ _ _ Hoa Hst) as [?|?]; [by left|right]. split_and!; try done.
    eapply rtc_r; [done|by apply own_watch].
Qed.

(** ** What an accepted log means *)

Lemma monitor_acks log m m' s :
  monitor_run m log = Some m' → s ∈ mo_acks m' → s ∈ mo_acks m ∨ AfterPublished s None ∈ log.
Proof.
  revert m. induction log as [|e log IH]; intros m Hrun Hs; [injection Hrun as <-; by left|].
  simpl in Hrun. destruct (monitor_step m e) as [m1|] eqn:E; [|done].
  destruct (IH m1 Hrun Hs) as [Hin|?]; [|right; by right].
  assert (mo_acks m1 = mo_acks m ∨ ∃ s', e = AfterPublished s' None ∧ mo_acks m1 = mo_acks m ++ [s'])
    as [Ha|[s' [He Ha]]].
  { destruct e as [| |s' [err|]|s' [err|]|s'|err]; simpl in E; repeat case_match; simplify_eq; auto.
    right. eauto. }
  - rewrite Ha in Hin. by left.
  - subst e. rewrite Ha in Hin. apply elem_of_app in Hin as [?|Hin]; [by left|].
    apply list_elem_of_singleton in Hin as ->.
    right. by left.
Qed.

(** An open barrier is closed only by the success of its own hook. *)
Lemma monitor_open log m m' s :
  monitor_run m log = Some m' → mo_open m = Some s → AfterPublished s None ∉ log → mo_open m' = Some s.
Proof.
  revert m. induction log as [|e log IH]; intros m Hrun Ho Hn; [by injection Hrun as <-|].
  simpl in Hrun. destruct (monitor_step m e) as [m1|] eqn:E; [|done].
  rewrite not_elem_of_cons in Hn. destruct Hn as [He Hn]. apply (IH m1); try done.
  destruct e as [| |s' [err|]|s' [err|]|s'|err]; simpl in E; rewrite ?Ho in E;
    repeat case_match; simplify_eq; try done.
  exfalso. by match goal with H : negb (bool_decide _) = false |- _ =>
    apply negb_false_iff, bool_decide_eq_true in H; simplify_eq end.
Qed.

(** C25: Watch keeps the publication barrier.  In every interleaving of the watch
    loop, the publication worker, the timers and the caller, the log of calls is
    accepted by the monitor: a publication starts only when the generation
    published before has passed AfterPublished, the hook is called again only
    for exactly that snapshot, acknowledged generations increase, and
    OnPublished is called with increasing generations.  In particular
    OnPublished sees only snapshots whose hook succeeded before, and between a
    failed hook and the next publication that hook succeeded. *)
Theorem watch_keeps_barrier options σ :
  rtc (watch_step options) (watchStart options) σ →
  (∃ m, monitor_run monitorStart (wt_log σ) = Some m) ∧
  (∀ before s after, wt_log σ = before ++ OnPublished s :: after → AfterPublished s None ∈ before) ∧
  (∀ before s err between after,
     wt_log σ = before ++ AfterPublished s (Some err) :: between ++ StartPublish :: after →
     AfterPublished s None ∈ between).
Proof.
  intros Hr. destruct (watch_reachable_inv _ _ Hr) as [m [Hlog _ _ _ _ _ _]].
  split; [by exists m|]. split.
  - intros before s after E. rewrite E, monitor_run_app in Hlog.
    destruct (monitor_run monitorStart before) as [m1|] eqn:E1; [|done]. simpl in Hlog.
    destruct (bool_decide (s ∈ mo_acks m1)) eqn:Es; [|done]. apply bool_decide_eq_true in Es.
    by destruct (monitor_acks _ _ _ _ E1 Es) as [Hin%elem_of_nil|].
  - intros before s err between after E. rewrite E, monitor_run_app in Hlog.
    destruct (monitor_run monitorStart before) as [m1|] eqn:E1; [|done]. simpl in Hlog.
    destruct (negb (bool_decide (mo_open m1 = Some s))) eqn:Eo; [done|].
    apply negb_false_iff, bool_decide_eq_true in Eo. rewrite monitor_run_app in Hlog.
    destruct (monitor_run m1 between) as [m2|] eqn:E2; [|done].
    destruct (decide (AfterPublished s None ∈ between)) as [|Hn]; [done|exfalso].
    simpl in Hlog. by rewrite (monitor_open _ _ _ _ E2 Eo Hn) in Hlog.
Qed.

(** C26: Watch takes up every change it sees.  From every state it can be in
    while it runs and its context is live, with a change of the source that no
    publication has started after, every run of its own steps (worker, timers,
    debounce and results, with AfterPublished no longer failing transiently)
    reaches the start of a publication or the end of Watch, and cannot stop
    before.  Until then the debounce timer runs, a request waits, a hook is
    pending, or a result is on its way that asks for a request or is fatal; a
    pending hook has its retry timer armed, or is being retried, or failed for
    good; every retry delay is at most the configured maximum; and the worker
    has stopped only if a fatal result is on its way to the loop. *)
Theorem watch_takes_up_changes repository channel before after o options σ :
  watchPrepare repository channel before after o = Ok options →
  wo_AfterPublishedRetryMaxInterval o ≤ int64_max →
  rtc (watch_step options) (watchStart options) σ →
  wt_canceled σ = None → wt_return σ = None →
  inevitable (own_step options) (λ σ', dirty (wt_log σ') = false ∨ wt_return σ' ≠ None) σ ∧
  (dirty (wt_log σ) = true →
     debounceChannel (wt_loop σ) = true ∨ wt_requests σ = true ∨
     pendingAfterPublished (wt_worker σ) ≠ None ∨
     has_reconcile (inflight σ) = true ∨ has_fatal (inflight σ) = true) ∧
  (pendingAfterPublished (wt_worker σ) ≠ None →
     retryChannel (wt_worker σ) ≠ None ∨ (∃ s, wt_at σ = WRetryHook s) ∨ has_fatal (inflight σ) = true) ∧
  (∀ d fired, retryChannel (wt_worker σ) = Some (d, fired) → d ≤ wo_AfterPublishedRetryMaxInterval options) ∧
  (wt_at σ = WDone → has_fatal (inflight σ) = true).
Proof.
  intros [Hv ->]%watchPrepare_ok Hmax Hr Hc Hret.
  destruct (watch_reachable_live _ _ Hr (conj Hc Hret)) as [Hch Hp Hd _].
  destruct (watch_delays (watchDefaults o) σ) as [_ Hdel]; [by apply watch_backoff_wf|done|].
  split_and!; try done. by apply watch_progress.
Qed.

(** ** A run: the hook of the first generation fails once *)

Definition toy_watch_options : WatchOptions :=
  {| wo_Debounce := 0; wo_ReconcileInterval := 0; wo_AfterPublishedRetryInterval := 0;
     wo_AfterPublishedRetryMaxInterval := 0; wo_AfterPublishedRetryBackoffFactor := fzero;
     wo_AfterPublishedRetryJitterFraction := fzero; wo_AfterPublished := true; wo_OnPublished := true;
     wo_OnError := true |}.

Definition toy_generation : Snapshot :=
  {| sn_Generation := 1; sn_Commit := []; sn_Root := []; sn_PublishedAt := 0 |}.

Definition toy_write : fsEvent :=
  {| ev_create := false; ev_remove := false; ev_rename := false; ev_contained := false; ev_rebuild := None; ev_replaced := false;
     ev_ctx := None; ev_realDirectory := false; ev_removeErr := None; ev_addErr := None;
     ev_rebuildCtx := None; ev_removeCtx := None; ev_addCtx := None |}.

(** The state while the failed hook waits for its retry and a file was
    written. *)
Definition toy_waiting : watch :=
  {| wt_worker := {| lastAcknowledged := 0; pendingAfterPublished := Some toy_generation;
                     retryDelayBase := 2 * Second; retryChannel := Some (900 * Millisecond, false) |};
     wt_at := WTop; wt_requests := false;
     wt_results := Some {| pr_snapshot := toy_generation; pr_err := Some [ErrStoreUnavailable];
                           pr_reconcile := false; pr_fatal := false |};
     wt_loop := {| debounceChannel := true; watchErrors := true; lastPublished := 0 |};
     wt_canceled := None; wt_return := None;
     wt_log := [SawChange; StartPublish; Published toy_generation None;
                AfterPublished toy_generation (Some [ErrStoreUnavailable]); SawChange] |}.

Lemma toy_waiting_reachable :
  rtc (watch_step (watchDefaults toy_watch_options)) (watchStart (watchDefaults toy_watch_options)) toy_waiting.
Proof.
  eapply rtc_l; [apply step_worker; by eapply step_worker_top|].
  eapply rtc_l; [apply step_worker; by eapply step_worker_request|].
  eapply rtc_l; [apply step_worker; by apply (step_worker_published _ _ toy_generation None)|].
  eapply rtc_l.
  { apply step_worker. eapply (step_worker_hook _ _ toy_generation None
      (HookReturned (Some [ErrStoreUnavailable])) None _ fzero); [done|done|].
    vm_compute. reflexivity. }
  eapply rtc_l; [apply step_loop, (step_loop_event _ _ toy_write); [done|by left]|].
  eapply rtc_l; [apply step_worker; by eapply step_worker_send|].
  vm_compute. apply rtc_refl.
Qed.

(** ... and after the retry. *)
Definition toy_shown : list watchEvent :=
  wt_log toy_waiting ++ [OnError [ErrStoreUnavailable]; AfterPublished toy_generation None;
                         OnPublished toy_generation].

Lemma toy_shown_reachable :
  ∃ σ, rtc (watch_step (watchDefaults toy_watch_options)) (watchStart (watchDefaults toy_watch_options)) σ ∧
    wt_log σ = toy_shown ∧ wt_requests σ = true.
Proof.
  eexists. split.
  - etrans; [apply toy_waiting_reachable|].
    eapply rtc_l; [apply step_loop; eapply (step_loop_result _ _ _ None None false); [done|done|by left|by left]|].
    eapply rtc_l; [by eapply step_timer|].
    eapply rtc_l; [apply step_worker; by eapply step_worker_top|].
    eapply rtc_l; [apply step_worker;
      by eapply (step_worker_retried _ _ toy_generation None (HookReturned None) None _ fzero)|].
    eapply rtc_l; [apply step_worker; by eapply step_worker_send|].
    eapply rtc_l; [apply step_loop; eapply (step_loop_result _ _ _ None None false); [done|done|by left|by left]|].
    apply rtc_refl.
  - done.
Qed.

Lemma watch_keeps_barrier_witness :
  wt_log toy_waiting ≠ [] ∧ ∃ m, monitor_run monitorStart (wt_log toy_waiting) = Some m.
Proof.
  split; [done|]. apply (watch_keeps_barrier (watchDefaults toy_watch_options) toy_waiting).
  apply toy_waiting_reachable.
Defined.

Lemma watch_takes_up_changes_witness :
  dirty (wt_log toy_waiting) = true ∧
  inevitable (own_step (watchDefaults toy_watch_options))
    (λ σ, dirty (wt_log σ) = false ∨ wt_return σ ≠ None) toy_waiting.
Proof.
  split; [reflexivity|].
  apply (watch_takes_up_changes toy_repository (str "main") None None toy_watch_options
           (watchDefaults toy_watch_options) toy_waiting);
    [vm_compute; reflexivity|vm_compute; discriminate|apply toy_waiting_reachable|done..].
Defined.
