(* ===== verification/DiskCache.v ===== *)
(** * The chunk cache on disk ([cache.go])

    A content-addressed cache directory with an index in memory: a map from
    digests to entries, an LRU list, the total size and pins that keep an entry
    while a reader has its file open.  The operating system is a set of calls
    whose answers are arbitrary, so the directory may be changed or damaged
    behind the back of the process.  The critical sections are programs on the
    index; [DiskCacheProofs] interleaves them. *)

From S2P Require Import Prelude.
From S2P Require Import Prog.
From S2P Require Import GoStd.
From S2P Require Import Encoding.
From S2P Require Import Model.
From S2P Require Import Effects.
From S2P Require Import Os.

(** ** Options *)

Definition DefaultDiskCacheMaxBytes : Z := Z.shiftl 10 30.
Definition DefaultDiskCacheMaxChunkBytes : Z := Z.shiftl 64 20.
Definition DefaultDiskCacheMaxEntries : Z := 100000.
Definition DiskCacheMaxChunkBytesLimit : Z := maxChunkObjectBytes.
Definition DiskCacheMaxEntriesLimit : Z := 1000000.
Definition DiskCacheMaxBytesLimit : Z := DiskCacheMaxEntriesLimit * DiskCacheMaxChunkBytesLimit.
Definition DiskCacheMaxStartupScanEntriesLimit : Z := 2 * DiskCacheMaxEntriesLimit + 256.

Record DiskCacheOptions := {
  do_MaxBytes : Z;
  do_MaxChunkBytes : Z;
  do_MaxEntries : Z;
  do_MaxStartupScanEntries : Z;
}.

Definition DiskCacheOptions_normalized (options : DiskCacheOptions) : result DiskCacheOptions :=
  let maxBytes := if do_MaxBytes options =? 0 then DefaultDiskCacheMaxBytes else do_MaxBytes options in
  let maxChunk := if do_MaxChunkBytes options =? 0 then DefaultDiskCacheMaxChunkBytes
                  else do_MaxChunkBytes options in
  let maxEntries := if do_MaxEntries options =? 0 then DefaultDiskCacheMaxEntries
                    else do_MaxEntries options in
  guard_err (maxBytes <? 1) [ErrResourceLimit] ?;;
  guard_err (maxChunk <? 1) [ErrResourceLimit] ?;;
  guard_err (maxEntries <? 1) [ErrResourceLimit] ?;;
  guard_err (DiskCacheMaxBytesLimit <? maxBytes) [ErrResourceLimit] ?;;
  guard_err (DiskCacheMaxChunkBytesLimit <? maxChunk) [ErrResourceLimit] ?;;
  guard_err (DiskCacheMaxEntriesLimit <? maxEntries) [ErrResourceLimit] ?;;
  let maxScan := if do_MaxStartupScanEntries options =? 0 then 2 * maxEntries + 256
                 else do_MaxStartupScanEntries options in
  guard_err (maxScan <? 1) [ErrResourceLimit] ?;;
  guard_err (DiskCacheMaxStartupScanEntriesLimit <? maxScan) [ErrResourceLimit] ?;;
  Ok {| do_MaxBytes := maxBytes; do_MaxChunkBytes := if maxBytes <? maxChunk then maxBytes else maxChunk;
        do_MaxEntries := maxEntries; do_MaxStartupScanEntries := maxScan |}.

(** ** The operating system *)

(** An os.DirEntry. *)
Record osEntry := { oe_Name : bytes; oe_IsDir : bool }.

(** [C_Root...] calls go through an os.Root; [C_ValidateOpened] is the check of
    ownership and permissions of an opened path, [C_PrepareDirectory] and
    [C_ValidateDirectory] are those of the cache directory ([local_state.go]);
    [C_WriteToken] waits for the write token or the end of the context. *)
Inductive ceff : Type → Type :=
| C_CtxErr : ceff (option error)
| C_Abs (path : bytes) : ceff (result bytes)
| C_PrepareDirectory (path : bytes) : ceff (result bytes)
| C_ValidateDirectory (path : bytes) : ceff (option error)
| C_OpenRoot (path : bytes) : ceff (result handle)
| C_Lstat (path : bytes) : ceff (result FileInfo)
| C_RootLstat (root : handle) (name : bytes) : ceff (result FileInfo)
| C_RootStat (root : handle) (name : bytes) : ceff (result FileInfo)
| C_RootOpen (root : handle) (name : bytes) : ceff (result handle)
| C_RootOpenRoot (root : handle) (name : bytes) : ceff (result handle)
| C_RootMkdir (root : handle) (name : bytes) : ceff (option error)
| C_RootRemove (root : handle) (name : bytes) : ceff (option error)
| C_RootRename (root : handle) (from to : bytes) : ceff (option error)
| C_RootCreate (root : handle) (name : bytes) : ceff (result handle)
| C_RootClose (root : handle) : ceff (option error)
| C_FileStat (file : handle) : ceff (result FileInfo)
| C_FileRead (file : handle) (n : Z) : ceff (bytes * option error)
| C_FileWrite (file : handle) (data : bytes) : ceff (Z * option error)
| C_FileChmod (file : handle) : ceff (option error)
| C_FileSync (file : handle) : ceff (option error)
| C_FileClose (file : handle) : ceff (option error)
| C_ReadDir (file : handle) (n : Z) : ceff (list osEntry * option error)
| C_SyncDirectory (file : handle) : ceff (option error)
| C_TouchFile (file : handle) : ceff (option error)
| C_ValidateOpened (path : bytes) (linked : FileInfo) (file : handle) : ceff (result FileInfo)
| C_RandRead (n : Z) : ceff (result bytes)
| C_WriteToken : ceff (option error)
| C_WriteTokenRelease : ceff unit.

(** What a DiskCache never changes; the handle of its root is nil once the
    cache is closed. *)
Record cacheLayout := {
  cl_root : bytes;
  cl_chunksRoot : bytes;
  cl_rootHandle : option handle;
  cl_rootInfo : FileInfo;
  cl_chunksInfo : FileInfo;
  cl_digestInfo : FileInfo;
  cl_options : DiskCacheOptions;
}.

Section Layout.
Context {S : Type} (cache : cacheLayout).
Abbreviation T := (M ceff S) (only parsing).

(** A call that returns only an error. *)
Definition ccheck (c : ceff (option error)) : T unit :=
  e <- mcall c ;;
  match e with Some e => mfail e | None => mret tt end.

(** [defer close()] around a body. *)
Definition deferring_close {A} (close : ceff (option error)) (body : T A) : T A :=
  r <- mtry body ;;
  mcall close ;;;
  mlift r.

(** [fmt.Errorf("%w: ...: %v", ErrCorruptObject, err)]. *)
Definition corrupt {A} (m : T A) : T A := mwrap (λ _, [ErrCorruptObject]) m.

Definition realDirectory (info : FileInfo) : bool := IsDir info && negb (IsSymlink info).

Definition validateManagedDirectory (root : handle) (relative absolute : bytes) (expected : option FileInfo)
    : T FileInfo :=
  linked <- mcallr (C_RootLstat root relative) ;;
  mguard (negb (realDirectory linked)) [ErrCorruptObject] ;;;
  directory <- mcallr (C_RootOpen root relative) ;;
  deferring_close (C_FileClose directory)
    (opened <- mcallr (C_ValidateOpened absolute linked directory) ;;
     mguard (match expected with Some e => negb (SameFile e opened) | None => false end)
            [ErrCorruptObject] ;;;
     mret opened).

Definition syncCacheDirectoryAt (root : handle) (name : bytes) : T unit :=
  directory <- mcallr (C_RootOpen root name) ;;
  deferring_close (C_FileClose directory)
    (info <- mcallr (C_FileStat directory) ;;
     mguard (negb (IsDir info)) [ErrCorruptObject] ;;;
     ccheck (C_SyncDirectory directory)).

Definition syncCacheRootDirectory (root : handle) : T unit := syncCacheDirectoryAt root dot.

Definition ensureManagedDirectory (root : handle) (relative absolute : bytes) : T FileInfo :=
  err <- mcall (C_RootMkdir root relative) ;;
  match err with
  | Some e => mguard (negb (errors_Is e OsErrExist)) e
  | None => mret tt
  end ;;;
  info <- validateManagedDirectory root relative absolute None ;;
  match err with
  | None => syncCacheDirectoryAt root (path_Dir relative)
  | Some _ => mret tt
  end ;;;
  mret info.

Definition chunksName : bytes := str "chunks".
Definition digestRelative : bytes := str "chunks/sha256".

Definition validateLayout : T unit :=
  match cl_rootHandle cache with
  | None => mfail [ErrCorruptObject]
  | Some root =>
      absoluteRoot <- corrupt (mcallr (C_Lstat (cl_root cache))) ;;
      mguard (negb (realDirectory absoluteRoot) || negb (SameFile absoluteRoot (cl_rootInfo cache)))
             [ErrCorruptObject] ;;;
      corrupt (validateManagedDirectory root dot (cl_root cache) (Some (cl_rootInfo cache))) ;;;
      corrupt (validateManagedDirectory root chunksName (path_Join2 (cl_root cache) chunksName)
                 (Some (cl_chunksInfo cache))) ;;;
      corrupt (validateManagedDirectory root digestRelative (cl_chunksRoot cache)
                 (Some (cl_digestInfo cache))) ;;;
      after <- corrupt (mcallr (C_Lstat (cl_root cache))) ;;
      mguard (negb (realDirectory after) || negb (SameFile after (cl_rootInfo cache)))
             [ErrCorruptObject]
  end.

Definition hexDigits : bytes := str "0123456789abcdef".
Definition validCacheShard (value : bytes) : bool :=
  match value with
  | [a; b] => contains_byte a hexDigits && contains_byte b hexDigits
  | _ => false
  end.

Definition shardRelative (name : bytes) : bytes := path_Join2 digestRelative name.

Definition validateShard (name : bytes) (expected : FileInfo) : T unit :=
  mguard (negb (validCacheShard name)) [ErrCorruptObject] ;;;
  validateLayout ;;;
  match cl_rootHandle cache with
  | None => mfail [ErrCorruptObject]
  | Some root =>
      corrupt (validateManagedDirectory root (shardRelative name) (path_Join2 (cl_chunksRoot cache) name)
                 (Some expected)) ;;;
      mret tt
  end.

Definition openShard (name : bytes) (create : bool) : T (handle * FileInfo) :=
  mguard (negb (validCacheShard name)) [ErrCorruptObject] ;;;
  validateLayout ;;;
  match cl_rootHandle cache with
  | None => mfail [ErrCorruptObject]
  | Some root =>
      let relative := shardRelative name in
      let absolute := path_Join2 (cl_chunksRoot cache) name in
      info <- corrupt (if create then ensureManagedDirectory root relative absolute
                       else validateManagedDirectory root relative absolute None) ;;
      shard <- corrupt (mcallr (C_RootOpenRoot root relative)) ;;
      r <- mtry (opened <- corrupt (mcallr (C_RootStat shard dot)) ;;
                 mguard (negb (IsDir opened) || negb (SameFile info opened)) [ErrCorruptObject] ;;;
                 validateShard name info) ;;
      match r with
      | Ok _ => mret (shard, info)
      | Err e => mcall (C_RootClose shard) ;;; mfail e
      end
  end.

Fixpoint createTemporaryLoop (attempts : nat) (root : handle) : T (handle * bytes) :=
  match attempts with
  | O => mfail errorText
  | Datatypes.S attempts =>
      random <- mcallr (C_RandRead 16) ;;
      let name := str ".partial-" ++ hex_EncodeToString random in
      r <- mtry (mcallr (C_RootCreate root name)) ;;
      match r with
      | Ok file => mret (file, name)
      | Err e => if errors_Is e OsErrExist then createTemporaryLoop attempts root else mfail e
      end
  end.

Definition createCacheTemporary (root : handle) : T (handle * bytes) := createTemporaryLoop 100 root.

Definition ctxCheck : T unit := ccheck C_CtxErr.
End Layout.

(** ** The index *)

Record diskCacheEntry := {
  en_digest : Digest;
  en_size : Z;
  en_pins : Z;
  en_invalid : bool;
}.

(** Entries are objects: the map and the list hold their addresses, and a
    reader keeps the address of the entry it pinned. *)
Record DiskCache := {
  dc_entries : gmap Digest N;
  dc_lru : list N;                   (* front is most recently used *)
  dc_heap : gmap N diskCacheEntry;
  dc_totalBytes : Z;
  dc_closed : bool;
}.

Definition emptyCache : DiskCache :=
  {| dc_entries := ∅; dc_lru := []; dc_heap := ∅; dc_totalBytes := 0; dc_closed := false |}.

Definition set_entry (c : DiskCache) (a : N) (e : diskCacheEntry) : DiskCache :=
  {| dc_entries := dc_entries c; dc_lru := dc_lru c; dc_heap := <[a := e]> (dc_heap c);
     dc_totalBytes := dc_totalBytes c; dc_closed := dc_closed c |}.

Definition with_pins (e : diskCacheEntry) (pins : Z) (invalid : bool) : diskCacheEntry :=
  {| en_digest := en_digest e; en_size := en_size e; en_pins := pins; en_invalid := invalid |}.

Definition moveToFront (a : N) (lru : list N) : list N := a :: filter (λ b, b ≠ a) lru.

(** The critical section at the start of get: the entry, pinned. *)
Definition pinEntry (digest : Digest) (expectedSize : Z) (c : DiskCache) : option (N * diskCacheEntry) * DiskCache :=
  match dc_entries c !! digest with
  | None => (None, c)
  | Some a =>
      match dc_heap c !! a with
      | None => (None, c)
      | Some entry =>
          if en_invalid entry || ((0 <? expectedSize) && negb (en_size entry =? expectedSize))
          then (None, c)
          else
            let entry := with_pins entry (en_pins entry + 1) (en_invalid entry) in
            (Some (a, entry),
             {| dc_entries := dc_entries c; dc_lru := moveToFront a (dc_lru c);
                dc_heap := <[a := entry]> (dc_heap c); dc_totalBytes := dc_totalBytes c;
                dc_closed := dc_closed c |})
      end
  end.

(** Out of the map, out of the list, out of the total. *)
Definition dropEntry (a : N) (entry : diskCacheEntry) (c : DiskCache) : DiskCache :=
  let total := dc_totalBytes c - en_size entry in
  {| dc_entries := delete (en_digest entry) (dc_entries c); dc_lru := filter (λ b, b ≠ a) (dc_lru c);
     dc_heap := dc_heap c; dc_totalBytes := if total <? 0 then 0 else total; dc_closed := dc_closed c |}.

(** A new entry in front. *)
Definition addEntry (a : N) (digest : Digest) (size : Z) (c : DiskCache) : DiskCache :=
  {| dc_entries := <[digest := a]> (dc_entries c); dc_lru := a :: dc_lru c;
     dc_heap := <[a := {| en_digest := digest; en_size := size; en_pins := 0; en_invalid := false |}]> (dc_heap c);
     dc_totalBytes := dc_totalBytes c + size; dc_closed := dc_closed c |}.

(** The first unpinned entry from the back. *)
Fixpoint findVictim (heap : gmap N diskCacheEntry) (back : list N) : option N :=
  match back with
  | [] => None
  | a :: back =>
      match heap !! a with
      | Some candidate => if en_pins candidate =? 0 then Some a else findVictim heap back
      | None => findVictim heap back
      end
  end.

Definition shardOf (digest : Digest) : bytes := take 2 (Digest_String digest).

Section Operations.
Context (cache : cacheLayout).
Abbreviation options := (cl_options cache).
Abbreviation D := (M ceff DiskCache) (only parsing).

Definition removeEntryLocked (a : N) : D unit :=
  c <- mget ;;
  match dc_heap c !! a with
  | None => mret tt
  | Some entry =>
      mguard (negb (en_pins entry =? 0)) errorText ;;;
      let value := Digest_String (en_digest entry) in
      let shardName := shardOf (en_digest entry) in
      ' (shard, shardInfo) <- openShard cache shardName false ;;
      deferring_close (C_RootClose shard)
        (err <- mcall (C_RootRemove shard value) ;;
         match err with Some e => mguard (negb (errors_Is e OsErrNotExist)) e | None => mret tt end ;;;
         mmodify (dropEntry a entry) ;;;
         match err with None => syncCacheRootDirectory shard | Some _ => mret tt end ;;;
         validateShard cache shardName shardInfo)
  end.

(** [fuel] bounds the evictions: each one takes an entry out of the list. *)
Fixpoint makeRoomLoop (fuel : nat) (size : Z) : D bool :=
  c <- mget ;;
  if (do_MaxBytes options - size <? dc_totalBytes c)
     || (do_MaxEntries options <=? Z.of_nat (base.size (dc_entries c)))
  then match fuel with
       | O => mret false
       | Datatypes.S fuel =>
           match findVictim (dc_heap c) (rev (dc_lru c)) with
           | None => mret false
           | Some victim => removeEntryLocked victim ;;; makeRoomLoop fuel size
           end
       end
  else mret true.

Definition makeRoomLocked (size : Z) : D bool :=
  c <- mget ;; makeRoomLoop (length (dc_lru c)) size.

Definition unpin (a : N) : D unit :=
  c <- mget ;;
  match dc_heap c !! a with
  | None => mret tt
  | Some entry =>
      if bool_decide (dc_entries c !! en_digest entry = Some a) && (0 <? en_pins entry) then
        let pins := en_pins entry - 1 in
        mput (set_entry c a (with_pins entry pins (en_invalid entry))) ;;;
        if en_invalid entry && (pins =? 0) then mtry (removeEntryLocked a) ;;; mret tt else mret tt
      else mret tt
  end.

Definition discardPinned (a : N) : D unit :=
  c <- mget ;;
  match dc_heap c !! a with
  | None => mret tt
  | Some entry =>
      if bool_decide (dc_entries c !! en_digest entry = Some a) then
        let pins := if 0 <? en_pins entry then en_pins entry - 1 else en_pins entry in
        mput (set_entry c a (with_pins entry pins true)) ;;;
        if negb (pins =? 0) then mret tt else removeEntryLocked a
      else mret tt
  end.

(** ** Reading an entry *)

Section Read.
Context {S : Type}.
Abbreviation T := (M ceff S) (only parsing).

(** None is an invalid entry.  [fuel] bounds the reads: each one returns at
    least one byte of the rest. *)
Fixpoint readLoop (fuel : nat) (file : handle) (size : Z) (data : bytes) : T (option bytes) :=
  if size <=? len data then mret (Some data)
  else match fuel with
       | O => mret None
       | Datatypes.S fuel =>
           ctxCheck ;;;
           ' (piece, readErr) <- mcall (C_FileRead file (size - len data)) ;;
           let piece := take (Z.to_nat (size - len data)) piece in
           match readErr with
           | Some e => if errors_Is e IoEOF then mret None else mfail e
           | None => if len piece =? 0 then mret None else readLoop fuel file size (data ++ piece)
           end
       end.

Definition readOpened (entry : diskCacheEntry) (expectedSize : Z) (linked : FileInfo) (file : handle)
    (shardName : bytes) (shardInfo : FileInfo) : T (option bytes) :=
  info <- mcallr (C_FileStat file) ;;
  if negb (IsRegular info) || negb (SameFile linked info) || negb (fi_Size info =? en_size entry)
     || (fi_Size info <? 1) || (do_MaxChunkBytes options <? fi_Size info)
     || ((0 <? expectedSize) && negb (fi_Size info =? expectedSize))
  then mret None
  else
    data <- readLoop (Z.to_nat (fi_Size info)) file (fi_Size info) [] ;;
    match data with
    | None => mret None
    | Some data =>
        ' (extra, readErr) <- mcall (C_FileRead file 1) ;;
        if negb (len extra =? 0)
           || match readErr with Some e => negb (errors_Is e IoEOF) | None => false end
        then mret None
        else if digestObject (str "chunk") data !=? en_digest entry then mret None
        else
          mcall (C_TouchFile file) ;;;
          validateShard cache shardName shardInfo ;;;
          mret (Some data)
    end.

Definition readEntry (entry : diskCacheEntry) (expectedSize : Z) : T (option bytes) :=
  let value := Digest_String (en_digest entry) in
  let shardName := shardOf (en_digest entry) in
  ' (shard, shardInfo) <- openShard cache shardName false ;;
  deferring_close (C_RootClose shard)
    (r <- mtry (mcallr (C_RootLstat shard value)) ;;
     match r with
     | Err e =>
         if errors_Is e OsErrNotExist then validateShard cache shardName shardInfo ;;; mret None
         else mfail e
     | Ok linked =>
         if negb (IsRegular linked) || IsSymlink linked then mret None
         else
           file <- mcallr (C_RootOpen shard value) ;;
           deferring_close (C_FileClose file)
             (readOpened entry expectedSize linked file shardName shardInfo)
     end).

(** ** Writing an entry *)

(** The temporary file, one MiB at a time. *)
Definition writePiece : nat := Z.to_nat (Z.shiftl 1 20).
#[local] Opaque writePiece.

Fixpoint writeLoop (fuel : nat) (temporary : handle) (data : bytes) : T unit :=
  match data with
  | [] => mret tt
  | _ =>
      match fuel with
      | O => mfail errorText
      | Datatypes.S fuel =>
          ctxCheck ;;;
          let piece := take writePiece data in
          ' (count, writeErr) <- mcall (C_FileWrite temporary piece) ;;
          match writeErr with
          | Some e => mfail e
          | None => if count =? 0 then mfail [IoErrShortWrite]
                    else writeLoop fuel temporary (drop (Z.to_nat count) data)
          end
      end
  end.

Definition writeTemporary (temporary : handle) (data : bytes) : T unit :=
  r <- mtry (ccheck (C_FileChmod temporary) ;;;
             writeLoop (length data) temporary data ;;;
             ccheck (C_FileSync temporary)) ;;
  match r with
  | Err e => mcall (C_FileClose temporary) ;;; mfail e
  | Ok _ => ccheck (C_FileClose temporary) ;;; ctxCheck
  end.

(** Put up to the lock: the shard and the temporary file, None if the chunk is
    not to be cached. *)
Definition putPrepare (digest : Digest) (data : bytes) : T (option (handle * FileInfo * bytes)) :=
  ctxCheck ;;;
  let size := len data in
  if (size <? 1) || (do_MaxChunkBytes options <? size) || (do_MaxBytes options <? size) then mret None
  else
    mguard (digestObject (str "chunk") data !=? digest) [ErrCorruptObject] ;;;
    ctxCheck ;;;
    ccheck C_WriteToken ;;;
    let shardName := shardOf digest in
    r <- mtry (openShard cache shardName true) ;;
    match r with
    | Err e => mcall C_WriteTokenRelease ;;; mfail e
    | Ok (shard, shardInfo) =>
        r <- mtry (createCacheTemporary shard) ;;
        match r with
        | Err e => mcall (C_RootClose shard) ;;; mcall C_WriteTokenRelease ;;; mfail e
        | Ok (temporary, temporaryName) =>
            r <- mtry (writeTemporary temporary data) ;;
            match r with
            | Err e =>
                mcall (C_RootRemove shard temporaryName) ;;;
                mcall (C_RootClose shard) ;;; mcall C_WriteTokenRelease ;;; mfail e
            | Ok _ => mret (Some (shard, shardInfo, temporaryName))
            end
        end
    end.

(** The deferred calls of Put. *)
Definition putFinish (shard : handle) (temporaryName : bytes) (removeTemporary : bool) : T unit :=
  (if removeTemporary then mcall (C_RootRemove shard temporaryName) ;;; mret tt else mret tt) ;;;
  mcall (C_RootClose shard) ;;;
  mcall C_WriteTokenRelease.
End Read.

(** The critical section of Put.  [fresh] is the address of a new entry; the
    answer tells whether the temporary file is still there. *)
Definition putInstall (fresh : N) (digest : Digest) (size : Z) (shard : handle) (shardInfo : FileInfo)
    (temporaryName : bytes) : D (bool * option error) :=
  let value := Digest_String digest in
  let shardName := shardOf digest in
  c <- mget ;;
  r <- mtry (match dc_entries c !! digest with
             | None => mret false
             | Some existing =>
                 match dc_heap c !! existing with
                 | Some entry =>
                     if negb (en_pins entry =? 0) then mret true
                     else removeEntryLocked existing ;;; mret false
                 | None => mret false
                 end
             end) ;;
  match r with
  | Err e => mret (true, Some e)
  | Ok true => mret (true, None)
  | Ok false =>
      room <- mtry (makeRoomLocked size) ;;
      match room with
      | Err e => mret (true, Some e)
      | Ok false => mret (true, None)
      | Ok true =>
          r <- mtry (validateShard cache shardName shardInfo ;;;
                     err <- mcall (C_RootRemove shard value) ;;
                     match err with
                     | Some e => mguard (negb (errors_Is e OsErrNotExist)) e
                     | None => mret tt
                     end ;;;
                     ccheck (C_RootRename shard temporaryName value)) ;;
          match r with
          | Err e => mret (true, Some e)
          | Ok _ =>
              r <- mtry (syncCacheRootDirectory shard) ;;
              match r with
              | Err e => mcall (C_RootRemove shard value) ;;; mret (false, Some e)
              | Ok _ =>
                  r <- mtry (validateShard cache shardName shardInfo) ;;
                  match r with
                  | Err e =>
                      mcall (C_RootRemove shard value) ;;;
                      mtry (syncCacheRootDirectory shard) ;;;
                      mret (false, Some e)
                  | Ok _ => mmodify (addEntry fresh digest size) ;;; mret (false, None)
                  end
              end
          end
      end
  end.

(** ** The operations *)

Definition beginOperation : D unit :=
  c <- mget ;;
  mguard (dc_closed c || bool_decide (cl_rootHandle cache = None)) [OsErrClosed].

(** The critical section at the end of get. *)
Definition getFinish (a : N) (r : result (option bytes)) : D (option bytes) :=
  match r with
  | Err e => unpin a ;;; mfail e
  | Ok None => discardPinned a ;;; mret None
  | Ok (Some data) => unpin a ;;; mret (Some data)
  end.

(** What runs before the lock is taken. *)
Definition getBegin : D unit :=
  beginOperation ;;;
  ctxCheck ;;;
  validateLayout cache.

Definition get (digest : Digest) (expectedSize : Z) : D (option bytes) :=
  getBegin ;;;
  c <- mget ;;
  let '(pinned, c) := pinEntry digest expectedSize c in
  mput c ;;;
  match pinned with
  | None => mret None
  | Some (a, entry) =>
      r <- mtry (readEntry entry expectedSize) ;;
      getFinish a r
  end.

Definition Get (digest : Digest) : D (option bytes) := get digest 0.

Definition GetSized (digest : Digest) (expectedSize : Z) : D (option bytes) :=
  mguard ((expectedSize <? 1) || (maxChunkObjectBytes <? expectedSize)) [ErrResourceLimit] ;;;
  get digest expectedSize.

Definition Put (fresh : N) (digest : Digest) (data : bytes) : D unit :=
  beginOperation ;;;
  prepared <- putPrepare digest data ;;
  match prepared with
  | None => mret tt
  | Some (shard, shardInfo, temporaryName) =>
      ' (removeTemporary, err) <- putInstall fresh digest (len data) shard shardInfo temporaryName ;;
      putFinish shard temporaryName removeTemporary ;;;
      match err with Some e => mfail e | None => mret tt end
  end.

Definition Close : D unit :=
  c <- mget ;;
  if dc_closed c then mret tt
  else
    mput {| dc_entries := dc_entries c; dc_lru := dc_lru c; dc_heap := dc_heap c;
            dc_totalBytes := dc_totalBytes c; dc_closed := true |} ;;;
    match cl_rootHandle cache with
    | None => mret tt
    | Some root => ccheck (C_RootClose root)
    end.
End Operations.

(** ** Opening a cache *)

Record startupCandidate := {
  sc_digest : Digest;
  sc_shard : bytes;
  sc_size : Z;
  sc_modTime : Z;
}.

Definition sortKey (candidate : startupCandidate) : bytes :=
  path_Join2 (sc_shard candidate) (Digest_String (sc_digest candidate)).

(** startupCandidateHeap.Less. *)
Definition older (a b : startupCandidate) : bool :=
  if sc_modTime a =? sc_modTime b then bool_decide (bytes_lt (sortKey a) (sortKey b))
  else sc_modTime a <? sc_modTime b.

(** heap.Pop: a candidate that no other is older than, and the rest. *)
Fixpoint heapPop (first : startupCandidate) (rest : list startupCandidate)
    : startupCandidate * list startupCandidate :=
  match rest with
  | [] => (first, [])
  | next :: rest =>
      let '(oldest, others) := heapPop next rest in
      if older oldest first then (oldest, first :: others) else (first, oldest :: others)
  end.

(** sort.Slice, newest first. *)
Fixpoint insertNewest (c : startupCandidate) (l : list startupCandidate) : list startupCandidate :=
  match l with
  | [] => [c]
  | d :: l' => if older c d then d :: insertNewest c l' else c :: l
  end.
Definition newestFirst (l : list startupCandidate) : list startupCandidate := foldr insertNewest [] l.

(** The captured variables of indexExisting. *)
Record indexing := {
  ix_candidates : list startupCandidate;
  ix_total : Z;
  ix_remaining : Z;
}.

(** The index of the candidates, in the order of the list. *)
Fixpoint buildIndex (next : N) (candidates : list startupCandidate) (c : DiskCache) : DiskCache :=
  match candidates with
  | [] => c
  | candidate :: candidates =>
      buildIndex (next + 1) candidates
        {| dc_entries := <[sc_digest candidate := next]> (dc_entries c); dc_lru := dc_lru c ++ [next];
           dc_heap := <[next := {| en_digest := sc_digest candidate; en_size := sc_size candidate;
                                   en_pins := 0; en_invalid := false |}]> (dc_heap c);
           dc_totalBytes := dc_totalBytes c + sc_size candidate; dc_closed := dc_closed c |}
  end.

Section Startup.
Context (cache : cacheLayout).
Abbreviation options := (cl_options cache).
Abbreviation I := (M ceff indexing) (only parsing).

Definition consumeScanEntry : I unit :=
  s <- mget ;;
  mguard (ix_remaining s =? 0) [ErrResourceLimit] ;;;
  mput {| ix_candidates := ix_candidates s; ix_total := ix_total s; ix_remaining := ix_remaining s - 1 |}.

(** The method startupCandidate; None is an invalid entry. *)
Definition inspectCandidate (shardRoot : handle) (shard : bytes) (entry : osEntry) : I (option startupCandidate) :=
  if HasPrefix (oe_Name entry) (str ".partial-") then mret None
  else
    match ParseDigest (oe_Name entry) with
    | Err _ => mret None
    | Ok digest =>
        if (oe_Name entry !=? Digest_String digest) || (shard !=? take 2 (Digest_String digest)) then mret None
        else
          info <- mcallr (C_RootLstat shardRoot (oe_Name entry)) ;;
          if IsSymlink info || negb (IsRegular info) || (fi_Size info <? 1)
             || (do_MaxChunkBytes options <? fi_Size info) || (do_MaxBytes options <? fi_Size info)
          then mret None
          else mret (Some {| sc_digest := digest; sc_shard := shard; sc_size := fi_Size info;
                             sc_modTime := fi_ModTime info |})
    end.

Definition removeStartupCandidate (candidate : startupCandidate) : I unit :=
  ' (shard, shardInfo) <- openShard cache (sc_shard candidate) false ;;
  deferring_close (C_RootClose shard)
    (err <- mcall (C_RootRemove shard (Digest_String (sc_digest candidate))) ;;
     match err with Some e => mguard (negb (errors_Is e OsErrNotExist)) e | None => mret tt end ;;;
     match err with None => syncCacheRootDirectory shard | Some _ => mret tt end ;;;
     validateShard cache (sc_shard candidate) shardInfo).

(** [fuel] bounds the evictions: each one takes a candidate. *)
Fixpoint evictLoop (fuel : nat) : I unit :=
  s <- mget ;;
  if (do_MaxEntries options <? len (ix_candidates s)) || (do_MaxBytes options <? ix_total s) then
    match fuel, ix_candidates s with
    | Datatypes.S fuel, first :: rest =>
        let '(oldest, others) := heapPop first rest in
        mput {| ix_candidates := others; ix_total := ix_total s - sc_size oldest;
                ix_remaining := ix_remaining s |} ;;;
        removeStartupCandidate oldest ;;;
        evictLoop fuel
    | _, _ => mret tt
    end
  else mret tt.

(** heap.Push and the evictions it may need. *)
Definition keepCandidate (candidate : startupCandidate) : I unit :=
  s <- mget ;;
  mput {| ix_candidates := candidate :: ix_candidates s; ix_total := ix_total s + sc_size candidate;
          ix_remaining := ix_remaining s |} ;;;
  evictLoop (1 + length (ix_candidates s)).

(** The visit of an entry of a shard; the boolean is [modified]. *)
Definition visitChunk (shard : handle) (shardName : bytes) (entry : osEntry) (modified : bool) : I bool :=
  consumeScanEntry ;;;
  if oe_IsDir entry then
    err <- mcall (C_RootRemove shard (oe_Name entry)) ;;
    mguard (bool_decide (err ≠ None)) [ErrResourceLimit] ;;;
    mret true
  else
    candidate <- inspectCandidate shard shardName entry ;;
    match candidate with
    | None =>
        err <- mcall (C_RootRemove shard (oe_Name entry)) ;;
        match err with Some e => mguard (negb (errors_Is e OsErrNotExist)) e | None => mret tt end ;;;
        mret true
    | Some candidate => keepCandidate candidate ;;; mret modified
    end.

Fixpoint visitEach {A} (visit : osEntry → A → I A) (entries : list osEntry) (acc : A) : I A :=
  match entries with
  | [] => mret acc
  | entry :: entries => acc <- visit entry acc ;; visitEach visit entries acc
  end.

(** ReadDir(256) until io.EOF; [fuel] bounds the batches, each of which uses up
    scan entries. *)
Fixpoint readBatches {A} (fuel : nat) (directory : handle) (visit : osEntry → A → I A) (acc : A) : I A :=
  match fuel with
  | O => mfail [ErrResourceLimit]
  | Datatypes.S fuel =>
      ' (entries, readErr) <- mcall (C_ReadDir directory 256) ;;
      acc <- visitEach visit entries acc ;;
      match readErr with
      | None => readBatches fuel directory visit acc
      | Some e => if errors_Is e IoEOF then mret acc else mfail e
      end
  end.

Definition scanFuel : nat := Z.to_nat (do_MaxStartupScanEntries options + 2).

Definition readCacheDirectoryBatches {A} (root : handle) (name : bytes) (expected : FileInfo)
    (visit : osEntry → A → I A) (acc : A) : I A :=
  linked <- mcallr (C_RootLstat root name) ;;
  mguard (negb (realDirectory linked) || negb (SameFile linked expected)) [ErrCorruptObject] ;;;
  directory <- mcallr (C_RootOpen root name) ;;
  deferring_close (C_FileClose directory)
    (opened <- mcallr (C_FileStat directory) ;;
     mguard (negb (IsDir opened) || negb (SameFile linked opened)) [ErrCorruptObject] ;;;
     acc <- readBatches scanFuel directory visit acc ;;
     after <- mcallr (C_RootLstat root name) ;;
     mguard (negb (realDirectory after) || negb (SameFile after expected) || negb (SameFile opened after))
            [ErrCorruptObject] ;;;
     mret acc).

(** The visit of an entry of the digest directory. *)
Definition visitShard (root : handle) (entry : osEntry) : I unit :=
  consumeScanEntry ;;;
  if negb (oe_IsDir entry) || negb (validCacheShard (oe_Name entry)) then
    err <- mcall (C_RootRemove root (path_Join2 digestRelative (oe_Name entry))) ;;
    mguard (bool_decide (err ≠ None)) [ErrResourceLimit]
  else
    ' (shard, shardInfo) <- openShard cache (oe_Name entry) false ;;
    deferring_close (C_RootClose shard)
      (modified <- readCacheDirectoryBatches shard dot shardInfo (visitChunk shard (oe_Name entry)) false ;;
       (if modified then syncCacheRootDirectory shard else mret tt) ;;;
       validateShard cache (oe_Name entry) shardInfo).

Definition indexCandidates : I unit :=
  validateLayout cache ;;;
  match cl_rootHandle cache with
  | None => mfail [ErrCorruptObject]
  | Some root =>
      readCacheDirectoryBatches root digestRelative (cl_digestInfo cache)
        (λ entry _, visitShard root entry) tt
  end.
End Startup.

(** indexExisting: the scan, then the index. *)
Definition indexExisting (cache : cacheLayout) : M ceff unit DiskCache :=
  λ s, prog_bind
    ((indexCandidates cache ;;; ix <- mget ;; validateLayout cache ;;; mret ix)
       {| ix_candidates := []; ix_total := 0;
          ix_remaining := do_MaxStartupScanEntries (cl_options cache) |})
    (λ '(_, r), Ret (s, match r with
                        | Ok ix => Ok (buildIndex 0 (newestFirst (ix_candidates ix)) emptyCache)
                        | Err e => Err e
                        end)).

Definition NewDiskCacheWithOptions (root : bytes) (options : DiskCacheOptions)
    : M ceff unit (cacheLayout * DiskCache) :=
  mguard (root ==? []) errorText ;;;
  normalized <- mlift (DiskCacheOptions_normalized options) ;;
  root <- mcallr (C_Abs root) ;;
  root <- mcallr (C_PrepareDirectory root) ;;
  rootInfo <- mcallr (C_Lstat root) ;;
  mguard (negb (IsDir rootInfo)) errorText ;;;
  ccheck (C_ValidateDirectory root) ;;;
  rootHandle <- mcallr (C_OpenRoot root) ;;
  r <- mtry
    (rootInfo <- validateManagedDirectory rootHandle dot root (Some rootInfo) ;;
     let chunksDirectory := path_Join2 root chunksName in
     chunksInfo <- ensureManagedDirectory rootHandle chunksName chunksDirectory ;;
     let chunksRoot := path_Join2 chunksDirectory (str "sha256") in
     digestInfo <- ensureManagedDirectory rootHandle digestRelative chunksRoot ;;
     let cache := {| cl_root := root; cl_chunksRoot := chunksRoot; cl_rootHandle := Some rootHandle;
                     cl_rootInfo := rootInfo; cl_chunksInfo := chunksInfo; cl_digestInfo := digestInfo;
                     cl_options := normalized |} in
     index <- indexExisting cache ;;
     mret (cache, index)) ;;
  match r with
  | Ok opened => mret opened
  | Err e => mcall (C_RootClose rootHandle) ;;; mfail e
  end.
