(* ===== verification/DiskCacheProofs.v ===== *)
(** * Properties of the chunk cache

    Readers and writers of one DiskCache interleave at the lock of the index.
    The file proves the index exact and bounded in every interleaving, whatever
    the operating system answers, and that a hit is the content of its digest. *)

From S2P Require Import Prelude.
From S2P Require Import Prog.
From S2P Require Import GoStd.
From S2P Require Import Encoding.
From S2P Require Import Model.
From S2P Require Import Effects.
From S2P Require Import Os.
From S2P Require Import DiskCache.

#[local] Opaque writePiece.

(** ** Programs that leave the index alone *)

(** A call that lists a directory. *)
Definition lists {X} (e : ceff X) : bool := match e with C_ReadDir _ _ => true | _ => false end.
Definition unlisted (k : history ceff) : Prop := Forall (λ ev, let '(Ev e _) := ev in lists e = false) k.

Section Silent.
Context {S : Type}.

(** Whatever the answers, the state stays and no directory is listed. *)
Definition silent {A} (m : M ceff S A) (P : result A → Prop) : Prop :=
  ∀ (R : rely ceff) s h (Q : history ceff → S → result A → Prop),
    (∀ k r, unlisted k → P r → Q (h ++ k) s r) → mwp R any_call m s h Q.

Lemma silent_mono {A} (m : M ceff S A) (P P' : result A → Prop) :
  silent m P → (∀ r, P r → P' r) → silent m P'.
Proof. intros Hm HP R s h Q HQ. apply Hm. auto. Qed.

Lemma silent_bind {A B} (m : M ceff S A) (f : A → M ceff S B) P :
  silent m (λ r, match r with Ok a => silent (f a) P | Err e => P (Err e) end) → silent (mbind m f) P.
Proof.
  intros Hm R s h Q HQ. apply mwp_bind, Hm. intros k [a|e] Hk Hr; [|by apply HQ].
  apply Hr. intros k' r Hk' HP. rewrite <- app_assoc. apply HQ; [by apply Forall_app|done].
Qed.

Lemma silent_ret {A} (a : A) (P : result A → Prop) : P (Ok a) → silent (mret a) P.
Proof. intros HP R s h Q HQ. apply mwp_ret. rewrite <- (app_nil_r h). apply HQ; [constructor|done]. Qed.
Lemma silent_fail {A} e (P : result A → Prop) : P (Err e) → silent (mfail e) P.
Proof. intros HP R s h Q HQ. apply mwp_fail. rewrite <- (app_nil_r h). apply HQ; [constructor|done]. Qed.
Lemma silent_lift {A} r (P : result A → Prop) : P r → silent (mlift r) P.
Proof. intros HP R s h Q HQ. apply mwp_lift. rewrite <- (app_nil_r h). apply HQ; [constructor|done]. Qed.
Lemma silent_guard c e (P : result unit → Prop) :
  (c = true → P (Err e)) → (c = false → P (Ok tt)) → silent (mguard c e) P.
Proof. intros Ht Hf. apply silent_lift. destruct c; auto. Qed.
Lemma unlisted_one {X} (e : ceff X) x : lists e = false → unlisted [Ev e x].
Proof. by repeat constructor. Qed.
Lemma silent_call {X} (e : ceff X) (P : result X → Prop) :
  lists e = false → (∀ x, P (Ok x)) → silent (mcall e) P.
Proof. intros He HP R s h Q HQ. apply mwp_call; [done|]. intros x _. by apply HQ; [apply unlisted_one|]. Qed.
Lemma silent_callr {X} (e : ceff (result X)) (P : result X → Prop) :
  lists e = false → (∀ r, P r) → silent (mcallr e) P.
Proof. intros He HP R s h Q HQ. apply mwp_callr; [done|]. intros x _. by apply HQ; [apply unlisted_one|]. Qed.
Lemma silent_try {A} (m : M ceff S A) (P : result (result A) → Prop) :
  silent m (λ r, P (Ok r)) → silent (mtry m) P.
Proof. intros Hm R s h Q HQ. apply mwp_try, Hm. auto. Qed.
Lemma silent_wrap {A} f (m : M ceff S A) (P : result A → Prop) :
  silent m (λ r, P (result_wrap f r)) → silent (mwrap f m) P.
Proof. intros Hm R s h Q HQ. apply mwp_wrap, Hm. auto. Qed.
Lemma silent_check c (P : result unit → Prop) :
  lists c = false → P (Ok tt) → (∀ e, P (Err e)) → silent (ccheck c) P.
Proof.
  intros Hc Ho He. apply silent_bind, silent_call; [done|]. intros [e|]; [by apply silent_fail|by apply silent_ret].
Qed.
Lemma silent_close {A} close (body : M ceff S A) P :
  lists close = false → silent body P → silent (deferring_close close body) P.
Proof.
  intros Hc Hb. apply silent_bind, silent_try. eapply silent_mono; [exact Hb|]. intros r Hr.
  apply silent_bind, silent_call; [done|]. intros _. by apply silent_lift.
Qed.

(** A program that may end in any way. *)
Definition silent_any {A} (m : M ceff S A) : Prop := silent m (λ _, True).

Lemma silent_weaken {A} (m : M ceff S A) (P : result A → Prop) :
  silent_any m → (∀ r, P r) → silent m P.
Proof. intros Hm HP. eapply silent_mono; [exact Hm|auto]. Qed.
End Silent.

Create HintDb silent.

(** Steps through a program that leaves the index alone; named parts come from
    the hint database. *)
Ltac silent_step :=
  lazymatch goal with
  | |- silent (mbind _ _) _ => apply silent_bind
  | |- silent (mret _) _ => apply silent_ret
  | |- silent (mfail _) _ => apply silent_fail
  | |- silent (mlift _) _ => apply silent_lift
  | |- silent (mguard _ _) _ => apply silent_guard; intros ?
  | |- silent (mcall _) _ => apply silent_call; [reflexivity|intros ?]
  | |- silent (mcallr _) _ => apply silent_callr; [reflexivity|intros [?|?]]
  | |- silent (mtry _) _ => apply silent_try
  | |- silent (mwrap _ _) _ => apply silent_wrap
  | |- silent (corrupt _) _ => apply silent_wrap
  | |- silent (ccheck _) _ => apply silent_check; [reflexivity| |intros ?]
  | |- silent ctxCheck _ => apply silent_check; [reflexivity| |intros ?]
  | |- silent (deferring_close _ _) _ => apply silent_close; [reflexivity|]
  | |- silent (match ?x with _ => _ end) _ => destruct x
  | |- silent _ _ => apply silent_weaken; [solve [auto with silent]|intros [?|?]]
  end; simpl; try exact I.
Ltac silent_go := repeat silent_step.

Section Parts.
Context {S : Type} (cache : cacheLayout).

Lemma validateManagedDirectory_silent root relative absolute expected :
  silent_any (S:=S) (validateManagedDirectory root relative absolute expected).
Proof. unfold silent_any, validateManagedDirectory. silent_go. Qed.

Lemma syncCacheDirectoryAt_silent root name : silent_any (S:=S) (syncCacheDirectoryAt root name).
Proof. unfold silent_any, syncCacheDirectoryAt. silent_go. Qed.

Lemma syncCacheRootDirectory_silent root : silent_any (S:=S) (syncCacheRootDirectory root).
Proof. apply syncCacheDirectoryAt_silent. Qed.

#[local] Hint Resolve validateManagedDirectory_silent syncCacheDirectoryAt_silent
  syncCacheRootDirectory_silent : silent.

Lemma ensureManagedDirectory_silent root relative absolute :
  silent_any (S:=S) (ensureManagedDirectory root relative absolute).
Proof. unfold silent_any, ensureManagedDirectory. silent_go. Qed.

Lemma validateLayout_silent : silent_any (S:=S) (validateLayout cache).
Proof. unfold silent_any, validateLayout. silent_go. Qed.

#[local] Hint Resolve ensureManagedDirectory_silent validateLayout_silent : silent.

Lemma validateShard_silent name expected : silent_any (S:=S) (validateShard cache name expected).
Proof. unfold silent_any, validateShard. silent_go. Qed.

#[local] Hint Resolve validateShard_silent : silent.

Lemma openShard_silent name create : silent_any (S:=S) (openShard cache name create).
Proof. unfold silent_any, openShard. silent_go. Qed.
End Parts.

#[export] Hint Resolve validateManagedDirectory_silent syncCacheDirectoryAt_silent
  syncCacheRootDirectory_silent ensureManagedDirectory_silent validateLayout_silent
  validateShard_silent openShard_silent : silent.

(** ** What a read returns *)

(** A hit: the content of the digest, of the size of its entry. *)
Definition verified (cache : cacheLayout) (entry : diskCacheEntry) (expectedSize : Z) (data : bytes) : Prop :=
  digestObject (str "chunk") data = en_digest entry ∧ len data = en_size entry ∧
  (0 < expectedSize → len data = expectedSize) ∧ 1 ≤ len data ≤ do_MaxChunkBytes (cl_options cache).

Section Reads.
Context {S : Type} (cache : cacheLayout).

Lemma createTemporaryLoop_silent attempts root : silent_any (S:=S) (createTemporaryLoop attempts root).
Proof.
  induction attempts as [|attempts IH]; unfold silent_any; simpl; silent_go.
Qed.

Lemma writeLoop_silent fuel temporary data : silent_any (S:=S) (writeLoop fuel temporary data).
Proof.
  revert data. induction fuel as [|fuel IH]; intros [|b data]; unfold silent_any; simpl; silent_go.
Qed.

Lemma createCacheTemporary_silent root : silent_any (S:=S) (createCacheTemporary root).
Proof. apply createTemporaryLoop_silent. Qed.

#[local] Hint Resolve createCacheTemporary_silent writeLoop_silent : silent.

Lemma writeTemporary_silent temporary data : silent_any (S:=S) (writeTemporary temporary data).
Proof. unfold silent_any, writeTemporary. silent_go. Qed.

#[local] Hint Resolve writeTemporary_silent : silent.

Lemma readLoop_exact fuel file size data :
  len data ≤ size →
  silent (S:=S) (readLoop fuel file size data)
    (λ r, ∀ d, r = Ok (Some d) → len d = size).
Proof.
  revert data. induction fuel as [|fuel IH]; intros data Hle; simpl;
    (destruct (Z.leb_spec size (len data)) as [Hs|Hs]; [apply silent_ret; intros d [= <-]; lia|]).
  { by apply silent_ret. }
  silent_step. silent_step; [|by intros ? [=]]. silent_step. apply silent_call; [done|]. intros [piece [e|]].
  { destruct (errors_Is e IoEOF); [by apply silent_ret|by apply silent_fail]. }
  destruct (Z.eqb_spec (len (take (Z.to_nat (size - len data)) piece)) 0); [by apply silent_ret|].
  apply IH. rewrite len_app.
  assert (len (take (Z.to_nat (size - len data)) piece) ≤ size - len data); [|lia].
  unfold len in *. rewrite length_take. lia.
Qed.

(** The bound on the number of reads is enough: more fuel changes no run. *)
Lemma readLoop_enough {W} (serve : handler ceff W) fuel fuel' file size data (s : S) w :
  size - len data ≤ Z.of_nat fuel → size - len data ≤ Z.of_nat fuel' →
  run serve (readLoop fuel file size data s) w = run serve (readLoop fuel' file size data s) w.
Proof.
  revert fuel' data s w. induction fuel as [|fuel IH]; intros [|fuel'] data s w Hf Hf'; [done|..].
  1,2: by simpl; rewrite (proj2 (Z.leb_le size (len data))) by lia.
  simpl. destruct (Z.leb_spec size (len data)) as [Hs|Hs]; [done|].
  rewrite !run_mbind. destruct (run serve (ctxCheck s) w) as [w1 [s1 [[]|e]]]; [|done].
  rewrite !run_mbind, !run_mcall. destruct (serve _ _ w1) as [w2 [piece [e|]]]; [done|].
  destruct (Z.eqb_spec (len (take (Z.to_nat (size - len data)) piece)) 0); [done|].
  pose proof (len_nonneg (take (Z.to_nat (size - len data)) piece)).
  apply IH; rewrite len_app; lia.
Qed.

Lemma readOpened_verified entry expectedSize linked file shardName shardInfo :
  silent (S:=S) (readOpened cache entry expectedSize linked file shardName shardInfo)
    (λ r, ∀ d, r = Ok (Some d) → verified cache entry expectedSize d).
Proof.
  unfold readOpened. apply silent_bind, silent_callr; [done|]. intros [info|e]; [|by intros ? [=]].
  destruct (_ || _) eqn:Ec; [by apply silent_ret|].
  repeat rewrite orb_false_iff in Ec. destruct Ec as (((((_ & _) & Hsize) & Hmin) & Hmax) & Hexp).
  apply negb_false_iff, Z.eqb_eq in Hsize. apply Z.ltb_ge in Hmin, Hmax.
  apply silent_bind. eapply silent_mono; [apply readLoop_exact; rewrite len_nil; lia|].
  intros [[data|]|e] Hd; [|by apply silent_ret|by intros ? [=]].
  specialize (Hd data eq_refl).
  apply silent_bind, silent_call; [done|]. intros [extra readErr].
  destruct (_ || _); [by apply silent_ret|].
  destruct (digestObject (str "chunk") data !=? en_digest entry) eqn:Ed; [by apply silent_ret|].
  apply negb_false_iff, bool_decide_eq_true in Ed.
  repeat (silent_step; try by intros ? [=]). intros d [= <-].
  split_and!; [done|lia| |lia|lia]. intros Hx. apply andb_false_iff in Hexp as [Hx'|Hx'].
  - apply Z.ltb_ge in Hx'. lia.
  - apply negb_false_iff, Z.eqb_eq in Hx'. lia.
Qed.

Lemma readEntry_verified entry expectedSize :
  silent (S:=S) (readEntry cache entry expectedSize)
    (λ r, ∀ d, r = Ok (Some d) → verified cache entry expectedSize d).
Proof.
  unfold readEntry. silent_step. silent_step; [|by intros ? [=]]. destruct a as [shard shardInfo].
  silent_step. silent_step. silent_step. silent_step.
  - destruct (_ || _); [by apply silent_ret|]. silent_step. silent_step; [|by intros ? [=]].
    apply silent_close; [done|]. apply readOpened_verified.
  - destruct (errors_Is e OsErrNotExist); repeat (silent_step; try by intros ? [=]).
Qed.

Lemma putPrepare_silent digest data :
  silent (S:=S) (putPrepare cache digest data)
    (λ r, ∀ p, r = Ok (Some p) →
       digestObject (str "chunk") data = digest ∧ 1 ≤ len data ≤ do_MaxChunkBytes (cl_options cache) ∧
       len data ≤ do_MaxBytes (cl_options cache)).
Proof.
  unfold putPrepare. silent_step. silent_step; [|by intros ? [=]].
  destruct (_ || _) eqn:Ec; [by apply silent_ret|]. repeat rewrite orb_false_iff in Ec.
  destruct Ec as [[Hmin%Z.ltb_ge Hmax%Z.ltb_ge] Hb%Z.ltb_ge].
  silent_step. silent_step; [by intros ? [=]|].
  match goal with H : (_ !=? _) = false |- _ => apply negb_false_iff, bool_decide_eq_true in H; rename H into Hd end.
  set (P := λ r : result (option (handle * FileInfo * bytes)), ∀ p, r = Ok (Some p) → _).
  assert (HE : ∀ e, P (Err e)) by (by intros e p [=]).
  assert (HN : ∀ v, P (Ok v)) by (intros v p _; split_and!; done).
  clearbody P. repeat (silent_step; try done).
Qed.
End Reads.

(** ** The index *)

Definition size_at (heap : gmap N diskCacheEntry) (a : N) : Z :=
  match heap !! a with Some e => en_size e | None => 0 end.

Fixpoint sizes (heap : gmap N diskCacheEntry) (l : list N) : Z :=
  match l with [] => 0 | a :: l => size_at heap a + sizes heap l end.

Definition indexed (c : DiskCache) (a : N) (e : diskCacheEntry) : Prop :=
  dc_heap c !! a = Some e ∧ dc_entries c !! en_digest e = Some a.

Definition without (a : N) (l : list N) : list N := filter (λ b, b ≠ a) l.

Lemma sizes_perm heap l l' : l ≡ₚ l' → sizes heap l = sizes heap l'.
Proof. induction 1; simpl; lia. Qed.

Lemma sizes_heap heap heap' l :
  (∀ a, a ∈ l → size_at heap a = size_at heap' a) → sizes heap l = sizes heap' l.
Proof.
  induction l as [|a l IH]; intros Hl; [done|]. simpl. rewrite (Hl a) by (left). rewrite IH; [done|].
  intros b Hb. apply Hl. by right.
Qed.

Lemma lru_without_id a l : a ∉ l → without a l = l.
Proof.
  induction l as [|b l IH]; [done|]. rewrite not_elem_of_cons. intros [Hb Hl]. unfold without.
  rewrite filter_cons_True by congruence. f_equal. by apply IH.
Qed.

Lemma lru_without_perm a l : NoDup l → a ∈ l → l ≡ₚ a :: without a l.
Proof.
  induction 1 as [|b l Hb Hl IH]; [by intros ?%elem_of_nil|]. intros [->|Ha]%elem_of_cons; unfold without.
  - rewrite filter_cons_False by (by intros []). fold (without b l). by rewrite lru_without_id.
  - destruct (decide (b = a)) as [->|Hn]; [done|]. rewrite filter_cons_True by done.
    fold (without a l). rewrite (IH Ha) at 1. apply Permutation_swap.
Qed.

Lemma without_length a l : NoDup l → a ∈ l → length l = Datatypes.S (length (without a l)).
Proof. intros Hl Ha. by rewrite (lru_without_perm a l) at 1. Qed.

Lemma elem_of_without a b l : b ∈ without a l ↔ b ∈ l ∧ b ≠ a.
Proof. unfold without. rewrite list_elem_of_filter. tauto. Qed.

Lemma size_at_insert heap a b e :
  size_at (<[a := e]> heap) b = if decide (a = b) then en_size e else size_at heap b.
Proof.
  unfold size_at. destruct (decide (a = b)) as [->|Hn]; [by rewrite lookup_insert_eq|].
  by rewrite lookup_insert_ne.
Qed.

Lemma sizes_nonneg heap l : (∀ a, a ∈ l → 0 ≤ size_at heap a) → 0 ≤ sizes heap l.
Proof.
  induction l as [|a l IH]; intros Hl; simpl; [lia|].
  assert (0 ≤ size_at heap a) by (apply Hl; left). assert (0 ≤ sizes heap l); [|lia].
  apply IH. intros b Hb. apply Hl. by right.
Qed.

(** The index is exact and within the limits; [readers] counts the pins of each
    entry that readers hold. *)
Record index_ok (options : DiskCacheOptions) (readers : N → Z) (c : DiskCache) : Prop := {
  ok_nodup : NoDup (dc_lru c);
  ok_lru : ∀ a, a ∈ dc_lru c ↔ ∃ e, indexed c a e;
  ok_map : ∀ d a, dc_entries c !! d = Some a → ∃ e, dc_heap c !! a = Some e ∧ en_digest e = d;
  ok_size : base.size (dc_entries c) = length (dc_lru c);
  ok_total : dc_totalBytes c = sizes (dc_heap c) (dc_lru c);
  ok_maxBytes : dc_totalBytes c ≤ do_MaxBytes options;
  ok_maxEntries : len (dc_lru c) ≤ do_MaxEntries options;
  ok_entry : ∀ a e, indexed c a e → 1 ≤ en_size e ≤ do_MaxChunkBytes options;
  ok_pins : ∀ a e, indexed c a e → en_pins e = readers a;
  ok_readers : ∀ a, 0 ≤ readers a;
  ok_read : ∀ a, 0 < readers a → a ∈ dc_lru c;
}.

Definition plus (readers : N → Z) (a : N) (n : Z) : N → Z :=
  λ b, if decide (b = a) then readers b + n else readers b.

Lemma plus_eq readers a n : plus readers a n a = readers a + n.
Proof. unfold plus. by rewrite decide_True. Qed.
Lemma plus_ne readers a b n : b ≠ a → plus readers a n b = readers b.
Proof. intros H. unfold plus. by rewrite decide_False. Qed.

Lemma indexed_unique c a b e e' :
  indexed c a e → indexed c b e' → en_digest e = en_digest e' → a = b ∧ e = e'.
Proof. intros [Ha Ea] [Hb Eb] Hd. rewrite Hd in Ea. assert (a = b) as -> by congruence. split; congruence. Qed.

Lemma indexed_at o readers c a e : index_ok o readers c → indexed c a e → a ∈ dc_lru c.
Proof. intros Ho Hi. apply (ok_lru _ _ _ Ho). by exists e. Qed.

(** A new state of an entry, and another order of the list. *)
Lemma repin_ok o readers c a e e' lru n :
  index_ok o readers c → indexed c a e → en_digest e' = en_digest e → en_size e' = en_size e →
  en_pins e' = en_pins e + n → 0 ≤ readers a + n → lru ≡ₚ dc_lru c →
  index_ok o (plus readers a n)
    {| dc_entries := dc_entries c; dc_lru := lru; dc_heap := <[a := e']> (dc_heap c);
       dc_totalBytes := dc_totalBytes c; dc_closed := dc_closed c |}.
Proof.
  intros Ho Hi Hd Hs Hp Hn Hl. pose proof Ho as [Hnd Hlru Hmap Hsz Htot Hmb Hme Hent Hpins Hrd Hread].
  set (c' := {| dc_entries := _ |}).
  assert (Hidx : ∀ b f, indexed c' b f ↔ b = a ∧ f = e' ∨ b ≠ a ∧ indexed c b f).
  { intros b f. unfold indexed. simpl. destruct (decide (b = a)) as [->|Hne].
    - rewrite lookup_insert_eq. destruct Hi as [_ Hi2]. split.
      + intros [[= <-] _]. by left.
      + intros [[_ ->]|[? _]]; [|done]. split; [done|]. by rewrite Hd.
    - rewrite lookup_insert_ne by congruence. split; [by right|]. by intros [[? _]|[_ ?]]. }
  constructor; simpl.
  - by rewrite Hl.
  - intros b. rewrite Hl, Hlru. setoid_rewrite Hidx. split.
    + intros [f Hf]. destruct (decide (b = a)) as [->|Hne]; [by exists e'; left|by exists f; right].
    + intros [f [[-> _]|[_ Hf]]]; [by exists e|by exists f].
  - intros d b Hb. destruct (Hmap d b Hb) as (f & Hf & Hfd). destruct (decide (a = b)) as [->|Hne].
    + exists e'. rewrite lookup_insert_eq. destruct Hi as [Hi1 Hi2]. split; [done|]. congruence.
    + exists f. by rewrite lookup_insert_ne.
  - by rewrite Hl.
  - rewrite Htot, (sizes_perm _ lru (dc_lru c)) by done. apply sizes_heap. intros b _.
    rewrite size_at_insert. destruct (decide (a = b)) as [->|]; [|done].
    unfold size_at. destruct Hi as [-> _]. done.
  - done.
  - unfold len in *. by rewrite Hl.
  - intros b f [[-> ->]|[_ Hb]]%Hidx; [rewrite Hs|]; by eapply Hent.
  - intros b f [[-> ->]|[Hne Hb]]%Hidx.
    + rewrite plus_eq, Hp. f_equal. by apply Hpins.
    + rewrite plus_ne by done. by apply Hpins.
  - intros b. destruct (decide (b = a)) as [->|Hne]; [by rewrite plus_eq|]. by rewrite plus_ne.
  - intros b Hb. rewrite Hl. destruct (decide (b = a)) as [->|Hne]; [by eapply indexed_at|].
    rewrite plus_ne in Hb by done. by apply Hread.
Qed.

Lemma drop_ok o readers c a e :
  index_ok o readers c → indexed c a e → en_pins e = 0 → index_ok o readers (dropEntry a e c).
Proof.
  intros Ho Hi Hp0. pose proof Ho as [Hnd Hlru Hmap Hsz Htot Hmb Hme Hent Hpins Hrd Hread].
  pose proof (indexed_at _ _ _ _ _ Ho Hi) as Ha. pose proof (lru_without_perm _ _ Hnd Ha) as Hperm.
  assert (Hidx : ∀ b f, indexed (dropEntry a e c) b f ↔ b ≠ a ∧ indexed c b f).
  { intros b f. unfold indexed at 1. simpl. split.
    - intros [Hb Hf]. apply lookup_delete_Some in Hf as [Hne Hf]. split; [|done].
      intros ->. destruct Hi as [Hi _]. congruence.
    - intros [Hne [Hb Hf]]. split; [done|]. apply lookup_delete_Some. split; [|done].
      intros Hd. destruct Hi as [_ Hi]. congruence. }
  assert (Hrest : sizes (dc_heap c) (dc_lru c) = en_size e + sizes (dc_heap c) (without a (dc_lru c))).
  { rewrite (sizes_perm _ _ _ Hperm). simpl. unfold size_at. by destruct Hi as [-> _]. }
  assert (Hnn : 0 ≤ sizes (dc_heap c) (without a (dc_lru c))).
  { apply sizes_nonneg. intros b [Hb _]%elem_of_without. apply Hlru in Hb as [f Hf].
    unfold size_at. pose proof (Hent _ _ Hf). destruct Hf as [-> _]. lia. }
  pose proof (Hent _ _ Hi) as Hse. pose proof (without_length _ _ Hnd Ha) as Hlen.
  constructor; simpl; fold (without a (dc_lru c)).
  - by apply NoDup_filter.
  - intros b. rewrite elem_of_without, Hlru. setoid_rewrite Hidx. naive_solver.
  - intros d b [Hne Hb]%lookup_delete_Some. by apply Hmap.
  - rewrite map_size_delete. destruct Hi as [_ ->]. rewrite Hsz, Hlen. done.
  - rewrite (proj2 (Z.ltb_ge _ _)) by lia. lia.
  - rewrite (proj2 (Z.ltb_ge _ _)) by lia. lia.
  - unfold len in *. lia.
  - intros b f [_ Hb]%Hidx. by eapply Hent.
  - intros b f [_ Hb]%Hidx. by apply Hpins.
  - done.
  - intros b Hb. rewrite elem_of_without. split; [by apply Hread|]. intros ->.
    rewrite <- (Hpins _ _ Hi), Hp0 in Hb. lia.
Qed.

Lemma add_ok o readers c a digest size :
  index_ok o readers c → dc_heap c !! a = None → dc_entries c !! digest = None →
  dc_totalBytes c + size ≤ do_MaxBytes o → len (dc_lru c) < do_MaxEntries o →
  1 ≤ size ≤ do_MaxChunkBytes o →
  index_ok o readers (addEntry a digest size c).
Proof.
  intros Ho Hfresh Hnone Htb Hle Hs. pose proof Ho as [Hnd Hlru Hmap Hsz Htot Hmb Hme Hent Hpins Hrd Hread].
  assert (Hout : a ∉ dc_lru c). { intros [e [He _]]%Hlru. congruence. }
  assert (Hra : readers a = 0).
  { destruct (Z.le_gt_cases (readers a) 0); [specialize (Hrd a); lia|]. exfalso. apply Hout, Hread. lia. }
  set (new := {| en_digest := digest; en_size := size; en_pins := 0; en_invalid := false |}).
  assert (Hidx : ∀ b f, indexed (addEntry a digest size c) b f ↔ b = a ∧ f = new ∨ indexed c b f).
  { intros b f. unfold indexed at 1. simpl. destruct (decide (b = a)) as [->|Hne].
    - rewrite lookup_insert_eq. split.
      + intros [[= <-] _]. by left.
      + intros [[_ ->]|[Hb _]]; [|congruence]. split; [done|]. by rewrite lookup_insert_eq.
    - rewrite lookup_insert_ne by congruence. split.
      + intros [Hb Hf]. right. split; [done|]. apply lookup_insert_Some in Hf as [[_ ?]|[_ ?]]; [congruence|done].
      + intros [[? _]|[Hb Hf]]; [done|]. split; [done|]. rewrite lookup_insert_ne; [done|]. congruence. }
  constructor; simpl.
  - by constructor.
  - intros b. rewrite elem_of_cons, Hlru. setoid_rewrite Hidx. split.
    + intros [->|[f Hf]]; [by exists new; left|by exists f; right].
    + intros [f [[-> _]|Hf]]; [by left|right; by exists f].
  - intros d b [[<- <-]|[Hne Hb]]%lookup_insert_Some.
    + exists new. by rewrite lookup_insert_eq.
    + destruct (Hmap d b Hb) as (f & Hf & Hfd). exists f. rewrite lookup_insert_ne by congruence. done.
  - by rewrite map_size_insert, Hnone, Hsz.
  - rewrite size_at_insert, decide_True by done. simpl. rewrite Htot.
    rewrite (sizes_heap (<[a := new]> (dc_heap c)) (dc_heap c)); [lia|].
    intros b Hb. rewrite size_at_insert, decide_False by congruence. done.
  - done.
  - unfold len in *. simpl. lia.
  - intros b f [[-> ->]|Hb]%Hidx; [done|]. by eapply Hent.
  - intros b f [[-> ->]|Hb]%Hidx; [by rewrite Hra|]. by apply Hpins.
  - done.
  - intros b Hb. right. by apply Hread.
Qed.

Lemma pin_ok o readers c digest expectedSize a e c' :
  index_ok o readers c → pinEntry digest expectedSize c = (Some (a, e), c') →
  index_ok o (plus readers a 1) c' ∧ indexed c' a e ∧ en_digest e = digest ∧
  dc_heap c' = <[a := e]> (dc_heap c) ∧ dc_closed c' = dc_closed c.
Proof.
  intros Ho E. unfold pinEntry in E. destruct (dc_entries c !! digest) as [a'|] eqn:Ea; [|done].
  destruct (dc_heap c !! a') as [f|] eqn:Ef; [|done]. destruct (_ || _); [done|]. injection E as -> <- <-.
  destruct (ok_map _ _ _ Ho _ _ Ea) as (f' & Hf' & Hd). assert (f' = f) as -> by congruence.
  assert (Hi : indexed c a f) by (split; [done|by rewrite Hd]).
  split_and!.
  - eapply repin_ok; try done.
    + pose proof (ok_readers _ _ _ Ho a). lia.
    + symmetry. apply lru_without_perm; [apply Ho|]. by eapply indexed_at.
  - unfold indexed. simpl. rewrite lookup_insert_eq. split; [done|]. by rewrite Hd.
  - done.
  - done.
  - done.
Qed.

(** ** Critical sections *)

(** The next call of a section, which leaves the index alone. *)
Ltac silently :=
  apply mwp_bind, mwp_try;
  match goal with
  | |- mwp _ _ ?m _ _ _ =>
      let H := fresh in assert (H : silent_any m) by (unfold silent_any; silent_go); apply H; clear H
  end.

(** Entries were evicted, nothing else changed. *)
Definition evicted (c c' : DiskCache) : Prop :=
  dc_entries c' ⊆ dc_entries c ∧ dc_heap c' = dc_heap c ∧ dc_closed c' = dc_closed c.

#[export] Instance evicted_preorder : PreOrder evicted.
Proof.
  split; [done|]. intros a b c (H1 & H2 & H3) (H4 & H5 & H6). split; [by etrans|]. split; congruence.
Qed.

Lemma drop_evicted a e c : evicted c (dropEntry a e c).
Proof. split; [apply delete_subseteq|done]. Qed.

Section Critical.
Context (cache : cacheLayout).
Abbreviation o := (cl_options cache).
Abbreviation mw m := (mwp any_rely any_call m) (only parsing).

(** Eviction reports success or failure, and takes out an unpinned entry or
    nothing. *)
Lemma removeEntryLocked_spec a c h :
  mw (removeEntryLocked cache a) c h (λ _ c' r,
    c' = c ∧ (r = Ok tt → dc_heap c !! a = None) ∨
    ∃ e, dc_heap c !! a = Some e ∧ en_pins e = 0 ∧ c' = dropEntry a e c).
Proof.
  unfold removeEntryLocked. apply mwp_bind, mwp_get. simpl.
  destruct (dc_heap c !! a) as [e|] eqn:Ea; [|by apply mwp_ret; left].
  apply mwp_bind, mwp_guard; intros Hp; [by left|]. apply negb_false_iff, Z.eqb_eq in Hp.
  apply mwp_bind. apply openShard_silent. intros k [[shard info]|err] _ _; [|by left].
  unfold deferring_close. apply mwp_bind, mwp_try.
  match goal with |- mwp _ _ _ _ _ ?Q => set (Post := Q) end.
  assert (Hpost : ∀ h' r, Post h' (dropEntry a e c) r).
  { intros h1 r. unfold Post. apply mwp_bind, mwp_call; [done|]. intros x _. apply mwp_lift. right. by exists e. }
  assert (Herr : ∀ h' err, Post h' c (Err err)).
  { intros h1 err. unfold Post. apply mwp_bind, mwp_call; [done|]. intros x _. apply mwp_lift. by left. }
  clearbody Post. apply mwp_bind, mwp_call; [done|]. intros err _. apply mwp_bind.
  set (rest := mmodify (dropEntry a e) ;;; _).
  assert (Hrest : ∀ h1, mw rest c h1 Post).
  { intros h1. apply mwp_bind, mwp_modify. apply mwp_bind.
    destruct err; [apply mwp_ret; apply validateShard_silent; auto|].
    apply syncCacheRootDirectory_silent. intros k2 [[]|err] _ _; [|done].
    apply validateShard_silent; auto. }
  destruct err as [err|]; [|by apply mwp_ret].
  apply mwp_guard; intros Hn; [done|]. done.
Qed.

Lemma findVictim_spec heap back a :
  findVictim heap back = Some a → a ∈ back ∧ ∃ e, heap !! a = Some e ∧ en_pins e = 0.
Proof.
  induction back as [|b back IH]; [done|]. simpl. destruct (heap !! b) as [e|] eqn:Eb.
  - destruct (Z.eqb_spec (en_pins e) 0).
    + intros [= ->]. split; [left|by exists e].
    + intros H. apply IH in H as [? ?]. split; [by right|done].
  - intros H. apply IH in H as [? ?]. split; [by right|done].
Qed.

Lemma remove_ok readers a c h :
  index_ok o readers c → a ∈ dc_lru c →
  mw (removeEntryLocked cache a) c h (λ _ c' r, index_ok o readers c' ∧ evicted c c' ∧
    (r = Ok tt → a ∉ dc_lru c')).
Proof.
  intros Ho Ha. apply (ok_lru _ _ _ Ho) in Ha as [e He].
  eapply mwp_mono; [apply removeEntryLocked_spec|]. intros h' c' r [[-> Hr]|(f & Hf & Hp & ->)].
  - split; [done|]. split; [done|]. intros Hok. specialize (Hr Hok). destruct He. congruence.
  - assert (f = e) as -> by (destruct He; congruence).
    split; [by apply drop_ok|]. split; [apply drop_evicted|]. intros _. simpl.
    fold (without a (dc_lru c)). rewrite elem_of_without. by intros [_ ?].
Qed.

Lemma makeRoomLoop_ok readers fuel size c h :
  index_ok o readers c →
  mw (makeRoomLoop cache fuel size) c h (λ _ c' r, index_ok o readers c' ∧ evicted c c' ∧
    (r = Ok true → dc_totalBytes c' + size ≤ do_MaxBytes o ∧ len (dc_lru c') < do_MaxEntries o)).
Proof.
  revert c h. induction fuel as [|fuel IH]; intros c h Ho; simpl; apply mwp_bind, mwp_get; simpl;
    destruct (_ || _) eqn:E.
  1: by apply mwp_ret.
  2: destruct (findVictim _ _) as [victim|] eqn:Ev; [|by apply mwp_ret].
  2:{ apply findVictim_spec in Ev as [Hin _]. rewrite list_elem_of_In, <- in_rev, <- list_elem_of_In in Hin.
      apply mwp_bind. eapply mwp_mono; [by apply (remove_ok readers)|].
      intros h' c1 [[]|err] (Ho1 & He1 & _); [|done].
      eapply mwp_mono; [by apply IH|]. intros h2 c2 r (Ho2 & He2 & Hr). split; [done|]. split; [by etrans|done]. }
  all: apply mwp_ret; split; [done|]; split; [done|]; intros _;
    apply orb_false_iff in E as [E1%Z.ltb_ge E2%Z.leb_gt];
    rewrite (ok_size _ _ _ Ho) in E2; unfold len; lia.
Qed.

Lemma makeRoomLocked_ok readers size c h :
  index_ok o readers c →
  mw (makeRoomLocked cache size) c h (λ _ c' r, index_ok o readers c' ∧ evicted c c' ∧
    (r = Ok true → dc_totalBytes c' + size ≤ do_MaxBytes o ∧ len (dc_lru c') < do_MaxEntries o)).
Proof. intros Ho. apply mwp_bind, mwp_get. by apply makeRoomLoop_ok. Qed.

(** A reader's entry is still the one of its digest. *)
Lemma pinned_indexed readers c a :
  index_ok o readers c → 0 < readers a → ∃ e, indexed c a e ∧ en_pins e = readers a.
Proof.
  intros Ho Hr. apply (ok_read _ _ _ Ho), (ok_lru _ _ _ Ho) in Hr as [e He]. exists e.
  split; [done|]. by apply (ok_pins _ _ _ Ho).
Qed.

Lemma unpinned_ok readers c a e invalid :
  index_ok o readers c → indexed c a e → 0 < readers a →
  index_ok o (plus readers a (-1)) (set_entry c a (with_pins e (en_pins e - 1) invalid)) ∧
  a ∈ dc_lru c.
Proof.
  intros Ho He Hr. split; [|by eapply indexed_at].
  by apply (repin_ok _ _ _ _ e); simpl; try lia.
Qed.

Lemma unpin_ok readers a c h :
  index_ok o readers c → 0 < readers a →
  mw (unpin cache a) c h (λ _ c' r, index_ok o (plus readers a (-1)) c' ∧ r = Ok tt).
Proof.
  intros Ho Hr. destruct (pinned_indexed _ _ _ Ho Hr) as (e & He & Hp).
  unfold unpin. apply mwp_bind, mwp_get. simpl. pose proof He as [Hh Hd]. rewrite Hh.
  rewrite bool_decide_true, (proj2 (Z.ltb_lt _ _)) by (done || lia). simpl.
  destruct (unpinned_ok readers c a e (en_invalid e) Ho He Hr) as [Hok Hin].
  apply mwp_bind, mwp_put. destruct (en_invalid e && (en_pins e - 1 =? 0)); [|by apply mwp_ret].
  apply mwp_bind, mwp_try. eapply mwp_mono; [by apply (remove_ok (plus readers a (-1)))|].
  intros h' c' r (Ho' & _). by apply mwp_ret.
Qed.

Lemma discardPinned_ok readers a c h :
  index_ok o readers c → 0 < readers a →
  mw (discardPinned cache a) c h (λ _ c' _, index_ok o (plus readers a (-1)) c').
Proof.
  intros Ho Hr. destruct (pinned_indexed _ _ _ Ho Hr) as (e & He & Hp).
  unfold discardPinned. apply mwp_bind, mwp_get. simpl. pose proof He as [Hh Hd]. rewrite Hh.
  rewrite bool_decide_true, (proj2 (Z.ltb_lt _ _)) by (done || lia).
  destruct (unpinned_ok readers c a e true Ho He Hr) as [Hok Hin].
  apply mwp_bind, mwp_put. destruct (negb (en_pins e - 1 =? 0)); [by apply mwp_ret|].
  eapply mwp_mono; [by apply (remove_ok (plus readers a (-1)))|]. by intros h' c' r (Ho' & _).
Qed.

Lemma getFinish_ok readers a r c h :
  index_ok o readers c → 0 < readers a →
  mw (getFinish cache a r) c h (λ _ c' r', index_ok o (plus readers a (-1)) c' ∧
    ∀ data, r' = Ok (Some data) → r = Ok (Some data)).
Proof.
  intros Ho Hr. destruct r as [[data|]|e]; simpl; apply mwp_bind.
  - eapply mwp_mono; [by apply unpin_ok|]. intros h' c' r [Ho' ->]. apply mwp_ret. split; [done|].
    by intros d [= ->].
  - eapply mwp_mono; [by apply discardPinned_ok|]. intros h' c' [[]|e] Ho'; [by apply mwp_ret|by split].
  - eapply mwp_mono; [by apply unpin_ok|]. intros h' c' r [Ho' ->]. by apply mwp_fail.
Qed.

(** The entry that is replaced, if any. *)
Lemma replace_ok readers digest c h :
  index_ok o readers c →
  mw (match dc_entries c !! digest with
      | None => mret false
      | Some existing =>
          match dc_heap c !! existing with
          | Some entry => if negb (en_pins entry =? 0) then mret true
                          else removeEntryLocked cache existing ;;; mret false
          | None => mret false
          end
      end) c h (λ _ c' r, index_ok o readers c' ∧ evicted c c' ∧
        (r = Ok false → dc_entries c' !! digest = None)).
Proof.
  intros Ho. destruct (dc_entries c !! digest) as [a|] eqn:Ea; [|by apply mwp_ret].
  destruct (ok_map _ _ _ Ho _ _ Ea) as (e & He & Hd). rewrite He.
  destruct (negb (en_pins e =? 0)); [by apply mwp_ret|].
  assert (Hi : indexed c a e) by (split; [done|by rewrite Hd]).
  apply mwp_bind. eapply mwp_mono; [apply removeEntryLocked_spec|].
  intros h' c' r [[-> Hr]|(f & Hf & Hp & ->)].
  - destruct r as [[]|err]; [|by split; [done|]]. specialize (Hr eq_refl). congruence.
  - assert (f = e) as -> by congruence. pose proof (drop_ok _ _ _ _ _ Ho Hi Hp) as Ho'.
    pose proof (drop_evicted a e c) as Hev. destruct r as [[]|err]; [apply mwp_ret|done].
    split; [done|]. split; [done|]. intros _. simpl. rewrite Hd. apply lookup_delete_eq.
Qed.

Lemma putInstall_ok readers fresh digest size shard info name c h :
  index_ok o readers c → dc_heap c !! fresh = None → 1 ≤ size ≤ do_MaxChunkBytes o →
  mw (putInstall cache fresh digest size shard info name) c h (λ _ c' _, index_ok o readers c').
Proof.
  intros Ho Hfresh Hsize. unfold putInstall. apply mwp_bind, mwp_get. apply mwp_bind, mwp_try.
  eapply mwp_mono; [by apply (replace_ok readers)|]. intros h1 c1 r (Ho1 & (Hs1 & Hh1 & _) & Hnone).
  destruct r as [[]|e]; [by apply mwp_ret| |by apply mwp_ret]. specialize (Hnone eq_refl).
  apply mwp_bind, mwp_try. eapply mwp_mono; [by apply (makeRoomLocked_ok readers)|].
  intros h2 c2 r (Ho2 & (Hs2 & Hh2 & _) & Hroom).
  destruct r as [[]|e]; [|by apply mwp_ret|by apply mwp_ret]. destruct (Hroom eq_refl) as [Htot Hlen].
  assert (Hn2 : dc_entries c2 !! digest = None) by (eapply lookup_weaken_None; done).
  assert (Hf2 : dc_heap c2 !! fresh = None) by congruence.
  assert (Hadd : index_ok o readers (addEntry fresh digest size c2)) by (by apply add_ok).
  silently. intros h3 [[]|e] _ _; [|by apply mwp_ret].
  silently. intros h4 [[]|e] _ _.
  2:{ apply mwp_bind, mwp_call; [done|]. intros x _. by apply mwp_ret. }
  silently. intros h5 [[]|e] _ _.
  - apply mwp_bind, mwp_modify. by apply mwp_ret.
  - apply mwp_bind, mwp_call; [done|]. intros x _. silently. intros h6 r _ _. by apply mwp_ret.
Qed.
End Critical.

(** ** Interleavings *)

(** A possible result of a program, the answers being arbitrary. *)
Inductive may_return {E : Type → Type} {A} : prog E A → A → Prop :=
| may_ret a : may_return (Ret a) a
| may_vis X (e : E X) k x a : may_return (k x) a → may_return (Vis e k) a.

Lemma may_return_wp {E : Type → Type} {A} (p : prog E A) a h Q :
  may_return p a → wp any_rely any_call p h Q → ∃ h', Q h' a.
Proof.
  intros Hm. revert h. induction Hm as [a|X e k x a Hm IH]; intros h Hwp; [by exists h|].
  destruct Hwp as [_ Hwp]. by apply (IH (h ++ [Ev e x])), Hwp.
Qed.

Lemma may_return_mwp {S A} (m : M ceff S A) s s' r Q :
  may_return (m s) (s', r) → mwp any_rely any_call m s [] Q → ∃ h', Q h' s' r.
Proof. intros Hm Hw. destruct (may_return_wp _ _ _ _ Hm Hw) as [h Hh]. by exists h. Qed.

(** A caller between two critical sections: it reads the entry it pinned for the
    digest it asked for, has read it, or has written its temporary file. *)
Inductive caller :=
| Reading (digest : Digest) (a : N) (entry : diskCacheEntry) (expectedSize : Z)
| HasRead (digest : Digest) (a : N) (entry : diskCacheEntry) (expectedSize : Z) (r : result (option bytes))
| Writing (digest : Digest) (data : bytes)
| Prepared (digest : Digest) (size : Z) (shard : handle) (info : FileInfo) (temporaryName : bytes).

Record cacheRun := {
  cr_cache : DiskCache;
  cr_callers : gmap N caller;
  (** The hits that get returned: the digest asked for, the expected size and bytes. *)
  cr_hits : list (Digest * Z * bytes);
}.

Inductive cache_step (cache : cacheLayout) : cacheRun → cacheRun → Prop :=
| step_get σ t digest expectedSize a entry c :
    cr_callers σ !! t = None → dc_closed (cr_cache σ) = false → 0 ≤ expectedSize →
    pinEntry digest expectedSize (cr_cache σ) = (Some (a, entry), c) →
    cache_step cache σ {| cr_cache := c; cr_callers := <[t := Reading digest a entry expectedSize]> (cr_callers σ);
                          cr_hits := cr_hits σ |}
| step_read σ t digest a entry expectedSize r :
    cr_callers σ !! t = Some (Reading digest a entry expectedSize) →
    may_return (readEntry (S:=unit) cache entry expectedSize tt) (tt, r) →
    cache_step cache σ {| cr_cache := cr_cache σ;
                          cr_callers := <[t := HasRead digest a entry expectedSize r]> (cr_callers σ);
                          cr_hits := cr_hits σ |}
| step_get_finish σ t digest a entry expectedSize r c r' :
    cr_callers σ !! t = Some (HasRead digest a entry expectedSize r) →
    may_return (getFinish cache a r (cr_cache σ)) (c, r') →
    cache_step cache σ {| cr_cache := c; cr_callers := delete t (cr_callers σ);
      cr_hits := match r' with
                 | Ok (Some data) => cr_hits σ ++ [(digest, expectedSize, data)]
                 | _ => cr_hits σ
                 end |}
| step_put σ t digest data :
    cr_callers σ !! t = None → dc_closed (cr_cache σ) = false →
    cache_step cache σ {| cr_cache := cr_cache σ; cr_callers := <[t := Writing digest data]> (cr_callers σ);
                          cr_hits := cr_hits σ |}
| step_put_prepared σ t digest data r :
    cr_callers σ !! t = Some (Writing digest data) →
    may_return (putPrepare (S:=unit) cache digest data tt) (tt, r) →
    cache_step cache σ {| cr_cache := cr_cache σ;
      cr_callers := match r with
                    | Ok (Some (shard, info, name)) =>
                        <[t := Prepared digest (len data) shard info name]> (cr_callers σ)
                    | _ => delete t (cr_callers σ)
                    end;
      cr_hits := cr_hits σ |}
| step_put_install σ t digest size shard info name fresh c r :
    cr_callers σ !! t = Some (Prepared digest size shard info name) →
    dc_heap (cr_cache σ) !! fresh = None →
    may_return (putInstall cache fresh digest size shard info name (cr_cache σ)) (c, r) →
    cache_step cache σ {| cr_cache := c; cr_callers := delete t (cr_callers σ); cr_hits := cr_hits σ |}
| step_close σ c r :
    cr_callers σ = ∅ →
    may_return (Close cache (cr_cache σ)) (c, r) →
    cache_step cache σ {| cr_cache := c; cr_callers := cr_callers σ; cr_hits := cr_hits σ |}.

Definition holds (a : N) (x : caller) : bool :=
  match x with Reading _ b _ _ | HasRead _ b _ _ _ => bool_decide (b = a) | _ => false end.

Definition readersOf (callers : gmap N caller) (a : N) : Z := count (holds a) callers.

Definition caller_ok (cache : cacheLayout) (x : caller) : Prop :=
  match x with
  | Reading digest _ entry _ => en_digest entry = digest
  | HasRead digest _ entry expectedSize r =>
      en_digest entry = digest ∧ ∀ data, r = Ok (Some data) → verified cache entry expectedSize data
  | Prepared _ size _ _ _ => 1 ≤ size ≤ do_MaxChunkBytes (cl_options cache)
  | _ => True
  end.

Definition hit_ok (cache : cacheLayout) (hit : Digest * Z * bytes) : Prop :=
  let '(digest, expectedSize, data) := hit in
  digestObject (str "chunk") data = digest ∧ (0 < expectedSize → len data = expectedSize) ∧
  1 ≤ len data ≤ do_MaxChunkBytes (cl_options cache).

Record run_ok (cache : cacheLayout) (σ : cacheRun) : Prop := {
  ro_index : index_ok (cl_options cache) (readersOf (cr_callers σ)) (cr_cache σ);
  ro_callers : ∀ t x, cr_callers σ !! t = Some x → caller_ok cache x;
  ro_hits : Forall (hit_ok cache) (cr_hits σ);
}.

Lemma index_ok_ext o readers readers' c :
  (∀ a, readers a = readers' a) → index_ok o readers c → index_ok o readers' c.
Proof.
  intros He [Hnd Hlru Hmap Hsz Htot Hmb Hme Hent Hpins Hrd Hread].
  constructor; try done; intros; rewrite <- ?He in *; auto.
Qed.

Lemma readers_enter callers t digest a entry x b :
  callers !! t = None →
  readersOf (<[t := Reading digest a entry x]> callers) b = plus (readersOf callers) a 1 b.
Proof.
  intros Hn. unfold readersOf. rewrite count_insert by done. simpl. unfold plus.
  destruct (decide (b = a)) as [->|Hne]; [rewrite bool_decide_true by done|rewrite bool_decide_false by congruence];
    simpl; lia.
Qed.

Lemma readers_leave callers t digest a entry x r b :
  callers !! t = Some (HasRead digest a entry x r) →
  readersOf (delete t callers) b = plus (readersOf callers) a (-1) b.
Proof.
  intros Hn. unfold readersOf. erewrite count_delete by done. simpl. unfold plus.
  destruct (decide (b = a)) as [->|Hne]; [rewrite bool_decide_true by done|rewrite bool_decide_false by congruence];
    simpl; lia.
Qed.

(** A caller that holds no pin before and after. *)
Lemma readers_same callers t x y a :
  callers !! t = Some x → holds a x = holds a y → readersOf (<[t := y]> callers) a = readersOf callers a.
Proof. intros Hx Hh. unfold readersOf. erewrite count_replace by done. rewrite Hh. lia. Qed.

Lemma readers_gone callers t x a :
  callers !! t = Some x → holds a x = false → readersOf (delete t callers) a = readersOf callers a.
Proof. intros Hx Hh. unfold readersOf. erewrite count_delete by done. rewrite Hh. simpl. lia. Qed.

Lemma readers_new callers t x a :
  callers !! t = None → holds a x = false → readersOf (<[t := x]> callers) a = readersOf callers a.
Proof. intros Hx Hh. unfold readersOf. rewrite count_insert by done. by rewrite Hh. Qed.

Lemma callers_insert cache σ t x :
  run_ok cache σ → caller_ok cache x →
  ∀ u y, <[t := x]> (cr_callers σ) !! u = Some y → caller_ok cache y.
Proof. intros [_ Hc _] Hx u y [[<- <-]|[_ Hu]]%lookup_insert_Some; [done|by eapply Hc]. Qed.

Lemma callers_delete cache σ t :
  run_ok cache σ → ∀ u y, delete t (cr_callers σ) !! u = Some y → caller_ok cache y.
Proof. intros [_ Hc _] u y [_ Hu]%lookup_delete_Some. by eapply Hc. Qed.

Lemma readEntry_outcome cache entry expectedSize r :
  may_return (readEntry (S:=unit) cache entry expectedSize tt) (tt, r) →
  ∀ data, r = Ok (Some data) → verified cache entry expectedSize data.
Proof.
  intros Hm. destruct (may_return_mwp _ _ _ _ (λ _ _ r, ∀ d, r = Ok (Some d) → verified cache entry expectedSize d) Hm)
    as [h Hh]; [|done]. apply readEntry_verified. auto.
Qed.

Lemma putPrepare_outcome cache digest data r :
  may_return (putPrepare (S:=unit) cache digest data tt) (tt, r) →
  ∀ p, r = Ok (Some p) → 1 ≤ len data ≤ do_MaxChunkBytes (cl_options cache).
Proof.
  intros Hm p Hp. destruct (may_return_mwp _ _ _ _
    (λ _ _ r, ∀ p, r = Ok (Some p) → 1 ≤ len data ≤ do_MaxChunkBytes (cl_options cache)) Hm) as [h Hh]; [|by eapply Hh].
  apply putPrepare_silent. intros h' r' _ Hr p' Hp'. by destruct (Hr p' Hp') as (_ & ? & _).
Qed.

Lemma close_preserves_cache cache readers c c' r :
  index_ok (cl_options cache) readers c → may_return (Close cache c) (c', r) →
  index_ok (cl_options cache) readers c'.
Proof.
  intros Ho Hm. destruct (may_return_mwp _ _ _ _ (λ _ c' _, index_ok (cl_options cache) readers c') Hm)
    as [h Hh]; [|done].
  unfold Close. apply mwp_bind, mwp_get. simpl. destruct (dc_closed c); [by apply mwp_ret|].
  assert (index_ok (cl_options cache) readers
    {| dc_entries := dc_entries c; dc_lru := dc_lru c; dc_heap := dc_heap c;
       dc_totalBytes := dc_totalBytes c; dc_closed := true |}) as Ho' by (destruct Ho; by constructor).
  apply mwp_bind, mwp_put. destruct (cl_rootHandle cache); [|by apply mwp_ret].
  apply mwp_bind, mwp_call; [done|]. intros [e|] _; [by apply mwp_fail|by apply mwp_ret].
Qed.

Lemma cache_step_ok cache σ σ' : run_ok cache σ → cache_step cache σ σ' → run_ok cache σ'.
Proof.
  intros Hok Hst. pose proof Hok as [Hi Hc Hh].
  destruct Hst as [σ t digest x a entry c Hn Hcl Hx E|σ t digest a entry x r Ht Hm|σ t digest a entry x r c r' Ht Hm
    |σ t digest data Hn Hcl|σ t digest data r Ht Hm|σ t digest size shard info name fresh c r Ht Hf Hm|σ c r He Hm].
  - destruct (pin_ok _ _ _ _ _ _ _ _ Hi E) as (Hi' & _ & Hd & _).
    constructor; simpl; [|by apply callers_insert|done].
    eapply index_ok_ext; [|done]. intros b. symmetry. by apply readers_enter.
  - constructor; simpl; [|apply callers_insert; [done|by split; [apply (Hc _ _ Ht)|exact (readEntry_outcome _ _ _ _ Hm)]]|done].
    eapply index_ok_ext; [|done]. intros b. symmetry. by eapply readers_same.
  - destruct (may_return_mwp _ _ _ _ _ Hm (getFinish_ok _ _ _ _ _ _ Hi (count_lookup _ _ _ _ Ht (bool_decide_eq_true_2 _ eq_refl))))
      as (h & Hi' & Hr).
    constructor; simpl; [|by apply callers_delete|].
    + eapply index_ok_ext; [|done]. intros b. symmetry. by eapply readers_leave.
    + destruct r' as [[data|]|]; [|done..]. apply Forall_app. split; [done|].
      apply Forall_singleton. destruct (Hc _ _ Ht) as [Hd Hv].
      destruct (Hv data (Hr data eq_refl)) as (? & ? & ? & ?). simpl. by rewrite <- Hd.
  - constructor; simpl; [|by apply callers_insert|done].
    eapply index_ok_ext; [|done]. intros b. symmetry. by apply readers_new.
  - pose proof (putPrepare_outcome _ _ _ _ Hm) as Hs.
    destruct r as [[[[shard info] name]|]|]; (constructor; simpl; [| |done]).
    1: eapply index_ok_ext; [|done]; intros b; symmetry; by eapply readers_same.
    1: apply callers_insert; [done|]; by eapply Hs.
    1,3: eapply index_ok_ext; [|done]; intros b; symmetry; by eapply readers_gone.
    all: by apply callers_delete.
  - destruct (may_return_mwp _ _ _ _ _ Hm (putInstall_ok _ _ _ _ _ _ _ _ _ _ Hi Hf (Hc _ _ Ht))) as [h Hi'].
    constructor; simpl; [|by apply callers_delete|done].
    eapply index_ok_ext; [|done]. intros b. symmetry. by eapply readers_gone.
  - constructor; simpl; [|done|done]. by eapply close_preserves_cache.
Qed.

Lemma cache_reachable_ok cache c0 σ :
  index_ok (cl_options cache) (λ _, 0) c0 →
  rtc (cache_step cache) {| cr_cache := c0; cr_callers := ∅; cr_hits := [] |} σ → run_ok cache σ.
Proof.
  intros H0. revert σ. apply rtc_ind_r; [|intros σ1 σ2 _ Hst Hok; by eapply cache_step_ok].
  constructor; simpl; [|by intros t x ?%lookup_empty_Some|constructor].
  eapply index_ok_ext; [|exact H0]. intros a. unfold readersOf. by rewrite count_empty.
Qed.
