(* ===== verification/DiskCacheStartup.v ===== *)
(** * Opening a chunk cache

    NewDiskCacheWithOptions scans the digest directory, removes what is not a
    chunk, evicts the oldest entries beyond the limits while it scans, and
    builds the index of the rest.  The operating system answers freely, except
    that a directory that was just opened has not been read and that reading it
    lists a name once.  The theorems on a running cache start from the index
    that is built here. *)

From S2P Require Import Prelude.
From S2P Require Import Prog.
From S2P Require Import GoStd.
From S2P Require Import Encoding.
From S2P Require Import Model.
From S2P Require Import Effects.
From S2P Require Import Os.
From S2P Require Import DiskCache.
From S2P Require Import DiskCacheProofs.

(** ** Listings *)

Definition event_names (d : handle) (ev : event ceff) : list bytes :=
  let '(Ev e x) := ev in
  match e in ceff X return X → list bytes with
  | C_ReadDir d' _ => λ x, if d' ==? d then oe_Name <$> x.1 else []
  | _ => λ _, []
  end x.

(** The names a directory was read to hold. *)
Definition names_read (h : history ceff) (d : handle) : list bytes := mjoin (event_names d <$> h).

Definition fresh_listings : rely ceff := λ h X e x,
  match e in ceff X return X → Prop with
  | C_RootOpen _ _ => λ r, ∀ d, r = Ok d → names_read h d = []
  | C_ReadDir d _ => λ x, NoDup (names_read h d ++ (oe_Name <$> x.1))
  | _ => λ _, True
  end x.

Lemma names_read_app h k d : names_read (h ++ k) d = names_read h d ++ names_read k d.
Proof. unfold names_read. by rewrite fmap_app, join_app. Qed.

Lemma names_unlisted k d : unlisted k → names_read k d = [].
Proof.
  induction 1 as [|[X e x] k He _ IH]; [done|].
  change (event_names d (Ev e x) ++ names_read k d = []). rewrite IH, app_nil_r. by destruct e.
Qed.

Lemma names_same h k d : unlisted k → names_read (h ++ k) d = names_read h d.
Proof. intros Hk. by rewrite names_read_app, (names_unlisted k), app_nil_r. Qed.

Lemma names_one {X} h (e : ceff X) x d : lists e = false → names_read (h ++ [Ev e x]) d = names_read h d.
Proof. intros He. by apply names_same, unlisted_one. Qed.

(** The calls since [h] listed nothing. *)
Definition quietly (h h' : history ceff) : Prop := ∃ k, h' = h ++ k ∧ unlisted k.

#[export] Instance quietly_preorder : PreOrder quietly.
Proof.
  split.
  - intros h. exists []. split; [by rewrite app_nil_r|]. apply List.Forall_nil.
  - intros h1 h2 h3 (k & -> & Hk) (k' & -> & Hk'). exists (k ++ k').
    split; [by rewrite app_assoc|]. by apply Forall_app.
Qed.

Lemma quietly_names h h' d : quietly h h' → names_read h' d = names_read h d.
Proof. intros (k & -> & Hk). by apply names_same. Qed.

(** ** Candidates *)

Definition sum_sizes (l : list startupCandidate) : Z := foldr (λ c n, sc_size c + n) 0 l.

Lemma sum_sizes_perm l l' : l ≡ₚ l' → sum_sizes l = sum_sizes l'.
Proof. induction 1; simpl; lia. Qed.

Lemma heapPop_perm first rest :
  first :: rest ≡ₚ (heapPop first rest).1 :: (heapPop first rest).2.
Proof.
  revert first. induction rest as [|next rest IH]; intros first; [done|]. simpl. specialize (IH next).
  destruct (heapPop next rest) as [oldest others]. simpl in IH. rewrite IH.
  destruct (older oldest first); [apply Permutation_swap|done].
Qed.

Lemma insertNewest_perm c l : insertNewest c l ≡ₚ c :: l.
Proof.
  induction l as [|d l IH]; [done|]. simpl. destruct (older c d); [|done]. rewrite IH. apply Permutation_swap.
Qed.

Lemma newestFirst_perm l : newestFirst l ≡ₚ l.
Proof. induction l as [|c l IH]; [done|]. simpl. by rewrite insertNewest_perm, IH. Qed.

(** A candidate is named after its digest in the shard of its digest. *)
Definition candidate_ok (o : DiskCacheOptions) (c : startupCandidate) : Prop :=
  1 ≤ sc_size c ≤ do_MaxChunkBytes o ∧ sc_size c ≤ do_MaxBytes o ∧
  sc_shard c = take 2 (Digest_String (sc_digest c)).

(** The candidates kept so far, before and after evictions. *)
Record kept (o : DiskCacheOptions) (s : indexing) : Prop := {
  kp_total : ix_total s = sum_sizes (ix_candidates s);
  kp_each : Forall (candidate_ok o) (ix_candidates s);
  kp_digests : NoDup (sc_digest <$> ix_candidates s);
}.

Definition within (o : DiskCacheOptions) (s : indexing) : Prop :=
  len (ix_candidates s) ≤ do_MaxEntries o ∧ ix_total s ≤ do_MaxBytes o.

Lemma sum_sizes_nonneg o l : Forall (candidate_ok o) l → 0 ≤ sum_sizes l.
Proof. induction 1 as [|c l [Hc _] _ IH]; simpl; lia. Qed.

Section Scan.
Context (cache : cacheLayout).
Abbreviation o := (cl_options cache).
Abbreviation mw m := (mwp fresh_listings any_call m) (only parsing).
Implicit Types (s : indexing) (h : history ceff).

Lemma removeStartupCandidate_silent candidate : silent_any (removeStartupCandidate cache candidate).
Proof. unfold silent_any, removeStartupCandidate. silent_go. Qed.
#[local] Hint Resolve removeStartupCandidate_silent : silent.

(** Evictions end within the limits, and keep a part of what was there. *)
Lemma evictLoop_ok fuel s h :
  0 ≤ do_MaxEntries o → 0 ≤ do_MaxBytes o →
  kept o s → (length (ix_candidates s) ≤ fuel)%nat →
  mw (evictLoop cache fuel) s h (λ h' s' r, quietly h h' ∧
    (r = Ok tt → kept o s' ∧ within o s' ∧ ix_candidates s' ⊆ ix_candidates s)).
Proof.
  intros He Hb. revert s h. induction fuel as [|fuel IH]; intros s h Hk Hf; simpl; apply mwp_bind, mwp_get; simpl;
    (destruct (_ || _) eqn:Ec;
      [|apply orb_false_iff in Ec as [E1%Z.ltb_ge E2%Z.ltb_ge]; by apply mwp_ret]).
  { exfalso. assert (ix_candidates s = []) as E by (destruct (ix_candidates s); [done|simpl in *; lia]).
    rewrite (kp_total _ _ Hk), E, len_nil in Ec. simpl in Ec.
    apply orb_true_iff in Ec as [E1%Z.ltb_lt|E1%Z.ltb_lt]; lia. }
  destruct (ix_candidates s) as [|first rest] eqn:El.
  { exfalso. rewrite (kp_total _ _ Hk), El, len_nil in Ec. simpl in Ec.
    apply orb_true_iff in Ec as [E1%Z.ltb_lt|E1%Z.ltb_lt]; lia. }
  pose proof (heapPop_perm first rest) as Hperm. destruct (heapPop first rest) as [oldest others]. simpl in Hperm.
  apply mwp_bind, mwp_put. apply mwp_bind, removeStartupCandidate_silent. intros k r Hu _.
  assert (Hq : quietly h (h ++ k)) by (by exists k). destruct r as [[]|e]; [|done].
  destruct Hk as [Ht Heach Hnd]. rewrite El in Ht, Heach, Hnd.
  rewrite (sum_sizes_perm _ _ Hperm) in Ht. rewrite Hperm in Heach, Hnd. simpl in Ht, Hnd.
  apply Forall_cons in Heach as [_ Heach]. apply NoDup_cons in Hnd as [_ Hnd].
  eapply mwp_mono; [apply IH|].
  - constructor; simpl; [lia|done|done].
  - simpl. apply Permutation_length in Hperm. simpl in *. lia.
  - intros h' s' r [Hq' Hr]. split; [by etrans|]. intros Hok. destruct (Hr Hok) as (Hk' & Hw & Hsub).
    split; [done|]. split; [done|]. simpl in Hsub. etrans; [exact Hsub|].
    intros c Hc. rewrite Hperm. by right.
Qed.

(** ** One shard *)

(** Scanning shard [sh] after the shards [W]: the candidates of the shard are
    named in [V], the others are in [W]. *)
Definition in_shard (W : list bytes) (sh : bytes) (V : list bytes) (s : indexing) : Prop :=
  kept o s ∧ within o s ∧
  Forall (λ c, sc_shard c = sh ∧ Digest_String (sc_digest c) ∈ V ∨ sc_shard c ∈ W) (ix_candidates s).

Lemma in_shard_more W sh V n s : in_shard W sh V s → in_shard W sh (V ++ [n]) s.
Proof.
  intros (Hk & Hw & Hc). split; [done|]. split; [done|]. eapply Forall_impl; [done|]. simpl.
  intros c [[? ?]|?]; [left; split; [done|by apply elem_of_app; left]|by right].
Qed.

Lemma consume_ok s h (P : indexing → Prop) :
  (∀ n, P {| ix_candidates := ix_candidates s; ix_total := ix_total s; ix_remaining := n |}) →
  mw consumeScanEntry s h (λ h' s' r, h' = h ∧ (r = Ok tt → P s')).
Proof.
  intros HP. unfold consumeScanEntry. apply mwp_bind, mwp_get. apply mwp_bind, mwp_guard; intros _; [done|].
  by apply mwp_put.
Qed.

Lemma in_shard_remaining W sh V s n :
  in_shard W sh V s →
  in_shard W sh V {| ix_candidates := ix_candidates s; ix_total := ix_total s; ix_remaining := n |}.
Proof. intros ([Ht He Hd] & Hw & Hc). split; [by constructor|done]. Qed.

Lemma inspect_ok shardRoot sh entry :
  silent (inspectCandidate cache shardRoot sh entry)
    (λ r, ∀ c, r = Ok (Some c) → candidate_ok o c ∧ sc_shard c = sh ∧
       Digest_String (sc_digest c) = oe_Name entry).
Proof.
  unfold inspectCandidate. destruct (HasPrefix _ _); [by apply silent_ret|].
  destruct (ParseDigest (oe_Name entry)) as [digest|]; [|by apply silent_ret].
  destruct (_ || _) eqn:Ec; [by apply silent_ret|].
  apply orb_false_iff in Ec as [En Es].
  apply negb_false_iff, bool_decide_eq_true in En. apply negb_false_iff, bool_decide_eq_true in Es.
  apply silent_bind, silent_callr; [done|]. intros [info|e]; [|by intros ? [=]].
  destruct (_ || _) eqn:Ec; [by apply silent_ret|]. apply silent_ret. intros c [= <-].
  rewrite !orb_false_iff in Ec. destruct Ec as ((((_ & _) & H1%Z.ltb_ge) & H2%Z.ltb_ge) & H3%Z.ltb_ge).
  unfold candidate_ok. simpl. split_and!; [lia..|done|done|done].
Qed.

Context (Hentries : 0 ≤ do_MaxEntries o) (Hbytes : 0 ≤ do_MaxBytes o).

Lemma keep_ok W sh V s h c :
  in_shard W sh V s → sh ∉ W → candidate_ok o c → sc_shard c = sh → Digest_String (sc_digest c) ∉ V →
  mw (keepCandidate cache c) s h (λ h' s' r, quietly h h' ∧
    (r = Ok tt → in_shard W sh (V ++ [Digest_String (sc_digest c)]) s')).
Proof.
  intros (Hk & Hw & Hc) Hsh Hco Hcs Hn. unfold keepCandidate. apply mwp_bind, mwp_get. apply mwp_bind, mwp_put.
  eapply mwp_mono; [apply evictLoop_ok; [done|done| |done]|].
  - destruct Hk as [Ht He Hd]. constructor; simpl; [lia|by constructor|]. constructor; [|done].
    intros (d & Hd' & Hin)%list_elem_of_fmap. rewrite Forall_forall in Hc. rewrite Forall_forall in He.
    destruct (Hc d Hin) as [[_ HV]|HW]; [by rewrite <- Hd' in HV|].
    destruct (He d Hin) as (_ & _ & Hs). destruct Hco as (_ & _ & Hs'). congruence.
  - intros h' s' r [Hq Hr]. split; [done|]. intros Hok. destruct (Hr Hok) as (Hk' & Hw' & Hsub).
    split; [done|]. split; [done|]. apply Forall_forall. intros d Hd. apply Hsub in Hd. simpl in Hd.
    apply elem_of_cons in Hd as [->|Hd].
    + left. split; [done|]. apply elem_of_app. right. by apply list_elem_of_singleton.
    + rewrite Forall_forall in Hc. destruct (Hc d Hd) as [[? ?]|?]; [left|by right].
      split; [done|]. apply elem_of_app. by left.
Qed.

Lemma visitChunk_ok W sh V shard entry modified s h :
  in_shard W sh V s → sh ∉ W → oe_Name entry ∉ V →
  mw (visitChunk cache shard sh entry modified) s h (λ h' s' r, quietly h h' ∧
    (∀ b, r = Ok b → in_shard W sh (V ++ [oe_Name entry]) s')).
Proof.
  intros Hi Hsh Hn. unfold visitChunk. apply mwp_bind.
  eapply mwp_mono; [apply (consume_ok _ _ (in_shard W sh V)); intros n; by apply in_shard_remaining|].
  intros h1 s1 [[]|e] [-> H1]; [|done]. specialize (H1 eq_refl). clear s Hi.
  pose proof (in_shard_more W sh V (oe_Name entry) s1 H1) as Hmore.
  destruct (oe_IsDir entry).
  { assert (Hs : silent_any (S:=indexing) (err <- mcall (C_RootRemove shard (oe_Name entry)) ;;
      mguard (bool_decide (err ≠ None)) [ErrResourceLimit] ;;; mret true)) by (unfold silent_any; silent_go).
    apply Hs. intros k r Hk _. split; [by exists k|done]. }
  apply mwp_bind, inspect_ok. intros k r Hk Hr.
  assert (Hq : quietly h (h ++ k)) by (by exists k). destruct r as [[c|]|e]; [| |done].
  - destruct (Hr c eq_refl) as (Hco & Hcs & Hname). apply mwp_bind.
    eapply mwp_mono; [apply (keep_ok W sh V); try done; by rewrite Hname|].
    rewrite Hname. intros h2 s2 [[]|e] [Hq2 H2]; [|split; [by etrans|done]].
    apply mwp_ret. split; [by etrans|]. intros b _. by apply H2.
  - match goal with |- mwp _ _ ?m _ _ _ =>
      assert (Hs : silent_any m) by (unfold silent_any; silent_go) end.
    apply Hs. intros k2 r2 Hk2 _. split; [|done]. etrans; [exact Hq|]. by exists k2.
Qed.

(** ** Directories *)

Section Directory.
Context {A : Type} (dir : handle) (K : handle → Prop) (Inv : list bytes → indexing → Prop)
  (visit : osEntry → A → M ceff indexing A).

(** What a visit keeps of the listings. *)
Definition frame (h h' : history ceff) : Prop :=
  ∀ d, K d ∨ d = dir → names_read h d ≠ [] → names_read h' d = names_read h d.

Hypothesis visit_ok : ∀ V entry acc s h,
  Inv V s → oe_Name entry ∉ V → names_read h dir ≠ [] →
  mw (visit entry acc) s h (λ h' s' r, frame h h' ∧ (∀ a, r = Ok a → Inv (V ++ [oe_Name entry]) s')).

Lemma frame_trans h1 h2 h3 : frame h1 h2 → frame h2 h3 → frame h1 h3.
Proof.
  intros H12 H23 d Hd Hn. rewrite <- (H12 d Hd Hn). apply H23; [done|]. by rewrite (H12 d Hd Hn).
Qed.

Lemma visitEach_ok entries V acc s h :
  Inv V s → NoDup (V ++ (oe_Name <$> entries)) → (entries ≠ [] → names_read h dir ≠ []) →
  mw (visitEach visit entries acc) s h (λ h' s' r, frame h h' ∧ names_read h' dir = names_read h dir ∧
    (∀ a, r = Ok a → Inv (V ++ (oe_Name <$> entries)) s')).
Proof.
  revert V acc s h. induction entries as [|entry entries IH]; intros V acc s h HI Hnd Hne; simpl.
  { apply mwp_ret. rewrite app_nil_r. done. }
  apply mwp_bind. eapply mwp_mono; [apply (visit_ok V)|].
  - done.
  - apply NoDup_app in Hnd as (_ & Hd & _). intros Hin. apply (Hd _ Hin). simpl. left.
  - by apply Hne.
  - intros h1 s1 r [Hf HI1]. specialize (Hne ltac:(done)).
    assert (Hd : names_read h1 dir = names_read h dir) by (apply Hf; [by right|done]).
    destruct r as [a|e]; [|done]. simpl in Hnd.
    eapply mwp_mono; [apply (IH (V ++ [oe_Name entry]))|].
    + by apply (HI1 a).
    + by rewrite <- app_assoc.
    + intros _. by rewrite Hd.
    + rewrite <- app_assoc. intros h2 s2 r (Hf2 & Hd2 & Hr). split; [by eapply frame_trans|].
      split; [by rewrite Hd2|done].
Qed.

Lemma readBatches_ok fuel V acc s h :
  Inv V s → names_read h dir = V →
  mw (readBatches fuel dir visit acc) s h (λ h' s' r,
    (∀ d, K d → d ≠ dir → names_read h d ≠ [] → names_read h' d = names_read h d) ∧
    (∀ a, r = Ok a → ∃ V', Inv V' s')).
Proof.
  revert V acc s h. induction fuel as [|fuel IH]; intros V acc s h HI HV; simpl; [by apply mwp_fail|].
  apply mwp_bind, mwp_call; [done|]. intros [entries readErr] Hnd. simpl in Hnd. rewrite HV in Hnd.
  set (h1 := h ++ _).
  assert (Hdir : names_read h1 dir = V ++ (oe_Name <$> entries)).
  { unfold h1. rewrite names_read_app, HV. f_equal. unfold names_read. simpl.
    by rewrite bool_decide_true, app_nil_r. }
  assert (Hother : ∀ d, d ≠ dir → names_read h1 d = names_read h d).
  { intros d Hd. unfold h1. rewrite names_read_app. unfold names_read at 2. simpl.
    by rewrite bool_decide_false, !app_nil_r by congruence. }
  apply mwp_bind. eapply mwp_mono; [apply (visitEach_ok entries V)|].
  - done.
  - done.
  - intros Hne. rewrite Hdir. destruct entries; [done|]. simpl. by destruct V.
  - intros h2 s2 [a|e] (Hf & Hd2 & Hr).
    2:{ split; [|done]. intros d HK Hd Hn. rewrite <- (Hother d Hd). apply Hf; [by left|]. by rewrite Hother. }
    specialize (Hr a eq_refl).
    assert (Hk : ∀ d, K d → d ≠ dir → names_read h d ≠ [] → names_read h2 d = names_read h d).
    { intros d HK Hd Hn. rewrite <- (Hother d Hd). apply Hf; [by left|]. by rewrite Hother. }
    destruct readErr as [e|].
    + destruct (errors_Is e IoEOF); [apply mwp_ret|apply mwp_fail]; (split; [done|]); [|done].
      intros _ _. by eexists.
    + rewrite Hdir in Hd2.
      eapply mwp_mono; [by apply (IH _ _ _ _ Hr)|]. intros h3 s3 r [Hf3 Hr3]. split; [|done].
      intros d HK Hd Hn. rewrite <- (Hk d HK Hd Hn). apply Hf3; [done|done|]. by rewrite (Hk d HK Hd Hn).
Qed.
End Directory.

(** A scanned directory: opened afresh, each name visited once. *)
Lemma readCacheDirectoryBatches_ok {A} (K : handle → Prop) (Inv : list bytes → indexing → Prop)
    (visit : osEntry → A → M ceff indexing A) root name expected acc s h :
  (∀ dir V entry acc s h, Inv V s → oe_Name entry ∉ V → names_read h dir ≠ [] →
     mw (visit entry acc) s h (λ h' s' r, frame dir K h h' ∧
       (∀ a, r = Ok a → Inv (V ++ [oe_Name entry]) s'))) →
  Inv [] s →
  mw (readCacheDirectoryBatches cache root name expected visit acc) s h (λ h' s' r,
    (∀ d, K d → names_read h d ≠ [] → names_read h' d = names_read h d) ∧
    (∀ a, r = Ok a → ∃ V, Inv V s')).
Proof.
  intros Hvisit HI. unfold readCacheDirectoryBatches.
  apply mwp_bind, mwp_callr; [done|]. intros [linked|e] _; [|split; [intros d _ _; by apply names_one|done]].
  apply mwp_bind, mwp_guard; intros _; [split; [intros d _ _; by apply names_one|done]|].
  apply mwp_bind, mwp_callr; [done|]. intros r Hopen.
  match goal with |- context [Ev (C_RootOpen _ _) r] => set (h1 := (h ++ _) ++ [Ev (C_RootOpen _ _) r]) end.
  assert (H1 : ∀ d, names_read h1 d = names_read h d) by (intros d; unfold h1; by rewrite !names_one).
  destruct r as [dir|e]; [|split; [intros d _ _; apply H1|done]].
  specialize (Hopen dir eq_refl). rewrite names_one in Hopen by done.
  unfold deferring_close. apply mwp_bind, mwp_try.
  assert (Hend : ∀ h2 s2 (r : result A),
    (∀ d, K d → d ≠ dir → names_read h d ≠ [] → names_read h2 d = names_read h d) →
    (∀ a : A, r = Ok a → ∃ V, Inv V s2) →
    mw (mcall (C_FileClose dir) ;;; mlift r) s2 h2 (λ h' s' r,
      (∀ d, K d → names_read h d ≠ [] → names_read h' d = names_read h d) ∧
      (∀ a, r = Ok a → ∃ V, Inv V s'))).
  { intros h2 s2 r Hf Hr. apply mwp_bind, mwp_call; [done|]. intros x _. apply mwp_lift. split; [|done].
    intros d HK Hn. rewrite names_one by done. apply Hf; [done|congruence|done]. }
  apply mwp_bind, mwp_callr; [done|]. intros r _. set (h2 := h1 ++ _).
  assert (H2 : ∀ d, names_read h2 d = names_read h d) by (intros d; unfold h2; by rewrite names_one).
  destruct r as [opened|e]; [|by apply Hend].
  apply mwp_bind, mwp_guard; intros _; [by apply Hend|].
  apply mwp_bind. eapply mwp_mono; [apply (readBatches_ok dir K Inv visit (Hvisit dir) _ []); [done|by rewrite H2]|].
  intros h3 s3 r [Hf Hr].
  assert (H3 : ∀ d, K d → d ≠ dir → names_read h d ≠ [] → names_read h3 d = names_read h d).
  { intros d HK Hd Hn. rewrite <- (H2 d). apply Hf; [done|done|]. by rewrite H2. }
  destruct r as [a|e]; [|by apply Hend].
  apply mwp_bind, mwp_callr; [done|]. intros r _. set (h4 := h3 ++ _).
  assert (H4 : ∀ d, K d → d ≠ dir → names_read h d ≠ [] → names_read h4 d = names_read h d).
  { intros d HK Hd Hn. unfold h4. rewrite names_one by done. by apply H3. }
  destruct r as [after|e]; [|by apply Hend].
  apply mwp_bind, mwp_guard; intros _; [by apply Hend|]. apply mwp_ret. apply Hend; [done|].
  intros b _. by apply (Hr a).
Qed.

(** ** The digest directory *)

Definition in_cache (W : list bytes) (s : indexing) : Prop :=
  kept o s ∧ within o s ∧ Forall (λ c, sc_shard c ∈ W) (ix_candidates s).

Lemma in_cache_remaining W s n :
  in_cache W s →
  in_cache W {| ix_candidates := ix_candidates s; ix_total := ix_total s; ix_remaining := n |}.
Proof. intros ([Ht He Hd] & Hw & Hc). split; [by constructor|done]. Qed.

Lemma in_cache_more W n s : in_cache W s → in_cache (W ++ [n]) s.
Proof.
  intros (Hk & Hw & Hc). split; [done|]. split; [done|]. eapply Forall_impl; [done|]. simpl.
  intros c Hin. apply elem_of_app. by left.
Qed.

Lemma in_cache_shard W sh s : in_cache W s ↔ in_shard W sh [] s.
Proof.
  split; intros (Hk & Hw & Hc); (split; [done|]); (split; [done|]); (eapply Forall_impl; [done|]); simpl.
  - by right.
  - intros c [[_ Hn%elem_of_nil]|]; done.
Qed.

Lemma in_shard_cache W sh V s : in_shard W sh V s → in_cache (W ++ [sh]) s.
Proof.
  intros (Hk & Hw & Hc). split; [done|]. split; [done|]. eapply Forall_impl; [done|]. simpl.
  intros c [[-> _]|Hin]; apply elem_of_app; [right; by apply list_elem_of_singleton|by left].
Qed.

Lemma scanShard_ok W sh shard info s h :
  in_cache W s → sh ∉ W →
  mw (readCacheDirectoryBatches cache shard dot info (visitChunk cache shard sh) false) s h (λ h' s' r,
    (∀ d, names_read h d ≠ [] → names_read h' d = names_read h d) ∧
    (∀ a, r = Ok a → in_cache (W ++ [sh]) s')).
Proof.
  intros Hi Hsh. eapply mwp_mono.
  - apply (readCacheDirectoryBatches_ok (λ _, True) (in_shard W sh)).
    + intros dir V entry acc s1 h1 Hs Hn _. eapply mwp_mono; [by apply (visitChunk_ok W sh V)|].
      intros h2 s2 r [Hq Hr]. split; [|done]. intros d _ _. by apply quietly_names.
    + by apply in_cache_shard.
  - intros h1 s1 r [Hf Hr]. split; [by auto|]. intros a Ha. destruct (Hr a Ha) as [V HV].
    by eapply in_shard_cache.
Qed.

Lemma visitShard_ok dir W root entry s h :
  in_cache W s → oe_Name entry ∉ W → names_read h dir ≠ [] →
  mw (visitShard cache root entry) s h (λ h' s' r, frame dir (λ _, False) h h' ∧
    (∀ a, r = Ok a → in_cache (W ++ [oe_Name entry]) s')).
Proof.
  intros Hi Hn Hdir. unfold visitShard. apply mwp_bind.
  eapply mwp_mono; [apply (consume_ok _ _ (in_cache W)); intros n; by apply in_cache_remaining|].
  intros h1 s1 [[]|e] [-> H1]; [|by split; [intros ? [[]| ->]|]]. specialize (H1 eq_refl). clear s Hi.
  assert (Hquiet : ∀ h', quietly h h' → frame dir (λ _, False) h h')
    by (intros h' Hq d _ _; by apply quietly_names).
  destruct (_ || _).
  { match goal with |- mwp _ _ ?m _ _ _ => assert (Hs : silent_any m) by (unfold silent_any; silent_go) end.
    apply Hs. intros k r Hk _. split; [apply Hquiet; by exists k|]. intros a _. by apply in_cache_more. }
  apply mwp_bind, openShard_silent. intros k1 r Hk1 _.
  assert (Hq1 : quietly h (h ++ k1)) by (by exists k1). destruct r as [[shard info]|e]; [|split; [by apply Hquiet|done]].
  unfold deferring_close. apply mwp_bind, mwp_try. apply mwp_bind.
  eapply mwp_mono; [by apply (scanShard_ok W (oe_Name entry))|]. intros h2 s2 r [Hf Hr].
  assert (Hd2 : names_read h2 dir = names_read h dir).
  { rewrite (Hf dir); [by apply quietly_names|]. by rewrite (quietly_names _ _ dir Hq1). }
  assert (Hend : ∀ h3 s3 (r3 : result unit), quietly h2 h3 → (∀ a, r3 = Ok a → in_cache (W ++ [oe_Name entry]) s3) →
    mw (mcall (C_RootClose shard) ;;; mlift r3) s3 h3 (λ h' s' r, frame dir (λ _, False) h h' ∧
      (∀ a, r = Ok a → in_cache (W ++ [oe_Name entry]) s'))).
  { intros h3 s3 r3 Hq Hr3. apply mwp_bind, mwp_call; [done|]. intros x _. apply mwp_lift. split; [|done].
    intros d [[]| ->] _. rewrite names_one, (quietly_names _ _ dir Hq) by done. done. }
  destruct r as [modified|e]; [|by apply Hend].
  specialize (Hr modified eq_refl).
  match goal with |- mwp _ _ ?m _ _ _ => assert (Hs : silent_any m) by (unfold silent_any; silent_go) end.
  apply Hs. intros k r Hk _. apply Hend; [by exists k|done].
Qed.

Lemma indexCandidates_ok s h :
  in_cache [] s →
  mw (indexCandidates cache) s h (λ _ s' r, r = Ok tt → kept o s' ∧ within o s').
Proof.
  intros Hi. unfold indexCandidates. apply mwp_bind, validateLayout_silent. intros k [[]|e] _ _; [|done].
  destruct (cl_rootHandle cache) as [root|]; [|by apply mwp_fail].
  eapply mwp_mono; [apply (readCacheDirectoryBatches_ok (λ _, False) in_cache); [|done]|].
  - intros dir V entry acc s1 h1 Hs Hn Hd. by apply visitShard_ok.
  - intros h1 s1 r [_ Hr] Hok. destruct (Hr tt Hok) as (W & Hk & Hw & _). done.
Qed.
End Scan.

(** ** The index of the candidates *)

Lemma index_ok_perm o readers c lru :
  index_ok o readers c → lru ≡ₚ dc_lru c →
  index_ok o readers {| dc_entries := dc_entries c; dc_lru := lru; dc_heap := dc_heap c;
                        dc_totalBytes := dc_totalBytes c; dc_closed := dc_closed c |}.
Proof.
  intros [Hnd Hlru Hmap Hsz Htot Hmb Hme Hent Hpins Hrd Hread] Hl.
  constructor; simpl; unfold len in *; rewrite ?Hl; try done.
  - intros a. rewrite Hl. apply Hlru.
  - by rewrite (sizes_perm _ _ _ Hl).
  - intros a Ha. rewrite Hl. by apply Hread.
Qed.

Lemma buildIndex_ok o l next c :
  index_ok o (λ _, 0) c → (∀ a, (next ≤ a)%N → dc_heap c !! a = None) →
  Forall (candidate_ok o) l → NoDup (sc_digest <$> l) →
  (∀ d, d ∈ sc_digest <$> l → dc_entries c !! d = None) →
  dc_totalBytes c + sum_sizes l ≤ do_MaxBytes o → len (dc_lru c) + len l ≤ do_MaxEntries o →
  index_ok o (λ _, 0) (buildIndex next l c).
Proof.
  revert next c. induction l as [|x l IH]; intros next c Ho Hfresh He Hnd Hnone Htot Hlen; [done|].
  apply Forall_cons in He as [Hx He]. simpl in Hnd. apply NoDup_cons in Hnd as [Hxn Hnd].
  simpl in Htot. pose proof (sum_sizes_nonneg _ _ He) as Hpos.
  rewrite (len_app [x] l : len (x :: l) = _) in Hlen. change (len [x]) with 1 in Hlen.
  pose proof (len_nonneg l) as Hll. simpl.
  assert (Hadd : index_ok o (λ _, 0) (addEntry next (sc_digest x) (sc_size x) c)).
  { apply add_ok; [done|by apply Hfresh|apply Hnone; left|lia|lia|]. by destruct Hx. }
  apply IH; simpl.
  - apply (index_ok_perm _ _ _ (dc_lru c ++ [next])) in Hadd; [done|]. simpl. symmetry. apply Permutation_cons_append.
  - intros a Ha. rewrite lookup_insert_ne by lia. apply Hfresh. lia.
  - done.
  - done.
  - intros d Hd. rewrite lookup_insert_ne by (by intros <-). apply Hnone. by right.
  - lia.
  - rewrite len_app. change (len [next]) with 1. lia.
Qed.

Lemma empty_index_ok o :
  0 ≤ do_MaxEntries o → 0 ≤ do_MaxBytes o → index_ok o (λ _, 0) emptyCache.
Proof.
  intros He Hb. constructor; simpl; try done.
  - constructor.
  - intros a. split; [by intros ?%elem_of_nil|]. by intros [e [He' _]].
  - by intros a e [? _].
  - by intros a e [? _].
Qed.

Lemma indexExisting_ok cache s h :
  1 ≤ do_MaxEntries (cl_options cache) → 1 ≤ do_MaxBytes (cl_options cache) →
  mwp fresh_listings any_call (indexExisting cache) s h (λ _ _ r,
    ∀ c, r = Ok c → index_ok (cl_options cache) (λ _, 0) c).
Proof.
  intros He Hb. unfold indexExisting, mwp. apply wp_bind.
  match goal with |- wp _ _ (?m ?s0) _ _ =>
    assert (Hm : mwp fresh_listings any_call m s0 h (λ _ _ r, ∀ ix, r = Ok ix →
      kept (cl_options cache) ix ∧ within (cl_options cache) ix)) end.
  { apply mwp_bind. eapply mwp_mono; [apply indexCandidates_ok; [lia|lia|]|].
    - split; [constructor; simpl; [done|constructor..]|]. split; [|constructor].
      split; simpl; [rewrite len_nil|]; lia.
    - intros h1 s1 [[]|e] Hr; [|done]. specialize (Hr eq_refl). apply mwp_bind, mwp_get.
      apply mwp_bind, validateLayout_silent. intros k [[]|e] _ _; [|done]. apply mwp_ret. by intros ix [= <-]. }
  eapply wp_mono; [exact Hm|]. intros h' [s' r] Hr c. destruct r as [ix|e]; [|done]. simpl. intros [= <-].
  destruct (Hr ix eq_refl) as [[Ht Heach Hnd] [Hl Htot]].
  pose proof (newestFirst_perm (ix_candidates ix)) as Hp.
  apply buildIndex_ok; simpl.
  - apply empty_index_ok; lia.
  - done.
  - by rewrite Hp.
  - by rewrite Hp.
  - done.
  - rewrite (sum_sizes_perm _ _ Hp). lia.
  - unfold len in *. rewrite Hp. simpl. lia.
Qed.

(** ** The life of a cache *)

Lemma normalized_limits options o :
  DiskCacheOptions_normalized options = Ok o →
  1 ≤ do_MaxBytes o ≤ DiskCacheMaxBytesLimit ∧ 1 ≤ do_MaxEntries o ≤ DiskCacheMaxEntriesLimit ∧
  1 ≤ do_MaxChunkBytes o ≤ DiskCacheMaxChunkBytesLimit ∧ do_MaxChunkBytes o ≤ do_MaxBytes o.
Proof.
  unfold DiskCacheOptions_normalized. rewrite !guard_bind_ok.
  intros (H1%Z.ltb_ge & H2%Z.ltb_ge & H3%Z.ltb_ge & H4%Z.ltb_ge & H5%Z.ltb_ge & H6%Z.ltb_ge & _ & _ & [= <-]).
  simpl. destruct (Z.ltb_spec
    (if do_MaxBytes options =? 0 then DefaultDiskCacheMaxBytes else do_MaxBytes options)
    (if do_MaxChunkBytes options =? 0 then DefaultDiskCacheMaxChunkBytes else do_MaxChunkBytes options)); lia.
Qed.

Lemma NewDiskCache_ok root options h :
  mwp fresh_listings any_call (NewDiskCacheWithOptions root options) tt h (λ _ _ r,
    ∀ cache c0, r = Ok (cache, c0) →
      DiskCacheOptions_normalized options = Ok (cl_options cache) ∧
      index_ok (cl_options cache) (λ _, 0) c0).
Proof.
  unfold NewDiskCacheWithOptions. apply mwp_bind, mwp_guard; intros _; [done|].
  apply mwp_bind, mwp_lift. destruct (DiskCacheOptions_normalized options) as [o|e] eqn:En; [|done].
  pose proof (normalized_limits _ _ En) as (Hb & He & _).
  do 3 (apply mwp_bind, mwp_callr; [done|]; intros [?|?] _; [|done]).
  apply mwp_bind, mwp_guard; intros _; [done|].
  apply mwp_bind. unfold ccheck. apply mwp_bind, mwp_call; [done|]. intros [e|] _; [by apply mwp_fail|apply mwp_ret].
  apply mwp_bind, mwp_callr; [done|]. intros [rootHandle|e] _; [|done].
  apply mwp_bind, mwp_try.
  assert (Hfail : ∀ h e, mwp fresh_listings any_call (mcall (C_RootClose rootHandle) ;;; mfail (A:=cacheLayout * DiskCache) e)
    tt h (λ _ _ r, ∀ cache c0, r = Ok (cache, c0) →
      Ok o = Ok (cl_options cache) ∧ index_ok (cl_options cache) (λ _, 0) c0))
    by (intros; apply mwp_bind, mwp_call; [done|]; intros x _; by apply mwp_fail).
  apply mwp_bind, validateManagedDirectory_silent. intros k1 [rootInfo|e] _ _; [|done].
  apply mwp_bind, ensureManagedDirectory_silent. intros k2 [chunksInfo|e] _ _; [|done].
  apply mwp_bind, ensureManagedDirectory_silent. intros k3 [digestInfo|e] _ _; [|done].
  apply mwp_bind. eapply mwp_mono; [apply indexExisting_ok; simpl; lia|]. simpl.
  intros h' [] [c|e] Hc; [|done]. apply mwp_ret. apply mwp_ret. intros cache c0 [= <- <-]. split; [done|].
  by apply Hc.
Qed.

(** C35: From the moment it is opened, in every interleaving of Get, GetSized, Put
    and Close and whatever the operating system answers (a directory listing
    does not repeat a name), the index of the chunk cache is exact and bounded:
    the total is the sum of the sizes of the listed entries and at most
    MaxBytes, there are at most MaxEntries of them, one per digest, each of an
    allowed size, the configured limits are those of normalized, and an entry
    that a caller is reading is pinned and has not been evicted. *)
Theorem disk_cache_bounded root options h :
  mwp fresh_listings any_call (NewDiskCacheWithOptions root options) tt h (λ _ _ r,
    ∀ cache c0 σ, r = Ok (cache, c0) →
      rtc (cache_step cache) {| cr_cache := c0; cr_callers := ∅; cr_hits := [] |} σ →
      let o := cl_options cache in let c := cr_cache σ in
      DiskCacheOptions_normalized options = Ok o ∧
      dc_totalBytes c = sizes (dc_heap c) (dc_lru c) ∧ dc_totalBytes c ≤ do_MaxBytes o ∧
      base.size (dc_entries c) = length (dc_lru c) ∧ len (dc_lru c) ≤ do_MaxEntries o ∧ NoDup (dc_lru c) ∧
      (∀ a, a ∈ dc_lru c ↔ ∃ e, indexed c a e) ∧
      (∀ a e, indexed c a e → 1 ≤ en_size e ≤ do_MaxChunkBytes o ∧ en_pins e = readersOf (cr_callers σ) a) ∧
      (∀ t x a, cr_callers σ !! t = Some x → holds a x = true → a ∈ dc_lru c)).
Proof.
  eapply mwp_mono; [apply NewDiskCache_ok|]. intros h' s' r Hr cache c0 σ Hok Hrun.
  destruct (Hr cache c0 Hok) as [Hn H0]. destruct (cache_reachable_ok _ _ _ H0 Hrun) as [Hi _ _].
  destruct Hi as [Hnd Hlru Hmap Hsz Htot Hmb Hme Hent Hpins Hrd Hread]. simpl.
  split_and!; try done.
  - intros a e He. split; [by eapply Hent|by apply Hpins].
  - intros t x a Hx Ha. apply Hread. by eapply count_lookup.
Qed.

(** C34: A hit of the chunk cache is the chunk: from the moment the cache is
    opened, in every interleaving and whatever is in its files, the bytes that
    Get and GetSized return hash to the digest that was asked for, have the
    expected size if one was given, and are not larger than MaxChunkBytes. *)
Theorem disk_cache_hits_verified root options h :
  mwp fresh_listings any_call (NewDiskCacheWithOptions root options) tt h (λ _ _ r,
    ∀ cache c0 σ digest expectedSize data, r = Ok (cache, c0) →
      rtc (cache_step cache) {| cr_cache := c0; cr_callers := ∅; cr_hits := [] |} σ →
      (digest, expectedSize, data) ∈ cr_hits σ →
      digestObject (str "chunk") data = digest ∧ (0 < expectedSize → len data = expectedSize) ∧
      1 ≤ len data ≤ do_MaxChunkBytes (cl_options cache)).
Proof.
  eapply mwp_mono; [apply NewDiskCache_ok|]. intros h' s' r Hr cache c0 σ digest x data Hok Hrun Hin.
  destruct (Hr cache c0 Hok) as [_ H0]. destruct (cache_reachable_ok _ _ _ H0 Hrun) as [_ _ Hh].
  rewrite Forall_forall in Hh. exact (Hh _ Hin).
Qed.

(** ** A run on a small file system *)

Definition toy_dir : FileInfo := {| fi_ID := 1; fi_Size := 0; fi_ModTime := 0; fi_Mode := ModeDir |}.
Definition toy_file : FileInfo := {| fi_ID := 2; fi_Size := 3; fi_ModTime := 5; fi_Mode := 384 |}.
Definition toy_chunk : bytes := str "abc".
Definition toy_digest : Digest := digestObject (str "chunk") toy_chunk.

(** Directories, one file with three bytes, and whether the digest directory has
    been listed. *)
Definition toy_os : handler ceff unit := λ X e w,
  match e in ceff X return unit * X with
  | C_CtxErr | C_ValidateDirectory _ | C_RootRemove _ _ | C_RootRename _ _ _ | C_RootClose _
  | C_FileChmod _ | C_FileSync _ | C_FileClose _ | C_SyncDirectory _ | C_TouchFile _ | C_WriteToken => (w, None)
  | C_RootMkdir _ _ => (w, Some [OsErrExist])
  | C_Abs p => (w, Ok p)
  | C_PrepareDirectory p => (w, Ok p)
  | C_Lstat _ => (w, Ok toy_dir)
  | C_RootLstat _ name => (w, Ok (if len name =? 64 then toy_file else toy_dir))
  | C_RootStat _ _ => (w, Ok toy_dir)
  | C_OpenRoot _ | C_RootOpenRoot _ _ => (w, Ok 1%N)
  | C_RootOpen _ name => (w, Ok (if len name =? 64 then 2%N else 3%N))
  | C_RootCreate _ _ => (w, Ok 4%N)
  | C_FileStat file => (w, Ok (if (file =? 2)%N then toy_file else toy_dir))
  | C_FileRead _ n => (w, if n =? 3 then (toy_chunk, None) else ([], Some [IoEOF]))
  | C_FileWrite _ data => (w, (len data, None))
  | C_ReadDir _ _ => (w, ([], Some [IoEOF]))
  | C_ValidateOpened _ _ _ => (w, Ok toy_dir)
  | C_RandRead n => (w, Ok (replicate (Z.to_nat n) x00))
  | C_WriteTokenRelease => (w, tt)
  end.

Definition toy_cache_options : DiskCacheOptions :=
  {| do_MaxBytes := 4; do_MaxChunkBytes := 4; do_MaxEntries := 1; do_MaxStartupScanEntries := 4 |}.

(** Opening, putting the chunk and reading it back, with and without a size. *)
Definition toy_session : M ceff unit (list (option bytes)) :=
  ' (cache, c0) <- NewDiskCacheWithOptions (str "/cache") toy_cache_options ;;
  λ s, prog_bind
    ((Put cache 7 toy_digest toy_chunk ;;;
      hit <- Get cache toy_digest ;;
      sized <- GetSized cache toy_digest 3 ;;
      other <- GetSized cache toy_digest 2 ;;
      mret [hit; sized; other]) c0)
    (λ '(_, r), Ret (s, r)).

Example toy_session_run :
  (run toy_os (toy_session tt) tt).2.2 = Ok [Some toy_chunk; Some toy_chunk; None].
Proof. vm_compute. reflexivity. Qed.
