(* ===== verification/Ancestry.v ===== *)
(** * Commit ancestry

    [validateCommitManifest] and the walks over the commit chain of
    [publisher.go] and [publication_recovery.go].  The loader of a commit is a
    parameter of the walk, since the consumer and the publisher load through
    different methods; what the walks accept is stated with [ancestor], the
    relation "this commit has that ancestor" through manifests that hash to the
    digests in the chain. *)

From S2P Require Import Prelude.
From S2P Require Import Prog.
From S2P Require Import GoStd.
From S2P Require Import Sha256.
From S2P Require Import Json.
From S2P Require Import Model.
From S2P Require Import Effects.
From S2P Require Import Trust.
From S2P Require Import MemStore.
From S2P Require Import ClientEncryption.
From S2P Require Import Repository.

Definition validateCommitManifest (commit : commitManifest) (generation : N) : result unit :=
  guard_err ((cm_Format commit !=? objectFormatVersion) || (cm_Generation commit !=? generation)
             || Digest_IsZero (cm_Root commit)) [ErrCorruptObject] ?;;
  if generation ==? 1%N then guard_err (cm_Parent commit !=? None) [ErrCorruptObject]
  else match cm_Parent commit with
       | None => Err [ErrCorruptObject]
       | Some parent => guard_err (Digest_IsZero parent) [ErrCorruptObject]
       end.

Section Walk.
Context {S : Type} (get : Digest → M eff S commitManifest).

(** The loop of validateDescendant and validatePublicationDescendant: [n] more
    generations down to the anchor, [generation] the next one to read.  With
    [checkContext] the context is polled, with [wrap] read errors are
    wrapped. *)
Fixpoint walkAncestors (checkContext : bool) (n : nat) (generation : N) (parent : option Digest)
    : M eff S (option Digest) :=
  match n with
  | O => mret parent
  | Datatypes.S n =>
      (if checkContext then checkCtx else mret tt) ;;;
      match parent with
      | None => mfail [ErrSplitBrain]
      | Some p =>
          mguard (Digest_IsZero p) [ErrSplitBrain] ;;;
          ancestor <- get p ;;
          mlift (validateCommitManifest ancestor generation) ;;;
          walkAncestors checkContext n (u64_sub generation 1) (cm_Parent ancestor)
      end
  end.

Definition validateDescendant (reference : snapshotReference) (commit : commitManifest)
    (anchorGeneration : N) (anchorCommit : Digest) : M eff S unit :=
  mguard (sr_Generation reference <=? anchorGeneration)%N [ErrSplitBrain] ;;;
  mguard (maxCommitWalk <? u64_sub (sr_Generation reference) anchorGeneration)%N
         [ErrResourceLimit] ;;;
  parent <- walkAncestors true (N.to_nat (sr_Generation reference - 1 - anchorGeneration))
              (u64_sub (sr_Generation reference) 1) (cm_Parent commit) ;;
  mguard (parent !=? Some anchorCommit) [ErrSplitBrain].
End Walk.

(** ** What the walks establish *)

Section History.
Context {U : Hashed}.

(** The commit manifest of generation [g] that [d] names. *)
Definition commit_at (g : N) (d : Digest) (c : commitManifest) : Prop :=
  named_by (str "commit") d c ∧ validateCommitManifest c g = Ok tt.

(** [ancestor g d g0 d0]: the commit [d] of generation [g] has, or is, the
    ancestor [d0] of generation [g0]. *)
Inductive ancestor : N → Digest → N → Digest → Prop :=
| ancestor_refl g d : ancestor g d g d
| ancestor_step g d c p g0 d0 :
    commit_at (g + 1) d c → cm_Parent c = Some p → ancestor g p g0 d0 →
    ancestor (g + 1) d g0 d0.

Lemma ancestor_le g d g0 d0 : ancestor g d g0 d0 → (g0 ≤ g)%N.
Proof. induction 1; lia. Qed.

Lemma ancestor_trans g d g1 d1 g0 d0 :
  ancestor g d g1 d1 → ancestor g1 d1 g0 d0 → ancestor g d g0 d0.
Proof. induction 1; [done|]. intros. econstructor; eauto. Qed.

(** History is unique: one commit has one ancestor at each generation. *)
Lemma ancestor_unique g d g0 d0 d0' :
  ancestor g d g0 d0 → ancestor g d g0 d0' → d0 = d0' ∨ sha256_collision.
Proof.
  induction 1 as [g d|g d c p g0 d0 Hc Hp Ha IH]; intros Ha'.
  - left. inversion Ha' as [|? ? ? ? ? ? ? ? Hs]; subst; [done|]. apply ancestor_le in Hs. lia.
  - inversion Ha' as [|g' ? c' p' ? ? Hc' Hp' Hs]; subst.
    + apply ancestor_le in Ha. lia.
    + assert (g' = g) as -> by lia.
      destruct Hc as [Hn _], Hc' as [Hn' _].
      destruct (named_by_unique _ _ _ _ Hn Hn') as [->|?]; [|by right].
      simplify_eq. by apply IH.
Qed.

Lemma validateCommit_gen c g u : validateCommitManifest c g = Ok u → cm_Generation c = g.
Proof. unfold validateCommitManifest. intros Hv. ok_inv. by bool_prop. Qed.

Lemma validateCommit_root c g u : validateCommitManifest c g = Ok u → Digest_IsZero (cm_Root c) = false.
Proof. unfold validateCommitManifest. intros Hv. ok_inv. by bool_prop. Qed.

Section WalkProofs.
Context {S : Type} (get : Digest → M eff S commitManifest).
Context (R : rely eff) (G : guarantee eff) (HG : reads_free G).

(** What the loader promises. *)
Definition loads_commits : Prop :=
  ∀ d, reading G R (get d) (λ r, ∀ c, r = Ok c → named_by (str "commit") d c).

Hypothesis Hget : loads_commits.

Lemma walkAncestors_spec ctx n generation parent :
  (N.of_nat n ≤ generation)%N → (generation ≤ u64_max)%N →
  reading G R (walkAncestors get ctx n generation parent) (λ r,
    ∀ d0, r = Ok (Some d0) →
      ∃ d, parent = Some d ∧ ancestor generation d (generation - N.of_nat n) d0).
Proof.
  revert generation parent. induction n as [|n IH]; intros generation parent Hn Hmax.
  { apply reading_ret. intros d0 [= ->]. exists d0. split; [done|].
    replace (generation - N.of_nat 0)%N with generation by lia. constructor. }
  cbn [walkAncestors]. rd_step. eapply (reading_mono _ _ _ (λ _, True)).
  { destruct ctx; [by apply reading_checkCtx|by apply reading_ret]. }
  intros [u|e] _; [|done]. destruct parent as [p|]; [|by apply reading_fail].
  do 2 rd_step; [done|]. rd_step. eapply reading_mono; [apply Hget|]. intros [c|e] Hc; [|done].
  do 2 rd_step. destruct (validateCommitManifest c generation) as [[]|] eqn:Hv; simpl; [|done].
  rewrite u64_sub_exact by lia.
  eapply reading_mono; [apply IH; lia|]. intros r Hr d0 ->.
  destruct (Hr d0 eq_refl) as (d & Hp & Ha). exists p. split; [done|].
  replace generation with (generation - 1 + 1)%N by lia.
  eapply ancestor_step; [|exact Hp|].
  - replace (generation - 1 + 1)%N with generation by lia. split; [by apply Hc|done].
  - by replace (generation - 1 + 1 - N.of_nat (Datatypes.S n))%N
      with (generation - 1 - N.of_nat n)%N by lia.
Qed.

(** An accepted descendant has the anchor as its ancestor. *)
Lemma validateDescendant_spec reference commit ag ac :
  (sr_Generation reference ≤ u64_max)%N →
  commit_at (sr_Generation reference) (sr_Commit reference) commit →
  reading G R (validateDescendant get reference commit ag ac) (λ r,
    r = Ok tt → (ag < sr_Generation reference)%N ∧
      ancestor (sr_Generation reference) (sr_Commit reference) ag ac).
Proof.
  intros Hmax Hc. unfold validateDescendant. do 2 rd_step; [done|]. do 2 rd_step; [done|].
  rd_step. bool_prop. rewrite u64_sub_exact by lia.
  eapply reading_mono; [apply walkAncestors_spec; lia|]. intros [last|e] Hr; [|done].
  rd_step; [done|]. intros _. bool_prop. subst last.
  destruct (Hr ac eq_refl) as (p & Hp & Ha). split; [done|].
  replace (sr_Generation reference) with (sr_Generation reference - 1 + 1)%N at 1 by lia.
  eapply ancestor_step; [|exact Hp|].
  - by replace (sr_Generation reference - 1 + 1)%N with (sr_Generation reference) by lia.
  - by replace (sr_Generation reference - 1
        - N.of_nat (N.to_nat (sr_Generation reference - 1 - ag)))%N with ag in Ha by lia.
Qed.

(** Any result but success leaves the state as it is. *)
Lemma validateDescendant_reading reference commit ag ac :
  (sr_Generation reference ≤ u64_max)%N →
  reading G R (validateDescendant get reference commit ag ac) (λ _, True).
Proof.
  intros Hmax. unfold validateDescendant. do 2 rd_step; [done|]. do 2 rd_step; [done|].
  rd_step. bool_prop. rewrite u64_sub_exact by lia.
  eapply reading_mono; [apply walkAncestors_spec; lia|]. intros [last|e] Hr; [|done]. by rd_step.
Qed.
End WalkProofs.

(** ** Lineage *)

(** The watermark [b] continues the history of [a]: its commit has the commit
    of [a] as its ancestor. *)
Definition lineage (a : option Watermark) (b : option Watermark) : Prop :=
  match a, b with
  | None, _ => True
  | Some x, Some y =>
      ancestor (wm_Generation y) (wm_Commit y) (wm_Generation x) (wm_Commit x)
  | Some _, None => False
  end.

#[export] Instance lineage_preorder : PreOrder lineage.
Proof.
  split.
  - intros [w|]; simpl; [constructor|done].
  - intros [a|] [b|] [c|]; simpl; try done. intros H1 H2. by eapply ancestor_trans.
Qed.

Lemma ancestor_same g d d0 : ancestor g d g d0 → d = d0.
Proof.
  inversion 1 as [|? ? ? ? ? ? ? ? Ha]; subst; [done|]. apply ancestor_le in Ha. lia.
Qed.

(** An accepted ancestry is the ancestry.  Whatever the object store
    answers, if the descendant check of a verified commit against an anchor
    succeeds, then the anchor is the ancestor of the commit at its generation,
    through parents whose manifests hash to the digests that name them; and
    two anchors accepted for one generation are equal unless two of the manifests
    read collide under SHA-256. *)
Theorem validateDescendant_sound `{AEADLaws} {S : Type} (repository : Repository)
    (reference : snapshotReference) (commit : commitManifest) (anchor anchor' : Digest)
    (generation : N) (R : rely eff) (s : S) (h : history eff) :
  hashing repository R → (sr_Generation reference ≤ u64_max)%N →
  commit_at (sr_Generation reference) (sr_Commit reference) commit →
  let get d := getManifest (T:=commitManifest) repository (str "commit") d in
  mwp R any_call (validateDescendant get reference commit generation anchor) s h (λ h1 s1 r1,
    r1 = Ok tt →
    ancestor (sr_Generation reference) (sr_Commit reference) generation anchor ∧
    mwp R any_call (validateDescendant get reference commit generation anchor') s1 h1
      (λ _ _ r2, r2 = Ok tt → anchor = anchor' ∨ sha256_collision)).
Proof.
  intros HR Hmax Hc get.
  assert (loads_commits (S:=S) get R any_call) as Hget.
  { intros d. by apply getManifest_reading. }
  eapply mwp_mono; [by apply validateDescendant_spec|]. intros h1 s1 r1 (_ & _ & Hr1) ->.
  destruct (Hr1 eq_refl) as [_ Ha]. split; [done|].
  eapply mwp_mono; [by apply validateDescendant_spec|]. intros h2 s2 r2 (_ & _ & Hr2) ->.
  destruct (Hr2 eq_refl) as [_ Ha']. by eapply ancestor_unique.
Qed.

End History.

(** ** A chain of commits *)

Definition toy_commit (generation : N) (parent : option Digest) : commitManifest :=
  {| cm_Format := 1; cm_Generation := generation; cm_Parent := parent; cm_Root := fixture_digest 5;
     cm_PublishedAtUnix := 1700000000000000000; cm_ResetChanges := true |}.
Definition toy_commit_digest (c : commitManifest) : Digest :=
  digestObject (str "commit") (canonicalJSON c).
Definition toy_first : Digest := toy_commit_digest (toy_commit 1 None).
Definition toy_second : Digest := toy_commit_digest (toy_commit 2 (Some toy_first)).

Lemma toy_commit_at : commit_at (U:=everything) 2 toy_second (toy_commit 2 (Some toy_first)).
Proof.
  split; [|by vm_compute]. exists (canonicalJSON (toy_commit 2 (Some toy_first))).
  split; [by vm_compute|]. split; [by vm_compute|done].
Qed.

Lemma validateDescendant_sound_witness :
  let U := everything in
  let reference := {| sr_Format := 1; sr_Generation := 2; sr_Commit := toy_second |} in
  let get d := getManifest (H:=toy_aead) (T:=commitManifest) (S:=unit) toy_repository (str "commit") d in
  mwp any_rely any_call (validateDescendant get reference (toy_commit 2 (Some toy_first)) 1 toy_first)
    tt [] (λ h1 s1 r1, r1 = Ok tt →
    ancestor 2 toy_second 1 toy_first ∧
    mwp any_rely any_call
      (validateDescendant get reference (toy_commit 2 (Some toy_first)) 1 toy_first) s1 h1
      (λ _ _ r2, r2 = Ok tt → toy_first = toy_first ∨ sha256_collision)).
Proof.
  intros U reference get.
  apply (@validateDescendant_sound U toy_aead toy_aead_laws unit toy_repository reference
           (toy_commit 2 (Some toy_first)) toy_first toy_first 1 any_rely tt []);
    [done|by vm_compute|exact toy_commit_at].
Defined.
