(* ===== verification/Closure.v ===== *)
(** * Snapshot closures ([snapshot_closure.go])

    [ResolveSnapshotClosure] reads one channel reference and collects the keys
    of every immutable object needed to consume it: the commits back to the
    first generation, and the directories, files, symlinks and chunks of the
    current tree.  The walker keeps a stack of manifests still to be read; it
    is the state of the methods below.  [ClosureProofs] shows that the collected
    key set is exact. *)

From stdpp Require Import sorting.
From S2P Require Import Prelude.
From S2P Require Import Prog.
From S2P Require Import GoStd.
From S2P Require Import Encoding.
From S2P Require Import Sha256.
From S2P Require Import Json.
From S2P Require Import Model.
From S2P Require Import Manifests.
From S2P Require Import Effects.
From S2P Require Import Trust.
From S2P Require Import MemStore.
From S2P Require Import ClientEncryption.
From S2P Require Import Repository.
From S2P Require Import Ancestry.

Definition DefaultMaxSnapshotClosureObjects : Z := 100000.
Definition MaxSnapshotClosureObjectsLimit : Z := 1000000.
Definition DefaultMaxSnapshotClosureEdges : Z := 1000000.
Definition MaxSnapshotClosureEdgesLimit : Z := 100000000.
Definition DefaultMaxSnapshotClosureMetadataBytes : Z := Z.shiftl 512 20.
Definition MaxSnapshotClosureMetadataBytesLimit : Z := Z.shiftl 64 30.

Record SnapshotClosureOptions := {
  sco_ReferenceVerifier : option ReferenceVerifier;
  sco_MaxObjects : Z;
  sco_MaxEdges : Z;
  sco_MaxMetadataBytes : Z;
}.

Record SnapshotClosure := {
  sc_Snapshot : Snapshot;
  sc_ReferenceKey : bytes;
  sc_ReferenceData : bytes;
  sc_ReferenceVersion : Version;
  sc_ObjectKeys : list bytes;
  sc_resolutionSeal : bytes;
  sc_clientEncryptionConfigured : bool;
  sc_clientEncryptionBinding : bytes;
}.

(** ** The seal *)

Definition closureDomain : bytes :=
  str "s3disk" ++ [x00] ++ str "resolved-snapshot-closure" ++ [x00] ++ str "v1" ++ [x00].

(** What the three closures of the function write. *)
Definition writeUint64 (value : N) : bytes := BigEndian_AppendUint64 [] value.
Definition writeBytes (value : bytes) : bytes := writeUint64 (Z.to_N (len value)) ++ value.

(** [uint64(v)] of an int64. *)
Definition uint64_of (v : Z) : N := Z.to_N (v mod 2 ^ 64).

Definition closureSealInput (closure : SnapshotClosure) : bytes :=
  closureDomain ++ writeUint64 (sn_Generation (sc_Snapshot closure))
  ++ sn_Commit (sc_Snapshot closure) ++ sn_Root (sc_Snapshot closure)
  ++ writeUint64 (uint64_of (sn_PublishedAt (sc_Snapshot closure)))
  ++ writeBytes (sc_ReferenceKey closure) ++ writeBytes (sc_ReferenceData closure)
  ++ writeBytes (v_ETag (sc_ReferenceVersion closure))
  ++ writeBytes (v_VersionID (sc_ReferenceVersion closure))
  ++ writeUint64 (Z.to_N (len (sc_ObjectKeys closure)))
  ++ concat (map writeBytes (sc_ObjectKeys closure))
  ++ [if sc_clientEncryptionConfigured closure then x01 else x00]
  ++ sc_clientEncryptionBinding closure.

Definition snapshotClosureResolutionSeal (closure : SnapshotClosure) : bytes :=
  sha256 (closureSealInput closure).

Definition ValidateResolved (closure : SnapshotClosure) : result unit :=
  guard_err ((sc_resolutionSeal closure ==? zero32)
             || (sc_resolutionSeal closure !=? snapshotClosureResolutionSeal closure))
            [ErrInvalidSnapshotClosure].

Definition ValidateResolvedForClientEncryption (closure : SnapshotClosure)
    (profile : option ClientEncryptionProfile) : result unit :=
  ValidateResolved closure ?;;
  let configured := (if profile is Some _ then true else false) && configured profile in
  let binding := snapshotClosureBinding profile in
  guard_err (negb (eqb (sc_clientEncryptionConfigured closure) configured)
             || (sc_clientEncryptionBinding closure !=? binding)) [ErrInvalidSnapshotClosure].

(** ** The walker *)

Record snapshotClosureNode := {
  scn_kind : bytes;
  scn_digest : Digest;
}.
#[export] Instance snapshotClosureNode_eq_dec : EqDecision snapshotClosureNode.
Proof. solve_decision. Defined.
#[export] Instance snapshotClosureNode_countable : Countable snapshotClosureNode.
Proof.
  refine (inj_countable' (λ n, (scn_kind n, scn_digest n))
            (λ '(k, d), {| scn_kind := k; scn_digest := d |}) _).
  by intros [].
Defined.

Record snapshotClosureWork := {
  scw_node : snapshotClosureNode;
  scw_depth : Z;
}.

(** The walker's variables; its limits are parameters of the methods.  The
    slice [work] is used as a stack: its last element is the head here. *)
Record snapshotClosureWalker := {
  cw_edges : Z;
  cw_metadataBytes : Z;
  cw_keys : list bytes;
  cw_seenKeys : gset bytes;
  cw_scheduled : gset snapshotClosureNode;
  cw_work : list snapshotClosureWork;
  cw_fileSizes : gmap Digest Z;
  cw_linkSizes : gmap Digest Z;
}.

Definition snapshotClosureWalker_zero : snapshotClosureWalker :=
  {| cw_edges := 0; cw_metadataBytes := 0; cw_keys := []; cw_seenKeys := ∅; cw_scheduled := ∅;
     cw_work := []; cw_fileSizes := ∅; cw_linkSizes := ∅ |}.

Definition appendKey (k : bytes) (w : snapshotClosureWalker) : snapshotClosureWalker :=
  {| cw_edges := cw_edges w; cw_metadataBytes := cw_metadataBytes w; cw_keys := cw_keys w ++ [k];
     cw_seenKeys := {[k]} ∪ cw_seenKeys w; cw_scheduled := cw_scheduled w; cw_work := cw_work w;
     cw_fileSizes := cw_fileSizes w; cw_linkSizes := cw_linkSizes w |}.

Definition countEdge (w : snapshotClosureWalker) : snapshotClosureWalker :=
  {| cw_edges := cw_edges w + 1; cw_metadataBytes := cw_metadataBytes w; cw_keys := cw_keys w;
     cw_seenKeys := cw_seenKeys w; cw_scheduled := cw_scheduled w; cw_work := cw_work w;
     cw_fileSizes := cw_fileSizes w; cw_linkSizes := cw_linkSizes w |}.

Definition chargeMetadata (n : Z) (w : snapshotClosureWalker) : snapshotClosureWalker :=
  {| cw_edges := cw_edges w; cw_metadataBytes := cw_metadataBytes w + n; cw_keys := cw_keys w;
     cw_seenKeys := cw_seenKeys w; cw_scheduled := cw_scheduled w; cw_work := cw_work w;
     cw_fileSizes := cw_fileSizes w; cw_linkSizes := cw_linkSizes w |}.

Definition pushWork (node : snapshotClosureNode) (depth : Z) (w : snapshotClosureWalker)
    : snapshotClosureWalker :=
  {| cw_edges := cw_edges w; cw_metadataBytes := cw_metadataBytes w; cw_keys := cw_keys w;
     cw_seenKeys := cw_seenKeys w; cw_scheduled := {[node]} ∪ cw_scheduled w;
     cw_work := {| scw_node := node; scw_depth := depth |} :: cw_work w;
     cw_fileSizes := cw_fileSizes w; cw_linkSizes := cw_linkSizes w |}.

Definition popWork (rest : list snapshotClosureWork) (w : snapshotClosureWalker)
    : snapshotClosureWalker :=
  {| cw_edges := cw_edges w; cw_metadataBytes := cw_metadataBytes w; cw_keys := cw_keys w;
     cw_seenKeys := cw_seenKeys w; cw_scheduled := cw_scheduled w; cw_work := rest;
     cw_fileSizes := cw_fileSizes w; cw_linkSizes := cw_linkSizes w |}.

Definition expectFile (digest : Digest) (size : Z) (w : snapshotClosureWalker)
    : snapshotClosureWalker :=
  {| cw_edges := cw_edges w; cw_metadataBytes := cw_metadataBytes w; cw_keys := cw_keys w;
     cw_seenKeys := cw_seenKeys w; cw_scheduled := cw_scheduled w; cw_work := cw_work w;
     cw_fileSizes := <[digest := size]> (cw_fileSizes w); cw_linkSizes := cw_linkSizes w |}.

Definition expectLink (digest : Digest) (size : Z) (w : snapshotClosureWalker)
    : snapshotClosureWalker :=
  {| cw_edges := cw_edges w; cw_metadataBytes := cw_metadataBytes w; cw_keys := cw_keys w;
     cw_seenKeys := cw_seenKeys w; cw_scheduled := cw_scheduled w; cw_work := cw_work w;
     cw_fileSizes := cw_fileSizes w; cw_linkSizes := <[digest := size]> (cw_linkSizes w) |}.

(** A map read: the zero value when the key is absent. *)
Definition size_of (m : gmap Digest Z) (digest : Digest) : Z := default 0 (m !! digest).

(** The value known for a digest differs from the expected one. *)
Definition conflicting (m : gmap Digest Z) (digest : Digest) (expectedSize : Z) : bool :=
  match m !! digest with Some known => negb (known =? expectedSize) | None => false end.

Definition kindDir : bytes := str "dir".
Definition kindFile : bytes := str "file".
Definition kindSymlink : bytes := str "symlink".
Definition kindCommit : bytes := str "commit".
Definition kindChunk : bytes := str "chunk".

Section Walker.
Context `{AEAD} `{Chunker} (repository : Repository).
Context (maximumObjects maximumEdges maximumMetadataBytes : Z).
Abbreviation W := (M eff snapshotClosureWalker) (only parsing).

Definition addKey (kind : bytes) (digest : Digest) : W unit :=
  let k := objectKey repository kind digest in
  w <- mget ;;
  if bool_decide (k ∈ cw_seenKeys w) then mret tt
  else
    mguard (maximumObjects <=? len (cw_keys w)) [ErrResourceLimit] ;;;
    mmodify (appendKey k).

Definition addEdge : W unit :=
  checkCtx ;;;
  w <- mget ;;
  mguard (maximumEdges <=? cw_edges w) [ErrResourceLimit] ;;;
  mmodify countEdge.

Definition walker_getManifest {T} `{JSON T} (kind : bytes) (digest : Digest) : W T :=
  checkCtx ;;;
  w <- mget ;;
  let remaining := maximumMetadataBytes - cw_metadataBytes w in
  mguard (remaining <? 1) [ErrResourceLimit] ;;;
  let limit := if maxMetadataObjectBytes <? remaining then maxMetadataObjectBytes else remaining in
  data <- getImmutableLimited repository kind digest limit ;;
  mmodify (chargeMetadata (len data)) ;;;
  mlift (decodeJSON data).

(** The comparison of an expected size with the one known for the node. *)
Definition expectSize (node : snapshotClosureNode) (expectedSize : Z) : W unit :=
  w <- mget ;;
  if scn_kind node ==? kindFile then
    mguard (conflicting (cw_fileSizes w) (scn_digest node) expectedSize) [ErrCorruptObject] ;;;
    mmodify (expectFile (scn_digest node) expectedSize)
  else if scn_kind node ==? kindSymlink then
    mguard (conflicting (cw_linkSizes w) (scn_digest node) expectedSize) [ErrCorruptObject] ;;;
    mmodify (expectLink (scn_digest node) expectedSize)
  else mret tt.

Definition schedule (node : snapshotClosureNode) (expectedSize depth : Z) : W unit :=
  mguard (maxLookupDepth <? depth) [ErrResourceLimit] ;;;
  expectSize node expectedSize ;;;
  w <- mget ;;
  if bool_decide (node ∈ cw_scheduled w) then mret tt
  else
    addKey (scn_kind node) (scn_digest node) ;;;
    mmodify (pushWork node depth).

(** The node and the size a directory entry leads to. *)
Definition entryNode (entry : dirEntry) : option (snapshotClosureNode * Z) :=
  if de_Type entry ==? EntryDir then
    Some ({| scn_kind := kindDir; scn_digest := de_Node entry |}, -1)
  else if de_Type entry ==? EntryFile then
    Some ({| scn_kind := kindFile; scn_digest := de_Node entry |}, de_Size entry)
  else if de_Type entry ==? EntrySymlink then
    Some ({| scn_kind := kindSymlink; scn_digest := de_Node entry |}, de_Size entry)
  else None.

Fixpoint scheduleEntries (entries : list dirEntry) (depth : Z) : W unit :=
  match entries with
  | [] => mret tt
  | entry :: entries =>
      addEdge ;;;
      match entryNode entry with
      | Some (node, expectedSize) => schedule node expectedSize (depth + 1)
      | None => mfail [ErrCorruptObject]
      end ;;;
      scheduleEntries entries depth
  end.

Fixpoint addChunks (chunks : list chunkRef) : W unit :=
  match chunks with
  | [] => mret tt
  | chunk :: chunks => addEdge ;;; addKey kindChunk (cr_Digest chunk) ;;; addChunks chunks
  end.

(** One turn of the loop of walk, the popped item in hand. *)
Definition visit (item : snapshotClosureWork) : W unit :=
  let digest := scn_digest (scw_node item) in
  if scn_kind (scw_node item) ==? kindDir then
    manifest <- walker_getManifest (T:=dirManifest) kindDir digest ;;
    mlift (validateDirectoryManifest manifest) ;;;
    scheduleEntries (els (dm_Entries manifest)) (scw_depth item)
  else if scn_kind (scw_node item) ==? kindFile then
    manifest <- walker_getManifest (T:=fileManifest) kindFile digest ;;
    mlift (validateFileManifest manifest) ;;;
    w <- mget ;;
    mguard (negb (size_of (cw_fileSizes w) digest =? fm_Size manifest)) [ErrCorruptObject] ;;;
    addChunks (els (fm_Chunks manifest))
  else if scn_kind (scw_node item) ==? kindSymlink then
    manifest <- walker_getManifest (T:=symlinkManifest) kindSymlink digest ;;
    mlift (validateSymlinkManifest manifest) ;;;
    w <- mget ;;
    mguard (negb (size_of (cw_linkSizes w) digest =? len (els (sm_Target manifest))))
           [ErrCorruptObject]
  else mfail [ErrCorruptObject].

(** [fuel] bounds the turns: an item is pushed for the root and at most once
    for each edge counted. *)
Fixpoint walk (fuel : nat) : W unit :=
  w <- mget ;;
  match cw_work w with
  | [] => mret tt
  | item :: rest =>
      match fuel with
      | O => mfail errorText
      | Datatypes.S fuel =>
          checkCtx ;;;
          mmodify (popWork rest) ;;;
          visit item ;;;
          walk fuel
      end
  end.

Definition walkLimit : nat := Z.to_nat (maximumEdges + 1).

(** The loop over the ancestry: [n] more generations below this commit. *)
Fixpoint addAncestry (n : nat) (generation : N) (commitDigest : Digest) (commit : commitManifest)
    : W unit :=
  addKey kindCommit commitDigest ;;;
  match n with
  | O => mret tt
  | Datatypes.S n =>
      checkCtx ;;;
      match cm_Parent commit with
      | None => mfail [ErrSplitBrain]
      | Some parent =>
          mguard (Digest_IsZero parent) [ErrSplitBrain] ;;;
          commit <- walker_getManifest (T:=commitManifest) kindCommit parent ;;
          mlift (validateCommitManifest commit (generation - 1)) ;;;
          addAncestry n (generation - 1) parent commit
      end
  end.

(** The part of ResolveSnapshotClosure that uses the walker: the commit and the
    keys collected. *)
Definition collect (fuel : nat) (reference : snapshotReference) : W (commitManifest * list bytes) :=
  currentCommit <- walker_getManifest (T:=commitManifest) kindCommit (sr_Commit reference) ;;
  mlift (validateCommitManifest currentCommit (sr_Generation reference)) ;;;
  addAncestry (N.to_nat (sr_Generation reference - 1)) (sr_Generation reference)
    (sr_Commit reference) currentCommit ;;;
  schedule {| scn_kind := kindDir; scn_digest := cm_Root currentCommit |} (-1) 0 ;;;
  walk fuel ;;;
  w <- mget ;;
  mret (currentCommit, cw_keys w).
End Walker.

(** ** The resolution *)

(** [sort.Strings]. *)
Definition bytes_le (a b : bytes) : Prop := bytes_Compare a b ≠ Gt.
#[export] Instance bytes_le_dec a b : Decision (bytes_le a b).
Proof. unfold bytes_le. apply _. Defined.
Definition sort_Strings (l : list bytes) : list bytes := merge_sort bytes_le l.

(** A limit: its default when zero, refused outside its range. *)
Definition closureLimit (value default limit : Z) : result Z :=
  let value := if value =? 0 then default else value in
  guard_err ((value <? 1) || (limit <? value)) [ErrResourceLimit] ?;;
  Ok value.

(** A function that owns a local variable of type [W], here the walker. *)
Definition with_local {S W A} (w : W) (m : M eff W A) : M eff S A :=
  λ s, prog_bind (m w) (λ '(_, r), Ret (s, r)).

Definition ResolveSnapshotClosure `{AEAD} `{Chunker} {S} (repository : option Repository)
    (channel : bytes) (options : SnapshotClosureOptions) : M eff S SnapshotClosure :=
  match repository with
  | None => mfail [ErrStoreMisconfigured]
  | Some repository =>
      mguard (negb (sv_configured (rp_reader repository))) [ErrStoreMisconfigured] ;;;
      mguard (match sco_ReferenceVerifier options with
              | Some v => negb (rv_configured v) | None => false end) errorText ;;;
      mlift (Repository_validateChannel repository channel) ;;;
      maximumObjects <- mlift (closureLimit (sco_MaxObjects options)
        DefaultMaxSnapshotClosureObjects MaxSnapshotClosureObjectsLimit) ;;
      maximumEdges <- mlift (closureLimit (sco_MaxEdges options)
        DefaultMaxSnapshotClosureEdges MaxSnapshotClosureEdgesLimit) ;;
      maximumMetadataBytes <- mlift (closureLimit (sco_MaxMetadataBytes options)
        DefaultMaxSnapshotClosureMetadataBytes MaxSnapshotClosureMetadataBytesLimit) ;;
      ' (reference, referenceObject) <- getReferenceWithVerifier repository channel []
                                          (sco_ReferenceVerifier options) ;;
      mguard (Z.to_N maximumObjects <? sr_Generation reference)%N [ErrResourceLimit] ;;;
      ' (currentCommit, keys) <- with_local snapshotClosureWalker_zero
        (collect repository maximumObjects maximumEdges maximumMetadataBytes
           (walkLimit maximumEdges) reference) ;;
      let closure seal :=
        {| sc_Snapshot :=
             {| sn_Generation := sr_Generation reference; sn_Commit := sr_Commit reference;
                sn_Root := cm_Root currentCommit;
                sn_PublishedAt := cm_PublishedAtUnix currentCommit |};
           sc_ReferenceKey := match sco_ReferenceVerifier options with
                              | Some _ => SignedReferenceKey repository channel
                              | None => ReferenceKey repository channel
                              end;
           sc_ReferenceData := ob_Data referenceObject;
           sc_ReferenceVersion := ob_Version referenceObject;
           sc_ObjectKeys := sort_Strings keys;
           sc_resolutionSeal := seal;
           sc_clientEncryptionConfigured :=
             match rp_clientEncryption repository with Some _ => true | None => false end;
           sc_clientEncryptionBinding := snapshotClosureBinding (rp_clientEncryption repository) |} in
      mret (closure (snapshotClosureResolutionSeal (closure zero32)))
  end.
