(* ===== verification/Consumer.v ===== *)
(** * The consumer ([consumer.go], [consumer_security.go])

    A read-only view of one channel that only moves forward.  The fields that
    never change are the record [Consumer]; the ones [Refresh] changes, which
    it does under the refresh gate, are the state of the methods.  The metadata
    cache and the flight groups are shared with concurrent readers and are
    reached by calls. *)

From S2P Require Import Prelude.
From S2P Require Import Prog.
From S2P Require Import GoStd.
From S2P Require Import Encoding.
From S2P Require Import Sha256.
From S2P Require Import Json.
From S2P Require Import Model.
From S2P Require Import Manifests.
From S2P Require Import Effects.
From S2P Require Import Trust.
From S2P Require Import MemStore.
From S2P Require Import ClientEncryption.
From S2P Require Import Repository.
From S2P Require Import Ancestry.

(** ** Construction *)

Inductive RefreshStatus :=
| RefreshUnchanged | RefreshUpdated | RefreshNoSnapshot | RefreshStaleIgnored.

Record RefreshResult := {
  rr_Status : RefreshStatus;
  rr_Generation : N;
}.
Definition RefreshResult_zero : RefreshResult :=
  {| rr_Status := RefreshUnchanged; rr_Generation := 0 |}.

Definition DefaultMaxConcurrentDownloadBytes : Z := maxChunkObjectBytes.
Definition MaxConcurrentDownloadBytesLimit : Z := 1024 * maxChunkObjectBytes.
Definition defaultMetadataCacheEntries : Z := 4096.
Definition defaultMetadataCacheBytes : Z := Z.shiftl 64 20.
Definition maxMetadataCacheBytes : Z := Z.shiftl 1 30.

(** An optional interface value: nil, a typed nil, or a usable one. *)
Inductive dependency (A : Type) :=
| Nil | TypedNil | Configured (a : A).
Arguments Nil {A}.
Arguments TypedNil {A}.
Arguments Configured {A} _.

Definition interfaceDependencyConfigured {A} (d : dependency A) : bool :=
  match d with Configured _ => true | _ => false end.
Definition is_nil {A} (d : dependency A) : bool :=
  match d with Nil => true | _ => false end.
Definition the {A} (d : dependency A) : option A :=
  match d with Configured a => Some a | _ => None end.

(** What a verifier tells the constructor: whether it is the built-in one. *)
Record VerifierValue := {
  vv_verifier : ReferenceVerifier;
  vv_offline : bool;
}.
Definition IsOfflineReferenceVerifier (v : VerifierValue) : bool := vv_offline v.

Record ConsumerOptions := {
  cop_Cache : dependency unit;
  cop_Watermarks : dependency unit;
  cop_RequirePersistentWatermark : bool;
  cop_ReferenceVerifier : dependency VerifierValue;
  cop_DangerouslyAllowCustomReferenceVerifier : bool;
  cop_TrustedCheckpoint : option Watermark;
  cop_AllowTrustOnFirstUse : bool;
  cop_Symlinks : SymlinkPolicy;
  cop_MetadataCacheEntries : Z;
  cop_MetadataCacheBytes : Z;
  cop_MaxConcurrentDownloads : Z;
  cop_MaxConcurrentDownloadBytes : Z;
  cop_StrictCacheErrors : bool;
  cop_OnCacheError : bool;
}.

Record Consumer := {
  cn_repository : Repository;
  cn_channel : bytes;
  cn_cache : bool;
  cn_watermarks : bool;
  cn_referenceVerifier : option ReferenceVerifier;
  cn_trustedCheckpoint : option Watermark;
  cn_allowTrustOnFirstUse : bool;
  cn_symlinkPolicy : SymlinkPolicy;
  cn_strictCacheErrors : bool;
  cn_onCacheError : bool;
  cn_downloadSlots : Z;
  cn_downloadBytes : Z;
  cn_metadataEntries : Z;
  cn_metadataBytes : Z;
}.

Definition or_default (value default : Z) : Z := if value =? 0 then default else value.

(** The trust-state checks of NewConsumer. *)
Definition checkTrustOptions (repository : Repository) (options : ConsumerOptions) : result unit :=
  match the (cop_ReferenceVerifier options) with
  | Some v =>
      let id := rv_RepositoryID (vv_verifier v) in
      guard_err (RepositoryID_IsZero id) [ErrUntrustedReference] ?;;
      match rp_descriptor repository with
      | Some d => guard_err (id !=? rd_RepositoryID d) [ErrUntrustedReference]
      | None => Ok tt
      end ?;;
      guard_err (is_nil (cop_Watermarks options)) [ErrTrustStateRequired] ?;;
      match cop_TrustedCheckpoint options with
      | Some checkpoint =>
          guard_err ((wm_RepositoryID checkpoint !=? id) || (wm_Generation checkpoint ==? 0%N)
                     || Digest_IsZero (wm_Commit checkpoint)) [ErrUntrustedReference]
      | None => Ok tt
      end
  | None =>
      guard_err ((cop_TrustedCheckpoint options !=? None) || cop_AllowTrustOnFirstUse options)
                errorText
  end.

Definition NewConsumer (repository : option Repository) (channel : bytes) (options : ConsumerOptions)
    : result Consumer :=
  match repository with
  | None => Err errorText
  | Some repository =>
      Repository_validateChannel repository channel ?;;
      guard_err (negb (is_nil (cop_Cache options))
                 && negb (interfaceDependencyConfigured (cop_Cache options))) errorText ?;;
      guard_err (negb (is_nil (cop_Watermarks options))
                 && negb (interfaceDependencyConfigured (cop_Watermarks options))) errorText ?;;
      guard_err (negb (is_nil (cop_ReferenceVerifier options))
                 && negb (interfaceDependencyConfigured (cop_ReferenceVerifier options)))
                errorText ?;;
      guard_err (negb (cop_DangerouslyAllowCustomReferenceVerifier options)
                 && match the (cop_ReferenceVerifier options) with
                    | Some v => negb (IsOfflineReferenceVerifier v) | None => false end)
                errorText ?;;
      guard_err (cop_RequirePersistentWatermark options && is_nil (cop_Watermarks options))
                errorText ?;;
      checkTrustOptions repository options ?;;
      let entries := or_default (cop_MetadataCacheEntries options) defaultMetadataCacheEntries in
      guard_err ((entries <? 1) || (1000000 <? entries)) errorText ?;;
      let bytes_ := or_default (cop_MetadataCacheBytes options) defaultMetadataCacheBytes in
      guard_err ((bytes_ <? 1) || (maxMetadataCacheBytes <? bytes_)) errorText ?;;
      let downloads := or_default (cop_MaxConcurrentDownloads options) 8 in
      guard_err ((downloads <? 1) || (1024 <? downloads)) errorText ?;;
      let charge := or_default (cop_MaxConcurrentDownloadBytes options)
                      DefaultMaxConcurrentDownloadBytes in
      guard_err ((charge <? maxChunkObjectBytes) || (MaxConcurrentDownloadBytesLimit <? charge))
                [ErrResourceLimit] ?;;
      Ok {| cn_repository := repository; cn_channel := channel;
            cn_cache := negb (is_nil (cop_Cache options));
            cn_watermarks := negb (is_nil (cop_Watermarks options));
            cn_referenceVerifier := option_map vv_verifier (the (cop_ReferenceVerifier options));
            cn_trustedCheckpoint := cop_TrustedCheckpoint options;
            cn_allowTrustOnFirstUse := cop_AllowTrustOnFirstUse options;
            cn_symlinkPolicy := cop_Symlinks options;
            cn_strictCacheErrors := cop_StrictCacheErrors options;
            cn_onCacheError := cop_OnCacheError options;
            cn_downloadSlots := downloads; cn_downloadBytes := charge;
            cn_metadataEntries := entries; cn_metadataBytes := bytes_ |}
  end.

Record ConsumerSecurityStatus := {
  css_DurableWatermarkConfigured : bool;
  css_SymlinkPolicy : SymlinkPolicy;
  css_ReferenceAuthenticationConfigured : bool;
}.

Definition SecurityStatus (consumer : option Consumer) : ConsumerSecurityStatus :=
  match consumer with
  | None => {| css_DurableWatermarkConfigured := false;
               css_SymlinkPolicy := SymlinkRejectExternal;
               css_ReferenceAuthenticationConfigured := false |}
  | Some c => {| css_DurableWatermarkConfigured := cn_watermarks c;
                 css_SymlinkPolicy := cn_symlinkPolicy c;
                 css_ReferenceAuthenticationConfigured :=
                   match cn_referenceVerifier c with Some _ => true | None => false end |}
  end.

(** ** Shared loads *)

Record adoptedSnapshot := {
  as_reference : snapshotReference;
  as_commit : commitManifest;
  as_version : Version;
}.

Record ConsumerState := {
  cs_state : option adoptedSnapshot;
  cs_watermark : Watermark;
  cs_watermarkLoaded : bool;
  cs_checkpointValidated : Watermark;
}.

(** A new Consumer. *)
Definition ConsumerState_zero : ConsumerState :=
  {| cs_state := None; cs_watermark := Watermark_zero; cs_watermarkLoaded := false;
     cs_checkpointValidated := Watermark_zero |}.

Definition set_state (x : option adoptedSnapshot) (s : ConsumerState) : ConsumerState :=
  {| cs_state := x; cs_watermark := cs_watermark s; cs_watermarkLoaded := cs_watermarkLoaded s;
     cs_checkpointValidated := cs_checkpointValidated s |}.
Definition set_watermark (x : Watermark) (s : ConsumerState) : ConsumerState :=
  {| cs_state := cs_state s; cs_watermark := x; cs_watermarkLoaded := cs_watermarkLoaded s;
     cs_checkpointValidated := cs_checkpointValidated s |}.
Definition set_loaded (x : bool) (s : ConsumerState) : ConsumerState :=
  {| cs_state := cs_state s; cs_watermark := cs_watermark s; cs_watermarkLoaded := x;
     cs_checkpointValidated := cs_checkpointValidated s |}.
Definition set_validated (x : Watermark) (s : ConsumerState) : ConsumerState :=
  {| cs_state := cs_state s; cs_watermark := cs_watermark s;
     cs_watermarkLoaded := cs_watermarkLoaded s; cs_checkpointValidated := x |}.

(** The types that are cached, with the type switch of getTypedMetadata. *)
Class CachedMetadata (T : Type) `{JSON T} := {
  inject : T → metadataValue;
  project : metadataValue → option T;
  cached_kind : bytes;
  cached_check : T → result unit;
}.

#[export] Instance dir_cached : CachedMetadata dirManifest := {
  inject := MV_dir;
  project v := if v is MV_dir m then Some m else None;
  cached_kind := str "dir";
  cached_check := validateDirectoryManifest;
}.
#[export] Instance file_cached `{Chunker} : CachedMetadata fileManifest := {
  inject := MV_file;
  project v := if v is MV_file m then Some m else None;
  cached_kind := str "file";
  cached_check := validateFileManifest;
}.
#[export] Instance symlink_cached : CachedMetadata symlinkManifest := {
  inject := MV_symlink;
  project v := if v is MV_symlink m then Some m else None;
  cached_kind := str "symlink";
  cached_check := validateSymlinkManifest;
}.

(** [getTypedMetadata] on the cache's answer. *)
Definition typed {T} `{CachedMetadata T} (hit : option metadataValue) : option T :=
  match hit with Some v => project v | None => None end.

Section Loads.
Context `{AEAD}.
Variable consumer : Consumer.
Abbreviation C := (M eff ConsumerState) (only parsing).

(** The returned release function is the pair of release calls below. *)
Definition acquireDownload (byteCharge : Z) : C unit :=
  mcalle Download_Slot ;;;
  acquired <- mtry (mcalle (Download_Bytes byteCharge)) ;;
  match acquired with
  | Ok _ => mret tt
  | Err err => mcall Download_Release_Slot ;;; mfail err
  end.
Definition releaseDownload (byteCharge : Z) : C unit :=
  mcall (Download_Release_Bytes byteCharge) ;;;
  mcall Download_Release_Slot.

(** [defer release()]. *)
Definition withDownload {A} (byteCharge : Z) (body : C A) : C A :=
  acquireDownload byteCharge ;;;
  r <- mtry body ;;
  releaseDownload byteCharge ;;;
  mlift r.

Definition downloadManifest {T} `{JSON T} (kind : bytes) (digest : Digest) : C T :=
  withDownload maxMetadataObjectBytes (getManifest (T:=T) (cn_repository consumer) kind digest).

Definition dropData (object : Object) : Object :=
  {| ob_Data := []; ob_Version := ob_Version object |}.

Definition downloadReference (ifNoneMatch : bytes) : C (snapshotReference * Object) :=
  ' (reference, object) <- withDownload maxReferenceBytes
      (getReferenceWithVerifier (cn_repository consumer) (cn_channel consumer) ifNoneMatch
         (cn_referenceVerifier consumer)) ;;
  mret (reference, dropData object).

(** [metadataFlight.Do]; a loader panic is an error. *)
Definition metadataFlight_Do (key : metadataCacheKey) (load : C metadataValue) : C metadataValue :=
  checkCtx ;;;
  joined <- mcall (Meta_Flight key) ;;
  match joined with
  | Some r => mlift r
  | None =>
      r <- mtry load ;;
      mcalle (Meta_Done key r) ;;;
      mlift r
  end.

(** loadDirectory, loadFile and loadSymlink, which differ in the type only. *)
Definition loadMetadata (T : Type) `{CachedMetadata T} (digest : Digest) : C T :=
  let key := {| mk_kind := cached_kind; mk_digest := digest |} in
  hit <- mcall (Meta_Get key) ;;
  match typed hit with
  | Some value => mret value
  | None =>
      loaded <- metadataFlight_Do key (
        hit <- mcall (Meta_Get key) ;;
        match typed (T:=T) hit with
        | Some value => mret (inject value)
        | None =>
            manifest <- downloadManifest (T:=T) cached_kind digest ;;
            mlift (cached_check manifest) ;;;
            stored <- mcall (Meta_Put key (inject manifest)) ;;
            match project (T:=T) stored with
            | Some value => mret (inject value)
            | None => mfail errorText
            end
        end) ;;
      match project loaded with
      | Some manifest => mret manifest
      | None => mfail [ErrCorruptObject]
      end
  end.

Definition loadDirectory (digest : Digest) : C dirManifest := loadMetadata dirManifest digest.
Definition loadFile `{Chunker} (digest : Digest) : C fileManifest := loadMetadata fileManifest digest.
Definition loadSymlink (digest : Digest) : C symlinkManifest := loadMetadata symlinkManifest digest.

(** Commits are coalesced but not cached. *)
Definition Consumer_getManifest (digest : Digest) : C commitManifest :=
  let key := {| mk_kind := str "commit"; mk_digest := digest |} in
  loaded <- metadataFlight_Do key (
    manifest <- downloadManifest (T:=commitManifest) (str "commit") digest ;;
    mret (MV_commit manifest)) ;;
  match loaded with
  | MV_commit manifest => mret manifest
  | _ => mfail [ErrCorruptObject]
  end.

Definition Consumer_validateDescendant (reference : snapshotReference) (commit : commitManifest)
    (anchor : Watermark) : C unit :=
  mguard (maxCommitWalk <? u64_sub (sr_Generation reference) (wm_Generation anchor))%N
         [ErrResourceLimit] ;;;
  parent <- walkAncestors Consumer_getManifest true
              (N.to_nat (sr_Generation reference - 1 - wm_Generation anchor))
              (u64_sub (sr_Generation reference) 1) (cm_Parent commit) ;;
  mguard (parent !=? Some (wm_Commit anchor)) [ErrSplitBrain].
End Loads.

(** ** Trust state and refresh *)

Section Refresh.
Context `{AEAD}.
Variable consumer : Consumer.
Abbreviation C := (M eff ConsumerState) (only parsing).

Definition watermarkID : RepositoryID :=
  match cn_referenceVerifier consumer with
  | Some v => rv_RepositoryID v
  | None => RepositoryID_zero
  end.

(** The part of validateWatermarkCheckpoint after the process's own anchor. *)
Definition walkWatermarkCheckpoint (watermark checkpoint anchor : Watermark) : C unit :=
  if wm_RepositoryID watermark !=? wm_RepositoryID checkpoint then mfail [ErrUntrustedReference]
  else if (wm_Generation watermark <? wm_Generation checkpoint)%N then mfail [ErrRollbackDetected]
  else if wm_Generation watermark ==? wm_Generation checkpoint then
    mguard (wm_Commit watermark !=? wm_Commit checkpoint) [ErrSplitBrain] ;;;
    mmodify (set_validated watermark)
  else
    commit <- Consumer_getManifest consumer (wm_Commit watermark) ;;
    mlift (validateCommitManifest commit (wm_Generation watermark)) ;;;
    let reference := {| sr_Format := objectFormatVersion; sr_Generation := wm_Generation watermark;
                        sr_Commit := wm_Commit watermark |} in
    Consumer_validateDescendant consumer reference commit anchor ;;;
    mmodify (set_validated watermark).

Definition validateWatermarkCheckpoint (watermark checkpoint : Watermark) : C unit :=
  s <- mget ;;
  let validated := cs_checkpointValidated s in
  if negb (Digest_IsZero (wm_Commit validated)) then
    if (wm_Generation watermark <? wm_Generation validated)%N then mfail [ErrRollbackDetected]
    else if (wm_Generation watermark ==? wm_Generation validated)
            && (wm_Commit watermark !=? wm_Commit validated) then mfail [ErrSplitBrain]
    else if watermark ==? validated then mret tt
    else walkWatermarkCheckpoint watermark checkpoint validated
  else walkWatermarkCheckpoint watermark checkpoint checkpoint.

(** A durable watermark the store reported. *)
Definition acceptWatermark (watermark : Watermark) : C unit :=
  mguard ((wm_Generation watermark ==? 0%N) || Digest_IsZero (wm_Commit watermark))
         [ErrCorruptObject] ;;;
  mguard (wm_RepositoryID watermark !=? watermarkID) [ErrUntrustedReference] ;;;
  match cn_trustedCheckpoint consumer with
  | Some checkpoint => validateWatermarkCheckpoint watermark checkpoint
  | None => mret tt
  end ;;;
  mmodify (set_watermark watermark).

(** No watermark is stored: the checkpoint becomes the first one. *)
Definition installCheckpoint (checkpoint : Watermark) : C bool :=
  cas <- mcall (WM_CompareAndSwap (cn_channel consumer) None checkpoint) ;;
  match cas with
  | None => mmodify (set_watermark checkpoint) ;;; mret true
  | Some _ =>
      loaded <- mcallr (WM_Load (cn_channel consumer)) ;;
      match loaded with
      | None => mfail [ErrUntrustedReference]
      | Some watermark =>
          mguard ((wm_RepositoryID watermark !=? wm_RepositoryID checkpoint)
                  || (wm_Generation watermark <? wm_Generation checkpoint)%N
                  || ((wm_Generation watermark ==? wm_Generation checkpoint)
                      && (wm_Commit watermark !=? wm_Commit checkpoint)))
                 [ErrUntrustedReference] ;;;
          validateWatermarkCheckpoint watermark checkpoint ;;;
          mmodify (set_watermark watermark) ;;;
          mret true
      end
  end.

(** The comparison of a stored watermark with the checkpoint, or the start
    from the checkpoint; answers whether a watermark is now known to be
    stored. *)
Definition applyCheckpoint (loaded : option Watermark) : C bool :=
  match cn_referenceVerifier consumer, cn_trustedCheckpoint consumer, loaded with
  | Some _, Some checkpoint, Some watermark =>
      mguard (wm_Generation watermark <? wm_Generation checkpoint)%N [ErrRollbackDetected] ;;;
      mguard ((wm_Generation watermark ==? wm_Generation checkpoint)
              && (wm_Commit watermark !=? wm_Commit checkpoint)) [ErrSplitBrain] ;;;
      mret true
  | Some _, Some checkpoint, None => installCheckpoint checkpoint
  | Some _, None, None =>
      mguard (negb (cn_allowTrustOnFirstUse consumer)) [ErrTrustStateRequired] ;;;
      mret false
  | _, _, Some _ => mret true
  | None, _, None => mret false
  end.

Definition loadWatermark : C unit :=
  s <- mget ;;
  if cs_watermarkLoaded s then mret tt
  else if negb (cn_watermarks consumer) then mmodify (set_loaded true)
  else
    loaded <- mcallr (WM_Load (cn_channel consumer)) ;;
    match loaded with
    | None => mmodify (set_watermark Watermark_zero)
    | Some watermark => acceptWatermark watermark
    end ;;;
    found <- applyCheckpoint loaded ;;
    s <- mget ;;
    match cs_state s with
    | None => mret tt
    | Some current =>
        mguard (negb found && (wm_Generation (cs_watermark s) ==? 0%N)) [ErrTrustStateRequired] ;;;
        if (0 <? wm_Generation (cs_watermark s))%N then
          mguard (wm_Generation (cs_watermark s) <? sr_Generation (as_reference current))%N
                 [ErrRollbackDetected] ;;;
          mguard ((wm_Generation (cs_watermark s) ==? sr_Generation (as_reference current))
                  && (wm_Commit (cs_watermark s) !=? sr_Commit (as_reference current)))
                 [ErrSplitBrain]
        else mret tt
    end ;;;
    mmodify (set_loaded true).

Definition persistConsumerWatermark (expected : option Watermark) (next : Watermark) : C unit :=
  cas <- mcall (WM_CompareAndSwap (cn_channel consumer) expected next) ;;
  match cas with
  | None => mret tt
  | Some err =>
      loaded <- mtry (mcallr (WM_Load (cn_channel consumer))) ;;
      match loaded with
      | Err loadErr => mmodify (set_loaded false) ;;; mfail loadErr
      | Ok (Some observed) =>
          mguard ((wm_RepositoryID observed !=? wm_RepositoryID next)
                  || (wm_Generation observed ==? 0%N) || Digest_IsZero (wm_Commit observed))
                 [ErrUntrustedReference] ;;;
          if observed ==? next then mmodify (set_watermark observed)
          else if wm_Generation observed ==? wm_Generation next then mfail [ErrSplitBrain]
          else if (wm_Generation next <? wm_Generation observed)%N then
            mmodify (set_watermark observed) ;;; mfail [ErrPrecondition]
          else mmodify (set_loaded false) ;;; mfail err
      | Ok None => mmodify (set_loaded false) ;;; mfail err
      end
  end.

Definition refreshResult (snapshot : option adoptedSnapshot) (status : RefreshStatus)
    : RefreshResult :=
  {| rr_Status := status;
     rr_Generation := match snapshot with
       | Some a => sr_Generation (as_reference a) | None => 0%N end |}.

Definition watermarkOf (reference : snapshotReference) : Watermark :=
  {| wm_RepositoryID := watermarkID; wm_Generation := sr_Generation reference;
     wm_Commit := sr_Commit reference |}.

(** Validation and adoption of a reference newer than the current snapshot. *)
Definition adoptNewer (current : option adoptedSnapshot) (reference : snapshotReference)
    (object : Object) : C adoptedSnapshot :=
  commit <- Consumer_getManifest consumer (sr_Commit reference) ;;
  mlift (validateCommitManifest commit (sr_Generation reference)) ;;;
  s <- mget ;;
  anchor <-
    match current with
    | None => mret (cs_watermark s)
    | Some c =>
        let currentWatermark := watermarkOf (as_reference c) in
        if (wm_Generation (cs_watermark s) <? wm_Generation currentWatermark)%N
        then mret currentWatermark
        else
          mguard ((wm_Generation currentWatermark ==? wm_Generation (cs_watermark s))
                  && (wm_Commit currentWatermark !=? wm_Commit (cs_watermark s))) [ErrSplitBrain] ;;;
          mret (cs_watermark s)
    end ;;
  (if (0 <? wm_Generation anchor)%N && (wm_Generation anchor <? sr_Generation reference)%N
   then Consumer_validateDescendant consumer reference commit anchor else mret tt) ;;;
  loadDirectory consumer (cm_Root commit) ;;;
  let watermark := watermarkOf reference in
  (if cn_watermarks consumer && (wm_Generation (cs_watermark s) <? wm_Generation watermark)%N then
     persistConsumerWatermark
       (if (0 <? wm_Generation (cs_watermark s))%N then Some (cs_watermark s) else None) watermark
   else mret tt) ;;;
  s <- mget ;;
  (if (wm_Generation (cs_watermark s) <=? wm_Generation watermark)%N
   then mmodify (set_watermark watermark) else mret tt) ;;;
  let adopted := {| as_reference := reference; as_commit := commit;
                    as_version := ob_Version object |} in
  mmodify (set_state (Some adopted)) ;;;
  mret adopted.

(** The comparison of a downloaded reference with what is known. *)
Definition classifyReference (current : option adoptedSnapshot) (reference : snapshotReference)
    (object : Object) : C (RefreshResult * option error) :=
  s <- mget ;;
  let w := cs_watermark s in
  let ahead := (0 <? wm_Generation w)%N
    && match current with
       | None => true
       | Some c => (sr_Generation (as_reference c) <? wm_Generation w)%N
       end in
  let adopt :=
    r <- mtry (adoptNewer current reference object) ;;
    match r with
    | Ok adopted => mret (refreshResult (Some adopted) RefreshUpdated, None)
    | Err err => mret (refreshResult current RefreshUnchanged, Some err)
    end in
  if ahead && (sr_Generation reference <? wm_Generation w)%N then
    mret (refreshResult current RefreshStaleIgnored, Some [ErrRollbackDetected])
  else if ahead && (sr_Generation reference ==? wm_Generation w)
          && (sr_Commit reference !=? wm_Commit w) then
    mret (refreshResult current RefreshUnchanged, Some [ErrSplitBrain])
  else
    match current with
    | None => adopt
    | Some c =>
        if (sr_Generation reference <? sr_Generation (as_reference c))%N then
          mret (refreshResult current RefreshStaleIgnored, None)
        else if (sr_Generation reference ==? sr_Generation (as_reference c))
                && (sr_Commit reference !=? sr_Commit (as_reference c)) then
          mret (refreshResult current RefreshUnchanged, Some [ErrSplitBrain])
        else if sr_Generation reference ==? sr_Generation (as_reference c) then
          mmodify (set_state (Some {| as_reference := as_reference c; as_commit := as_commit c;
                                      as_version := ob_Version object |})) ;;;
          mret (refreshResult current RefreshUnchanged, None)
        else adopt
    end.

Definition ifNoneMatchOf (s : ConsumerState) : bytes :=
  match cs_state s with
  | None => []
  | Some c =>
      if (wm_Generation (cs_watermark s) ==? 0%N)
         || ((wm_Generation (cs_watermark s) ==? sr_Generation (as_reference c))
             && (wm_Commit (cs_watermark s) ==? sr_Commit (as_reference c)))
      then v_ETag (as_version c) else []
  end.

(** Refresh with the gate held; a (result, err) pair, since the result is
    meaningful in both cases. *)
Definition refreshLocked : C (RefreshResult * option error) :=
  (if cn_watermarks consumer then mmodify (set_loaded false) else mret tt) ;;;
  loaded <- mtry loadWatermark ;;
  match loaded with
  | Err err => mret (RefreshResult_zero, Some err)
  | Ok _ =>
      s <- mget ;;
      let current := cs_state s in
      got <- mtry (downloadReference consumer (ifNoneMatchOf s)) ;;
      match got with
      | Ok (reference, object) => classifyReference current reference object
      | Err err =>
          if errors_Is err ErrNotModified then mret (refreshResult current RefreshUnchanged, None)
          else if errors_Is err ErrObjectNotFound then
            match current with
            | None =>
                if (0 <? wm_Generation (cs_watermark s))%N
                then mret (RefreshResult_zero, Some [ErrRollbackDetected])
                else mret ({| rr_Status := RefreshNoSnapshot; rr_Generation := 0 |}, None)
            | Some c =>
                if (sr_Generation (as_reference c) <? wm_Generation (cs_watermark s))%N
                then mret (refreshResult current RefreshStaleIgnored, Some [ErrRollbackDetected])
                else mret (refreshResult current RefreshUnchanged, None)
            end
          else mret (refreshResult current RefreshUnchanged, Some err)
      end
  end.

Definition Refresh : C (RefreshResult * option error) :=
  gate <- mcall Refresh_Gate ;;
  match gate with
  | Some err => mret (RefreshResult_zero, Some err)
  | None =>
      r <- mtry refreshLocked ;;
      mcall Refresh_Gate_Release ;;;
      mlift r
  end.

Definition CurrentSnapshot (s : ConsumerState) : option Snapshot :=
  match cs_state s with
  | None => None
  | Some a => Some {| sn_Generation := sr_Generation (as_reference a);
                      sn_Commit := sr_Commit (as_reference a); sn_Root := cm_Root (as_commit a);
                      sn_PublishedAt := cm_PublishedAtUnix (as_commit a) |}
  end.
End Refresh.
