(* ===== verification/ConsumerProofs.v ===== *)
(** * Proofs about the consumer

    What a consumer may do (its guarantee towards the store, the watermark
    store and the other readers of the process), what it relies on, and that
    its view only moves forward along the commit history. *)

From S2P Require Import Prelude.
From S2P Require Import Prog.
From S2P Require Import GoStd.
From S2P Require Import Encoding.
From S2P Require Import Sha256.
From S2P Require Import Json.
From S2P Require Import Model.
From S2P Require Import Manifests.
From S2P Require Import Effects.
From S2P Require Import Trust.
From S2P Require Import MemStore.
From S2P Require Import ClientEncryption.
From S2P Require Import Repository.
From S2P Require Import Ancestry.
From S2P Require Import Consumer.

(** ** Discipline *)

(** A decoded manifest that readers may share under a key. *)
Definition meta_ok {U : Hashed} `{Chunker} (key : metadataCacheKey) (v : metadataValue) : Prop :=
  match v with
  | MV_dir m => mk_kind key = str "dir" ∧ named_by (str "dir") (mk_digest key) m ∧
      validateDirectoryManifest m = Ok tt
  | MV_file m => mk_kind key = str "file" ∧ named_by (str "file") (mk_digest key) m ∧
      validateFileManifest m = Ok tt
  | MV_symlink m => mk_kind key = str "symlink" ∧ named_by (str "symlink") (mk_digest key) m ∧
      validateSymlinkManifest m = Ok tt
  | MV_commit m => mk_kind key = str "commit" ∧ named_by (str "commit") (mk_digest key) m
  end.

(** A chunk that readers may share. *)
Definition shared_chunk {U : Hashed} (digest : Digest) (size : Z) (data : bytes) : Prop :=
  len data = size ∧ object_of (str "chunk") digest data.

(** The watermark store held the watermark at some time. *)
Definition known (channel : bytes) (h : history eff) (w : Watermark) : Prop :=
  Ev (WM_Load channel) (Ok (Some w)) ∈ h ∨
  ∃ expected, Ev (WM_CompareAndSwap channel expected w) None ∈ h.

Lemma known_mono channel h k w : known channel h w → known channel (h ++ k) w.
Proof. intros [Hr|[e Hr]]; [left|right; exists e]; apply elem_of_app; by left. Qed.

Lemma known_reads channel h h' w : ext_reads h h' → known channel h w → known channel h' w.
Proof. intros (k & -> & _). apply known_mono. Qed.

Section Discipline.
Context {U : Hashed} `{AEADLaws} `{Chunker}.
Variable consumer : Consumer.
Abbreviation channel := (cn_channel consumer).

(** A consumer never writes to the object store and never touches the
    publication journal; it gives other readers only manifests and chunks that
    hash to their names and pass the checks; and it advances the watermark only
    along the commit history. *)
Definition consumer_protocol : guarantee eff := λ h X e,
  match e with
  | Store_PutIfAbsent _ _ | Store_CompareAndSwap _ _ _ => False
  | PJ_Load _ | PJ_CompareAndSwap _ _ _ => False
  | WM_Load c => c = channel
  | WM_CompareAndSwap c expected next =>
      c = channel ∧ lineage expected (Some next) ∧
      lineage (cn_trustedCheckpoint consumer) (Some next)
  | Meta_Put k v => meta_ok k v
  | Meta_Done k r => ∀ v, r = Ok v → meta_ok k v
  | Chunk_Done d n r _ => ∀ data, r = Ok data → shared_chunk d n data
  | Cache_Put d data => digestObject (str "chunk") data = d
  | _ => True
  end.

(** Other readers and processes follow the same discipline: what they share is
    checked, and the durable watermark moves along the history.  What the store
    and the chunk cache answer is anything; [hashed] has the objects among it. *)
Definition consumer_rely : rely eff := λ h X e x,
  match e in eff T return T → Prop with
  | Store_Get key o => λ x, ∀ ob kind d data, x = Ok ob → key = objectKey (cn_repository consumer) kind d →
      sv_open (rp_reader (cn_repository consumer)) key (ob_Data ob) = Ok data → hashed_object kind data
  | Cache_Get _ _ => λ x, ∀ data, x = Ok (Some data) → hashed_object (str "chunk") data
  | Meta_Get k => λ x, ∀ v, x = Some v → meta_ok k v
  | Meta_Put k _ => λ x, meta_ok k x
  | Meta_Flight k => λ x, ∀ v, x = Some (Ok v) → meta_ok k v
  | Chunk_Flight d n => λ x, ∀ data, x = Some (Ok data) → shared_chunk d n data
  | WM_Load c => λ x, ∀ w, x = Ok (Some w) → (wm_Generation w ≤ u64_max)%N ∧
      ∀ w0, known c h w0 → lineage (Some w0) (Some w)
  | _ => λ _, True
  end x.
Abbreviation G := consumer_protocol.
Abbreviation R := consumer_rely.

Lemma consumer_reads : reads_free G.
Proof. intros h X e He. by destruct e. Qed.

Lemma consumer_hashing : hashing (cn_repository consumer) R.
Proof. intros h kind d o ob data Hr Ho. by eapply Hr. Qed.

(** *** Loads *)

Lemma reading_call {S X} (e : eff X) (P : result X → Prop) :
  is_local e = true → (∀ h, G h _ e) → (∀ h x, R h _ e x → P (Ok x)) →
  reading (S:=S) G R (mcall e) P.
Proof.
  intros He HG HP s h. apply mwp_call; [done|]. intros x Hx.
  split_and!; [done|by apply ext_reads_snoc; [apply ext_reads_refl|]|by eapply HP].
Qed.

Lemma reading_calle' {S} (e : eff (option error)) (P : result unit → Prop) :
  is_local e = true → (∀ h, G h _ e) → P (Ok tt) → (∀ x, P (Err x)) → reading (S:=S) G R (mcalle e) P.
Proof.
  intros He HG H1' H2. unfold mcalle. apply reading_bind.
  eapply reading_mono; [apply (reading_call _ (λ r, ∃ x, r = Ok x)); eauto|].
  intros r [[x|] ->]; [by apply reading_fail|by apply reading_ret].
Qed.

Lemma withDownload_reading {A} n (body : M eff ConsumerState A) P :
  (∀ e, P (Err e)) → reading G R body P → reading G R (withDownload n body) P.
Proof.
  intros He Hb. unfold withDownload, acquireDownload, releaseDownload. rd_step. rd_step.
  apply reading_calle'; [done|done| |done]. do 2 rd_step.
  apply reading_calle'; [done|done| |].
  - rd_step. do 2 rd_step. eapply reading_mono; [exact Hb|]. intros r Hr. do 2 rd_step.
    apply reading_call; [done|done|]. intros _ _ _. apply reading_call; [done|done|].
    intros _ _ _. by rd_step.
  - intros x. rd_step. apply reading_call; [done|done|]. intros _ _ _. by rd_step.
Qed.

Lemma downloadManifest_reading {T} `{JSON T} kind digest :
  reading G R (downloadManifest (T:=T) consumer kind digest) (λ r,
    ∀ v, r = Ok v → named_by kind digest v).
Proof. apply withDownload_reading; [done|]. apply getManifest_reading; [apply consumer_reads|apply consumer_hashing]. Qed.

Lemma downloadReference_reading ifNoneMatch :
  reading G R (downloadReference consumer ifNoneMatch) (λ r,
    ∀ ref object, r = Ok (ref, object) →
      sr_Generation ref ≠ 0%N ∧ (sr_Generation ref ≤ u64_max)%N ∧
      Digest_IsZero (sr_Commit ref) = false ∧
      ∃ full, reference_valid channel (cn_referenceVerifier consumer) ref full ∧
        ob_Version full = ob_Version object).
Proof.
  unfold downloadReference. rd_step. eapply (reading_mono _ _ _ (λ r, ∀ ref object,
    r = Ok (ref, object) → reference_valid channel (cn_referenceVerifier consumer) ref object)).
  { apply withDownload_reading; [done|]. apply getReference_reading, consumer_reads. }
  intros [[ref object]|e] Hr; [|done]. rd_step. intros ref' object' [= <- <-].
  pose proof (Hr _ _ eq_refl) as Hv. pose proof Hv as (_ & ? & ? & _ & ? & _).
  split_and!; try done. by exists object.
Qed.

(** What is said of the history of a download holds of it with the slots around. *)
Lemma withDownload_acting {A} n (body : M eff ConsumerState A) (P : history eff → history eff → result A → Prop) h :
  (∀ h h' e, P h h' (Err e)) →
  (∀ h0 h1 h2 h3 r, extends h0 h1 → extends h2 h3 → P h1 h2 r → P h0 h3 r) →
  (∀ h, acting G R body h (λ h' r, P h h' r)) →
  acting G R (withDownload n body) h (λ h' r, P h h' r).
Proof.
  intros He Hm Hb. unfold withDownload, acquireDownload, releaseDownload. do_step. do_step.
  apply doing_calle; [done| |by intros]. do_step. do_step. apply doing_calle; [done| |].
  - do_step. do 2 do_step. eapply doing_mono; [apply Hb|]. intros h' r E Hr. do_step. do_step.
    apply doing_call; [done|]. intros [] _. apply doing_call; [done|]. intros [] _. do_step.
    eapply Hm; [..|exact Hr]; etrans; apply extends_snoc.
  - intros x. do_step. apply doing_call; [done|]. intros [] _. by do_step.
Qed.

(** The reference was read, and authenticated, by this download. *)
Lemma downloadReference_acting ifNoneMatch h :
  acting G R (downloadReference consumer ifNoneMatch) h (λ h' r, ∀ ref object, r = Ok (ref, object) →
    ∃ full, reference_read (cn_repository consumer) channel (cn_referenceVerifier consumer) h h' ref full ∧
      ob_Version full = ob_Version object).
Proof.
  unfold downloadReference. do_step. eapply doing_mono.
  { apply (withDownload_acting _ _ (λ h h' r, ∀ ref object, r = Ok (ref, object) →
      reference_read (cn_repository consumer) channel (cn_referenceVerifier consumer) h h' ref object)); [done| |].
    - intros h0 h1 h2 h3 r E1 E2 Hr ref object ->. by eapply reference_read_mono, Hr.
    - intros h'. apply getReference_acting, consumer_reads. }
  intros h1 [[ref object]|e] E Hr; [|done]. do_step. intros ref' object' [= <- <-].
  exists object. by split; [apply Hr|].
Qed.

Lemma metadataFlight_reading key load :
  reading G R load (λ r, ∀ v, r = Ok v → meta_ok key v) →
  reading G R (metadataFlight_Do key load) (λ r, ∀ v, r = Ok v → meta_ok key v).
Proof.
  intros Hl. unfold metadataFlight_Do. rd_step. apply reading_checkCtx; [apply consumer_reads| |done].
  rd_step. apply reading_call; [done|done|]. intros h [r|] Hr.
  - rd_step. intros v ->. by apply Hr.
  - do 2 rd_step. eapply reading_mono; [exact Hl|]. intros r Hv. rd_step.
    apply reading_calle'; [done|by intros ?|by rd_step|done].
Qed.

(** What the type switches of the cache satisfy. *)
Class CachedLaws (T : Type) `{CachedMetadata T} := {
  project_inject v (t : T) : project v = Some t ↔ v = inject t;
  inject_ok key (t : T) : meta_ok key (inject t) ↔
    mk_kind key = cached_kind ∧ named_by cached_kind (mk_digest key) t ∧ cached_check t = Ok tt;
}.
#[local] Instance dir_laws : CachedLaws dirManifest.
Proof. split; [|done]. intros [] t; simpl; naive_solver. Qed.
#[local] Instance file_laws : CachedLaws fileManifest.
Proof. split; [|done]. intros [] t; simpl; naive_solver. Qed.
#[local] Instance symlink_laws : CachedLaws symlinkManifest.
Proof. split; [|done]. intros [] t; simpl; naive_solver. Qed.

Lemma typed_ok {T} `{CachedLaws T} hit (t : T) : typed hit = Some t → hit = Some (inject t).
Proof. destruct hit as [v|]; [|done]. simpl. by intros ->%project_inject. Qed.

Lemma loadMetadata_reading {T} `{CachedLaws T} digest :
  reading G R (loadMetadata consumer T digest) (λ r,
    ∀ t, r = Ok t → named_by cached_kind digest t ∧ cached_check t = Ok tt).
Proof.
  unfold loadMetadata. set (key := {| mk_kind := cached_kind; mk_digest := digest |}).
  rd_step. apply reading_call; [done|done|]. intros h hit Hhit.
  destruct (typed hit) as [t|] eqn:Ht.
  { apply typed_ok in Ht as ->. rd_step. intros t' [= <-].
    by destruct (proj1 (inject_ok key t) (Hhit _ eq_refl)) as (_ & ? & ?). }
  rd_step. eapply reading_mono; [apply (metadataFlight_reading key)|].
  - rd_step. apply reading_call; [done|done|]. intros h' hit' Hhit'.
    destruct (typed hit') as [t|] eqn:Ht'.
    { apply typed_ok in Ht' as ->. rd_step. intros v [= <-]. by apply Hhit'. }
    rd_step. eapply reading_mono; [apply downloadManifest_reading|]. intros [t|e] Hn; [|done].
    do 2 rd_step. destruct (cached_check t) as [[]|] eqn:Hc; simpl; [|done]. rd_step.
    apply reading_call; [done|intros ?|].
    { apply inject_ok. split_and!; [done|by apply Hn|done]. }
    intros h'' v Hv. simpl in Hv. destruct (project v) as [t'|] eqn:Hp; [|by rd_step].
    apply project_inject in Hp as ->. rd_step. by intros v [= <-].
  - intros [v|e] Hv; [|done]. destruct (project v) as [t|] eqn:Hp; [|by rd_step].
    apply project_inject in Hp as ->. rd_step. intros t' [= <-].
    by destruct (proj1 (inject_ok key t) (Hv _ eq_refl)) as (_ & ? & ?).
Qed.

Lemma loadDirectory_reading digest :
  reading G R (loadDirectory consumer digest) (λ r,
    ∀ m, r = Ok m → named_by (str "dir") digest m ∧ directory_ok m).
Proof.
  eapply reading_mono; [apply (loadMetadata_reading (T:=dirManifest))|]. intros r Hr m ->.
  destruct (Hr m eq_refl) as [? ?]. split; [done|]. by apply validateDirectoryManifest_ok.
Qed.

Lemma loadFile_reading digest :
  reading G R (loadFile consumer digest) (λ r,
    ∀ m, r = Ok m → named_by (str "file") digest m ∧ validateFileManifest m = Ok tt).
Proof. exact (loadMetadata_reading (T:=fileManifest) digest). Qed.

Lemma loadSymlink_reading digest :
  reading G R (loadSymlink consumer digest) (λ r,
    ∀ m, r = Ok m → named_by (str "symlink") digest m ∧ validateSymlinkManifest m = Ok tt).
Proof. exact (loadMetadata_reading (T:=symlinkManifest) digest). Qed.

Lemma consumerCommit_reading digest :
  reading G R (Consumer_getManifest consumer digest) (λ r,
    ∀ c, r = Ok c → named_by (str "commit") digest c).
Proof.
  unfold Consumer_getManifest. rd_step.
  eapply reading_mono; [apply (metadataFlight_reading {| mk_kind := str "commit"; mk_digest := digest |})|].
  - rd_step. eapply reading_mono; [apply downloadManifest_reading|]. intros [c|e] Hc; [|done].
    rd_step. intros v [= <-]. split; [done|]. by apply Hc.
  - intros [v|e] Hv; [|done]. destruct v; rd_step; try done. intros c [= <-].
    by destruct (Hv _ eq_refl) as [_ ?].
Qed.

Lemma descendant_reading ref c anchor :
  sr_Generation ref ≠ 0%N → (sr_Generation ref ≤ u64_max)%N →
  commit_at (sr_Generation ref) (sr_Commit ref) c →
  reading G R (Consumer_validateDescendant consumer ref c anchor) (λ r,
    r = Ok tt → (wm_Generation anchor < sr_Generation ref)%N →
    ancestor (sr_Generation ref) (sr_Commit ref) (wm_Generation anchor) (wm_Commit anchor)).
Proof.
  intros H0' Hm Hc. unfold Consumer_validateDescendant. do 2 rd_step; [done|]. rd_step.
  rewrite u64_sub_exact by lia.
  eapply reading_mono; [apply walkAncestors_spec;
    [apply consumer_reads|intros d; apply consumerCommit_reading|lia|lia]|].
  intros [last|e] Hr; [|done]. rd_step; [done|]. intros _ Hlt. bool_prop. subst last.
  destruct (Hr _ eq_refl) as (p & Hp & Ha).
  replace (sr_Generation ref) with (sr_Generation ref - 1 + 1)%N at 1 by lia.
  eapply ancestor_step; [|exact Hp|].
  - by replace (sr_Generation ref - 1 + 1)%N with (sr_Generation ref) by lia.
  - by replace (sr_Generation ref - 1
        - N.of_nat (N.to_nat (sr_Generation ref - 1 - wm_Generation anchor)))%N
      with (wm_Generation anchor) in Ha by lia.
Qed.
End Discipline.

(** ** Trust state *)

Section Trusted.
Context {U : Hashed} `{AEADLaws} `{Chunker}.
Variable consumer : Consumer.
Abbreviation channel := (cn_channel consumer).
Abbreviation G := (consumer_protocol consumer).
Abbreviation R := (consumer_rely consumer).
Abbreviation known := (known channel).
Abbreviation watermarkOf := (watermarkOf consumer).

(** What NewConsumer establishes; the generations are uint64. *)
Definition consumer_wf : Prop :=
  (is_Some (cn_referenceVerifier consumer) → cn_watermarks consumer = true) ∧
  (∀ cp, cn_trustedCheckpoint consumer = Some cp → is_Some (cn_referenceVerifier consumer) ∧
     wm_RepositoryID cp = watermarkID consumer ∧ wm_Generation cp ≠ 0%N ∧
     (wm_Generation cp ≤ u64_max)%N).

Definition from_checkpoint (w : Watermark) : Prop :=
  lineage (cn_trustedCheckpoint consumer) (Some w).

(** A snapshot the consumer may expose. *)
Definition adopted_ok (h : history eff) (a : adoptedSnapshot) : Prop :=
  let ref := as_reference a in
  commit_at (sr_Generation ref) (sr_Commit ref) (as_commit a) ∧
  sr_Generation ref ≠ 0%N ∧ (sr_Generation ref ≤ u64_max)%N ∧
  (cn_watermarks consumer = true → known h (watermarkOf ref)) ∧
  from_checkpoint (watermarkOf ref).

Definition consumer_inv (h : history eff) (s : ConsumerState) : Prop :=
  (∀ a, cs_state s = Some a → adopted_ok h a) ∧
  (Digest_IsZero (wm_Commit (cs_checkpointValidated s)) = false →
     from_checkpoint (cs_checkpointValidated s)) ∧
  (cn_watermarks consumer = false →
     cs_watermark s = match cs_state s with
       | None => Watermark_zero | Some a => watermarkOf (as_reference a) end).

Hypothesis Hwf : consumer_wf.

Lemma adopted_ok_mono h k a : adopted_ok h a → adopted_ok (h ++ k) a.
Proof.
  intros (? & ? & ? & Hk & ?). split_and!; try done. intros Hw. by apply known_mono, Hk.
Qed.

Lemma inv_mono h k s : consumer_inv h s → consumer_inv (h ++ k) s.
Proof. intros (? & ? & ?). split_and!; try done. intros a Ha. apply adopted_ok_mono; auto. Qed.

Lemma inv_reads h h' s : ext_reads h h' → consumer_inv h s → consumer_inv h' s.
Proof. intros (k & -> & _). apply inv_mono. Qed.

(** The fields outside the invariant's reach. *)
Lemma inv_set_loaded h b s : consumer_inv h s → consumer_inv h (set_loaded b s).
Proof. done. Qed.
Lemma inv_set_watermark h w s :
  cn_watermarks consumer = true → consumer_inv h s → consumer_inv h (set_watermark w s).
Proof. intros Hw (? & ? & _). split_and!; [done|done|]. rewrite Hw. done. Qed.
Lemma inv_set_validated h w s :
  from_checkpoint w → consumer_inv h s → consumer_inv h (set_validated w s).
Proof. intros Hw (? & ? & ?). by split_and!. Qed.

(** The snapshot in view does not change. *)
Definition same_view (h : history eff) (s : ConsumerState) (h' : history eff) (s' : ConsumerState)
    : Prop :=
  (∃ k, h' = h ++ k) ∧ cs_state s' = cs_state s ∧ consumer_inv h' s'.

Lemma same_view_refl h s : consumer_inv h s → same_view h s h s.
Proof. intros Hi. split_and!; [exists []; by rewrite app_nil_r|done|done]. Qed.

Lemma same_view_trans h s h1 s1 h2 s2 :
  same_view h s h1 s1 → same_view h1 s1 h2 s2 → same_view h s h2 s2.
Proof.
  intros ([k ->] & E1 & _) ([k' ->] & E2 & Hi). split_and!; [|congruence|done].
  exists (k ++ k'). by rewrite (assoc_L (++)).
Qed.

Lemma same_view_app h k s : consumer_inv h s → same_view h s (h ++ k) s.
Proof. intros Hi. split_and!; [by eexists|done|by apply inv_mono]. Qed.

Lemma same_view_reads h h' s : ext_reads h h' → consumer_inv h s → same_view h s h' s.
Proof.
  intros Hr Hi. pose proof (inv_reads _ _ _ Hr Hi). destruct Hr as (k & -> & _).
  by split_and!; [exists k| |].
Qed.

Lemma from_checkpoint_step a w :
  from_checkpoint a → lineage (Some a) (Some w) → from_checkpoint w.
Proof. intros Ha Hw. unfold from_checkpoint. by etrans. Qed.

(** The checkpoint walk of a watermark. *)
Definition checked (h : history eff) (s : ConsumerState) (w : Watermark)
    (h' : history eff) (s' : ConsumerState) (r : result unit) : Prop :=
  same_view h s h' s' ∧ ext_reads h h' ∧ (r = Ok tt → from_checkpoint w).

Lemma walkWatermarkCheckpoint_spec w cp anchor s h :
  cn_trustedCheckpoint consumer = Some cp → consumer_inv h s → (wm_Generation w ≤ u64_max)%N →
  from_checkpoint anchor →
  anchor = cp ∨ ((wm_Generation anchor ≤ wm_Generation w)%N ∧
    (wm_Generation anchor = wm_Generation w → wm_Commit anchor = wm_Commit w)) →
  mwp R G (walkWatermarkCheckpoint consumer w cp anchor) s h (checked h s w).
Proof.
  intros Hcp Hi Hmax Ha Hanchor. unfold walkWatermarkCheckpoint.
  assert (checked h s w h s (Err [])) as Hsame.
  { split_and!; [by apply same_view_refl|apply ext_reads_refl|done]. }
  do 2 (match goal with |- mwp _ _ (if ?c then _ else _) _ _ _ => destruct c eqn:? end;
    [apply mwp_fail; by destruct Hsame as (? & ? & _)|]).
  match goal with |- mwp _ _ (if ?c then _ else _) _ _ _ => destruct c eqn:? end; bool_prop.
  { repeat mwp_go; [by destruct Hsame as (? & ? & _)|]. bool_prop.
    assert (from_checkpoint w) as Hw.
    { unfold from_checkpoint. rewrite Hcp. simpl. replace (wm_Generation cp) with (wm_Generation w).
      replace (wm_Commit cp) with (wm_Commit w). constructor. }
    split_and!; [|apply ext_reads_refl|done].
    split_and!; [exists []; by rewrite app_nil_r|done|by apply inv_set_validated]. }
  mwp_go. eapply mwp_mono; [apply consumerCommit_reading|]. intros h1 s1 [c|e] (-> & E1 & Hc); simpl.
  2:{ split_and!; [by apply same_view_reads|done|done]. }
  repeat mwp_go. destruct (validateCommitManifest c (wm_Generation w)) as [[]|] eqn:Hv; simpl.
  2:{ split_and!; [by apply same_view_reads|done|done]. }
  repeat mwp_go. eapply mwp_mono; [apply descendant_reading; simpl; [lia|done|]|].
  { split; [by apply Hc|done]. }
  simpl. intros h2 s2 [[]|e] (-> & E2 & Hd); simpl; assert (ext_reads h h2) as E by (by etrans).
  2:{ split_and!; [by apply same_view_reads|done|done]. }
  apply mwp_modify.
  assert (from_checkpoint w) as Hw.
  { eapply from_checkpoint_step; [exact Ha|]. simpl.
    destruct (decide (wm_Generation anchor < wm_Generation w)%N) as [Hlt|Hge]; [by apply Hd|].
    destruct Hanchor as [->|[Hle Heq]]; [lia|].
    assert (wm_Generation anchor = wm_Generation w) as Eg by lia. rewrite Eg, (Heq Eg). constructor. }
  split_and!; [|done|done]. destruct (same_view_reads _ _ _ E Hi) as (? & ? & ?).
  split_and!; [done|done|by apply inv_set_validated].
Qed.

Lemma validateWatermarkCheckpoint_spec w cp s h :
  cn_trustedCheckpoint consumer = Some cp → consumer_inv h s → (wm_Generation w ≤ u64_max)%N →
  mwp R G (validateWatermarkCheckpoint consumer w cp) s h (checked h s w).
Proof.
  intros Hcp Hi Hmax. unfold validateWatermarkCheckpoint. mwp_go. mwp_go.
  assert (from_checkpoint cp) as Hfrom by (unfold from_checkpoint; by rewrite Hcp).
  assert (∀ e, checked h s w h s (Err e)) as Hsame.
  { intros e. split_and!; [by apply same_view_refl|apply ext_reads_refl|done]. }
  match goal with |- mwp _ _ (if ?c then _ else _) _ _ _ => destruct c eqn:Hz end.
  2:{ apply walkWatermarkCheckpoint_spec; auto. }
  apply negb_true_iff in Hz. pose proof (proj1 (proj2 Hi) Hz) as Hval.
  do 2 (match goal with |- mwp _ _ (if ?c then _ else _) _ _ _ => destruct c eqn:? end;
    [by apply mwp_fail|]).
  match goal with |- mwp _ _ (if ?c then _ else _) _ _ _ => destruct c eqn:? end;
    [mwp_go|]; bool_prop.
  - destruct (Hsame []) as (? & ? & _). split_and!; [done..|]. intros _. by subst.
  - apply walkWatermarkCheckpoint_spec; try done. right. split; [done|]. intros E.
    match goal with Hn : _ && _ = false |- _ => apply andb_false_iff in Hn as [Hn|Hn] end; bool_prop;
      congruence.
Qed.

(** *** The durable watermark *)

(** A durable watermark the consumer may build on. *)
Definition durable (h : history eff) (w : Watermark) : Prop :=
  known h w ∧ wm_Generation w ≠ 0%N ∧ (wm_Generation w ≤ u64_max)%N ∧
  wm_RepositoryID w = watermarkID consumer ∧ from_checkpoint w.

Lemma durable_mono h k w : durable h w → durable (h ++ k) w.
Proof. intros (? & ?). split; [by apply known_mono|done]. Qed.

Lemma acceptWatermark_spec w s h :
  cn_watermarks consumer = true → consumer_inv h s → known h w → (wm_Generation w ≤ u64_max)%N →
  mwp R G (acceptWatermark consumer w) s h (λ h' s' r,
    same_view h s h' s' ∧ (r = Ok tt → cs_watermark s' = w ∧ durable h' w)).
Proof.
  intros Hw Hi Hk Hmax. unfold acceptWatermark. pose proof (same_view_refl _ _ Hi).
  do 2 (mwp_go; mwp_go; [done|]). bool_prop. mwp_go.
  apply (mwp_mono _ _ _ _ _ (checked h s w)).
  { unfold from_checkpoint in *. destruct (cn_trustedCheckpoint consumer) as [cp|] eqn:Hcp.
    - by apply validateWatermarkCheckpoint_spec.
    - apply mwp_ret. split_and!; [done|apply ext_reads_refl|]. intros _. unfold from_checkpoint.
      by rewrite Hcp. }
  intros h1 s1 [[]|e] (Hs & E & Hc); [|done]. apply mwp_modify. destruct Hs as ([k ->] & E1 & Hi1).
  split; [split_and!; [by eexists|done|by apply inv_set_watermark]|]. intros _.
  split; [done|]. split_and!; [by apply known_mono|done|done|done|by apply Hc].
Qed.

Lemma installCheckpoint_spec cp s h :
  cn_watermarks consumer = true → cn_trustedCheckpoint consumer = Some cp → consumer_inv h s →
  mwp R G (installCheckpoint consumer cp) s h (λ h' s' r,
    same_view h s h' s' ∧ (∀ b, r = Ok b → b = true ∧ durable h' (cs_watermark s') ∧
      (cs_watermark s' = cp ∨ ∀ w0, known h w0 → lineage (Some w0) (Some (cs_watermark s'))))).
Proof.
  intros Hw Hcp Hi. destruct Hwf as [_ Hcheck]. destruct (Hcheck cp Hcp) as (_ & Hid & Hg & Hmax).
  unfold installCheckpoint. mwp_go. apply mwp_call.
  { split_and!; [done|done|]. by rewrite Hcp. }
  intros [err|] _.
  - set (h1 := h ++ [_]). assert (consumer_inv h1 s) as Hi1 by (by apply inv_mono).
    assert (same_view h s h1 s) as Hs1 by (by apply same_view_app).
    mwp_go. apply mwp_callr; [done|]. intros [[w|]|e] Hr; simpl.
    2,3: split; [|done]; eapply same_view_trans; [exact Hs1|by apply same_view_app].
    destruct (Hr w eq_refl) as [Hwmax Hlin]. set (h2 := h1 ++ [_]).
    assert (consumer_inv h2 s) as Hi2 by (by apply inv_mono).
    assert (same_view h s h2 s) as Hs2.
    { eapply same_view_trans; [exact Hs1|]. by apply same_view_app. }
    assert (known h2 w) as Hk by (left; apply elem_of_app; right; by left).
    mwp_go. mwp_go; [done|]. bool_prop. mwp_go.
    eapply mwp_mono; [by apply validateWatermarkCheckpoint_spec|].
    intros h3 s3 [[]|e] (Hs3 & E3 & Hc); simpl.
    2:{ split; [|done]. by eapply same_view_trans. }
    mwp_go. apply mwp_modify. apply mwp_ret. destruct Hs3 as ([k ->] & E & Hi3). split.
    { eapply same_view_trans; [exact Hs2|]. split_and!; [by eexists|done|by apply inv_set_watermark]. }
    intros b [= <-]. split_and!; [done| |].
    + apply durable_mono. simpl. split_and!; try done; [lia|congruence|by apply Hc].
    + right. intros w0 Hw0. apply Hlin. by apply known_mono.
  - mwp_go. apply mwp_modify. apply mwp_ret. split.
    { split_and!; [by eexists|done|]. apply inv_set_watermark; [done|]. by apply inv_mono. }
    intros b [= <-]. split_and!; [done| |by left]. split_and!; try done.
    + right. exists None. apply elem_of_app. right. by left.
    + unfold from_checkpoint. by rewrite Hcp.
Qed.

(** The trust state of a consumer that may go to the store. *)
Definition trusted (h : history eff) (s : ConsumerState) : Prop :=
  let w := cs_watermark s in
  (wm_Generation w = 0%N → cn_trustedCheckpoint consumer = None ∧ cs_state s = None) ∧
  (wm_Generation w ≠ 0%N → (wm_Generation w ≤ u64_max)%N ∧ from_checkpoint w ∧
     wm_RepositoryID w = watermarkID consumer ∧ (cn_watermarks consumer = true → known h w) ∧
     ∀ a, cs_state s = Some a → lineage (Some (watermarkOf (as_reference a))) (Some w)).

(** Without a watermark store the watermark is the snapshot's own. *)
Lemma trusted_local h s : cn_watermarks consumer = false → consumer_inv h s → trusted h s.
Proof.
  intros Hw (Ha & _ & Hl). specialize (Hl Hw). unfold trusted. rewrite Hl.
  destruct (cs_state s) as [a|] eqn:Es.
  - destruct (Ha a eq_refl) as (_ & Hg & Hmax & _ & Hf). split; [done|]. intros _.
    split_and!; [done|done|done|by rewrite Hw|]. intros a' [= <-]. simpl. constructor.
  - split; [|done]. intros _. split; [|done].
    destruct (cn_trustedCheckpoint consumer) as [cp|] eqn:Hcp; [|done].
    destruct Hwf as [Hv Hc]. destruct (Hc cp Hcp) as [Hs _]. rewrite Hv in Hw by done. done.
Qed.

(** After the load and the checkpoint, before the comparison with the view. *)
Definition loaded (h0 h : history eff) (s : ConsumerState) (found : bool) : Prop :=
  (found = true → durable h (cs_watermark s) ∧
     (cn_trustedCheckpoint consumer = Some (cs_watermark s) ∨
      ∀ w0, known h0 w0 → lineage (Some w0) (Some (cs_watermark s)))) ∧
  (found = false → cs_watermark s = Watermark_zero ∧ cn_trustedCheckpoint consumer = None).

Lemma applyCheckpoint_spec l s h :
  cn_watermarks consumer = true → consumer_inv h s →
  match l with
  | Some w => cs_watermark s = w ∧ durable h w
  | None => cs_watermark s = Watermark_zero
  end →
  mwp R G (applyCheckpoint consumer l) s h (λ h' s' r,
    same_view h s h' s' ∧
    ∀ b, r = Ok b → match l with
      | Some w => b = true ∧ cs_watermark s' = w
      | None => loaded h h' s' b
      end).
Proof.
  intros Hw Hi Hl. pose proof (same_view_refl _ _ Hi) as Hs. unfold applyCheckpoint.
  destruct (cn_referenceVerifier consumer) as [v|] eqn:Hv;
    destruct (cn_trustedCheckpoint consumer) as [cp|] eqn:Hcp; destruct l as [w|].
  - do 2 (mwp_go; mwp_go; [done|]). mwp_go. split; [done|]. intros b [= <-]. by split; [|apply Hl].
  - eapply mwp_mono; [by apply installCheckpoint_spec|]. intros h' s' r [Hs' Hr]. split; [done|].
    intros b Hb. destruct (Hr b Hb) as (-> & Hd & Hlin). split; [|done]. intros _. split; [done|].
    rewrite Hcp. destruct Hlin as [->|?]; [by left|by right].
  - mwp_go. split; [done|]. intros b [= <-]. by split; [|apply Hl].
  - mwp_go. mwp_go; [done|]. mwp_go. split; [done|]. intros b [= <-]. by split.
  - mwp_go. split; [done|]. intros b [= <-]. by split; [|apply Hl].
  - destruct Hwf as [_ Hc]. destruct (Hc cp Hcp) as [[? Hs'] _]. congruence.
  - mwp_go. split; [done|]. intros b [= <-]. by split; [|apply Hl].
  - mwp_go. split; [done|]. intros b [= <-]. by split.
Qed.

(** The comparison with the snapshot in view. *)
Lemma loaded_trusted h0 h s found :
  cn_watermarks consumer = true → (∀ a, cs_state s = Some a → adopted_ok h0 a) →
  loaded h0 h s found →
  (∀ a, cs_state s = Some a →
     (found = true ∨ wm_Generation (cs_watermark s) ≠ 0%N) ∧
     (wm_Generation (cs_watermark s) ≠ 0%N →
      (sr_Generation (as_reference a) ≤ wm_Generation (cs_watermark s))%N ∧
      (wm_Generation (cs_watermark s) = sr_Generation (as_reference a) →
       wm_Commit (cs_watermark s) = sr_Commit (as_reference a)))) →
  trusted h s.
Proof.
  intros Hw Hi [Ht Hf] Hcmp. destruct found.
  - destruct (Ht eq_refl) as [(Hk & Hg & Hmax & Hid & Hc) Hlin]. split; [done|]. intros _.
    split_and!; try done. intros a Ha. destruct (Hcmp a Ha) as [_ Hle].
    destruct (Hle Hg) as [Hle' Heq]. destruct (Hi a Ha) as (_ & _ & _ & Hka & Hfrom).
    destruct Hlin as [Hcp|Hlin]; [|by apply Hlin, Hka].
    unfold from_checkpoint in Hfrom. rewrite Hcp in Hfrom. simpl in *.
    apply ancestor_le in Hfrom as Hge.
    assert (wm_Generation (cs_watermark s) = sr_Generation (as_reference a)) as E by lia.
    rewrite <- (Heq E), E. constructor.
  - destruct (Hf eq_refl) as [E Hcp]. split; [|by rewrite E]. intros _. split; [done|].
    destruct (cs_state s) as [a|] eqn:Ha; [|done].
    destruct (Hcmp a eq_refl) as [[?|Hg] _]; [done|]. by rewrite E in Hg.
Qed.

(** The comparison itself. *)
Lemma compareView_spec h0 h s s1 found :
  cn_watermarks consumer = true → consumer_inv h0 s → same_view h0 s h s1 → loaded h0 h s1 found →
  mwp R G
    (match cs_state s1 with
     | None => mret tt
     | Some current =>
         mguard (negb found && (wm_Generation (cs_watermark s1) ==? 0%N)) [ErrTrustStateRequired] ;;;
         if (0 <? wm_Generation (cs_watermark s1))%N then
           mguard (wm_Generation (cs_watermark s1) <? sr_Generation (as_reference current))%N
                  [ErrRollbackDetected] ;;;
           mguard ((wm_Generation (cs_watermark s1) ==? sr_Generation (as_reference current))
                   && (wm_Commit (cs_watermark s1) !=? sr_Commit (as_reference current)))
                  [ErrSplitBrain]
         else mret tt
     end ;;; mmodify (set_loaded true)) s1 h
    (λ h' s' r, same_view h0 s h' s' ∧ (r = Ok tt → trusted h' s')).
Proof.
  intros Hw Hi Hs Hl. pose proof Hs as (_ & Est & _).
  assert (trusted h s1 → mwp R G (mmodify (set_loaded true)) s1 h (λ h' s' r,
    same_view h0 s h' s' ∧ (r = Ok tt → trusted h' s'))) as Hend.
  { intros Ht. apply mwp_modify. by split. }
  assert (∀ a, cs_state s1 = Some a → adopted_ok h0 a) as Hok.
  { intros a Ha. apply Hi. congruence. }
  mwp_go. destruct (cs_state s1) as [a|] eqn:Ha.
  2:{ mwp_go. apply Hend. apply (loaded_trusted h0 h s1 found); [done|by rewrite Ha|done|].
      intros a. by rewrite Ha. }
  mwp_go. mwp_go; [done|].
  match goal with Hn : _ && _ = false |- _ => apply andb_false_iff in Hn end.
  match goal with |- mwp _ _ (if ?c then _ else _) _ _ _ => destruct c eqn:Hpos end; bool_prop.
  - mwp_go. mwp_go; [done|]. mwp_go; [done|]. bool_prop.
    apply Hend, (loaded_trusted h0 h s1 found); [done|by rewrite Ha|done|].
    intros a' Ha'. rewrite Ha in Ha'. injection Ha' as <-. split; [right; lia|]. intros _.
    split; [done|]. intros E.
    match goal with Hn : _ && _ = false |- _ => apply andb_false_iff in Hn as [Hn|Hn] end; bool_prop;
      [congruence|done].
  - mwp_go. apply Hend, (loaded_trusted h0 h s1 found); [done|by rewrite Ha|done|].
    intros a' Ha'. split; [|lia]. left.
    match goal with Hn : _ ∨ _ |- _ => destruct Hn as [Hn|Hn] end; bool_prop; [done|lia].
Qed.

Lemma loadWatermark_spec s h :
  consumer_inv h s → (cn_watermarks consumer = true → cs_watermarkLoaded s = false) →
  mwp R G (loadWatermark consumer) s h (λ h' s' r,
    same_view h s h' s' ∧ (r = Ok tt → trusted h' s')).
Proof.
  intros Hi Hld. unfold loadWatermark. mwp_go. mwp_go.
  destruct (cn_watermarks consumer) eqn:Hw; simpl.
  2:{ pose proof (trusted_local h s Hw Hi). pose proof (same_view_refl h s Hi).
      destruct (cs_watermarkLoaded s); mwp_go; by split. }
  rewrite (Hld eq_refl). mwp_go. apply mwp_callr; [done|]. intros r Hr.
  set (h1 := h ++ [Ev (WM_Load channel) r]). assert (same_view h s h1 s) as Hs1 by (by apply same_view_app).
  assert (consumer_inv h1 s) as Hi1 by apply Hs1. destruct r as [l|e]; [|done]. simpl.
  mwp_go. apply (mwp_mono _ _ _ _ _ (λ h2 s2 r2, same_view h1 s h2 s2 ∧ (r2 = Ok tt →
    match l with
    | Some w => cs_watermark s2 = w ∧ durable h2 w
    | None => cs_watermark s2 = Watermark_zero
    end))).
  { destruct l as [w|].
    - destruct (Hr w eq_refl) as [Hmax _]. apply acceptWatermark_spec; [done|done| |done].
      left. apply elem_of_app. right. by left.
    - apply mwp_modify. split; [|done]. destruct (same_view_refl h1 s Hi1) as (? & ? & ?).
      split_and!; [done|done|by apply inv_set_watermark]. }
  intros h2 s2 [[]|e] [Hs2 Hr2]; [|by split; [eapply same_view_trans|]].
  specialize (Hr2 eq_refl). mwp_go. eapply mwp_mono.
  { apply applyCheckpoint_spec; [done|apply Hs2|exact Hr2]. }
  intros h3 s3 [found|e] [Hs3 Hr3]; [|split; [|done]; do 2 (eapply same_view_trans; [eassumption|]); done].
  mwp_go. mwp_go.
  assert (same_view h s h3 s3) as Hs by (do 2 (eapply same_view_trans; [eassumption|]); done).
  apply compareView_spec; [done|done|done|].
  specialize (Hr3 found eq_refl). destruct l as [w|].
  - destruct Hr3 as [-> E], Hr2 as [_ Hd], (Hr w eq_refl) as [_ Hlin].
    split; [|done]. intros _. rewrite E. destruct Hs3 as ([k ->] & _). split; [by apply durable_mono|].
    right. intros w0 Hw0. by apply Hlin.
  - destruct Hr3 as [Ht Hf]. split; [|done]. intros E. destruct (Ht E) as [Hd Hlin]. split; [done|].
    destruct Hlin as [?|Hlin]; [by left|]. right. intros w0 Hw0. apply Hlin.
    destruct Hs2 as ([k ->] & _). by apply known_mono, known_mono.
Qed.

(** *** Adoption *)

Lemma persist_spec expected next s h :
  cn_watermarks consumer = true → consumer_inv h s →
  lineage expected (Some next) → from_checkpoint next →
  mwp R G (persistConsumerWatermark consumer expected next) s h (λ h' s' r,
    same_view h s h' s' ∧ (r = Ok tt → known h' next)).
Proof.
  intros Hw Hi Hl Hf. unfold persistConsumerWatermark. mwp_go. apply mwp_call; [by split_and!|].
  intros [err|] _.
  2:{ mwp_go. split; [by apply same_view_app|]. intros _. right. exists expected.
      apply elem_of_app. right. by left. }
  set (h1 := h ++ [_]). assert (same_view h s h1 s) as Hs1 by (by apply same_view_app).
  mwp_go. mwp_go. apply mwp_callr; [done|]. intros r Hr. set (h2 := h1 ++ [_]).
  assert (same_view h s h2 s) as Hs2.
  { eapply same_view_trans; [exact Hs1|]. apply same_view_app, Hs1. }
  assert (∀ w, same_view h s h2 (set_watermark w s)) as Hset.
  { intros w. destruct Hs2 as (? & ? & ?). split_and!; [done|done|by apply inv_set_watermark]. }
  assert (same_view h s h2 (set_loaded false s)) as Hld by exact Hs2.
  destruct r as [[observed|]|loadErr]; simpl; repeat mwp_go; try (by split; auto).
  match goal with |- mwp _ _ (if ?c then _ else _) _ _ _ => destruct c eqn:? end; bool_prop.
  { mwp_go. split; [done|]. intros _. subst observed. left. apply elem_of_app. right. by left. }
  do 2 (match goal with |- mwp _ _ (if ?c then _ else _) _ _ _ => destruct c eqn:? end;
    repeat mwp_go; try (by split; auto)).
Qed.

(** A reference that passed the comparisons of Refresh. *)
Definition newer (s : ConsumerState) (ref : snapshotReference) : Prop :=
  (∀ c, cs_state s = Some c → (sr_Generation (as_reference c) < sr_Generation ref)%N) ∧
  (wm_Generation (cs_watermark s) ≠ 0%N →
   (∀ c, cs_state s = Some c →
      (sr_Generation (as_reference c) < wm_Generation (cs_watermark s))%N) →
   (wm_Generation (cs_watermark s) ≤ sr_Generation ref)%N ∧
   (wm_Generation (cs_watermark s) = sr_Generation ref → wm_Commit (cs_watermark s) = sr_Commit ref)).

(** The watermark the ancestry is checked against is the trusted one. *)
Lemma newer_watermark h s ref :
  trusted h s → newer s ref → wm_Generation (cs_watermark s) ≠ 0%N →
  (wm_Generation (cs_watermark s) ≤ sr_Generation ref)%N ∧
  (wm_Generation (cs_watermark s) = sr_Generation ref → wm_Commit (cs_watermark s) = sr_Commit ref) ∧
  ∀ c, cs_state s = Some c →
    (sr_Generation (as_reference c) ≤ wm_Generation (cs_watermark s))%N ∧
    (sr_Generation (as_reference c) = wm_Generation (cs_watermark s) →
     sr_Commit (as_reference c) = wm_Commit (cs_watermark s)).
Proof.
  intros [_ Ht] [Hn Ha] Hg. destruct (Ht Hg) as (_ & _ & _ & _ & Hlin).
  assert (∀ c, cs_state s = Some c →
    (sr_Generation (as_reference c) ≤ wm_Generation (cs_watermark s))%N ∧
    (sr_Generation (as_reference c) = wm_Generation (cs_watermark s) →
     sr_Commit (as_reference c) = wm_Commit (cs_watermark s))) as Hc.
  { intros c Ec. pose proof (Hlin c Ec) as Hl. simpl in Hl. apply ancestor_le in Hl as Hle.
    split; [done|]. intros E. rewrite E in Hl. by apply ancestor_same in Hl. }
  destruct (cs_state s) as [c|] eqn:Ec.
  - destruct (Hc c eq_refl) as [Hle _].
    destruct (decide (sr_Generation (as_reference c) = wm_Generation (cs_watermark s))) as [E|E].
    + pose proof (Hn c eq_refl). split_and!; [lia|lia|done].
    + destruct Ha as [? ?]; [done|intros ? [= <-]; lia|]. by split_and!.
  - destruct Ha as [? ?]; [done|done|]. by split_and!.
Qed.

(** The anchor chosen by Refresh. *)
Lemma anchor_spec h s :
  trusted h s → consumer_inv h s →
  mwp R G
    (match cs_state s with
     | None => mret (cs_watermark s)
     | Some c =>
         let currentWatermark := watermarkOf (as_reference c) in
         if (wm_Generation (cs_watermark s) <? wm_Generation currentWatermark)%N
         then mret currentWatermark
         else
           mguard ((wm_Generation currentWatermark ==? wm_Generation (cs_watermark s))
                   && (wm_Commit currentWatermark !=? wm_Commit (cs_watermark s)))
                  [ErrSplitBrain] ;;;
           mret (cs_watermark s)
     end) s h (λ h' s' r, h' = h ∧ s' = s ∧ (∀ anchor, r = Ok anchor → anchor = cs_watermark s)).
Proof.
  intros [H0' Ht] Hi. destruct (cs_state s) as [c|] eqn:Ec; simpl.
  2:{ mwp_go. split_and!; [done|done|]. by intros ? [= <-]. }
  destruct (decide (wm_Generation (cs_watermark s) = 0%N)) as [E|E].
  { destruct (H0' E) as [_ ?]. congruence. }
  destruct (Ht E) as (_ & _ & _ & _ & Hlin). pose proof (Hlin c eq_refl) as Hl. simpl in Hl.
  apply ancestor_le in Hl. rewrite (proj2 (N.ltb_ge _ _)) by done.
  repeat mwp_go; [done|]. split_and!; [done|done|]. by intros ? [= <-].
Qed.

Lemma inv_adopt h a s :
  consumer_inv h s → adopted_ok h a →
  (cn_watermarks consumer = false → cs_watermark s = watermarkOf (as_reference a)) →
  consumer_inv h (set_state (Some a) s).
Proof. intros (_ & ? & _) Ha Hw. split_and!; [by intros ? [= <-]|done|done]. Qed.

(** The view moved to a descendant. *)
Definition advanced (h : history eff) (s : ConsumerState) (ref : snapshotReference) (version : Version)
    (h' : history eff) (s' : ConsumerState) (a : adoptedSnapshot) : Prop :=
  (∃ k, h' = h ++ k) ∧ cs_state s' = Some a ∧ (as_reference a = ref ∧ as_version a = version) ∧
  consumer_inv h' s' ∧
  ∀ c, cs_state s = Some c →
    (sr_Generation (as_reference c) < sr_Generation ref)%N ∧
    lineage (Some (watermarkOf (as_reference c))) (Some (watermarkOf ref)).

(** Recording the watermark and exposing the snapshot. *)
Lemma exposeNewer_spec ref c version s h h0 s0 :
  same_view h0 s0 h s → trusted h s → newer s ref → sr_Generation ref ≠ 0%N →
  (sr_Generation ref ≤ u64_max)%N → commit_at (sr_Generation ref) (sr_Commit ref) c →
  (wm_Generation (cs_watermark s) ≠ 0%N → lineage (Some (cs_watermark s)) (Some (watermarkOf ref))) →
  mwp R G
    ((if cn_watermarks consumer
         && (wm_Generation (cs_watermark s) <? wm_Generation (watermarkOf ref))%N then
        persistConsumerWatermark consumer
          (if (0 <? wm_Generation (cs_watermark s))%N then Some (cs_watermark s) else None)
          (watermarkOf ref)
      else mret tt) ;;;
     s' <- mget ;;
     (if (wm_Generation (cs_watermark s') <=? wm_Generation (watermarkOf ref))%N
      then mmodify (set_watermark (watermarkOf ref)) else mret tt) ;;;
     mmodify (set_state (Some {| as_reference := ref; as_commit := c; as_version := version |})) ;;;
     mret {| as_reference := ref; as_commit := c; as_version := version |}) s h
    (λ h' s' r, match r with
      | Ok a => advanced h0 s0 ref version h' s' a
      | Err _ => same_view h0 s0 h' s'
      end).
Proof.
  intros Hv Ht Hn Hg Hmax Hc Hl. pose proof Hv as (Hext & Est & Hi).
  assert (from_checkpoint (watermarkOf ref)) as Hf.
  { destruct Ht as [Hz Hnz]. destruct (decide (wm_Generation (cs_watermark s) = 0%N)) as [E|E].
    - destruct (Hz E) as [Hcp _]. unfold from_checkpoint. by rewrite Hcp.
    - eapply from_checkpoint_step; [by apply Hnz|by apply Hl]. }
  mwp_go. apply (mwp_mono _ _ _ _ _ (λ h' s' r, same_view h s h' s' ∧
    (r = Ok tt → cn_watermarks consumer = true → known h' (watermarkOf ref)) ∧
    (cn_watermarks consumer = false → cs_watermark s' = cs_watermark s))).
  { destruct (cn_watermarks consumer) eqn:Hw; simpl.
    2:{ mwp_go. split_and!; [by apply same_view_refl|done|done]. }
    match goal with |- mwp _ _ (if ?c then _ else _) _ _ _ => destruct c eqn:Hlt end; bool_prop.
    - eapply mwp_mono; [apply persist_spec; [done|done| |done]|].
      + destruct (N.ltb_spec 0 (wm_Generation (cs_watermark s))); [apply Hl; lia|done].
      + intros h' s' r [? Hk]. split_and!; [done|intros E _; by apply Hk|done].
    - mwp_go. split_and!; [by apply same_view_refl| |done]. intros _ _. simpl in Hlt.
      assert (wm_Generation (cs_watermark s) ≠ 0%N) as Hnz by lia.
      destruct (newer_watermark h s ref Ht Hn Hnz) as (Hle & Heq & _).
      destruct (proj2 Ht Hnz) as (_ & _ & Hid & Hk & _).
      assert (cs_watermark s = watermarkOf ref) as <-; [|by apply Hk].
      destruct (cs_watermark s) as [i g d]. unfold Consumer.watermarkOf. simpl in *.
      f_equal; [done|lia|apply Heq; lia]. }
  intros h1 s1 [[]|e] (Hs1 & Hk & Hwm); [|by eapply same_view_trans]. specialize (Hk eq_refl).
  destruct (same_view_trans _ _ _ _ _ _ Hv Hs1) as (Hext1 & Est1 & Hi1).
  set (a := {| as_reference := ref; as_commit := c; as_version := version |}).
  assert (adopted_ok h1 a) as Ha by (by split_and!).
  assert (∀ c0, cs_state s0 = Some c0 →
    (sr_Generation (as_reference c0) < sr_Generation ref)%N ∧
    lineage (Some (watermarkOf (as_reference c0))) (Some (watermarkOf ref))) as Hlin.
  { rewrite <- Est. intros c0 E0. split; [by apply (proj1 Hn)|]. destruct Ht as [Hz Hnz].
    destruct (decide (wm_Generation (cs_watermark s) = 0%N)) as [E|E].
    - destruct (Hz E) as [_ ?]. congruence.
    - etrans; [by apply (Hnz E)|by apply Hl]. }
  mwp_go. mwp_go. mwp_go.
  match goal with |- mwp _ _ (if ?c then _ else _) _ _ _ => destruct c eqn:Hle end;
    repeat mwp_go; (split_and!; [done|done|done|done| |done]).
  - destruct Hi1 as (H1' & H2 & H3). split_and!; [by intros ? [= <-]|done|done].
  - apply inv_adopt; [done|done|]. intros Hw. exfalso. bool_prop.
    assert (cs_watermark s1 = cs_watermark s) as E by (by apply Hwm). rewrite E in Hle.
    destruct (decide (wm_Generation (cs_watermark s) = 0%N)) as [E0|E0].
    + simpl in Hle. lia.
    + destruct (newer_watermark h s ref Ht Hn E0) as (? & _). simpl in Hle. lia.
Qed.

Lemma adoptNewer_spec ref object s h :
  consumer_inv h s → trusted h s → newer s ref → sr_Generation ref ≠ 0%N →
  (sr_Generation ref ≤ u64_max)%N →
  mwp R G (adoptNewer consumer (cs_state s) ref object) s h (λ h' s' r, match r with
    | Ok a => advanced h s ref (ob_Version object) h' s' a
    | Err _ => same_view h s h' s'
    end).
Proof.
  intros Hi Ht Hn Hg Hmax. unfold adoptNewer.
  mwp_go. eapply mwp_mono; [apply consumerCommit_reading|]. intros h1 s1 [c|e] (-> & E1 & Hc); simpl.
  2:{ by apply same_view_reads. }
  repeat mwp_go. destruct (validateCommitManifest c (sr_Generation ref)) as [[]|] eqn:Hv; simpl.
  2:{ by apply same_view_reads. }
  assert (commit_at (sr_Generation ref) (sr_Commit ref) c) as Hcm by (split; [by apply Hc|done]).
  assert (∀ h', ext_reads h h' → consumer_inv h' s ∧ trusted h' s) as Hkeep.
  { intros h' E. split; [by eapply inv_reads|]. destruct Ht as [? Hnz]. split; [done|].
    intros E0. destruct (Hnz E0) as (? & ? & ? & Hk & ?). split_and!; try done.
    intros Hw. eapply known_reads; [done|by apply Hk]. }
  destruct (Hkeep h1 E1) as [Hi1 Ht1].
  mwp_go. mwp_go. mwp_go. eapply mwp_mono; [by apply anchor_spec|].
  intros h2 s2 [anchor|e] (-> & -> & Han); [|by apply same_view_reads].
  rewrite (Han _ eq_refl). mwp_go.
  apply (mwp_mono _ _ _ _ _ (λ h' s' r, s' = s ∧ ext_reads h1 h' ∧ (r = Ok tt →
    wm_Generation (cs_watermark s) ≠ 0%N → lineage (Some (cs_watermark s)) (Some (watermarkOf ref))))).
  { match goal with |- mwp _ _ (if ?c then _ else _) _ _ _ => destruct c eqn:Hlt end.
    - bool_prop. eapply mwp_mono; [by apply descendant_reading|].
      intros h' s' r (-> & E & Hd). split_and!; [done|done|]. intros Er _. by apply Hd.
    - mwp_go. split_and!; [done|apply ext_reads_refl|]. intros _ Hnz.
      destruct (newer_watermark h s ref Ht Hn Hnz) as (Hle & Heq & _).
      assert (wm_Generation (cs_watermark s) = sr_Generation ref) as E.
      { apply andb_false_iff in Hlt as [Hlt|Hlt]; bool_prop; lia. }
      simpl. rewrite E, (Heq E). constructor. }
  intros h2 s2 [[]|e] (-> & E2 & Hl); [|apply same_view_reads; [by etrans|done]].
  specialize (Hl eq_refl). mwp_go. eapply mwp_mono; [apply loadDirectory_reading|].
  intros h3 s3 [m|e] (-> & E3 & _); [|apply same_view_reads; [by do 2 (etrans; [eassumption|])|done]].
  assert (ext_reads h h3) as E by (by do 2 (etrans; [eassumption|])).
  apply exposeNewer_spec; try done; [by apply same_view_reads|by apply Hkeep].
Qed.

(** The result of a refresh, an update being to a snapshot with [P]. *)
Definition moved (P : adoptedSnapshot → Prop) (h : history eff) (s : ConsumerState) (h' : history eff) (s' : ConsumerState)
    (r : result (RefreshResult * option error)) : Prop :=
  ∃ res err, r = Ok (res, err) ∧
  ((∃ a, res = refreshResult (Some a) RefreshUpdated ∧ err = None ∧ P a ∧
      advanced h s (as_reference a) (as_version a) h' s' a) ∨
   (rr_Status res ≠ RefreshUpdated ∧ consumer_inv h' s' ∧ (∃ k, h' = h ++ k) ∧
    (err ≠ None → cs_state s' = cs_state s) ∧
    CurrentSnapshot s' = CurrentSnapshot s ∧
    option_map as_reference (cs_state s') = option_map as_reference (cs_state s))).

(** What a refresh reads: an updated view shows a reference that this refresh
    read from the store, with the version it had there, and that this refresh
    authenticated if a verifier is configured. *)
Definition sourced (h h' : history eff) (a : adoptedSnapshot) : Prop :=
  ∃ object, reference_read (cn_repository consumer) channel (cn_referenceVerifier consumer) h h'
    (as_reference a) object ∧ ob_Version object = as_version a.

Definition refreshed (h : history eff) (s : ConsumerState) (h' : history eff) (s' : ConsumerState)
    (r : result (RefreshResult * option error)) : Prop :=
  moved (sourced h h') h s h' s' r.

Lemma moved_same P h s h' s' res err :
  same_view h s h' s' → rr_Status res ≠ RefreshUpdated → moved P h s h' s' (Ok (res, err)).
Proof.
  intros (Hx & E & Hi) Hst. exists res, err. split; [done|]. right.
  unfold CurrentSnapshot. rewrite E. by split_and!.
Qed.

Lemma classifyReference_spec ref object s h :
  consumer_inv h s → trusted h s → sr_Generation ref ≠ 0%N → (sr_Generation ref ≤ u64_max)%N →
  mwp R G (classifyReference consumer (cs_state s) ref object) s h
    (moved (λ a, as_reference a = ref ∧ as_version a = ob_Version object) h s).
Proof.
  intros Hi Ht Hg Hmax. pose proof (same_view_refl _ _ Hi) as Hs.
  unfold classifyReference. mwp_go. mwp_go.
  set (ahead := (0 <? wm_Generation (cs_watermark s))%N && _).
  assert (newer s ref → mwp R G
    (r <- mtry (adoptNewer consumer (cs_state s) ref object) ;;
     match r with
     | Ok adopted => mret (refreshResult (Some adopted) RefreshUpdated, None)
     | Err err => mret (refreshResult (cs_state s) RefreshUnchanged, Some err)
     end) s h (moved (λ a, as_reference a = ref ∧ as_version a = ob_Version object) h s)) as Hadopt.
  { intros Hn. mwp_go. mwp_go. eapply mwp_mono; [by apply adoptNewer_spec|].
    intros h1 s1 [a|e] Ha; mwp_go; [|by apply moved_same].
    exists (refreshResult (Some a) RefreshUpdated), None. split; [done|]. left. exists a.
    pose proof Ha as (_ & _ & [-> ->] & _). done. }
  match goal with |- mwp _ _ (if ?c then _ else _) _ _ _ => destruct c eqn:Hroll end.
  { mwp_go. by apply moved_same. }
  match goal with |- mwp _ _ (if ?c then _ else _) _ _ _ => destruct c eqn:Hsplit end.
  { mwp_go. by apply moved_same. }
  assert (∀ b, ahead = b → (∀ c, cs_state s = Some c →
      (sr_Generation (as_reference c) < sr_Generation ref)%N) → newer s ref) as Hnewer.
  { intros b Hb Hc. split; [done|]. intros Hnz Hall.
    assert (ahead = true) as Hah.
    { unfold ahead. rewrite (proj2 (N.ltb_lt _ _)) by lia. simpl.
      destruct (cs_state s) as [c|]; [|done]. apply N.ltb_lt. by apply Hall. }
    rewrite Hah in *. simpl in Hroll, Hsplit. bool_prop. split; [done|]. intros E.
    apply andb_false_iff in Hsplit as [Hsp|Hsp]; bool_prop; congruence. }
  clear Hroll Hsplit. destruct (cs_state s) as [c|] eqn:Ec; [|by eapply Hadopt, Hnewer].
  match goal with |- mwp _ _ (if ?c then _ else _) _ _ _ => destruct c eqn:? end.
  { mwp_go. by apply moved_same. }
  match goal with |- mwp _ _ (if ?c then _ else _) _ _ _ => destruct c eqn:? end.
  { mwp_go. by apply moved_same. }
  match goal with |- mwp _ _ (if ?c then _ else _) _ _ _ => destruct c eqn:? end; bool_prop.
  { mwp_go. mwp_go. mwp_go. exists (refreshResult (Some c) RefreshUnchanged), None.
    split; [done|]. right. split_and!; [done| |by exists []; rewrite app_nil_r|done| |by rewrite Ec].
    - destruct Hi as (Ha & ? & Hw). split_and!; [|done|by rewrite Ec in Hw].
      intros a [= <-]. exact (Ha c Ec).
    - unfold CurrentSnapshot. by rewrite Ec. }
  eapply Hadopt, Hnewer; [done|]. intros c' [= <-]. lia.
Qed.

Lemma moved_after (P P' : adoptedSnapshot → Prop) h s h1 s1 h' s' r :
  same_view h s h1 s1 → (∀ a, P a → P' a) → moved P h1 s1 h' s' r → moved P' h s h' s' r.
Proof.
  intros ([k ->] & E & _) HP (res & err & -> & Hr). exists res, err. split; [done|].
  destruct Hr as [(a & -> & -> & Hp & [k' ->] & Ha)|(Hst & Hi & [k' ->] & Herr & Hcur & Href)].
  - left. exists a. split_and!; [done|done|by apply HP|]. split.
    + exists (k ++ k'). by rewrite (assoc_L (++)).
    + by rewrite <- E.
  - right. split_and!; try done.
    + exists (k ++ k'). by rewrite (assoc_L (++)).
    + by rewrite <- E.
    + unfold CurrentSnapshot in *. by rewrite <- E.
    + by rewrite <- E.
Qed.

Lemma moved_app P h s h' k s' r : moved P h s h' s' r → moved P h s (h' ++ k) s' r.
Proof.
  intros (res & err & -> & Hr). exists res, err. split; [done|].
  destruct Hr as [(a & -> & -> & Hp & [k' ->] & E1 & E2 & Hi & Hl)|(Hst & Hi & [k' ->] & Hr)].
  - left. exists a. split_and!; [done|done|done|]. rewrite <- (assoc_L (++)).
    split_and!; [by eexists|done|apply E2|apply E2| |done]. rewrite (assoc_L (++)). by apply inv_mono.
  - right. split; [done|]. split; [by apply inv_mono|]. split; [|done].
    rewrite <- (assoc_L (++)). by eexists.
Qed.

Lemma moved_extends P h s h' s' r : moved P h s h' s' r → extends h h'.
Proof. intros (res & err & _ & [(a & _ & _ & _ & Hx & _)|(_ & _ & Hx & _)]); exact Hx. Qed.

Lemma refreshLocked_spec s h :
  consumer_inv h s → mwp R G (refreshLocked consumer) s h (refreshed h s).
Proof.
  intros Hi. unfold refreshLocked. mwp_go.
  apply (mwp_mono _ _ _ _ _ (λ h' s' r, r = Ok tt ∧ h' = h ∧ same_view h s h s' ∧
    (cn_watermarks consumer = true → cs_watermarkLoaded s' = false))).
  { pose proof (same_view_refl h s Hi) as Hs.
    destruct (cn_watermarks consumer) eqn:Hw; mwp_go; (split_and!; [done|done|exact Hs|done]). }
  intros h0 s0 r (-> & -> & Hs0 & Hld). mwp_go. mwp_go.
  eapply mwp_mono; [apply loadWatermark_spec; [apply Hs0|done]|].
  intros h1 s1 [[]|e] [Hs1 Ht].
  2:{ mwp_go. apply moved_same; [by eapply same_view_trans|done]. }
  specialize (Ht eq_refl). pose proof (same_view_trans _ _ _ _ _ _ Hs0 Hs1) as Hs.
  mwp_go. mwp_go. mwp_go. mwp_go.
  eapply mwp_mono; [apply mwp_conj; [apply downloadReference_reading|apply downloadReference_acting]|].
  intros h2 s2 r [(-> & E2 & Hr) [_ Hsrc]]. assert (consumer_inv h1 s1) as Hi1 by apply Hs.
  pose proof (same_view_reads _ _ _ E2 Hi1) as Hs2.
  pose proof (same_view_trans _ _ _ _ _ _ Hs Hs2) as Hs02.
  destruct r as [[ref object]|err].
  - destruct (Hr _ _ eq_refl) as (Hg & Hmax & _). eapply mwp_mono.
    { apply classifyReference_spec; [apply Hs2| |done|done].
      destruct Ht as [? Hnz]. split; [done|]. intros E0.
      destruct (Hnz E0) as (? & ? & ? & Hk & ?). split_and!; try done.
      intros Hw. eapply known_reads; [done|by apply Hk]. }
    intros h3 s3 r3 Hmv. destruct (Hsrc _ _ eq_refl) as (full & Hread & Hver).
    assert (extends h2 h3) as E3 by (by eapply moved_extends).
    eapply moved_after; [exact Hs02| |exact Hmv]. intros a [Er Ev]. exists full. rewrite Er, Ev. split; [|done].
    eapply reference_read_mono; [|exact E3|exact Hread]. by destruct Hs.
  - repeat (match goal with |- mwp _ _ (if ?c then _ else _) _ _ _ => destruct c end);
      try (mwp_go; by apply moved_same).
    destruct (cs_state s1);
      match goal with |- mwp _ _ (if ?c then _ else _) _ _ _ => destruct c end;
      mwp_go; by apply moved_same.
Qed.

Lemma Refresh_spec s h :
  consumer_inv h s → mwp R G (Refresh consumer) s h (refreshed h s).
Proof.
  intros Hi. unfold Refresh. mwp_go. apply mwp_call; [done|]. intros [err|] _.
  { mwp_go. apply moved_same; [by apply same_view_app|done]. }
  mwp_go. mwp_go. eapply mwp_mono; [apply refreshLocked_spec; by apply inv_mono|].
  intros h1 s1 r Hr. mwp_go. apply mwp_call; [done|]. intros [] _. mwp_go.
  eapply moved_app, moved_after; [by apply same_view_app| |done]. intros a (object & Hread & Hv).
  exists object. split; [|done]. eapply reference_read_mono; [apply extends_snoc|apply extends_snoc|done].
Qed.
End Trusted.


(** ** From construction on *)

Lemma NewConsumer_wf repository channel options consumer :
  NewConsumer repository channel options = Ok consumer →
  (∀ cp, cop_TrustedCheckpoint options = Some cp → (wm_Generation cp ≤ u64_max)%N) →
  consumer_wf consumer.
Proof.
  unfold NewConsumer. intros Hn Hmax. destruct repository as [repository|]; [|done]. ok_inv.
  subst consumer. unfold consumer_wf, watermarkID. simpl.
  match goal with Ht : checkTrustOptions _ _ = Ok _ |- _ => rename Ht into Htrust end.
  unfold checkTrustOptions in Htrust. destruct (the (cop_ReferenceVerifier options)) as [verifier|]; simpl.
  - ok_inv. split; [intros _; by bool_prop; apply negb_true_iff|]. intros cp Hcp.
    rewrite Hcp in *. ok_inv. bool_prop. split_and!; [by eexists|done|done|by apply Hmax].
  - ok_inv. bool_prop. split; [by intros [? ?]|]. intros cp Hcp. congruence.
Qed.

(** [n] refreshes in a row, whatever each one reports. *)
Fixpoint refreshes `{AEAD} (consumer : Consumer) (n : nat) : M eff ConsumerState unit :=
  match n with
  | O => mret tt
  | Datatypes.S n => mtry (Refresh consumer) ;;; refreshes consumer n
  end.

(** The view only moves along the history. *)
Definition view_le {U : Hashed} (consumer : Consumer) (s s' : ConsumerState) : Prop :=
  ∀ a, cs_state s = Some a → ∃ b, cs_state s' = Some b ∧
    lineage (Some (watermarkOf consumer (as_reference a)))
            (Some (watermarkOf consumer (as_reference b))).

#[export] Instance view_le_preorder {U : Hashed} consumer : PreOrder (view_le consumer).
Proof.
  split.
  - intros s a Ha. by exists a.
  - intros s1 s2 s3 H1 H2 a Ha. destruct (H1 a Ha) as (b & Hb & Hab).
    destruct (H2 b Hb) as (c & Hc & Hbc). exists c. split; [done|]. by etrans.
Qed.

Lemma refreshed_view {U : Hashed} `{AEAD} `{Chunker} consumer h s h' s' r :
  refreshed consumer h s h' s' r → consumer_inv consumer h' s' ∧ view_le consumer s s'.
Proof.
  intros (res & err & -> & [(a & -> & -> & _ & _ & E & _ & Hi & Hl)|(_ & Hi & _ & _ & _ & E)]).
  - split; [done|]. intros c Hc. exists a. split; [done|]. by apply Hl.
  - split; [done|]. intros c Hc. rewrite Hc in E. destruct (cs_state s') as [b|]; [|done].
    exists b. split; [done|]. simpl in E. injection E as ->. done.
Qed.

Lemma refreshes_spec {U : Hashed} `{AEADLaws} `{Chunker} consumer n s h :
  consumer_wf consumer → consumer_inv consumer h s →
  mwp (consumer_rely consumer) (consumer_protocol consumer) (refreshes consumer n) s h (λ h' s' _,
    consumer_inv consumer h' s' ∧ view_le consumer s s').
Proof.
  intros Hwf. revert s h. induction n as [|n IH]; intros s h Hi; simpl; [by mwp_go|].
  mwp_go. mwp_go. eapply mwp_mono; [by apply Refresh_spec|]. intros h1 s1 r Hr.
  apply refreshed_view in Hr as [Hi1 Hv]. eapply mwp_mono; [by apply IH|].
  intros h2 s2 r2 [Hi2 Hv2]. split; [done|]. by etrans.
Qed.

Lemma consumer_inv_zero {U : Hashed} `{Chunker} consumer : consumer_inv consumer [] ConsumerState_zero.
Proof. split_and!; [done| |done]. by vm_compute. Qed.

(** ** Properties *)

(** C2: a refresh only moves forward, to authenticated snapshots.  Whatever the
    store answers, and if the other readers and processes share only checked
    values and advance the durable watermark along the history as this consumer
    does, a refresh never writes to the store, gives other readers only manifests
    that hash to their names and pass the checks, and moves the durable
    watermark only to a descendant.  It either reports an update, and then the
    reference of the new snapshot was read from the store by this refresh and,
    with a verifier, is the content of an envelope for this repository and
    channel whose signature this refresh had verified; the new snapshot has a
    larger generation, has the previous one as its ancestor, descends from the
    trusted checkpoint and is durable before it is visible.  Or it leaves the
    snapshot in view as it is, also on every error. *)
Theorem Refresh_advances {U : Hashed} `{AEADLaws} `{Chunker} (consumer : Consumer) (s : ConsumerState)
    (h : history eff) :
  consumer_wf consumer → consumer_inv consumer h s →
  mwp (consumer_rely consumer) (consumer_protocol consumer) (Refresh consumer) s h (refreshed consumer h s).
Proof. intros Hwf Hi. by apply Refresh_spec. Qed.

(** C1: no rollback over the life of a consumer.  A consumer that NewConsumer
    accepted, refreshed any number of times in the environment of Refresh_advances, shows
    snapshots that are commits of their generation, descend from the trusted
    checkpoint, are recorded in the watermark store if one is configured, and
    descend from every snapshot it showed before. *)
Theorem consumer_never_rolls_back {U : Hashed} `{AEADLaws} `{Chunker} (repository : Repository) (channel : bytes)
    (options : ConsumerOptions) (consumer : Consumer) (n m : nat) :
  NewConsumer (Some repository) channel options = Ok consumer →
  (∀ cp, cop_TrustedCheckpoint options = Some cp → (wm_Generation cp ≤ u64_max)%N) →
  mwp (consumer_rely consumer) (consumer_protocol consumer) (refreshes consumer n) ConsumerState_zero []
    (λ h1 s1 _, mwp (consumer_rely consumer) (consumer_protocol consumer) (refreshes consumer m) s1 h1
      (λ h2 s2 _, view_le consumer s1 s2 ∧
        ∀ b, cs_state s2 = Some b → adopted_ok consumer h2 b)).
Proof.
  intros Hn Hmax. pose proof (NewConsumer_wf _ _ _ _ Hn Hmax) as Hwf.
  eapply mwp_mono; [apply refreshes_spec; [done|apply consumer_inv_zero]|].
  intros h1 s1 _ [Hi1 _]. eapply mwp_mono; [by apply refreshes_spec|].
  intros h2 s2 _ [Hi2 Hv]. split; [done|]. apply Hi2.
Qed.

(** ** A consumer *)

#[local] Existing Instance everything.

Definition toy_options : ConsumerOptions :=
  {| cop_Cache := Nil; cop_Watermarks := Configured tt; cop_RequirePersistentWatermark := true;
     cop_ReferenceVerifier := Nil; cop_DangerouslyAllowCustomReferenceVerifier := false;
     cop_TrustedCheckpoint := None; cop_AllowTrustOnFirstUse := false;
     cop_Symlinks := SymlinkRejectExternal; cop_MetadataCacheEntries := 0;
     cop_MetadataCacheBytes := 0; cop_MaxConcurrentDownloads := 0;
     cop_MaxConcurrentDownloadBytes := 0; cop_StrictCacheErrors := false;
     cop_OnCacheError := false |}.

Definition toy_plain : Repository :=
  {| rp_reader := SV_External false None; rp_store := Some (SV_External false None);
     rp_prefix := str "team"; rp_clientEncryption := None; rp_descriptor := None |}.

Definition toy_consumer : Consumer :=
  {| cn_repository := toy_plain; cn_channel := str "main"; cn_cache := false; cn_watermarks := true;
     cn_referenceVerifier := None; cn_trustedCheckpoint := None; cn_allowTrustOnFirstUse := false;
     cn_symlinkPolicy := SymlinkRejectExternal; cn_strictCacheErrors := false;
     cn_onCacheError := false; cn_downloadSlots := 8; cn_downloadBytes := maxChunkObjectBytes;
     cn_metadataEntries := 4096; cn_metadataBytes := Z.shiftl 64 20 |}.

Example toy_consumer_new : NewConsumer (Some toy_plain) (str "main") toy_options = Ok toy_consumer.
Proof. by vm_compute. Qed.

(** The in-memory store with a watermark store; no other reader is active. *)
Definition toy_reader : handler eff (Store * option Watermark) := λ X e w,
  match e in eff T return (Store * option Watermark) * T with
  | WM_Load _ => (w, Ok w.2)
  | WM_CompareAndSwap _ expected next =>
      if expected ==? w.2 then ((w.1, Some next), None) else (w, Some [ErrPrecondition])
  | Refresh_Gate => (w, None) | Refresh_Gate_Release => (w, tt)
  | Download_Slot => (w, None) | Download_Bytes _ => (w, None)
  | Download_Release_Bytes _ => (w, tt) | Download_Release_Slot => (w, tt)
  | Meta_Get _ => (w, None) | Meta_Put _ v => (w, v) | Meta_Flight _ => (w, None)
  | Meta_Done _ _ => (w, None)
  | Chunk_Flight _ _ => (w, None) | Chunk_Done _ _ _ _ => (w, None) | Chunk_Release _ _ => (w, tt)
  | e' => let '(store, x) := store_handler live _ e' w.1 in ((store, w.2), x)
  end.

(** A published snapshot with an empty root directory. *)
Definition toy_root : dirManifest := {| dm_Format := 1; dm_Entries := Some [] |}.
Definition toy_published : Store :=
  (run (store_handler live)
    ((root <- putManifest (H:=toy_aead) toy_plain (str "dir") toy_root ;;
      commit <- putManifest (H:=toy_aead) toy_plain (str "commit")
        {| cm_Format := 1; cm_Generation := 1; cm_Parent := None; cm_Root := root;
           cm_PublishedAtUnix := 1700000000000000000; cm_ResetChanges := true |} ;;
      Repository_compareAndSwap (H:=toy_aead) toy_plain (ReferenceKey toy_plain (str "main")) None
        (canonicalJSON {| sr_Format := 1; sr_Generation := 1; sr_Commit := commit |})) tt) New).1.

Example toy_refresh :
  let '(w, (s, r)) := run toy_reader (Refresh (H:=toy_aead) toy_consumer ConsumerState_zero)
                        (toy_published, None) in
  r = Ok ({| rr_Status := RefreshUpdated; rr_Generation := 1 |}, None) ∧
  (wm_Generation <$> w.2) = Some 1%N ∧ is_Some (cs_state s).
Proof. vm_compute. eauto. Qed.

(** A consumer that accepts only references the verifier authenticates. *)
Definition toy_signed_consumer : Consumer :=
  {| cn_repository := toy_plain; cn_channel := str "main"; cn_cache := false; cn_watermarks := true;
     cn_referenceVerifier := Some (as_verifier toy_verifier); cn_trustedCheckpoint := None;
     cn_allowTrustOnFirstUse := true;
     cn_symlinkPolicy := SymlinkRejectExternal; cn_strictCacheErrors := false;
     cn_onCacheError := false; cn_downloadSlots := 8; cn_downloadBytes := maxChunkObjectBytes;
     cn_metadataEntries := 4096; cn_metadataBytes := Z.shiftl 64 20 |}.

Lemma toy_signed_consumer_wf : consumer_wf toy_signed_consumer.
Proof. split; [done|]. intros cp Hcp. discriminate Hcp. Qed.

Lemma Refresh_advances_witness :
  mwp (consumer_rely (H:=toy_aead) (H1:=toy_chunker) toy_signed_consumer)
    (consumer_protocol (H1:=toy_chunker) toy_signed_consumer)
    (Refresh (H:=toy_aead) toy_signed_consumer) ConsumerState_zero []
    (refreshed (H:=toy_aead) toy_signed_consumer [] ConsumerState_zero).
Proof.
  apply (@Refresh_advances _ toy_aead toy_aead_laws toy_chunker toy_signed_consumer ConsumerState_zero []).
  - exact toy_signed_consumer_wf.
  - apply (@consumer_inv_zero _ toy_chunker).
Defined.

Lemma consumer_never_rolls_back_witness :
  mwp (consumer_rely (H:=toy_aead) (H1:=toy_chunker) toy_consumer) (consumer_protocol (H1:=toy_chunker) toy_consumer)
    (refreshes (H:=toy_aead) toy_consumer 1) ConsumerState_zero []
    (λ h1 s1 _, mwp (consumer_rely (H:=toy_aead) (H1:=toy_chunker) toy_consumer) (consumer_protocol (H1:=toy_chunker) toy_consumer)
      (refreshes (H:=toy_aead) toy_consumer 2) s1 h1
      (λ h2 s2 _, view_le toy_consumer s1 s2 ∧
        ∀ b, cs_state s2 = Some b → adopted_ok toy_consumer h2 b)).
Proof.
  apply (@consumer_never_rolls_back _ toy_aead toy_aead_laws toy_chunker toy_plain (str "main")
           toy_options toy_consumer 1 2).
  - vm_compute. reflexivity.
  - intros cp Hcp. discriminate Hcp.
Defined.
