(* ===== verification/Poll.v ===== *)
(** * Following a channel ([live.go], Poll)

    Poll refreshes a Consumer, reports what it found to callbacks and waits.
    Its calls are those of Refresh and the callbacks, the timer and the random
    number of the jitter; a callback answers whether it panicked.  The theorem
    composes the loop with the theorem on one Refresh. *)

From S2P Require Import Prelude.
From S2P Require Import Prog.
From S2P Require Import GoStd.
From S2P Require Import Encoding.
From S2P Require Import Sha256.
From S2P Require Import Json.
From S2P Require Import Model.
From S2P Require Import Manifests.
From S2P Require Import Effects.
From S2P Require Import Trust.
From S2P Require Import MemStore.
From S2P Require Import ClientEncryption.
From S2P Require Import Repository.
From S2P Require Import Ancestry.
From S2P Require Import Consumer.
From S2P Require Import ConsumerProofs.
From S2P Require Import Backoff.

#[export] Instance RefreshStatus_eq_dec : EqDecision RefreshStatus.
Proof. solve_decision. Defined.

(** [Poll_Ctx] is ctx.Err of the context of Poll; [Poll_Wait] ends with None
    when the timer fires and with ctx.Err when the context is done first. *)
Inductive poll_eff : Type → Type :=
| Poll_Eff {X} (e : eff X) : poll_eff X
| Poll_Ctx : poll_eff (option error)
| Poll_OnAttempt : poll_eff bool
| Poll_OnResult (r : RefreshResult) : poll_eff bool
| Poll_OnUpdated (r : RefreshResult) : poll_eff bool
| Poll_OnError (err : error) : poll_eff bool
| Poll_Random : poll_eff float64
| Poll_Wait (delay : Z) : poll_eff (option error).

(** The calls of a method of the consumer as calls of Poll. *)
Fixpoint lift_prog {A} (p : prog eff A) : prog poll_eff A :=
  match p with
  | Ret a => Ret a
  | Vis e k => Vis (Poll_Eff e) (λ x, lift_prog (k x))
  end.

Section Loop.
Context `{AEAD} (consumer : Consumer) (options : PollOptions).
Abbreviation P := (M poll_eff ConsumerState) (only parsing).

Definition refresh : P (RefreshResult * option error) := λ s, lift_prog (Refresh consumer s).

(** A callback that is set; a panic is reported. *)
Definition invokePollError (err : error) : P unit :=
  if po_OnError options then mcall (Poll_OnError err) ;;; mret tt else mret tt.

Definition invoke (set : bool) (callback : poll_eff bool) : P unit :=
  if set then
    panicked <- mcall callback ;;
    if panicked : bool then invokePollError errorText else mret tt
  else mret tt.

Definition invokePollAttempt : P unit := invoke (po_OnAttempt options) Poll_OnAttempt.
Definition invokePollResult (r : RefreshResult) : P unit := invoke (po_OnResult options) (Poll_OnResult r).
Definition invokePollUpdated (r : RefreshResult) : P unit := invoke (po_OnUpdated options) (Poll_OnUpdated r).

(** jitterDuration with its random number. *)
Definition jitter (interval : Z) : P Z :=
  if feq (po_JitterFraction options) fzero then mret interval
  else random <- mcall Poll_Random ;; mret (jitterDuration interval (po_JitterFraction options) random).

(** What a refresh leads to: the error Poll returns, or the new base. *)
Definition pollOutcome (result : RefreshResult) (err : option error) (delayBase : Z) : P (sum error Z) :=
  match err with
  | Some e =>
      ctx <- mcall Poll_Ctx ;;
      match ctx with
      | Some e' => mret (inl e')
      | None => invokePollError e ;;; mret (inr delayBase)
      end
  | None =>
      invokePollResult result ;;;
      (if bool_decide (rr_Status result = RefreshUpdated) then invokePollUpdated result else mret tt) ;;;
      mret (inr (po_Interval options))
  end.

(** [rounds] turns of the loop; [inl] is the error Poll returned, [inr] the base
    of a Poll that still runs. *)
Fixpoint pollLoop (rounds : nat) (delayBase : Z) : P (sum error Z) :=
  match rounds with
  | O => mret (inr delayBase)
  | Datatypes.S rounds =>
      invokePollAttempt ;;;
      ' (result, err) <- refresh ;;
      outcome <- pollOutcome result err delayBase ;;
      match outcome with
      | inl e => mret (inl e)
      | inr delayBase =>
          delay <- jitter delayBase ;;
          let delayBase := if bool_decide (err ≠ None) then advance (pollBackoff options) delayBase
                           else delayBase in
          ended <- mcall (Poll_Wait delay) ;;
          match ended with
          | Some e => mret (inl e)
          | None => pollLoop rounds delayBase
          end
      end
  end.
End Loop.

Definition Poll `{AEAD} (rounds : nat) (consumer : Consumer) (options : PollOptions)
    : M poll_eff ConsumerState (sum error Z) :=
  mlift (PollOptions_Validate options) ;;;
  let options := pollDefaults options in
  pollLoop consumer options rounds (po_Interval options).

(** ** Histories *)

(** The calls of the consumer among those of Poll. *)
Definition eff_events (ev : event poll_eff) : list (event eff) :=
  let '(Ev e x) := ev in
  match e in poll_eff X return X → list (event eff) with
  | Poll_Eff e => λ x, [Ev e x]
  | _ => λ _, []
  end x.
Definition eff_history (h : history poll_eff) : history eff := mjoin (eff_events <$> h).

(** The generations handed to OnUpdated. *)
Definition updated (ev : event poll_eff) : list N :=
  let '(Ev e _) := ev in match e with Poll_OnUpdated r => [rr_Generation r] | _ => [] end.
Definition updates (h : history poll_eff) : list N := mjoin (updated <$> h).

(** The environment of Refresh, with free answers of the callbacks. *)
Definition poll_rely {U : Hashed} `{AEAD} `{Chunker} (consumer : Consumer) : rely poll_eff := λ h X e x,
  match e in poll_eff X return X → Prop with
  | Poll_Eff e => λ x, consumer_rely consumer (eff_history h) _ e x
  | _ => λ _, True
  end x.

(** Refresh keeps its protocol; Poll waits for a jittered base between the
    interval and the maximum. *)
Definition poll_protocol {U : Hashed} `{Chunker} (consumer : Consumer) (options : PollOptions) : guarantee poll_eff := λ h X e,
  match e with
  | Poll_Eff e => consumer_protocol consumer (eff_history h) _ e
  | Poll_Wait delay => ∃ base random, base_ok (pollBackoff options) base ∧
      delay = jitterDuration base (po_JitterFraction options) random
  | _ => True
  end.

Lemma eff_history_app h k : eff_history (h ++ k) = eff_history h ++ eff_history k.
Proof. unfold eff_history. by rewrite fmap_app, join_app. Qed.

Lemma updates_app h k : updates (h ++ k) = updates h ++ updates k.
Proof. unfold updates. by rewrite fmap_app, join_app. Qed.

Section Proofs.
Context {U : Hashed} `{AEADLaws} `{Chunker} (consumer : Consumer) (options : PollOptions).
Abbreviation PR := (poll_rely consumer).
Abbreviation PG := (poll_protocol consumer options).

(** What is proved of a method of the consumer holds inside Poll. *)
Lemma lift_wp {A} (p : prog eff A) h (Q : history eff → A → Prop) :
  wp (consumer_rely consumer) (consumer_protocol consumer) p (eff_history h) Q →
  wp PR PG (lift_prog p) h (λ h' a, Q (eff_history h') a ∧ updates h' = updates h).
Proof.
  revert h. induction p as [a|X e k IH]; intros h Hwp; [done|]. simpl in Hwp. destruct Hwp as [HG Hwp].
  split; [done|]. intros x Hx. specialize (Hwp x Hx).
  assert (eff_history (h ++ [Ev (Poll_Eff e) x]) = eff_history h ++ [Ev e x]) as E
    by (rewrite eff_history_app; done).
  eapply wp_mono; [apply IH; by rewrite E|]. simpl. intros h' a [HQ Hu]. split; [done|].
  by rewrite Hu, updates_app, app_nil_r.
Qed.

(** A call that is neither one of the consumer nor OnUpdated. *)
Definition outer {X} (e : poll_eff X) : Prop :=
  match e with Poll_Eff _ | Poll_OnUpdated _ | Poll_Wait _ => False | _ => True end.

Lemma outer_same {X} (e : poll_eff X) x h :
  outer e → eff_history (h ++ [Ev e x]) = eff_history h ∧ updates (h ++ [Ev e x]) = updates h.
Proof.
  intros Ho. rewrite eff_history_app, updates_app. destruct e; try done; by rewrite !app_nil_r.
Qed.

Definition same_record (h h' : history poll_eff) : Prop :=
  eff_history h' = eff_history h ∧ updates h' = updates h.

Lemma mwp_outer {X} (e : poll_eff X) (s : ConsumerState) h (Q : history poll_eff → ConsumerState → result X → Prop) :
  outer e → (∀ h' x, same_record h h' → Q h' s (Ok x)) → mwp PR PG (mcall e) s h Q.
Proof.
  intros Ho HQ. apply mwp_call; [by destruct e|]. intros x _. apply HQ. by apply outer_same.
Qed.

(** ** The loop *)

Definition shown (s : ConsumerState) (g : N) : Prop :=
  ∃ a, cs_state s = Some a ∧ (g ≤ sr_Generation (as_reference a))%N.

(** The reported generations increase and are not beyond the view. *)
Definition poll_inv (h : history poll_eff) (s : ConsumerState) : Prop :=
  consumer_inv consumer (eff_history h) s ∧ StronglySorted N.lt (updates h) ∧ Forall (shown s) (updates h).

Lemma poll_inv_same h h' s : same_record h h' → poll_inv h s → poll_inv h' s.
Proof. intros [He Hu] (Hi & Hs & Hf). unfold poll_inv. by rewrite He, Hu. Qed.

Lemma sorted_snoc l g : StronglySorted N.lt l → Forall (λ x, (x < g)%N) l → StronglySorted N.lt (l ++ [g]).
Proof.
  induction 1 as [|x l Hl IH Hx]; intros Hg; simpl; [by repeat constructor|].
  apply Forall_cons in Hg as [Hxg Hg]. constructor; [by apply IH|]. apply Forall_app. split; [done|].
  by rewrite Forall_singleton.
Qed.

Hypothesis Hwf : consumer_wf consumer.

Definition quiet {A} (m : M poll_eff ConsumerState A) (P : A → Prop) : Prop :=
  ∀ s h (Q : history poll_eff → ConsumerState → result A → Prop),
    (∀ h' a, same_record h h' → P a → Q h' s (Ok a)) → mwp PR PG m s h Q.

Lemma same_record_trans h1 h2 h3 : same_record h1 h2 → same_record h2 h3 → same_record h1 h3.
Proof. intros [E1 U1] [E2 U2]. split; congruence. Qed.

Lemma quiet_ret {A} (a : A) (P : A → Prop) : P a → quiet (mret a) P.
Proof. intros HP s h Q HQ. apply mwp_ret. by apply HQ. Qed.

Lemma quiet_call {X} (e : poll_eff X) : outer e → quiet (mcall e) (λ _, True).
Proof. intros He s h Q HQ. apply mwp_outer; [done|]. auto. Qed.

Lemma quiet_bind {A B} (m : M poll_eff ConsumerState A) (f : A → M poll_eff ConsumerState B) P P' :
  quiet m P → (∀ a, P a → quiet (f a) P') → quiet (mbind m f) P'.
Proof.
  intros Hm Hf s h Q HQ. apply mwp_bind, Hm. intros h1 a Hs1 Ha. apply (Hf a Ha). intros h2 b Hs2 Hb.
  apply HQ; [by eapply same_record_trans|done].
Qed.

Lemma quiet_error err : quiet (invokePollError options err) (λ _, True).
Proof.
  unfold invokePollError. destruct (po_OnError options); [|by apply quiet_ret].
  eapply quiet_bind; [by apply quiet_call|]. intros. by apply quiet_ret.
Qed.

Lemma quiet_invoke set callback : outer callback → quiet (invoke options set callback) (λ _, True).
Proof.
  intros Ho. unfold invoke. destruct set; [|by apply quiet_ret].
  eapply quiet_bind; [by apply quiet_call|]. intros [] _; [apply quiet_error|by apply quiet_ret].
Qed.

Lemma quiet_jitter base :
  quiet (jitter options base) (λ d, ∃ random, d = jitterDuration base (po_JitterFraction options) random).
Proof.
  unfold jitter. destruct (feq (po_JitterFraction options) fzero) eqn:E.
  - apply quiet_ret. exists fzero. unfold jitterDuration. by rewrite E.
  - eapply quiet_bind; [by apply quiet_call|]. intros random _. apply quiet_ret. by exists random.
Qed.

(** What Refresh returned, and what Poll reported so far. *)
Definition after_refresh (h : history poll_eff) (s0 s : ConsumerState) (result : RefreshResult)
    (err : option error) : Prop :=
  poll_inv h s ∧ view_le consumer s0 s ∧
  (rr_Status result = RefreshUpdated → err = None →
     shown s (rr_Generation result) ∧ Forall (λ g, (g < rr_Generation result)%N) (updates h)).

Lemma refresh_spec s h :
  poll_inv h s →
  mwp PR PG (refresh consumer) s h (λ h' s' r, ∃ result err, r = Ok (result, err) ∧
    after_refresh h' s s' result err).
Proof.
  intros (Hi & Hs & Hf). unfold mwp, refresh.
  eapply wp_mono; [apply lift_wp, (Refresh_spec consumer Hwf s (eff_history h) Hi)|].
  intros h' [s' r] [Hr Hu]. pose proof (refreshed_view _ _ _ _ _ _ Hr) as [Hi' Hv].
  destruct Hr as (res & err & -> & Hr). exists res, err. split; [done|].
  assert (Hview : Forall (shown s') (updates h)).
  { eapply Forall_impl; [exact Hf|]. intros g (a & Ha & Hg). destruct (Hv a Ha) as (b & Hb & Hl).
    exists b. split; [done|]. apply ancestor_le in Hl. simpl in Hl. lia. }
  split; [split; [done|]; by rewrite Hu|]. split; [done|]. rewrite Hu.
  intros Hst He. destruct Hr as [(a & -> & _ & _ & Hadv)|(Hn & _)]; [|done].
  destruct Hadv as (_ & Es & _ & _ & Hold). split; [by exists a|].
  eapply Forall_impl; [exact Hf|]. intros g (c & Hc & Hg). destruct (Hold c Hc) as [Hlt _]. simpl. lia.
Qed.

Lemma updated_ok s0 s h result err :
  after_refresh h s0 s result err → rr_Status result = RefreshUpdated → err = None →
  ∀ x, poll_inv (h ++ [Ev (Poll_OnUpdated result) x]) s.
Proof.
  intros ((Hi & Hs & Hf) & _ & Hup) Hst He x. destruct (Hup Hst He) as [Hsh Hlt].
  unfold poll_inv. rewrite eff_history_app, updates_app. simpl.
  unfold eff_history at 2, updates at 2 4. simpl. rewrite app_nil_r.
  split; [done|]. split; [by apply sorted_snoc|]. apply Forall_app. split; [done|]. by rewrite Forall_singleton.
Qed.

Lemma pollOutcome_spec result err base s0 s h :
  base_ok (pollBackoff options) base → base_ok (pollBackoff options) (po_Interval options) →
  after_refresh h s0 s result err →
  mwp PR PG (pollOutcome options result err base) s h (λ h' s' r, s' = s ∧ poll_inv h' s ∧
    ∃ out, r = Ok out ∧ ∀ b, out = inr b → base_ok (pollBackoff options) b).
Proof.
  intros Hb Hb0 Har. pose proof Har as (Hi & _ & _). unfold pollOutcome. destruct err as [e|].
  - apply mwp_bind, quiet_call; [done|]. intros h1 [e'|] Hs1 _.
    + apply mwp_ret. split; [done|]. split; [by eapply poll_inv_same|]. by eexists.
    + apply mwp_bind, quiet_error. intros h2 [] Hs2 _. apply mwp_ret. split; [done|].
      split; [eapply (poll_inv_same h); [by eapply same_record_trans|done]|]. eexists. split; [done|].
      by intros b [= <-].
  - apply mwp_bind, quiet_invoke; [done|]. intros h1 [] Hs1 _.
    assert (Har1 : after_refresh h1 s0 s result None).
    { destruct Har as (Hi0 & Hv & Hup). destruct Hs1 as [E1 U1].
      split; [by eapply (poll_inv_same h)|]. split; [done|]. by rewrite U1. }
    assert (Hend : ∀ h2, poll_inv h2 s →
      mwp PR PG (mret (inr (po_Interval options))) s h2 (λ h' s' r, s' = s ∧ poll_inv h' s ∧
        ∃ out : error + Z, r = Ok out ∧ ∀ b, out = inr b → base_ok (pollBackoff options) b)).
    { intros h2 Hi2. apply mwp_ret. split; [done|]. split; [done|]. eexists. split; [done|]. by intros b [= <-]. }
    apply mwp_bind. case_bool_decide as Hst; [|apply mwp_ret, Hend; by destruct Har1].
    unfold invokePollUpdated, invoke. destruct (po_OnUpdated options); [|apply mwp_ret, Hend; by destruct Har1].
    apply mwp_bind, mwp_call; [done|]. intros panicked _.
    pose proof (updated_ok _ _ _ _ _ Har1 Hst eq_refl panicked) as Hup.
    destruct panicked; [|by apply mwp_ret, Hend].
    apply quiet_error. intros h3 [] Hs3 _. apply Hend. by eapply poll_inv_same.
Qed.

Lemma wait_same h delay x : same_record h (h ++ [Ev (Poll_Wait delay) x]).
Proof. split; [rewrite eff_history_app|rewrite updates_app]; by rewrite app_nil_r. Qed.

Lemma pollLoop_spec rounds base s h :
  backoff_wf (pollBackoff options) → base_ok (pollBackoff options) base → poll_inv h s →
  mwp PR PG (pollLoop consumer options rounds base) s h (λ h' s' r,
    poll_inv h' s' ∧ view_le consumer s s').
Proof.
  intros Hbw. assert (Hb0 : base_ok (pollBackoff options) (po_Interval options)).
  { destruct Hbw as (? & ? & _). unfold base_ok. simpl in *. lia. }
  revert base s h. induction rounds as [|rounds IH]; intros base s h Hb Hi; simpl; [by apply mwp_ret|].
  apply mwp_bind, quiet_invoke; [done|]. intros h1 [] Hs1 _. apply (poll_inv_same _ _ _ Hs1) in Hi.
  apply mwp_bind. eapply mwp_mono; [by apply refresh_spec|]. intros h2 s2 r (result & err & -> & Har).
  pose proof Har as (_ & Hv & _).
  apply mwp_bind. eapply mwp_mono; [by apply (pollOutcome_spec result err base s)|].
  intros h3 s3 r (-> & Hi3 & out & -> & Hout). destruct out as [e|base']; [by apply mwp_ret|].
  specialize (Hout base' eq_refl). apply mwp_bind, quiet_jitter. intros h4 delay Hs4 (random & Hd).
  apply mwp_bind, mwp_call; [by exists base', random|]. intros ended _.
  assert (Hi5 : poll_inv (h4 ++ [Ev (Poll_Wait delay) ended]) s2)
    by (eapply poll_inv_same; [apply wait_same|]; by eapply poll_inv_same).
  destruct ended as [e|]; [by apply mwp_ret|].
  eapply mwp_mono; [apply IH; [|done]|].
  - destruct (bool_decide (err ≠ None)); [by apply advance_ok|done].
  - intros h6 s6 r6 [Hi6 Hv6]. split; [done|]. by etrans.
Qed.
End Proofs.

(** Following a channel.  A consumer that NewConsumer accepted, polled for
    any number of rounds in the environment of Refresh_advances with options
    that pass Validate, keeps its protocol and its view moves only along the
    history; the generations handed to OnUpdated strictly increase and are never
    beyond the view; Poll waits for a jittered base between the interval and
    the maximum, and fails at once only for invalid options. *)
Theorem poll_follows {U : Hashed} `{AEADLaws} `{Chunker} (repository : Repository) (channel : bytes)
    (copts : ConsumerOptions) (consumer : Consumer) (options : PollOptions) (rounds : nat) :
  NewConsumer (Some repository) channel copts = Ok consumer →
  (∀ cp, cop_TrustedCheckpoint copts = Some cp → (wm_Generation cp ≤ u64_max)%N) →
  po_MaxInterval options ≤ int64_max →
  mwp (poll_rely consumer) (poll_protocol consumer (pollDefaults options)) (Poll rounds consumer options)
    ConsumerState_zero [] (λ h s r,
      consumer_inv consumer (eff_history h) s ∧ StronglySorted N.lt (updates h) ∧
      Forall (shown s) (updates h) ∧
      (∀ err, PollOptions_Validate options = Err err → r = Err err ∧ h = [])).
Proof.
  intros Hn Hcp Hmax. pose proof (NewConsumer_wf _ _ _ _ Hn Hcp) as Hwf. unfold Poll.
  assert (Hi0 : poll_inv consumer [] ConsumerState_zero).
  { split; [apply consumer_inv_zero|]. split; constructor. }
  apply mwp_bind, mwp_lift. destruct (PollOptions_Validate options) as [[]|e] eqn:Ev.
  - pose proof (poll_backoff_wf _ Ev Hmax) as Hb.
    eapply mwp_mono; [apply pollLoop_spec; [done|done| |done]|].
    + destruct Hb as (? & ? & _). unfold base_ok. simpl in *. lia.
    + intros h s r [(Hi & Hs & Hf) _]. by split_and!.
  - destruct Hi0 as (Hi & Hs & Hf). split_and!; [done..|]. by intros err [= <-].
Qed.

#[local] Existing Instance everything.

Definition toy_poll_options : PollOptions :=
  {| po_Interval := 0; po_MaxInterval := 0; po_BackoffFactor := fzero; po_JitterFraction := fzero;
     po_AttemptTimeout := 0; po_OnAttempt := true; po_OnResult := true; po_OnUpdated := true;
     po_OnError := true |}.

Lemma poll_follows_witness :
  PollOptions_Validate toy_poll_options = Ok tt ∧
  mwp (poll_rely (H:=toy_aead) (H0:=toy_chunker) toy_consumer)
    (poll_protocol (H:=toy_chunker) toy_consumer (pollDefaults toy_poll_options))
    (Poll (H:=toy_aead) 3 toy_consumer toy_poll_options) ConsumerState_zero []
    (λ h s r, Forall (shown s) (updates h)).
Proof.
  split; [vm_compute; reflexivity|]. eapply mwp_mono.
  - apply (@poll_follows _ toy_aead toy_aead_laws toy_chunker toy_plain (str "main") toy_options toy_consumer
             toy_poll_options 3).
    + vm_compute. reflexivity.
    + intros cp Hcp. discriminate Hcp.
    + vm_compute. discriminate.
  - intros h s r (_ & _ & Hf & _). exact Hf.
Defined.
