(* ===== verification/Bundle.v ===== *)
(** * Share bundles ([presignedshare/bundle.go], [snapshot_bundle.go])

    A bundle is the signed state of a share: the channel reference with the
    capabilities for exactly the objects of its closure.  [Build] makes and
    signs the canonical bytes, [Decode] authenticates them and binds them to the
    out-of-band identity of the share; [BuildSnapshotBundle] presigns the keys
    of a sealed closure. *)

From stdpp Require Import sorting.
From S2P Require Import Prelude.
From S2P Require Import Prog.
From S2P Require Import GoStd.
From S2P Require Import Encoding.
From S2P Require Import Json.
From S2P Require Import Model.
From S2P Require Import Rfc3339.
From S2P Require Import Effects.
From S2P Require Import Capability.
From S2P Require Import Trust.
From S2P Require Import ClientEncryption.
From S2P Require Import Repository.
From S2P Require Import Watermark.
From S2P Require Import Closure.
From S2P Require Import Consumer.

Definition BundleFormat : Z := 1.
Definition MaximumBundleBytes : Z := Z.shiftl 64 20.
Definition MaximumBundleCapabilities : Z := 65536.
Definition maximumReferenceBytes : Z := Z.shiftl 4 10.
Definition maximumShareSignatureBytes : Z := 512.
Definition maximumShareKeyIDBytes : Z := 128.

Definition bundleSigningDomain : bytes :=
  str "s3disk" ++ [x00] ++ str "presigned-share-bundle" ++ [x00] ++ str "v1" ++ [x00].

(** ** Share identities *)

(** A Go array [16]byte. *)
Abbreviation ShareID := (list Byte.byte) (only parsing).
Definition ShareID_zero : ShareID := replicate 16 x00.
Definition ShareID_IsZero (identifier : ShareID) : bool := identifier ==? ShareID_zero.

Definition GenerateShareID {S} : M eff S ShareID :=
  random <- mcallr (Rand_Read 16) ;;
  mret (fill 16 random).

Definition ParseShareID (value : bytes) : result ShareID :=
  match base64_RawURLEncoding_DecodeString value with
  | None => Err errorText
  | Some decoded =>
      guard_err (negb (len decoded =? 16)) errorText ?;;
      guard_err (ShareID_IsZero decoded) errorText ?;;
      Ok decoded
  end.
Definition ShareID_String (identifier : ShareID) : bytes :=
  base64_RawURLEncoding_EncodeToString identifier.

Definition enc_share (identifier : ShareID) : json := JStr (ShareID_String identifier).
(** The zero value reaches ParseShareID for null. *)
Definition dec_share (j : json) : option ShareID :=
  match dec_string j with
  | Some s => match ParseShareID s with Ok d => Some d | Err _ => None end
  | None => None
  end.

(** ** The wire format *)

Record wireObject := {
  wo_Data : slice byte;
  wo_ETag : bytes;
  wo_VersionID : bytes;
}.
#[export] Instance wireObject_eq_dec : EqDecision wireObject.
Proof. solve_decision. Defined.
Definition wireObject_zero : wireObject := {| wo_Data := None; wo_ETag := []; wo_VersionID := [] |}.

#[export] Instance wireObject_json : JSON wireObject := {
  to_json o := JObj ([(str "data", enc_bytes (wo_Data o)); (str "etag", JStr (wo_ETag o))]
                     ++ opt_string "version_id" (wo_VersionID o));
  of_json j :=
    fs ← obj_fields j;
    d ← fld "data" fs dec_bytes None;
    e ← fld "etag" fs dec_string [];
    v ← fld "version_id" fs dec_string [];
    Some {| wo_Data := d; wo_ETag := e; wo_VersionID := v |};
  json_valid o := utf8_ok (wo_ETag o) ∧ utf8_ok (wo_VersionID o);
}.

#[export] Instance wireObject_laws : JSONLaws wireObject.
Proof.
  split.
  - intros [d e v] (He & Hv). cbn [wo_Data wo_ETag wo_VersionID] in *. apply json_wf_obj, Forall_app. split.
    + repeat (apply Forall_cons; split; [split; [done|]|]); cbn [snd]; try done. apply enc_bytes_wf.
    + cbn [wo_VersionID]. unfold opt_string. destruct (bool_decide (v = [])); [constructor|]. repeat constructor; done.
  - intros [d e v] (He & Hv). unfold to_json, of_json, wireObject_json, opt_string. cbn [wo_Data wo_ETag wo_VersionID].
    destruct v as [|b v]; [rewrite bool_decide_true by done|rewrite bool_decide_false by done]; by json_decode.
Qed.

Record wireExactCapability := {
  wc_Key : bytes;
  wc_URL : bytes;
  wc_Headers : slice wireHeader;
  wc_ExpiresAt : Time;
}.
#[export] Instance wireExactCapability_eq_dec : EqDecision wireExactCapability.
Proof. solve_decision. Defined.

#[export] Instance wireExactCapability_json : JSON wireExactCapability := {
  to_json c := JObj [(str "key", JStr (wc_Key c)); (str "url", JStr (wc_URL c));
                     (str "headers", enc_slice to_json (wc_Headers c));
                     (str "expires_at", enc_time (wc_ExpiresAt c))];
  of_json j :=
    fs ← obj_fields j;
    k ← fld "key" fs dec_string [];
    u ← fld "url" fs dec_string [];
    h ← fld "headers" fs (dec_slice of_json) None;
    e ← fld "expires_at" fs dec_time Time_zero;
    Some {| wc_Key := k; wc_URL := u; wc_Headers := h; wc_ExpiresAt := e |};
  json_valid c := utf8_ok (wc_Key c) ∧ utf8_ok (wc_URL c) ∧ Forall json_valid (els (wc_Headers c)) ∧
    Time_marshals (wc_ExpiresAt c) = true;
}.

#[export] Instance wireExactCapability_laws : JSONLaws wireExactCapability.
Proof.
  split.
  - intros [k u h e] (Hk & Hu & Hh & He). cbn [wc_Key wc_URL wc_Headers wc_ExpiresAt] in *.
    json_object. by apply slice_wf. by apply enc_time_wf.
  - intros [k u h e] (Hk & Hu & Hh & He). cbn [wc_Key wc_URL wc_Headers wc_ExpiresAt] in *.
    json_decode. json_slice wireHeader Hh. by rewrite dec_time_ok.
Qed.

Record bundlePayload := {
  bp_Format : Z;
  bp_RepositoryID : RepositoryID;
  bp_RepositoryPrefix : bytes;
  bp_ReferenceKey : bytes;
  bp_ShareID : ShareID;
  bp_Revision : N;
  bp_ReferenceGeneration : N;
  bp_ReferenceCommit : Digest;
  bp_Reference : wireObject;
  bp_AuthorizationExpiresAt : Time;
  bp_KeyID : bytes;
  bp_Capabilities : slice wireExactCapability;
}.
#[export] Instance bundlePayload_eq_dec : EqDecision bundlePayload.
Proof. solve_decision. Defined.

Definition share_wf (identifier : ShareID) : Prop :=
  length identifier = 16%nat ∧ ShareID_IsZero identifier = false.

#[export] Instance bundlePayload_json : JSON bundlePayload := {
  to_json p := JObj [(str "format", JNum (bp_Format p));
                     (str "repository_id", enc_digest (bp_RepositoryID p));
                     (str "repository_prefix", JStr (bp_RepositoryPrefix p));
                     (str "reference_key", JStr (bp_ReferenceKey p));
                     (str "share_id", enc_share (bp_ShareID p));
                     (str "revision", enc_uint (bp_Revision p));
                     (str "reference_generation", enc_uint (bp_ReferenceGeneration p));
                     (str "reference_commit", enc_digest (bp_ReferenceCommit p));
                     (str "reference", to_json (bp_Reference p));
                     (str "authorization_expires_at", enc_time (bp_AuthorizationExpiresAt p));
                     (str "key_id", JStr (bp_KeyID p));
                     (str "capabilities", enc_slice to_json (bp_Capabilities p))];
  of_json j :=
    fs ← obj_fields j;
    f ← fld "format" fs dec_int 0;
    r ← fld "repository_id" fs dec_digest RepositoryID_zero;
    p ← fld "repository_prefix" fs dec_string [];
    k ← fld "reference_key" fs dec_string [];
    s ← fld "share_id" fs dec_share ShareID_zero;
    v ← fld "revision" fs (dec_uint u64_max) 0%N;
    g ← fld "reference_generation" fs (dec_uint u64_max) 0%N;
    c ← fld "reference_commit" fs dec_digest Digest_zero;
    o ← fld "reference" fs of_json wireObject_zero;
    e ← fld "authorization_expires_at" fs dec_time Time_zero;
    i ← fld "key_id" fs dec_string [];
    l ← fld "capabilities" fs (dec_slice of_json) None;
    Some {| bp_Format := f; bp_RepositoryID := r; bp_RepositoryPrefix := p; bp_ReferenceKey := k;
            bp_ShareID := s; bp_Revision := v; bp_ReferenceGeneration := g; bp_ReferenceCommit := c;
            bp_Reference := o; bp_AuthorizationExpiresAt := e; bp_KeyID := i; bp_Capabilities := l |};
  json_valid p := int_ok (bp_Format p) ∧ digest_wf (bp_RepositoryID p) ∧ utf8_ok (bp_RepositoryPrefix p) ∧
    utf8_ok (bp_ReferenceKey p) ∧ share_wf (bp_ShareID p) ∧ u64_ok (bp_Revision p) ∧
    u64_ok (bp_ReferenceGeneration p) ∧ digest_wf (bp_ReferenceCommit p) ∧ json_valid (bp_Reference p) ∧
    Time_marshals (bp_AuthorizationExpiresAt p) = true ∧ utf8_ok (bp_KeyID p) ∧
    Forall json_valid (els (bp_Capabilities p));
}.

Record signedBundle := {
  sb_Format : Z;
  sb_Payload : bundlePayload;
  sb_Signature : slice byte;
}.
#[export] Instance signedBundle_eq_dec : EqDecision signedBundle.
Proof. solve_decision. Defined.
Definition bundlePayload_zero : bundlePayload :=
  {| bp_Format := 0; bp_RepositoryID := RepositoryID_zero; bp_RepositoryPrefix := []; bp_ReferenceKey := [];
     bp_ShareID := ShareID_zero; bp_Revision := 0; bp_ReferenceGeneration := 0;
     bp_ReferenceCommit := Digest_zero; bp_Reference := wireObject_zero;
     bp_AuthorizationExpiresAt := Time_zero; bp_KeyID := []; bp_Capabilities := None |}.

#[export] Instance signedBundle_json : JSON signedBundle := {
  to_json b := JObj [(str "format", JNum (sb_Format b)); (str "payload", to_json (sb_Payload b));
                     (str "signature", enc_bytes (sb_Signature b))];
  of_json j :=
    fs ← obj_fields j;
    f ← fld "format" fs dec_int 0;
    p ← fld "payload" fs of_json bundlePayload_zero;
    s ← fld "signature" fs dec_bytes None;
    Some {| sb_Format := f; sb_Payload := p; sb_Signature := s |};
  json_valid b := int_ok (sb_Format b) ∧ json_valid (sb_Payload b);
}.

Lemma b64_url_utf8 l : utf8_ok (base64_RawURLEncoding_EncodeToString l).
Proof.
  apply valid_utf8_ascii. unfold base64_RawURLEncoding_EncodeToString.
  assert (∀ n, (n < 64)%N → (byte_val (b64_char b64_url n) < 128)%N) as Hc.
  { apply (forall_below 64 (λ n, (byte_val (b64_char b64_url n) < 128)%N)). by vm_compute. }
  induction l as [l IH] using (induction_ltof1 _ length). unfold ltof in IH.
  assert (∀ b, byte_val b < 256)%N as Hb by apply byte_val_lt.
  destruct l as [|a [|b [|d l]]]; cbn -[N.mul N.div N.modulo b64_char];
    [constructor| | |]; pose proof (Hb a); try pose proof (Hb b); try pose proof (Hb d);
    repeat (apply List.Forall_cons; [apply Hc; lia|]); [constructor..|]. apply IH. simpl. lia.
Qed.

Lemma enc_share_wf s : json_wf (enc_share s).
Proof. apply b64_url_utf8. Qed.

Lemma dec_share_ok s : share_wf s → dec_share (enc_share s) = Some s.
Proof.
  intros [Hl Hz]. unfold dec_share, enc_share, ShareID_String, ParseShareID. simpl.
  rewrite base64_raw_roundtrip. unfold len. rewrite Hl, Hz. done.
Qed.
Arguments enc_share : simpl never.
Arguments dec_share : simpl never.

Lemma slice_ok T `{JSONLaws T} (s : slice T) :
  Forall json_valid (els s) → dec_slice of_json (enc_slice to_json s) = Some s.
Proof. intros Hs. apply dec_slice_ok. eapply Forall_impl; [exact Hs|]. intros v. apply of_to_json. Qed.

#[export] Instance bundlePayload_laws : JSONLaws bundlePayload.
Proof.
  split.
  - intros p (Hf & Hr & Hp & Hk & Hs & Hv & Hg & Hc & Ho & He & Hi & Hl). json_object.
    + apply enc_share_wf.
    + by apply (json_valid_wf (T:=wireObject)).
    + by apply enc_time_wf.
    + by apply slice_wf.
  - intros [f r p k s v g c o e i l] (Hf & Hr & Hp & Hk & Hs & Hv & Hg & Hc & Ho & He & Hi & Hl).
    cbn [bp_Format bp_RepositoryID bp_RepositoryPrefix bp_ReferenceKey bp_ShareID bp_Revision
         bp_ReferenceGeneration bp_ReferenceCommit bp_Reference bp_AuthorizationExpiresAt bp_KeyID
         bp_Capabilities] in *.
    pose proof (of_to_json (T:=wireObject) o Ho) as Hof.
    pose proof (slice_ok wireExactCapability l Hl) as Hlist.
    unfold to_json at 1, of_json at 1, bundlePayload_json.
    cbn [bp_Format bp_RepositoryID bp_RepositoryPrefix bp_ReferenceKey bp_ShareID bp_Revision
         bp_ReferenceGeneration bp_ReferenceCommit bp_Reference bp_AuthorizationExpiresAt bp_KeyID
         bp_Capabilities].
    cbv beta iota delta [obj_fields base.mbind option_bind]. json_fields. cbv beta iota delta [dec_string].
    rewrite dec_int_ok, !dec_digest_ok, dec_share_ok, !dec_uint_ok, dec_time_ok, Hof, Hlist by done. done.
Qed.

#[export] Instance signedBundle_laws : JSONLaws signedBundle.
Proof.
  split.
  - intros b (Hf & Hp). json_object. by apply (json_valid_wf (T:=bundlePayload)).
  - intros [f p s] (Hf & Hp). cbn [sb_Format sb_Payload sb_Signature] in *.
    pose proof (of_to_json (T:=bundlePayload) p Hp) as Hof.
    unfold to_json, of_json, signedBundle_json. cbn [sb_Format sb_Payload sb_Signature].
    cbv beta iota delta [obj_fields base.mbind option_bind]. json_fields. rewrite dec_int_ok by done. cbn [base.mbind option_bind].
    rewrite Hof. cbn [base.mbind option_bind]. by rewrite dec_bytes_ok.
Qed.

(** ** Keys *)

Definition repositoryObjectNamespace (prefix : bytes) : bytes :=
  if prefix ==? [] then repositoryNamespace ++ [slash]
  else prefix ++ [slash] ++ repositoryNamespace ++ [slash].

Definition signedRefs : bytes := str "signed-refs/v1/".
Definition plainRefs : bytes := str "refs/".

(** The channel and whether the reference is a signed one. *)
Definition channelFromReferenceRemainder (relative : bytes) : result (bytes * bool) :=
  ' (encodedChannel, signed) <-?
    (if HasPrefix relative plainRefs then Ok (TrimPrefix relative plainRefs, false)
     else if HasPrefix relative signedRefs then Ok (TrimPrefix relative signedRefs, true)
     else Err [ErrInvalidBundle]) ;;
  guard_err ((encodedChannel ==? []) || contains_byte slash encodedChannel) [ErrInvalidBundle] ?;;
  match base64_RawURLEncoding_DecodeString encodedChannel with
  | None => Err [ErrInvalidBundle]
  | Some channelBytes =>
      guard_err ((len channelBytes =? 0) || (1024 <? len channelBytes)
                 || negb (utf8_ValidString channelBytes) || contains_byte x00 channelBytes
                 || (base64_RawURLEncoding_EncodeToString channelBytes !=? encodedChannel))
                [ErrInvalidBundle] ?;;
      Ok (channelBytes, signed)
  end.
Definition validReferenceRemainder (relative : bytes) : bool := is_ok (channelFromReferenceRemainder relative).

Definition lowercaseHex (value : bytes) : bool :=
  forallb (λ c, let v := byte_val c in
                (((48 <=? v) && (v <=? 57)) || ((97 <=? v) && (v <=? 102)))%N) value.

Definition immutableKinds : list bytes :=
  [str "commit"; str "dir"; str "file"; str "symlink"; str "chunk"].

Definition validImmutableRemainder (relative : bytes) : bool :=
  match Split slash relative with
  | [objects; kind; hash; shard; digest] =>
      (objects ==? str "objects") && ((hash ==? str "sha256") || (hash ==? str "hmac-sha256"))
      && bool_decide (kind ∈ immutableKinds)
      && (len shard =? 2) && (len digest =? 64) && (shard ==? take 2 digest)
      && lowercaseHex shard && lowercaseHex digest
  | _ => false
  end.

Definition validateImmutableKey (prefix key : bytes) : result unit :=
  guard_err (negb (validObjectKey key)) [ErrInvalidBundle] ?;;
  let relative := TrimPrefix key (repositoryObjectNamespace prefix) in
  guard_err ((relative ==? key) || negb (validImmutableRemainder relative)) [ErrInvalidBundle].

Definition validateBundleBindings (prefix referenceKey : bytes) (shareID : ShareID)
    (revision generation : N) : result bytes :=
  guard_err (negb (utf8_ValidString prefix) || contains_byte x00 prefix) [ErrInvalidBundle] ?;;
  let prefix := Trim prefix slash in
  guard_err (ShareID_IsZero shareID || (revision ==? 0%N) || (generation ==? 0%N)) [ErrInvalidBundle] ?;;
  guard_err (negb (validObjectKey referenceKey)) [ErrInvalidBundle] ?;;
  let relative := TrimPrefix referenceKey (repositoryObjectNamespace prefix) in
  guard_err ((relative ==? referenceKey) || negb (validReferenceRemainder relative)) [ErrInvalidBundle] ?;;
  Ok prefix.

(** All the allowed runes are ASCII, so the test is one on bytes. *)
Definition validateKeyID (keyID : bytes) : result unit :=
  guard_err ((keyID ==? []) || (maximumShareKeyIDBytes <? len keyID)) [ErrUntrustedBundle] ?;;
  guard_err (negb (forallb (λ c, contains_byte c keyIDAlphabet) keyID)) [ErrUntrustedBundle].

Definition bundleSigningMessage (payload : bytes) : bytes :=
  bundleSigningDomain ++ BigEndian_AppendUint64 [] (Z.to_N (len payload)) ++ payload.

(** ** The size estimate *)

(** The bytes of a character below 0x80 in JSON text. *)
Definition jsonCharacterBytes (character : byte) : Z :=
  if bool_decide (character ∈ [x08; x0c; x0a; x0d; x09; x5c; x22]) then 2
  else if bool_decide (character ∈ [x3c; x3e; x26]) then 6
  else if (byte_val character <? 32)%N then 6 else 1.

(** The loop over the runes from a position; every round consumes a byte. *)
Fixpoint jsonRuneBytes (fuel : nat) (value : bytes) : Z :=
  match value, fuel with
  | [], _ => 0
  | _, O => 0
  | character :: rest, S fuel =>
      if (byte_val character <? 128)%N then jsonCharacterBytes character + jsonRuneBytes fuel rest
      else match rune_size value with
           | None => 6 + jsonRuneBytes fuel rest
           | Some width =>
               (if bool_decide (take width value ∈ [[xe2; x80; xa8]; [xe2; x80; xa9]])
                then 6 else Z.of_nat width)
               + jsonRuneBytes fuel (drop width value)
           end
  end.
Definition jsonStringBytes (value : bytes) : Z := 2 + jsonRuneBytes (length value) value.

(** [base64.StdEncoding.EncodedLen]. *)
Definition base64_StdEncoding_EncodedLen (n : Z) : Z := (n + 2) / 3 * 4.

Record ExactCapability := {
  ec_Key : bytes;
  ec_Capability : Capability;
}.

Record BuildInput := {
  bi_RootCapability : Capability;
  bi_RootKey : bytes;
  bi_RepositoryPrefix : bytes;
  bi_ReferenceKey : bytes;
  bi_ShareID : ShareID;
  bi_Revision : N;
  bi_ReferenceGeneration : N;
  bi_ReferenceCommit : Digest;
  bi_Reference : Object;
  bi_AuthorizationExpiresAt : Z;
  bi_Capabilities : list ExactCapability;
  bi_DangerouslyAllowUncheckedCapabilities : bool;
}.

(** The closure [add], over a list of sizes. *)
Fixpoint addSizes (sizes : list Z) (total : Z) : result Z :=
  match sizes with
  | [] => Ok total
  | size :: sizes =>
      guard_err ((size <? 0) || (MaximumBundleBytes - size <? total)) [ErrInvalidBundle] ?;;
      addSizes sizes (total + size)
  end.

(** The sizes of the headers of a capability, in the order of the map. *)
Definition headerSizes (headers : gmap bytes (list bytes)) : list Z :=
  concat (map (λ ' (name, values), [64; jsonStringBytes name]
                 ++ concat (map (λ value, [2; jsonStringBytes value]) values)) (map_to_list headers)).

(** [if index&255 == 0 { if err := ctx.Err() ... } }]. *)
Definition checkEvery {S} (index : Z) : M eff S unit :=
  if Z.land index 255 =? 0 then checkCtx else mret tt.

Fixpoint preflightCapabilities {S} (index : Z) (capabilities : list ExactCapability) (total : Z)
    : M eff S unit :=
  match capabilities with
  | [] => mret tt
  | entry :: capabilities =>
      checkEvery index ;;;
      total <- mlift (addSizes ([256; jsonStringBytes (ec_Key entry);
                                 jsonStringBytes (cap_rawURL (ec_Capability entry))]
                                ++ headerSizes (cap_headers (ec_Capability entry))) total) ;;
      preflightCapabilities (index + 1) capabilities total
  end.

Definition preflightBuildInput {S} (input : BuildInput) : M eff S unit :=
  mguard ((len (bi_Capabilities input) <? 1) || (MaximumBundleCapabilities <? len (bi_Capabilities input)))
         [ErrInvalidBundle] ;;;
  mguard ((len (ob_Data (bi_Reference input)) =? 0)
          || (maximumReferenceBytes <? len (ob_Data (bi_Reference input)))) [ErrInvalidBundle] ;;;
  total <- mlift (addSizes [base64_StdEncoding_EncodedLen (len (ob_Data (bi_Reference input)));
                            jsonStringBytes (bi_RepositoryPrefix input);
                            jsonStringBytes (bi_ReferenceKey input);
                            jsonStringBytes (v_ETag (ob_Version (bi_Reference input)));
                            jsonStringBytes (v_VersionID (ob_Version (bi_Reference input)))]
                           (Z.shiftl 8 10)) ;;
  preflightCapabilities 0 (bi_Capabilities input) total.

(** ** The embedded reference *)

Definition validReferenceVersion (version : Version) : bool :=
  negb ((v_ETag version ==? []) || (MaxStoreVersionTokenBytes <? len (v_ETag version))
        || (MaxStoreVersionTokenBytes <? len (v_VersionID version))
        || ContainsAny (v_ETag version ++ v_VersionID version) nul_cr_lf).

Section Bundles.
Context `{NetLibrary} {S : Type}.

(** The reference of a signed channel is verified; a verifier that is a typed nil
    is an error there, and none reads the reference as an unsigned one. *)
Definition verifyEmbedded (data channel : bytes) (signed : bool) (verifier : dependency VerifierValue)
    : M eff S SnapshotReferenceIdentity :=
  match signed, verifier with
  | true, TypedNil => checkCtx ;;; mfail errorText
  | true, Configured verifier => VerifySnapshotReference data channel (Some (vv_verifier verifier))
  | _, _ => VerifySnapshotReference data channel None
  end.

Definition validateReference (reference : Object) (prefix referenceKey : bytes) (generation : N)
    (commit : Digest) (verifier : dependency VerifierValue) : M eff S unit :=
  mguard ((len (ob_Data reference) =? 0) || (maximumReferenceBytes <? len (ob_Data reference)))
         [ErrInvalidBundle] ;;;
  mguard (negb (validReferenceVersion (ob_Version reference))) [ErrInvalidBundle] ;;;
  let relative := TrimPrefix referenceKey (repositoryObjectNamespace prefix) in
  ' (channel, signed) <- mwrap (λ _, [ErrInvalidBundle]) (mlift (channelFromReferenceRemainder relative)) ;;
  info <- mtry (verifyEmbedded (ob_Data reference) channel signed verifier) ;;
  match info with
  | Err err =>
      checkCtx ;;;
      if errors_Is err ErrUntrustedReference then mfail [ErrUntrustedBundle] else mfail [ErrInvalidBundle]
  | Ok info =>
      mguard ((generation ==? 0%N) || Digest_IsZero commit || (id_Generation info !=? generation)
              || (id_Commit info !=? commit)) [ErrInvalidBundle]
  end.

(** The expiry of an authorization against the clock and the root. *)
Definition validExpiry (authorizationExpiry rootExpiry now : Z) : bool :=
  negb (ns_IsZero authorizationExpiry || (authorizationExpiry <=? now)
        || negb (authorizationExpiry =? rootExpiry)
        || (MaximumCapabilityLifetime <? authorizationExpiry - now)).

(** ** Building *)

(** One round of the loop of payloadFromInput after the checks of the key. *)
Definition checkInputCapability (input : BuildInput) (authorizationExpiry : Z) (entry : ExactCapability)
    : result wireExactCapability :=
  let capability := ec_Capability entry in
  guard_err (negb (Capability_Configured capability)
             || (cap_origin capability !=? cap_origin (bi_RootCapability input))) [ErrInvalidBundle] ?;;
  guard_err (cap_exactKey capability !=? ec_Key entry) [ErrInvalidBundle] ?;;
  guard_err ((cap_provenance capability !=? capabilityProvenanceExactGET)
             && negb (bi_DangerouslyAllowUncheckedCapabilities input)) [ErrInvalidBundle] ?;;
  guard_err (negb (cap_expiresAt capability =? authorizationExpiry)) [ErrInvalidBundle] ?;;
  Ok {| wc_Key := ec_Key entry; wc_URL := cap_rawURL capability;
        wc_Headers := headersToWire (cap_headers capability);
        wc_ExpiresAt := Time_UTC (cap_expiresAt capability) |}.

Fixpoint wireCapabilities (input : BuildInput) (prefix : bytes) (authorizationExpiry index : Z)
    (previous : bytes) (capabilities : list ExactCapability) : M eff S (list wireExactCapability) :=
  match capabilities with
  | [] => mret []
  | entry :: capabilities =>
      checkEvery index ;;;
      mlift (validateImmutableKey prefix (ec_Key entry)) ;;;
      mguard (ec_Key entry ==? previous) [ErrInvalidBundle] ;;;
      wire <- mlift (checkInputCapability input authorizationExpiry entry) ;;
      rest <- wireCapabilities input prefix authorizationExpiry (index + 1) (ec_Key entry) capabilities ;;
      mret (wire :: rest)
  end.

Definition sortCapabilities (capabilities : list ExactCapability) : list ExactCapability :=
  merge_sort (λ a b, bytes_Compare (ec_Key a) (ec_Key b) ≠ Gt) capabilities.

Definition payloadFromInput (input : BuildInput) (repositoryID : RepositoryID) (keyID : bytes)
    (verifier : VerifierValue) (now : Z) : M eff S bundlePayload :=
  prefix <- mlift (validateBundleBindings (bi_RepositoryPrefix input) (bi_ReferenceKey input)
                     (bi_ShareID input) (bi_Revision input) (bi_ReferenceGeneration input)) ;;
  mguard (negb (Capability_Configured (bi_RootCapability input))) [ErrInvalidBundle] ;;;
  mguard (negb (validObjectKey (bi_RootKey input))
          || (cap_exactKey (bi_RootCapability input) !=? bi_RootKey input)) [ErrInvalidBundle] ;;;
  mguard ((cap_provenance (bi_RootCapability input) !=? capabilityProvenanceExactGET)
          && negb (bi_DangerouslyAllowUncheckedCapabilities input)) [ErrInvalidBundle] ;;;
  let authorizationExpiry := bi_AuthorizationExpiresAt input in
  mguard (negb (validExpiry authorizationExpiry (cap_expiresAt (bi_RootCapability input)) now))
         [ErrInvalidBundle] ;;;
  validateReference (bi_Reference input) prefix (bi_ReferenceKey input) (bi_ReferenceGeneration input)
    (bi_ReferenceCommit input) (Configured verifier) ;;;
  mguard ((len (bi_Capabilities input) <? 1) || (MaximumBundleCapabilities <? len (bi_Capabilities input)))
         [ErrInvalidBundle] ;;;
  wires <- wireCapabilities input prefix authorizationExpiry 0 [] (sortCapabilities (bi_Capabilities input)) ;;
  let reference := bi_Reference input in
  mret {| bp_Format := BundleFormat; bp_RepositoryID := repositoryID; bp_RepositoryPrefix := prefix;
          bp_ReferenceKey := bi_ReferenceKey input; bp_ShareID := bi_ShareID input;
          bp_Revision := bi_Revision input; bp_ReferenceGeneration := bi_ReferenceGeneration input;
          bp_ReferenceCommit := bi_ReferenceCommit input;
          bp_Reference := {| wo_Data := Some (ob_Data reference); wo_ETag := v_ETag (ob_Version reference);
                             wo_VersionID := v_VersionID (ob_Version reference) |};
          bp_AuthorizationExpiresAt := Time_UTC authorizationExpiry; bp_KeyID := keyID;
          bp_Capabilities := Some wires |}.

(** Whether json.Marshal succeeds. *)
Definition payload_marshals (payload : bundlePayload) : bool :=
  Time_marshals (bp_AuthorizationExpiresAt payload)
  && forallb (λ c, Time_marshals (wc_ExpiresAt c)) (els (bp_Capabilities payload)).

Definition Build (input : BuildInput) (signer : dependency ReferenceSigner)
    (verifier : dependency VerifierValue) : M eff S bytes :=
  checkCtx ;;;
  match the signer, the verifier with
  | Some signer, Some verifier =>
      mguard (RepositoryID_IsZero (sg_RepositoryID signer)
              || (sg_RepositoryID signer !=? rv_RepositoryID (vv_verifier verifier))) [ErrUntrustedBundle] ;;;
      mlift (validateKeyID (sg_KeyID signer)) ;;;
      preflightBuildInput input ;;;
      now <- time_Now ;;
      payload <- payloadFromInput input (sg_RepositoryID signer) (sg_KeyID signer) verifier now ;;
      mguard (negb (payload_marshals payload)) [ErrInvalidBundle] ;;;
      let message := bundleSigningMessage (canonicalJSON payload) in
      signature <- mwrap (λ _, [ErrUntrustedBundle]) (mcallr (Signer_Sign message)) ;;
      mguard ((len signature =? 0) || (maximumShareSignatureBytes <? len signature)) [ErrUntrustedBundle] ;;;
      mwrap (λ _, [ErrUntrustedBundle]) (mcalle (Verifier_Verify (sg_KeyID signer) message signature)) ;;;
      let encoded := canonicalJSON {| sb_Format := BundleFormat; sb_Payload := payload;
                                      sb_Signature := Some signature |} in
      mguard (MaximumBundleBytes <? len encoded) [ErrInvalidBundle] ;;;
      mret encoded
  | _, _ => mfail [ErrUntrustedBundle]
  end.

(** ** Decoding *)

Record DecodeOptions := {
  do_RootCapability : Capability;
  do_RepositoryPrefix : bytes;
  do_ReferenceKey : bytes;
  do_ShareID : ShareID;
  do_AllowInsecureLoopback : bool;
  do_DangerouslyAllowCustomReferenceVerifier : bool;
}.

Record Bundle := {
  bd_repositoryPrefix : bytes;
  bd_referenceKey : bytes;
  bd_shareID : ShareID;
  bd_revision : N;
  bd_referenceGeneration : N;
  bd_referenceCommit : Digest;
  bd_reference : Object;
  bd_authorizationExpiresAt : Z;
  bd_capabilities : gmap bytes Capability;
}.

(** One round of the loop of bundleFromPayload after the checks of the key. *)
Definition decodeCapability (options : DecodeOptions) (authorizationExpiry now : Z)
    (entry : wireExactCapability) : result Capability :=
  headers <-? result_wrap (λ _, [ErrInvalidBundle]) (headersFromWire (wc_Headers entry)) ;;
  capability <-? result_wrap (λ _, [ErrInvalidBundle])
    (newCapability (wc_Key entry) (wc_URL entry) headers (tm_ns (wc_ExpiresAt entry))
       (do_AllowInsecureLoopback options) now capabilityProvenanceAuthenticatedBundle) ;;
  guard_err (cap_origin capability !=? cap_origin (do_RootCapability options)) [ErrInvalidBundle] ?;;
  guard_err (negb (cap_expiresAt capability =? authorizationExpiry)) [ErrInvalidBundle] ?;;
  Ok capability.

Fixpoint decodeCapabilities (options : DecodeOptions) (prefix : bytes) (authorizationExpiry now index : Z)
    (previous : bytes) (entries : list wireExactCapability) (capabilities : gmap bytes Capability)
    : M eff S (gmap bytes Capability) :=
  match entries with
  | [] => mret capabilities
  | entry :: entries =>
      checkEvery index ;;;
      mguard (bool_decide (bytes_Compare (wc_Key entry) previous ≠ Gt) && (previous !=? []))
             [ErrInvalidBundle] ;;;
      mlift (validateImmutableKey prefix (wc_Key entry)) ;;;
      capability <- mlift (decodeCapability options authorizationExpiry now entry) ;;
      decodeCapabilities options prefix authorizationExpiry now (index + 1) (wc_Key entry) entries
        (<[wc_Key entry := capability]> capabilities)
  end.

Definition bundleFromPayload (payload : bundlePayload) (options : DecodeOptions) (verifier : VerifierValue)
    (now : Z) : M eff S Bundle :=
  prefix <- mlift (validateBundleBindings (bp_RepositoryPrefix payload) (bp_ReferenceKey payload)
                     (bp_ShareID payload) (bp_Revision payload) (bp_ReferenceGeneration payload)) ;;
  let expectedPrefix := Trim (do_RepositoryPrefix options) slash in
  mguard ((prefix !=? expectedPrefix) || (bp_ReferenceKey payload !=? do_ReferenceKey options)
          || (bp_ShareID payload !=? do_ShareID options) || ShareID_IsZero (do_ShareID options))
         [ErrUntrustedBundle] ;;;
  mguard (negb (Capability_Configured (do_RootCapability options))) [ErrInvalidBundle] ;;;
  let authorizationExpiry := tm_ns (bp_AuthorizationExpiresAt payload) in
  mguard (negb (validExpiry authorizationExpiry (cap_expiresAt (do_RootCapability options)) now))
         [ErrInvalidBundle] ;;;
  let reference := {| ob_Data := els (wo_Data (bp_Reference payload));
                      ob_Version := {| v_ETag := wo_ETag (bp_Reference payload);
                                       v_VersionID := wo_VersionID (bp_Reference payload) |} |} in
  validateReference reference prefix (bp_ReferenceKey payload) (bp_ReferenceGeneration payload)
    (bp_ReferenceCommit payload) (Configured verifier) ;;;
  let entries := els (bp_Capabilities payload) in
  mguard ((len entries <? 1) || (MaximumBundleCapabilities <? len entries)) [ErrInvalidBundle] ;;;
  capabilities <- decodeCapabilities options prefix authorizationExpiry now 0 [] entries ∅ ;;
  mret {| bd_repositoryPrefix := prefix; bd_referenceKey := bp_ReferenceKey payload;
          bd_shareID := bp_ShareID payload; bd_revision := bp_Revision payload;
          bd_referenceGeneration := bp_ReferenceGeneration payload;
          bd_referenceCommit := bp_ReferenceCommit payload; bd_reference := reference;
          bd_authorizationExpiresAt := authorizationExpiry; bd_capabilities := capabilities |}.

(** Input that is not canonical is refused before the context check between the
    decoding and the comparison. *)
Definition Decode (data : bytes) (verifier : dependency VerifierValue) (options : DecodeOptions)
    : M eff S Bundle :=
  checkCtx ;;;
  mguard ((len data =? 0) || (MaximumBundleBytes <? len data)) [ErrInvalidBundle] ;;;
  match the verifier with
  | None => mfail [ErrUntrustedBundle]
  | Some verifier =>
      mguard (negb (IsOfflineReferenceVerifier verifier)
              && negb (do_DangerouslyAllowCustomReferenceVerifier options)) [ErrUntrustedBundle] ;;;
      mguard (RepositoryID_IsZero (rv_RepositoryID (vv_verifier verifier))) [ErrUntrustedBundle] ;;;
      match strictDecode (T:=signedBundle) data with
      | None => mfail [ErrInvalidBundle]
      | Some envelope =>
          checkCtx ;;;
          let payload := sb_Payload envelope in
          let signature := els (sb_Signature envelope) in
          mguard ((sb_Format envelope !=? BundleFormat) || (bp_Format payload !=? BundleFormat)
                  || (len signature =? 0) || (maximumShareSignatureBytes <? len signature))
                 [ErrInvalidBundle] ;;;
          mguard (bp_RepositoryID payload !=? rv_RepositoryID (vv_verifier verifier)) [ErrUntrustedBundle] ;;;
          mlift (validateKeyID (bp_KeyID payload)) ;;;
          mwrap (λ _, [ErrUntrustedBundle])
            (mcalle (Verifier_Verify (bp_KeyID payload) (bundleSigningMessage (canonicalJSON payload))
                       signature)) ;;;
          now <- time_Now ;;
          bundleFromPayload payload options verifier now
      end
  end.

(** ** Snapshot bundles *)

Definition safePresignErrors : list sentinel :=
  [CtxCanceled; CtxDeadlineExceeded; ErrAccessDenied; ErrRateLimited; ErrStoreUnavailable;
   ErrStoreMisconfigured; ErrStoreIncompatible; ErrStoreOperationUnsupported; ErrResourceLimit;
   ErrInvalidPath].

(** The first sentinel of a list that an error wraps. *)
Definition firstSentinel (sentinels : list sentinel) (default : sentinel) (err : error) : error :=
  match List.find (errors_Is err) sentinels with Some s => [s] | None => [default] end.

Definition safePresignError (err : error) : error :=
  firstSentinel safePresignErrors ErrStoreMisconfigured err.

Record SnapshotBundleInput := {
  sbi_RootKey : bytes;
  sbi_RootCapability : Capability;
  sbi_RepositoryPrefix : bytes;
  sbi_ShareID : ShareID;
  sbi_Revision : N;
  sbi_Closure : SnapshotClosure;
  sbi_Presigner : dependency unit;
}.

(** The first loop over the keys of the closure. *)
Fixpoint checkClosureKeys (prefix : bytes) (index : Z) (previous : bytes) (keys : list bytes)
    : M eff S unit :=
  match keys with
  | [] => mret tt
  | key :: keys =>
      checkEvery index ;;;
      mguard (bool_decide (bytes_Compare key previous ≠ Gt) && (previous !=? [])) [ErrInvalidBundle] ;;;
      mlift (validateImmutableKey prefix key) ;;;
      checkClosureKeys prefix (index + 1) key keys
  end.

(** The second one, which presigns them. *)
Fixpoint presignKeys (root : Capability) (expiresAt index : Z) (keys : list bytes)
    : M eff S (list ExactCapability) :=
  match keys with
  | [] => mret []
  | key :: keys =>
      checkEvery index ;;;
      capability <- mwrap safePresignError (mcallr (Share (Presign_Get key))) ;;
      mguard (negb (Capability_Configured capability)
              || (cap_provenance capability !=? capabilityProvenanceExactGET)
              || (cap_exactKey capability !=? key) || (cap_origin capability !=? cap_origin root)
              || negb (cap_expiresAt capability =? expiresAt)) [ErrInvalidBundle] ;;;
      rest <- presignKeys root expiresAt (index + 1) keys ;;
      mret ({| ec_Key := key; ec_Capability := capability |} :: rest)
  end.

Definition BuildSnapshotBundle (input : SnapshotBundleInput) (signer : dependency ReferenceSigner)
    (verifier : dependency VerifierValue) : M eff S bytes :=
  let closure := sbi_Closure input in
  let root := sbi_RootCapability input in
  checkCtx ;;;
  mguard (negb (interfaceDependencyConfigured (sbi_Presigner input))) [ErrInvalidBundle] ;;;
  mwrap (app [ErrInvalidBundle]) (mlift (ValidateResolved closure)) ;;;
  prefix <- mlift (validateBundleBindings (sbi_RepositoryPrefix input) (sc_ReferenceKey closure)
                     (sbi_ShareID input) (sbi_Revision input) (sn_Generation (sc_Snapshot closure))) ;;
  mguard (negb (validObjectKey (sbi_RootKey input)) || negb (Capability_Configured root)
          || (cap_provenance root !=? capabilityProvenanceExactGET)
          || (cap_exactKey root !=? sbi_RootKey input)) [ErrInvalidBundle] ;;;
  ' (expiresAt, known) <- mcall (Share Presign_Expiry) ;;
  now <- time_Now ;;
  mguard (negb known || ns_IsZero expiresAt || negb (expiresAt =? cap_expiresAt root)
          || (expiresAt <=? now)) [ErrInvalidBundle] ;;;
  let reference := {| ob_Data := sc_ReferenceData closure; ob_Version := sc_ReferenceVersion closure |} in
  validateReference reference prefix (sc_ReferenceKey closure) (sn_Generation (sc_Snapshot closure))
    (sn_Commit (sc_Snapshot closure)) verifier ;;;
  mguard ((len (sc_ObjectKeys closure) <? 1) || (MaximumBundleCapabilities <? len (sc_ObjectKeys closure)))
         [ErrInvalidBundle] ;;;
  checkClosureKeys prefix 0 [] (sc_ObjectKeys closure) ;;;
  capabilities <- presignKeys root expiresAt 0 (sc_ObjectKeys closure) ;;
  Build {| bi_RootCapability := root; bi_RootKey := sbi_RootKey input;
           bi_RepositoryPrefix := sbi_RepositoryPrefix input; bi_ReferenceKey := sc_ReferenceKey closure;
           bi_ShareID := sbi_ShareID input; bi_Revision := sbi_Revision input;
           bi_ReferenceGeneration := sn_Generation (sc_Snapshot closure);
           bi_ReferenceCommit := sn_Commit (sc_Snapshot closure); bi_Reference := reference;
           bi_AuthorizationExpiresAt := expiresAt; bi_Capabilities := capabilities;
           bi_DangerouslyAllowUncheckedCapabilities := false |} signer verifier.
End Bundles.
