(* ===== verification/ShareReader.v ===== *)
(** * The reader of a share ([presignedshare/reader.go])

    A [Reader] serves the reference of a channel and immutable objects from one
    fixed root URL and from the exact-GET capabilities of the bundles it has
    accepted.  Its state is the installed revision and the capabilities that
    older revisions had; it is replaced under the refresh gate only, and read by
    concurrent calls: before every look at it outside the gate the other
    goroutines may have installed revisions ([sync]). *)

From S2P Require Import Prelude.
From S2P Require Import Prog.
From S2P Require Import GoStd.
From S2P Require Import Encoding.
From S2P Require Import Sha256.
From S2P Require Import Json.
From S2P Require Import Model.
From S2P Require Import Rfc3339.
From S2P Require Import Effects.
From S2P Require Import Capability.
From S2P Require Import Trust.
From S2P Require Import MemStore.
From S2P Require Import ClientEncryption.
From S2P Require Import Closure.
From S2P Require Import Consumer.
From S2P Require Import Bundle.
From S2P Require Import LockedTransport.

Definition DefaultOperationTimeout : Z := 2 * 60 * second.
Definition MaximumObjectBytes : Z := Z.shiftl 64 20.
Definition DefaultMaxRetainedCapabilities : Z := 4 * MaximumBundleCapabilities.
Definition MaximumRetainedCapabilities : Z := 4 * MaximumBundleCapabilities.
Definition DefaultMaxRetainedCapabilityBytes : Z := Z.shiftl 128 20.
Definition MaximumRetainedCapabilityBytes : Z := Z.shiftl 512 20.

(** ** Headers *)

(** [strings.EqualFold] with a name of ASCII letters that no other character
    folds to. *)
Definition hasHeader (headers : gmap bytes (list bytes)) (name : bytes) : bool :=
  existsb (λ ' (existing, _), map lower existing ==? map lower name) (map_to_list headers).

(** [http.Header.Set] and [Values]. *)
Definition Header_Set (name value : bytes) (headers : gmap bytes (list bytes)) : gmap bytes (list bytes) :=
  <[CanonicalHeaderKey name := [value]]> headers.
Definition Header_Values (headers : gmap bytes (list bytes)) (name : bytes) : list bytes :=
  default [] (headers !! CanonicalHeaderKey name).

Definition validateGetOptions (options : GetOptions) : result unit :=
  guard_err (go_MaxBytes options <? 0) [ErrResourceLimit] ?;;
  guard_err (MaxStoreVersionTokenBytes <? len (go_IfNoneMatch options)) [ErrResourceLimit] ?;;
  guard_err (ContainsAny (go_IfNoneMatch options) nul_cr_lf) [ErrStoreMisconfigured].

(** The sizes that validateResponseHeaders adds, with whether the bound is
    tested after each. *)
Fixpoint addHeaderBytes (sizes : list (Z * bool)) (total : Z) : result unit :=
  match sizes with
  | [] => Ok tt
  | (size, tested) :: sizes =>
      let total := int64_wrap (total + size) in
      guard_err (tested && (MaximumResponseHeaderBytes <? total)) [ErrResourceLimit] ?;;
      addHeaderBytes sizes total
  end.

Definition validateResponseHeaders (headers : gmap bytes (list bytes)) : result unit :=
  guard_err (256 <? Z.of_nat (size headers)) [ErrResourceLimit] ?;;
  addHeaderBytes (concat (map (λ ' (name, values),
    (len name, false) :: map (λ value, (len value, true)) values) (map_to_list headers))) 0.

Definition responseVersion (headers : gmap bytes (list bytes)) : result Version :=
  match Header_Values headers (str "ETag") with
  | [etag] =>
      guard_err ((etag ==? []) || (MaxStoreVersionTokenBytes <? len etag) || ContainsAny etag nul_cr_lf)
                [ErrStoreIncompatible] ?;;
      match Header_Values headers (str "X-Amz-Version-Id") with
      | [] => Ok {| v_ETag := etag; v_VersionID := [] |}
      | [versionID] =>
          guard_err ((MaxStoreVersionTokenBytes <? len versionID) || ContainsAny versionID nul_cr_lf)
                    [ErrStoreIncompatible] ?;;
          Ok {| v_ETag := etag; v_VersionID := versionID |}
      | _ => Err [ErrStoreIncompatible]
      end
  | _ => Err [ErrStoreIncompatible]
  end.

Definition classifyHTTPStatus (status : Z) : error :=
  if status =? 304 then [ErrNotModified]
  else if (status =? 401) || (status =? 403) then [ErrAccessDenied]
  else if status =? 404 then [ErrObjectNotFound]
  else if (status =? 405) || (status =? 501) then [ErrStoreOperationUnsupported]
  else if status =? 429 then [ErrRateLimited]
  else if (status =? 408) || (status =? 409) || (500 <=? status) then [ErrStoreUnavailable]
  else if status =? 412 then [ErrPrecondition]
  else if (300 <=? status) && (status <? 400) then [ErrStoreMisconfigured]
  else if (400 <=? status) && (status <? 500) then [ErrStoreMisconfigured]
  else [ErrStoreIncompatible].

(** ** The charge of a capability *)

Fixpoint addCharges (sizes : list Z) (charge : Z) : result Z :=
  match sizes with
  | [] => Ok charge
  | size :: sizes =>
      guard_err (int64_max - size <? charge) [ErrResourceLimit] ?;;
      addCharges sizes (charge + size)
  end.

(** The header sizes, in the order of the map. *)
Definition chargedHeaders (headers : gmap bytes (list bytes)) : list Z :=
  concat (map (λ ' (name, values), (len name + 32) :: map (λ value, len value + 16) values)
              (map_to_list headers)).

Definition readerCapabilityCharge (key : bytes) (capability : Capability) : result Z :=
  charge <-? addCharges (chargedHeaders (cap_headers capability))
               (256 + len key + len (cap_rawURL capability)) ;;
  guard_err (charge <? 0) [ErrResourceLimit] ?;;
  Ok charge.

(** ** Configuration *)

Section ShareReader.
Context `{NetLibrary} `{TransportLibrary} `{AEAD}.

Record ReaderConfig := {
  rf_RootCapability : Capability;
  rf_RepositoryPrefix : bytes;
  rf_ReferenceKey : bytes;
  rf_ShareID : ShareID;
  rf_Verifier : dependency VerifierValue;
  rf_ClientEncryption : option ClientEncryptionProfile;
  rf_DangerouslyAllowCustomReferenceVerifier : bool;
  rf_TLSRootCAPEM : bytes;
  rf_DangerouslyAllowSystemTrustStore : bool;
  rf_HTTPClient : option HttpClient;
  rf_OperationTimeout : Z;
  rf_AllowInsecureLoopback : bool;
  rf_MaxRetainedCapabilities : Z;
  rf_MaxRetainedCapabilityBytes : Z;
}.

Record Reader := {
  re_rootCapability : Capability;
  re_repositoryPrefix : bytes;
  re_referenceKey : bytes;
  re_shareID : ShareID;
  re_verifier : dependency VerifierValue;
  re_clientEncryption : option ClientEncryptionProfile;
  re_client : HttpClient;
  re_operationTimeout : Z;
  re_allowInsecureLoopback : bool;
  re_dangerouslyAllowCustomReferenceVerifier : bool;
  re_maxRetainedCapabilities : Z;
  re_maxRetainedCapabilityBytes : Z;
}.

(** The state of a new reader. *)
Definition readerState_new : readerState :=
  {| rds_current := None; rds_retainedCapabilities := ∅; rds_retainedCapabilityBytes := 0 |}.

Definition orZero (value default : Z) : Z := if value =? 0 then default else value.

(** The scheme of the root URL, which validateCapabilityURL parsed. *)
Definition rootScheme (rawURL : bytes) : bytes :=
  match url_Parse rawURL with Some parsed => url_Scheme parsed | None => [] end.

Definition NewReader {S} (config : ReaderConfig) : M eff S Reader :=
  let root := rf_RootCapability config in
  mguard (negb (Capability_Configured root)) errorText ;;;
  match validateCapabilityURL (cap_rawURL root) (rf_AllowInsecureLoopback config) with
  | Err _ => mfail errorText
  | Ok (_, rootOrigin) =>
      mguard (rootOrigin !=? cap_origin root) errorText ;;;
      mguard ((rootScheme (cap_rawURL root) ==? str "https") && (len (rf_TLSRootCAPEM config) =? 0)
              && negb (rf_DangerouslyAllowSystemTrustStore config)) errorText ;;;
      match the (rf_Verifier config) with
      | None => mfail errorText
      | Some verifier =>
          let repositoryID := rv_RepositoryID (vv_verifier verifier) in
          mguard (negb (IsOfflineReferenceVerifier verifier)
                  && negb (rf_DangerouslyAllowCustomReferenceVerifier config)) errorText ;;;
          mguard (RepositoryID_IsZero repositoryID) errorText ;;;
          mguard (match rf_ClientEncryption config with
                  | Some profile => cp_repositoryID profile !=? repositoryID | None => false end) errorText ;;;
          mguard (ShareID_IsZero (rf_ShareID config)) errorText ;;;
          prefix <- mlift (validateBundleBindings (rf_RepositoryPrefix config) (rf_ReferenceKey config)
                             (rf_ShareID config) 1 1) ;;
          mguard (hasHeader (cap_headers root) (str "If-None-Match")
                  || hasHeader (cap_headers root) (str "Cache-Control")
                  || hasHeader (cap_headers root) (str "Pragma")) errorText ;;;
          now <- time_Now ;;
          mguard (ns_IsZero (cap_expiresAt root) || (cap_expiresAt root <=? now)) errorText ;;;
          let timeout := orZero (rf_OperationTimeout config) DefaultOperationTimeout in
          mguard ((timeout <? 0) || (MaximumOperationTimeout <? timeout)) errorText ;;;
          let maximum := orZero (rf_MaxRetainedCapabilities config) DefaultMaxRetainedCapabilities in
          mguard ((maximum <? 1) || (MaximumRetainedCapabilities <? maximum)) errorText ;;;
          let maximumBytes := orZero (rf_MaxRetainedCapabilityBytes config) DefaultMaxRetainedCapabilityBytes in
          mguard ((maximumBytes <? 1) || (MaximumRetainedCapabilityBytes <? maximumBytes)) errorText ;;;
          client <- mlift (lockedHTTPClient (rf_HTTPClient config) (rf_TLSRootCAPEM config)) ;;
          mret {| re_rootCapability := root; re_repositoryPrefix := prefix;
                  re_referenceKey := rf_ReferenceKey config; re_shareID := rf_ShareID config;
                  re_verifier := rf_Verifier config; re_clientEncryption := rf_ClientEncryption config;
                  re_client := client; re_operationTimeout := timeout;
                  re_allowInsecureLoopback := rf_AllowInsecureLoopback config;
                  re_dangerouslyAllowCustomReferenceVerifier :=
                    rf_DangerouslyAllowCustomReferenceVerifier config;
                  re_maxRetainedCapabilities := maximum; re_maxRetainedCapabilityBytes := maximumBytes |}
      end
  end.

(** ** Requests *)

Context (reader : Reader).
Local Abbreviation P := (M eff readerState).

Definition authorized : P unit :=
  now <- time_Now ;;
  mguard (cap_expiresAt (re_rootCapability reader) <=? now) [ErrAccessDenied].

(** The contexts it derives answer through [CtxErr]. *)
Definition operationContext : P unit := time_Now ;;; mret tt.

(** The response is open when one is returned. *)
Definition doGET (rawURL : bytes) (headers : gmap bytes (list bytes)) : P HttpResponse :=
  authorized ;;;
  checkCtx ;;;
  mguard (if url_Parse rawURL is Some _ then false else true) [ErrStoreMisconfigured] ;;;
  let headers := if hasHeader headers (str "Accept-Encoding") then headers
                 else Header_Set (str "Accept-Encoding") (str "identity") headers in
  outcome <- mcall (Share (Http_Do rawURL headers)) ;;
  match outcome with
  | Http_Response response => mret response
  | Http_Failed redirect open =>
      (if open : bool then mcall (Share Http_Close) else mret tt) ;;;
      checkCtx ;;;
      mguard redirect [ErrStoreMisconfigured] ;;;
      mfail [ErrStoreUnavailable]
  end.

Definition readBoundedBody (response : HttpResponse) (limit : Z) : P bytes :=
  mguard (hr_ContentLength response <? -1) [ErrStoreIncompatible] ;;;
  mguard (limit <? hr_ContentLength response) [ErrResourceLimit] ;;;
  let readLimit := if limit <? int64_max then limit + 1 else limit in
  r <- mcall (Share (Http_ReadAll readLimit)) ;;
  match r with
  | Err _ => checkCtx ;;; mfail [ErrStoreUnavailable]
  | Ok data =>
      mguard (limit <? len data) [ErrResourceLimit] ;;;
      checkCtx ;;;
      mret data
  end.

(** [defer response.Body.Close()] around the use of a response. *)
Definition withResponse {A} (response : HttpResponse) (k : P A) : P A :=
  result <- mtry (mlift (validateResponseHeaders (hr_Header response)) ;;; k) ;;
  mcall (Share Http_Close) ;;;
  mlift result.

(** ** The state *)

(** A look at the state outside the refresh gate. *)
Definition sync : P unit :=
  state <- mget ;;
  state <- mcall (Share (Reader_Sync state)) ;;
  mput state.

Definition lookupCapability (state : readerState) (key : bytes) : option Capability :=
  match rds_current state with
  | Some current =>
      match rd_capabilities current !! key with
      | Some capability => Some capability
      | None => rds_retainedCapabilities state !! key
      end
  | None => rds_retainedCapabilities state !! key
  end.
Definition findCapability (key : bytes) : P (option Capability) :=
  sync ;;; state <- mget ;; mret (lookupCapability state key).
Definition hasCurrent (state : readerState) : bool := if rds_current state is Some _ then true else false.
Definition hasCurrentBundle : P bool := sync ;;; state <- mget ;; mret (hasCurrent state).

(** The gate is entered after the installations that others made under it. *)
Definition acquireRefresh : P unit := mcalle (Share Reader_Gate) ;;; sync.
Definition releaseRefresh : P unit := mcall (Share Reader_Gate_Release).

(** ** Installing a bundle *)

(** The loop of validateReaderCapabilities, in the order of the map. *)
Fixpoint sumCharges (index : Z) (entries : list (bytes * Capability)) (total : Z) : P Z :=
  match entries with
  | [] => mret total
  | (key, capability) :: entries =>
      checkEvery index ;;;
      mguard (hasHeader (cap_headers capability) (str "If-None-Match")) [ErrStoreMisconfigured] ;;;
      match readerCapabilityCharge key capability with
      | Err _ => mfail [ErrResourceLimit]
      | Ok charge =>
          mguard (int64_max - charge <? total) [ErrResourceLimit] ;;;
          sumCharges (index + 1) entries (total + charge)
      end
  end.
Definition validateReaderCapabilities (capabilities : gmap bytes Capability) : P Z :=
  sumCharges 0 (map_to_list capabilities) 0.

(** The copy of the retained capabilities, which looks at the context. *)
Fixpoint copyRetained (index : Z) (entries : list (bytes * Capability)) : P Z :=
  match entries with
  | [] => mret index
  | _ :: entries => checkEvery index ;;; copyRetained (index + 1) entries
  end.

(** The capabilities of the current revision join the retained ones. *)
Fixpoint retainCurrent (index : Z) (entries : list (bytes * Capability))
    (retained : gmap bytes Capability) (retainedBytes : Z) : P (Z * gmap bytes Capability * Z) :=
  match entries with
  | [] => mret (index, retained, retainedBytes)
  | (key, capability) :: entries =>
      checkEvery index ;;;
      match retained !! key with
      | Some _ => retainCurrent (index + 1) entries retained retainedBytes
      | None =>
          match readerCapabilityCharge key capability with
          | Err _ => mfail [ErrResourceLimit]
          | Ok charge =>
              mguard (int64_max - charge <? retainedBytes) [ErrResourceLimit] ;;;
              retainCurrent (index + 1) entries (<[key := capability]> retained) (retainedBytes + charge)
          end
      end
  end.

(** Those of the next revision leave them. *)
Fixpoint dropNext (index : Z) (keys : list bytes) (retained : gmap bytes Capability) (retainedBytes : Z)
    : P (gmap bytes Capability * Z) :=
  match keys with
  | [] => mret (retained, retainedBytes)
  | key :: keys =>
      checkEvery index ;;;
      match retained !! key with
      | None => dropNext (index + 1) keys retained retainedBytes
      | Some capability =>
          match readerCapabilityCharge key capability with
          | Err _ => mfail [ErrResourceLimit]
          | Ok charge =>
              mguard (retainedBytes <? charge) [ErrResourceLimit] ;;;
              dropNext (index + 1) keys (delete key retained) (retainedBytes - charge)
          end
      end
  end.

(** The checks of a newer revision against the current one. *)
Definition checkNewer (current next : readerRevision) : result unit :=
  guard_err (rd_generation next <? rd_generation current)%N [ErrRollbackDetected] ?;;
  guard_err ((rd_generation next ==? rd_generation current) && (rd_commit next !=? rd_commit current))
            [ErrSplitBrain] ?;;
  guard_err ((rd_bundleETag next ==? rd_bundleETag current) && (rd_bundleDigest next !=? rd_bundleDigest current))
            [ErrStoreIncompatible].

Definition exceedsRetention (next : readerRevision) (retained : gmap bytes Capability) (retainedBytes : Z) : bool :=
  (re_maxRetainedCapabilities reader <? Z.of_nat (size retained))
  || (re_maxRetainedCapabilityBytes reader <? retainedBytes)
  || (re_maxRetainedCapabilities reader - Z.of_nat (size retained) <? Z.of_nat (size (rd_capabilities next)))
  || (re_maxRetainedCapabilityBytes reader - retainedBytes <? rd_capabilityBytes next).

Definition with_current (next : readerRevision) (state : readerState) : readerState :=
  {| rds_current := Some next; rds_retainedCapabilities := rds_retainedCapabilities state;
     rds_retainedCapabilityBytes := rds_retainedCapabilityBytes state |}.

Definition installNewer (current next : readerRevision) : P unit :=
  state <- mget ;;
  mlift (checkNewer current next) ;;;
  index <- copyRetained 0 (map_to_list (rds_retainedCapabilities state)) ;;
  ' (index, retained, retainedBytes) <-
    retainCurrent index (map_to_list (rd_capabilities current)) (rds_retainedCapabilities state)
      (rds_retainedCapabilityBytes state) ;;
  ' (retained, retainedBytes) <-
    dropNext index (map fst (map_to_list (rd_capabilities next))) retained retainedBytes ;;
  mguard (exceedsRetention next retained retainedBytes) [ErrResourceLimit] ;;;
  mput {| rds_current := Some next; rds_retainedCapabilities := retained;
          rds_retainedCapabilityBytes := retainedBytes |}.

Definition revisionOf (bundle : Bundle) (digest : bytes) (rootVersion : Version) (capabilityBytes : Z)
    : readerRevision :=
  {| rd_revision := bd_revision bundle; rd_generation := bd_referenceGeneration bundle;
     rd_commit := bd_referenceCommit bundle; rd_bundleDigest := digest;
     rd_bundleETag := v_ETag rootVersion; rd_bundleVersionID := v_VersionID rootVersion;
     rd_referenceData := ob_Data (bd_reference bundle); rd_capabilities := bd_capabilities bundle;
     rd_capabilityBytes := capabilityBytes |}.

Definition installBundle (bundle : Bundle) (digest : bytes) (rootVersion : Version) : P unit :=
  checkCtx ;;;
  capabilityBytes <- validateReaderCapabilities (bd_capabilities bundle) ;;
  mguard ((re_maxRetainedCapabilities reader <? Z.of_nat (size (bd_capabilities bundle)))
          || (re_maxRetainedCapabilityBytes reader <? capabilityBytes)) [ErrResourceLimit] ;;;
  let next := revisionOf bundle digest rootVersion capabilityBytes in
  state <- mget ;;
  match rds_current state with
  | None => mput (with_current next state)
  | Some current =>
      mguard (rd_revision next <? rd_revision current)%N [ErrRollbackDetected] ;;;
      if rd_revision next ==? rd_revision current then
        mguard (rd_bundleDigest next !=? rd_bundleDigest current) [ErrSplitBrain] ;;;
        mput (with_current next state)
      else installNewer current next
  end.

(** ** Get *)

Definition referenceFrom (options : GetOptions) (state : readerState) : result Object :=
  match rds_current state with
  | None => Err [ErrStoreIncompatible]
  | Some current =>
      guard_err ((go_IfNoneMatch options !=? []) && (go_IfNoneMatch options ==? rd_bundleETag current))
                [ErrNotModified] ?;;
      guard_err ((0 <? go_MaxBytes options) && (go_MaxBytes options <? len (rd_referenceData current)))
                [ErrResourceLimit] ?;;
      Ok {| ob_Data := rd_referenceData current;
            ob_Version := {| v_ETag := rd_bundleETag current; v_VersionID := rd_bundleVersionID current |} |}
  end.
Definition referenceFromCurrent (options : GetOptions) : P Object :=
  state <- mget ;; mlift (referenceFrom options state).

Definition readerDecodeOptions : DecodeOptions :=
  {| do_RootCapability := re_rootCapability reader; do_RepositoryPrefix := re_repositoryPrefix reader;
     do_ReferenceKey := re_referenceKey reader; do_ShareID := re_shareID reader;
     do_AllowInsecureLoopback := re_allowInsecureLoopback reader;
     do_DangerouslyAllowCustomReferenceVerifier := re_dangerouslyAllowCustomReferenceVerifier reader |}.

(** The headers of a poll of the root. *)
Definition pollHeaders (state : readerState) : gmap bytes (list bytes) :=
  let headers := Header_Set (str "Pragma") (str "no-cache")
                   (Header_Set (str "Cache-Control") (str "no-cache") (cap_headers (re_rootCapability reader))) in
  match rds_current state with
  | Some current => if rd_bundleETag current ==? [] then headers
                    else Header_Set (str "If-None-Match") (rd_bundleETag current) headers
  | None => headers
  end.

Definition overhead : Z := if re_clientEncryption reader is Some _ then ClientEncryptionCiphertextOverhead else 0.

Definition decodeRoot (data : bytes) : P Bundle :=
  mwrap (λ err, if errors_Is err ErrUntrustedBundle then ErrUntrustedReference :: err
                else ErrCorruptObject :: err)
    (with_local tt (Decode data (re_verifier reader) readerDecodeOptions)).

Definition getReferenceLocked (options : GetOptions) : P Object :=
  state <- mget ;;
  response <- doGET (cap_rawURL (re_rootCapability reader)) (pollHeaders state) ;;
  withResponse response (
    if hr_StatusCode response =? 304 then referenceFromCurrent options
    else
      mguard (negb (hr_StatusCode response =? 200)) (classifyHTTPStatus (hr_StatusCode response)) ;;;
      version <- mlift (responseVersion (hr_Header response)) ;;
      data <- readBoundedBody response (MaximumBundleBytes + overhead) ;;
      data <- mlift (match re_clientEncryption reader with
                     | Some profile => OpenObject profile (cap_exactKey (re_rootCapability reader)) data
                     | None => Ok data
                     end) ;;
      bundle <- decodeRoot data ;;
      installBundle bundle (sha256 data) version ;;;
      referenceFromCurrent options).

(** [defer releaseRefresh()] after the gate was entered. *)
Definition underGate {A} (k : P A) : P A :=
  acquireRefresh ;;;
  result <- mtry k ;;
  releaseRefresh ;;;
  mlift result.

Definition getReference (options : GetOptions) : P Object :=
  operationContext ;;;
  underGate (getReferenceLocked options).

Definition ensureInitialBundle : P unit :=
  installed <- hasCurrentBundle ;;
  if installed : bool then mret tt
  else
    underGate (
      state <- mget ;;
      if hasCurrent state then mret tt
      else getReferenceLocked {| go_IfNoneMatch := []; go_MaxBytes := maximumReferenceBytes |} ;;; mret tt).

(** The capability of a key: of the state at hand, after the first bundle, or
    after a concurrent refresh. *)
Definition authorizeKey (key : bytes) : P Capability :=
  found <- findCapability key ;;
  found <- match found with
           | Some _ => mret found
           | None =>
               installed <- hasCurrentBundle ;;
               if installed : bool then mret None
               else ensureInitialBundle ;;; findCapability key
           end ;;
  found <- match found with
           | Some _ => mret found
           | None =>
               acquireRefresh ;;;
               state <- mget ;;
               releaseRefresh ;;;
               mret (lookupCapability state key)
           end ;;
  match found with Some capability => mret capability | None => mfail [ErrAccessDenied] end.

Definition objectLimit (options : GetOptions) : Z :=
  let limit := MaximumObjectBytes + overhead in
  if 0 <? go_MaxBytes options then
    let requested := match re_clientEncryption reader with
                     | Some _ => Z.min (go_MaxBytes options) ClientEncryptionMaxPlaintextBytes
                                 + ClientEncryptionCiphertextOverhead
                     | None => go_MaxBytes options
                     end in
    if requested <? limit then requested else limit
  else limit.

Definition objectHeaders (capability : Capability) (options : GetOptions) : gmap bytes (list bytes) :=
  if go_IfNoneMatch options ==? [] then cap_headers capability
  else Header_Set (str "If-None-Match") (go_IfNoneMatch options) (cap_headers capability).

Definition reader_getImmutable (key : bytes) (options : GetOptions) : P Object :=
  operationContext ;;;
  capability <- authorizeKey key ;;
  now <- time_Now ;;
  mguard (cap_expiresAt capability <=? now) [ErrAccessDenied] ;;;
  response <- doGET (cap_rawURL capability) (objectHeaders capability options) ;;
  withResponse response (
    mguard (hr_StatusCode response =? 304) [ErrNotModified] ;;;
    mguard (negb (hr_StatusCode response =? 200)) (classifyHTTPStatus (hr_StatusCode response)) ;;;
    version <- mlift (responseVersion (hr_Header response)) ;;
    mguard ((go_IfNoneMatch options !=? []) && (go_IfNoneMatch options ==? v_ETag version)) [ErrNotModified] ;;;
    data <- readBoundedBody response (objectLimit options) ;;
    data <- mlift (match re_clientEncryption reader with
                   | Some profile =>
                       opened <-? OpenObject profile key data ;;
                       guard_err ((0 <? go_MaxBytes options) && (go_MaxBytes options <? len opened))
                                 [ErrResourceLimit] ?;;
                       Ok opened
                   | None => Ok data
                   end) ;;
    mret {| ob_Data := data; ob_Version := version |}).

Definition Get (key : bytes) (options : GetOptions) : P Object :=
  authorized ;;;
  mlift (validateGetOptions options) ;;;
  if key ==? re_referenceKey reader then getReference options
  else
    mguard (negb (is_ok (validateImmutableKey (re_repositoryPrefix reader) key))) [ErrAccessDenied] ;;;
    reader_getImmutable key options.

Definition reader_AuthorizationExpiry : Z * bool :=
  let expiry := cap_expiresAt (re_rootCapability reader) in
  if ns_IsZero expiry then (zero_ns, false) else (expiry, true).

Definition reader_ClientEncryptionApplied (profile : option ClientEncryptionProfile) : bool :=
  Equivalent (re_clientEncryption reader) profile.
End ShareReader.
