(* ===== verification/SealedState.v ===== *)
(** * The sealed state file ([sealed_state_store.go])

    A [FileSealedStateStore] keeps one encrypted value in a file that is replaced
    by compare-and-swap on a random revision.  The revision and the length of the
    envelope are in a header that the protector authenticates: the header is
    hashed into the binding of the envelope.  The protector is an interface: the
    store is proved against [ProtectorLaws], which [PublisherState] discharges
    for the protectors of the program. *)

From S2P Require Import Prelude.
From S2P Require Import Prog.
From S2P Require Import GoStd.
From S2P Require Import Encoding.
From S2P Require Import Sha256.
From S2P Require Import Model.
From S2P Require Import ClientEncryption.
From S2P Require Import Consumer.
From S2P Require Import FileState.

Definition DefaultFileSealedStateMaxEnvelopeBytes : Z := Z.shiftl 66 20.
Definition FileSealedStateMaxEnvelopeBytesLimit : Z := Z.shiftl 256 20.
Definition FileSealedStateMaxBindingBytes : Z := Z.shiftl 64 10.

Definition sealedStateFormatVersion : N := 1.
Definition sealedStateMagicBytes : Z := 8.
Definition sealedStateVersionOffset : Z := sealedStateMagicBytes.
Definition sealedStateReservedOffset : Z := sealedStateVersionOffset + 2.
Definition sealedStateRevisionOffset : Z := sealedStateReservedOffset + 2.
Definition sealedStateEnvelopeLengthOffset : Z := sealedStateRevisionOffset + 32.
Definition sealedStateHeaderBytes : Z := sealedStateEnvelopeLengthOffset + 8.
Definition sealedStateSealStabilizationLimit : nat := 8.

Definition sealedStateMagic : bytes := str "s3dss" ++ [x00; x01; x00].
Definition sealedStateBindingDomain : bytes :=
  str "s3disk" ++ [x00] ++ str "file-sealed-state" ++ [x00] ++ str "protector-binding" ++ [x00]
  ++ str "v1" ++ [x00].

(** An opaque random array. *)
Abbreviation SealedStateRevision := Digest (only parsing).

(** The interface: the calls may use the context and the random source. *)
Record SealedStateProtector := {
  sp_Seal : bytes → bytes → M fs_eff unit bytes;
  sp_Open : bytes → bytes → M fs_eff unit bytes;
}.

Record FileSealedStateStoreOptions := {
  sso_Protector : dependency SealedStateProtector;
  sso_Binding : bytes;
  sso_MaxEnvelopeBytes : Z;
}.

Definition FileSealedStateStoreOptions_normalized (options : FileSealedStateStoreOptions)
    : result FileSealedStateStoreOptions :=
  guard_err (negb (interfaceDependencyConfigured (sso_Protector options))) errorText ?;;
  guard_err ((len (sso_Binding options) <? 1)
             || (FileSealedStateMaxBindingBytes <? len (sso_Binding options))) [ErrResourceLimit] ?;;
  let limit := if sso_MaxEnvelopeBytes options =? 0 then DefaultFileSealedStateMaxEnvelopeBytes
               else sso_MaxEnvelopeBytes options in
  guard_err ((limit <? 1) || (FileSealedStateMaxEnvelopeBytesLimit <? limit)) [ErrResourceLimit] ?;;
  Ok {| sso_Protector := sso_Protector options; sso_Binding := sso_Binding options;
        sso_MaxEnvelopeBytes := limit |}.

Record FileSealedStateStore := {
  fss_path : bytes;
  fss_lockPath : bytes;
  fss_protector : dependency SealedStateProtector;
  fss_binding : bytes;
  fss_maxEnvelopeBytes : Z;
}.

(** [filepath.Base]: the last component that is not empty. *)
Definition filepath_Base (path : bytes) : bytes :=
  if path ==? [] then dot
  else default [slash] (last (filter (λ c, c ≠ []) (Split slash path))).

Definition NewFileSealedStateStore (path : bytes) (options : FileSealedStateStoreOptions)
    : M fs_eff unit FileSealedStateStore :=
  mguard (path ==? []) errorText ;;;
  normalized <- mlift (FileSealedStateStoreOptions_normalized options) ;;
  absolute <- mcallr (FS_Abs path) ;;
  directory <- mcallr (FS_PrepareDirectory (path_Dir absolute)) ;;
  fcheck (FS_ValidateSecretDirectory directory) ;;;
  let absolute := path_Join2 directory (filepath_Base absolute) in
  mret {| fss_path := absolute; fss_lockPath := absolute ++ str ".lock";
          fss_protector := sso_Protector normalized; fss_binding := sso_Binding normalized;
          fss_maxEnvelopeBytes := sso_MaxEnvelopeBytes normalized |}.

(** ** The file *)

Definition encodeSealedStatePrefix (revision : SealedStateRevision) (sealedLength : Z) : bytes :=
  sealedStateMagic ++ BigEndian_PutUint16 sealedStateFormatVersion ++ BigEndian_PutUint16 0
  ++ revision ++ BigEndian_AppendUint64 [] (Z.to_N sealedLength).

(** [data[from:to]] of a slice long enough. *)
Definition sub (data : bytes) (from to : Z) : bytes :=
  take (Z.to_nat (to - from)) (drop (Z.to_nat from) data).

Definition parseSealedStateFile (data : bytes) (maximumEnvelopeBytes : Z)
    : result (bytes * SealedStateRevision * bytes) :=
  guard_err (len data <? sealedStateHeaderBytes + 1) [ErrCorruptObject] ?;;
  guard_err ((sub data 0 sealedStateMagicBytes !=? sealedStateMagic)
             || (BigEndian_Uint (sub data sealedStateVersionOffset (sealedStateVersionOffset + 2))
                   !=? sealedStateFormatVersion)
             || (BigEndian_Uint (sub data sealedStateReservedOffset (sealedStateReservedOffset + 2))
                   !=? 0%N)) [ErrCorruptObject] ?;;
  let revision := sub data sealedStateRevisionOffset sealedStateEnvelopeLengthOffset in
  let sealedLength := Z.of_N (BigEndian_Uint
                        (sub data sealedStateEnvelopeLengthOffset sealedStateHeaderBytes)) in
  guard_err (Digest_IsZero revision || (sealedLength <? 1) || (maximumEnvelopeBytes <? sealedLength))
            [ErrCorruptObject] ?;;
  guard_err (len data - sealedStateHeaderBytes !=? sealedLength) [ErrCorruptObject] ?;;
  let prefix := encodeSealedStatePrefix revision sealedLength in
  guard_err (prefix !=? take (Z.to_nat sealedStateHeaderBytes) data) [ErrCorruptObject] ?;;
  Ok (take (Z.to_nat sealedStateHeaderBytes) data, revision,
      drop (Z.to_nat sealedStateHeaderBytes) data).

Definition sealedBindingInput (callerBinding canonicalPrefix : bytes) : bytes :=
  sealedStateBindingDomain ++ BigEndian_AppendUint64 [] (Z.to_N (len callerBinding)) ++ callerBinding
  ++ BigEndian_AppendUint64 [] (Z.to_N (len canonicalPrefix)) ++ canonicalPrefix.
Definition deriveSealedStateProtectorBinding (callerBinding canonicalPrefix : bytes) : bytes :=
  sha256 (sealedBindingInput callerBinding canonicalPrefix).

(** The random draw repeats until it is neither zero nor forbidden; [attempts]
    bounds the model's number of draws. *)
Fixpoint newFileSealedStateRevision (attempts : nat) (forbidden : option SealedStateRevision)
    : M fs_eff unit SealedStateRevision :=
  match attempts with
  | O => mfail errorText
  | S attempts =>
      random <- mcallr FS_Rand ;;
      let revision := fill 32 random in
      if negb (Digest_IsZero revision)
         && match forbidden with None => true | Some f => revision !=? f end
      then mret revision
      else newFileSealedStateRevision attempts forbidden
  end.

Definition writeSealedStateFile (prefix envelope : bytes) : M fs_eff unit unit :=
  written <- mcallr (FS_Write prefix) ;;
  mguard (written !=? len prefix) [IoErrShortWrite] ;;;
  written <- mcallr (FS_Write envelope) ;;
  mguard (written !=? len envelope) [IoErrShortWrite].

Definition validateInstalledSealedStateFile : M fs_eff unit unit :=
  mcallr FS_Open ;;;
  fcheck FS_ValidateSecret.

Section Store.
Context (store : FileSealedStateStore).
Abbreviation maxEnvelopeBytes := (fss_maxEnvelopeBytes store).

Definition sealed_configured : bool :=
  (fss_path store !=? []) && (fss_lockPath store !=? [])
  && interfaceDependencyConfigured (fss_protector store)
  && (0 <? len (fss_binding store)) && (len (fss_binding store) <=? FileSealedStateMaxBindingBytes)
  && (0 <? maxEnvelopeBytes) && (maxEnvelopeBytes <=? FileSealedStateMaxEnvelopeBytesLimit).

(** A method of the protector; [sealed_configured] excludes the nil value. *)
Definition with_protector {A} (k : SealedStateProtector → M fs_eff unit A) : M fs_eff unit A :=
  match the (fss_protector store) with Some protector => k protector | None => mfail errorText end.

Definition maximumFileBytes : Z := sealedStateHeaderBytes + maxEnvelopeBytes.

Definition sealedSizeCheck (size : Z) : result unit :=
  guard_err (size <? sealedStateHeaderBytes + 1) [ErrCorruptObject] ?;;
  guard_err (maximumFileBytes <? size) [ErrCorruptObject; ErrResourceLimit].

Definition sealed_loadLocked : M fs_eff unit (option (bytes * SealedStateRevision)) :=
  read <- readStateFile sealedSizeCheck maximumFileBytes ;;
  match read with
  | None => mret None
  | Some data =>
      fcheck FS_Ctx ;;;
      mguard (maximumFileBytes <? len data) [ErrCorruptObject; ErrResourceLimit] ;;;
      ' (prefix, revision, envelope) <- mlift (parseSealedStateFile data maxEnvelopeBytes) ;;
      let protectorBinding := deriveSealedStateProtectorBinding (fss_binding store) prefix in
      opened <- with_protector (λ p, sp_Open p protectorBinding envelope) ;;
      mguard (maxEnvelopeBytes <? len opened) [ErrResourceLimit] ;;;
      fcheck FS_Ctx ;;;
      mret (Some (opened, revision))
  end.

(** The gate around a body. *)
Definition gated {A} (body : M fs_eff unit A) : M fs_eff unit A :=
  fcheck FS_Acquire ;;;
  r <- mtry body ;;
  mcall FS_Release ;;;
  mlift r.

Definition sealed_Load : M fs_eff unit (option (bytes * SealedStateRevision)) :=
  fcheck FS_Ctx ;;;
  mguard (negb sealed_configured) errorText ;;;
  gated (locked true (
    loaded <- sealed_loadLocked ;;
    match loaded with
    | Some x => syncParentDirectory ;;; mret (Some x)
    | None => mret None
    end)).

(** The loop of sealForRevision. *)
Fixpoint sealForRevision (attempts : nat) (revision : SealedStateRevision) (plaintext : bytes)
    (sealedLength : Z) : M fs_eff unit (bytes * bytes) :=
  match attempts with
  | O => mfail errorText
  | Datatypes.S attempts =>
      fcheck FS_Ctx ;;;
      let prefix := encodeSealedStatePrefix revision sealedLength in
      let binding := deriveSealedStateProtectorBinding (fss_binding store) prefix in
      envelope <- with_protector (λ p, sp_Seal p binding plaintext) ;;
      mguard ((len envelope <? 1) || (maxEnvelopeBytes <? len envelope)) [ErrResourceLimit] ;;;
      if negb (len envelope =? sealedLength)
      then sealForRevision attempts revision plaintext (len envelope)
      else
        opened <- with_protector (λ p, sp_Open p binding envelope) ;;
        mguard (maxEnvelopeBytes <? len opened) [ErrResourceLimit] ;;;
        mguard (opened !=? plaintext) errorText ;;;
        fcheck FS_Ctx ;;;
        mret (prefix, envelope)
  end.

Definition sealedRevisionAttempts : nat := 64.

(** CompareAndSwap up to the sealed candidate. *)
Definition sealCandidate (expected : option SealedStateRevision) (next : bytes)
    : M fs_eff unit (SealedStateRevision * bytes * bytes) :=
  current <- sealed_loadLocked ;;
  match current with Some _ => syncParentDirectory | None => mret tt end ;;;
  mguard (option_map snd current !=? expected) [ErrPrecondition] ;;;
  fcheck FS_Ctx ;;;
  candidate <- newFileSealedStateRevision sealedRevisionAttempts (option_map snd current) ;;
  ' (prefix, envelope) <- sealForRevision sealedStateSealStabilizationLimit candidate next 1 ;;
  fcheck FS_Ctx ;;;
  mret (candidate, prefix, envelope).

(** The temporary file, up to the check before the rename. *)
Definition stageSealedFile (prefix envelope : bytes) : M fs_eff unit unit :=
  mcallr FS_CreateTemp ;;;
  tempStep (fcheck FS_Protect) ;;;
  tempStep (fcheck FS_ValidateSecret) ;;;
  tempStep (writeSealedStateFile prefix envelope) ;;;
  tempStep (fcheck FS_Sync) ;;;
  closed <- mtry (fcheck FS_Close ;;; fcheck FS_Ctx) ;;
  match closed with
  | Ok _ => mret tt
  | Err e => mcall FS_Remove ;;; mfail e
  end.

(** CompareAndSwap with the lock held: the revision and the error, since a
    revision returned with an error names a candidate that may be installed. *)
Definition sealed_casLocked (expected : option SealedStateRevision) (next : bytes)
    : M fs_eff unit (SealedStateRevision * option error) :=
  staged <- mtry (' (candidate, prefix, envelope) <- sealCandidate expected next ;;
                  stageSealedFile prefix envelope ;;;
                  mret candidate) ;;
  match staged with
  | Err e => mret (Digest_zero, Some e)
  | Ok revision =>
      renamed <- mcall FS_Rename ;;
      match renamed with
      | Some e => mcall FS_Remove ;;; mret (revision, Some e)
      | None =>
          installed <- mtry (validateInstalledSealedStateFile ;;; syncParentDirectory) ;;
          match installed with
          | Ok _ => mret (revision, None)
          | Err e => mret (revision, Some e)
          end
      end
  end.

(** [errors.Join]. *)
Definition join_err (a b : option error) : option error :=
  match a, b with
  | Some a, Some b => Some (a ++ b)
  | Some a, None => Some a
  | None, b => b
  end.

Definition sealed_CompareAndSwap (expected : option SealedStateRevision) (next : bytes)
    : M fs_eff unit (SealedStateRevision * option error) :=
  entered <- mtry (fcheck FS_Ctx ;;;
                   mguard (negb sealed_configured) errorText ;;;
                   mguard (maxEnvelopeBytes <? len next) [ErrResourceLimit] ;;;
                   fcheck FS_Acquire) ;;
  match entered with
  | Err e => mret (Digest_zero, Some e)
  | Ok _ =>
      lock <- mcall FS_Lock ;;
      match lock with
      | Some e => mcall FS_Release ;;; mret (Digest_zero, Some e)
      | None =>
          ' (revision, err) <- sealed_casLocked expected next ;;
          unlock <- mcall FS_Unlock ;;
          mcall FS_Release ;;;
          mret (revision, join_err err unlock)
      end
  end.
End Store.

(** ** The file format *)

Lemma prefix_length revision n : digest_wf revision → length (encodeSealedStatePrefix revision n) = 52%nat.
Proof. intros Hr. unfold encodeSealedStatePrefix. rewrite !length_app, BigEndian_length, Hr. done. Qed.

Lemma sub_skip a x from to :
  len a ≤ from → sub (a ++ x) from to = sub x (from - len a) (to - len a).
Proof.
  intros Ha. unfold sub. rewrite drop_app, drop_ge by (unfold len in *; lia). simpl.
  f_equal; [lia|]. f_equal. unfold len in *. lia.
Qed.

Lemma sub_head b c n : n = len b → sub (b ++ c) 0 n = b.
Proof. intros ->. unfold sub, len. rewrite Z.sub_0_r, Nat2Z.id. simpl. by rewrite drop_0, take_app_length. Qed.

(** The fields of a header followed by anything. *)
Lemma prefix_fields revision n rest :
  digest_wf revision →
  let data := encodeSealedStatePrefix revision n ++ rest in
  sub data 0 8 = sealedStateMagic ∧ sub data 8 10 = BigEndian_PutUint16 1 ∧
  sub data 10 12 = BigEndian_PutUint16 0 ∧ sub data 12 44 = revision ∧
  sub data 44 52 = BigEndian_AppendUint64 [] (Z.to_N n) ∧
  take 52 data = encodeSealedStatePrefix revision n ∧ drop 52 data = rest.
Proof.
  intros Hr data. pose proof (prefix_length revision n Hr) as Hl.
  assert (len sealedStateMagic = 8 ∧ (∀ k, len (BigEndian_PutUint16 k) = 2) ∧ len revision = 32 ∧
    len (BigEndian_AppendUint64 [] (Z.to_N n)) = 8) as (L1 & L2 & L3 & L4).
  { split_and!; [done|done|unfold len; by rewrite Hr|done]. }
  unfold data. split_and!; [| | | | |by rewrite take_app_length'|by rewrite drop_app_length'];
    unfold encodeSealedStatePrefix, sealedStateFormatVersion; rewrite <- !(assoc_L (++));
    repeat (rewrite sub_skip by (rewrite ?L1, ?L2, ?L3; lia); rewrite ?L1, ?L2, ?L3; simpl Z.sub);
    by apply sub_head.
Qed.

Lemma parse_encode revision envelope maximum :
  digest_wf revision → Digest_IsZero revision = false → 1 ≤ len envelope ≤ maximum → maximum < 2 ^ 64 →
  parseSealedStateFile (encodeSealedStatePrefix revision (len envelope) ++ envelope) maximum =
  Ok (encodeSealedStatePrefix revision (len envelope), revision, envelope).
Proof.
  intros Hr Hz Hl Hm. destruct (prefix_fields revision (len envelope) envelope Hr) as (E1 & E2 & E3 & E4 & E5 & E6 & E7).
  unfold parseSealedStateFile, sealedStateMagicBytes, sealedStateVersionOffset, sealedStateReservedOffset,
    sealedStateRevisionOffset, sealedStateEnvelopeLengthOffset, sealedStateHeaderBytes,
    sealedStateEnvelopeLengthOffset, sealedStateRevisionOffset, sealedStateReservedOffset,
    sealedStateVersionOffset, sealedStateMagicBytes.
  change (8 + 2 + 2 + 32 + 8) with 52. change (8 + 2 + 2 + 32) with 44. change (8 + 2 + 2) with 12.
  change (8 + 2) with 10. change (Z.to_nat 52) with 52%nat.
  rewrite E1, E2, E3, E4, E5, E6, E7, BigEndian_Uint64_Append by lia.
  rewrite Z2N.id by lia. rewrite len_app.
  assert (len (encodeSealedStatePrefix revision (len envelope)) = 52) as -> by (unfold len at 1; by rewrite prefix_length).
  rewrite !bool_decide_true by (done || lia). rewrite Hz.
  destruct (Z.ltb_spec (52 + len envelope) (52 + 1)); [lia|].
  destruct (Z.ltb_spec (len envelope) 1); [lia|]. destruct (Z.ltb_spec maximum (len envelope)); [lia|]. done.
Qed.

(** What parses is canonical. *)
Lemma parse_canonical data maximum prefix revision envelope :
  parseSealedStateFile data maximum = Ok (prefix, revision, envelope) →
  data = prefix ++ envelope ∧ prefix = encodeSealedStatePrefix revision (len envelope) ∧
  digest_wf revision ∧ Digest_IsZero revision = false ∧ 1 ≤ len envelope ≤ maximum.
Proof.
  unfold parseSealedStateFile. intros E. ok_inv. bool_prop. simplify_eq.
  assert (sealedStateHeaderBytes = 52) as Hh by done.
  set (d := sub data sealedStateRevisionOffset sealedStateEnvelopeLengthOffset) in *.
  assert (len (drop (Z.to_nat sealedStateHeaderBytes) data) = len data - sealedStateHeaderBytes) as El.
  { unfold len in *. rewrite length_drop. lia. }
  rewrite El. split_and!; try done; try lia.
  - by rewrite take_drop.
  - rewrite Hok2. done.
  - unfold d, digest_wf, sub. rewrite length_take, length_drop. unfold len, sealedStateHeaderBytes in *.
    unfold sealedStateEnvelopeLengthOffset, sealedStateRevisionOffset, sealedStateReservedOffset,
      sealedStateVersionOffset, sealedStateMagicBytes in *. lia.
Qed.

(** ** What the protector promises

    [opens b e] is the plaintext the envelope [e] holds for the binding [b]: an
    envelope that opens, opens to one plaintext.  Neither call touches the
    file. *)
Class ProtectorLaws (protector : SealedStateProtector) (opens : bytes → bytes → option bytes) : Prop := {
  seal_keeps inv d s binding plaintext (Q : disk → unit → result bytes → Prop) :
    inv d → (∀ r, Q d s r) → mrwp fs_step inv (sp_Seal protector binding plaintext) s d Q;
  open_keeps inv d s binding envelope (Q : disk → unit → result bytes → Prop) :
    inv d → (∀ r, (∀ p, r = Ok p → opens binding envelope = Some p) → Q d s r) →
    mrwp fs_step inv (sp_Open protector binding envelope) s d Q;
}.

Section StoreProofs.
Context (store : FileSealedStateStore) (opens : bytes → bytes → option bytes).
Hypothesis Hlaws : ∀ p, the (fss_protector store) = Some p → ProtectorLaws p opens.
Hypothesis Hmax : 0 < fss_maxEnvelopeBytes store < 2 ^ 63.
Abbreviation maximum := (fss_maxEnvelopeBytes store).

(** The value and the revision that the bytes of a file stand for. *)
Definition sealed_reads (data : bytes) : option (bytes * SealedStateRevision) :=
  match parseSealedStateFile data maximum with
  | Ok (prefix, revision, envelope) =>
      match opens (deriveSealedStateProtectorBinding (fss_binding store) prefix) envelope with
      | Some p => if maximum <? len p then None else Some (p, revision)
      | None => None
      end
  | Err _ => None
  end.

(** What the store holds. *)
Definition sealed_is (d : disk) (current : option (bytes * SealedStateRevision)) : Prop :=
  match dk_visible d, current with
  | None, None => True
  | Some f, Some x => sealed_reads (f_data f) = Some x
  | _, _ => False
  end.

(** What a machine crash can leave: [Some None] no file, [None] a file that does
    not read. *)
Definition sealed_after_crash (d : disk) (x : option (option (bytes * SealedStateRevision))) : Prop :=
  ∃ c, crash_content d c ∧
    x = match c with None => Some None | Some b => option_map Some (sealed_reads b) end.

Lemma open_spec inv d s binding envelope (Q : disk → unit → result bytes → Prop) :
  inv d → (∀ e, Q d s (Err e)) → (∀ p, opens binding envelope = Some p → Q d s (Ok p)) →
  mrwp fs_step inv (with_protector store (λ p, sp_Open p binding envelope)) s d Q.
Proof.
  intros Hi He HQ. unfold with_protector. destruct (the (fss_protector store)) as [p|] eqn:Hp; [|by apply mrwp_fail].
  apply (Hlaws p eq_refl); [done|]. intros [r|e] Hr; [|done]. by apply HQ, Hr.
Qed.

Lemma seal_spec inv d s binding plaintext (Q : disk → unit → result bytes → Prop) :
  inv d → (∀ r, Q d s r) →
  mrwp fs_step inv (with_protector store (λ p, sp_Seal p binding plaintext)) s d Q.
Proof.
  intros Hi HQ. unfold with_protector. destruct (the (fss_protector store)) as [p|] eqn:Hp; [|by apply mrwp_fail].
  by apply (Hlaws p eq_refl).
Qed.

Lemma sealed_loadLocked_spec inv d s Q :
  inv d → (∀ e, Q d s (Err e)) → (∀ current, sealed_is d current → Q d s (Ok current)) →
  mrwp fs_step inv (sealed_loadLocked store) s d Q.
Proof.
  intros Hi He HQ. unfold sealed_loadLocked.
  assert (0 ≤ maximumFileBytes store) as Hf by (unfold maximumFileBytes; change sealedStateHeaderBytes with 52; lia).
  apply mrwp_bind, readStateFile_spec; [done|done|done| |].
  - intros Hv. apply mrwp_ret; [done|]. apply HQ. unfold sealed_is. by rewrite Hv.
  - intros f u Hv Hc. unfold sealedSizeCheck in Hc. ok_inv. bool_prop.
    rewrite firstn_all2 by (unfold len in *; lia).
    apply mrwp_bind, fcheck_keep; [done|done| |done]. apply mrwp_bind, mrwp_guard; [done|done|intros _].
    apply mrwp_bind, mrwp_lift; [done|].
    destruct (parseSealedStateFile (f_data f) maximum) as [[[prefix revision] envelope]|] eqn:Hp; [|done].
    apply mrwp_bind, open_spec; [done|done|]. intros p Ho.
    apply mrwp_bind, mrwp_guard; [done|done|intros Hl].
    apply mrwp_bind, fcheck_keep; [done|done| |done]. apply mrwp_ret; [done|]. apply HQ.
    unfold sealed_is, sealed_reads. by rewrite Hv, Hp, Ho, Hl.
Qed.

Lemma newSealedRevision_spec inv n forbidden d s (Q : disk → unit → result bytes → Prop) :
  inv d → (∀ e, Q d s (Err e)) →
  (∀ revision, digest_wf revision → Digest_IsZero revision = false → forbidden ≠ Some revision →
     Q d s (Ok revision)) →
  mrwp fs_step inv (newFileSealedStateRevision n forbidden) s d Q.
Proof.
  intros Hi He HQ. induction n as [|n IH]; simpl; [by apply mrwp_fail|].
  apply mrwp_bind, callr_keep; [done|done|]. intros [random|e] _; [|done].
  destruct (negb _ && _) eqn:E; [|done]. bool_prop. apply mrwp_ret; [done|].
  apply HQ; [apply fill_length|done|]. intros ->. bool_prop. done.
Qed.

(** Data that reads as the value with the revision. *)
Definition sealed_data (next : bytes) (revision : SealedStateRevision) (b : bytes) : Prop :=
  sealed_reads b = Some (next, revision).

Lemma sealForRevision_spec inv n revision next sealedLength d s (Q : disk → unit → result (bytes * bytes) → Prop) :
  digest_wf revision → Digest_IsZero revision = false → inv d → (∀ e, Q d s (Err e)) →
  (∀ prefix envelope, sealed_data next revision (prefix ++ envelope) → Q d s (Ok (prefix, envelope))) →
  mrwp fs_step inv (sealForRevision store n revision next sealedLength) s d Q.
Proof.
  intros Hr Hz Hi He HQ. revert sealedLength. induction n as [|n IH]; intros sealedLength; simpl; [by apply mrwp_fail|].
  apply mrwp_bind, fcheck_keep; [done|done| |done]. apply mrwp_bind, seal_spec; [done|]. intros [envelope|e]; [|done].
  apply mrwp_bind, mrwp_guard; [done|done|intros Hl]. bool_prop.
  destruct (negb (len envelope =? sealedLength)) eqn:El; [apply IH|]. bool_prop.
  apply mrwp_bind, open_spec; [done|done|]. intros p Ho. apply mrwp_bind, mrwp_guard; [done|done|intros Hp].
  apply mrwp_bind, mrwp_guard; [done|done|intros Heq]. bool_prop. subst p.
  apply mrwp_bind, fcheck_keep; [done|done| |done]. apply mrwp_ret; [done|]. apply HQ.
  unfold sealed_data, sealed_reads. subst sealedLength. rewrite parse_encode by (done || lia). rewrite Ho.
  by destruct (Z.ltb_spec maximum (len next)); [lia|].
Qed.

(** The temporary file is complete and synced, or only it was touched. *)
Lemma stageSealedFile_spec inv prefix envelope d s (Q : disk → unit → result unit → Prop) :
  names_only inv → inv d → (∀ t e, Q (with_temp d t) s (Err e)) →
  Q (with_temp d (Some {| f_data := prefix ++ envelope; f_synced := true |})) s (Ok tt) →
  mrwp fs_step inv (stageSealedFile prefix envelope) s d Q.
Proof.
  intros Hn Hi He HO. assert (∀ t, inv (with_temp d t)) as Ht by (intros t; by apply Hn).
  assert (∀ e, Q d s (Err e)) as He0 by (intros e; destruct d; apply He).
  unfold stageSealedFile. apply mrwp_bind, mrwp_callr; [done|].
  intros [u|e] d1 Hs1; simpl in Hs1; subst d1; [|by split]. split; [done|].
  apply stage; [done..|]. apply fcheck_keep; [done|done| |by intros; eauto]. split; [done|]. eexists. split; [done|].
  apply stage; [done..|]. apply fcheck_keep; [done|done| |by intros; eauto]. split; [done|]. eexists. split; [done|].
  apply stage; [done..|]. unfold writeSealedStateFile.
  apply mrwp_bind, mrwp_callr; [done|]. intros r d2 (n & Hn2 & -> & Hr). split; [apply Ht|].
  destruct r as [m|e]; [|split; [done|]; by eexists]. rewrite (Hr m eq_refl).
  apply mrwp_bind, mrwp_guard; [apply Ht|intros _; split; [done|]; by eexists|intros El]. bool_prop. subst n.
  apply mrwp_bind, mrwp_callr; [apply Ht|]. intros r d3 (n & Hn3 & -> & Hr3). split; [apply Ht|].
  destruct r as [m'|e]; [|split; [done|]; by eexists]. rewrite (Hr3 m' eq_refl).
  apply mrwp_guard; [apply Ht|intros _; split; [done|]; by eexists|intros El]. bool_prop. subst n.
  split; [done|]. eexists. split; [done|]. unfold written, with_temp, temp_data. simpl.
  rewrite !firstn_all2 by (unfold len; lia). simpl.
  apply stage; [done..|]. unfold fcheck. apply mrwp_bind, mrwp_call; [apply Ht|].
  intros [e|] d4 Hs4; simpl in Hs4.
  { subst d4. split; [apply Ht|]. apply mrwp_fail; [apply Ht|]. split; [done|]. by eexists. }
  destruct Hs4 as (f & [= <-] & ->). split; [apply Ht|]. apply mrwp_ret; [apply Ht|].
  split; [done|]. eexists. split; [done|]. simpl f_data.
  assert (∀ e, mrwp fs_step inv (mcall FS_Remove ;;; mfail e) s
    (with_temp d (Some {| f_data := prefix ++ envelope; f_synced := true |})) Q) as Hremove.
  { intros e. apply mrwp_bind, mrwp_call; [apply Ht|]. intros [] d5 ->. split; [apply Ht|].
    apply mrwp_fail; [apply Ht|]. apply He. }
  apply mrwp_bind, mrwp_try, mrwp_bind, fcheck_keep; [done|apply Ht| |apply Hremove].
  apply fcheck_keep; [done|apply Ht| |apply Hremove]. apply mrwp_ret; [apply Ht|done].
Qed.

(** ** CompareAndSwap *)

Definition nothing_new (b : bytes) : Prop := False.

(** Data that a CompareAndSwap may install. *)
Definition new_data (expected : option SealedStateRevision) (next b : bytes) : Prop :=
  ∃ revision, expected ≠ Some revision ∧ sealed_data next revision b.

Lemma entries_weaken (new new' : bytes → Prop) d d' :
  (∀ b, new b → new' b) → entries new d d' → entries new' d d'.
Proof. intros Hn [Hd He]. split; [done|]. intros f Hf. destruct (He f Hf) as [?|(b & Hb & ->)]; eauto. Qed.

Lemma sealCandidate_spec expected next d s
    (Q : disk → unit → result (SealedStateRevision * bytes * bytes) → Prop) :
  dk_names d ≠ [] →
  (∀ d' e, entries nothing_new d d' → Q d' s (Err e)) →
  (∀ d' current revision prefix envelope, entries nothing_new d d' →
     sealed_is d current → option_map snd current = expected → expected ≠ Some revision →
     Digest_IsZero revision = false → sealed_data next revision (prefix ++ envelope) →
     Q d' s (Ok (revision, prefix, envelope))) →
  mrwp fs_step (entries nothing_new d) (sealCandidate store expected next) s d Q.
Proof.
  intros Hd HE HO. unfold sealCandidate. pose proof (entries_refl nothing_new d Hd) as Hr.
  apply mrwp_bind, sealed_loadLocked_spec; [done|auto|]. intros current Hc.
  assert (∀ d1, entries nothing_new d d1 →
    mrwp fs_step (entries nothing_new d)
      (mguard (option_map snd current !=? expected) [ErrPrecondition] ;;; fcheck FS_Ctx ;;;
       candidate <- newFileSealedStateRevision sealedRevisionAttempts (option_map snd current) ;;
       ' (prefix, envelope) <- sealForRevision store sealedStateSealStabilizationLimit candidate next 1 ;;
       fcheck FS_Ctx ;;; mret (candidate, prefix, envelope)) s d1 Q) as Hrest.
  { intros d1 H1. apply mrwp_bind, mrwp_guard; [done|auto|intros Heq]. bool_prop.
    apply mrwp_bind, fcheck_keep; [done|done| |auto].
    apply mrwp_bind, newSealedRevision_spec; [done|auto|]. intros revision Hw Hz Hf.
    apply mrwp_bind, sealForRevision_spec; [done|done|done|auto|]. intros prefix envelope Hs.
    apply mrwp_bind, fcheck_keep; [done|done| |auto]. apply mrwp_ret; [done|].
    eapply HO; eauto. congruence. }
  destruct current as [x|].
  - apply mrwp_bind, syncParentDirectory_spec; [done|by apply entries_visible|auto|].
    by apply Hrest, entries_visible.
  - apply mrwp_bind, mrwp_ret; [done|]. by apply Hrest.
Qed.

(** How a CompareAndSwap ends: the zero revision and nothing installed; or the
    revision of a candidate that may be installed, and that is the only entry
    when there is no error. *)
Definition sealed_outcome (expected : option SealedStateRevision) (next : bytes) (d d' : disk)
    (revision : SealedStateRevision) (err : option error) : Prop :=
  (revision = Digest_zero ∧ err ≠ None ∧ entries nothing_new d d')
  ∨ (Digest_IsZero revision = false ∧ expected ≠ Some revision ∧
     (∃ current, sealed_is d current ∧ option_map snd current = expected) ∧
     entries (sealed_data next revision) d d' ∧
     (err = None → ∃ b, sealed_data next revision b ∧
        dk_names d' = [Some {| f_data := b; f_synced := true |}])).

Lemma entries_installed (new : bytes → Prop) d d' b t :
  new b → entries nothing_new d d' →
  entries new d {| dk_names := Some {| f_data := b; f_synced := true |} :: dk_names d'; dk_temp := t |}.
Proof.
  intros Hb [Hd He]. split; [done|]. simpl. intros f Hf. apply elem_of_cons in Hf as [->|Hf]; [eauto|].
  destruct (He f Hf) as [?|(? & [] & _)]. by left.
Qed.

Lemma sealed_casLocked_spec expected next d s
    (Q : disk → unit → result (SealedStateRevision * option error) → Prop) :
  dk_names d ≠ [] →
  (∀ d' revision err, sealed_outcome expected next d d' revision err → Q d' s (Ok (revision, err))) →
  mrwp fs_step (entries (new_data expected next) d) (sealed_casLocked store expected next) s d Q.
Proof.
  intros Hd HQ. unfold sealed_casLocked.
  set (I := entries (new_data expected next) d).
  assert (∀ d', entries nothing_new d d' → I d') as HI by (intros d'; by apply entries_weaken).
  apply mrwp_bind, mrwp_try, mrwp_bind. eapply (mrwp_weaken _ (entries nothing_new d)); [exact HI|].
  apply sealCandidate_spec; [done| |].
  { intros d' e He. eapply mrwp_ret; [by apply HI|]. apply HQ. left. done. }
  intros d1 current revision prefix envelope H1 Hc Hx Hf Hz Hs.
  set (b := prefix ++ envelope) in *.
  assert (new_data expected next b) as Hb by (by exists revision).
  assert (∀ d' err, entries (sealed_data next revision) d d' → err ≠ None → Q d' s (Ok (revision, err))) as Hfail.
  { intros d' err He Herr. apply HQ. right. split_and!; [done|done|by exists current|done|done]. }
  apply mrwp_bind, stageSealedFile_spec; [apply entries_names|by apply HI| |].
  { intros t e. apply mrwp_ret; [by apply entries_names, HI|]. apply HQ. left. done. }
  apply mrwp_ret; [by apply entries_names, HI|].
  set (dr := λ t, {| dk_names := Some {| f_data := b; f_synced := true |} :: dk_names d1; dk_temp := t |}).
  assert (∀ t, entries (sealed_data next revision) d (dr t)) as Hdr by (intros t; by apply entries_installed).
  assert (∀ d', entries (sealed_data next revision) d d' → I d') as HI'.
  { intros d'. apply entries_weaken. intros b' Hb'. by exists revision. }
  assert (∀ t, entries (sealed_data next revision) d (with_temp d1 t)) as Hd1.
  { intros t. eapply entries_names, entries_weaken; [|exact H1]. done. }
  apply mrwp_bind, mrwp_call; [by apply HI', Hd1|].
  intros [e|] d2 [[_ ->]|[Hx2 ->]]; try done; (split; [by first [apply HI', (Hdr None)|apply HI', Hd1]|]).
  1,2: apply mrwp_bind, mrwp_call; [by first [apply HI', (Hdr None)|apply HI', Hd1]|]; intros [] d3 ->;
    split; [by first [apply HI', (Hdr None)|apply HI', Hd1]|]; apply mrwp_ret;
    [by first [apply HI', (Hdr None)|apply HI', Hd1]|];
    apply Hfail; [by first [apply (Hdr None)|apply Hd1]|done].
  apply mrwp_bind, mrwp_try. fold (dr None). unfold validateInstalledSealedStateFile.
  assert (∀ d' e, entries (sealed_data next revision) d d' →
    mrwp fs_step I (mret (revision, Some e)) s d' Q) as Hend.
  { intros d' e He. apply mrwp_ret; [by apply HI'|]. by apply Hfail. }
  apply mrwp_bind, mrwp_bind, callr_keep; [done|by apply HI'|]. intros [u|e] _; [|by apply Hend].
  apply fcheck_keep; [done|by apply HI'| |intros e; by apply Hend].
  eapply (mrwp_weaken _ (entries (sealed_data next revision) d)); [exact HI'|].
  assert (entries (sealed_data next revision) d
    {| dk_names := [Some {| f_data := b; f_synced := true |}]; dk_temp := None |}) as Hfin.
  { apply entries_single. right. eauto. }
  apply syncParentDirectory_spec; [done|done|intros; by apply Hend|].
  apply mrwp_ret; [by apply HI'|]. apply HQ. right.
  split_and!; [done|done|by exists current|done|]. intros _. by exists b.
Qed.

Lemma sealed_outcome_entries expected next d d' revision err :
  sealed_outcome expected next d d' revision err → entries (new_data expected next) d d'.
Proof.
  intros [(_ & _ & He)|(_ & Hx & _ & He & _)]; (eapply entries_weaken; [|exact He]); [done|].
  intros b Hb. by exists revision.
Qed.

Lemma sealed_outcome_join expected next d d' revision err unlock :
  sealed_outcome expected next d d' revision err →
  sealed_outcome expected next d d' revision (join_err err unlock).
Proof.
  intros [(Hr & Herr & He)|(Hz & Hx & Hc & He & Hd)]; [left|right]; split_and!; try done;
    destruct err, unlock; try done; auto.
Qed.

Lemma sealed_CompareAndSwap_spec expected next d s
    (Q : disk → unit → result (SealedStateRevision * option error) → Prop) :
  dk_names d ≠ [] →
  (∀ d' revision err, sealed_outcome expected next d d' revision err → Q d' s (Ok (revision, err))) →
  mrwp fs_step (entries (new_data expected next) d) (sealed_CompareAndSwap store expected next) s d Q.
Proof.
  intros Hd HQ. unfold sealed_CompareAndSwap. set (I := entries (new_data expected next) d).
  assert (I d) as Hi by (by apply entries_refl).
  assert (∀ e, Q d s (Ok (Digest_zero, Some e))) as H0.
  { intros e. apply HQ. left. split_and!; [done|done|by apply entries_refl]. }
  apply mrwp_bind, mrwp_try.
  assert (∀ e, mrwp fs_step I (mret (Digest_zero, Some e)) s d Q) as Hend by (intros e; by apply mrwp_ret).
  apply mrwp_bind, fcheck_keep; [done|done| |done]. apply mrwp_bind, mrwp_guard; [done|done|intros _].
  apply mrwp_bind, mrwp_guard; [done|done|intros _]. apply fcheck_keep; [done|done| |done].
  apply mrwp_bind, mrwp_call; [done|]. intros [e|] d' ->; (split; [done|]).
  { apply mrwp_bind, mrwp_call; [done|]. intros [] d' ->. split; [done|apply Hend]. }
  apply mrwp_bind, sealed_casLocked_spec; [done|]. intros d' revision err Ho.
  pose proof (sealed_outcome_entries _ _ _ _ _ _ Ho) as Hi'.
  apply mrwp_bind, mrwp_call; [done|]. intros unlock d2 ->. split; [done|].
  apply mrwp_bind, mrwp_call; [done|]. intros [] d2 ->. split; [done|].
  apply mrwp_ret; [done|]. apply HQ. by apply sealed_outcome_join.
Qed.

Lemma sealed_crash_entries (new : bytes → Prop) d d' x :
  entries new d d' → sealed_after_crash d' x →
  sealed_after_crash d x ∨ ∃ b, new b ∧ x = option_map Some (sealed_reads b).
Proof.
  intros He (c & Hc & ->). destruct (entries_crash _ _ _ _ He Hc) as [Hc'|(b & Hb & ->)].
  - left. by exists c.
  - right. by exists b.
Qed.

Lemma sealed_crash_single d b x y :
  dk_names d = [Some {| f_data := b; f_synced := true |}] → sealed_reads b = Some y →
  sealed_after_crash d x → x = Some (Some y).
Proof.
  intros Hd Hb (c & Hc & ->). eapply crash_of_synced in Hc; [|done|done]. subst c. simpl. by rewrite Hb.
Qed.

(** C29: the sealed file is replaced atomically and durably, and the returned
    revision tells what may have happened.  At every moment of a CompareAndSwap
    a machine crash leaves what it could leave before, or the complete next
    value under a fresh revision.  The zero revision comes with an error and
    nothing was installed.  A nonzero revision means that the file held exactly
    the expected revision, and names the only value that may have been
    installed, also when there is an error; with no error a crash at any later
    time leaves exactly the next value under that revision. *)
Theorem sealed_cas_crash_safe (expected : option SealedStateRevision) (next : bytes) (d : disk) :
  disk_synced d →
  mrwp fs_step
    (λ d', disk_synced d' ∧ ∀ x, sealed_after_crash d' x →
       sealed_after_crash d x ∨ ∃ revision, expected ≠ Some revision ∧ x = Some (Some (next, revision)))
    (sealed_CompareAndSwap store expected next) tt d
    (λ d' _ r, ∃ revision err, r = Ok (revision, err) ∧
       (revision = Digest_zero → err ≠ None ∧ ∀ x, sealed_after_crash d' x → sealed_after_crash d x) ∧
       (revision ≠ Digest_zero → expected ≠ Some revision ∧
          (∃ current, sealed_is d current ∧ option_map snd current = expected) ∧
          ∀ x, sealed_after_crash d' x → sealed_after_crash d x ∨ x = Some (Some (next, revision))) ∧
       (err = None → ∀ x, sealed_after_crash d' x → x = Some (Some (next, revision)))).
Proof.
  intros Hs. eapply (mrwp_weaken _ (entries (new_data expected next) d)).
  { intros d' He. split; [by eapply entries_synced|]. intros x Hx.
    destruct (sealed_crash_entries _ _ _ _ He Hx) as [?|(b & (revision & Hr & Hb) & ->)]; [by left|right].
    exists revision. by rewrite Hb. }
  apply sealed_CompareAndSwap_spec; [apply Hs|]. intros d' revision err Ho. exists revision, err. split; [done|].
  destruct Ho as [(-> & Herr & He)|(Hz & Hx & Hc & He & Hok)].
  - split_and!; [|done|done]. intros _. split; [done|]. intros x Hac.
    by destruct (sealed_crash_entries _ _ _ _ He Hac) as [?|(b & [] & _)].
  - split_and!; [by intros ->| |].
    + intros _. split_and!; [done|done|]. intros x Hac.
      destruct (sealed_crash_entries _ _ _ _ He Hac) as [?|(b & Hb & ->)]; [by left|right]. by rewrite Hb.
    + intros Herr x Hac. destruct (Hok Herr) as (b & Hb & Hn). by eapply sealed_crash_single.
Qed.

(** What Load may answer on the disk [d] when it leaves [d']. *)
Definition sealed_answer (d d' : disk) (r : result (option (bytes * SealedStateRevision))) : Prop :=
  match r with
  | Ok (Some x) => sealed_is d (Some x) ∧ ∀ y, sealed_after_crash d' y → y = Some (Some x)
  | Ok None => dk_visible d = None
  | Err _ => True
  end.

(** Load answers only from durable state.  A value that Load returns is
    what the visible file reads as, opened under the binding of its own header,
    and a machine crash at any later time leaves exactly that value and
    revision; it reports no value only when there is no file; it changes
    nothing but to sync the directory. *)
Theorem sealed_load_durable (d : disk) :
  disk_synced d →
  mrwp fs_step (λ d', dk_names d' = dk_names d ∨ dk_names d' = [dk_visible d])
    (sealed_Load store) tt d
    (λ d' _ r, sealed_answer d d' r).
Proof.
  intros [Hd Hs]. unfold sealed_Load, gated. apply mrwp_bind, fcheck_keep; [done|by left| |done].
  apply mrwp_bind, mrwp_guard; [by left|done|intros _]. apply mrwp_bind, fcheck_keep; [done|by left| |done].
  apply mrwp_bind, mrwp_try.
  set (I := λ d', dk_names d' = dk_names d ∨ dk_names d' = [dk_visible d]).
  assert (∀ d' r, I d' → sealed_answer d d' r →
    mrwp fs_step I (mcall FS_Release ;;; mlift r) tt d' (λ d' _ r, sealed_answer d d' r)) as Hend.
  { intros d' r Hi Hr. apply mrwp_bind, mrwp_call; [done|]. intros [] d2 ->. split; [done|]. by apply mrwp_lift. }
  apply locked_spec; [by left|intros e; by apply Hend; [left|]|].
  apply mrwp_bind, sealed_loadLocked_spec; [by left|intros e; split; [|intros e']; by apply Hend; [left|]|].
  intros [x|] Hc.
  - apply mrwp_bind, syncParentDirectory_spec; [by left|by right| |].
    + intros d' e Hi. split; [|intros e']; by apply Hend.
    + apply mrwp_ret; [by right|]. split; [|intros e; by apply Hend; [right|]]. apply Hend; [by right|].
      split; [done|]. intros y Hy. unfold sealed_is in Hc. destruct (dk_visible d) as [f|] eqn:Hv; [|done].
      assert (f_synced f = true) as Hf. { apply Hs. rewrite <- Hv. by apply visible_in. }
      eapply sealed_crash_single; [|exact Hc|exact Hy]. simpl. destruct f; simpl in *. by subst.
  - apply mrwp_ret; [by left|]. split; [|intros e; by apply Hend; [left|]]. apply Hend; [by left|].
    unfold sealed_is in Hc. simpl. by destruct (dk_visible d).
Qed.
End StoreProofs.

(** ** The binding *)

Lemma sealedBindingInput_inj b1 p1 b2 p2 :
  len b1 < 2 ^ 64 → len b2 < 2 ^ 64 → len p1 < 2 ^ 64 → len p2 < 2 ^ 64 →
  sealedBindingInput b1 p1 = sealedBindingInput b2 p2 → b1 = b2 ∧ p1 = p2.
Proof.
  intros H1 H2 H3 H4 E. unfold sealedBindingInput in E. apply app_inv_head in E.
  pose proof (len_nonneg b1). pose proof (len_nonneg b2). pose proof (len_nonneg p1). pose proof (len_nonneg p2).
  apply BigEndian_Append_inj in E as [El E]; [|lia..]. apply app_inj_1 in E as [-> E]; [|unfold len in *; lia].
  apply BigEndian_Append_inj in E as [_ ->]; [|lia..]. done.
Qed.

Lemma encodeSealedStatePrefix_inj r1 n1 r2 n2 :
  digest_wf r1 → digest_wf r2 → 0 ≤ n1 < 2 ^ 64 → 0 ≤ n2 < 2 ^ 64 →
  encodeSealedStatePrefix r1 n1 = encodeSealedStatePrefix r2 n2 → r1 = r2 ∧ n1 = n2.
Proof.
  intros H1 H2 H3 H4 E. unfold encodeSealedStatePrefix in E. do 3 apply app_inv_head in E.
  apply app_inj_1 in E as [-> E]; [|by rewrite H1, H2].
  rewrite <- (app_nil_r (BigEndian_AppendUint64 _ _)), <- (app_nil_r (BigEndian_AppendUint64 _ (Z.to_N n2))) in E.
  apply BigEndian_Append_inj in E as [E _]; [|lia..]. split; [done|lia].
Qed.

(** The whole header is authenticated.  When two stores accept the framing
    of two files and ask the protector to open them under the same binding, the
    stores have the same caller binding and the files have the same revision
    and the same envelope length, so a file whose envelope is moved under
    another header, revision or store is opened under another binding, unless
    their bindings collide under SHA-256. *)
Theorem sealed_header_authenticated (m1 m2 : Z) (b1 b2 data1 data2 : bytes)
    (prefix1 prefix2 revision1 revision2 envelope1 envelope2 : bytes) :
  m1 < 2 ^ 64 → m2 < 2 ^ 64 → len b1 < 2 ^ 64 → len b2 < 2 ^ 64 →
  parseSealedStateFile data1 m1 = Ok (prefix1, revision1, envelope1) →
  parseSealedStateFile data2 m2 = Ok (prefix2, revision2, envelope2) →
  deriveSealedStateProtectorBinding b1 prefix1 = deriveSealedStateProtectorBinding b2 prefix2 →
  (b1 = b2 ∧ revision1 = revision2 ∧ len envelope1 = len envelope2 ∧
   (envelope1 = envelope2 → data1 = data2)) ∨
  collide (sealedBindingInput b1 prefix1) (sealedBindingInput b2 prefix2).
Proof.
  intros Hm1 Hm2 Hb1 Hb2 P1 P2 E.
  apply parse_canonical in P1 as (-> & -> & W1 & Z1 & L1). apply parse_canonical in P2 as (-> & -> & W2 & Z2 & L2).
  destruct (decide (sealedBindingInput b1 (encodeSealedStatePrefix revision1 (len envelope1)) =
    sealedBindingInput b2 (encodeSealedStatePrefix revision2 (len envelope2)))) as [Ei|Hn];
    [left|by right].
  apply sealedBindingInput_inj in Ei as [-> Ep]; [|done|done|unfold len; rewrite prefix_length by done; lia..].
  apply encodeSealedStatePrefix_inj in Ep as [-> En]; [|done|done|lia|lia].
  split_and!; [done..|]. by intros ->.
Qed.

(** ** Examples *)

(** A protector that writes the binding before the plaintext. *)
Definition toy_opens (binding envelope : bytes) : option bytes :=
  if take 32 envelope ==? binding then Some (drop 32 envelope) else None.
Definition toy_protector : SealedStateProtector := {|
  sp_Seal := λ binding plaintext, mret (binding ++ plaintext);
  sp_Open := λ binding envelope,
    match toy_opens binding envelope with Some p => mret p | None => mfail [ErrCorruptObject] end;
|}.

Instance toy_protector_laws : ProtectorLaws toy_protector toy_opens.
Proof.
  constructor; intros inv d s binding x Q Hi HQ; simpl.
  - by apply mrwp_ret.
  - destruct (toy_opens binding x) as [p|] eqn:E; [apply mrwp_ret|apply mrwp_fail]; try done; apply HQ; congruence.
Qed.

Definition toy_sealed : FileSealedStateStore := {|
  fss_path := str "/state/sealed"; fss_lockPath := str "/state/sealed.lock";
  fss_protector := Configured toy_protector; fss_binding := str "publisher";
  fss_maxEnvelopeBytes := 4096 |}.

Definition toy_revision : SealedStateRevision := replicate 32 x09.

(** A value is stored and read back; a stale expectation is refused. *)
Example sealed_store_load :
  (run fs_run ((' (r1, e1) <- sealed_CompareAndSwap toy_sealed None (str "secret") ;;
                ' (r2, e2) <- sealed_CompareAndSwap toy_sealed None (str "other") ;;
                x <- sealed_Load toy_sealed ;;
                mret (r1, e1, r2, e2, x)) tt) empty_disk).2
  = (tt, Ok (toy_revision, None, Digest_zero, Some [ErrPrecondition], Some (str "secret", toy_revision))).
Proof. by vm_compute. Qed.

Example toy_new_store :
  (run fs_run (NewFileSealedStateStore (str "/state/sealed")
     {| sso_Protector := Configured toy_protector; sso_Binding := str "publisher";
        sso_MaxEnvelopeBytes := 4096 |} tt) empty_disk).2 = (tt, Ok toy_sealed).
Proof. by vm_compute. Qed.

Lemma toy_sealed_laws p : the (fss_protector toy_sealed) = Some p → ProtectorLaws p toy_opens.
Proof. intros [= <-]. apply toy_protector_laws. Qed.

Lemma sealed_cas_crash_safe_witness :
  mrwp fs_step
    (λ d', disk_synced d' ∧ ∀ x, sealed_after_crash toy_sealed toy_opens d' x →
       sealed_after_crash toy_sealed toy_opens empty_disk x
       ∨ ∃ revision, None ≠ Some revision ∧ x = Some (Some (str "secret", revision)))
    (sealed_CompareAndSwap toy_sealed None (str "secret")) tt empty_disk
    (λ d' _ r, ∃ revision err, r = Ok (revision, err) ∧
       (revision = Digest_zero → err ≠ None ∧ ∀ x, sealed_after_crash toy_sealed toy_opens d' x →
          sealed_after_crash toy_sealed toy_opens empty_disk x) ∧
       (revision ≠ Digest_zero → None ≠ Some revision ∧
          (∃ current, sealed_is toy_sealed toy_opens empty_disk current ∧ option_map snd current = None) ∧
          ∀ x, sealed_after_crash toy_sealed toy_opens d' x →
            sealed_after_crash toy_sealed toy_opens empty_disk x ∨ x = Some (Some (str "secret", revision))) ∧
       (err = None → ∀ x, sealed_after_crash toy_sealed toy_opens d' x → x = Some (Some (str "secret", revision)))).
Proof.
  apply (sealed_cas_crash_safe toy_sealed toy_opens toy_sealed_laws); [simpl; lia|apply empty_disk_synced].
Defined.

Lemma sealed_load_durable_witness :
  mrwp fs_step (λ d', dk_names d' = dk_names empty_disk ∨ dk_names d' = [dk_visible empty_disk])
    (sealed_Load toy_sealed) tt empty_disk (λ d' _ r, sealed_answer toy_sealed toy_opens empty_disk d' r).
Proof.
  apply (sealed_load_durable toy_sealed toy_opens toy_sealed_laws); [simpl; lia|apply empty_disk_synced].
Defined.

Lemma sealed_header_authenticated_witness :
  let data := encodeSealedStatePrefix toy_revision 1 ++ str "e" in
  (str "b" = str "b" ∧ toy_revision = toy_revision ∧ len (str "e") = len (str "e") ∧
   (str "e" = str "e" → data = data)) ∨
  (let input := sealedBindingInput (str "b") (encodeSealedStatePrefix toy_revision 1) in collide input input).
Proof.
  intros data.
  apply (sealed_header_authenticated 4096 4096 (str "b") (str "b") data data
    (encodeSealedStatePrefix toy_revision 1) (encodeSealedStatePrefix toy_revision 1) toy_revision toy_revision
    (str "e") (str "e")); by vm_compute.
Defined.

(** The constructor sets the bounds that the proofs about a store rely on. *)
Lemma NewFileSealedStateStore_bounds (inv : disk → Prop) path options d :
  inv d →
  mrwp fs_step inv (NewFileSealedStateStore path options) tt d
    (λ d' _ r, d' = d ∧ ∀ store, r = Ok store →
       0 < fss_maxEnvelopeBytes store < 2 ^ 63 ∧ 0 < len (fss_binding store) ∧
       fss_protector store = sso_Protector options ∧ fss_binding store = sso_Binding options ∧
       interfaceDependencyConfigured (fss_protector store) = true).
Proof.
  intros Hi. unfold NewFileSealedStateStore. apply mrwp_bind, mrwp_guard; [done|done|intros _].
  apply mrwp_bind, mrwp_lift; [done|].
  destruct (FileSealedStateStoreOptions_normalized options) as [n|] eqn:E; [|done].
  apply mrwp_bind, callr_keep; [done|done|]. intros [absolute|e] _; [|done].
  apply mrwp_bind, callr_keep; [done|done|]. intros [directory|e] _; [|done].
  apply mrwp_bind, fcheck_keep; [done|done| |done]. apply mrwp_ret; [done|]. split; [done|].
  intros store [= <-]. simpl. unfold FileSealedStateStoreOptions_normalized in E. ok_inv. bool_prop. simplify_eq. simpl in *.
  split_and!; try done; try lia.
  all: assert (FileSealedStateMaxEnvelopeBytesLimit < 2 ^ 63) by done; first [lia | by apply negb_false_iff].
Qed.
