(* ===== verification/PublisherState.v ===== *)
(** * Protection of the publisher's state ([publisherstate])

    Recovery keys and their exported form, the AES-GCM protector with its
    envelope, and the keyring for key rotation.  The proofs show the envelope
    format canonical, that what a protector seals it opens for the same binding
    only, that a rotated keyring still opens what its retained keys sealed, and
    that protectors and keyrings meet [ProtectorLaws], which the proofs about
    [FileSealedStateStore] ask for. *)

From S2P Require Import Prelude.
From S2P Require Import Prog.
From S2P Require Import GoStd.
From S2P Require Import Encoding.
From S2P Require Import Sha256.
From S2P Require Import Model.
From S2P Require Import ClientEncryption.
From S2P Require Import Consumer.
From S2P Require Import FileState.
From S2P Require Import SealedState.

(** ** Recovery keys *)

Definition RecoveryKeyBytes : Z := 32.
Definition recoveryKeySecretPrefix : bytes := str "s3disk-publisher-recovery-v1.".

Record RecoveryKey := { rk_material : bytes }.

Definition RecoveryKey_configured (key : RecoveryKey) : bool := rk_material key !=? zero32.

Definition GenerateRecoveryKey : M fs_eff unit RecoveryKey :=
  random <- mcallr FS_Rand ;;
  let key := {| rk_material := fill 32 random |} in
  mguard (negb (RecoveryKey_configured key)) [PsErrInvalidRecoveryKey] ;;;
  mret key.

(** [base64.RawURLEncoding.EncodedLen]. *)
Definition base64_RawURLEncoding_EncodedLen (n : Z) : Z := n / 3 * 4 + (n mod 3 * 8 + 5) / 6.

Definition ParseRecoveryKey (secret : bytes) : result RecoveryKey :=
  guard_err (negb (HasPrefix secret recoveryKeySecretPrefix)) [PsErrInvalidRecoveryKey] ?;;
  let encoded := TrimPrefix secret recoveryKeySecretPrefix in
  guard_err (len encoded !=? base64_RawURLEncoding_EncodedLen RecoveryKeyBytes)
            [PsErrInvalidRecoveryKey] ?;;
  match base64_RawURLEncoding_DecodeString encoded with
  | None => Err [PsErrInvalidRecoveryKey]
  | Some decoded =>
      guard_err ((len decoded !=? RecoveryKeyBytes)
                 || (base64_RawURLEncoding_EncodeToString decoded !=? encoded))
                [PsErrInvalidRecoveryKey] ?;;
      let key := {| rk_material := decoded |} in
      guard_err (negb (RecoveryKey_configured key)) [PsErrInvalidRecoveryKey] ?;;
      Ok key
  end.

Definition RecoveryKey_ExportSecret (key : RecoveryKey) : bytes :=
  if negb (RecoveryKey_configured key) then []
  else recoveryKeySecretPrefix ++ base64_RawURLEncoding_EncodeToString (rk_material key).

(** ** The envelope *)

Definition MaximumKeyIDBytes : Z := 128.
Definition MaximumBindingBytes : Z := Z.shiftl 4 10.
Definition MaximumPlaintextBytes : Z := Z.shiftl 65 20.

Definition recoverySaltBytes : Z := 16.
Definition randomNonceBytes : Z := 12.
Definition gcmTagBytes : Z := 16.
Definition randomNonceGCMOverhead : Z := randomNonceBytes + gcmTagBytes.
Definition envelopeFormatVersion : N := 1.
Definition envelopeMagicBytes : Z := 8.
Definition envelopeVersionOffset : Z := envelopeMagicBytes.
Definition envelopeReservedOffset : Z := envelopeVersionOffset + 2.
Definition envelopeKeyIDLengthOffset : Z := envelopeReservedOffset + 2.
Definition envelopeSaltLengthOffset : Z := envelopeKeyIDLengthOffset + 2.
Definition envelopeCiphertextLengthOffset : Z := envelopeSaltLengthOffset + 2.
Definition envelopeHeaderBytes : Z := envelopeCiphertextLengthOffset + 8.
Definition MaximumEnvelopeBytes : Z :=
  envelopeHeaderBytes + MaximumKeyIDBytes + recoverySaltBytes + MaximumPlaintextBytes
  + randomNonceGCMOverhead.

Definition envelopeMagic : bytes := str "s3dps" ++ [x00; x01; x00].
Definition kdfDomain : bytes := nul_terminated ["s3disk"; "publisher-state"; "recovery-kdf"; "v1"].
Definition aadDomain : bytes := nul_terminated ["s3disk"; "publisher-state"; "envelope-aad"; "v1"].

Definition keyIDCharacter (character : byte) : bool :=
  let c := byte_val character in
  (((97 <=? c) && (c <=? 122)) || ((65 <=? c) && (c <=? 90)) || ((48 <=? c) && (c <=? 57)))%N
  || (character ==? x2d) || (character ==? x5f) || (character ==? x2e) || (character ==? x3a).

Definition validKeyID (keyID : bytes) : bool :=
  negb ((len keyID <? 1) || (MaximumKeyIDBytes <? len keyID)) && forallb keyIDCharacter keyID.

Definition validateBinding (binding : bytes) : result unit :=
  guard_err ((len binding <? 1) || (MaximumBindingBytes <? len binding)) [PsErrInvalidBinding].

Definition encodeEnvelopePrefix (keyID salt : bytes) (ciphertextLength : Z) : bytes :=
  envelopeMagic ++ BigEndian_PutUint16 envelopeFormatVersion ++ BigEndian_PutUint16 0
  ++ BigEndian_PutUint16 (Z.to_N (len keyID)) ++ BigEndian_PutUint16 (Z.to_N (len salt))
  ++ BigEndian_AppendUint64 [] (Z.to_N ciphertextLength) ++ keyID ++ salt.

Definition envelopeAssociatedData (prefix binding : bytes) : bytes :=
  aadDomain ++ be32 (Z.to_N (len prefix)) ++ prefix ++ be32 (Z.to_N (len binding)) ++ binding.

Definition kdfInfo (keyID : bytes) : bytes :=
  kdfDomain ++ BigEndian_PutUint16 envelopeFormatVersion
  ++ BigEndian_PutUint16 (Z.to_N (len keyID)) ++ keyID.

Record decodedEnvelope := {
  de_keyID : bytes; de_salt : bytes; de_prefix : bytes; de_ciphertext : bytes;
}.

Definition uint_at (data : bytes) (offset width : Z) : Z :=
  Z.of_N (BigEndian_Uint (sub data offset (offset + width))).

Definition parseEnvelope (envelope : bytes) : result decodedEnvelope :=
  let minimum := envelopeHeaderBytes + 1 + recoverySaltBytes + randomNonceGCMOverhead in
  guard_err (len envelope <? minimum) [PsErrInvalidEnvelope] ?;;
  guard_err ((sub envelope 0 envelopeMagicBytes !=? envelopeMagic)
             || negb (uint_at envelope envelopeVersionOffset 2 =? Z.of_N envelopeFormatVersion)
             || negb (uint_at envelope envelopeReservedOffset 2 =? 0)) [PsErrInvalidEnvelope] ?;;
  let keyIDLength := uint_at envelope envelopeKeyIDLengthOffset 2 in
  let saltLength := uint_at envelope envelopeSaltLengthOffset 2 in
  let ciphertextLength := uint_at envelope envelopeCiphertextLengthOffset 8 in
  guard_err ((keyIDLength <? 1) || (MaximumKeyIDBytes <? keyIDLength)
             || negb (saltLength =? recoverySaltBytes)
             || (ciphertextLength <? randomNonceGCMOverhead)
             || (MaximumPlaintextBytes + randomNonceGCMOverhead <? ciphertextLength))
            [PsErrInvalidEnvelope] ?;;
  let prefixLength := envelopeHeaderBytes + keyIDLength + saltLength in
  guard_err ((len envelope <? prefixLength)
             || negb (len envelope - prefixLength =? ciphertextLength)) [PsErrInvalidEnvelope] ?;;
  let keyID := sub envelope envelopeHeaderBytes (envelopeHeaderBytes + keyIDLength) in
  guard_err (negb (validKeyID keyID)) [PsErrInvalidEnvelope] ?;;
  let saltStart := envelopeHeaderBytes + keyIDLength in
  let salt := sub envelope saltStart prefixLength in
  let canonical := encodeEnvelopePrefix keyID salt ciphertextLength in
  let prefix := take (Z.to_nat prefixLength) envelope in
  guard_err (canonical !=? prefix) [PsErrInvalidEnvelope] ?;;
  Ok {| de_keyID := keyID; de_salt := salt; de_prefix := prefix;
        de_ciphertext := drop (Z.to_nat prefixLength) envelope |}.

(** ** The protector *)

Record AESGCMProtector := { ap_keyID : bytes; ap_key : RecoveryKey }.

Definition NewAESGCMProtector (keyID : bytes) (key : RecoveryKey) : result AESGCMProtector :=
  guard_err (negb (validKeyID keyID)) [PsErrInvalidKeyID] ?;;
  guard_err (negb (RecoveryKey_configured key)) [PsErrInvalidRecoveryKey] ?;;
  Ok {| ap_keyID := keyID; ap_key := key |}.

Definition AESGCMProtector_KeyID (protector : option AESGCMProtector) : bytes :=
  match protector with None => [] | Some p => ap_keyID p end.

Definition protector_configured (protector : AESGCMProtector) : bool :=
  validKeyID (ap_keyID protector) && RecoveryKey_configured (ap_key protector).

(** The key of the AEAD. *)
Definition protector_aead (protector : AESGCMProtector) (salt : bytes) : bytes :=
  hkdf_Key32 (rk_material (ap_key protector)) salt (kdfInfo (ap_keyID protector)).

Section Protector.
Context `{AEAD}.

(** The method on a protector that is not nil; a context is never nil.  The
    nonce of [cipher.NewGCMWithRandomNonce] precedes the sealed text. *)
Definition AESGCMProtector_Seal (protector : AESGCMProtector) (binding plaintext : bytes)
    : M fs_eff unit bytes :=
  fcheck FS_Ctx ;;;
  mguard (negb (protector_configured protector)) [PsErrProtectorUnavailable] ;;;
  mlift (validateBinding binding) ;;;
  mguard (MaximumPlaintextBytes <? len plaintext) [PsErrResourceLimit] ;;;
  random <- mcallr FS_Rand ;;
  let salt := fill 16 random in
  let key := protector_aead protector salt in
  let ciphertextLength := len plaintext + randomNonceGCMOverhead in
  let prefix := encodeEnvelopePrefix (ap_keyID protector) salt ciphertextLength in
  let aad := envelopeAssociatedData prefix binding in
  random <- mcallr FS_Rand ;;
  let nonce := fill 12 random in
  let ciphertext := nonce ++ gcm_Seal key nonce plaintext aad in
  mguard (len ciphertext !=? ciphertextLength) errorText ;;;
  fcheck FS_Ctx ;;;
  mret (prefix ++ ciphertext).

(** Open between its two checks of the context. *)
Definition openEnvelope (protector : AESGCMProtector) (binding envelope : bytes) : result bytes :=
  guard_err (negb (protector_configured protector)) [PsErrProtectorUnavailable] ?;;
  validateBinding binding ?;;
  guard_err (MaximumEnvelopeBytes <? len envelope) [PsErrResourceLimit] ?;;
  parsed <-? parseEnvelope envelope ;;
  guard_err ((len (de_keyID parsed) !=? len (ap_keyID protector))
             || (de_keyID parsed !=? ap_keyID protector)) [PsErrAuthenticationFailed] ?;;
  let key := protector_aead protector (de_salt parsed) in
  let aad := envelopeAssociatedData (de_prefix parsed) binding in
  match gcm_Open key (take 12 (de_ciphertext parsed)) (drop 12 (de_ciphertext parsed)) aad with
  | None => Err [PsErrAuthenticationFailed]
  | Some plaintext =>
      guard_err (MaximumPlaintextBytes <? len plaintext) [PsErrResourceLimit] ?;;
      Ok plaintext
  end.

Definition AESGCMProtector_Open (protector : AESGCMProtector) (binding envelope : bytes)
    : M fs_eff unit bytes :=
  fcheck FS_Ctx ;;;
  plaintext <- mlift (openEnvelope protector binding envelope) ;;
  fcheck FS_Ctx ;;;
  mret plaintext.

(** ** The keyring *)

Definition MaximumAESGCMKeyringKeys : Z := 32.

(** The protectors the keyring owns; [active] and the values of [byID] are
    pointers to them, here positions. *)
Record AESGCMKeyring := {
  kr_protectors : list AESGCMProtector;
  kr_active : option nat;
  kr_byID : gmap bytes nat;
}.

Definition active_protector (keyring : AESGCMKeyring) : option AESGCMProtector :=
  kr_active keyring ≫= λ i, kr_protectors keyring !! i.

(** The loop over the protectors; nil is [None]. *)
Fixpoint addProtectors (keyring : AESGCMKeyring) (index : nat) (all : list (option AESGCMProtector))
    : result AESGCMKeyring :=
  match all with
  | [] => Ok keyring
  | protector :: rest =>
      match protector with
      | None => Err [PsErrProtectorUnavailable]
      | Some protector =>
          guard_err (negb (protector_configured protector)) [PsErrProtectorUnavailable] ?;;
          guard_err (bool_decide (is_Some (kr_byID keyring !! ap_keyID protector)))
                    [PsErrProtectorConflict] ?;;
          let cloned := length (kr_protectors keyring) in
          addProtectors
            {| kr_protectors := kr_protectors keyring ++ [protector];
               kr_active := if (index =? 0)%nat then Some cloned else kr_active keyring;
               kr_byID := <[ap_keyID protector := cloned]> (kr_byID keyring) |}
            (S index) rest
      end
  end.

Definition NewAESGCMKeyring (active : option AESGCMProtector) (retained : list (option AESGCMProtector))
    : result AESGCMKeyring :=
  guard_err (match active with Some p => negb (protector_configured p) | None => true end)
            [PsErrProtectorUnavailable] ?;;
  guard_err (MaximumAESGCMKeyringKeys <? len retained + 1) [PsErrResourceLimit] ?;;
  addProtectors {| kr_protectors := []; kr_active := None; kr_byID := ∅ |} 0 (active :: retained).

Definition AESGCMKeyring_KeyID (keyring : option AESGCMKeyring) : bytes :=
  match keyring ≫= active_protector with None => [] | Some p => ap_keyID p end.

Definition keyring_configured (keyring : AESGCMKeyring) : bool :=
  match kr_active keyring, active_protector keyring with
  | Some i, Some p =>
      protector_configured p
      && negb ((Z.of_nat (size (kr_byID keyring)) <? 1)
               || (MaximumAESGCMKeyringKeys <? Z.of_nat (size (kr_byID keyring))))
      && (kr_byID keyring !! ap_keyID p ==? Some i)
  | _, _ => false
  end.

(** A method of the active protector. *)
Definition with_active {A} (keyring : AESGCMKeyring) (k : AESGCMProtector → M fs_eff unit A)
    : M fs_eff unit A :=
  match active_protector keyring with Some p => k p | None => mfail errorText end.

Definition AESGCMKeyring_Seal (keyring : AESGCMKeyring) (binding plaintext : bytes)
    : M fs_eff unit bytes :=
  mguard (negb (keyring_configured keyring)) [PsErrProtectorUnavailable] ;;;
  with_active keyring (λ p, AESGCMProtector_Seal p binding plaintext).

Definition openSelected (keyring : AESGCMKeyring) (binding envelope : bytes)
    : M fs_eff unit (bytes * bytes) :=
  fcheck FS_Ctx ;;;
  mguard (negb (keyring_configured keyring)) [PsErrProtectorUnavailable] ;;;
  mlift (validateBinding binding) ;;;
  mguard (MaximumEnvelopeBytes <? len envelope) [PsErrResourceLimit] ;;;
  parsed <- mlift (parseEnvelope envelope) ;;
  match kr_byID keyring !! de_keyID parsed ≫= λ i, kr_protectors keyring !! i with
  | None => mfail [PsErrAuthenticationFailed]
  | Some protector =>
      plaintext <- AESGCMProtector_Open protector binding envelope ;;
      mret (plaintext, de_keyID parsed)
  end.

Definition AESGCMKeyring_Open (keyring : AESGCMKeyring) (binding envelope : bytes)
    : M fs_eff unit bytes :=
  ' (plaintext, _) <- openSelected keyring binding envelope ;;
  mret plaintext.

Definition Rewrap (keyring : AESGCMKeyring) (binding envelope : bytes)
    : M fs_eff unit (bytes * bool) :=
  ' (plaintext, selectedKeyID) <- openSelected keyring binding envelope ;;
  with_active keyring (λ active,
    if selectedKeyID ==? ap_keyID active then mret (envelope, false)
    else rewrapped <- AESGCMProtector_Seal active binding plaintext ;;
         mret (rewrapped, true)).
End Protector.

(** ** The format *)

Lemma BigEndian_Uint32_Put n : (n < 2 ^ 32)%N → BigEndian_Uint (be32 n) = n.
Proof.
  intros Hn. unfold BigEndian_Uint, be32. cbn [map foldl]. rewrite !byte_val_of.
  change (8 * 3)%N with 24%N. change (8 * 2)%N with 16%N. change (8 * 1)%N with 8%N. change (8 * 0)%N with 0%N.
  assert (N.shiftr n 32 = 0%N) as H0 by (rewrite N.shiftr_div_pow2; apply N.div_small; exact Hn).
  pose proof (shiftr_digit n 24 32 eq_refl) as E. rewrite H0, N.mul_0_l, N.add_0_l in E.
  rewrite N.mul_0_l, N.add_0_l, E, (shiftr_digit n 16 24 eq_refl), (shiftr_digit n 8 16 eq_refl).
  rewrite (shiftr_digit n 0 8 eq_refl). apply N.shiftr_0_r.
Qed.

Lemma be32_inj n m (x y : bytes) :
  (n < 2 ^ 32)%N → (m < 2 ^ 32)%N → be32 n ++ x = be32 m ++ y → n = m ∧ x = y.
Proof.
  intros Hn Hm E. apply app_inj_1 in E as [E ->]; [|done]. split; [|done].
  by rewrite <- (BigEndian_Uint32_Put n), E, BigEndian_Uint32_Put.
Qed.

Lemma validKeyID_length keyID : validKeyID keyID = true → 1 ≤ len keyID ≤ 128.
Proof. unfold validKeyID, MaximumKeyIDBytes. intros Hk. bool_prop. lia. Qed.

Lemma uint_at_skip a x offset width :
  len a ≤ offset → uint_at (a ++ x) offset width = uint_at x (offset - len a) width.
Proof. intros Ha. unfold uint_at. rewrite sub_skip by done. repeat f_equal. lia. Qed.

Lemma uint_at_head b c n : n = len b → uint_at (b ++ c) 0 n = Z.of_N (BigEndian_Uint b).
Proof. intros ->. unfold uint_at. by rewrite sub_head. Qed.

Lemma envelopePrefix_length keyID salt n :
  len (encodeEnvelopePrefix keyID salt n) = 24 + len keyID + len salt.
Proof.
  unfold encodeEnvelopePrefix. rewrite !len_app.
  change (len envelopeMagic) with 8. change (len (BigEndian_PutUint16 _)) with 2.
  change (len (BigEndian_AppendUint64 _ _)) with 8. lia.
Qed.

(** The fields of a prefix followed by anything. *)
Lemma envelopePrefix_fields keyID salt n rest :
  len keyID < 2 ^ 16 → len salt < 2 ^ 16 → 0 ≤ n < 2 ^ 64 →
  let data := encodeEnvelopePrefix keyID salt n ++ rest in
  sub data 0 8 = envelopeMagic ∧ uint_at data 8 2 = 1 ∧ uint_at data 10 2 = 0 ∧
  uint_at data 12 2 = len keyID ∧ uint_at data 14 2 = len salt ∧ uint_at data 16 8 = n ∧
  sub data 24 (24 + len keyID) = keyID ∧ sub data (24 + len keyID) (24 + len keyID + len salt) = salt.
Proof.
  intros Hk Hs Hn data. pose proof (len_nonneg keyID). pose proof (len_nonneg salt).
  assert (len envelopeMagic = 8) as L1 by done.
  assert (∀ k, len (BigEndian_PutUint16 k) = 2) as L2 by done.
  assert (∀ k, len (BigEndian_AppendUint64 [] k) = 8) as L3 by done.
  unfold data, encodeEnvelopePrefix, envelopeFormatVersion. rewrite <- !(assoc_L (++)).
  split_and!; [by apply sub_head| | | | | | |];
    repeat (first [rewrite sub_skip by (rewrite ?L1, ?L2, ?L3; lia) | rewrite uint_at_skip by (rewrite ?L1, ?L2, ?L3; lia)];
      rewrite ?L1, ?L2, ?L3; simpl Z.sub).
  all: try (rewrite uint_at_head by done; first [rewrite BigEndian_Uint16_Put by lia | rewrite BigEndian_Uint64_Append by lia]; lia).
  - replace (24 - 8 - 2 - 2 - 2 - 2 - 8) with 0 by lia. apply sub_head. lia.
  - replace (24 + len keyID - 8 - 2 - 2 - 2 - 2 - 8 - len keyID) with 0 by lia. apply sub_head. lia.
Qed.

Lemma parseEnvelope_encode keyID salt ciphertext :
  validKeyID keyID = true → len salt = 16 →
  28 ≤ len ciphertext ≤ MaximumPlaintextBytes + randomNonceGCMOverhead →
  let prefix := encodeEnvelopePrefix keyID salt (len ciphertext) in
  parseEnvelope (prefix ++ ciphertext) =
  Ok {| de_keyID := keyID; de_salt := salt; de_prefix := prefix; de_ciphertext := ciphertext |}.
Proof.
  intros Hk Hs Hc prefix. pose proof (validKeyID_length _ Hk) as Hl.
  assert (MaximumPlaintextBytes + randomNonceGCMOverhead < 2 ^ 64) as Hm by done.
  destruct (envelopePrefix_fields keyID salt (len ciphertext) ciphertext) as (E1 & E2 & E3 & E4 & E5 & E6 & E7 & E8);
    [lia..|]. fold prefix in E1, E2, E3, E4, E5, E6, E7, E8.
  pose proof (envelopePrefix_length keyID salt (len ciphertext)) as Hp. fold prefix in Hp.
  unfold parseEnvelope. change envelopeHeaderBytes with 24. change envelopeVersionOffset with 8.
  change envelopeReservedOffset with 10. change envelopeKeyIDLengthOffset with 12.
  change envelopeSaltLengthOffset with 14. change envelopeCiphertextLengthOffset with 16.
  change envelopeMagicBytes with 8. change recoverySaltBytes with 16. change (Z.of_N envelopeFormatVersion) with 1.
  rewrite E1, E2, E3, E4, E5, E6, E7, E8, len_app, Hp, Hk, Hs.
  change randomNonceGCMOverhead with 28 in *. change MaximumKeyIDBytes with 128.
  assert (take (Z.to_nat (24 + len keyID + 16)) (prefix ++ ciphertext) = prefix) as Et
    by (apply take_app_length'; unfold len in *; lia).
  assert (drop (Z.to_nat (24 + len keyID + 16)) (prefix ++ ciphertext) = ciphertext) as Ed
    by (apply drop_app_length'; unfold len in *; lia).
  rewrite Et, Ed, !bool_decide_true by done.
  repeat match goal with
  | |- context [(?a <? ?b)] => destruct (Z.ltb_spec a b); [lia|]
  | |- context [(?a =? ?b)] => destruct (Z.eqb_spec a b); [|lia]
  end. done.
Qed.

(** What parses is canonical. *)
Lemma parseEnvelope_canonical envelope parsed :
  parseEnvelope envelope = Ok parsed →
  envelope = de_prefix parsed ++ de_ciphertext parsed ∧
  de_prefix parsed = encodeEnvelopePrefix (de_keyID parsed) (de_salt parsed) (len (de_ciphertext parsed)) ∧
  validKeyID (de_keyID parsed) = true ∧ len (de_salt parsed) = 16 ∧
  28 ≤ len (de_ciphertext parsed) ≤ MaximumPlaintextBytes + 28.
Proof.
  unfold parseEnvelope. intros E. ok_inv. bool_prop. simplify_eq. simpl.
  change envelopeHeaderBytes with 24 in *. change recoverySaltBytes with 16 in *.
  change randomNonceGCMOverhead with 28 in *.
  set (k := uint_at envelope envelopeKeyIDLengthOffset 2) in *.
  set (c := uint_at envelope envelopeCiphertextLengthOffset 8) in *.
  set (s := uint_at envelope envelopeSaltLengthOffset 2) in *.
  assert (len (drop (Z.to_nat (24 + k + s)) envelope) = c) as El by (unfold len in *; rewrite length_drop; lia).
  rewrite El. split_and!; try lia; try done.
  - by rewrite take_drop.
  - unfold sub, len in *. rewrite length_take, length_drop. lia.
Qed.

(** The associated data determines the prefix and the binding. *)
Lemma envelopeAssociatedData_inj prefix binding prefix' binding' :
  len prefix < 2 ^ 32 → len prefix' < 2 ^ 32 → len binding < 2 ^ 32 → len binding' < 2 ^ 32 →
  envelopeAssociatedData prefix binding = envelopeAssociatedData prefix' binding' →
  prefix = prefix' ∧ binding = binding'.
Proof.
  intros H1 H2 H3 H4 E. unfold envelopeAssociatedData in E. apply app_inv_head in E.
  pose proof (len_nonneg prefix). pose proof (len_nonneg prefix').
  pose proof (len_nonneg binding). pose proof (len_nonneg binding').
  apply be32_inj in E as [El E]; [|lia..]. apply app_inj_1 in E as [-> E]; [|unfold len in *; lia].
  apply be32_inj in E as [_ ->]; [|lia..]. done.
Qed.

Lemma encodeEnvelopePrefix_inj keyID salt n keyID' salt' n' :
  validKeyID keyID = true → validKeyID keyID' = true → len salt = 16 → len salt' = 16 →
  0 ≤ n < 2 ^ 64 → 0 ≤ n' < 2 ^ 64 →
  encodeEnvelopePrefix keyID salt n = encodeEnvelopePrefix keyID' salt' n' →
  keyID = keyID' ∧ salt = salt' ∧ n = n'.
Proof.
  intros Hk%validKeyID_length Hk'%validKeyID_length Hs Hs' Hn Hn' E.
  destruct (envelopePrefix_fields keyID salt n []) as (_ & _ & _ & E1 & E2 & E3 & E4 & E5); [lia..|].
  destruct (envelopePrefix_fields keyID' salt' n' []) as (_ & _ & _ & E1' & E2' & E3' & E4' & E5'); [lia..|].
  rewrite E in *. rewrite E1' in E1. rewrite E3' in E3. rewrite <- E1, E4' in E4.
  rewrite Hs, <- E1 in E5. rewrite Hs', E5 in E5'. done.
Qed.

(** An envelope is bound to its header and to the caller's binding.  Two
    envelopes that parse are authenticated with the same associated data only if
    the bindings, the key IDs, the salts and the lengths are equal, so an
    envelope cannot be opened for another role or identity. *)
Theorem envelope_authenticated (e e' : bytes) (parsed parsed' : decodedEnvelope)
    (binding binding' : bytes) :
  parseEnvelope e = Ok parsed → parseEnvelope e' = Ok parsed' →
  validateBinding binding = Ok tt → validateBinding binding' = Ok tt →
  envelopeAssociatedData (de_prefix parsed) binding = envelopeAssociatedData (de_prefix parsed') binding' →
  binding = binding' ∧ de_keyID parsed = de_keyID parsed' ∧ de_salt parsed = de_salt parsed' ∧
  len (de_ciphertext parsed) = len (de_ciphertext parsed').
Proof.
  intros P P' B B' E.
  apply parseEnvelope_canonical in P as (_ & Hp & Hk & Hs & Hc).
  apply parseEnvelope_canonical in P' as (_ & Hp' & Hk' & Hs' & Hc').
  unfold validateBinding in *. apply guard_err_ok in B. apply guard_err_ok in B'. bool_prop.
  assert (MaximumBindingBytes < 2 ^ 32 ∧ MaximumPlaintextBytes + 28 < 2 ^ 64) as [] by done.
  pose proof (validKeyID_length _ Hk). pose proof (validKeyID_length _ Hk').
  apply envelopeAssociatedData_inj in E as [E ->]; [|rewrite ?Hp, ?Hp', ?envelopePrefix_length; lia..].
  rewrite Hp, Hp' in E. apply encodeEnvelopePrefix_inj in E as (-> & -> & ->); [done|done|done|done|done|lia|lia].
Qed.

Section ProtectorProofs.
Context `{AEADLaws}.

(** What Seal makes opens. *)
Lemma openEnvelope_sealed protector binding salt nonce plaintext :
  let prefix := encodeEnvelopePrefix (ap_keyID protector) salt (len plaintext + randomNonceGCMOverhead) in
  let ciphertext := nonce ++ gcm_Seal (protector_aead protector salt) nonce plaintext
                               (envelopeAssociatedData prefix binding) in
  protector_configured protector = true → validateBinding binding = Ok tt →
  len plaintext ≤ MaximumPlaintextBytes → len salt = 16 → len nonce = 12 →
  openEnvelope protector binding (prefix ++ ciphertext) = Ok plaintext ∧
  len (prefix ++ ciphertext) ≤ MaximumEnvelopeBytes ∧
  len ciphertext = len plaintext + randomNonceGCMOverhead.
Proof.
  intros prefix ciphertext Hc Hb Hl Hs Hn. pose proof (len_nonneg plaintext).
  assert (len ciphertext = len plaintext + randomNonceGCMOverhead) as Hlen.
  { unfold ciphertext. rewrite len_app, gcm_Seal_size, Hn. unfold randomNonceGCMOverhead, randomNonceBytes, gcmTagBytes. lia. }
  assert (validKeyID (ap_keyID protector) = true) as Hk by (unfold protector_configured in Hc; bool_prop; done).
  pose proof (validKeyID_length _ Hk).
  assert (len (prefix ++ ciphertext) ≤ MaximumEnvelopeBytes) as Hmax.
  { rewrite len_app. unfold prefix. rewrite envelopePrefix_length, Hlen, Hs. unfold MaximumEnvelopeBytes.
    change envelopeHeaderBytes with 24. change recoverySaltBytes with 16. change MaximumKeyIDBytes with 128. lia. }
  split_and!; [|done|done]. unfold openEnvelope. rewrite Hc, Hb. cbn [negb guard_err result_bind].
  destruct (Z.ltb_spec MaximumEnvelopeBytes (len (prefix ++ ciphertext))); [lia|]. cbn [guard_err result_bind].
  unfold prefix at 1. rewrite <- Hlen, parseEnvelope_encode; [|done|done|rewrite Hlen; change randomNonceGCMOverhead with 28; lia].
  cbn [result_bind de_keyID de_salt de_prefix de_ciphertext]. rewrite !bool_decide_true by done.
  cbn [negb orb guard_err result_bind]. rewrite Hlen. fold prefix. unfold ciphertext.
  rewrite take_app_length', drop_app_length', gcm_Open_Seal by (unfold len in Hn; lia).
  destruct (Z.ltb_spec MaximumPlaintextBytes (len plaintext)); [lia|done].
Qed.

Definition seal_post (protector : AESGCMProtector) (binding plaintext : bytes) (r : result bytes) : Prop :=
  ∀ envelope, r = Ok envelope →
    openEnvelope protector binding envelope = Ok plaintext ∧ len envelope ≤ MaximumEnvelopeBytes ∧
    ∃ parsed, parseEnvelope envelope = Ok parsed ∧ de_keyID parsed = ap_keyID protector.

Lemma openEnvelope_keyID protector binding envelope plaintext :
  openEnvelope protector binding envelope = Ok plaintext →
  protector_configured protector = true ∧ validateBinding binding = Ok tt ∧
  len envelope ≤ MaximumEnvelopeBytes ∧ len plaintext ≤ MaximumPlaintextBytes ∧
  ∃ parsed, parseEnvelope envelope = Ok parsed ∧ de_keyID parsed = ap_keyID protector.
Proof.
  unfold openEnvelope. intros E. ok_inv. bool_prop.
  destruct (gcm_Open _ _ _ _) as [p|]; [|done]. ok_inv. simplify_eq. bool_prop.
  destruct (protector_configured protector); [|done].
  split_and!; [done| |lia|lia|by eexists]. destruct (validateBinding binding) as [[]|]; done.
Qed.

Lemma sealed_envelope protector binding plaintext salt nonce :
  let prefix := encodeEnvelopePrefix (ap_keyID protector) salt (len plaintext + randomNonceGCMOverhead) in
  let ciphertext := nonce ++ gcm_Seal (protector_aead protector salt) nonce plaintext
                               (envelopeAssociatedData prefix binding) in
  protector_configured protector = true → validateBinding binding = Ok tt →
  len plaintext ≤ MaximumPlaintextBytes → len salt = 16 → len nonce = 12 →
  seal_post protector binding plaintext (Ok (prefix ++ ciphertext)).
Proof.
  intros prefix ciphertext Hc Hb Hl Hs Hn envelope [= <-].
  destruct (openEnvelope_sealed protector binding salt nonce plaintext) as (Ho & Hm & _); [done..|].
  by destruct (openEnvelope_keyID _ _ _ _ Ho) as (_ & _ & _ & _ & Hp).
Qed.

Lemma fill_len n r : len (fill n r) = Z.of_nat n.
Proof. unfold len. by rewrite fill_length. Qed.

Lemma protector_Seal_spec inv d s protector binding plaintext (Q : disk → unit → result bytes → Prop) :
  inv d → (∀ r, seal_post protector binding plaintext r → Q d s r) →
  mrwp fs_step inv (AESGCMProtector_Seal protector binding plaintext) s d Q.
Proof.
  intros Hi HQ. assert (∀ e, Q d s (Err e)) as HE by (intros e; by apply HQ).
  unfold AESGCMProtector_Seal. apply mrwp_bind, fcheck_keep; [done|done| |done].
  apply mrwp_bind, mrwp_guard; [done|done|intros Hc]. apply negb_false_iff in Hc.
  apply mrwp_bind, mrwp_lift; [done|]. destruct (validateBinding binding) as [[]|] eqn:Hb; [|done].
  apply mrwp_bind, mrwp_guard; [done|done|intros Hl]. bool_prop.
  apply mrwp_bind, callr_keep; [done|done|]. intros [salt|e] _; [|done].
  apply mrwp_bind, callr_keep; [done|done|]. intros [nonce|e] _; [|done].
  apply mrwp_bind, mrwp_guard; [done|done|intros _]. apply mrwp_bind, fcheck_keep; [done|done| |done].
  apply mrwp_ret; [done|]. apply HQ. apply sealed_envelope; [done..|apply fill_len|apply fill_len].
Qed.

Lemma protector_Seal_total inv d s protector binding plaintext (Q : disk → unit → result bytes → Prop) :
  protector_configured protector = true → validateBinding binding = Ok tt →
  len plaintext ≤ MaximumPlaintextBytes → inv d →
  (∀ envelope, seal_post protector binding plaintext (Ok envelope) → Q d s (Ok envelope)) →
  mrwp fs_works inv (AESGCMProtector_Seal protector binding plaintext) s d Q.
Proof.
  intros Hc Hb Hl Hi HQ. unfold AESGCMProtector_Seal. apply mrwp_bind, works_ctx; [done|].
  apply mrwp_bind, mrwp_guard; [done|by rewrite Hc|intros _]. apply mrwp_bind, mrwp_lift; [done|]. rewrite Hb.
  apply mrwp_bind, mrwp_guard; [done|intros Hx; bool_prop; lia|intros _].
  apply mrwp_bind, works_rand; [done|]. intros salt. apply mrwp_bind, works_rand; [done|]. intros nonce.
  destruct (openEnvelope_sealed protector binding (fill 16 salt) (fill 12 nonce) plaintext) as (_ & _ & Hlen);
    [done..|apply fill_len|apply fill_len|].
  apply mrwp_bind, mrwp_guard; [done|intros Hx; bool_prop; done|intros _].
  apply mrwp_bind, works_ctx; [done|]. apply mrwp_ret; [done|]. apply HQ.
  apply sealed_envelope; [done..|apply fill_len|apply fill_len].
Qed.

Lemma protector_Open_spec inv d s protector binding envelope (Q : disk → unit → result bytes → Prop) :
  inv d → (∀ e, Q d s (Err e)) →
  (∀ p, openEnvelope protector binding envelope = Ok p → Q d s (Ok p)) →
  mrwp fs_step inv (AESGCMProtector_Open protector binding envelope) s d Q.
Proof.
  intros Hi HE HQ. unfold AESGCMProtector_Open. apply mrwp_bind, fcheck_keep; [done|done| |done].
  apply mrwp_bind, mrwp_lift; [done|]. destruct (openEnvelope _ _ _) as [p|]; [|done].
  apply mrwp_bind, fcheck_keep; [done|done| |done]. apply mrwp_ret; [done|]. by apply HQ.
Qed.

Lemma protector_Open_works inv d s protector binding envelope (Q : disk → unit → result bytes → Prop) :
  inv d → Q d s (openEnvelope protector binding envelope) →
  mrwp fs_works inv (AESGCMProtector_Open protector binding envelope) s d Q.
Proof.
  intros Hi HQ. unfold AESGCMProtector_Open. apply mrwp_bind, works_ctx; [done|].
  apply mrwp_bind, mrwp_lift; [done|]. destruct (openEnvelope _ _ _) as [p|]; [|done].
  apply mrwp_bind, works_ctx; [done|]. by apply mrwp_ret.
Qed.

(** ** The keyring *)

(** The index and the owned protectors agree. *)
Definition keyring_wf (keyring : AESGCMKeyring) : Prop :=
  (∀ i p, kr_protectors keyring !! i = Some p →
     kr_byID keyring !! ap_keyID p = Some i ∧ protector_configured p = true) ∧
  (∀ keyID i, kr_byID keyring !! keyID = Some i →
     ∃ p, kr_protectors keyring !! i = Some p ∧ ap_keyID p = keyID) ∧
  size (kr_byID keyring) = length (kr_protectors keyring).

Lemma addProtectors_spec keyring index all keyring' :
  keyring_wf keyring → addProtectors keyring index all = Ok keyring' →
  keyring_wf keyring' ∧ (Some <$> kr_protectors keyring') = (Some <$> kr_protectors keyring) ++ all ∧
  kr_active keyring' = match all with
    | [] => kr_active keyring
    | _ :: _ => if (index =? 0)%nat then Some (length (kr_protectors keyring)) else kr_active keyring
    end.
Proof.
  revert keyring index. induction all as [|p rest IH]; intros keyring index Hwf E; simpl in E.
  { simplify_eq. by rewrite app_nil_r. }
  destruct p as [p|]; [|done]. ok_inv. bool_prop. apply IH in E as (Hwf' & Hp & Ha); simpl in *.
  - split_and!; [done| |].
    + rewrite Hp, fmap_app. by rewrite <- (assoc_L (++)).
    + rewrite Ha. by destruct rest, index.
  - destruct Hwf as (H1 & H2 & H3). rewrite <- eq_None_not_Some in Hok0. split_and!; simpl.
    + intros i q Hq. apply lookup_snoc_Some in Hq as [[Hi Hq]|[-> ->]].
      * destruct (H1 i q Hq) as [Hx Hy]. split; [|done]. rewrite lookup_insert_ne; [done|]. congruence.
      * rewrite lookup_insert_eq. split; [done|]. by destruct (protector_configured q).
    + intros k i Hk. destruct (decide (k = ap_keyID p)) as [->|Hne].
      * rewrite lookup_insert_eq in Hk. simplify_eq. exists p. split; [|done].
        by rewrite lookup_app_r, Nat.sub_diag by done.
      * rewrite lookup_insert_ne in Hk by done. destruct (H2 k i Hk) as (q & Hq & Hqk). exists q. split; [|done].
        by apply lookup_app_l_Some.
    + rewrite map_size_insert_None by done. rewrite length_app. simpl. lia.
Qed.

Lemma NewAESGCMKeyring_spec active retained keyring :
  NewAESGCMKeyring active retained = Ok keyring →
  keyring_wf keyring ∧ (Some <$> kr_protectors keyring) = active :: retained ∧
  active_protector keyring = active ∧ keyring_configured keyring = true.
Proof.
  unfold NewAESGCMKeyring. intros E. ok_inv. bool_prop.
  apply addProtectors_spec in E as (Hwf & Hp & Ha); [|split_and!; done]. simpl in *.
  destruct (kr_protectors keyring) as [|p ps] eqn:Hps; [done|]. simpl in Hp. simplify_eq.
  assert (active_protector keyring = Some p) as Hact by (unfold active_protector; by rewrite Ha, Hps).
  split_and!; [done|done|done|]. unfold keyring_configured. rewrite Ha, Hact.
  destruct Hwf as (H1 & _ & H3). destruct (H1 0%nat p) as [Hid ->]; [by rewrite Hps|].
  rewrite Hid, H3, Hps. rewrite bool_decide_true by done. simpl.
  unfold len, MaximumAESGCMKeyringKeys in *. rewrite length_fmap in *.
  repeat match goal with |- context [(?a <? ?b)] => destruct (Z.ltb_spec a b); [lia|] end. done.
Qed.

(** The plaintext of an envelope, by the key it names. *)
Definition keyring_opens (keyring : AESGCMKeyring) (binding envelope : bytes) : option bytes :=
  match parseEnvelope envelope with
  | Ok parsed =>
      protector ← kr_byID keyring !! de_keyID parsed ≫= (kr_protectors keyring !!.);
      match openEnvelope protector binding envelope with Ok p => Some p | Err _ => None end
  | Err _ => None
  end.

Lemma keyring_opens_iff keyring binding envelope plaintext :
  keyring_wf keyring →
  keyring_opens keyring binding envelope = Some plaintext ↔
  ∃ p, p ∈ kr_protectors keyring ∧ openEnvelope p binding envelope = Ok plaintext.
Proof.
  intros (H1 & H2 & _). unfold keyring_opens. split.
  - destruct (parseEnvelope envelope) as [parsed|] eqn:Hp; [|done].
    destruct (kr_byID keyring !! _) as [i|] eqn:Hi; [|done]. simpl.
    destruct (kr_protectors keyring !! i) as [p|] eqn:Hpi; [|done]. simpl.
    destruct (openEnvelope _ _ _) eqn:Ho; [|done]. intros [= <-]. exists p. split; [|done].
    by eapply list_elem_of_lookup_2.
  - intros (p & [i Hi]%list_elem_of_lookup & Ho).
    destruct (openEnvelope_keyID _ _ _ _ Ho) as (_ & _ & _ & _ & parsed & -> & ->).
    destruct (H1 i p Hi) as [-> _]. simpl. rewrite Hi. simpl. by rewrite Ho.
Qed.

Lemma openSelected_spec inv d s keyring binding envelope (Q : disk → unit → result (bytes * bytes) → Prop) :
  keyring_wf keyring → inv d → (∀ e, Q d s (Err e)) →
  (∀ p plaintext, p ∈ kr_protectors keyring → openEnvelope p binding envelope = Ok plaintext →
     keyring_opens keyring binding envelope = Some plaintext → Q d s (Ok (plaintext, ap_keyID p))) →
  mrwp fs_step inv (openSelected keyring binding envelope) s d Q.
Proof.
  intros Hwf Hi HE HQ. unfold openSelected. apply mrwp_bind, fcheck_keep; [done|done| |done].
  apply mrwp_bind, mrwp_guard; [done|done|intros _]. apply mrwp_bind, mrwp_lift; [done|].
  destruct (validateBinding binding) as [[]|]; [|done]. apply mrwp_bind, mrwp_guard; [done|done|intros _].
  apply mrwp_bind, mrwp_lift; [done|]. destruct (parseEnvelope envelope) as [parsed|] eqn:Hp; [|done].
  destruct (kr_byID keyring !! _) as [i|] eqn:Hid; simpl; [|by apply mrwp_fail].
  destruct (kr_protectors keyring !! i) as [p|] eqn:Hpi; simpl; [|by apply mrwp_fail].
  destruct Hwf as (H1 & H2 & H3). destruct (H2 _ _ Hid) as (p' & Hp' & Hk). simplify_eq.
  apply mrwp_bind, protector_Open_spec; [done|done|]. intros plaintext Ho. apply mrwp_ret; [done|].
  rewrite <- Hk. eapply HQ; [by eapply list_elem_of_lookup_2|done|].
  apply keyring_opens_iff; [done|]. exists p. split; [by eapply list_elem_of_lookup_2|done].
Qed.

Lemma openSelected_works inv d s keyring binding envelope p plaintext
    (Q : disk → unit → result (bytes * bytes) → Prop) :
  keyring_wf keyring → keyring_configured keyring = true → inv d →
  p ∈ kr_protectors keyring → openEnvelope p binding envelope = Ok plaintext →
  Q d s (Ok (plaintext, ap_keyID p)) →
  mrwp fs_works inv (openSelected keyring binding envelope) s d Q.
Proof.
  intros (H1 & H2 & _) Hc Hi [i Hp]%list_elem_of_lookup Ho HQ. unfold openSelected. apply mrwp_bind, works_ctx; [done|].
  destruct (openEnvelope_keyID _ _ _ _ Ho) as (_ & Hb & Hm & _ & parsed & Hpa & Hk).
  apply mrwp_bind, mrwp_guard; [done|by rewrite Hc|intros _]. apply mrwp_bind, mrwp_lift; [done|]. rewrite Hb.
  apply mrwp_bind, mrwp_guard; [done|intros Hx; bool_prop; lia|intros _].
  apply mrwp_bind, mrwp_lift; [done|]. rewrite Hpa, Hk. destruct (H1 i p Hp) as [-> _]. simpl. rewrite Hp.
  apply mrwp_bind, protector_Open_works; [done|]. rewrite Ho. by apply mrwp_ret.
Qed.

Lemma keyring_wf_unique keyring p q :
  keyring_wf keyring → p ∈ kr_protectors keyring → q ∈ kr_protectors keyring → ap_keyID p = ap_keyID q → p = q.
Proof.
  intros (H1 & _ & _) [i Hi]%list_elem_of_lookup [j Hj]%list_elem_of_lookup E.
  destruct (H1 i p Hi) as [Hp _]. destruct (H1 j q Hj) as [Hq _]. congruence.
Qed.

Lemma active_in keyring p : active_protector keyring = Some p → p ∈ kr_protectors keyring.
Proof.
  unfold active_protector. destruct (kr_active keyring) as [i|]; [|done]. simpl. intros Hp. by eapply list_elem_of_lookup_2.
Qed.

Lemma active_configured keyring p :
  keyring_wf keyring → active_protector keyring = Some p → protector_configured p = true.
Proof. intros (H1 & _ & _) [i Hi]%active_in%list_elem_of_lookup. by apply (H1 i p). Qed.

(** Rewrap by what the envelope opens to, for the environments in which the
    active protector can seal. *)
Definition rewrap_post (active : AESGCMProtector) (binding envelope plaintext : bytes)
    (r : result (bytes * bool)) : Prop :=
  ∀ envelope' changed, r = Ok (envelope', changed) →
    openEnvelope active binding envelope' = Ok plaintext ∧
    (changed = false → envelope' = envelope) ∧
    (changed = true → ∀ x, openEnvelope active binding envelope ≠ Ok x).

Lemma rewrap_changed active p binding envelope plaintext :
  openEnvelope p binding envelope = Ok plaintext → ap_keyID p ≠ ap_keyID active →
  ∀ x, openEnvelope active binding envelope ≠ Ok x.
Proof.
  intros Ho Hne x Ho'.
  destruct (openEnvelope_keyID _ _ _ _ Ho) as (_ & _ & _ & _ & parsed & Hp & Hk).
  destruct (openEnvelope_keyID _ _ _ _ Ho') as (_ & _ & _ & _ & parsed' & Hp' & Hk'). congruence.
Qed.

Lemma Rewrap_spec inv d s keyring active binding envelope (Q : disk → unit → result (bytes * bool) → Prop) :
  keyring_wf keyring → active_protector keyring = Some active → inv d → (∀ e, Q d s (Err e)) →
  (∀ plaintext r, keyring_opens keyring binding envelope = Some plaintext →
     rewrap_post active binding envelope plaintext r → Q d s r) →
  mrwp fs_step inv (Rewrap keyring binding envelope) s d Q.
Proof.
  intros Hwf Ha Hi HE HQ. unfold Rewrap, with_active. rewrite Ha.
  apply mrwp_bind, openSelected_spec; [done|done|done|]. intros p plaintext Hp Ho Hopen.
  destruct (bool_decide (ap_keyID p = ap_keyID active)) eqn:E; bool_prop.
  - apply mrwp_ret; [done|]. apply (HQ plaintext); [done|]. intros e' c [= <- <-].
    rewrite (keyring_wf_unique keyring p active) in Ho by (done || by apply active_in). done.
  - apply mrwp_bind, protector_Seal_spec; [done|]. intros [e'|] Hs; [|done]. apply mrwp_ret; [done|].
    apply (HQ plaintext); [done|]. intros e'' c [= <- <-]. destruct (Hs e' eq_refl) as (Ho' & _).
    split_and!; [done|done|]. intros _. by eapply rewrap_changed.
Qed.

Lemma Rewrap_works inv d s keyring active p binding envelope plaintext
    (Q : disk → unit → result (bytes * bool) → Prop) :
  keyring_wf keyring → keyring_configured keyring = true → active_protector keyring = Some active → inv d →
  p ∈ kr_protectors keyring → openEnvelope p binding envelope = Ok plaintext →
  (∀ envelope' changed, rewrap_post active binding envelope plaintext (Ok (envelope', changed)) →
     Q d s (Ok (envelope', changed))) →
  mrwp fs_works inv (Rewrap keyring binding envelope) s d Q.
Proof.
  intros Hwf Hc Ha Hi Hp Ho HQ. unfold Rewrap, with_active. rewrite Ha.
  apply mrwp_bind, (openSelected_works _ _ _ _ _ _ p plaintext); [done..|].
  destruct (bool_decide (ap_keyID p = ap_keyID active)) eqn:E; bool_prop.
  - apply mrwp_ret; [done|]. apply HQ. intros e' c [= <- <-].
    rewrite (keyring_wf_unique keyring p active) in Ho by (done || by apply active_in). done.
  - destruct (openEnvelope_keyID _ _ _ _ Ho) as (_ & Hb & _ & Hl & _).
    apply mrwp_bind, protector_Seal_total; [by eapply active_configured|done|done|done|]. intros e' Hs.
    apply mrwp_ret; [done|]. apply HQ. intros e'' c [= <- <-]. destruct (Hs e' eq_refl) as (Ho' & _).
    split_and!; [done|done|]. intros _. by eapply rewrap_changed.
Qed.

(** The protector's round trip.  A configured protector with a valid
    binding and a plaintext within the limit seals for every salt and nonce of
    a random source that works and a context that is not done, the envelope is
    within MaximumEnvelopeBytes, and Open gives exactly the plaintext back; in
    any environment an envelope that Seal returns opens to the plaintext. *)
Theorem protector_seal_open (protector : AESGCMProtector) (binding plaintext : bytes) (d : disk) :
  protector_configured protector = true → validateBinding binding = Ok tt →
  len plaintext ≤ MaximumPlaintextBytes →
  mrwp fs_works (eq d) (envelope <- AESGCMProtector_Seal protector binding plaintext ;;
                        opened <- AESGCMProtector_Open protector binding envelope ;;
                        mret (envelope, opened)) tt d
    (λ _ _ r, ∃ envelope, r = Ok (envelope, plaintext) ∧ len envelope ≤ MaximumEnvelopeBytes) ∧
  mrwp fs_step (eq d) (AESGCMProtector_Seal protector binding plaintext) tt d
    (λ _ _ r, ∀ envelope, r = Ok envelope →
       mrwp fs_works (eq d) (AESGCMProtector_Open protector binding envelope) tt d
         (λ _ _ r', r' = Ok plaintext)).
Proof.
  intros Hc Hb Hl. split.
  - apply mrwp_bind, protector_Seal_total; [done..|]. intros envelope Hs.
    destruct (Hs envelope eq_refl) as (Ho & Hm & _). apply mrwp_bind, protector_Open_works; [done|]. rewrite Ho.
    apply mrwp_ret; [done|]. by exists envelope.
  - apply protector_Seal_spec; [done|]. intros r Hs envelope Hr.
    apply protector_Open_works; [done|]. apply (Hs envelope Hr).
Qed.

(** Key rotation.  For a keyring that the constructor accepts: every
    envelope that one of its protectors, active or retained, opens is opened by
    the keyring to the same plaintext and rewrapped, when the environment
    works; and in any environment an envelope that Rewrap returns opens under
    the active key to the plaintext of the given envelope, is the given
    envelope when it reports no change, and reports a change only when the
    active key did not open the given envelope. *)
Theorem keyring_rotation (active : AESGCMProtector) (retained : list (option AESGCMProtector))
    (keyring : AESGCMKeyring) (binding envelope : bytes) (d : disk) :
  NewAESGCMKeyring (Some active) retained = Ok keyring →
  (∀ p plaintext, Some p ∈ Some active :: retained → openEnvelope p binding envelope = Ok plaintext →
     mrwp fs_works (eq d) (AESGCMKeyring_Open keyring binding envelope) tt d
       (λ _ _ r, r = Ok plaintext) ∧
     mrwp fs_works (eq d) (Rewrap keyring binding envelope) tt d
       (λ _ _ r, ∃ envelope' changed, r = Ok (envelope', changed) ∧
          openEnvelope active binding envelope' = Ok plaintext)) ∧
  mrwp fs_step (eq d) (Rewrap keyring binding envelope) tt d
    (λ _ _ r, ∀ envelope' changed, r = Ok (envelope', changed) →
       ∃ p plaintext, Some p ∈ Some active :: retained ∧ openEnvelope p binding envelope = Ok plaintext ∧
         openEnvelope active binding envelope' = Ok plaintext ∧
         (changed = false → envelope' = envelope) ∧
         (changed = true → ∀ x, openEnvelope active binding envelope ≠ Ok x)).
Proof.
  intros Hnew. destruct (NewAESGCMKeyring_spec _ _ _ Hnew) as (Hwf & Hall & Ha & Hc).
  assert (∀ p, Some p ∈ Some active :: retained ↔ p ∈ kr_protectors keyring) as Hin.
  { intros p. rewrite <- Hall. rewrite list_elem_of_fmap. split; [by intros (q & [= ->] & ?)|eauto]. }
  split.
  - intros p plaintext Hp%Hin Ho. split.
    + unfold AESGCMKeyring_Open. apply mrwp_bind, (openSelected_works _ _ _ _ _ _ p plaintext); [done..|].
      by apply mrwp_ret.
    + eapply Rewrap_works; [done..|]. intros e' c Hr. exists e', c. split; [done|]. by apply (Hr e' c).
  - eapply Rewrap_spec; [done..|]. intros plaintext r Hopen Hr e' c ->.
    apply keyring_opens_iff in Hopen as (p & Hp & Ho); [|done]. exists p, plaintext.
    split_and!; [by apply Hin|done|apply (Hr e' c eq_refl)..].
Qed.

(** ** The state file under a keyring *)

Definition keyring_protector (keyring : AESGCMKeyring) : SealedStateProtector :=
  {| sp_Seal := AESGCMKeyring_Seal keyring; sp_Open := AESGCMKeyring_Open keyring |}.

#[export] Instance keyring_laws keyring :
  keyring_wf keyring → ProtectorLaws (keyring_protector keyring) (keyring_opens keyring).
Proof.
  intros Hwf. constructor; intros inv d s binding x Q Hi HQ; simpl.
  - unfold AESGCMKeyring_Seal, with_active. apply mrwp_bind, mrwp_guard; [done|done|intros _].
    destruct (active_protector keyring) as [p|]; [|by apply mrwp_fail]. by apply protector_Seal_spec.
  - unfold AESGCMKeyring_Open. apply mrwp_bind, openSelected_spec; [done|done|intros e; by apply HQ|].
    intros p plaintext _ _ Ho. apply mrwp_ret; [done|]. apply HQ. by intros ? [= <-].
Qed.

(** A store with the keyring as its protector. *)
Definition keyring_store (keyring : AESGCMKeyring) (path binding : bytes) (maximum : Z)
    : FileSealedStateStore :=
  {| fss_path := path; fss_lockPath := path ++ str ".lock"; fss_protector := Configured (keyring_protector keyring);
     fss_binding := binding; fss_maxEnvelopeBytes := maximum |}.

(** A file that reads is loaded when every call succeeds. *)
Lemma keyring_Load_works keyring path binding maximum d f x :
  keyring_wf keyring → keyring_configured keyring = true →
  sealed_configured (keyring_store keyring path binding maximum) = true →
  dk_visible d = Some f →
  sealed_reads (keyring_store keyring path binding maximum) (keyring_opens keyring) (f_data f) = Some x →
  mrwp fs_works (λ _, True) (sealed_Load (keyring_store keyring path binding maximum)) tt d (λ _ _ r, r = Ok (Some x)).
Proof.
  set (store := keyring_store keyring path binding maximum). intros Hwf Hk Hc Hv Hr.
  unfold sealed_reads in Hr. destruct (parseSealedStateFile _ _) as [[[prefix revision] envelope]|] eqn:Hp; [|done].
  destruct (keyring_opens _ _ _) as [p|] eqn:Ho; [|done]. destruct (_ <? len p) eqn:Hl; [done|]. simplify_eq.
  pose proof (parse_canonical _ _ _ _ _ Hp) as (Hdata & Hprefix & Hw & _ & He).
  assert (len (f_data f) = 52 + len envelope) as Hlen.
  { rewrite Hdata, len_app, Hprefix. unfold len at 1. by rewrite prefix_length. }
  assert (maximumFileBytes store = 52 + fss_maxEnvelopeBytes store) as Hm by done.
  unfold sealed_Load, gated. apply mrwp_bind, works_ctx; [done|]. apply mrwp_bind, mrwp_guard; [done|by rewrite Hc|intros _].
  apply mrwp_bind, works_check; [by intros ? ? [-> ->]|done|]. apply mrwp_bind, mrwp_try.
  unfold locked. apply mrwp_bind, works_check; [by intros ? ? [-> ->]|done|]. apply mrwp_bind, mrwp_try.
  apply mrwp_bind. unfold sealed_loadLocked. apply mrwp_bind.
  eapply (readStateFile_works _ _ _ _ f); [done|rewrite Hm; lia|done| |].
  { unfold sealedSizeCheck. rewrite Hm. change (sealedStateHeaderBytes + 1) with 53.
    destruct (Z.ltb_spec (len (f_data f)) 53); [lia|]. cbn [guard_err result_bind].
    destruct (Z.ltb_spec (52 + fss_maxEnvelopeBytes store) (len (f_data f))); [lia|done]. }
  apply mrwp_bind, works_ctx; [done|]. rewrite firstn_all2 by (unfold len in *; lia).
  apply mrwp_bind, mrwp_guard; [done|intros Hx; bool_prop; lia|intros _].
  apply mrwp_bind, mrwp_lift; [done|]. rewrite Hp. apply mrwp_bind. simpl with_protector.
  apply keyring_opens_iff in Ho as (q & Hq & Ho); [|done].
  unfold AESGCMKeyring_Open. apply mrwp_bind, (openSelected_works _ _ _ _ _ _ q p); [done..|].
  apply mrwp_ret; [done|]. apply mrwp_bind, mrwp_guard; [done|by rewrite Hl|intros _].
  apply mrwp_bind, works_ctx; [done|]. apply mrwp_ret; [done|].
  unfold syncParentDirectory, fcheck. apply mrwp_bind, mrwp_bind, mrwp_call; [done|]. intros r d1 [_ ->]. split; [done|].
  apply mrwp_ret; [done|]. apply mrwp_ret; [done|].
  apply mrwp_bind, mrwp_call; [done|]. intros r d2 [_ ->]. split; [done|]. apply mrwp_ret; [done|].
  apply mrwp_bind, mrwp_call; [done|]. intros [] d3 _. split; [done|]. by apply mrwp_lift.
Qed.

(** What one keyring opens, a keyring with at least its protectors opens. *)
Lemma keyring_opens_mono keyring keyring' binding envelope plaintext :
  keyring_wf keyring → keyring_wf keyring' →
  (∀ p, p ∈ kr_protectors keyring → p ∈ kr_protectors keyring') →
  keyring_opens keyring binding envelope = Some plaintext → keyring_opens keyring' binding envelope = Some plaintext.
Proof. intros Hwf Hwf' Hin. rewrite !keyring_opens_iff by done. intros (p & Hp & Ho). eauto. Qed.

Lemma rotated_reads keyring keyring' path binding maximum data x :
  keyring_wf keyring → keyring_wf keyring' →
  (∀ p, p ∈ kr_protectors keyring → p ∈ kr_protectors keyring') →
  sealed_reads (keyring_store keyring path binding maximum) (keyring_opens keyring) data = Some x →
  sealed_reads (keyring_store keyring' path binding maximum) (keyring_opens keyring') data = Some x.
Proof.
  intros Hwf Hwf' Hin. unfold sealed_reads. simpl.
  destruct (parseSealedStateFile _ _) as [[[prefix revision] envelope]|]; [|done].
  destruct (keyring_opens keyring _ _) as [p|] eqn:Ho; [|done].
  by rewrite (keyring_opens_mono keyring keyring' _ _ p).
Qed.

(** C30: sealed state survives crashes and key rotation.  A value that a
    CompareAndSwap stored without an error is what Load returns, with the
    revision of the swap, after any machine crash, from a store whose keyring
    was rotated to another active key and retains the former keys. *)
Theorem sealed_state_survives_rotation (active active' : AESGCMProtector)
    (retained retained' : list (option AESGCMProtector)) (keyring keyring' : AESGCMKeyring)
    (path binding : bytes) (maximum : Z) (expected : option SealedStateRevision) (next : bytes) (d : disk) :
  NewAESGCMKeyring (Some active) retained = Ok keyring →
  NewAESGCMKeyring (Some active') retained' = Ok keyring' →
  (∀ p, p ∈ Some active :: retained → p ∈ Some active' :: retained') →
  sealed_configured (keyring_store keyring' path binding maximum) = true →
  dk_names d ≠ [] →
  mrwp fs_step (λ _, True) (sealed_CompareAndSwap (keyring_store keyring path binding maximum) expected next) tt d
    (λ d' _ r, ∀ revision, r = Ok (revision, None) →
       ∀ c, crash_content d' c → ∃ data, c = Some data ∧
         ∀ d'' f, dk_visible d'' = Some f → f_data f = data →
           mrwp fs_works (λ _, True) (sealed_Load (keyring_store keyring' path binding maximum)) tt d''
             (λ _ _ r', r' = Ok (Some (next, revision)))).
Proof.
  intros Hnew Hnew' Hin Hconf Hd.
  destruct (NewAESGCMKeyring_spec _ _ _ Hnew) as (Hwf & Hall & _ & _).
  destruct (NewAESGCMKeyring_spec _ _ _ Hnew') as (Hwf' & Hall' & _ & Hc').
  assert (∀ p, p ∈ kr_protectors keyring → p ∈ kr_protectors keyring') as Hsub.
  { intros p Hp. specialize (Hin (Some p)). rewrite <- Hall, <- Hall', !list_elem_of_fmap in Hin.
    destruct Hin as (q & [= ->] & Hq); [by exists p|done]. }
  assert (0 < maximum < 2 ^ 63) as Hmax.
  { unfold sealed_configured in Hconf. simpl in Hconf. bool_prop.
    assert (FileSealedStateMaxEnvelopeBytesLimit < 2 ^ 63) by done. lia. }
  eapply (mrwp_weaken _ (entries _ d)); [done|].
  apply (sealed_CompareAndSwap_spec _ (keyring_opens keyring)); [|done|done|].
  { intros p [= <-]. by apply keyring_laws. }
  intros d' revision err Ho revision' [= <- ->] c Hcr.
  destruct Ho as [(_ & ? & _)|(_ & _ & _ & _ & Hok)]; [done|]. destruct (Hok eq_refl) as (b & Hb & Hn).
  eapply crash_of_synced in Hcr; [|done|done]. subst c. exists b. split; [done|]. intros d'' f Hv <-.
  eapply keyring_Load_works; [done|done|done|done|]. eapply (rotated_reads keyring); [done|done|done|]. exact Hb.
Qed.
End ProtectorProofs.

(** ** Recovery keys *)

Lemma base64_length32 m : length m = 32%nat → len (base64_RawURLEncoding_EncodeToString m) = 43.
Proof. intros Hm. do 32 (destruct m as [|? m]; [done|]). by destruct m. Qed.

(** The exported form of a key is canonical: it parses to the key, and a text
    that parses is the export of the key it denotes. *)
Lemma recovery_key_roundtrip (key : RecoveryKey) (secret : bytes) :
  (len (rk_material key) = RecoveryKeyBytes → RecoveryKey_configured key = true →
   ParseRecoveryKey (RecoveryKey_ExportSecret key) = Ok key) ∧
  (ParseRecoveryKey secret = Ok key → RecoveryKey_ExportSecret key = secret).
Proof.
  unfold ParseRecoveryKey, RecoveryKey_ExportSecret. split.
  - intros Hlen Hc. pose proof (base64_length32 (rk_material key)) as Hb. rewrite Hc. cbn [negb]. rewrite HasPrefix_app, TrimPrefix_app, base64_raw_roundtrip.
    change (base64_RawURLEncoding_EncodedLen RecoveryKeyBytes) with 43. rewrite Hb by (unfold len, RecoveryKeyBytes in Hlen; lia). rewrite Hlen.
    rewrite !bool_decide_true by done. simpl. destruct key; simpl in *. by rewrite Hc.
  - intros Hp. apply result_bind_ok in Hp as (? & Hpre & Hp). apply guard_err_ok in Hpre. bool_prop.
    apply HasPrefix_true in Hpre as [rest ->]. rewrite TrimPrefix_app in Hp.
    apply result_bind_ok in Hp as (? & _ & Hp).
    destruct (base64_RawURLEncoding_DecodeString rest) as [d|]; [|done].
    ok_inv. bool_prop. subst.
    by destruct (RecoveryKey_configured _).
Qed.

(** ** Examples *)

Definition toy_recovery (b : byte) : RecoveryKey := {| rk_material := replicate 32 b |}.
Definition toy_former : AESGCMProtector := {| ap_keyID := str "key-1"; ap_key := toy_recovery x01 |}.
Definition toy_current : AESGCMProtector := {| ap_keyID := str "key-2"; ap_key := toy_recovery x02 |}.
Definition toy_former_ring : AESGCMKeyring :=
  {| kr_protectors := [toy_former]; kr_active := Some 0%nat; kr_byID := {[ str "key-1" := 0%nat ]} |}.
Definition toy_ring : AESGCMKeyring :=
  {| kr_protectors := [toy_current; toy_former]; kr_active := Some 0%nat;
     kr_byID := <[ str "key-1" := 1%nat ]> {[ str "key-2" := 0%nat ]} |}.

Example toy_ring_new :
  NewAESGCMKeyring (Some toy_current) [Some toy_former] = Ok toy_ring ∧
  NewAESGCMKeyring (Some toy_current) [Some toy_current] = Err [PsErrProtectorConflict] ∧
  NewAESGCMKeyring (Some toy_current) [None] = Err [PsErrProtectorUnavailable].
Proof. split_and!; by vm_compute. Qed.

(** Sealed under the former key, rewrapped under the current one. *)
Example toy_rewrap :
  (run fs_run ((e <- AESGCMProtector_Seal (H:=toy_aead) toy_former (str "role") (str "secret") ;;
                ' (e', changed) <- Rewrap (H:=toy_aead) toy_ring (str "role") e ;;
                p <- AESGCMProtector_Open (H:=toy_aead) toy_current (str "role") e' ;;
                mret (changed, p)) tt) empty_disk).2
  = (tt, Ok (true, str "secret")).
Proof. by vm_compute. Qed.

Lemma recovery_key_example : ParseRecoveryKey (RecoveryKey_ExportSecret (toy_recovery x07)) = Ok (toy_recovery x07).
Proof. by vm_compute. Qed.

Lemma protector_seal_open_witness :
  mrwp fs_works (eq empty_disk)
    (envelope <- AESGCMProtector_Seal (H:=toy_aead) toy_former (str "role") (str "secret") ;;
     opened <- AESGCMProtector_Open (H:=toy_aead) toy_former (str "role") envelope ;;
     mret (envelope, opened)) tt empty_disk
    (λ _ _ r, ∃ envelope, r = Ok (envelope, str "secret") ∧ len envelope ≤ MaximumEnvelopeBytes) ∧
  mrwp fs_step (eq empty_disk) (AESGCMProtector_Seal (H:=toy_aead) toy_former (str "role") (str "secret")) tt empty_disk
    (λ _ _ r, ∀ envelope, r = Ok envelope →
       mrwp fs_works (eq empty_disk) (AESGCMProtector_Open (H:=toy_aead) toy_former (str "role") envelope) tt empty_disk
         (λ _ _ r', r' = Ok (str "secret"))).
Proof. apply (@protector_seal_open toy_aead toy_aead_laws); by vm_compute. Defined.

Lemma keyring_rotation_witness :
  let envelope := encodeEnvelopePrefix (str "key-1") (replicate 16 x00) 28 ++ replicate 28 x00 in
  (∀ p plaintext, Some p ∈ [Some toy_current; Some toy_former] →
     openEnvelope (H:=toy_aead) p (str "role") envelope = Ok plaintext →
     mrwp fs_works (eq empty_disk) (AESGCMKeyring_Open (H:=toy_aead) toy_ring (str "role") envelope) tt empty_disk
       (λ _ _ r, r = Ok plaintext) ∧
     mrwp fs_works (eq empty_disk) (Rewrap (H:=toy_aead) toy_ring (str "role") envelope) tt empty_disk
       (λ _ _ r, ∃ envelope' changed, r = Ok (envelope', changed) ∧
          openEnvelope (H:=toy_aead) toy_current (str "role") envelope' = Ok plaintext)) ∧
  mrwp fs_step (eq empty_disk) (Rewrap (H:=toy_aead) toy_ring (str "role") envelope) tt empty_disk
    (λ _ _ r, ∀ envelope' changed, r = Ok (envelope', changed) →
       ∃ p plaintext, Some p ∈ [Some toy_current; Some toy_former] ∧
         openEnvelope (H:=toy_aead) p (str "role") envelope = Ok plaintext ∧
         openEnvelope (H:=toy_aead) toy_current (str "role") envelope' = Ok plaintext ∧
         (changed = false → envelope' = envelope) ∧
         (changed = true → ∀ x, openEnvelope (H:=toy_aead) toy_current (str "role") envelope ≠ Ok x)).
Proof.
  intros envelope. apply (@keyring_rotation toy_aead toy_aead_laws toy_current [Some toy_former] toy_ring). by vm_compute.
Defined.

Lemma sealed_state_survives_rotation_witness :
  mrwp fs_step (λ _, True)
    (sealed_CompareAndSwap (keyring_store (H:=toy_aead) toy_former_ring (str "/state") (str "role") 4096) None (str "secret"))
    tt empty_disk
    (λ d' _ r, ∀ revision, r = Ok (revision, None) →
       ∀ c, crash_content d' c → ∃ data, c = Some data ∧
         ∀ d'' f, dk_visible d'' = Some f → f_data f = data →
           mrwp fs_works (λ _, True)
             (sealed_Load (keyring_store (H:=toy_aead) toy_ring (str "/state") (str "role") 4096)) tt d''
             (λ _ _ r', r' = Ok (Some (str "secret", revision)))).
Proof.
  apply (@sealed_state_survives_rotation toy_aead toy_aead_laws toy_former toy_current [] [Some toy_former]
           toy_former_ring toy_ring); [by vm_compute|by vm_compute| |by vm_compute|done].
  intros p Hp. apply list_elem_of_singleton in Hp as ->. right. left.
Defined.

Lemma envelope_authenticated_witness :
  let salt := replicate 16 x05 in
  let prefix := encodeEnvelopePrefix (str "key-1") salt 28 in
  str "role" = str "role" ∧ str "key-1" = str "key-1" ∧ salt = salt ∧
  len (replicate 28 x00) = len (replicate 28 x00).
Proof.
  intros salt prefix.
  pose (parsed := {| de_keyID := str "key-1"; de_salt := salt; de_prefix := prefix;
                     de_ciphertext := replicate 28 x00 |}).
  apply (envelope_authenticated (prefix ++ replicate 28 x00) (prefix ++ replicate 28 x00) parsed parsed
    (str "role") (str "role")); by vm_compute.
Defined.
