(* ===== verification/RootPublisher.v ===== *)
(** * Publishing a share root ([presignedshare/root_publisher.go])

    A share root is one object of the store that holds the signed bundle of the
    current snapshot.  [newRootPublisher] checks the configuration; [load] reads
    and authenticates the root; [publishLoop] installs the bundle of a closure
    with a conditional write and reconciles an ambiguous one through an
    authenticated GET.  The publisher with a recovery journal is in
    [RootRecovery]. *)

From S2P Require Import Prelude.
From S2P Require Import Prog.
From S2P Require Import GoStd.
From S2P Require Import Encoding.
From S2P Require Import Json.
From S2P Require Import Model.
From S2P Require Import Rfc3339.
From S2P Require Import Effects.
From S2P Require Import Capability.
From S2P Require Import Trust.
From S2P Require Import ClientEncryption.
From S2P Require Import Repository.
From S2P Require Import Closure.
From S2P Require Import Consumer.
From S2P Require Import Bundle.

Definition DefaultRootPublishAttempts : Z := 8.
Definition MaximumRootPublishAttempts : Z := 100.

(** The interfaces that only make calls are given by whether they are there. *)
Record RootPublisherConfig := {
  rc_Store : dependency StoreValue;
  rc_RecoveryJournal : dependency unit;
  rc_ClientEncryption : option ClientEncryptionProfile;
  rc_RootKey : bytes;
  rc_RootCapability : Capability;
  rc_RepositoryPrefix : bytes;
  rc_ReferenceKey : bytes;
  rc_ShareID : ShareID;
  rc_Presigner : dependency unit;
  rc_Signer : dependency ReferenceSigner;
  rc_Verifier : dependency VerifierValue;
  rc_MaxPublishAttempts : Z;
  rc_DangerouslyAllowUnsignedReference : bool;
  rc_DangerouslyAllowCustomReferenceVerifier : bool;
}.

Record RootPublication := {
  rpn_Revision : N;
  rpn_Snapshot : Snapshot;
  rpn_Version : Version;
  rpn_Updated : bool;
}.

(** [rt_gate] is whether the gate channel was made. *)
Record RootPublisher := {
  rt_store : dependency StoreValue;
  rt_rootKey : bytes;
  rt_rootCapability : Capability;
  rt_repositoryPrefix : bytes;
  rt_referenceKey : bytes;
  rt_shareID : ShareID;
  rt_presigner : dependency unit;
  rt_signer : dependency ReferenceSigner;
  rt_verifier : dependency VerifierValue;
  rt_clientEncryption : option ClientEncryptionProfile;
  rt_maxAttempts : Z;
  rt_allowInsecureLoopback : bool;
  rt_dangerouslyAllowCustomReferenceVerifier : bool;
  rt_dangerouslyAllowUnsignedReference : bool;
  rt_recoveryJournal : dependency unit;
  rt_gate : bool;
}.

Definition CanBuildNewRoot (publisher : RootPublisher) : bool :=
  interfaceDependencyConfigured (rt_presigner publisher)
  && interfaceDependencyConfigured (rt_signer publisher).
Definition RecoveryEnabled (publisher : RootPublisher) : bool :=
  interfaceDependencyConfigured (rt_recoveryJournal publisher).
Definition RootPublisher_configured (publisher : RootPublisher) : bool :=
  Capability_Configured (rt_rootCapability publisher)
  && interfaceDependencyConfigured (rt_store publisher)
  && interfaceDependencyConfigured (rt_verifier publisher) && rt_gate publisher
  && (CanBuildNewRoot publisher || RecoveryEnabled publisher).

(** ** Errors *)

Definition validateRootVersion (version : Version) : result unit :=
  guard_err ((v_ETag version ==? []) || (MaxStoreVersionTokenBytes <? len (v_ETag version))
             || (MaxStoreVersionTokenBytes <? len (v_VersionID version))) [ErrStoreIncompatible].

Definition safeRootStoreErrors : list sentinel :=
  [CtxCanceled; CtxDeadlineExceeded; ErrObjectNotFound; ErrNotModified; ErrPrecondition; ErrAccessDenied;
   ErrRateLimited; ErrStoreUnavailable; ErrStoreMisconfigured; ErrBucketNotFound; ErrStoreIncompatible;
   ErrStoreOperationUnsupported; ErrResourceLimit; ErrCorruptObject].
Definition safeRootStoreError (err : error) : error :=
  firstSentinel safeRootStoreErrors ErrStoreUnavailable err.

(** The class of the ambiguous writes so far is nil or a joined error. *)
Definition rootPublishIndeterminateError (ambiguousWriteClass : option error) (causes : list error) : error :=
  ErrRootPublishIndeterminate :: default [] ambiguousWriteClass ++ concat causes.
Definition joinClass (ambiguousWriteClass : option error) (err : error) : option error :=
  Some (default [] ambiguousWriteClass ++ err).

(** [bundle] is not nil. *)
Definition rootBundleExactlyMatchesClosure (bundle : Bundle) (closure : SnapshotClosure) : bool :=
  negb ((sn_Generation (sc_Snapshot closure) !=? bd_referenceGeneration bundle)
        || (sn_Commit (sc_Snapshot closure) !=? bd_referenceCommit bundle)
        || (bd_referenceKey bundle !=? sc_ReferenceKey closure)
        || (ob_Data (bd_reference bundle) !=? sc_ReferenceData closure)
        || (ob_Version (bd_reference bundle) !=? sc_ReferenceVersion closure)
        || negb (Z.of_nat (size (bd_capabilities bundle)) =? len (sc_ObjectKeys closure)))
  && forallb (λ key, bool_decide (is_Some (bd_capabilities bundle !! key))) (sc_ObjectKeys closure).

Section Root.
Context `{NetLibrary} `{AEAD} {S : Type}.

(** [publisher.rootCapability.expiresAt.After(time.Now())]. *)
Definition checkAuthorization (capability : Capability) : M eff S unit :=
  now <- time_Now ;;
  mguard (cap_expiresAt capability <=? now) [ErrAccessDenied].

(** ** Construction *)

(** Whether the dynamic type of the store has a ClientEncryptionApplied method. *)
Definition advertisesEncryption (store : StoreValue) : bool :=
  match store with SV_External _ (Some _) | SV_EncryptedStore _ _ => true | _ => false end.

(** The store of the publisher; [repositoryID] is the verifier's. *)
Definition rootStore (config : RootPublisherConfig) (store : StoreValue) (repositoryID : RepositoryID)
    : result StoreValue :=
  match rc_ClientEncryption config with
  | None => Ok store
  | Some profile =>
      guard_err (cp_repositoryID profile !=? repositoryID) [ErrUntrustedBundle] ?;;
      if interfaceDependencyConfigured (rc_RecoveryJournal config) then
        guard_err (advertisesEncryption store) [ErrStoreMisconfigured] ?;; Ok store
      else result_wrap (λ _, [ErrStoreMisconfigured])
             (NewClientEncryptedStore (Some store) (Some profile))
  end.

Definition validRootProvenance (allowImportedBearer : bool) (capability : Capability) : bool :=
  (cap_provenance capability ==? capabilityProvenanceExactGET)
  || (allowImportedBearer && (cap_provenance capability ==? capabilityProvenanceImportedBearer)).

Definition newRootPublisher (config : RootPublisherConfig) (allowImportedBearer : bool)
    : M eff S RootPublisher :=
  match the (rc_Store config) with
  | None => mfail [ErrStoreMisconfigured]
  | Some store =>
  mguard (match rc_RecoveryJournal config with TypedNil => true | _ => false end) [ErrRootRecoveryState] ;;;
  let hasRecovery := interfaceDependencyConfigured (rc_RecoveryJournal config) in
  let hasPresigner := interfaceDependencyConfigured (rc_Presigner config) in
  let hasSigner := interfaceDependencyConfigured (rc_Signer config) in
  match the (rc_Verifier config) with
  | None => mfail [ErrInvalidBundle]
  | Some verifier =>
  mguard (negb hasRecovery && (negb hasPresigner || negb hasSigner)) [ErrInvalidBundle] ;;;
  mguard (negb (IsOfflineReferenceVerifier verifier)
          && negb (rc_DangerouslyAllowCustomReferenceVerifier config)) [ErrUntrustedBundle] ;;;
  let repositoryID := rv_RepositoryID (vv_verifier verifier) in
  mguard (RepositoryID_IsZero repositoryID
          || match the (rc_Signer config) with
             | Some signer => sg_RepositoryID signer !=? repositoryID | None => false end)
         [ErrUntrustedBundle] ;;;
  store <- mlift (rootStore config store repositoryID) ;;
  mlift (match the (rc_Signer config) with
         | Some signer => validateKeyID (sg_KeyID signer) | None => Ok tt end) ;;;
  prefix <- mlift (validateBundleBindings (rc_RepositoryPrefix config) (rc_ReferenceKey config)
                     (rc_ShareID config) 1 1) ;;
  let referenceRemainder := TrimPrefix (rc_ReferenceKey config) (repositoryObjectNamespace prefix) in
  ' (_, signedReference) <- mwrap (λ _, [ErrInvalidBundle])
                              (mlift (channelFromReferenceRemainder referenceRemainder)) ;;
  mguard (negb signedReference && negb (rc_DangerouslyAllowUnsignedReference config))
         [ErrUntrustedBundle] ;;;
  let root := rc_RootCapability config in
  mguard (negb (validObjectKey (rc_RootKey config)) || negb (Capability_Configured root)
          || negb (validRootProvenance allowImportedBearer root)
          || (cap_exactKey root !=? rc_RootKey config)) [ErrInvalidBundle] ;;;
  let relativeRootKey := TrimPrefix (rc_RootKey config) (repositoryObjectNamespace prefix) in
  mguard ((relativeRootKey !=? rc_RootKey config)
          && (validReferenceRemainder relativeRootKey || validImmutableRemainder relativeRootKey))
         [ErrInvalidBundle] ;;;
  (if hasPresigner then
     ' (expiresAt, known) <- mcall (Share Presign_Expiry) ;;
     mguard (negb known || negb (expiresAt =? cap_expiresAt root)) [ErrInvalidBundle]
   else mret tt) ;;;
  checkAuthorization root ;;;
  let attempts := if rc_MaxPublishAttempts config =? 0 then DefaultRootPublishAttempts
                  else rc_MaxPublishAttempts config in
  mguard ((attempts <? 1) || (MaximumRootPublishAttempts <? attempts)) [ErrResourceLimit] ;;;
  mret {| rt_store := Configured store; rt_rootKey := rc_RootKey config; rt_rootCapability := root;
          rt_repositoryPrefix := prefix; rt_referenceKey := rc_ReferenceKey config;
          rt_shareID := rc_ShareID config; rt_presigner := rc_Presigner config;
          rt_signer := rc_Signer config; rt_verifier := Configured verifier;
          rt_clientEncryption := rc_ClientEncryption config; rt_maxAttempts := attempts;
          rt_allowInsecureLoopback := HasPrefix (cap_origin root) (str "http://");
          rt_dangerouslyAllowCustomReferenceVerifier := rc_DangerouslyAllowCustomReferenceVerifier config;
          rt_dangerouslyAllowUnsignedReference := rc_DangerouslyAllowUnsignedReference config;
          rt_recoveryJournal := rc_RecoveryJournal config; rt_gate := true |}
  end end.

Definition NewRootPublisher (config : RootPublisherConfig) : M eff S RootPublisher :=
  newRootPublisher config false.

(** ** The methods *)

Context (publisher : RootPublisher).

(** The entry points refuse a publisher whose store is nil. *)
Definition publisherStore : M eff S StoreValue :=
  match the (rt_store publisher) with Some store => mret store | None => mfail errorText end.

Definition rootDecodeOptions : DecodeOptions :=
  {| do_RootCapability := rt_rootCapability publisher; do_RepositoryPrefix := rt_repositoryPrefix publisher;
     do_ReferenceKey := rt_referenceKey publisher; do_ShareID := rt_shareID publisher;
     do_AllowInsecureLoopback := rt_allowInsecureLoopback publisher;
     do_DangerouslyAllowCustomReferenceVerifier := rt_dangerouslyAllowCustomReferenceVerifier publisher |}.

(** The object and its bundle, or None when the root is not there. *)
Definition load : M eff S (option (Object * Bundle)) :=
  store <- publisherStore ;;
  r <- mtry (sv_Get store (rt_rootKey publisher) {| go_IfNoneMatch := []; go_MaxBytes := MaximumBundleBytes |}) ;;
  match r with
  | Err err => if errors_Is err ErrObjectNotFound then mret None else mfail (safeRootStoreError err)
  | Ok object =>
      mlift (validateRootVersion (ob_Version object)) ;;;
      bundle <- Decode (ob_Data object) (rt_verifier publisher) rootDecodeOptions ;;
      mret (Some (object, bundle))
  end.

Definition rootInput (closure : SnapshotClosure) (revision : N) : SnapshotBundleInput :=
  {| sbi_RootKey := rt_rootKey publisher; sbi_RootCapability := rt_rootCapability publisher;
     sbi_RepositoryPrefix := rt_repositoryPrefix publisher; sbi_ShareID := rt_shareID publisher;
     sbi_Revision := revision; sbi_Closure := closure; sbi_Presigner := rt_presigner publisher |}.

(** The conditional write of the root with the check of the version it returns. *)
Definition writeRoot (expected : option Version) (target : bytes) : M eff S Version :=
  store <- publisherStore ;;
  version <- (if expected is Some _ then sv_CompareAndSwap store (rt_rootKey publisher) expected target
              else sv_PutIfAbsent store (rt_rootKey publisher) target) ;;
  mlift (validateRootVersion version) ;;;
  mret version.

(** What an existing root that does not match the closure leads to. *)
Definition advances (bundle : Bundle) (closure : SnapshotClosure) (allowCreate : bool) : result unit :=
  guard_err allowCreate [ErrRootPublishConflict] ?;;
  guard_err (sn_Generation (sc_Snapshot closure) <? bd_referenceGeneration bundle)%N [ErrRollbackDetected] ?;;
  guard_err ((sn_Generation (sc_Snapshot closure) ==? bd_referenceGeneration bundle)
             && (sn_Commit (sc_Snapshot closure) !=? bd_referenceCommit bundle)) [ErrSplitBrain] ?;;
  guard_err (bd_revision bundle ==? u64_max) [ErrGenerationExhausted].

(** An error after an ambiguous write is indeterminate. *)
Definition unlessAmbiguous {A} (ambiguousWriteClass : option error) (m : M eff S A) : M eff S A :=
  mwrap (λ err, if ambiguousWriteClass is Some _
                then rootPublishIndeterminateError ambiguousWriteClass [err] else err) m.

Definition publication (revision : N) (closure : SnapshotClosure) (version : Version) (updated : bool)
    : RootPublication :=
  {| rpn_Revision := revision; rpn_Snapshot := sc_Snapshot closure; rpn_Version := version;
     rpn_Updated := updated |}.

(** What an attempt that wrote nothing current leaves. *)
Definition exhausted {A} (ambiguousWriteClass : option error) : M eff S A :=
  mfail (if ambiguousWriteClass is Some _ then rootPublishIndeterminateError ambiguousWriteClass []
         else [ErrRootPublishConflict]).

(** The part of an attempt from the construction of the bundle on: the
    publication, or the class with which the loop goes on. *)
Definition install (closure : SnapshotClosure) (current : option (Object * Bundle))
    (ambiguousWriteClass : option error) : M eff S (sum RootPublication (option error)) :=
  let revision := match current with Some (_, bundle) => (bd_revision bundle + 1)%N | None => 1%N end in
  target <- BuildSnapshotBundle (rootInput closure revision) (rt_signer publisher) (rt_verifier publisher) ;;
  checkCtx ;;;
  checkAuthorization (rt_rootCapability publisher) ;;;
  written <- mtry (writeRoot ((λ c, ob_Version c.1) <$> current) target) ;;
  match written with
  | Ok version => mret (inl (publication revision closure version true))
  | Err err =>
      if errors_Is err ErrPrecondition then mret (inr ambiguousWriteClass)
      else
        let ambiguousWriteClass := joinClass ambiguousWriteClass (safeRootStoreError err) in
        observed <- mtry load ;;
        match observed with
        | Ok (Some (object, _)) =>
            if ob_Data object ==? target
            then mret (inl (publication revision closure (ob_Version object) true))
            else mret (inr ambiguousWriteClass)
        | Ok None => mfail (rootPublishIndeterminateError ambiguousWriteClass [])
        | Err err => mfail (rootPublishIndeterminateError ambiguousWriteClass [err])
        end
  end.

(** The loop over the attempts of a publisher without a journal. *)
Fixpoint publishLoop (attempts : nat) (closure : SnapshotClosure) (allowCreate : bool)
    (ambiguousWriteClass : option error) : M eff S RootPublication :=
  match attempts with
  | O => exhausted ambiguousWriteClass
  | Datatypes.S attempts =>
      unlessAmbiguous ambiguousWriteClass checkCtx ;;;
      current <- unlessAmbiguous ambiguousWriteClass load ;;
      mguard (match current with None => negb allowCreate | Some _ => false end) [ErrRollbackDetected] ;;;
      settled <- match current with
      | Some (object, bundle) =>
          if rootBundleExactlyMatchesClosure bundle closure
          then mret (Some (publication (bd_revision bundle) closure (ob_Version object) false))
          else mlift (advances bundle closure allowCreate) ;;; mret None
      | None => mret None
      end ;;
      match settled with
      | Some result => mret result
      | None =>
          outcome <- install closure current ambiguousWriteClass ;;
          match outcome with
          | inl result => mret result
          | inr ambiguousWriteClass => publishLoop attempts closure allowCreate ambiguousWriteClass
          end
      end
  end.
End Root.
