(* ===== verification/RootRecovery.v ===== *)
(** * Recovering a share root ([presignedshare/root_recovery.go],
    [published_snapshot.go])

    The write-ahead journal of a root publisher: before a root is written, the
    exact bytes of the write and its precondition are stored in a sealed state
    store.  A record anchors the last accepted root ([Committed]) and holds the
    operation under way ([Pending], its target outside the JSON).
    [publishRecoverable] publishes a closure through the journal,
    [recoverPending] settles what a crash left, and [PrepareRecovery] and
    [RestoreRootPublisher] start and resume a share. *)

From S2P Require Import Prelude.
From S2P Require Import Prog.
From S2P Require Import GoStd.
From S2P Require Import Encoding.
From S2P Require Import Sha256.
From S2P Require Import Json.
From S2P Require Import Model.
From S2P Require Import Rfc3339.
From S2P Require Import Effects.
From S2P Require Import Capability.
From S2P Require Import Trust.
From S2P Require Import MemStore.
From S2P Require Import ClientEncryption.
From S2P Require Import Repository.
From S2P Require Import Watermark.
From S2P Require Import Journal.
From S2P Require Import Closure.
From S2P Require Import Consumer.
From S2P Require Import Bundle.
From S2P Require Import SealedState.
From S2P Require Import PublisherState.
From S2P Require Import RootPublisher.

Definition rootRecoveryFormatVersion : Z := 1.
Definition rootRecoveryMagicBytes : Z := 8.
Definition rootRecoveryVersionOffset : Z := rootRecoveryMagicBytes.
Definition rootRecoveryReservedOffset : Z := rootRecoveryVersionOffset + 2.
Definition rootRecoveryMetadataLengthOffset : Z := rootRecoveryReservedOffset + 2.
Definition rootRecoveryTargetLengthOffset : Z := rootRecoveryMetadataLengthOffset + 4.
Definition rootRecoveryHeaderBytes : Z := rootRecoveryTargetLengthOffset + 8.
Definition maximumRootRecoveryMetadataBytes : Z := Z.shiftl 128 10.
Definition maximumRootStoredTargetBytes : Z := MaximumBundleBytes + ClientEncryptionCiphertextOverhead.
Definition MaximumRootRecoveryJournalBytes : Z :=
  rootRecoveryHeaderBytes + maximumRootRecoveryMetadataBytes + maximumRootStoredTargetBytes.

Definition rootRecoveryMagic : bytes := str "s3drj" ++ [x00; x01; x00].
Definition rootRecoveryDomain : bytes :=
  str "s3disk" ++ [x00] ++ str "presigned-share" ++ [x00] ++ str "root-recovery" ++ [x00]
  ++ str "v1" ++ [x00].

(** ** Records *)

Record rootRecoveryCommitted := {
  rk_Revision : N;
  rk_LogicalDigest : Digest;
  rk_ReferenceGeneration : N;
  rk_ReferenceCommit : Digest;
  rk_ETag : bytes;
  rk_VersionID : bytes;
}.
#[export] Instance rootRecoveryCommitted_eq_dec : EqDecision rootRecoveryCommitted.
Proof. solve_decision. Defined.

Record rootRecoveryPending := {
  rg_TargetRevision : N;
  rg_AllowCreate : bool;
  rg_ExpectedAbsent : bool;
  rg_ExpectedETag : bytes;
  rg_ExpectedVersionID : bytes;
  rg_BaseDigest : Digest;
  rg_ClosureDigest : Digest;
  rg_TargetDigest : Digest;
  rg_LogicalTargetDigest : Digest;
  rg_ReferenceGeneration : N;
  rg_ReferenceCommit : Digest;
}.
#[export] Instance rootRecoveryPending_eq_dec : EqDecision rootRecoveryPending.
Proof. solve_decision. Defined.

Record rootRecoveryRecord := {
  rr_Format : Z;
  rr_RepositoryID : RepositoryID;
  rr_RepositoryPrefix : bytes;
  rr_ShareID : ShareID;
  rr_RootKey : bytes;
  rr_ReferenceKey : bytes;
  rr_AuthorizationExpiresAt : Time;
  rr_RootCapabilityDigest : Digest;
  rr_ClientEncryptionConfigured : bool;
  rr_ClientEncryptionWitness : slice byte;
  rr_AllowUnsignedReference : bool;
  rr_AllowCustomReferenceVerifier : bool;
  rr_HighestRevision : N;
  rr_Committed : option rootRecoveryCommitted;
  rr_Pending : option rootRecoveryPending;
}.
#[export] Instance rootRecoveryRecord_eq_dec : EqDecision rootRecoveryRecord.
Proof. solve_decision. Defined.

Definition committedVersion (c : rootRecoveryCommitted) : Version :=
  {| v_ETag := rk_ETag c; v_VersionID := rk_VersionID c |}.

#[export] Instance rootRecoveryCommitted_json : JSON rootRecoveryCommitted := {
  to_json c := JObj ([(str "revision", enc_uint (rk_Revision c));
                      (str "logical_digest", enc_digest (rk_LogicalDigest c));
                      (str "reference_generation", enc_uint (rk_ReferenceGeneration c));
                      (str "reference_commit", enc_digest (rk_ReferenceCommit c));
                      (str "etag", JStr (rk_ETag c))] ++ opt_string "version_id" (rk_VersionID c));
  of_json j :=
    fs ← obj_fields j;
    r ← fld "revision" fs (dec_uint u64_max) 0%N;
    l ← fld "logical_digest" fs dec_digest Digest_zero;
    g ← fld "reference_generation" fs (dec_uint u64_max) 0%N;
    c ← fld "reference_commit" fs dec_digest Digest_zero;
    e ← fld "etag" fs dec_string [];
    v ← fld "version_id" fs dec_string [];
    Some {| rk_Revision := r; rk_LogicalDigest := l; rk_ReferenceGeneration := g;
            rk_ReferenceCommit := c; rk_ETag := e; rk_VersionID := v |};
  json_valid c := u64_ok (rk_Revision c) ∧ digest_wf (rk_LogicalDigest c) ∧
    u64_ok (rk_ReferenceGeneration c) ∧ digest_wf (rk_ReferenceCommit c) ∧ utf8_ok (rk_ETag c) ∧
    utf8_ok (rk_VersionID c);
}.

#[export] Instance rootRecoveryPending_json : JSON rootRecoveryPending := {
  to_json p := JObj ([(str "target_revision", enc_uint (rg_TargetRevision p));
                      (str "allow_create", JBool (rg_AllowCreate p));
                      (str "expected_absent", JBool (rg_ExpectedAbsent p))]
                     ++ opt_string "expected_etag" (rg_ExpectedETag p)
                     ++ opt_string "expected_version_id" (rg_ExpectedVersionID p)
                     ++ [(str "base_digest", enc_digest (rg_BaseDigest p));
                         (str "closure_digest", enc_digest (rg_ClosureDigest p));
                         (str "target_digest", enc_digest (rg_TargetDigest p));
                         (str "logical_target_digest", enc_digest (rg_LogicalTargetDigest p));
                         (str "reference_generation", enc_uint (rg_ReferenceGeneration p));
                         (str "reference_commit", enc_digest (rg_ReferenceCommit p))]);
  of_json j :=
    fs ← obj_fields j;
    r ← fld "target_revision" fs (dec_uint u64_max) 0%N;
    a ← fld "allow_create" fs dec_bool false;
    x ← fld "expected_absent" fs dec_bool false;
    e ← fld "expected_etag" fs dec_string [];
    v ← fld "expected_version_id" fs dec_string [];
    b ← fld "base_digest" fs dec_digest Digest_zero;
    c ← fld "closure_digest" fs dec_digest Digest_zero;
    t ← fld "target_digest" fs dec_digest Digest_zero;
    l ← fld "logical_target_digest" fs dec_digest Digest_zero;
    g ← fld "reference_generation" fs (dec_uint u64_max) 0%N;
    m ← fld "reference_commit" fs dec_digest Digest_zero;
    Some {| rg_TargetRevision := r; rg_AllowCreate := a; rg_ExpectedAbsent := x; rg_ExpectedETag := e;
            rg_ExpectedVersionID := v; rg_BaseDigest := b; rg_ClosureDigest := c; rg_TargetDigest := t;
            rg_LogicalTargetDigest := l; rg_ReferenceGeneration := g; rg_ReferenceCommit := m |};
  json_valid p := u64_ok (rg_TargetRevision p) ∧ utf8_ok (rg_ExpectedETag p) ∧
    utf8_ok (rg_ExpectedVersionID p) ∧ digest_wf (rg_BaseDigest p) ∧ digest_wf (rg_ClosureDigest p) ∧
    digest_wf (rg_TargetDigest p) ∧ digest_wf (rg_LogicalTargetDigest p) ∧
    u64_ok (rg_ReferenceGeneration p) ∧ digest_wf (rg_ReferenceCommit p);
}.

(** omitempty on a byte slice. *)
Definition opt_bytes (k : string) (s : slice byte) : list (bytes * json) :=
  if els s ==? [] then [] else [(str k, enc_bytes s)].

#[export] Instance rootRecoveryRecord_json : JSON rootRecoveryRecord := {
  to_json r := JObj ([(str "format", JNum (rr_Format r));
                      (str "repository_id", enc_digest (rr_RepositoryID r));
                      (str "repository_prefix", JStr (rr_RepositoryPrefix r));
                      (str "share_id", enc_share (rr_ShareID r));
                      (str "root_key", JStr (rr_RootKey r));
                      (str "reference_key", JStr (rr_ReferenceKey r));
                      (str "authorization_expires_at", enc_time (rr_AuthorizationExpiresAt r));
                      (str "root_capability_digest", enc_digest (rr_RootCapabilityDigest r));
                      (str "client_encryption_configured", JBool (rr_ClientEncryptionConfigured r))]
                     ++ opt_bytes "client_encryption_witness" (rr_ClientEncryptionWitness r)
                     ++ [(str "allow_unsigned_reference", JBool (rr_AllowUnsignedReference r));
                         (str "allow_custom_reference_verifier", JBool (rr_AllowCustomReferenceVerifier r));
                         (str "highest_revision", enc_uint (rr_HighestRevision r))]
                     ++ opt_field "committed" enc_nested (rr_Committed r)
                     ++ opt_field "pending" enc_nested (rr_Pending r));
  of_json j :=
    fs ← obj_fields j;
    f ← fld "format" fs dec_int 0;
    i ← fld "repository_id" fs dec_digest RepositoryID_zero;
    p ← fld "repository_prefix" fs dec_string [];
    s ← fld "share_id" fs dec_share ShareID_zero;
    k ← fld "root_key" fs dec_string [];
    q ← fld "reference_key" fs dec_string [];
    e ← fld "authorization_expires_at" fs dec_time Time_zero;
    d ← fld "root_capability_digest" fs dec_digest Digest_zero;
    c ← fld "client_encryption_configured" fs dec_bool false;
    w ← fld "client_encryption_witness" fs dec_bytes None;
    u ← fld "allow_unsigned_reference" fs dec_bool false;
    v ← fld "allow_custom_reference_verifier" fs dec_bool false;
    h ← fld "highest_revision" fs (dec_uint u64_max) 0%N;
    a ← fld "committed" fs dec_nested None;
    b ← fld "pending" fs dec_nested None;
    Some {| rr_Format := f; rr_RepositoryID := i; rr_RepositoryPrefix := p; rr_ShareID := s;
            rr_RootKey := k; rr_ReferenceKey := q; rr_AuthorizationExpiresAt := e;
            rr_RootCapabilityDigest := d; rr_ClientEncryptionConfigured := c;
            rr_ClientEncryptionWitness := w; rr_AllowUnsignedReference := u;
            rr_AllowCustomReferenceVerifier := v; rr_HighestRevision := h; rr_Committed := a;
            rr_Pending := b |};
  json_valid r := int_ok (rr_Format r) ∧ digest_wf (rr_RepositoryID r) ∧ utf8_ok (rr_RepositoryPrefix r) ∧
    share_wf (rr_ShareID r) ∧ utf8_ok (rr_RootKey r) ∧ utf8_ok (rr_ReferenceKey r) ∧
    Time_marshals (rr_AuthorizationExpiresAt r) = true ∧ digest_wf (rr_RootCapabilityDigest r) ∧
    rr_ClientEncryptionWitness r ≠ Some [] ∧ u64_ok (rr_HighestRevision r) ∧
    (∀ c, rr_Committed r = Some c → json_valid c) ∧ (∀ p, rr_Pending r = Some p → json_valid p);
}.

Lemma opt_string_wf k s : utf8_ok (str k) → utf8_ok s → Forall field_wf (opt_string k s).
Proof. intros Hk Hs. unfold opt_string. case_bool_decide; repeat constructor; done. Qed.
Lemma opt_bytes_wf k s : utf8_ok (str k) → Forall field_wf (opt_bytes k s).
Proof. intros Hk. unfold opt_bytes. case_bool_decide; repeat constructor; [done|apply enc_bytes_wf]. Qed.

#[export] Instance rootRecoveryCommitted_laws : JSONLaws rootRecoveryCommitted.
Proof.
  split.
  - intros [r l g c e v] (Hr & Hl & Hg & Hc & He & Hv).
    fields_wf; try done; try apply enc_digest_wf. by apply opt_string_wf; [vm_compute|].
  - intros [r l g c e v] (Hr & Hl & Hg & Hc & He & Hv). simpl in *. unfold opt_string.
    case_bool_decide as E; [subst v|]; by json_decode.
Qed.

#[export] Instance rootRecoveryPending_laws : JSONLaws rootRecoveryPending.
Proof.
  split.
  - intros [r a x e v b c t l g m] (Hr & He & Hv & Hb & Hc & Ht & Hl & Hg & Hm).
    fields_wf; try done; try apply enc_digest_wf; by apply opt_string_wf; [vm_compute|].
  - intros [r a x e v b c t l g m] (Hr & He & Hv & Hb & Hc & Ht & Hl & Hg & Hm). simpl in *. unfold opt_string.
    case_bool_decide as E; [subst e|]; (case_bool_decide as E'; [subst v|]); by json_decode.
Qed.

#[export] Instance rootRecoveryRecord_laws : JSONLaws rootRecoveryRecord.
Proof.
  split.
  - intros [f i p s k q e d c w u v h a b] (Hf & Hi & Hp & Hs & Hk & Hq & He & Hd & Hw & Hh & Ha & Hb).
    fields_wf; try done; try apply enc_digest_wf.
    + apply enc_share_wf.
    + by apply enc_time_wf.
    + by apply opt_bytes_wf; vm_compute.
    + intros x E. by apply (json_valid_wf (T:=rootRecoveryCommitted)), Ha.
    + intros x E. by apply (json_valid_wf (T:=rootRecoveryPending)), Hb.
  - intros [f i p s k q e d c w u v h a b] (Hf & Hi & Hp & Hs & Hk & Hq & He & Hd & Hw & Hh & Ha & Hb).
    cbn [rr_Format rr_RepositoryID rr_RepositoryPrefix rr_ShareID rr_RootKey rr_ReferenceKey
         rr_AuthorizationExpiresAt rr_RootCapabilityDigest rr_ClientEncryptionConfigured
         rr_ClientEncryptionWitness rr_AllowUnsignedReference rr_AllowCustomReferenceVerifier
         rr_HighestRevision rr_Committed rr_Pending] in *.
    assert (∀ x, a = Some x → dec_nested (enc_nested x) = Some (Some x)) as Ea
      by (intros x ->; apply dec_enc_nested; [by apply Ha|done]).
    assert (∀ x, b = Some x → dec_nested (enc_nested x) = Some (Some x)) as Eb
      by (intros x ->; apply dec_enc_nested; [by apply Hb|done]).
    assert (opt_bytes "client_encryption_witness" w =
            match w with Some _ => [(str "client_encryption_witness", enc_bytes w)] | None => [] end) as Ew.
    { unfold opt_bytes. destruct w as [[|x w]|]; [done|by rewrite bool_decide_false|done]. }
    unfold to_json, of_json, rootRecoveryRecord_json.
    cbn [rr_Format rr_RepositoryID rr_RepositoryPrefix rr_ShareID rr_RootKey rr_ReferenceKey
         rr_AuthorizationExpiresAt rr_RootCapabilityDigest rr_ClientEncryptionConfigured
         rr_ClientEncryptionWitness rr_AllowUnsignedReference rr_AllowCustomReferenceVerifier
         rr_HighestRevision rr_Committed rr_Pending].
    rewrite Ew. clear Ew Hw.
    destruct w as [w|], a as [a|], b as [b|]; cbv beta iota delta [obj_fields base.mbind option_bind];
      json_fields; cbv beta iota delta [dec_string dec_bool];
      rewrite dec_int_ok, !dec_digest_ok, dec_share_ok, dec_time_ok, dec_uint_ok, ?dec_bytes_ok,
        ?(Ea _ eq_refl), ?(Eb _ eq_refl) by done; done.
Qed.

(** ** Digests *)

Definition rootRecoveryWritePart (value : bytes) : bytes :=
  BigEndian_AppendUint64 [] (Z.to_N (len value)) ++ value.
Definition rootRecoveryDigest (kind : string) (value : bytes) : Digest :=
  sha256 (rootRecoveryDomain ++ rootRecoveryWritePart (str kind) ++ rootRecoveryWritePart value).

(** [t.Unix()] and [t.Nanosecond()] of an instant, which is in nanoseconds. *)
Definition ns_Unix (ns : Z) : Z := ns / second.
Definition ns_Nanosecond (ns : Z) : Z := ns mod second.

Definition closureDigestInput (closure : SnapshotClosure) : bytes :=
  let number n := rootRecoveryWritePart (BigEndian_AppendUint64 [] n) in
  rootRecoveryWritePart (str "closure")
  ++ number (sn_Generation (sc_Snapshot closure))
  ++ rootRecoveryWritePart (sn_Commit (sc_Snapshot closure))
  ++ rootRecoveryWritePart (sn_Root (sc_Snapshot closure))
  ++ number (uint64_of (ns_Unix (sn_PublishedAt (sc_Snapshot closure))))
  ++ number (uint64_of (ns_Nanosecond (sn_PublishedAt (sc_Snapshot closure))))
  ++ rootRecoveryWritePart (sc_ReferenceKey closure)
  ++ rootRecoveryWritePart (sc_ReferenceData closure)
  ++ rootRecoveryWritePart (v_ETag (sc_ReferenceVersion closure))
  ++ rootRecoveryWritePart (v_VersionID (sc_ReferenceVersion closure))
  ++ concat (map rootRecoveryWritePart (sc_ObjectKeys closure)).
Definition rootRecoveryClosureDigest (closure : SnapshotClosure) : Digest :=
  sha256 (closureDigestInput closure).

Definition rootCapabilityRecoveryDigest (capability : Capability) : result Digest :=
  bearer <-? result_wrap (λ _, [ErrRootRecoveryState]) (ExportBearer capability) ;;
  Ok (rootRecoveryDigest "root-capability" bearer).

(** The anonymous struct of the identity; an instant that does not marshal leaves
    no bytes. *)
Definition identityBytes (record : rootRecoveryRecord) : bytes :=
  if Time_marshals (rr_AuthorizationExpiresAt record) then
    print (JObj [(str "format", JNum (rr_Format record));
                 (str "repository_id", enc_digest (rr_RepositoryID record));
                 (str "repository_prefix", JStr (rr_RepositoryPrefix record));
                 (str "share_id", enc_share (rr_ShareID record));
                 (str "root_key", JStr (rr_RootKey record));
                 (str "reference_key", JStr (rr_ReferenceKey record));
                 (str "authorization_expires_at", enc_time (rr_AuthorizationExpiresAt record));
                 (str "root_capability_digest", enc_digest (rr_RootCapabilityDigest record));
                 (str "client_encryption_configured", JBool (rr_ClientEncryptionConfigured record));
                 (str "allow_unsigned_reference", JBool (rr_AllowUnsignedReference record));
                 (str "allow_custom_reference_verifier", JBool (rr_AllowCustomReferenceVerifier record))])
  else [].
Definition rootRecoveryIdentityDigest (record : rootRecoveryRecord) : Digest :=
  rootRecoveryDigest "identity" (identityBytes record).

(** ** Methods of the records *)

Definition expectedVersion (pending : rootRecoveryPending) : option Version :=
  if rg_ExpectedAbsent pending then None
  else Some {| v_ETag := rg_ExpectedETag pending; v_VersionID := rg_ExpectedVersionID pending |}.

Definition setExpected (version : Version) (base : bytes) (pending : rootRecoveryPending)
    : rootRecoveryPending :=
  {| rg_TargetRevision := rg_TargetRevision pending; rg_AllowCreate := rg_AllowCreate pending;
     rg_ExpectedAbsent := false; rg_ExpectedETag := v_ETag version;
     rg_ExpectedVersionID := v_VersionID version; rg_BaseDigest := rootRecoveryDigest "base" base;
     rg_ClosureDigest := rg_ClosureDigest pending; rg_TargetDigest := rg_TargetDigest pending;
     rg_LogicalTargetDigest := rg_LogicalTargetDigest pending;
     rg_ReferenceGeneration := rg_ReferenceGeneration pending;
     rg_ReferenceCommit := rg_ReferenceCommit pending |}.

(** The record with new progress: what an operation changes of it. *)
Definition with_progress (highest : N) (committed : option rootRecoveryCommitted)
    (pending : option rootRecoveryPending) (record : rootRecoveryRecord) : rootRecoveryRecord :=
  {| rr_Format := rr_Format record; rr_RepositoryID := rr_RepositoryID record;
     rr_RepositoryPrefix := rr_RepositoryPrefix record; rr_ShareID := rr_ShareID record;
     rr_RootKey := rr_RootKey record; rr_ReferenceKey := rr_ReferenceKey record;
     rr_AuthorizationExpiresAt := rr_AuthorizationExpiresAt record;
     rr_RootCapabilityDigest := rr_RootCapabilityDigest record;
     rr_ClientEncryptionConfigured := rr_ClientEncryptionConfigured record;
     rr_ClientEncryptionWitness := rr_ClientEncryptionWitness record;
     rr_AllowUnsignedReference := rr_AllowUnsignedReference record;
     rr_AllowCustomReferenceVerifier := rr_AllowCustomReferenceVerifier record;
     rr_HighestRevision := highest; rr_Committed := committed; rr_Pending := pending |}.

(** ** The journal's bytes *)

Definition validTarget (record : rootRecoveryRecord) (target : bytes) : bool :=
  match rr_Pending record with
  | None => len target =? 0
  | Some pending =>
      negb ((len target <? 1) || (rg_TargetDigest pending !=? rootRecoveryDigest "target" target))
  end.

(** The header, the metadata and the target. *)
Definition rootRecoveryFrame (metadata target : bytes) : bytes :=
  rootRecoveryMagic ++ BigEndian_PutUint16 (Z.to_N rootRecoveryFormatVersion)
  ++ BigEndian_PutUint16 0 ++ be32 (Z.to_N (len metadata))
  ++ BigEndian_AppendUint64 [] (Z.to_N (len target)) ++ metadata ++ target.
Arguments rootRecoveryFrame : simpl never.

Definition encodeRootRecoveryRecord (record : rootRecoveryRecord) (target : bytes) : result bytes :=
  guard_err (rr_Format record !=? rootRecoveryFormatVersion) [ErrRootRecoveryState] ?;;
  guard_err (negb (validTarget record target)
             || (if rr_Pending record is Some _ then maximumRootStoredTargetBytes <? len target else false))
            [ErrRootRecoveryState] ?;;
  guard_err (negb (Time_marshals (rr_AuthorizationExpiresAt record))) [ErrRootRecoveryState] ?;;
  let metadata := canonicalJSON record in
  guard_err ((len metadata <? 1) || (maximumRootRecoveryMetadataBytes <? len metadata))
            [ErrRootRecoveryState; ErrResourceLimit] ?;;
  Ok (rootRecoveryFrame metadata target).

(** The sum of the lengths is of uint64. *)
Definition decodeRootRecoveryRecord (encoded : bytes) : result (rootRecoveryRecord * bytes) :=
  guard_err (len encoded <? rootRecoveryHeaderBytes + 2) [ErrRootRecoveryState] ?;;
  guard_err (MaximumRootRecoveryJournalBytes <? len encoded) [ErrRootRecoveryState; ErrResourceLimit] ?;;
  guard_err ((sub encoded 0 rootRecoveryMagicBytes !=? rootRecoveryMagic)
             || (uint_at encoded rootRecoveryVersionOffset 2 !=? rootRecoveryFormatVersion)
             || (uint_at encoded rootRecoveryReservedOffset 2 !=? 0)) [ErrRootRecoveryState] ?;;
  let metadataLength := uint_at encoded rootRecoveryMetadataLengthOffset 4 in
  let targetLength := uint_at encoded rootRecoveryTargetLengthOffset 8 in
  guard_err ((metadataLength <? 2) || (maximumRootRecoveryMetadataBytes <? metadataLength)
             || (maximumRootStoredTargetBytes <? targetLength)
             || ((metadataLength + targetLength) mod 2 ^ 64 !=? len encoded - rootRecoveryHeaderBytes))
            [ErrRootRecoveryState] ?;;
  let metadataEnd := rootRecoveryHeaderBytes + metadataLength in
  match strictDecode (T:=rootRecoveryRecord) (sub encoded rootRecoveryHeaderBytes metadataEnd) with
  | None => Err [ErrRootRecoveryState]
  | Some record =>
      let target := drop (Z.to_nat metadataEnd) encoded in
      guard_err (rr_Format record !=? rootRecoveryFormatVersion) [ErrRootRecoveryState] ?;;
      guard_err (negb (validTarget record target)) [ErrRootRecoveryState] ?;;
      Ok (record, target)
  end.

(** ** Errors of the journal *)

Definition rootRecoveryJournalError (err : error) : error :=
  if errors_Is err CtxCanceled then [ErrRootRecoveryIndeterminate; CtxCanceled]
  else if errors_Is err CtxDeadlineExceeded then [ErrRootRecoveryIndeterminate; CtxDeadlineExceeded]
  else if errors_Is err ErrPrecondition then [ErrRootRecoveryState; ErrPrecondition]
  else if errors_Is err ErrResourceLimit then [ErrRootRecoveryState; ErrResourceLimit]
  else [ErrRootRecoveryIndeterminate].

(** What saveRootRecovery returns for a swap whose effect was not observed. *)
Definition saveError (err : error) : error :=
  if errors_Is err ErrPrecondition then [ErrRootPublishConflict]
  else if errors_Is err CtxCanceled then [ErrRootRecoveryIndeterminate; CtxCanceled]
  else if errors_Is err CtxDeadlineExceeded then [ErrRootRecoveryIndeterminate; CtxDeadlineExceeded]
  else [ErrRootRecoveryIndeterminate].

(** ** State of a recovery *)

Record loadedRootRecovery := {
  lr_record : rootRecoveryRecord;
  lr_target : bytes;
  lr_revision : SealedStateRevision;
  lr_found : bool;
}.

(** [ov_bundle] is not nil. *)
Record rootRecoveryObserved := {
  ov_raw : bytes;
  ov_version : Version;
  ov_bundle : Bundle;
  ov_logicalDigest : Digest;
}.

Definition committedRootFromObservation (observed : rootRecoveryObserved) : rootRecoveryCommitted :=
  {| rk_Revision := bd_revision (ov_bundle observed); rk_LogicalDigest := ov_logicalDigest observed;
     rk_ReferenceGeneration := bd_referenceGeneration (ov_bundle observed);
     rk_ReferenceCommit := bd_referenceCommit (ov_bundle observed);
     rk_ETag := v_ETag (ov_version observed); rk_VersionID := v_VersionID (ov_version observed) |}.

Definition equalCommittedRoot (left right : option rootRecoveryCommitted) : bool := left ==? right.

Definition validateObservationAgainstAnchor (record : rootRecoveryRecord) (observed : rootRecoveryObserved)
    : result unit :=
  match rr_Committed record with
  | None => Ok tt
  | Some committed =>
      let bundle := ov_bundle observed in
      guard_err (bd_revision bundle <? rk_Revision committed)%N [ErrRollbackDetected] ?;;
      if bd_revision bundle ==? rk_Revision committed then
        guard_err (ov_logicalDigest observed !=? rk_LogicalDigest committed) [ErrSplitBrain] ?;;
        guard_err ((bd_referenceGeneration bundle !=? rk_ReferenceGeneration committed)
                   || (bd_referenceCommit bundle !=? rk_ReferenceCommit committed)) [ErrRootRecoveryState]
      else
        guard_err (bd_referenceGeneration bundle <? rk_ReferenceGeneration committed)%N
                  [ErrRollbackDetected] ?;;
        guard_err ((bd_referenceGeneration bundle ==? rk_ReferenceGeneration committed)
                   && (bd_referenceCommit bundle !=? rk_ReferenceCommit committed)) [ErrSplitBrain]
  end.

Record RootRecoveryResult := {
  rs_HadPending : bool;
  rs_PendingCleared : bool;
  rs_RootFound : bool;
  rs_WroteRoot : bool;
  rs_Revision : N;
  rs_ReferenceGeneration : N;
  rs_ReferenceCommit : Digest;
  rs_Version : Version;
}.
Definition RootRecoveryResult_zero : RootRecoveryResult :=
  {| rs_HadPending := false; rs_PendingCleared := false; rs_RootFound := false; rs_WroteRoot := false;
     rs_Revision := 0; rs_ReferenceGeneration := 0; rs_ReferenceCommit := Digest_zero;
     rs_Version := {| v_ETag := []; v_VersionID := [] |} |}.
Definition rootRecoveryResultFromObservation (observed : rootRecoveryObserved) (hadPending wroteRoot : bool)
    : RootRecoveryResult :=
  {| rs_HadPending := hadPending; rs_PendingCleared := hadPending; rs_RootFound := true;
     rs_WroteRoot := wroteRoot; rs_Revision := bd_revision (ov_bundle observed);
     rs_ReferenceGeneration := bd_referenceGeneration (ov_bundle observed);
     rs_ReferenceCommit := bd_referenceCommit (ov_bundle observed); rs_Version := ov_version observed |}.

Section Recovery.
Context `{NetLibrary} `{AEAD} {S : Type} (publisher : RootPublisher).
Abbreviation P A := (M eff S A) (only parsing).

Definition verifierRepositoryID : RepositoryID :=
  match the (rt_verifier publisher) with
  | Some verifier => rv_RepositoryID (vv_verifier verifier) | None => RepositoryID_zero end.
Definition encrypts : bool := if rt_clientEncryption publisher is Some _ then true else false.

(** ** Targets *)

Definition initialRecord (capabilityDigest : Digest) (witness : slice byte) : rootRecoveryRecord :=
  {| rr_Format := rootRecoveryFormatVersion; rr_RepositoryID := verifierRepositoryID;
     rr_RepositoryPrefix := rt_repositoryPrefix publisher; rr_ShareID := rt_shareID publisher;
     rr_RootKey := rt_rootKey publisher; rr_ReferenceKey := rt_referenceKey publisher;
     rr_AuthorizationExpiresAt := Time_UTC (cap_expiresAt (rt_rootCapability publisher));
     rr_RootCapabilityDigest := capabilityDigest; rr_ClientEncryptionConfigured := encrypts;
     rr_ClientEncryptionWitness := witness;
     rr_AllowUnsignedReference := rt_dangerouslyAllowUnsignedReference publisher;
     rr_AllowCustomReferenceVerifier := rt_dangerouslyAllowCustomReferenceVerifier publisher;
     rr_HighestRevision := 0; rr_Committed := None; rr_Pending := None |}.

Definition newRootRecoveryRecord : P rootRecoveryRecord :=
  capabilityDigest <- mlift (rootCapabilityRecoveryDigest (rt_rootCapability publisher)) ;;
  let record := initialRecord capabilityDigest in
  match rt_clientEncryption publisher with
  | None => mret (record None)
  | Some profile =>
      witness <- mwrap (λ _, [ErrRootRecoveryState])
        (SealObject profile (rt_rootKey publisher) (rootRecoveryIdentityDigest (record None))) ;;
      mret (record (Some witness))
  end.

Definition sealRootStorageTarget (logical : bytes) : P bytes :=
  mguard ((len logical <? 1) || (MaximumBundleBytes <? len logical)) [ErrRootRecoveryState] ;;;
  match rt_clientEncryption publisher with
  | None => mret logical
  | Some profile => mwrap (λ _, [ErrRootRecoveryState]) (SealObject profile (rt_rootKey publisher) logical)
  end.

(** The bound of a stored root. *)
Definition storedMaximum : Z :=
  MaximumBundleBytes + (if encrypts then ClientEncryptionCiphertextOverhead else 0).

Definition openRootStorageTarget (target : bytes) : result bytes :=
  guard_err ((len target <? 1) || (storedMaximum <? len target)) [ErrResourceLimit] ?;;
  match rt_clientEncryption publisher with
  | None => Ok target
  | Some profile =>
      logical <-? OpenObject profile (rt_rootKey publisher) target ;;
      guard_err ((len logical <? 1) || (MaximumBundleBytes <? len logical)) [ErrResourceLimit] ?;;
      Ok logical
  end.

Definition decodeRootStorageTarget (target : bytes) : P (Bundle * Digest) :=
  logical <- mlift (openRootStorageTarget target) ;;
  bundle <- Decode logical (rt_verifier publisher) (rootDecodeOptions publisher) ;;
  mret (bundle, rootRecoveryDigest "logical-root" logical).

(** ** Validation *)

Definition identityMismatch (record : rootRecoveryRecord) (capabilityDigest : Digest) : bool :=
  (rr_Format record !=? rootRecoveryFormatVersion) || (rr_RepositoryID record !=? verifierRepositoryID)
  || (rr_RepositoryPrefix record !=? rt_repositoryPrefix publisher)
  || (rr_ShareID record !=? rt_shareID publisher)
  || (rr_RootKey record !=? rt_rootKey publisher)
  || (rr_ReferenceKey record !=? rt_referenceKey publisher)
  || (tm_ns (rr_AuthorizationExpiresAt record) !=? cap_expiresAt (rt_rootCapability publisher))
  || (rr_RootCapabilityDigest record !=? capabilityDigest)
  || (rr_ClientEncryptionConfigured record !=? encrypts)
  || (rr_AllowUnsignedReference record !=? rt_dangerouslyAllowUnsignedReference publisher)
  || (rr_AllowCustomReferenceVerifier record !=? rt_dangerouslyAllowCustomReferenceVerifier publisher).

Definition validateWitness (record : rootRecoveryRecord) : result unit :=
  let witness := els (rr_ClientEncryptionWitness record) in
  match rt_clientEncryption publisher with
  | None => guard_err (negb (len witness =? 0)) [ErrRootRecoveryState]
  | Some profile =>
      guard_err ((len witness <? 1) || (1024 <? len witness)) [ErrRootRecoveryState] ?;;
      match OpenObject profile (rt_rootKey publisher) witness with
      | Ok opened => guard_err (opened !=? rootRecoveryIdentityDigest record) [ErrRootRecoveryState]
      | Err _ => Err [ErrRootRecoveryState]
      end
  end.

Definition validateCommitted (record : rootRecoveryRecord) : result unit :=
  match rr_Committed record with
  | None => Ok tt
  | Some committed =>
      guard_err ((rk_Revision committed ==? 0%N) || Digest_IsZero (rk_LogicalDigest committed)
                 || (rk_ReferenceGeneration committed ==? 0%N)
                 || Digest_IsZero (rk_ReferenceCommit committed)
                 || negb (is_ok (validateRootVersion (committedVersion committed)))) [ErrRootRecoveryState]
  end.

Definition validatePending (record : rootRecoveryRecord) (pending : rootRecoveryPending) (target : bytes)
    : result unit :=
  guard_err ((rr_HighestRevision record ==? 0%N) || (rg_TargetRevision pending ==? 0%N)
             || (rg_TargetRevision pending !=? rr_HighestRevision record)
             || Digest_IsZero (rg_ClosureDigest pending) || Digest_IsZero (rg_TargetDigest pending)
             || Digest_IsZero (rg_LogicalTargetDigest pending)
             || (rg_ReferenceGeneration pending ==? 0%N) || Digest_IsZero (rg_ReferenceCommit pending)
             || (len target <? 1) || (maximumRootStoredTargetBytes <? len target)
             || (rg_AllowCreate pending !=? rg_ExpectedAbsent pending)) [ErrRootRecoveryState] ?;;
  match expectedVersion pending, rr_Committed record with
  | None, committed =>
      guard_err ((rg_TargetRevision pending !=? 1%N) || (committed !=? None)
                 || (rg_ExpectedETag pending !=? []) || (rg_ExpectedVersionID pending !=? [])
                 || negb (Digest_IsZero (rg_BaseDigest pending))) [ErrRootRecoveryState]
  | Some _, None => Err [ErrRootRecoveryState]
  | Some version, Some committed =>
      guard_err ((rk_Revision committed ==? u64_max)
                 || (rg_TargetRevision pending !=? (rk_Revision committed + 1)%N)
                 || negb (is_ok (validateRootVersion version)) || Digest_IsZero (rg_BaseDigest pending))
                [ErrRootRecoveryState] ?;;
      guard_err ((rg_ReferenceGeneration pending <? rk_ReferenceGeneration committed)%N
                 || ((rg_ReferenceGeneration pending ==? rk_ReferenceGeneration committed)
                     && (rg_ReferenceCommit pending !=? rk_ReferenceCommit committed)))
                [ErrRootRecoveryState]
  end.

(** Whether the bundle of a target is the one its record describes. *)
Definition describesTarget (pending : rootRecoveryPending) (bundle : Bundle) (logicalDigest : Digest) : bool :=
  (bd_revision bundle ==? rg_TargetRevision pending)
  && (bd_referenceGeneration bundle ==? rg_ReferenceGeneration pending)
  && (bd_referenceCommit bundle ==? rg_ReferenceCommit pending)
  && (logicalDigest ==? rg_LogicalTargetDigest pending).

Definition validateRootRecoveryRecord (record : rootRecoveryRecord) (target : bytes) : P unit :=
  wantCapabilityDigest <- mlift (rootCapabilityRecoveryDigest (rt_rootCapability publisher)) ;;
  mguard (identityMismatch record wantCapabilityDigest) [ErrRootRecoveryState] ;;;
  mlift (validateWitness record) ;;;
  match rr_Committed record, rr_Pending record with
  | None, None =>
      mguard ((rr_HighestRevision record !=? 0%N) || negb (len target =? 0)) [ErrRootRecoveryState]
  | committed, None =>
      mlift (validateCommitted record) ;;;
      mguard (negb (len target =? 0)
              || match committed with
                 | Some c => rr_HighestRevision record !=? rk_Revision c | None => true end)
             [ErrRootRecoveryState]
  | _, Some pending =>
      mlift (validateCommitted record) ;;;
      mlift (validatePending record pending target) ;;;
      r <- mtry (decodeRootStorageTarget target) ;;
      match r with
      | Err _ => mfail [ErrRootRecoveryState]
      | Ok (bundle, logicalDigest) =>
          mguard (negb (describesTarget pending bundle logicalDigest)
                  || (bd_authorizationExpiresAt bundle !=? tm_ns (rr_AuthorizationExpiresAt record)))
                 [ErrRootRecoveryState]
      end
  end.

(** ** The journal *)

Definition loadRootRecovery : P loadedRootRecovery :=
  ' (encoded, revision, found) <- mwrap rootRecoveryJournalError (mcallr (Share Recovery_Load)) ;;
  if negb found then
    mguard (negb (len encoded =? 0) || negb (Digest_IsZero revision)) [ErrRootRecoveryState] ;;;
    record <- newRootRecoveryRecord ;;
    mret {| lr_record := record; lr_target := []; lr_revision := Digest_zero; lr_found := false |}
  else
    mguard (Digest_IsZero revision || (len encoded <? 1) || (MaximumRootRecoveryJournalBytes <? len encoded))
           [ErrRootRecoveryState] ;;;
    ' (record, target) <- mlift (decodeRootRecoveryRecord encoded) ;;
    validateRootRecoveryRecord record target ;;;
    mret {| lr_record := record; lr_target := target; lr_revision := revision; lr_found := true |}.

(** Whether a load after a failed swap shows the bytes of the swap. *)
Definition observesSwap (encoded : bytes) (candidate : SealedStateRevision) (observed : loadedRootRecovery)
    : bool :=
  match encodeRootRecoveryRecord (lr_record observed) (lr_target observed) with
  | Ok observedEncoded =>
      (observedEncoded ==? encoded) && (Digest_IsZero candidate || (lr_revision observed ==? candidate))
  | Err _ => false
  end.

Definition saveRootRecovery (current : loadedRootRecovery) (next : rootRecoveryRecord) (target : bytes)
    : P loadedRootRecovery :=
  validateRootRecoveryRecord next target ;;;
  encoded <- mlift (encodeRootRecoveryRecord next target) ;;
  let expected := if lr_found current then Some (lr_revision current) else None in
  ' (candidate, casErr) <- mcall (Share (Recovery_CompareAndSwap expected encoded)) ;;
  match casErr with
  | None =>
      mguard (Digest_IsZero candidate) [ErrRootRecoveryState] ;;;
      mret {| lr_record := next; lr_target := target; lr_revision := candidate; lr_found := true |}
  | Some casErr =>
      observed <- mtry loadRootRecovery ;;
      match observed with
      | Ok observed => if observesSwap encoded candidate observed then mret observed else mfail (saveError casErr)
      | Err _ => mfail (saveError casErr)
      end
  end.

(** ** The root *)

Definition loadRootForRecovery : P (option rootRecoveryObserved) :=
  store <- publisherStore publisher ;;
  r <- mtry (sv_Get store (rt_rootKey publisher) {| go_IfNoneMatch := []; go_MaxBytes := storedMaximum |}) ;;
  match r with
  | Err err => if errors_Is err ErrObjectNotFound then mret None else mfail (safeRootStoreError err)
  | Ok object =>
      mlift (validateRootVersion (ob_Version object)) ;;;
      ' (bundle, logicalDigest) <- decodeRootStorageTarget (ob_Data object) ;;
      mret (Some {| ov_raw := ob_Data object; ov_version := ob_Version object; ov_bundle := bundle;
                    ov_logicalDigest := logicalDigest |})
  end.

Definition anchorRootObservation (current : loadedRootRecovery) (observed : rootRecoveryObserved)
    : P loadedRootRecovery :=
  let record := lr_record current in
  mlift (validateObservationAgainstAnchor record observed) ;;;
  let committed := committedRootFromObservation observed in
  if (if rr_Pending record is Some _ then false else true)
     && (rr_HighestRevision record ==? rk_Revision committed)
     && equalCommittedRoot (rr_Committed record) (Some committed)
  then mret current
  else saveRootRecovery current (with_progress (rk_Revision committed) (Some committed) None record) [].

(** ** Settling a pending operation

    Both loops compare an observed root with the pending target: it is the
    target, another encoding of its revision, a later revision, or an older
    one, which leaves the operation to do. *)
Inductive settlement := SettledTarget | SettledRevision | SettledLater | Unsettled.
#[export] Instance settlement_eq_dec : EqDecision settlement.
Proof. solve_decision. Defined.

Definition settles (recovery : loadedRootRecovery) (pending : rootRecoveryPending)
    (observed : rootRecoveryObserved) : result settlement :=
  if ov_raw observed ==? lr_target recovery then Ok SettledTarget
  else
    validateObservationAgainstAnchor (lr_record recovery) observed ?;;
    if bd_revision (ov_bundle observed) ==? rg_TargetRevision pending then
      guard_err (ov_logicalDigest observed !=? rg_LogicalTargetDigest pending) [ErrSplitBrain] ?;;
      Ok SettledRevision
    else if (rg_TargetRevision pending <? bd_revision (ov_bundle observed))%N then Ok SettledLater
    else Ok Unsettled.

(** The observed root is the base of the pending operation; its precondition is
    renewed when the base was stored again. *)
Definition rebase (recovery : loadedRootRecovery) (pending : rootRecoveryPending)
    (observed : rootRecoveryObserved) : P loadedRootRecovery :=
  let record := lr_record recovery in
  mguard (rg_ExpectedAbsent pending
          || match rr_Committed record with
             | None => true
             | Some committed => (bd_revision (ov_bundle observed) !=? rk_Revision committed)
                                 || (ov_logicalDigest observed !=? rk_LogicalDigest committed)
             end) [ErrRollbackDetected] ;;;
  if (rg_BaseDigest pending !=? rootRecoveryDigest "base" (ov_raw observed))
     || (rg_ExpectedETag pending !=? v_ETag (ov_version observed))
     || (rg_ExpectedVersionID pending !=? v_VersionID (ov_version observed))
  then saveRootRecovery recovery
         (with_progress (rr_HighestRevision record) (Some (committedRootFromObservation observed))
            (Some (setExpected (ov_version observed) (ov_raw observed) pending)) record)
         (lr_target recovery)
  else mret recovery.

(** The base of a pending operation, as the store has it now. *)
Definition preparePending (recovery : loadedRootRecovery) (pending : rootRecoveryPending)
    (observed : option rootRecoveryObserved) : P loadedRootRecovery :=
  match observed with
  | Some observed => rebase recovery pending observed
  | None => mguard (negb (rg_ExpectedAbsent pending)) [ErrRollbackDetected] ;;; mret recovery
  end.

Definition indeterminately {A} (ambiguousWriteClass : option error) (m : P A) : P A :=
  mwrap (λ err, rootPublishIndeterminateError ambiguousWriteClass [err]) m.

(** The context and the clock, at the head of a round and before a write. *)
Definition checkRound (ambiguousWriteClass : option error) : P unit :=
  unlessAmbiguous ambiguousWriteClass checkCtx ;;;
  unlessAmbiguous ambiguousWriteClass (checkAuthorization (rt_rootCapability publisher)).

(** The write of a pending target: the observation of what it installed, or the
    class with which the loop goes on. *)
Definition writePending (recovery : loadedRootRecovery) (pending : rootRecoveryPending)
    (targetBundle : Bundle) (writeAttempts : Z) (ambiguousWriteClass : option error)
    : P (sum rootRecoveryObserved (option error)) :=
  (if rt_maxAttempts publisher <=? writeAttempts then exhausted ambiguousWriteClass else mret tt) ;;;
  checkRound ambiguousWriteClass ;;;
  written <- mtry (writeRoot publisher (expectedVersion pending) (lr_target recovery)) ;;
  match written with
  | Ok version =>
      mret (inl {| ov_raw := []; ov_version := version; ov_bundle := targetBundle;
                   ov_logicalDigest := rg_LogicalTargetDigest pending |})
  | Err err =>
      if errors_Is err ErrPrecondition then mret (inr ambiguousWriteClass)
      else
        let ambiguousWriteClass := joinClass ambiguousWriteClass (safeRootStoreError err) in
        mguard (errors_Is err CtxCanceled) (rootPublishIndeterminateError ambiguousWriteClass [[CtxCanceled]]) ;;;
        mguard (errors_Is err CtxDeadlineExceeded)
               (rootPublishIndeterminateError ambiguousWriteClass [[CtxDeadlineExceeded]]) ;;;
        mret (inr ambiguousWriteClass)
  end.

(** ** RecoverPending *)

Definition recoverIdle (recovery : loadedRootRecovery) (hadPending : bool) : P RootRecoveryResult :=
  let record := lr_record recovery in
  observed <- loadRootForRecovery ;;
  checkCtx ;;;
  checkAuthorization (rt_rootCapability publisher) ;;;
  match observed with
  | None =>
      mguard ((if rr_Committed record is Some _ then true else false) || (rr_HighestRevision record !=? 0%N))
             [ErrRollbackDetected] ;;;
      mret RootRecoveryResult_zero
  | Some observed =>
      anchorRootObservation recovery observed ;;;
      mret (rootRecoveryResultFromObservation observed hadPending false)
  end.

(** The bundle of the pending target. *)
Definition authenticatePending (recovery : loadedRootRecovery) (pending : rootRecoveryPending) : P Bundle :=
  r <- mtry (decodeRootStorageTarget (lr_target recovery)) ;;
  match r with
  | Err _ => mfail [ErrRootRecoveryState]
  | Ok (bundle, logicalDigest) =>
      mguard (negb (describesTarget pending bundle logicalDigest)) [ErrRootRecoveryState] ;;;
      mret bundle
  end.

(** The pending operation of the record; without one, [k] is not reached. *)
Definition withPending {A} (recovery : loadedRootRecovery) (k : rootRecoveryPending → P A) : P A :=
  match rr_Pending (lr_record recovery) with Some pending => k pending | None => mfail errorText end.

(** [None] is a loop that still runs after [rounds] rounds. *)
Fixpoint recoverLoop (rounds : nat) (recovery : loadedRootRecovery) (hadPending : bool)
    (writeAttempts : Z) (ambiguousWriteClass : option error) : P (option RootRecoveryResult) :=
  match rounds with
  | O => mret None
  | Datatypes.S rounds =>
      checkRound ambiguousWriteClass ;;;
      match rr_Pending (lr_record recovery) with
      | None => result <- recoverIdle recovery hadPending ;; mret (Some result)
      | Some pending =>
          observed <- indeterminately ambiguousWriteClass loadRootForRecovery ;;
          indeterminately ambiguousWriteClass checkCtx ;;;
          indeterminately ambiguousWriteClass (checkAuthorization (rt_rootCapability publisher)) ;;;
          settled <- mlift (match observed with
                            | Some observed => settles recovery pending observed | None => Ok Unsettled end) ;;
          match observed, settled with
          | Some observed, (SettledTarget | SettledRevision | SettledLater) =>
              anchorRootObservation recovery observed ;;;
              mret (Some (rootRecoveryResultFromObservation observed true false))
          | _, _ =>
              recovery <- preparePending recovery pending observed ;;
              withPending recovery (λ pending,
                targetBundle <- authenticatePending recovery pending ;;
                written <- writePending recovery pending targetBundle writeAttempts ambiguousWriteClass ;;
                match written with
                | inl applied =>
                    anchorRootObservation recovery applied ;;;
                    mret (Some (rootRecoveryResultFromObservation applied true true))
                | inr ambiguousWriteClass =>
                    recoverLoop rounds recovery hadPending (writeAttempts + 1) ambiguousWriteClass
                end)
          end
      end
  end.

(** Every round that does not return makes a write, and the writes are
    counted. *)
Definition recoverPending : P (option RootRecoveryResult) :=
  recovery <- loadRootRecovery ;;
  mguard (negb (lr_found recovery)) [ErrRootRecoveryState] ;;;
  let hadPending := if rr_Pending (lr_record recovery) is Some _ then true else false in
  recoverLoop (Z.to_nat (rt_maxAttempts publisher) + 1) recovery hadPending 0 None.

(** ** Publishing through the journal *)

Definition validatePendingRootRequest (recovery : loadedRootRecovery) (closure : SnapshotClosure)
    (allowCreate : bool) : P Bundle :=
  match rr_Pending (lr_record recovery) with
  | None => mfail [ErrRootRecoveryState]
  | Some pending =>
      mguard ((rg_AllowCreate pending !=? allowCreate)
              || (rg_ClosureDigest pending !=? rootRecoveryClosureDigest closure)) [ErrRootRecoveryState] ;;;
      r <- mtry (decodeRootStorageTarget (lr_target recovery)) ;;
      match r with
      | Err _ => mfail [ErrRootRecoveryState]
      | Ok (bundle, logicalDigest) =>
          mguard (logicalDigest !=? rg_LogicalTargetDigest pending) [ErrRootRecoveryState] ;;;
          mguard (negb (rootBundleExactlyMatchesClosure bundle closure)) [ErrRootRecoveryState] ;;;
          mret bundle
      end
  end.

(** The record that journals a new root; [base] is the root it replaces. *)
Definition pendingFor (closure : SnapshotClosure) (allowCreate : bool) (targetRevision : N)
    (base : option rootRecoveryObserved) (logicalTarget target : bytes) : rootRecoveryPending :=
  let pending :=
    {| rg_TargetRevision := targetRevision; rg_AllowCreate := allowCreate;
       rg_ExpectedAbsent := if base is Some _ then false else true; rg_ExpectedETag := [];
       rg_ExpectedVersionID := []; rg_BaseDigest := Digest_zero;
       rg_ClosureDigest := rootRecoveryClosureDigest closure;
       rg_TargetDigest := rootRecoveryDigest "target" target;
       rg_LogicalTargetDigest := rootRecoveryDigest "logical-root" logicalTarget;
       rg_ReferenceGeneration := sn_Generation (sc_Snapshot closure);
       rg_ReferenceCommit := sn_Commit (sc_Snapshot closure) |} in
  match base with
  | Some observed => setExpected (ov_version observed) (ov_raw observed) pending
  | None => pending
  end.

(** The construction of a new target and its record in the journal. *)
Definition journalTarget (recovery : loadedRootRecovery) (closure : SnapshotClosure) (allowCreate : bool)
    (base : option rootRecoveryObserved) : P loadedRootRecovery :=
  mguard (negb (CanBuildNewRoot publisher)) [ErrRootBuildAuthorityRequired] ;;;
  let targetRevision := match base with Some o => (bd_revision (ov_bundle o) + 1)%N | None => 1%N end in
  logicalTarget <- BuildSnapshotBundle (rootInput publisher closure targetRevision)
                     (rt_signer publisher) (rt_verifier publisher) ;;
  target <- sealRootStorageTarget logicalTarget ;;
  let record := lr_record recovery in
  saveRootRecovery recovery
    (with_progress targetRevision (rr_Committed record)
       (Some (pendingFor closure allowCreate targetRevision base logicalTarget target)) record) target.

(** A round without a pending operation: a publication, or the journaled one. *)
Definition publishIdle (recovery : loadedRootRecovery) (closure : SnapshotClosure) (allowCreate : bool)
    : P (sum RootPublication loadedRootRecovery) :=
  let record := lr_record recovery in
  observed <- loadRootForRecovery ;;
  match observed with
  | None =>
      mguard ((if rr_Committed record is Some _ then true else false) || (rr_HighestRevision record !=? 0%N)
              || negb allowCreate) [ErrRollbackDetected] ;;;
      recovery <- journalTarget recovery closure allowCreate None ;;
      mret (inr recovery)
  | Some observed =>
      recovery <- anchorRootObservation recovery observed ;;
      let bundle := ov_bundle observed in
      if rootBundleExactlyMatchesClosure bundle closure
      then mret (inl (publication (bd_revision bundle) closure (ov_version observed) false))
      else
        mlift (advances bundle closure allowCreate) ;;;
        recovery <- journalTarget recovery closure allowCreate (Some observed) ;;
        mret (inr recovery)
  end.

(** What a settled operation means for the request. *)
Definition publishSettled (recovery : loadedRootRecovery) (pending : rootRecoveryPending)
    (observed : rootRecoveryObserved) (settled : settlement) (closure : SnapshotClosure) (allowCreate : bool)
    : P (sum RootPublication loadedRootRecovery) :=
  anchored <- anchorRootObservation recovery observed ;;
  let bundle := ov_bundle observed in
  if rootBundleExactlyMatchesClosure bundle closure then
    mret (inl (publication (match settled with
                            | SettledTarget | SettledRevision => rg_TargetRevision pending
                            | _ => bd_revision bundle
                            end) closure (ov_version observed)
                 (match settled with SettledTarget => true | _ => false end)))
  else
    match settled with
    | SettledLater =>
        mguard allowCreate [ErrRootPublishConflict] ;;;
        mguard (sn_Generation (sc_Snapshot closure) <? bd_referenceGeneration bundle)%N [ErrRollbackDetected] ;;;
        mguard ((sn_Generation (sc_Snapshot closure) ==? bd_referenceGeneration bundle)
                && (sn_Commit (sc_Snapshot closure) !=? bd_referenceCommit bundle)) [ErrSplitBrain] ;;;
        mret (inr anchored)
    | _ => mret (inr anchored)
    end.

(** [None] is a loop that still runs after [rounds] rounds. *)
Fixpoint publishRounds (rounds : nat) (recovery : loadedRootRecovery) (closure : SnapshotClosure)
    (allowCreate : bool) (writeAttempts : Z) (ambiguousWriteClass : option error)
    : P (option RootPublication) :=
  match rounds with
  | O => mret None
  | Datatypes.S rounds =>
      checkRound ambiguousWriteClass ;;;
      match rr_Pending (lr_record recovery) with
      | None =>
          idle <- publishIdle recovery closure allowCreate ;;
          match idle with
          | inl result => mret (Some result)
          | inr recovery => publishRounds rounds recovery closure allowCreate writeAttempts ambiguousWriteClass
          end
      | Some pending =>
          observed <- indeterminately ambiguousWriteClass loadRootForRecovery ;;
          settled <- mlift (match observed with
                            | Some observed => settles recovery pending observed | None => Ok Unsettled end) ;;
          match observed, settled with
          | Some observed, (SettledTarget | SettledRevision | SettledLater) =>
              outcome <- publishSettled recovery pending observed settled closure allowCreate ;;
              match outcome with
              | inl result => mret (Some result)
              | inr recovery => publishRounds rounds recovery closure allowCreate writeAttempts ambiguousWriteClass
              end
          | _, _ =>
              recovery <- preparePending recovery pending observed ;;
              targetBundle <- validatePendingRootRequest recovery closure allowCreate ;;
              withPending recovery (λ pending,
                written <- writePending recovery pending targetBundle writeAttempts ambiguousWriteClass ;;
                match written with
                | inl applied =>
                    anchorRootObservation recovery applied ;;;
                    mret (Some (publication (rg_TargetRevision pending) closure (ov_version applied) true))
                | inr ambiguousWriteClass =>
                    publishRounds rounds recovery closure allowCreate (writeAttempts + 1) ambiguousWriteClass
                end)
          end
      end
  end.

Definition publishRecoverable (rounds : nat) (closure : SnapshotClosure) (allowCreate : bool)
    : P (option RootPublication) :=
  recovery <- loadRootRecovery ;;
  publishRounds rounds recovery closure allowCreate 0 None.

(** ** Entry points *)

(** The gate is taken, and given back on every return. *)
Definition gated {A} (m : P A) : P A :=
  mcalle (Share Root_Gate) ;;;
  result <- mtry (checkCtx ;;; checkAuthorization (rt_rootCapability publisher) ;;; m) ;;
  mcall (Share Root_Gate_Release) ;;;
  mlift result.

Definition publish (rounds : nat) (closure : SnapshotClosure) (allowCreate : bool)
    : P (option RootPublication) :=
  checkCtx ;;;
  mguard (negb (RootPublisher_configured publisher)) [ErrStoreMisconfigured] ;;;
  checkAuthorization (rt_rootCapability publisher) ;;;
  mlift (ValidateResolvedForClientEncryption closure (rt_clientEncryption publisher)) ;;;
  mguard (sc_ReferenceKey closure !=? rt_referenceKey publisher) [ErrInvalidBundle] ;;;
  gated (if RecoveryEnabled publisher then publishRecoverable rounds closure allowCreate
         else result <- publishLoop publisher (Z.to_nat (rt_maxAttempts publisher)) closure allowCreate None ;;
              mret (Some result)).
Definition Create (rounds : nat) (closure : SnapshotClosure) : P (option RootPublication) :=
  publish rounds closure true.
Definition Update (rounds : nat) (closure : SnapshotClosure) : P (option RootPublication) :=
  publish rounds closure false.

(** The guards of the methods that need the journal and an exact-GET root. *)
Definition requireRecovery : P unit :=
  checkCtx ;;;
  mguard (negb (rt_gate publisher) || negb (Capability_Configured (rt_rootCapability publisher))
          || (cap_provenance (rt_rootCapability publisher) !=? capabilityProvenanceExactGET)
          || negb (interfaceDependencyConfigured (rt_store publisher))
          || negb (interfaceDependencyConfigured (rt_verifier publisher))) [ErrStoreMisconfigured] ;;;
  mguard (negb (RecoveryEnabled publisher)) [ErrRootRecoveryState] ;;;
  checkAuthorization (rt_rootCapability publisher).

Definition checkAuthorized : P unit :=
  checkCtx ;;; checkAuthorization (rt_rootCapability publisher).

Definition PrepareRecovery : P unit :=
  requireRecovery ;;;
  gated (
    loaded <- loadRootRecovery ;;
    checkAuthorized ;;;
    if lr_found loaded then mret tt
    else
      prepared <- mtry (saveRootRecovery loaded (lr_record loaded) []) ;;
      match prepared with
      | Ok _ => checkAuthorized
      | Err err =>
          if errors_Is err ErrRootPublishConflict then
            observed <- loadRootRecovery ;;
            checkAuthorized ;;;
            if lr_found observed then mret tt else mfail err
          else mfail err
      end).

Definition RecoverPending : P (option RootRecoveryResult) :=
  requireRecovery ;;;
  gated recoverPending.
End Recovery.

(** ** Restoring a publisher *)

Section Restore.
Context `{NetLibrary} `{AEAD} {S : Type}.

(** The publisher with exact-GET provenance. *)
Definition promote (publisher : RootPublisher) : RootPublisher :=
  let c := rt_rootCapability publisher in
  {| rt_store := rt_store publisher; rt_rootKey := rt_rootKey publisher;
     rt_rootCapability := {| cap_rawURL := cap_rawURL c; cap_headers := cap_headers c;
                             cap_expiresAt := cap_expiresAt c; cap_origin := cap_origin c;
                             cap_exactKey := cap_exactKey c;
                             cap_provenance := capabilityProvenanceExactGET |};
     rt_repositoryPrefix := rt_repositoryPrefix publisher; rt_referenceKey := rt_referenceKey publisher;
     rt_shareID := rt_shareID publisher; rt_presigner := rt_presigner publisher;
     rt_signer := rt_signer publisher; rt_verifier := rt_verifier publisher;
     rt_clientEncryption := rt_clientEncryption publisher; rt_maxAttempts := rt_maxAttempts publisher;
     rt_allowInsecureLoopback := rt_allowInsecureLoopback publisher;
     rt_dangerouslyAllowCustomReferenceVerifier := rt_dangerouslyAllowCustomReferenceVerifier publisher;
     rt_dangerouslyAllowUnsignedReference := rt_dangerouslyAllowUnsignedReference publisher;
     rt_recoveryJournal := rt_recoveryJournal publisher; rt_gate := rt_gate publisher |}.

Definition RestoreRootPublisher (config : RootPublisherConfig) : M eff S RootPublisher :=
  checkCtx ;;;
  mguard (negb (interfaceDependencyConfigured (rc_RecoveryJournal config))) [ErrRootRecoveryState] ;;;
  mguard (cap_provenance (rc_RootCapability config) !=? capabilityProvenanceImportedBearer)
         [ErrRootRecoveryState] ;;;
  mguard (match the (rc_Verifier config) with
          | Some verifier => negb (IsOfflineReferenceVerifier verifier) | None => true end)
         [ErrUntrustedBundle] ;;;
  publisher <- newRootPublisher config true ;;
  loaded <- loadRootRecovery publisher ;;
  mguard (negb (lr_found loaded)) [ErrRootRecoveryState] ;;;
  checkAuthorized publisher ;;;
  mret (promote publisher).

(** ** Published snapshots *)

Definition safePublishedSnapshotErrors : list sentinel :=
  [CtxCanceled; CtxDeadlineExceeded; ErrObjectNotFound; ErrNotModified; ErrAccessDenied; ErrRateLimited;
   ErrStoreUnavailable; ErrStoreMisconfigured; ErrBucketNotFound; ErrStoreIncompatible;
   ErrStoreOperationUnsupported; ErrResourceLimit; ErrCorruptObject; ErrUntrustedReference;
   ErrRollbackDetected; ErrSplitBrain; ErrInvalidSnapshotClosure].
Definition safePublishedSnapshotError (err : error) : error :=
  firstSentinel safePublishedSnapshotErrors ErrStoreUnavailable err.

Definition samePublishedSnapshot (observed expected : Snapshot) : bool :=
  (sn_Generation observed ==? sn_Generation expected) && (sn_Commit observed ==? sn_Commit expected)
  && (sn_Root observed ==? sn_Root expected) && (sn_PublishedAt observed =? sn_PublishedAt expected).

Definition resolvePublishedSnapshot `{Chunker} (publisher : RootPublisher) (repository : option Repository)
    (channel : bytes) (expected : Snapshot) : M eff S SnapshotClosure :=
  match the (rt_verifier publisher) with
  | None => mfail [ErrStoreMisconfigured]
  | Some verifier =>
      checkCtx ;;;
      match repository with
      | None => mfail [ErrStoreMisconfigured]
      | Some repository =>
          mguard ((sn_Generation expected ==? 0%N) || Digest_IsZero (sn_Commit expected)
                  || Digest_IsZero (sn_Root expected) || ns_IsZero (sn_PublishedAt expected))
                 [ErrInvalidBundle] ;;;
          mguard (SignedReferenceKey repository channel !=? rt_referenceKey publisher) [ErrInvalidBundle] ;;;
          closure <- mwrap safePublishedSnapshotError
            (ResolveSnapshotClosure (Some repository) channel
               {| sco_ReferenceVerifier := Some (vv_verifier verifier);
                  sco_MaxObjects := MaximumBundleCapabilities; sco_MaxEdges := 0;
                  sco_MaxMetadataBytes := 0 |}) ;;
          mguard (negb (samePublishedSnapshot (sc_Snapshot closure) expected)) [ErrPublishConflict] ;;;
          mret closure
      end
  end.

Definition CreatePublishedSnapshot `{Chunker} (rounds : nat) (publisher : RootPublisher)
    (repository : option Repository) (channel : bytes) (expected : Snapshot)
    : M eff S (option RootPublication) :=
  closure <- resolvePublishedSnapshot publisher repository channel expected ;;
  Create publisher rounds closure.
Definition UpdatePublishedSnapshot `{Chunker} (rounds : nat) (publisher : RootPublisher)
    (repository : option Repository) (channel : bytes) (expected : Snapshot)
    : M eff S (option RootPublication) :=
  closure <- resolvePublishedSnapshot publisher repository channel expected ;;
  Update publisher rounds closure.
End Restore.
