(* ===== verification/Reader.v ===== *)
(** * Lazy reads ([consumer.go])

    Path resolution, metadata calls and file reads of a consumer.  A path is
    resolved in the snapshot that is in view when the call starts; a file handle
    pins its manifest.  Chunks come from the cache or the store, and are checked
    against the digest and the size in the manifest before they are used. *)

From S2P Require Import Prelude.
From S2P Require Import Prog.
From S2P Require Import GoStd.
From S2P Require Import Encoding.
From S2P Require Import Sha256.
From S2P Require Import Json.
From S2P Require Import Model.
From S2P Require Import Manifests.
From S2P Require Import Effects.
From S2P Require Import Trust.
From S2P Require Import MemStore.
From S2P Require Import ClientEncryption.
From S2P Require Import Repository.
From S2P Require Import Ancestry.
From S2P Require Import Consumer.
From S2P Require Import ConsumerProofs.

Record resolvedEntry := {
  re_entry : dirEntry;
  re_generation : N;
  re_isRoot : bool;
}.

(** [sort.Search] over the names, then the comparison. *)
Definition lookupEntry (directory : dirManifest) (component : bytes) : option dirEntry :=
  let entries := els (dm_Entries directory) in
  let position := sort_Search (len entries) (λ i,
    match entries !! Z.to_nat i with
    | Some e => match bytes_Compare (els (de_Name e)) component with Lt => false | _ => true end
    | None => true
    end) in
  match entries !! Z.to_nat position with
  | Some e => if els (de_Name e) ==? component then Some e else None
  | None => None
  end.

Definition publicEntry (name : bytes) (entry : dirEntry) : Entry :=
  {| en_Name := name; en_Type := de_Type entry; en_Size := de_Size entry;
     en_Mode := readonlyMode (de_Mode entry); en_ModTime := de_ModTimeUnixNano entry |}.

(** A file handle; its consumer is the receiver of the methods. *)
Record File := {
  fl_manifest : fileManifest;
  fl_generation : N;
}.
Definition File_Size (file : File) : Z := fm_Size (fl_manifest file).
Definition File_Generation (file : File) : N := fl_generation file.

Definition min64 (left right : Z) : Z := if left <? right then left else right.
Definition max64 (left right : Z) : Z := if right <? left then left else right.

Section Reader.
Context `{AEAD} `{Chunker}.
Variable consumer : Consumer.
Abbreviation C := (M eff ConsumerState) (only parsing).

Definition snapshotRoot : C (Digest * N) :=
  s <- mget ;;
  match cs_state s with
  | None => mfail [ErrNoSnapshot]
  | Some a => mret (cm_Root (as_commit a), sr_Generation (as_reference a))
  end.

(** The entry of the root directory, which no manifest holds. *)
Definition rootEntry (root : Digest) : dirEntry :=
  {| de_Name := None; de_Type := EntryDir; de_Node := root;
     de_Mode := 0x16d; de_Size := 0; de_ModTimeUnixNano := 0 |}.

(** The loop of resolve, from a directory. *)
Fixpoint resolveFrom (directoryDigest : Digest) (components : list bytes) : C dirEntry :=
  match components with
  | [] => mfail errorText
  | component :: rest =>
      directory <- loadDirectory consumer directoryDigest ;;
      match lookupEntry directory component with
      | None => mfail [ErrPathNotFound]
      | Some entry =>
          match rest with
          | [] => mret entry
          | _ =>
              mguard (de_Type entry !=? EntryDir) [ErrNotDirectory] ;;;
              resolveFrom (de_Node entry) rest
          end
      end
  end.

Definition resolve (value : bytes) : C resolvedEntry :=
  components <- mlift (cleanLookupPath value) ;;
  ' (root, generation) <- snapshotRoot ;;
  match components with
  | [] => mret {| re_entry := rootEntry root; re_generation := generation; re_isRoot := true |}
  | _ =>
      entry <- resolveFrom root components ;;
      mret {| re_entry := entry; re_generation := generation; re_isRoot := false |}
  end.

Definition Stat (value : bytes) : C Entry :=
  resolved <- resolve value ;;
  let name := if re_isRoot resolved then [] else els (de_Name (re_entry resolved)) in
  mret (publicEntry name (re_entry resolved)).

Definition ListDir (value : bytes) : C (list Entry) :=
  resolved <- resolve value ;;
  mguard (de_Type (re_entry resolved) !=? EntryDir) [ErrNotDirectory] ;;;
  directory <- loadDirectory consumer (de_Node (re_entry resolved)) ;;
  mret (map (λ entry, publicEntry (els (de_Name entry)) entry) (els (dm_Entries directory))).

Definition Open (value : bytes) : C File :=
  resolved <- resolve value ;;
  let entry := re_entry resolved in
  mguard (de_Type entry ==? EntryDir) [ErrIsDirectory] ;;;
  mguard (de_Type entry !=? EntryFile) [ErrUnsupportedType] ;;;
  manifest <- loadFile consumer (de_Node entry) ;;
  mguard (fm_Size manifest !=? de_Size entry) [ErrCorruptObject] ;;;
  mret {| fl_manifest := manifest; fl_generation := re_generation resolved |}.

Definition Readlink (value : bytes) : C bytes :=
  resolved <- resolve value ;;
  let entry := re_entry resolved in
  mguard (de_Type entry !=? EntrySymlink) [ErrUnsupportedType] ;;;
  manifest <- loadSymlink consumer (de_Node entry) ;;
  let target := els (sm_Target manifest) in
  mguard (len target !=? de_Size entry) [ErrCorruptObject] ;;;
  match cn_symlinkPolicy consumer with
  | SymlinkRejectExternal =>
      components <- mlift (cleanLookupPath value) ;;
      mlift (validateSafeSymlink (Join [slash] components) target)
  | SymlinkPreserve => mret tt
  end ;;;
  mret target.

(** *** Chunks *)

(** The cached chunk, and the cache errors that are only reported. *)
Definition getCachedChunk (digest : Digest) (expectedSize : Z) : C (option bytes * list error) :=
  if negb (cn_cache consumer) then mret (None, [])
  else
    got <- mtry (mcallr (Cache_Get digest expectedSize)) ;;
    match got with
    | Err err =>
        if errors_Is err ErrCorruptObject || cn_strictCacheErrors consumer then mfail err
        else mret (None, [err])
    | Ok None => mret (None, [])
    | Ok (Some data) =>
        mguard (len data !=? expectedSize) [ErrCorruptObject] ;;;
        mguard (digestObject (str "chunk") data !=? digest) [ErrCorruptObject] ;;;
        mret (Some data, [])
    end.

(** The loader of a chunk flight after its resources were acquired: the data or
    the error, with the cache errors collected on the way. *)
Definition loadChunk (digest : Digest) (expectedSize : Z) : C (result bytes * list error) :=
  got <- mtry (getCachedChunk digest expectedSize) ;;
  match got with
  | Err err => mret (Err err, [])
  | Ok (Some data, errs) => mret (Ok data, errs)
  | Ok (None, errs) =>
      fetched <- mtry (getImmutableExact (cn_repository consumer) (str "chunk") digest expectedSize) ;;
      match fetched with
      | Err err => mret (Err err, errs)
      | Ok data =>
          if cn_cache consumer then
            put <- mtry (mcalle (Cache_Put digest data)) ;;
            match put with
            | Ok _ => mret (Ok data, errs)
            | Err err =>
                if cn_strictCacheErrors consumer then mret (Err err, errs)
                else mret (Ok data, errs ++ [err])
            end
          else mret (Ok data, errs)
      end
  end.

(** The loader: on success the reservation passes to the flight, on failure it
    is released here. *)
Definition chunkLoader (digest : Digest) (expectedSize : Z) : C (result bytes * list error) :=
  acquired <- mtry (acquireDownload expectedSize) ;;
  match acquired with
  | Err err => mret (Err err, [])
  | Ok _ =>
      ' (r, errs) <- loadChunk digest expectedSize ;;
      match r with
      | Ok _ => mret (r, errs)
      | Err _ => releaseDownload expectedSize ;;; mret (r, errs)
      end
  end.

(** [chunkFlight.Do] with that loader; the answer is the leased data. *)
Definition getChunk (digest : Digest) (expectedSize : Z) : C bytes :=
  mguard ((expectedSize <? 1) || (maxChunkObjectBytes <? expectedSize)) [ErrCorruptObject] ;;;
  checkCtx ;;;
  joined <- mcall (Chunk_Flight digest expectedSize) ;;
  match joined with
  | Some r => mlift r
  | None =>
      ' (r, errs) <- chunkLoader digest expectedSize ;;
      mcalle (Chunk_Done digest expectedSize r errs) ;;;
      mlift r
  end.

(** A slice [data[start:end]]; out of range is a panic in Go, here a failure
    that valid manifests exclude (see [copy_in_range]). *)
Definition slice_of (data : bytes) (start end_ : Z) : result bytes :=
  guard_err ((start <? 0) || (end_ <? start) || (len data <? end_)) errorText ?;;
  Ok (take (Z.to_nat (end_ - start)) (drop (Z.to_nat start) data)).

Definition copyRange (data : bytes) (room : Z) (chunk : chunkRef) (offset limit : Z) : result bytes :=
  let start := max64 offset (cr_Offset chunk) - cr_Offset chunk in
  let end_ := min64 limit (int64_wrap (cr_Offset chunk + cr_Size chunk)) - cr_Offset chunk in
  piece <-? slice_of data start end_ ;;
  Ok (take (Z.to_nat room) piece).

(** The bytes copied into the [room] bytes left of the destination; the lease
    is released on every path. *)
Definition copyChunkLease (data : bytes) (room : Z) (chunk : chunkRef) (offset limit : Z) : C bytes :=
  r <- mtry (
    mguard (len data !=? cr_Size chunk) [ErrCorruptObject] ;;;
    checkCtx ;;;
    mlift (copyRange data room chunk offset limit)) ;;
  mcall (Chunk_Release (cr_Digest chunk) (cr_Size chunk)) ;;;
  mlift r.

(** The loop of ReadAtContext over the chunks from the index on; [done_] are the
    bytes copied so far.  A (count, err) pair, the count being the length of
    the bytes. *)
Fixpoint readChunks (chunks : list chunkRef) (size : Z) (done_ : bytes) (offset limit : Z)
    : C (bytes * option error) :=
  let finish :=
    mret (done_, if len done_ <? size then Some [IoEOF] else None) in
  match chunks with
  | [] => finish
  | chunk :: chunks =>
      if offset <? limit then
        step <- mtry (
          checkCtx ;;;
          lease <- getChunk (cr_Digest chunk) (cr_Size chunk) ;;
          copyChunkLease lease (size - len done_) chunk offset limit) ;;
        match step with
        | Err err => mret (done_, Some err)
        | Ok copied =>
            readChunks chunks size (done_ ++ copied) (int64_wrap (offset + len copied)) limit
        end
      else finish
  end.

(** [size] is the length of the destination. *)
Definition ReadAtContext (file : File) (size offset : Z) : C (bytes * option error) :=
  let manifest := fl_manifest file in
  let chunks := els (fm_Chunks manifest) in
  if offset <? 0 then mret ([], Some errorText)
  else if size =? 0 then mret ([], None)
  else if fm_Size manifest <=? offset then mret ([], Some [IoEOF])
  else
    let limit := int64_wrap (offset + size) in
    let limit := if (limit <? offset) || (fm_Size manifest <? limit) then fm_Size manifest else limit in
    let index := sort_Search (len chunks) (λ i,
      match chunks !! Z.to_nat i with
      | Some c => offset <? int64_wrap (cr_Offset c + cr_Size c)
      | None => true
      end) in
    readChunks (drop (Z.to_nat index) chunks) size [] offset limit.

Definition reportCacheError (err : error) : C unit :=
  if cn_onCacheError consumer then mcall (OnCacheError err) else mret tt.
End Reader.

(** ** Lookup *)

Lemma entries_lookup_mono (entries : list dirEntry) component a b :
  StronglySorted name_lt entries → (0 ≤ a ≤ b) → b < len entries →
  let f i := match entries !! Z.to_nat i with
    | Some e => match bytes_Compare (els (de_Name e)) component with Lt => false | _ => true end
    | None => true
    end in
  f a = true → f b = true.
Proof.
  intros Hs Hab Hb f. subst f. simpl.
  destruct (entries !! Z.to_nat a) as [ea|] eqn:Ea;
    [|apply lookup_ge_None in Ea; unfold len in *; lia].
  destruct (entries !! Z.to_nat b) as [eb|] eqn:Eb; [|done].
  destruct (decide (a = b)) as [->|Hne]; [rewrite Ea in Eb; by injection Eb as ->|].
  assert (bytes_lt (els (de_Name ea)) (els (de_Name eb))) as Hlt.
  { apply (sorted_lookup name_lt entries (Z.to_nat a) (Z.to_nat b)); [done|lia|done|done]. }
  intros Hf. destruct (bytes_Compare (els (de_Name eb)) component) eqn:Ec; try done.
  by rewrite (bytes_lt_trans _ _ _ Hlt Ec) in Hf.
Qed.

(** Binary search finds the entry of a name, if there is one. *)
Lemma lookupEntry_ok m component e :
  directory_ok m →
  lookupEntry m component = Some e ↔ e ∈ els (dm_Entries m) ∧ entry_name e = component.
Proof.
  intros (_ & _ & _ & Hs). unfold lookupEntry. set (entries := els (dm_Entries m)) in *.
  set (f := λ i : Z, _). destruct (sort_Search_spec (len entries) f) as (Hr & Hlo & Hhi).
  { apply len_nonneg. }
  { intros a b. by apply entries_lookup_mono. }
  set (r := sort_Search (len entries) f) in *. split.
  - destruct (entries !! Z.to_nat r) as [e'|] eqn:Er; [|done]. case_bool_decide; [|done].
    intros [= ->]. split; [by eapply list_elem_of_lookup_2|done].
  - intros [He Hn]. apply list_elem_of_lookup_1 in He as [k Hk].
    assert (Z.of_nat k < len entries) as Hlen.
    { apply lookup_lt_Some in Hk. unfold len. lia. }
    assert (f (Z.of_nat k) = true) as Hfk.
    { unfold f. rewrite Nat2Z.id, Hk. unfold entry_name in Hn. rewrite Hn.
      by rewrite (proj2 (bytes_Compare_eq component component)). }
    assert (r = Z.of_nat k) as ->.
    { destruct (Z.lt_trichotomy r (Z.of_nat k)) as [Hlt|[E|Hgt]]; [|done|].
      - exfalso. assert (f r = true) as Hfr by (apply Hhi; lia). unfold f in Hfr.
        destruct (entries !! Z.to_nat r) as [er|] eqn:Er;
          [|apply lookup_ge_None in Er; unfold len in *; lia].
        assert (name_lt er e) as Hne.
        { apply (sorted_lookup name_lt entries (Z.to_nat r) k); [done|lia|done|done]. }
        unfold name_lt, bytes_lt, entry_name in *. by rewrite Hn in Hne; rewrite Hne in Hfr.
      - rewrite Hlo in Hfk; [done|lia]. }
    rewrite Nat2Z.id, Hk. unfold entry_name in Hn. by rewrite bool_decide_eq_true_2.
Qed.

Lemma lookupEntry_none m component :
  directory_ok m →
  lookupEntry m component = None ↔ ∀ e, e ∈ els (dm_Entries m) → entry_name e ≠ component.
Proof.
  intros Hm. split.
  - intros Hn e He Hc. pose proof (proj2 (lookupEntry_ok m component e Hm) (conj He Hc)). congruence.
  - intros Hall. destruct (lookupEntry m component) as [e|] eqn:E; [|done].
    apply lookupEntry_ok in E as [He Hc]; [|done]. by destruct (Hall e He).
Qed.

(** ** Paths in a snapshot *)

Section Snapshot.
Context {U : Hashed}.

(** [reaches d path e]: from the directory named [d], the path leads to the
    entry [e], through directory manifests that hash to their names. *)
Inductive reaches : Digest → list bytes → dirEntry → Prop :=
| reaches_here d m e :
    named_by (str "dir") d m → directory_ok m → e ∈ els (dm_Entries m) →
    reaches d [entry_name e] e
| reaches_down d m sub path e :
    named_by (str "dir") d m → directory_ok m → sub ∈ els (dm_Entries m) →
    de_Type sub = EntryDir → path ≠ [] → reaches (de_Node sub) path e →
    reaches d (entry_name sub :: path) e.

(** The first step of a path that does not exist. *)
Inductive missing : Digest → list bytes → Prop :=
| missing_here d m c path :
    named_by (str "dir") d m → directory_ok m →
    (∀ e, e ∈ els (dm_Entries m) → entry_name e ≠ c) → missing d (c :: path)
| missing_down d m sub path :
    named_by (str "dir") d m → directory_ok m → sub ∈ els (dm_Entries m) →
    de_Type sub = EntryDir → missing (de_Node sub) path → missing d (entry_name sub :: path).

Lemma entry_unique m e e' :
  directory_ok m → e ∈ els (dm_Entries m) → e' ∈ els (dm_Entries m) →
  entry_name e = entry_name e' → e = e'.
Proof.
  intros Hm He He' Hn.
  pose proof (proj2 (lookupEntry_ok m (entry_name e) e Hm) (conj He eq_refl)) as L.
  pose proof (proj2 (lookupEntry_ok m (entry_name e) e' Hm) (conj He' (eq_sym Hn))) as L'. congruence.
Qed.

(** A path leads to at most one entry of a snapshot. *)
Lemma reaches_unique d path e e' :
  reaches d path e → reaches d path e' → e = e' ∨ sha256_collision.
Proof.
  intros Hr. revert e'. induction Hr as [d m e Hn Hm He|d m sub path e Hn Hm Hs Ht Hp Hr IH];
    intros e' Hr'; inversion Hr' as [d' m' e2 Hn' Hm' He' E1 E2|d' m' sub' p' e2 Hn' Hm' Hs' Ht' Hp' Hr2];
    subst; try done;
    (destruct (named_by_unique _ _ _ _ Hn Hn') as [<-|?]; [|by right]).
  - left. by apply (entry_unique m).
  - assert (sub' = sub) as -> by (by apply (entry_unique m)). by apply IH.
Qed.

(** A missing path leads nowhere. *)
Lemma missing_reaches d path e : missing d path → reaches d path e → sha256_collision.
Proof.
  intros Hm. revert e. induction Hm as [d m c path Hn Hok Hall|d m sub path Hn Hok Hs Ht Hm IH];
    intros e Hr; inversion Hr as [d' m' e2 Hn' Hok' He|d' m' sub' p' e2 Hn' Hok' Hs' Ht' Hp' Hr2];
    subst; (destruct (named_by_unique _ _ _ _ Hn Hn') as [<-|?]; [|done]).
  - by destruct (Hall e).
  - by destruct (Hall sub').
  - inversion Hm.
  - assert (sub' = sub) as -> by (by apply (entry_unique m)). by eapply IH.
Qed.

(** An entry of a directory that a path leads to, and back. *)
Lemma reaches_snoc d path sub m e :
  reaches d path sub → de_Type sub = EntryDir → named_by (str "dir") (de_Node sub) m →
  directory_ok m → e ∈ els (dm_Entries m) → reaches d (path ++ [entry_name e]) e.
Proof.
  induction 1 as [d m0 e0 Hn0 Hm0 He0|d m0 sub0 path e0 Hn0 Hm0 Hs0 Ht0 Hp Hr IH];
    intros Ht Hn Hm He; simpl.
  - eapply reaches_down; [exact Hn0|done..|]. by eapply reaches_here.
  - eapply reaches_down; [exact Hn0|done..| |by apply IH]. by destruct path.
Qed.

Lemma reaches_last d path c e :
  reaches d (path ++ [c]) e → path ≠ [] →
  ∃ sub m, reaches d path sub ∧ de_Type sub = EntryDir ∧ named_by (str "dir") (de_Node sub) m ∧
    directory_ok m ∧ e ∈ els (dm_Entries m) ∧ entry_name e = c.
Proof.
  revert d. induction path as [|p path IH]; [done|]. intros d Hr _.
  inversion Hr as [d' m e' Hn Hm He E|d' m sub q e' Hn Hm Hs Ht Hq Hr' E]; subst;
    [by destruct path|].
  destruct path as [|p2 path].
  - exists sub. simpl in Hr'. inversion Hr' as [d2 m2 e2 Hn2 Hm2 He2|? ? ? ? ? ? ? ? ? Hne]; subst; [|done].
    exists m2. split_and!; try done. by eapply reaches_here.
  - destruct (IH _ Hr') as (sub2 & m2 & Hr2 & Hrest); [done|].
    exists sub2, m2. split; [|done]. by eapply reaches_down.
Qed.

(** ** The bytes of a file *)

Definition piece_of (c : chunkRef) (data : bytes) : Prop :=
  shared_chunk (cr_Digest c) (cr_Size c) data.

(** [content] is what the chunks of the manifest name. *)
Definition file_content (m : fileManifest) (content : bytes) : Prop :=
  ∃ pieces, Forall2 piece_of (els (fm_Chunks m)) pieces ∧ content = mjoin pieces.

Lemma shared_chunk_unique d n a b : shared_chunk d n a → shared_chunk d n b → a = b ∨ sha256_collision.
Proof.
  intros [_ Ha] [_ Hb]. by eapply object_of_unique.
Qed.

Lemma chunks_size_take_drop k chunks :
  chunks_size chunks = chunks_size (take k chunks) + chunks_size (drop k chunks).
Proof.
  revert k. induction chunks as [|c chunks IH]; intros [|k]; simpl; try lia. rewrite (IH k). lia.
Qed.

Lemma chunks_size_app a b : chunks_size (a ++ b) = chunks_size a + chunks_size b.
Proof. induction a as [|c a IH]; simpl; lia. Qed.

Lemma chunks_size_take_mono i j limit chunks :
  Forall (chunk_ok limit) chunks → (i ≤ j)%nat →
  chunks_size (take i chunks) ≤ chunks_size (take j chunks).
Proof.
  intros Hok Hij. pose proof (chunks_size_take_drop i (take j chunks)) as E.
  rewrite take_take, Nat.min_l in E by done.
  pose proof (chunks_size_nonneg _ _ (Forall_drop _ i _ (Forall_take _ j _ Hok))). lia.
Qed.

Lemma chunks_from_drop o k chunks :
  chunks_from o chunks → chunks_from (o + chunks_size (take k chunks)) (drop k chunks).
Proof.
  revert o k. induction chunks as [|c chunks IH]; intros o [|k]; simpl; try done.
  - by rewrite Z.add_0_r.
  - intros [_ Hc]. rewrite Z.add_assoc. by apply IH.
Qed.

Lemma chunks_from_lookup o k chunks c :
  chunks_from o chunks → chunks !! k = Some c → cr_Offset c = o + chunks_size (take k chunks).
Proof.
  intros Hf Hk. pose proof (chunks_from_drop o k chunks Hf) as Hd.
  rewrite (drop_S _ _ _ Hk) in Hd. by destruct Hd as [-> _].
Qed.

Lemma pieces_length chunks pieces :
  Forall2 piece_of chunks pieces → len (mjoin pieces) = chunks_size chunks.
Proof.
  induction 1 as [|c p cs ps [Hp _] _ IH]; simpl; [done|]. rewrite len_app, IH. lia.
Qed.

Lemma pieces_drop k chunks pieces :
  Forall2 piece_of chunks pieces →
  mjoin (drop k pieces) = drop (Z.to_nat (chunks_size (take k chunks))) (mjoin pieces).
Proof.
  intros Hp. pose proof (Forall2_take _ _ _ k Hp) as Ht. apply pieces_length in Ht.
  assert (mjoin pieces = mjoin (take k pieces) ++ mjoin (drop k pieces)) as E.
  { rewrite <- join_app. by rewrite take_drop. }
  rewrite E at 1. rewrite <- Ht. unfold len. by rewrite Nat2Z.id, drop_app_length.
Qed.

(** The copied range of a valid chunk is in range, and is the requested part. *)
Lemma copy_in_range data room c offset limit :
  len data = cr_Size c → 0 ≤ cr_Offset c ≤ offset → offset < cr_Offset c + cr_Size c →
  offset < limit → cr_Offset c + cr_Size c ≤ int64_max → limit - offset ≤ room →
  let n := Z.min limit (cr_Offset c + cr_Size c) - offset in
  copyRange data room c offset limit =
  Ok (take (Z.to_nat n) (drop (Z.to_nat (offset - cr_Offset c)) data)) ∧
  len (take (Z.to_nat n) (drop (Z.to_nat (offset - cr_Offset c)) data)) = n.
Proof.
  intros Hl Ho Hend Hlim Hmax Hroom n. unfold copyRange, slice_of, max64, min64.
  rewrite int64_wrap_id by (unfold int64_min, int64_max in *; lia).
  assert ((if cr_Offset c <? offset then offset else cr_Offset c) - cr_Offset c
    = offset - cr_Offset c) as -> by (destruct (Z.ltb_spec (cr_Offset c) offset); lia).
  assert ((if limit <? cr_Offset c + cr_Size c then limit else cr_Offset c + cr_Size c)
    = Z.min limit (cr_Offset c + cr_Size c)) as -> by (destruct (Z.ltb_spec limit (cr_Offset c + cr_Size c)); lia).
  rewrite (proj2 (Z.ltb_ge _ _)), (proj2 (Z.ltb_ge _ _)), (proj2 (Z.ltb_ge _ _)) by lia. simpl.
  replace (Z.min limit (cr_Offset c + cr_Size c) - cr_Offset c - (offset - cr_Offset c)) with n by lia.
  unfold len in *. split.
  - f_equal. rewrite take_take. f_equal. lia.
  - rewrite length_take, length_drop. lia.
Qed.

(** Reading on from a chunk. *)
Lemma read_extend (p rest : bytes) o offset n (ext : bytes) :
  0 ≤ o ≤ offset → offset ≤ o + len p → n ≤ o + len p - offset →
  (n = o + len p - offset ∧ ext = take (length ext) rest ∨ ext = []) → 0 ≤ n →
  let copied := take (Z.to_nat n) (drop (Z.to_nat (offset - o)) p) in
  copied ++ ext = take (length (copied ++ ext)) (drop (Z.to_nat (offset - o)) (p ++ rest)).
Proof.
  intros Ho Hp Hn He Hn0 copied. unfold len in *.
  assert (length copied = Z.to_nat n) as Hc.
  { unfold copied. rewrite length_take, length_drop. lia. }
  rewrite drop_app_le by lia. rewrite length_app, Hc.
  destruct He as [[En Ee]| ->].
  - assert (copied = drop (Z.to_nat (offset - o)) p) as Ec.
    { unfold copied. apply take_ge. rewrite length_drop. lia. }
    rewrite <- Ec, <- Hc. rewrite take_app_add. by rewrite <- Ee.
  - rewrite app_nil_r, Nat.add_0_r. unfold copied. rewrite take_app_le; [done|].
    rewrite length_drop. lia.
Qed.

End Snapshot.

Section ReaderProofs.
Context {U : Hashed} `{AEADLaws} `{Chunker}.
Variable consumer : Consumer.
Abbreviation G := (consumer_protocol consumer).
Abbreviation R := (consumer_rely consumer).

Lemma resolveFrom_reading d path :
  reading G R (resolveFrom consumer d path) (λ r, ∀ e, r = Ok e → reaches d path e).
Proof.
  revert d. induction path as [|c path IH]; intros d; simpl; [by rd_step|].
  rd_step. eapply reading_mono; [apply loadDirectory_reading|]. intros [m|err] Hm; [|done].
  destruct (Hm m eq_refl) as [Hn Hok]. destruct (lookupEntry m c) as [e|] eqn:El; [|by rd_step].
  apply lookupEntry_ok in El as [He Hc]; [|done]. subst c. destruct path as [|c path].
  - rd_step. intros e' [= <-]. by eapply reaches_here.
  - do 2 rd_step; [done|]. bool_prop. eapply reading_mono; [apply IH|].
    intros r Hr e' ->. eapply reaches_down; try done. by apply Hr.
Qed.

#[local] Arguments resolveFrom : simpl never.

(** What a resolved path is, in the snapshot of a state. *)
Definition resolved_in (a : adoptedSnapshot) (value : bytes) (resolved : resolvedEntry) : Prop :=
  re_generation resolved = sr_Generation (as_reference a) ∧
  ∃ components, cleanLookupPath value = Ok components ∧
  ((components = [] ∧ re_isRoot resolved = true ∧
      re_entry resolved = rootEntry (cm_Root (as_commit a))) ∨
   (components ≠ [] ∧ re_isRoot resolved = false ∧
      reaches (cm_Root (as_commit a)) components (re_entry resolved))).

Lemma resolve_spec value s h :
  mwp R G (resolve consumer value) s h (λ h' s' r, s' = s ∧ ext_reads h h' ∧
    ∀ resolved, r = Ok resolved → ∃ a, cs_state s = Some a ∧ resolved_in a value resolved).
Proof.
  unfold resolve, snapshotRoot. repeat mwp_go.
  destruct (cleanLookupPath value) as [components|] eqn:Hp; simpl;
    [|by split_and!; [|apply ext_reads_refl|]].
  repeat mwp_go. destruct (cs_state s) as [a|]; repeat mwp_go;
    [|by split_and!; [|apply ext_reads_refl|]].
  destruct components as [|c components].
  { mwp_go. split_and!; [done|apply ext_reads_refl|]. intros resolved [= <-]. exists a.
    split; [done|]. split; [done|]. exists []. split; [done|]. by left. }
  mwp_go. eapply mwp_mono; [apply resolveFrom_reading|]. intros h1 s1 [e|err] (-> & E1 & Hr); [|done].
  mwp_go. split_and!; [done|done|]. intros resolved [= <-]. exists a. split; [done|]. split; [done|].
  exists (c :: components). split; [done|]. right. split_and!; [done|done|]. by apply Hr.
Qed.

Lemma resolved_in_unique a value x y :
  resolved_in a value x → resolved_in a value y → y = x ∨ sha256_collision.
Proof.
  destruct x as [ex gx rx], y as [ey gy ry]. intros (Hg & cx & Hcx & Hx) (Hg' & cy & Hcy & Hy).
  simpl in *. rewrite Hcx in Hcy. injection Hcy as <-. rewrite <- Hg in Hg'. subst gy.
  destruct Hx as [(-> & -> & ->)|(Hne & -> & Hx)], Hy as [(E & -> & ->)|(Hne' & -> & Hy)];
    try done; [by left|].
  destruct (reaches_unique _ _ _ _ Hx Hy) as [->|?]; [by left|by right].
Qed.

(** A listed directory: the root or an entry that a path leads to. *)
Definition leads_to (a : adoptedSnapshot) (components : list bytes) (resolved : resolvedEntry) : Prop :=
  (components = [] ∧ re_isRoot resolved = true ∧ re_entry resolved = rootEntry (cm_Root (as_commit a))) ∨
  (components ≠ [] ∧ re_isRoot resolved = false ∧
     reaches (cm_Root (as_commit a)) components (re_entry resolved)).

Lemma listing_sorted m :
  directory_ok m →
  StronglySorted (λ x y, bytes_lt (en_Name x) (en_Name y))
    (map (λ e, publicEntry (entry_name e) e) (els (dm_Entries m))).
Proof.
  intros (_ & _ & _ & Hs). induction Hs as [|e es Hs IH Hf]; simpl; constructor; [done|].
  apply Forall_fmap. eapply Forall_impl; [exact Hf|]. by intros x.
Qed.

Lemma listed_reaches a components resolved m e :
  leads_to a components resolved → de_Type (re_entry resolved) = EntryDir →
  named_by (str "dir") (de_Node (re_entry resolved)) m → directory_ok m → e ∈ els (dm_Entries m) →
  reaches (cm_Root (as_commit a)) (components ++ [entry_name e]) e.
Proof.
  intros [(-> & _ & Er)|(Hne & _ & Hr)] Ht Hn Hm He; [|by eapply reaches_snoc].
  rewrite Er in Hn. by eapply reaches_here.
Qed.

Lemma reaches_listed a components resolved m c e :
  leads_to a components resolved → de_Type (re_entry resolved) = EntryDir →
  named_by (str "dir") (de_Node (re_entry resolved)) m → directory_ok m →
  reaches (cm_Root (as_commit a)) (components ++ [c]) e →
  (e ∈ els (dm_Entries m) ∧ entry_name e = c) ∨ sha256_collision.
Proof.
  intros [(-> & _ & Er)|(Hne & _ & Hr)] Ht Hn Hm He.
  - rewrite Er in Hn. simpl in He.
    inversion He as [d' m' e' Hn' Hm' He'|? ? ? ? ? ? ? ? ? Hx]; subst; [|done].
    destruct (named_by_unique _ _ _ _ Hn Hn') as [<-|?]; [by left|by right].
  - apply reaches_last in He as (sub & m' & Hr' & Ht' & Hn' & Hm' & He' & Hc); [|done].
    destruct (reaches_unique _ _ _ _ Hr Hr') as [<-|?]; [|by right].
    destruct (named_by_unique _ _ _ _ Hn Hn') as [<-|?]; [by left|by right].
Qed.

(** What the calls answer, for the entry their path leads to. *)
Lemma Stat_spec value s h :
  mwp R G (Stat consumer value) s h (λ h' s' r, s' = s ∧ ext_reads h h' ∧
    ∀ entry, r = Ok entry → ∃ a resolved, cs_state s = Some a ∧ resolved_in a value resolved ∧
      entry = publicEntry (if re_isRoot resolved then [] else entry_name (re_entry resolved))
                (re_entry resolved)).
Proof.
  unfold Stat. mwp_go. eapply mwp_mono; [apply resolve_spec|].
  intros h1 s1 [resolved|err] (-> & E1 & Hr); [|done]. destruct (Hr _ eq_refl) as (a & Ha & Hin).
  mwp_go. split_and!; [done|done|]. intros entry [= <-]. by exists a, resolved.
Qed.

Lemma ListDir_spec value s h :
  mwp R G (ListDir consumer value) s h (λ h' s' r, s' = s ∧ ext_reads h h' ∧
    ∀ entries, r = Ok entries → ∃ a resolved m, cs_state s = Some a ∧ resolved_in a value resolved ∧
      de_Type (re_entry resolved) = EntryDir ∧
      named_by (str "dir") (de_Node (re_entry resolved)) m ∧ directory_ok m ∧
      entries = map (λ e, publicEntry (entry_name e) e) (els (dm_Entries m))).
Proof.
  unfold ListDir. mwp_go. eapply mwp_mono; [apply resolve_spec|].
  intros h1 s1 [resolved|err] (-> & E1 & Hr); [|done]. destruct (Hr _ eq_refl) as (a & Ha & Hin).
  mwp_go. mwp_go; [done|]. bool_prop. mwp_go. eapply mwp_mono; [apply loadDirectory_reading|].
  intros h2 s2 [m|err] (-> & E2 & Hm); [|split_and!; [done|by etrans|done]].
  destruct (Hm m eq_refl) as [Hn Hok]. mwp_go. split_and!; [done|by etrans|].
  intros entries [= <-]. by exists a, resolved, m.
Qed.

Lemma Open_spec value s h :
  mwp R G (Open consumer value) s h (λ h' s' r, s' = s ∧ ext_reads h h' ∧
    ∀ file, r = Ok file → ∃ a resolved, cs_state s = Some a ∧ resolved_in a value resolved ∧
      de_Type (re_entry resolved) = EntryFile ∧
      named_by (str "file") (de_Node (re_entry resolved)) (fl_manifest file) ∧
      validateFileManifest (fl_manifest file) = Ok tt ∧
      fm_Size (fl_manifest file) = de_Size (re_entry resolved) ∧
      fl_generation file = sr_Generation (as_reference a)).
Proof.
  unfold Open. mwp_go. eapply mwp_mono; [apply resolve_spec|].
  intros h1 s1 [resolved|err] (-> & E1 & Hr); [|done]. destruct (Hr _ eq_refl) as (a & Ha & Hin).
  mwp_go. mwp_go; [done|]. mwp_go. mwp_go; [done|]. bool_prop. mwp_go.
  eapply mwp_mono; [apply loadFile_reading|].
  intros h2 s2 [m|err] (-> & E2 & Hm); [|split_and!; [done|by etrans|done]].
  destruct (Hm m eq_refl) as [Hn Hok].
  mwp_go. mwp_go; [split_and!; [done|by etrans|done]|]. bool_prop. mwp_go.
  split_and!; [done|by etrans|]. intros file [= <-]. exists a, resolved.
  split_and!; try done. apply Hin.
Qed.

Lemma Readlink_spec value s h :
  mwp R G (Readlink consumer value) s h (λ h' s' r, s' = s ∧ ext_reads h h' ∧
    ∀ target, r = Ok target → ∃ a resolved m, cs_state s = Some a ∧ resolved_in a value resolved ∧
      de_Type (re_entry resolved) = EntrySymlink ∧
      named_by (str "symlink") (de_Node (re_entry resolved)) m ∧ target = els (sm_Target m) ∧
      len target = de_Size (re_entry resolved) ∧
      (cn_symlinkPolicy consumer = SymlinkRejectExternal → ∃ components,
         cleanLookupPath value = Ok components ∧
         validateSafeSymlink (Join [slash] components) target = Ok tt)).
Proof.
  unfold Readlink. mwp_go. eapply mwp_mono; [apply resolve_spec|].
  intros h1 s1 [resolved|err] (-> & E1 & Hr); [|done]. destruct (Hr _ eq_refl) as (a & Ha & Hin).
  mwp_go. mwp_go; [done|]. bool_prop. mwp_go. eapply mwp_mono; [apply loadSymlink_reading|].
  intros h2 s2 [m|err] (-> & E2 & Hm); [|split_and!; [done|by etrans|done]].
  destruct (Hm m eq_refl) as [Hn Hok].
  mwp_go. mwp_go; [split_and!; [done|by etrans|done]|]. bool_prop. mwp_go.
  apply (mwp_mono _ _ _ _ _ (λ h' s' r, h' = h2 ∧ s' = s ∧
    (r = Ok tt → cn_symlinkPolicy consumer = SymlinkRejectExternal → ∃ components,
         cleanLookupPath value = Ok components ∧
         validateSafeSymlink (Join [slash] components) (els (sm_Target m)) = Ok tt))).
  { destruct (cn_symlinkPolicy consumer); repeat mwp_go; [|by split_and!].
    destruct (cleanLookupPath value) as [components|]; simpl; [|by split_and!].
    mwp_go. split_and!; [done|done|]. intros Hs _. by exists components. }
  intros h3 s3 [[]|err] (-> & -> & Hs); [|split_and!; [done|by etrans|done]].
  mwp_go. split_and!; [done|by etrans|]. intros target [= <-]. exists a, resolved, m.
  split_and!; try done. by apply Hs.
Qed.

(** *** Chunks *)

Lemma getCachedChunk_reading d n :
  reading G R (getCachedChunk consumer d n) (λ r,
    ∀ data errs, r = Ok (Some data, errs) → shared_chunk d n data).
Proof.
  pose proof (consumer_reads consumer) as HG. unfold getCachedChunk.
  destruct (negb (cn_cache consumer)); [by rd_step|].
  do 2 rd_step. apply reading_callr; [done|done|]. intros h [[data|]|err] Hr; [|by rd_step|].
  - do 2 rd_step; [done|]. do 2 rd_step; [done|]. bool_prop. rd_step. intros ? ? [= <- <-].
    split; [done|]. split; [done|by apply Hr].
  - by destruct (errors_Is err ErrCorruptObject || cn_strictCacheErrors consumer); rd_step.
Qed.

Lemma loadChunk_reading d n :
  reading G R (loadChunk consumer d n) (λ r,
    ∀ data errs, r = Ok (Ok data, errs) → shared_chunk d n data).
Proof.
  unfold loadChunk. do 2 rd_step. eapply reading_mono; [apply getCachedChunk_reading|].
  intros [[[data|] errs]|err] Hc; [rd_step| |by rd_step].
  { intros ? ? [= <- <-]. by eapply Hc. }
  do 2 rd_step. eapply reading_mono; [apply getImmutableExact_reading; [apply consumer_reads|apply consumer_hashing]|].
  intros [data|err] Hd; [|by rd_step]. assert (shared_chunk d n data) as Hs by (by apply Hd).
  destruct (cn_cache consumer); [|rd_step; by intros ? ? [= <- <-]].
  do 2 rd_step. apply reading_calle'; [done|intros ?; apply Hs|rd_step; by intros ? ? [= <- <-]|].
  intros err. destruct (cn_strictCacheErrors consumer); rd_step; [done|]. by intros ? ? [= <- <-].
Qed.

Lemma getChunk_reading d n :
  reading G R (getChunk consumer d n) (λ r, ∀ data, r = Ok data → shared_chunk d n data).
Proof.
  unfold getChunk, chunkLoader, acquireDownload, releaseDownload.
  do 2 rd_step; [done|]. rd_step. apply reading_checkCtx; [apply consumer_reads| |done].
  rd_step. apply reading_call; [done|done|]. intros h [r|] Hr; [rd_step; by intros data ->; apply Hr|].
  rd_step. eapply (reading_mono _ _ _ (λ r, ∀ data errs, r = Ok (Ok data, errs) → shared_chunk d n data)).
  - do 3 rd_step. apply reading_calle'; [done|done| |].
    + do 2 rd_step. apply reading_calle'; [done|done| |].
      * rd_step. rd_step. eapply reading_mono; [apply loadChunk_reading|].
        intros [[[data|err] errs]|err] Hl; [by rd_step| |done]. rd_step.
        rd_step. apply reading_call; [done|done|]. intros _ _ _.
        apply reading_call; [done|done|]. intros _ _ _. by rd_step.
      * intros err. rd_step. apply reading_call; [done|done|]. intros _ _ _. do 2 rd_step. done.
    + intros err. by rd_step.
  - intros [[r errs]|err] Hl; [|done]. rd_step.
    apply reading_calle'; [done| | |done].
    + intros h'. simpl. intros data ->. by eapply Hl.
    + rd_step. intros data ->. by eapply Hl.
Qed.

(** *** File reads *)

(** One iteration of the read loop. *)
Lemma readStep_reading c room offset limit :
  0 ≤ cr_Offset c ≤ offset → offset < cr_Offset c + cr_Size c → offset < limit →
  cr_Offset c + cr_Size c ≤ int64_max → limit - offset ≤ room →
  let n := Z.min limit (cr_Offset c + cr_Size c) - offset in
  reading G R (checkCtx ;;;
      lease <- getChunk consumer (cr_Digest c) (cr_Size c) ;;
      copyChunkLease lease room c offset limit) (λ r,
    ∀ copied, r = Ok copied → len copied = n ∧ ∃ data, piece_of c data ∧
      copied = take (Z.to_nat n) (drop (Z.to_nat (offset - cr_Offset c)) data)).
Proof.
  intros Ho Hend Hlim Hmax Hroom n. pose proof (consumer_reads consumer) as HG.
  rd_step. apply reading_checkCtx; [done| |done]. rd_step.
  eapply reading_mono; [apply getChunk_reading|]. intros [data|err] Hd; [|done].
  specialize (Hd data eq_refl). unfold copyChunkLease. do 2 rd_step.
  destruct (copy_in_range data room c offset limit) as [Hc Hl]; try done; [apply Hd|].
  eapply (reading_mono _ _ _ (λ r, ∀ copied, r = Ok copied →
    copied = take (Z.to_nat n) (drop (Z.to_nat (offset - cr_Offset c)) data))).
  - do 2 rd_step; [done|]. rd_step. apply reading_checkCtx; [done| |done]. rd_step. rewrite Hc.
    by intros copied [= <-].
  - intros r Hr. rd_step. apply reading_call; [done|done|]. intros _ _ _. rd_step.
    intros copied ->. rewrite (Hr copied eq_refl). split; [exact Hl|]. by exists data.
Qed.

Definition read_result (size : Z) (done_ : bytes) (wanted : Z) (source : bytes → Prop)
    (r : result (bytes * option error)) : Prop :=
  ∃ ext err, r = Ok (done_ ++ ext, err) ∧ len ext ≤ wanted ∧
    (∀ rest, source rest → ext = take (length ext) rest ∨ sha256_collision) ∧
    (len ext < wanted → err ≠ None) ∧
    (len ext = wanted → err = if len (done_ ++ ext) <? size then Some [IoEOF] else None).

Lemma read_finish size done_ source :
  read_result size done_ 0 source
    (Ok (done_, if len done_ <? size then Some [IoEOF] else None)).
Proof.
  exists [], (if len done_ <? size then Some [IoEOF] else None). rewrite app_nil_r.
  split_and!; try done. intros rest _. by left.
Qed.

Lemma readChunks_reading chunks size done_ offset limit o :
  chunks_from o chunks → Forall (chunk_ok maxChunkObjectBytes) chunks → 0 ≤ o →
  (offset < limit → o ≤ offset) → offset ≤ limit → limit ≤ o + chunks_size chunks →
  o + chunks_size chunks ≤ int64_max → 0 ≤ offset →
  (offset < limit → match chunks with c :: _ => offset < o + cr_Size c | [] => True end) →
  len done_ + (limit - offset) ≤ size →
  reading G R (readChunks consumer chunks size done_ offset limit)
    (read_result size done_ (limit - offset) (λ rest,
       ∃ pieces, Forall2 piece_of chunks pieces ∧ rest = drop (Z.to_nat (offset - o)) (mjoin pieces))).
Proof.
  revert done_ offset o. induction chunks as [|c chunks IH];
    intros done_ offset o Hf Hok Ho Hin Hle Hlim Hmax Hpos Hfirst Hroom; simpl.
  { simpl in Hlim. assert (limit - offset = 0) as -> by lia. rd_step. apply read_finish. }
  destruct (Z.ltb_spec offset limit) as [Hlt|Hge];
    [|assert (limit - offset = 0) as -> by lia; rd_step; apply read_finish].
  specialize (Hin Hlt). specialize (Hfirst Hlt). destruct Hf as [Hoff Hf].
  apply Forall_cons in Hok as [[Hsize _] Hok]. simpl in Hmax, Hlim.
  pose proof (chunks_size_nonneg _ _ Hok) as Hnn.
  do 2 rd_step. eapply reading_mono; [apply readStep_reading; rewrite ?Hoff; lia|]. simpl.
  rewrite Hoff. intros [copied|err] Hc.
  2:{ rd_step. exists [], (Some err). rewrite app_nil_r.
      split_and!; [done|rewrite len_nil; lia|by left|done|intros E; rewrite len_nil in E; lia]. }
  destruct (Hc copied eq_refl) as (Hn & data & Hd & Ecopied).
  set (n := Z.min limit (o + cr_Size c) - offset) in *.
  rewrite Hn, int64_wrap_id by (unfold int64_min, int64_max in *; lia).
  eapply reading_mono; [apply (IH (done_ ++ copied) (offset + n) (o + cr_Size c)); try done; try lia|].
  { destruct chunks as [|c2 chunks]; [done|]. apply Forall_cons in Hok as [[Hs2 _] _]. lia. }
  { rewrite len_app, Hn. lia. }
  intros r (ext & err & -> & Hlen & Hsrc & Hshort & Hfull). exists (copied ++ ext), err.
  rewrite (assoc_L (++)). rewrite !len_app, Hn in *.
  split_and!; [done|lia| |intros E; apply Hshort; lia|intros E; apply Hfull; lia].
  intros rest (pieces & Hp & ->). inversion Hp as [|? p ? ps Hpc Hps]; subst.
  destruct (shared_chunk_unique _ _ _ _ Hd Hpc) as [<-|?]; [|by right].
  destruct (Hsrc (drop (Z.to_nat (offset + n - (cr_Offset c + cr_Size c))) (mjoin ps))) as [He|?];
    [by exists ps| |by right]. left.
  destruct Hd as [Hdl _]. simpl.
  apply (read_extend data (mjoin ps) (cr_Offset c) offset n ext); try lia.
  destruct (Z.le_gt_cases (cr_Offset c + cr_Size c) limit) as [Hfull'|Hpart].
  - left. split; [lia|]. replace (offset + n - (cr_Offset c + cr_Size c)) with 0 in He by lia. done.
  - right. destruct ext; [done|]. unfold len in Hlen. simpl in Hlen. lia.
Qed.

(** A (count, err) pair of ReadAt: the bytes are the file's from the offset on;
    fewer than the destination holds come with an error, which is io.EOF exactly
    when the end of the file was reached. *)
Definition read_exact (m : fileManifest) (size offset : Z) (r : bytes * option error) : Prop :=
  if offset <? 0 then r = ([], Some errorText) else
  let wanted := Z.max 0 (Z.min size (fm_Size m - offset)) in
  len r.1 ≤ wanted ∧
  (∀ content, file_content m content →
     r.1 = take (length r.1) (drop (Z.to_nat offset) content) ∨ sha256_collision) ∧
  (len r.1 < wanted → r.2 ≠ None) ∧
  (len r.1 = wanted → r.2 = if wanted <? size then Some [IoEOF] else None).

Lemma chunk_ok_weaken l l' chunks : l ≤ l' → Forall (chunk_ok l) chunks → Forall (chunk_ok l') chunks.
Proof. intros Hl Hf. eapply Forall_impl; [exact Hf|]. intros c [Hc Hd]. split; [lia|done]. Qed.

Lemma normalized_max options p : normalized options = Ok p → co_MaxSize p ≤ maxChunkObjectBytes.
Proof.
  unfold normalized. rewrite !guard_bind_ok. intros (_ & _ & Hm & _ & [= <-]). by apply Z.ltb_ge in Hm.
Qed.

(** The first chunk that ends after the offset. *)
Lemma read_index chunks offset :
  chunks_from 0 chunks → Forall (chunk_ok maxChunkObjectBytes) chunks →
  chunks_size chunks ≤ int64_max → 0 ≤ offset < chunks_size chunks →
  let index := Z.to_nat (sort_Search (len chunks) (λ i,
      match chunks !! Z.to_nat i with
      | Some c => offset <? int64_wrap (cr_Offset c + cr_Size c)
      | None => true
      end)) in
  chunks_size (take index chunks) ≤ offset ∧
  match drop index chunks with
  | c :: _ => offset < chunks_size (take index chunks) + cr_Size c
  | [] => False
  end.
Proof.
  intros Hf Hok Hmax Ho. set (f := λ i : Z, _).
  assert (∀ k, (k < length chunks)%nat →
    f (Z.of_nat k) = (offset <? chunks_size (take (S k) chunks))) as Hfk.
  { intros k Hk. destruct (lookup_lt_is_Some_2 chunks k Hk) as [c Hc]. unfold f.
    rewrite Nat2Z.id, Hc. rewrite (take_S_r _ _ _ Hc), (chunks_from_lookup _ _ _ _ Hf Hc).
    rewrite chunks_size_app. simpl. rewrite Z.add_0_r. f_equal. apply int64_wrap_id.
    pose proof (chunks_size_take_drop (S k) chunks) as E.
    rewrite (take_S_r _ _ _ Hc), chunks_size_app in E. simpl in E.
    pose proof (chunks_size_nonneg _ _ (Forall_take _ (S k) _ Hok)) as Hn.
    rewrite (take_S_r _ _ _ Hc), chunks_size_app in Hn. simpl in Hn.
    pose proof (chunks_size_nonneg _ _ (Forall_drop _ (S k) _ Hok)).
    unfold int64_min in *. lia. }
  destruct (sort_Search_spec (len chunks) f) as (Hr & Hlo & Hhi); [apply len_nonneg| |].
  { intros a b Hab Hb. unfold len in Hb. rewrite <- (Z2Nat.id a), <- (Z2Nat.id b) by lia.
    rewrite !Hfk by lia. rewrite !Z.ltb_lt.
    pose proof (chunks_size_take_mono (S (Z.to_nat a)) (S (Z.to_nat b)) _ _ Hok). lia. }
  set (r := sort_Search (len chunks) f) in *. simpl. unfold len in *. split.
  - destruct (decide (r = 0)) as [->|Hnz]; [simpl; lia|].
    specialize (Hlo (r - 1)). rewrite <- (Z2Nat.id (r - 1)) in Hlo by lia.
    rewrite Hfk in Hlo by lia. rewrite Z.ltb_ge in Hlo.
    replace (S (Z.to_nat (r - 1))) with (Z.to_nat r) in Hlo by lia. apply Hlo. lia.
  - destruct (decide (r = Z.of_nat (length chunks))) as [E|Hne].
    { rewrite E, Nat2Z.id in *. exfalso. destruct chunks as [|c0 cs]; [simpl in Ho; lia|].
      specialize (Hlo (Z.of_nat (length cs))). rewrite Hfk in Hlo by (simpl; lia).
      rewrite take_ge in Hlo by (simpl; lia). rewrite Z.ltb_ge in Hlo. simpl length in Hlo. lia. }
    destruct (lookup_lt_is_Some_2 chunks (Z.to_nat r)) as [c Hc]; [lia|].
    rewrite (drop_S _ _ _ Hc). assert (f r = true) as Hfr by (apply Hhi; lia).
    rewrite <- (Z2Nat.id r) in Hfr by lia.
    rewrite Hfk, (take_S_r _ _ _ Hc), chunks_size_app in Hfr by lia. simpl in Hfr.
    rewrite Z.ltb_lt in Hfr. lia.
Qed.

Lemma ReadAtContext_reading file size offset :
  file_ok (fl_manifest file) → fm_Size (fl_manifest file) ≤ int64_max →
  0 ≤ size ≤ int64_max → offset ≤ int64_max →
  reading G R (ReadAtContext consumer file size offset) (λ r, ∃ pair,
    r = Ok pair ∧ read_exact (fl_manifest file) size offset pair).
Proof.
  destruct file as [m g]. simpl. intros Hm Hmax Hsize Hoff. unfold ReadAtContext, read_exact. simpl.
  destruct Hm as (_ & _ & _ & Hn & Hok & Hf & Hs).
  apply normalized_max in Hn. apply (chunk_ok_weaken _ _ _ Hn) in Hok.
  destruct (Z.ltb_spec offset 0) as [?|Hpos]; [rd_step; eauto|].
  destruct (Z.eqb_spec size 0) as [->|Hnz].
  { rd_step. eexists. split; [done|]. simpl. rewrite len_nil.
    split_and!; [lia|by left|lia|]. intros E. destruct (Z.ltb_spec (Z.max 0 (Z.min 0 (fm_Size m - offset))) 0); [lia|done]. }
  destruct (Z.leb_spec (fm_Size m) offset) as [Hend|Hin].
  { rd_step. eexists. split; [done|]. simpl. rewrite len_nil.
    split_and!; [lia|by left|lia|]. intros E. by rewrite (proj2 (Z.ltb_lt _ _)) by lia. }
  assert ((if (int64_wrap (offset + size) <? offset) || (fm_Size m <? int64_wrap (offset + size))
    then fm_Size m else int64_wrap (offset + size)) = Z.min (fm_Size m) (offset + size)) as ->.
  { destruct (Z.le_gt_cases (offset + size) int64_max) as [Hle|Hgt].
    - rewrite int64_wrap_id by (unfold int64_min; lia).
      rewrite (proj2 (Z.ltb_ge (offset + size) offset)) by lia. simpl.
      destruct (Z.ltb_spec (fm_Size m) (offset + size)); lia.
    - pose proof (int64_wrap_over offset size) as Hover.
      rewrite (proj2 (Z.ltb_lt (int64_wrap _) offset)) by lia. simpl. lia. }
  destruct (read_index (els (fm_Chunks m)) offset) as [Hlo Hhi]; [done|done|lia|lia|].
  set (index := Z.to_nat _) in *. set (chunks := els (fm_Chunks m)) in *.
  pose proof (chunks_size_take_drop index chunks) as Hsum.
  pose proof (chunks_size_nonneg _ _ (Forall_take _ index _ Hok)).
  eapply reading_mono; [apply (readChunks_reading _ _ _ _ _ (chunks_size (take index chunks))); try lia|].
  - apply (chunks_from_drop 0 index chunks Hf).
  - by apply Forall_drop.
  - intros _. by destruct (drop index chunks).
  - rewrite len_nil. lia.
  - intros r (ext & err & -> & Hlen & Hsrc & Hshort & Hfull). rewrite app_nil_l in *.
    eexists. split; [done|]. simpl.
    replace (Z.max 0 (Z.min size (fm_Size m - offset)))
      with (Z.min (fm_Size m) (offset + size) - offset) by lia.
    split_and!; [done| |done|].
    + intros content (pieces & Hp & ->).
      destruct (Hsrc (drop (Z.to_nat offset) (mjoin pieces))) as [E|?]; [|by left|by right].
      exists (drop index pieces). split; [by apply Forall2_drop|].
      rewrite (pieces_drop index chunks) by done. rewrite drop_drop. f_equal. lia.
    + intros E. specialize (Hfull E). by rewrite Hfull, E.
Qed.
End ReaderProofs.

(** *** Claims *)

Lemma named_by_file_bounds {U : Hashed} d (m : fileManifest) :
  named_by (str "file") d m → fm_Size m ≤ int64_max ∧ fm_MaxSize m ≤ int64_max.
Proof.
  intros (data & Hd & _). apply decodeJSON_of_json in Hd as [j Hj]. simpl in Hj.
  repeat (apply bind_Some in Hj as (? & ?Hf & Hj)). injection Hj as <-. simpl.
  split; refine (proj2 (fld_int_range _ _ _ _)); eassumption.
Qed.

(** C8: path lookup.  In any environment, a path a call resolves leads, through
    directory manifests that hash to their names, from the root of the snapshot
    in view to the returned entry; no other entry has that path, and the call
    leaves the view as it is.  The objects are those of any set that has what the
    call reads; the exception is a collision of two of them. *)
Theorem resolve_exact {U : Hashed} `{AEADLaws} `{Chunker} (consumer : Consumer) (value : bytes) s h :
  mwp (consumer_rely consumer) (consumer_protocol consumer) (resolve consumer value) s h (λ h' s' r, s' = s ∧
    ∀ resolved, r = Ok resolved → ∃ a, cs_state s = Some a ∧ resolved_in a value resolved ∧
      ∀ other, resolved_in a value other → other = resolved ∨ sha256_collision).
Proof.
  eapply mwp_mono; [apply resolve_spec|]. intros h' s' r (-> & _ & Hr). split; [done|].
  intros resolved ->. destruct (Hr _ eq_refl) as (a & Ha & Hin). exists a. split_and!; [done|done|].
  intros other Hother. by apply (resolved_in_unique a value).
Qed.

(** C9: directory listings and lookups agree.  The entries that a listing
    returns are, in strictly increasing order of their names, exactly the
    entries that lookups below the listed path lead to, among the objects of any
    set that has what is read (unless two of them collide): nothing is left out,
    nothing is added, no name occurs twice. *)
Theorem ListDir_exact {U : Hashed} `{AEADLaws} `{Chunker} (consumer : Consumer) (value : bytes) s h :
  mwp (consumer_rely consumer) (consumer_protocol consumer) (ListDir consumer value) s h (λ h' s' r, s' = s ∧
    ∀ entries, r = Ok entries → ∃ a components,
      cs_state s = Some a ∧ cleanLookupPath value = Ok components ∧
      StronglySorted (λ x y, bytes_lt (en_Name x) (en_Name y)) entries ∧
      (∀ x, x ∈ entries → ∃ e, x = publicEntry (entry_name e) e ∧
         reaches (cm_Root (as_commit a)) (components ++ [entry_name e]) e) ∧
      (∀ c e, reaches (cm_Root (as_commit a)) (components ++ [c]) e →
         publicEntry c e ∈ entries ∨ sha256_collision)).
Proof.
  eapply mwp_mono; [apply ListDir_spec|]. intros h' s' r (-> & _ & Hr). split; [done|].
  intros entries ->. destruct (Hr _ eq_refl) as (a & resolved & m & Ha & Hin & Ht & Hn & Hm & ->).
  destruct Hin as (_ & components & Hc & Hcases). exists a, components.
  split_and!; [done|done|by apply listing_sorted| |].
  - intros x Hx. apply list_elem_of_fmap in Hx as (e & -> & He). exists e. split; [done|].
    by eapply listed_reaches.
  - intros c e He. destruct (reaches_listed _ _ _ _ _ _ Hcases Ht Hn Hm He) as [[Hin <-]|?]; [|by right].
    left. apply list_elem_of_fmap. by exists e.
Qed.

(** C7: file reads.  A file that a path opened is a file of the snapshot in
    view, with the size its directory entry has; reading it at any offset, into
    a destination of any size, whatever the caches and the store answer, returns
    the bytes of the file from that offset on (unless two of the objects, of any
    set that has those read, collide), at most as many as fit; fewer than asked
    for only with an error, and without another error exactly up to the end of the
    file, io.EOF telling that it was reached.  The sums of offsets never overflow. *)
Theorem ReadAt_exact {U : Hashed} `{AEADLaws} `{Chunker} (consumer : Consumer) (value : bytes) (size offset : Z) s h :
  0 ≤ size ≤ int64_max → int64_min ≤ offset ≤ int64_max →
  mwp (consumer_rely consumer) (consumer_protocol consumer)
    (file <- Open consumer value ;; pair <- ReadAtContext consumer file size offset ;; mret (file, pair))
    s h (λ h' s' r, s' = s ∧ ∀ file pair, r = Ok (file, pair) → ∃ a resolved,
      cs_state s = Some a ∧ resolved_in a value resolved ∧
      de_Type (re_entry resolved) = EntryFile ∧
      named_by (str "file") (de_Node (re_entry resolved)) (fl_manifest file) ∧
      File_Size file = de_Size (re_entry resolved) ∧
      File_Generation file = sr_Generation (as_reference a) ∧
      read_exact (fl_manifest file) size offset pair).
Proof.
  intros Hsize Hoff. mwp_go. eapply mwp_mono; [apply Open_spec|].
  intros h1 s1 [file|err] (-> & E1 & Hf); [|done].
  destruct (Hf _ eq_refl) as (a & resolved & Ha & Hin & Ht & Hn & Hv & Hs & Hg).
  destruct (named_by_file_bounds _ _ Hn) as [B1 B2]. apply validateFileManifest_ok in Hv; [|done|done].
  mwp_go. eapply mwp_mono; [by apply ReadAtContext_reading; [| |done|lia]|].
  intros h2 s2 r (-> & _ & pair & -> & Hp). mwp_go. split; [done|].
  intros file' pair' [= <- <-]. by exists a, resolved.
Qed.

(** ** A published file *)


Definition toy_entry (name : bytes) (t : EntryType) (node : Digest) (size : Z) : dirEntry :=
  {| de_Name := Some name; de_Type := t; de_Node := node; de_Mode := 0x124; de_Size := size;
     de_ModTimeUnixNano := 0 |}.

(** docs/a holds hello in two chunks. *)
Definition toy_library : Store :=
  (run (store_handler live)
    ((c1 <- putImmutable (H:=toy_aead) toy_plain (str "chunk") (str "hel") ;;
      c2 <- putImmutable (H:=toy_aead) toy_plain (str "chunk") (str "lo") ;;
      file <- putManifest (H:=toy_aead) toy_plain (str "file")
        {| fm_Format := 1; fm_Algorithm := str "rabin-v1"; fm_MinSize := 64; fm_AvgSize := 128;
           fm_MaxSize := 256; fm_Polynomial := defaultPolynomial; fm_Size := 5;
           fm_Chunks := Some [{| cr_Offset := 0; cr_Size := 3; cr_Digest := c1 |};
                              {| cr_Offset := 3; cr_Size := 2; cr_Digest := c2 |}] |} ;;
      docs <- putManifest (H:=toy_aead) toy_plain (str "dir")
        {| dm_Format := 1; dm_Entries := Some [toy_entry (str "a") EntryFile file 5] |} ;;
      root <- putManifest (H:=toy_aead) toy_plain (str "dir")
        {| dm_Format := 1; dm_Entries := Some [toy_entry (str "docs") EntryDir docs 0] |} ;;
      commit <- putManifest (H:=toy_aead) toy_plain (str "commit")
        {| cm_Format := 1; cm_Generation := 1; cm_Parent := None; cm_Root := root;
           cm_PublishedAtUnix := 1700000000000000000; cm_ResetChanges := true |} ;;
      Repository_compareAndSwap (H:=toy_aead) toy_plain (ReferenceKey toy_plain (str "main")) None
        (canonicalJSON {| sr_Format := 1; sr_Generation := 1; sr_Commit := commit |})) tt) New).1.

(** The consumer's state after its first refresh. *)
Definition toy_view : ConsumerState :=
  (run toy_reader (Refresh (H:=toy_aead) toy_consumer ConsumerState_zero) (toy_library, None)).2.1.

Definition toy_open_read (size offset : Z) :=
  file <- Open (H:=toy_aead) (H0:=toy_chunker) toy_consumer (str "docs/a") ;;
  pair <- ReadAtContext (H:=toy_aead) toy_consumer file size offset ;; mret (file, pair).

Definition toy_answer {A} (call : ConsumerState → prog eff (ConsumerState * result A)) : option A :=
  match (run toy_reader (call toy_view) (toy_library, None)).2.2 with Ok x => Some x | Err _ => None end.

Example toy_read :
  snd <$> toy_answer (toy_open_read 10 1) = Some (str "ello", Some [IoEOF]) ∧
  snd <$> toy_answer (toy_open_read 3 1) = Some (str "ell", None).
Proof. vm_compute. split; reflexivity. Qed.

Example toy_lookup :
  en_Size <$> toy_answer (Stat (H:=toy_aead) toy_consumer (str "docs/a")) = Some 5 ∧
  (run toy_reader (Stat (H:=toy_aead) toy_consumer (str "docs/b") toy_view)
     (toy_library, None)).2.2 = Err [ErrPathNotFound].
Proof. vm_compute. split; reflexivity. Qed.

(** The objects of the library, none of which collide. *)
Definition toy_messages : list bytes :=
  concat (map (λ ' (key, ob), map (λ kind, objectMessage kind (ob_Data ob))
    (filter (λ kind, Contains key ([slash] ++ kind ++ [slash])) object_kinds)) (map_to_list (ms_objects toy_library))).
Definition toy_objects : Hashed := λ x, x ∈ toy_messages.

Example toy_objects_collide : length toy_messages = 6%nat ∧ ¬ sha256_collision (U:=toy_objects).
Proof.
  assert (bool_decide (length toy_messages = 6%nat ∧ NoDup (sha256 <$> toy_messages)) = true) as E by by vm_compute.
  apply bool_decide_eq_true in E as [El Hnd]. split; [done|]. intros (x & y & Hx & Hy & Hne & E).
  apply list_elem_of_lookup in Hx as [i Hi], Hy as [j Hj]. apply Hne.
  assert (i = j) as ->; [|congruence].
  apply (NoDup_lookup _ _ _ (sha256 x) Hnd); rewrite list_lookup_fmap; [by rewrite Hi|rewrite Hj; simpl; by f_equal].
Qed.

#[local] Existing Instance toy_objects.

Lemma resolve_exact_witness :
  mwp (consumer_rely (H:=toy_aead) (H1:=toy_chunker) toy_consumer) (consumer_protocol (H1:=toy_chunker) toy_consumer)
    (resolve (H:=toy_aead) toy_consumer (str "docs/a")) toy_view [] (λ h' s' r, s' = toy_view ∧
    ∀ resolved, r = Ok resolved → ∃ a, cs_state toy_view = Some a ∧
      resolved_in a (str "docs/a") resolved ∧
      ∀ other, resolved_in a (str "docs/a") other → other = resolved ∨ sha256_collision).
Proof.
  exact (@resolve_exact _ toy_aead toy_aead_laws toy_chunker toy_consumer (str "docs/a") toy_view []).
Defined.

Lemma ListDir_exact_witness :
  mwp (consumer_rely (H:=toy_aead) (H1:=toy_chunker) toy_consumer) (consumer_protocol (H1:=toy_chunker) toy_consumer)
    (ListDir (H:=toy_aead) toy_consumer (str "docs")) toy_view [] (λ h' s' r, s' = toy_view ∧
    ∀ entries, r = Ok entries → ∃ a components,
      cs_state toy_view = Some a ∧ cleanLookupPath (str "docs") = Ok components ∧
      StronglySorted (λ x y, bytes_lt (en_Name x) (en_Name y)) entries ∧
      (∀ x, x ∈ entries → ∃ e, x = publicEntry (entry_name e) e ∧
         reaches (cm_Root (as_commit a)) (components ++ [entry_name e]) e) ∧
      (∀ c e, reaches (cm_Root (as_commit a)) (components ++ [c]) e →
         publicEntry c e ∈ entries ∨ sha256_collision)).
Proof.
  exact (@ListDir_exact _ toy_aead toy_aead_laws toy_chunker toy_consumer (str "docs") toy_view []).
Defined.

Lemma ReadAt_exact_witness :
  (0 ≤ 10 ≤ int64_max) ∧
  mwp (consumer_rely (H:=toy_aead) (H1:=toy_chunker) toy_consumer) (consumer_protocol (H1:=toy_chunker) toy_consumer)
    (toy_open_read 10 1) toy_view [] (λ h' s' r, s' = toy_view ∧
    ∀ file pair, r = Ok (file, pair) → ∃ a resolved,
      cs_state toy_view = Some a ∧ resolved_in a (str "docs/a") resolved ∧
      de_Type (re_entry resolved) = EntryFile ∧
      named_by (str "file") (de_Node (re_entry resolved)) (fl_manifest file) ∧
      File_Size file = de_Size (re_entry resolved) ∧
      File_Generation file = sr_Generation (as_reference a) ∧
      read_exact (fl_manifest file) 10 1 pair).
Proof.
  split; [unfold int64_max; lia|].
  apply (@ReadAt_exact _ toy_aead toy_aead_laws toy_chunker toy_consumer (str "docs/a") 10 1 toy_view []);
    unfold int64_min, int64_max; lia.
Defined.
