(* ===== verification/ClosureProofs.v ===== *)
(** * Snapshot closures are exact

    The walker of [Closure] keeps a soundness invariant (every collected key is
    the key of an object the snapshot needs) and a completeness invariant (a
    scheduled manifest is on the stack or everything it names is scheduled or
    collected).  At the end the stack is empty, and the two meet in
    [ResolveSnapshotClosure_exact].  [closure_walk_terminates] shows that the
    edge limit bounds the walk, and [closure_seal_binds] that the seal of a
    resolved closure admits no other closure. *)

From stdpp Require Import sorting.
From S2P Require Import Prelude.
From S2P Require Import Prog.
From S2P Require Import GoStd.
From S2P Require Import Encoding.
From S2P Require Import Sha256.
From S2P Require Import Json.
From S2P Require Import Model.
From S2P Require Import Manifests.
From S2P Require Import Effects.
From S2P Require Import Trust.
From S2P Require Import MemStore.
From S2P Require Import ClientEncryption.
From S2P Require Import Repository.
From S2P Require Import Ancestry.
From S2P Require Import Closure.
From S2P Require Import Consumer.
From S2P Require Import ConsumerProofs.
From S2P Require Import Reader.

(** ** What a snapshot needs *)

Section Needs.
Context {U : Hashed}.

(** The manifests of the tree: its root, and what the entries name. *)
Inductive tree_node (root : Digest) : snapshotClosureNode → Prop :=
| tree_root : tree_node root {| scn_kind := kindDir; scn_digest := root |}
| tree_entry path e node size :
    reaches root path e → entryNode e = Some (node, size) → tree_node root node.

(** [needs g commit root kind d]: the snapshot of generation [g] with this
    commit and root needs the object [d] of this kind. *)
Inductive needs (g : N) (commit root : Digest) : bytes → Digest → Prop :=
| needs_commit g0 d0 :
    ancestor g commit g0 d0 → (1 ≤ g0)%N → needs g commit root kindCommit d0
| needs_node node :
    tree_node root node → needs g commit root (scn_kind node) (scn_digest node)
| needs_chunk d m c :
    tree_node root {| scn_kind := kindFile; scn_digest := d |} → named_by kindFile d m →
    c ∈ els (fm_Chunks m) → needs g commit root kindChunk (cr_Digest c).

Lemma entryNode_cases e node size :
  entryNode e = Some (node, size) →
  scn_digest node = de_Node e ∧
  ((de_Type e = EntryDir ∧ scn_kind node = kindDir ∧ size = -1) ∨
   (de_Type e = EntryFile ∧ scn_kind node = kindFile ∧ size = de_Size e) ∨
   (de_Type e = EntrySymlink ∧ scn_kind node = kindSymlink ∧ size = de_Size e)).
Proof.
  unfold entryNode. intros E. repeat case_match; simplify_eq; bool_prop; simpl; split; auto 10.
Qed.

Lemma tree_step root d m e node size :
  tree_node root {| scn_kind := kindDir; scn_digest := d |} → named_by kindDir d m →
  directory_ok m → e ∈ els (dm_Entries m) → entryNode e = Some (node, size) → tree_node root node.
Proof.
  intros Ht Hn Hm He Hnode.
  inversion Ht as [|path sub n sz Hr Hsub]; subst; [by eapply tree_entry; [eapply reaches_here|]|].
  destruct (entryNode_cases _ _ _ Hsub) as [Hd [(Hty & _)|[(_ & Hk & _)|(_ & Hk & _)]]]; [|done..].
  simpl in Hd. subst d. eapply tree_entry; [by eapply reaches_snoc|done].
Qed.

(** ** The state of the walker *)

End Needs.

Section Invariant.
Context {U : Hashed} (repository : Repository) (maximumObjects : Z).
Context (g : N) (commit root : Digest).
Abbreviation key_of node := (objectKey repository (scn_kind node) (scn_digest node)).

(** Variables that only grow. *)
Record grows (w w' : snapshotClosureWalker) : Prop := {
  grows_keys : cw_keys w ⊆ cw_keys w';
  grows_scheduled : cw_scheduled w ⊆ cw_scheduled w';
  grows_files : cw_fileSizes w ⊆ cw_fileSizes w';
  grows_links : cw_linkSizes w ⊆ cw_linkSizes w';
}.
#[export] Instance grows_preorder : PreOrder grows.
Proof.
  split; [by intros w; split|]. intros a b c [] []. split; by etrans.
Qed.

(** The size that the entries leading to a node agree on is recorded. *)
Definition expects (w : snapshotClosureWalker) (node : snapshotClosureNode) (size : Z) : Prop :=
  (scn_kind node = kindFile → cw_fileSizes w !! scn_digest node = Some size) ∧
  (scn_kind node = kindSymlink → cw_linkSizes w !! scn_digest node = Some size).

(** What a node names is in the walker. *)
Definition processed (w : snapshotClosureWalker) (node : snapshotClosureNode) : Prop :=
  let d := scn_digest node in
  (scn_kind node = kindDir ∧ ∃ m, named_by kindDir d m ∧ directory_ok m ∧
     ∀ e, e ∈ els (dm_Entries m) → ∃ node' size,
       entryNode e = Some (node', size) ∧ node' ∈ cw_scheduled w ∧ expects w node' size) ∨
  (scn_kind node = kindFile ∧ ∃ m, named_by kindFile d m ∧ cw_fileSizes w !! d = Some (fm_Size m) ∧
     ∀ c, c ∈ els (fm_Chunks m) → objectKey repository kindChunk (cr_Digest c) ∈ cw_keys w) ∨
  (scn_kind node = kindSymlink ∧ ∃ m, named_by kindSymlink d m ∧
     cw_linkSizes w !! d = Some (len (els (sm_Target m)))).

Lemma expects_grows w w' node size : grows w w' → expects w node size → expects w' node size.
Proof.
  intros [_ _ Hf Hl] [Ef El]. split; intros Hk; eapply lookup_weaken; eauto.
Qed.

Lemma processed_grows w w' node : grows w w' → processed w node → processed w' node.
Proof.
  intros Hg. pose proof Hg as [Hk Hs Hf Hl]. intros [(? & m & ? & ? & He)|[(? & m & ? & Hz & Hc)|(? & m & ? & Hz)]].
  - left. split; [done|]. exists m. split_and!; [done..|]. intros e (n & sz & ? & ? & ?)%He.
    exists n, sz. split_and!; [done|set_solver|by eapply expects_grows].
  - right. left. split; [done|]. exists m. split_and!; [done|by eapply lookup_weaken|]. intros c Hin. by apply Hk, Hc.
  - right. right. split; [done|]. exists m. split; [done|]. by eapply lookup_weaken.
Qed.

(** The collected keys. *)
Record keys_ok (w : snapshotClosureWalker) : Prop := {
  ko_seen : ∀ k, k ∈ cw_seenKeys w ↔ k ∈ cw_keys w;
  ko_nodup : NoDup (cw_keys w);
  ko_bound : len (cw_keys w) ≤ maximumObjects;
  ko_sound : ∀ k, k ∈ cw_keys w → ∃ kind d, needs g commit root kind d ∧ k = objectKey repository kind d;
}.

(** [open] is the node being processed, off the stack. *)
Record walker_ok (open : list snapshotClosureNode) (w : snapshotClosureWalker) : Prop := {
  wo_keys : keys_ok w;
  wo_tree : ∀ node, node ∈ cw_scheduled w → tree_node root node;
  wo_collected : ∀ node, node ∈ cw_scheduled w → key_of node ∈ cw_keys w;
  wo_sized : ∀ node, node ∈ cw_scheduled w → ∃ size, expects w node size;
  wo_stack : ∀ item, item ∈ cw_work w → scw_node item ∈ cw_scheduled w;
  wo_done : ∀ node, node ∈ cw_scheduled w →
    node ∈ scw_node <$> cw_work w ∨ node ∈ open ∨ processed w node;
}.

(** A change that keeps the schedule, the stack and the sizes. *)
Lemma walker_ok_same open w w' :
  walker_ok open w → keys_ok w' → grows w w' → cw_scheduled w' = cw_scheduled w →
  cw_work w' = cw_work w → walker_ok open w'.
Proof.
  intros [Hk Ht Hc Hz Hs Hd] Hk' Hg Es Ew. constructor; rewrite ?Es, ?Ew; try done.
  - intros node Hn. by apply (grows_keys _ _ Hg), Hc.
  - intros node (size & Hsz)%Hz. exists size. by eapply expects_grows.
  - intros node Hn. destruct (Hd node Hn) as [?|[?|?]]; eauto using processed_grows.
Qed.
End Invariant.

(** ** Steps of the walker *)

Section Walking.
Context {U : Hashed} `{AEADLaws} `{Chunker} (R : rely eff) (G : guarantee eff) (HG : reads_free G).

(** [m] only reads the store, and ends in [Q] when it succeeds. *)
Definition walking {A} (m : M eff snapshotClosureWalker A) (w : snapshotClosureWalker)
    (Q : snapshotClosureWalker → A → Prop) : Prop :=
  ∀ h, mwp R G m w h (λ h' w' r, ext_reads h h' ∧ ∀ a, r = Ok a → Q w' a).

Lemma walking_mono {A} (m : M eff snapshotClosureWalker A) w (Q Q' : snapshotClosureWalker → A → Prop) :
  walking m w Q → (∀ w' a, Q w' a → Q' w' a) → walking m w Q'.
Proof.
  intros Hm HQ h. eapply mwp_mono; [apply Hm|]. intros h' w' r [He Hr]. split; [done|]. intros a ->. by apply HQ, Hr.
Qed.
Lemma walking_bind {A B} (m : M eff snapshotClosureWalker A) (f : A → M eff snapshotClosureWalker B) w Q :
  walking m w (λ w' a, walking (f a) w' Q) → walking (mbind m f) w Q.
Proof.
  intros Hm h. apply mwp_bind. eapply mwp_mono; [apply Hm|]. intros h1 w1 [a|e] [E1 Ha]; [|done].
  eapply mwp_mono; [by apply Ha|]. intros h2 w2 r [E2 Hr]. split; [by etrans|done].
Qed.
Lemma walking_ret {A} (a : A) w (Q : snapshotClosureWalker → A → Prop) : Q w a → walking (mret a) w Q.
Proof. intros HQ h. split; [apply ext_reads_refl|]. by intros a' [= <-]. Qed.
Lemma walking_fail {A} e w (Q : snapshotClosureWalker → A → Prop) : walking (mfail e) w Q.
Proof. intros h. by split; [apply ext_reads_refl|]. Qed.
Lemma walking_lift {A} (r : result A) w (Q : snapshotClosureWalker → A → Prop) :
  (∀ a, r = Ok a → Q w a) → walking (mlift r) w Q.
Proof. intros HQ h. by split; [apply ext_reads_refl|]. Qed.
Lemma walking_guard c e w (Q : snapshotClosureWalker → unit → Prop) :
  (c = false → Q w tt) → walking (mguard c e) w Q.
Proof. intros HQ. apply walking_lift. intros []. by destruct c; simpl; auto. Qed.
Lemma walking_get w (Q : snapshotClosureWalker → snapshotClosureWalker → Prop) : Q w w → walking mget w Q.
Proof. intros HQ h. split; [apply ext_reads_refl|]. by intros a [= <-]. Qed.
Lemma walking_modify f w (Q : snapshotClosureWalker → unit → Prop) : Q (f w) tt → walking (mmodify f) w Q.
Proof. intros HQ h. split; [apply ext_reads_refl|]. by intros a [= <-]. Qed.
Lemma walking_reading {A} (m : M eff snapshotClosureWalker A) w (P : result A → Prop) Q :
  reading G R m P → (∀ a, P (Ok a) → Q w a) → walking m w Q.
Proof.
  intros Hm HQ h. eapply mwp_mono; [apply Hm|]. intros h' w' r (-> & He & Hr). split; [done|]. intros a ->. by apply HQ.
Qed.
Lemma walking_ctx w (Q : snapshotClosureWalker → unit → Prop) : Q w tt → walking checkCtx w Q.
Proof.
  intros HQ. eapply (walking_reading _ _ (λ _, True)); [by apply reading_checkCtx|]. by intros [] _.
Qed.

Ltac wk :=
  lazymatch goal with
  | |- walking (mbind _ _) _ _ => apply walking_bind
  | |- walking (mret _) _ _ => apply walking_ret
  | |- walking (mfail _) _ _ => apply walking_fail
  | |- walking (mlift _) _ _ => apply walking_lift; intros ? ?
  | |- walking (mguard _ _) _ _ => apply walking_guard; intros ?
  | |- walking mget _ _ => apply walking_get
  | |- walking (mmodify _) _ _ => apply walking_modify
  | |- walking checkCtx _ _ => apply walking_ctx
  end; simpl.

Context (repository : Repository) (maximumObjects maximumEdges maximumMetadataBytes : Z).
Context (HR : hashing repository R).

Section Tree.
Context (g : N) (commit root : Digest).
Abbreviation keys_ok := (keys_ok repository maximumObjects g commit root).
Abbreviation walker_ok := (walker_ok repository maximumObjects g commit root).
Abbreviation processed := (processed repository).
Abbreviation needs := (needs g commit root).
Abbreviation addKey := (addKey repository maximumObjects).
Abbreviation addEdge := (addEdge maximumEdges).
Abbreviation schedule := (schedule repository maximumObjects).
Abbreviation scheduleEntries := (scheduleEntries repository maximumObjects maximumEdges).
Abbreviation addChunks := (addChunks repository maximumObjects maximumEdges).
Abbreviation visit := (visit repository maximumObjects maximumEdges maximumMetadataBytes).
Abbreviation walk := (walk repository maximumObjects maximumEdges maximumMetadataBytes).

(** A key is added: nothing else changes. *)
Lemma addKey_walking kind d w :
  keys_ok w → needs kind d →
  walking (addKey kind d) w (λ w' _, keys_ok w' ∧ grows w w' ∧
    objectKey repository kind d ∈ cw_keys w' ∧ cw_scheduled w' = cw_scheduled w ∧
    cw_work w' = cw_work w).
Proof.
  intros [Hs Hn Hb Hk] Hneeds. unfold addKey. do 2 wk. case_bool_decide as Hin.
  { wk. split_and!; try done. by apply Hs. }
  do 3 wk. bool_prop. rewrite Hs in Hin. split_and!; try done.
  - constructor; simpl.
    + intros k. rewrite elem_of_union, elem_of_singleton, elem_of_app, list_elem_of_singleton, Hs. tauto.
    + apply NoDup_app. split_and!; [done| |apply NoDup_singleton].
      intros k Hk1 ->%list_elem_of_singleton. done.
    + rewrite len_app. unfold len in *. simpl. lia.
    + intros k [?| ->%list_elem_of_singleton]%elem_of_app; [by apply Hk|]. by exists kind, d.
  - split; simpl; try done. set_solver.
  - apply elem_of_app. right. by left.
Qed.

Lemma addEdge_walking open w :
  walker_ok open w → walking addEdge w (λ w' _, walker_ok open w' ∧ grows w w').
Proof.
  intros Hok. unfold addEdge. do 2 wk. do 2 wk. do 3 wk. split; [|by split].
  eapply walker_ok_same; [exact Hok| |by split|done|done]. destruct (wo_keys _ _ _ _ _ _ _ Hok). by split.
Qed.

Lemma getManifest_walking {T} `{JSON T} kind d w :
  walking (walker_getManifest repository maximumMetadataBytes (T:=T) kind d) w (λ w' v,
    named_by kind d v ∧ ∃ n, w' = chargeMetadata n w ∧ 0 ≤ n).
Proof.
  unfold walker_getManifest. do 2 wk. do 2 wk. do 2 wk. wk.
  eapply walking_reading; [by apply getImmutableLimited_reading|]. intros data Hd. simpl. do 3 wk.
  split; [exists data; split; [done|by apply Hd]|]. eexists. split; [done|apply len_nonneg].
Qed.

Lemma charged_ok open n w : walker_ok open w → walker_ok open (chargeMetadata n w) ∧ grows w (chargeMetadata n w).
Proof.
  intros Hok. assert (grows w (chargeMetadata n w)) as Hg by (by split). split; [|done].
  eapply walker_ok_same; [exact Hok| |done|done|done]. by destruct (wo_keys _ _ _ _ _ _ _ Hok).
Qed.

(** An expected size is compatible with the ones recorded. *)
Lemma expectSize_walking node size w :
  walking (expectSize node size) w (λ w' _,
    expects w' node size ∧ grows w w' ∧ cw_keys w' = cw_keys w ∧ cw_seenKeys w' = cw_seenKeys w ∧
    cw_scheduled w' = cw_scheduled w ∧ cw_work w' = cw_work w).
Proof.
  assert (∀ m d, conflicting m d size = false → m ⊆ <[d := size]> m) as Hgrow.
  { intros m d Hc. unfold conflicting in Hc. destruct (m !! d) as [known|] eqn:E.
    - bool_prop. subst known. by rewrite insert_id.
    - by apply insert_subseteq. }
  unfold expectSize. do 2 wk. case_bool_decide as Hf; [|case_bool_decide as Hl].
  - do 3 wk. split_and!; try done.
    + split; simpl; [by rewrite lookup_insert_eq|]. rewrite Hf. done.
    + split; simpl; auto.
  - do 3 wk. split_and!; try done.
    + split; simpl; [done|by rewrite lookup_insert_eq].
    + split; simpl; auto.
  - wk. split_and!; try done.
Qed.

Lemma schedule_walking open node size depth w :
  walker_ok open w → tree_node root node →
  walking (schedule node size depth) w (λ w' _,
    walker_ok open w' ∧ grows w w' ∧ node ∈ cw_scheduled w' ∧ expects w' node size).
Proof.
  intros Hok Ht. unfold schedule. do 2 wk. wk.
  eapply walking_mono; [apply expectSize_walking|]. intros w1 [] (Hx & Hg1 & Ek & Ese & Esc & Ew). simpl.
  assert (walker_ok open w1) as Hok1.
  { eapply walker_ok_same; [exact Hok| |done|done|done].
    destruct (wo_keys _ _ _ _ _ _ _ Hok) as [A B C D]. by split; rewrite ?Ek, ?Ese. }
  do 2 wk. case_bool_decide as Hin; [by wk|].
  wk. eapply walking_mono; [apply addKey_walking; [apply Hok1|by apply needs_node]|].
  intros w2 [] (Hk2 & Hg2 & Hin2 & Es2 & Ew2). wk.
  assert (grows w2 (pushWork node depth w2)) as Hg3 by (split; simpl; [done|set_solver|done|done]).
  assert (walker_ok open w2) as Hok2 by (by eapply walker_ok_same).
  split_and!; [|transitivity w1; [done|]; by transitivity w2|set_solver|].
  - destruct Hok2 as [_ Ht2 Hc2 Hz2 Hs2 Hd2]. constructor; simpl.
    + by destruct Hk2.
    + intros n [->%elem_of_singleton|Hn]%elem_of_union; auto.
    + intros n [->%elem_of_singleton|Hn]%elem_of_union; auto.
    + intros n [->%elem_of_singleton|Hn]%elem_of_union; [|destruct (Hz2 n Hn) as [sz ?]; exists sz; by eapply expects_grows].
      exists size. eapply (expects_grows w1); [by transitivity w2|done].
    + intros item [->|Hi]%elem_of_cons; [set_solver|]. apply elem_of_union. right. by apply Hs2.
    + intros n [->%elem_of_singleton|Hn]%elem_of_union; [left; by left|].
      destruct (Hd2 n Hn) as [?|[?|?]]; [left; by right|by auto|]. right. right.
      by eapply processed_grows.
  - eapply (expects_grows w1); [by transitivity w2|done].
Qed.

(** All entries of a directory are scheduled with their sizes. *)
Lemma scheduleEntries_walking open entries depth w :
  walker_ok open w →
  (∀ e node size, e ∈ entries → entryNode e = Some (node, size) → tree_node root node) →
  walking (scheduleEntries entries depth) w (λ w' _,
    walker_ok open w' ∧ grows w w' ∧
    ∀ e, e ∈ entries → ∃ node size,
      entryNode e = Some (node, size) ∧ node ∈ cw_scheduled w' ∧ expects w' node size).
Proof.
  revert w. induction entries as [|e entries IH]; intros w Hok Ht; simpl.
  { wk. split_and!; try done. intros e He'. by apply not_elem_of_nil in He'. }
  wk. eapply walking_mono; [by apply addEdge_walking|]. intros w1 [] (Hok1 & Hg1). wk.
  destruct (entryNode e) as [[node size]|] eqn:Hn; [|by wk].
  eapply walking_mono; [apply (schedule_walking open)|]; [done|by eapply Ht; [left|]|].
  intros w2 [] (Hok2 & Hg2 & Hin2 & Hx2).
  eapply walking_mono; [apply IH|].
  - done.
  - intros e' n sz Hin. apply Ht. by right.
  - intros w3 [] (Hok3 & Hg3 & Hall). split_and!; [done|transitivity w1; [done|]; by transitivity w2|].
    intros e' [->|Hin]%elem_of_cons; [|by apply Hall]. exists node, size.
    split_and!; [done|by apply (grows_scheduled _ _ Hg3)|by eapply expects_grows].
Qed.

Lemma addChunks_walking open d m chunks w :
  walker_ok open w →
  tree_node root {| scn_kind := kindFile; scn_digest := d |} → named_by kindFile d m →
  chunks ⊆ els (fm_Chunks m) →
  walking (addChunks chunks) w (λ w' _,
    walker_ok open w' ∧ grows w w' ∧
    ∀ c, c ∈ chunks → objectKey repository kindChunk (cr_Digest c) ∈ cw_keys w').
Proof.
  intros Hok Ht Hm. revert w Hok. induction chunks as [|c chunks IH]; intros w Hok Hsub; simpl.
  { wk. split_and!; try done. intros c Hc. by apply not_elem_of_nil in Hc. }
  wk. eapply walking_mono; [by apply addEdge_walking|]. intros w1 [] (Hok1 & Hg1). wk.
  eapply walking_mono; [apply addKey_walking|]; [apply Hok1|eapply needs_chunk; [done..|]; apply Hsub; by left|].
  intros w2 [] (Hk2 & Hg2 & Hin2 & Es2 & Ew2).
  eapply walking_mono; [apply IH|].
  - by eapply walker_ok_same.
  - intros x Hx. apply Hsub. by right.
  - intros w3 [] (Hok3 & Hg3 & Hall). split_and!; [done|transitivity w1; [done|]; by transitivity w2|].
    intros c' [->|Hin]%elem_of_cons; [|by apply Hall]. by apply (grows_keys _ _ Hg3).
Qed.

(** The node in hand has been dealt with. *)
Lemma close_node node w : walker_ok [node] w → processed w node → walker_ok [] w.
Proof.
  intros [Hk Ht Hc Hz Hs Hd] Hp. constructor; try done. intros n Hn.
  destruct (Hd n Hn) as [?|[->%list_elem_of_singleton|?]]; auto.
Qed.

Lemma visit_walking item w :
  walker_ok [scw_node item] w → scw_node item ∈ cw_scheduled w →
  walking (visit item) w (λ w' _, walker_ok [] w' ∧ grows w w').
Proof.
  intros Hok Hin. destruct item as [[kind d] depth]. simpl in *. unfold visit. simpl.
  pose proof (wo_tree _ _ _ _ _ _ _ Hok _ Hin) as Ht.
  case_bool_decide as Hk; [|case_bool_decide as Hf; [|case_bool_decide as Hl; [|wk]]]; subst kind.
  - wk. eapply walking_mono; [apply getManifest_walking|]. intros w1 m (Hm & n & -> & Hn).
    destruct (charged_ok _ n _ Hok) as [Hok1 Hg1]. do 2 wk. destruct a.
    match goal with E : validateDirectoryManifest _ = _ |- _ => apply validateDirectoryManifest_ok in E as Hdir end.
    eapply walking_mono; [apply (scheduleEntries_walking [{| scn_kind := kindDir; scn_digest := d |}])|]; [done| |].
    { intros e node size Hin'. by eapply tree_step. }
    intros w2 [] (Hok2 & Hg2 & Hall).
    split; [|by transitivity (chargeMetadata n w)].
    eapply close_node; [done|]. left. split; [done|]. by exists m.
  - wk. eapply walking_mono; [apply getManifest_walking|]. intros w1 m (Hm & n & -> & Hn).
    destruct (charged_ok _ n _ Hok) as [Hok1 Hg1]. do 2 wk. do 2 wk. do 2 wk. bool_prop.
    destruct (wo_sized _ _ _ _ _ _ _ Hok _ Hin) as (size & Hx & _). specialize (Hx eq_refl). simpl in Hx.
    eapply walking_mono; [apply (addChunks_walking [{| scn_kind := kindFile; scn_digest := d |}] d m)|]; try done.
    intros w2 [] (Hok2 & Hg2 & Hall).
    split; [|by transitivity (chargeMetadata n w)].
    eapply close_node; [done|]. right. left. split; [done|]. exists m. split_and!; [done| |done].
    eapply lookup_weaken; [|apply Hg2]. simpl. unfold size_of in *. rewrite Hx in *. simpl in *. congruence.
  - wk. eapply walking_mono; [apply getManifest_walking|]. intros w1 m (Hm & n & -> & Hn).
    destruct (charged_ok _ n _ Hok) as [Hok1 Hg1]. do 2 wk. do 2 wk. wk. bool_prop.
    destruct (wo_sized _ _ _ _ _ _ _ Hok _ Hin) as (size & _ & Hx). specialize (Hx eq_refl). simpl in Hx.
    split; [|done].
    eapply close_node; [done|]. right. right. split; [done|]. exists m. split; [done|].
    simpl. unfold size_of in *. rewrite Hx in *. simpl in *. congruence.
Qed.

Lemma pop_ok item rest w :
  walker_ok [] w → cw_work w = item :: rest →
  walker_ok [scw_node item] (popWork rest w) ∧ scw_node item ∈ cw_scheduled w ∧
  grows w (popWork rest w).
Proof.
  intros [Hk Ht Hc Hz Hs Hd] Ew. rewrite Ew in Hs, Hd.
  assert (grows w (popWork rest w)) as Hg by (by split).
  split_and!; [|apply Hs; by left|done].
  constructor; simpl; try done.
  - by destruct Hk.
  - intros i Hi. apply Hs. by right.
  - intros n Hn. destruct (Hd n Hn) as [[->|?]%elem_of_cons|[?%not_elem_of_nil|?]]; [|by left|done|].
    + right. left. by left.
    + right. right. by eapply processed_grows.
Qed.

(** The walk ends with an empty stack. *)
Lemma walk_walking fuel w :
  walker_ok [] w →
  walking (walk fuel) w (λ w' _, walker_ok [] w' ∧ grows w w' ∧ cw_work w' = []).
Proof.
  revert w. induction fuel as [|fuel IH]; intros w Hok; simpl; do 2 wk;
    (destruct (cw_work w) as [|item rest] eqn:Ew; [by wk|]); [by wk|].
  destruct (pop_ok _ _ _ Hok Ew) as (Hok1 & Hin & Hg1). do 2 wk. do 2 wk.
  wk. eapply walking_mono; [by apply visit_walking|]. intros w2 [] (Hok2 & Hg2).
  eapply walking_mono; [by apply IH|]. intros w3 [] (Hok3 & Hg3 & Ew3). split_and!; [done| |done].
  transitivity (popWork rest w); [done|]. by transitivity w2.
Qed.

(** The commits back to the first generation. *)
Lemma addAncestry_walking n generation d c w :
  walker_ok [] w → ancestor g commit generation d → commit_at generation d c →
  generation = (N.of_nat n + 1)%N →
  walking (addAncestry repository maximumObjects maximumMetadataBytes n generation d c) w (λ w' _,
    walker_ok [] w' ∧ grows w w' ∧
    ∀ g0 d0, ancestor generation d g0 d0 → (1 ≤ g0)%N →
      objectKey repository kindCommit d0 ∈ cw_keys w' ∨ sha256_collision).
Proof.
  revert generation d c w. induction n as [|n IH]; intros generation d c w Hok Ha Hc ->; simpl;
    (wk; eapply walking_mono; [apply addKey_walking; [apply Hok|eapply needs_commit; [done|lia]]|];
     intros w1 [] (Hk1 & Hg1 & Hin1 & Es1 & Ew1);
     assert (walker_ok [] w1) as Hok1 by (by eapply walker_ok_same)).
  - wk. split_and!; try done. intros g0 d0 Hanc Hge. left.
    inversion Hanc as [|g' ? c' p ? ? Hc' Hp Hrest]; subst; [done|]. apply ancestor_le in Hrest. lia.
  - do 2 wk. destruct (cm_Parent c) as [parent|] eqn:Hp; [|by wk]. do 2 wk. wk.
    eapply walking_mono; [apply getManifest_walking|]. intros w2 c' (Hm & k & -> & Hk).
    destruct (charged_ok _ k _ Hok1) as [Hok2 Hg2]. do 2 wk. destruct a.
    assert (commit_at (N.of_nat n + 1 + 1) d c) as Hcd by (by replace (N.of_nat n + 1 + 1)%N with (N.of_nat (S n) + 1)%N by lia).
    replace (N.of_nat (S n) + 1 - 1)%N with (N.of_nat n + 1)%N in * by lia.
    eapply walking_mono; [apply (IH (N.of_nat n + 1)%N parent c')|].
    + done.
    + eapply ancestor_trans; [exact Ha|]. replace (N.of_nat (S n) + 1)%N with (N.of_nat n + 1 + 1)%N by lia.
      eapply ancestor_step; [done|done|constructor].
    + by split.
    + done.
    + intros w3 [] (Hok3 & Hg3 & Hall).
      split_and!; [done| |].
      { transitivity w1; [done|]. by transitivity (chargeMetadata k w1). }
      intros g0 d0 Hanc Hge. replace (N.of_nat (S n) + 1)%N with (N.of_nat n + 1 + 1)%N in Hanc by lia.
      inversion Hanc as [|g' ? c2 p ? ? Hc2 Hp2 Hrest]; subst.
      { left. by apply (grows_keys _ _ Hg3). }
      assert (g' = N.of_nat n + 1)%N as -> by lia.
      destruct (named_by_unique _ _ _ _ (proj1 Hc2) (proj1 Hcd)) as [->|?]; [|by right].
      rewrite Hp in Hp2. injection Hp2 as <-. by eapply Hall.
Qed.
End Tree.

(** *** At the end of the walk *)

Section Finished.
Context (g : N) (commit root : Digest) (w : snapshotClosureWalker).
Hypothesis Hok : walker_ok repository maximumObjects g commit root [] w.
Hypothesis Hwork : cw_work w = [].
Hypothesis Hroot : {| scn_kind := kindDir; scn_digest := root |} ∈ cw_scheduled w.

Lemma finished_processed node : node ∈ cw_scheduled w → processed repository w node.
Proof.
  intros Hn. destruct (wo_done _ _ _ _ _ _ _ Hok node Hn) as [Hin|[Hin|?]]; [|by apply not_elem_of_nil in Hin|done].
  rewrite Hwork in Hin. by apply not_elem_of_nil in Hin.
Qed.

Lemma finished_reaches d path e :
  reaches d path e → {| scn_kind := kindDir; scn_digest := d |} ∈ cw_scheduled w →
  (∃ node size, entryNode e = Some (node, size) ∧ node ∈ cw_scheduled w ∧ expects w node size)
  ∨ sha256_collision.
Proof.
  assert (∀ d m, {| scn_kind := kindDir; scn_digest := d |} ∈ cw_scheduled w → named_by kindDir d m →
    (∀ e, e ∈ els (dm_Entries m) → ∃ node size,
      entryNode e = Some (node, size) ∧ node ∈ cw_scheduled w ∧ expects w node size) ∨ sha256_collision) as Hdir.
  { intros d' m Hd Hm. destruct (finished_processed _ Hd) as [(_ & m' & Hm' & _ & Hall)|[(Hk & _)|(Hk & _)]]; [|done..].
    destruct (named_by_unique _ _ _ _ Hm Hm') as [->|?]; [by left|by right]. }
  induction 1 as [d m e Hm Hmok He|d m sub path e Hm Hmok Hs Hty Hp Hr IH]; intros Hd;
    (destruct (Hdir d m Hd Hm) as [Hall|?]; [|by right]).
  - left. by apply Hall.
  - destruct (Hall sub Hs) as (node & size & Hn & Hin & _). apply IH.
    destruct (entryNode_cases _ _ _ Hn) as [Hd' [(_ & Hk & _)|[(Ht & _)|(Ht & _)]]];
      [|by rewrite Hty in Ht..]. destruct node as [k d']. simpl in *. by subst.
Qed.

Lemma finished_tree node : tree_node root node → node ∈ cw_scheduled w ∨ sha256_collision.
Proof.
  intros [|path e n size Hr Hn]; [by left|].
  destruct (finished_reaches _ _ _ Hr Hroot) as [(n' & sz & Hn' & Hin & _)|?]; [|by right].
  left. rewrite Hn in Hn'. by injection Hn' as <- <-.
Qed.

Lemma finished_needs kind d :
  (∀ g0 d0, ancestor g commit g0 d0 → (1 ≤ g0)%N →
     objectKey repository kindCommit d0 ∈ cw_keys w ∨ sha256_collision) →
  needs g commit root kind d → objectKey repository kind d ∈ cw_keys w ∨ sha256_collision.
Proof.
  intros Hanc [g0 d0 Ha Hge|node Ht|d' m c Ht Hm Hc].
  - by eapply Hanc.
  - destruct (finished_tree _ Ht) as [Hin|?]; [|by right]. left. by apply (wo_collected _ _ _ _ _ _ _ Hok).
  - destruct (finished_tree _ Ht) as [Hin|?]; [|by right].
    destruct (finished_processed _ Hin) as [(Hk & _)|[(_ & m' & Hm' & _ & Hall)|(Hk & _)]]; [done| |done].
    destruct (named_by_unique _ _ _ _ Hm Hm') as [->|?]; [|by right]. left. by apply Hall.
Qed.

Lemma finished_file path e m :
  reaches root path e → de_Type e = EntryFile → named_by kindFile (de_Node e) m →
  fm_Size m = de_Size e ∨ sha256_collision.
Proof.
  intros Hr Hty Hm. destruct (finished_reaches _ _ _ Hr Hroot) as [(node & size & Hn & Hin & Hx & _)|?]; [|by right].
  destruct (entryNode_cases _ _ _ Hn) as [Hd [(Ht & _)|[(_ & Hk & ->)|(Ht & _)]]]; [by rewrite Hty in Ht| |by rewrite Hty in Ht].
  destruct node as [k d]. simpl in *. subst. specialize (Hx eq_refl).
  destruct (finished_processed _ Hin) as [(Hk & _)|[(_ & m' & Hm' & Hz & _)|(Hk & _)]]; [done| |done].
  destruct (named_by_unique _ _ _ _ Hm Hm') as [->|?]; [|by right]. simpl in *. left. congruence.
Qed.

Lemma finished_symlink path e m :
  reaches root path e → de_Type e = EntrySymlink → named_by kindSymlink (de_Node e) m →
  len (els (sm_Target m)) = de_Size e ∨ sha256_collision.
Proof.
  intros Hr Hty Hm. destruct (finished_reaches _ _ _ Hr Hroot) as [(node & size & Hn & Hin & _ & Hx)|?]; [|by right].
  destruct (entryNode_cases _ _ _ Hn) as [Hd [(Ht & _)|[(Ht & _)|(_ & Hk & ->)]]]; [by rewrite Hty in Ht..|].
  destruct node as [k d]. simpl in *. subst. specialize (Hx eq_refl).
  destruct (finished_processed _ Hin) as [(Hk & _)|[(Hk & _)|(_ & m' & Hm' & Hz)]]; [done|done|].
  destruct (named_by_unique _ _ _ _ Hm Hm') as [->|?]; [|by right]. simpl in *. left. congruence.
Qed.
End Finished.

(** *** The collection *)

Lemma collect_walking fuel reference :
  sr_Generation reference ≠ 0%N → 0 ≤ maximumObjects →
  walking (collect repository maximumObjects maximumEdges maximumMetadataBytes fuel reference)
    snapshotClosureWalker_zero (λ _ '(cur, keys),
      let g := sr_Generation reference in let c := sr_Commit reference in let root := cm_Root cur in
      commit_at g c cur ∧ NoDup keys ∧ len keys ≤ maximumObjects ∧
      (∀ k, k ∈ keys → ∃ kind d, needs g c root kind d ∧ k = objectKey repository kind d) ∧
      (∀ kind d, needs g c root kind d → objectKey repository kind d ∈ keys ∨ sha256_collision) ∧
      (∀ path e m, reaches root path e → de_Type e = EntryFile → named_by kindFile (de_Node e) m →
         fm_Size m = de_Size e ∨ sha256_collision) ∧
      (∀ path e m, reaches root path e → de_Type e = EntrySymlink → named_by kindSymlink (de_Node e) m →
         len (els (sm_Target m)) = de_Size e ∨ sha256_collision)).
Proof.
  intros Hg Hmax. unfold collect. wk. eapply walking_mono; [apply getManifest_walking|].
  intros w1 cur (Hm & n & -> & _). do 2 wk. destruct a.
  set (g := sr_Generation reference) in *. set (c := sr_Commit reference) in *. set (root := cm_Root cur).
  assert (commit_at g c cur) as Hat by (by split).
  assert (walker_ok repository maximumObjects g c root [] snapshotClosureWalker_zero) as Hok0.
  { constructor; [constructor|..]; simpl; try (intros ? []%not_elem_of_empty || intros ? []%not_elem_of_nil).
    - set_solver.
    - constructor.
    - done. }
  wk. eapply walking_mono; [apply (addAncestry_walking g c root)|].
  { by apply charged_ok. } { constructor. } { done. } { lia. }
  intros w2 [] (Hok2 & Hg2 & Hanc). wk.
  eapply walking_mono; [apply (schedule_walking g c root []); [done|constructor]|].
  intros w3 [] (Hok3 & Hg3 & Hroot & _). wk.
  eapply walking_mono; [by apply (walk_walking g c root)|]. intros w4 [] (Hok4 & Hg4 & Ew). do 3 wk.
  assert ({| scn_kind := kindDir; scn_digest := root |} ∈ cw_scheduled w4) as Hroot4 by (by apply (grows_scheduled _ _ Hg4)).
  destruct (wo_keys _ _ _ _ _ _ _ Hok4) as [_ Hnd Hle Hsound].
  split_and!; [done..| | |].
  - intros kind d. eapply (finished_needs g c root w4); try done. intros g0 d0 Ha Hge.
    destruct (Hanc g0 d0 Ha Hge) as [Hin|?]; [left|by right]. by apply (grows_keys _ _ Hg4), (grows_keys _ _ Hg3).
  - intros path e m. by eapply (finished_file g c root w4).
  - intros path e m. by eapply (finished_symlink g c root w4).
Qed.

(** *** The measure of the walk

    [walk_load] counts the manifests on the stack and the edges that may still be
    followed: an edge that is followed pushes at most one manifest. *)
Definition walk_load (w : snapshotClosureWalker) : Z := len (cw_work w) + (maximumEdges - cw_edges w).

Definition measured {A} (m : M eff snapshotClosureWalker A) (k : Z) : Prop :=
  ∀ w, cw_edges w ≤ maximumEdges →
  walking m w (λ w' _, cw_edges w' ≤ maximumEdges ∧ walk_load w' ≤ walk_load w + k).

Lemma measured_bind {A B} (m : M eff snapshotClosureWalker A) (f : A → M eff snapshotClosureWalker B) k k' :
  measured m k → (∀ a, measured (f a) k') → measured (mbind m f) (k + k').
Proof.
  intros Hm Hf w He. wk. eapply walking_mono; [by apply Hm|]. intros w1 a [He1 Hl1].
  eapply walking_mono; [by apply Hf|]. intros w2 b [He2 Hl2]. split; [done|lia].
Qed.

Lemma measured_modify f k :
  (∀ w, cw_edges (f w) = cw_edges w ∧ len (cw_work (f w)) ≤ len (cw_work w) + k) → measured (mmodify f) k.
Proof. intros Hf w He. wk. destruct (Hf w) as [-> Hl]. split; [done|]. unfold walk_load. destruct (Hf w) as [-> _]. lia. Qed.

Lemma measured_same {A} (m : M eff snapshotClosureWalker A) :
  (∀ w, walking m w (λ w' _, w' = w)) → measured m 0.
Proof. intros Hm w He. eapply walking_mono; [apply Hm|]. intros w' _ ->. split; [done|lia]. Qed.

Lemma same_get : measured mget 0.
Proof. apply measured_same. intros w. by wk. Qed.
Lemma same_lift {A} (r : result A) : measured (mlift r) 0.
Proof. apply measured_same. intros w. by wk. Qed.
Lemma same_ctx : measured checkCtx 0.
Proof. apply measured_same. intros w. by wk. Qed.
Lemma same_ret {A} (a : A) : measured (mret a) 0.
Proof. apply measured_same. intros w. by wk. Qed.
Lemma same_fail {A} e : measured (A:=A) (mfail e) 0.
Proof. apply measured_same. intros w. by wk. Qed.

Ltac ms k :=
  lazymatch goal with
  | |- measured (mbind _ _) ?n =>
      let rest := eval compute in (n - k) in
      replace n with (k + rest) by lia; apply measured_bind; [|intros ?]; simpl
  | |- measured (mguard _ _) 0 => apply same_lift
  | |- measured (mlift _) 0 => apply same_lift
  | |- measured mget 0 => apply same_get
  | |- measured checkCtx 0 => apply same_ctx
  | |- measured (mret _) 0 => apply same_ret
  | |- measured (mfail _) 0 => apply same_fail
  | |- measured (mmodify _) _ => apply measured_modify; intros ?; split; [done|unfold len; simpl; lia]
  end.

Lemma measured_mono {A} (m : M eff snapshotClosureWalker A) k k' : k ≤ k' → measured m k → measured m k'.
Proof.
  intros Hk Hm w He. eapply walking_mono; [by apply Hm|]. intros w' a [He' Hl]. split; [done|lia].
Qed.

Lemma addKey_measured kind d : measured (addKey repository maximumObjects kind d) 0.
Proof. unfold addKey. ms 0; [by ms 0|]. case_bool_decide; [by ms 0|]. ms 0; by ms 0. Qed.

Lemma addEdge_measured : measured (addEdge maximumEdges) (-1).
Proof.
  intros w He. unfold addEdge. do 2 wk. do 2 wk. do 3 wk. bool_prop. unfold walk_load. simpl. lia.
Qed.

Lemma getManifest_measured {T} `{JSON T} kind d :
  measured (walker_getManifest repository maximumMetadataBytes (T:=T) kind d) 0.
Proof.
  intros w He. eapply walking_mono; [apply getManifest_walking|]. intros w' v (_ & n & -> & _). unfold walk_load. simpl. lia.
Qed.

Lemma schedule_measured node size depth : measured (schedule repository maximumObjects node size depth) 1.
Proof.
  unfold schedule. ms 0; [by ms 0|]. ms 0.
  { unfold expectSize. ms 0; [by ms 0|]. do 2 (case_bool_decide; [ms 0; by ms 0|]). by ms 0. }
  ms 0; [by ms 0|]. case_bool_decide; [apply (measured_mono _ 0); [lia|by ms 0]|].
  ms 0; [apply addKey_measured|]. by ms 1.
Qed.

Lemma visit_measured item :
  measured (visit repository maximumObjects maximumEdges maximumMetadataBytes item) 0.
Proof.
  assert (∀ entries depth, measured (scheduleEntries repository maximumObjects maximumEdges entries depth) 0) as He.
  { induction entries as [|e entries IH]; intros depth; simpl; [by ms 0|]. ms (-1); [apply addEdge_measured|].
    ms 1; [|apply IH]. destruct (entryNode e) as [[node size]|]; [apply schedule_measured|].
    apply (measured_mono _ 0); [lia|by ms 0]. }
  assert (∀ chunks, measured (addChunks repository maximumObjects maximumEdges chunks) 0) as Hc.
  { induction chunks as [|c chunks IH]; simpl; [by ms 0|]. apply (measured_mono _ (-1)); [lia|].
    ms (-1); [apply addEdge_measured|]. ms 0; [apply addKey_measured|apply IH]. }
  unfold visit. repeat case_bool_decide; [..|by ms 0]; (ms 0; [apply getManifest_measured|]); (ms 0; [by ms 0|]).
  - apply He.
  - do 2 (ms 0; [by ms 0|]). apply Hc.
  - ms 0; by ms 0.
Qed.
Lemma addAncestry_measured n generation d c :
  measured (addAncestry repository maximumObjects maximumMetadataBytes n generation d c) 0.
Proof.
  revert generation d c. induction n as [|n IH]; intros generation d c; simpl;
    (ms 0; [apply addKey_measured|]); [by ms 0|].
  ms 0; [by ms 0|]. destruct (cm_Parent c) as [parent|]; [|by ms 0]. ms 0; [by ms 0|].
  ms 0; [apply getManifest_measured|]. ms 0; [by ms 0|]. apply IH.
Qed.
End Walking.

(** ** Sorting *)

#[export] Instance bytes_le_total : Total bytes_le.
Proof.
  intros a b. unfold bytes_le. rewrite (bytes_Compare_antisym b a).
  destruct (bytes_Compare a b); simpl; [by left|by left|by right].
Qed.

Lemma bytes_le_lt a b : bytes_le a b ↔ bytes_lt a b ∨ a = b.
Proof.
  unfold bytes_le, bytes_lt. rewrite <- bytes_Compare_eq. destruct (bytes_Compare a b); split; try tauto; intros [?|?]; done.
Qed.

#[export] Instance bytes_le_trans : Transitive bytes_le.
Proof.
  intros a b c. rewrite !bytes_le_lt. intros [?|<-] [?|<-]; auto. left. by eapply bytes_lt_trans.
Qed.

Lemma sort_Strings_perm l : sort_Strings l ≡ₚ l.
Proof. apply merge_sort_Permutation. Qed.

Lemma sort_Strings_strict l : NoDup l → StronglySorted bytes_lt (sort_Strings l).
Proof.
  intros Hnd. assert (NoDup (sort_Strings l)) as Hnd' by (by rewrite sort_Strings_perm).
  pose proof (StronglySorted_merge_sort bytes_le l) as Hs. fold (sort_Strings l) in Hs.
  revert Hnd' Hs. induction (sort_Strings l) as [|x xs IH]; intros Hnd' Hs; constructor; apply NoDup_cons in Hnd' as [Hx Hnd'].
  - apply IH; [done|]. by inversion Hs.
  - apply StronglySorted_inv in Hs as [_ Hall]. rewrite Forall_forall in *. intros y Hy.
    destruct (proj1 (bytes_le_lt x y) (Hall y Hy)) as [?|<-]; [done|]. done.
Qed.

Lemma mwp_with_local {S W A} R G (w : W) (m : M eff W A) (s : S) h Q :
  mwp R G m w h (λ h' _ r, Q h' s r) → mwp R G (with_local w m) s h Q.
Proof.
  intros Hm. unfold mwp, with_local. apply wp_bind. eapply wp_mono; [exact Hm|]. by intros h' [w' r].
Qed.

Lemma closureLimit_range value default limit n :
  closureLimit value default limit = Ok n → 1 ≤ n ≤ limit.
Proof. unfold closureLimit. intros E. ok_inv. bool_prop. subst. lia. Qed.

(** A closure with its own seal and its repository's binding validates. *)
Lemma sealed_validates (repository : Repository) (closure : SnapshotClosure) :
  sc_resolutionSeal closure = snapshotClosureResolutionSeal closure →
  sc_clientEncryptionConfigured closure =
    match rp_clientEncryption repository with Some _ => true | None => false end →
  sc_clientEncryptionBinding closure = snapshotClosureBinding (rp_clientEncryption repository) →
  (∀ p, rp_clientEncryption repository = Some p → configured (Some p) = true) →
  ValidateResolvedForClientEncryption closure (rp_clientEncryption repository) = Ok tt ∨
  sc_resolutionSeal closure = zero32.
Proof.
  intros Hs Hc Hb Hcfg. unfold ValidateResolvedForClientEncryption, ValidateResolved.
  destruct (decide (sc_resolutionSeal closure = zero32)) as [Hz|Hz].
  { by right. }
  left. rewrite (bool_decide_eq_false_2 _ Hz), (bool_decide_eq_true_2 _ Hs). simpl.
  rewrite Hc, (bool_decide_eq_true_2 _ Hb). destruct (rp_clientEncryption repository) as [p|]; [|done].
  by rewrite (Hcfg p).
Qed.

(** ** Properties *)

(** The reference a closure was resolved from. *)
Definition resolved_from {U : Hashed} (repository : Repository) (channel : bytes) (options : SnapshotClosureOptions)
    (closure : SnapshotClosure) (ref : snapshotReference) (cur : commitManifest) : Prop :=
  ∃ object, reference_valid channel (sco_ReferenceVerifier options) ref object ∧
  commit_at (sr_Generation ref) (sr_Commit ref) cur ∧
  sc_Snapshot closure = {| sn_Generation := sr_Generation ref; sn_Commit := sr_Commit ref;
                           sn_Root := cm_Root cur; sn_PublishedAt := cm_PublishedAtUnix cur |} ∧
  sc_ReferenceKey closure = match sco_ReferenceVerifier options with
                            | Some _ => SignedReferenceKey repository channel
                            | None => ReferenceKey repository channel
                            end ∧
  sc_ReferenceData closure = ob_Data object ∧ sc_ReferenceVersion closure = ob_Version object.

(** The keys are those of the objects that the snapshot needs. *)
Definition exact_keys {U : Hashed} (repository : Repository) (ref : snapshotReference) (cur : commitManifest)
    (keys : list bytes) : Prop :=
  let needed := needs (sr_Generation ref) (sr_Commit ref) (cm_Root cur) in
  StronglySorted bytes_lt keys ∧ len keys ≤ MaxSnapshotClosureObjectsLimit ∧
  (∀ k, k ∈ keys → ∃ kind d, needed kind d ∧ k = objectKey repository kind d) ∧
  (∀ kind d, needed kind d → objectKey repository kind d ∈ keys ∨ sha256_collision).

(** The manifests of the files and the symlinks have the sizes their entries
    state. *)
Definition sizes_agree {U : Hashed} (root : Digest) : Prop :=
  (∀ path e m, reaches root path e → de_Type e = EntryFile → named_by kindFile (de_Node e) m →
     fm_Size m = de_Size e ∨ sha256_collision) ∧
  (∀ path e m, reaches root path e → de_Type e = EntrySymlink → named_by kindSymlink (de_Node e) m →
     len (els (sm_Target m)) = de_Size e ∨ sha256_collision).

(** C10: a resolved closure is exact.  Whatever the object store answers, the
    resolution writes nothing, and the closure it returns belongs to one valid
    (with a verifier, authenticated) reference of the channel; its keys are
    strictly sorted and within the limit; every key is the key of an object that
    the snapshot needs (a commit of its history, a manifest of its tree or a
    chunk of one of its files), and every object the snapshot needs is among
    them; the manifests of its files and symlinks have the sizes that the
    directories state; and the closure carries a seal that validates, for the
    client encryption of the repository (unless it is the all-zero digest).  The
    objects are those of any set that has what is read; the exception is a
    collision of two of them. *)
Theorem ResolveSnapshotClosure_exact {U : Hashed} `{AEADLaws} `{Chunker} {S} (repository : Repository)
    (channel : bytes) (options : SnapshotClosureOptions) (R : rely eff) (s : S) (h : history eff) :
  hashing repository R →
  mwp R any_call (ResolveSnapshotClosure (Some repository) channel options) s h (λ h' s' r,
    s' = s ∧ ext_reads h h' ∧
    ∀ closure, r = Ok closure → ∃ ref cur,
      resolved_from repository channel options closure ref cur ∧
      exact_keys repository ref cur (sc_ObjectKeys closure) ∧ sizes_agree (cm_Root cur) ∧
      ((∀ p, rp_clientEncryption repository = Some p → configured (Some p) = true) →
       ValidateResolvedForClientEncryption closure (rp_clientEncryption repository) = Ok tt ∨
       sc_resolutionSeal closure = zero32)).
Proof.
  intros HR. unfold ResolveSnapshotClosure.
  mwp_step. mwp_step; [by split_and!; [|apply ext_reads_refl|]|].
  mwp_step. mwp_step; [by split_and!; [|apply ext_reads_refl|]|].
  mwp_step. mwp_step. destruct (Repository_validateChannel repository channel); [|by split_and!; [|apply ext_reads_refl|]].
  mwp_step. mwp_step. destruct (closureLimit (sco_MaxObjects options) _ _) as [maxObjects|] eqn:Ho;
    [|by split_and!; [|apply ext_reads_refl|]]. apply closureLimit_range in Ho.
  mwp_step. mwp_step. destruct (closureLimit (sco_MaxEdges options) _ _) as [maxEdges|] eqn:He;
    [|by split_and!; [|apply ext_reads_refl|]]. apply closureLimit_range in He.
  mwp_step. mwp_step. destruct (closureLimit (sco_MaxMetadataBytes options) _ _) as [maxBytes|] eqn:Hb;
    [|by split_and!; [|apply ext_reads_refl|]].
  mwp_step. eapply mwp_mono; [by apply getReference_reading|].
  intros h1 s1 [[ref object]|e] (-> & E1 & Href); [|by split_and!].
  specialize (Href ref object eq_refl). mwp_step. mwp_step; [by split_and!|].
  mwp_step. apply mwp_with_local.
  eapply mwp_mono; [apply collect_walking; [done|done|apply Href|lia]|].
  intros h2 w2 [[cur keys]|e] [E2 Hc]; [|by split_and!; [|etrans|]].
  destruct (Hc _ eq_refl) as (Hat & Hnd & Hle & Hsound & Hcomplete & Hfiles & Hlinks).
  mwp_step. split_and!; [done|by etrans|]. intros closure [= <-]. exists ref, cur.
  split; [by exists object|]. simpl. split; [|split; [done|by apply sealed_validates]]. split_and!.
  - by apply sort_Strings_strict.
  - unfold len in *. rewrite sort_Strings_perm. lia.
  - intros k. rewrite sort_Strings_perm. apply Hsound.
  - intros kind d. rewrite sort_Strings_perm. apply Hcomplete.
Qed.

#[local] Existing Instance everything.

(** ** The end of the walk *)

Section Ending.
Context `{AEADLaws} `{Chunker} {W : Type} (serve : handler eff W) (repository : Repository).
Context (maximumObjects maximumEdges maximumMetadataBytes : Z).
Abbreviation walk := (walk repository maximumObjects maximumEdges maximumMetadataBytes).
Abbreviation collect := (collect repository maximumObjects maximumEdges maximumMetadataBytes).
Abbreviation load := (walk_load maximumEdges).

(** What a successful run of a measured step leaves. *)
Lemma measured_run {A} (m : M eff snapshotClosureWalker A) k w (ω ω' : W) w' a :
  measured any_rely any_call maximumEdges m k → cw_edges w ≤ maximumEdges →
  run serve (m w) ω = (ω', (w', Ok a)) → cw_edges w' ≤ maximumEdges ∧ load w' ≤ load w + k.
Proof.
  intros Hm He Hr. specialize (Hm w He []).
  destruct (wp_run serve any_rely any_call (λ _ _, True) (m w)) with (w:=ω) (h:=@nil (event eff))
    (Q:=λ (h' : history eff) '(w', r), ext_reads [] h' ∧ ∀ a : A, r = Ok a → cw_edges w' ≤ maximumEdges ∧ load w' ≤ load w + k)
    as (h' & HQ & _); [done|done|done|]. rewrite Hr in HQ. simpl in HQ. by eapply HQ.
Qed.

Lemma walk_enough fuel fuel' w (ω : W) :
  cw_edges w ≤ maximumEdges → load w ≤ Z.of_nat fuel → load w ≤ Z.of_nat fuel' →
  run serve (walk fuel w) ω = run serve (walk fuel' w) ω.
Proof.
  revert fuel' w ω. induction fuel as [|fuel IH]; intros fuel' w ω He Hf Hf'.
  - assert (cw_work w = []) as Hw.
    { destruct (cw_work w) as [|i r] eqn:E; [done|]. unfold walk_load, len in Hf. rewrite E in Hf. simpl in Hf. lia. }
    destruct fuel'; simpl; mrun; by rewrite Hw.
  - destruct fuel' as [|fuel'].
    { assert (cw_work w = []) as Hw.
      { destruct (cw_work w) as [|i r] eqn:E; [done|]. unfold walk_load, len in Hf'. rewrite E in Hf'. simpl in Hf'. lia. }
      simpl; mrun; by rewrite Hw. }
    simpl. mrun. destruct (cw_work w) as [|item rest] eqn:Ew; [done|]. erun.
    destruct (serve (option error) CtxErr ω) as [ω1 [e|]]; [done|]. mrun.
    destruct (run serve (visit _ _ _ _ item (popWork rest w)) ω1) as [ω2 [w2 [[]|e]]] eqn:Ev; [|done].
    eapply (measured_run _ 0) in Ev as [He2 Hl2]; [|by apply visit_measured|done].
    assert (load (popWork rest w) = load w - 1) as Hl by (unfold walk_load, len; simpl; rewrite Ew; simpl; lia).
    apply IH; [done|lia..].
Qed.

(** The walk ends.  For every behaviour of the store and the context, the
    limit on edges bounds the manifests a closure visits: with any more fuel
    than [walkLimit] the resolution makes the same calls and has the same
    result. *)
Theorem closure_walk_terminates (extra : nat) (reference : snapshotReference) (ω : W) :
  0 ≤ maximumEdges →
  run serve (collect (walkLimit maximumEdges + extra) reference snapshotClosureWalker_zero) ω =
  run serve (collect (walkLimit maximumEdges) reference snapshotClosureWalker_zero) ω.
Proof.
  intros Hmax. unfold Closure.collect. mrun.
  assert (load snapshotClosureWalker_zero = maximumEdges) as Hl0 by (unfold walk_load, len; simpl; lia).
  destruct (run serve (walker_getManifest _ _ _ _ snapshotClosureWalker_zero) ω) as [ω1 [w1 [cur|e]]] eqn:E1; [|done].
  eapply (measured_run _ 0) in E1 as [He1 Hl1]; [|by apply getManifest_measured|done].
  mrun. destruct (validateCommitManifest cur (sr_Generation reference)); [|done]. mrun.
  destruct (run serve (addAncestry _ _ _ _ _ _ _ w1) ω1) as [ω2 [w2 [[]|e]]] eqn:E2; [|done].
  eapply (measured_run _ 0) in E2 as [He2 Hl2]; [|by apply addAncestry_measured|done]. mrun.
  destruct (run serve (schedule _ _ _ _ _ w2) ω2) as [ω3 [w3 [[]|e]]] eqn:E3; [|done].
  eapply (measured_run _ 1) in E3 as [He3 Hl3]; [|by apply schedule_measured|done]. mrun.
  rewrite (walk_enough (walkLimit maximumEdges + extra) (walkLimit maximumEdges)); [done|done|..];
    unfold walkLimit; lia.
Qed.
End Ending.

(** ** The seal *)

Lemma writeUint64_inj n m (x y : bytes) :
  (n < 2 ^ 64)%N → (m < 2 ^ 64)%N → writeUint64 n ++ x = writeUint64 m ++ y → n = m ∧ x = y.
Proof. apply BigEndian_Append_inj. Qed.

Lemma writeBytes_inj a b (x y : bytes) :
  len a < 2 ^ 64 → len b < 2 ^ 64 → writeBytes a ++ x = writeBytes b ++ y → a = b ∧ x = y.
Proof.
  intros Ha Hb E. unfold writeBytes in E. rewrite <- !(assoc_L (++)) in E.
  pose proof (len_nonneg a). pose proof (len_nonneg b).
  apply writeUint64_inj in E as [El E]; [|lia..]. apply app_inj_1 in E; [done|]. unfold len in *. lia.
Qed.

Lemma keys_inj (l l' : list bytes) (x y : bytes) :
  Forall (λ k, len k < 2 ^ 64) l → Forall (λ k, len k < 2 ^ 64) l' → length l = length l' →
  concat (map writeBytes l) ++ x = concat (map writeBytes l') ++ y → l = l' ∧ x = y.
Proof.
  revert l'. induction l as [|a l IH]; intros [|b l'] Hl Hl' Hlen E; try done.
  apply Forall_cons in Hl as [Ha Hl]. apply Forall_cons in Hl' as [Hb Hl']. simpl in E.
  rewrite <- !(assoc_L (++)) in E. apply writeBytes_inj in E as [-> E]; [|done..].
  simpl in Hlen. injection Hlen as Hlen. by destruct (IH l' Hl Hl' Hlen E) as [-> ->].
Qed.

(** The ranges of Go's types. *)
Record closure_typed (c : SnapshotClosure) : Prop := {
  ct_generation : (sn_Generation (sc_Snapshot c) ≤ u64_max)%N;
  ct_commit : digest_wf (sn_Commit (sc_Snapshot c));
  ct_root : digest_wf (sn_Root (sc_Snapshot c));
  ct_time : int64_min ≤ sn_PublishedAt (sc_Snapshot c) ≤ int64_max;
  ct_lengths : Forall (λ b, len b ≤ int64_max)
    ([sc_ReferenceKey c; sc_ReferenceData c; v_ETag (sc_ReferenceVersion c);
      v_VersionID (sc_ReferenceVersion c)] ++ sc_ObjectKeys c);
  ct_count : len (sc_ObjectKeys c) ≤ int64_max;
}.

Lemma uint64_of_inj a b :
  int64_min ≤ a ≤ int64_max → int64_min ≤ b ≤ int64_max → uint64_of a = uint64_of b → a = b.
Proof.
  unfold uint64_of, int64_min, int64_max. intros Ha Hb E. apply Z2N.inj in E; [|apply Z.mod_pos_bound; lia..].
  pose proof (Z.div_mod a (2 ^ 64) ltac:(lia)). pose proof (Z.div_mod b (2 ^ 64) ltac:(lia)).
  pose proof (Z.mod_pos_bound a (2 ^ 64) ltac:(lia)). pose proof (Z.mod_pos_bound b (2 ^ 64) ltac:(lia)).
  set (qa := a / 2 ^ 64) in *. set (qb := b / 2 ^ 64) in *. nia.
Qed.

(** The hashed text determines the closure but for its seal. *)
Lemma closureSealInput_inj c c' :
  closure_typed c → closure_typed c' → closureSealInput c = closureSealInput c' →
  sc_resolutionSeal c = sc_resolutionSeal c' → c = c'.
Proof.
  intros [Hg Hc Hr Ht Hl Hn] [Hg' Hc' Hr' Ht' Hl' Hn'] E Hs.
  destruct c as [[g d r t] rk rd [et vi] ks sl cf bd], c' as [[g' d' r' t'] rk' rd' [et' vi'] ks' sl' cf' bd'].
  unfold closureSealInput in E. apply app_inv_head in E. cbn -[writeUint64 writeBytes] in *. unfold u64_max, int64_max, digest_wf in *.
  apply writeUint64_inj in E as [-> E]; [|lia..].
  apply app_inj_1 in E as [-> E]; [|congruence]. apply app_inj_1 in E as [-> E]; [|congruence].
  assert (∀ z, (uint64_of z < 2 ^ 64)%N) as Hu.
  { intros z. unfold uint64_of. pose proof (Z.mod_pos_bound z (2 ^ 64) ltac:(lia)). lia. }
  apply writeUint64_inj in E as [Et%uint64_of_inj E]; [|done..]. subst t'.
  assert (∀ l, Forall (λ b : bytes, len b ≤ 2 ^ 63 - 1) l → Forall (λ b : bytes, len b < 2 ^ 64) l) as Hw.
  { intros l Hall. eapply Forall_impl; [exact Hall|]. simpl. lia. }
  rewrite !Forall_cons in Hl, Hl'. destruct Hl as (H1' & H2' & H3' & H4' & Hl), Hl' as (H5 & H6 & H7 & H8 & Hl').
  apply writeBytes_inj in E as [-> E]; [|lia..]. apply writeBytes_inj in E as [-> E]; [|lia..].
  apply writeBytes_inj in E as [-> E]; [|lia..]. apply writeBytes_inj in E as [-> E]; [|lia..].
  pose proof (len_nonneg ks). pose proof (len_nonneg ks').
  apply writeUint64_inj in E as [El E]; [|lia..].
  apply keys_inj in E as [-> E]; [|by auto..|unfold len in *; lia].
  simpl in E. injection E as Ecf ->. subst sl'. by destruct cf, cf'.
Qed.

(** A seal names one closure.  Two closures that validate and carry the same
    seal are the same, reference, version, keys and encryption binding included,
    or their sealed encodings collide under SHA-256; a caller cannot add or drop a key. *)
Theorem closure_seal_binds (c c' : SnapshotClosure) :
  closure_typed c → closure_typed c' → ValidateResolved c = Ok tt → ValidateResolved c' = Ok tt →
  sc_resolutionSeal c = sc_resolutionSeal c' → c = c' ∨ collide (closureSealInput c) (closureSealInput c').
Proof.
  unfold ValidateResolved. intros Ht Ht' Hv Hv' Hs. ok_inv. bool_prop.
  destruct (decide (closureSealInput c = closureSealInput c')) as [E|E]; [left; by apply closureSealInput_inj|].
  right. split; [done|].
  unfold snapshotClosureResolutionSeal in *. congruence.
Qed.

(** ** The closure of a published file *)

Definition toy_closure_options : SnapshotClosureOptions :=
  {| sco_ReferenceVerifier := None; sco_MaxObjects := 100; sco_MaxEdges := 10;
     sco_MaxMetadataBytes := 0 |}.

Definition toy_closure : option SnapshotClosure :=
  match (run toy_reader (ResolveSnapshotClosure (H:=toy_aead) (H0:=toy_chunker) (Some toy_plain)
                           (str "main") toy_closure_options tt) (toy_library, None)).2.2 with
  | Ok closure => Some closure
  | Err _ => None
  end.

(** A commit, two directories, a file and two chunks. *)
Example toy_closure_keys :
  (length ∘ sc_ObjectKeys) <$> toy_closure = Some 6%nat ∧
  (λ c, ValidateResolvedForClientEncryption c None) <$> toy_closure = Some (Ok tt) ∧
  (λ c, sn_Generation (sc_Snapshot c)) <$> toy_closure = Some 1%N.
Proof. vm_compute. split_and!; reflexivity. Qed.

(** With fewer keys allowed the resolution is refused. *)
Example toy_closure_limit :
  (run toy_reader (ResolveSnapshotClosure (H:=toy_aead) (H0:=toy_chunker) (Some toy_plain) (str "main")
     {| sco_ReferenceVerifier := None; sco_MaxObjects := 5; sco_MaxEdges := 10;
        sco_MaxMetadataBytes := 0 |} tt) (toy_library, None)).2.2 = Err [ErrResourceLimit].
Proof. by vm_compute. Qed.

(** A store that answers with objects of the library. *)
Definition toy_answers : rely eff := λ _ X e x,
  match e in eff T return T → Prop with
  | Store_Get key o => λ x, ∀ ob kind d, x = Ok ob → key = objectKey toy_plain kind d →
      hashed_object (U:=toy_objects) kind (ob_Data ob)
  | _ => λ _, True
  end x.

Lemma ResolveSnapshotClosure_exact_witness :
  let U := toy_objects in
  mwp toy_answers any_call (ResolveSnapshotClosure (H:=toy_aead) (H0:=toy_chunker) (Some toy_plain)
    (str "main") toy_closure_options) tt [] (λ h' s' r, s' = tt ∧ ext_reads [] h' ∧
    ∀ closure, r = Ok closure → ∃ ref cur,
      resolved_from (U:=U) toy_plain (str "main") toy_closure_options closure ref cur ∧
      exact_keys (U:=U) toy_plain ref cur (sc_ObjectKeys closure) ∧ sizes_agree (U:=U) (cm_Root cur) ∧
      ((∀ p, rp_clientEncryption toy_plain = Some p → configured (Some p) = true) →
       ValidateResolvedForClientEncryption closure (rp_clientEncryption toy_plain) = Ok tt ∨
       sc_resolutionSeal closure = zero32)).
Proof.
  intros U. apply (@ResolveSnapshotClosure_exact U toy_aead toy_aead_laws toy_chunker unit toy_plain (str "main")
    toy_closure_options toy_answers tt []).
  intros h kind d o ob data Hr Ho. injection Ho as <-. exact (Hr ob kind d eq_refl eq_refl).
Defined.

Lemma closure_walk_terminates_witness :
  run toy_reader (collect (H:=toy_aead) (H0:=toy_chunker) toy_plain 100 10 1000 (walkLimit 10 + 7)
    toy_reference snapshotClosureWalker_zero) (toy_library, None) =
  run toy_reader (collect (H:=toy_aead) (H0:=toy_chunker) toy_plain 100 10 1000 (walkLimit 10)
    toy_reference snapshotClosureWalker_zero) (toy_library, None).
Proof.
  by apply (@closure_walk_terminates toy_aead toy_chunker _ toy_reader toy_plain 100 10 1000 7).
Defined.

(** A closure with one key. *)
Definition toy_sealed : SnapshotClosure :=
  let closure seal :=
    {| sc_Snapshot := {| sn_Generation := 1; sn_Commit := sha256 []; sn_Root := sha256 [x01];
                         sn_PublishedAt := 5 |};
       sc_ReferenceKey := str "ref"; sc_ReferenceData := str "data";
       sc_ReferenceVersion := {| v_ETag := str "etag"; v_VersionID := [] |};
       sc_ObjectKeys := [str "key"]; sc_resolutionSeal := seal;
       sc_clientEncryptionConfigured := false; sc_clientEncryptionBinding := zero32 |} in
  closure (snapshotClosureResolutionSeal (closure zero32)).

Lemma closure_seal_binds_witness :
  toy_sealed = toy_sealed ∨ collide (closureSealInput toy_sealed) (closureSealInput toy_sealed).
Proof.
  assert (closure_typed toy_sealed) as Ht.
  { split; [done|by vm_compute|by vm_compute|done| |done].
    unfold len. simpl. repeat constructor; by vm_compute. }
  apply (closure_seal_binds toy_sealed toy_sealed Ht Ht); by vm_compute.
Defined.
