(* ===== verification/BundleProofs.v ===== *)
(** * Share bundles: what is accepted and what is built

    [Decode_authenticated] says what a reader may conclude from an accepted
    bundle; [BuildSnapshotBundle_exact] says what a publisher puts into one. *)

From stdpp Require Import sorting.
From S2P Require Import Prelude.
From S2P Require Import Prog.
From S2P Require Import GoStd.
From S2P Require Import Encoding.
From S2P Require Import Sha256.
From S2P Require Import Json.
From S2P Require Import Model.
From S2P Require Import Rfc3339.
From S2P Require Import Effects.
From S2P Require Import Capability.
From S2P Require Import Trust.
From S2P Require Import MemStore.
From S2P Require Import ClientEncryption.
From S2P Require Import Repository.
From S2P Require Import Closure.
From S2P Require Import Consumer.
From S2P Require Import Bundle.
From S2P Require Import ClosureProofs.

(** Calls on the clock and the presigner only read. *)
Lemma reading_time {S} (G : guarantee eff) (R : rely eff) (P : result Z → Prop) :
  reads_free G → (∀ now, P (Ok now)) → reading (S:=S) G R time_Now P.
Proof.
  intros HG HP s h. apply mwp_call; [by apply HG|]. intros now _. split_and!; [done| |done].
  by apply ext_reads_snoc; [apply ext_reads_refl|].
Qed.

Lemma reading_every {S} (G : guarantee eff) (R : rely eff) i (P : result unit → Prop) :
  reads_free G → P (Ok tt) → (∀ e, P (Err e)) → reading (S:=S) G R (checkEvery i) P.
Proof.
  intros HG H1 H2. unfold checkEvery. case_match; [by apply reading_checkCtx|by apply reading_ret].
Qed.

(** A branch that ends in an error. *)
Ltac reads := first [by ext_reads | etrans; [|eassumption]; by ext_reads].
Ltac refused := split; [reads|done].

(** ** Capabilities of a bundle *)

(** What every capability of a decoded bundle is. *)
Record exact_capability (options : DecodeOptions) (key : bytes) (capability : Capability) : Prop := {
  xc_key : cap_exactKey capability = key;
  xc_origin : cap_origin capability = cap_origin (do_RootCapability options);
  xc_expiry : cap_expiresAt capability = cap_expiresAt (do_RootCapability options);
  xc_provenance : cap_provenance capability = capabilityProvenanceAuthenticatedBundle;
}.

Section Decoding.
Context `{NetLibrary} {S : Type} (R : rely eff) (G : guarantee eff) (HG : reads_free G).

Lemma newCapability_fields key url headers expiry loopback now provenance c :
  newCapability key url headers expiry loopback now provenance = Ok c →
  cap_exactKey c = key ∧ cap_expiresAt c = expiry ∧ cap_provenance c = provenance.
Proof.
  unfold newCapability. intros E. ok_inv. destruct v1 as [text origin]. ok_inv. by subst c.
Qed.

Lemma decodeCapability_exact options expiry now entry c :
  expiry = cap_expiresAt (do_RootCapability options) →
  decodeCapability options expiry now entry = Ok c → exact_capability options (wc_Key entry) c.
Proof.
  intros -> E. unfold decodeCapability in E. ok_inv. apply newCapability_fields in Hok0 as (Hk & He & Hp).
  bool_prop. subst. by constructor.
Qed.

(** Keys that increase strictly, all above [previous] unless it is empty. *)
Definition ascending (previous : bytes) (keys : list bytes) : Prop :=
  StronglySorted bytes_lt keys ∧ (previous ≠ [] → Forall (bytes_lt previous) keys).

Lemma ascending_cons previous key keys :
  key ≠ [] → (bytes_Compare key previous = Gt ∨ previous = []) → ascending key keys →
  ascending previous (key :: keys).
Proof.
  intros Hne Hprev [Hs Hf]. specialize (Hf Hne). split; [by constructor|]. intros Hp.
  assert (bytes_lt previous key) as Hlt.
  { destruct Hprev as [Hp'|]; [|done]. unfold bytes_lt. by rewrite bytes_Compare_antisym, Hp'. }
  constructor; [done|]. eapply Forall_impl; [exact Hf|]. intros k. by apply bytes_lt_trans.
Qed.

Lemma ascending_NoDup previous keys : ascending previous keys → NoDup keys.
Proof.
  intros [Hs _]. induction Hs as [|k ks Hs IH Hf]; constructor; [|done]. intros Hin.
  rewrite Forall_forall in Hf. by eapply bytes_lt_irrefl, Hf.
Qed.

Lemma validateImmutableKey_nonempty prefix key : validateImmutableKey prefix key = Ok tt → key ≠ [].
Proof. unfold validateImmutableKey, validObjectKey. intros E ->. ok_inv. by bool_prop. Qed.

(** The test of both loops over sorted keys. *)
Lemma sorted_test key previous :
  bool_decide (bytes_Compare key previous ≠ Gt) && (previous !=? []) = false →
  bytes_Compare key previous = Gt ∨ previous = [].
Proof.
  intros E. apply andb_false_iff in E as [E|E]; bool_prop; [left|by right].
  destruct (bytes_Compare key previous); naive_solver.
Qed.

(** A capability is the one that an entry for its key encodes. *)
Definition decoded_entry (options : DecodeOptions) (entries : list wireExactCapability) (key : bytes)
    (c : Capability) : Prop :=
  ∃ entry now, entry ∈ entries ∧ wc_Key entry = key ∧
    decodeCapability options (cap_expiresAt (do_RootCapability options)) now entry = Ok c.

(** The entries that a loop over the wire capabilities accepted. *)
Definition decoded_map (options : DecodeOptions) (prefix : bytes) (entries : list wireExactCapability)
    (before after : gmap bytes Capability) : Prop :=
  dom after = dom before ∪ list_to_set (wc_Key <$> entries) ∧
  ∀ key c, after !! key = Some c → before !! key = Some c ∨
    exact_capability options key c ∧ validateImmutableKey prefix key = Ok tt ∧
    decoded_entry options entries key c.

Lemma decodeCapabilities_reading options prefix expiry now index previous entries m :
  expiry = cap_expiresAt (do_RootCapability options) →
  reading (S:=S) G R (decodeCapabilities options prefix expiry now index previous entries m) (λ r,
    ∀ m', r = Ok m' → ascending previous (wc_Key <$> entries) ∧ decoded_map options prefix entries m m').
Proof.
  intros He. revert index previous m. induction entries as [|entry entries IH]; intros index previous m; simpl.
  { apply reading_ret. intros m' [= <-]. split; [split; [constructor|by constructor]|].
    split; [set_solver|by left]. }
  apply reading_bind, reading_every; [done| |done]. rd_step. rd_step; [done|]. do 2 rd_step.
  destruct (validateImmutableKey prefix (wc_Key entry)) as [[]|] eqn:Hk; [|done]. simpl. do 2 rd_step.
  destruct (decodeCapability options expiry now entry) as [c|] eqn:Hc; [|done]. simpl.
  eapply reading_mono; [apply IH|]. intros r Hr m' ->. destruct (Hr m' eq_refl) as [Ha [Hd Hm]]. split.
  - apply ascending_cons; [by eapply validateImmutableKey_nonempty|by apply sorted_test|done].
  - split; [set_solver|]. intros key x [Hx|(Hx & Hv & e & n & Hin & Hrest)]%Hm;
      [|right; split_and!; [done|done|]; exists e, n; by split; [right|]].
    destruct (decide (key = wc_Key entry)) as [->|]; [|rewrite lookup_insert_ne in Hx by done; by left].
    rewrite lookup_insert_eq in Hx. injection Hx as <-. right. split_and!; [by eapply decodeCapability_exact|done|].
    exists entry, now. subst expiry. by split; [left|].
Qed.

(** ** The embedded reference *)

(** The reference of a bundle names the generation and the commit, and is one
    that its verifier accepted when the channel is a signed one. *)
Definition reference_verified (h : history eff) (verifier : VerifierValue) (prefix referenceKey : bytes)
    (data : bytes) (generation : N) (commit : Digest) : Prop :=
  let ref := {| sr_Format := objectFormatVersion; sr_Generation := generation; sr_Commit := commit |} in
  ∃ channel signed,
    channelFromReferenceRemainder (TrimPrefix referenceKey (repositoryObjectNamespace prefix))
      = Ok (channel, signed) ∧
    if signed : bool
    then ∃ env, verified_by data channel (vv_verifier verifier) ref env ∧ authentication env ∈ h
    else decodeJSON data = Ok ref.

Lemma reference_verified_extends h h' v prefix key data g c :
  extends h h' → reference_verified h v prefix key data g c → reference_verified h' v prefix key data g c.
Proof.
  intros He (channel & signed & Hc & Hs). exists channel, signed. split; [done|]. destruct signed; [|done].
  destruct Hs as (env & Hv & Ha). exists env. split; [done|]. by eapply extends_elem.
Qed.

Lemma verifyEmbedded_acting data prefix key channel signed v h :
  channelFromReferenceRemainder (TrimPrefix key (repositoryObjectNamespace prefix)) = Ok (channel, signed) →
  acting (S:=S) G R (verifyEmbedded data channel signed (Configured v)) h (λ h' r,
    ext_reads h h' ∧ ∀ id, r = Ok id →
      reference_verified h' v prefix key data (id_Generation id) (id_Commit id)).
Proof.
  intros Hch s. unfold verifyEmbedded. destruct signed;
    (eapply mwp_mono; [apply mwp_conj; [by apply VerifySnapshotReference_spec|by apply VerifySnapshotReference_reads]|]);
    intros h' s' r [[-> Hr] He]; (split; [by apply extends_reads|]); (split; [done|]); intros id ->;
    destruct Hr as (_ & _ & _ & Hr).
  - destruct Hr as (env & Hv & _ & _ & ->). exists channel, true. split; [done|]. exists env. split; [done|].
    apply elem_of_app. right. right. by left.
  - destruct Hr as [Hr _]. by exists channel, false.
Qed.

Lemma validateReference_acting reference prefix key g c v h :
  acting (S:=S) G R (validateReference reference prefix key g c (Configured v)) h (λ h' r,
    ext_reads h h' ∧ (r = Ok tt → reference_verified h' v prefix key (ob_Data reference) g c)).
Proof.
  unfold validateReference. do_step. do_step; [done|]. do_step. do_step; [done|].
  do_step. do 2 do_step.
  destruct (channelFromReferenceRemainder _) as [[channel signed]|] eqn:Hch; [|done]. simpl.
  do_step. do_step. eapply doing_mono; [by apply verifyEmbedded_acting|].
  intros h1 [id|e] _ [He Hr].
  - do_step; [done|]. bool_prop. split; [done|]. intros _. specialize (Hr id eq_refl). by simplify_eq.
  - do_step. apply doing_ctx; [done|]. intros [x|]; simpl; [split; [by ext_reads|done]|].
    case_match; do_step; (split; [by ext_reads|done]).
Qed.

(** ** Decode *)

(** What [Decode] accepted: [data] is the canonical form of an envelope, its
    verifier accepted the signature of the payload, and the bundle is the
    payload's, bound to the identity that the reader was given. *)
Record authenticated (h : history eff) (data : bytes) (verifier : VerifierValue) (options : DecodeOptions)
    (envelope : signedBundle) (bundle : Bundle) : Prop := {
  au_decoded : strictDecode data = Some envelope;
  au_canonical : data = canonicalJSON envelope;
  au_verified : Ev (Verifier_Verify (bp_KeyID (sb_Payload envelope))
      (bundleSigningMessage (canonicalJSON (sb_Payload envelope))) (els (sb_Signature envelope))) None ∈ h;
  au_repository : bp_RepositoryID (sb_Payload envelope) = rv_RepositoryID (vv_verifier verifier);
  au_offline : vv_offline verifier = true ∨ do_DangerouslyAllowCustomReferenceVerifier options = true;
  au_share : bd_shareID bundle = do_ShareID options;
  au_reference_key : bd_referenceKey bundle = do_ReferenceKey options;
  au_prefix : bd_repositoryPrefix bundle = Trim (do_RepositoryPrefix options) slash;
  au_expiry : bd_authorizationExpiresAt bundle = cap_expiresAt (do_RootCapability options);
  au_revision : bd_revision bundle = bp_Revision (sb_Payload envelope) ∧ bd_revision bundle ≠ 0%N;
  au_generation : bd_referenceGeneration bundle = bp_ReferenceGeneration (sb_Payload envelope) ∧
    bd_referenceCommit bundle = bp_ReferenceCommit (sb_Payload envelope);
  au_reference : reference_verified h verifier (bd_repositoryPrefix bundle) (bd_referenceKey bundle)
    (ob_Data (bd_reference bundle)) (bd_referenceGeneration bundle) (bd_referenceCommit bundle);
  au_reference_data : ob_Data (bd_reference bundle) = els (wo_Data (bp_Reference (sb_Payload envelope)));
  au_bound : bp_ShareID (sb_Payload envelope) = do_ShareID options ∧
    bp_ReferenceKey (sb_Payload envelope) = do_ReferenceKey options;
  au_keys : dom (bd_capabilities bundle) =
    list_to_set (wc_Key <$> els (bp_Capabilities (sb_Payload envelope)));
  au_unique : NoDup (wc_Key <$> els (bp_Capabilities (sb_Payload envelope)));
  au_count : len (els (bp_Capabilities (sb_Payload envelope))) = Z.of_nat (size (bd_capabilities bundle));
  au_capabilities : ∀ key c, bd_capabilities bundle !! key = Some c →
    exact_capability options key c ∧ validateImmutableKey (bd_repositoryPrefix bundle) key = Ok tt ∧
    decoded_entry options (els (bp_Capabilities (sb_Payload envelope))) key c;
}.

Lemma authenticated_extends h h' data v options envelope bundle :
  extends h h' → authenticated h data v options envelope bundle →
  authenticated h' data v options envelope bundle.
Proof.
  intros He []. constructor; try done; [by eapply extends_elem|by eapply reference_verified_extends].
Qed.

Lemma validateBundleBindings_ok prefix key share revision generation p :
  validateBundleBindings prefix key share revision generation = Ok p →
  p = Trim prefix slash ∧ ShareID_IsZero share = false ∧ revision ≠ 0%N ∧ generation ≠ 0%N ∧
  utf8_ValidString prefix = true ∧ validObjectKey key = true.
Proof. unfold validateBundleBindings. intros E. ok_inv. bool_prop. by subst. Qed.

Lemma validExpiry_root expiry root now : validExpiry expiry root now = true → expiry = root ∧ now < expiry.
Proof. unfold validExpiry. intros E. bool_prop. lia. Qed.

Lemma strictDecode_canonical {T} `{JSON T} data (v : T) : strictDecode data = Some v → data = canonicalJSON v.
Proof.
  unfold strictDecode. intros E. destruct (parse data) as [j|]; [|done]. cbn in E.
  destruct (of_json j) as [x|]; [|done]. cbn in E. case_bool_decide; [|done]. by injection E as <-.
Qed.

(** The facts about the bundle that come from the payload. *)
Lemma bundleFromPayload_acting payload options v now h data signature :
  Ev (Verifier_Verify (bp_KeyID payload) (bundleSigningMessage (canonicalJSON payload)) signature) None ∈ h →
  let envelope := {| sb_Format := BundleFormat; sb_Payload := payload; sb_Signature := Some signature |} in
  strictDecode data = Some envelope → bp_RepositoryID payload = rv_RepositoryID (vv_verifier v) →
  (vv_offline v = true ∨ do_DangerouslyAllowCustomReferenceVerifier options = true) →
  acting (S:=S) G R (bundleFromPayload payload options v now) h (λ h' r,
    ext_reads h h' ∧ ∀ bundle, r = Ok bundle → authenticated h' data v options envelope bundle).
Proof.
  intros Hver envelope Hdata Hid Hoff. unfold bundleFromPayload.
  do 2 do_step. destruct (validateBundleBindings _ _ _ _ _) as [prefix|] eqn:Hb; [|refused].
  apply validateBundleBindings_ok in Hb as (Hpre & Hshare & Hrev & Hgen & Hutf & Hkey). simpl.
  do_step. do_step; [refused|]. do_step. do_step; [refused|]. do_step. do_step; [refused|].
  bool_prop. apply validExpiry_root in H2 as [Hexp _].
  do_step. eapply doing_mono; [apply validateReference_acting|]. intros h1 r He1 [Hr1 Href].
  destruct r as [[]|e]; [|refused]. specialize (Href eq_refl). simpl in Href.
  do_step. do_step; [refused|]. do_step.
  eapply doing_reading; [by apply decodeCapabilities_reading|]. intros h2 r Hr2 Hm.
  destruct r as [m|e]; [|refused]. destruct (Hm m eq_refl) as [Ha [Hd Hc]].
  do_step. split; [by etrans|]. intros bundle [= <-].
  assert (extends h1 h2) as E2 by by apply extends_reads.
  constructor; cbn [bd_shareID bd_referenceKey bd_repositoryPrefix bd_authorizationExpiresAt bd_revision
    bd_referenceGeneration bd_referenceCommit bd_reference bd_capabilities sb_Payload sb_Signature ob_Data]; try done.
  - by apply strictDecode_canonical.
  - apply (extends_elem h); [by etrans|done].
  - by eapply reference_verified_extends.
  - rewrite Hd. set_solver.
  - by eapply ascending_NoDup.
  - rewrite <- size_dom, Hd, dom_empty_L, (left_id_L ∅ (∪)), size_list_to_set by (by eapply ascending_NoDup).
    unfold len. by rewrite length_fmap.
  - intros key c [Hx|Hx]%Hc; [done|done].
Qed.
Lemma Decode_acting data verifier options h :
  acting (S:=S) G R (Decode data verifier options) h (λ h' r,
    ext_reads h h' ∧ ∀ bundle, r = Ok bundle → ∃ v envelope,
      the verifier = Some v ∧ authenticated h' data v options envelope bundle).
Proof.
  unfold Decode. do_step. apply doing_ctx; [done|]. intros [x|]; [refused|].
  do_step. do_step; [refused|]. destruct (the verifier) as [v|] eqn:Hv; [|do_step; refused].
  do_step. do_step; [refused|]. do_step. do_step; [refused|].
  destruct (strictDecode data) as [envelope|] eqn:Hdec; [|do_step; refused].
  do_step. apply doing_ctx; [done|]. intros [x|]; [refused|].
  do_step. do_step; [refused|]. do_step. do_step; [refused|]. do 2 do_step.
  destruct (validateKeyID _) as [[]|]; [|refused]. simpl.
  do_step. do_step. apply doing_calle; [by apply HG| |intros x; refused].
  simpl. do_step. eapply doing_reading; [by apply (reading_time _ _ (λ _, True))|]. intros h1 [now|e] He1 _; [|refused].
  bool_prop. destruct envelope as [format payload [signature|]]; [|done]. simpl in *. subst format.
  eapply doing_mono; [eapply (bundleFromPayload_acting _ _ _ _ _ data signature); try done|].
  - eapply extends_elem; [by apply extends_reads|]. apply elem_of_app. right. by left.
  - destruct (IsOfflineReferenceVerifier v) eqn:Eo; [by left|right].
    by destruct (do_DangerouslyAllowCustomReferenceVerifier options).
  - intros h2 r _ [Hr Hb]. split; [etrans; [|exact Hr]; reads|]. intros bundle E. exists v. eexists. split; [done|]. by apply Hb.
Qed.
End Decoding.

(** ** Build *)

(** A wire capability as the bundle holds it. *)
Definition wire_of (entry : ExactCapability) : wireExactCapability :=
  {| wc_Key := ec_Key entry; wc_URL := cap_rawURL (ec_Capability entry);
     wc_Headers := headersToWire (cap_headers (ec_Capability entry));
     wc_ExpiresAt := Time_UTC (cap_expiresAt (ec_Capability entry)) |}.

(** What [Build] signed. *)
Record built (h : history eff) (input : BuildInput) (signer : ReferenceSigner) (verifier : VerifierValue)
    (envelope : signedBundle) : Prop := {
  bt_format : sb_Format envelope = BundleFormat ∧ bp_Format (sb_Payload envelope) = BundleFormat;
  bt_signed : Ev (Signer_Sign (bundleSigningMessage (canonicalJSON (sb_Payload envelope))))
                (Ok (els (sb_Signature envelope))) ∈ h;
  bt_verified : Ev (Verifier_Verify (bp_KeyID (sb_Payload envelope))
      (bundleSigningMessage (canonicalJSON (sb_Payload envelope))) (els (sb_Signature envelope))) None ∈ h;
  bt_signature : 0 < len (els (sb_Signature envelope)) ≤ maximumShareSignatureBytes;
  bt_repository : bp_RepositoryID (sb_Payload envelope) = sg_RepositoryID signer ∧
    sg_RepositoryID signer = rv_RepositoryID (vv_verifier verifier);
  bt_key : bp_KeyID (sb_Payload envelope) = sg_KeyID signer ∧ validateKeyID (sg_KeyID signer) = Ok tt;
  bt_bindings : validateBundleBindings (bi_RepositoryPrefix input) (bi_ReferenceKey input)
    (bi_ShareID input) (bi_Revision input) (bi_ReferenceGeneration input)
      = Ok (bp_RepositoryPrefix (sb_Payload envelope)) ∧
    bp_ReferenceKey (sb_Payload envelope) = bi_ReferenceKey input ∧
    bp_ShareID (sb_Payload envelope) = bi_ShareID input;
  bt_revision : bp_Revision (sb_Payload envelope) = bi_Revision input;
  bt_snapshot : bp_ReferenceGeneration (sb_Payload envelope) = bi_ReferenceGeneration input ∧
    bp_ReferenceCommit (sb_Payload envelope) = bi_ReferenceCommit input;
  bt_reference : bp_Reference (sb_Payload envelope) =
    {| wo_Data := Some (ob_Data (bi_Reference input)); wo_ETag := v_ETag (ob_Version (bi_Reference input));
       wo_VersionID := v_VersionID (ob_Version (bi_Reference input)) |};
  bt_expiry : bp_AuthorizationExpiresAt (sb_Payload envelope) = Time_UTC (bi_AuthorizationExpiresAt input) ∧
    bi_AuthorizationExpiresAt input = cap_expiresAt (bi_RootCapability input);
  bt_capabilities : els (bp_Capabilities (sb_Payload envelope)) =
    wire_of <$> sortCapabilities (bi_Capabilities input);
  bt_exact : ∀ entry, entry ∈ bi_Capabilities input →
    validateImmutableKey (bp_RepositoryPrefix (sb_Payload envelope)) (ec_Key entry) = Ok tt ∧
    cap_exactKey (ec_Capability entry) = ec_Key entry ∧
    cap_origin (ec_Capability entry) = cap_origin (bi_RootCapability input) ∧
    cap_expiresAt (ec_Capability entry) = bi_AuthorizationExpiresAt input;
}.

Arguments addSizes : simpl never.
Arguments jsonStringBytes : simpl never.

Section Building.
Context `{NetLibrary} {S : Type} (R : rely eff) (G : guarantee eff) (HG : reads_free G).

(** The checks of one capability. *)
Definition input_exact (input : BuildInput) (prefix : bytes) (expiry : Z) (entry : ExactCapability) : Prop :=
  validateImmutableKey prefix (ec_Key entry) = Ok tt ∧
  cap_exactKey (ec_Capability entry) = ec_Key entry ∧
  cap_origin (ec_Capability entry) = cap_origin (bi_RootCapability input) ∧
  cap_expiresAt (ec_Capability entry) = expiry.

Lemma checkInputCapability_ok input expiry entry w :
  checkInputCapability input expiry entry = Ok w →
  w = wire_of entry ∧ cap_exactKey (ec_Capability entry) = ec_Key entry ∧
  cap_origin (ec_Capability entry) = cap_origin (bi_RootCapability input) ∧
  cap_expiresAt (ec_Capability entry) = expiry.
Proof. unfold checkInputCapability. intros E. ok_inv. bool_prop. by subst. Qed.

Lemma wireCapabilities_reading input prefix expiry index previous entries :
  reading (S:=S) G R (wireCapabilities input prefix expiry index previous entries) (λ r,
    ∀ ws, r = Ok ws → ws = wire_of <$> entries ∧ Forall (input_exact input prefix expiry) entries).
Proof.
  revert index previous. induction entries as [|entry entries IH]; intros index previous; simpl.
  { apply reading_ret. by intros ws [= <-]. }
  apply reading_bind, reading_every; [done| |done]. do 2 rd_step.
  destruct (validateImmutableKey prefix (ec_Key entry)) as [[]|] eqn:Hk; [|done]. simpl.
  rd_step. rd_step; [done|]. do 2 rd_step.
  destruct (checkInputCapability input expiry entry) as [w|] eqn:Hw; [|done]. simpl.
  apply checkInputCapability_ok in Hw as (-> & ? & ? & ?).
  rd_step. eapply reading_mono; [apply IH|]. intros [ws|e] Hr; [|done].
  rd_step. intros ws' [= <-]. destruct (Hr ws eq_refl) as [-> Hf]. split; [done|]. by constructor.
Qed.

Lemma preflight_reading input :
  reading (S:=S) G R (preflightBuildInput input) (λ _, True).
Proof.
  unfold preflightBuildInput. do 2 (rd_step; rd_step; [done|]). do 2 rd_step.
  destruct (addSizes _ _) as [total|]; [|done]. simpl. clear H0 H1. revert total. generalize 0.
  induction (bi_Capabilities input) as [|entry entries IH]; intros index total; simpl; [by apply reading_ret|].
  apply reading_bind, reading_every; [done| |done]. do 2 rd_step.
  destruct (addSizes _ _) as [total'|]; [|done]. simpl. apply IH.
Qed.

(** The payload of an input, and what was checked of it. *)
Definition payload_of (input : BuildInput) (repositoryID : RepositoryID) (keyID prefix : bytes) : bundlePayload :=
  {| bp_Format := BundleFormat; bp_RepositoryID := repositoryID; bp_RepositoryPrefix := prefix;
     bp_ReferenceKey := bi_ReferenceKey input; bp_ShareID := bi_ShareID input;
     bp_Revision := bi_Revision input; bp_ReferenceGeneration := bi_ReferenceGeneration input;
     bp_ReferenceCommit := bi_ReferenceCommit input;
     bp_Reference := {| wo_Data := Some (ob_Data (bi_Reference input));
                        wo_ETag := v_ETag (ob_Version (bi_Reference input));
                        wo_VersionID := v_VersionID (ob_Version (bi_Reference input)) |};
     bp_AuthorizationExpiresAt := Time_UTC (bi_AuthorizationExpiresAt input); bp_KeyID := keyID;
     bp_Capabilities := Some (wire_of <$> sortCapabilities (bi_Capabilities input)) |}.

Lemma sortCapabilities_perm l : sortCapabilities l ≡ₚ l.
Proof. apply merge_sort_Permutation. Qed.

Lemma payloadFromInput_acting input repositoryID keyID v now h :
  acting (S:=S) G R (payloadFromInput input repositoryID keyID v now) h (λ h' r,
    ext_reads h h' ∧ ∀ payload, r = Ok payload → ∃ prefix,
      validateBundleBindings (bi_RepositoryPrefix input) (bi_ReferenceKey input) (bi_ShareID input)
        (bi_Revision input) (bi_ReferenceGeneration input) = Ok prefix ∧
      payload = payload_of input repositoryID keyID prefix ∧
      bi_AuthorizationExpiresAt input = cap_expiresAt (bi_RootCapability input) ∧
      ∀ entry, entry ∈ bi_Capabilities input →
        input_exact input prefix (bi_AuthorizationExpiresAt input) entry).
Proof.
  unfold payloadFromInput. do 2 do_step.
  destruct (validateBundleBindings _ _ _ _ _) as [prefix|] eqn:Hb; [|refused]. simpl.
  do 4 (do_step; do_step; [refused|]). bool_prop. apply validExpiry_root in H3 as [Hexp _].
  do_step. eapply doing_mono; [by apply validateReference_acting|]. intros h1 [[]|e] _ [He1 _]; [|refused].
  do_step. do_step; [refused|]. do_step.
  eapply doing_reading; [apply wireCapabilities_reading|]. intros h2 [ws|e] He2 Hw; [|split; [by etrans|done]].
  destruct (Hw ws eq_refl) as [-> Hf]. do_step. split; [by etrans|]. intros payload [= <-].
  exists prefix. split_and!; try done. intros entry Hin. rewrite Forall_forall in Hf. apply Hf.
  by rewrite sortCapabilities_perm.
Qed.

Lemma Build_acting input signer verifier h :
  acting (S:=S) G R (Build input signer verifier) h (λ h' r,
    ext_reads h h' ∧ ∀ data, r = Ok data → ∃ sg v envelope,
      the signer = Some sg ∧ the verifier = Some v ∧ data = canonicalJSON envelope ∧
      len data ≤ MaximumBundleBytes ∧ built h' input sg v envelope).
Proof.
  unfold Build. do_step. apply doing_ctx; [done|]. intros [x|]; [refused|].
  destruct (the signer) as [sg|] eqn:Es, (the verifier) as [v|] eqn:Ev; try (do_step; refused).
  do_step. do_step; [refused|]. do 2 do_step. destruct (validateKeyID _) as [[]|] eqn:Hk; [|refused]. simpl.
  do_step. eapply doing_reading; [apply preflight_reading|]. intros h1 [[]|e] He1 _; [|refused].
  do_step. eapply doing_reading; [by apply (reading_time _ _ (λ _, True))|]. intros h2 [now|e] He2 _; [|split; [by etrans; [|exact He2]; reads|done]].
  assert (ext_reads h h2) as He by (etrans; [|exact He2]; reads). clear He1 He2.
  do_step. eapply doing_mono; [apply payloadFromInput_acting|]. intros h3 [payload|e] _ [He3 Hp]; [|split; [by etrans|done]].
  destruct (Hp payload eq_refl) as (prefix & Hb & -> & Hexp & Hex). clear Hp.
  assert (ext_reads h h3) as He' by by etrans. clear He He3.
  do_step. do_step; [refused|]. do_step. do_step. apply doing_callr; [by apply HG|]. intros [signature|e] _; [|refused].
  simpl. do_step. do_step; [refused|]. do_step. do_step. apply doing_calle; [by apply HG| |intros e; refused].
  simpl. do_step. do_step; [refused|]. bool_prop. do_step. split; [reads|]. intros data [= <-].
  exists sg, v. eexists. split_and!; [done|done|reflexivity|done|].
  pose proof (len_nonneg signature).
  constructor; cbn [sb_Format sb_Payload sb_Signature payload_of bp_Format bp_RepositoryID bp_RepositoryPrefix
    bp_ReferenceKey bp_ShareID bp_Revision bp_ReferenceGeneration bp_ReferenceCommit bp_Reference
    bp_AuthorizationExpiresAt bp_KeyID bp_Capabilities els]; try done.
  - rewrite !elem_of_app. left. right. by left.
  - rewrite elem_of_app. right. by left.
  - simpl. lia.
Qed.

(** ** Snapshot bundles *)

Lemma sortCapabilities_sorted entries previous :
  ascending previous (ec_Key <$> entries) → sortCapabilities entries = entries.
Proof.
  intros Ha. pose proof (ascending_NoDup _ _ Ha) as Hnd. destruct Ha as [Hs _].
  pose (le := λ a b : ExactCapability, bytes_le (ec_Key a) (ec_Key b)).
  assert (Total le) as Ht by (intros a b; apply bytes_le_total).
  assert (Transitive le) as Htr by (intros a b c; apply bytes_le_trans).
  eapply (StronglySorted_unique_strong le).
  - intros a b Ha Hb Hab Hba. rewrite sortCapabilities_perm in Ha. unfold le in *.
    assert (ec_Key a = ec_Key b) as E.
    { apply bytes_le_lt in Hab as [Hab|?]; [|done]. apply bytes_le_lt in Hba as [Hba|?]; [|done].
      exfalso. by eapply bytes_lt_irrefl, bytes_lt_trans. }
    apply list_elem_of_lookup in Ha as [i Ha], Hb as [j Hb].
    assert (i = j) as ->; [|by simplify_eq].
    eapply NoDup_lookup; [exact Hnd|by rewrite list_lookup_fmap, Ha|by rewrite list_lookup_fmap, Hb, E].
  - apply (StronglySorted_merge_sort le).
  - clear Hnd. induction entries as [|e es IH]; constructor; [by apply IH; inversion Hs|].
    inversion Hs as [|? ? _ Hf]; subst. rewrite Forall_fmap in Hf. eapply Forall_impl; [exact Hf|].
    intros x Hx. apply bytes_le_lt. by left.
  - apply sortCapabilities_perm.
Qed.

Lemma checkClosureKeys_reading prefix index previous keys :
  reading (S:=S) G R (checkClosureKeys prefix index previous keys) (λ r,
    r = Ok tt → ascending previous keys ∧ Forall (λ k, validateImmutableKey prefix k = Ok tt) keys).
Proof.
  revert index previous. induction keys as [|key keys IH]; intros index previous; simpl.
  { apply reading_ret. intros _. split; [by split; [constructor|]|constructor]. }
  apply reading_bind, reading_every; [done| |done]. rd_step. rd_step; [done|]. do 2 rd_step.
  destruct (validateImmutableKey prefix key) as [[]|] eqn:Hk; [|done]. simpl.
  eapply reading_mono; [apply IH|]. intros r Hr ->. destruct (Hr eq_refl) as [Ha Hf].
  split; [|by constructor]. apply ascending_cons; [by eapply validateImmutableKey_nonempty|by apply sorted_test|done].
Qed.

(** A capability of the bundle is what the presigner answered for its key. *)
Definition presigned (h : history eff) (root : Capability) (entry : ExactCapability) : Prop :=
  Ev (Share (Presign_Get (ec_Key entry))) (Ok (ec_Capability entry)) ∈ h ∧
  cap_provenance (ec_Capability entry) = capabilityProvenanceExactGET.

Lemma presignKeys_acting root expiry index keys h :
  (∀ h key, key ∈ keys → G h _ (Share (Presign_Get key))) →
  acting (S:=S) G R (presignKeys root expiry index keys) h (λ h' r,
    ext_reads h h' ∧ ∀ entries, r = Ok entries →
      ec_Key <$> entries = keys ∧ Forall (presigned h' root) entries).
Proof.
  intros HP. revert index h. induction keys as [|key keys IH]; intros index h; simpl.
  { do_step. split; [reads|]. by intros entries [= <-]. }
  do_step. eapply doing_reading; [by apply (reading_every _ _ _ (λ _, True))|]. intros h1 [[]|e] He1 _; [|refused].
  do_step. do_step. apply doing_callr; [apply HP; by left|]. intros [c|e] _; simpl; [|refused].
  do_step. do_step; [refused|]. bool_prop. do_step.
  eapply doing_mono; [apply IH; intros h0 k Hk; apply HP; by right|].
  intros h2 [entries|e] He2 [Hr2 Hf]; [|split; [etrans; [|exact Hr2]; reads|done]].
  destruct (Hf entries eq_refl) as [Hk Hpre]. do_step. split; [etrans; [|exact Hr2]; reads|].
  intros entries' [= <-]. split; [by rewrite fmap_cons, Hk|]. constructor; [|done]. split; [|done].
  eapply extends_elem; [exact He2|]. apply elem_of_app. right. by left.
Qed.

(** What [BuildSnapshotBundle] signed: exactly the closure, with the presigner's
    capabilities. *)
Definition built_snapshot (h : history eff) (input : SnapshotBundleInput) (envelope : signedBundle) : Prop :=
  let closure := sbi_Closure input in
  let payload := sb_Payload envelope in
  ∃ entries sg v binput,
    built h binput sg v envelope ∧
    els (bp_Capabilities payload) = wire_of <$> entries ∧
    ec_Key <$> entries = sc_ObjectKeys closure ∧
    Forall (presigned h (sbi_RootCapability input)) entries ∧
    StronglySorted bytes_lt (sc_ObjectKeys closure) ∧
    ValidateResolved closure = Ok tt ∧
    bp_Revision payload = sbi_Revision input ∧ bp_ShareID payload = sbi_ShareID input ∧
    bp_ReferenceKey payload = sc_ReferenceKey closure ∧
    bp_ReferenceGeneration payload = sn_Generation (sc_Snapshot closure) ∧
    bp_ReferenceCommit payload = sn_Commit (sc_Snapshot closure) ∧
    wo_Data (bp_Reference payload) = Some (sc_ReferenceData closure) ∧
    bp_AuthorizationExpiresAt payload = Time_UTC (cap_expiresAt (sbi_RootCapability input)).

Lemma reading_answer {X} (e : eff X) (P : result X → Prop) :
  is_read e = true → (∀ x, P (Ok x)) → reading (S:=S) G R (mcall e) P.
Proof.
  intros He HP s h. apply mwp_call; [by apply HG|]. intros x _. split_and!; [done| |done].
  by apply ext_reads_snoc; [apply ext_reads_refl|apply is_read_local].
Qed.

Lemma validateReference_reading reference prefix key g c v :
  reading (S:=S) G R (validateReference reference prefix key g c v) (λ _, True).
Proof.
  unfold validateReference. do 2 (rd_step; rd_step; [done|]). rd_step. do 2 rd_step.
  destruct (channelFromReferenceRemainder _) as [[channel signed]|]; [|done]. simpl. rd_step. rd_step.
  apply (reading_mono _ _ _ (λ _, True)).
  - assert (∀ w, reading (S:=S) G R (VerifySnapshotReference (ob_Data reference) channel w) (λ _, True)) as Hr
      by (intros w; apply (reading_mono _ _ _ _ _ (VerifySnapshotReference_reading R G HG _ _ _)); done).
    unfold verifyEmbedded. destruct signed, v; auto. by rd_step; rd_step; [rd_step|].
  - intros [info|e] _; [by rd_step|]. rd_step. rd_step; [|done]. by case_match; rd_step.
Qed.

Lemma BuildSnapshotBundle_acting input signer verifier h :
  (∀ h key, key ∈ sc_ObjectKeys (sbi_Closure input) → G h _ (Share (Presign_Get key))) →
  acting (S:=S) G R (BuildSnapshotBundle input signer verifier) h (λ h' r,
    ext_reads h h' ∧ ∀ data, r = Ok data → ∃ envelope,
      data = canonicalJSON envelope ∧ len data ≤ MaximumBundleBytes ∧ built_snapshot h' input envelope).
Proof.
  intros HP. unfold BuildSnapshotBundle. do_step. apply doing_ctx; [done|]. intros [x|]; [refused|].
  do_step. do_step; [refused|]. do 3 do_step. destruct (ValidateResolved _) as [[]|] eqn:Hval; [|refused]. simpl.
  do 2 do_step. destruct (validateBundleBindings _ _ _ _ _) as [prefix|] eqn:Hb; [|refused]. simpl.
  do_step. do_step; [refused|]. do_step.
  eapply doing_reading; [by apply (reading_answer _ (λ _, True))|]. intros h1 [[expiry known]|e] He1 _; [|refused].
  do_step. eapply doing_reading; [by apply (reading_time _ _ (λ _, True))|].
  intros h2 [now|e] He2 _; [|split; [etrans; [|exact He2]; reads|done]].
  assert (ext_reads h h2) as He by (etrans; [|exact He2]; reads). clear He1 He2.
  do_step. do_step; [refused|]. bool_prop. subst expiry. do_step.
  eapply doing_reading; [apply validateReference_reading|]. intros h3 [[]|e] He3 _; [|split; [by etrans|done]].
  do_step. do_step; [split; [by etrans|done]|]. do_step.
  eapply doing_reading; [apply checkClosureKeys_reading|]. intros h4 [[]|e] He4 Hk;
    [|split; [by etrans; [exact He|]; etrans|done]].
  destruct (Hk eq_refl) as [Ha _]. assert (ext_reads h h4) as He' by (do 2 (etrans; [done|]); done). clear He He3 He4.
  do_step. eapply doing_mono; [by apply presignKeys_acting|].
  intros h5 [entries|e] _ [He5 Hpre]; [|split; [by etrans|done]]. destruct (Hpre entries eq_refl) as [Hkeys Hall].
  eapply doing_mono; [apply Build_acting|]. intros h6 r Hx6 [He6 Hr]. split; [by etrans; [|exact He6]; etrans|].
  intros data ->. destruct (Hr data eq_refl) as (sg & v & envelope & Es & Ev & Hd & Hlen & Hbuilt).
  exists envelope. split_and!; [done|done|]. exists entries, sg, v. eexists. split; [exact Hbuilt|].
  destruct Hbuilt. cbn [bi_Capabilities bi_ReferenceKey bi_ShareID bi_Revision bi_ReferenceGeneration
    bi_ReferenceCommit bi_Reference bi_AuthorizationExpiresAt bi_RootCapability ob_Data] in *.
  rewrite (sortCapabilities_sorted entries []) in bt_capabilities0 by by rewrite Hkeys.
  destruct bt_bindings0 as (_ & ? & ?), bt_snapshot0, bt_expiry0. split_and!; try done.
  - eapply Forall_impl; [exact Hall|]. intros x [Hx Hp]. split; [|done]. by eapply extends_elem.
  - by destruct Ha.
  - by rewrite bt_reference0.
Qed.
End Building.

(** ** The size of a JSON string *)

Lemma jsonCharacterBytes_len c :
  (byte_val c < 128)%N → jsonCharacterBytes c = len (escape_ascii c).
Proof. intros Hc. destruct c; try reflexivity; vm_compute in Hc; done. Qed.

Lemma jsonRuneBytes_len fuel s : (length s ≤ fuel)%nat → jsonRuneBytes fuel s = len (escape fuel s).
Proof.
  revert s. induction fuel as [|fuel IH]; intros [|b s] Hl; [done|simpl in Hl; lia|done|].
  cbn -[rune_size byte_val]. cbn [length] in Hl. destruct (N.ltb_spec (byte_val b) 128) as [Hb|Hb].
  - rewrite len_app, IH, jsonCharacterBytes_len by (done || lia). done.
  - destruct (rune_size (b :: s)) as [n|] eqn:En.
    + pose proof (rune_size_bounds _ _ En) as Hn. cbn [length] in Hn.
      rewrite len_app, IH by (rewrite length_drop; cbn [length]; lia). f_equal. unfold escape_rune.
      case_bool_decide as Hin.
      * apply list_elem_of_In in Hin. destruct Hin as [<-|[<-|[]]]; done.
      * rewrite !bool_decide_false by (intros E; apply Hin; rewrite E; set_solver).
        unfold len. rewrite length_take. cbn [length]. lia.
    + rewrite IH by lia. unfold len. cbn [length]. lia.
Qed.

Lemma jsonString_quote value : jsonStringBytes value = len (quote value).
Proof.
  unfold jsonStringBytes. rewrite jsonRuneBytes_len by done. unfold quote, len. cbn [length].
  rewrite length_app. cbn [length]. lia.
Qed.

(** The size estimate of a string, computed without building it, is the
    exact number of bytes of its JSON encoding, whatever bytes it has: control
    characters, quotes, the characters escaped for HTML, U+2028 and U+2029, and
    invalid UTF-8. *)
Theorem jsonStringBytes_exact (value : bytes) : jsonStringBytes value = len (print (JStr value)).
Proof. apply jsonString_quote. Qed.

(** ** What the functions guarantee *)

(** Presigning is limited to the keys of the closure. *)
Definition presigns_only (closure : SnapshotClosure) : guarantee eff := λ h X e,
  match e with
  | Share (Presign_Get key) => key ∈ sc_ObjectKeys closure
  | _ => True
  end.

Lemma presigns_only_reads closure : reads_free (presigns_only closure).
Proof. intros h X e He. destruct e; try done. by destruct op. Qed.

(** C14: an accepted bundle is authentic and exact.  Whatever the data and the
    environment, Decode returns a bundle only when the data are the canonical
    encoding of an envelope whose payload the verifier of the expected
    repository accepted, for the expected share, reference key, prefix and
    expiry; the embedded reference was verified for the generation and commit
    reported; and the capabilities are those of the payload, each for its own
    immutable object key, with the origin and the expiry of the root and the
    provenance of an authenticated bundle. *)
Theorem Decode_authenticated `{NetLibrary} {S} (data : bytes) (verifier : dependency VerifierValue)
    (options : DecodeOptions) (s : S) :
  mwp any_rely any_call (Decode data verifier options) s [] (λ h' _ r,
    ext_reads [] h' ∧ ∀ bundle, r = Ok bundle → ∃ v envelope,
      the verifier = Some v ∧ authenticated h' data v options envelope bundle).
Proof. eapply mwp_mono; [by apply Decode_acting|]. by intros h' s' r []. Qed.

(** C15: a built bundle is exactly the closure.  BuildSnapshotBundle presigns no
    key outside the closure and writes nothing; what it returns is the canonical
    encoding, within the size bound, of an envelope signed and verified by the
    given keys, whose payload names the closure's reference, generation and
    commit and holds one capability per object key, in order, each minted by the
    presigner for exactly that key. *)
Theorem BuildSnapshotBundle_exact {S} (input : SnapshotBundleInput)
    (signer : dependency ReferenceSigner) (verifier : dependency VerifierValue) (s : S) :
  mwp any_rely (presigns_only (sbi_Closure input)) (BuildSnapshotBundle input signer verifier) s [] (λ h' _ r,
    ext_reads [] h' ∧ ∀ data, r = Ok data → ∃ envelope,
      data = canonicalJSON envelope ∧ len data ≤ MaximumBundleBytes ∧ built_snapshot h' input envelope).
Proof.
  eapply mwp_mono; [by apply BuildSnapshotBundle_acting; [apply presigns_only_reads|]|]. by intros h' s' r [].
Qed.

(** ** A share of one object *)

(** A URL parser for [https://host/path] without a port. *)
Definition toy_net : NetLibrary := {|
  url_Parse raw :=
    if HasPrefix raw (str "https://") then
      let host := default [] (head (Split slash (TrimPrefix raw (str "https://")))) in
      Some {| url_Scheme := str "https"; url_Opaque := []; url_hasUser := false; url_Host := host;
              url_Fragment := []; url_Hostname := host; url_Port := []; url_String := raw |}
    else None;
  ip_Parse _ := None;
  strings_ToLower := map lower;
|}.

Definition toy_expiry : Z := 1767225600000000000.
Definition toy_share_now : Z := toy_expiry - 3600000000000.

Definition toy_capability (key : bytes) : Capability :=
  {| cap_rawURL := str "https://store.test/" ++ key; cap_headers := ∅; cap_expiresAt := toy_expiry;
     cap_origin := str "https://store.test:443"; cap_exactKey := key;
     cap_provenance := capabilityProvenanceExactGET |}.

Example toy_capability_new key :
  key = str "share/root" →
  newCapability (H:=toy_net) key (str "https://store.test/" ++ key) ∅ toy_expiry false toy_share_now
    capabilityProvenanceExactGET = Ok (toy_capability key).
Proof. intros ->. by vm_compute. Qed.

Definition toy_object_key : bytes :=
  repositoryObjectNamespace (str "repo") ++ str "objects/commit/sha256/00/" ++ repeat x30 64.

Definition toy_shared : SnapshotClosure :=
  let closure seal :=
    {| sc_Snapshot := {| sn_Generation := 42; sn_Commit := fixture_digest 160; sn_Root := fixture_digest 7;
                         sn_PublishedAt := 5 |};
       sc_ReferenceKey := repositoryObjectNamespace (str "repo") ++ str "refs/bWFpbg";
       sc_ReferenceData := canonicalJSON toy_reference;
       sc_ReferenceVersion := {| v_ETag := str "etag"; v_VersionID := [] |};
       sc_ObjectKeys := [toy_object_key]; sc_resolutionSeal := seal;
       sc_clientEncryptionConfigured := false; sc_clientEncryptionBinding := zero32 |} in
  closure (snapshotClosureResolutionSeal (closure zero32)).

Definition toy_share_input : SnapshotBundleInput :=
  {| sbi_RootKey := str "share/root"; sbi_RootCapability := toy_capability (str "share/root");
     sbi_RepositoryPrefix := str "repo"; sbi_ShareID := replicate 16 x07; sbi_Revision := 1;
     sbi_Closure := toy_shared; sbi_Presigner := Configured tt |}.
Definition toy_share_signer : dependency ReferenceSigner :=
  Configured {| sg_configured := true; sg_RepositoryID := fixture_digest 1; sg_KeyID := str "key-2026" |}.
Definition toy_share_verifier : dependency VerifierValue :=
  Configured {| vv_verifier := {| rv_configured := true; rv_offline := true; rv_RepositoryID := fixture_digest 1 |};
                vv_offline := true |}.
Definition toy_share_options : DecodeOptions :=
  {| do_RootCapability := toy_capability (str "share/root"); do_RepositoryPrefix := str "repo";
     do_ReferenceKey := sc_ReferenceKey toy_shared; do_ShareID := replicate 16 x07;
     do_AllowInsecureLoopback := false; do_DangerouslyAllowCustomReferenceVerifier := false |}.

(** A store, a journal with the number of its writes, and a signer whose
    signature is the end of the message. *)
Definition toy_share_world : Type := Store * option (bytes * N).
Definition toy_revision (n : N) : Digest := BigEndian_AppendUint64 (replicate 24 x01) n.
Definition toy_sharer : handler eff toy_share_world := λ X e w,
  match e in eff T return toy_share_world * T with
  | Signer_Sign message => (w, Ok (take 64 (rev message)))
  | Verifier_Verify _ message signature =>
      (w, if signature ==? take 64 (rev message) then None else Some [ErrUntrustedReference])
  | Source op =>
      match op in src_eff T return toy_share_world * T with
      | Time_Now => (w, toy_share_now)
      | op' => (w, live _ (Source op'))
      end
  | Share op =>
      match op in share_eff T return toy_share_world * T with
      | Presign_Get key => (w, Ok (toy_capability key))
      | Presign_Expiry => (w, (toy_expiry, true))
      | Root_Gate => (w, None)
      | Recovery_Load =>
          (w, Ok (match w.2 with Some (data, n) => (data, toy_revision n, true)
                               | None => ([], Digest_zero, false) end))
      | Recovery_CompareAndSwap expected next =>
          if expected ==? ((λ x, toy_revision x.2) <$> w.2)
          then let n := (match w.2 with Some (_, n) => n + 1 | None => 0 end)%N in
               ((w.1, Some (next, n)), (toy_revision n, None))
          else (w, (Digest_zero, Some [ErrPrecondition]))
      | op' => (w, live _ (Share op'))
      end
  | e' => let '(store, x) := store_handler live _ e' w.1 in ((store, w.2), x)
  end.

Definition toy_empty : toy_share_world :=
  ({| ms_objects := ∅; ms_serial := 0; ms_stats := Stats_zero |}, None).

Definition toy_share_data : bytes :=
  match (run toy_sharer (BuildSnapshotBundle toy_share_input toy_share_signer toy_share_verifier tt) toy_empty).2.2 with
  | Ok data => data
  | Err _ => []
  end.

(** What is built is accepted, with the key of the closure. *)
Example toy_share_roundtrip :
  match (run toy_sharer (Decode (H:=toy_net) toy_share_data toy_share_verifier toy_share_options tt) toy_empty).2.2 with
  | Ok bundle => (map_to_list (cap_exactKey <$> bd_capabilities bundle), bd_revision bundle)
  | Err _ => ([], 0%N)
  end = ([(toy_object_key, toy_object_key)], 1%N).
Proof. vm_compute. reflexivity. Qed.

Lemma Decode_authenticated_witness :
  mwp any_rely any_call (Decode (H:=toy_net) toy_share_data toy_share_verifier toy_share_options) tt [] (λ h' _ r,
    ext_reads [] h' ∧ ∀ bundle, r = Ok bundle → ∃ v envelope,
      the toy_share_verifier = Some v ∧ authenticated (H:=toy_net) h' toy_share_data v toy_share_options envelope bundle).
Proof. exact (@Decode_authenticated toy_net unit toy_share_data toy_share_verifier toy_share_options tt). Defined.
