(* ===== verification/ShareReaderProofs.v ===== *)
(** * The reader of a share: what it contacts and what it keeps

    [state_ok] is the invariant of the reader's state: every capability at hand
    was granted by a bundle that the verifier accepted, the accounting is exact
    and the budget is kept; [advances] orders the states.  Get keeps the
    invariant whatever the other goroutines install, and contacts nothing but the
    root URL and URLs granted for the requested key. *)

From S2P Require Import Prelude.
From S2P Require Import Prog.
From S2P Require Import GoStd.
From S2P Require Import Encoding.
From S2P Require Import Sha256.
From S2P Require Import Json.
From S2P Require Import Model.
From S2P Require Import Rfc3339.
From S2P Require Import LockedTransport.
From S2P Require Import Effects.
From S2P Require Import Capability.
From S2P Require Import Trust.
From S2P Require Import MemStore.
From S2P Require Import ClientEncryption.
From S2P Require Import Repository.
From S2P Require Import Closure.
From S2P Require Import Consumer.
From S2P Require Import Bundle.
From S2P Require Import ShareReader.
From S2P Require Import ClosureProofs.
From S2P Require Import BundleProofs.

(** ** Charges *)

Definition charge (key : bytes) (c : Capability) : Z :=
  256 + len key + len (cap_rawURL c) + foldr Z.add 0 (chargedHeaders (cap_headers c)).
Definition charges (m : gmap bytes Capability) : Z := total (map_imap (λ k c, Some (charge k c)) m).

Lemma addCharges_ok sizes n r : addCharges sizes n = Ok r → r = n + foldr Z.add 0 sizes.
Proof.
  revert n. induction sizes as [|x sizes IH]; simpl; intros n E; [injection E as <-; lia|].
  ok_inv. apply IH in E. lia.
Qed.

Lemma charge_ok key c n : readerCapabilityCharge key c = Ok n → n = charge key c ∧ 0 ≤ n.
Proof.
  unfold readerCapabilityCharge. intros E. ok_inv. apply addCharges_ok in Hok. bool_prop. subst.
  unfold charge. split; [done|lia].
Qed.

Lemma charges_empty : charges ∅ = 0.
Proof. done. Qed.

Lemma charges_insert m k c : m !! k = None → charges (<[k := c]> m) = charge k c + charges m.
Proof.
  intros Hk. unfold charges. rewrite (map_imap_insert_Some _ _ _ _ (charge k c)) by done.
  apply total_insert. by rewrite map_lookup_imap, Hk.
Qed.

Lemma charges_delete m k c : m !! k = Some c → charges m = charge k c + charges (delete k m).
Proof.
  intros Hk. rewrite <- (insert_delete_id m k c Hk) at 1. by rewrite charges_insert by apply lookup_delete_eq.
Qed.

(** The sum that a loop over the entries of a map computes. *)
Definition entry_charges (l : list (bytes * Capability)) : Z := foldr (λ p n, charge p.1 p.2 + n) 0 l.

Lemma entry_charges_perm l l' : l ≡ₚ l' → entry_charges l = entry_charges l'.
Proof. induction 1; simpl in *; lia. Qed.

Lemma entry_charges_map m : entry_charges (map_to_list m) = charges m.
Proof.
  induction m as [|k c m Hk IH] using map_ind; [done|].
  rewrite charges_insert by done. rewrite (entry_charges_perm _ _ (map_to_list_insert m k c Hk)). simpl. lia.
Qed.

(** ** The loops of an installation *)

Section Loops.
Context (R : rely eff) (G : guarantee eff) (HG : reads_free G).

Lemma sumCharges_reading index entries n :
  reading G R (sumCharges index entries n) (λ r, ∀ x, r = Ok x → x = n + entry_charges entries).
Proof.
  revert index n. induction entries as [|[key c] entries IH]; intros index n; simpl.
  { rd_step. intros x [= <-]. lia. }
  apply reading_bind, reading_every; [done| |done]. do 2 rd_step; [done|].
  destruct (readerCapabilityCharge key c) as [k|] eqn:Ek; [|by rd_step]. apply charge_ok in Ek as [-> _].
  do 2 rd_step; [done|]. eapply reading_mono; [apply IH|]. intros r Hr x ->. rewrite (Hr x eq_refl). lia.
Qed.

Lemma validateReaderCapabilities_reading m :
  reading G R (validateReaderCapabilities m) (λ r, ∀ n, r = Ok n → n = charges m).
Proof.
  eapply reading_mono; [apply sumCharges_reading|]. intros r Hr n ->.
  by rewrite (Hr n eq_refl), entry_charges_map.
Qed.

Lemma copyRetained_reading index entries : reading G R (copyRetained index entries) (λ _, True).
Proof.
  revert index. induction entries as [|e entries IH]; intros index; simpl; [by rd_step|].
  by apply reading_bind, reading_every; [|apply IH|].
Qed.

Lemma retainCurrent_reading index entries retained n :
  reading G R (retainCurrent index entries retained n) (λ r, ∀ i m b, r = Ok (i, m, b) →
    n = charges retained → m = retained ∪ list_to_map entries ∧ b = charges m).
Proof.
  revert index retained n. induction entries as [|[key c] entries IH]; intros index retained n; simpl.
  { rd_step. intros i m b [= _ <- <-] ->. by rewrite map_union_empty. }
  apply reading_bind, reading_every; [done| |done]. destruct (retained !! key) as [old|] eqn:Ekey.
  - eapply reading_mono; [apply IH|]. intros r Hr i m b -> Hn. destruct (Hr _ _ _ eq_refl Hn) as [-> ->].
    split; [|done]. apply map_eq. intros k. rewrite !lookup_union. destruct (decide (k = key)) as [->|];
      [by rewrite Ekey, !union_Some_l|by rewrite lookup_insert_ne].
  - destruct (readerCapabilityCharge key c) as [k|] eqn:Ek; [|by rd_step]. apply charge_ok in Ek as [-> _].
    do 2 rd_step; [done|]. eapply reading_mono; [apply IH|]. intros r Hr i m b -> ->.
    destruct (Hr _ _ _ eq_refl) as [-> ->]; [rewrite charges_insert by done; lia|]. split; [|done].
    by rewrite <- insert_union_l, <- insert_union_r.
Qed.

(** [m] is [retained] without the keys. *)
Definition without (keys : list bytes) (retained m : gmap bytes Capability) : Prop :=
  ∀ key, (key ∈ keys → m !! key = None) ∧ (key ∉ keys → m !! key = retained !! key).

Lemma dropNext_reading index keys retained n :
  reading G R (dropNext index keys retained n) (λ r, ∀ m b, r = Ok (m, b) → n = charges retained →
    b = charges m ∧ without keys retained m).
Proof.
  revert index retained n. induction keys as [|key keys IH]; intros index retained n; simpl.
  { rd_step. intros m b [= <- <-] ->. split; [done|]. intros key. split; [|done]. by intros ?%elem_of_nil. }
  apply reading_bind, reading_every; [done| |done]. destruct (retained !! key) as [c|] eqn:Ekey.
  - destruct (readerCapabilityCharge key c) as [k|] eqn:Ek; [|by rd_step]. apply charge_ok in Ek as [-> _].
    do 2 rd_step; [done|]. eapply reading_mono; [apply IH|]. intros r Hr m b -> ->.
    destruct (Hr _ _ eq_refl) as [-> Hm]; [rewrite (charges_delete _ _ _ Ekey); lia|]. split; [done|].
    intros k. rewrite elem_of_cons. destruct (Hm k) as [H1 H2]. split.
    + intros [->|Hk]; [|by apply H1]. destruct (decide (key ∈ keys)); [by apply H1|].
      by rewrite H2, lookup_delete_eq.
    + intros Hk. rewrite H2 by tauto. apply lookup_delete_ne. intros <-. tauto.
  - eapply reading_mono; [apply IH|]. intros r Hr m b -> Hn. destruct (Hr _ _ eq_refl Hn) as [-> Hm].
    split; [done|]. intros k. rewrite elem_of_cons. destruct (Hm k) as [H1 H2]. split.
    + intros [->|Hk]; [|by apply H1]. destruct (decide (key ∈ keys)); [by apply H1|by rewrite H2].
    + intros Hk. apply H2. tauto.
Qed.
End Loops.

(** ** What the state is *)

Section Invariant.
Context {U : Hashed} `{NetLibrary} `{TransportLibrary}.
Context (reader : Reader) (accepts : bytes → bytes → bytes → Prop).
Abbreviation options := (readerDecodeOptions reader).

(** An envelope of this share that the verifier's keys accept. *)
Record signed (envelope : signedBundle) : Prop := {
  sn_accepted : accepts (bp_KeyID (sb_Payload envelope))
    (bundleSigningMessage (canonicalJSON (sb_Payload envelope))) (els (sb_Signature envelope));
  sn_repository : ∃ v, the (re_verifier reader) = Some v ∧
    bp_RepositoryID (sb_Payload envelope) = rv_RepositoryID (vv_verifier v);
  sn_share : bp_ShareID (sb_Payload envelope) = re_shareID reader;
  sn_reference : bp_ReferenceKey (sb_Payload envelope) = re_referenceKey reader;
}.

Abbreviation entries envelope := (els (bp_Capabilities (sb_Payload envelope))).

(** A capability that such an envelope has for the key. *)
Definition granted (key : bytes) (c : Capability) : Prop :=
  ∃ envelope, signed envelope ∧ decoded_entry options (entries envelope) key c.

(** A revision is the content of signed data. *)
Record revision_of (data : bytes) (envelope : signedBundle) (r : readerRevision) : Prop := {
  rn_hashed : hashed data;
  rn_data : strictDecode data = Some envelope;
  rn_digest : rd_bundleDigest r = sha256 data;
  rn_signed : signed envelope;
  rn_revision : rd_revision r = bp_Revision (sb_Payload envelope);
  rn_generation : rd_generation r = bp_ReferenceGeneration (sb_Payload envelope);
  rn_commit : rd_commit r = bp_ReferenceCommit (sb_Payload envelope);
  rn_reference : rd_referenceData r = els (wo_Data (bp_Reference (sb_Payload envelope)));
  rn_keys : dom (rd_capabilities r) = list_to_set (wc_Key <$> entries envelope);
  rn_unique : NoDup (wc_Key <$> entries envelope);
  rn_entries : ∀ key c, rd_capabilities r !! key = Some c → decoded_entry options (entries envelope) key c;
}.
Definition revision_ok (r : readerRevision) : Prop := ∃ data envelope, revision_of data envelope r.

(** The capability of an entry does not depend on the time it was decoded. *)
Lemma newCapability_now key url headers expiry loopback now now' p c c' :
  newCapability key url headers expiry loopback now p = Ok c →
  newCapability key url headers expiry loopback now' p = Ok c' → c = c'.
Proof.
  unfold newCapability.
  destruct (validateCapabilityURL url loopback) as [[text origin]|e] eqn:Eu, (validateCapabilityHeaders headers) as [hs|e'] eqn:Eh;
    intros E E'; ok_inv; simplify_eq; ok_inv; congruence.
Qed.

Lemma decodeCapability_now expiry now now' entry c c' :
  decodeCapability options expiry now entry = Ok c → decodeCapability options expiry now' entry = Ok c' → c = c'.
Proof.
  unfold decodeCapability. destruct (headersFromWire (wc_Headers entry)) as [hs|e]; [|done].
  cbn [result_wrap result_bind]. intros E E'.
  destruct (newCapability _ _ _ _ _ now _) as [x|] eqn:E1; [|done].
  destruct (newCapability _ _ _ _ _ now' _) as [y|] eqn:E2; [|done].
  pose proof (newCapability_now _ _ _ _ _ _ _ _ _ _ E1 E2) as ->. simpl in *. ok_inv. congruence.
Qed.

Lemma decoded_unique l key c c' :
  NoDup (wc_Key <$> l) → decoded_entry options l key c → decoded_entry options l key c' → c = c'.
Proof.
  intros Hnd (e & now & He & Hk & Hc) (e' & now' & He' & Hk' & Hc').
  assert (e = e') as ->; [|by eapply decodeCapability_now].
  apply list_elem_of_lookup in He as [i Hi], He' as [j Hj].
  assert (i = j) as ->; [|congruence].
  apply (NoDup_lookup _ _ _ key Hnd); rewrite list_lookup_fmap; [rewrite Hi|rewrite Hj]; simpl; by f_equal.
Qed.

Lemma revision_same r r' :
  ¬ sha256_collision → revision_ok r → revision_ok r' → rd_bundleDigest r = rd_bundleDigest r' →
  rd_generation r = rd_generation r' ∧ rd_commit r = rd_commit r' ∧ rd_capabilities r = rd_capabilities r'.
Proof.
  intros Hfree (data & envelope & Hr) (data' & envelope' & Hr') Hd. destruct Hr, Hr'.
  assert (data = data') as <-.
  { destruct (decide (data = data')) as [?|Hne]; [done|]. destruct Hfree. exists data, data'.
    split_and!; [done|done|]. split; [done|congruence]. }
  assert (envelope = envelope') as <- by congruence. split_and!; [congruence|congruence|]. apply map_eq. intros key.
  destruct (rd_capabilities r !! key) as [c|] eqn:E, (rd_capabilities r' !! key) as [c'|] eqn:E'; [| | |done].
  - f_equal. by eapply decoded_unique; [exact rn_unique0|apply rn_entries0|apply rn_entries1].
  - apply not_elem_of_dom in E'. apply elem_of_dom_2 in E. congruence.
  - apply not_elem_of_dom in E. apply elem_of_dom_2 in E'. congruence.
Qed.

(** The accounting is exact and within the budget; the capabilities of the
    current revision and the retained ones do not overlap; all are granted. *)
Record state_ok (s : readerState) : Prop := {
  so_current : ∀ r, rds_current s = Some r → revision_ok r ∧ rd_capabilityBytes r = charges (rd_capabilities r) ∧
    rd_capabilities r ##ₘ rds_retainedCapabilities s ∧
    Z.of_nat (size (rd_capabilities r)) + Z.of_nat (size (rds_retainedCapabilities s)) ≤ re_maxRetainedCapabilities reader ∧
    rd_capabilityBytes r + rds_retainedCapabilityBytes s ≤ re_maxRetainedCapabilityBytes reader;
  so_granted : ∀ key c, rds_retainedCapabilities s !! key = Some c → granted key c;
  so_bytes : rds_retainedCapabilityBytes s = charges (rds_retainedCapabilities s);
  so_none : rds_current s = None → rds_retainedCapabilities s = ∅;
}.

Lemma state_ok_new : state_ok readerState_new.
Proof. by constructor. Qed.

Lemma revision_granted r key c : revision_ok r → rd_capabilities r !! key = Some c → granted key c.
Proof. intros (data & envelope & []) Hc. exists envelope. split; [done|by apply rn_entries0]. Qed.

Lemma lookup_granted s key c : state_ok s → lookupCapability s key = Some c → granted key c.
Proof.
  intros [Hcur Hret _ _]. unfold lookupCapability. destruct (rds_current s) as [r|]; [|apply Hret].
  destruct (rd_capabilities r !! key) as [c'|] eqn:E; [|apply Hret]. intros [= <-].
  eapply revision_granted; [by apply Hcur|done].
Qed.

(** States only move forward: the revision and the generation do not decrease,
    one revision has one content and one generation one commit, and no key that
    could be read is lost. *)
Record advances (s s' : readerState) : Prop := {
  ad_current : ∀ r, rds_current s = Some r → ∃ r', rds_current s' = Some r' ∧
    (rd_revision r ≤ rd_revision r')%N ∧ (rd_generation r ≤ rd_generation r')%N ∧
    (rd_revision r = rd_revision r' → rd_bundleDigest r = rd_bundleDigest r') ∧
    (rd_generation r = rd_generation r' → rd_commit r = rd_commit r');
  ad_keys : ∀ key, is_Some (lookupCapability s key) → is_Some (lookupCapability s' key);
}.

#[export] Instance advances_preorder : PreOrder advances.
Proof.
  split; [intros s; by constructor; [intros r Hr; exists r|]|].
  intros s1 s2 s3 [C1 K1] [C2 K2]. constructor; [|by intros key ?%K1%K2]. intros r Hr.
  destruct (C1 r Hr) as (r2 & Hr2 & ? & ? & Hd & Hc), (C2 r2 Hr2) as (r3 & Hr3 & ? & ? & Hd' & Hc').
  exists r3. split_and!; [done|lia|lia| |].
  - intros E. rewrite Hd, Hd' by lia. done.
  - intros E. rewrite Hc, Hc' by lia. done.
Qed.

Lemma lookup_current s r key :
  rds_current s = Some r → is_Some (lookupCapability s key) ↔
  is_Some (rd_capabilities r !! key) ∨ is_Some (rds_retainedCapabilities s !! key).
Proof.
  intros Hr. unfold lookupCapability. rewrite Hr. destruct (rd_capabilities r !! key) as [c|].
  - split; [by left|by eexists].
  - split; [by right|]. by intros [[? ?]|?].
Qed.

(** ** Installing *)

Section Install.
Context (R : rely eff) (G : guarantee eff) (HG : reads_free G) (Hfree : ¬ sha256_collision).
Context (bundle : Bundle) (digest : bytes) (version : Version).
Abbreviation next n := (revisionOf bundle digest version n).
Hypothesis Hnext : ∀ n, revision_ok (next n).

Definition installed (s s' : readerState) : Prop :=
  state_ok s' ∧ advances s s' ∧ rds_current s' = Some (next (charges (bd_capabilities bundle))).

(** The revision at hand written again. *)
Lemma install_same s r :
  state_ok s → rds_current s = Some r → rd_revision r = bd_revision bundle → rd_bundleDigest r = digest →
  installed s (with_current (next (charges (bd_capabilities bundle))) s).
Proof.
  intros Hs Hr Erev Ed. set (n := charges _). destruct (so_current _ Hs r Hr) as (Hok & Hb & Hdisj & Hsize & Hbytes).
  destruct (revision_same r (next n) Hfree Hok (Hnext n) Ed) as (Eg & Ec & Em).
  split_and!; [|constructor|done].
  - destruct Hs as [_ Hgr Hby _]. constructor; [|done|done|done]. intros r' [= <-]. cbn in Em |- *.
    rewrite <- Em. unfold n. rewrite <- Em. split_and!; [apply Hnext|done|done|done|]. by rewrite <- Hb.
  - intros r' Hr'. rewrite Hr in Hr'. injection Hr' as <-. eexists. split; [done|]. cbn in *. split_and!; [lia|lia|done|done].
  - intros key. rewrite (lookup_current s r) by done. rewrite (lookup_current _ (next n)) by done.
    cbn in Em |- *. by rewrite Em.
Qed.

(** The first revision. *)
Lemma install_first s :
  state_ok s → rds_current s = None →
  Z.of_nat (size (bd_capabilities bundle)) ≤ re_maxRetainedCapabilities reader →
  charges (bd_capabilities bundle) ≤ re_maxRetainedCapabilityBytes reader →
  installed s (with_current (next (charges (bd_capabilities bundle))) s).
Proof.
  intros Hs Hr Hsize Hbytes. pose proof (so_none _ Hs Hr) as He. pose proof (so_bytes _ Hs) as Hb.
  rewrite He in Hb. split_and!; [|constructor|done].
  - constructor; [|by destruct Hs|by destruct Hs|done]. intros r [= <-]. cbn. rewrite He, Hb.
    split_and!; [apply Hnext|done|apply map_disjoint_empty_r|rewrite map_size_empty; lia|rewrite charges_empty; lia].
  - intros r Hr'. congruence.
  - intros key. unfold lookupCapability at 1. rewrite Hr, He, lookup_empty. by intros [].
Qed.

(** A newer revision, with the capabilities of the current one retained. *)
Lemma install_newer s r retained b merged :
  state_ok s → rds_current s = Some r → (rd_revision r < bd_revision bundle)%N →
  checkNewer r (next (charges (bd_capabilities bundle))) = Ok tt →
  merged = rds_retainedCapabilities s ∪ rd_capabilities r → b = charges retained →
  without (map fst (map_to_list (bd_capabilities bundle))) merged retained →
  exceedsRetention reader (next (charges (bd_capabilities bundle))) retained b = false →
  installed s {| rds_current := Some (next (charges (bd_capabilities bundle)));
                 rds_retainedCapabilities := retained; rds_retainedCapabilityBytes := b |}.
Proof.
  intros Hs Hr Hrev Hnew -> -> Hw Hmax. set (n := charges _) in *.
  destruct (so_current _ Hs r Hr) as (Hok & _ & _ & _ & _).
  assert (∀ key, key ∈ map fst (map_to_list (bd_capabilities bundle)) ↔ is_Some (bd_capabilities bundle !! key)) as Hkeys.
  { intros key. rewrite list_elem_of_fmap. split.
    - intros ([k c] & -> & Hin%elem_of_map_to_list). by exists c.
    - intros [c Hc]. exists (key, c). split; [done|]. by apply elem_of_map_to_list. }
  unfold exceedsRetention in Hmax. bool_prop. cbn in *. split_and!; [|constructor|done].
  - constructor; [|intros key c Hc|done|done]; cbn in *.
    + intros r' [= <-]. cbn. split_and!; [apply Hnext|done| |lia|lia].
      apply map_disjoint_spec. intros key c c' Hc Hc'. destruct (Hw key) as [Hin _].
      rewrite Hin in Hc'; [done|]. apply Hkeys. by exists c.
    + destruct (Hw key) as [Hin Hout]. destruct (decide (key ∈ map fst (map_to_list (bd_capabilities bundle)))) as [Hk|Hk];
        [by rewrite Hin in Hc|]. rewrite Hout in Hc by done. apply lookup_union_Some_raw in Hc as [Hc|[_ Hc]];
        [by apply (so_granted _ Hs)|by eapply revision_granted].
  - intros r' Hr'. rewrite Hr in Hr'. injection Hr' as <-. eexists. split; [done|]. cbn.
    unfold checkNewer in Hnew. ok_inv. bool_prop. cbn in *. split_and!; [lia|lia|lia|]. intros Eg.
    apply andb_false_iff in Hok1 as [E|E]; bool_prop; congruence.
  - intros key. rewrite (lookup_current s r), (lookup_current _ (next n)) by done. cbn. intros Hor.
    destruct (Hw key) as [Hin Hout]. destruct (decide (key ∈ map fst (map_to_list (bd_capabilities bundle)))) as [Hk|Hk];
      [left; by apply Hkeys|right]. rewrite Hout, lookup_union by done.
    destruct Hor as [[c ->]|[c ->]]; [destruct (rds_retainedCapabilities s !! key)|destruct (rd_capabilities r !! key)]; by eexists.
Qed.

Lemma installBundle_spec s h :
  state_ok s → mwp R G (installBundle reader bundle digest version) s h (λ h' s' r,
    ext_reads h h' ∧ match r with Ok _ => installed s s' | Err _ => s' = s end).
Proof.
  intros Hs. unfold installBundle. mwp_step.
  eapply mwp_mono; [by apply (reading_checkCtx G R (λ _, True))|]. intros h1 s1 [[]|e] (-> & E1 & _); [|done].
  mwp_step. eapply mwp_mono; [by apply validateReaderCapabilities_reading|].
  intros h2 s2 [n|e] (-> & E2 & Hn); [|by split; [etrans|]]. specialize (Hn n eq_refl) as ->.
  assert (ext_reads h h2) as E by by etrans. clear E1 E2 h1.
  mwp_step. mwp_step; [by split|]. bool_prop. mwp_step. mwp_step.
  destruct (rds_current s) as [r|] eqn:Hr; [|mwp_step; split; [done|by apply install_first]].
  mwp_step. mwp_step; [by split|]. bool_prop. cbn [rd_revision revisionOf] in *.
  destruct (bool_decide_reflect (bd_revision bundle = rd_revision r)) as [Er|Er].
  { mwp_step. mwp_step; [by split|]. bool_prop. mwp_step. split; [done|]. by eapply install_same. }
  unfold installNewer. do 2 mwp_step. do 2 mwp_step.
  destruct (checkNewer r (next (charges (bd_capabilities bundle)))) as [[]|] eqn:Hnew; [|by split].
  mwp_step. eapply mwp_mono; [by apply copyRetained_reading|].
  intros h3 s3 [i|e] (-> & E3 & _); [|by split; [etrans|]].
  mwp_step. eapply mwp_mono; [by apply retainCurrent_reading|].
  intros h4 s4 [[[i' merged] b]|e] (-> & E4 & Hm); [|by split; [do 2 (etrans; [done|])|]].
  destruct (Hm _ _ _ eq_refl (so_bytes _ Hs)) as [-> ->]. rewrite list_to_map_to_list.
  mwp_step. eapply mwp_mono; [by apply dropNext_reading|].
  intros h5 s5 [[retained b]|e] (-> & E5 & Hd); [|by split; [do 3 (etrans; [done|])|]].
  destruct (Hd _ _ eq_refl eq_refl) as [-> Hw]. assert (ext_reads h h5) by by do 3 (etrans; [done|]).
  mwp_step. mwp_step; [by split|]. mwp_step. split; [done|].
  eapply install_newer; [done|done|lia|done|done|done|done|done].
Qed.
End Install.
End Invariant.

(** ** The environment *)

(** An environment whose answers do not depend on the history keeps to them. *)
Definition answered (A : ∀ X, eff X → X → Prop) (ev : event eff) : Prop :=
  let '(Ev e x) := ev in A _ e x.

Lemma wp_answered {B} (A : ∀ X, eff X → X → Prop) G (p : prog eff B) h Q :
  Forall (answered A) h → wp (λ _, A) G p h Q → wp (λ _, A) G p h (λ h' b, Q h' b ∧ Forall (answered A) h').
Proof.
  revert h. induction p as [b|X e k IH]; simpl; intros h Hh Hp; [done|]. destruct Hp as [HG Hp]. split; [done|].
  intros x Hx. apply IH; [|by apply Hp]. apply Forall_app. split; [done|]. by constructor.
Qed.

Section Serving.
Context {U : Hashed} `{NetLibrary} `{TransportLibrary} `{AEAD}.
Context (reader : Reader) (accepts : bytes → bytes → bytes → Prop) (key : bytes).
Hypothesis Hfree : ¬ sha256_collision.
Abbreviation state_ok := (state_ok reader accepts).
Abbreviation granted := (granted reader accepts).

(** The bytes of the root as they were sealed. *)
Definition openRoot (raw : bytes) : result bytes :=
  match re_clientEncryption reader with
  | Some profile => OpenObject profile (cap_exactKey (re_rootCapability reader)) raw
  | None => Ok raw
  end.

(** The verifier accepts only what it accepts; the other goroutines of the reader
    keep its invariant and move its state forward.  What the network answers is
    anything; [hashed] has the roots among it. *)
Definition reader_answer X (e : eff X) (x : X) : Prop :=
  match e in eff T return T → Prop with
  | Verifier_Verify k message signature => λ x, x = None → accepts k message signature
  | Share op =>
      match op in share_eff T return T → Prop with
      | Http_ReadAll _ => λ x, ∀ raw data, x = Ok raw → openRoot raw = Ok data → hashed data
      | Reader_Sync s => λ s', state_ok s → state_ok s' ∧ advances s s'
      | _ => λ _, True
      end
  | _ => λ _, True
  end x.
Definition reader_rely : rely eff := λ _, reader_answer.

(** The headers that the reader sets itself. *)
Definition runtimeHeaders : list bytes :=
  CanonicalHeaderKey <$> [str "Accept-Encoding"; str "Cache-Control"; str "Pragma"; str "If-None-Match"].
(** A request uses the URL and the signed headers of one capability. *)
Definition uses (c : Capability) (url : bytes) (headers : gmap bytes (list bytes)) : Prop :=
  url = cap_rawURL c ∧ ∀ name, name ∉ runtimeHeaders → headers !! name = cap_headers c !! name.

(** A call for [key] sends requests to the root and, with a capability granted
    for exactly that key, to the object; its other calls only read: they write
    nothing, mint nothing and give nothing to the caches of a consumer. *)
Definition reader_protocol : guarantee eff := λ _ X e,
  match e with
  | Share (Http_Do url headers) => ∃ c, uses c url headers ∧
      (c = re_rootCapability reader ∨ key ≠ re_referenceKey reader ∧ granted key c)
  | e => is_read e = true
  end.
Abbreviation R := reader_rely.
Abbreviation G := reader_protocol.

Lemma reader_reads : reads_free G.
Proof. intros h X e He. destruct e; try done. by destruct op. Qed.

(** [serving m Q]: from a state that keeps the invariant, [m] ends in one that
    keeps it and is not behind, and a result satisfies [Q]. *)
Definition serving {A} (m : M eff readerState A) (Q : readerState → A → Prop) : Prop :=
  ∀ s h, Forall (answered reader_answer) h → state_ok s → mwp R G m s h (λ h' s' r,
    Forall (answered reader_answer) h' ∧ state_ok s' ∧ advances s s' ∧ ∀ a, r = Ok a → Q s' a).

Lemma serving_mono {A} (m : M eff readerState A) (Q Q' : readerState → A → Prop) :
  serving m Q → (∀ s a, state_ok s → Q s a → Q' s a) → serving m Q'.
Proof.
  intros Hm HQ s h Hh Hs. eapply mwp_mono; [by apply Hm|]. intros h' s' r (? & ? & ? & Hr). split_and!; auto.
Qed.

Lemma serving_bind {A B} (m : M eff readerState A) (f : A → M eff readerState B) (P : A → Prop) Q :
  serving m (λ _, P) → (∀ a, P a → serving (f a) Q) → serving (mbind m f) Q.
Proof.
  intros Hm Hf s h Hh Hs. apply mwp_bind. eapply mwp_mono; [by apply Hm|].
  intros h1 s1 [a|e] (Hh1 & Hs1 & Ha1 & Hr); [|by split_and!].
  eapply mwp_mono; [by apply (Hf a (Hr a eq_refl))|]. intros h2 s2 r (? & ? & ? & ?). split_and!; [done|done|by etrans|done].
Qed.

Lemma serving_reading {A} (m : M eff readerState A) P (Q : readerState → A → Prop) :
  reading G R m P → (∀ s a, P (Ok a) → Q s a) → serving m Q.
Proof.
  intros Hm HQ s h Hh Hs. eapply wp_mono; [exact (wp_answered reader_answer G _ h _ Hh (Hm s h))|].
  intros h' [s' r] [(-> & _ & Hr) Hh']. split_and!; [done|done|done|]. intros a ->. by apply HQ.
Qed.

Lemma serving_lift {A} (r : result A) (Q : readerState → A → Prop) :
  (∀ s a, r = Ok a → Q s a) → serving (mlift r) Q.
Proof. intros HQ s h Hh Hs. by split_and!; [| | |intros a; apply HQ]. Qed.
Lemma serving_ret {A} (a : A) (Q : readerState → A → Prop) : (∀ s, state_ok s → Q s a) → serving (mret a) Q.
Proof. intros HQ s h Hh Hs. split_and!; [done|done|done|]. intros a' [= <-]. by apply HQ. Qed.
Lemma serving_fail {A} e (Q : readerState → A → Prop) : serving (mfail e) Q.
Proof. intros s h Hh Hs. by split_and!. Qed.
Lemma serving_guard c e (Q : readerState → unit → Prop) : (∀ s, c = false → Q s tt) → serving (mguard c e) Q.
Proof. intros HQ. apply serving_lift. intros s [] E. by destruct c; [|apply HQ]. Qed.
Lemma serving_get (Q : readerState → readerState → Prop) : (∀ s, state_ok s → Q s s) → serving mget Q.
Proof. intros HQ s h Hh Hs. split_and!; [done|done|done|]. intros a [= <-]. by apply HQ. Qed.

Lemma serving_call {X} (e : eff X) (Q : readerState → X → Prop) :
  (∀ h, G h _ e) → (∀ s x, reader_answer _ e x → Q s x) → serving (mcall e) Q.
Proof.
  intros He HQ s h Hh Hs. apply mwp_call; [done|]. intros x Hx.
  split_and!; [|done|done|intros a [= <-]; by apply HQ]. apply Forall_app. split; [done|]. by constructor.
Qed.

Lemma serving_calle (e : eff (option error)) (Q : readerState → unit → Prop) :
  (∀ h, G h _ e) → (∀ s, Q s tt) → serving (mcalle e) Q.
Proof.
  intros He HQ. unfold mcalle. eapply serving_bind; [by apply (serving_call _ (λ _ _, True))|].
  intros [x|] _; [apply serving_fail|by apply serving_ret].
Qed.
Lemma serving_ctx (Q : readerState → unit → Prop) : (∀ s, Q s tt) → serving checkCtx Q.
Proof. by apply serving_calle. Qed.
Lemma serving_now (Q : readerState → Z → Prop) : (∀ s now, Q s now) → serving time_Now Q.
Proof. intros HQ. by apply serving_call. Qed.

(** The result of [m] is handed on after a call that leaves the state alone. *)
Lemma serving_after {A X} (m : M eff readerState A) (e : eff X) (Q : readerState → A → Prop) :
  (∀ h, G h _ e) → serving m Q → serving (result <- mtry m ;; mcall e ;;; mlift result) Q.
Proof.
  intros He Hm s h Hh Hs. apply mwp_bind, mwp_try. eapply mwp_mono; [by apply Hm|].
  intros h1 s1 r (Hh1 & Hs1 & Ha1 & Hr). apply mwp_bind, mwp_call; [done|]. intros x Hx.
  apply mwp_lift. split_and!; [|done|done|done]. apply Forall_app. split; [done|]. by constructor.
Qed.

Lemma serving_wrap {A} f (m : M eff readerState A) (Q : readerState → A → Prop) :
  serving m Q → serving (mwrap f m) Q.
Proof.
  intros Hm s h Hh Hs. apply mwp_wrap. eapply mwp_mono; [by apply Hm|]. intros h' s' [a|e] (? & ? & ? & Hr);
    (split_and!; [done|done|done|]); simpl; [|done]. intros a' [= <-]. by apply Hr.
Qed.

(** ** Requests *)

Lemma uses_set c url headers name value :
  CanonicalHeaderKey name ∈ runtimeHeaders → uses c url headers → uses c url (Header_Set name value headers).
Proof.
  intros Hn [Hu Hh]. split; [done|]. intros n Hr. unfold Header_Set.
  rewrite lookup_insert_ne; [by apply Hh|]. by intros <-.
Qed.

Ltac runtime_header := refine (bool_decide_unpack _ _); vm_compute; exact I.

Lemma doGET_serving c url headers :
  uses c url headers → (c = re_rootCapability reader ∨ key ≠ re_referenceKey reader ∧ granted key c) →
  serving (doGET reader url headers) (λ _ _, True).
Proof.
  intros Hu Hc. unfold doGET, authorized.
  eapply serving_bind; [eapply serving_bind; [by apply (serving_now (λ _ _, True))|intros now _; by apply (serving_guard _ _ (λ _ _, True))]|].
  intros [] _. eapply serving_bind; [by apply (serving_ctx (λ _ _, True))|]. intros [] _.
  eapply serving_bind; [by apply (serving_guard _ _ (λ _ _, True))|]. intros [] _.
  set (hs := if hasHeader headers (str "Accept-Encoding") then headers else _).
  assert (uses c url hs) as Hs by (unfold hs; case_match; [done|]; apply uses_set; [runtime_header|done]).
  eapply serving_bind; [apply (serving_call _ (λ _ _, True)); [|done]; intros h; by exists c|].
  intros [response|redirect open] _; [by apply serving_ret|].
  eapply (serving_bind _ _ (λ _, True)); [destruct open; [by apply serving_call|by apply serving_ret]|]. intros [] _.
  eapply serving_bind; [by apply (serving_ctx (λ _ _, True))|]. intros [] _.
  eapply serving_bind; [by apply (serving_guard _ _ (λ _ _, True))|]. intros [] _. apply serving_fail.
Qed.

Lemma readBoundedBody_serving response limit :
  serving (readBoundedBody response limit) (λ _ data, len data ≤ limit ∧ ∀ d, openRoot data = Ok d → hashed d).
Proof.
  unfold readBoundedBody. do 2 (eapply serving_bind; [by apply (serving_guard _ _ (λ _ _, True))|]; intros [] _).
  eapply (serving_bind _ _ (λ r, ∀ raw, r = Ok raw → ∀ d, openRoot raw = Ok d → hashed d)).
  { apply serving_call; [done|]. intros s x Hx raw -> d. by apply Hx. }
  intros [data|e] Hd.
  - eapply serving_bind; [by apply (serving_guard _ _ (λ _ _, (limit <? len data) = false))|]. intros [] Hl. bool_prop.
    eapply serving_bind; [by apply (serving_ctx (λ _ _, True))|]. intros [] _. apply serving_ret. intros s _.
    split; [done|]. by apply Hd.
  - eapply serving_bind; [by apply (serving_ctx (λ _ _, True))|]. intros [] _. apply serving_fail.
Qed.

Lemma withResponse_serving {A} response (k : M eff readerState A) (Q : readerState → A → Prop) :
  serving k Q → serving (withResponse response k) Q.
Proof.
  intros Hk. apply serving_after; [done|]. eapply serving_bind; [by apply (serving_lift _ (λ _ _, True))|]. by intros [] _.
Qed.

(** ** The shared state *)

Lemma sync_serving : serving sync (λ _ _, True).
Proof.
  intros s h Hh Hs. unfold sync. apply mwp_bind, mwp_get, mwp_bind, mwp_call; [done|]. intros s' Hs'.
  apply mwp_put. destruct (Hs' Hs) as [? ?]. split_and!; [|done|done|done].
  apply Forall_app. split; [done|]. by constructor.
Qed.

Lemma findCapability_serving : serving (findCapability key) (λ _ found, ∀ c, found = Some c → granted key c).
Proof.
  unfold findCapability. eapply serving_bind; [apply sync_serving|]. intros [] _.
  eapply (serving_bind _ _ state_ok); [by apply serving_get|]. intros s Hs.
  apply serving_ret. intros _ _ c. by apply lookup_granted.
Qed.

Lemma hasCurrentBundle_serving : serving hasCurrentBundle (λ _ _, True).
Proof.
  unfold hasCurrentBundle. eapply serving_bind; [apply sync_serving|]. intros [] _.
  eapply (serving_bind _ _ (λ _, True)); [by apply serving_get|]. intros s _. by apply serving_ret.
Qed.

Lemma acquireRefresh_serving : serving acquireRefresh (λ _ _, True).
Proof.
  unfold acquireRefresh. eapply serving_bind; [by apply (serving_calle _ (λ _ _, True))|]. intros [] _. apply sync_serving.
Qed.

Lemma underGate_serving {A} (k : M eff readerState A) (Q : readerState → A → Prop) :
  serving k Q → serving (underGate k) Q.
Proof.
  intros Hk. unfold underGate. eapply serving_bind; [apply acquireRefresh_serving|]. intros [] _.
  by apply serving_after.
Qed.

(** ** The root *)

Lemma decodeRoot_serving data version :
  hashed data → serving (decodeRoot reader data) (λ _ bundle,
    ∀ n, revision_ok reader accepts (revisionOf bundle (sha256 data) version n)).
Proof.
  intros Hd. apply serving_wrap. intros s h Hh Hs. apply mwp_with_local.
  pose proof (Decode_acting (S:=unit) R G reader_reads data (re_verifier reader) (readerDecodeOptions reader) h tt) as Hdec.
  eapply wp_mono; [exact (wp_answered reader_answer G _ h _ Hh Hdec)|].
  intros h' [s' r] [[_ [_ Hr]] Hh']. split_and!; [done|done|done|]. intros bundle -> n.
  destruct (Hr bundle eq_refl) as (v & envelope & Hv & Hau). destruct Hau.
  exists data, envelope. constructor; try done.
  - constructor; [|by exists v|by apply au_bound|by apply au_bound].
    eapply Forall_forall in Hh' as Hacc; [|exact au_verified]. by apply Hacc.
  - by apply au_revision.
  - by apply au_generation.
  - by apply au_generation.
  - intros k c Hc. by apply au_capabilities.
Qed.

Lemma installBundle_serving bundle digest version :
  (∀ n, revision_ok reader accepts (revisionOf bundle digest version n)) →
  serving (installBundle reader bundle digest version) (λ _ _, True).
Proof.
  intros Hn s h Hh Hs.
  eapply wp_mono; [exact (wp_answered reader_answer G _ h _ Hh
    (installBundle_spec reader accepts R G reader_reads Hfree bundle digest version Hn s h Hs))|].
  intros h' [s' [[]|e]] [[_ Hr] Hh']; [destruct Hr as (? & ? & _)|subst s']; by split_and!.
Qed.

Lemma pollHeaders_uses s : uses (re_rootCapability reader) (cap_rawURL (re_rootCapability reader)) (pollHeaders reader s).
Proof.
  assert (uses (re_rootCapability reader) (cap_rawURL (re_rootCapability reader))
    (Header_Set (str "Pragma") (str "no-cache") (Header_Set (str "Cache-Control") (str "no-cache")
       (cap_headers (re_rootCapability reader))))) as Hu.
  { apply uses_set; [runtime_header|]. apply uses_set; [runtime_header|]. by split. }
  unfold pollHeaders. destruct (rds_current s) as [current|]; [|done]. case_match; [done|].
  apply uses_set; [runtime_header|done].
Qed.

Lemma referenceFromCurrent_serving options :
  serving (referenceFromCurrent options) (λ s object, referenceFrom options s = Ok object).
Proof. intros s h Hh Hs. apply mwp_bind, mwp_get, mwp_lift. by split_and!. Qed.

Lemma getReferenceLocked_serving options :
  serving (getReferenceLocked reader options) (λ s object, referenceFrom options s = Ok object).
Proof.
  unfold getReferenceLocked. eapply serving_bind; [by apply (serving_get (λ _ _, True))|]. intros state _.
  eapply serving_bind; [eapply doGET_serving; [apply pollHeaders_uses|by left]|]. intros response _.
  apply withResponse_serving. case_match; [apply referenceFromCurrent_serving|].
  eapply serving_bind; [by apply (serving_guard _ _ (λ _ _, True))|]. intros [] _.
  eapply serving_bind; [by apply (serving_lift _ (λ _ _, True))|]. intros version _.
  eapply serving_bind; [eapply serving_mono; [apply readBoundedBody_serving|by intros s a _ Ha]|]. intros raw [_ Hraw].
  eapply (serving_bind _ _ hashed); [apply serving_lift; intros _ data E; by apply Hraw|]. intros data Hdata.
  eapply serving_bind; [by apply (decodeRoot_serving data version)|]. intros bundle Hbundle.
  eapply serving_bind; [by apply installBundle_serving|]. intros [] _. apply referenceFromCurrent_serving.
Qed.

Lemma ensureInitialBundle_serving : serving (ensureInitialBundle reader) (λ _ _, True).
Proof.
  unfold ensureInitialBundle. eapply serving_bind; [apply hasCurrentBundle_serving|]. intros [] _; [by apply serving_ret|].
  apply underGate_serving. eapply serving_bind; [by apply (serving_get (λ _ _, True))|]. intros state _.
  case_match; [by apply serving_ret|].
  eapply (serving_bind _ _ (λ _, True)); [eapply serving_mono; [apply getReferenceLocked_serving|done]|].
  intros _ _. by apply serving_ret.
Qed.

(** ** Objects *)

Lemma authorizeKey_serving : serving (authorizeKey reader key) (λ _ c, granted key c).
Proof.
  set (P := λ found : option Capability, ∀ c, found = Some c → granted key c).
  assert (∀ found, P found → serving (mret found) (λ _, P)) as Hret by (intros found HP; by apply serving_ret).
  unfold authorizeKey. eapply (serving_bind _ _ P); [apply findCapability_serving|]. intros found Hf.
  eapply (serving_bind _ _ P).
  { destruct found; [by apply Hret|]. eapply serving_bind; [apply hasCurrentBundle_serving|]. intros [] _; [by apply Hret|].
    eapply serving_bind; [apply ensureInitialBundle_serving|]. intros [] _. apply findCapability_serving. }
  clear found Hf. intros found Hf. eapply (serving_bind _ _ P).
  { destruct found; [by apply Hret|]. eapply serving_bind; [apply acquireRefresh_serving|]. intros [] _.
    eapply (serving_bind _ _ state_ok); [by apply serving_get|]. intros state Hs.
    eapply (serving_bind _ _ (λ _, True)); [by apply serving_call|]. intros [] _. apply Hret.
    intros c. by apply lookup_granted. }
  intros [c|] Hc; [|apply serving_fail]. apply serving_ret. intros s _. by apply Hc.
Qed.

Lemma objectHeaders_uses c options : uses c (cap_rawURL c) (objectHeaders c options).
Proof. unfold objectHeaders. case_match; [done|]. apply uses_set; [runtime_header|done]. Qed.

Lemma objectLimit_bound options :
  re_clientEncryption reader = None → 0 < go_MaxBytes options → objectLimit reader options ≤ go_MaxBytes options.
Proof. intros He Hm. unfold objectLimit, overhead. rewrite He. repeat case_match; bool_prop; lia. Qed.

(** What an object that Get returned is: within the caller's limit, with a
    version that the caller did not have. *)
Definition fetched (options : GetOptions) (object : Object) : Prop :=
  (0 < go_MaxBytes options → len (ob_Data object) ≤ go_MaxBytes options) ∧
  v_ETag (ob_Version object) ≠ [] ∧ go_IfNoneMatch options ≠ v_ETag (ob_Version object).

Lemma responseVersion_etag headers version : responseVersion headers = Ok version → v_ETag version ≠ [].
Proof.
  unfold responseVersion. intros E. repeat case_match; try done; ok_inv; bool_prop; by subst.
Qed.

Lemma getImmutable_serving options :
  key ≠ re_referenceKey reader →
  serving (reader_getImmutable reader key options) (λ _ object, fetched options object).
Proof.
  intros Hkey. unfold reader_getImmutable, operationContext.
  eapply (serving_bind _ _ (λ _, True)).
  { eapply serving_bind; [by apply (serving_now (λ _ _, True))|]. intros now _. by apply serving_ret. }
  intros [] _. eapply serving_bind; [apply authorizeKey_serving|]. intros c Hc.
  eapply serving_bind; [by apply (serving_now (λ _ _, True))|]. intros now _.
  eapply serving_bind; [by apply (serving_guard _ _ (λ _ _, True))|]. intros [] _.
  eapply serving_bind; [eapply doGET_serving; [apply objectHeaders_uses|by right]|]. intros response _.
  apply withResponse_serving. do 2 (eapply serving_bind; [by apply (serving_guard _ _ (λ _ _, True))|]; intros [] _).
  eapply (serving_bind _ _ (λ version, v_ETag version ≠ []));
    [apply serving_lift; intros _ version; apply responseVersion_etag|]. intros version Hv.
  eapply serving_bind; [by apply (serving_guard _ _ (λ _ _, (go_IfNoneMatch options !=? []) && (go_IfNoneMatch options ==? v_ETag version) = false))|].
  intros [] Hm. eapply serving_bind; [eapply serving_mono; [apply readBoundedBody_serving|by intros s a _ Ha]|].
  intros data [Hl _].
  eapply (serving_bind _ _ (λ opened, 0 < go_MaxBytes options → len opened ≤ go_MaxBytes options)).
  { apply serving_lift. intros _ opened E Hmax. destruct (re_clientEncryption reader) as [profile|] eqn:He.
    - ok_inv. subst v. apply andb_false_iff in Hok0 as [Hb|Hb]; bool_prop; lia.
    - injection E as <-. pose proof (objectLimit_bound options He Hmax). lia. }
  intros opened Ho. apply serving_ret. intros _ _. split_and!; [done|done|]. cbn.
  apply andb_false_iff in Hm as [Hm|Hm]; bool_prop; congruence.
Qed.
Lemma Get_serving options :
  serving (Get reader key options) (λ s object,
    if decide (key = re_referenceKey reader) then referenceFrom options s = Ok object else fetched options object).
Proof.
  unfold Get, authorized. eapply (serving_bind _ _ (λ _, True)).
  { eapply serving_bind; [by apply (serving_now (λ _ _, True))|]. intros now _.
    by apply (serving_guard _ _ (λ _ _, True)). }
  intros [] _. eapply (serving_bind _ _ (λ _, True)); [by apply serving_lift|]. intros [] _.
  destruct (bool_decide_reflect (key = re_referenceKey reader)) as [Hk|Hk].
  - unfold getReference, operationContext. eapply (serving_bind _ _ (λ _, True)).
    { eapply serving_bind; [by apply (serving_now (λ _ _, True))|]. intros now _. by apply serving_ret. }
    intros [] _. apply underGate_serving. eapply serving_mono; [by apply getReferenceLocked_serving|].
    intros s' object _ Hr. by rewrite decide_True.
  - eapply (serving_bind _ _ (λ _, True)); [by apply serving_guard|]. intros [] _.
    eapply serving_mono; [by apply getImmutable_serving|]. intros s' object _ Hr. by rewrite decide_False.
Qed.
End Serving.

(** ** Properties *)

Arguments lockedHTTPClient : simpl never.
Arguments validateBundleBindings : simpl never.
Arguments validateCapabilityURL : simpl never.

(** C16: a share is read only through what it granted.  Whatever the network
    answers, for a verifier that accepts only certain signatures and other
    goroutines that keep the reader's invariant, a Get of [key] sends requests
    only to the root URL, with the headers of the root, and for an object only to
    a URL with the headers of a capability that a bundle accepted for this
    repository, share and reference grants to exactly this key; it writes and
    mints nothing, keeps the invariant of the reader and moves it forward only.
    A returned reference is the one of the signed bundle installed at that time; a
    returned object is within the caller's limit and of a new version.  No two of
    the bundles read collide under SHA-256. *)
Theorem Get_confined {U : Hashed} `{NetLibrary} `{TransportLibrary} `{AEAD} (reader : Reader)
    (accepts : bytes → bytes → bytes → Prop) (key : bytes) (options : GetOptions) (s : readerState) :
  ¬ sha256_collision → state_ok reader accepts s →
  mwp (reader_rely reader accepts) (reader_protocol reader accepts key) (Get reader key options) s [] (λ _ s' r,
    state_ok reader accepts s' ∧ advances s s' ∧ ∀ object, r = Ok object →
      if decide (key = re_referenceKey reader)
      then ∃ current data envelope, rds_current s' = Some current ∧
        revision_of reader accepts data envelope current ∧
        ob_Data object = els (wo_Data (bp_Reference (sb_Payload envelope)))
      else fetched options object).
Proof.
  intros Hfree Hs. eapply mwp_mono; [by apply Get_serving|].
  intros h' s' r (_ & Hs' & Ha & Hr). split_and!; [done|done|]. intros object ->. specialize (Hr object eq_refl).
  case_decide; [|done]. unfold referenceFrom in Hr. destruct (rds_current s') as [current|] eqn:Hc; [|done].
  destruct (so_current _ _ _ Hs' current Hc) as ((data & envelope & Hrev) & _).
  exists current, data, envelope. split_and!; [done|done|]. ok_inv. subst object. simpl. apply Hrev.
Qed.

(** C17: an accepted revision loses nothing.  Installing a bundle is atomic: it
    fails and leaves the state as it is, or the bundle becomes the current
    revision, the revision and the generation do not go back (one revision keeps
    its content, one generation its commit), every key that could be read can
    still be read, and the reader's accounting stays exact and within its budget:
    the charges of the retained capabilities and of the current ones, which do
    not overlap, are what they are counted for, and their numbers and charges
    together keep the limits. *)
Theorem installBundle_retains {U : Hashed} `{NetLibrary} `{TransportLibrary} (reader : Reader)
    (accepts : bytes → bytes → bytes → Prop) (bundle : Bundle) (digest : bytes) (version : Version)
    (R : rely eff) (s : readerState) (h : history eff) :
  ¬ sha256_collision → state_ok reader accepts s →
  (∀ n, revision_ok reader accepts (revisionOf bundle digest version n)) →
  mwp R any_call (installBundle reader bundle digest version) s h (λ h' s' r,
    ext_reads h h' ∧
    match r with
    | Err _ => s' = s
    | Ok _ => state_ok reader accepts s' ∧ advances s s' ∧
        rds_current s' = Some (revisionOf bundle digest version (charges (bd_capabilities bundle)))
    end).
Proof. intros Hfree Hs Hn. by apply installBundle_spec. Qed.

(** Nothing but the clock is read. *)
Definition clock_only : guarantee eff := λ _ X e,
  match e with Source op => match op with Time_Now => True | _ => False end | _ => False end.

(** C18: readers are fail closed.  A reader that NewReader returns was built
    without I/O; its HTTP client is locked to direct, verified connections without
    redirects or cookies, with bounded timeouts, connections and headers, and with
    the configured trust roots, which HTTPS requires unless the system's were
    allowed; its verifier is configured and offline unless a custom one was
    allowed; its limits are positive and bounded; and its empty state keeps the
    invariant. *)
Theorem NewReader_locked {U : Hashed} `{NetLibrary} `{TransportLibrary} {S} (config : ReaderConfig)
    (accepts : bytes → bytes → bytes → Prop) (s : S) (h : history eff) :
  mwp any_rely clock_only (NewReader config) s h (λ _ _ r, ∀ reader, r = Ok reader →
    locked (rf_TLSRootCAPEM config) (re_client reader) ∧
    (rootScheme (cap_rawURL (re_rootCapability reader)) = str "https" →
       rf_TLSRootCAPEM config ≠ [] ∨ rf_DangerouslyAllowSystemTrustStore config = true) ∧
    (∃ v, the (re_verifier reader) = Some v ∧ RepositoryID_IsZero (rv_RepositoryID (vv_verifier v)) = false ∧
       (IsOfflineReferenceVerifier v = true ∨ rf_DangerouslyAllowCustomReferenceVerifier config = true)) ∧
    0 < re_operationTimeout reader ≤ MaximumOperationTimeout ∧
    1 ≤ re_maxRetainedCapabilities reader ≤ MaximumRetainedCapabilities ∧
    1 ≤ re_maxRetainedCapabilityBytes reader ≤ MaximumRetainedCapabilityBytes ∧
    state_ok reader accepts readerState_new).
Proof.
  unfold NewReader. mwp_step. mwp_step; [done|].
  destruct (validateCapabilityURL _ _) as [[url origin]|]; [|by mwp_step]. mwp_step. mwp_step; [done|].
  mwp_step. mwp_step; [done|]. destruct (the (rf_Verifier config)) as [v|] eqn:Hv; [|by mwp_step].
  do 4 (mwp_step; mwp_step; [done|]). mwp_step. mwp_step.
  destruct (validateBundleBindings _ _ _ _ _) as [prefix|]; [|done]. mwp_step. mwp_step; [done|].
  mwp_step. apply mwp_call; [done|]. intros now _. do 4 (mwp_step; mwp_step; [done|]). mwp_step. mwp_step.
  destruct (lockedHTTPClient _ _) as [client|] eqn:Hc; [|done]. mwp_step. intros reader [= <-].
  apply lockedHTTPClient_locked in Hc. bool_prop. cbn -[Z.leb Z.ltb MaximumOperationTimeout MaximumRetainedCapabilities
    MaximumRetainedCapabilityBytes].
  assert (0 < orZero (rf_OperationTimeout config) DefaultOperationTimeout).
  { unfold orZero in *. destruct (Z.eqb_spec (rf_OperationTimeout config) 0); [by vm_compute|lia]. }
  split_and!; [done| | |done..|apply state_ok_new].
  - intros Hs. rewrite Hs, bool_decide_true in H4 by done. destruct (rf_DangerouslyAllowSystemTrustStore config); [by right|left].
    intros E. by rewrite E in H4.
  - exists v. split_and!; [done|done|]. destruct (IsOfflineReferenceVerifier v); [by left|right].
    by destruct (rf_DangerouslyAllowCustomReferenceVerifier config).
Qed.

(** ** A shared object *)

Definition toy_transport : TransportLibrary (H:=toy_tls) := {| Transport_Clone := λ t, t |}.
#[local] Existing Instances toy_net toy_tls toy_transport toy_aead.

Definition toy_reader_config : ReaderConfig :=
  {| rf_RootCapability := toy_capability (str "share/root"); rf_RepositoryPrefix := str "repo";
     rf_ReferenceKey := sc_ReferenceKey toy_shared; rf_ShareID := replicate 16 x07;
     rf_Verifier := toy_share_verifier; rf_ClientEncryption := None;
     rf_DangerouslyAllowCustomReferenceVerifier := false; rf_TLSRootCAPEM := toy_pem;
     rf_DangerouslyAllowSystemTrustStore := false; rf_HTTPClient := None; rf_OperationTimeout := 0;
     rf_AllowInsecureLoopback := false; rf_MaxRetainedCapabilities := 0; rf_MaxRetainedCapabilityBytes := 0 |}.

(** The share's store and clock, with the URLs asked for. *)
Definition toy_network : handler eff (list bytes) := λ X e w,
  match e in eff T return list bytes * T with
  | Verifier_Verify k m sg => (w, (toy_sharer _ (Verifier_Verify k m sg) toy_empty).2)
  | Source op => (w, (toy_sharer _ (Source op) toy_empty).2)
  | Share op =>
      match op in share_eff T return list bytes * T with
      | Http_Do url _ =>
          (w ++ [url], Http_Response {| hr_StatusCode := 200; hr_ContentLength := -1;
                                        hr_Header := {[ str "Etag" := [str "tag"] ]} |})
      | Http_ReadAll _ =>
          (w, Ok (if last w ==? Some (cap_rawURL (toy_capability (str "share/root")))
                  then toy_share_data else str "object"))
      | Reader_Gate => (w, None)
      | op' => (w, refuse_share op')
      end
  | e' => (w, refuse e')
  end.

Definition toy_share_reader : result Reader := (run toy_network (NewReader toy_reader_config tt) []).2.2.

(** A new reader asks for the root, then for the object. *)
Example toy_get :
  match toy_share_reader with
  | Ok reader =>
      let '(urls, (_, r)) := run toy_network (Get reader toy_object_key
        {| go_IfNoneMatch := []; go_MaxBytes := 0 |} readerState_new) [] in
      (urls, match r with Ok object => ob_Data object | Err _ => [] end)
  | Err _ => ([], [])
  end = ([str "https://store.test/share/root"; str "https://store.test/" ++ toy_object_key], str "object").
Proof. vm_compute. reflexivity. Qed.

(** The bundle is the only root considered; it collides with nothing. *)
Definition toy_root_only : Hashed := λ x, x = toy_share_data.
Definition toy_accepts : bytes → bytes → bytes → Prop := λ _ message signature, signature = take 64 (rev message).

Lemma NewReader_locked_witness :
  let U := toy_root_only in
  mwp any_rely clock_only (NewReader toy_reader_config) tt [] (λ _ _ r, ∀ reader, r = Ok reader →
    locked toy_pem (re_client reader) ∧ state_ok reader toy_accepts readerState_new).
Proof.
  intros U. eapply mwp_mono; [apply (@NewReader_locked U toy_net toy_tls toy_transport unit toy_reader_config toy_accepts tt [])|].
  intros h' s' r Hr reader E. destruct (Hr reader E) as (Hl & _ & _ & _ & _ & _ & Hs). split; [exact Hl|exact Hs].
Defined.

Lemma toy_no_collision : ¬ sha256_collision (U:=toy_root_only).
Proof. intros (x & y & -> & -> & Hne & _). done. Qed.

Definition toy_open_reader : Reader :=
  {| re_rootCapability := toy_capability (str "share/root"); re_repositoryPrefix := str "repo";
     re_referenceKey := sc_ReferenceKey toy_shared; re_shareID := replicate 16 x07;
     re_verifier := toy_share_verifier; re_clientEncryption := None;
     re_client := {| hc_Transport := RT_Nil; hc_CheckRedirect := LockedHook; hc_Jar := NoHook; hc_Timeout := 0 |};
     re_operationTimeout := DefaultOperationTimeout; re_allowInsecureLoopback := false;
     re_dangerouslyAllowCustomReferenceVerifier := false;
     re_maxRetainedCapabilities := DefaultMaxRetainedCapabilities;
     re_maxRetainedCapabilityBytes := DefaultMaxRetainedCapabilityBytes |}.

Lemma Get_confined_witness :
  let U := toy_root_only in
  let options := {| go_IfNoneMatch := []; go_MaxBytes := 0 |} in
  mwp (reader_rely toy_open_reader toy_accepts) (reader_protocol toy_open_reader toy_accepts toy_object_key)
    (Get toy_open_reader toy_object_key options) readerState_new [] (λ _ s' r,
    state_ok toy_open_reader toy_accepts s' ∧ advances readerState_new s' ∧ ∀ object, r = Ok object →
      if decide (toy_object_key = re_referenceKey toy_open_reader)
      then ∃ current data envelope, rds_current s' = Some current ∧
        revision_of toy_open_reader toy_accepts data envelope current ∧
        ob_Data object = els (wo_Data (bp_Reference (sb_Payload envelope)))
      else fetched options object).
Proof.
  intros U options.
  apply (@Get_confined U toy_net toy_tls toy_transport toy_aead toy_open_reader toy_accepts toy_object_key options
    readerState_new); [exact toy_no_collision|apply state_ok_new].
Defined.

(** The network always answers with the root. *)
Definition toy_roots : handler eff unit := λ X e w,
  match e in eff T return unit * T with
  | Share op =>
      match op in share_eff T return unit * T with
      | Http_ReadAll _ => (w, Ok toy_share_data)
      | op' => (w, refuse_share op')
      end
  | e' => (w, (toy_network _ e' []).2)
  end.

#[local] Opaque toy_share_data.

Lemma toy_roots_answers X (e : eff X) w :
  reader_answer (U:=toy_root_only) toy_open_reader toy_accepts X e (toy_roots X e w).2.
Proof.
  destruct e; try done.
  - simpl. unfold toy_accepts. case_bool_decide; [done|]. by intros ?.
  - destruct op; try exact I; [|done]. intros raw data E E'.
    change (Ok toy_share_data = Ok raw) in E. change (Ok raw = Ok data) in E'.
    assert (data = toy_share_data) as Hd by congruence. exact Hd.
Qed.

Definition toy_bundle : result Bundle :=
  (run toy_roots (decodeRoot toy_open_reader toy_share_data readerState_new) tt).2.2.
Definition toy_version : Version := {| v_ETag := str "tag"; v_VersionID := [] |}.

Example toy_bundle_accepted : is_ok toy_bundle = true.
Proof. vm_compute. reflexivity. Qed.

Lemma toy_bundle_ok bundle n :
  let U := toy_root_only in
  toy_bundle = Ok bundle → revision_ok toy_open_reader toy_accepts (revisionOf bundle (sha256 toy_share_data) toy_version n).
Proof.
  intros U Hb.
  destruct (wp_run toy_roots (reader_rely (U:=U) toy_open_reader toy_accepts)
    (reader_protocol toy_open_reader toy_accepts [])
    (λ _ h, Forall (answered (reader_answer (U:=U) toy_open_reader toy_accepts)) h)
    (decodeRoot toy_open_reader toy_share_data readerState_new)) with (w := tt) (h := @nil (event eff))
    (Q := λ (_ : history eff) (x : readerState * result Bundle), ∀ b, x.2 = Ok b →
      ∀ n, revision_ok (U:=U) toy_open_reader toy_accepts (revisionOf b (sha256 toy_share_data) toy_version n))
    as (h' & Hq & _).
  - intros w h X e Hh _. split; [apply toy_roots_answers|]. apply Forall_app. split; [done|].
    constructor; [|done]. apply toy_roots_answers.
  - done.
  - eapply wp_mono; [apply (decodeRoot_serving (U:=U) toy_open_reader toy_accepts [] toy_share_data toy_version);
      [exact (eq_refl toy_share_data)|apply Forall_nil_2|apply state_ok_new]|]. intros h' [s' r] (_ & _ & _ & Hr). exact Hr.
  - by apply Hq.
Qed.

Lemma installBundle_retains_witness :
  let U := toy_root_only in
  ∃ bundle, toy_bundle = Ok bundle ∧
  mwp any_rely any_call (installBundle toy_open_reader bundle (sha256 toy_share_data) toy_version) readerState_new []
    (λ h' s' r, ext_reads [] h' ∧
    match r with
    | Err _ => s' = readerState_new
    | Ok _ => state_ok toy_open_reader toy_accepts s' ∧ advances readerState_new s' ∧
        rds_current s' = Some (revisionOf bundle (sha256 toy_share_data) toy_version (charges (bd_capabilities bundle)))
    end).
Proof.
  intros U. destruct toy_bundle as [bundle|e] eqn:E.
  - exists bundle. split; [reflexivity|].
    apply (@installBundle_retains U toy_net toy_tls toy_transport toy_open_reader toy_accepts bundle
      (sha256 toy_share_data) toy_version any_rely readerState_new []);
      [exact toy_no_collision|apply state_ok_new|intros n; exact (toy_bundle_ok bundle n E)].
  - exfalso. pose proof toy_bundle_accepted as Hk. rewrite E in Hk. discriminate Hk.
Defined.
