(* ===== verification/RootRecoveryProofs.v ===== *)
(** * The write-ahead journal of a share root

    The journal is an abstract log: idle, or one operation under way
    ([wal_step]).  The theorems hold for every answer of the store, the journal
    and the clock: each swap of the journal is a step of the log
    ([journal_refines_log]), and a root is written only as the pending
    operation of the record the journal was last seen to hold
    ([root_writes_journaled]). *)

From S2P Require Import Prelude.
From S2P Require Import Prog.
From S2P Require Import GoStd.
From S2P Require Import Encoding.
From S2P Require Import Sha256.
From S2P Require Import Json.
From S2P Require Import Model.
From S2P Require Import Rfc3339.
From S2P Require Import Effects.
From S2P Require Import Capability.
From S2P Require Import Trust.
From S2P Require Import MemStore.
From S2P Require Import ClientEncryption.
From S2P Require Import Repository.
From S2P Require Import Closure.
From S2P Require Import Consumer.
From S2P Require Import Bundle.
From S2P Require Import SealedState.
From S2P Require Import PublisherState.
From S2P Require Import RootPublisher.
From S2P Require Import RootRecovery.
From S2P Require Import BundleProofs.

(** ** The log *)

Definition next_revision (committed : option rootRecoveryCommitted) : N :=
  match committed with Some c => (rk_Revision c + 1)%N | None => 1%N end.

(** [c] is the anchor [c0] again or a later one. *)
Definition anchored_after (c0 : option rootRecoveryCommitted) (c : rootRecoveryCommitted) : Prop :=
  match c0 with
  | None => True
  | Some c0 =>
      ((rk_Revision c0 < rk_Revision c)%N ∧ (rk_ReferenceGeneration c0 ≤ rk_ReferenceGeneration c)%N ∧
       (rk_ReferenceGeneration c0 = rk_ReferenceGeneration c → rk_ReferenceCommit c0 = rk_ReferenceCommit c)) ∨
      (rk_Revision c0 = rk_Revision c ∧ rk_LogicalDigest c0 = rk_LogicalDigest c ∧
       rk_ReferenceGeneration c0 = rk_ReferenceGeneration c ∧ rk_ReferenceCommit c0 = rk_ReferenceCommit c)
  end.

(** A record with the bytes of its pending target. *)
Definition logged : Type := rootRecoveryRecord * bytes.

(** The steps of the log. *)
Inductive wal_step : logged → logged → Prop :=
| wal_prepare r :
    rr_Committed r = None → rr_Pending r = None → wal_step (r, []) (r, [])
| wal_begin r r' p target :
    rr_Pending r = None → rr_Pending r' = Some p → rr_Committed r' = rr_Committed r →
    rr_HighestRevision r' = rg_TargetRevision p → rg_TargetRevision p = next_revision (rr_Committed r) →
    wal_step (r, []) (r', target)
| wal_rebase r r' p version base c target :
    rr_Pending r = Some p → rg_ExpectedAbsent p = false →
    rr_Pending r' = Some (setExpected version base p) → rr_HighestRevision r' = rr_HighestRevision r →
    rr_Committed r' = Some c → anchored_after (rr_Committed r) c →
    rg_TargetRevision p = (rk_Revision c + 1)%N →
    wal_step (r, target) (r', target)
| wal_anchor r target r' c :
    rr_Pending r' = None → rr_Committed r' = Some c → rr_HighestRevision r' = rk_Revision c →
    anchored_after (rr_Committed r) c →
    (∀ p, rr_Pending r = Some p → (rg_TargetRevision p ≤ rk_Revision c)%N) →
    wal_step (r, target) (r', []).

(** The lowest revision that an operation of this state or a later one has. *)
Definition floor_revision (l : logged) : N :=
  match rr_Pending l.1 with
  | Some p => rg_TargetRevision p
  | None => next_revision (rr_Committed l.1)
  end.

(** A consistent state: a pending operation is the one after the anchor. *)
Definition log_ok (l : logged) : Prop :=
  ∀ p, rr_Pending l.1 = Some p → rg_TargetRevision p = next_revision (rr_Committed l.1).

Lemma anchored_next c0 c : anchored_after c0 c → (next_revision c0 ≤ next_revision (Some c))%N.
Proof. destruct c0; simpl; [intros [(? & _)|(? & _)]; lia|lia]. Qed.

Lemma wal_step_ok l l' : wal_step l l' → log_ok l → log_ok l' ∧ (floor_revision l ≤ floor_revision l')%N.
Proof.
  unfold log_ok, floor_revision.
  intros [r Hc Hp|r r' p t Hp Hp' Hc Hh Hn|r r' p v b c t Hp Ha Hp' Hh Hc Hle Hn|r t r' c Hp' Hc Hh Hle Hbig] Hok; simpl in *.
  - split; [by rewrite Hp|done].
  - rewrite Hp', Hp. split; [intros q [= <-]; by rewrite Hc|by rewrite Hn].
  - rewrite Hp', Hp, Hc. split; [by intros q [= <-]|done].
  - rewrite Hp', Hc. split; [done|]. destruct (rr_Pending r) as [p|] eqn:Hp; [|by apply anchored_next].
    specialize (Hbig p eq_refl). simpl. lia.
Qed.

Lemma wal_steps_floor l l' :
  rtc wal_step l l' → log_ok l → log_ok l' ∧ (floor_revision l ≤ floor_revision l')%N.
Proof.
  induction 1 as [l|l m l' Hs _ IH]; intros Hok; [done|].
  destruct (wal_step_ok _ _ Hs Hok) as [Hm Hf]. destruct (IH Hm). split; [done|lia].
Qed.

(** The log names at most one content per revision.  Whatever steps it
    takes, two operations with the same target revision have the same target
    bytes: a crash and a retry never publish a second bundle under a revision
    that the journal has promised. *)
Theorem log_targets_unique l l' p p' :
  log_ok l → rtc wal_step l l' → rr_Pending l.1 = Some p → rr_Pending l'.1 = Some p' →
  rg_TargetRevision p = rg_TargetRevision p' → l.2 = l'.2.
Proof.
  intros Hok Hsteps. revert p Hok. induction Hsteps as [l|l m l' Hstep Hsteps IH]; intros p Hok Hp Hp' E; [done|].
  destruct (wal_step_ok _ _ Hstep Hok) as [Hokm _].
  destruct (wal_steps_floor _ _ Hsteps Hokm) as [_ Hf]. unfold floor_revision in Hf. rewrite Hp' in Hf.
  destruct Hstep as [r Hc Hp0|r r' q t Hp0 Hq Hc Hh Hn|r r' q v b c t Hq Ha Hq' Hh Hc Hle Hn|r t r' c Hp0 Hc Hh Hle Hbig];
    simpl in *; simplify_eq.
  - by eapply IH.
  - exfalso. rewrite Hp0, Hc in Hf. specialize (Hbig p Hp). simpl in Hf. lia.
Qed.

(** ** The journal in a history *)

(** What a call tells about the journal: it holds these bytes, or that is not
    known; other calls tell nothing. *)
Definition journal_event (ev : event eff) : option (option bytes) :=
  match ev with
  | Ev e x =>
      match e in eff X return X → option (option bytes) with
      | Share op =>
          match op in share_eff Y return Y → option (option bytes) with
          | Recovery_Load => λ r,
              Some (match r with Ok (encoded, _, true) => Some encoded | _ => None end)
          | Recovery_CompareAndSwap _ next => λ r,
              Some (match r.2 with None => Some next | Some _ => None end)
          | _ => λ _, None
          end
      | _ => λ _, None
      end x
  end.

Definition last_journal (h : history eff) : option bytes :=
  foldl (λ acc ev, match journal_event ev with Some j => j | None => acc end) None h.

Lemma last_journal_snoc h ev :
  last_journal (h ++ [ev]) = match journal_event ev with Some j => j | None => last_journal h end.
Proof. unfold last_journal. by rewrite foldl_app. Qed.

Lemma last_journal_local h ev : event_is_local ev → last_journal (h ++ [ev]) = last_journal h.
Proof.
  intros Hl. rewrite last_journal_snoc. destruct ev as [X e x]. destruct e; try done. by destruct op.
Qed.

Lemma last_journal_reads h h' : ext_reads h h' → last_journal h' = last_journal h.
Proof.
  intros (k & -> & Hk). induction k as [|ev k IH] using rev_ind; [by rewrite app_nil_r|].
  apply Forall_app in Hk as [Hk [Hev _]%Forall_cons]. rewrite app_assoc, last_journal_local by done. by apply IH.
Qed.

(** The bytes of a record: its encoding, or what decodes to it. *)
Definition journal_holds (encoded : bytes) (l : logged) : Prop :=
  encodeRootRecoveryRecord l.1 l.2 = Ok encoded ∨ decodeRootRecoveryRecord encoded = Ok l.

(** ** Records of a publisher *)

Section Recovery.
Context `{NetLibrary} `{AEAD} {S : Type} (publisher : RootPublisher).

(** A stored target that was authenticated. *)
Definition target_bundle (h : history eff) (target : bytes) (bundle : Bundle) (digest : Digest) : Prop :=
  ∃ logical v envelope, openRootStorageTarget publisher target = Ok logical ∧
    the (rt_verifier publisher) = Some v ∧
    authenticated h logical v (rootDecodeOptions publisher) envelope bundle ∧
    digest = rootRecoveryDigest "logical-root" logical.

Lemma target_bundle_extends h h' target bundle digest :
  extends h h' → target_bundle h target bundle digest → target_bundle h' target bundle digest.
Proof.
  intros He (logical & v & env & Ho & Hv & Ha & Hd). exists logical, v, env. split_and!; try done.
  by eapply authenticated_extends.
Qed.

(** The bytes determine what the bundle says. *)
Lemma target_bundle_det h h' target b b' d d' :
  target_bundle h target b d → target_bundle h' target b' d' →
  d = d' ∧ bd_revision b = bd_revision b' ∧ bd_referenceGeneration b = bd_referenceGeneration b' ∧
  bd_referenceCommit b = bd_referenceCommit b'.
Proof.
  intros (l & v & env & Ho & Hv & [] & ->) (l' & v' & env' & Ho' & Hv' & [] & ->).
  rewrite Ho in Ho'. injection Ho' as <-. rewrite au_decoded in au_decoded0. injection au_decoded0 as <-.
  destruct au_revision, au_revision0, au_generation, au_generation0. split_and!; congruence.
Qed.

Record record_ok (h : history eff) (l : logged) : Prop := {
  ro_identity : ∃ d, rootCapabilityRecoveryDigest (rt_rootCapability publisher) = Ok d ∧
    identityMismatch publisher l.1 d = false;
  ro_idle : rr_Pending l.1 = None → l.2 = [] ∧
    rr_HighestRevision l.1 = match rr_Committed l.1 with Some c => rk_Revision c | None => 0%N end;
  ro_pending : ∀ p, rr_Pending l.1 = Some p → validatePending l.1 p l.2 = Ok tt ∧
    ∃ bundle digest, target_bundle h l.2 bundle digest ∧ describesTarget p bundle digest = true;
}.

Lemma record_ok_extends h h' l : extends h h' → record_ok h l → record_ok h' l.
Proof.
  intros He [Hi Hidle Hp]. constructor; [done|done|]. intros p Hpp. destruct (Hp p Hpp) as (Hv & b & d & Ht & Hd).
  split; [done|]. exists b, d. split; [|done]. by eapply target_bundle_extends.
Qed.

Lemma validatePending_ok r p target :
  validatePending r p target = Ok tt →
  rg_TargetRevision p = rr_HighestRevision r ∧ rg_AllowCreate p = rg_ExpectedAbsent p ∧
  rg_TargetRevision p = next_revision (rr_Committed r) ∧
  (rg_ExpectedAbsent p = true → rr_Committed r = None).
Proof.
  unfold validatePending. intros E. ok_inv. bool_prop. unfold expectedVersion in E.
  destruct (rg_ExpectedAbsent p); simpl in E; [|destruct (rr_Committed r) as [c|]; [|done]];
    ok_inv; bool_prop; simplify_eq; split_and!; try done; try congruence.
  by match goal with E : rr_Committed r = None |- _ => rewrite E end.
Qed.

Lemma record_ok_log h l : record_ok h l → log_ok l.
Proof. intros [_ _ Hp] p Hpp. destruct (Hp p Hpp) as [Hv _].
  by apply validatePending_ok in Hv as (_ & _ & ? & _). Qed.

Context (R : rely eff) (G : guarantee eff) (HG : reads_free G).
Local Abbreviation acts := (acting (S:=S) G R).

Lemma decodeRootStorageTarget_acting target h :
  acts (decodeRootStorageTarget publisher target) h (λ h' r,
    ext_reads h h' ∧ ∀ b d, r = Ok (b, d) → target_bundle h' target b d).
Proof.
  unfold decodeRootStorageTarget. do 2 do_step.
  destruct (openRootStorageTarget publisher target) as [logical|] eqn:Ho; [|refused]. simpl.
  do_step. eapply doing_mono; [by apply Decode_acting|]. intros h1 [bundle|e] _ [He Hb]; [|refused].
  destruct (Hb bundle eq_refl) as (v & env & Hv & Ha). do_step. split; [done|].
  intros b d [= <- <-]. by exists logical, v, env.
Qed.

Lemma validateRootRecoveryRecord_acting record target h :
  acts (validateRootRecoveryRecord publisher record target) h (λ h' r,
    ext_reads h h' ∧ (r = Ok tt → record_ok h' (record, target))).
Proof.
  unfold validateRootRecoveryRecord. do 2 do_step.
  destruct (rootCapabilityRecoveryDigest _) as [digest|] eqn:Hdig; [|refused]. simpl.
  do_step. do_step; [refused|]. do 2 do_step. destruct (validateWitness _ _) as [[]|]; [|refused]. simpl.
  destruct (rr_Pending record) as [p|] eqn:Hp.
  - assert (acts (mlift (validateCommitted record) ;;; mlift (validatePending record p target) ;;;
      r <- mtry (decodeRootStorageTarget publisher target) ;;
      match r with
      | Err _ => mfail [ErrRootRecoveryState]
      | Ok (bundle, logicalDigest) =>
          mguard (negb (describesTarget p bundle logicalDigest)
                  || (bd_authorizationExpiresAt bundle !=? tm_ns (rr_AuthorizationExpiresAt record)))
                 [ErrRootRecoveryState]
      end) h (λ h' r, ext_reads h h' ∧ (r = Ok tt → record_ok h' (record, target)))) as Hgoal;
      [|destruct (rr_Committed record); exact Hgoal].
    do 2 do_step. destruct (validateCommitted record) as [[]|]; [|refused]. simpl. do 2 do_step.
    destruct (validatePending record p target) as [[]|] eqn:Hvp; [|refused]. simpl. do_step. do_step.
    eapply doing_mono; [apply decodeRootStorageTarget_acting|]. intros h1 [[b d]|e] _ [He Ht]; [|do_step; refused].
    do_step; [refused|]. bool_prop. split; [done|]. intros _. constructor; simpl; [by exists digest|by rewrite Hp|].
    intros q Hq. rewrite Hp in Hq. injection Hq as <-. split; [done|]. exists b, d. split; [by apply Ht|done].
  - destruct (rr_Committed record) as [c|] eqn:Hc.
    + do 2 do_step. destruct (validateCommitted record) as [[]|]; [|refused]. simpl. do_step; [refused|]. bool_prop.
      split; [reads|]. intros _. constructor; simpl; [by exists digest| |by rewrite Hp]. rewrite Hc. intros _.
      split; [by apply len_nil_iff|done].
    + do_step; [refused|]. bool_prop. split; [reads|]. intros _.
      constructor; simpl; [by exists digest| |by rewrite Hp]. rewrite Hc. intros _. split; [by apply len_nil_iff|done].
Qed.
End Recovery.

(** ** The discipline of the journal *)

(** The state of the log before a swap: what the journal was last seen to hold,
    or a fresh record when it was absent. *)
Definition journal_before (h : history eff) (l : logged) : Prop :=
  log_ok l ∧
  match last_journal h with
  | Some encoded => journal_holds encoded l
  | None => rr_Committed l.1 = None ∧ rr_Pending l.1 = None ∧ l.2 = []
  end.

(** A write of the root: the target and the precondition of the pending operation
    in the journal. *)
Definition journaled (publisher : RootPublisher) (h : history eff) (key data : bytes)
    (expected : option Version) : Prop :=
  key = rt_rootKey publisher ∧ ∃ encoded record pending,
    last_journal h = Some encoded ∧ journal_holds encoded (record, data) ∧
    rr_Pending record = Some pending ∧ expectedVersion pending = expected.

(** [create] is whether a root may be created. *)
Definition wal_discipline (publisher : RootPublisher) (create : bool) : guarantee eff := λ h X e,
  match e with
  | Share (Recovery_CompareAndSwap _ next) => ∃ before after,
      journal_before h before ∧ encodeRootRecoveryRecord after.1 after.2 = Ok next ∧ wal_step before after
  | Store_PutIfAbsent key data => journaled publisher h key data None ∧ create = true
  | Store_CompareAndSwap key expected data => journaled publisher h key data expected
  | _ => True
  end.

Lemma wal_reads_free publisher create : reads_free (wal_discipline publisher create).
Proof. intros h X e He. destruct e; try done. by destruct op. Qed.
#[export] Hint Resolve wal_reads_free : s3disk.

(** The number of root writes of a history. *)
Definition is_root_write (ev : event eff) : bool :=
  match ev with
  | Ev e _ => match e with Store_PutIfAbsent _ _ | Store_CompareAndSwap _ _ _ => true | _ => false end
  end.
Definition root_writes (h : history eff) : nat := length (List.filter is_root_write h).

Lemma root_writes_snoc h ev :
  root_writes (h ++ [ev]) = (root_writes h + if is_root_write ev then 1 else 0)%nat.
Proof. unfold root_writes. rewrite List.filter_app, length_app. simpl. by destruct (is_root_write ev). Qed.

Lemma root_writes_reads h h' : ext_reads h h' → root_writes h' = root_writes h.
Proof.
  intros (k & -> & Hk). induction k as [|ev k IH] using rev_ind; [by rewrite app_nil_r|].
  apply Forall_app in Hk as [Hk [Hev _]%Forall_cons]. rewrite app_assoc, root_writes_snoc, IH by done.
  destruct ev as [X e x]. by destruct e.
Qed.

Section Journal.
Context `{NetLibrary} `{AEAD} {S : Type} (publisher : RootPublisher) (R : rely eff).
Context (G : guarantee eff) (HG : reads_free G) (HGload : ∀ h, G h _ (Share Recovery_Load)).
Local Abbreviation acts := (acting (S:=S) G R).

(** The state of a method agrees with the journal as it was last seen. *)
Record synced (h : history eff) (recovery : loadedRootRecovery) : Prop := {
  sy_ok : record_ok publisher h (lr_record recovery, lr_target recovery);
  sy_before : journal_before h (lr_record recovery, lr_target recovery);
}.

(** Reading neither moves the journal nor writes a root. *)
Definition quiet (h h' : history eff) : Prop :=
  extends h h' ∧ last_journal h' = last_journal h ∧ root_writes h' = root_writes h.
#[export] Instance quiet_preorder : PreOrder quiet.
Proof.
  split; [done|]. intros a b c (E1 & J1 & W1) (E2 & J2 & W2). split_and!; [by etrans|congruence|congruence].
Qed.
Lemma quiet_reads h h' : ext_reads h h' → quiet h h'.
Proof. intros He. split_and!; [by apply extends_reads|by apply last_journal_reads|by apply root_writes_reads]. Qed.

Lemma synced_quiet h h' recovery : quiet h h' → synced h recovery → synced h' recovery.
Proof.
  intros (He & Hj & _) [Hok [Hl Hb]]. constructor; [by eapply record_ok_extends|]. split; [done|]. by rewrite Hj.
Qed.

(** [m] swaps the journal at most, and ends in [P] when it succeeds. *)
Definition journaling {A} (m : M eff S A) (h : history eff) (P : history eff → A → Prop) : Prop :=
  acts m h (λ h' r, root_writes h' = root_writes h ∧ ∀ a, r = Ok a → P h' a).

Lemma journaling_reading {A} (m : M eff S A) h Q (P : history eff → A → Prop) :
  acts m h (λ h' r, ext_reads h h' ∧ ∀ a, r = Ok a → Q h' a) →
  (∀ h' a, quiet h h' → Q h' a → P h' a) → journaling m h P.
Proof.
  intros Hm HP. eapply doing_mono; [exact Hm|]. intros h' r _ [He Hq]. apply quiet_reads in He.
  split; [apply He|]. intros a ->. by apply HP, Hq.
Qed.

Lemma journaling_bind {A B} (m : M eff S A) (f : A → M eff S B) h Q P :
  journaling m h Q → (∀ h' a, extends h h' → Q h' a → journaling (f a) h' P) → journaling (mbind m f) h P.
Proof.
  intros Hm Hf. unfold journaling. do_step. eapply doing_mono; [exact Hm|]. intros h1 [a|e] He [Hw Hq]; [|by split].
  eapply doing_mono; [by apply Hf, Hq|]. intros h2 r _ [Hw2 Hp]. split; [congruence|done].
Qed.
Lemma journaling_ret {A} (a : A) h (P : history eff → A → Prop) : P h a → journaling (mret a) h P.
Proof. intros HP. unfold journaling. do_step. split; [done|]. by intros a' [= <-]. Qed.
Lemma journaling_fail {A} e h (P : history eff → A → Prop) : journaling (mfail e) h P.
Proof. unfold journaling. do_step. by split. Qed.
Lemma journaling_lift {A} (r : result A) h (P : history eff → A → Prop) :
  (∀ a, r = Ok a → P h a) → journaling (mlift r) h P.
Proof. intros HP. unfold journaling. do_step. by split. Qed.
Lemma journaling_guard c e h (P : history eff → unit → Prop) :
  (c = false → P h tt) → journaling (mguard c e) h P.
Proof. intros HP. unfold journaling. do_step; (split; [done|]); [done|]. intros [] _. auto. Qed.
Lemma journaling_wrap {A} f (m : M eff S A) h (P : history eff → A → Prop) :
  journaling m h P → journaling (mwrap f m) h P.
Proof.
  intros Hm. unfold journaling. do_step. eapply doing_mono; [exact Hm|]. intros h' [a|e] _ [Hw Hp]; (split; [done|]); [|done].
  intros a' [= <-]. by apply Hp.
Qed.
Lemma journaling_try {A} (m : M eff S A) h (P : history eff → A → Prop) :
  journaling m h P → journaling (mtry m) h (λ h' r, ∀ a, r = Ok a → P h' a).
Proof.
  intros Hm. unfold journaling. do_step. eapply doing_mono; [exact Hm|]. intros h' r _ [Hw Hp]. split; [done|].
  by intros r' [= <-].
Qed.
Lemma journaling_mono {A} (m : M eff S A) h (P Q : history eff → A → Prop) :
  journaling m h Q → (∀ h' a, extends h h' → Q h' a → P h' a) → journaling m h P.
Proof. intros Hm HP. eapply doing_mono; [exact Hm|]. intros h' r He [Hw Hq]. split; [done|]. auto. Qed.
Lemma journaling_ctx h (P : history eff → unit → Prop) :
  (∀ h', quiet h h' → P h' tt) → journaling checkCtx h P.
Proof.
  intros HP. eapply (journaling_reading _ _ (λ _ _, True)); [|by intros h' []; auto].
  apply doing_ctx; [done|]. intros [x|]; (split; [reads|done]).
Qed.
Lemma journaling_auth capability h (P : history eff → unit → Prop) :
  (∀ h', quiet h h' → P h' tt) → journaling (checkAuthorization capability) h P.
Proof.
  intros HP. eapply (journaling_reading _ _ (λ _ _, True)); [|by intros h' []; auto].
  unfold checkAuthorization. do_step.
  eapply doing_reading; [apply (reading_time _ _ (λ _, True)); done|].
  intros h1 [now|e] He _; [|by split]. do_step; by split.
Qed.

(** Steps through a method that swaps the journal at most. *)
Ltac jr :=
  lazymatch goal with
  | |- journaling (mret _) _ _ => apply journaling_ret
  | |- journaling (mfail _) _ _ => apply journaling_fail
  | |- journaling (mlift _) _ _ => apply journaling_lift; intros ? ?
  | |- journaling (mguard _ _) _ _ => apply journaling_guard; intros ?
  | |- journaling (mwrap _ _) _ _ => apply journaling_wrap
  | |- journaling checkCtx _ _ => apply journaling_ctx; intros ? ?
  | |- journaling (checkAuthorization _) _ _ => apply journaling_auth; intros ? ?
  | |- journaling (mbind _ _) _ _ => eapply journaling_bind; [|simpl]
  end.

Lemma SealObject_read p k text : reading (S:=S) G R (SealObject p k text) (λ _, True).
Proof.
  unfold SealObject. rd_step. rd_step; [done|]. rd_step.
  apply reading_callr; [done|done|]. intros _ [a|e] _; [|done]. do 2 rd_step.
  destruct (objectAEAD _ _ _); simpl; [|done]. rd_step.
  apply reading_callr; [done|done|]. intros _ [b|e] _; [by rd_step|done].
Qed.

(** ** The journal *)

Lemma newRootRecoveryRecord_journaling h :
  journaling (newRootRecoveryRecord publisher) h (λ h' r,
    quiet h h' ∧ rr_Committed r = None ∧ rr_Pending r = None ∧ rr_HighestRevision r = 0%N ∧
    ∃ d, rootCapabilityRecoveryDigest (rt_rootCapability publisher) = Ok d ∧
         identityMismatch publisher r d = false).
Proof.
  unfold newRootRecoveryRecord.
  eapply (journaling_bind _ _ _ (λ h' d, h' = h ∧ rootCapabilityRecoveryDigest (rt_rootCapability publisher) = Ok d));
    [by jr|]. intros h1 d _ [-> Hd].
  destruct (rt_clientEncryption publisher) as [profile|] eqn:Hp.
  - eapply (journaling_bind _ _ _ (λ h' _, quiet h h')).
    + jr. eapply journaling_reading; [|by intros h' a Hq _].
      instantiate (1 := λ _ _, True). eapply doing_reading; [apply SealObject_read|]. by split.
    + intros h2 w _ Hq. jr. split_and!; try done. exists d. split; [done|]. unfold identityMismatch. simpl.
      by rewrite !bool_decide_true by done.
  - jr. split_and!; try done. exists d. split; [done|]. unfold identityMismatch. simpl.
    by rewrite !bool_decide_true by done.
Qed.

Lemma validate_journaling record target h :
  journaling (validateRootRecoveryRecord publisher record target) h (λ h' _,
    quiet h h' ∧ record_ok publisher h' (record, target)).
Proof.
  eapply (journaling_reading _ _ (λ h' _, record_ok publisher h' (record, target))); [|done].
  eapply doing_mono; [apply validateRootRecoveryRecord_acting; done|]. intros h' r _ [He Hr].
  split; [done|]. intros [] ->. by apply Hr.
Qed.

(** A record that was not found is a fresh one. *)
Lemma loadRootRecovery_full h :
  journaling (loadRootRecovery publisher) h (λ h' recovery, synced h' recovery ∧
    (lr_found recovery = false → rr_Committed (lr_record recovery) = None ∧
       rr_Pending (lr_record recovery) = None ∧ lr_target recovery = []) ∧
    (lr_found recovery = true → ∃ encoded, last_journal h' = Some encoded ∧
       decodeRootRecoveryRecord encoded = Ok (lr_record recovery, lr_target recovery))).
Proof.
  unfold loadRootRecovery, journaling. do_step. do_step. apply doing_callr; [apply HGload|].
  intros [[[encoded revision] found]|e] _; simpl; [|split; [by rewrite root_writes_snoc|done]].
  set (h1 := h ++ [_]). assert (root_writes h1 = root_writes h) as Hw1
    by (unfold h1; rewrite root_writes_snoc; simpl; lia).
  assert (last_journal h1 = if found then Some encoded else None) as Hj1
    by (unfold h1; rewrite last_journal_snoc; by destruct found).
  enough (journaling (if negb found then
      mguard (negb (len encoded =? 0) || negb (Digest_IsZero revision)) [ErrRootRecoveryState] ;;;
      record <- newRootRecoveryRecord publisher ;;
      mret {| lr_record := record; lr_target := []; lr_revision := Digest_zero; lr_found := false |}
    else
      mguard (Digest_IsZero revision || (len encoded <? 1) || (MaximumRootRecoveryJournalBytes <? len encoded))
             [ErrRootRecoveryState] ;;;
      ' (record, target) <- mlift (decodeRootRecoveryRecord encoded) ;;
      validateRootRecoveryRecord publisher record target ;;;
      mret {| lr_record := record; lr_target := target; lr_revision := revision; lr_found := true |}) h1
    (λ h' recovery, synced h' recovery ∧
      (lr_found recovery = false → rr_Committed (lr_record recovery) = None ∧
         rr_Pending (lr_record recovery) = None ∧ lr_target recovery = []) ∧
      (lr_found recovery = true → ∃ encoded, last_journal h' = Some encoded ∧
         decodeRootRecoveryRecord encoded = Ok (lr_record recovery, lr_target recovery)))) as Hgoal.
  { eapply doing_mono; [exact Hgoal|]. intros h' r _ [Hw Hr]. split; [congruence|done]. }
  destruct found; simpl.
  - eapply (journaling_bind _ _ _ (λ h' _, h' = h1)); [by jr|]. intros ? _ _ ->.
    eapply (journaling_bind _ _ _ (λ h' a, h' = h1 ∧ decodeRootRecoveryRecord encoded = Ok a)); [by jr|].
    intros ? [record target] _ [-> Hd].
    eapply journaling_bind; [apply validate_journaling|].
    intros h2 _ _ [Hq Hr]. jr. destruct Hq as (_ & Hj & _). rewrite Hj1 in Hj. split_and!; [|done|by exists encoded].
    constructor; simpl; [done|]. split; [by eapply record_ok_log|]. rewrite Hj. by right.
  - eapply (journaling_bind _ _ _ (λ h' _, h' = h1)); [by jr|]. intros ? _ _ ->.
    eapply journaling_bind; [apply newRootRecoveryRecord_journaling|]. intros h2 record _ (Hq & Hc & Hp & Hh & Hid).
    jr. destruct Hq as (_ & Hj & _). rewrite Hj1 in Hj. split_and!; [|done|done]. constructor; simpl.
    + constructor; simpl; [done| |by rewrite Hp]. by rewrite Hc.
    + split; [intros p; simpl; by rewrite Hp|]. by rewrite Hj.
Qed.

Lemma loadRootRecovery_journaling h :
  journaling (loadRootRecovery publisher) h (λ h' recovery, synced h' recovery).
Proof. eapply journaling_mono; [apply loadRootRecovery_full|]. by intros h' r _ []. Qed.

Lemma recordFrame_target m t m' t' :
  rootRecoveryFrame m t = rootRecoveryFrame m' t' → (Z.to_N (len t) < 2 ^ 64)%N → (Z.to_N (len t') < 2 ^ 64)%N →
  len t = len t'.
Proof.
  unfold rootRecoveryFrame. intros E Ht Ht'. do 4 (apply app_inj_1 in E as [_ E]; [|done]).
  apply BigEndian_Append_inj in E as [E _]; [|done|done]. pose proof (len_nonneg t). pose proof (len_nonneg t'). lia.
Qed.

Context (HGstep : ∀ h expected next before after, journal_before h before →
  encodeRootRecoveryRecord after.1 after.2 = Ok next → wal_step before after →
  G h _ (Share (Recovery_CompareAndSwap expected next))).

(** The header of the journal gives the length of the target, which is zero
    exactly when no operation is pending. *)
Lemma encode_idle r t r' t' encoded :
  encodeRootRecoveryRecord r t = Ok encoded → encodeRootRecoveryRecord r' t' = Ok encoded →
  rr_Pending r' = None → rr_Pending r = None.
Proof.
  intros E E' Hp'. unfold encodeRootRecoveryRecord in E, E'. ok_inv. rewrite <- E in E'. clear E. bool_prop.
  unfold validTarget in *. rewrite Hp' in *. destruct (rr_Pending r) as [p|]; [|done]. bool_prop.
  assert (len t' = 0) as Ht' by lia.
  apply recordFrame_target in E'; [lia|lia|].
  unfold maximumRootStoredTargetBytes, MaximumBundleBytes, ClientEncryptionCiphertextOverhead in *.
  change (Z.shiftl 64 20) with 67108864 in *. lia.
Qed.

Lemma saveRootRecovery_journaling current next target h :
  synced h current →
  (∀ h', record_ok publisher h' (next, target) →
     wal_step (lr_record current, lr_target current) (next, target)) →
  journaling (saveRootRecovery publisher current next target) h (λ h' recovery,
    synced h' recovery ∧ (rr_Pending next = None → rr_Pending (lr_record recovery) = None)).
Proof.
  intros Hs Hstep. unfold saveRootRecovery.
  eapply journaling_bind; [apply validate_journaling|]. intros h1 _ _ [Hq1 Hok1].
  apply (synced_quiet _ h1) in Hs; [|done].
  eapply (journaling_bind _ _ _ (λ h' a, h' = h1 ∧ encodeRootRecoveryRecord next target = Ok a)); [by jr|].
  intros ? encoded _ [-> Henc]. unfold journaling. do_step. apply doing_call.
  { eapply (HGstep _ _ _ (lr_record current, lr_target current) (next, target)); [apply Hs|done|by eapply Hstep]. }
  intros [candidate casErr] _. simpl. set (h2 := h1 ++ [_]).
  assert (root_writes h2 = root_writes h1) as Hw2 by (unfold h2; rewrite root_writes_snoc; simpl; lia).
  assert (last_journal h2 = match casErr with None => Some encoded | Some _ => None end) as Hj2
    by (unfold h2; by rewrite last_journal_snoc).
  assert (extends h1 h2) as He2 by apply extends_snoc.
  destruct casErr as [casErr|].
  - do_step. do_step. eapply doing_mono; [apply loadRootRecovery_journaling|].
    intros h3 [observed|e] _ [Hw3 Hl]; [|do_step; split; [congruence|done]].
    case_match eqn:Hswap; do_step; (split; [congruence|]); [|done]. intros recovery [= <-]. split; [by apply Hl|].
    unfold observesSwap in Hswap. destruct (encodeRootRecoveryRecord (lr_record observed) _) eqn:Eo; [|done].
    bool_prop. subst. by eapply encode_idle.
  - do_step. do_step; [split; [congruence|done]|]. do_step. split; [congruence|].
    intros recovery [= <-]. split; [|done]. constructor; simpl; [by eapply record_ok_extends|].
    split; [by eapply record_ok_log|]. rewrite Hj2. by left.
Qed.

(** ** Anchoring an observation *)

Lemma anchored_observation record observed :
  validateObservationAgainstAnchor record observed = Ok tt →
  anchored_after (rr_Committed record) (committedRootFromObservation observed).
Proof.
  unfold validateObservationAgainstAnchor, anchored_after. destruct (rr_Committed record) as [c|]; [|done].
  intros E. ok_inv. bool_prop. case_bool_decide as Hr; simpl.
  - right. ok_inv. bool_prop. split_and!; congruence.
  - left. ok_inv. bool_prop. apply andb_false_iff in E. split_and!; [lia|lia|]. intros Hg.
    destruct E as [E|E]; bool_prop; congruence.
Qed.

Lemma anchorRootObservation_journaling recovery observed h :
  synced h recovery →
  (∀ p, rr_Pending (lr_record recovery) = Some p →
     (rg_TargetRevision p ≤ bd_revision (ov_bundle observed))%N) →
  journaling (anchorRootObservation publisher recovery observed) h (λ h' recovery',
    synced h' recovery' ∧ rr_Pending (lr_record recovery') = None).
Proof.
  intros Hs Hp. unfold anchorRootObservation.
  eapply (journaling_bind _ _ _ (λ h' _, h' = h ∧ validateObservationAgainstAnchor (lr_record recovery) observed = Ok tt)).
  { apply journaling_lift. by intros [] ?. }
  intros ? _ _ [-> Hv]. case_match eqn:Hc.
  { jr. split; [done|]. bool_prop. by destruct (rr_Pending (lr_record recovery)). }
  eapply journaling_mono; [apply saveRootRecovery_journaling; [done|]|]; [|intros h' r _ [Hs' Hn]; split; [done|by apply Hn]].
  intros h' _. apply (wal_anchor _ _ _ (committedRootFromObservation observed)); try done. by apply anchored_observation.
Qed.

(** ** The root *)

Context (typedNil : bool) (applied : option (option ClientEncryptionProfile → bool)).
Context (Hstore : rt_store publisher = Configured (SV_External typedNil applied)).
Context (create : bool).
Context (HGput : ∀ h key data, journaled publisher h key data None → create = true →
  G h _ (Store_PutIfAbsent key data)).
Context (HGcas : ∀ h key expected data, journaled publisher h key data expected →
  G h _ (Store_CompareAndSwap key expected data)).
Context (HGpresign : ∀ h key, G h _ (Share (Presign_Get key))).

(** An observed root: the store answered these bytes, and they authenticate. *)
Definition observed_root (h : history eff) (observed : rootRecoveryObserved) : Prop :=
  target_bundle publisher h (ov_raw observed) (ov_bundle observed) (ov_logicalDigest observed) ∧
  ∃ options, Ev (Store_Get (rt_rootKey publisher) options)
    (Ok {| ob_Data := ov_raw observed; ob_Version := ov_version observed |}) ∈ h.

Lemma loadRootForRecovery_journaling h :
  journaling (loadRootForRecovery publisher) h (λ h' r,
    quiet h h' ∧ ∀ observed, r = Some observed → observed_root h' observed).
Proof.
  unfold loadRootForRecovery, publisherStore. rewrite Hstore.
  eapply (journaling_reading _ _ (λ h' r, ∀ observed, r = Some observed → observed_root h' observed)); [|done].
  do_step. simpl. do_step. do_step. do_step. apply doing_callr; [by apply HG|]. intros [[data version]|e] _; simpl.
  2:{ case_match; do_step; [|refused]. split; [reads|]. by intros a [= <-]. }
  do 2 do_step. destruct (validateRootVersion _) as [[]|]; [|refused]. simpl. do_step.
  eapply doing_mono; [apply decodeRootStorageTarget_acting; done|].
  intros h1 [[bundle digest]|e] He [Hr Ht]; [|refused]. do_step. split; [reads|].
  intros a [= <-] observed [= <-]. split; simpl; [by apply Ht|].
  eexists. eapply extends_elem; [exact He|]. apply elem_of_app. right. by left.
Qed.

(** A comparison of an observed root with the pending operation. *)
Lemma settles_revision h recovery p observed s :
  synced h recovery → rr_Pending (lr_record recovery) = Some p → observed_root h observed →
  settles recovery p observed = Ok s → s ≠ Unsettled →
  (rg_TargetRevision p ≤ bd_revision (ov_bundle observed))%N.
Proof.
  intros [[_ _ Hpend] _] Hp [Ht _] E Hne. unfold settles in E. case_bool_decide as Hraw.
  - destruct (Hpend p Hp) as (_ & b & d & Htb & Hd). simpl in Htb. rewrite <- Hraw in Htb.
    destruct (target_bundle_det _ _ _ _ _ _ _ _ Htb Ht) as (_ & Hrev & _).
    unfold describesTarget in Hd. bool_prop. lia.
  - ok_inv. case_bool_decide as Hr; [lia|]. destruct (N.ltb_spec (rg_TargetRevision p) (bd_revision (ov_bundle observed))); [lia|].
    by injection E as <-.
Qed.

Lemma settles_anchor recovery p observed :
  settles recovery p observed = Ok Unsettled →
  validateObservationAgainstAnchor (lr_record recovery) observed = Ok tt.
Proof. unfold settles. case_bool_decide; [done|]. intros E. ok_inv. by destruct v. Qed.

Lemma rebase_journaling recovery p observed h :
  synced h recovery → rr_Pending (lr_record recovery) = Some p →
  validateObservationAgainstAnchor (lr_record recovery) observed = Ok tt →
  journaling (rebase publisher recovery p observed) h (λ h' recovery', synced h' recovery').
Proof.
  intros Hs Hp Hv. unfold rebase.
  eapply (journaling_bind _ _ _ (λ h' _, h' = h ∧ rg_ExpectedAbsent p = false ∧
    ∃ c, rr_Committed (lr_record recovery) = Some c ∧ bd_revision (ov_bundle observed) = rk_Revision c)).
  { jr. bool_prop. destruct (rr_Committed (lr_record recovery)) as [c|]; [|done]. bool_prop.
    split_and!; [done|done|by exists c]. }
  intros ? _ _ (-> & Habs & c & Hc & Hrev). case_match; [|by jr].
  eapply journaling_mono; [apply saveRootRecovery_journaling; [done|]|by intros h' r _ []].
  intros h' _. eapply (wal_rebase _ _ p); try done; [by apply anchored_observation|].
  destruct Hs as [Hok _]. rewrite (record_ok_log _ _ _ Hok p Hp). simpl. rewrite Hc. simpl. by rewrite Hrev.
Qed.

Lemma preparePending_journaling recovery p observed h :
  synced h recovery → rr_Pending (lr_record recovery) = Some p →
  (∀ o, observed = Some o → validateObservationAgainstAnchor (lr_record recovery) o = Ok tt) →
  journaling (preparePending publisher recovery p observed) h (λ h' recovery', synced h' recovery').
Proof.
  intros Hs Hp Ho. unfold preparePending. destruct observed as [o|]; [by apply rebase_journaling, Ho|].
  eapply (journaling_bind _ _ _ (λ h' _, h' = h)); [by jr|]. intros ? _ _ ->. by jr.
Qed.

Lemma decodeTarget_journaling target h :
  journaling (mtry (decodeRootStorageTarget publisher target)) h (λ h' r,
    quiet h h' ∧ ∀ b d, r = Ok (b, d) → target_bundle publisher h' target b d).
Proof.
  eapply (journaling_reading _ _ (λ h' r, ∀ b d, r = Ok (b, d) → target_bundle publisher h' target b d)); [|done].
  do_step. eapply doing_mono; [apply decodeRootStorageTarget_acting; done|].
  intros h' r _ [He Ht]. split; [done|]. by intros r' [= <-].
Qed.

Lemma authenticatePending_journaling recovery p h :
  journaling (authenticatePending publisher recovery p) h (λ h' b,
    quiet h h' ∧ bd_revision b = rg_TargetRevision p).
Proof.
  unfold authenticatePending. eapply journaling_bind; [apply decodeTarget_journaling|].
  intros h1 [[b d]|e] _ [Hq _]; [|jr]. eapply (journaling_bind _ _ _ (λ h' _, h' = h1 ∧ describesTarget p b d = true)).
  { jr. by bool_prop. }
  intros ? _ _ [-> Hd]. jr. unfold describesTarget in Hd. by bool_prop.
Qed.

(** ** Writing the root *)

(** The store acknowledged a write of the root. *)
Definition wrote_root (h : history eff) (target : bytes) (version : Version) : Prop :=
  Ev (Store_PutIfAbsent (rt_rootKey publisher) target) (Ok version) ∈ h ∨
  ∃ expected, Ev (Store_CompareAndSwap (rt_rootKey publisher) expected target) (Ok version) ∈ h.

Lemma writeRoot_acting recovery p h :
  synced h recovery → rr_Pending (lr_record recovery) = Some p →
  (rg_ExpectedAbsent p = true → create = true) →
  acts (writeRoot publisher (expectedVersion p) (lr_target recovery)) h (λ h' r,
    last_journal h' = last_journal h ∧ root_writes h' = (root_writes h + 1)%nat ∧
    ∀ version, r = Ok version → wrote_root h' (lr_target recovery) version).
Proof.
  intros [_ [_ Hb]] Hp Hcreate. unfold writeRoot, publisherStore. rewrite Hstore. do_step. simpl. do_step. do_step.
  assert (journaled publisher h (rt_rootKey publisher) (lr_target recovery) (expectedVersion p)) as Hj.
  { split; [done|]. destruct (last_journal h) as [encoded|]; [|naive_solver].
    by exists encoded, (lr_record recovery), p. }
  assert (expectedVersion p = None → create = true) as Hc
    by (unfold expectedVersion; destruct (rg_ExpectedAbsent p); auto; done).
  destruct (expectedVersion p) as [version|] eqn:Hv; (apply doing_callr; [first [by apply HGcas|by apply HGput; [|apply Hc]]|]); intros [v|e] _;
    try (split_and!; [by rewrite last_journal_snoc|by rewrite root_writes_snoc|done]);
    do 2 do_step; (destruct (validateRootVersion v) as [[]|]; simpl;
      [do_step|]; (split_and!; [by rewrite last_journal_snoc|by rewrite root_writes_snoc|])); try done;
    intros version' [= <-]; [right; eexists|left]; apply elem_of_app; right; by left.
Qed.

(** ** The loops *)

(** A loop whose writes are counted: [budget] more are allowed. *)
Definition bounded {A} (m : M eff S A) (h : history eff) (budget : nat)
    (P : history eff → A → Prop) : Prop :=
  acts m h (λ h' r, (root_writes h' ≤ root_writes h + budget)%nat ∧ ∀ a, r = Ok a → P h' a).

Lemma bounded_bind {A B} (m : M eff S A) (f : A → M eff S B) h n Q P :
  journaling m h Q → (∀ h' a, extends h h' → Q h' a → bounded (f a) h' n P) → bounded (mbind m f) h n P.
Proof.
  intros Hm Hf. unfold bounded. do_step. eapply doing_mono; [exact Hm|].
  intros h1 [a|e] He [Hw Hq]; [|split; [lia|done]].
  eapply doing_mono; [by apply Hf, Hq|]. intros h2 r _ [Hw2 Hp]. split; [lia|done].
Qed.
Lemma bounded_journaling {A} (m : M eff S A) h n (P : history eff → A → Prop) :
  journaling m h P → bounded m h n P.
Proof. intros Hm. eapply doing_mono; [exact Hm|]. intros h' r _ [Hw Hp]. split; [lia|done]. Qed.

Lemma checkRound_journaling amb h (P : history eff → unit → Prop) :
  (∀ h', quiet h h' → P h' tt) → journaling (checkRound publisher amb) h P.
Proof.
  intros HP. unfold checkRound, unlessAmbiguous. eapply (journaling_bind _ _ _ (λ h' _, quiet h h')); [by do 2 jr|].
  intros h1 _ _ Hq. do 2 jr. apply HP. by etrans.
Qed.

Lemma indeterminately_journaling {A} amb (m : M eff S A) h P :
  journaling m h P → journaling (indeterminately amb m) h P.
Proof. apply journaling_wrap. Qed.

Lemma writePending_acting recovery p bundle n amb h :
  synced h recovery → rr_Pending (lr_record recovery) = Some p →
  (rg_ExpectedAbsent p = true → create = true) →
  acts (writePending publisher recovery p bundle n amb) h (λ h' r,
    (root_writes h' = root_writes h ∨ (n < rt_maxAttempts publisher ∧ root_writes h' = (root_writes h + 1)%nat)) ∧
    ∀ out, r = Ok out → n < rt_maxAttempts publisher ∧ last_journal h' = last_journal h ∧
      ∀ o, out = inl o → ov_bundle o = bundle ∧ wrote_root h' (lr_target recovery) (ov_version o)).
Proof.
  intros Hs Hp Hcreate. unfold writePending. do_step.
  destruct (Z.leb_spec (rt_maxAttempts publisher) n) as [Hn|Hn]; [unfold exhausted; do_step; split; [by left|done]|].
  do_step. do_step. eapply doing_mono; [by apply (checkRound_journaling _ _ (λ h' _, quiet h h'))|].
  intros h1 [[]|e] _ [Hw1 Hq]; [|split; [by left|done]].
  specialize (Hq tt eq_refl). pose proof Hq as (He1 & Hj1 & _).
  do_step. do_step. eapply doing_mono; [apply writeRoot_acting; [by eapply synced_quiet|done|done]|].
  intros h2 [version|e] _ (Hj2 & Hw2 & Hwr);
    (assert (n < rt_maxAttempts publisher ∧ root_writes h2 = (root_writes h + 1)%nat) as Hw by (split; [done|lia])).
  - do_step. split; [by right|]. intros out [= <-]. split_and!; [done|congruence|].
    intros o [= <-]. split; [done|]. by apply Hwr.
  - case_match; [do_step; split; [by right|]; intros out [= <-]; split_and!; [done|congruence|done]|].
    do_step. do_step; [split; [by right|done]|]. do_step. do_step; [split; [by right|done]|].
    do_step. split; [by right|]. intros out [= <-]. split_and!; [done|congruence|done].
Qed.

(** A round's write: what was written is the target, and the rest of the round
    runs with one write less. *)
Lemma bounded_write {B} recovery p bundle n amb (f : sum rootRecoveryObserved (option error) → M eff S B) h P :
  synced h recovery → rr_Pending (lr_record recovery) = Some p → 0 ≤ n →
  (rg_ExpectedAbsent p = true → create = true) →
  (∀ h' out, extends h h' → n < rt_maxAttempts publisher → synced h' recovery →
     (∀ o, out = inl o → ov_bundle o = bundle ∧ wrote_root h' (lr_target recovery) (ov_version o)) →
     bounded (f out) h' (Z.to_nat (rt_maxAttempts publisher - (n + 1))) P) →
  bounded (mbind (writePending publisher recovery p bundle n amb) f) h
    (Z.to_nat (rt_maxAttempts publisher - n)) P.
Proof.
  intros Hs Hp Hn Hcreate Hf. unfold bounded. do_step. eapply doing_mono; [by apply writePending_acting|].
  intros h1 [out|e] He [Hw Hr]; [|split; [lia|done]].
  destruct (Hr out eq_refl) as (Hlt & Hj & Hwr).
  eapply doing_mono; [apply Hf; try done|].
  - destruct Hs as [Hok [Hl Hb]]. constructor; [by eapply record_ok_extends|]. split; [done|]. by rewrite Hj.
  - intros h2 r _ [Hw2 HP]. split; [lia|done].
Qed.

Lemma recoverIdle_journaling recovery had h :
  synced h recovery → rr_Pending (lr_record recovery) = None →
  journaling (recoverIdle publisher recovery had) h (λ _ _, True).
Proof.
  intros Hs Hp. unfold recoverIdle. eapply journaling_bind; [apply loadRootForRecovery_journaling|].
  intros h1 observed _ [Hq1 _]. eapply (journaling_bind _ _ _ (λ h' _, quiet h h')); [jr; by etrans|]. intros h2 [] _ Hq2.
  eapply (journaling_bind _ _ _ (λ h' _, quiet h h')); [jr; by etrans|]. intros h3 [] _ Hq3.
  destruct observed as [o|].
  - eapply journaling_bind; [apply anchorRootObservation_journaling; [by eapply synced_quiet|by rewrite Hp]|].
    intros h4 _ _ _. by jr.
  - eapply (journaling_bind _ _ _ (λ _ _, True)); [by jr|]. intros h4 _ _ _. by jr.
Qed.

(** The part of a round of RecoverPending that writes; [k] is the next round. *)
Lemma recoverWrite_bounded recovery p observed n amb h k (P : history eff → option RootRecoveryResult → Prop) :
  create = true →
  synced h recovery → rr_Pending (lr_record recovery) = Some p → 0 ≤ n →
  (∀ o, observed = Some o → validateObservationAgainstAnchor (lr_record recovery) o = Ok tt) →
  (∀ h' res, P h' (Some res)) →
  (∀ h' recovery amb, synced h' recovery → n < rt_maxAttempts publisher →
     bounded (k recovery amb) h' (Z.to_nat (rt_maxAttempts publisher - (n + 1))) P) →
  bounded (recovery <- preparePending publisher recovery p observed ;;
           withPending recovery (λ pending,
             targetBundle <- authenticatePending publisher recovery pending ;;
             written <- writePending publisher recovery pending targetBundle n amb ;;
             match written with
             | inl applied =>
                 anchorRootObservation publisher recovery applied ;;;
                 mret (Some (rootRecoveryResultFromObservation applied true true))
             | inr amb => k recovery amb
             end)) h (Z.to_nat (rt_maxAttempts publisher - n)) P.
Proof.
  intros Hcreate Hs Hp Hn Hobs HP Hk. eapply bounded_bind; [by apply preparePending_journaling|].
  intros h1 recovery1 _ Hs1. unfold withPending.
  destruct (rr_Pending (lr_record recovery1)) as [p1|] eqn:Hp1; [|by apply bounded_journaling; jr].
  eapply bounded_bind; [apply authenticatePending_journaling|]. intros h2 bundle _ [Hq2 Hrev].
  eapply bounded_write; [by eapply synced_quiet|done|done|done|].
  intros h3 out _ Hlt Hs3 Hout. destruct out as [o|amb']; [|by apply Hk].
  apply bounded_journaling. eapply journaling_bind.
  - apply anchorRootObservation_journaling; [done|]. destruct (Hout o eq_refl) as [-> _].
    intros q Hq. rewrite Hp1 in Hq. injection Hq as <-. lia.
  - intros h4 r _ _. jr. apply HP.
Qed.

Lemma recoverLoop_bounded rounds recovery had n amb h :
  create = true → synced h recovery → 0 ≤ n →
  bounded (recoverLoop publisher rounds recovery had n amb) h (Z.to_nat (rt_maxAttempts publisher - n))
    (λ _ r, (Z.to_nat (rt_maxAttempts publisher - n) < rounds)%nat → r ≠ None).
Proof.
  intros Hcreate.
  revert recovery n amb h. induction rounds as [|rounds IH]; intros recovery n amb h Hs Hn; simpl.
  { apply bounded_journaling. jr. intros ?; lia. }
  eapply bounded_bind; [by apply (checkRound_journaling _ _ (λ h' _, quiet h h'))|]. intros h1 [] _ Hq1.
  apply (synced_quiet _ h1) in Hs; [|done].
  destruct (rr_Pending (lr_record recovery)) as [p|] eqn:Hp.
  2:{ apply bounded_journaling. eapply journaling_bind; [by apply recoverIdle_journaling|]. intros h2 r _ _. by jr. }
  eapply bounded_bind; [apply indeterminately_journaling, loadRootForRecovery_journaling|].
  intros h2 observed _ [Hq2 Hobs]. apply (synced_quiet _ h2) in Hs; [|done].
  eapply (bounded_bind _ _ _ _ (λ h' _, quiet h2 h')); [by apply indeterminately_journaling; jr|]. intros h3 [] _ Hq3.
  eapply (bounded_bind _ _ _ _ (λ h' _, quiet h2 h')); [by apply indeterminately_journaling; jr; etrans|].
  intros h4 [] _ Hq4. clear h3 Hq3.
  eapply (bounded_bind _ _ _ _ (λ h' s, h' = h4 ∧ ∀ o, observed = Some o → settles recovery p o = Ok s)).
  { jr. split; [done|]. by intros o ->. }
  intros ? settled _ [-> Hset]. apply (synced_quiet _ h4) in Hs; [|done].
  assert (∀ o, observed = Some o → observed_root h4 o) as Hobs4.
  { intros o Ho. destruct (Hobs o Ho) as [Ht [op Hev]]. destruct Hq4 as (He & _).
    split; [by eapply target_bundle_extends|]. exists op. by eapply extends_elem. }
  destruct observed as [o|].
  2:{ apply (recoverWrite_bounded _ _ None _ _ _ (λ r a, recoverLoop publisher rounds r had (n + 1) a)); try done.
      intros h5 r5 a5 Hs5 Hlt. eapply doing_mono; [by apply IH; [|lia]|]. intros h6 r _ [Hw Hr]. split; [done|].
      intros x Hx Hlt'. apply Hr; [done|lia]. }
  destruct settled;
    [(apply bounded_journaling; eapply journaling_bind;
      [apply anchorRootObservation_journaling; [done|];
       intros q Hq; rewrite Hp in Hq; injection Hq as <-; eapply settles_revision; eauto; done
      |intros h5 _ _ _; by jr])..|].
  apply (recoverWrite_bounded _ _ (Some o) _ _ _ (λ r a, recoverLoop publisher rounds r had (n + 1) a)); try done.
  - intros o' [= <-]. by eapply settles_anchor, Hset.
  - intros h5 r5 a5 Hs5 Hlt. eapply doing_mono; [by apply IH; [|lia]|]. intros h6 r _ [Hw Hr]. split; [done|].
    intros x Hx Hlt'. apply Hr; [done|lia].
Qed.

(** ** Publishing *)

(** A publication: a root that authenticates and holds exactly the closure was
    read from the store or acknowledged by it, with this version. *)
Definition published (h : history eff) (closure : SnapshotClosure) (pub : RootPublication) : Prop :=
  ∃ target bundle digest, target_bundle publisher h target bundle digest ∧
    rootBundleExactlyMatchesClosure bundle closure = true ∧
    rpn_Revision pub = bd_revision bundle ∧ rpn_Snapshot pub = sc_Snapshot closure ∧
    ((∃ options, Ev (Store_Get (rt_rootKey publisher) options)
        (Ok {| ob_Data := target; ob_Version := rpn_Version pub |}) ∈ h) ∨
     wrote_root h target (rpn_Version pub)).

Lemma published_extends h h' closure pub : extends h h' → published h closure pub → published h' closure pub.
Proof.
  intros He (t & b & d & Ht & Hm & Hr & Hs & Hv). exists t, b, d. split_and!; try done; [by eapply target_bundle_extends|].
  destruct Hv as [[o Ho]|[Hw|[x Hx]]]; [left; exists o|right; left|right; right; exists x]; by eapply extends_elem.
Qed.

(** What a round ends in. *)
Definition round_post (closure : SnapshotClosure) (h : history eff)
    (out : sum RootPublication loadedRootRecovery) : Prop :=
  match out with inl pub => published h closure pub | inr recovery => synced h recovery end.

Lemma BuildSnapshotBundle_journaling input h :
  journaling (BuildSnapshotBundle input (rt_signer publisher) (rt_verifier publisher)) h (λ h' _, quiet h h').
Proof.
  eapply (journaling_reading _ _ (λ _ _, True)); [|done].
  eapply doing_mono; [apply BuildSnapshotBundle_acting; [done|done]|]. intros h' r _ [He _]. by split.
Qed.

Lemma sealRootStorageTarget_journaling logical h :
  journaling (sealRootStorageTarget publisher logical) h (λ h' _, quiet h h').
Proof.
  unfold sealRootStorageTarget. eapply (journaling_bind _ _ _ (λ h' _, h' = h)); [by jr|]. intros ? [] _ ->.
  destruct (rt_clientEncryption publisher); [|by jr]. jr.
  eapply (journaling_reading _ _ (λ _ _, True)); [|done]. eapply doing_reading; [apply SealObject_read|]. by split.
Qed.

Lemma journalTarget_journaling recovery closure allow base h :
  synced h recovery → rr_Pending (lr_record recovery) = None →
  journaling (journalTarget publisher recovery closure allow base) h (λ h' recovery', synced h' recovery').
Proof.
  intros Hs Hp. unfold journalTarget. eapply (journaling_bind _ _ _ (λ h' _, h' = h)); [by jr|]. intros ? [] _ ->.
  eapply journaling_bind; [apply BuildSnapshotBundle_journaling|]. intros h1 logical _ Hq1.
  eapply journaling_bind; [apply sealRootStorageTarget_journaling|]. intros h2 target _ Hq2.
  eapply journaling_mono;
    [apply saveRootRecovery_journaling; [apply (synced_quiet h); [etrans; [exact Hq1|exact Hq2]|done]|]|by intros h' r _ []]. intros h' Hok.
  destruct Hs as [[_ Hidle _] _]. destruct (Hidle Hp) as [Ht _]. simpl in Ht. rewrite Ht.
  destruct Hok as [_ _ Hpend]. simpl in Hpend. destruct (Hpend _ eq_refl) as [Hv _].
  apply validatePending_ok in Hv as (Hh & _ & Hn & _). by eapply wal_begin.
Qed.

Lemma observed_published h observed closure updated :
  observed_root h observed → rootBundleExactlyMatchesClosure (ov_bundle observed) closure = true →
  published h closure (publication (bd_revision (ov_bundle observed)) closure (ov_version observed) updated).
Proof. intros [Ht Hev] Hm. exists (ov_raw observed), (ov_bundle observed), (ov_logicalDigest observed). split_and!; auto. Qed.

Lemma observed_extends h h' observed : extends h h' → observed_root h observed → observed_root h' observed.
Proof.
  intros He [Ht [o Ho]]. split; [by eapply target_bundle_extends|]. exists o. by eapply extends_elem.
Qed.

Lemma publishIdle_journaling recovery closure allow h :
  synced h recovery → rr_Pending (lr_record recovery) = None →
  journaling (publishIdle publisher recovery closure allow) h (λ h' out, round_post closure h' out).
Proof.
  intros Hs Hp. unfold publishIdle. eapply journaling_bind; [apply loadRootForRecovery_journaling|].
  intros h1 observed _ [Hq1 Hobs]. apply (synced_quiet _ h1) in Hs; [|done]. destruct observed as [o|].
  - eapply journaling_bind; [apply anchorRootObservation_journaling; [done|by rewrite Hp]|]. intros h2 recovery2 He2 [Hs2 Hp2].
    case_match.
    + jr. apply observed_published; [|done]. by eapply observed_extends, Hobs.
    + eapply (journaling_bind _ _ _ (λ h' _, h' = h2)); [by jr|]. intros ? [] _ ->.
      eapply journaling_bind; [by apply journalTarget_journaling|]. intros h3 recovery3 _ Hs3. by jr.
  - eapply (journaling_bind _ _ _ (λ h' _, h' = h1)); [by jr|]. intros ? [] _ ->.
    eapply journaling_bind; [by apply journalTarget_journaling|]. intros h3 recovery3 _ Hs3. by jr.
Qed.

Lemma publishSettled_journaling recovery p observed settled closure allow h :
  synced h recovery → rr_Pending (lr_record recovery) = Some p → observed_root h observed →
  settles recovery p observed = Ok settled → settled ≠ Unsettled →
  journaling (publishSettled publisher recovery p observed settled closure allow) h (λ h' out, round_post closure h' out).
Proof.
  intros Hs Hp Hobs Hset Hne. pose proof (settles_revision _ _ _ _ _ Hs Hp Hobs Hset Hne) as Hle.
  assert (∀ h' updated, extends h h' → rootBundleExactlyMatchesClosure (ov_bundle observed) closure = true →
    published h' closure (publication (match settled with
      | SettledTarget | SettledRevision => rg_TargetRevision p | _ => bd_revision (ov_bundle observed) end)
      closure (ov_version observed) updated)) as Hpub.
  { intros h' updated He Hm.
    assert (match settled with SettledTarget | SettledRevision => rg_TargetRevision p
            | _ => bd_revision (ov_bundle observed) end = bd_revision (ov_bundle observed)) as ->.
    { unfold settles in Hset. destruct Hs as [[_ _ Hpend] _].
      destruct (Hpend p Hp) as (_ & b & d & Htb & Hd). simpl in Htb. unfold describesTarget in Hd. bool_prop.
      case_bool_decide as Hraw.
      - injection Hset as <-. rewrite <- Hraw in Htb. destruct Hobs as [Ht _].
        destruct (target_bundle_det _ _ _ _ _ _ _ _ Htb Ht) as (_ & Hrev & _). congruence.
      - ok_inv. repeat case_match; ok_inv; bool_prop; simplify_eq; congruence. }
    apply observed_published; [by eapply observed_extends|done]. }
  unfold publishSettled. eapply journaling_bind.
  { apply anchorRootObservation_journaling; [done|]. intros q Hq. rewrite Hp in Hq. by injection Hq as <-. }
  intros h1 anchored He1 [Hs1 _]. cbv zeta.
  destruct (rootBundleExactlyMatchesClosure (ov_bundle observed) closure) eqn:Hm; [jr; by apply Hpub|].
  destruct settled; try (by jr).
  do 3 (eapply (journaling_bind _ _ _ (λ h' _, h' = h1)); [by jr|]; intros ? [] _ ->). by jr.
Qed.

Lemma validateRequest_journaling recovery closure allow h :
  journaling (validatePendingRootRequest publisher recovery closure allow) h (λ h' bundle,
    quiet h h' ∧ ∃ p d, rr_Pending (lr_record recovery) = Some p ∧ rg_AllowCreate p = allow ∧
      target_bundle publisher h' (lr_target recovery) bundle d ∧
      rootBundleExactlyMatchesClosure bundle closure = true).
Proof.
  unfold validatePendingRootRequest. destruct (rr_Pending (lr_record recovery)) as [p|] eqn:Hp; [|by jr].
  eapply (journaling_bind _ _ _ (λ h' _, h' = h ∧ rg_AllowCreate p = allow)); [jr; by bool_prop|].
  intros ? [] _ [-> Ha]. eapply journaling_bind; [apply decodeTarget_journaling|].
  intros h1 [[b d]|e] _ [Hq Ht]; [|by jr].
  eapply (journaling_bind _ _ _ (λ h' _, h' = h1)); [by jr|]. intros ? [] _ ->.
  eapply (journaling_bind _ _ _ (λ h' _, h' = h1 ∧ rootBundleExactlyMatchesClosure b closure = true)); [jr; by bool_prop|].
  intros ? [] _ [-> Hm]. jr. split; [done|]. exists p, d. split_and!; try done. by apply Ht.
Qed.

(** The part of a round that writes; [k] is the next round. *)
Lemma publishWrite_bounded recovery p observed closure allow n amb h k
    (P : history eff → option RootPublication → Prop) :
  (allow = true → create = true) → synced h recovery → rr_Pending (lr_record recovery) = Some p → 0 ≤ n →
  (∀ o, observed = Some o → validateObservationAgainstAnchor (lr_record recovery) o = Ok tt) →
  (∀ h' pub, published h' closure pub → P h' (Some pub)) →
  (∀ h' recovery amb, synced h' recovery → n < rt_maxAttempts publisher →
     bounded (k recovery amb) h' (Z.to_nat (rt_maxAttempts publisher - (n + 1))) P) →
  bounded (recovery <- preparePending publisher recovery p observed ;;
           targetBundle <- validatePendingRootRequest publisher recovery closure allow ;;
           withPending recovery (λ pending,
             written <- writePending publisher recovery pending targetBundle n amb ;;
             match written with
             | inl applied =>
                 anchorRootObservation publisher recovery applied ;;;
                 mret (Some (publication (rg_TargetRevision pending) closure (ov_version applied) true))
             | inr amb => k recovery amb
             end)) h (Z.to_nat (rt_maxAttempts publisher - n)) P.
Proof.
  intros Hcreate Hs Hp Hn Hobs HP Hk. eapply bounded_bind; [by apply preparePending_journaling|].
  intros h1 recovery1 _ Hs1. eapply bounded_bind; [apply validateRequest_journaling|].
  intros h2 bundle _ (Hq2 & p1 & d & Hp1 & Hallow & Ht & Hm). unfold withPending. rewrite Hp1.
  apply (synced_quiet _ h2) in Hs1; [|done].
  eapply bounded_write; [done|done|done| |].
  { intros Habs. apply Hcreate. rewrite <- Hallow. destruct Hs1 as [[_ _ Hpend] _].
    destruct (Hpend p1 Hp1) as [Hv _]. apply validatePending_ok in Hv as (_ & -> & _). done. }
  intros h3 out He3 Hlt Hs3 Hout. destruct out as [o|amb']; [|by apply Hk].
  destruct (Hout o eq_refl) as [Hb Hw]. apply bounded_journaling.
  assert (bd_revision bundle = rg_TargetRevision p1) as Hrev.
  { destruct Hs1 as [[_ _ Hpend] _]. destruct (Hpend p1 Hp1) as (_ & b & d' & Htb & Hd).
    unfold describesTarget in Hd. bool_prop.
    destruct (target_bundle_det _ _ _ _ _ _ _ _ Ht Htb) as (_ & Hr & _). congruence. }
  eapply journaling_bind.
  - apply anchorRootObservation_journaling; [done|]. intros q Hq. rewrite Hp1 in Hq. injection Hq as <-.
    rewrite Hb, Hrev. done.
  - intros h4 r He4 _. jr. apply HP. exists (lr_target recovery1), bundle, d. split_and!; try done.
    + eapply target_bundle_extends; [|exact Ht]. by etrans.
    + right. destruct Hw as [Hw|[x Hx]]; [left|right; exists x]; by eapply extends_elem.
Qed.

Lemma publishRounds_bounded rounds recovery closure allow n amb h :
  (allow = true → create = true) → synced h recovery → 0 ≤ n →
  bounded (publishRounds publisher rounds recovery closure allow n amb) h (Z.to_nat (rt_maxAttempts publisher - n))
    (λ h' r, ∀ pub, r = Some pub → published h' closure pub).
Proof.
  intros Hcreate.
  revert recovery n amb h. induction rounds as [|rounds IH]; intros recovery n amb h Hs Hn; simpl.
  { by apply bounded_journaling; jr. }
  eapply bounded_bind; [by apply (checkRound_journaling _ _ (λ h' _, quiet h h'))|]. intros h1 [] _ Hq1.
  apply (synced_quiet _ h1) in Hs; [|done].
  destruct (rr_Pending (lr_record recovery)) as [p|] eqn:Hp.
  2:{ eapply bounded_bind; [by apply publishIdle_journaling|]. intros h2 [pub|recovery2] _ Hpost; [|by apply IH].
      apply bounded_journaling. jr. by intros ? [= <-]. }
  eapply bounded_bind; [apply indeterminately_journaling, loadRootForRecovery_journaling|].
  intros h2 observed _ [Hq2 Hobs]. apply (synced_quiet _ h2) in Hs; [|done].
  eapply (bounded_bind _ _ _ _ (λ h' s, h' = h2 ∧ ∀ o, observed = Some o → settles recovery p o = Ok s)).
  { jr. split; [done|]. by intros o ->. }
  intros ? settled _ [-> Hset].
  assert (∀ o, (o = None ∨ settled = Unsettled) → observed = o → bounded (
              recovery <- preparePending publisher recovery p o ;;
              targetBundle <- validatePendingRootRequest publisher recovery closure allow ;;
              withPending recovery (λ pending,
                written <- writePending publisher recovery pending targetBundle n amb ;;
                match written with
                | inl applied =>
                    anchorRootObservation publisher recovery applied ;;;
                    mret (Some (publication (rg_TargetRevision pending) closure (ov_version applied) true))
                | inr amb => publishRounds publisher rounds recovery closure allow (n + 1) amb
                end)) h2 (Z.to_nat (rt_maxAttempts publisher - n))
    (λ h' r, ∀ pub, r = Some pub → published h' closure pub)) as Hwrite.
  { intros o Ho ->.
    apply (publishWrite_bounded _ _ _ _ _ _ _ _ (λ r a, publishRounds publisher rounds r closure allow (n + 1) a)); try done.
    - intros o' ->. destruct Ho as [|Ho]; [done|]. eapply settles_anchor. rewrite <- Ho. by apply Hset.
    - intros h' pub Hpub pub' [= <-]. done.
    - intros h' recovery' amb' Hs' _. apply IH; [done|lia]. }
  destruct observed as [o|]; [|by apply Hwrite; [left|]].
  destruct settled;
    [(eapply bounded_bind; [apply publishSettled_journaling; [done|done|by apply Hobs|by apply Hset|done]|];
      intros h3 [pub|recovery3] _ Hpost; [apply bounded_journaling; jr; by intros ? [= <-]|by apply IH])..|].
  by apply Hwrite; [right|].
Qed.

(** ** Entry points *)

Lemma gated_bounded {A} (m : M eff S A) h n (P : history eff → A → Prop) :
  (∀ h', bounded m h' n P) → (∀ h h' a, extends h h' → P h a → P h' a) → bounded (gated publisher m) h n P.
Proof.
  intros Hm HP. unfold gated. eapply (bounded_bind _ _ _ _ (λ _ _, True)).
  { eapply (journaling_reading _ _ (λ _ _, True)); [|done].
    apply doing_calle; [by apply HG|by split; [reads|]|intros x; by split; [reads|]]. }
  intros h1 [] _ _. unfold bounded. do_step. do_step. do_step.
  eapply doing_mono; [by apply (journaling_ctx _ (λ _ _, True))|]. intros h2 [[]|e] _ [Hw2 _].
  2:{ do_step. apply doing_call; [by apply HG|]. intros [] _. do_step. rewrite root_writes_snoc. simpl. split; [lia|done]. }
  do_step. eapply doing_mono; [by apply (journaling_auth _ _ (λ _ _, True))|]. intros h3 [[]|e] _ [Hw3 _].
  2:{ do_step. apply doing_call; [by apply HG|]. intros [] _. do_step. rewrite root_writes_snoc. simpl. split; [lia|done]. }
  eapply doing_mono; [apply Hm|]. intros h4 r _ [Hw4 Hr]. do_step. apply doing_call; [by apply HG|]. intros [] _. do_step.
  rewrite root_writes_snoc. simpl. split; [lia|]. intros a ->. eapply HP; [apply extends_snoc|]. by apply Hr.
Qed.

Lemma publish_bounded rounds closure allow h :
  RecoveryEnabled publisher = true → (allow = true → create = true) →
  bounded (publish publisher rounds closure allow) h (Z.to_nat (rt_maxAttempts publisher))
    (λ h' r, ∀ pub, r = Some pub → published h' closure pub).
Proof.
  intros Hrec Hcreate. unfold publish.
  eapply (bounded_bind _ _ _ _ (λ _ _, True)); [by jr|]. intros h1 [] _ _.
  eapply (bounded_bind _ _ _ _ (λ _ _, True)); [by jr|]. intros h2 [] _ _.
  eapply (bounded_bind _ _ _ _ (λ _ _, True)); [by jr|]. intros h3 [] _ _.
  eapply (bounded_bind _ _ _ _ (λ _ _, True)); [by jr|]. intros h4 [] _ _.
  eapply (bounded_bind _ _ _ _ (λ _ _, True)); [by jr|]. intros h5 [] _ _.
  apply gated_bounded.
  - intros h'. rewrite Hrec. unfold publishRecoverable. eapply bounded_bind; [apply loadRootRecovery_journaling|].
    intros h6 recovery _ Hs. rewrite <- (Z.sub_0_r (rt_maxAttempts publisher)) at 1. by apply publishRounds_bounded.
  - intros h0 h' r He Hr pub Hpub. eapply published_extends; [exact He|]. by apply Hr.
Qed.

Lemma requireRecovery_journaling h : journaling (requireRecovery publisher) h (λ _ _, True).
Proof.
  unfold requireRecovery. eapply (journaling_bind _ _ _ (λ _ _, True)); [by jr|]. intros h1 [] _ _.
  eapply (journaling_bind _ _ _ (λ _ _, True)); [by jr|]. intros h2 [] _ _.
  eapply (journaling_bind _ _ _ (λ _ _, True)); [by jr|]. intros h3 [] _ _. by jr.
Qed.

Lemma RecoverPending_bounded h :
  create = true → 0 ≤ rt_maxAttempts publisher →
  bounded (RecoverPending publisher) h (Z.to_nat (rt_maxAttempts publisher)) (λ _ r, r ≠ None).
Proof.
  intros Hcreate Hmax. unfold RecoverPending. eapply bounded_bind; [apply requireRecovery_journaling|].
  intros h1 [] _ _. apply gated_bounded; [|done]. intros h2. unfold recoverPending.
  eapply bounded_bind; [apply loadRootRecovery_journaling|]. intros h3 recovery _ Hs.
  eapply (bounded_bind _ _ _ _ (λ h' _, h' = h3)); [by jr|]. intros ? [] _ ->.
  eapply doing_mono; [by apply recoverLoop_bounded|]. intros h4 r _ [Hw Hr]. rewrite Z.sub_0_r in Hw. split; [done|].
  intros a ->. apply Hr; [done|]. rewrite Z.sub_0_r. lia.
Qed.

Lemma checkAuthorized_journaling h : journaling (checkAuthorized publisher) h (λ h' _, quiet h h').
Proof.
  unfold checkAuthorized. eapply (journaling_bind _ _ _ (λ h' _, quiet h h')); [by jr|]. intros h1 [] _ Hq.
  jr. by etrans.
Qed.

Lemma PrepareRecovery_bounded h : bounded (PrepareRecovery publisher) h 0 (λ _ _, True).
Proof.
  unfold PrepareRecovery. eapply bounded_bind; [apply requireRecovery_journaling|]. intros h1 [] _ _.
  apply gated_bounded; [|done]. intros h2. apply bounded_journaling.
  eapply journaling_bind; [apply loadRootRecovery_full|]. intros h3 loaded _ (Hs & Hfresh & _).
  eapply journaling_bind; [apply checkAuthorized_journaling|]. intros h4 [] _ Hq4.
  apply (synced_quiet _ h4) in Hs; [|done].
  destruct (lr_found loaded) eqn:Hf; [by jr|]. destruct (Hfresh eq_refl) as (Hc & Hp & Ht).
  eapply (journaling_bind _ _ _ (λ _ _, True)).
  { eapply journaling_mono; [apply journaling_try, saveRootRecovery_journaling; [done|]|done].
    intros h' _. rewrite Ht. by apply wal_prepare. }
  intros h5 [r|e] _ _.
  { eapply journaling_mono; [apply checkAuthorized_journaling|]. done. }
  case_match; [|by jr]. eapply journaling_bind; [apply loadRootRecovery_journaling|]. intros h6 observed _ _.
  eapply journaling_bind; [apply checkAuthorized_journaling|]. intros h7 [] _ _. case_match; by jr.
Qed.
End Journal.

(** ** The guarantees *)

(** The store is not one of the package's wrappers: what the publisher hands to it
    is what it writes. *)
Definition raw_store (publisher : RootPublisher) : Prop :=
  ∃ typedNil applied, rt_store publisher = Configured (SV_External typedNil applied).

(** Root writes are those of the journal. *)
Definition writes_ahead (publisher : RootPublisher) : guarantee eff := λ h X e,
  match e with
  | Store_PutIfAbsent key data => journaled publisher h key data None
  | Store_CompareAndSwap key expected data => journaled publisher h key data expected
  | _ => True
  end.

(** Swaps of the journal are steps of the log. *)
Definition journal_steps : guarantee eff := λ h X e,
  match e with
  | Share (Recovery_CompareAndSwap _ next) => ∃ before after,
      journal_before h before ∧ encodeRootRecoveryRecord after.1 after.2 = Ok next ∧ wal_step before after
  | _ => True
  end.

(** No root is created. *)
Definition no_creation : guarantee eff := λ h X e,
  match e with Store_PutIfAbsent _ _ => False | _ => True end.

Lemma wal_writes_ahead publisher create h X (e : eff X) :
  wal_discipline publisher create h X e → writes_ahead publisher h X e.
Proof. destruct e; try done. by intros []. Qed.
Lemma wal_journal_steps publisher create h X (e : eff X) :
  wal_discipline publisher create h X e → journal_steps h X e.
Proof. by destruct e. Qed.
Lemma wal_no_creation publisher h X (e : eff X) :
  wal_discipline publisher false h X e → no_creation h X e.
Proof. destruct e; try done. by intros []. Qed.

(** What is proved of a method under the discipline holds under each part of it. *)
Lemma bounded_mwp {S A} publisher create (m : M eff S A) s h n P (G : guarantee eff) :
  (∀ h X (e : eff X), wal_discipline publisher create h X e → G h X e) →
  bounded any_rely (wal_discipline publisher create) m h n P →
  mwp any_rely G m s h (λ h' _ r, (root_writes h' ≤ root_writes h + n)%nat ∧ ∀ a, r = Ok a → P h' a).
Proof.
  intros HG Hm. eapply mwp_mono; [eapply (doing_weaken _ G any_rely any_rely); [done|exact HG|exact Hm]|]. by intros h' s' r [_ Hr].
Qed.
Lemma mwp_true {E S A} (R : rely E) (G : guarantee E) (m : M E S A) s h Q :
  mwp R G m s h Q → mwp R G m s h (λ _ _ _, True).
Proof. intros Hm. by eapply mwp_mono. Qed.

(** The methods keep to the discipline. *)
Lemma wal_step_allowed publisher create h expected next before after :
  journal_before h before → encodeRootRecoveryRecord after.1 after.2 = Ok next → wal_step before after →
  wal_discipline publisher create h _ (Share (Recovery_CompareAndSwap expected next)).
Proof. intros ???. by exists before, after. Qed.

Section Disciplined.
Context `{NetLibrary} `{AEAD} {S : Type} (publisher : RootPublisher) (Hraw : raw_store publisher).

Lemma publish_disciplined create rounds closure allow h :
  RecoveryEnabled publisher = true → (allow = true → create = true) →
  bounded (S:=S) any_rely (wal_discipline publisher create) (publish publisher rounds closure allow) h
    (Z.to_nat (rt_maxAttempts publisher)) (λ h' r, ∀ pub, r = Some pub → published publisher h' closure pub).
Proof.
  intros Hrec Hc. destruct Hraw as (n & a & Hst).
  by eapply (publish_bounded _ _ _ (wal_reads_free _ _)); eauto using wal_step_allowed; try done; split.
Qed.

Lemma recover_disciplined h :
  0 ≤ rt_maxAttempts publisher →
  bounded (S:=S) any_rely (wal_discipline publisher true) (RecoverPending publisher) h
    (Z.to_nat (rt_maxAttempts publisher)) (λ _ r, r ≠ None).
Proof.
  intros Hmax. destruct Hraw as (n & a & Hst).
  by eapply (RecoverPending_bounded _ _ _ (wal_reads_free _ _)); eauto using wal_step_allowed; try done; split.
Qed.

Lemma prepare_disciplined h :
  bounded (S:=S) any_rely (wal_discipline publisher true) (PrepareRecovery publisher) h 0 (λ _ _, True).
Proof.
  by eapply (PrepareRecovery_bounded _ _ _ (wal_reads_free _ _)); eauto using wal_step_allowed.
Qed.
End Disciplined.

(** C11: write-ahead.  Whatever the store, the journal and the clock answer, and
    after any history (crashes and other publishers included), a publisher with
    a recovery journal writes the root only as the pending operation of the
    record that the journal was last seen to hold: exactly its target bytes,
    under exactly its precondition. *)
Theorem root_writes_journaled `{NetLibrary} `{AEAD} {S} (publisher : RootPublisher) (rounds : nat)
    (closure : SnapshotClosure) (allowCreate : bool) (s : S) (h : history eff) :
  raw_store publisher → RecoveryEnabled publisher = true → 0 ≤ rt_maxAttempts publisher →
  mwp any_rely (writes_ahead publisher) (publish publisher rounds closure allowCreate) s h (λ _ _ _, True) ∧
  mwp any_rely (writes_ahead publisher) (RecoverPending publisher) s h (λ _ _ _, True).
Proof.
  intros Hraw Hrec Hmax. split; eapply mwp_true, bounded_mwp; try apply (wal_writes_ahead _ true).
  - by apply publish_disciplined.
  - by apply recover_disciplined.
Qed.

(** C12: the journal implements the abstract log.  Every swap that publishing,
    recovering or preparing makes replaces the state that the journal was last
    seen to hold (or an absent one) by the encoding of a successor of it: a
    prepared record, the operation after the anchor, the same target with a
    renewed precondition, or an anchor that is not older and settles what was
    pending. *)
Theorem journal_refines_log `{NetLibrary} `{AEAD} {S} (publisher : RootPublisher) (rounds : nat)
    (closure : SnapshotClosure) (allowCreate : bool) (s : S) (h : history eff) :
  raw_store publisher → RecoveryEnabled publisher = true → 0 ≤ rt_maxAttempts publisher →
  mwp any_rely journal_steps (publish publisher rounds closure allowCreate) s h (λ _ _ _, True) ∧
  mwp any_rely journal_steps (RecoverPending publisher) s h (λ _ _ _, True) ∧
  mwp any_rely journal_steps (PrepareRecovery publisher) s h (λ _ _ _, True).
Proof.
  intros Hraw Hrec Hmax. split_and!; eapply mwp_true, bounded_mwp; try apply (wal_journal_steps publisher true).
  - by apply publish_disciplined.
  - by apply recover_disciplined.
  - by apply prepare_disciplined.
Qed.

(** A root that shares exactly a closure: its reference, under its key and with
    its version, and a capability for every object key and, when no key is
    listed twice, for nothing else. *)
Record holds_closure (bundle : Bundle) (closure : SnapshotClosure) : Prop := {
  hc_generation : bd_referenceGeneration bundle = sn_Generation (sc_Snapshot closure);
  hc_commit : bd_referenceCommit bundle = sn_Commit (sc_Snapshot closure);
  hc_key : bd_referenceKey bundle = sc_ReferenceKey closure;
  hc_reference : bd_reference bundle
    = {| ob_Data := sc_ReferenceData closure; ob_Version := sc_ReferenceVersion closure |};
  hc_granted : ∀ key, key ∈ sc_ObjectKeys closure → is_Some (bd_capabilities bundle !! key);
  hc_only : NoDup (sc_ObjectKeys closure) →
    ∀ key, is_Some (bd_capabilities bundle !! key) → key ∈ sc_ObjectKeys closure;
}.

(** As many keys as there are in the map, all in the map, are its domain. *)
Lemma keys_are_domain {A} (m : gmap bytes A) (keys : list bytes) :
  NoDup keys → size m = length keys → (∀ key, key ∈ keys → is_Some (m !! key)) →
  ∀ key, is_Some (m !! key) → key ∈ keys.
Proof.
  intros Hnd Hsz Hin key Hk.
  assert (list_to_set keys =@{gset bytes} dom m) as E.
  { apply set_subseteq_size_eq.
    - intros k Hk'. apply elem_of_dom, Hin. by apply elem_of_list_to_set in Hk'.
    - rewrite size_dom, size_list_to_set by done. lia. }
  apply (elem_of_list_to_set (C:=gset bytes)). rewrite E. by apply elem_of_dom.
Qed.

Lemma matches_closure bundle closure :
  rootBundleExactlyMatchesClosure bundle closure = true → holds_closure bundle closure.
Proof.
  unfold rootBundleExactlyMatchesClosure. intros [Hm Hall]%andb_true_iff. apply negb_true_iff in Hm. bool_prop.
  rewrite forallb_forall in Hall.
  assert (∀ key, key ∈ sc_ObjectKeys closure → is_Some (bd_capabilities bundle !! key)) as Hin.
  { intros key Hk%list_elem_of_In%Hall. by bool_prop. }
  constructor; try done.
  - destruct (bd_reference bundle); simpl in *; congruence.
  - intros Hnd. apply keys_are_domain; [done| |done]. unfold len in *. lia.
Qed.

(** What a successful publication says: in the history there is a root that
    decodes and authenticates for this publisher and shares exactly the closure;
    it was read from the store, or its write was acknowledged, with the reported
    version. *)
Definition published_closure `{NetLibrary} `{AEAD} (publisher : RootPublisher) (h : history eff)
    (closure : SnapshotClosure) (pub : RootPublication) : Prop :=
  ∃ target bundle digest, target_bundle publisher h target bundle digest ∧ holds_closure bundle closure ∧
    rpn_Revision pub = bd_revision bundle ∧ rpn_Snapshot pub = sc_Snapshot closure ∧
    ((∃ options, Ev (Store_Get (rt_rootKey publisher) options)
        (Ok {| ob_Data := target; ob_Version := rpn_Version pub |}) ∈ h) ∨
     wrote_root publisher h target (rpn_Version pub)).

(** C13: a publication through the journal is the closure.  When publish returns,
    a root that authenticates under the publisher's trust root and has the
    reported revision was read from the store, or its write was acknowledged,
    with the reported version; it holds the reference bytes of the closure under
    its key, version, generation and commit, and a capability for every object
    key of the closure and (its keys being distinct) for no other; and publish
    made at most [maxAttempts] writes. *)
Theorem publish_exact `{NetLibrary} `{AEAD} {S} (publisher : RootPublisher) (rounds : nat)
    (closure : SnapshotClosure) (allowCreate : bool) (s : S) (h : history eff) :
  raw_store publisher → RecoveryEnabled publisher = true →
  mwp any_rely any_call (publish publisher rounds closure allowCreate) s h (λ h' _ r,
    (root_writes h' ≤ root_writes h + Z.to_nat (rt_maxAttempts publisher))%nat ∧
    ∀ pub, r = Ok (Some pub) → published_closure publisher h' closure pub).
Proof.
  intros Hraw Hrec. eapply mwp_mono.
  - eapply (bounded_mwp publisher true _ _ _ _ _ any_call); [done|]. by apply publish_disciplined.
  - intros h' s' r [Hw Hr]. split; [done|]. intros pub ->.
    destruct (Hr (Some pub) eq_refl pub eq_refl) as (t & b & d & Ht & Hm & Hrest).
    exists t, b, d. split; [done|]. split; [by apply matches_closure|done].
Qed.

(** C20: recovery ends.  RecoverPending always returns a result or an error: its
    loop never runs longer than one round per allowed write and one more, and
    it writes the root at most [maxAttempts] times, whatever the store answers. *)
Theorem RecoverPending_terminates `{NetLibrary} `{AEAD} {S} (publisher : RootPublisher) (s : S) (h : history eff) :
  raw_store publisher → 0 ≤ rt_maxAttempts publisher →
  mwp any_rely any_call (RecoverPending publisher) s h (λ h' _ r,
    (root_writes h' ≤ root_writes h + Z.to_nat (rt_maxAttempts publisher))%nat ∧ r ≠ Ok None).
Proof.
  intros Hraw Hmax. eapply mwp_mono.
  - eapply (bounded_mwp publisher true _ _ _ _ _ any_call); [done|]. by apply recover_disciplined.
  - intros h' s' r [Hw Hr]. split; [done|]. intros ->. by eapply Hr.
Qed.

(** ** Update *)

Section Plain.
Context `{NetLibrary} `{AEAD} {S : Type} (publisher : RootPublisher) (R : rely eff).
Local Abbreviation acts m h := (acting (S:=S) no_creation R m h (λ _ _, True)).

Lemma no_creation_reads_free : reads_free no_creation.
Proof. intros h X e He. by destruct e. Qed.

Lemma acts_bind {A B} (m : M eff S A) (f : A → M eff S B) h :
  acts m h → (∀ h' a, acts (f a) h') → acts (mbind m f) h.
Proof. intros Hm Hf. do_step. eapply doing_mono; [exact Hm|]. by intros h' [a|e] _ _. Qed.
Lemma acts_ctx h : acts checkCtx h.
Proof. apply doing_ctx; [apply no_creation_reads_free|done]. Qed.
Lemma acts_wrap {A} f (m : M eff S A) h : acts m h → acts (mwrap f m) h.
Proof. intros Hm. do_step. eapply doing_mono; [exact Hm|done]. Qed.
Lemma acts_try {A} (m : M eff S A) h : acts m h → acts (mtry m) h.
Proof. intros Hm. do_step. eapply doing_mono; [exact Hm|done]. Qed.

(** One step through a method without conditions on its results. *)
Ltac ac :=
  simpl; lazymatch goal with
  | |- acting _ _ (mbind _ _) _ _ => apply acts_bind; [|intros ? ?]
  | |- acting _ _ (mwrap _ _) _ _ => apply acts_wrap
  | |- acting _ _ (mtry _) _ _ => apply acts_try
  | |- acting _ _ checkCtx _ _ => apply acts_ctx
  | |- acting _ _ (mguard _ _) _ _ => by apply doing_guard
  | |- acting _ _ (mlift _) _ _ => by apply doing_lift
  | |- acting _ _ (mret _) _ _ => by apply doing_ret
  | |- acting _ _ (mfail _) _ _ => by apply doing_fail
  end.

Lemma acts_auth c h : acts (checkAuthorization c) h.
Proof.
  unfold checkAuthorization. ac; [|ac].
  eapply doing_reading; [apply (reading_time _ _ (λ _, True)); [apply no_creation_reads_free|done]|done].
Qed.

(** A conditional replacement through the layers of a store. *)
Lemma sv_CompareAndSwap_acts v key expected data h : acts (sv_CompareAndSwap v key expected data) h.
Proof.
  assert (∀ p data h, acts (sealForWrite p key data) h) as Hseal.
  { intros p d h'. unfold sealForWrite, SealObject. ac; [ac|]. ac; [|ac; ac].
    ac; [ac|]. ac; [by apply doing_callr|]. ac; [ac|]. ac; [by apply doing_callr|]. ac. }
  revert data h. induction v as [t a|p v IH|p v IH]; intros data h; simpl; [by apply doing_callr|..];
    (ac; [apply Hseal|apply IH]).
Qed.

Lemma store_acts h : acts (publisherStore publisher) h.
Proof. unfold publisherStore. case_match; ac. Qed.

Lemma load_acts h : acts (load publisher) h.
Proof.
  unfold load. ac; [apply store_acts|]. ac.
  { ac. eapply doing_reading; [apply (sv_Get_reading _ _ no_creation_reads_free)|done]. }
  destruct a0 as [object|e]; [|case_match; ac]. ac; [ac|]. ac; [|ac].
  eapply doing_mono; [apply Decode_acting, no_creation_reads_free|done].
Qed.

Lemma install_acts closure current amb h :
  acts (install publisher closure (Some current) amb) h.
Proof.
  unfold install. destruct current as [object bundle]. ac.
  { eapply doing_mono; [apply BuildSnapshotBundle_acting; [apply no_creation_reads_free|done]|done]. }
  ac; [ac|]. ac; [apply acts_auth|]. ac.
  { ac. unfold writeRoot. ac; [apply store_acts|]. ac; [apply sv_CompareAndSwap_acts|]. ac; ac. }
  case_match; [ac|]. case_match; [ac|]. ac; [ac; apply load_acts|].
  repeat case_match; ac.
Qed.

Lemma publishLoop_acts attempts closure amb h : acts (publishLoop publisher attempts closure false amb) h.
Proof.
  revert amb h. induction attempts as [|attempts IH]; intros amb h; [unfold publishLoop, exhausted; ac|].
  cbn [publishLoop]. ac; [unfold unlessAmbiguous; do 2 ac|].
  ac; [unfold unlessAmbiguous; ac; apply load_acts|]. destruct a0 as [[object bundle]|]; simpl.
  - ac; [ac|]. ac; [case_match; [ac|]; ac; ac|]. destruct a1 as [result|]; [ac|]. ac; [apply install_acts|].
    destruct a1; [ac|apply IH].
  - do_step. do_step; [done|]. discriminate.
Qed.

Lemma plain_publish_acts rounds closure h :
  RecoveryEnabled publisher = false → acts (publish publisher rounds closure false) h.
Proof.
  intros Hrec. unfold publish, gated. rewrite Hrec. do 3 (ac; [first [ac|apply acts_auth]|]). do 2 (ac; [ac|]).
  ac; [by apply doing_calle|]. ac.
  { ac. ac; [ac|]. ac; [apply acts_auth|]. ac; [apply publishLoop_acts|ac]. }
  ac; [by apply doing_call|]. ac.
Qed.
End Plain.

(** C21: an update never creates.  A publisher whose root disappeared from the
    store does not silently recreate it: Update makes no PutIfAbsent, whatever
    the store and the journal answer, for a publisher without a recovery journal
    over any store, client-encrypted or not, and for a publisher with a journal
    (which encrypts the root itself) over a store that is not one of the
    package's encrypting wrappers. *)
Theorem Update_never_creates `{NetLibrary} `{AEAD} {S} (publisher : RootPublisher) (rounds : nat)
    (closure : SnapshotClosure) (s : S) (h : history eff) :
  (RecoveryEnabled publisher = true → raw_store publisher) →
  mwp any_rely no_creation (Update publisher rounds closure) s h (λ _ _ _, True).
Proof.
  intros Hraw. unfold Update. destruct (RecoveryEnabled publisher) eqn:Hrec.
  - eapply mwp_true, (bounded_mwp publisher false); [apply wal_no_creation|]. apply publish_disciplined; auto.
  - eapply mwp_true. by eapply plain_publish_acts.
Qed.

(** ** Restoring *)

(** What a digest of the journal hashes. *)
Definition recoveryMessage (kind : string) (value : bytes) : bytes :=
  rootRecoveryDomain ++ rootRecoveryWritePart (str kind) ++ rootRecoveryWritePart value.

Lemma rootRecoveryDigest_inj kind x y :
  (Z.to_N (len x) < 2 ^ 64)%N → (Z.to_N (len y) < 2 ^ 64)%N →
  rootRecoveryDigest kind x = rootRecoveryDigest kind y →
  x = y ∨ collide (recoveryMessage kind x) (recoveryMessage kind y).
Proof.
  intros Hx Hy E. unfold rootRecoveryDigest in E.
  destruct (decide (rootRecoveryWritePart x = rootRecoveryWritePart y)) as [Ep|Hne].
  - left. unfold rootRecoveryWritePart in Ep. by apply BigEndian_Append_inj in Ep as [_ ?].
  - right. split; [|exact E]. intros E'. apply Hne.
    apply app_inj_1 in E' as [_ E']; [|done]. by apply app_inj_1 in E' as [_ E'].
Qed.

(** Restoring writes nothing. *)
Definition no_effects : guarantee eff := λ h X e,
  match e with
  | Store_PutIfAbsent _ _ | Store_CompareAndSwap _ _ _ => False
  | Share (Recovery_CompareAndSwap _ _) | Share (Presign_Get _) => False
  | _ => True
  end.

(** What the journal says of the root capability of a publisher. *)
Record bound_to (publisher : RootPublisher) (record : rootRecoveryRecord) : Prop := {
  bo_bearer : ∃ bearer, ExportBearer (rt_rootCapability publisher) = Ok bearer ∧
    rr_RootCapabilityDigest record = rootRecoveryDigest "root-capability" bearer;
  bo_repository : ∃ v, the (rt_verifier publisher) = Some v ∧
    rr_RepositoryID record = rv_RepositoryID (vv_verifier v);
  bo_share : rr_ShareID record = rt_shareID publisher;
  bo_key : rr_RootKey record = rt_rootKey publisher;
  bo_reference : rr_ReferenceKey record = rt_referenceKey publisher;
  bo_prefix : rr_RepositoryPrefix record = rt_repositoryPrefix publisher;
  bo_expiry : tm_ns (rr_AuthorizationExpiresAt record) = cap_expiresAt (rt_rootCapability publisher);
  bo_unsigned : rr_AllowUnsignedReference record = rt_dangerouslyAllowUnsignedReference publisher;
}.

Lemma record_ok_bound `{NetLibrary} `{AEAD} publisher h l v :
  the (rt_verifier publisher) = Some v → record_ok publisher h l → bound_to publisher l.1.
Proof.
  intros Hv [(d & Hd & Hid) _ _]. unfold rootCapabilityRecoveryDigest in Hd. ok_inv.
  unfold identityMismatch, verifierRepositoryID in Hid. rewrite Hv in Hid. bool_prop.
  constructor; try congruence; [|by exists v]. exists v0. split; [done|congruence].
Qed.

(** What the constructor establishes. *)
Record constructed (config : RootPublisherConfig) (imported : bool) (publisher : RootPublisher) : Prop := {
  ct_verifier : is_Some (the (rt_verifier publisher)) ∧ rt_verifier publisher = rc_Verifier config;
  ct_root : rt_rootCapability publisher = rc_RootCapability config ∧ rt_rootKey publisher = rc_RootKey config;
  ct_exact : cap_exactKey (rt_rootCapability publisher) = rt_rootKey publisher ∧
    Capability_Configured (rt_rootCapability publisher) = true;
  ct_provenance : validRootProvenance imported (rt_rootCapability publisher) = true;
  ct_journal : rt_recoveryJournal publisher = rc_RecoveryJournal config;
  ct_attempts : 1 ≤ rt_maxAttempts publisher ≤ MaximumRootPublishAttempts;
  ct_signed : (∃ channel, channelFromReferenceRemainder (TrimPrefix (rt_referenceKey publisher)
      (repositoryObjectNamespace (rt_repositoryPrefix publisher))) = Ok (channel, true)) ∨
    rc_DangerouslyAllowUnsignedReference config = true;
  ct_separate : let relative := TrimPrefix (rt_rootKey publisher)
      (repositoryObjectNamespace (rt_repositoryPrefix publisher)) in
    relative = rt_rootKey publisher ∨
    (validReferenceRemainder relative = false ∧ validImmutableRemainder relative = false);
  ct_configured : RootPublisher_configured publisher = true;
  ct_raw : rc_ClientEncryption config ≠ None → RecoveryEnabled publisher = true →
    ∃ store, the (rt_store publisher) = Some store ∧ advertisesEncryption store = false;
}.

Section Construction.
Context `{NetLibrary} `{AEAD} {S : Type} (R : rely eff) (G : guarantee eff) (HG : reads_free G).

Lemma reading_auth c (P : result unit → Prop) :
  P (Ok tt) → (∀ e, P (Err e)) → reading (S:=S) G R (checkAuthorization c) P.
Proof.
  intros H1 H2. unfold checkAuthorization. apply reading_bind.
  eapply (reading_mono _ _ _ (λ r, is_ok r = true)); [by apply reading_time|]. intros [now|e] He; [|done]. by rd_step.
Qed.

Lemma newRootPublisher_reading config imported :
  reading (S:=S) G R (newRootPublisher config imported) (λ r, ∀ p, r = Ok p → constructed config imported p).
Proof.
  unfold newRootPublisher. destruct (the (rc_Store config)) as [store|]; [|by rd_step].
  rd_step. rd_step; [done|]. destruct (rc_Verifier config) as [| |verifier] eqn:Hver; try (simpl; by rd_step).
  simpl. do 3 (rd_step; rd_step; [done|]). do 2 rd_step.
  destruct (rootStore config store _) as [store'|] eqn:Hst; [|done]. simpl. do 2 rd_step.
  destruct (match the (rc_Signer config) with Some signer => validateKeyID (sg_KeyID signer) | None => Ok tt end) as [[]|]; [|done]. simpl.
  do 2 rd_step. destruct (validateBundleBindings _ _ _ _ _) as [prefix|] eqn:Hb; [|done]. simpl.
  do 3 rd_step. destruct (channelFromReferenceRemainder _) as [[channel signed]|] eqn:Hch; [|done]. simpl.
  do 3 (rd_step; rd_step; [done|]). rd_step.
  apply (reading_mono _ _ _ (λ _, True)).
  { destruct (interfaceDependencyConfigured (rc_Presigner config)); [|by rd_step]. rd_step. eapply (reading_mono _ _ _ (λ _, True)); [by apply reading_answer|].
    intros [[expiresAt known]|e] _; [by rd_step|done]. }
  intros [[]|e] _; [|done]. rd_step. apply reading_auth; [|done]. rd_step. rd_step; [done|]. rd_step.
  intros p [= <-]. bool_prop.
  constructor; cbn [rt_verifier rt_rootCapability rt_rootKey rt_recoveryJournal rt_maxAttempts rt_referenceKey
    rt_repositoryPrefix rt_store the]; try done.
  - destruct signed; [left; by exists channel|right].
    by destruct (rc_DangerouslyAllowUnsignedReference config).
  - match goal with Hs : _ && _ = false |- _ => apply andb_false_iff in Hs as [Hs|Hs]; bool_prop; [by left|right; by split] end.
  - unfold RootPublisher_configured, CanBuildNewRoot, RecoveryEnabled. simpl.
    destruct (Capability_Configured _), (interfaceDependencyConfigured (rc_RecoveryJournal config)),
      (interfaceDependencyConfigured (rc_Presigner config)), (interfaceDependencyConfigured (rc_Signer config)); done.
  - unfold RecoveryEnabled. simpl. intros Hc Hr. exists store'. split; [done|]. unfold rootStore in Hst.
    destruct (rc_ClientEncryption config); [|done]. rewrite Hr in Hst. ok_inv. by subst.
Qed.
End Construction.

(** The constructor accepts only a safe root.  A new publisher has a root
    capability that was minted for exactly the root key by an exact-GET presigner,
    a root key that is no reference or object of the repository, a signed channel
    unless the unsigned one was asked for, between one and a hundred attempts,
    everything its methods need, and, with client encryption and a journal, a
    store without an encryption wrapper. *)
Theorem NewRootPublisher_constructed `{NetLibrary} `{AEAD} {S} (config : RootPublisherConfig) (s : S) (h : history eff) :
  mwp any_rely any_call (NewRootPublisher config) s h (λ _ _ r, ∀ publisher, r = Ok publisher →
    constructed config false publisher ∧
    cap_provenance (rt_rootCapability publisher) = capabilityProvenanceExactGET).
Proof.
  eapply mwp_mono; [apply newRootPublisher_reading; done|]. intros h' s' r (_ & _ & Hr) p ->.
  specialize (Hr p eq_refl). split; [done|]. destruct Hr. unfold validRootProvenance in *. simpl in *.
  rewrite orb_false_r in ct_provenance0. by bool_prop.
Qed.

Lemma no_effects_reads_free : reads_free no_effects.
Proof. intros h X e He. destruct e; try done. by destruct op. Qed.

Lemma ExportBearer_length c b : ExportBearer c = Ok b → (Z.to_N (len b) < 2 ^ 64)%N.
Proof.
  unfold ExportBearer, exportBearer. intros E. ok_inv. bool_prop. subst b.
  unfold MaximumBearerExportBytes in *. change (Z.shiftl 128 10) with 131072 in *. lia.
Qed.

Lemma RestoreRootPublisher_acting `{NetLibrary} `{AEAD} {S} config :
  acting (S:=S) no_effects any_rely (RestoreRootPublisher config) [] (λ h' r, ∀ publisher, r = Ok publisher →
    ∃ candidate encoded record target,
      publisher = promote candidate ∧ rt_rootCapability candidate = rc_RootCapability config ∧
      cap_provenance (rc_RootCapability config) = capabilityProvenanceImportedBearer ∧
      last_journal h' = Some encoded ∧ decodeRootRecoveryRecord encoded = Ok (record, target) ∧
      bound_to candidate record).
Proof.
  unfold RestoreRootPublisher. do_step. apply doing_ctx; [apply no_effects_reads_free|]. intros [x|]; [done|].
  do_step. do_step; [done|]. do_step. do_step; [done|]. do_step. do_step; [done|]. do_step.
  eapply doing_reading; [apply newRootPublisher_reading, no_effects_reads_free|].
  intros h1 [p|e] _ Hp; [|done]. specialize (Hp p eq_refl). do_step.
  eapply doing_mono; [apply (loadRootRecovery_full p _ _ no_effects_reads_free); done|].
  intros h2 [loaded|e] _ [_ Hl]; [|done]. destruct (Hl loaded eq_refl) as (Hs & _ & Hfound).
  do_step. do_step; [done|]. bool_prop. destruct (Hfound H4) as (encoded & Hj & Hd).
  do_step. eapply doing_mono; [apply (checkAuthorized_journaling p _ _ no_effects_reads_free)|].
  intros h3 [[]|e] _ [_ Hq]; [|done]. destruct (Hq tt eq_refl) as (_ & Hj3 & _).
  do_step. intros publisher [= <-]. exists p, encoded, (lr_record loaded), (lr_target loaded).
  destruct Hp as [[[v Hv] _] [Hroot _] _ _ _ _ _ _ _ _].
  split_and!; try done; [congruence|]. destruct Hs as [Hok _]. by eapply (record_ok_bound p h2 (_, _)).
Qed.

(** C19: restoring is bound to the journal.  RestoreRootPublisher writes nothing
    and presigns nothing; the publisher it returns has the imported bearer
    promoted to exact-GET provenance only when a record loaded from the journal
    names this repository, share, root key, channel, expiry and policy and the
    digest of exactly this bearer: a record prepared for another bearer is
    accepted only if the two bearers collide under SHA-256. *)
Theorem RestoreRootPublisher_bound `{NetLibrary} `{AEAD} {S} (config : RootPublisherConfig) (s : S) :
  mwp any_rely no_effects (RestoreRootPublisher config) s [] (λ h' _ r, ∀ publisher, r = Ok publisher →
    ∃ candidate encoded record target,
      publisher = promote candidate ∧ rt_rootCapability candidate = rc_RootCapability config ∧
      cap_provenance (rc_RootCapability config) = capabilityProvenanceImportedBearer ∧
      last_journal h' = Some encoded ∧ decodeRootRecoveryRecord encoded = Ok (record, target) ∧
      bound_to candidate record ∧
      ∀ bearer, (Z.to_N (len bearer) < 2 ^ 64)%N →
        rr_RootCapabilityDigest record = rootRecoveryDigest "root-capability" bearer →
        ∃ own, ExportBearer (rc_RootCapability config) = Ok own ∧
          (own = bearer ∨ collide (recoveryMessage "root-capability" own) (recoveryMessage "root-capability" bearer))).
Proof.
  eapply mwp_mono; [apply RestoreRootPublisher_acting|]. intros h' s' r [_ Hr] p Hp.
  destruct (Hr p Hp) as (c & enc & rec & t & E1 & E2 & E3 & E4 & E5 & Hb).
  exists c, enc, rec, t. split_and!; try done. intros bearer Hl Hd. destruct Hb. destruct bo_bearer0 as (b & Hexp & Hdb).
  rewrite E2 in Hexp. rewrite Hdb in Hd. pose proof (ExportBearer_length _ _ Hexp) as Hlb.
  exists b. split; [done|]. by apply rootRecoveryDigest_inj.
Qed.

(** ** The journal's bytes *)

Lemma strictDecode_print {T} `{JSONLaws T} (v : T) : json_valid v → strictDecode (canonicalJSON v) = Some v.
Proof.
  intros Hv. unfold strictDecode.
  assert (parse (canonicalJSON v) = Some (to_json v)) as -> by (with_strategy transparent [canonicalJSON] unfold canonicalJSON; apply parse_print; by apply json_valid_wf).
  cbv beta iota delta [base.mbind option_bind]. rewrite of_to_json by done. by rewrite bool_decide_true.
Qed.

Lemma rootRecoveryFrame_fields metadata target :
  len metadata < 2 ^ 32 → len target < 2 ^ 64 →
  let data := rootRecoveryFrame metadata target in
  len data = 24 + len metadata + len target ∧
  sub data 0 8 = rootRecoveryMagic ∧ uint_at data 8 2 = 1 ∧ uint_at data 10 2 = 0 ∧
  uint_at data 12 4 = len metadata ∧ uint_at data 16 8 = len target ∧
  sub data 24 (24 + len metadata) = metadata ∧ drop (Z.to_nat (24 + len metadata)) data = target.
Proof.
  intros Hm Ht data. pose proof (len_nonneg metadata). pose proof (len_nonneg target).
  assert (len rootRecoveryMagic = 8) as L1 by done.
  assert (∀ k, len (BigEndian_PutUint16 k) = 2) as L2 by done.
  assert (∀ k, len (be32 k) = 4) as L3 by done.
  assert (∀ k, len (BigEndian_AppendUint64 [] k) = 8) as L4 by done.
  unfold data, rootRecoveryFrame. split_and!.
  - rewrite !len_app, !L1, !L2, !L3, !L4. lia.
  - by apply sub_head.
  - rewrite uint_at_skip, L1 by (rewrite L1; lia). rewrite uint_at_head by done. by rewrite BigEndian_Uint16_Put.
  - do 2 (rewrite uint_at_skip by (rewrite ?L1, ?L2; lia); rewrite ?L1, ?L2; simpl Z.sub).
    rewrite uint_at_head by done. by rewrite BigEndian_Uint16_Put.
  - do 3 (rewrite uint_at_skip by (rewrite ?L1, ?L2; lia); rewrite ?L1, ?L2; simpl Z.sub).
    rewrite uint_at_head by done. rewrite BigEndian_Uint32_Put; lia.
  - do 4 (rewrite uint_at_skip by (rewrite ?L1, ?L2, ?L3; lia); rewrite ?L1, ?L2, ?L3; simpl Z.sub).
    rewrite uint_at_head by done. rewrite BigEndian_Uint64_Append; lia.
  - do 5 (rewrite sub_skip by (rewrite ?L1, ?L2, ?L3, ?L4; lia); rewrite ?L1, ?L2, ?L3, ?L4; simpl Z.sub).
    apply sub_head. lia.
  - rewrite !(assoc_L (++)). apply drop_app_length'. apply Nat2Z.inj. rewrite Z2Nat.id by lia.
    change (Z.of_nat (length ?x)) with (len x). rewrite !len_app, !L1, !L2, !L3, !L4. lia.
Qed.

Lemma object_length {T} `{JSON T} (v : T) fs : to_json v = JObj fs → 2 ≤ len (canonicalJSON v).
Proof.
  intros E. with_strategy transparent [canonicalJSON] unfold canonicalJSON. rewrite E. cbn [print]. change (len (x7b :: ?l)) with (len ([x7b] ++ l)). rewrite !len_app. change (len [_]) with 1.
  pose proof (len_nonneg (Join [x2c] (map (λ kv : bytes * json, match kv with (k, v0) => quote k ++ x3a :: print v0 end) fs))). lia.
Qed.

(** C22: the journal round trip.  What saveRootRecovery writes, a later load
    reads back exactly, record and target, for every record whose fields have
    a JSON form, with and without a pending target. *)
Theorem rootRecoveryRecord_roundtrip (record : rootRecoveryRecord) (target encoded : bytes) :
  json_valid record → encodeRootRecoveryRecord record target = Ok encoded →
  decodeRootRecoveryRecord encoded = Ok (record, target).
Proof.
  intros Hv E. unfold encodeRootRecoveryRecord in E. ok_inv. subst encoded.
  assert (len target ≤ maximumRootStoredTargetBytes) as Ht.
  { unfold validTarget in *. destruct (rr_Pending record); bool_prop; [done|].
    change maximumRootStoredTargetBytes with 67108916. lia. }
  bool_prop.
  assert (2 ≤ len (canonicalJSON record)) as Htwo by (by eapply object_length).
  change maximumRootRecoveryMetadataBytes with 131072 in *.
  change maximumRootStoredTargetBytes with 67108916 in *.
  destruct (rootRecoveryFrame_fields (canonicalJSON record) target) as (E1 & E2 & E3 & E4 & E5 & E6 & E7 & E8); [lia..|].
  pose proof (len_nonneg target). unfold decodeRootRecoveryRecord.
  change rootRecoveryMagicBytes with 8. change rootRecoveryVersionOffset with 8. change rootRecoveryReservedOffset with 10.
  change rootRecoveryMetadataLengthOffset with 12. change rootRecoveryTargetLengthOffset with 16.
  change rootRecoveryHeaderBytes with 24. change MaximumRootRecoveryJournalBytes with 67240012.
  change rootRecoveryFormatVersion with 1 in *.
  rewrite E1, E2, E3, E4, E5, E6, E7, E8, strictDecode_print, Z.mod_small by (done || lia).
  rewrite !bool_decide_true by (done || lia).
  change maximumRootRecoveryMetadataBytes with 131072. change maximumRootStoredTargetBytes with 67108916.
  repeat match goal with |- context [Z.ltb ?a ?b] => destruct (Z.ltb_spec a b); [lia|] end.
  by replace (validTarget record target) with true.
Qed.

(** ** A journal that stores nothing *)

(** The environment of a publisher whose context and authorization are live and
    whose journal is absent and fails every swap. *)
Definition failing_journal (publisher : RootPublisher) : rely eff := λ _ X e x,
  match e in eff T return T → Prop with
  | CtxErr => λ x, x = None
  | Source op =>
      match op in src_eff T return T → Prop with
      | Time_Now => λ now, now < cap_expiresAt (rt_rootCapability publisher)
      | _ => λ _, True
      end
  | Share op =>
      match op in share_eff T return T → Prop with
      | Recovery_Load => λ x, x = Ok ([], Digest_zero, false)
      | Recovery_CompareAndSwap _ _ => λ x, ∃ err, x = (Digest_zero, Some err)
      | Root_Gate => λ x, x = None
      | _ => λ _, True
      end
  | _ => λ _, True
  end x.

Section FailingJournal.
Context `{NetLibrary} `{AEAD} {S : Type} (publisher : RootPublisher) (digest : Digest) (encoded : bytes).
Context (Hplain : rt_clientEncryption publisher = None).
Context (Hdigest : rootCapabilityRecoveryDigest (rt_rootCapability publisher) = Ok digest).
Let record := initialRecord publisher digest None.
Context (Hencoded : encodeRootRecoveryRecord record [] = Ok encoded).
Let absent := {| lr_record := record; lr_target := []; lr_revision := Digest_zero; lr_found := false |}.
Local Abbreviation returns m s h r := (mwp (failing_journal publisher) any_call m s h (λ _ s' r', s' = (s : S) ∧ r' = r)).

Lemma returns_bind {A B} (m : M eff S A) (f : A → M eff S B) s h a r :
  returns m s h (Ok a) → (∀ h', returns (f a) s h' r) → returns (mbind m f) s h r.
Proof. intros Hm Hf. apply mwp_bind. eapply mwp_mono; [exact Hm|]. intros h' s' r' [-> ->]. apply Hf. Qed.

Lemma returns_ctx s h : returns checkCtx s h (Ok tt).
Proof. apply mwp_checkCtx; [done|]. by intros x ->. Qed.
Lemma returns_auth s h : returns (checkAuthorization (rt_rootCapability publisher)) s h (Ok tt).
Proof.
  apply mwp_bind. apply mwp_call; [done|]. intros now Hnow. apply mwp_guard; [|done].
  intros E. bool_prop. simpl in Hnow. lia.
Qed.
Lemma returns_try {A} (m : M eff S A) s h r : returns m s h r → returns (mtry m) s h (Ok r).
Proof. intros Hm. apply mwp_try. eapply mwp_mono; [exact Hm|]. by intros h' s' r' [-> ->]. Qed.
Lemma returns_authorized s h : returns (checkAuthorized publisher) s h (Ok tt).
Proof. eapply returns_bind; [apply returns_ctx|]. intros h'. apply returns_auth. Qed.

Lemma returns_load s h : returns (loadRootRecovery publisher) s h (Ok absent).
Proof.
  eapply returns_bind; [apply mwp_wrap, mwp_callr; [done|]; intros r ->; split; reflexivity|]. intros h1. simpl.
  eapply (returns_bind _ _ _ _ tt); [by apply mwp_guard|]. intros h2.
  eapply (returns_bind _ _ _ _ record); [|done]. unfold newRootRecoveryRecord.
  eapply returns_bind; [apply mwp_lift; split; [done|exact Hdigest]|]. intros h3. by rewrite Hplain.
Qed.

Lemma returns_validate s h : returns (validateRootRecoveryRecord publisher record []) s h (Ok tt).
Proof.
  eapply returns_bind; [apply mwp_lift; split; [done|exact Hdigest]|]. intros h1.
  eapply (returns_bind _ _ _ _ tt).
  { apply mwp_guard; [|done]. intros E. exfalso. revert E. unfold identityMismatch. simpl.
    by rewrite !bool_decide_true by done. }
  intros h2. eapply (returns_bind _ _ _ _ tt); [|done]. apply mwp_lift. split; [done|].
  unfold validateWitness. by rewrite Hplain.
Qed.

Lemma returns_save s h : returns (saveRootRecovery publisher absent record []) s h (Ok absent).
Proof.
  eapply returns_bind; [apply returns_validate|]. intros h1.
  eapply returns_bind; [apply mwp_lift; split; [done|exact Hencoded]|]. intros h2. simpl.
  apply mwp_bind, mwp_call; [done|]. intros x [err ->].
  eapply returns_bind; [apply returns_try, returns_load|]. intros h3. unfold observesSwap. simpl.
  rewrite Hencoded. by rewrite bool_decide_true.
Qed.

Lemma returns_gated {A} (m : M eff S A) s h r :
  (∀ h, returns m s h r) → returns (gated publisher m) s h r.
Proof.
  intros Hm. eapply (returns_bind _ _ _ _ tt).
  { apply mwp_calle; [done|done|]. by intros e. }
  intros h1. eapply returns_bind.
  - apply returns_try. eapply returns_bind; [apply returns_ctx|]. intros h2.
    eapply returns_bind; [apply returns_auth|]. intros h3. apply Hm.
  - intros h2. eapply (returns_bind _ _ _ _ tt); [|done]. apply mwp_call; [done|]. by intros [] _.
Qed.
End FailingJournal.

(** C40: preparing without a journal write.  A publisher without client
    encryption whose journal is absent and fails every swap (a full disk, say,
    with a zero revision beside the error) still gets success from
    PrepareRecovery: the load after the failed swap finds nothing, is answered
    by a fresh record, and the fresh record has the bytes of the failed swap. *)
Theorem PrepareRecovery_unwritten `{NetLibrary} `{AEAD} {S} (publisher : RootPublisher) (digest : Digest)
    (encoded : bytes) (s : S) (h : history eff) :
  RootPublisher_configured publisher = true → RecoveryEnabled publisher = true →
  cap_provenance (rt_rootCapability publisher) = capabilityProvenanceExactGET →
  rt_clientEncryption publisher = None →
  rootCapabilityRecoveryDigest (rt_rootCapability publisher) = Ok digest →
  encodeRootRecoveryRecord (initialRecord publisher digest None) [] = Ok encoded →
  mwp (failing_journal publisher) any_call (PrepareRecovery publisher) s h (λ _ _ r, r = Ok tt).
Proof.
  intros Hconf Hrec Hprov Hplain Hdigest Henc.
  eapply (mwp_mono _ _ _ _ _ (λ _ s' r', s' = s ∧ r' = Ok tt)); [|by intros h' s' r []].
  unfold RootPublisher_configured in Hconf. bool_prop.
  unfold PrepareRecovery. eapply (returns_bind _ _ _ _ _ tt).
  { unfold requireRecovery. eapply returns_bind; [apply returns_ctx|]. intros h1.
    eapply (returns_bind _ _ _ _ _ tt); [apply mwp_guard; [|done]|].
    { rewrite Hprov, bool_decide_true by done. intros E.
      repeat match goal with Hx : ?b = true |- _ => lazymatch b with context [negb] => fail | _ => rewrite Hx in E; clear Hx end end.
      done. }
    intros h2. eapply (returns_bind _ _ _ _ _ tt); [by rewrite Hrec; apply mwp_guard|].
    intros h3. apply returns_auth. }
  intros h1. apply returns_gated. intros h2.
  eapply returns_bind; [by apply returns_load|]. intros h3.
  eapply returns_bind; [apply returns_authorized|]. intros h4. simpl.
  eapply returns_bind; [by eapply returns_try, returns_save|]. intros h5. apply returns_authorized.
Qed.

(** ** A root in the in-memory store *)

Definition toy_root_config : RootPublisherConfig :=
  {| rc_Store := Configured (SV_External false None); rc_RecoveryJournal := Configured tt;
     rc_ClientEncryption := None; rc_RootKey := str "share/root";
     rc_RootCapability := toy_capability (str "share/root"); rc_RepositoryPrefix := str "repo";
     rc_ReferenceKey := sc_ReferenceKey toy_shared; rc_ShareID := replicate 16 x07;
     rc_Presigner := Configured tt; rc_Signer := toy_share_signer; rc_Verifier := toy_share_verifier;
     rc_MaxPublishAttempts := 3; rc_DangerouslyAllowUnsignedReference := true;
     rc_DangerouslyAllowCustomReferenceVerifier := false |}.
Definition toy_root_publisher : RootPublisher :=
  {| rt_store := Configured (SV_External false None); rt_rootKey := str "share/root";
     rt_rootCapability := toy_capability (str "share/root"); rt_repositoryPrefix := str "repo";
     rt_referenceKey := sc_ReferenceKey toy_shared; rt_shareID := replicate 16 x07;
     rt_presigner := Configured tt; rt_signer := toy_share_signer; rt_verifier := toy_share_verifier;
     rt_clientEncryption := None; rt_maxAttempts := 3; rt_allowInsecureLoopback := false;
     rt_dangerouslyAllowCustomReferenceVerifier := false;
     rt_dangerouslyAllowUnsignedReference := true; rt_recoveryJournal := Configured tt; rt_gate := true |}.

Example toy_root_publisher_new :
  (run toy_sharer (NewRootPublisher toy_root_config tt) toy_empty).2.2 = Ok toy_root_publisher.
Proof. vm_compute. reflexivity. Qed.

(** Creating the root: revision 1, one write, an idle journal. *)
Example toy_creates :
  let '(w, (_, r)) := run toy_sharer (Create (H:=toy_net) (H0:=toy_aead) toy_root_publisher 5 toy_shared tt) toy_empty in
  (match r with Ok (Some first) => Some (rpn_Revision first, rpn_Updated first) | _ => None end, ms_serial w.1,
   match w.2 with
   | Some (encoded, _) => match decodeRootRecoveryRecord encoded with
                          | Ok (record, target) => Some (rr_HighestRevision record, rr_Pending record, target)
                          | Err _ => None
                          end
   | None => None
   end) = (Some (1%N, true), 1%N, Some (1%N, None, [])).
Proof. vm_compute. reflexivity. Qed.

Lemma toy_root_raw : raw_store toy_root_publisher.
Proof. by exists false, None. Qed.

Lemma root_writes_journaled_witness :
  mwp any_rely (writes_ahead toy_root_publisher)
    (publish (H:=toy_net) (H0:=toy_aead) toy_root_publisher 5 toy_shared true) tt [] (λ _ _ _, True) ∧
  mwp any_rely (writes_ahead toy_root_publisher)
    (RecoverPending (H:=toy_net) (H0:=toy_aead) toy_root_publisher) tt [] (λ _ _ _, True).
Proof. by apply (@root_writes_journaled toy_net toy_aead unit toy_root_publisher 5 toy_shared true tt []); [apply toy_root_raw|..]. Defined.

Lemma journal_refines_log_witness :
  mwp any_rely journal_steps (publish (H:=toy_net) (H0:=toy_aead) toy_root_publisher 5 toy_shared true) tt []
    (λ _ _ _, True) ∧
  mwp any_rely journal_steps (RecoverPending (H:=toy_net) (H0:=toy_aead) toy_root_publisher) tt [] (λ _ _ _, True) ∧
  mwp any_rely journal_steps (PrepareRecovery (H:=toy_net) (H0:=toy_aead) toy_root_publisher) tt [] (λ _ _ _, True).
Proof. by apply (@journal_refines_log toy_net toy_aead unit toy_root_publisher 5 toy_shared true tt []); [apply toy_root_raw|..]. Defined.

Lemma publish_exact_witness :
  mwp any_rely any_call (publish (H:=toy_net) (H0:=toy_aead) toy_root_publisher 5 toy_shared true) tt [] (λ h' _ r,
    (root_writes h' ≤ root_writes [] + Z.to_nat (rt_maxAttempts toy_root_publisher))%nat ∧
    ∀ pub, r = Ok (Some pub) → published_closure (H:=toy_net) (H0:=toy_aead) toy_root_publisher h' toy_shared pub).
Proof. by apply (@publish_exact toy_net toy_aead unit toy_root_publisher 5 toy_shared true tt []); [apply toy_root_raw|]. Defined.

Lemma RecoverPending_terminates_witness :
  mwp any_rely any_call (RecoverPending (H:=toy_net) (H0:=toy_aead) toy_root_publisher) tt [] (λ h' _ r,
    (root_writes h' ≤ root_writes [] + Z.to_nat (rt_maxAttempts toy_root_publisher))%nat ∧ r ≠ Ok None).
Proof. by apply (@RecoverPending_terminates toy_net toy_aead unit toy_root_publisher tt []); [apply toy_root_raw|]. Defined.

Lemma Update_never_creates_witness :
  mwp any_rely no_creation (Update (H:=toy_net) (H0:=toy_aead) toy_root_publisher 5 toy_shared) tt [] (λ _ _ _, True).
Proof. apply (@Update_never_creates toy_net toy_aead unit toy_root_publisher 5 toy_shared tt []). intros _. apply toy_root_raw. Defined.

Lemma NewRootPublisher_constructed_witness :
  mwp any_rely any_call (NewRootPublisher toy_root_config) tt [] (λ _ _ r, ∀ publisher, r = Ok publisher →
    constructed toy_root_config false publisher ∧
    cap_provenance (rt_rootCapability publisher) = capabilityProvenanceExactGET).
Proof. apply (@NewRootPublisher_constructed toy_net toy_aead unit toy_root_config tt []). Defined.

Lemma log_targets_unique_witness :
  let p := {| rg_TargetRevision := 1; rg_AllowCreate := true; rg_ExpectedAbsent := true; rg_ExpectedETag := [];
              rg_ExpectedVersionID := []; rg_BaseDigest := Digest_zero; rg_ClosureDigest := toy_revision 1;
              rg_TargetDigest := toy_revision 2; rg_LogicalTargetDigest := toy_revision 3;
              rg_ReferenceGeneration := 42; rg_ReferenceCommit := fixture_digest 160 |} in
  let l := (with_progress 1 None (Some p) (initialRecord toy_root_publisher (toy_revision 4) None), str "target") in
  log_ok l ∧ l.2 = l.2.
Proof.
  intros p l. assert (log_ok l) as Hok by (intros q; by intros [= <-]). split; [done|].
  by apply (log_targets_unique l l p p).
Defined.

Lemma rootRecoveryRecord_roundtrip_witness :
  ∃ encoded, encodeRootRecoveryRecord (initialRecord toy_root_publisher (toy_revision 4) None) [] = Ok encoded ∧
    decodeRootRecoveryRecord encoded = Ok (initialRecord toy_root_publisher (toy_revision 4) None, []).
Proof.
  eexists. split; [by vm_compute|].
  apply (rootRecoveryRecord_roundtrip _ _ _); [|by vm_compute].
  split_and!; try done; by vm_compute.
Defined.

Definition toy_bearer_digest : Digest := Eval vm_compute in
  match rootCapabilityRecoveryDigest (rt_rootCapability toy_root_publisher) with Ok d => d | Err _ => [] end.

(** The journal fails and PrepareRecovery succeeds. *)
Lemma PrepareRecovery_unwritten_witness :
  mwp (failing_journal toy_root_publisher) any_call
    (PrepareRecovery (H:=toy_net) (H0:=toy_aead) toy_root_publisher) tt [] (λ _ _ r, r = Ok tt).
Proof.
  destruct (encodeRootRecoveryRecord (initialRecord toy_root_publisher toy_bearer_digest None) []) as [encoded|e] eqn:E;
    [|by vm_compute in E].
  apply (@PrepareRecovery_unwritten toy_net toy_aead unit toy_root_publisher toy_bearer_digest encoded tt []); done.
Defined.

(** The configuration of another process, with the exported bearer. *)
Definition toy_restore_config : RootPublisherConfig :=
  {| rc_Store := rc_Store toy_root_config; rc_RecoveryJournal := rc_RecoveryJournal toy_root_config;
     rc_ClientEncryption := None; rc_RootKey := rc_RootKey toy_root_config;
     rc_RootCapability :=
       {| cap_rawURL := cap_rawURL (rc_RootCapability toy_root_config); cap_headers := ∅;
          cap_expiresAt := toy_expiry; cap_origin := cap_origin (rc_RootCapability toy_root_config);
          cap_exactKey := rc_RootKey toy_root_config; cap_provenance := capabilityProvenanceImportedBearer |};
     rc_RepositoryPrefix := str "repo"; rc_ReferenceKey := rc_ReferenceKey toy_root_config;
     rc_ShareID := rc_ShareID toy_root_config; rc_Presigner := Configured tt; rc_Signer := toy_share_signer;
     rc_Verifier := toy_share_verifier; rc_MaxPublishAttempts := 3; rc_DangerouslyAllowUnsignedReference := true;
     rc_DangerouslyAllowCustomReferenceVerifier := false |}.

(** After a preparation the publisher comes back as it was. *)
Example toy_restores :
  (run toy_sharer ((PrepareRecovery (H:=toy_net) (H0:=toy_aead) toy_root_publisher ;;;
                    RestoreRootPublisher (H:=toy_net) (H0:=toy_aead) toy_restore_config) tt) toy_empty).2.2
  = Ok toy_root_publisher.
Proof. vm_compute. reflexivity. Qed.

Lemma RestoreRootPublisher_bound_witness :
  mwp any_rely no_effects (RestoreRootPublisher (H:=toy_net) (H0:=toy_aead) toy_restore_config) tt [] (λ h' _ r,
    ∀ publisher, r = Ok publisher → ∃ candidate encoded record target,
      publisher = promote candidate ∧ rt_rootCapability candidate = rc_RootCapability toy_restore_config ∧
      cap_provenance (rc_RootCapability toy_restore_config) = capabilityProvenanceImportedBearer ∧
      last_journal h' = Some encoded ∧ decodeRootRecoveryRecord encoded = Ok (record, target) ∧
      bound_to candidate record ∧
      ∀ bearer, (Z.to_N (len bearer) < 2 ^ 64)%N →
        rr_RootCapabilityDigest record = rootRecoveryDigest "root-capability" bearer →
        ∃ own, ExportBearer (rc_RootCapability toy_restore_config) = Ok own ∧
          (own = bearer ∨ collide (recoveryMessage "root-capability" own) (recoveryMessage "root-capability" bearer))).
Proof. exact (@RestoreRootPublisher_bound toy_net toy_aead unit toy_restore_config tt). Defined.
