(* ===== verification/Recovery.v ===== *)
(** * Publication recovery ([publication_recovery.go])

    The state machine around the one remote compare-and-swap of a signed
    publication: the journal is loaded or initialized, a pending intent is
    driven to the remote reference with exactly the recorded bytes, and the
    outcome is recorded.  The journal, the store, the verifier and the context
    are effects, so what is proved holds for every interleaving with other
    publishers and every lost response. *)

From S2P Require Import Prelude.
From S2P Require Import Prog.
From S2P Require Import GoStd.
From S2P Require Import Encoding.
From S2P Require Import Sha256.
From S2P Require Import Json.
From S2P Require Import Model.
From S2P Require Import Effects.
From S2P Require Import Trust.
From S2P Require Import MemStore.
From S2P Require Import ClientEncryption.
From S2P Require Import Repository.
From S2P Require Import FileState.
From S2P Require Import Watermark.
From S2P Require Import Journal.
From S2P Require Import Ancestry.

Definition publicationRecoveryAttempts : nat := 4.

Inductive PublicationRecoveryOutcome :=
| PublicationRecoveryNone | PublicationRecoveryApplied | PublicationRecoverySuperseded.
#[export] Instance PublicationRecoveryOutcome_eq_dec : EqDecision PublicationRecoveryOutcome.
Proof. solve_decision. Defined.

Record PublicationRecovery := {
  pr_Outcome : PublicationRecoveryOutcome;
  pr_IntentID : Digest;
  pr_Current : Snapshot;
}.

Record ProtectedSourceFile := {
  psf_Path : bytes;
  psf_AllowMissingInitially : bool;
}.

(** The fields of a Publisher that do not change; its interface values that are
    only called are effects. *)
Record Publisher := {
  pb_repository : Repository;
  pb_Chunking : ChunkingOptions;
  pb_StableReadTries : Z;
  pb_Symlinks : SymlinkPolicy;
  pb_ProtectedSourceFiles : list ProtectedSourceFile;
  pb_referenceSigner : option ReferenceSigner;
  pb_referenceVerifier : option ReferenceVerifier;
  pb_publicationJournal : bool;
  pb_trustedCheckpoint : option Watermark;
  pb_allowTrustOnFirstUse : bool;
}.

(** The maps that do; a key of protectedSourceSeen is never reset, so it is a
    set. *)
Record PublisherState := {
  ps_checkpointValidated : gmap bytes Watermark;
  ps_protectedSourceSeen : gset bytes;
}.
Definition PublisherState_zero : PublisherState :=
  {| ps_checkpointValidated := ∅; ps_protectedSourceSeen := ∅ |}.
Definition set_checkpointValidated (channel : bytes) (w : Watermark) (s : PublisherState) : PublisherState :=
  {| ps_checkpointValidated := <[channel:=w]> (ps_checkpointValidated s);
     ps_protectedSourceSeen := ps_protectedSourceSeen s |}.
Definition set_protectedSourceSeen (path : bytes) (s : PublisherState) : PublisherState :=
  {| ps_checkpointValidated := ps_checkpointValidated s;
     ps_protectedSourceSeen := {[path]} ∪ ps_protectedSourceSeen s |}.

Section Recovery.
Context `{AEAD}.
Variable publisher : Publisher.

Abbreviation P := (M eff PublisherState) (only parsing).
Abbreviation repository := (pb_repository publisher).

(** [publisher.referenceVerifier.RepositoryID()]. *)
Definition verifierID : RepositoryID :=
  match pb_referenceVerifier publisher with
  | Some v => rv_RepositoryID v
  | None => RepositoryID_zero
  end.

Definition getCommit (digest : Digest) : P commitManifest :=
  getManifest (T:=commitManifest) repository (str "commit") digest.

Definition validatePublicationDescendant (reference : snapshotReference) (commit : commitManifest)
    (anchor : Watermark) : P unit :=
  validateDescendant getCommit reference commit (wm_Generation anchor) (wm_Commit anchor).

Definition referenceOf (w : Watermark) : snapshotReference :=
  {| sr_Format := objectFormatVersion; sr_Generation := wm_Generation w; sr_Commit := wm_Commit w |}.

Definition validatePublicationCheckpoint (channel : bytes) (watermark checkpoint : Watermark) : P unit :=
  s <- mget ;;
  let walk anchor :=
    if wm_RepositoryID watermark !=? wm_RepositoryID checkpoint then mfail [ErrUntrustedReference]
    else if (wm_Generation watermark <? wm_Generation checkpoint)%N then mfail [ErrRollbackDetected]
    else if wm_Generation watermark ==? wm_Generation checkpoint then
      mguard (wm_Commit watermark !=? wm_Commit checkpoint) [ErrSplitBrain] ;;;
      mmodify (set_checkpointValidated channel watermark)
    else
      commit <- getCommit (wm_Commit watermark) ;;
      mlift (validateCommitManifest commit (wm_Generation watermark)) ;;;
      validatePublicationDescendant (referenceOf watermark) commit anchor ;;;
      mmodify (set_checkpointValidated channel watermark) in
  match ps_checkpointValidated s !! channel with
  | Some validated =>
      if (wm_Generation watermark <? wm_Generation validated)%N then mfail [ErrRollbackDetected]
      else if (wm_Generation watermark ==? wm_Generation validated)
              && (wm_Commit watermark !=? wm_Commit validated) then mfail [ErrSplitBrain]
      else if watermark ==? validated then mret tt
      else walk validated
  | None => walk checkpoint
  end.

(** ** The journal *)

Definition validateLoadedPublicationJournal (channel : bytes) (state : PublicationJournalState)
    : P unit :=
  mlift (validatePublicationJournalState state) ;;;
  mguard ((js_RepositoryID state !=? verifierID) || (js_Channel state !=? channel))
         [ErrUntrustedReference] ;;;
  match pb_trustedCheckpoint publisher with
  | None => mret tt
  | Some checkpoint =>
      match js_Committed state with
      | None => mfail [ErrRollbackDetected]
      | Some committed =>
          mguard (wm_Generation committed <? wm_Generation checkpoint)%N [ErrRollbackDetected] ;;;
          mguard ((wm_Generation committed ==? wm_Generation checkpoint)
                  && (wm_Commit committed !=? wm_Commit checkpoint)) [ErrSplitBrain] ;;;
          validatePublicationCheckpoint channel committed checkpoint
      end
  end.

Definition loadPublicationJournal (channel : bytes)
    : P (option (PublicationJournalState * PublicationJournalRevision)) :=
  loaded <- mcallr (PJ_Load channel) ;;
  match loaded with
  | None => mret None
  | Some (state, revision) =>
      mguard (Digest_IsZero revision) [ErrCorruptObject] ;;;
      validateLoadedPublicationJournal channel state ;;;
      mret (Some (state, revision))
  end.

Definition compareAndSwapPublicationJournal (channel : bytes)
    (expected : option PublicationJournalRevision) (next : PublicationJournalState)
    : P PublicationJournalRevision :=
  revision <- mcallr (PJ_CompareAndSwap channel expected next) ;;
  mguard (Digest_IsZero revision) [ErrStoreIncompatible] ;;;
  mret revision.

Definition with_pending (state : PublicationJournalState) (p : option PublicationIntent)
    : PublicationJournalState :=
  {| js_RepositoryID := js_RepositoryID state; js_Channel := js_Channel state;
     js_Committed := js_Committed state; js_Pending := p |}.
Definition with_committed (state : PublicationJournalState) (w : Watermark) : PublicationJournalState :=
  {| js_RepositoryID := js_RepositoryID state; js_Channel := js_Channel state;
     js_Committed := Some w; js_Pending := js_Pending state |}.

Definition loadOrInitializePublicationJournal (channel : bytes)
    : P (PublicationJournalState * PublicationJournalRevision) :=
  let bootstrapForbidden :=
    (pb_trustedCheckpoint publisher ==? None) && negb (pb_allowTrustOnFirstUse publisher) in
  found <- loadPublicationJournal channel ;;
  match found with
  | Some (state, revision) =>
      mguard ((js_Committed state ==? None) && (js_Pending state ==? None) && bootstrapForbidden)
             [ErrTrustStateRequired] ;;;
      mret (state, revision)
  | None =>
      mguard bootstrapForbidden [ErrTrustStateRequired] ;;;
      let state := {| js_RepositoryID := verifierID; js_Channel := channel;
                      js_Committed := pb_trustedCheckpoint publisher; js_Pending := None |} in
      cas <- mtry (compareAndSwapPublicationJournal channel None state) ;;
      match cas with
      | Ok revision =>
          match pb_trustedCheckpoint publisher with
          | Some checkpoint => mmodify (set_checkpointValidated channel checkpoint)
          | None => mret tt
          end ;;;
          mret (state, revision)
      | Err casErr =>
          mguard (errors_Is casErr ErrStoreIncompatible) casErr ;;;
          loaded <- mwrap (λ loadErr, casErr ++ loadErr) (loadPublicationJournal channel) ;;
          match loaded with
          | None => mfail casErr
          | Some x => mret x
          end
      end
  end.

(** ** Snapshots of watermarks *)

Definition readPublicationCommit (watermark : Watermark) : P commitManifest :=
  commit <- getCommit (wm_Commit watermark) ;;
  mlift (validateCommitManifest commit (wm_Generation watermark)) ;;;
  mret commit.

Definition snapshotFromPublicationCommit (watermark : Watermark) (commit : commitManifest) : Snapshot :=
  {| sn_Generation := wm_Generation watermark; sn_Commit := wm_Commit watermark;
     sn_Root := cm_Root commit; sn_PublishedAt := cm_PublishedAtUnix commit |}.

Definition snapshotForPublicationWatermark (watermark : Watermark) : P Snapshot :=
  commit <- readPublicationCommit watermark ;;
  mret (snapshotFromPublicationCommit watermark commit).

Definition publicationDescends (candidate : Watermark) (commit : commitManifest) (anchor : Watermark)
    : P bool :=
  r <- mtry (validatePublicationDescendant (referenceOf candidate) commit anchor) ;;
  match r with
  | Ok _ => mret true
  | Err err => if errors_Is err ErrSplitBrain then mret false else mfail err
  end.

(** The loop of validSupersedingPublication over the whole history. *)
Fixpoint walkToFirst (n : nat) (generation : N) (parent : option Digest) : P bool :=
  match n with
  | O => mret (parent ==? None)
  | S n =>
      match parent with
      | None => mret false
      | Some p =>
          if Digest_IsZero p then mret false
          else
            ancestor <- getCommit p ;;
            mlift (validateCommitManifest ancestor generation) ;;;
            walkToFirst n (u64_sub generation 1) (cm_Parent ancestor)
      end
  end.

Definition validSupersedingPublication (candidate : Watermark) (commit : commitManifest)
    (base : option Watermark) : P bool :=
  match base with
  | Some base =>
      if (wm_Generation candidate <=? wm_Generation base)%N then mret false
      else publicationDescends candidate commit base
  | None =>
      if wm_Generation candidate ==? 1%N then mret (cm_Parent commit ==? None)
      else
        mguard (maxCommitWalk <? wm_Generation candidate)%N [ErrResourceLimit] ;;;
        walkToFirst (N.to_nat (wm_Generation candidate - 1)) (u64_sub (wm_Generation candidate) 1)
          (cm_Parent commit)
  end.

Definition validatePendingPublication (channel : bytes) (intent : PublicationIntent) : P Snapshot :=
  mlift (validatePublicationJournalIntent verifierID channel intent) ;;;
  reference <- verifySignedSnapshotReference (pi_Reference intent) channel
                 (pb_referenceVerifier publisher) ;;
  mguard ((sr_Generation reference !=? wm_Generation (pi_Next intent))
          || (sr_Commit reference !=? wm_Commit (pi_Next intent))) [ErrCorruptObject] ;;;
  commit <- readPublicationCommit (pi_Next intent) ;;
  (if pi_Kind intent ==? PublicationIntentPublish then
     match pi_Base intent with
     | None => mguard (cm_Parent commit !=? None) [ErrSplitBrain]
     | Some base => mguard (cm_Parent commit !=? Some (wm_Commit base)) [ErrSplitBrain]
     end
   else mret tt) ;;;
  mret (snapshotFromPublicationCommit (pi_Next intent) commit).

(** ** Steps of the recovery *)

Definition observed (intent : PublicationIntent) (object : Object) : PublicationIntent :=
  {| pi_IntentID := pi_IntentID intent; pi_Kind := pi_Kind intent; pi_Base := pi_Base intent;
     pi_Next := pi_Next intent; pi_ExpectedVersion := Some (ob_Version object);
     pi_ExpectedReference := publicationReferenceDigest (ob_Data object);
     pi_Reference := pi_Reference intent |}.

Definition refreshPublicationObservation (channel : bytes) (state : PublicationJournalState)
    (revision : PublicationJournalRevision) (object : Object)
    : P (PublicationJournalState * PublicationJournalRevision) :=
  match js_Pending state with
  | None => mfail [ErrPrecondition]
  | Some pending =>
      mguard (pi_Base pending ==? None) [ErrPrecondition] ;;;
      mguard (v_ETag (ob_Version object) ==? []) [ErrStoreIncompatible] ;;;
      let desired := with_pending state (Some (observed pending object)) in
      if equalPublicationIntents (js_Pending state) (js_Pending desired) then mret (state, revision)
      else
        cas <- mtry (compareAndSwapPublicationJournal channel (Some revision) desired) ;;
        match cas with
        | Ok newRevision => mret (desired, newRevision)
        | Err casErr =>
            mguard (errors_Is casErr ErrStoreIncompatible) casErr ;;;
            loaded <- mwrap (λ loadErr, casErr ++ loadErr) (loadPublicationJournal channel) ;;
            match loaded with
            | None => mfail [ErrRollbackDetected]
            | Some (loadedState, loadedRevision) =>
                mguard ((js_Pending loadedState ==? None)
                        || negb (equalPublicationIntentSemantics (js_Pending state)
                                   (js_Pending loadedState))) [ErrPublishConflict] ;;;
                mguard (negb (equalPublicationIntents (js_Pending loadedState) (js_Pending desired)))
                       [ErrPublishConflict] ;;;
                mret (loadedState, loadedRevision)
            end
        end
  end.

Definition reloadPublicationRecovery (channel : bytes) (initial : PublicationIntent)
    : P (PublicationJournalState * PublicationJournalRevision) :=
  loaded <- loadPublicationJournal channel ;;
  match loaded with
  | None => mfail [ErrRollbackDetected]
  | Some (state, revision) =>
      mguard (negb (js_Pending state ==? None)
              && negb (equalPublicationIntentSemantics (Some initial) (js_Pending state)))
             [ErrPublishConflict] ;;;
      mret (state, revision)
  end.

Definition finalizePublication (state : PublicationJournalState)
    (revision : PublicationJournalRevision) (committed : Watermark) (snapshot : Snapshot)
    (outcome : PublicationRecoveryOutcome) : P PublicationRecovery :=
  let intentID := match js_Pending state with Some p => pi_IntentID p | None => Digest_zero end in
  mguard ((sn_Generation snapshot !=? wm_Generation committed)
          || (sn_Commit snapshot !=? wm_Commit committed) || Digest_IsZero (sn_Root snapshot))
         [ErrCorruptObject] ;;;
  let desired := with_pending (with_committed state committed) None in
  cas <- mtry (compareAndSwapPublicationJournal (js_Channel state) (Some revision) desired) ;;
  match cas with
  | Ok _ => mret tt
  | Err casErr =>
      mguard (errors_Is casErr ErrStoreIncompatible) casErr ;;;
      loaded <- mwrap (λ loadErr, casErr ++ loadErr) (loadPublicationJournal (js_Channel state)) ;;
      match loaded with
      | None => mfail (ErrPublishIndeterminate :: casErr)
      | Some (loadedState, _) =>
          mguard (negb (js_Pending loadedState ==? None)
                  || negb (equalWatermarkPointers (js_Committed loadedState) (js_Committed desired)))
                 (ErrPublishIndeterminate :: casErr)
      end
  end ;;;
  mret {| pr_Outcome := outcome; pr_IntentID := intentID; pr_Current := snapshot |}.

Definition remoteOf (reference : snapshotReference) : Watermark :=
  {| wm_RepositoryID := verifierID; wm_Generation := sr_Generation reference;
     wm_Commit := sr_Commit reference |}.

Definition classifyResolvedResign (channel : bytes) (intent : PublicationIntent)
    (committed : Watermark) : P PublicationRecovery :=
  ' (reference, object) <- mwrap (λ err, ErrPublishIndeterminate :: err)
      (getReferenceWithVerifier repository channel [] (pb_referenceVerifier publisher)) ;;
  let remote := remoteOf reference in
  remoteCommit <- readPublicationCommit remote ;;
  mguard (wm_Generation remote <? wm_Generation committed)%N [ErrRollbackDetected] ;;;
  mguard ((wm_Generation remote ==? wm_Generation committed)
          && (wm_Commit remote !=? wm_Commit committed)) [ErrSplitBrain] ;;;
  (if (wm_Generation committed <? wm_Generation remote)%N
   then validatePublicationDescendant reference remoteCommit committed else mret tt) ;;;
  mguard (wm_Generation remote <? wm_Generation (pi_Next intent))%N [ErrRollbackDetected] ;;;
  mguard ((wm_Generation remote ==? wm_Generation (pi_Next intent))
          && (wm_Commit remote !=? wm_Commit (pi_Next intent))) [ErrSplitBrain] ;;;
  outcome <-
    (if (remote ==? pi_Next intent) && (ob_Data object ==? pi_Reference intent)
     then mret PublicationRecoveryApplied
     else if (remote ==? pi_Next intent)
             && (publicationReferenceDigest (ob_Data object) ==? pi_ExpectedReference intent)
     then mfail [ErrPublishIndeterminate]
     else if (wm_Generation (pi_Next intent) <? wm_Generation remote)%N
     then validatePublicationDescendant reference remoteCommit (pi_Next intent) ;;;
          mret PublicationRecoverySuperseded
     else mret PublicationRecoverySuperseded) ;;
  mret {| pr_Outcome := outcome; pr_IntentID := pi_IntentID intent;
          pr_Current := snapshotFromPublicationCommit remote remoteCommit |}.

Definition classifyResolvedPublication (channel : bytes) (intent : PublicationIntent)
    (committed : option Watermark) : P PublicationRecovery :=
  match committed with
  | None => mfail [ErrRollbackDetected]
  | Some committed =>
      if pi_Kind intent ==? PublicationIntentResign
      then classifyResolvedResign channel intent committed
      else
        snapshot <- snapshotForPublicationWatermark committed ;;
        outcome <-
          (if committed ==? pi_Next intent then mret PublicationRecoveryApplied
           else if (wm_Generation (pi_Next intent) <? wm_Generation committed)%N then
             commit <- readPublicationCommit committed ;;
             applied <- publicationDescends committed commit (pi_Next intent) ;;
             mret (if applied : bool then PublicationRecoveryApplied else PublicationRecoverySuperseded)
           else mret PublicationRecoverySuperseded) ;;
        mret {| pr_Outcome := outcome; pr_IntentID := pi_IntentID intent; pr_Current := snapshot |}
  end.

(** ** The recovery loop *)

(** One remote compare-and-swap of the recorded bytes, with [k] the next
    iteration of the loop. *)
Definition attemptReference (channel : bytes) (initial : PublicationIntent) (target : Snapshot)
    (state : PublicationJournalState) (revision : PublicationJournalRevision)
    (pending : PublicationIntent) (expected : option Version)
    (k : PublicationJournalState → PublicationJournalRevision → error → P PublicationRecovery)
    : P PublicationRecovery :=
  cas <- mtry (Repository_compareAndSwap repository (SignedReferenceKey repository channel) expected
                 (pi_Reference pending)) ;;
  match cas with
  | Ok _ => finalizePublication state revision (pi_Next pending) target PublicationRecoveryApplied
  | Err lastErr =>
      ' (state, revision) <- reloadPublicationRecovery channel initial ;;
      k state revision lastErr
  end.

(** The same after the observation of the original envelope was recorded. *)
Definition retryReference (channel : bytes) (initial : PublicationIntent) (target : Snapshot)
    (state : PublicationJournalState) (revision : PublicationJournalRevision) (object : Object)
    (k : PublicationJournalState → PublicationJournalRevision → error → P PublicationRecovery)
    : P PublicationRecovery :=
  ' (state, revision) <- refreshPublicationObservation channel state revision object ;;
  match js_Pending state with
  | None => mfail errorText
  | Some pending =>
      attemptReference channel initial target state revision pending (Some (ob_Version object)) k
  end.

(** The part of an iteration after the remote reference was read. *)
Definition recoverObserved (channel : bytes) (initial : PublicationIntent) (target : Snapshot)
    (state : PublicationJournalState) (revision : PublicationJournalRevision)
    (pending : PublicationIntent) (reference : snapshotReference) (object : Object)
    (k : PublicationJournalState → PublicationJournalRevision → error → P PublicationRecovery)
    : P PublicationRecovery :=
  let remote := remoteOf reference in
  remoteCommit <- readPublicationCommit remote ;;
  let remoteSnapshot := snapshotFromPublicationCommit remote remoteCommit in
  match js_Committed state with
  | Some committed =>
      mguard (wm_Generation remote <? wm_Generation committed)%N [ErrRollbackDetected] ;;;
      mguard ((wm_Generation remote ==? wm_Generation committed)
              && (wm_Commit remote !=? wm_Commit committed)) [ErrSplitBrain]
  | None => mret tt
  end ;;;
  if (pi_Kind pending ==? PublicationIntentResign) && (remote ==? pi_Next pending) then
    if ob_Data object ==? pi_Reference pending then
      finalizePublication state revision remote remoteSnapshot PublicationRecoveryApplied
    else if publicationReferenceDigest (ob_Data object) !=? pi_ExpectedReference pending then
      finalizePublication state revision remote remoteSnapshot PublicationRecoverySuperseded
    else retryReference channel initial target state revision object k
  else if remote ==? pi_Next pending then
    finalizePublication state revision remote remoteSnapshot PublicationRecoveryApplied
  else if (wm_Generation (pi_Next pending) <? wm_Generation remote)%N then
    if pi_Kind pending ==? PublicationIntentResign then
      descends <- publicationDescends remote remoteCommit (pi_Next pending) ;;
      mguard (negb descends) [ErrSplitBrain] ;;;
      finalizePublication state revision remote remoteSnapshot PublicationRecoverySuperseded
    else
      includesTarget <- publicationDescends remote remoteCommit (pi_Next pending) ;;
      if includesTarget : bool then
        finalizePublication state revision remote remoteSnapshot PublicationRecoveryApplied
      else
        validWinner <- validSupersedingPublication remote remoteCommit (pi_Base pending) ;;
        if validWinner : bool then
          finalizePublication state revision remote remoteSnapshot PublicationRecoverySuperseded
        else mfail [ErrSplitBrain]
  else if Some remote ==? pi_Base pending then
    retryReference channel initial target state revision object k
  else
    validWinner <- validSupersedingPublication remote remoteCommit (pi_Base pending) ;;
    if validWinner : bool then
      finalizePublication state revision remote remoteSnapshot PublicationRecoverySuperseded
    else mfail [ErrSplitBrain].

Fixpoint recoverLoop (attempts : nat) (channel : bytes) (initial : PublicationIntent)
    (target : Snapshot) (state : PublicationJournalState) (revision : PublicationJournalRevision)
    (lastErr : error) : P PublicationRecovery :=
  match attempts with
  | O => mfail (ErrPublishIndeterminate :: lastErr)
  | Datatypes.S attempts =>
      mwrap (λ err, ErrPublishIndeterminate :: err) checkCtx ;;;
      match js_Pending state with
      | None => classifyResolvedPublication channel initial (js_Committed state)
      | Some pending =>
          mguard (negb (equalPublicationIntentSemantics (Some initial) (js_Pending state)))
                 [ErrPublishConflict] ;;;
          got <- mtry (getReferenceWithVerifier repository channel [] (pb_referenceVerifier publisher)) ;;
          match got with
          | Err getErr =>
              if errors_Is getErr ErrObjectNotFound then
                mguard (pi_Base pending !=? None) [ErrRollbackDetected] ;;;
                attemptReference channel initial target state revision pending None
                  (recoverLoop attempts channel initial target)
              else mfail (ErrPublishIndeterminate :: getErr)
          | Ok (reference, object) =>
              recoverObserved channel initial target state revision pending reference object
                (recoverLoop attempts channel initial target)
          end
      end
  end.

Definition recoverPublication (channel : bytes) (state : PublicationJournalState)
    (revision : PublicationJournalRevision) : P PublicationRecovery :=
  match js_Pending state with
  | None => mret {| pr_Outcome := PublicationRecoveryNone; pr_IntentID := Digest_zero;
                    pr_Current := Snapshot_zero |}
  | Some initial =>
      target <- validatePendingPublication channel initial ;;
      recoverLoop publicationRecoveryAttempts channel initial target state revision errorText
  end.

Definition preparePublicationJournal (channel : bytes)
    : P (PublicationJournalState * PublicationJournalRevision) :=
  ' (state, revision) <- loadOrInitializePublicationJournal channel ;;
  match js_Pending state with
  | None => mret (state, revision)
  | Some _ =>
      recoverPublication channel state revision ;;;
      loaded <- loadPublicationJournal channel ;;
      match loaded with
      | None => mfail [ErrPublishIndeterminate]
      | Some (state, revision) =>
          mguard (js_Pending state !=? None) [ErrPublishIndeterminate] ;;;
          mret (state, revision)
      end
  end.

Definition RecoverPublication (channel : bytes) : P PublicationRecovery :=
  mguard ((pb_referenceVerifier publisher ==? None) || negb (pb_publicationJournal publisher))
         [ErrUntrustedReference] ;;;
  mlift (Repository_validateChannel repository channel) ;;;
  ' (state, revision) <- loadOrInitializePublicationJournal channel ;;
  match js_Pending state with
  | None =>
      match js_Committed state with
      | Some committed =>
          current <- snapshotForPublicationWatermark committed ;;
          mret {| pr_Outcome := PublicationRecoveryNone; pr_IntentID := Digest_zero;
                  pr_Current := current |}
      | None => mret {| pr_Outcome := PublicationRecoveryNone; pr_IntentID := Digest_zero;
                        pr_Current := Snapshot_zero |}
      end
  | Some _ => recoverPublication channel state revision
  end.

(** ** Adoption and commit *)

(** Its last part, which records the candidate. *)
Definition adoptPublication (channel : bytes) (state : PublicationJournalState)
    (revision : PublicationJournalRevision) (candidate : Watermark)
    : P (PublicationJournalState * PublicationJournalRevision) :=
  let desired := with_committed state candidate in
  cas <- mtry (compareAndSwapPublicationJournal channel (Some revision) desired) ;;
  match cas with
  | Ok newRevision => mret (desired, newRevision)
  | Err casErr =>
      mguard (errors_Is casErr ErrStoreIncompatible) casErr ;;;
      loaded <- mwrap (λ loadErr, casErr ++ loadErr) (loadPublicationJournal channel) ;;
      let failure := if errors_Is casErr ErrPrecondition then [ErrPublishConflict] else casErr in
      match loaded with
      | Some (loadedState, loadedRevision) =>
          if (js_Pending loadedState ==? None)
             && equalWatermarkPointers (js_Committed loadedState) (js_Committed desired)
          then mret (loadedState, loadedRevision) else mfail failure
      | None => mfail failure
      end
  end.

Definition acceptObservedPublication (channel : bytes) (state : PublicationJournalState)
    (revision : PublicationJournalRevision) (reference : snapshotReference)
    (commit : commitManifest) : P (PublicationJournalState * PublicationJournalRevision) :=
  mguard (js_Pending state !=? None) [ErrPublishIndeterminate] ;;;
  let candidate := remoteOf reference in
  match js_Committed state with
  | Some committed =>
      mguard (wm_Generation candidate <? wm_Generation committed)%N [ErrRollbackDetected] ;;;
      mguard ((wm_Generation candidate ==? wm_Generation committed)
              && (wm_Commit candidate !=? wm_Commit committed)) [ErrSplitBrain] ;;;
      if candidate ==? committed then mret (state, revision)
      else
        validatePublicationDescendant reference commit committed ;;;
        adoptPublication channel state revision candidate
  | None => adoptPublication channel state revision candidate
  end.

(** A staged snapshot; the pointers to its publisher and repository are compared
    by identity in Commit. *)
Record StagedSnapshot := {
  ss_owner : bool;
  ss_channel : bytes;
  ss_expected : option Version;
  ss_referenceData : bytes;
  ss_publicationState : option PublicationJournalState;
  ss_publicationRevision : option PublicationJournalRevision;
  ss_publicationIntent : option PublicationIntent;
  ss_unchanged : bool;
  ss_snapshot : Snapshot;
}.

(** The loop that records the intent: begun, or the final answer. *)
Fixpoint beginPublication (attempts : nat) (staged : StagedSnapshot) (intent : PublicationIntent)
    (state : PublicationJournalState) (revision : PublicationJournalRevision)
    : P (option Snapshot) :=
  match attempts with
  | O => mfail [ErrPublishConflict]
  | Datatypes.S attempts =>
      let desired := with_pending state (Some intent) in
      cas <- mtry (compareAndSwapPublicationJournal (ss_channel staged) (Some revision) desired) ;;
      match cas with
      | Ok _ => mret None
      | Err casErr =>
          mguard (errors_Is casErr ErrStoreIncompatible) casErr ;;;
          loaded <- mwrap (λ loadErr, casErr ++ loadErr) (loadPublicationJournal (ss_channel staged)) ;;
          match loaded with
          | None => mfail [ErrRollbackDetected]
          | Some (loadedState, loadedRevision) =>
              match js_Pending loadedState with
              | Some _ =>
                  mguard (negb (equalPublicationIntents (js_Pending loadedState) (Some intent)))
                         [ErrPublishConflict] ;;;
                  mret None
              | None =>
                  if equalWatermarkPointers (js_Committed loadedState) (pi_Base intent)
                  then beginPublication attempts staged intent loadedState loadedRevision
                  else
                    resolved <- classifyResolvedPublication (ss_channel staged) intent
                                  (js_Committed loadedState) ;;
                    if pr_Outcome resolved ==? PublicationRecoveryApplied
                    then mret (Some (ss_snapshot staged))
                    else mfail [ErrPublishConflict]
              end
          end
      end
  end.

Definition commitSignedPublication (staged : StagedSnapshot) : P Snapshot :=
  match ss_publicationState staged, ss_publicationRevision staged, ss_publicationIntent staged with
  | Some state, Some revision, Some intent =>
      mguard (negb (js_Pending state ==? None)
              || negb (equalWatermarkPointers (js_Committed state) (pi_Base intent)))
             [ErrPublishConflict] ;;;
      begun <- beginPublication 2 staged intent state revision ;;
      match begun with
      | Some snapshot => mret snapshot
      | None =>
          recovery <- RecoverPublication (ss_channel staged) ;;
          if (pr_Outcome recovery ==? PublicationRecoveryApplied)
             && (pr_IntentID recovery ==? pi_IntentID intent)
          then mret (ss_snapshot staged)
          else if pr_Outcome recovery ==? PublicationRecoveryNone then
            loaded <- loadPublicationJournal (ss_channel staged) ;;
            match loaded with
            | None => mfail [ErrPublishConflict]
            | Some (loadedState, _) =>
                resolved <- classifyResolvedPublication (ss_channel staged) intent
                              (js_Committed loadedState) ;;
                if pr_Outcome resolved ==? PublicationRecoveryApplied
                then mret (ss_snapshot staged) else mfail [ErrPublishConflict]
            end
          else mfail [ErrPublishConflict]
      end
  | _, _, _ => mfail [ErrCorruptObject]
  end.
End Recovery.
