(* ===== verification/RecoveryProofs.v ===== *)
(** * Proofs about publication recovery

    The write-ahead discipline of a signed publisher: what it may write to the
    object store and to the journal, in terms of what the journal last told it. *)

From S2P Require Import Prelude.
From S2P Require Import Prog.
From S2P Require Import GoStd.
From S2P Require Import Encoding.
From S2P Require Import Sha256.
From S2P Require Import Json.
From S2P Require Import Model.
From S2P Require Import Effects.
From S2P Require Import Trust.
From S2P Require Import MemStore.
From S2P Require Import ClientEncryption.
From S2P Require Import Repository.
From S2P Require Import FileState.
From S2P Require Import Watermark.
From S2P Require Import Journal.
From S2P Require Import Ancestry.
From S2P Require Import Recovery.

#[local] Existing Instance everything.

Abbreviation journal_value := (PublicationJournalState * PublicationJournalRevision)%type (only parsing).

(** ** What the journal told a process *)

(** The effect of one event on the last known journal value of a channel. *)
Definition view_event (channel : bytes) (v : option journal_value) (ev : event eff)
    : option journal_value :=
  match ev with
  | Ev e x =>
      (match e in eff T return T → option journal_value with
       | PJ_Load c => λ x,
           if c ==? channel then match x with Ok (Some sr) => Some sr | _ => None end else v
       | PJ_CompareAndSwap c _ next => λ x,
           if c ==? channel then match x with Ok rev => Some (next, rev) | Err _ => None end else v
       | _ => λ _, v
       end) x
  end.

Definition journal_view (channel : bytes) (h : history eff) : option journal_value :=
  foldl (view_event channel) None h.

(** The journal reported the state with the revision at some time. *)
Definition reported (channel : bytes) (h : history eff) (st : PublicationJournalState)
    (rev : PublicationJournalRevision) : Prop :=
  Ev (PJ_Load channel) (Ok (Some (st, rev))) ∈ h ∨
  ∃ expected, Ev (PJ_CompareAndSwap channel expected st) (Ok rev) ∈ h.

Lemma journal_view_snoc channel h ev :
  journal_view channel (h ++ [ev]) = view_event channel (journal_view channel h) ev.
Proof. unfold journal_view. by rewrite foldl_app. Qed.

Lemma reported_mono channel h k st rev : reported channel h st rev → reported channel (h ++ k) st rev.
Proof. intros [Hr|[e Hr]]; [left|right; exists e]; apply elem_of_app; by left. Qed.

Lemma journal_view_reported channel h st rev :
  journal_view channel h = Some (st, rev) → reported channel h st rev.
Proof.
  induction h as [|ev h IH] using rev_ind; [done|]. rewrite journal_view_snoc.
  assert (journal_view channel h = Some (st, rev) → reported channel (h ++ [ev]) st rev) as Hold.
  { intros Hv. by apply reported_mono, IH. }
  destruct ev as [X e x]. unfold view_event. destruct e; try done.
  - case_bool_decide as Hc; [subst|done]. destruct x as [[[st' rev']|]|]; try done.
    intros [= -> ->]. left. apply elem_of_app. right. by left.
  - case_bool_decide as Hc; [subst|done]. destruct x as [rev'|]; try done.
    intros [= -> ->]. right. eexists. apply elem_of_app. right. by left.
Qed.

Lemma journal_view_reads channel h h' :
  ext_reads h h' → journal_view channel h' = journal_view channel h.
Proof.
  intros (k & -> & Hk). unfold journal_view. rewrite foldl_app.
  generalize (foldl (view_event channel) None h). induction Hk as [|ev k Hev Hk IH]; [done|].
  intros v. simpl. rewrite IH. destruct ev as [X e x]. by destruct e.
Qed.

Lemma ext_reads_app h h' : ext_reads h h' → ∃ k, h' = h ++ k.
Proof. intros (k & -> & _). by eexists. Qed.

(** ** Lineage *)

(** A continued history is never a rollback or a split for the journal. *)
Lemma lineage_transition st next :
  js_RepositoryID next = js_RepositoryID st → js_Channel next = js_Channel st →
  lineage (js_Committed st) (js_Committed next) →
  (js_Pending st = None ∨ js_Pending next = None ∨
   equalWatermarkPointers (js_Committed st) (js_Committed next)
   && equalPublicationIntentSemantics (js_Pending st) (js_Pending next) = true) →
  validatePublicationJournalTransition st next = Ok tt.
Proof.
  intros E1 E2 Hl Hp. unfold validatePublicationJournalTransition. rewrite E1, E2.
  rewrite !bool_decide_eq_true_2 by done. simpl.
  assert (∀ k : result unit, (match js_Committed st with
    | None => Ok tt
    | Some c => match js_Committed next with
        | None => Err [ErrRollbackDetected]
        | Some n => guard_err (wm_Generation n <? wm_Generation c)%N [ErrRollbackDetected] ?;;
            guard_err ((wm_Generation n ==? wm_Generation c) && (wm_Commit n !=? wm_Commit c))
              [ErrSplitBrain]
        end
    end ?;; k) = k) as ->.
  { intros k. destruct (js_Committed st) as [c|]; [|done].
    destruct (js_Committed next) as [n|]; [|done]. simpl in Hl.
    pose proof (ancestor_le _ _ _ _ Hl). rewrite (proj2 (N.ltb_ge _ _)) by lia. simpl.
    case_bool_decide as Hg; [|done]. rewrite Hg in Hl. apply ancestor_same in Hl.
    by rewrite bool_decide_eq_true_2. }
  destruct (js_Pending st), (js_Pending next); try done.
  destruct Hp as [?|[?|Hp]]; [done|done|]. apply andb_true_iff in Hp as [-> ->]. done.
Qed.

(** ** The discipline *)

Section Discipline.
Context `{AEADLaws}.
Variables (publisher : Publisher) (channel : bytes) (staging : bool).
Variable records : history eff → PublicationIntent → Prop.
Abbreviation repository := (pb_repository publisher).
Abbreviation view := (journal_view channel).

(** The precondition of a swap is the one the intent names: no reference at all
    for a first publication, else the recorded version of the observed one. *)
Definition replaces (p : PublicationIntent) (expected : option Version) : Prop :=
  match expected with
  | None => pi_Base p = None
  | Some version => pi_ExpectedVersion p = Some version
  end.

(** The store may be asked to swap the signed reference only to bytes that the
    journal, when last consulted, held as the pending intent, and only from the
    version recorded with it; the journal may be
    asked only for a transition it allows from a state it reported with the
    expected revision and that continues the committed history, or for its
    initialization; it may be asked to hold a new intent only when [records]
    allows it; immutable objects are put only while staging. *)
Definition publication_protocol : guarantee eff := λ h X e,
  match e with
  | Store_CompareAndSwap k expected raw =>
      k = SignedReferenceKey repository channel ∧
      ∃ v st rev p, rp_store repository = Some v ∧ view h = Some (st, rev) ∧
        js_Pending st = Some p ∧ replaces p expected ∧ sv_open v k raw = Ok (pi_Reference p)
  | Store_PutIfAbsent k raw => staging = true ∧ content_put repository k raw
  | PJ_CompareAndSwap c expected next =>
      c = channel ∧
      match expected with
      | None => js_Pending next = None ∧ js_Committed next = pb_trustedCheckpoint publisher
      | Some rev => ∃ st, reported channel h st rev ∧
          validatePublicationJournalTransition st next = Ok tt ∧
          lineage (js_Committed st) (js_Committed next) ∧
          (js_Pending st = None → ∀ p, js_Pending next = Some p → records h p)
      end
  | PJ_Load c => c = channel
  | WM_Load _ | WM_CompareAndSwap _ _ _ => False
  | _ => True
  end.
Abbreviation G := publication_protocol.

Lemma protocol_reads : reads_free G.
Proof. intros h X e He. by destruct e. Qed.

(** Go's types on the journal's answers: generations are uint64. *)
Definition go_typed : rely eff := λ _ X e x,
  match e in eff T return T → Prop with
  | PJ_Load _ => λ x, ∀ st rev, x = Ok (Some (st, rev)) →
      ∀ w, js_Committed st = Some w → (wm_Generation w ≤ u64_max)%N
  | _ => λ _, True
  end x.
Abbreviation R := go_typed.

(** The journal reported the state after [h0]. *)
Definition reported_since (h0 h : history eff) (st : PublicationJournalState)
    (rev : PublicationJournalRevision) : Prop :=
  since h0 h (Ev (PJ_Load channel) (Ok (Some (st, rev)))) ∨
  ∃ expected, since h0 h (Ev (PJ_CompareAndSwap channel expected st) (Ok rev)).

(** A journal value that is current, as the journal said after [h0], and one the
    publisher accepts. *)
Definition current (h0 h : history eff) (st : PublicationJournalState)
    (rev : PublicationJournalRevision) : Prop :=
  view h = Some (st, rev) ∧ reported_since h0 h st rev ∧ extends h0 h.
Definition valid_state (st : PublicationJournalState) : Prop :=
  js_RepositoryID st = verifierID publisher ∧ js_Channel st = channel ∧
  (∀ w, js_Committed st = Some w → (wm_Generation w ≤ u64_max)%N) ∧
  ∀ p, js_Pending st = Some p → pi_Base p = js_Committed st.

Lemma reported_since_mono h0 h h' st rev :
  extends h h' → reported_since h0 h st rev → reported_since h0 h' st rev.
Proof.
  intros He [Hr|[e Hr]]; [left|right; exists e]; (eapply since_mono; [reflexivity|exact He|exact Hr]).
Qed.

Lemma current_reads h0 h h' st rev : ext_reads h h' → current h0 h st rev → current h0 h' st rev.
Proof.
  intros He (Hv & Hr & Hx). split; [by rewrite (journal_view_reads _ _ _ He)|].
  apply extends_reads in He. split; [by eapply reported_since_mono|by etrans].
Qed.

Lemma current_reported h0 h st rev : current h0 h st rev → reported channel h st rev.
Proof. intros [Hv _]. by apply journal_view_reported. Qed.

Lemma reported_extends h h' st rev :
  extends h h' → reported channel h st rev → reported channel h' st rev.
Proof. intros [k ->]. apply reported_mono. Qed.

(** *** Reading methods *)

Lemma getCommit_reading d :
  reading G R (getCommit publisher d) (λ r, ∀ c, r = Ok c → named_by (str "commit") d c).
Proof.
  unfold getCommit. eapply reading_mono; [exact (getManifest_reading R G protocol_reads _ (hashing_everything _ _) _ _)|].
  intros r Hr. exact Hr.
Qed.

Lemma getCommit_loads : loads_commits (getCommit publisher) R G.
Proof. intros d. apply getCommit_reading. Qed.

Lemma readPublicationCommit_reading w :
  reading G R (readPublicationCommit publisher w) (λ r,
    ∀ c, r = Ok c → commit_at (wm_Generation w) (wm_Commit w) c).
Proof.
  unfold readPublicationCommit. rd_step. eapply reading_mono; [apply getCommit_reading|].
  intros [c|e] Hc; [|done]. do 2 rd_step.
  destruct (validateCommitManifest c (wm_Generation w)) as [[]|] eqn:Hv; simpl; [|done].
  rd_step. intros c' [= <-]. split; [by apply Hc|done].
Qed.

Lemma snapshotForPublicationWatermark_reading w :
  reading G R (snapshotForPublicationWatermark publisher w) (λ r,
    ∀ sn, r = Ok sn → ∃ c, commit_at (wm_Generation w) (wm_Commit w) c ∧
      sn = snapshotFromPublicationCommit w c).
Proof.
  unfold snapshotForPublicationWatermark. rd_step.
  eapply reading_mono; [apply readPublicationCommit_reading|]. intros [c|e] Hc; [|done].
  rd_step. intros sn [= <-]. eauto.
Qed.

Lemma publicationDescends_reading candidate commit anchor :
  (wm_Generation candidate ≤ u64_max)%N →
  commit_at (wm_Generation candidate) (wm_Commit candidate) commit →
  reading G R (publicationDescends publisher candidate commit anchor) (λ r,
    r = Ok true → (wm_Generation anchor < wm_Generation candidate)%N ∧
      ancestor (wm_Generation candidate) (wm_Commit candidate) (wm_Generation anchor) (wm_Commit anchor)).
Proof.
  intros Hmax Hc. unfold publicationDescends. do 2 rd_step.
  eapply reading_mono; [apply validateDescendant_spec; [apply protocol_reads|apply getCommit_loads|done|done]|].
  intros [[]|e] Hr; [rd_step; intros _; by apply Hr|].
  by destruct (errors_Is e ErrSplitBrain); rd_step.
Qed.

Lemma walkToFirst_reading n g parent :
  reading G R (walkToFirst publisher n g parent) (λ _, True).
Proof.
  revert g parent. induction n as [|n IH]; intros g parent; simpl; [by rd_step|].
  destruct parent as [p|]; [|by rd_step]. destruct (Digest_IsZero p); [by rd_step|].
  rd_step. eapply reading_mono; [apply getCommit_reading|]. intros [c|e] Hc; [|done].
  do 2 rd_step. destruct (validateCommitManifest c g); simpl; [apply IH|done].
Qed.

Lemma validSupersedingPublication_reading candidate commit base :
  (wm_Generation candidate ≤ u64_max)%N →
  commit_at (wm_Generation candidate) (wm_Commit candidate) commit →
  reading G R (validSupersedingPublication publisher candidate commit base) (λ r,
    r = Ok true → ∀ b, base = Some b → (wm_Generation b < wm_Generation candidate)%N ∧
      ancestor (wm_Generation candidate) (wm_Commit candidate) (wm_Generation b) (wm_Commit b)).
Proof.
  intros Hmax Hc. unfold validSupersedingPublication. destruct base as [b|].
  - destruct (wm_Generation candidate <=? wm_Generation b)%N; [by rd_step|].
    eapply reading_mono; [by apply publicationDescends_reading|].
    intros r Hr ->. intros b' [= <-]. by apply Hr.
  - case_bool_decide; [by rd_step|]. do 2 rd_step; [done|].
    eapply reading_mono; [apply walkToFirst_reading|]. done.
Qed.

(** *** Methods that may write, whatever the publisher has validated so far *)

Abbreviation doing := (acting (S:=PublisherState) G R).

Lemma doing_checkCtx h (Q : history eff → result unit → Prop) :
  (∀ h' r, ext_reads h h' → Q h' r) → doing checkCtx h Q.
Proof.
  intros Hq. eapply (doing_reading _ (λ _, True)); [|by auto].
  apply reading_checkCtx; [apply protocol_reads|done|done].
Qed.
End Discipline.

(** ** The steps *)

Tactic Notation "do_if" "as" ident(H) :=
  lazymatch goal with |- acting _ _ (if ?c then _ else _) _ _ => destruct c eqn:H end.

(** Later histories. *)
Ltac extending :=
  first [reflexivity | eassumption | apply extends_reads; eassumption
        | etrans; [eassumption|extending]
        | etrans; [apply extends_reads; eassumption|extending]].

Section Steps.
Context `{AEADLaws}.
Variables (publisher : Publisher) (channel : bytes) (staging : bool).
Variables (records : history eff → PublicationIntent → Prop) (h0 : history eff).
Abbreviation repository := (pb_repository publisher).
Abbreviation G := (publication_protocol publisher channel staging records).
Abbreviation R := go_typed.
Abbreviation doing := (acting (S:=PublisherState) G R).
Abbreviation reported := (reported channel).
Abbreviation current := (current channel h0).
Abbreviation reported_since := (reported_since channel h0).
Abbreviation valid_state := (valid_state publisher channel).
Hypothesis Hcheckpoint :
  ∀ c, pb_trustedCheckpoint publisher = Some c → (wm_Generation c ≤ u64_max)%N.

Lemma validatePublicationCheckpoint_doing w checkpoint h :
  (wm_Generation w ≤ u64_max)%N →
  doing (validatePublicationCheckpoint publisher channel w checkpoint) h (λ h' _, ext_reads h h').
Proof.
  intros Hw. unfold validatePublicationCheckpoint. do 2 do_step.
  assert (∀ anchor, doing
    (if wm_RepositoryID w !=? wm_RepositoryID checkpoint then mfail [ErrUntrustedReference]
     else if (wm_Generation w <? wm_Generation checkpoint)%N then mfail [ErrRollbackDetected]
     else if wm_Generation w ==? wm_Generation checkpoint then
       mguard (wm_Commit w !=? wm_Commit checkpoint) [ErrSplitBrain] ;;;
       mmodify (set_checkpointValidated channel w)
     else
       commit <- getCommit publisher (wm_Commit w) ;;
       mlift (validateCommitManifest commit (wm_Generation w)) ;;;
       validatePublicationDescendant publisher (referenceOf w) commit anchor ;;;
       mmodify (set_checkpointValidated channel w)) h (λ h' _, ext_reads h h')) as Hwalk.
  { intros anchor. case_match; [by do_step|]. case_match; [by do_step|].
    case_match; [do 2 do_step; [done|by do_step]|].
    do_step. eapply doing_reading; [apply getCommit_reading|]. intros h1 [c|e] E1 _; [|done].
    do 2 do_step. destruct (validateCommitManifest c (wm_Generation w)) eqn:Hv; simpl; [|done].
    do_step. eapply doing_reading;
      [apply (validateDescendant_reading _ R G (protocol_reads _ _ _ _) (getCommit_loads _ _ _ _)
                (referenceOf w) c _ _ Hw)|].
    intros h2 [[]|e] E2 _; [do_step|]; by etrans. }
  match goal with s : PublisherState |- _ => destruct (ps_checkpointValidated s !! channel) as [v|] end; [|apply Hwalk].
  do 3 (do_if; [by do_step|]). apply Hwalk.
Qed.

Lemma loadPublicationJournal_doing h :
  extends h0 h →
  doing (loadPublicationJournal publisher channel) h (λ h' r,
    ∀ st rev, r = Ok (Some (st, rev)) → current h' st rev ∧ valid_state st).
Proof.
  intros Hx. unfold loadPublicationJournal. do_step. apply doing_callr; [done|].
  intros [[[st rev]|]|e] Hr; [|by do_step|done].
  pose proof (Hr st rev eq_refl) as Hmax. clear Hr.
  assert (current (h ++ [Ev (PJ_Load channel) (Ok (Some (st, rev)))]) st rev) as Hcur.
  { split; [|split; [left; by apply since_snoc|etrans; [exact Hx|apply extends_snoc]]].
    rewrite journal_view_snoc. simpl. by rewrite bool_decide_eq_true_2. }
  revert Hcur. generalize (h ++ [Ev (PJ_Load channel) (Ok (Some (st, rev)))]). intros h1 Hcur.
  do 2 do_step; [done|]. do_step. unfold validateLoadedPublicationJournal.
  do 2 do_step. destruct (validatePublicationJournalState st) as [[]|] eqn:Hv; simpl; [|done].
  do 2 do_step; [done|]. bool_prop.
  assert (valid_state st) as Hst.
  { split_and!; [done|done|done|]. intros p Hp. by apply (journal_ok_pending st p Hv Hp). }
  assert (∀ h2, ext_reads h1 h2 → doing (mret (Some (st, rev))) h2 (λ h' r,
    ∀ st rev, r = Ok (Some (st, rev)) → current h' st rev ∧ valid_state st)) as Hend.
  { intros h2 E2. do_step. intros st' rev' [= <- <-]. split; [|done].
    by eapply current_reads. }
  destruct (pb_trustedCheckpoint publisher) as [c|]; [|do_step; by apply Hend].
  destruct (js_Committed st) as [w|] eqn:Hw; [|by do_step].
  do 2 do_step; [done|]. do 2 do_step; [done|].
  eapply doing_mono; [apply validatePublicationCheckpoint_doing; by apply Hmax|].
  intros h2 [u|e] _ E2; [by apply Hend|done].
Qed.

Lemma compareAndSwapJournal_doing expected next h :
  extends h0 h → G h _ (PJ_CompareAndSwap channel expected next) →
  doing (compareAndSwapPublicationJournal channel expected next) h (λ h' r,
    ∀ rev, r = Ok rev → current h' next rev).
Proof.
  intros Hx HG. unfold compareAndSwapPublicationJournal. do_step. apply doing_callr; [done|].
  intros [rev|e] _; [|done]. do 2 do_step; [done|]. do_step. intros rev' [= <-].
  split; [rewrite journal_view_snoc; simpl; by rewrite bool_decide_eq_true_2|].
  split; [right; exists expected; by apply since_snoc|etrans; [exact Hx|apply extends_snoc]].
Qed.

Lemma loadOrInitialize_doing h :
  extends h0 h →
  doing (loadOrInitializePublicationJournal publisher channel) h (λ h' r,
    ∀ st rev, r = Ok (st, rev) → current h' st rev ∧ valid_state st).
Proof.
  intros Hx. unfold loadOrInitializePublicationJournal. do_step.
  eapply doing_mono; [by apply loadPublicationJournal_doing|].
  intros h1 [[[st rev]|]|e] E1 L1; [| |done].
  { do 2 do_step; [done|]. do_step. intros st' rev' [= <- <-]. by apply L1. }
  do 2 do_step; [done|]. do 2 do_step.
  eapply doing_mono; [apply compareAndSwapJournal_doing; [by etrans|by simpl]|].
  intros h2 [rev|casErr] E2 L2.
  { do_step. apply (doing_mono _ _ (λ h' r, r = Ok tt ∧ h' = h2)).
    { by case_match; do_step. }
    intros h3 r _ [-> ->]. do_step. intros st' rev' [= <- <-]. split; [by apply L2|].
    by split_and!. }
  do 2 do_step; [done|]. do 2 do_step.
  eapply doing_mono; [apply loadPublicationJournal_doing; extending|].
  intros h3 [[[st rev]|]|e] E3 L3; simpl; [|by do_step|done].
  do_step. intros st' rev' [= <- <-]. by apply L3.
Qed.

#[local] Arguments equalPublicationIntentSemantics : simpl never.
#[local] Arguments equalPublicationIntents : simpl never.

Lemma equalSemantics_same a b :
  equalPublicationIntentSemantics (Some a) (Some b) = true → same_intent a b.
Proof.
  intros E. unfold equalPublicationIntentSemantics, equalPublicationIntents in E. bool_prop. split_and!; try done. by apply equalWatermarkPointers_eq.
Qed.

Lemma equalIntents_semantics a b :
  equalPublicationIntents (Some a) (Some b) = true → same_intent a b.
Proof.
  intros E. unfold equalPublicationIntentSemantics, equalPublicationIntents in E. bool_prop. split_and!; try done. by apply equalWatermarkPointers_eq.
Qed.

Lemma equalSemantics_refl p q :
  same_intent p q → equalPublicationIntentSemantics (Some p) (Some q) = true.
Proof.
  intros (E1 & E2 & E3 & E4 & E5). unfold equalPublicationIntentSemantics. rewrite E1, E2, E3, E4, E5, !bool_decide_eq_true_2 by done.
  destruct (pi_Base q); simpl; [by rewrite bool_decide_eq_true_2|done].
Qed.

Lemma equalIntents_replaces a b version :
  equalPublicationIntents (Some a) (Some b) = true →
  pi_ExpectedVersion b = Some version → replaces a (Some version).
Proof.
  intros E Hb. unfold equalPublicationIntents in E. rewrite Hb in E. bool_prop. simpl.
  unfold equalVersionPointers in *. destruct (pi_ExpectedVersion a); [|done]. by bool_prop; subst.
Qed.

Lemma equalWatermarks_refl a : equalWatermarkPointers a a = true.
Proof. destruct a; simpl; [by apply bool_decide_eq_true_2|done]. Qed.

(** Recording an observation of the remote envelope. *)
Lemma refresh_doing st rev object h p :
  current h st rev → valid_state st → js_Pending st = Some p →
  doing (refreshPublicationObservation publisher channel st rev object) h (λ h' r,
    ∀ st' rev', r = Ok (st', rev') →
      current h' st' rev' ∧ valid_state st' ∧
      ∃ p', js_Pending st' = Some p' ∧ same_intent p p' ∧ replaces p' (Some (ob_Version object))).
Proof.
  intros Hc Hv Hp. pose proof (proj2 (proj2 Hc)) as Hx. unfold refreshPublicationObservation. rewrite Hp.
  do 2 do_step; [done|]. do 2 do_step; [done|]. do_if.
  { do_step. intros st' rev' [= <- <-]. split_and!; [done..|]. exists p. split_and!; [done..|].
    by eapply equalIntents_replaces. }
  do 2 do_step. eapply doing_mono; [apply compareAndSwapJournal_doing; [done|]|].
  { split; [done|]. exists st. split_and!; [by eapply current_reported| |by simpl|by rewrite Hp].
    apply lineage_transition; [done|done|done|]. right; right. simpl. rewrite Hp.
    rewrite equalWatermarks_refl. by apply equalSemantics_refl. }
  intros h1 [newRevision|casErr] E1 L1.
  { do_step. intros st' rev' [= <- <-]. split_and!; [by apply L1| |by eexists].
    destruct Hv as (? & ? & ? & Hb). split_and!; [done..|]. intros p' [= <-]. by apply (Hb p). }
  do 2 do_step; [done|]. do 2 do_step.
  eapply doing_mono; [apply loadPublicationJournal_doing; extending|].
  intros h2 [[[st' rev']|]|e] E2 L2; simpl; [|by do_step|done].
  destruct (L2 _ _ eq_refl) as [Hc' Hv']. do 2 do_step; [done|]. do 2 do_step; [done|]. do_step.
  intros st2 rev2 [= <- <-]. split_and!; [done..|].
  destruct (js_Pending st') as [p'|]; [|done]. bool_prop. exists p'. split_and!; [done|by apply equalSemantics_same|].
  by eapply equalIntents_replaces.
Qed.

Lemma reload_doing initial h :
  extends h0 h →
  doing (reloadPublicationRecovery publisher channel initial) h (λ h' r,
    ∀ st rev, r = Ok (st, rev) → current h' st rev ∧ valid_state st).
Proof.
  intros Hx. unfold reloadPublicationRecovery. do_step.
  eapply doing_mono; [by apply loadPublicationJournal_doing|].
  intros h1 [[[st rev]|]|e] E1 L1; [|by do_step|done]. do 2 do_step; [done|]. do_step.
  intros st' rev' [= <- <-]. by apply L1.
Qed.

(** Recording the outcome; the committed history must be continued. *)
Lemma finalize_doing st rev committed sn outcome h :
  extends h0 h → reported h st rev → valid_state st → lineage (js_Committed st) (Some committed) →
  doing (finalizePublication publisher st rev committed sn outcome) h (λ h' r,
    ∀ pr, r = Ok pr → sn_Generation sn = wm_Generation committed ∧
      sn_Commit sn = wm_Commit committed ∧
      pr = {| pr_Outcome := outcome;
              pr_IntentID := match js_Pending st with Some p => pi_IntentID p | None => Digest_zero end;
              pr_Current := sn |}).
Proof.
  intros Hx Hr Hv Hl. unfold finalizePublication. do 2 do_step; [done|]. bool_prop.
  destruct Hv as (_ & -> & _). do 2 do_step.
  apply (doing_mono _ _ (λ _ _, True)).
  { eapply doing_mono; [apply compareAndSwapJournal_doing; [done|]|done].
    split; [done|]. exists st. split_and!; [done| |done|done].
    apply lineage_transition; [done|done|done|]. right. by left. }
  intros h1 r1 E1 _. do_step. apply (doing_mono _ _ (λ _ _, True)).
  { destruct r1 as [?|casErr]; [by do_step|]. do 2 do_step; [done|]. do 2 do_step.
    eapply doing_mono; [apply loadPublicationJournal_doing; extending|].
    intros h2 [[[st' rev']|]|e] _ _; simpl; [|by do_step|done]. by do_step. }
  intros h2 [[]|e] _ _; [|done]. do_step. by intros pr [= <-].
Qed.

(** *** What the publisher knows of its pending intent *)

(** The intent continues its base. *)
Definition intent_lineage (p : PublicationIntent) : Prop :=
  lineage (pi_Base p) (Some (pi_Next p)) ∧ (wm_Generation (pi_Next p) ≤ u64_max)%N.

Lemma same_intent_lineage p q : same_intent p q → intent_lineage p → intent_lineage q.
Proof. unfold same_intent, intent_lineage. by intros (_ & _ & -> & -> & _). Qed.

Lemma validatePending_reading p :
  (∀ b, pi_Base p = Some b → (wm_Generation b ≤ u64_max)%N) →
  reading G R (validatePendingPublication publisher channel p) (λ r,
    ∀ sn, r = Ok sn → intent_lineage p ∧
      validatePublicationJournalIntent (verifierID publisher) channel p = Ok tt ∧
      sn_Generation sn = wm_Generation (pi_Next p) ∧ sn_Commit sn = wm_Commit (pi_Next p)).
Proof.
  intros Hmax. unfold validatePendingPublication. do 2 rd_step.
  destruct (validatePublicationJournalIntent (verifierID publisher) channel p) as [[]|] eqn:Hv;
    simpl; [|done].
  destruct (validateIntent_ok _ _ _ _ Hv Hmax) as (Hadv & _).
  rd_step. eapply reading_mono; [apply verifySigned_reading, protocol_reads|]. intros [ref|e] _; [|done].
  do 2 rd_step; [done|]. bool_prop. rd_step.
  eapply reading_mono; [apply readPublicationCommit_reading|]. intros [c|e] Hc; [|done].
  specialize (Hc c eq_refl). rd_step.
  eapply (reading_mono _ _ _ (λ r, r = Ok tt → lineage (pi_Base p) (Some (pi_Next p)))).
  { destruct Hadv as [[-> Hb]|[-> ->]].
    - rewrite bool_decide_eq_true_2 by done. destruct (pi_Base p) as [b|]; rd_step; try done.
      intros _. bool_prop. destruct Hb as [Hb _]. simpl. rewrite Hb in *.
      eapply ancestor_step; [done|done|constructor].
    - rewrite bool_decide_eq_false_2 by done. rd_step. constructor. }
  intros [[]|e] Hl; [|done]. rd_step. intros sn [= <-]. split_and!; [split|..]; try done.
  - by apply Hl.
  - destruct Hadv as [[_ Hb]|[_ Hb]]; [|by apply Hmax].
    destruct (pi_Base p); [apply Hb|]. rewrite Hb. by compute.
Qed.

(** The store acknowledged, after [h0], the swap to the intent's exact bytes. *)
Definition acknowledged (h : history eff) (p : PublicationIntent) : Prop :=
  ∃ v expected raw version, rp_store repository = Some v ∧
    sv_open v (SignedReferenceKey repository channel) raw = Ok (pi_Reference p) ∧
    since h0 h (Ev (Store_CompareAndSwap (SignedReferenceKey repository channel) expected raw) (Ok version)).

(** A snapshot that an authenticated reference, read after [h0], shows. *)
Definition shown_by (h : history eff) (sn : Snapshot) (ref : snapshotReference) (object : Object) : Prop :=
  reference_read repository channel (pb_referenceVerifier publisher) h0 h ref object ∧
  sr_Generation ref = sn_Generation sn ∧ sr_Commit ref = sn_Commit sn.

(** A snapshot that the journal, after [h0], reported as committed. *)
Definition committed_at (h : history eff) (sn : Snapshot) (w : Watermark) : Prop :=
  ∃ st rev, reported_since h st rev ∧ js_Committed st = Some w ∧
    wm_Generation w = sn_Generation sn ∧ wm_Commit w = sn_Commit sn.

(** Why a recovered intent counts as applied: the acknowledgement, an
    authenticated remote reference, which for a re-signing must be the exact
    envelope, or, for a snapshot, the journal's own committed watermark. *)
Definition installed (h : history eff) (p : PublicationIntent) (sn : Snapshot) : Prop :=
  acknowledged h p ∨
  (∃ ref object, shown_by h sn ref object ∧
     (pi_Kind p = PublicationIntentResign → ob_Data object = pi_Reference p)) ∨
  (pi_Kind p ≠ PublicationIntentResign ∧ ∃ w, committed_at h sn w).

Definition applied (h : history eff) (p : PublicationIntent) (pr : PublicationRecovery) : Prop :=
  pr_IntentID pr = pi_IntentID p ∧
  ancestor (sn_Generation (pr_Current pr)) (sn_Commit (pr_Current pr))
    (wm_Generation (pi_Next p)) (wm_Commit (pi_Next p)) ∧
  installed h p (pr_Current pr).

(** Why it counts as superseded: an authenticated remote reference that
    continues the base of the intent and is not its result, or another committed
    watermark. *)
Definition superseded (h : history eff) (p : PublicationIntent) (pr : PublicationRecovery) : Prop :=
  pr_IntentID pr = pi_IntentID p ∧
  ((∃ ref object, shown_by h (pr_Current pr) ref object ∧
      lineage (pi_Base p) (Some (remoteOf publisher ref)) ∧
      ¬ (remoteOf publisher ref = pi_Next p ∧
         (pi_Kind p = PublicationIntentResign → ob_Data object = pi_Reference p))) ∨
   (pi_Kind p ≠ PublicationIntentResign ∧ ∃ w, committed_at h (pr_Current pr) w ∧ w ≠ pi_Next p)).

(** The result of recovering an intent. *)
Definition recovers (p : PublicationIntent) (h : history eff) (r : result PublicationRecovery) : Prop :=
  ∀ pr, r = Ok pr →
    (pr_Outcome pr = PublicationRecoveryApplied ∧ applied h p pr) ∨
    (pr_Outcome pr = PublicationRecoverySuperseded ∧ (intent_lineage p → superseded h p pr)).

Lemma same_intent_recovers p q h r : same_intent p q → recovers q h r → recovers p h r.
Proof.
  unfold recovers, applied, superseded, installed, acknowledged, intent_lineage.
  by intros (-> & -> & -> & -> & ->).
Qed.

Lemma shown_mono h h' sn ref object : extends h h' → shown_by h sn ref object → shown_by h' sn ref object.
Proof. intros He [Hr Hs]. split; [|done]. eapply reference_read_mono; [reflexivity|done|done]. Qed.

Lemma committed_mono h h' sn w : extends h h' → committed_at h sn w → committed_at h' sn w.
Proof. intros He (st & rev & Hr & Hw). exists st, rev. split; [by eapply reported_since_mono|done]. Qed.

Lemma applied_extends p h h' pr : extends h h' → applied h p pr → applied h' p pr.
Proof.
  intros He (E & Ha & Hi). split_and!; [done|done|].
  destruct Hi as [(v & ex & raw & ver & ? & ? & Hin)|[(ref & ob & Hs & Hk)|(Hk & w & Hw)]].
  - left. exists v, ex, raw, ver. split_and!; [done..|]. eapply since_mono; [reflexivity|done|done].
  - right. left. exists ref, ob. split; [by eapply shown_mono|done].
  - right. right. split; [done|]. exists w. by eapply committed_mono.
Qed.

(** *** Intents that another process resolved *)

Lemma getReference_doing h :
  doing (getReferenceWithVerifier repository channel [] (pb_referenceVerifier publisher)) h (λ h' r,
    ext_reads h h' ∧
    ∀ ref object, r = Ok (ref, object) →
      reference_read repository channel (pb_referenceVerifier publisher) h h' ref object).
Proof.
  intros s. eapply mwp_mono; [apply mwp_conj;
    [apply getReference_reading, protocol_reads|apply getReference_acting, protocol_reads]|].
  intros h' s' r [(_ & E & _) [_ Hr]]. split; [by apply extends_reads|done].
Qed.

Lemma readCommit_doing w h :
  doing (readPublicationCommit publisher w) h (λ h' r,
    ext_reads h h' ∧ ∀ c, r = Ok c → commit_at (wm_Generation w) (wm_Commit w) c).
Proof. eapply doing_reading; [apply readPublicationCommit_reading|]. auto. Qed.

Lemma descendant_doing ref c anchor h :
  (sr_Generation ref ≤ u64_max)%N → commit_at (sr_Generation ref) (sr_Commit ref) c →
  doing (validatePublicationDescendant publisher ref c anchor) h (λ h' r,
    ext_reads h h' ∧ (r = Ok tt →
      ancestor (sr_Generation ref) (sr_Commit ref) (wm_Generation anchor) (wm_Commit anchor))).
Proof.
  intros Hm Hc. eapply doing_reading.
  { by apply (validateDescendant_spec _ R G (protocol_reads _ _ _ _) (getCommit_loads _ _ _ _)). }
  intros h' r E Hr. split; [done|]. intros ->. by apply Hr.
Qed.

Lemma descends_doing w c anchor h :
  (wm_Generation w ≤ u64_max)%N → commit_at (wm_Generation w) (wm_Commit w) c →
  doing (publicationDescends publisher w c anchor) h (λ h' r,
    ext_reads h h' ∧ (r = Ok true →
      ancestor (wm_Generation w) (wm_Commit w) (wm_Generation anchor) (wm_Commit anchor))).
Proof.
  intros Hm Hc. eapply doing_reading; [by apply publicationDescends_reading|].
  intros h' r E Hr. split; [done|]. intros ->. by apply Hr.
Qed.

Lemma superseding_doing w c base h :
  (wm_Generation w ≤ u64_max)%N → commit_at (wm_Generation w) (wm_Commit w) c →
  doing (validSupersedingPublication publisher w c base) h (λ h' r,
    ext_reads h h' ∧ (r = Ok true → lineage base (Some w))).
Proof.
  intros Hm Hc. eapply doing_reading; [by apply validSupersedingPublication_reading|].
  intros h' r E Hr. split; [done|]. intros ->. destruct base as [b|]; [|done].
  by apply (Hr eq_refl b eq_refl).
Qed.

Lemma classifyResign_doing p committed h :
  extends h0 h → pi_Kind p = PublicationIntentResign →
  doing (classifyResolvedResign publisher channel p committed) h (recovers p).
Proof.
  intros Hx Hkind. unfold classifyResolvedResign. do 2 do_step. eapply doing_mono; [apply getReference_doing|].
  intros h1 [[ref object]|e] E1 [_ Hv]; simpl; [|done]. specialize (Hv _ _ eq_refl).
  do_step. eapply doing_mono; [apply readCommit_doing|]. intros h2 [c|e] E2 [_ Hc]; [|done].
  specialize (Hc c eq_refl). pose proof Hv as [(_ & _ & _ & _ & Hmax & _) _].
  do 2 (do 2 do_step; [done|]). do_step. apply (doing_mono _ _ (λ _ _, True)).
  { do_if; [|by do_step]. eapply doing_mono; [by apply descendant_doing|done]. }
  intros h3 [[]|e] E3 _; [|done]. do 2 do_step; [done|]. do 2 do_step; [done|]. do_step.
  match goal with Hlow : (_ <? wm_Generation (pi_Next p))%N = false, Hsame : _ && _ = false |- _ =>
    rename Hlow into Hlow'; rename Hsame into Hsame' end.
  apply (doing_mono _ _ (λ _ r, ∀ o, r = Ok o →
    o = PublicationRecoveryApplied ∧ remoteOf publisher ref = pi_Next p ∧ ob_Data object = pi_Reference p ∨
    o = PublicationRecoverySuperseded ∧
      ¬ (remoteOf publisher ref = pi_Next p ∧ ob_Data object = pi_Reference p) ∧
      ancestor (sr_Generation ref) (sr_Commit ref) (wm_Generation (pi_Next p)) (wm_Commit (pi_Next p)))).
  { do_if as Happ; [do_step; intros o [= <-]; left; by bool_prop|]. do_if; [by do_step|].
    assert (¬ (remoteOf publisher ref = pi_Next p ∧ ob_Data object = pi_Reference p)) as Hnot.
    { intros [En Er]. by rewrite !bool_decide_true in Happ. }
    do_if as Hgt.
    - do_step. eapply doing_mono; [by apply descendant_doing|]. intros h4 [[]|e] _ [_ Hd]; [|done].
      do_step. intros o [= <-]. right. split_and!; [done|done|by apply Hd].
    - do_step. intros o [= <-]. right. split_and!; [done|done|].
      apply N.ltb_ge in Hlow', Hgt. simpl in Hlow', Hgt.
      assert (sr_Generation ref = wm_Generation (pi_Next p)) as Eg by lia.
      simpl in Hsame'. rewrite Eg, bool_decide_true in Hsame' by done. simpl in Hsame'.
      apply negb_false_iff, bool_decide_eq_true in Hsame'. rewrite Eg, Hsame'. constructor. }
  intros h4 [o|e] E4 Ho; [|done]. do_step. intros pr [= <-]. simpl.
  assert (shown_by h4 (snapshotFromPublicationCommit (remoteOf publisher ref) c) ref object) as Hshown.
  { split; [|done]. eapply reference_read_mono; [exact Hx| |exact Hv]. extending. }
  destruct (Ho o eq_refl) as [(-> & Hn & Hd)|(-> & Hn & Ha)]; [left|right]; (split; [done|]).
  - split_and!; simpl; [done|rewrite <- Hn; constructor|]. right. left. by exists ref, object.
  - intros [Hl _]. split; [done|]. left. exists ref, object. split_and!; [done|by etrans|naive_solver].
Qed.

Lemma classifyResolved_doing p st rev h :
  extends h0 h → reported_since h st rev → valid_state st →
  doing (classifyResolvedPublication publisher channel p (js_Committed st)) h (recovers p).
Proof.
  intros Hx Hr Hv. unfold classifyResolvedPublication.
  destruct (js_Committed st) as [w|] eqn:Hw; [|by do_step].
  assert (wm_Generation w ≤ u64_max)%N as Hmax by (by apply Hv).
  do_if; bool_prop; [by apply classifyResign_doing|]. do_step.
  eapply doing_reading; [apply snapshotForPublicationWatermark_reading|].
  intros h1 [sn|e] E1 Hsn; [|done]. destruct (Hsn sn eq_refl) as (c & Hc & ->). do_step.
  apply (doing_mono _ _ (λ h' r, ∀ o, r = Ok o →
    o = PublicationRecoveryApplied ∧
      ancestor (wm_Generation w) (wm_Commit w) (wm_Generation (pi_Next p)) (wm_Commit (pi_Next p)) ∨
    o = PublicationRecoverySuperseded ∧ w ≠ pi_Next p)).
  { do_if; bool_prop; [do_step; intros o [= <-]; left; split; [done|]; subst; constructor|].
    do_if; [|by do_step; intros o [= <-]; right]. do_step.
    eapply doing_mono; [apply readCommit_doing|]. intros h2 [c'|e] _ [_ Hc']; [|done]. do_step.
    eapply doing_mono; [apply descends_doing; [done|by apply Hc']|].
    intros h3 [[]|e] _ [_ Hd]; [| |done]; do_step; intros o [= <-]; [left|by right]. split; [done|by apply Hd]. }
  intros h2 [o|e] E2 Ho; [|done]. do_step. intros pr [= <-]. simpl.
  assert (committed_at h2 (snapshotFromPublicationCommit w c) w) as Hat.
  { exists st, rev. split_and!; try done. eapply reported_since_mono; [|exact Hr]. extending. }
  destruct (Ho o eq_refl) as [(-> & Ha)|(-> & Hn)]; [left|right]; (split; [done|]).
  - split_and!; [done|done|]. right. right. split; [done|]. by exists w.
  - intros _. split; [done|]. right. split; [done|]. by exists w.
Qed.

(** *** The loop *)

(** What the next iteration may assume. *)
Definition continues (initial : PublicationIntent)
    (k : PublicationJournalState → PublicationJournalRevision → error →
         M eff PublisherState PublicationRecovery) : Prop :=
  ∀ st rev e h, current h st rev → valid_state st → doing (k st rev e) h (recovers initial).

Lemma attempt_doing initial target st rev p expected k h :
  current h st rev → valid_state st → js_Pending st = Some p → same_intent initial p →
  intent_lineage p → continues initial k → replaces p expected →
  doing (attemptReference publisher channel initial target st rev p expected k) h
    (recovers initial).
Proof.
  intros Hc Hv Hp Hs Hl Hk Hexp. pose proof (proj2 (proj2 Hc)) as Hx. unfold attemptReference. do 2 do_step.
  pose proof (proj2 (proj2 (proj2 Hv)) p Hp) as Hbase.
  apply (doing_mono _ _ (λ h' r, ∀ version, r = Ok version → acknowledged h' p)).
  { unfold Repository_compareAndSwap, with_store.
    destruct (rp_store repository) as [v|] eqn:Hst; [|by do_step]. do_step.
    intros s. apply (sv_CompareAndSwap_spec R G (protocol_reads _ _ _ _)).
    - intros h' raw E Ho. split; [done|]. exists v, st, rev, p. split_and!; [done| |done..].
      by eapply current_reads.
    - intros h' e E. by split; [apply extends_reads|].
    - intros h' raw [version|e] E Ho _; simpl.
      + split; [etrans; [by apply extends_reads|apply extends_snoc]|].
        do 2 do_step. destruct (validateStoreVersion version); simpl; [|done]. do_step.
        intros _ _. exists v, expected, raw, version. split_and!; [done..|].
        apply since_snoc. extending.
      + by split; [etrans; [by apply extends_reads|apply extends_snoc]|]. }
  intros h1 [version|e] E1 Hack.
  - eapply doing_mono; [apply finalize_doing|].
    + extending.
    + eapply reported_extends; [done|]. by eapply current_reported.
    + done.
    + rewrite <- Hbase. apply Hl.
    + intros h2 r E2 Hpr. apply (same_intent_recovers _ p); [done|]. intros pr ->. left.
      destruct (Hpr pr eq_refl) as (Hg & Hcm & ->).
      split; [done|]. eapply (applied_extends p); [exact E2|]. rewrite Hp.
      split_and!; simpl; [done| |left; by eapply Hack]. rewrite Hg, Hcm. constructor.
  - do_step. eapply doing_mono; [apply reload_doing; extending|]. intros h2 [[st' rev']|e'] E2 Hre; [|done].
    destruct (Hre _ _ eq_refl) as [??]. by apply Hk.
Qed.

Lemma retry_doing initial target st rev p object k h :
  current h st rev → valid_state st → js_Pending st = Some p → same_intent initial p →
  intent_lineage p → continues initial k →
  doing (retryReference publisher channel initial target st rev object k) h (recovers initial).
Proof.
  intros Hc Hv Hp Hs Hl Hk. unfold retryReference. do_step.
  eapply doing_mono; [by apply (refresh_doing _ _ _ _ p)|].
  intros h1 [[st' rev']|e] E1 Hre; [|done]. destruct (Hre _ _ eq_refl) as (Hc' & Hv' & p' & Hp' & Hs' & Hexp).
  rewrite Hp'. apply attempt_doing; try done; [by etrans|by eapply same_intent_lineage].
Qed.

(** Recording a remote reference that continues the journal's history. *)
Lemma finalize_remote_doing initial st rev p ref object c outcome h1 h :
  reported h1 st rev → extends h0 h1 → extends h1 h → valid_state st → js_Pending st = Some p →
  same_intent initial p →
  reference_read repository channel (pb_referenceVerifier publisher) h0 h1 ref object →
  lineage (pi_Base p) (Some (remoteOf publisher ref)) →
  (outcome = PublicationRecoveryApplied ∧
     ancestor (sr_Generation ref) (sr_Commit ref)
       (wm_Generation (pi_Next p)) (wm_Commit (pi_Next p)) ∧
     (pi_Kind p = PublicationIntentResign → ob_Data object = pi_Reference p)) ∨
  (outcome = PublicationRecoverySuperseded ∧
     ¬ (remoteOf publisher ref = pi_Next p ∧
        (pi_Kind p = PublicationIntentResign → ob_Data object = pi_Reference p))) →
  doing (finalizePublication publisher st rev (remoteOf publisher ref)
           (snapshotFromPublicationCommit (remoteOf publisher ref) c) outcome) h (recovers initial).
Proof.
  intros Hr Hx He Hv Hp Hs Hrv Hl Ho. eapply doing_mono.
  { apply finalize_doing; [by etrans|by eapply reported_extends|done|].
    by rewrite <- (proj2 (proj2 (proj2 Hv)) p Hp). }
  intros h2 r E2 Hpr. apply (same_intent_recovers _ p); [done|]. intros pr ->.
  destruct (Hpr pr eq_refl) as (_ & _ & ->). rewrite Hp. simpl.
  assert (shown_by h2 (snapshotFromPublicationCommit (remoteOf publisher ref) c) ref object) as Hshown.
  { split; [|done]. eapply reference_read_mono; [reflexivity| |exact Hrv]. by etrans. }
  destruct Ho as [(-> & Ha & Hd)|[-> Hn]]; [left|right]; (split; [done|]).
  - split_and!; [done|done|]. right. left. by exists ref, object.
  - intros _. split; [done|]. left. by exists ref, object.
Qed.

Lemma observed_doing initial target st rev p ref object k h :
  current h st rev → valid_state st → js_Pending st = Some p → same_intent initial p →
  intent_lineage p → continues initial k →
  reference_read repository channel (pb_referenceVerifier publisher) h0 h ref object →
  doing (recoverObserved publisher channel initial target st rev p ref object k) h
    (recovers initial).
Proof.
  intros Hc Hv Hp Hs Hl Hk Hrv. unfold recoverObserved. pose proof Hrv as [(_ & _ & _ & _ & Hmax & _) _].
  pose proof (current_reported _ _ _ _ _ Hc) as Hr. pose proof (proj2 (proj2 Hc)) as Hx.
  do_step. eapply doing_mono; [apply readCommit_doing|]. intros h1 [c|e] E1 [R1 Hcm]; [|done].
  specialize (Hcm c eq_refl). do_step.
  eapply (doing_mono _ _ (λ h' _, ext_reads h1 h')).
  { case_match; [|by do_step]. do 2 do_step; [done|]. by do_step. }
  intros h2 [[]|e] E2 R2; [|done].
  assert (current h2 st rev) as Hc2 by (eapply current_reads; [|done]; by etrans).
  assert (extends h h2) as E02 by (by etrans).
  assert (remoteOf publisher ref = pi_Next p → lineage (pi_Base p) (Some (remoteOf publisher ref)))
    as Hsame by (intros ->; apply Hl).
  assert (ancestor (sr_Generation ref) (sr_Commit ref)
            (wm_Generation (pi_Next p)) (wm_Commit (pi_Next p)) →
          lineage (pi_Base p) (Some (remoteOf publisher ref))) as Hbelow.
  { intros Ha. etrans; [apply Hl|]. exact Ha. }
  do_if; [|do_if; [|do_if; [do_if|do_if]]]; bool_prop.
  - do_if; [|do_if; [|by apply (retry_doing _ _ _ _ p)]]; bool_prop.
    + eapply (finalize_remote_doing initial st rev p ref object); try done; [by apply Hsame|].
      left. split_and!; [done| |done]. match goal with E : remoteOf _ _ = _ |- _ => rewrite <- E end.
      constructor.
    + eapply (finalize_remote_doing initial st rev p ref object); try done; [by apply Hsame|].
      right. naive_solver.
  - eapply (finalize_remote_doing initial st rev p ref object); try done; [by apply Hsame|].
    left. match goal with E : remoteOf _ _ = _ |- _ => rewrite <- E end.
    split_and!; [done|constructor|]. intros Hk'.
    match goal with E : _ && _ = false |- _ => apply andb_false_iff in E as [E|E] end;
      by bool_prop.
  - do_step. eapply doing_mono; [by apply descends_doing|]. intros h3 [d|e] E3 [R3 Hd]; [|done].
    do 2 do_step; [done|]. bool_prop. subst d.
    eapply (finalize_remote_doing initial st rev p ref object); try done; [by etrans| |].
    + apply Hbelow. by apply Hd.
    + right. split; [done|]. intros [E _]. rewrite <- E in *. simpl in *. lia.
  - do_step. eapply doing_mono; [by apply descends_doing|]. intros h3 [[]|e] E3 [R3 Hd]; [| |done].
    + eapply (finalize_remote_doing initial st rev p ref object); try done; [by etrans|..].
      * apply Hbelow. by apply Hd.
      * left. split_and!; [done|by apply Hd|done].
    + do_step. eapply doing_mono; [by apply superseding_doing|].
      intros h4 [[]|e] E4 [R4 Hw]; [|by do_step|done].
      eapply (finalize_remote_doing initial st rev p ref object); try done; [by do 2 (etrans; [done|])|by apply Hw|].
      right. split; [done|]. intros [E _]. rewrite <- E in *. simpl in *. lia.
  - by apply (retry_doing _ _ _ _ p).
  - do_step. eapply doing_mono; [by apply superseding_doing|].
    intros h4 [[]|e] E4 [R4 Hw]; [|by do_step|done].
    eapply (finalize_remote_doing initial st rev p ref object); try done; [by etrans|by apply Hw|].
    right. split; [done|]. by intros [E _].
Qed.

Lemma recoverLoop_doing n initial target :
  intent_lineage initial →
  continues initial (recoverLoop publisher n channel initial target).
Proof.
  intros Hl. induction n as [|n IH]; intros st rev e h Hc Hv; simpl; [by do_step|].
  do 2 do_step. apply doing_checkCtx. intros h1 [[]|?] R1; simpl; [|done].
  assert (current h1 st rev) as Hc1 by (by eapply current_reads).
  destruct (js_Pending st) as [p|] eqn:Hp.
  2:{ apply (classifyResolved_doing initial st rev); [apply Hc1|apply Hc1|done]. }
  do 2 do_step; [done|]. bool_prop.
  match goal with E : equalPublicationIntentSemantics _ _ = true |- _ =>
    apply equalSemantics_same in E as Hs end.
  pose proof (same_intent_lineage _ _ Hs Hl) as Hlp.
  do 2 do_step. eapply doing_mono; [apply getReference_doing|].
  intros h2 [[ref object]|getErr] E2 [R2 Hrv].
  - apply (observed_doing initial target st rev p); try done; [by eapply current_reads|].
    eapply reference_read_mono; [|reflexivity|by apply Hrv]. apply Hc1.
  - do_if; [|by do_step]. do 2 do_step; [done|]. bool_prop.
    apply attempt_doing; try done. by eapply current_reads.
Qed.

Lemma recoverPublication_doing st rev p h :
  current h st rev → valid_state st → js_Pending st = Some p →
  doing (recoverPublication publisher channel st rev) h (λ h' r,
    (∀ pr, r = Ok pr → intent_lineage p ∧
       validatePublicationJournalIntent (verifierID publisher) channel p = Ok tt) ∧ recovers p h' r).
Proof.
  intros Hc Hv Hp. unfold recoverPublication. rewrite Hp. do_step.
  eapply doing_reading; [apply validatePending_reading|].
  { intros b Hb. rewrite (proj2 (proj2 (proj2 Hv)) p Hp) in Hb. by apply Hv. }
  intros h1 [target|e] R1 Ht; [|by split]. destruct (Ht _ eq_refl) as (Hl & Hi & _).
  eapply doing_mono.
  { apply (recoverLoop_doing publicationRecoveryAttempts p target Hl st rev errorText);
      [by eapply current_reads|done]. }
  intros h2 r _ Hr. by split.
Qed.

(** What a recovery says: of an intent the journal held pending that it was
    applied or superseded, or, without one, what the journal has committed. *)
Definition recovered (h : history eff) (r : result PublicationRecovery) : Prop :=
  ∀ pr, r = Ok pr → ∃ st rev, reported_since h st rev ∧
    match js_Pending st with
    | Some p =>
        validatePublicationJournalIntent (verifierID publisher) channel p = Ok tt ∧
        ((pr_Outcome pr = PublicationRecoveryApplied ∧ applied h p pr) ∨
         (pr_Outcome pr = PublicationRecoverySuperseded ∧ superseded h p pr))
    | None =>
        pr_Outcome pr = PublicationRecoveryNone ∧
        match js_Committed st with
        | Some w => ∃ c, commit_at (wm_Generation w) (wm_Commit w) c ∧
            pr_Current pr = snapshotFromPublicationCommit w c
        | None => pr_Current pr = Snapshot_zero
        end
    end.

Lemma RecoverPublication_doing h :
  extends h0 h → doing (RecoverPublication publisher channel) h recovered.
Proof.
  intros Hx. unfold RecoverPublication. do 2 do_step; [done|]. do 2 do_step.
  destruct (Repository_validateChannel repository channel); simpl; [|done]. do_step.
  eapply doing_mono; [by apply loadOrInitialize_doing|]. intros h1 [[st rev]|e] E1 Hst; [|done].
  destruct (Hst _ _ eq_refl) as [Hc Hv]. pose proof Hc as (_ & Hrep & _).
  assert (∀ h2, extends h1 h2 → reported_since h2 st rev) as Hlater.
  { intros h2 E2. by eapply reported_since_mono. }
  destruct (js_Pending st) as [p|] eqn:Hp.
  - eapply doing_mono; [by apply recoverPublication_doing|]. intros h2 r E2 [Hi Hr] pr ->.
    destruct (Hi pr eq_refl) as [Hl Hval]. exists st, rev. split; [by apply Hlater|]. rewrite Hp.
    split; [done|]. destruct (Hr pr eq_refl) as [?|[? Hs]]; [by left|right]. split; [done|by apply Hs].
  - destruct (js_Committed st) as [w|] eqn:Hw.
    + do_step. eapply doing_reading; [apply snapshotForPublicationWatermark_reading|].
      intros h2 [sn|e] E2 Hsn; [|done]. destruct (Hsn sn eq_refl) as (c & Hcm & ->).
      do_step. intros pr [= <-]. exists st, rev. split; [apply Hlater; by apply extends_reads|].
      rewrite Hp, Hw. split; [done|]. by exists c.
    + do_step. intros pr [= <-]. exists st, rev. by rewrite Hp, Hw.
Qed.

Lemma preparePublicationJournal_doing h :
  extends h0 h →
  doing (preparePublicationJournal publisher channel) h (λ h' r,
    ∀ st rev, r = Ok (st, rev) → current h' st rev ∧ valid_state st ∧ js_Pending st = None).
Proof.
  intros Hx. unfold preparePublicationJournal. do_step.
  eapply doing_mono; [by apply loadOrInitialize_doing|]. intros h1 [[st rev]|e] E1 Hst; [|done].
  destruct (Hst _ _ eq_refl) as [Hc Hv]. destruct (js_Pending st) as [p|] eqn:Hp.
  - do_step. eapply doing_mono; [by apply (recoverPublication_doing st rev p)|].
    intros h2 [pr|e] E2 _; [|done]. do_step.
    eapply doing_mono; [apply loadPublicationJournal_doing; extending|].
    intros h3 [[[st' rev']|]|e] E3 Hst'; [|by do_step|done]. do 2 do_step; [done|]. bool_prop.
    do_step. intros st2 rev2 [= <- <-]. destruct (Hst' _ _ eq_refl). by split_and!.
  - do_step. intros st2 rev2 [= <- <-]. by split_and!.
Qed.

(** Adopting a reference that another publisher installed. *)
Lemma adopt_doing st rev w h :
  extends h0 h → reported h st rev → valid_state st → js_Pending st = None → (wm_Generation w ≤ u64_max)%N →
  lineage (js_Committed st) (Some w) →
  doing (adoptPublication publisher channel st rev w) h (λ h' r,
    ∀ st' rev', r = Ok (st', rev') → reported h' st' rev' ∧ valid_state st' ∧
      js_Pending st' = None ∧ js_Committed st' = Some w).
Proof.
  intros Hx Hr Hv Hp Hmax Hl. unfold adoptPublication. do 2 do_step.
  eapply doing_mono; [apply compareAndSwapJournal_doing; [done|]|].
  { split; [done|]. exists st. split_and!; [done| |done|simpl; by rewrite Hp].
    apply lineage_transition; [done..|]. by left. }
  intros h2 [newRevision|casErr] E2 Hcas.
  - do_step. intros st' rev' [= <- <-].
    split_and!; [by eapply current_reported, Hcas| |done|done].
    destruct Hv as (? & ? & ? & ?). split_and!; [done|done|by intros ? [= <-]|].
    simpl. by rewrite Hp.
  - do 2 do_step; [done|]. do 2 do_step.
    eapply doing_mono; [apply loadPublicationJournal_doing; extending|].
    intros h3 [[[st' rev']|]|e] E3 Hst'; simpl; [|by do_step|done].
    destruct (Hst' _ _ eq_refl) as [Hc' Hv']. do_if; [|by do_step]. bool_prop. do_step.
    intros st2 rev2 [= <- <-]. split_and!; [by eapply current_reported|done|done|].
    by apply equalWatermarkPointers_eq.
Qed.

Lemma acceptObserved_doing st rev ref object c h :
  extends h0 h → reported h st rev → valid_state st →
  reference_valid channel (pb_referenceVerifier publisher) ref object →
  commit_at (sr_Generation ref) (sr_Commit ref) c →
  doing (acceptObservedPublication publisher channel st rev ref c) h (λ h' r,
    ∀ st' rev', r = Ok (st', rev') → reported h' st' rev' ∧ valid_state st' ∧
      js_Pending st' = None ∧ js_Committed st' = Some (remoteOf publisher ref)).
Proof.
  intros Hx Hr Hv (_ & _ & _ & _ & Hmax & _) Hcm. unfold acceptObservedPublication.
  do_step. apply doing_guard; intros Hp; [done|]. bool_prop.
  destruct (js_Committed st) as [w|] eqn:Hw; [|by apply adopt_doing; rewrite ?Hw].
  do 2 (do 2 do_step; [done|]). do_if.
  { do_step. intros st' rev' [= <- <-]. bool_prop. by subst w. }
  do_step. eapply doing_mono; [by apply descendant_doing|].
  intros h1 [[]|e] E1 [_ Hd]; [|done].
  apply adopt_doing; [by etrans|by eapply reported_extends|done|done|done|]. rewrite Hw. by apply Hd.
Qed.

(** Recording the intent of a staged snapshot. *)
Lemma beginPublication_doing n staged intent st rev h :
  ss_channel staged = channel → extends h0 h → reported h st rev → valid_state st → js_Pending st = None →
  (∀ h', extends h h' → records h' intent) →
  doing (beginPublication publisher n staged intent st rev) h (λ h' r,
    ∀ sn, r = Ok (Some sn) → sn = ss_snapshot staged ∧ ∃ pr, applied h' intent pr).
Proof.
  intros Hch. revert st rev h.
  induction n as [|n IH]; intros st rev h Hx Hr Hv Hp Hrec; simpl; [by do_step|].
  rewrite Hch. do 2 do_step. eapply doing_mono; [apply compareAndSwapJournal_doing; [done|]|].
  { split; [done|]. exists st. split_and!; [done| |by simpl|intros _ p [= <-]; by apply Hrec].
    apply lineage_transition; [done..|]. by left. }
  intros h1 [newRevision|casErr] E1 Hcas; [by do_step|].
  do 2 do_step; [done|]. do 2 do_step. eapply doing_mono; [apply loadPublicationJournal_doing; extending|].
  intros h2 [[[st' rev']|]|e] E2 Hst'; simpl; [|by do_step|done].
  destruct (Hst' _ _ eq_refl) as [Hc' Hv']. pose proof (current_reported _ _ _ _ _ Hc') as Hr'.
  destruct (js_Pending st') as [p'|] eqn:Hp'; [do 2 do_step; [done|by do_step]|].
  do_if.
  { apply IH; try done; [extending|]. intros h' E'. apply Hrec. extending. }
  do_step. eapply doing_mono; [apply (classifyResolved_doing intent st' rev'); [extending|apply Hc'|done]|].
  intros h3 [pr|e] E3 Happ; [|done]. do_if; [|by do_step]. bool_prop. do_step.
  intros sn [= <-]. split; [done|]. exists pr. destruct (Happ pr eq_refl) as [[_ ?]|[? _]]; [done|congruence].
Qed.

(** An intent of the staged snapshot, or one with its identifier, was applied. *)
Definition committed_as (h : history eff) (intent : PublicationIntent) : Prop :=
  ∃ p pr, (same_intent intent p ∨
      collide (intentMessageOf (verifierID publisher) channel intent)
        (intentMessageOf (verifierID publisher) channel p)) ∧ applied h p pr.

Lemma commitSigned_doing staged h :
  ss_channel staged = channel → extends h0 h → utf8_ok channel →
  (∀ st rev, ss_publicationState staged = Some st → ss_publicationRevision staged = Some rev →
     reported h st rev ∧ valid_state st) →
  (∀ intent, ss_publicationIntent staged = Some intent →
     validatePublicationJournalIntent (verifierID publisher) channel intent = Ok tt ∧
     ∀ h', extends h h' → records h' intent) →
  doing (commitSignedPublication publisher staged) h (λ h' r,
    ∀ sn, r = Ok sn → sn = ss_snapshot staged ∧
      ∃ intent, ss_publicationIntent staged = Some intent ∧ committed_as h' intent).
Proof.
  intros Hch Hx Hutf Hst Hint. unfold commitSignedPublication.
  destruct (ss_publicationState staged) as [st|]; [|by do_step].
  destruct (ss_publicationRevision staged) as [rev|]; [|by do_step].
  destruct (ss_publicationIntent staged) as [intent|]; [|by do_step].
  destruct (Hst st rev eq_refl eq_refl) as [Hr Hv]. destruct (Hint intent eq_refl) as [Hval Hrecords].
  assert (∀ h' pr, applied h' intent pr → committed_as h' intent) as Hself.
  { intros h' pr Ha. exists intent, pr. split; [by left|done]. }
  apply doing_bind, doing_guard; intros Hg; [done|]. bool_prop. apply doing_bind.
  eapply doing_mono; [by apply beginPublication_doing|].
  intros h1 [[sn|]|e] E1 Hb; [| |done].
  { do_step. intros sn' [= <-]. destruct (Hb sn eq_refl) as (-> & pr & Ha). split; [done|]. eauto. }
  do_step. rewrite Hch. eapply doing_mono; [apply RecoverPublication_doing; extending|].
  intros h2 [pr|e] E2 Hrec; [|done]. do_if.
  { bool_prop. do_step. intros sn [= <-]. split; [done|]. exists intent. split; [done|].
    destruct (Hrec pr eq_refl) as (st2 & rev2 & _ & Hp2).
    destruct (js_Pending st2) as [p|]; [|destruct Hp2; congruence].
    destruct Hp2 as [Hvp [[_ Ha]|[? _]]]; [|congruence]. exists p, pr. split; [|done].
    apply valid_intents_same; try done. destruct Ha as [? _]. congruence. }
  do_if; [|by do_step]. do_step. eapply doing_mono; [apply loadPublicationJournal_doing; extending|].
  intros h3 [[[st' rev']|]|e] E3 Hst'; [|by do_step|done]. destruct (Hst' _ _ eq_refl) as [Hc' Hv'].
  do_step. eapply doing_mono.
  { apply (classifyResolved_doing intent st' rev'); [extending|apply Hc'|done]. }
  intros h4 [pr'|e] E4 Ha; [|done]. do_if; [|by do_step]. bool_prop. do_step.
  intros sn [= <-]. split; [done|]. exists intent. split; [done|].
  destruct (Ha pr' eq_refl) as [[_ ?]|[? _]]; [eauto|congruence].
Qed.
End Steps.

(** ** Properties *)


(** C5: a committed snapshot is installed.  Committing a staged snapshot whose
    journal state was reported and whose intent is valid obeys the same
    write-ahead discipline, and the only new intent it asks the journal to hold
    is the staged one.  It returns success only with the staged snapshot itself,
    and only if during the commit that intent, or one the journal held with the
    same identifier (which is the same publication unless SHA-256 collides), was
    applied: the store acknowledged its bytes, or a reference that was read from
    the store and authenticated, or the journal's committed watermark, shows a
    snapshot that descends from its target. *)
Theorem commitSignedPublication_installed `{AEADLaws} (publisher : Publisher)
    (staged : StagedSnapshot) (s : PublisherState) (h : history eff) :
  (∀ c, pb_trustedCheckpoint publisher = Some c → (wm_Generation c ≤ u64_max)%N) →
  validateChannel (ss_channel staged) = Ok tt →
  (∀ intent, ss_publicationIntent staged = Some intent →
     validatePublicationJournalIntent (verifierID publisher) (ss_channel staged) intent = Ok tt) →
  (∀ st rev, ss_publicationState staged = Some st → ss_publicationRevision staged = Some rev →
     reported (ss_channel staged) h st rev ∧ valid_state publisher (ss_channel staged) st) →
  mwp go_typed
    (publication_protocol publisher (ss_channel staged) false (λ _ p, ss_publicationIntent staged = Some p))
    (commitSignedPublication publisher staged) s h (λ h' _ r,
      ∀ sn, r = Ok sn → sn = ss_snapshot staged ∧
        ∃ intent, ss_publicationIntent staged = Some intent ∧
          committed_as publisher (ss_channel staged) h h' intent).
Proof.
  intros Hc Hch Hval Hst. eapply mwp_mono.
  { apply commitSigned_doing; [done|done|reflexivity|by apply validateChannel_utf8|done|]. intros intent Hi.
    split; [by apply Hval|done]. }
  by intros h' s' r [_ Hr].
Qed.

(** ** A publication *)

Definition toy_publisher : Publisher :=
  {| pb_Chunking := {| co_MinSize := 64; co_AverageSize := 128; co_MaxSize := 256;
                       co_Polynomial := defaultPolynomial |};
     pb_StableReadTries := 3; pb_Symlinks := SymlinkRejectExternal; pb_ProtectedSourceFiles := [];
     pb_repository :=
       {| rp_reader := SV_External false None; rp_store := Some (SV_External false None);
          rp_prefix := str "team"; rp_clientEncryption := None; rp_descriptor := None |};
     pb_referenceSigner := Some (as_signer toy_signer);
     pb_referenceVerifier := Some (as_verifier toy_verifier);
     pb_publicationJournal := true; pb_trustedCheckpoint := None;
     pb_allowTrustOnFirstUse := true |}.

(** The in-memory store with a one-channel journal whose revisions count up. *)
Record toy_world := {
  tw_store : Store;
  tw_journal : option PublicationJournalState;
  tw_revision : nat;
}.

Definition toy_revision (n : nat) : PublicationJournalRevision :=
  replicate 32 (Ascii.byte_of_ascii (Ascii.ascii_of_nat n)).

Definition toy_serve : handler eff toy_world := λ X e w,
  match e in eff T return toy_world * T with
  | PJ_Load _ =>
      (w, Ok match tw_journal w with
             | Some st => Some (st, toy_revision (tw_revision w)) | None => None end)
  | PJ_CompareAndSwap _ expected next =>
      if expected ==? match tw_journal w with
                      | Some _ => Some (toy_revision (tw_revision w)) | None => None end
      then ({| tw_store := tw_store w; tw_journal := Some next; tw_revision := S (tw_revision w) |},
            Ok (toy_revision (S (tw_revision w))))
      else (w, Err [ErrPrecondition])
  | Verifier_Verify keyID message signature =>
      (w, (ed25519_handler (H:=toy_ed25519) toy_signer toy_verifier _
             (Verifier_Verify keyID message signature) tt).2)
  | Signer_Sign message =>
      (w, (ed25519_handler (H:=toy_ed25519) toy_signer toy_verifier _ (Signer_Sign message) tt).2)
  | e' =>
      let '(store, x) := store_handler live _ e' (tw_store w) in
      ({| tw_store := store; tw_journal := tw_journal w; tw_revision := tw_revision w |}, x)
  end.

Definition toy_first_watermark : Watermark :=
  {| wm_RepositoryID := fixture_digest 1; wm_Generation := 1; wm_Commit := toy_first |}.
Definition toy_publish : PublicationIntent :=
  let reference := toy_signed (str "main") toy_first_watermark in
  {| pi_IntentID := publicationIntentID (fixture_digest 1) (str "main") PublicationIntentPublish
                      None toy_first_watermark reference;
     pi_Kind := PublicationIntentPublish; pi_Base := None; pi_Next := toy_first_watermark;
     pi_ExpectedVersion := None; pi_ExpectedReference := Digest_zero; pi_Reference := reference |}.

(** A crashed publisher: the commit is stored and the intent recorded. *)
Definition toy_crashed (pending : option PublicationIntent) : toy_world :=
  {| tw_store := (run (store_handler live)
       (putManifest (H:=toy_aead) (pb_repository toy_publisher) (str "commit") (toy_commit 1 None) tt)
       New).1;
     tw_journal := Some (toy_journal None pending); tw_revision := 1 |}.

(** Its recovery installs the recorded bytes and clears the intent. *)
Example toy_recovery :
  let '(w, (_, r)) := run toy_serve
    (RecoverPublication (H:=toy_aead) toy_publisher (str "main") PublisherState_zero) (toy_crashed (Some toy_publish)) in
  match r with Ok pr => pr_Outcome pr = PublicationRecoveryApplied | Err _ => False end ∧
  tw_journal w = Some (toy_journal (Some toy_first_watermark) None) ∧
  match ms_objects (tw_store w) !! SignedReferenceKey (pb_repository toy_publisher) (str "main") with
  | Some ob => ob_Data ob = pi_Reference toy_publish | None => False end.
Proof. vm_compute. repeat split. Qed.


(** The snapshot of [toy_publish], staged. *)
Definition toy_staged : StagedSnapshot :=
  {| ss_owner := true; ss_channel := str "main"; ss_expected := None;
     ss_referenceData := pi_Reference toy_publish;
     ss_publicationState := Some (toy_journal None None);
     ss_publicationRevision := Some (toy_revision 1); ss_publicationIntent := Some toy_publish;
     ss_unchanged := false;
     ss_snapshot := {| sn_Generation := 1; sn_Commit := toy_first; sn_Root := fixture_digest 5;
                       sn_PublishedAt := 1700000000000000000 |} |}.

Example toy_commit_staged :
  let '(w, (_, r)) := run toy_serve
    (commitSignedPublication (H:=toy_aead) toy_publisher toy_staged PublisherState_zero) (toy_crashed None) in
  r = Ok (ss_snapshot toy_staged) ∧
  tw_journal w = Some (toy_journal (Some toy_first_watermark) None).
Proof. vm_compute. repeat split. Qed.

Lemma commitSignedPublication_installed_witness :
  let h := [Ev (PJ_Load (str "main")) (Ok (Some (toy_journal None None, toy_revision 1)))] in
  mwp go_typed
    (publication_protocol (H:=toy_aead) toy_publisher (str "main") false
       (λ _ p, ss_publicationIntent toy_staged = Some p))
    (commitSignedPublication (H:=toy_aead) toy_publisher toy_staged) PublisherState_zero h (λ h' _ r,
      ∀ sn, r = Ok sn → sn = ss_snapshot toy_staged ∧
        ∃ intent, ss_publicationIntent toy_staged = Some intent ∧
          committed_as (H:=toy_aead) toy_publisher (str "main") h h' intent).
Proof.
  intros h.
  apply (@commitSignedPublication_installed toy_aead toy_aead_laws toy_publisher toy_staged PublisherState_zero h).
  - intros c Hc. discriminate Hc.
  - by vm_compute.
  - intros intent [= <-]. by vm_compute.
  - intros st rev [= <-] [= <-]. split; [left; by left|].
    refine (conj eq_refl (conj eq_refl (conj _ _))); intros ? Hx; discriminate Hx.
Defined.
