(* ===== verification/Scan.v ===== *)
(** * Scanning a source tree ([publisher.go], [chunking.go])

    Path selections, and the scan that uploads a directory tree bottom-up: the
    chunks of each file, then its manifest, then the manifests of the
    directories.  The operating system and the content-defined splitter are
    calls ([src_eff]), so the tree may change while it is scanned. *)

From S2P Require Import Prelude.
From S2P Require Import Prog.
From S2P Require Import GoStd.
From S2P Require Import Encoding.
From S2P Require Import Sha256.
From S2P Require Import Json.
From S2P Require Import Model.
From S2P Require Import Manifests.
From S2P Require Import Effects.
From S2P Require Import Os.
From S2P Require Import Trust.
From S2P Require Import MemStore.
From S2P Require Import ClientEncryption.
From S2P Require Import Repository.
From S2P Require Import Recovery.

(** ** Selections *)

(** The trie of selected paths; the children are a Go map. *)
Inductive pathSelection := PathSelection (includeAll : bool) (children : list (bytes * pathSelection)).
Definition sel_includeAll (s : pathSelection) : bool := let '(PathSelection i _) := s in i.
Definition sel_children (s : pathSelection) : list (bytes * pathSelection) :=
  let '(PathSelection _ c) := s in c.

Fixpoint sel_child (name : bytes) (children : list (bytes * pathSelection)) : option pathSelection :=
  match children with
  | [] => None
  | (n, s) :: children => if n ==? name then Some s else sel_child name children
  end.

Fixpoint sel_replace (name : bytes) (child : pathSelection) (children : list (bytes * pathSelection))
    : list (bytes * pathSelection) :=
  match children with
  | [] => []
  | (n, s) :: children => if n ==? name then (n, child) :: children else (n, s) :: sel_replace name child children
  end.

Section Selection.
Context {S : Type}.
Abbreviation T := (M eff S) (only parsing).

(** One path into the trie; [nodeCount] counts the nodes created so far. *)
Fixpoint selectPath (components : list bytes) (node : pathSelection) (nodeCount : Z)
    : T (pathSelection * Z) :=
  match components with
  | [] =>
      mguard (sel_includeAll node) [ErrInvalidPath] ;;;
      mguard (match sel_children node with [] => false | _ => true end) [ErrInvalidPath] ;;;
      mret (PathSelection true (sel_children node), nodeCount)
  | component :: components =>
      checkCtx ;;;
      mguard ((len component =? 0) || (maxEntryNameBytes <? len component))
             [ErrInvalidPath; ErrResourceLimit] ;;;
      mguard (sel_includeAll node) [ErrInvalidPath] ;;;
      match sel_child component (sel_children node) with
      | Some child =>
          ' (child, nodeCount) <- selectPath components child nodeCount ;;
          mret (PathSelection (sel_includeAll node) (sel_replace component child (sel_children node)),
                nodeCount)
      | None =>
          mguard (maxDirectoryEntries <? nodeCount + 1) [ErrInvalidPath; ErrResourceLimit] ;;;
          ' (child, nodeCount) <- selectPath components (PathSelection false []) (nodeCount + 1) ;;
          mret (PathSelection (sel_includeAll node) (sel_children node ++ [(component, child)]), nodeCount)
      end
  end.

(** The checks of one selected path: its components. *)
Definition selectionComponents (value : bytes) (totalBytes : Z) : result (list bytes) :=
  guard_err ((value ==? []) || contains_nul value || path_IsAbs value) [ErrInvalidPath] ?;;
  guard_err (maxLookupPathBytes <? len value) [ErrInvalidPath; ErrResourceLimit] ?;;
  guard_err (maxMetadataObjectBytes <? totalBytes) [ErrInvalidPath; ErrResourceLimit] ?;;
  let cleaned := path_Clean value in
  guard_err ((cleaned !=? value) || (cleaned ==? dotdot) || HasPrefix cleaned (dotdot ++ [slash]))
            [ErrInvalidPath] ?;;
  let components := if cleaned ==? dot then [] else Split slash cleaned in
  guard_err (maxLookupDepth <? len components) [ErrInvalidPath; ErrResourceLimit] ?;;
  Ok components.

Fixpoint selectPaths (values : list bytes) (root : pathSelection) (totalBytes nodeCount : Z)
    : T pathSelection :=
  match values with
  | [] => mret root
  | value :: values =>
      checkCtx ;;;
      let totalBytes := totalBytes + len value in
      components <- mlift (selectionComponents value totalBytes) ;;
      ' (root, nodeCount) <- selectPath components root nodeCount ;;
      selectPaths values root totalBytes nodeCount
  end.

Definition newPathSelectionContext (values : list bytes) : T (option pathSelection) :=
  checkCtx ;;;
  mguard (len values =? 0) [ErrInvalidPath] ;;;
  mguard (maxDirectoryEntries <? len values) [ErrInvalidPath; ErrResourceLimit] ;;;
  root <- selectPaths values (PathSelection false []) 0 0 ;;
  mret (if sel_includeAll root then None else Some root).
End Selection.

(** ** The scan *)

Record chunkData := {
  cd_Digest : Digest;
  cd_Size : Z;
  cd_Data : bytes;
}.

(** sort.Slice by name; the names of a directory differ, so the order it
    produces is determined. *)
Fixpoint insertEntry (e : dirEntry) (entries : list dirEntry) : list dirEntry :=
  match entries with
  | [] => [e]
  | x :: rest =>
      match bytes_Compare (els (de_Name e)) (els (de_Name x)) with
      | Gt => x :: insertEntry e rest
      | _ => e :: entries
      end
  end.
Definition sortEntries (entries : list dirEntry) : list dirEntry := foldr insertEntry [] entries.

(** An identity that must not be published: an open handle and its info. *)
Abbreviation protectedSourceIdentity := (handle * FileInfo)%type.

Section Scan.
Context `{AEAD} `{Chunker}.
Variable publisher : Publisher.
Abbreviation P := (M eff PublisherState) (only parsing).
Abbreviation repository := (pb_repository publisher).

Definition src {X} (op : src_eff (result X)) : P X := mcallr (Source op).
(** A call whose error is ignored. *)
Definition ignore (op : src_eff (option error)) : P unit := mcall (Source op) ;;; mret tt.

(** [walkChunks] with the closure's variables as [acc]; [fuel] bounds the
    number of pieces. *)
Fixpoint walkPieces {A} (fuel : nat) (file : handle) (options : ChunkingOptions)
    (visit : A → chunkData → P A) (acc : A) : P A :=
  match fuel with
  | O => mfail [ErrResourceLimit]
  | S fuel =>
      checkCtx ;;;
      chunk <- src (Splitter_Next file (co_Polynomial options) (co_MinSize options)
                      (co_MaxSize options) (averageBits options)) ;;
      match chunk with
      | None => mret acc
      | Some data =>
          acc <- visit acc {| cd_Digest := digestObject (str "chunk") data; cd_Size := len data;
                              cd_Data := data |} ;;
          walkPieces fuel file options visit acc
      end
  end.

Definition walkChunks {A} (fuel : nat) (file : handle) (options : ChunkingOptions)
    (visit : A → chunkData → P A) (acc : A) : P A :=
  options <- mlift (normalized options) ;;
  walkPieces fuel file options visit acc.

(** The closure of buildFile: upload, then append to the manifest. *)
Definition uploadChunk (acc : list chunkRef * Z) (chunk : chunkData) : P (list chunkRef * Z) :=
  let '(chunks, offset) := acc in
  mguard (maxFileChunks <=? len chunks) [ErrResourceLimit] ;;;
  digest <- putImmutable repository (str "chunk") (cd_Data chunk) ;;
  mguard (digest !=? cd_Digest chunk) [ErrCorruptObject] ;;;
  mret (chunks ++ [{| cr_Offset := offset; cr_Size := cd_Size chunk; cr_Digest := digest |}],
        int64_wrap (offset + cd_Size chunk)).

(** More pieces than [maxFileChunks] are refused by [uploadChunk]. *)
Definition pieceLimit : nat := S (Z.to_nat maxFileChunks).

Definition fileManifestOf (chunks : list chunkRef) (size : Z) : fileManifest :=
  let c := pb_Chunking publisher in
  {| fm_Format := objectFormatVersion; fm_Algorithm := str "rabin-v1"; fm_MinSize := co_MinSize c;
     fm_AvgSize := co_AverageSize c; fm_MaxSize := co_MaxSize c; fm_Polynomial := co_Polynomial c;
     fm_Size := size; fm_Chunks := Some chunks |}.

(** The checks of an opened file before it is read; the file is closed if one
    fails. *)
Definition checkOpened (file : handle) (expected : FileInfo) (protected : list protectedSourceIdentity)
    : P FileInfo :=
  checked <- mtry (
    before <- src (File_Stat file) ;;
    mguard (negb (IsRegular before) || negb (SameFile expected before)) [ErrUnstableFile] ;;;
    mguard (existsb (λ pinned, SameFile before pinned.2) protected) [ErrProtectedSourceFile] ;;;
    mguard (maxFileChunks * co_MaxSize (pb_Chunking publisher) <? fi_Size before) [ErrResourceLimit] ;;;
    mret before) ;;
  match checked with
  | Ok before => mret before
  | Err err => ignore (File_Close file) ;;; mfail err
  end.

(** One attempt: the result, or None if the file was not stable. *)
Definition buildFileOnce (path : bytes) (expected : FileInfo) (protected : list protectedSourceIdentity)
    : P (option (Digest * Z * FileInfo)) :=
  opened <- mtry (src (Root_Open path)) ;;
  match opened with
  | Err err => mfail (if errors_Is err OsErrNotExist then ErrUnstableFile :: err else err)
  | Ok file =>
      before <- checkOpened file expected protected ;;
      walked <- mtry (walkChunks pieceLimit file (pb_Chunking publisher) uploadChunk ([], 0)) ;;
      stat <- mtry (src (File_Stat file)) ;;
      closeErr <- mcall (Source (File_Close file)) ;;
      ' (chunks, offset) <- mlift walked ;;
      after <- mlift stat ;;
      mlift (match closeErr with Some err => Err err | None => Ok tt end) ;;;
      current <- mtry (src (Root_Stat path)) ;;
      match current with
      | Ok current =>
          if SameFile after current && stableFileInfo before after && (fi_Size after =? offset) then
            digest <- putManifest repository (str "file") (fileManifestOf chunks offset) ;;
            mret (Some (digest, offset, after))
          else mret None
      | Err err => if errors_Is err OsErrNotExist then mret None else mfail err
      end
  end.

Fixpoint buildFile (attempts : nat) (path : bytes) (expected : FileInfo)
    (protected : list protectedSourceIdentity) : P (Digest * Z * FileInfo) :=
  match attempts with
  | O => mfail [ErrUnstableFile]
  | S attempts =>
      built <- buildFileOnce path expected protected ;;
      match built with
      | Some x => mret x
      | None => buildFile attempts path expected protected
      end
  end.

Definition buildSymlink (linkPath : bytes) (expected : FileInfo) : P (Digest * Z) :=
  before <- mwrap (λ _, [ErrUnstableFile]) (src (Root_Lstat linkPath)) ;;
  mguard (negb (SameFile expected before) || negb (stableFileInfo expected before)
          || negb (IsSymlink before)) [ErrUnstableFile] ;;;
  target <- src (Root_Readlink linkPath) ;;
  after <- mwrap (λ _, [ErrUnstableFile]) (src (Root_Lstat linkPath)) ;;
  mguard (negb (SameFile before after) || negb (stableFileInfo before after)) [ErrUnstableFile] ;;;
  mguard ((len target =? 0) || (maxSymlinkTargetBytes <? len target)) [ErrResourceLimit] ;;;
  match pb_Symlinks publisher with
  | SymlinkRejectExternal => mlift (validateSafeSymlink linkPath target)
  | SymlinkPreserve => mret tt
  end ;;;
  digest <- putManifest repository (str "symlink")
              {| sm_Format := objectFormatVersion; sm_Target := Some target |} ;;
  mret (digest, len target).

(** The batches of ReadDir until io.EOF; [fuel] bounds the number of batches. *)
Fixpoint readEntries (fuel : nat) (file : handle) (entries : list bytes) : P (list bytes) :=
  match fuel with
  | O => mfail [ErrResourceLimit]
  | S fuel =>
      checkCtx ;;;
      ' (batch, readErr) <- mcall (Source (File_ReadDir file 1024)) ;;
      let entries := entries ++ batch in
      mguard (maxDirectoryEntries <? len entries) [ErrResourceLimit] ;;;
      match readErr with
      | Some err => if errors_Is err IoEOF then mret entries else mfail err
      | None => readEntries fuel file entries
      end
  end.

(** A batch without an error is not empty, so more batches than this exceed the
    limit on entries. *)
Definition batchLimit : nat := S (S (Z.to_nat maxDirectoryEntries)).

(** The part of buildDirectorySelection up to the end of the listing: the
    identity of the directory and its names. *)
Definition listDirectory (directory : bytes) (expected : FileInfo) : P (FileInfo * list bytes) :=
  file <- src (Root_Open directory) ;;
  listed <- mtry (
    before <- src (File_Stat file) ;;
    mguard (negb (IsDir before) || negb (SameFile expected before)
            || negb (stableFileInfo expected before)) [ErrUnstableFile] ;;;
    entries <- readEntries batchLimit file [] ;;
    checkCtx ;;;
    mret (before, entries)) ;;
  match listed with
  | Err err => ignore (File_Close file) ;;; mfail err
  | Ok (before, entries) =>
      closeErr <- mcall (Source (File_Close file)) ;;
      match closeErr with
      | Some err => ignore (File_Close file) ;;; mfail err
      | None => mret (before, entries)
      end
  end.

(** The manifest entry of a name; [recurse] builds a subdirectory. *)
Definition buildEntry (recurse : bytes → FileInfo → option pathSelection → P Digest)
    (directory name : bytes) (depth : Z) (childSelection : option pathSelection)
    (protected : list protectedSourceIdentity) : P dirEntry :=
  mguard ((len name =? 0) || (maxEntryNameBytes <? len name)) [ErrResourceLimit] ;;;
  mguard (maxLookupDepth <=? depth) [ErrResourceLimit] ;;;
  let childPath := path_Join2 directory name in
  mguard (maxLookupPathBytes <? len childPath) [ErrResourceLimit] ;;;
  info <- src (Root_Lstat childPath) ;;
  mguard (match childSelection with
          | Some s => negb (sel_includeAll s) && negb (IsDir info) | None => false end)
         [ErrNotDirectory] ;;;
  let item t node mode size time :=
    {| de_Name := Some name; de_Type := t; de_Node := node; de_Mode := mode; de_Size := size;
       de_ModTimeUnixNano := time |} in
  if IsRegular info then
    ' (node, size, stableInfo) <- buildFile (Z.to_nat (pb_StableReadTries publisher)) childPath info protected ;;
    mret (item EntryFile node (Perm stableInfo) size (fi_ModTime stableInfo))
  else if IsDir info then
    let nestedSelection :=
      match childSelection with
      | Some s => if sel_includeAll s then None else Some s
      | None => None
      end in
    node <- recurse childPath info nestedSelection ;;
    mret (item EntryDir node (Perm info) 0
            (match nestedSelection with Some _ => 0 | None => fi_ModTime info end))
  else if IsSymlink info then
    ' (node, size) <- buildSymlink childPath info ;;
    mret (item EntrySymlink node (Perm info) size (fi_ModTime info))
  else mfail [ErrUnsupportedType].

(** The loop over the names: the manifest entries and the matched names. *)
Fixpoint buildEntries (recurse : bytes → FileInfo → option pathSelection → P Digest)
    (directory : bytes) (depth : Z) (selection : option pathSelection)
    (protected : list protectedSourceIdentity) (names : list bytes)
    : P (list dirEntry * gset bytes) :=
  match names with
  | [] => mret ([], ∅)
  | name :: names =>
      checkCtx ;;;
      let build childSelection matched :=
        item <- buildEntry recurse directory name depth childSelection protected ;;
        ' (items, rest) <- buildEntries recurse directory depth selection protected names ;;
        mret (item :: items, matched ∪ rest) in
      match selection with
      | None => build None ∅
      | Some s =>
          match sel_child name (sel_children s) with
          | None => buildEntries recurse directory depth selection protected names
          | Some child => build (Some child) {[name]}
          end
      end
  end.

(** The directory again, compared with the identity it was listed with. *)
Definition recheckDirectory (directory : bytes) (before : FileInfo) : P unit :=
  file <- mwrap (λ _, [ErrUnstableFile]) (src (Root_Open directory)) ;;
  after <- mtry (src (File_Stat file)) ;;
  closeErr <- mcall (Source (File_Close file)) ;;
  current <- mtry (src (Root_Lstat directory)) ;;
  mguard (match after, closeErr, current with
          | Ok after, None, Ok current =>
              negb (SameFile before after) || negb (SameFile after current)
              || negb (stableFileInfo before after) || negb (stableFileInfo after current)
          | _, _, _ => true
          end) [ErrUnstableFile].

(** The recursion is on the levels left: the depth limit is reached when [fuel]
    is used up. *)
Fixpoint buildDirectorySelection (fuel : nat) (directory : bytes) (expected : FileInfo) (depth : Z)
    (selection : option pathSelection) (protected : list protectedSourceIdentity) : P Digest :=
  checkCtx ;;;
  match fuel with
  | O => mfail [ErrResourceLimit]
  | S fuel =>
      mguard ((maxLookupDepth <? depth) || (maxLookupPathBytes <? len directory)) [ErrResourceLimit] ;;;
      ' (before, names) <- listDirectory directory expected ;;
      ' (items, matched) <- buildEntries
          (λ childPath info nested,
             buildDirectorySelection fuel childPath info (depth + 1) nested protected)
          directory depth selection protected names ;;
      checkCtx ;;;
      recheckDirectory directory before ;;;
      mguard (match selection with
              | Some s => negb (Z.of_nat (size matched) =? len (sel_children s)) | None => false end)
             [ErrPathNotFound] ;;;
      putManifest repository (str "dir")
        {| dm_Format := objectFormatVersion; dm_Entries := Some (sortEntries items) |}
  end.

(** At depth 0 this many levels reach the limit. *)
Definition depthLimit : nat := S (S (Z.to_nat maxLookupDepth)).
End Scan.
