(* ===== verification/Publisher.v ===== *)
(** * Publishing ([publisher.go])

    Construction of a publisher, protected source files, staging of a snapshot,
    and the commit that makes it visible: for unsigned channels one
    compare-and-swap of the reference with the reconciliation of a lost
    response, for signed channels the journal of [Recovery]. *)

From S2P Require Import Prelude.
From S2P Require Import Prog.
From S2P Require Import GoStd.
From S2P Require Import Encoding.
From S2P Require Import Sha256.
From S2P Require Import Json.
From S2P Require Import Model.
From S2P Require Import Manifests.
From S2P Require Import Effects.
From S2P Require Import Trust.
From S2P Require Import MemStore.
From S2P Require Import ClientEncryption.
From S2P Require Import Repository.
From S2P Require Import FileState.
From S2P Require Import Watermark.
From S2P Require Import Journal.
From S2P Require Import Ancestry.
From S2P Require Import Consumer.
From S2P Require Import Recovery.
From S2P Require Import Os.
From S2P Require Import Scan.

Definition maxProtectedSourceFiles : Z := 64.
Definition maxProtectedSourcePathBytes : Z := Z.shiftl 64 10.
Definition maxProtectedSourceTotalBytes : Z := Z.shiftl 1 20.

Record PublisherOptions := {
  po_Chunking : ChunkingOptions;
  po_StableReadTries : Z;
  po_Symlinks : SymlinkPolicy;
  po_ProtectedSourceFiles : list ProtectedSourceFile;
  po_DangerouslyAllowUncommissionedRepository : bool;
  po_ReferenceSigner : dependency ReferenceSigner;
  po_ReferenceVerifier : dependency ReferenceVerifier;
  po_PublicationJournal : dependency unit;
  po_TrustedCheckpoint : option Watermark;
  po_AllowTrustOnFirstUse : bool;
}.

(** ** Protected source files *)

Section Protected.
Context {S : Type}.

Fixpoint normalizeProtected (values : list ProtectedSourceFile) (seen : list bytes) (totalBytes : Z)
    : M eff S (list ProtectedSourceFile) :=
  match values with
  | [] => mret []
  | value :: values =>
      let path := psf_Path value in
      mguard ((path ==? []) || contains_nul path || (maxProtectedSourcePathBytes <? len path))
             [ErrInvalidPath] ;;;
      absolute <- mwrap (λ _, [ErrInvalidPath]) (mcallr (Source (Filepath_Abs path))) ;;
      let absolute := path_Clean absolute in
      mguard (maxProtectedSourcePathBytes <? len absolute) [ErrResourceLimit] ;;;
      let totalBytes := totalBytes + len absolute in
      mguard (maxProtectedSourceTotalBytes <? totalBytes) [ErrResourceLimit] ;;;
      mguard (bool_decide (absolute ∈ seen)) [ErrInvalidPath] ;;;
      rest <- normalizeProtected values (absolute :: seen) totalBytes ;;
      mret ({| psf_Path := absolute; psf_AllowMissingInitially := psf_AllowMissingInitially value |} :: rest)
  end.

Definition normalizeProtectedSourceFiles (values : list ProtectedSourceFile)
    : M eff S (list ProtectedSourceFile) :=
  mguard (maxProtectedSourceFiles <? len values) [ErrResourceLimit] ;;;
  normalizeProtected values [] 0.

Fixpoint initiallyObservedProtectedSourceFiles (values : list ProtectedSourceFile) : M eff S (gset bytes) :=
  match values with
  | [] => mret ∅
  | value :: values =>
      if negb (psf_AllowMissingInitially value) then initiallyObservedProtectedSourceFiles values
      else
        info <- mtry (mcallr (Source (Os_Lstat (psf_Path value)))) ;;
        match info with
        | Ok _ =>
            seen <- initiallyObservedProtectedSourceFiles values ;;
            mret ({[psf_Path value]} ∪ seen)
        | Err err =>
            mguard (negb (errors_Is err OsErrNotExist)) [ErrProtectedSourceFile] ;;;
            initiallyObservedProtectedSourceFiles values
        end
  end.
End Protected.

(** ** Construction *)

Section NewPublisher.
Context `{Chunker}.

(** The chunking profile: the descriptor's, or one equal to it. *)
Definition publisherChunking (repository : Repository) (options : PublisherOptions)
    : result ChunkingOptions :=
  match rp_descriptor repository with
  | Some descriptor =>
      if po_Chunking options ==? ChunkingOptions_zero
      then Ok (RepositoryDescriptor_ChunkingOptions descriptor)
      else
        normalized <-? normalized (po_Chunking options) ;;
        guard_err (normalized !=? RepositoryDescriptor_ChunkingOptions descriptor)
                  [ErrRepositoryConfigurationMismatch] ?;;
        Ok normalized
  | None => normalized (po_Chunking options)
  end.

(** Signer, verifier, journal and checkpoint fit together. *)
Definition checkPublisherTrust (repository : Repository) (options : PublisherOptions) : result unit :=
  match the (po_ReferenceSigner options), the (po_ReferenceVerifier options) with
  | Some signer, Some verifier =>
      guard_err (RepositoryID_IsZero (sg_RepositoryID signer)
                 || (sg_RepositoryID signer !=? rv_RepositoryID verifier)) [ErrUntrustedReference] ?;;
      guard_err (match rp_descriptor repository with
                 | Some descriptor => sg_RepositoryID signer !=? rd_RepositoryID descriptor
                 | None => false end) [ErrUntrustedReference] ?;;
      guard_err (is_nil (po_PublicationJournal options)) [ErrTrustStateRequired] ?;;
      guard_err (match po_TrustedCheckpoint options with
                 | Some checkpoint => (wm_RepositoryID checkpoint !=? rv_RepositoryID verifier)
                     || (wm_Generation checkpoint =? 0)%N || Digest_IsZero (wm_Commit checkpoint)
                 | None => false end) [ErrUntrustedReference]
  | None, None =>
      guard_err (negb (is_nil (po_PublicationJournal options))
                 || negb (po_TrustedCheckpoint options ==? None) || po_AllowTrustOnFirstUse options)
                errorText
  | _, _ => Err errorText
  end.

Definition NewPublisher (repository : option Repository) (options : PublisherOptions)
    : M eff unit (Publisher * PublisherState) :=
  match repository with
  | None => mfail errorText
  | Some repository =>
      mguard (match rp_store repository with None => true | Some _ => false end) [ErrRepositoryReadOnly] ;;;
      mguard (match rp_descriptor repository with
              | None => negb (po_DangerouslyAllowUncommissionedRepository options) | Some _ => false end)
             [ErrRepositoryNotInitialized] ;;;
      mguard (negb (is_nil (po_ReferenceSigner options))
              && negb (interfaceDependencyConfigured (po_ReferenceSigner options))) errorText ;;;
      mguard (negb (is_nil (po_ReferenceVerifier options))
              && negb (interfaceDependencyConfigured (po_ReferenceVerifier options))) errorText ;;;
      mguard (negb (is_nil (po_PublicationJournal options))
              && negb (interfaceDependencyConfigured (po_PublicationJournal options))) errorText ;;;
      chunking <- mlift (publisherChunking repository options) ;;
      let tries := if po_StableReadTries options =? 0 then 3 else po_StableReadTries options in
      mguard ((tries <? 1) || (100 <? tries)) errorText ;;;
      mlift (checkPublisherTrust repository options) ;;;
      protected <- normalizeProtectedSourceFiles (po_ProtectedSourceFiles options) ;;
      seen <- initiallyObservedProtectedSourceFiles protected ;;
      mret ({| pb_repository := repository; pb_Chunking := chunking; pb_StableReadTries := tries;
               pb_Symlinks := po_Symlinks options; pb_ProtectedSourceFiles := protected;
               pb_referenceSigner := the (po_ReferenceSigner options);
               pb_referenceVerifier := the (po_ReferenceVerifier options);
               pb_publicationJournal := negb (is_nil (po_PublicationJournal options));
               pb_trustedCheckpoint := po_TrustedCheckpoint options;
               pb_allowTrustOnFirstUse := po_AllowTrustOnFirstUse options |},
            {| ps_checkpointValidated := ∅; ps_protectedSourceSeen := seen |})
  end.
End NewPublisher.

Section Publisher.
Context `{AEAD} `{Chunker}.
Variable publisher : Publisher.
Abbreviation P := (M eff PublisherState) (only parsing).
Abbreviation repository := (pb_repository publisher).

(** ** Capturing protected files *)

(** One configured file: its pinned identity, or None if there is nothing (new)
    to pin. *)
Definition captureProtected (protected : ProtectedSourceFile)
    (identities : list protectedSourceIdentity) : P (option protectedSourceIdentity) :=
  let path := psf_Path protected in
  checkCtx ;;;
  inspected <- mtry (src (Os_Lstat path)) ;;
  match inspected with
  | Err err =>
      mguard (negb (errors_Is err OsErrNotExist)) [ErrProtectedSourceFile] ;;;
      s <- mget ;;
      mguard (negb (psf_AllowMissingInitially protected)
              || bool_decide (path ∈ ps_protectedSourceSeen s)) [ErrProtectedSourceFile] ;;;
      mret None
  | Ok linked =>
      mmodify (set_protectedSourceSeen path) ;;;
      mguard (IsSymlink linked || negb (IsRegular linked)) [ErrProtectedSourceFile] ;;;
      file <- mwrap (λ _, [ErrProtectedSourceFile]) (src (Os_Open path)) ;;
      opened <- mtry (src (File_Stat file)) ;;
      current <- mtry (src (Os_Lstat path)) ;;
      match opened, current with
      | Ok opened, Ok current =>
          if negb (IsRegular opened) || IsSymlink current || negb (IsRegular current)
             || negb (SameFile linked opened) || negb (SameFile opened current)
          then ignore (File_Close file) ;;; mfail [ErrProtectedSourceFile; ErrUnstableFile]
          else if existsb (λ pinned, SameFile opened pinned.2) identities
          then ignore (File_Close file) ;;; mret None
          else mret (Some (file, opened))
      | _, _ => ignore (File_Close file) ;;; mfail [ErrProtectedSourceFile; ErrUnstableFile]
      end
  end.

Fixpoint closeProtectedSourceFiles (identities : list protectedSourceIdentity) : P unit :=
  match identities with
  | [] => mret tt
  | (file, _) :: identities => ignore (File_Close file) ;;; closeProtectedSourceFiles identities
  end.

Fixpoint captureFiles (files : list ProtectedSourceFile) (identities : list protectedSourceIdentity)
    : P (list protectedSourceIdentity) :=
  match files with
  | [] => mret identities
  | file :: files =>
      captured <- mtry (captureProtected file identities) ;;
      match captured with
      | Err err => closeProtectedSourceFiles identities ;;; mfail err
      | Ok None => captureFiles files identities
      | Ok (Some pinned) => captureFiles files (identities ++ [pinned])
      end
  end.

Definition captureProtectedSourceFiles : P (list protectedSourceIdentity) :=
  captureFiles (pb_ProtectedSourceFiles publisher) [].

(** A deferred call. *)
Definition deferring {A} (cleanup : P unit) (m : P A) : P A :=
  r <- mtry m ;; cleanup ;;; mlift r.

(** ** Staging *)

(** What a new snapshot builds on. *)
Record stageBase := {
  sb_generation : N;
  sb_parent : option Digest;
  sb_expected : option Version;
  sb_previous : option (snapshotReference * commitManifest * Object);
  sb_publication : option (PublicationJournalState * PublicationJournalRevision);
}.

Definition readBase (channel : bytes) : P stageBase :=
  publication <- match pb_referenceVerifier publisher with
                 | Some _ => x <- preparePublicationJournal publisher channel ;; mret (Some x)
                 | None => mret None
                 end ;;
  read <- mtry (getReferenceWithVerifier repository channel [] (pb_referenceVerifier publisher)) ;;
  match read with
  | Ok (current, object) =>
      commit <- getCommit publisher (sr_Commit current) ;;
      mlift (validateCommitManifest commit (sr_Generation current)) ;;;
      publication <- match publication with
                     | Some (state, revision) =>
                         x <- acceptObservedPublication publisher channel state revision current commit ;;
                         mret (Some x)
                     | None => mret None
                     end ;;
      mguard (sr_Generation current =? u64_max)%N [ErrGenerationExhausted] ;;;
      mret {| sb_generation := sr_Generation current + 1; sb_parent := Some (sr_Commit current);
              sb_expected := Some (ob_Version object);
              sb_previous := Some (current, commit, object); sb_publication := publication |}
  | Err err =>
      mguard (negb (errors_Is err ErrObjectNotFound)) err ;;;
      mguard (match publication with
              | Some (state, _) => negb (js_Committed state ==? None) | None => false end)
             [ErrRollbackDetected] ;;;
      mret {| sb_generation := 1; sb_parent := None; sb_expected := None; sb_previous := None;
              sb_publication := publication |}
  end.

(** The intent of a new signed snapshot. *)
Definition publishIntent (channel : bytes) (base : stageBase) (next : Watermark) (referenceData : bytes)
    : result PublicationIntent :=
  let committed := match sb_publication base with Some (state, _) => js_Committed state | None => None end in
  let intent :=
    {| pi_IntentID := publicationIntentID (verifierID publisher) channel PublicationIntentPublish
                        committed next referenceData;
       pi_Kind := PublicationIntentPublish; pi_Base := committed; pi_Next := next;
       pi_ExpectedVersion := sb_expected base;
       pi_ExpectedReference := match sb_expected base, sb_previous base with
         | Some _, Some (_, _, object) => publicationReferenceDigest (ob_Data object)
         | _, _ => Digest_zero end;
       pi_Reference := referenceData |} in
  validatePublicationJournalIntent (verifierID publisher) channel intent ?;;
  Ok intent.

(** The commit and the reference of a built root. *)
Definition stageCommit (channel : bytes) (base : stageBase) (root : Digest) : P StagedSnapshot :=
  publishedAt <- mcall (Source Time_Now) ;;
  commitDigest <- putManifest repository (str "commit")
    {| cm_Format := objectFormatVersion; cm_Generation := sb_generation base;
       cm_Parent := sb_parent base; cm_Root := root; cm_PublishedAtUnix := publishedAt;
       cm_ResetChanges := true |} ;;
  let reference := {| sr_Format := objectFormatVersion; sr_Generation := sb_generation base;
                      sr_Commit := commitDigest |} in
  referenceData <- match pb_referenceSigner publisher with
                   | None => mret (canonicalJSON reference)
                   | Some _ => signSnapshotReference channel reference (pb_referenceSigner publisher)
                                 (pb_referenceVerifier publisher)
                   end ;;
  mguard (maxReferenceBytes <? len referenceData) [ErrResourceLimit] ;;;
  intent <- match pb_referenceVerifier publisher with
            | None => mret None
            | Some _ =>
                x <- mlift (publishIntent channel base
                       {| wm_RepositoryID := verifierID publisher; wm_Generation := sb_generation base;
                          wm_Commit := commitDigest |} referenceData) ;;
                mret (Some x)
            end ;;
  mret {| ss_owner := true; ss_channel := channel; ss_expected := sb_expected base;
          ss_referenceData := referenceData;
          ss_publicationState := option_map fst (sb_publication base);
          ss_publicationRevision := option_map snd (sb_publication base);
          ss_publicationIntent := intent; ss_unchanged := false;
          ss_snapshot := {| sn_Generation := sb_generation base; sn_Commit := commitDigest;
                            sn_Root := root; sn_PublishedAt := publishedAt |} |}.

(** The scan of the source and the snapshot it leads to. *)
Definition stageTree (source channel : bytes) (info : FileInfo) (selection : option pathSelection)
    : P StagedSnapshot :=
  base <- readBase channel ;;
  protected <- captureProtectedSourceFiles ;;
  deferring (closeProtectedSourceFiles protected) (
    root <- buildDirectorySelection publisher depthLimit dot info 0 selection protected ;;
    currentRoot <- mwrap (λ _, [ErrUnstableFile]) (src (Os_Lstat source)) ;;
    mguard (negb (IsDir currentRoot) || negb (SameFile info currentRoot)
            || negb (stableFileInfo info currentRoot)) [ErrUnstableFile] ;;;
    match sb_previous base with
    | Some (current, previous, _) =>
        if cm_Root previous ==? root then
          mret {| ss_owner := true; ss_channel := channel; ss_expected := sb_expected base;
                  ss_referenceData := [];
                  ss_publicationState := option_map fst (sb_publication base);
                  ss_publicationRevision := option_map snd (sb_publication base);
                  ss_publicationIntent := None; ss_unchanged := true;
                  ss_snapshot := {| sn_Generation := sr_Generation current; sn_Commit := sr_Commit current;
                                    sn_Root := cm_Root previous;
                                    sn_PublishedAt := cm_PublishedAtUnix previous |} |}
        else stageCommit channel base root
    | None => stageCommit channel base root
    end).

(** The source root, opened and compared with what Lstat saw. *)
Definition checkSourceRoot (info : FileInfo) : P unit :=
  rootHandle <- src (Root_Open dot) ;;
  rootInfo <- mtry (src (File_Stat rootHandle)) ;;
  closeErr <- mcall (Source (File_Close rootHandle)) ;;
  mguard (match rootInfo, closeErr with
          | Ok rootInfo, None => negb (IsDir rootInfo) || negb (SameFile info rootInfo)
          | _, _ => true
          end) [ErrUnstableFile].

Definition stage (source channel : bytes) (selection : option pathSelection) : P StagedSnapshot :=
  checkCtx ;;;
  mlift (Repository_validateChannel repository channel) ;;;
  source <- src (Filepath_Abs source) ;;
  checkCtx ;;;
  info <- src (Os_Lstat source) ;;
  mguard (negb (IsDir info)) [ErrNotDirectory] ;;;
  checkCtx ;;;
  src (Os_OpenRoot source) ;;;
  deferring (ignore Root_Close) (checkSourceRoot info ;;; stageTree source channel info selection).

Definition Stage (source channel : bytes) : P StagedSnapshot := stage source channel None.

Definition StageSelected (source channel : bytes) (paths : list bytes) : P StagedSnapshot :=
  selection <- newPathSelectionContext paths ;;
  stage source channel selection.

(** ** Committing *)

Inductive commitOutcome := commitUnknown | commitApplied | commitRejected.
#[local] Instance commitOutcome_eq_dec : EqDecision commitOutcome.
Proof. solve_decision. Defined.

Definition referenceKey (channel : bytes) : bytes :=
  match pb_referenceVerifier publisher with
  | Some _ => SignedReferenceKey repository channel
  | None => ReferenceKey repository channel
  end.

(** The walk of reconcileCommit: the commit [n] generations below. *)
Fixpoint walkCommits (n : nat) (generation : N) (digest : Digest) : P Digest :=
  match n with
  | O => mret digest
  | S n =>
      checkCtx ;;;
      commit <- getCommit publisher digest ;;
      mlift (validateCommitManifest commit generation) ;;;
      match cm_Parent commit with
      | Some parent => walkCommits n (generation - 1) parent
      | None => mfail errorText
      end
  end.

(** The outcome; commitUnknown with an error is the error. *)
Definition reconcileCommit (staged : StagedSnapshot) : P commitOutcome :=
  ' (reference, _) <- getReferenceWithVerifier repository (ss_channel staged) []
                        (pb_referenceVerifier publisher) ;;
  let target := sn_Generation (ss_snapshot staged) in
  if (sr_Generation reference <? target)%N then mret commitUnknown
  else
    mguard (maxCommitWalk <? u64_sub (sr_Generation reference) target)%N [ErrResourceLimit] ;;;
    digest <- walkCommits (N.to_nat (sr_Generation reference - target)) (sr_Generation reference)
                (sr_Commit reference) ;;
    mret (if digest ==? sn_Commit (ss_snapshot staged) then commitApplied else commitRejected).

Definition indeterminatePublishError (casErr reconcileErr : error) : error :=
  ErrPublishIndeterminate :: casErr ++ reconcileErr.

(** The check of an unchanged snapshot: the reference is still the one seen. *)
Definition commitUnchanged (staged : StagedSnapshot) : P Snapshot :=
  match ss_expected staged with
  | None => mfail errorText
  | Some expected =>
      read <- mtry (getReferenceWithVerifier repository (ss_channel staged) (v_ETag expected)
                      (pb_referenceVerifier publisher)) ;;
      match read with
      | Ok (reference, _) =>
          mguard (negb ((sr_Generation reference ==? sn_Generation (ss_snapshot staged))
                        && (sr_Commit reference ==? sn_Commit (ss_snapshot staged)))) [ErrPublishConflict] ;;;
          mret (ss_snapshot staged)
      | Err err =>
          if errors_Is err ErrNotModified then mret (ss_snapshot staged)
          else if errors_Is err ErrObjectNotFound then mfail [ErrPublishConflict]
          else mfail err
      end
  end.

Definition Commit (staged : StagedSnapshot) : P Snapshot :=
  mguard (negb (ss_owner staged) || (ss_channel staged ==? [])) errorText ;;;
  if ss_unchanged staged then commitUnchanged staged
  else match ss_publicationIntent staged with
  | Some _ => commitSignedPublication publisher staged
  | None =>
      cas <- mtry (Repository_compareAndSwap repository (referenceKey (ss_channel staged))
                     (ss_expected staged) (ss_referenceData staged)) ;;
      match cas with
      | Ok _ => mret (ss_snapshot staged)
      | Err casErr =>
          reconciled <- mtry (reconcileCommit staged) ;;
          match reconciled with
          | Ok commitApplied => mret (ss_snapshot staged)
          | Ok commitRejected => mfail [ErrPublishConflict]
          | Ok commitUnknown => mfail (indeterminatePublishError casErr [])
          | Err err => mfail (indeterminatePublishError casErr err)
          end
      end
  end.

Definition Publish (source channel : bytes) : P Snapshot :=
  staged <- Stage source channel ;; Commit staged.

Definition PublishSelected (source channel : bytes) (paths : list bytes) : P Snapshot :=
  staged <- StageSelected source channel paths ;; Commit staged.

(** ** Signing again *)

(** The staged form of a new envelope for the current snapshot. *)
Definition stageResign (channel : bytes) (reference : snapshotReference) (commit : commitManifest)
    (object : Object) (state : PublicationJournalState) (revision : PublicationJournalRevision)
    (referenceData : bytes) : StagedSnapshot :=
  let watermark := {| wm_RepositoryID := verifierID publisher; wm_Generation := sr_Generation reference;
                      wm_Commit := sr_Commit reference |} in
  {| ss_owner := true; ss_channel := channel; ss_expected := Some (ob_Version object);
     ss_referenceData := referenceData; ss_publicationState := Some state;
     ss_publicationRevision := Some revision;
     ss_publicationIntent := Some
       {| pi_IntentID := publicationIntentID (verifierID publisher) channel PublicationIntentResign
                           (Some watermark) watermark referenceData;
          pi_Kind := PublicationIntentResign; pi_Base := Some watermark; pi_Next := watermark;
          pi_ExpectedVersion := Some (ob_Version object);
          pi_ExpectedReference := publicationReferenceDigest (ob_Data object);
          pi_Reference := referenceData |};
     ss_unchanged := false;
     ss_snapshot := {| sn_Generation := sr_Generation reference; sn_Commit := sr_Commit reference;
                       sn_Root := cm_Root commit; sn_PublishedAt := cm_PublishedAtUnix commit |} |}.

Definition ResignReference (channel : bytes) : P Snapshot :=
  match pb_referenceSigner publisher, pb_referenceVerifier publisher with
  | Some signer, Some verifier =>
      mlift (Repository_validateChannel repository channel) ;;;
      ' (state, revision) <- preparePublicationJournal publisher channel ;;
      read <- mtry (getReferenceWithVerifier repository channel [] (Some verifier)) ;;
      match read with
      | Err err =>
          if negb (js_Committed state ==? None) && errors_Is err ErrObjectNotFound
          then mfail [ErrRollbackDetected] else mfail err
      | Ok (reference, object) =>
          commit <- getCommit publisher (sr_Commit reference) ;;
          mlift (validateCommitManifest commit (sr_Generation reference)) ;;;
          ' (state, revision) <- acceptObservedPublication publisher channel state revision reference commit ;;
          referenceData <- signSnapshotReference channel reference (Some signer) (Some verifier) ;;
          mguard (maxReferenceBytes <? len referenceData) [ErrResourceLimit] ;;;
          let staged := stageResign channel reference commit object state revision referenceData in
          if ob_Data object ==? referenceData then mret (ss_snapshot staged)
          else
            mguard (v_ETag (ob_Version object) ==? []) [ErrStoreIncompatible] ;;;
            commitSignedPublication publisher staged
      end
  | _, _ => mfail [ErrUntrustedReference]
  end.
End Publisher.
