(* ===== verification/Selection.v ===== *)
(** * What a selection selects

    The trie that [newPathSelectionContext] builds shows exactly the listed
    paths, what is below them and the directories above them. *)

From S2P Require Import Prelude.
From S2P Require Import Prog.
From S2P Require Import GoStd.
From S2P Require Import Encoding.
From S2P Require Import Sha256.
From S2P Require Import Json.
From S2P Require Import Model.
From S2P Require Import Manifests.
From S2P Require Import Effects.
From S2P Require Import Os.
From S2P Require Import Scan.

(** The path is selected, or a directory above a selected path. *)
Fixpoint shows (s : pathSelection) (path : list bytes) : Prop :=
  sel_includeAll s = true ∨
  match path with
  | [] => True
  | name :: path => match sel_child name (sel_children s) with Some c => shows c path | None => False end
  end.

(** The path is a node of the trie. *)
Fixpoint node_at (s : pathSelection) (path : list bytes) : Prop :=
  match path with
  | [] => True
  | name :: path => match sel_child name (sel_children s) with Some c => node_at c path | None => False end
  end.

(** A Go map has each key once; a selected node has nothing below it. *)
Inductive sel_wf : pathSelection → Prop :=
| sel_wf_intro i children :
    NoDup children.*1 → Forall (λ c, sel_wf c.2) children → (i = true → children = []) →
    sel_wf (PathSelection i children).

(** What [StageSelected] shows of a source for a list of paths. *)
Definition pathComponents (value : bytes) : list bytes :=
  if path_Clean value ==? dot then [] else Split slash (path_Clean value).
Definition selects (values : list bytes) (path : list bytes) : Prop :=
  ∃ value, value ∈ values ∧
    (pathComponents value `prefix_of` path ∨ path `prefix_of` pathComponents value).

Definition sel_ok (selection : option pathSelection) : Prop :=
  match selection with Some s => sel_wf s ∧ sel_includeAll s = false | None => True end.
Definition allowed (selection : option pathSelection) (path : list bytes) : Prop :=
  match selection with Some s => shows s path | None => True end.

(** ** Children *)

Lemma sel_child_replace name other child cs :
  sel_child other (sel_replace name child cs) =
  if decide (other = name) then match sel_child name cs with Some _ => Some child | None => None end
  else sel_child other cs.
Proof.
  induction cs as [|[n s] cs IH]; simpl; [by case_decide|].
  destruct (bool_decide_reflect (n = name)) as [->|Hn]; simpl.
  - case_decide as Ho; [subst; by rewrite bool_decide_true|].
    by rewrite !bool_decide_false by congruence.
  - destruct (bool_decide_reflect (n = other)) as [->|Hn']; [by rewrite decide_False|apply IH].
Qed.

Lemma sel_child_snoc name other child cs :
  sel_child other (cs ++ [(name, child)]) =
  match sel_child other cs with
  | Some s => Some s | None => if decide (other = name) then Some child else None end.
Proof.
  induction cs as [|[n s] cs IH]; simpl.
  - destruct (bool_decide_reflect (name = other)) as [->|]; [by rewrite decide_True|by rewrite decide_False].
  - by destruct (n ==? other).
Qed.

Lemma sel_replace_keys name child cs : (sel_replace name child cs).*1 = cs.*1.
Proof. induction cs as [|[n s] cs IH]; simpl; [done|]. destruct (n ==? name); simpl; by f_equal. Qed.

Lemma sel_child_elem name cs s : sel_child name cs = Some s → (name, s) ∈ cs.
Proof.
  induction cs as [|[n t] cs IH]; simpl; [done|].
  destruct (bool_decide_reflect (n = name)) as [->|]; [intros [= ->]; by left|right; by apply IH].
Qed.

Lemma sel_child_none name cs : sel_child name cs = None ↔ name ∉ cs.*1.
Proof.
  induction cs as [|[n t] cs IH]; simpl; [by split; [intros _ ?%elem_of_nil|]|].
  rewrite not_elem_of_cons. destruct (bool_decide_reflect (n = name)) as [->|]; naive_solver.
Qed.

Lemma sel_wf_child s name c : sel_wf s → sel_child name (sel_children s) = Some c → sel_wf c.
Proof.
  intros [i cs _ Hf _] Hc%sel_child_elem. simpl in Hc. by eapply Forall_forall in Hf; [|exact Hc].
Qed.

Lemma sel_replace_wf name child cs :
  sel_wf child → Forall (λ c, sel_wf c.2) cs → Forall (λ c, sel_wf c.2) (sel_replace name child cs).
Proof.
  intros Hc. induction 1 as [|[n s] cs Hs Hf IH]; simpl; [constructor|].
  destruct (n ==? name); by constructor.
Qed.

(** ** Building the trie *)

Section Build.
Context {S : Type} {R : rely eff} {G : guarantee eff} (Hreads : reads_free G).
Abbreviation doing := (acting (S:=S) G R).

Lemma prefix_same (c : bytes) k l : c :: k `prefix_of` c :: l ↔ k `prefix_of` l.
Proof. split; [apply prefix_cons_inv_2|apply prefix_cons]. Qed.

Definition extended (components : list bytes) (node node' : pathSelection) : Prop :=
  sel_wf node' ∧
  (∀ path, shows node' path ↔ shows node path ∨ components `prefix_of` path ∨ path `prefix_of` components) ∧
  (∀ path, node_at node' path ↔ node_at node path ∨ path `prefix_of` components).

Lemma shows_nil s : shows s [].
Proof. destruct s. by right. Qed.
Lemma node_at_nil s : node_at s [].
Proof. done. Qed.

Lemma shows_empty path : shows (PathSelection false []) path ↔ path = [].
Proof. destruct path; simpl; naive_solver. Qed.
Lemma node_at_empty path : node_at (PathSelection false []) path ↔ path = [].
Proof. destruct path; simpl; naive_solver. Qed.

(** A node in which only the child [c] changed. *)
Lemma extended_child c components cs cs' child child' :
  extended components child child' → sel_wf (PathSelection false cs') →
  sel_child c cs' = Some child' → (∀ o, o ≠ c → sel_child o cs' = sel_child o cs) →
  (match sel_child c cs with Some s => s = child | None => child = PathSelection false [] end) →
  extended (c :: components) (PathSelection false cs) (PathSelection false cs').
Proof.
  intros (Hwf & Hs & Hn) Hwf' Hc Ho Hold. split_and!; [done| |].
  - intros [|name path]; simpl; [split; [by intros _; right; right; apply prefix_nil|by right]|].
    destruct (decide (name = c)) as [->|Hne].
    + rewrite Hc, !prefix_same, Hs.
      destruct (sel_child c cs); subst; [naive_solver|]. rewrite shows_empty.
      assert (path = [] → path `prefix_of` components) by (intros ->; apply prefix_nil). naive_solver.
    + rewrite Ho by done. split; [by intros [?|?]; left; [left|right]|].
      intros [?|[?%prefix_cons_inv_1|?%prefix_cons_inv_1]]; [done|congruence|congruence].
  - intros [|name path]; simpl; [split; [by intros _; right; apply prefix_nil|done]|].
    destruct (decide (name = c)) as [->|Hne].
    + rewrite Hc, prefix_same, Hn.
      destruct (sel_child c cs); subst; [naive_solver|]. rewrite node_at_empty.
      assert (path = [] → path `prefix_of` components) by (intros ->; apply prefix_nil). naive_solver.
    + rewrite Ho by done. split; [by left|]. intros [?|?%prefix_cons_inv_1]; [done|congruence].
Qed.

Lemma extended_leaf node :
  sel_wf node → sel_children node = [] → extended [] node (PathSelection true (sel_children node)).
Proof.
  intros Hwf Hc. rewrite Hc. split_and!.
  - constructor; [constructor|constructor|done].
  - intros path. split; [intros _; right; left; apply prefix_nil|]. intros _. destruct path; by left.
  - intros [|name path]; simpl; [naive_solver|]. rewrite Hc. simpl.
    split; [done|]. intros [?|?%prefix_nil_not]; done.
Qed.

Lemma extended_replace c components cs child child' :
  sel_wf (PathSelection false cs) → sel_child c cs = Some child → extended components child child' →
  extended (c :: components) (PathSelection false cs) (PathSelection false (sel_replace c child' cs)).
Proof.
  intros Hwf Hc He. pose proof He as [Hwf' _]. inversion Hwf as [? ? Hnd Hf _]; subst.
  eapply extended_child; [exact He| | | |by rewrite Hc].
  - constructor; [by rewrite sel_replace_keys|by apply sel_replace_wf|done].
  - by rewrite sel_child_replace, decide_True, Hc.
  - intros o Ho. by rewrite sel_child_replace, decide_False.
Qed.

Lemma extended_new c components cs child' :
  sel_wf (PathSelection false cs) → sel_child c cs = None →
  extended components (PathSelection false []) child' →
  extended (c :: components) (PathSelection false cs) (PathSelection false (cs ++ [(c, child')])).
Proof.
  intros Hwf Hc He. pose proof He as [Hwf' _]. inversion Hwf as [? ? Hnd Hf _]; subst.
  eapply extended_child; [exact He| | | |by rewrite Hc].
  - constructor; [|by apply Forall_app_2; [|constructor]|done].
    rewrite fmap_app. apply NoDup_app. split_and!; [done| |apply NoDup_singleton].
    intros x Hx ->%list_elem_of_singleton. by apply sel_child_none in Hc.
  - by rewrite sel_child_snoc, Hc, decide_True.
  - intros o Ho. rewrite sel_child_snoc, decide_False by done. by destruct (sel_child o cs).
Qed.

Lemma sel_wf_empty : sel_wf (PathSelection false []).
Proof. constructor; [constructor|constructor|done]. Qed.

Lemma selectPath_doing components node nodeCount h :
  sel_wf node →
  doing (selectPath components node nodeCount) h (λ _ r, ∀ node' n, r = Ok (node', n) →
    extended components node node').
Proof.
  revert node nodeCount h. induction components as [|c components IH]; intros node nodeCount h Hwf; simpl.
  { do 2 do_step; [done|]. do 2 do_step; [done|]. do_step. intros node' n [= <- _].
    apply extended_leaf; [done|]. by destruct (sel_children node). }
  do_step. apply doing_ctx; [done|]. intros [e|]; [done|]. do 2 do_step; [done|]. do 2 do_step; [done|].
  destruct node as [i cs]. simpl in *. subst i. destruct (sel_child c cs) as [child|] eqn:Ec.
  - do_step. eapply doing_mono; [apply IH; by eapply (sel_wf_child _ c) in Hwf|].
    intros h1 [[child' n]|e] _ He; [|done]. do_step. intros node' n' [= <- _].
    eapply extended_replace; [done|done|by eapply He].
  - do 2 do_step; [done|]. do_step. eapply doing_mono; [apply IH, sel_wf_empty|].
    intros h1 [[child' n]|e] _ He; [|done]. do_step. intros node' n' [= <- _].
    eapply extended_new; [done|done|by eapply He].
Qed.

Lemma selectionComponents_ok value total components :
  selectionComponents value total = Ok components → components = pathComponents value.
Proof.
  unfold selectionComponents, pathComponents. rewrite !guard_bind_ok.
  by intros (_ & _ & _ & _ & _ & [= <-]).
Qed.

Lemma selectPaths_doing values root totalBytes nodeCount h :
  sel_wf root →
  doing (selectPaths values root totalBytes nodeCount) h (λ _ r, ∀ root', r = Ok root' →
    sel_wf root' ∧
    (∀ path, shows root' path ↔ shows root path ∨ selects values path) ∧
    (∀ path, node_at root' path ↔ node_at root path ∨
       ∃ value, value ∈ values ∧ path `prefix_of` pathComponents value)).
Proof.
  revert root totalBytes nodeCount h. induction values as [|v values IH]; intros root t n h Hwf; simpl.
  { do_step. intros root' [= <-]. split_and!; [done| |]; intros path;
      (split; [by left|]; intros [?|(? & []%elem_of_nil & _)]; done). }
  do_step. apply doing_ctx; [done|]. intros [e|]; [done|]. do 2 do_step.
  destruct (selectionComponents v (t + len v)) as [components|e] eqn:Ec; [|done].
  apply selectionComponents_ok in Ec as ->.
  do_step. eapply doing_mono; [by apply selectPath_doing|].
  intros h1 [[root1 n1]|e] _ He; [|done]. destruct (He _ _ eq_refl) as (Hwf1 & Hs1 & Hn1).
  eapply doing_mono; [by apply IH|]. intros h2 [root2|e] _ Hr root' [=]; subst.
  destruct (Hr _ eq_refl) as (Hwf2 & Hs2 & Hn2). split_and!; [done| |]; intros path.
  - rewrite Hs2, Hs1. unfold selects. setoid_rewrite elem_of_cons. naive_solver.
  - rewrite Hn2, Hn1. setoid_rewrite elem_of_cons. naive_solver.
Qed.

(** The selection that a list of paths leads to. *)
Definition selection_of (values : list bytes) (selection : option pathSelection) : Prop :=
  sel_ok selection ∧
  (∀ path, path ≠ [] → allowed selection path ↔ selects values path) ∧
  (∀ s path, selection = Some s → path ≠ [] →
     node_at s path ↔ ∃ value, value ∈ values ∧ path `prefix_of` pathComponents value) ∧
  (selection = None → ∀ value, value ∈ values → pathComponents value = []).

Lemma newPathSelectionContext_doing values h :
  doing (newPathSelectionContext values) h (λ _ r, ∀ selection, r = Ok selection →
    selection_of values selection).
Proof.
  unfold newPathSelectionContext. do_step. apply doing_ctx; [done|]. intros [e|]; [done|].
  do 2 do_step; [done|]. do 2 do_step; [done|]. do_step.
  eapply doing_mono; [apply selectPaths_doing, sel_wf_empty|].
  intros h1 [root|e] _ Hr; [|done]. destruct (Hr _ eq_refl) as (Hwf & Hs & Hn). do_step.
  intros selection [= <-]. destruct Hwf as [i cs Hnd Hf Hi]. simpl. destruct i.
  - rewrite Hi in * by done. split_and!; [done| |done|].
    + intros path Hp. split; [intros _|done]. destruct (proj1 (Hs path)) as [?%shows_empty|?];
        [destruct path; by left|done|done].
    + intros _ value Hv. destruct (pathComponents value) as [|c cs'] eqn:Ep; [done|].
      destruct (proj2 (Hn (c :: cs'))). right. exists value. by rewrite Ep.
  - split_and!; [by split; [constructor|]| | |done].
    + intros path Hp. simpl allowed. rewrite Hs, shows_empty. naive_solver.
    + intros s path [= <-] Hp. rewrite Hn, node_at_empty. naive_solver.
Qed.
End Build.
