(* ===== verification/ScanTermination.v ===== *)
(** * The loops of a scan end

    Three loops of a scan have no bound in their own text: the pieces of a
    file, the batches of a directory and the levels of the tree.  The model
    gives them fuel; here more fuel than the scan uses changes no run, because
    the checks inside the loops stop them first. *)

From S2P Require Import Prelude.
From S2P Require Import Prog.
From S2P Require Import GoStd.
From S2P Require Import Encoding.
From S2P Require Import Sha256.
From S2P Require Import Json.
From S2P Require Import Model.
From S2P Require Import Manifests.
From S2P Require Import Effects.
From S2P Require Import Trust.
From S2P Require Import MemStore.
From S2P Require Import ClientEncryption.
From S2P Require Import Repository.
From S2P Require Import Recovery.
From S2P Require Import Os.
From S2P Require Import Scan.

(** The model's fuel against the limits of the code. *)
Lemma limits_enough :
  maxFileChunks < Z.of_nat pieceLimit ∧ maxDirectoryEntries < Z.of_nat batchLimit ∧
  maxLookupDepth < Z.of_nat depthLimit.
Proof.
  unfold pieceLimit, batchLimit, depthLimit. rewrite !Nat2Z.inj_succ, !Z2Nat.id by done. lia.
Qed.
#[local] Opaque pieceLimit batchLimit depthLimit.

Section Termination.
Context `{AEAD} `{Chunker} {W : Type} (serve : handler eff W) (publisher : Publisher).
Abbreviation P := (M eff PublisherState) (only parsing).

(** Two methods that no run tells apart. *)
Definition same_run {A} (m m' : P A) : Prop := ∀ s w, run serve (m s) w = run serve (m' s) w.
#[local] Instance same_run_equivalence A : Equivalence (@same_run A).
Proof. split; [done|by intros m m' Hm s w|]. intros a b c Hab Hbc s w. by rewrite Hab. Qed.

Lemma same_bind {A B} (m m' : P A) (f f' : A → P B) :
  same_run m m' → (∀ a, same_run (f a) (f' a)) → same_run (mbind m f) (mbind m' f').
Proof.
  intros Hm Hf s w. rewrite !run_mbind, Hm. destruct (run serve (m' s) w) as [w' [s' [a|e]]]; [|done].
  apply Hf.
Qed.

(** The continuation may use what the first method returned. *)
Lemma same_bind_ok {A B} (m : P A) (f f' : A → P B) (Q : A → Prop) :
  (∀ s w w' s' a, run serve (m s) w = (w', (s', Ok a)) → Q a) →
  (∀ a, Q a → same_run (f a) (f' a)) → same_run (mbind m f) (mbind m f').
Proof.
  intros HQ Hf s w. rewrite !run_mbind. destruct (run serve (m s) w) as [w' [s' [a|e]]] eqn:E; [|done].
  apply Hf. by eapply HQ.
Qed.

Lemma same_guard {B} c e (k k' : P B) :
  (c = false → same_run k k') → same_run (mguard c e ;;; k) (mguard c e ;;; k').
Proof.
  intros Hk. apply (same_bind_ok _ _ _ (λ _, c = false)); [|by auto].
  intros s w w' s' a. rewrite run_mguard. by destruct c.
Qed.

(** ** Pieces *)

Lemma uploadChunk_length acc chunk s w w' s' acc' :
  run serve (uploadChunk publisher acc chunk s) w = (w', (s', Ok acc')) →
  len acc.1 < maxFileChunks ∧ len acc'.1 = len acc.1 + 1.
Proof.
  destruct acc as [chunks offset]. unfold uploadChunk. mrun.
  destruct (maxFileChunks <=? len chunks) eqn:Hl; simpl; [done|]. apply Z.leb_gt in Hl.
  destruct (run serve (putImmutable _ _ _ s) w) as [w1 [s1 [d|e]]]; [|done]. mrun.
  destruct (d !=? cd_Digest chunk); simpl; [done|]. mrun. intros [= _ _ <-]. simpl. split; [done|].
  rewrite len_app. done.
Qed.

Lemma walkPieces_enough fuel fuel' file options acc :
  len acc.1 ≤ maxFileChunks → maxFileChunks - len acc.1 < Z.of_nat fuel →
  maxFileChunks - len acc.1 < Z.of_nat fuel' →
  same_run (walkPieces fuel file options (uploadChunk publisher) acc)
           (walkPieces fuel' file options (uploadChunk publisher) acc).
Proof.
  revert fuel' acc. induction fuel as [|fuel IH]; intros [|fuel'] acc Hl Hf Hf'; [lia..|]. simpl.
  apply same_bind; [done|]. intros []. apply same_bind; [done|]. intros [data|]; [|done].
  eapply (same_bind_ok _ _ _ (λ acc', len acc.1 < maxFileChunks ∧ len acc'.1 = len acc.1 + 1)).
  - intros s w w' s' a E. by eapply uploadChunk_length.
  - intros acc' [? ?]. apply IH; lia.
Qed.

(** ** Batches *)

Lemma readEntries_enough fuel fuel' file entries :
  (∀ w, (serve _ (Source (File_ReadDir file 1024)) w).2.2 = None →
     (serve _ (Source (File_ReadDir file 1024)) w).2.1 ≠ []) →
  len entries ≤ maxDirectoryEntries → maxDirectoryEntries - len entries < Z.of_nat fuel →
  maxDirectoryEntries - len entries < Z.of_nat fuel' →
  same_run (readEntries fuel file entries) (readEntries fuel' file entries).
Proof.
  intros Hread. revert fuel' entries.
  induction fuel as [|fuel IH]; intros [|fuel'] entries Hl Hf Hf'; [lia..|]. simpl.
  apply same_bind; [done|]. intros [].
  apply (same_bind_ok _ _ _ (λ r, r.2 = None → r.1 ≠ [])).
  { intros s w w' s' a. rewrite run_mcall. specialize (Hread w).
    destruct (serve _ _ w) as [w1 x]. by intros [= _ _ <-]. }
  intros [batch [err|]] Hb; (apply same_guard; intros Hle; apply Z.ltb_ge in Hle); [done|].
  assert (len (entries ++ batch) > len entries).
  { rewrite len_app. specialize (Hb eq_refl). unfold len. destruct batch; [done|]. simpl. lia. }
  apply IH; lia.
Qed.

(** ** Levels *)

Lemma buildEntry_same recurse recurse' directory name depth childSelection protected :
  (depth < maxLookupDepth → ∀ p i n, same_run (recurse p i n) (recurse' p i n)) →
  same_run (buildEntry publisher recurse directory name depth childSelection protected)
           (buildEntry publisher recurse' directory name depth childSelection protected).
Proof.
  intros Hrec. unfold buildEntry. apply same_guard. intros _. apply same_guard. intros Hd%Z.leb_gt.
  apply same_guard. intros _. apply same_bind; [done|]. intros info. apply same_guard. intros _.
  destruct (IsRegular info); [done|]. destruct (IsDir info); [|done].
  apply same_bind; [by apply Hrec|done].
Qed.

Lemma buildEntries_same recurse recurse' directory depth selection protected names :
  (depth < maxLookupDepth → ∀ p i n, same_run (recurse p i n) (recurse' p i n)) →
  same_run (buildEntries publisher recurse directory depth selection protected names)
           (buildEntries publisher recurse' directory depth selection protected names).
Proof.
  intros Hrec. induction names as [|name names IH]; simpl; [done|]. apply same_bind; [done|]. intros [].
  assert (∀ childSelection (matched : gset bytes), same_run
    (item <- buildEntry publisher recurse directory name depth childSelection protected ;;
     ' (items, rest) <- buildEntries publisher recurse directory depth selection protected names ;;
     mret (item :: items, matched ∪ rest))
    (item <- buildEntry publisher recurse' directory name depth childSelection protected ;;
     ' (items, rest) <- buildEntries publisher recurse' directory depth selection protected names ;;
     mret (item :: items, matched ∪ rest))) as Hbuild.
  { intros childSelection matched. apply same_bind; [by apply buildEntry_same|]. intros item.
    apply same_bind; [done|]. by intros [items rest]. }
  destruct selection as [s|]; [|apply Hbuild]. by destruct (sel_child name (sel_children s)).
Qed.

Lemma buildDirectory_enough fuel fuel' directory expected depth selection protected :
  maxLookupDepth - depth < Z.of_nat fuel → maxLookupDepth - depth < Z.of_nat fuel' →
  same_run (buildDirectorySelection publisher fuel directory expected depth selection protected)
           (buildDirectorySelection publisher fuel' directory expected depth selection protected).
Proof.
  revert fuel' directory expected depth selection.
  assert (∀ fuel directory expected depth selection, maxLookupDepth < depth →
    same_run (buildDirectorySelection publisher fuel directory expected depth selection protected)
      (checkCtx ;;; mfail [ErrResourceLimit])) as Hdeep.
  { intros [|f] directory expected depth selection Hd; simpl; (apply same_bind; [done|]); intros []; [done|].
    intros s w. rewrite run_mbind, run_mguard. apply Z.ltb_lt in Hd. by rewrite Hd. }
  induction fuel as [|fuel IH]; intros fuel' directory expected depth selection Hf Hf'.
  { rewrite !Hdeep by lia. done. }
  destruct fuel' as [|fuel']; [rewrite !Hdeep by lia; done|]. simpl.
  apply same_bind; [done|]. intros []. apply same_guard. intros _. apply same_bind; [done|].
  intros [before names]. apply same_bind; [|done]. apply buildEntries_same. intros Hd p i n. apply IH; lia.
Qed.
End Termination.

(** C27: scans terminate within their limits.  For every behaviour of the store,
    the file system and the context, the pieces of a file, the batches of a
    directory (of which the operating system returns no empty one without an
    error) and the levels of a tree end before the model's fuel does: any more
    fuel gives the same calls and the same result. *)
Theorem scan_terminates `{AEAD} `{Chunker} {W : Type} (serve : handler eff W) (publisher : Publisher)
    (extra : nat) (s : PublisherState) (w : W) :
  (∀ file w, (serve _ (Source (File_ReadDir file 1024)) w).2.2 = None →
     (serve _ (Source (File_ReadDir file 1024)) w).2.1 ≠ []) →
  (∀ file options,
     run serve (walkChunks (pieceLimit + extra) file options (uploadChunk publisher) ([], 0) s) w =
     run serve (walkChunks pieceLimit file options (uploadChunk publisher) ([], 0) s) w) ∧
  (∀ file, run serve (readEntries (batchLimit + extra) file [] s) w = run serve (readEntries batchLimit file [] s) w) ∧
  (∀ directory info selection protected,
     run serve (buildDirectorySelection publisher (depthLimit + extra) directory info 0 selection protected s) w =
     run serve (buildDirectorySelection publisher depthLimit directory info 0 selection protected s) w).
Proof.
  intros Hread.
  destruct limits_enough as (Hp & Hb & Hd). revert Hp Hb Hd. generalize pieceLimit, batchLimit, depthLimit. intros pieces batches levels Hp Hb Hd.
  split_and!.
  - intros file options. unfold walkChunks. apply same_bind; [done|]. intros opts.
    apply walkPieces_enough; unfold len; simpl; [done|lia|lia].
  - intros file. apply readEntries_enough; [apply Hread|..]; unfold len; simpl; [done|lia|lia].
  - intros directory info selection protected. apply buildDirectory_enough; lia.
Qed.

(** A file system without entries, and files that end at once. *)
Definition toy_idle : handler eff unit := λ X e w,
  (w, match e in eff T return T with
      | Source op =>
          match op in src_eff T return T with
          | File_ReadDir _ _ => ([], Some [IoEOF])
          | Splitter_Next _ _ _ _ _ => Ok None
          | op' => refuse_source op'
          end
      | e' => refuse e'
      end).
Definition toy_idle_publisher : Publisher :=
  {| pb_Chunking := ChunkingOptions_zero; pb_StableReadTries := 3; pb_Symlinks := SymlinkRejectExternal;
     pb_ProtectedSourceFiles := []; pb_repository := toy_repository; pb_referenceSigner := None;
     pb_referenceVerifier := None; pb_publicationJournal := false; pb_trustedCheckpoint := None;
     pb_allowTrustOnFirstUse := false |}.

Lemma scan_terminates_witness :
  run toy_idle (readEntries (batchLimit + 7) 1 [] PublisherState_zero) tt =
  run toy_idle (readEntries batchLimit 1 [] PublisherState_zero) tt.
Proof.
  refine (proj1 (proj2 (@scan_terminates toy_aead toy_chunker unit toy_idle toy_idle_publisher 7
    PublisherState_zero tt _)) 1%N).
  intros file w Hn. discriminate Hn.
Defined.
