(* ===== verification/ScanProofs.v ===== *)
(** * What a scan uploads

    A directory digest that a scan returns names a complete tree: every
    manifest and every chunk below it was acknowledged by the object store, and
    every manifest is one that a consumer accepts.  A scan with a selection
    shows nothing outside it. *)

From S2P Require Import Prelude.
From S2P Require Import Prog.
From S2P Require Import GoStd.
From S2P Require Import Encoding.
From S2P Require Import Sha256.
From S2P Require Import Json.
From S2P Require Import Model.
From S2P Require Import Manifests.
From S2P Require Import Effects.
From S2P Require Import Trust.
From S2P Require Import MemStore.
From S2P Require Import ClientEncryption.
From S2P Require Import Repository.
From S2P Require Import Ancestry.
From S2P Require Import Consumer.
From S2P Require Import ConsumerProofs.
From S2P Require Import Reader.
From S2P Require Import Recovery.
From S2P Require Import RecoveryProofs.
From S2P Require Import Os.
From S2P Require Import Scan.
From S2P Require Import Selection.

#[local] Existing Instance everything.

#[local] Opaque pieceLimit batchLimit depthLimit.

(** ** What the operating system and the splitter promise *)

(** The names that an open directory returned so far. *)
Definition listed_event (file : handle) (ev : event eff) : list bytes :=
  match ev with
  | Ev e x =>
      (match e in eff T return T → list bytes with
       | Source op => λ x,
           (match op in src_eff T return T → list bytes with
            | File_ReadDir f _ => λ x, if f ==? file then x.1 else []
            | _ => λ _, []
            end) x
       | _ => λ _, []
       end) x
  end.
Definition listed (file : handle) (h : history eff) : list bytes := mjoin (map (listed_event file) h).

Definition source_name (name : bytes) : Prop := proper_name name ∧ x00 ∉ name.

(** Go's int64. *)
Definition info_typed (info : FileInfo) : Prop :=
  0 ≤ fi_Size info ≤ int64_max ∧ int64_min ≤ fi_ModTime info ≤ int64_max.

(** Sizes and times are int64, sizes are not negative; names are path
    components, and a directory handle returns no name twice; an opened file is
    a new handle; a link target has no NUL; the splitter's pieces are not empty
    and at most the maximum size. *)
Definition source_answer (h : history eff) {X} (op : src_eff X) (x : X) : Prop :=
  (match op in src_eff T return T → Prop with
   | Os_Lstat _ => λ r, ∀ i, r = Ok i → info_typed i
   | Root_Lstat _ => λ r, ∀ i, r = Ok i → info_typed i
   | Root_Stat _ => λ r, ∀ i, r = Ok i → info_typed i
   | File_Stat _ => λ r, ∀ i, r = Ok i → info_typed i
   | Os_Open _ => λ r, ∀ f, r = Ok f → listed f h = []
   | Root_Open _ => λ r, ∀ f, r = Ok f → listed f h = []
   | Root_Readlink _ => λ r, ∀ t, r = Ok t → x00 ∉ t
   | File_ReadDir f _ => λ r, Forall source_name r.1 ∧ NoDup (listed f h ++ r.1)
   | Splitter_Next _ _ _ mx _ => λ r, ∀ d, r = Ok (Some d) → 0 < len d ≤ mx
   | Time_Now => λ t, int64_min ≤ t ≤ int64_max
   | _ => λ _, True
   end) x.

Definition source_rely : rely eff := λ h X e x,
  go_typed h X e x ∧
  (match e in eff T return T → Prop with
   | Source op => λ x, source_answer h op x
   | _ => λ _, True
   end) x.

Lemma listed_app file h h' : listed file (h ++ h') = listed file h ++ listed file h'.
Proof. unfold listed. by rewrite map_app, join_app. Qed.

Lemma listed_snoc file h ev : listed file (h ++ [ev]) = listed file h ++ listed_event file ev.
Proof. rewrite listed_app. unfold listed at 2. simpl. by rewrite app_nil_r. Qed.

(** What was seen of the source after [h0]: the whole listing of a directory, up
    to its io.EOF, and what a name is. *)
Definition listing (h0 h : history eff) (directory : bytes) (names : list bytes) : Prop :=
  ∃ file h1 h2 n batch err, since h0 h1 (Ev (Source (Root_Open directory)) (Ok file)) ∧
    h2 = h1 ++ [Ev (Source (File_ReadDir file n)) (batch, Some err)] ∧ errors_Is err IoEOF = true ∧
    names = listed file h2 ∧ extends h2 h.

Definition kind_of (info : FileInfo) : EntryType :=
  if IsRegular info then EntryFile else if IsDir info then EntryDir else EntrySymlink.

Definition inspected (h0 h : history eff) (path : bytes) (t : EntryType) : Prop :=
  ∃ info, since h0 h (Ev (Source (Root_Lstat path)) (Ok info)) ∧ t = kind_of info.

Lemma listing_mono h0 h h' directory names :
  extends h h' → listing h0 h directory names → listing h0 h' directory names.
Proof.
  intros He (file & h1 & h2 & n & batch & err & ? & ? & ? & ? & Hx). exists file, h1, h2, n, batch, err.
  split_and!; [done..|by etrans].
Qed.

Lemma inspected_mono h0 h h' path t : extends h h' → inspected h0 h path t → inspected h0 h' path t.
Proof. intros He (info & Hs & Ht). exists info. split; [by eapply since_mono|done]. Qed.

(** ** Complete uploads *)

Section Uploads.
Context `{AEADLaws} `{Chunker}.
Variable publisher : Publisher.
Abbreviation repository := (pb_repository publisher).
Abbreviation present := (present repository).

Definition chunk_present (h : history eff) (c : chunkRef) : Prop :=
  ∃ data, piece_of c data ∧ present h (str "chunk") data.

(** A manifest that was put. *)
Definition stored {T} `{JSON T} (h : history eff) (kind : bytes) (d : Digest) (v : T) : Prop :=
  named_by kind d v ∧ present h kind (canonicalJSON v) ∧ d = digestObject kind (canonicalJSON v).

(** An object was acknowledged under the all-zero digest, which the checks of
    manifests refuse. *)
Definition zero_stored (h : history eff) : Prop :=
  ∃ kind data, present h kind data ∧ digestObject kind data = Digest_zero.

Lemma zero_stored_mono h h' : extends h h' → zero_stored h → zero_stored h'.
Proof. intros He (kind & data & Hp & Hd). exists kind, data. split; [by eapply present_mono|done]. Qed.

Lemma or_zero_mono h h' (P : Prop) : extends h h' → P ∨ zero_stored h → P ∨ zero_stored h'.
Proof. intros He [?|?]; [by left|right]. by eapply zero_stored_mono. Qed.

Lemma stored_mono {T} `{JSON T} h h' kind d (v : T) : extends h h' → stored h kind d v → stored h' kind d v.
Proof. intros He (? & Hp & ?). split_and!; [done|by eapply present_mono|done]. Qed.

Lemma present_nonzero h kind data : present h kind data → Digest_IsZero (digestObject kind data) = false ∨ zero_stored h.
Proof.
  intros Hp. destruct (Digest_IsZero (digestObject kind data)) eqn:E; [right|by left].
  exists kind, data. split; [done|]. unfold Digest_IsZero in E. by bool_prop.
Qed.

Lemma stored_digest {T} `{JSON T} h kind d (v : T) :
  stored h kind d v → digest_wf d ∧ (Digest_IsZero d = false ∨ zero_stored h).
Proof. intros (_ & Hp & ->). split; [apply digestObject_wf|by apply present_nonzero]. Qed.

(** The entry's node and everything below it was acknowledged. *)
Inductive uploaded (h : history eff) : dirEntry → Prop :=
| uploaded_file e m :
    de_Type e = EntryFile → stored h (str "file") (de_Node e) m →
    fm_Size m = de_Size e → (file_ok m ∨ zero_stored h) →
    Forall (chunk_present h) (els (fm_Chunks m)) → uploaded h e
| uploaded_symlink e m :
    de_Type e = EntrySymlink → stored h (str "symlink") (de_Node e) m →
    validateSymlinkManifest m = Ok tt → len (els (sm_Target m)) = de_Size e → uploaded h e
| uploaded_dir e m :
    de_Type e = EntryDir → stored h (str "dir") (de_Node e) m → (directory_ok m ∨ zero_stored h) →
    (∀ x, x ∈ els (dm_Entries m) → uploaded h x) → uploaded h e.

Lemma uploaded_mono h h' e : extends h h' → uploaded h e → uploaded h' e.
Proof.
  intros He. induction 1 as [e m ? Hp ? ? Hc|e m ? Hp ? ?|e m ? Hp ? _ IH].
  - eapply uploaded_file; [done|by eapply stored_mono|done|by eapply or_zero_mono|].
    eapply Forall_impl; [exact Hc|]. intros c (data & ? & Hd). exists data. split; [done|].
    by eapply present_mono.
  - eapply uploaded_symlink; try done. by eapply stored_mono.
  - eapply uploaded_dir; [done|by eapply stored_mono|by eapply or_zero_mono|done].
Qed.

(** [tree_paths h P d]: the directory [d] was put with everything its paths go
    through, and [P] are the paths below it. *)
Inductive tree_paths (h : history eff) : (list bytes → Prop) → Digest → Prop :=
| tree_paths_intro d m (below : dirEntry → list bytes → Prop) (P : list bytes → Prop) :
    stored h (str "dir") d m →
    (∀ e, e ∈ els (dm_Entries m) → de_Type e = EntryDir → tree_paths h (below e) (de_Node e)) →
    (∀ path, P path ↔ ∃ e rest, e ∈ els (dm_Entries m) ∧ path = entry_name e :: rest ∧
       (rest = [] ∨ de_Type e = EntryDir ∧ below e rest)) →
    tree_paths h P d.

Lemma tree_paths_mono h h' P d : extends h h' → tree_paths h P d → tree_paths h' P d.
Proof.
  intros He. induction 1 as [d m below P Hs _ IH HP]. by eapply tree_paths_intro; [eapply stored_mono|..].
Qed.

Lemma tree_paths_nonempty h P d path : tree_paths h P d → P path → path ≠ [].
Proof. destruct 1 as [d m below P _ _ HP]. by intros (e & rest & _ & -> & _)%HP. Qed.

(** [mirrors h0 h want directory d]: the tree [d] is what was seen after [h0] of
    the [directory] of the source, restricted to the paths (relative to it) that
    are wanted: each directory of the tree has exactly the wanted names of the
    listing of the directory it stands for, each as what it was inspected to be. *)
Inductive mirrors (h0 h : history eff) : (list bytes → Prop) → bytes → Digest → Prop :=
| mirrors_intro want directory d m names :
    stored h (str "dir") d m → listing h0 h directory names →
    (∀ name, name ∈ entry_name <$> els (dm_Entries m) ↔ name ∈ names ∧ want [name]) →
    (∀ e, e ∈ els (dm_Entries m) → inspected h0 h (path_Join2 directory (entry_name e)) (de_Type e)) →
    (∀ e, e ∈ els (dm_Entries m) → de_Type e = EntryDir →
       mirrors h0 h (λ path, want (entry_name e :: path)) (path_Join2 directory (entry_name e)) (de_Node e)) →
    mirrors h0 h want directory d.

Lemma mirrors_mono h0 h h' want directory d :
  extends h h' → mirrors h0 h want directory d → mirrors h0 h' want directory d.
Proof.
  intros He. induction 1 as [want directory d m names Hs Hl Hn Hi _ IH].
  eapply mirrors_intro; [by eapply stored_mono|by eapply listing_mono|done| |done].
  intros e Hin. eapply inspected_mono; [done|by apply Hi].
Qed.

Lemma mirrors_iff h0 h want want' directory d :
  (∀ path, path ≠ [] → want path ↔ want' path) →
  mirrors h0 h want directory d → mirrors h0 h want' directory d.
Proof.
  intros Hw Hm. revert want' Hw. induction Hm as [want directory d m names Hs Hl Hn Hi _ IH]. intros want' Hw.
  eapply mirrors_intro; [done|done| |done|].
  - intros name. by rewrite <- Hw.
  - intros e Hin Ht. apply IH; [done|done|]. intros path _. by apply Hw.
Qed.

Definition uploaded_root (h : history eff) (d : Digest) : Prop := uploaded h (rootEntry d).

Lemma uploaded_node h e d :
  de_Type e = EntryDir → de_Node e = d → uploaded_root h d → uploaded h e.
Proof.
  intros Ht <- Hu. inversion Hu as [? m Ht'|? m Ht'|? m _ Hs Hok Hx]; subst;
    [by vm_compute in Ht'..|]. by eapply uploaded_dir.
Qed.
End Uploads.

(** ** Sorting *)

Lemma insertEntry_perm e l : insertEntry e l ≡ₚ e :: l.
Proof.
  induction l as [|x l IH]; simpl; [done|]. destruct (bytes_Compare _ _); [done|done|].
  rewrite IH. apply Permutation_swap.
Qed.

Lemma sortEntries_perm l : sortEntries l ≡ₚ l.
Proof. induction l as [|e l IH]; simpl; [done|]. by rewrite insertEntry_perm, IH. Qed.

Lemma insertEntry_sorted e l :
  StronglySorted name_lt l → entry_name e ∉ entry_name <$> l →
  StronglySorted name_lt (insertEntry e l).
Proof.
  induction 1 as [|x l Hs IH Hf]; simpl; [by repeat constructor|].
  rewrite not_elem_of_cons. intros [Hne Hnin].
  destruct (bytes_Compare (els (de_Name e)) (els (de_Name x))) eqn:E.
  - by apply bytes_Compare_eq in E.
  - constructor; [by constructor|]. constructor; [done|]. eapply Forall_impl; [exact Hf|].
    intros y Hy. by eapply bytes_lt_trans.
  - constructor; [by apply IH|]. rewrite insertEntry_perm. constructor; [|done].
    unfold name_lt, bytes_lt, entry_name. by rewrite bytes_Compare_antisym, E.
Qed.

Lemma sortEntries_sorted l :
  NoDup (entry_name <$> l) → StronglySorted name_lt (sortEntries l).
Proof.
  induction l as [|e l IH]; simpl; [constructor|]. intros [Hn Hl]%NoDup_cons.
  apply insertEntry_sorted; [by apply IH|]. by rewrite sortEntries_perm.
Qed.

Lemma normalized_bounds `{Chunker} options p :
  normalized options = Ok p →
  64 ≤ co_MinSize p ∧ co_MinSize p < co_AverageSize p < co_MaxSize p ∧ co_MaxSize p ≤ maxChunkObjectBytes.
Proof.
  unfold normalized. rewrite !guard_bind_ok. intros (Hb & _ & Hm & _ & E). injection E as <-. simpl.
  apply Z.ltb_ge in Hm. bool_prop. split_and!; [lia|lia|lia|exact Hm].
Qed.

Lemma regular_not_dir info : IsRegular info = true → IsDir info = false.
Proof.
  unfold IsRegular, IsDir. rewrite N.eqb_eq, negb_false_iff, N.eqb_eq. intros Hr.
  replace ModeDir with (N.land ModeType ModeDir) by done. by rewrite N.land_assoc, Hr.
Qed.

(** ** The steps of a scan *)

Section ScanSteps.
Context `{AEADLaws} `{Chunker}.
Variable publisher : Publisher.
Abbreviation repository := (pb_repository publisher).
Abbreviation present := (present repository).
Abbreviation uploaded := (uploaded publisher).
Variable G : guarantee eff.
Hypothesis Hreads : reads_free G.
Hypothesis Hputs : ∀ h k raw, content_put repository k raw → G h _ (Store_PutIfAbsent k raw).
Abbreviation R := source_rely.
Abbreviation doing := (acting (S:=PublisherState) G R).
Variable h0 : history eff.

(** The profile of a publisher is one that normalization leaves alone. *)
Hypothesis Hprofile : normalized (pb_Chunking publisher) = Ok (pb_Chunking publisher).
Hypothesis Hpolynomial : (co_Polynomial (pb_Chunking publisher) ≤ u64_max)%N.

Lemma src_doing {X} (op : src_eff (result X)) h (Q : history eff → result X → Prop) :
  (∀ r, source_answer h op r → Q (h ++ [Ev (Source op) r]) r) → doing (src op) h Q.
Proof. intros HQ. apply doing_callr; [by apply Hreads|]. intros r [_ Hr]. by apply HQ. Qed.

Lemma source_call_doing {X} (op : src_eff X) h (Q : history eff → result X → Prop) :
  (∀ x, source_answer h op x → Q (h ++ [Ev (Source op) x]) (Ok x)) →
  doing (mcall (Source op)) h Q.
Proof. intros HQ. apply doing_call; [by apply Hreads|]. intros x [_ Hx]. by apply HQ. Qed.

Lemma ignore_doing op h (Q : history eff → result unit → Prop) :
  (∀ h', extends h h' → Q h' (Ok tt)) → doing (ignore op) h Q.
Proof.
  intros HQ. unfold ignore. do_step. apply source_call_doing. intros x _. do_step.
  apply HQ, extends_snoc.
Qed.

Lemma ctx_doing h (Q : history eff → result unit → Prop) :
  (∀ h' r, ext_reads h h' → Q h' r) → doing checkCtx h Q.
Proof.
  intros HQ. eapply (doing_reading _ (λ _, True)); [|by auto].
  apply reading_checkCtx; [done|done|done].
Qed.

(** A failing cleanup path. *)
Lemma fail_after_doing {A} op e h (Q : history eff → result A → Prop) :
  (∀ h', Q h' (Err e)) → doing (ignore op ;;; mfail e) h Q.
Proof. intros HQ. do_step. apply ignore_doing. intros h' _. by do_step. Qed.

Lemma putManifest_doing {T} `{JSONLaws T} kind (v : T) h :
  json_valid v →
  doing (putManifest repository kind v) h (λ h' r, ∀ d, r = Ok d → stored publisher h' kind d v).
Proof.
  intros Hv. unfold putManifest. do 2 do_step; [done|]. bool_prop.
  eapply doing_mono; [by apply putImmutable_acting|]. intros h' r _ Hr d ->.
  destruct (Hr d eq_refl) as [-> Hp]. split_and!; [|done|done].
  exists (canonicalJSON v). split; [by apply decode_encode|by split].
Qed.

(** *** Files *)

Abbreviation maxSize := (co_MaxSize (pb_Chunking publisher)).

Definition chunk_good (h : history eff) (c : chunkRef) : Prop :=
  0 < cr_Size c ≤ maxSize ∧ chunk_present publisher h c.

Definition walk_inv (h : history eff) (acc : list chunkRef * Z) : Prop :=
  chunks_from 0 acc.1 ∧ acc.2 = chunks_size acc.1 ∧ len acc.1 ≤ maxFileChunks ∧
  Forall (chunk_good h) acc.1.

Lemma chunk_present_mono h h' c :
  extends h h' → chunk_present publisher h c → chunk_present publisher h' c.
Proof. intros He (data & ? & Hp). exists data. split; [done|]. by eapply present_mono. Qed.

Lemma chunk_good_mono h h' c : extends h h' → chunk_good h c → chunk_good h' c.
Proof. intros He [? Hc]. split; [done|]. by eapply chunk_present_mono. Qed.

Lemma walk_inv_mono h h' acc : extends h h' → walk_inv h acc → walk_inv h' acc.
Proof.
  intros He (? & ? & ? & Hf). split_and!; try done. eapply Forall_impl; [exact Hf|].
  intros c. by apply chunk_good_mono.
Qed.

Lemma profile_max : 64 ≤ co_MinSize (pb_Chunking publisher) ∧
  co_MinSize (pb_Chunking publisher) < co_AverageSize (pb_Chunking publisher) < maxSize ∧
  maxSize ≤ maxChunkObjectBytes.
Proof. exact (normalized_bounds _ _ Hprofile). Qed.

Lemma chunks_size_bound h chunks :
  Forall (chunk_good h) chunks → 0 ≤ chunks_size chunks ≤ len chunks * maxSize.
Proof.
  induction 1 as [|c cs [Hc _] _ IH]; simpl; [unfold len; simpl; lia|].
  unfold len in *. simpl. lia.
Qed.

Lemma chunks_from_app o a b :
  chunks_from o (a ++ b) ↔ chunks_from o a ∧ chunks_from (o + chunks_size a) b.
Proof.
  revert o. induction a as [|c a IH]; intros o; simpl; [by rewrite Z.add_0_r; naive_solver|].
  rewrite IH, Z.add_assoc. naive_solver.
Qed.

Lemma chunks_bound n : 0 ≤ n → n ≤ maxFileChunks → n * maxSize ≤ maxRepresentableFileBytes.
Proof.
  intros Hn Hm. pose proof profile_max as (? & ? & ?). unfold maxRepresentableFileBytes.
  apply Z.mul_le_mono_nonneg; lia.
Qed.

Lemma uploadChunk_doing acc chunk h :
  walk_inv h acc → cd_Size chunk = len (cd_Data chunk) → 0 < cd_Size chunk ≤ maxSize →
  doing (uploadChunk publisher acc chunk) h (λ h' r, ∀ acc', r = Ok acc' → walk_inv h' acc').
Proof.
  destruct acc as [chunks offset]. intros (Hf & Ho & Hl & Hg) Hs Hb. simpl in *. unfold uploadChunk.
  do 2 do_step; [done|]. bool_prop. do_step. eapply doing_mono; [by apply putImmutable_acting|].
  intros h1 [d|e] E1 Hr; [|done]. destruct (Hr d eq_refl) as [-> Hp]. do 2 do_step; [done|].
  do_step. intros acc' [= <-]. simpl. pose proof (chunks_size_bound _ _ Hg) as Hsz.
  pose proof profile_max as (_ & _ & Hmax).
  split_and!; simpl.
  - apply chunks_from_app. split; [done|]. simpl. by rewrite Ho.
  - rewrite chunks_size_app. simpl. rewrite Z.add_0_r, Ho. apply int64_wrap_id.
    pose proof (chunks_bound (len chunks) (len_nonneg _) Hl). unfold int64_min, int64_max, maxRepresentableFileBytes, maxFileChunks in *.
    change maxChunkObjectBytes with 67108864 in *. lia.
  - rewrite len_app. unfold len at 2. simpl. lia.
  - apply Forall_app. split; [|constructor; [|constructor]].
    + eapply Forall_impl; [exact Hg|]. intros c. by apply chunk_good_mono.
    + split; [done|]. exists (cd_Data chunk). split; [by split|done].
Qed.

Lemma walkPieces_doing {A} (I : history eff → A → Prop) fuel file options visit acc h :
  (∀ h h' a, extends h h' → I h a → I h' a) →
  (∀ h a chunk, I h a → cd_Size chunk = len (cd_Data chunk) →
     0 < cd_Size chunk ≤ co_MaxSize options →
     doing (visit a chunk) h (λ h' r, ∀ a', r = Ok a' → I h' a')) →
  I h acc →
  doing (walkPieces fuel file options visit acc) h (λ h' r, ∀ a', r = Ok a' → I h' a').
Proof.
  intros Hmono Hvisit. revert acc h. induction fuel as [|fuel IH]; intros acc h HI; simpl; [by do_step|].
  do_step. apply ctx_doing. intros h1 [[]|e] E1; [|done]. do_step. apply src_doing.
  intros [[data|]|e] Hr; [|do_step|done].
  - do_step. eapply doing_mono.
    { apply Hvisit; [|done|by apply Hr]. eapply Hmono; [|exact HI].
      etrans; [by apply extends_reads|apply extends_snoc]. }
    intros h2 [a|e] E2 Ha; [|done]. apply IH. by apply Ha.
  - intros a [= <-]. eapply Hmono; [|exact HI]. etrans; [by apply extends_reads|apply extends_snoc].
Qed.

Definition file_built (h : history eff) (d : Digest) (size : Z) : Prop :=
  ∃ m, stored publisher h (str "file") d m ∧ fm_Size m = size ∧ (file_ok m ∨ zero_stored publisher h) ∧ Forall (chunk_present publisher h) (els (fm_Chunks m)) ∧
    0 ≤ size ≤ maxRepresentableFileBytes.

Lemma Forall_or {A} (P : A → Prop) (Z : Prop) l : (∀ x, x ∈ l → P x ∨ Z) → Forall P l ∨ Z.
Proof.
  induction l as [|x l IH]; intros Hl; [left; constructor|].
  destruct (Hl x) as [Hx|?]; [by left| |by right].
  destruct IH as [?|?]; [intros y Hy; apply Hl; by right|left; by constructor|by right].
Qed.

Lemma int_ok_nonneg z : 0 ≤ z ≤ int64_max → int_ok z.
Proof.
  intros Hz. unfold int_ok, int64_wf, int64_min, int64_max in *. apply andb_true_iff.
  rewrite !Z.leb_le. lia.
Qed.

Lemma chunks_valid h o chunks :
  0 ≤ o → o + chunks_size chunks ≤ int64_max → Forall (chunk_good h) chunks → chunks_from o chunks →
  Forall json_valid chunks.
Proof.
  revert o. induction chunks as [|c cs IH]; intros o Ho Hmax Hg Hf; [constructor|].
  apply Forall_cons in Hg as [[Hc (data & Hp & _)] Hg]. destruct Hf as [Hoff Hf]. simpl in Hmax.
  pose proof (chunks_size_bound _ _ Hg). constructor; [|by apply (IH (o + cr_Size c)); [lia|lia| |]].
  split_and!; [apply int_ok_nonneg; lia..|]. destruct Hp as [_ [<- _]]. apply digestObject_wf.
Qed.

Lemma walk_inv_file h chunks offset :
  walk_inv h (chunks, offset) →
  json_valid (fileManifestOf publisher chunks offset) ∧
  (file_ok (fileManifestOf publisher chunks offset) ∨ zero_stored publisher h) ∧
  0 ≤ offset ≤ maxRepresentableFileBytes.
Proof.
  intros (Hf & Ho & Hl & Hg). simpl in *. pose proof profile_max as (Hmin & Havg & Hmax).
  pose proof (chunks_size_bound _ _ Hg) as Hsz. pose proof (chunks_bound _ (len_nonneg chunks) Hl) as Hb.
  assert (maxRepresentableFileBytes ≤ int64_max) as Hrep by (by vm_compute).
  assert (maxChunkObjectBytes ≤ int64_max) as Hchunk by (by vm_compute).
  split; [|split; [|lia]].
  - split_and!; [by vm_compute|by vm_compute|apply int_ok_nonneg; simpl; lia..|done| |].
    + apply int_ok_nonneg. simpl. lia.
    + simpl. apply (chunks_valid h 0); [lia|lia|done|done].
  - destruct (Forall_or (chunk_ok maxSize) (zero_stored publisher h) chunks) as [Hok|?]; [|left|by right].
    { intros c Hc. eapply Forall_forall in Hg as [Hs (data & [_ [Hd _]] & Hp)]; [|exact Hc].
      destruct (present_nonzero _ _ _ _ Hp) as [Hz|?]; [left|by right].
      split; [done|]. by rewrite <- Hd. }
    split_and!; [done|done|done| |done|done|by rewrite Ho].
    unfold profileOf. simpl. by destruct (pb_Chunking publisher).
Qed.

Lemma buildFileOnce_doing path expected protected h :
  doing (buildFileOnce publisher path expected protected) h (λ h' r,
    ∀ d size info, r = Ok (Some (d, size, info)) → file_built h' d size ∧ info_typed info).
Proof.
  unfold buildFileOnce. do 2 do_step. apply src_doing. intros [file|e] Hopen; [|by do_step].
  do_step. unfold checkOpened. do 2 do_step.
  eapply (doing_mono _ _ (λ _ _, True)).
  { do_step. apply src_doing. intros [before|e] _; [|done]. do 2 do_step; [done|]. do 2 do_step; [done|].
    do 2 do_step; [done|]. by do_step. }
  intros h1 [before|e] E1 _; [do_step|by apply fail_after_doing].
  do 2 do_step. eapply doing_mono.
  { unfold walkChunks. do 2 do_step. rewrite Hprofile. simpl.
    apply (walkPieces_doing walk_inv); [apply walk_inv_mono|intros; by apply uploadChunk_doing|].
    split_and!; [done|done|by vm_compute|constructor]. }
  intros h2 walked E2 Hw. do 2 do_step. apply src_doing. intros stat Hstat.
  do_step. apply source_call_doing. intros closeErr _.
  do 2 do_step. destruct walked as [[chunks offset]|e]; [|done].
  do 2 do_step. destruct stat as [after|e]; [|done]. do 2 do_step. destruct closeErr as [e|]; [done|].
  do 2 do_step. apply src_doing. intros [current|e] _; [|destruct (errors_Is e OsErrNotExist); by do_step].
  do_if; [|by do_step]. do_step.
  destruct (walk_inv_file h2 chunks offset (Hw _ eq_refl)) as (Hv & Hok & Hb).
  eapply doing_mono; [by apply putManifest_doing|]. intros h3 [d|e] E3 Hd; [|done].
  specialize (Hd d eq_refl). do_step. intros d' size info [= <- <- <-].
  assert (extends h2 h3) as E23 by (etrans; [|exact E3]; repeat (etrans; [|apply extends_snoc]); reflexivity).
  split; [|by apply Hstat]. exists (fileManifestOf publisher chunks offset).
  split_and!; [done|done|by eapply or_zero_mono| |apply Hb..]. simpl.
  destruct (Hw _ eq_refl) as (_ & _ & _ & Hg). eapply Forall_impl; [exact Hg|].
  intros c [_ Hc]. by eapply chunk_present_mono.
Qed.

Lemma buildFile_doing attempts path expected protected h :
  doing (buildFile publisher attempts path expected protected) h (λ h' r,
    ∀ d size info, r = Ok (d, size, info) → file_built h' d size ∧ info_typed info).
Proof.
  revert h. induction attempts as [|n IH]; intros h; simpl; [by do_step|]. do_step.
  eapply doing_mono; [apply buildFileOnce_doing|]. intros h1 [[[[d size] info]|]|e] E1 Hf; [| |done].
  - do_step. intros d' size' info' [= <- <- <-]. by apply Hf.
  - apply IH.
Qed.

Lemma buildSymlink_doing path expected h :
  doing (buildSymlink publisher path expected) h (λ h' r, ∀ d size, r = Ok (d, size) →
    ∃ m, stored publisher h' (str "symlink") d m ∧
      validateSymlinkManifest m = Ok tt ∧ len (els (sm_Target m)) = size ∧
      0 < size ≤ maxSymlinkTargetBytes).
Proof.
  unfold buildSymlink. do 2 do_step. apply src_doing. intros [before|e] _; [|done]. simpl.
  do 2 do_step; [done|]. do_step. apply src_doing. intros [target|e] Ht; [|done].
  specialize (Ht target eq_refl). do 2 do_step. apply src_doing. intros [after|e] _; [|done]. simpl.
  do 2 do_step; [done|]. do 2 do_step; [done|]. bool_prop.
  do_step. eapply (doing_mono _ _ (λ _ _, True)).
  { destruct (pb_Symlinks publisher); by do_step. }
  intros h1 [[]|e] E1 _; [|done]. do_step. eapply doing_mono.
  { apply putManifest_doing. by vm_compute. }
  intros h2 [d|e] E2 Hd; [|done]. specialize (Hd d eq_refl). do_step.
  intros d' size [= <- <-]. eexists. split_and!; [exact Hd| |done| |]; simpl;
    [|pose proof (len_nonneg target); lia|lia].
  unfold validateSymlinkManifest. simpl. apply guard_err_ok.
  rewrite !orb_false_iff, Z.ltb_ge, Z.eqb_neq.
  split_and!; [lia|lia|]. by apply contains_byte_false.
Qed.

(** *** Listings *)

Definition listing_inv (file : handle) (h : history eff) (entries : list bytes) : Prop :=
  entries = listed file h ∧ NoDup entries ∧ Forall source_name entries.

Lemma readEntries_doing fuel directory file entries h :
  listing_inv file h entries → since h0 h (Ev (Source (Root_Open directory)) (Ok file)) →
  doing (readEntries fuel file entries) h (λ h' r, ∀ entries', r = Ok entries' →
    listing h0 h' directory entries' ∧ NoDup entries' ∧ Forall source_name entries' ∧ len entries' ≤ maxDirectoryEntries).
Proof.
  revert entries h. induction fuel as [|fuel IH]; intros entries h (He & Hnd & Hf) Hs; simpl; [by do_step|].
  do_step. apply doing_ctx; [done|]. intros [e|]; [done|]. do_step. apply source_call_doing.
  intros [batch readErr] [Hb Hn]. simpl in Hb, Hn. rewrite listed_snoc in Hn. simpl in Hn.
  rewrite app_nil_r in Hn. rewrite <- He in Hn. do 2 do_step; [done|]. bool_prop.
  assert (Forall source_name (entries ++ batch)) as Hf' by by apply Forall_app_2.
  destruct readErr as [err|].
  - destruct (errors_Is err IoEOF) eqn:Ee; do_step; [|done]. intros entries' [= <-].
    split_and!; [|done..]. eexists file, _, _, 1024, batch, err.
    split_and!; [by eapply since_mono; [reflexivity|apply extends_snoc|]|reflexivity|done| |reflexivity].
    rewrite !listed_snoc. simpl. by rewrite app_nil_r, bool_decide_true, He.
  - apply IH; [|eapply since_mono; [reflexivity| |exact Hs]; repeat (etrans; [|apply extends_snoc]); reflexivity]. split_and!; [|done|done]. rewrite !listed_snoc. simpl.
    by rewrite app_nil_r, bool_decide_true, He.
Qed.

Lemma listDirectory_doing directory expected h :
  extends h0 h →
  doing (listDirectory directory expected) h (λ h' r, ∀ before names, r = Ok (before, names) →
    listing h0 h' directory names ∧ NoDup names ∧ Forall source_name names ∧ len names ≤ maxDirectoryEntries).
Proof.
  intros Hx. unfold listDirectory. do_step. apply src_doing. intros [file|e] Hopen; [|done].
  specialize (Hopen file eq_refl). do 2 do_step.
  eapply (doing_mono _ _ (λ h' r, ∀ before names, r = Ok (before, names) →
    listing h0 h' directory names ∧ NoDup names ∧ Forall source_name names ∧ len names ≤ maxDirectoryEntries)).
  { do_step. apply src_doing. intros [before|e] _; [|done]. do 2 do_step; [done|]. do_step.
    eapply doing_mono.
    { apply (readEntries_doing _ directory).
      - split_and!; [|constructor|constructor]. rewrite !listed_snoc. simpl. by rewrite Hopen.
      - eapply since_mono; [reflexivity|apply extends_snoc|]. by apply since_snoc. }
    intros h1 [names|e] _ Hn; [|done]. do_step. apply doing_ctx; [done|]. intros [e|]; [done|].
    do_step. intros b n [= <- <-]. destruct (Hn _ eq_refl) as [Hl ?].
    split; [|done]. eapply listing_mono; [apply extends_snoc|done]. }
  intros h1 [[before names]|e] _ Hn; [|by apply fail_after_doing].
  do_step. apply source_call_doing. intros [e|] _; [by apply fail_after_doing|].
  do_step. intros b n [= <- <-]. destruct (Hn _ _ eq_refl) as [Hl ?].
  split; [|done]. eapply listing_mono; [apply extends_snoc|done].
Qed.

(** *** Directories *)

Definition entry_built (h : history eff) (e : dirEntry) : Prop :=
  uploaded h e ∧ json_valid e ∧ (entry_ok e ∨ zero_stored publisher h).

(** The tree below [d] has nothing but the selection, and every node of it. *)
Definition projected (h : history eff) (selection : option pathSelection) (d : Digest) : Prop :=
  ∃ P, tree_paths publisher h P d ∧ (∀ path, P path → allowed selection path) ∧
    (∀ s path, selection = Some s → path ≠ [] → node_at s path → P path).

Lemma projected_mono h h' selection d : extends h h' → projected h selection d → projected h' selection d.
Proof. intros He (P & Ht & HP). exists P. split; [by eapply tree_paths_mono|done]. Qed.

Definition dir_built (h : history eff) (directory : bytes) (selection : option pathSelection) (d : Digest) : Prop :=
  uploaded_root publisher h d ∧ projected h selection d ∧ mirrors publisher h0 h (allowed selection) directory d.

(** The selection below a child. *)
Definition below (childSelection : option pathSelection) : option pathSelection :=
  match childSelection with Some s => if sel_includeAll s then None else Some s | None => None end.

(** What an entry shows of the selection of its name. *)
Definition child_projected (h : history eff) (childSelection : option pathSelection) (e : dirEntry) : Prop :=
  (de_Type e = EntryDir → projected h (below childSelection) (de_Node e)) ∧
  (∀ s, childSelection = Some s → sel_includeAll s = true ∨ de_Type e = EntryDir).

(** What an entry shows of the source. *)
Definition child_mirrors (h : history eff) (path : bytes) (childSelection : option pathSelection) (e : dirEntry)
    : Prop :=
  inspected h0 h path (de_Type e) ∧
  (de_Type e = EntryDir → mirrors publisher h0 h (allowed (below childSelection)) path (de_Node e)).

(** The selection of a name, if it is selected at all. *)
Definition child_of (selection : option pathSelection) (name : bytes) (child : option pathSelection) : Prop :=
  match selection with
  | None => child = None
  | Some s => ∃ c, child = Some c ∧ sel_child name (sel_children s) = Some c
  end.

Definition entry_projected (h : history eff) (selection : option pathSelection) (e : dirEntry) : Prop :=
  ∃ child, child_of selection (entry_name e) child ∧ child_projected h child e.

Lemma entry_projected_mono h h' selection e :
  extends h h' → entry_projected h selection e → entry_projected h' selection e.
Proof.
  intros He (child & Hc & Hp & Ha). exists child. split; [done|]. split; [|done]. intros Ht.
  eapply projected_mono; [done|by apply Hp].
Qed.

Definition entry_mirrors (h : history eff) (directory : bytes) (selection : option pathSelection) (e : dirEntry)
    : Prop :=
  ∃ child, child_of selection (entry_name e) child ∧
    child_mirrors h (path_Join2 directory (entry_name e)) child e.

Lemma entry_mirrors_mono h h' directory selection e :
  extends h h' → entry_mirrors h directory selection e → entry_mirrors h' directory selection e.
Proof.
  intros He (child & Hc & Hi & Hm). exists child. split; [done|]. split; [by eapply inspected_mono|].
  intros Ht. eapply mirrors_mono; [done|by apply Hm].
Qed.

Lemma uploaded_digest h e : uploaded h e →
  digest_wf (de_Node e) ∧ (Digest_IsZero (de_Node e) = false ∨ zero_stored publisher h).
Proof. by destruct 1 as [e m _ Hn|e m _ Hn|e m _ Hn]; apply stored_digest in Hn. Qed.

Lemma Perm_ok info : N.ldiff (Perm info) 511 = 0%N ∧ (Perm info ≤ u32_max)%N.
Proof.
  unfold Perm. split.
  - apply N.bits_inj_0. intros n. rewrite N.ldiff_spec, N.land_spec. rewrite <- andb_assoc, andb_negb_r. apply andb_false_r.
  - change 511%N with (N.ones 9). rewrite N.land_ones. etrans; [apply N.lt_le_incl, N.mod_lt; done|].
    by vm_compute.
Qed.

Lemma entry_built_intro h name t node mode size time :
  let e := {| de_Name := Some name; de_Type := t; de_Node := node; de_Mode := mode; de_Size := size;
              de_ModTimeUnixNano := time |} in
  source_name name → len name ≤ maxEntryNameBytes → N.ldiff mode 511 = 0%N → (mode ≤ u32_max)%N →
  uploaded h e → int_ok time → 0 ≤ size →
  ((t = EntryDir ∧ size = 0) ∨ (t = EntryFile ∧ size ≤ maxRepresentableFileBytes) ∨
   (t = EntrySymlink ∧ 0 < size ≤ maxSymlinkTargetBytes)) →
  entry_built h e.
Proof.
  intros e [Hn Hnul] Hl Hm Hm' Hu Ht Hs Hc. pose proof (uploaded_digest _ _ Hu) as [Hwf Hz].
  assert (maxRepresentableFileBytes ≤ int64_max ∧ maxSymlinkTargetBytes ≤ int64_max) as [? ?] by by vm_compute.
  split_and!; [done| |].
  - split_and!; [|done|done| |done]; [by destruct Hc as [[-> _]|[[-> _]|[-> _]]]|].
    apply int_ok_nonneg. simpl. destruct Hc as [[_ ->]|[[_ ?]|[_ ?]]]; [done|lia|lia].
  - destruct Hz as [Hz|?]; [left|by right]. by split_and!; simpl.
Qed.

Lemma entry_built_mono h h' e : extends h h' → entry_built h e → entry_built h' e.
Proof. intros He (Hu & ? & ?). split_and!; [by eapply uploaded_mono|done|by eapply or_zero_mono]. Qed.

Lemma int_ok_typed info : info_typed info → int_ok (fi_ModTime info).
Proof.
  intros [_ Ht]. unfold int_ok, int64_wf. apply andb_true_iff. rewrite !Z.leb_le. lia.
Qed.

Lemma file_uploaded h e d size :
  de_Type e = EntryFile → de_Node e = d → de_Size e = size → file_built h d size → uploaded h e.
Proof. intros Ht <- <- (m & Hn & Hs & Hok & Hc & _). by eapply uploaded_file. Qed.

Section Entries.
Variable recurse : bytes → FileInfo → option pathSelection → M eff PublisherState Digest.
Hypothesis Hrecurse : ∀ path info nested h, extends h0 h → sel_ok nested →
  doing (recurse path info nested) h (λ h' r, ∀ d, r = Ok d → dir_built h' path nested d).

Lemma buildEntry_doing directory name depth childSelection protected h :
  extends h0 h → source_name name → (∀ s, childSelection = Some s → sel_wf s) →
  doing (buildEntry publisher recurse directory name depth childSelection protected) h (λ h' r, ∀ e,
    r = Ok e → entry_name e = name ∧ entry_built h' e ∧ child_projected h' childSelection e ∧
      child_mirrors h' (path_Join2 directory name) childSelection e).
Proof.
  intros Hx Hname Hsel. unfold buildEntry. do 2 do_step; [done|]. bool_prop. do 2 do_step; [done|]. do 2 do_step; [done|].
  do_step. apply src_doing. intros [info|e] Hinfo; [|done]. specialize (Hinfo info eq_refl).
  match goal with |- acting _ _ _ ?h _ => set (h1 := h) end.
  assert (∀ h' t, extends h1 h' → t = kind_of info → inspected h0 h' (path_Join2 directory name) t) as Hkind.
  { intros h' t E' ->. exists info. split; [|done]. eapply since_mono; [reflexivity|exact E'|]. by apply since_snoc. }
  unfold kind_of in Hkind. do 2 do_step; [done|]. pose proof (Perm_ok info) as [Hp1 Hp2].
  assert (IsDir info = false → ∀ s, childSelection = Some s → sel_includeAll s = true) as Hall.
  { intros Hd s ->. simpl in *. rewrite Hd in *. by destruct (sel_includeAll s). }
  do_if as Hreg; [|do_if as Hdir; [|do_if; [|by do_step]]].
  - do_step. eapply doing_mono; [apply buildFile_doing|]. intros h2 [[[d size] stable]|e] E2 Hf; [|done].
    destruct (Hf _ _ _ eq_refl) as [Hb Hst]. do_step. intros e [= <-]. pose proof (Perm_ok stable) as [? ?].
    pose proof Hb as (? & _ & _ & _ & _ & ?). split_and!; [done| | |split; [by apply Hkind|done]].
    + apply entry_built_intro; try done; [by eapply file_uploaded|by apply int_ok_typed|lia|].
      right; left. split; [done|lia].
    + split; [done|]. intros s Hs. left. apply Hall; [by apply regular_not_dir|done].
  - do_step. eapply doing_mono.
    { apply Hrecurse; [etrans; [exact Hx|apply extends_snoc]|]. destruct childSelection as [s|]; [|done].
      destruct (sel_includeAll s) eqn:Ei; [done|]. split; [by apply Hsel|done]. }
    intros h2 [d|e] E2 Hd; [|done]. destruct (Hd _ eq_refl) as (Hu & Hpr & Hmir). do_step. intros e [= <-].
    split_and!; [done| | |split; [by apply Hkind|done]].
    + apply entry_built_intro; try done; [by eapply uploaded_node| |by left].
      destruct childSelection as [s|]; [destruct (sel_includeAll s)|]; first [done|by apply int_ok_typed].
    + split; [|by right]. intros _. exact Hpr.
  - do_step. eapply doing_mono; [apply buildSymlink_doing|]. intros h2 [[d size]|e] E2 Hf; [|done].
    destruct (Hf _ _ eq_refl) as (m & Hn & Hv & Hlen & Hsz). do_step. intros e [= <-].
    split_and!; [done| | |split; [by apply Hkind|done]].
    + apply entry_built_intro; try done; [by eapply uploaded_symlink|by apply int_ok_typed|lia|].
      right; right. by split.
    + split; [done|]. intros s Hs. left. by apply Hall.
Qed.

(** What the loop over the names has collected. *)
Record entries_built (h : history eff) (directory : bytes) (selection : option pathSelection)
    (names : list bytes) (items : list dirEntry) (matched : gset bytes) : Prop := {
  eb_names : entry_name <$> items `sublist_of` names;
  eb_all : ∀ name child, name ∈ names → child_of selection name child → name ∈ entry_name <$> items;
  eb_mirror : Forall (entry_mirrors h directory selection) items;
  eb_items : Forall (entry_built h) items;
  eb_sel : Forall (entry_projected h selection) items;
  eb_matched : ∀ s, selection = Some s → matched = list_to_set (entry_name <$> items);
}.

Lemma entries_built_cons h directory selection name names item items matched rest :
  entry_name item = name → entry_built h item → entry_projected h selection item →
  entry_mirrors h directory selection item →
  (∀ s, selection = Some s → matched = {[name]}) →
  entries_built h directory selection names items rest →
  entries_built h directory selection (name :: names) (item :: items) (matched ∪ rest).
Proof.
  intros <- Hb Hp Hd Hm [Hn Ha Hf Hi Hs Hr]. constructor; simpl; [by constructor| |by constructor..|].
  - intros name child [->|Hin]%elem_of_cons Hc; [by left|right]. by eapply Ha.
  - intros s Hsel. by rewrite (Hm s), (Hr s).
Qed.

Lemma buildEntries_doing directory depth selection protected names h :
  extends h0 h → Forall source_name names → (∀ s, selection = Some s → sel_wf s) →
  doing (buildEntries publisher recurse directory depth selection protected names) h
    (λ h' r, ∀ items matched, r = Ok (items, matched) →
       entries_built h' directory selection names items matched).
Proof.
  intros Hx Hnames Hsel. revert h Hx. induction Hnames as [|name names Hname Hnames IH]; intros h Hx; simpl.
  { do_step. intros items matched [= <- <-]. constructor; [done|by intros ? ? ?%elem_of_nil|constructor..|done]. }
  do_step. apply doing_ctx; [done|]. intros [e|]; [done|].
  assert (∀ childSelection matched h1, extends h0 h1 →
    (∀ s, childSelection = Some s → sel_wf s) → child_of selection name childSelection →
    (∀ s, selection = Some s → matched = {[name]}) →
    doing (item <- buildEntry publisher recurse directory name depth childSelection protected ;;
           ' (items, rest) <- buildEntries publisher recurse directory depth selection protected names ;;
           mret (item :: items, matched ∪ rest)) h1
      (λ h' r, ∀ items matched, r = Ok (items, matched) →
         entries_built h' directory selection (name :: names) items matched)) as Hbuild.
  { intros childSelection matched h1 Hx1 Hwf Hc Hm. do_step.
    eapply doing_mono; [by apply buildEntry_doing|]. intros h2 [item|e] E2 Hi; [|done].
    destruct (Hi _ eq_refl) as (Hn & Hb & Hp & Hd). do_step. eapply doing_mono; [apply IH; by etrans|].
    intros h3 [[items rest]|e] E3 Hr; [|done]. do_step. intros ? ? [= <- <-].
    apply entries_built_cons; [done|by eapply entry_built_mono| | |done|by apply Hr].
    - eapply entry_projected_mono; [done|]. exists childSelection. by rewrite Hn.
    - eapply entry_mirrors_mono; [done|]. exists childSelection. by rewrite Hn. }
  assert (extends h0 (h ++ [Ev CtxErr None])) as Hx' by (etrans; [exact Hx|apply extends_snoc]).
  destruct selection as [s|].
  - destruct (sel_child name (sel_children s)) as [child|] eqn:Ec.
    + apply Hbuild; [done|intros ? [= <-]; by eapply sel_wf_child; [apply Hsel|]|by exists child|done].
    + eapply doing_mono; [by apply IH|]. intros h1 r _ Hr items matched ->.
      destruct (Hr _ _ eq_refl) as [Hn Ha Hf Hi Hs Hm]. constructor; [by constructor| |done..].
      intros n child [->|Hin]%elem_of_cons Hc; [|by eapply Ha]. destruct Hc as (c & _ & Hc). congruence.
  - by apply Hbuild.
Qed.
End Entries.

Lemma matched_all h s items :
  sel_wf s → Forall (entry_projected h (Some s)) items →
  Z.of_nat (size (list_to_set (entry_name <$> items) : gset bytes)) = len (sel_children s) →
  ∀ name child, sel_child name (sel_children s) = Some child →
    ∃ e, e ∈ items ∧ entry_name e = name.
Proof.
  intros [i cs Hnd _ _] Hp Hsize name child Hc%sel_child_elem. simpl in *.
  assert (list_to_set (entry_name <$> items) = (list_to_set cs.*1 : gset bytes)) as Heq.
  { apply leibniz_equiv, set_subseteq_size_equiv.
    - intros x. rewrite !elem_of_list_to_set, list_elem_of_fmap. intros (e & -> & He).
      eapply Forall_forall in Hp as (_ & (c & _ & Hsc%sel_child_elem) & _); [|exact He].
      apply list_elem_of_fmap. by exists (entry_name e, c).
    - rewrite (size_list_to_set cs.*1) by done. rewrite length_fmap. unfold len in Hsize. lia. }
  assert (name ∈ (list_to_set cs.*1 : gset bytes)) as Hin.
  { rewrite elem_of_list_to_set, list_elem_of_fmap. by exists (name, child). }
  rewrite <- Heq, elem_of_list_to_set, list_elem_of_fmap in Hin. destruct Hin as (e & -> & He).
  by exists e.
Qed.

Definition directoryOf (items : list dirEntry) : dirManifest :=
  {| dm_Format := objectFormatVersion; dm_Entries := Some (sortEntries items) |}.

Lemma directoryOf_ok h directory selection names items matched :
  entries_built h directory selection names items matched → NoDup names → len names ≤ maxDirectoryEntries →
  json_valid (directoryOf items) ∧ (directory_ok (directoryOf items) ∨ zero_stored publisher h).
Proof.
  intros [Hn _ _ Hi _ _] Hnd Hl. split.
  - split; [by vm_compute|]. simpl. rewrite sortEntries_perm. eapply Forall_impl; [exact Hi|].
    by intros e (_ & ? & _).
  - destruct (Forall_or entry_ok (zero_stored publisher h) items) as [Hok|?]; [|left|by right].
    { intros e He. by eapply Forall_forall in Hi as (_ & _ & ?); [|exact He]. }
    split_and!; simpl; [done| |by rewrite sortEntries_perm|].
    + unfold len. rewrite sortEntries_perm. apply sublist_length in Hn. rewrite length_fmap in Hn.
      unfold len in Hl. lia.
    + apply sortEntries_sorted. by eapply sublist_NoDup.
Qed.

(** What the subtree of an entry shows agrees with the selection. *)
Definition shown_below (h : history eff) (selection : option pathSelection) (e : dirEntry)
    (P : list bytes → Prop) : Prop :=
  ∃ child, child_of selection (entry_name e) child ∧
    (∀ s, child = Some s → sel_includeAll s = true ∨ de_Type e = EntryDir) ∧
    (de_Type e = EntryDir → tree_paths publisher h P (de_Node e) ∧ (∀ path, P path → allowed (below child) path) ∧
       ∀ s path, below child = Some s → path ≠ [] → node_at s path → P path).

Lemma entry_shown h selection e : entry_projected h selection e → ∃ P, shown_below h selection e P.
Proof.
  intros (child & Hc & Hp & Ha). destruct (decide (de_Type e = EntryDir)) as [Ht|Ht].
  - destruct (Hp Ht) as (P & HP). by exists P, child.
  - exists (λ _, False), child. by split_and!.
Qed.

Lemma below_node child s path :
  sel_wf child → node_at child path → path ≠ [] → below (Some child) = s → s = Some child.
Proof.
  intros [i cs _ _ Hcs] Hat Hne. simpl in *. destruct i; [|by intros <-]. rewrite Hcs in Hat by done.
  destruct path; [done|]. by simpl in Hat.
Qed.

Lemma projected_directory h selection items d :
  (∀ s, selection = Some s → sel_wf s) → stored publisher h (str "dir") d (directoryOf items) →
  Forall (entry_projected h selection) items →
  (∀ s, selection = Some s →
     Z.of_nat (size (list_to_set (entry_name <$> items) : gset bytes)) = len (sel_children s)) →
  projected h selection d.
Proof.
  intros Hwf Hn Hp Hsize.
  destruct (finite_choice items (shown_below h selection)) as [P HP].
  { intros e He. eapply Forall_forall in Hp; [|exact He]. by apply entry_shown. }
  assert (∀ e, e ∈ els (dm_Entries (directoryOf items)) ↔ e ∈ items) as Hin.
  { intros e. simpl. by rewrite sortEntries_perm. }
  exists (λ path, ∃ e rest, e ∈ items ∧ path = entry_name e :: rest ∧
    (rest = [] ∨ de_Type e = EntryDir ∧ P e rest)). split_and!.
  - eapply (tree_paths_intro _ _ _ _ P); [exact Hn| |by intros path; setoid_rewrite Hin].
    intros e He%Hin Ht. destruct (HP e He) as (child & _ & _ & Htree). by apply Htree.
  - intros path (e & rest & He & -> & Hor). destruct selection as [s|]; [|done]. simpl. right.
    destruct (HP e He) as (child & (c & -> & Hc) & Ha & Htree). rewrite Hc.
    destruct Hor as [->|[Ht HPr]]; [apply shows_nil|]. destruct (Htree Ht) as (_ & Hall & _).
    specialize (Hall rest HPr). simpl in Hall. destruct (sel_includeAll c) eqn:Ei; [destruct rest, c; by left|done].
  - intros s path -> Hne Hat. destruct path as [|name path]; [done|]. simpl in Hat.
    destruct (sel_child name (sel_children s)) as [c|] eqn:Ec; [|done].
    destruct (matched_all h s items (Hwf _ eq_refl) Hp (Hsize _ eq_refl) _ _ Ec) as (e & He & <-).
    exists e, path. split_and!; [done|done|]. destruct path as [|n path]; [by left|right].
    destruct (HP e He) as (child & (c' & -> & Hc) & Ha & Htree). simplify_eq.
    apply sel_wf_child in Ec; [|by apply Hwf].
    pose proof (below_node c _ (n :: path) Ec Hat (ltac:(done)) eq_refl) as Hb.
    destruct (Ha c eq_refl) as [Hi|Ht]; [simpl in Hb; by rewrite Hi in Hb|].
    split; [done|]. destruct (Htree Ht) as (_ & _ & Hall). by eapply Hall.
Qed.

Lemma child_allowed selection name :
  sel_ok selection → allowed selection [name] ↔ ∃ child, child_of selection name child.
Proof.
  destruct selection as [s|]; simpl; [|naive_solver]. intros [_ Hi]. destruct s as [i cs]. simpl in *. subst i.
  destruct (sel_child name cs) as [c|]; [|naive_solver]. split; [by exists (Some c), c|]. intros _. right. apply shows_nil.
Qed.

Lemma allowed_below selection name child path :
  sel_ok selection → child_of selection name child →
  allowed (below child) path ↔ allowed selection (name :: path).
Proof.
  destruct selection as [s|]; simpl; [|by intros _ ->]. intros [_ Hi] (c & -> & Hc). destruct s as [i cs].
  simpl in *. subst i. rewrite Hc. destruct c as [i ds]. destruct i; simpl; [|naive_solver].
  split; [intros _; right|done]. destruct path; by left.
Qed.

Lemma mirrors_directory h directory selection names items matched d :
  sel_ok selection → listing h0 h directory names →
  stored publisher h (str "dir") d (directoryOf items) →
  entries_built h directory selection names items matched →
  mirrors publisher h0 h (allowed selection) directory d.
Proof.
  intros Hsel Hl Hn [Hsub Hall Hf _ _ _].
  assert (∀ e, e ∈ els (dm_Entries (directoryOf items)) ↔ e ∈ items) as Hin.
  { intros e. simpl. by rewrite sortEntries_perm. }
  rewrite Forall_forall in Hf. eapply mirrors_intro; [exact Hn|exact Hl|..].
  - intros name. simpl. rewrite sortEntries_perm, child_allowed by done. split; [|intros [? [child ?]]; by eapply Hall].
    intros He. split; [by eapply elem_of_sublist|]. apply list_elem_of_fmap in He as (e & -> & He).
    destruct (Hf e He) as (child & Hc & _). by exists child.
  - intros e He%Hin. by destruct (Hf e He) as (child & _ & Hi & _).
  - intros e He%Hin Ht. destruct (Hf e He) as (child & Hc & _ & Hm).
    eapply mirrors_iff; [|by apply Hm]. intros path _. by apply allowed_below.
Qed.

Lemma entries_built_mono h h' directory selection names items matched :
  extends h h' → entries_built h directory selection names items matched →
  entries_built h' directory selection names items matched.
Proof.
  intros He [Hn Ha Hf Hi Hs Hm]. constructor; [done|done| | | |done].
  - eapply Forall_impl; [exact Hf|]. intros e. by apply entry_mirrors_mono.
  - eapply Forall_impl; [exact Hi|]. intros e. by apply entry_built_mono.
  - eapply Forall_impl; [exact Hs|]. intros e. by apply entry_projected_mono.
Qed.

Lemma recheckDirectory_doing directory before h (Q : history eff → result unit → Prop) :
  (∀ h' r, extends h h' → Q h' r) → doing (recheckDirectory directory before) h Q.
Proof.
  intros HQ. unfold recheckDirectory.
  do 2 do_step. apply src_doing. intros [file|e] _; simpl; [|apply HQ, extends_snoc].
  do 2 do_step. apply src_doing. intros after _. do_step. apply source_call_doing. intros closeErr _.
  do 2 do_step. apply src_doing. intros current _.
  do_step; apply HQ; repeat (etrans; [|apply extends_snoc]); reflexivity.
Qed.

Lemma buildDirectorySelection_doing fuel directory expected depth selection protected h :
  extends h0 h → sel_ok selection →
  doing (buildDirectorySelection publisher fuel directory expected depth selection protected) h
    (λ h' r, ∀ d, r = Ok d → dir_built h' directory selection d).
Proof.
  revert directory expected depth selection h.
  induction fuel as [|fuel IH]; intros directory expected depth selection h Hx Hsel; simpl;
    (do_step; apply doing_ctx; [done|]; intros [e|]; [done|]); [by do_step|].
  assert (∀ s, selection = Some s → sel_wf s) as Hwf by (intros s ->; by destruct Hsel).
  assert (extends h0 (h ++ [Ev CtxErr None])) as Hx' by (etrans; [exact Hx|apply extends_snoc]).
  do 2 do_step; [done|]. do_step. eapply doing_mono; [by apply listDirectory_doing|].
  intros h1 [[before names]|e] E1 Hl; [|done]. destruct (Hl _ _ eq_refl) as (Hlist & Hnd & Hf & Hlen).
  do_step. eapply doing_mono.
  { apply buildEntries_doing; [|by etrans|done|done]. intros path info nested h' ? Hn. by apply IH. }
  intros h2 [[items matched]|e] E2 Hb; [|done]. specialize (Hb _ _ eq_refl).
  do_step. apply doing_ctx; [done|]. intros [e|]; [done|]. do_step. apply recheckDirectory_doing.
  intros h3 [[]|e] E3; [|done]. do 2 do_step; [done|].
  destruct (directoryOf_ok _ _ _ _ _ _ Hb Hnd Hlen) as [Hv Hok].
  eapply doing_mono; [by apply (putManifest_doing (str "dir") (directoryOf items))|].
  intros h4 r E4 Hput d ->. specialize (Hput d eq_refl).
  assert (extends h2 h4) as E24 by (do 2 (etrans; [|eassumption]); apply extends_snoc).
  apply (entries_built_mono _ h4) in Hb; [|done]. split_and!.
  - eapply uploaded_dir; [done|exact Hput|by eapply or_zero_mono|]. simpl. intros x Hin.
    rewrite sortEntries_perm in Hin. pose proof (eb_items _ _ _ _ _ _ Hb) as Hi.
    by eapply Forall_forall in Hi as (Hu & _); [|exact Hin].
  - eapply projected_directory; [done|exact Hput|by eapply eb_sel|].
    intros s ->. rewrite <- (eb_matched _ _ _ _ _ _ Hb s eq_refl). by bool_prop.
  - eapply mirrors_directory; [done| |exact Hput|exact Hb]. eapply listing_mono; [|exact Hlist]. by etrans.
Qed.
End ScanSteps.
