(* ===== verification/PublisherProofs.v ===== *)
(** * What publishing guarantees

    A publisher makes a reference visible only after everything it leads to was
    acknowledged by the object store; a selection hides everything else; a lost
    response is reconciled to the truth. *)

From S2P Require Import Prelude.
From S2P Require Import Prog.
From S2P Require Import GoStd.
From S2P Require Import Encoding.
From S2P Require Import Sha256.
From S2P Require Import Json.
From S2P Require Import Model.
From S2P Require Import Manifests.
From S2P Require Import Effects.
From S2P Require Import Trust.
From S2P Require Import MemStore.
From S2P Require Import ClientEncryption.
From S2P Require Import Repository.
From S2P Require Import Watermark.
From S2P Require Import Journal.
From S2P Require Import Ancestry.
From S2P Require Import Consumer.
From S2P Require Import ConsumerProofs.
From S2P Require Import Reader.
From S2P Require Import Recovery.
From S2P Require Import RecoveryProofs.
From S2P Require Import Os.
From S2P Require Import Scan.
From S2P Require Import Publisher.
From S2P Require Import Selection.
From S2P Require Import ScanProofs.


#[local] Opaque pieceLimit batchLimit depthLimit.

(** ** Well-formed publishers *)

Record publisher_wf `{Chunker} (publisher : Publisher) : Prop := {
  pw_profile : normalized (pb_Chunking publisher) = Ok (pb_Chunking publisher);
  pw_polynomial : (co_Polynomial (pb_Chunking publisher) ≤ u64_max)%N;
  pw_checkpoint : ∀ c, pb_trustedCheckpoint publisher = Some c → (wm_Generation c ≤ u64_max)%N;
  pw_signed : pb_referenceSigner publisher = None ↔ pb_referenceVerifier publisher = None;
}.

Lemma normalized_idem `{Chunker} options p : normalized options = Ok p → normalized p = Ok p.
Proof.
  intros E. pose proof (normalized_bounds _ _ E) as (B1 & B2 & B3).
  unfold normalized in E |- *. revert E. rewrite !guard_bind_ok.
  intros (G1 & G2 & G3 & G4 & [= <-]). simpl in *.
  set (mn := if co_MinSize options =? 0 then _ else _) in *.
  set (av := if co_AverageSize options =? 0 then _ else _) in *.
  set (mx := if co_MaxSize options =? 0 then _ else _) in *.
  rewrite (proj2 (Z.eqb_neq mn 0)), (proj2 (Z.eqb_neq av 0)), (proj2 (Z.eqb_neq mx 0)) by lia.
  destruct (co_Polynomial options =? 0)%N eqn:Ep; simpl.
  - replace (defaultPolynomial =? 0)%N with false by (by vm_compute). by rewrite G1, G2, G3, G4.
  - rewrite Ep. by rewrite G1, G2, G3, G4.
Qed.

(** ** Reading the commits of a publisher *)

Section Reading.
Context {U : Hashed} `{AEADLaws} (publisher : Publisher) (R : rely eff) (G : guarantee eff).
Context (HG : reads_free G) (HR : hashing (pb_repository publisher) R).
Abbreviation repository := (pb_repository publisher).

Lemma getCommit_named d :
  reading G R (getCommit publisher d) (λ r, ∀ c, r = Ok c → named_by (str "commit") d c).
Proof. unfold getCommit. eapply reading_mono; [by apply getManifest_reading|]. intros r Hr. exact Hr. Qed.

Lemma walkCommits_reading n generation digest :
  (N.of_nat n ≤ generation)%N →
  reading G R (walkCommits publisher n generation digest) (λ r, ∀ d0, r = Ok d0 →
    ancestor generation digest (generation - N.of_nat n) d0).
Proof.
  revert generation digest. induction n as [|n IH]; intros generation digest Hn; cbn [walkCommits].
  { rd_step. intros d0 [= <-]. replace (generation - N.of_nat 0)%N with generation by lia. constructor. }
  rd_step. apply reading_checkCtx; [done| |done]. rd_step.
  eapply reading_mono; [apply getCommit_named|]. intros [c|e] Hc; [|done]. do 2 rd_step.
  destruct (validateCommitManifest c generation) as [[]|] eqn:Hv; simpl; [|done].
  destruct (cm_Parent c) as [p|] eqn:Hp; [|by rd_step].
  eapply reading_mono; [apply IH; lia|]. intros r Hr d0 ->.
  replace generation with (generation - 1 + 1)%N by lia. eapply ancestor_step; [|exact Hp|].
  - replace (generation - 1 + 1)%N with generation by lia. split; [by apply Hc|done].
  - replace (generation - 1 + 1 - N.of_nat (S n))%N with (generation - 1 - N.of_nat n)%N by lia.
    by apply Hr.
Qed.

(** What the outcome of a reconciliation says about the channel: of the reference
    that was read, and authenticated, between [h] and [h']. *)
Definition reconciled (h h' : history eff) (staged : StagedSnapshot) (outcome : commitOutcome) : Prop :=
  let sn := ss_snapshot staged in
  ∃ ref object, reference_read repository (ss_channel staged) (pb_referenceVerifier publisher) h h' ref object ∧
    match outcome with
    | commitUnknown => (sr_Generation ref < sn_Generation sn)%N
    | commitApplied => ancestor (sr_Generation ref) (sr_Commit ref) (sn_Generation sn) (sn_Commit sn)
    | commitRejected => ∃ d, d ≠ sn_Commit sn ∧
        ancestor (sr_Generation ref) (sr_Commit ref) (sn_Generation sn) d
    end.

Lemma reconciled_mono h0 h h' h'' staged outcome :
  extends h0 h → extends h' h'' → reconciled h h' staged outcome → reconciled h0 h'' staged outcome.
Proof.
  intros E1 E2 (ref & object & Hr & Ho). exists ref, object. split; [by eapply reference_read_mono|done].
Qed.

Lemma reconcileCommit_acting staged h :
  acting G R (reconcileCommit publisher staged) h (λ h' r, ext_reads h h' ∧ ∀ outcome, r = Ok outcome →
    reconciled h h' staged outcome).
Proof.
  unfold reconcileCommit. do_step. intros s. eapply mwp_mono; [apply mwp_conj;
    [by apply (getReference_reading R G HG)|by apply (getReference_acting R G HG)]|].
  intros h1 s1 r [(_ & E1 & _) [_ Hr]]. split; [by apply extends_reads|].
  destruct r as [[ref object]|e]; [|done]. specialize (Hr _ _ eq_refl).
  destruct (sr_Generation ref <? sn_Generation (ss_snapshot staged))%N eqn:Hlt.
  { do_step. split; [done|]. intros outcome [= <-]. exists ref, object. split; [done|]. by apply N.ltb_lt. }
  apply N.ltb_ge in Hlt. do 2 do_step; [done|]. do_step.
  eapply doing_reading; [apply walkCommits_reading; lia|]. intros h2 [d|e] E2 Hd; [|split; [by etrans|done]].
  specialize (Hd _ eq_refl). replace (sr_Generation ref - _)%N with (sn_Generation (ss_snapshot staged)) in Hd by lia.
  do_step. split; [by etrans|]. intros outcome [= <-]. exists ref, object.
  split; [eapply reference_read_mono; [reflexivity|by apply extends_reads|done]|].
  destruct (bool_decide_reflect (d = sn_Commit (ss_snapshot staged))) as [<-|Hne]; [done|]. by exists d.
Qed.
End Reading.

(** Reconciliation decides truthfully.  When a reference update failed
    without a definite answer, Applied is reported only if a reference of the
    channel that was read and checked descends from the staged commit; Rejected
    only if the one read does not (its history has another commit at that
    generation), so the two outcomes exclude each other for one reference, up to
    a collision of two commit manifests, of any set that has those read. *)
Theorem reconcileCommit_decides {U : Hashed} `{AEADLaws} (publisher : Publisher) (staged : StagedSnapshot)
    (R : rely eff) (s : PublisherState) (h : history eff) :
  hashing (pb_repository publisher) R →
  let sn := ss_snapshot staged in
  mwp R any_call (reconcileCommit publisher staged) s h (λ h' _ r,
    ext_reads h h' ∧
    ∀ outcome, r = Ok outcome →
      ∃ ref object, reference_read (pb_repository publisher) (ss_channel staged) (pb_referenceVerifier publisher)
        h h' ref object ∧
      let descends := ancestor (sr_Generation ref) (sr_Commit ref) (sn_Generation sn) (sn_Commit sn) in
      match outcome with
      | commitUnknown => (sr_Generation ref < sn_Generation sn)%N
      | commitApplied => descends
      | commitRejected => descends → sha256_collision
      end).
Proof.
  intros HR sn. eapply mwp_mono; [by apply (reconcileCommit_acting publisher R any_call)|]. intros h' s' r (_ & He & Hr).
  split; [done|]. intros outcome ->. destruct (Hr _ eq_refl) as (ref & ob & Href & Ho).
  exists ref, ob. split; [done|]. destruct outcome; [done|done|].
  destruct Ho as (d & Hne & Ha). intros descends Ha'. by destruct (ancestor_unique _ _ _ _ _ Ha Ha').
Qed.

#[local] Existing Instance everything.

(** ** Staging *)

Lemma channel_utf8 repository channel :
  Repository_validateChannel repository channel = Ok tt → utf8_ok channel.
Proof.
  unfold Repository_validateChannel. intros Hv. ok_inv. match goal with u : unit |- _ => destruct u end.
  by apply validateChannel_utf8.
Qed.

Section Staging.
Context `{AEADLaws} `{Chunker}.
Variables (publisher : Publisher) (channel : bytes) (h0 : history eff).
Hypothesis Hpw : publisher_wf publisher.
Abbreviation repository := (pb_repository publisher).
Abbreviation present := (present repository).
Abbreviation verifier := (pb_referenceVerifier publisher).

(** What the bytes of a staged reference say. *)
Definition reference_bytes (ref : snapshotReference) (data : bytes) : Prop :=
  match verifier with
  | None => data = canonicalJSON ref
  | Some v => ∃ keyID signature, data = canonicalJSON
      {| se_Format := objectFormatVersion;
         se_Reference := {| sp_Format := objectFormatVersion; sp_RepositoryID := rv_RepositoryID v;
                            sp_Channel := channel; sp_Generation := sr_Generation ref;
                            sp_Commit := sr_Commit ref; sp_KeyID := keyID |};
         se_Signature := Some signature |}
  end.

(** A reference whose whole snapshot is in the store. *)
Definition complete_reference (h : history eff) (ref : snapshotReference) : Prop :=
  ∃ c, named_by (str "commit") (sr_Commit ref) c ∧ cm_Generation c = sr_Generation ref ∧
    present h (str "commit") (canonicalJSON c) ∧ uploaded_root publisher h (cm_Root c).

(** What an unsigned publisher writes: immutable objects under their digests,
    and references of complete snapshots. *)
Definition unsigned_protocol : guarantee eff := λ h X e,
  match e with
  | Store_CompareAndSwap k expected raw =>
      k = ReferenceKey repository channel ∧
      ∃ v ref, rp_store repository = Some v ∧ sv_open v k raw = Ok (canonicalJSON ref) ∧
        complete_reference h ref ∧ (expected = None → sr_Generation ref = 1%N)
  | Store_PutIfAbsent k raw => content_put repository k raw
  | PJ_CompareAndSwap _ _ _ | PJ_Load _ | WM_Load _ | WM_CompareAndSwap _ _ _ => False
  | _ => True
  end.

(** What a signed publisher asks its journal to hold: intents whose bytes are a
    signed reference of a complete snapshot. *)
Definition complete_intent (h : history eff) (p : PublicationIntent) : Prop :=
  let ref := {| sr_Format := objectFormatVersion; sr_Generation := wm_Generation (pi_Next p);
                sr_Commit := wm_Commit (pi_Next p) |} in
  complete_reference h ref ∧ reference_bytes ref (pi_Reference p).

Definition channel_protocol : guarantee eff := λ h X e,
  match verifier with
  | Some _ => publication_protocol publisher channel true complete_intent h X e
  | None => unsigned_protocol h X e
  end.
Abbreviation G := channel_protocol.
Abbreviation R := source_rely.
Abbreviation doing := (acting (S:=PublisherState) G R).

Lemma channel_reads : reads_free G.
Proof.
  intros h X e He. unfold channel_protocol. destruct verifier; [by apply protocol_reads|by destruct e].
Qed.

Lemma channel_puts h k raw : content_put repository k raw → G h _ (Store_PutIfAbsent k raw).
Proof. intros Hp. unfold channel_protocol. by destruct verifier. Qed.

(** Methods of the signed protocol. *)
Lemma signed_doing {A} (m : M eff PublisherState A) h Q v :
  verifier = Some v →
  acting (publication_protocol publisher channel true complete_intent) go_typed m h Q → doing m h Q.
Proof.
  intros Hv Hm. eapply doing_weaken; [| |exact Hm]; [by intros ? ? ? ? []|].
  intros h' X e He. unfold channel_protocol. by rewrite Hv.
Qed.

Definition base_ok (h : history eff) (b : stageBase) : Prop :=
  (1 ≤ sb_generation b ≤ u64_max)%N ∧
  match sb_previous b with
  | None => sb_generation b = 1%N ∧ sb_parent b = None ∧ sb_expected b = None
  | Some (current, c, object) =>
      sb_generation b = (sr_Generation current + 1)%N ∧ sb_parent b = Some (sr_Commit current) ∧
      sb_expected b = Some (ob_Version object) ∧ (1 ≤ sr_Generation current)%N ∧
      Digest_IsZero (sr_Commit current) = false ∧
      commit_at (sr_Generation current) (sr_Commit current) c ∧
      reference_read repository channel verifier h0 h current object
  end ∧
  ∀ st rev, sb_publication b = Some (st, rev) →
    reported channel h st rev ∧ valid_state publisher channel st.

Definition published_ok (h : history eff)
    (p : option (PublicationJournalState * PublicationJournalRevision)) : Prop :=
  (p = None ↔ verifier = None) ∧
  ∀ st rev, p = Some (st, rev) → reported channel h st rev ∧ valid_state publisher channel st.

Lemma prepare_doing h :
  doing (match verifier with
         | Some _ => x <- preparePublicationJournal publisher channel ;; mret (Some x)
         | None => mret None
         end) h (λ h' r, ∀ p, r = Ok p → published_ok h' p).
Proof.
  destruct verifier as [v|] eqn:Hv; [|do_step; intros p [= <-]; by split].
  do_step. eapply signed_doing; [exact Hv|]. eapply doing_mono.
  { eapply (preparePublicationJournal_doing publisher channel true complete_intent h); [apply Hpw|reflexivity]. }
  intros h1 [[st rev]|e] _ Hst; [|done]. destruct (Hst _ _ eq_refl) as (Hc & Hvs & _).
  do_step. intros p [= <-]. split; [by rewrite Hv|]. intros st' rev' [= <- <-].
  split; [by eapply current_reported|done].
Qed.

Lemma accept_doing p current c object h :
  published_ok h p → reference_valid channel verifier current object →
  commit_at (sr_Generation current) (sr_Commit current) c →
  doing (match p with
         | Some (state, revision) =>
             x <- acceptObservedPublication publisher channel state revision current c ;; mret (Some x)
         | None => mret None
         end) h (λ h' r, ∀ p', r = Ok p' → published_ok h' p').
Proof.
  intros [Hnone Hp] Href Hc. destruct p as [[st rev]|]; [|do_step; intros p [= <-]; by split].
  destruct (Hp _ _ eq_refl) as [Hr Hv]. destruct verifier as [v|] eqn:Ev; [|naive_solver].
  do_step. eapply signed_doing; [exact Ev|]. eapply doing_mono.
  { eapply (acceptObserved_doing publisher channel true complete_intent h);
      [apply Hpw|reflexivity|done|done| |done]. rewrite Ev. exact Href. }
  intros h1 [[st' rev']|e] _ Hst; [|done]. destruct (Hst _ _ eq_refl) as (Hr' & Hv' & _).
  do_step. intros p [= <-]. split; [by rewrite Ev|]. by intros ? ? [= <- <-].
Qed.

Lemma published_mono h h' p : extends h h' → published_ok h p → published_ok h' p.
Proof.
  intros He [Hn Hp]. split; [done|]. intros st rev E. destruct (Hp st rev E). split; [|done].
  by eapply reported_extends.
Qed.

Lemma readBase_doing h :
  extends h0 h → doing (readBase publisher channel) h (λ h' r, ∀ b, r = Ok b → base_ok h' b).
Proof.
  intros Hx. unfold readBase. do_step. eapply doing_mono; [apply prepare_doing|]. intros h1 [p|e] E1 Hp; [|done].
  specialize (Hp _ eq_refl). do 2 do_step.
  eapply doing_mono; [apply getReference_acting, channel_reads|].
  intros h2 [[current object]|e] E2 Href.
  - specialize (Href _ _ eq_refl). do_step. eapply doing_reading; [apply getCommit_named; [apply channel_reads|apply hashing_everything]|].
    intros h3 [c|e] E3 Hn; [|done]. specialize (Hn _ eq_refl). do 2 do_step.
    destruct (validateCommitManifest c (sr_Generation current)) as [[]|] eqn:Hv; [|done].
    do_step. pose proof Href as [Hvalid _]. eapply doing_mono.
    { eapply accept_doing; [|exact Hvalid|by split]. eapply published_mono; [|exact Hp]. extending. }
    intros h4 [p'|e] E4 Hp'; [|done]. specialize (Hp' _ eq_refl). do 2 do_step; [done|]. bool_prop.
    do_step. intros b [= <-]. destruct Hvalid as (_ & ? & ? & _ & ? & _).
    split; [|split]; simpl; [lia| |by destruct Hp'].
    split_and!; try done; try lia. eapply reference_read_mono; [by etrans| |exact Href]. extending.
  - do 2 do_step; [done|]. do 2 do_step; [done|]. do_step. intros b [= <-].
    split; [|split]; simpl; [by vm_compute|done|]. apply (published_mono _ h2) in Hp; [by destruct Hp|done].
Qed.

Lemma referenceData_doing ref h :
  doing (match pb_referenceSigner publisher with
         | None => mret (canonicalJSON ref)
         | Some _ => signSnapshotReference channel ref (pb_referenceSigner publisher) verifier
         end) h (λ h' r, ∀ data, r = Ok data → reference_bytes ref data).
Proof.
  unfold reference_bytes. pose proof (pw_signed _ Hpw) as Hs. destruct (pb_referenceSigner publisher) as [sg|].
  - destruct verifier as [v|] eqn:Ev; [|naive_solver]. unfold signSnapshotReference.
    do 2 do_step; [done|]. bool_prop. do 2 do_step. destruct (validateReferenceKeyID (sg_KeyID sg)); [|done].
    do_step. apply doing_callr; [by apply channel_reads|]. intros [sig|e] _; [|done]. simpl.
    do 2 do_step; [done|]. do_step. unfold mcalle. do_step.
    apply doing_call; [by apply channel_reads|]. intros [e|] _; do_step; [done|]. do_step.
    intros data [= <-]. exists (sg_KeyID sg), sig. by repeat f_equal.
  - destruct verifier; [naive_solver|]. do_step. by intros data [= <-].
Qed.

Definition referenceOf (sn : Snapshot) : snapshotReference :=
  {| sr_Format := objectFormatVersion; sr_Generation := sn_Generation sn; sr_Commit := sn_Commit sn |}.

(** The valid intent to publish a snapshot with these reference bytes. *)
Definition intent_of (sn : Snapshot) (data : bytes) (p : PublicationIntent) : Prop :=
  pi_Reference p = data ∧ wm_Generation (pi_Next p) = sn_Generation sn ∧ wm_Commit (pi_Next p) = sn_Commit sn ∧
  validatePublicationJournalIntent (verifierID publisher) channel p = Ok tt.

(** A snapshot that is completely in the store, and what was staged for it; one
    that is not new is what the reference read while staging shows. *)
Record staged_complete (h : history eff) (selection : option pathSelection) (staged : StagedSnapshot)
    : Prop := {
  sc_owner : ss_owner staged = true ∧ ss_channel staged = channel ∧ utf8_ok channel;
  sc_tree : dir_built publisher h0 h dot selection (sn_Root (ss_snapshot staged));
  sc_commit : ∃ c, named_by (str "commit") (sn_Commit (ss_snapshot staged)) c ∧
    cm_Root c = sn_Root (ss_snapshot staged) ∧ cm_Generation c = sn_Generation (ss_snapshot staged) ∧
    (validateCommitManifest c (sn_Generation (ss_snapshot staged)) = Ok tt ∨ zero_stored publisher h) ∧
    (ss_unchanged staged = false → present h (str "commit") (canonicalJSON c));
  sc_bytes : ss_unchanged staged = false →
    reference_bytes (referenceOf (ss_snapshot staged)) (ss_referenceData staged) ∧
    (verifier = None ↔ ss_publicationIntent staged = None) ∧
    (∀ p, ss_publicationIntent staged = Some p → intent_of (ss_snapshot staged) (ss_referenceData staged) p) ∧
    (ss_expected staged = None → sn_Generation (ss_snapshot staged) = 1%N);
  sc_shown : ss_unchanged staged = true → ∃ ref object,
    reference_read repository channel verifier h0 h ref object ∧ ss_expected staged = Some (ob_Version object) ∧
    sr_Generation ref = sn_Generation (ss_snapshot staged) ∧ sr_Commit ref = sn_Commit (ss_snapshot staged);
  sc_journal : ∀ st rev, ss_publicationState staged = Some st → ss_publicationRevision staged = Some rev →
    reported channel h st rev ∧ valid_state publisher channel st;
}.

Lemma base_mono h h' b : extends h h' → base_ok h b → base_ok h' b.
Proof.
  intros He (? & Hprev & Hp). split; [done|split].
  - destruct (sb_previous b) as [[[current c] object]|]; [|done].
    destruct Hprev as (? & ? & ? & ? & ? & ? & Hr). split_and!; try done.
    eapply reference_read_mono; [reflexivity|done|done].
  - intros st rev E. destruct (Hp _ _ E). split; [|done]. by eapply reported_extends.
Qed.

Lemma base_journal h b : base_ok h b → ∀ st rev,
  option_map fst (sb_publication b) = Some st → option_map snd (sb_publication b) = Some rev →
  reported channel h st rev ∧ valid_state publisher channel st.
Proof.
  intros (_ & _ & Hp) st rev. destruct (sb_publication b) as [[st' rev']|]; [|done].
  simpl. intros [= <-] [= <-]. by apply Hp.
Qed.

Lemma uploaded_root_wf h d : uploaded_root publisher h d →
  digest_wf d ∧ (Digest_IsZero d = false ∨ zero_stored publisher h).
Proof. apply (uploaded_digest publisher h (rootEntry d)). Qed.

Lemma base_commit h b root publishedAt :
  base_ok h b → digest_wf root → int_ok publishedAt →
  let c := {| cm_Format := objectFormatVersion; cm_Generation := sb_generation b;
              cm_Parent := sb_parent b; cm_Root := root; cm_PublishedAtUnix := publishedAt;
              cm_ResetChanges := true |} in
  json_valid c ∧ (Digest_IsZero root = false → validateCommitManifest c (sb_generation b) = Ok tt).
Proof.
  intros (Hg & Hprev & _) Hr Ht. destruct (sb_previous b) as [[[current c] object]|].
  - destruct Hprev as (Eg & -> & _ & Hgen & Hz & [Hc _] & _). split.
    + split_and!; [done|apply Hg|intros d [= <-]; destruct Hc as (? & _ & <- & _); apply digestObject_wf|done|done].
    + intros Hz'. unfold validateCommitManifest. simpl. rewrite !bool_decide_true, Hz' by done. simpl.
      rewrite bool_decide_false by lia. by rewrite Hz.
  - destruct Hprev as (-> & -> & _). split; [by split_and!|].
    intros Hz. unfold validateCommitManifest. simpl. by rewrite Hz.
Qed.

Lemma putManifest_staging {T} `{JSONLaws T} kind (v : T) h :
  json_valid v →
  doing (putManifest repository kind v) h (λ h' r, ∀ d, r = Ok d → stored publisher h' kind d v).
Proof. intros Hv. apply putManifest_doing; first [apply channel_reads|apply channel_puts|done]. Qed.

Lemma publishIntent_valid base next data p :
  publishIntent publisher channel base next data = Ok p →
  pi_Reference p = data ∧ pi_Next p = next ∧
  validatePublicationJournalIntent (verifierID publisher) channel p = Ok tt.
Proof. unfold publishIntent. rewrite check_bind_ok. by intros [Hv [= <-]]. Qed.

Lemma dir_built_mono h h' selection d :
  extends h h' → dir_built publisher h0 h dot selection d → dir_built publisher h0 h' dot selection d.
Proof.
  intros He (Hu & Hp & Hm). split_and!; [by eapply uploaded_mono|by eapply projected_mono|by eapply mirrors_mono].
Qed.

Lemma stageCommit_doing selection base root h :
  utf8_ok channel → base_ok h base → dir_built publisher h0 h dot selection root →
  doing (stageCommit publisher channel base root) h (λ h' r, ∀ staged, r = Ok staged →
    staged_complete h' selection staged ∧ ss_unchanged staged = false).
Proof.
  intros Hutf Hb Ht. pose proof (uploaded_root_wf _ _ (proj1 Ht)) as [Hwf Hz]. unfold stageCommit. do_step.
  apply doing_call; [by apply channel_reads|]. intros publishedAt [_ Hnow]. simpl in Hnow.
  assert (int_ok publishedAt) as Hint.
  { unfold int_ok, int64_wf. apply andb_true_iff. rewrite !Z.leb_le. lia. }
  destruct (base_commit h base root publishedAt Hb Hwf Hint) as [Hv Hval].
  do_step. eapply doing_mono; [by apply putManifest_staging|]. intros h1 [d|e] E1 Hput; [|done].
  destruct (Hput _ eq_refl) as (Hn & Hp & _). do_step. eapply doing_mono; [apply referenceData_doing|].
  intros h2 [data|e] E2 Hd; [|done]. specialize (Hd _ eq_refl). do 2 do_step; [done|].
  assert (extends h h2) as E02 by (do 2 (etrans; [|eassumption]); apply extends_snoc).
  do_step. eapply (doing_mono _ _ (λ _ r, ∀ x, r = Ok x →
    (verifier = None ↔ x = None) ∧ ∀ p, x = Some p →
      intent_of {| sn_Generation := sb_generation base; sn_Commit := d; sn_Root := root;
                   sn_PublishedAt := publishedAt |} data p)).
  { destruct verifier as [v|]; [|do_step; by intros x [= <-]]. do 2 do_step.
    destruct (publishIntent _ _ _ _ _) as [p|e] eqn:Ep; [|done]. do_step. intros x [= <-].
    split; [done|]. intros p' [= <-]. destruct (publishIntent_valid _ _ _ _ Ep) as (Hr & Hn' & Hpi).
    unfold intent_of. by rewrite Hn'. }
  intros h3 [intent|e] E3 Hi; [|done]. destruct (Hi _ eq_refl) as [Hi1 Hi2]. do_step.
  assert (extends h h3) as E03 by by etrans.
  intros staged [= <-]. split; [|done]. constructor; simpl; [done| | | |done|].
  - by eapply dir_built_mono.
  - eexists. split_and!; [exact Hn|done|done| |].
    + eapply or_zero_mono; [exact E03|]. destruct Hz as [Hz|?]; [left|by right]. by apply Hval.
    + intros _. eapply present_mono; [|exact Hp]. by etrans.
  - intros _. split_and!; [exact Hd|done|done|]. destruct Hb as (_ & Hprev & _).
    destruct (sb_previous base) as [[[? ?] ?]|]; [|naive_solver].
    destruct Hprev as (_ & _ & -> & _). done.
  - apply base_journal. by eapply base_mono.
Qed.

Lemma captureProtected_doing file identities h :
  doing (captureProtected file identities) h (λ _ _, True).
Proof.
  assert (∀ {A} op (k : M eff PublisherState A) h, (∀ h, doing k h (λ _ _, True)) →
    doing (ignore op ;;; k) h (λ _ _, True)) as Hign.
  { intros A op k h' Hk. do_step. apply ignore_doing; [apply channel_reads|]. intros h'' _. apply Hk. }
  unfold captureProtected. do_step. apply doing_ctx; [apply channel_reads|]. intros [e|]; [done|].
  do 2 do_step. apply src_doing; [apply channel_reads|]. intros [linked|e] _.
  - do 2 do_step. do 2 do_step; [done|]. do 2 do_step. apply src_doing; [apply channel_reads|].
    intros [f|e] _; [|done]. simpl. do 2 do_step. apply src_doing; [apply channel_reads|]. intros opened _.
    do 2 do_step. apply src_doing; [apply channel_reads|]. intros current _.
    destruct opened as [opened|e]; [|apply Hign; intros; by do_step].
    destruct current as [current|e]; [|apply Hign; intros; by do_step].
    repeat do_if; try (apply Hign; intros); by do_step.
  - do 2 do_step; [done|]. do_step. apply doing_get. intros s. do 2 do_step; [done|]. by do_step.
Qed.

Lemma closeProtected_doing identities h :
  doing (closeProtectedSourceFiles identities) h (λ _ _, True).
Proof.
  revert h. induction identities as [|[f i] identities IH]; intros h; simpl; [by do_step|].
  do_step. apply ignore_doing; [apply channel_reads|]. intros h' _. apply IH.
Qed.

Lemma captureFiles_doing files identities h :
  doing (captureFiles files identities) h (λ _ _, True).
Proof.
  revert identities h. induction files as [|f files IH]; intros identities h; simpl; [by do_step|].
  do 2 do_step. eapply doing_mono; [apply captureProtected_doing|].
  intros h1 [[p|]|e] _ _; [apply IH..|]. do_step. eapply doing_mono; [apply closeProtected_doing|].
  intros h2 [[]|e'] _ _; [by do_step|done].
Qed.

Lemma deferring_doing {A} cleanup (m : M eff PublisherState A) h (Q : history eff → A → Prop) :
  (∀ h h' a, extends h h' → Q h a → Q h' a) →
  (∀ h, doing cleanup h (λ _ _, True)) →
  doing m h (λ h' r, ∀ a, r = Ok a → Q h' a) →
  doing (deferring cleanup m) h (λ h' r, ∀ a, r = Ok a → Q h' a).
Proof.
  intros Hmono Hc Hm. unfold deferring. do 2 do_step. eapply doing_mono; [exact Hm|].
  intros h1 r _ Hr. do_step. eapply doing_mono; [apply Hc|]. intros h2 [[]|e] E2 _; [|done].
  do_step. intros a ->. eapply Hmono; [exact E2|]. by apply Hr.
Qed.

Lemma staged_mono h h' selection staged :
  extends h h' → staged_complete h selection staged → staged_complete h' selection staged.
Proof.
  intros He [Ho Ht (c & Hn & Hr & Hg & Hv & Hp) Hb Hs Hj]. constructor; [done|by eapply dir_built_mono| |done| |].
  - exists c. split_and!; try done; [by eapply or_zero_mono|]. intros Hu. eapply present_mono; [done|]. by apply Hp.
  - intros Hu. destruct (Hs Hu) as (ref & object & Hread & ?). exists ref, object. split; [|done].
    eapply reference_read_mono; [reflexivity|done|done].
  - intros st rev E1 E2. destruct (Hj _ _ E1 E2). split; [|done]. by eapply reported_extends.
Qed.

Lemma stageTree_doing source info selection h :
  extends h0 h → utf8_ok channel → sel_ok selection →
  doing (stageTree publisher source channel info selection) h (λ h' r, ∀ staged, r = Ok staged →
    staged_complete h' selection staged).
Proof.
  intros Hx Hutf Hsel. unfold stageTree. do_step. eapply doing_mono; [by apply readBase_doing|].
  intros h1 [base|e] E1 Hb; [|done]. specialize (Hb _ eq_refl). do_step.
  eapply doing_mono; [apply captureFiles_doing|]. intros h2 [protected|e] E2 _; [|done].
  apply deferring_doing; [intros; by eapply staged_mono|intros; apply closeProtected_doing|].
  do_step. eapply doing_mono.
  { apply (buildDirectorySelection_doing _ _ channel_reads channel_puts h0); [apply Hpw|apply Hpw|extending|done]. }
  intros h3 [root|e] E3 Ht; [|done]. specialize (Ht _ eq_refl).
  do 2 do_step. apply src_doing; [apply channel_reads|]. intros [currentRoot|e] _; [|done]. simpl.
  do 2 do_step; [done|]. match goal with |- acting _ _ _ ?h _ => set (h4 := h) end.
  assert (extends h3 h4) as E4 by apply extends_snoc.
  apply (base_mono _ h4) in Hb; [|by repeat (etrans; [eassumption|])].
  apply (dir_built_mono _ h4) in Ht; [|done].
  assert (doing (stageCommit publisher channel base root) h4 (λ h' r, ∀ staged, r = Ok staged →
    staged_complete h' selection staged)) as Hnew.
  { eapply doing_mono; [by apply stageCommit_doing|]. intros h' r _ Hr staged ->. by apply Hr. }
  destruct (sb_previous base) as [[[current previous] object]|] eqn:Ep; [|done].
  destruct (bool_decide_reflect (cm_Root previous = root)) as [<-|]; [|done].
  do_step. intros staged [= <-]. pose proof Hb as (_ & Hprev & _). rewrite Ep in Hprev.
  destruct Hprev as (_ & _ & Hexp & _ & _ & [Hn Hv] & Hread).
  constructor; simpl; [done|done| |done| |by apply base_journal].
  - exists previous. split_and!; try done; [by eapply validateCommit_gen|by left].
  - intros _. by exists current, object.
Qed.

Lemma stage_doing source selection h :
  extends h0 h → sel_ok selection →
  doing (stage publisher source channel selection) h (λ h' r, ∀ staged, r = Ok staged →
    staged_complete h' selection staged).
Proof.
  intros Hx Hsel. assert (reads_free G) as Hr by apply channel_reads. unfold stage.
  do_step. apply doing_ctx; [done|]. intros [e|]; [done|]. do 2 do_step.
  destruct (Repository_validateChannel repository channel) as [[]|] eqn:Hch; [|done].
  assert (utf8_ok channel) as Hutf by (by eapply channel_utf8).
  do_step. apply src_doing; [done|]. intros [abs|e] _; [|done].
  do_step. apply doing_ctx; [done|]. intros [e|]; [done|]. do_step. apply src_doing; [done|].
  intros [info|e] _; [|done]. do 2 do_step; [done|]. do_step. apply doing_ctx; [done|]. intros [e|]; [done|].
  do_step. apply src_doing; [done|]. intros [[]|e] _; [|done].
  apply deferring_doing; [intros; by eapply staged_mono|intros; by apply ignore_doing|].
  do_step. unfold checkSourceRoot. do_step. apply src_doing; [done|]. intros [f|e] _; [|done].
  do 2 do_step. apply src_doing; [done|]. intros rootInfo _. do_step. apply source_call_doing; [done|].
  intros closeErr _. do_step; [done|]. apply stageTree_doing; [|done|done].
  repeat (etrans; [|apply extends_snoc]). done.
Qed.

Lemma StageSelected_doing source paths h :
  extends h0 h → doing (StageSelected publisher source channel paths) h (λ h' r, ∀ staged, r = Ok staged →
    ∃ selection, selection_of paths selection ∧ staged_complete h' selection staged).
Proof.
  intros Hx. unfold StageSelected. do_step. eapply doing_mono; [apply newPathSelectionContext_doing, channel_reads|].
  intros h1 [selection|e] E1 Hs; [|done]. specialize (Hs _ eq_refl).
  eapply doing_mono; [apply stage_doing; [by etrans|apply Hs]|]. intros h2 r _ Hr staged ->. exists selection.
  split; [done|by apply Hr].
Qed.

(** ** Committing *)

(** How the channel came to show a committed snapshot: it was not new, or after
    [h0] the store acknowledged exactly its reference, or a reference that was
    read back descends from it, or its journaled intent was applied. *)
Definition visible (h : history eff) (staged : StagedSnapshot) (sn : Snapshot) : Prop :=
  sn = ss_snapshot staged ∧
  (ss_unchanged staged = true ∨
   match verifier with
   | None =>
       (∃ v raw version, rp_store repository = Some v ∧
          sv_open v (ReferenceKey repository channel) raw = Ok (canonicalJSON (referenceOf sn)) ∧
          since h0 h (Ev (Store_CompareAndSwap (ReferenceKey repository channel) (ss_expected staged) raw)
            (Ok version))) ∨
       reconciled publisher h0 h staged commitApplied
   | Some _ => ∃ intent, ss_publicationIntent staged = Some intent ∧
       committed_as publisher channel h0 h intent
   end).

(** The reference of a staged snapshot is complete. *)
Lemma staged_reference h selection staged :
  staged_complete h selection staged → ss_unchanged staged = false →
  complete_reference h (referenceOf (ss_snapshot staged)).
Proof.
  intros Hsc Hu. destruct (sc_commit _ _ _ Hsc) as (c & Hn & Hroot & Hgen & _ & Hpres).
  destruct (sc_tree _ _ _ Hsc) as [Htree _]. rewrite <- Hroot in Htree.
  exists c. split_and!; [done|done|by apply Hpres|done].
Qed.

Lemma complete_reference_mono h h' ref : extends h h' → complete_reference h ref → complete_reference h' ref.
Proof.
  intros He (c & Hn & Hg & Hp & Hu). exists c. split_and!; [done|done|by eapply present_mono|by eapply uploaded_mono].
Qed.

Lemma commitUnchanged_doing staged h :
  doing (commitUnchanged publisher staged) h (λ _ r, ∀ sn, r = Ok sn → sn = ss_snapshot staged).
Proof.
  unfold commitUnchanged. destruct (ss_expected staged) as [expected|]; [|by do_step]. do 2 do_step.
  eapply doing_reading; [apply getReference_reading, channel_reads|]. intros h1 [[ref object]|e] _ _.
  - do 2 do_step; [done|]. do_step. by intros sn [= <-].
  - do_if; [do_step; by intros sn [= <-]|]. do_if; by do_step.
Qed.

Lemma compareAndSwap_doing staged selection h :
  extends h0 h → verifier = None → staged_complete h selection staged → ss_unchanged staged = false →
  doing (Repository_compareAndSwap repository (referenceKey publisher channel) (ss_expected staged)
    (ss_referenceData staged)) h (λ h' r, ∀ ver, r = Ok ver → visible h' staged (ss_snapshot staged)).
Proof.
  intros Hx Hv Hsc Hu. destruct (sc_bytes _ _ _ Hsc Hu) as (Hb & _ & _ & Hfirst). unfold reference_bytes in Hb.
  rewrite Hv in Hb. rewrite Hb. unfold referenceKey. rewrite Hv. unfold Repository_compareAndSwap, with_store.
  pose proof (staged_reference _ _ _ Hsc Hu) as Hcomplete.
  destruct (rp_store repository) as [store|] eqn:Es; [|by do_step]. do_step.
  intros s. apply (sv_CompareAndSwap_spec R G channel_reads); simpl.
  - intros h' raw E' Ho. unfold channel_protocol. rewrite Hv. split; [done|].
    exists store, (referenceOf (ss_snapshot staged)). split_and!; [done|done| |done].
    eapply complete_reference_mono; [by apply extends_reads|done].
  - intros h' e E'. split; [by apply extends_reads|done].
  - intros h' raw r E' Ho _. split; [etrans; [by apply extends_reads|apply extends_snoc]|].
    destruct r as [version|e]; [|done]. do 2 do_step. destruct (validateStoreVersion version); [|done].
    do_step. intros ver [= <-]. split; [done|]. right. rewrite Hv. left. exists store, raw, version.
    split_and!; [done|done|]. apply since_snoc. extending.
Qed.

Lemma Commit_doing staged selection h :
  extends h0 h → staged_complete h selection staged →
  doing (Commit publisher staged) h (λ h' r, ∀ sn, r = Ok sn → visible h' staged sn).
Proof.
  intros Hx Hsc. unfold Commit. do 2 do_step; [done|]. destruct (ss_unchanged staged) eqn:Hu.
  { eapply doing_mono; [apply commitUnchanged_doing|]. intros h1 r _ Hr sn ->. split; [by apply Hr|by left]. }
  destruct (sc_bytes _ _ _ Hsc Hu) as (Hb & Hint & Hof & _). destruct (sc_owner _ _ _ Hsc) as (_ & Hch & Hutf).
  destruct (ss_publicationIntent staged) as [intent|] eqn:Ei.
  - destruct verifier as [v|] eqn:Hv; [|naive_solver]. eapply signed_doing; [exact Hv|].
    eapply doing_mono.
    { apply (commitSigned_doing publisher channel true complete_intent h0);
        [apply Hpw|done|done|done|apply (sc_journal _ _ _ Hsc)|]. rewrite Ei. intros p [= <-].
      destruct (Hof intent eq_refl) as (Hr & Hg & Hc & Hval). split; [done|]. intros h' E'.
      unfold complete_intent. rewrite Hg, Hc, Hr. split; [|done].
      eapply complete_reference_mono; [exact E'|]. by eapply staged_reference. }
    intros h1 r _ Hr sn ->. destruct (Hr _ eq_refl) as (-> & i & Hi & Ha).
    split; [done|]. right. rewrite Hv. by exists i.
  - assert (verifier = None) as Hv by naive_solver. do 2 do_step. rewrite Hch.
    eapply doing_mono; [by eapply compareAndSwap_doing|]. intros h1 [ver|casErr] E1 Hcas.
    { do_step. intros sn [= <-]. by eapply Hcas. }
    do 2 do_step. eapply doing_mono; [apply reconcileCommit_acting; [apply channel_reads|apply hashing_everything]|].
    intros h2 [[| |]|e] E2 [_ Hrec]; do_step; try done. intros sn [= <-]. split; [done|]. right. rewrite Hv.
    right. eapply reconciled_mono; [|reflexivity|by apply Hrec]. by etrans.
Qed.
End Staging.

(** ** Construction *)

Section Construct.
Context `{Chunker} {R : rely eff}.

Lemma calls_doing {S A} (m : M eff S A) h (Q : history eff → result A → Prop) :
  (∀ h' r, extends h h' → Q h' r) → acting any_call R m h Q.
Proof.
  intros HQ s. unfold mwp. eapply wp_mono; [eapply wp_weaken; [| |apply (wp_history R)]; done|].
  intros h' [s' r] He. split; [exact He|]. by apply HQ.
Qed.

Lemma publisherChunking_ok repository options chunking :
  publisherChunking repository options = Ok chunking →
  (∀ d, rp_descriptor repository = Some d → validateRepositoryDescriptor d = Ok tt) →
  normalized chunking = Ok chunking.
Proof.
  unfold publisherChunking. intros Hc Hd. destruct (rp_descriptor repository) as [d|].
  - specialize (Hd d eq_refl). assert (normalized (RepositoryDescriptor_ChunkingOptions d) =
      Ok (RepositoryDescriptor_ChunkingOptions d)) as Hn.
    { unfold validateRepositoryDescriptor in Hd. rewrite !guard_bind_ok, check_bind_ok, guard_bind_ok in Hd.
      destruct Hd as (_ & _ & _ & _ & Hd).
      destruct (normalized (RepositoryDescriptor_ChunkingOptions d)) as [n|]; [|done].
      apply guard_err_ok in Hd. bool_prop. congruence. }
    destruct (po_Chunking options ==? ChunkingOptions_zero); [by simplify_eq|].
    apply result_bind_ok in Hc as (n & Hn' & Hc). rewrite guard_bind_ok in Hc.
    destruct Hc as [_ [= ->]]. by eapply normalized_idem.
  - by eapply normalized_idem.
Qed.

Lemma normalized_polynomial options p :
  normalized options = Ok p → (co_Polynomial options ≤ u64_max)%N → (co_Polynomial p ≤ u64_max)%N.
Proof.
  unfold normalized. rewrite !guard_bind_ok. intros (_ & _ & _ & _ & [= <-]) Hp. simpl.
  destruct (co_Polynomial options =? 0)%N; [by vm_compute|done].
Qed.

Lemma publisherChunking_polynomial repository options chunking :
  publisherChunking repository options = Ok chunking →
  (co_Polynomial (po_Chunking options) ≤ u64_max)%N →
  (∀ d, rp_descriptor repository = Some d → (rc_Polynomial (rd_Chunking d) ≤ u64_max)%N) →
  (co_Polynomial chunking ≤ u64_max)%N.
Proof.
  unfold publisherChunking. intros Hc Ho Hd. destruct (rp_descriptor repository) as [d|].
  - specialize (Hd d eq_refl). destruct (po_Chunking options ==? ChunkingOptions_zero); [by simplify_eq|].
    apply result_bind_ok in Hc as (n & Hn' & Hc). rewrite guard_bind_ok in Hc.
    destruct Hc as [_ [= ->]]. by eapply normalized_polynomial.
  - by eapply normalized_polynomial.
Qed.

Lemma checkPublisherTrust_ok repository options :
  checkPublisherTrust repository options = Ok tt →
  (the (po_ReferenceSigner options) = None ↔ the (po_ReferenceVerifier options) = None) ∧
  (the (po_ReferenceVerifier options) = None ↔ is_nil (po_PublicationJournal options) = true).
Proof.
  unfold checkPublisherTrust. destruct (the (po_ReferenceSigner options)), (the (po_ReferenceVerifier options));
    [| done | done |].
  - rewrite !guard_bind_ok. intros (_ & _ & Hj & _). by rewrite Hj.
  - rewrite guard_err_ok, !orb_false_iff, !negb_false_iff. intros [[Hj _] _]. by rewrite Hj.
Qed.
End Construct.

(** ** Properties *)

Lemma acting_mwp {S A} (G : guarantee eff) (R : rely eff) (m : M eff S A) s h (Q : history eff → result A → Prop) :
  acting G R m h Q → mwp R G m s h (λ h' _ r, Q h' r).
Proof. intros Hm. eapply mwp_mono; [apply Hm|]. by intros h' s' r [_ Hr]. Qed.

(** C3: a publication is complete before it is visible.  Whatever the store, the
    journal, the signer and the context answer, and however the source tree
    changes meanwhile (its listings are sets of path components and its sizes
    and times are int64), [Publish] writes immutable objects only under the
    digest of their content.  An unsigned publisher compare-and-swaps only the
    channel's reference, only to the canonical encoding of a reference whose
    commit and every directory, file, link and chunk below it the store has
    acknowledged, and without a precondition only at generation 1.  A signed one
    follows the write-ahead protocol of its journal: it swaps the reference only
    to the bytes of the intent the journal holds, and asks the journal to hold a
    new intent only if its bytes are a signed reference whose commit and whole
    tree the store has acknowledged.  If it returns a snapshot, then the tree of
    that snapshot is complete, mirrors what the call saw of the source (see
    [mirrors]) and is made of manifests that a consumer accepts, the commit names
    its root and generation, and the channel shows the snapshot:
    during the call the store acknowledged exactly its reference, or a reference
    that was read back from the store descends from it, or the journaled intent
    for it was applied (see [committed_as]), or it is not new and a reference
    read, and authenticated, while staging shows it. *)
Theorem Publish_complete `{AEADLaws} `{Chunker} (publisher : Publisher) (source channel : bytes)
    (s : PublisherState) (h : history eff) :
  publisher_wf publisher →
  mwp source_rely (channel_protocol publisher channel) (Publish publisher source channel) s h
    (λ h' _ r, ∀ sn, r = Ok sn → ∃ staged,
      staged_complete publisher channel h h' None staged ∧ visible publisher channel h h' staged sn).
Proof.
  intros Hpw. apply acting_mwp. unfold Publish. do_step. unfold Stage.
  eapply doing_mono; [by apply stage_doing|]. intros h1 [staged|e] E1 Hst; [|done].
  eapply doing_mono; [by apply (Commit_doing publisher channel h Hpw staged None), Hst|].
  intros h2 r E2 Hv sn ->. exists staged. split; [|by apply Hv]. eapply staged_mono; [done|]. by apply Hst.
Qed.

(** C24: a selection is exact.  The tree of a snapshot that [PublishSelected]
    returns, whose directory manifests the store has all acknowledged, mirrors
    what the call saw of the source, restricted to the selection: each of its
    directories has exactly those names of the complete listing of the source
    directory it stands for that are listed paths, below a listed path or on the
    way to one, each recorded as the directory, file or link it was inspected to
    be; so nothing below a listed path is dropped and nothing else is shown.
    Moreover every listed path is shown. *)
Theorem PublishSelected_exact `{AEADLaws} `{Chunker} (publisher : Publisher) (source channel : bytes)
    (paths : list bytes) (s : PublisherState) (h : history eff) :
  publisher_wf publisher →
  mwp source_rely (channel_protocol publisher channel) (PublishSelected publisher source channel paths) s h
    (λ h' _ r, ∀ sn, r = Ok sn →
      mirrors publisher h h' (selects paths) dot (sn_Root sn) ∧
      ∃ shown,
        tree_paths publisher h' shown (sn_Root sn) ∧ (∀ path, shown path → selects paths path) ∧
        (∀ value, value ∈ paths → pathComponents value ≠ [] → shown (pathComponents value))).
Proof.
  intros Hpw. apply acting_mwp. unfold PublishSelected. do_step.
  eapply doing_mono; [by apply (StageSelected_doing publisher channel h)|]. intros h1 [staged|e] E1 Hst; [|done].
  destruct (Hst _ eq_refl) as (selection & (_ & Hall & Hat & Hnone) & Hsc).
  eapply doing_mono; [by apply (Commit_doing publisher channel h Hpw staged selection)|].
  intros h2 r E2 Hv sn ->. destruct (Hv _ eq_refl) as [-> _].
  destruct (sc_tree _ _ _ _ _ _ Hsc) as (_ & (P & Htree & Hp1 & Hp2) & Hmir).
  split; [eapply mirrors_mono; [done|]; by eapply mirrors_iff|].
  exists P. split_and!; [by eapply tree_paths_mono| |].
  - intros path Hp. apply Hall; [by eapply tree_paths_nonempty|by apply Hp1].
  - intros value Hin Hne. destruct selection as [sel|]; [|by destruct Hne; apply Hnone].
    eapply Hp2; [done|done|]. apply (Hat sel); [done|done|]. by exists value.
Qed.

(** Publishers are well formed.  A publisher that the constructor returns,
    for options and a commissioned descriptor of Go's types, has a normalized
    chunking profile, between 1 and 100 read attempts, a writable repository,
    and a signer exactly if it has a verifier exactly if it has a journal. *)
Theorem NewPublisher_wf `{Chunker} (repository : Repository) (options : PublisherOptions)
    (R : rely eff) (h : history eff) :
  (co_Polynomial (po_Chunking options) ≤ u64_max)%N →
  (∀ c, po_TrustedCheckpoint options = Some c → (wm_Generation c ≤ u64_max)%N) →
  (∀ d, rp_descriptor repository = Some d →
     validateRepositoryDescriptor d = Ok tt ∧ (rc_Polynomial (rd_Chunking d) ≤ u64_max)%N) →
  mwp R any_call (NewPublisher (Some repository) options) tt h (λ h' _ r, ∀ p st, r = Ok (p, st) →
    publisher_wf p ∧ pb_repository p = repository ∧ rp_store repository ≠ None ∧
    1 ≤ pb_StableReadTries p ≤ 100 ∧
    (pb_referenceVerifier p = None ↔ pb_publicationJournal p = false)).
Proof.
  intros Hpol Hck Hdesc. apply acting_mwp. unfold NewPublisher.
  do 5 (do 2 do_step; [done|]). do 2 do_step.
  destruct (publisherChunking repository options) as [chunking|] eqn:Ec; [|done].
  do 2 do_step; [done|]. do 2 do_step.
  destruct (checkPublisherTrust repository options) as [[]|] eqn:Et; [|done].
  do_step. apply calls_doing. intros h1 [protected|e] _; [|done].
  do_step. apply calls_doing. intros h2 [seen|e] _; [|done]. do_step. intros p st [= <- _].
  apply checkPublisherTrust_ok in Et as [Ht1 Ht2]. bool_prop. split_and!; simpl; [|done|by destruct (rp_store repository)|lia|lia|].
  - constructor; simpl; [|eapply publisherChunking_polynomial; [exact Ec|done|]|done|done];
      [eapply publisherChunking_ok; [exact Ec|]|]; intros d Hd; by destruct (Hdesc d Hd).
  - by rewrite negb_false_iff.
Qed.

(** ** A small source tree *)

Inductive toy_node := ToyDir (names : list bytes) | ToyFile (content : bytes) | ToyLink (target : bytes).

Definition toy_tree : list (bytes * toy_node) :=
  [(str ".", ToyDir [str "docs"; str "a.txt"; str "secret"]); (str "a.txt", ToyFile (str "hello"));
   (str "docs", ToyDir [str "link"; str "b.txt"]); (str "docs/b.txt", ToyFile (str "bee"));
   (str "docs/link", ToyLink (str "../a.txt")); (str "secret", ToyFile (str "hush"))].

Fixpoint toy_find (n : N) (path : bytes) (tree : list (bytes * toy_node)) : option (N * toy_node) :=
  match tree with
  | [] => None
  | (p, node) :: tree => if p ==? path then Some (n, node) else toy_find (n + 1) path tree
  end.

Definition toy_info (path : bytes) : result FileInfo :=
  match toy_find 0 path toy_tree with
  | None => Err [OsErrNotExist]
  | Some (n, node) =>
      Ok {| fi_ID := n; fi_ModTime := 1700000000 + Z.of_N n;
            fi_Size := match node with ToyFile c => len c | ToyLink t => len t | ToyDir _ => 4096 end;
            fi_Mode := match node with
                       | ToyFile _ => 420 | ToyLink _ => ModeSymlink + 511 | ToyDir _ => ModeDir + 493 end |}
  end.

(** The open files: path, and whether the content was handed out. *)
Record toy_source := { ts_world : toy_world; ts_open : list (bytes * bool) }.

Definition toy_path (w : toy_source) (file : handle) : bytes :=
  match ts_open w !! N.to_nat file with Some (p, _) => p | None => [] end.
Definition toy_opened (w : toy_source) (path : bytes) : toy_source * result handle :=
  ({| ts_world := ts_world w; ts_open := ts_open w ++ [(path, false)] |}, Ok (N.of_nat (length (ts_open w)))).
(** Hands out a value once. *)
Definition toy_once {A} (w : toy_source) (file : handle) (first later : A) : toy_source * A :=
  match ts_open w !! N.to_nat file with
  | Some (p, false) =>
      ({| ts_world := ts_world w; ts_open := <[N.to_nat file := (p, true)]> (ts_open w) |}, first)
  | _ => (w, later)
  end.

Definition toy_source_call {X} (op : src_eff X) (w : toy_source) : toy_source * X :=
  match op in src_eff T return toy_source * T with
  | Filepath_Abs _ => (w, Ok (str "/src"))
  | Os_Lstat _ => (w, toy_info dot)
  | Os_OpenRoot _ => (w, Ok tt)
  | Root_Open path => toy_opened w path
  | Root_Lstat path => (w, toy_info path)
  | Root_Stat path => (w, toy_info path)
  | Root_Readlink path =>
      (w, match toy_find 0 path toy_tree with Some (_, ToyLink t) => Ok t | _ => Err [] end)
  | File_Stat file => (w, toy_info (toy_path w file))
  | File_ReadDir file _ =>
      toy_once w file
        (match toy_find 0 (toy_path w file) toy_tree with Some (_, ToyDir names) => names | _ => [] end, None)
        ([], Some [IoEOF])
  | Splitter_Next file _ _ _ _ =>
      toy_once w file
        (Ok match toy_find 0 (toy_path w file) toy_tree with Some (_, ToyFile c) => Some c | _ => None end)
        (Ok None)
  | Time_Now => (w, 1700000100)
  | op' => (w, refuse_source op')
  end.

Definition toy_source_serve : handler eff toy_source := λ X e w,
  match e in eff T return toy_source * T with
  | Source op => toy_source_call op w
  | e' => let '(world, x) := toy_serve _ e' (ts_world w) in
          ({| ts_world := world; ts_open := ts_open w |}, x)
  end.

Definition toy_empty : toy_source :=
  {| ts_world := {| tw_store := New; tw_journal := None; tw_revision := 0 |}; ts_open := [] |}.

Definition toy_unsigned : Publisher :=
  {| pb_Chunking := pb_Chunking toy_publisher; pb_StableReadTries := 3;
     pb_Symlinks := SymlinkRejectExternal; pb_ProtectedSourceFiles := [];
     pb_repository := pb_repository toy_publisher; pb_referenceSigner := None;
     pb_referenceVerifier := None; pb_publicationJournal := false; pb_trustedCheckpoint := None;
     pb_allowTrustOnFirstUse := false |}.

Definition toy_generations (publisher : Publisher) (calls : list (M eff PublisherState Snapshot)) : list (option N) :=
  (foldl (λ '(w, s, out) call,
     let '(w', (s', r)) := run toy_source_serve (call s) w in
     (w', s', out ++ [match r with Ok sn => Some (sn_Generation sn) | Err _ => None end]))
    (toy_empty, PublisherState_zero, []) calls).2.

(** Publishing twice without a change leaves the generation; a selection is a
    change; a selection that is not in the source is refused. *)
Example toy_publish_run publisher : publisher = toy_unsigned ∨ publisher = toy_publisher →
  toy_generations publisher
    [Publish (H:=toy_aead) (H0:=toy_chunker) publisher (str "src") (str "main");
     Publish (H:=toy_aead) (H0:=toy_chunker) publisher (str "src") (str "main");
     PublishSelected (H:=toy_aead) (H0:=toy_chunker) publisher (str "src") (str "main") [str "docs/b.txt"; str "a.txt"];
     PublishSelected (H:=toy_aead) (H0:=toy_chunker) publisher (str "src") (str "main") [str "docs/missing"]] =
  [Some 1%N; Some 1%N; Some 2%N; None].
Proof. intros [->| ->]; vm_compute; reflexivity. Qed.

Lemma toy_unsigned_wf : publisher_wf (H:=toy_chunker) toy_unsigned.
Proof. constructor; [by vm_compute|by vm_compute|done|done]. Qed.

Lemma Publish_complete_witness :
  mwp source_rely (channel_protocol (H:=toy_aead) (H1:=toy_chunker) toy_unsigned (str "main"))
    (Publish (H:=toy_aead) (H0:=toy_chunker) toy_unsigned (str "src") (str "main")) PublisherState_zero []
    (λ h' _ r, ∀ sn, r = Ok sn → ∃ staged,
      staged_complete (H:=toy_aead) (H1:=toy_chunker) toy_unsigned (str "main") [] h' None staged ∧
      visible (H:=toy_aead) toy_unsigned (str "main") [] h' staged sn).
Proof.
  apply (@Publish_complete toy_aead toy_aead_laws toy_chunker toy_unsigned (str "src") (str "main")
    PublisherState_zero []). exact toy_unsigned_wf.
Defined.

Lemma PublishSelected_exact_witness :
  mwp source_rely (channel_protocol (H:=toy_aead) (H1:=toy_chunker) toy_unsigned (str "main"))
    (PublishSelected (H:=toy_aead) (H0:=toy_chunker) toy_unsigned (str "src") (str "main") [str "docs/b.txt"])
    PublisherState_zero [] (λ h' _ r, ∀ sn, r = Ok sn →
      mirrors (H:=toy_aead) toy_unsigned [] h' (selects [str "docs/b.txt"]) dot (sn_Root sn) ∧
      ∃ shown,
      tree_paths (H:=toy_aead) toy_unsigned h' shown (sn_Root sn) ∧ (∀ path, shown path → selects [str "docs/b.txt"] path) ∧
      (∀ value, value ∈ [str "docs/b.txt"] → pathComponents value ≠ [] → shown (pathComponents value))).
Proof.
  apply (@PublishSelected_exact toy_aead toy_aead_laws toy_chunker toy_unsigned (str "src") (str "main")
    [str "docs/b.txt"] PublisherState_zero []). exact toy_unsigned_wf.
Defined.

Lemma reconcileCommit_decides_witness :
  let sn := ss_snapshot toy_staged in
  mwp any_rely any_call (reconcileCommit (H:=toy_aead) toy_publisher toy_staged) PublisherState_zero [] (λ h' _ r,
    ext_reads [] h' ∧
    ∀ outcome, r = Ok outcome →
      ∃ ref object, reference_read (H:=toy_aead) (pb_repository toy_publisher) (str "main")
        (Some (as_verifier toy_verifier)) [] h' ref object ∧
      let descends := ancestor (sr_Generation ref) (sr_Commit ref) (sn_Generation sn) (sn_Commit sn) in
      match outcome with
      | commitUnknown => (sr_Generation ref < sn_Generation sn)%N
      | commitApplied => descends
      | commitRejected => descends → sha256_collision
      end).
Proof.
  by apply (@reconcileCommit_decides _ toy_aead toy_aead_laws toy_publisher toy_staged any_rely PublisherState_zero []).
Defined.

Definition toy_options : PublisherOptions :=
  {| po_Chunking := ChunkingOptions_zero; po_StableReadTries := 0; po_Symlinks := SymlinkPreserve;
     po_ProtectedSourceFiles := []; po_DangerouslyAllowUncommissionedRepository := true;
     po_ReferenceSigner := Configured (as_signer toy_signer);
     po_ReferenceVerifier := Configured (as_verifier toy_verifier);
     po_PublicationJournal := Configured tt; po_TrustedCheckpoint := None;
     po_AllowTrustOnFirstUse := true |}.

(** The constructor accepts them. *)
Example toy_new_publisher :
  match (run (λ X e w, (w, refuse (X:=X) e))
    (NewPublisher (H:=toy_chunker) (Some (pb_repository toy_publisher)) toy_options tt) tt).2.2 with
  | Ok (p, _) => pb_StableReadTries p = 3 ∧ co_MaxSize (pb_Chunking p) = 4194304
  | Err _ => False
  end.
Proof. vm_compute. by split. Qed.

Lemma NewPublisher_wf_witness :
  mwp any_rely any_call (NewPublisher (H:=toy_chunker) (Some (pb_repository toy_publisher)) toy_options) tt []
    (λ h' _ r, ∀ p st, r = Ok (p, st) →
    publisher_wf (H:=toy_chunker) p ∧ pb_repository p = pb_repository toy_publisher ∧
    rp_store (pb_repository toy_publisher) ≠ None ∧ 1 ≤ pb_StableReadTries p ≤ 100 ∧
    (pb_referenceVerifier p = None ↔ pb_publicationJournal p = false)).
Proof.
  apply (@NewPublisher_wf toy_chunker (pb_repository toy_publisher) toy_options any_rely []).
  - by vm_compute.
  - intros c Hc. discriminate Hc.
  - intros d Hd. discriminate Hd.
Defined.
